(* ===== verification/_CoqProject ===== *)
-Q . S2P
Prelude.v
JsNumber.v
JsString.v
GatewayPolicy.v
Ledger.v
OwnerLedger.v
TierBudget.v
SlidingWindow.v
NetworkGate.v
OwnerEnforcement.v
OwnerRelayGate.v
FenceStore.v
ConversationProtocol.v
ConversationView.v
ConversationSocket.v
Json.v
SqlTable.v
Journal.v
JournalContext.v
JournalManifest.v
ObjectKeys.v
Archive.v
ArchiveRead.v
ResourceLocks.v
ResourceArbiter.v
Compaction.v
DispatchPolicy.v
DispatchRows.v
OwnerGateDispatch.v
OwnerGateSafety.v
OwnerGateTraces.v
OwnerGateHandoff.v
RunCoordinator.v
Text.v
Weave.v
EditDiff.v
Hashline.v
EditText.v
EditDiffCells.v
EditTextPlan.v
HostPaths.v
FileTools.v
PatchParse.v
PatchPlan.v
PatchApply.v
FileLock.v
WorkspaceFs.v
FileBoundary.v
FileBoundarySafety.v
FileBoundaryQuiet.v
FileBoundaryWrite.v
SchedulerRecords.v
Scheduler.v
SchedulerOrder.v
SchedulerSafety.v
SchedulerRuns.v
SchedulerWatch.v
SchedulerRestart.v
SchedulerFindings.v
Calendar.v
NumberText.v
BillingPlans.v
Billing.v
BillingStripe.v
BillingWindows.v
BillingCredit.v
BillingGrants.v
BillingFindings.v
