(* ===== verification/Prelude.v ===== *)
(** * Stella: a verification development

    Stella is an assistant: desktop and mobile clients, a runtime that runs its agents and their
    tools on a device or in a cloud sandbox, and a set of Cloudflare Workers.  This library
    models, in Rocq, the parts of the workers, of the runtime and of the shared packages where
    correctness is a matter of state: who may spend what, which turn may write, where a turn
    runs, which record a client sees, what is archived, and what the tools of a model do to the
    files of its user.

    ** How the parts fit

    A device opens a conversation socket ([packages/contracts/conversation-socket.ts],
    [conversation-store-reducer.ts]) to the Durable Object of its conversation.  That object
    keeps the transcript in SQLite ([workers/cloud-builder/src/journal.ts]) and moves old rows
    into R2 objects ([archive.ts]).  A request for a turn goes to the owner's gate
    ([owner-gate/dispatch.ts]), which places it on a device or in the cloud; in the runtime the
    turns of a conversation share one lane ([runner/run-coordinator.ts]).  Turns run under a
    lease of the owner's fence ([owner-fence-store.ts]); the models they call are paid for
    through the model gateway, which reserves and settles cost against capability ledgers
    ([ledger.ts], [owner-ledger-store.ts]), per-tier budgets, an egress gate, and the owner's
    relay gate with its enforcement state.  What an owner pays for is kept by the owner's store
    ([owner-store/domains/billing.ts]): a plan with its windows, credit bought by a checkout, grants
    of budget to the gateway, and the usage it reports back.  The calls a model makes are tools: those on files
    ([packages/runtime/kernel/tools]) check the path, take the locks of the files, and read and
    write through the boundary of the workspace; those on the screen go through the arbiter of
    the computer's resources.  Turns also start by themselves: the scheduler of the device
    ([local-scheduler-service.ts]) runs reminders, tasks, watches and heartbeats when they are
    due, and puts what they say into the inbox of a conversation.

    ** Files

    - [Prelude], [JsNumber], [JsString], [Json], [SqlTable]: the state and exception
      computation the synchronous storage methods run in, binary64 numbers, strings with
      their UTF-16 and UTF-8 lengths, JSON values with [JSON.stringify], and SQL tables
      keyed by an integer with their ordered reads.
    - [GatewayPolicy], [Ledger], [OwnerLedger], [TierBudget], [SlidingWindow],
      [NetworkGate], [OwnerEnforcement], [OwnerRelayGate]: the objects of
      [workers/model-gateway/src].  [Ledger] is one capability's ledger; [OwnerLedger]
      keeps many in one store and is proved to refine a map of them.
    - [NumberText], [Calendar]: [Number(text)] and the quotients of doubles, and the UTC methods of
      [Date].  [BillingPlans]: the plans read from the deployment's secrets ([billing/plans.ts]).
      [Billing]: the ledger of an owner ([owner-store/domains/billing.ts]) as computations on its
      tables; [BillingStripe]: the events of Stripe, split at the fetch of their subscription, and
      [BillingStripe.step], one event of an owner's object.  [BillingWindows], [BillingCredit] and
      [BillingGrants] prove about them; [BillingFindings] has the runs the code does not mean.
    - [FenceStore]: [workers/cloud-builder/src/owner-fence-store.ts], leases, queued
      cancellations, purge generations, mirror and migration.
    - [ConversationProtocol], [ConversationView], [ConversationSocket]: the client side of
      the conversation stream.
    - [Journal], [JournalContext], [JournalManifest]: [journal.ts] with
      [transcript-search.ts]; the tables are the fields of the record [db], every method
      that writes them a function on it.
    - [ObjectKeys], [Archive], [ArchiveRead]: [archive.ts].  [Archive.exec] is one event of
      a world in which rollovers may overlap and uploads fail, land late, or are cut off by
      an eviction; [Archive.alone] says of a run that its rollovers do not overlap; [ArchiveRead] reads ranges across both stores.
    - [ResourceLocks], [ResourceArbiter]: [computer-use/resource-arbiter.ts]; the tasks of
      requests, their locks with queues, aborts, generations and what a session has observed.
    - [Compaction]: [agent-runtime/orchestrator-compaction.ts], the choice of the cut.
    - [DispatchPolicy], [DispatchRows], [OwnerGateDispatch], [OwnerGateSafety],
      [OwnerGateTraces], [OwnerGateHandoff]: the placement of requests
      ([dispatch-policy.ts], [owner-gate/dispatch.ts], [cloud-dispatch.ts]) as events on the
      rows of the gate, with the awaits of a start as steps of their own.
    - [RunCoordinator]: the lane of the orchestrator's turns.
    - [Text], [Weave]: text as UTF-16 units with the language's string functions, and lists
      laid out between gaps, the shape of every theorem about edits.
    - [EditDiff], [EditDiffCells], [Hashline], [EditText], [EditTextPlan]: the edit tool on a
      text ([edit-diff.ts], [hashline.ts], [edit-text.ts]): line endings, exact and tolerant
      matches with the way back to the original, line anchors, and the plan of a list of edits.
    - [HostPaths]: the expansion, confinement and protection of paths ([utils.ts], [file.ts],
      [command-safety.ts]).  [FileTools]: Write and the forms of Edit as steps on the files, and the
      writes of the tools, which are read back, tried again, and can fail half way.
    - [PatchParse], [PatchPlan], [PatchApply]: [apply-patch.ts], from the envelope to the files.
    - [FileLock]: [file-write-lock.ts], the chains of calls as steps that interleave; the
      operations of a patch are instances of the class [FileLock.Local] of functions that
      their locks protect.
    - [WorkspaceFs], [FileBoundary], [FileBoundarySafety], [FileBoundaryQuiet],
      [FileBoundaryWrite]: [workspace-file-boundary.ts] as programs of calls on inodes
      ([WorkspaceFs.prog]), run against a schedule of changes by another user; a small program
      logic for what holds whatever that user does, and the behaviour when it does nothing.
    - [SchedulerRecords], [Scheduler]: [local-scheduler-service.ts].  The first has the records,
      their validation and the pure functions on times, texts and messages; the second the
      service: its records are objects of a heap, which its lists and its executions share, a
      method is a computation on its state, an executor is split at its awaits into
      [Scheduler.executeCronJob] and [Scheduler.resume], and [Scheduler.step] is one event: a
      call, a timer that wakes, an answer, a fiber that goes on or is interrupted.
      [SchedulerOrder] (times and orders), [SchedulerSafety] (the invariant of the timer, the
      tick and the objects), [SchedulerRuns] (running flags), [SchedulerWatch] (reports of
      watches), [SchedulerRestart] (inboxes and the file) and [SchedulerFindings] (runs that do
      what the code does not mean) prove about it.

    Names follow the source.  A record field carries a prefix where two TypeScript types
    share a field name; a method becomes a function whose last argument is the state.

    ** What the theorems show

    - Money: a ledger never lets reserved and spent cost pass the budget, replays a
      settled result, and the owner store behaves as independent ledgers; tier windows
      stay within their ceilings; relay and mint windows are bounded.  Billing is off or has a
      complete configuration; under one, each request is settled once and by its owner; windows
      tile time and count the spend inside them; credit is conserved, each checkout counted once;
      an owner has access exactly while something is left; and grants never hold more than is left,
      but for spend charged beyond what its grants held.
    - Authority: lease identities are permanent and an expired lease is never active; a
      canceled request never begins; enforcement changes commute.
    - Placement: work a device accepted never runs in the cloud, a chat placed twice runs one
      turn, a repeated submission places nothing new; the lane of the orchestrator serves two
      queues in order, strands no turn, and answers every queued caller when it shuts down (a run
      that does not pass the queue is not refused then).
    - The stream: as long as the server sends [ready] and repair replies as the protocol has
      them ([ConversationSocket.trace_ok]), whatever rows, timers and reconnects come, the rows a
      client applies are gapless and without repeats, and a gap never stays silent.
    - The transcript: a new row reads back as what was published, a retry changes nothing, a lost
      database comes back under a new epoch, repair closes every open tool call, the
      context a turn sends is the longest that fits, compaction never splits a tool call, and
      no interleaving of appends, failures, evictions and rollovers that do not overlap loses a
      record or serves one twice (overlapping rollovers can lose records, and a cut that commits
      during a read leaves a gap in it; both have an example).
    - Files: edits and patches replace exactly what they matched and leave the rest; the
      envelope of a patch is read as it was written, a patch that fits is applied, and a failed
      one leaves the operations before it and, if a write failed half way, the file it was writing
      in any state; a tool touches only the paths it named, inside its
      workspace and outside protected directories; calls under locks are serial and never
      wait in a circle; the boundary reads and writes only files of the tool's user under any
      interference, and what it wrote it reads back.
    - The screen: operations on one resource exclude each other, the arbiter drains, and an
      observation is refused exactly if the resource has changed since.
    - The schedule, but for a start during a tick of the life before and an update that throws half
      way ([SchedulerSafety.orderly]): an item that may run always has a tick or a timer that comes to it, the one
      that has waited longest goes first, executions do not overlap, an item that says it is
      running is being run, every report of a watch is told once and in order, inboxes are
      sorted and bounded, and a restart restores what a call left that
      found the file up to date.

    Examples at the end of some files show where the code does something it does not say.

    ** Fuel, bounds and parameters

    Recursion that is not structural runs on fuel with a proof that it suffices:
    [Archive.uploadLoop] gets one more than the number of rows, [Archive.walkBack] the
    distance it may walk; the loops of [PatchParse] get the number of lines left
    ([chunks_fuel], [parseOps_fuel]); [EditDiff.findOccurrences] and [EditText.lineSearch]
    their length; [FileBoundary.readLoop] and [writeLoop] one more than the bytes to move, as
    every turn moves one; [RunCoordinator.drainLoop] runs a turn at most.  Times, counters and
    sizes are [Z]; where the code works on numbers that reach the end of the safe integers or
    are not integral, they are the binary64 values of [JsNumber] with the standard library's
    correctly rounded operations.

    [sha256Hex], the tables of Unicode (normal forms, marks, lower case), what a host
    refuses to read or remove and what becomes of a write ([FileTools.Writer]; the same write is
    answered the same way throughout a call) are parameters; the theorems that need something of them say it
    as a hypothesis.  So are, for the scheduler, croner's next run, the time zones of [Intl] and
    [localeCompare]; its histories ([SchedulerSafety.reaches]) exclude a start during a tick of
    the life before and an update that throws half way, and [SchedulerFindings] shows why.  For
    billing they are the secrets of the deployment and what Stripe answers;
    amounts of money are integers ([Z]) but for the cost of an event, a double that is floored.

    ** What is not modelled

    HTTP routing, authentication, WebSocket transport and timers other than as events; gzip and
    the line format inside an archived object; SQL errors of a damaged schema; the cache of running agents and the read-only reports of
    the journal; the device sockets, steering and model grants of the owner's gate.  Of the file
    tools: images, the texts of error messages, the redactions of [safety.ts] but the block of a
    private key, a host other than POSIX, the boundary on hosts other than Linux, and lone
    surrogates, which a file cannot hold.  Of billing: the requests that open a checkout or the
    portal, the view of the status, the transport to Stripe, costs that are not finite, and the cache
    of the configuration.  Of the
    scheduler: its listeners, which only read, writes of its file that fail, records of the file
    with fields of the wrong type, and fractions of a millisecond.  The other
    tools of the runtime, its connectors, its agents and their sessions, the clients, the
    website and the other workers are outside. *)

From Corelib Require Import ssreflect.
From stdpp Require Import prelude gmap strings sorting.

#[local] Open Scope Z_scope.

(** ** State and exceptions

    The Durable Object methods are synchronous TypeScript over a SQLite handle: a
    call reads and writes the store and either returns or throws.  A throw does not
    undo the writes that ran before it; only [transactionSync] does.  [M S E A] is
    that computation with the store passed explicitly. *)

Definition M (S E A : Type) : Type := S → S * (E + A).

Section monad.
Context {S E : Type}.

Definition ret {A} (a : A) : M S E A := λ s, (s, inr a).
Definition throw {A} (e : E) : M S E A := λ s, (s, inl e).
Definition bind {A B} (m : M S E A) (k : A → M S E B) : M S E B := λ s,
  match m s with
  | (s', inl e) => (s', inl e)
  | (s', inr a) => k a s'
  end.
Definition modify (f : S → S) : M S E () := λ s, (f s, inr ()).
Definition gets {A} (f : S → A) : M S E A := λ s, (s, inr (f s)).

(** [ctx.storage.transactionSync]: a throw rolls every write back. *)
Definition transactionSync {A} (m : M S E A) : M S E A := λ s,
  match m s with
  | (_, inl e) => (s, inl e)
  | (s', inr a) => (s', inr a)
  end.
End monad.

Declare Scope js_scope.
Delimit Scope js_scope with js.
Notation "'let*' x ':=' c 'in' k" := (bind c (λ x, k))
  (at level 10, x name, c at level 100, k at level 200) : js_scope.
Notation "c ';;;' k" := (bind c (λ _, k))
  (at level 199, right associativity) : js_scope.
#[global] Open Scope js_scope.

(** ** Reasoning about a method through what it does to the store *)

Section preserves.
Context {S E : Type} (R : S → S → Prop) (HR : PreOrder R).

(** Every run of [m], returning or throwing, relates the stores before and after. *)
Definition preserves {A} (m : M S E A) : Prop := ∀ s, R s (fst (m s)).

Lemma preserves_ret {A} (a : A) : preserves (ret a).
Proof. intros s. done. Qed.

Lemma preserves_throw {A} e : preserves (A:=A) (throw e).
Proof. intros s. done. Qed.

Lemma preserves_gets {A} (f : S → A) : preserves (gets f).
Proof. intros s. done. Qed.

Lemma preserves_modify f : (∀ s, R s (f s)) → preserves (A:=()) (modify f).
Proof. done. Qed.

Lemma preserves_bind {A B} (c : M S E A) (k : A → M S E B) :
  preserves c → (∀ x, preserves (k x)) → preserves (bind c k).
Proof.
  intros Hc Hk s. specialize (Hc s). unfold bind. destruct (c s) as [s' [e|x]]; [done|].
  etrans; [exact Hc|apply Hk].
Qed.

(** The continuation may use what [c] returned, and from which store. *)
Lemma preserves_bind_result {A B} (c : M S E A) (k : A → M S E B) :
  preserves c → (∀ s x, snd (c s) = inr x → R (fst (c s)) (fst (k x (fst (c s))))) →
  preserves (bind c k).
Proof.
  intros Hc Hk s. specialize (Hc s). specialize (Hk s). unfold bind.
  destruct (c s) as [s' [e|x]]; [done|]. etrans; [exact Hc|by apply Hk].
Qed.

Lemma preserves_if {A} (b : bool) (m m' : M S E A) :
  preserves m → preserves m' → preserves (if b then m else m').
Proof. by destruct b. Qed.
End preserves.

(** A computation that never writes. *)
Definition readonly {S E A} (m : M S E A) : Prop := ∀ s, fst (m s) = s.

Lemma readonly_preserves {S E A} (R : S → S → Prop) (HR : PreOrder R) (m : M S E A) :
  readonly m → preserves R m.
Proof. intros Hm s. by rw Hm. Qed.

Lemma readonly_bind {S E A B} (c : M S E A) (k : A → M S E B) :
  readonly c → (∀ x, readonly (k x)) → readonly (bind c k).
Proof.
  intros Hc Hk s. specialize (Hc s). unfold bind.
  destruct (c s) as [s' [e|x]]; simpl in *; subst; [done|apply Hk].
Qed.

(** Walks a method: reads and validations are skipped, what is left are its writes. *)
Ltac preserve :=
  repeat first
    [ apply preserves_ret; apply _
    | apply preserves_throw; apply _
    | apply preserves_gets; apply _
    | apply readonly_preserves; [apply _|solve [eauto with stella]]
    | apply preserves_if
    | apply preserves_bind; [apply _| |intros ?]
    | match goal with |- preserves _ (match ?d with _ => _ end) => destruct d end ].

(** ** SQL aggregates

    A table with a primary key is a [gmap] from the key to the row; a table whose
    only key is an AUTOINCREMENT id is the list of its rows in insertion order. *)

(** The sum of [f] over the keys and rows of a table. *)
Definition sum_kv `{Countable K} {V} (f : K → V → Z) (m : gmap K V) : Z :=
  map_fold (λ k v acc, f k v + acc) 0 m.

(** [SELECT SUM(f) FROM t WHERE p], with [COALESCE(..., 0)] for no row. *)
Definition sum_where `{Countable K} {V} (p : K → V → bool) (f : V → Z) (m : gmap K V) : Z :=
  sum_kv (λ k v, if p k v then f v else 0) m.

(** [SELECT SUM(f) FROM t], with [COALESCE(..., 0)] for an empty table. *)
Definition sum_by `{Countable K} {V} (f : V → Z) (m : gmap K V) : Z :=
  map_fold (λ _ v acc, f v + acc) 0 m.

(** [SELECT MIN(f) FROM t]: NULL on no rows. *)
Fixpoint list_min (l : list Z) : option Z :=
  match l with
  | [] => None
  | x :: l' => Some (match list_min l' with Some y => Z.min x y | None => x end)
  end.

Definition rows `{Countable K} {V} (m : gmap K V) : list V := (map_to_list m).*2.

Definition min_by `{Countable K} {V} (f : V → Z) (m : gmap K V) : option Z :=
  list_min (f <$> rows m).

(** [SELECT MIN(k) FROM t WHERE p] for an integer primary key [k]. *)
Definition min_key_where {V} (p : Z → V → bool) (m : gmap Z V) : option Z :=
  list_min (map_to_list (filter (λ kv, p kv.1 kv.2 = true) m)).*1.

(** ** Automation *)

Create HintDb stella.

(** Reduces a [let] of pairs and monadic binds applied to a state. *)
Ltac unfold_monad :=
  unfold bind, ret, throw, modify, gets, transactionSync in *; simpl in *.

(** Case analysis on the test of the next [if] or [match] of the goal or of a
    hypothesis, turning boolean comparisons on [Z] into arithmetic facts. *)
Ltac bool_to_prop :=
  repeat match goal with
  | H : (_ && _)%bool = true |- _ => apply andb_true_iff in H as [??]
  | H : (_ || _)%bool = false |- _ => apply orb_false_iff in H as [??]
  | H : negb _ = true |- _ => apply negb_true_iff in H
  | H : negb _ = false |- _ => apply negb_false_iff in H
  | H : (_ <=? _) = true |- _ => apply Z.leb_le in H
  | H : (_ <=? _) = false |- _ => apply Z.leb_gt in H
  | H : (_ <? _) = true |- _ => apply Z.ltb_lt in H
  | H : (_ <? _) = false |- _ => apply Z.ltb_ge in H
  | H : (_ =? _) = true |- _ => apply Z.eqb_eq in H
  | H : (_ =? _) = false |- _ => apply Z.eqb_neq in H
  | H : bool_decide _ = true |- _ => apply bool_decide_eq_true in H
  | H : bool_decide _ = false |- _ => apply bool_decide_eq_false in H
  end.

Tactic Notation "cases" := repeat (case_match; simplify_eq/=); bool_to_prop.

(** ** Generic list lemmas *)

Lemma NoDup_fmap_filter {A B} (f : A → B) (P : A → Prop) `{!∀ x, Decision (P x)} (l : list A) :
  NoDup (f <$> l) → NoDup (f <$> filter P l).
Proof.
  induction l as [|x l IH]; [done|]. rw fmap_cons NoDup_cons filter_cons.
  intros [Hx Hl]. case_decide; [|by apply IH]. rw fmap_cons NoDup_cons. split; [|by apply IH].
  intros (y & Hy & [_ Hin]%list_elem_of_filter)%list_elem_of_fmap. apply Hx.
  apply list_elem_of_fmap. eauto.
Qed.

(** ** Lemmas on the aggregates *)

Section list_min.
Implicit Types (l : list Z) (x y : Z).

Lemma list_min_None l : list_min l = None ↔ l = [].
Proof. destruct l; simpl; split; congruence. Qed.

Lemma list_min_le l x y : list_min l = Some x → y ∈ l → x ≤ y.
Proof.
  revert x; induction l as [|z l IH]; intros x; simpl; [by intros ? ?%not_elem_of_nil|].
  intros [= <-] [->|Hy]%elem_of_cons.
  - destruct (list_min l); lia.
  - destruct (list_min l) as [m|] eqn:E.
    + specialize (IH m eq_refl Hy). lia.
    + apply list_min_None in E as ->. by apply not_elem_of_nil in Hy.
Qed.

Lemma list_min_elem l x : list_min l = Some x → x ∈ l.
Proof.
  revert x; induction l as [|z l IH]; intros x; simpl; [done|].
  intros [= <-]. destruct (list_min l) as [m|]; [|left].
  destruct (Z.min_spec z m) as [[_ ->]|[_ ->]]; [left|right; by apply IH].
Qed.

Lemma list_min_app_le l l' x y :
  list_min l = Some x → list_min (l ++ l') = Some y → y ≤ x.
Proof.
  intros Hx Hy. eapply list_min_le; [exact Hy|].
  apply elem_of_app; left. by apply list_min_elem.
Qed.
End list_min.

Section sum_kv.
Context `{Countable K} {V : Type}.
Implicit Types (m : gmap K V) (f g : K → V → Z).

Lemma sum_kv_empty f : sum_kv f (∅ : gmap K V) = 0.
Proof. apply map_fold_empty. Qed.

Lemma sum_kv_insert f m k v :
  m !! k = None → sum_kv f (<[k:=v]> m) = f k v + sum_kv f m.
Proof. intros Hk. apply (map_fold_insert_L (λ k v acc, f k v + acc)); [intros; lia|done]. Qed.

Lemma sum_kv_delete f m k v :
  m !! k = Some v → sum_kv f m = f k v + sum_kv f (delete k m).
Proof.
  intros Hk. rw -{1}(insert_delete_id m k v Hk).
  apply sum_kv_insert, lookup_delete_eq.
Qed.

Lemma sum_kv_update f m k v v' :
  m !! k = Some v → sum_kv f (<[k:=v']> m) = sum_kv f m - f k v + f k v'.
Proof.
  intros Hk. rw -insert_delete_eq sum_kv_insert; first apply lookup_delete_eq.
  rw (sum_kv_delete f m k v Hk). lia.
Qed.

Lemma sum_kv_mono f g m :
  (∀ k v, m !! k = Some v → f k v ≤ g k v) → sum_kv f m ≤ sum_kv g m.
Proof.
  induction m as [|k v m Hk IH] using map_ind; intros Hf; [by rw !sum_kv_empty|].
  rw !sum_kv_insert //.
  assert (f k v ≤ g k v) by (apply Hf, lookup_insert_eq).
  assert (sum_kv f m ≤ sum_kv g m); [|lia].
  apply IH. intros k' v' Hk'. apply Hf. rw lookup_insert_ne //. congruence.
Qed.

Lemma sum_kv_ext f g m :
  (∀ k v, m !! k = Some v → f k v = g k v) → sum_kv f m = sum_kv g m.
Proof. intros Hf. apply Z.le_antisymm; apply sum_kv_mono; intros k v ->%Hf; done. Qed.

(** A row on which the smaller function is strictly smaller. *)
Lemma sum_kv_lt f g m k v :
  (∀ k v, m !! k = Some v → f k v ≤ g k v) → m !! k = Some v → f k v < g k v →
  sum_kv f m < sum_kv g m.
Proof.
  intros Hf Hk Hlt. rw (sum_kv_delete f m k v Hk) (sum_kv_delete g m k v Hk).
  assert (sum_kv f (delete k m) ≤ sum_kv g (delete k m)); [|lia].
  apply sum_kv_mono. intros k' v' [_ ?]%lookup_delete_Some. by apply Hf.
Qed.

(** Deleting the rows on which [f] is 0 does not change the sum. *)
Lemma sum_kv_filter f m (P : K * V → Prop) `{!∀ x, Decision (P x)} :
  (∀ k v, m !! k = Some v → ¬ P (k, v) → f k v = 0) → sum_kv f (filter P m) = sum_kv f m.
Proof.
  induction m as [|k v m Hk IH] using map_ind; intros Hf; [by rw map_filter_empty|].
  rw map_filter_insert sum_kv_insert //.
  assert (IH' : sum_kv f (filter P m) = sum_kv f m).
  { apply IH. intros k' v' Hk'. apply Hf. rw lookup_insert_ne //. congruence. }
  case_decide as HP.
  - rw sum_kv_insert; first (apply map_lookup_filter_None; by left). lia.
  - rw delete_id // IH'. pose proof (Hf k v (lookup_insert_eq _ _ _) HP). lia.
Qed.
End sum_kv.

Section min_key_where.
Context {V : Type}.
Implicit Types (m : gmap Z V) (p : Z → V → bool).

Lemma elem_of_keys_where p m k :
  k ∈ (map_to_list (filter (λ kv, p kv.1 kv.2 = true) m)).*1 ↔
  ∃ v, m !! k = Some v ∧ p k v = true.
Proof.
  rw list_elem_of_fmap. split.
  - intros ([k' v] & -> & [? ?]%elem_of_map_to_list%map_lookup_filter_Some). eauto.
  - intros (v & ? & ?). exists (k, v). split; [done|].
    by apply elem_of_map_to_list, map_lookup_filter_Some.
Qed.

Lemma min_key_where_Some p m k :
  min_key_where p m = Some k →
  (∃ v, m !! k = Some v ∧ p k v = true) ∧
  ∀ k' v', m !! k' = Some v' → p k' v' = true → k ≤ k'.
Proof.
  intros Hmin. split.
  - by apply elem_of_keys_where, list_min_elem.
  - intros k' v' ? ?. eapply list_min_le; [exact Hmin|]. apply elem_of_keys_where. eauto.
Qed.

Lemma min_key_where_None p m k v :
  min_key_where p m = None → m !! k = Some v → p k v = false.
Proof.
  unfold min_key_where. rw list_min_None. intros Hnil Hk.
  destruct (p k v) eqn:E; [|done].
  assert (Hin : k ∈ (map_to_list (filter (λ kv, p kv.1 kv.2 = true) m)).*1)
    by (apply elem_of_keys_where; eauto).
  rw Hnil in Hin. by apply not_elem_of_nil in Hin.
Qed.
End min_key_where.

Section sum_by.
Context `{Countable K} {V : Type}.
Implicit Types (m : gmap K V) (f : V → Z).

Lemma sum_by_empty f : sum_by f (∅ : gmap K V) = 0.
Proof. apply map_fold_empty. Qed.

Lemma sum_by_insert f m k v :
  m !! k = None → sum_by f (<[k:=v]> m) = f v + sum_by f m.
Proof. intros Hk. apply (map_fold_insert_L (λ _ v acc, f v + acc)); [intros; lia|done]. Qed.

Lemma sum_by_delete f m k v :
  m !! k = Some v → sum_by f m = f v + sum_by f (delete k m).
Proof.
  intros Hk. rw -{1}(insert_delete_id m k v Hk).
  apply sum_by_insert, lookup_delete_eq.
Qed.

Lemma sum_by_delete_None f m k : m !! k = None → sum_by f (delete k m) = sum_by f m.
Proof. intros Hk. by rw delete_id. Qed.

Lemma sum_by_update f m k v v' :
  m !! k = Some v → sum_by f (<[k:=v']> m) = sum_by f m - f v + f v'.
Proof.
  intros Hk. rw -insert_delete_eq sum_by_insert; first apply lookup_delete_eq.
  rw (sum_by_delete f m k v Hk). lia.
Qed.

Lemma sum_by_nonneg f m : (∀ k v, m !! k = Some v → 0 ≤ f v) → 0 ≤ sum_by f m.
Proof.
  induction m as [|k v m Hk IH] using map_ind; intros Hf; [by rw sum_by_empty|].
  rw sum_by_insert //.
  assert (0 ≤ f v) by (apply (Hf k), lookup_insert_eq).
  assert (0 ≤ sum_by f m); [|lia].
  apply IH. intros k' v' Hk'. apply (Hf k'). rw lookup_insert_ne //. congruence.
Qed.

Lemma sum_by_elem_le f m k v :
  (∀ k v, m !! k = Some v → 0 ≤ f v) → m !! k = Some v → f v ≤ sum_by f m.
Proof.
  intros Hf Hk. rw (sum_by_delete f m k v Hk).
  assert (0 ≤ sum_by f (delete k m)); [|lia].
  apply sum_by_nonneg. intros k' v' [_ ?]%lookup_delete_Some. eauto.
Qed.
End sum_by.

Section min_by.
Context `{Countable K} {V : Type}.
Implicit Types (m : gmap K V) (f : V → Z).

Lemma elem_of_rows m v : v ∈ rows m ↔ ∃ k, m !! k = Some v.
Proof.
  unfold rows. rw list_elem_of_fmap. split.
  - intros [[k v'] [-> ?%elem_of_map_to_list]]; eauto.
  - intros [k ?]. exists (k, v). by rw elem_of_map_to_list.
Qed.

Lemma min_by_le f m x k v : min_by f m = Some x → m !! k = Some v → x ≤ f v.
Proof.
  intros Hx Hv. eapply list_min_le; [exact Hx|].
  apply list_elem_of_fmap. exists v. split; [done|]. apply elem_of_rows; eauto.
Qed.

Lemma min_by_elem f m x : min_by f m = Some x → ∃ k v, m !! k = Some v ∧ f v = x.
Proof.
  intros (v & -> & [k Hk]%elem_of_rows)%list_min_elem%list_elem_of_fmap; eauto.
Qed.

Lemma min_by_None f m : min_by f m = None ↔ m = ∅.
Proof.
  unfold min_by. rw list_min_None. split; [|by intros ->].
  intros Hnil%fmap_nil_inv. unfold rows in Hnil. apply fmap_nil_inv in Hnil.
  by apply map_to_list_empty_iff.
Qed.
End min_by.

#[export] Hint Resolve sum_by_nonneg : stella.
