(* ===== verification/JsNumber.v ===== *)
(** * JavaScript numbers

    A value whose TypeScript type is [number] and which the code tests with
    [Number.isFinite], [Number.isSafeInteger] or rounds is an IEEE 754 binary64
    value ([spec_float] at precision 53).  Counters, sequence numbers and
    timestamps the code only ever builds by integer arithmetic are [Z]; they agree
    with the doubles while they stay within [MAX_SAFE_INTEGER]. *)

From Corelib Require Import ssreflect SpecFloat.
From stdpp Require Import prelude.
From S2P Require Import Prelude.

#[local] Open Scope Z_scope.

Definition number : Type := spec_float.

Definition MAX_SAFE_INTEGER : Z := 2 ^ 53 - 1.

(** The double nearest to an integer: the integer itself up to [2 ^ 53]. *)
Definition num_of_Z (z : Z) : number := binary_normalize 53 1024 z 0 false.

(** [Number.isFinite]. *)
Definition isFinite (x : number) : bool :=
  match x with
  | S754_zero _ | S754_finite _ _ _ => true
  | S754_infinity _ | S754_nan => false
  end.

(** The signed mantissa of a finite number. *)
Definition signed_mantissa (s : bool) (m : positive) : Z := if s then Zneg m else Zpos m.

(** [Math.floor] on a finite number (0 otherwise, which no caller reaches). *)
Definition num_floor (x : number) : Z :=
  match x with
  | S754_finite s m e =>
      if 0 <=? e then signed_mantissa s m * 2 ^ e else signed_mantissa s m / 2 ^ (- e)
  | _ => 0
  end.

(** [Math.round]: the floor of [x + 1/2], computed exactly. *)
Definition num_round (x : number) : Z :=
  match x with
  | S754_finite s m e =>
      if 0 <=? e then signed_mantissa s m * 2 ^ e
      else (2 * signed_mantissa s m + 2 ^ (- e)) / 2 ^ (1 - e)
  | _ => 0
  end.

(** [Number.isInteger]. *)
Definition isInteger (x : number) : bool :=
  match x with
  | S754_zero _ => true
  | S754_finite s m e => (0 <=? e) || (signed_mantissa s m mod 2 ^ (- e) =? 0)
  | _ => false
  end.

(** [Number.isSafeInteger]. *)
Definition isSafeInteger (x : number) : bool :=
  isInteger x && (Z.abs (num_floor x) <=? MAX_SAFE_INTEGER).

(** The product of two doubles, rounded to nearest even. *)
Definition num_mul (x y : number) : number := SFmul 53 1024 x y.

(** [Math.min] and [Math.max] on finite arguments. *)
Definition num_min (x y : number) : number := if SFleb x y then x else y.
Definition num_max (x y : number) : number := if SFleb x y then y else x.

(** The [clampMicroCents] helper that the ledger, the owner ledger and the tier
    budget each declare: amounts become non-negative integers, anything that is not
    finite becomes 0. *)
Definition clampMicroCents (value : number) : Z :=
  if isFinite value then Z.max 0 (num_round value) else 0.

Lemma clampMicroCents_nonneg value : 0 ≤ clampMicroCents value.
Proof. unfold clampMicroCents. case_match; lia. Qed.

Lemma isSafeInteger_bound x :
  isSafeInteger x = true → - MAX_SAFE_INTEGER ≤ num_floor x ≤ MAX_SAFE_INTEGER.
Proof. unfold isSafeInteger. intros [_ ?%Z.leb_le]%andb_true_iff. lia. Qed.

#[export] Hint Resolve clampMicroCents_nonneg : stella.
