(* ===== verification/JsString.v ===== *)
(** * JavaScript strings

    A JavaScript string is a sequence of UTF-16 code units.  The model's [string]
    ranges over the code units below 256, one character each: every identifier,
    role, state and key the modelled code compares is ASCII.  [utf8Length] is the
    length of the UTF-8 encoding of such a string. *)

From Corelib Require Import ssreflect.
From stdpp Require Import prelude strings.
From Stdlib Require Import Ascii String.
From S2P Require Import Prelude.

#[local] Open Scope Z_scope.

(** The code unit of a character. *)
Definition charCodeAt (c : ascii) : Z := Z.of_N (N_of_ascii c).

(** [value.length]. *)
Definition js_length (s : string) : Z := Z.of_nat (String.length s).

(** [new TextEncoder().encode(s).byteLength]: two bytes from code unit 128 on. *)
Fixpoint utf8Length (s : string) : Z :=
  match s with
  | EmptyString => 0
  | String c s' => (if charCodeAt c <? 128 then 1 else 2) + utf8Length s'
  end.

(** [p] holds of some character: a one-character regular expression test. *)
Fixpoint existsChar (p : ascii → bool) (s : string) : bool :=
  match s with
  | EmptyString => false
  | String c s' => p c || existsChar p s'
  end.

(** [/[\u0000-\u001f\u007f]/u]. *)
Definition isControlChar (c : ascii) : bool :=
  (charCodeAt c <=? 31) || (charCodeAt c =? 127).

(** White space of [String.prototype.trim] below code unit 256: tab, LF, VT, FF,
    CR, space and the no-break space. *)
Definition isWhiteSpace (c : ascii) : bool :=
  let n := charCodeAt c in
  ((9 <=? n) && (n <=? 13)) || (n =? 32) || (n =? 160).

Fixpoint trimStart (s : string) : string :=
  match s with
  | EmptyString => EmptyString
  | String c s' => if isWhiteSpace c then trimStart s' else s
  end.

Fixpoint trimEnd (s : string) : string :=
  match s with
  | EmptyString => EmptyString
  | String c s' =>
      match trimEnd s' with
      | EmptyString => if isWhiteSpace c then EmptyString else String c EmptyString
      | t => String c t
      end
  end.

(** [value.trim()]. *)
Definition trim (s : string) : string := trimEnd (trimStart s).

Lemma utf8Length_nonneg s : 0 ≤ utf8Length s.
Proof. induction s as [|c s IH]; simpl; [done|]. case_match; lia. Qed.

Lemma js_length_nonneg s : 0 ≤ js_length s.
Proof. unfold js_length. lia. Qed.

(** The encoding is never shorter than the string. *)
Lemma js_length_utf8Length s : js_length s ≤ utf8Length s.
Proof.
  unfold js_length. induction s as [|c s IH]; simpl; [done|]. case_match; lia.
Qed.

Lemma trimEnd_idem s : trimEnd (trimEnd s) = trimEnd s.
Proof.
  induction s as [|c s IH]; simpl; [done|].
  destruct (trimEnd s) as [|d t] eqn:E.
  - destruct (isWhiteSpace c) eqn:Hc; simpl; [done|]. by rw Hc.
  - simpl in IH |- *. by rw IH.
Qed.

#[export] Hint Resolve utf8Length_nonneg js_length_nonneg : stella.

(** ** [JSON.stringify] of an array of strings *)

(** [jsonEscape c] is how [JSON.stringify] writes one character of a string. *)
Definition hexDigit (n : Z) : ascii :=
  ascii_of_N (Z.to_N (if n <? 10 then 48 + n else 87 + n)).

Definition jsonEscape (c : ascii) (rest : string) : string :=
  let n := charCodeAt c in
  let esc k := String "\" (String (ascii_of_N k) rest) in
  if n =? 34 then esc 34%N
  else if n =? 92 then esc 92%N
  else if n =? 8 then esc 98%N
  else if n =? 12 then esc 102%N
  else if n =? 10 then esc 110%N
  else if n =? 13 then esc 114%N
  else if n =? 9 then esc 116%N
  else if n <? 32
  then String "\" (String "u" (String "0" (String "0"
         (String (hexDigit (n / 16)) (String (hexDigit (n mod 16)) rest)))))
  else String c rest.

(** The quotation mark, code unit 34. *)
Definition quotationMark : ascii := ascii_of_N 34.

(** A string literal followed by [rest]. *)
Fixpoint jsonChars (s rest : string) : string :=
  match s with
  | EmptyString => String quotationMark rest
  | String c s' => jsonEscape c (jsonChars s' rest)
  end.

Fixpoint jsonElements (l : list string) : string :=
  match l with
  | [] => "]"
  | s :: l' => String "," (String quotationMark (jsonChars s (jsonElements l')))
  end.

Definition jsonStringArray (l : list string) : string :=
  match l with
  | [] => "[]"
  | s :: l' => String "[" (String quotationMark (jsonChars s (jsonElements l')))
  end.

(** The character an escape starts with, and what follows it. *)
Definition hexValue (c : ascii) : Z :=
  let n := charCodeAt c in if n <? 58 then n - 48 else n - 87.

Definition jsonUnescape (s : string) : option (ascii * string) :=
  match s with
  | String "\" (String "u" (String _ (String _ (String h (String l r))))) =>
      Some (ascii_of_N (Z.to_N (16 * hexValue h + hexValue l)), r)
  | String "\" (String c r) =>
      let n := charCodeAt c in
      Some (ascii_of_N (Z.to_N (if n =? 98 then 8 else if n =? 102 then 12 else
              if n =? 110 then 10 else if n =? 114 then 13 else
              if n =? 116 then 9 else n)), r)
  | String c r => if charCodeAt c =? 34 then None else Some (c, r)
  | EmptyString => None
  end.

Lemma jsonUnescape_escape c r : jsonUnescape (jsonEscape c r) = Some (c, r).
Proof. destruct c as [[] [] [] [] [] [] [] []]; reflexivity. Qed.

Lemma jsonChars_inj s s' r r' :
  jsonChars s r = jsonChars s' r' → s = s' ∧ r = r'.
Proof.
  revert s'; induction s as [|c s IH]; intros [|c' s']; simpl; intros Heq.
  - by injection Heq.
  - apply (f_equal jsonUnescape) in Heq. rw jsonUnescape_escape in Heq.
    by vm_compute in Heq.
  - apply (f_equal jsonUnescape) in Heq. rw jsonUnescape_escape in Heq.
    by vm_compute in Heq.
  - apply (f_equal jsonUnescape) in Heq. rw !jsonUnescape_escape in Heq.
    injection Heq as -> Heq. apply IH in Heq as [-> ->]. done.
Qed.

Lemma jsonElements_inj l l' : jsonElements l = jsonElements l' → l = l'.
Proof.
  revert l'; induction l as [|s l IH]; intros [|s' l']; simpl; try done.
  intros [= [-> ->%IH]%jsonChars_inj]. done.
Qed.

(** Two arrays of strings have the same text only when they are the same: a key
    built by [JSON.stringify([a, b, c])] identifies its components. *)
#[export] Instance jsonStringArray_inj : Inj (=) (=) jsonStringArray.
Proof.
  intros [|s l] [|s' l']; unfold jsonStringArray; try done.
  intros [= [-> ->%jsonElements_inj]%jsonChars_inj]. done.
Qed.
