(* ===== verification/GatewayPolicy.v ===== *)
(** * Gateway policy constants (packages/contracts/gateway/api.ts, capability.ts)

    The audiences a capability may carry, the tier a limit lookup resolves to, and
    the limits the gates enforce. *)

From Corelib Require Import ssreflect SpecFloat.
From stdpp Require Import prelude strings.
From S2P Require Import Prelude JsNumber.

#[local] Open Scope Z_scope.

(** [MANAGED_MODEL_AUDIENCES]. *)
Inductive ManagedModelAudience : Set :=
  | aud_anonymous | aud_free | aud_go | aud_pro | aud_go_fallback | aud_pro_fallback.

(** The base tier a limit is looked up under. *)
Inductive ManagedModelAudienceForLimits : Set :=
  | lim_anonymous | lim_free | lim_go | lim_pro.

#[export] Instance ManagedModelAudience_eq_dec : EqDecision ManagedModelAudience.
Proof. solve_decision. Defined.

#[export] Instance ManagedModelAudienceForLimits_eq_dec :
  EqDecision ManagedModelAudienceForLimits.
Proof. solve_decision. Defined.

Definition limitsAudienceFor (audience : ManagedModelAudience) :
    ManagedModelAudienceForLimits :=
  match audience with
  | aud_anonymous => lim_anonymous
  | aud_go | aud_go_fallback => lim_go
  | aud_pro | aud_pro_fallback => lim_pro
  | aud_free => lim_free
  end.

Record GatewayOwnerRelayLimit := {
  inFlight : Z;
  perMinute : Z;
  mintsPerHour : Z;
}.

Definition GATEWAY_OWNER_RELAY_LIMITS (a : ManagedModelAudienceForLimits) :
    GatewayOwnerRelayLimit :=
  match a with
  | lim_anonymous => {| inFlight := 1; perMinute := 20; mintsPerHour := 12 |}
  | lim_free => {| inFlight := 2; perMinute := 40; mintsPerHour := 12 |}
  | lim_go => {| inFlight := 4; perMinute := 80; mintsPerHour := 24 |}
  | lim_pro => {| inFlight := 8; perMinute := 120; mintsPerHour := 24 |}
  end.

(** [0.5], exactly [2 ^ -1]. *)
Definition GATEWAY_THROTTLED_LIMIT_SHARE : number := binary_normalize 53 1024 1 (-1) false.

Definition GATEWAY_NETWORK_ANONYMOUS_RELAY_PER_HOUR : Z := 300.
Definition GATEWAY_NETWORK_ANONYMOUS_RELAY_PER_DAY : Z := 1000.
Definition GATEWAY_NETWORK_ANONYMOUS_MINTS_PER_DAY : Z := 20.
Definition GATEWAY_NETWORK_FREE_RELAY_PER_DAY : Z := 3000.

Definition GATEWAY_BUDGET_UNLIMITED : Z := -1.

Definition GATEWAY_MAX_RESULT_CACHE_BYTES : Z := 8 * 1024 * 1024.
Definition GATEWAY_RESULT_CACHE_TTL_MS : Z := 10 * 60 * 1000.
Definition GATEWAY_UPSTREAM_MAX_DURATION_MS : Z := 45 * 60 * 1000.

Lemma owner_relay_limits_pos a :
  0 < inFlight (GATEWAY_OWNER_RELAY_LIMITS a) ∧
  0 < perMinute (GATEWAY_OWNER_RELAY_LIMITS a) ∧
  0 < mintsPerHour (GATEWAY_OWNER_RELAY_LIMITS a).
Proof. destruct a; simpl; lia. Qed.
