(* ===== verification/Ledger.v ===== *)
(** * CapabilityLedger (workers/model-gateway/src/ledger.ts)

    One SQLite-backed Durable Object per capability [jti].  Its state is the ledger
    row (at most one: [reserve] inserts it only when the table is empty, and every
    update is unconditional), the [results] table keyed by request id, and the
    alarm.  [reserve], [settle], [replay], [snapshot] and [alarm] are the object's
    methods; the input gate runs each of them to completion before the next. *)

From Corelib Require Import ssreflect.
From stdpp Require Import prelude gmap strings.
From S2P Require Import Prelude JsNumber JsString GatewayPolicy.

#[local] Open Scope Z_scope.

(** ** Data *)

Record LedgerReserveArgs := {
  jti : string;
  budgetMicroCents : number;
  maxRequests : option number;
  expiresAt : number;
  requestId : string;
  estimatedMicroCents : number;
}.

Inductive LedgerReserveResult : Type :=
  | Reserved (remainingMicroCents : option Z)
  | Replay (status : Z) (body : string)
  | InFlight
  | BudgetExhausted (remainingMicroCents : Z)
  | RequestLimit (maxRequests : Z).

Record LedgerSettleArgs := {
  settleRequestId : string;
  chargedMicroCents : number;
  refundRequest : bool;
  result : option (Z * string);
}.

Record LedgerSettleResult := {
  ok : bool;
  spentMicroCents : Z;
  reservedMicroCents : Z;
  cached : bool;
}.

Record LedgerRow := {
  row_jti : string;
  budget : Z;
  spent : Z;
  reserved : Z;
  requests : Z;
  max_requests : option Z;
  expires_at : Z;
}.

Record ResultRow := {
  r_status : Z;
  r_body : option string;
  r_bytes : Z;
  r_reserved : Z;
  r_created_at : Z;
}.

Record State := {
  ledger : option LedgerRow;
  results : gmap string ResultRow;
  alarmAt : option Z;
}.

Definition initSchema : State := {| ledger := None; results := ∅; alarmAt := None |}.

Definition IN_FLIGHT_ABANDON_AFTER_MS : Z := GATEWAY_UPSTREAM_MAX_DURATION_MS + 60000.

(** ** Row updates shared by the methods *)

(** The row [reserve] inserts on a capability's first request. *)
Definition newRow (args : LedgerReserveArgs) : LedgerRow := {|
  row_jti := jti args;
  budget := num_round (budgetMicroCents args);
  spent := 0;
  reserved := 0;
  requests := 0;
  max_requests := num_floor <$> maxRequests args;
  expires_at := num_round (expiresAt args);
|}.

(** [UPDATE ledger SET reserved = MAX(0, reserved - ?)]. *)
Definition releaseReservation (amount : Z) (row : LedgerRow) : LedgerRow := {|
  row_jti := row_jti row; budget := budget row; spent := spent row;
  reserved := Z.max 0 (reserved row - amount);
  requests := requests row; max_requests := max_requests row;
  expires_at := expires_at row;
|}.

(** [UPDATE ledger SET reserved = reserved + ?, requests = requests + ?]. *)
Definition addReservation (estimate count : Z) (row : LedgerRow) : LedgerRow := {|
  row_jti := row_jti row; budget := budget row; spent := spent row;
  reserved := reserved row + estimate;
  requests := requests row + count; max_requests := max_requests row;
  expires_at := expires_at row;
|}.

(** [UPDATE ledger SET reserved = MAX(0, reserved - ?), spent = spent + ?,
    requests = MAX(0, requests - ?)]. *)
Definition settleRow (pendingReserved charged refund : Z) (row : LedgerRow) : LedgerRow := {|
  row_jti := row_jti row; budget := budget row;
  spent := spent row + charged;
  reserved := Z.max 0 (reserved row - pendingReserved);
  requests := Z.max 0 (requests row - refund);
  max_requests := max_requests row; expires_at := expires_at row;
|}.

Definition pendingResult (estimate now : Z) : ResultRow := {|
  r_status := 0; r_body := None; r_bytes := 0; r_reserved := estimate;
  r_created_at := now;
|}.

Definition completedResult (status : Z) (body : string) (bytes : Z) (row : ResultRow) :
    ResultRow := {|
  r_status := status; r_body := Some body; r_bytes := bytes; r_reserved := 0;
  r_created_at := r_created_at row;
|}.

(** [row.budget === GATEWAY_BUDGET_UNLIMITED || row.budget < 0]. *)
Definition unlimited (row : LedgerRow) : bool :=
  (budget row =? GATEWAY_BUDGET_UNLIMITED) || (budget row <? 0).

(** [row.max_requests !== null && row.requests >= row.max_requests]. *)
Definition requestLimitReached (row : LedgerRow) : option Z :=
  match max_requests row with
  | Some limit => if limit <=? requests row then Some limit else None
  | None => None
  end.

(** ** Methods *)

(** The second half of [reserve], once the request id is known to be free:
    the request limit, the budget, then the reservation itself. *)
Definition admitReservation (now estimate : Z) (resumingAbandoned : bool)
    (request_id : string) (row : LedgerRow) (tbl : gmap string ResultRow) :
    LedgerRow * gmap string ResultRow * LedgerReserveResult :=
  match (if resumingAbandoned then None else requestLimitReached row) with
  | Some limit => (row, tbl, RequestLimit limit)
  | None =>
      let remaining :=
        if unlimited row then None else Some (budget row - spent row - reserved row) in
      match remaining with
      | Some rest =>
          if budget row <? spent row + reserved row + estimate
          then (row, tbl, BudgetExhausted (Z.max 0 rest))
          else (addReservation estimate (if resumingAbandoned then 0 else 1) row,
                <[request_id := pendingResult estimate now]> tbl,
                Reserved (Some (Z.max 0 (rest - estimate))))
      | None =>
          (addReservation estimate (if resumingAbandoned then 0 else 1) row,
           <[request_id := pendingResult estimate now]> tbl,
           Reserved None)
      end
  end.

(** [existing.status > 0 && existing.body !== null]: a settled, replayable result. *)
Definition replayable (row : ResultRow) : option (Z * string) :=
  match r_body row with
  | Some body => if 0 <? r_status row then Some (r_status row, body) else None
  | None => None
  end.

Definition reserve (now : Z) (args : LedgerReserveArgs) (st : State) :
    State * LedgerReserveResult :=
  let estimate := clampMicroCents (estimatedMicroCents args) in
  let row := default (newRow args) (ledger st) in
  let alarm' :=
    match ledger st, alarmAt st with
    | None, None =>
        Some (Z.max (now + 1000)
                    (num_round (expiresAt args) + GATEWAY_RESULT_CACHE_TTL_MS))
    | _, a => a
    end in
  let finish '(row', tbl', res) :=
    ({| ledger := Some row'; results := tbl'; alarmAt := alarm' |}, res) in
  match results st !! requestId args with
  | Some existing =>
      match replayable existing with
      | Some (status, body) => finish (row, results st, Replay status body)
      | None =>
          if now - r_created_at existing <=? IN_FLIGHT_ABANDON_AFTER_MS
          then finish (row, results st, InFlight)
          else
            finish (admitReservation now estimate true (requestId args)
                      (releaseReservation (r_reserved existing) row)
                      (delete (requestId args) (results st)))
      end
  | None => finish (admitReservation now estimate false (requestId args) row (results st))
  end.

(** What [settle] leaves under the request id: the completed result when it is
    usable and fits the cache, nothing otherwise. *)
Definition settledResult (args : LedgerSettleArgs) (pending : ResultRow) : option ResultRow :=
  match result args with
  | Some (status, body) =>
      if 0 <? status
      then let bytes := utf8Length body in
           if bytes <=? GATEWAY_MAX_RESULT_CACHE_BYTES
           then Some (completedResult status body bytes pending)
           else None
      else None
  | None => None
  end.

Definition storeSettled (request_id : string) (r : option ResultRow)
    (tbl : gmap string ResultRow) : gmap string ResultRow :=
  match r with
  | Some row => <[request_id := row]> tbl
  | None => delete request_id tbl
  end.

Definition settle (args : LedgerSettleArgs) (st : State) : State * LedgerSettleResult :=
  let refused :=
    (st, {| ok := false;
            spentMicroCents := default 0 (spent <$> ledger st);
            reservedMicroCents := default 0 (reserved <$> ledger st);
            cached := false |}) in
  match ledger st, results st !! settleRequestId args with
  | Some row, Some pending =>
      if 0 <? r_status pending then refused
      else
        let charged := clampMicroCents (chargedMicroCents args) in
        let row' := settleRow (r_reserved pending) charged
                      (if refundRequest args then 1 else 0) row in
        let done := settledResult args pending in
        ({| ledger := Some row';
            results := storeSettled (settleRequestId args) done (results st);
            alarmAt := alarmAt st |},
         {| ok := true; spentMicroCents := spent row'; reservedMicroCents := reserved row';
            cached := bool_decide (is_Some done) |})
  | _, _ => refused
  end.

Definition replay (request_id : string) (st : State) : option (Z * string) :=
  match results st !! request_id with
  | Some row => if 0 <? r_status row then pair (r_status row) <$> r_body row else None
  | None => None
  end.

Definition snapshot (st : State) : option LedgerRow := ledger st.

(** [deleteAll] and a fresh schema; the alarm that ran is consumed. *)
Definition alarm (st : State) : State := initSchema.

(** ** Traces *)

Inductive op : Type :=
  | OpReserve (now : Z) (args : LedgerReserveArgs)
  | OpSettle (args : LedgerSettleArgs)
  | OpAlarm.

Definition exec (st : State) (o : op) : State :=
  match o with
  | OpReserve now args => fst (reserve now args st)
  | OpSettle args => fst (settle args st)
  | OpAlarm => alarm st
  end.

Definition run (st : State) (ops : list op) : State := foldl exec st ops.

Definition is_alarm (o : op) : bool := match o with OpAlarm => true | _ => false end.

(** A settlement charges at most what its request reserved. *)
Definition charge_within (st : State) (o : op) : Prop :=
  match o with
  | OpSettle args =>
      ∀ pending, results st !! settleRequestId args = Some pending →
        clampMicroCents (chargedMicroCents args) ≤ r_reserved pending
  | _ => True
  end.

Fixpoint disciplined (st : State) (ops : list op) : Prop :=
  match ops with
  | [] => True
  | o :: ops' => charge_within st o ∧ disciplined (exec st o) ops'
  end.

(** ** Invariants *)

(** A result row is either pending (status 0, no body) or completed (positive
    status, a body, nothing reserved). *)
Definition result_ok (r : ResultRow) : Prop :=
  0 ≤ r_reserved r ∧
  ((r_status r = 0 ∧ r_body r = None) ∨
   (0 < r_status r ∧ is_Some (r_body r) ∧ r_reserved r = 0)).

(** The reserved total is the sum of what the result rows hold. *)
Definition row_ok (tbl : gmap string ResultRow) (row : LedgerRow) : Prop :=
  0 ≤ spent row ∧ 0 ≤ requests row ∧ reserved row = sum_by r_reserved tbl.

Definition Inv (st : State) : Prop :=
  map_Forall (λ _, result_ok) (results st) ∧
  match ledger st with
  | Some row => row_ok (results st) row
  | None => results st = ∅
  end.

(** The committed amount (spent plus reserved) fits the budget. *)
Definition BudgetOk (st : State) : Prop :=
  ∀ row, ledger st = Some row → unlimited row = false → spent row + reserved row ≤ budget row.

(** The request count never passes the capability's limit. *)
Definition RequestsOk (st : State) : Prop :=
  ∀ row limit, ledger st = Some row → max_requests row = Some limit →
    requests row ≤ Z.max 0 limit.

(** ** Helper lemmas *)

Section helpers.
Implicit Types (row : LedgerRow) (tbl : gmap string ResultRow).

Lemma newRow_ok args : row_ok ∅ (newRow args).
Proof. unfold row_ok; simpl. rw sum_by_empty. lia. Qed.

Lemma default_row_ok args st : Inv st → row_ok (results st) (default (newRow args) (ledger st)).
Proof.
  intros [_ Hl]. destruct (ledger st); simpl; [done|]. rw Hl. apply newRow_ok.
Qed.

Lemma pendingResult_ok estimate now : 0 ≤ estimate → result_ok (pendingResult estimate now).
Proof. intros. split; [done|by left]. Qed.

Lemma completedResult_ok status body bytes r :
  0 < status → result_ok (completedResult status body bytes r).
Proof. intros. split; [done|]. right. simpl. eauto. Qed.

(** Releasing the reservation of a row that is being deleted never clamps. *)
Lemma releaseReservation_ok tbl row request_id existing :
  map_Forall (λ _, result_ok) tbl → row_ok tbl row → tbl !! request_id = Some existing →
  row_ok (delete request_id tbl) (releaseReservation (r_reserved existing) row).
Proof.
  intros Htbl (Hs & Hr & Hsum) Hlk. unfold row_ok; simpl.
  rw Hsum (sum_by_delete r_reserved _ _ _ Hlk).
  assert (0 ≤ sum_by r_reserved (delete request_id tbl)).
  { apply sum_by_nonneg. intros k v [_ Hv]%lookup_delete_Some.
    apply (Htbl k v Hv). }
  lia.
Qed.

Lemma admitReservation_cases now estimate resume id row tbl row' tbl' res :
  admitReservation now estimate resume id row tbl = (row', tbl', res) →
  (row' = row ∧ tbl' = tbl ∧
   (∃ n, res = RequestLimit n) ∨ row' = row ∧ tbl' = tbl ∧ ∃ n, res = BudgetExhausted n) ∨
  (row' = addReservation estimate (if resume then 0 else 1) row ∧
   tbl' = <[id := pendingResult estimate now]> tbl ∧
   (unlimited row = false → spent row + reserved row + estimate ≤ budget row) ∧
   (resume = false → requestLimitReached row = None) ∧
   ∃ rem, res = Reserved rem).
Proof.
  unfold admitReservation. intros Heq.
  destruct resume; repeat (case_match; simplify_eq/=); bool_to_prop; simpl; eauto 10;
    right; repeat split; eauto; congruence.
Qed.

Lemma admitReservation_ok now estimate resume id row tbl row' tbl' res :
  0 ≤ estimate → map_Forall (λ _, result_ok) tbl → row_ok tbl row → tbl !! id = None →
  admitReservation now estimate resume id row tbl = (row', tbl', res) →
  map_Forall (λ _, result_ok) tbl' ∧ row_ok tbl' row'.
Proof.
  intros He Htbl (Hs & Hr & Hsum) Hid
    [[(-> & -> & _)|(-> & -> & _)]|(-> & -> & _)]%admitReservation_cases; [done..|].
  split.
  - apply map_Forall_insert_2; [by apply pendingResult_ok|done].
  - unfold row_ok; simpl. rw sum_by_insert // Hsum /=.
    destruct resume; lia.
Qed.

Lemma settledResult_ok args pending done :
  settledResult args pending = Some done → result_ok done ∧ r_reserved done = 0.
Proof.
  unfold settledResult. intros ?. cases. split; [by apply completedResult_ok|done].
Qed.

Lemma storeSettled_ok tbl id r :
  map_Forall (λ _, result_ok) tbl →
  (∀ x, r = Some x → result_ok x) → map_Forall (λ _, result_ok) (storeSettled id r tbl).
Proof.
  intros Htbl Hr. destruct r; simpl.
  - apply map_Forall_insert_2; auto.
  - by apply map_Forall_delete.
Qed.

Lemma settleRow_ok tbl row args id pending charged refund :
  0 ≤ charged → 0 ≤ refund →
  map_Forall (λ _, result_ok) tbl → row_ok tbl row → tbl !! id = Some pending →
  row_ok (storeSettled id (settledResult args pending) tbl)
         (settleRow (r_reserved pending) charged refund row).
Proof.
  intros Hc Hf Htbl (Hs & Hq & Hsum) Hlk.
  assert (0 ≤ sum_by r_reserved (delete id tbl)).
  { apply sum_by_nonneg. intros k v [_ Hv]%lookup_delete_Some. apply (Htbl k v Hv). }
  unfold row_ok; simpl. rw Hsum (sum_by_delete r_reserved _ _ _ Hlk).
  destruct (settledResult args pending) eqn:E; simpl; [|lia].
  apply settledResult_ok in E as [_ E].
  rw (sum_by_update _ _ _ _ _ Hlk) (sum_by_delete r_reserved _ _ _ Hlk) E. lia.
Qed.
End helpers.

Lemma reserve_Inv now args st : Inv st → Inv (fst (reserve now args st)).
Proof.
  intros HI. pose proof (default_row_ok args st HI) as Hrow. destruct HI as [Htbl _].
  pose proof (clampMicroCents_nonneg (estimatedMicroCents args)) as He.
  unfold reserve. destruct (results st !! requestId args) as [existing|] eqn:Hlk.
  - destruct (replayable existing) as [[status body]|]; [by split|].
    case_match; [by split|].
    destruct (admitReservation _ _ _ _ _ _) as [[row' tbl'] res] eqn:E.
    pose proof (releaseReservation_ok _ _ _ _ Htbl Hrow Hlk).
    pose proof (lookup_delete_eq (results st) (requestId args)).
    assert (map_Forall (λ _, result_ok) (delete (requestId args) (results st)))
      by by apply map_Forall_delete.
    split; simpl; by eapply admitReservation_ok.
  - destruct (admitReservation _ _ _ _ _ _) as [[row' tbl'] res] eqn:E.
    split; simpl; by eapply admitReservation_ok.
Qed.

Lemma settle_Inv args st : Inv st → Inv (fst (settle args st)).
Proof.
  intros HI. unfold settle.
  destruct (ledger st) as [row|] eqn:Hl; [|done].
  destruct (results st !! settleRequestId args) as [pending|] eqn:Hp; [|done].
  case_match; [done|]. destruct HI as [Htbl Hrow]. rw Hl in Hrow. split; simpl.
  - apply storeSettled_ok; [done|]. intros x Hx. by eapply settledResult_ok.
  - apply settleRow_ok; auto using clampMicroCents_nonneg. by case_match.
Qed.

Lemma initSchema_Inv : Inv initSchema.
Proof. by split. Qed.

Lemma ledger_exec_Inv st o : Inv st → Inv (exec st o).
Proof.
  destruct o; simpl; intros; [by apply reserve_Inv|by apply settle_Inv|apply initSchema_Inv].
Qed.

Lemma ledger_run_Inv ops st : Inv st → Inv (run st ops).
Proof. revert st; induction ops as [|o ops IH]; intros st HI; [done|]. by apply IH, ledger_exec_Inv. Qed.

Lemma releaseReservation_le amount row :
  0 ≤ amount → 0 ≤ reserved row → reserved (releaseReservation amount row) ≤ reserved row.
Proof. simpl; lia. Qed.

Lemma reserved_nonneg st row : Inv st → ledger st = Some row → 0 ≤ reserved row.
Proof.
  intros [Htbl Hrow] Hl. rw Hl in Hrow. destruct Hrow as (_ & _ & ->).
  apply sum_by_nonneg. intros k v Hv. apply (Htbl k v Hv).
Qed.

(** What [reserve] does to the row and the table, in one statement. *)
Lemma reserve_row now args st row' :
  ledger (fst (reserve now args st)) = Some row' →
  let row := default (newRow args) (ledger st) in
  let estimate := clampMicroCents (estimatedMicroCents args) in
  row' = row ∨
  (∃ existing, results st !! requestId args = Some existing ∧
     (row' = releaseReservation (r_reserved existing) row ∨
      let row1 := releaseReservation (r_reserved existing) row in
      row' = addReservation estimate 0 row1 ∧
      (unlimited row1 = false → spent row1 + reserved row1 + estimate ≤ budget row1))) ∨
  (results st !! requestId args = None ∧ row' = addReservation estimate 1 row ∧
   requestLimitReached row = None ∧
   (unlimited row = false → spent row + reserved row + estimate ≤ budget row)).
Proof.
  intros Hl row estimate. unfold reserve in Hl. fold row estimate in Hl.
  destruct (results st !! requestId args) as [existing|] eqn:Hlk.
  - destruct (replayable existing) as [[status body]|]; [simpl in Hl; simplify_eq; by left|].
    case_match; [simpl in Hl; simplify_eq; by left|]. right; left. exists existing. split; [done|].
    destruct (admitReservation _ _ _ _ _ _) as [[row2 tbl2] res] eqn:E. simpl in Hl; simplify_eq.
    apply admitReservation_cases in E as [[(-> & _)|(-> & _)]|(-> & _ & ? & _)]; eauto.
  - destruct (admitReservation _ _ _ _ _ _) as [[row2 tbl2] res] eqn:E. simpl in Hl; simplify_eq.
    apply admitReservation_cases in E as [[(-> & _)|(-> & _)]|(-> & _ & ? & ? & _)]; eauto 10.
Qed.

Lemma newRow_BudgetOk args : unlimited (newRow args) = false → 0 ≤ budget (newRow args).
Proof. unfold unlimited. intros. bool_to_prop. lia. Qed.

Lemma reserve_BudgetOk now args st :
  Inv st → BudgetOk st → BudgetOk (fst (reserve now args st)).
Proof.
  intros HI HB row' Hl Hu. pose proof (default_row_ok args st HI) as Hrow.
  assert (Hdef : let row := default (newRow args) (ledger st) in
                 unlimited row = false → spent row + reserved row ≤ budget row).
  { destruct (ledger st) eqn:E; simpl; [by apply HB|]. apply newRow_BudgetOk. }
  assert (Hres : 0 ≤ reserved (default (newRow args) (ledger st))).
  { destruct (ledger st) eqn:E; simpl; [by eapply reserved_nonneg|lia]. }
  apply reserve_row in Hl as [->|[(ex & Hex & [->|[-> Hb]])|(_ & -> & _ & Hb)]].
  - by apply Hdef.
  - specialize (Hdef Hu). destruct HI as [Htbl _]. specialize (Htbl _ _ Hex) as [? _].
    simpl in *. lia.
  - specialize (Hb Hu). simpl in *. lia.
  - specialize (Hb Hu). simpl in *. lia.
Qed.

Lemma settle_BudgetOk args st :
  Inv st → charge_within st (OpSettle args) → BudgetOk st → BudgetOk (fst (settle args st)).
Proof.
  intros HI Hcw HB. unfold settle.
  destruct (ledger st) as [row|] eqn:Hl; [|done].
  destruct (results st !! settleRequestId args) as [pending|] eqn:Hp; [|done].
  case_match; [done|]. intros row' [= <-] Hu. specialize (Hcw _ Hp). specialize (HB row Hl Hu).
  destruct HI as [Htbl Hrow]. rw Hl in Hrow. destruct Hrow as (_ & _ & Hsum).
  assert (r_reserved pending ≤ reserved row).
  { rw Hsum. eapply sum_by_elem_le; [|done]. intros k v Hv. apply (Htbl k v Hv). }
  simpl. lia.
Qed.

Lemma exec_BudgetOk st o :
  Inv st → charge_within st o → BudgetOk st → BudgetOk (exec st o).
Proof.
  destruct o; simpl; intros; [by apply reserve_BudgetOk|by apply settle_BudgetOk|].
  by intros ? [=].
Qed.

Lemma run_BudgetOk ops st :
  Inv st → BudgetOk st → disciplined st ops → BudgetOk (run st ops).
Proof.
  revert st; induction ops as [|o ops IH]; intros st HI HB; simpl; [done|].
  intros [Hw Hd]. apply IH; [by apply ledger_exec_Inv|by apply exec_BudgetOk|done].
Qed.

Lemma exec_RequestsOk st o : Inv st → RequestsOk st → RequestsOk (exec st o).
Proof.
  intros HI HR. destruct o as [now args|args|]; simpl; [| |by intros ? ? [=]].
  - intros row' limit Hl Hm.
    assert (Hdef : let row := default (newRow args) (ledger st) in
      ∀ limit, max_requests row = Some limit → requests row ≤ Z.max 0 limit).
    { destruct (ledger st) eqn:E; simpl; intros lm Hmx; [by apply (HR _ _ E)|lia]. }
    apply reserve_row in Hl as [->|[(ex & _ & [->|[-> _]])|(_ & -> & Hlim & _)]]; simpl in *.
    + by apply Hdef.
    + by apply Hdef.
    + rw Z.add_0_r. by apply Hdef.
    + unfold requestLimitReached in Hlim. rw Hm in Hlim. case_match; [done|].
      bool_to_prop. lia.
  - unfold settle. destruct (ledger st) as [row|] eqn:Hl; [|done].
    destruct (results st !! settleRequestId args) as [pending|]; [|done].
    case_match; [done|]. intros row' limit [= <-] Hm. specialize (HR _ _ Hl Hm).
    destruct HI as [_ Hrow]. rw Hl in Hrow. destruct Hrow as (_ & ? & _).
    simpl. case_match; lia.
Qed.

Lemma run_RequestsOk ops st : Inv st → RequestsOk st → RequestsOk (run st ops).
Proof.
  revert st; induction ops as [|o ops IH]; intros st HI HR; simpl; [done|].
  apply IH; [by apply ledger_exec_Inv|by apply exec_RequestsOk].
Qed.

(** A completed result, and the ledger row, survive every operation but the alarm. *)
Lemma reserve_keeps_completed now args st id r sb :
  results st !! id = Some r → replayable r = Some sb → is_Some (ledger st) →
  results (fst (reserve now args st)) !! id = Some r ∧
  is_Some (ledger (fst (reserve now args st))).
Proof.
  intros Hid Hr Hl. unfold reserve. destruct (decide (requestId args = id)) as [<-|Hne].
  - rw Hid Hr. destruct sb. simpl. eauto.
  - destruct (results st !! requestId args) as [ex|] eqn:Hex.
    + destruct (replayable ex) as [[??]|]; simpl; eauto. case_match; simpl; eauto.
      destruct (admitReservation _ _ _ _ _ _) as [[row' tbl'] res] eqn:E; simpl.
      apply admitReservation_cases in E as [[(_ & -> & _)|(_ & -> & _)]|(_ & -> & _)];
        rw ?lookup_insert_ne // lookup_delete_ne //; eauto.
    + destruct (admitReservation _ _ _ _ _ _) as [[row' tbl'] res] eqn:E; simpl.
      apply admitReservation_cases in E as [[(_ & -> & _)|(_ & -> & _)]|(_ & -> & _)];
        rw ?lookup_insert_ne //; eauto.
Qed.

Lemma settle_keeps_completed args st id r sb :
  results st !! id = Some r → replayable r = Some sb → is_Some (ledger st) →
  results (fst (settle args st)) !! id = Some r ∧ is_Some (ledger (fst (settle args st))).
Proof.
  intros Hid Hr [row Hl]. unfold settle. rw Hl.
  destruct (results st !! settleRequestId args) as [p|] eqn:Hp; [|simpl; eauto].
  destruct (0 <? r_status p) eqn:Hs; [simpl; eauto|]. simpl. split; [|eauto].
  destruct (decide (settleRequestId args = id)) as [<-|Hne].
  - simplify_eq. unfold replayable in Hr. rw Hs in Hr. by case_match.
  - destruct (settledResult args p); simpl; [rw lookup_insert_ne //|rw lookup_delete_ne //].
Qed.

Lemma run_keeps_completed ops st id r sb :
  results st !! id = Some r → replayable r = Some sb → is_Some (ledger st) →
  forallb (λ o, negb (is_alarm o)) ops = true →
  results (run st ops) !! id = Some r ∧ is_Some (ledger (run st ops)).
Proof.
  revert st; induction ops as [|o ops IH]; intros st Hid Hr Hl; simpl; [by split|].
  intros [Ha Hops]%andb_true_iff.
  assert (results (exec st o) !! id = Some r ∧ is_Some (ledger (exec st o))) as [??].
  { destruct o; simpl in *; [by eapply reserve_keeps_completed|by eapply settle_keeps_completed|done]. }
  by apply IH.
Qed.

Lemma reserve_completed now args st r status body :
  results st !! requestId args = Some r → replayable r = Some (status, body) →
  is_Some (ledger st) → reserve now args st = (st, Replay status body).
Proof.
  intros Hid Hr [row Hl]. unfold reserve. rw Hid Hr Hl. simpl. destruct st; simpl in *.
  by rw Hl.
Qed.

(** ** Properties *)

(** C23: over any interleaving of reservations, settlements and alarms, as long as no
    settlement charges more than its own request reserved, a budgeted capability's
    spent and reserved micro-cents together never exceed its budget. *)
Theorem ledger_budget_never_exceeded ops row :
  disciplined initSchema ops →
  ledger (run initSchema ops) = Some row → unlimited row = false →
  spent row + reserved row ≤ budget row.
Proof.
  intros Hd Hl Hu. eapply (run_BudgetOk ops initSchema); eauto using initSchema_Inv.
  by intros ? [=].
Qed.

(** in every reachable state the reserved total is exactly the sum of the
    reservations of the requests still in flight (so the [MAX(0, ...)] clamps of the
    SQL updates never lose an amount), and spent is not negative. *)
Theorem ledger_reserved_is_in_flight ops row :
  ledger (run initSchema ops) = Some row →
  reserved row = sum_by r_reserved (results (run initSchema ops)) ∧ 0 ≤ spent row.
Proof.
  intros Hl. pose proof (ledger_run_Inv ops initSchema initSchema_Inv) as [_ Hrow].
  rw Hl in Hrow. by destruct Hrow as (? & _ & ?).
Qed.

(** in every reachable state the number of counted requests is at most the
    capability's request limit. *)
Theorem ledger_request_limit ops row limit :
  ledger (run initSchema ops) = Some row → max_requests row = Some limit →
  requests row ≤ Z.max 0 limit.
Proof.
  intros Hl Hm. eapply (run_RequestsOk ops initSchema); eauto using initSchema_Inv.
  by intros ? ? [=].
Qed.

(** once a settlement has cached a completed result, every later reservation of
    that request id, after any operations short of the expiry alarm, replays exactly
    that result and changes nothing: a retry is never charged or executed twice. *)
Theorem ledger_settled_result_is_replayed st args status body ops now rargs :
  result args = Some (status, body) →
  cached (snd (settle args st)) = true →
  forallb (λ o, negb (is_alarm o)) ops = true →
  requestId rargs = settleRequestId args →
  let st' := run (fst (settle args st)) ops in
  reserve now rargs st' = (st', Replay status body).
Proof.
  intros Hres Hc Hops Hid st'.
  assert (∃ r, results (fst (settle args st)) !! settleRequestId args = Some r ∧
    replayable r = Some (status, body) ∧ is_Some (ledger (fst (settle args st))))
    as (r & Hr & Hrep & Hl).
  { revert Hc. unfold settle, settledResult. rw Hres.
    destruct (ledger st); [|done]. destruct (results st !! _) as [p|]; [|done].
    destruct (0 <? r_status p); [done|].
    destruct (0 <? status) eqn:Hs; [|done]. destruct (utf8Length body <=? _) eqn:Hb; [|done].
    intros _. simpl. rw lookup_insert_eq. eexists; split; [done|].
    unfold replayable; simpl. rw Hs. eauto. }
  destruct (run_keeps_completed ops _ _ _ _ Hr Hrep Hl Hops) as [Hr' Hl'].
  eapply reserve_completed; eauto. by rw Hid.
Qed.

(** a request id whose reservation was never settled answers [in_flight], leaving
    the ledger alone, for [IN_FLIGHT_ABANDON_AFTER_MS]; after that it is retaken by the
    next reservation, which releases the abandoned amount, reserves the new estimate
    and does not count a second request. *)
Theorem ledger_abandoned_request_is_retaken st now args row ex :
  Inv st → ledger st = Some row →
  results st !! requestId args = Some ex → r_status ex = 0 →
  (now - r_created_at ex ≤ IN_FLIGHT_ABANDON_AFTER_MS →
     reserve now args st = (st, InFlight)) ∧
  (IN_FLIGHT_ABANDON_AFTER_MS < now - r_created_at ex →
     ∀ rem, snd (reserve now args st) = Reserved rem →
     ∃ row', ledger (fst (reserve now args st)) = Some row' ∧
       requests row' = requests row ∧ spent row' = spent row ∧
       reserved row' = reserved row - r_reserved ex +
                       clampMicroCents (estimatedMicroCents args)).
Proof.
  intros HI Hl Hex Hs.
  assert (Hrep : replayable ex = None).
  { unfold replayable. rw Hs. by case_match. }
  assert (Hle : r_reserved ex ≤ reserved row).
  { destruct HI as [Htbl Hrow]. rw Hl in Hrow. destruct Hrow as (_ & _ & ->).
    eapply sum_by_elem_le; [|done]. intros k v Hv. apply (Htbl k v Hv). }
  unfold reserve. rw Hex Hrep Hl. simpl. split.
  - intros ->%Z.leb_le. by destruct st; simpl in *; subst.
  - intros ->%Z.leb_gt rem.
    destruct (admitReservation _ _ _ _ _ _) as [[row' tbl'] res] eqn:E; simpl. intros ->.
    apply admitReservation_cases in E
      as [[(_ & _ & _ & [=])|(_ & _ & _ & [=])]|(-> & _)].
    eexists; split; [done|]. simpl. lia.
Qed.

(** ** Witnesses *)

Definition ex_reserve (id : string) (estimate : Z) : LedgerReserveArgs := {|
  jti := "cap"; budgetMicroCents := num_of_Z 100; maxRequests := Some (num_of_Z 3);
  expiresAt := num_of_Z 5000; requestId := id; estimatedMicroCents := num_of_Z estimate;
|}.

Definition ex_settle (id : string) (charged : Z) : LedgerSettleArgs := {|
  settleRequestId := id; chargedMicroCents := num_of_Z charged; refundRequest := false;
  result := Some (200, "{}"%string);
|}.

Definition ex_ops : list op :=
  [OpReserve 0 (ex_reserve "a" 40); OpSettle (ex_settle "a" 30);
   OpReserve 10 (ex_reserve "b" 50); OpReserve 20 (ex_reserve "c" 50)].

Definition ex_row : LedgerRow := default (newRow (ex_reserve "a" 40)) (ledger (run initSchema ex_ops)).

Lemma ledger_budget_never_exceeded_witness :
  spent ex_row = 30 ∧ reserved ex_row = 50 ∧ spent ex_row + reserved ex_row ≤ budget ex_row.
Proof.
  split; [by vm_compute|]. split; [by vm_compute|].
  apply (ledger_budget_never_exceeded ex_ops); [|by vm_compute..].
  repeat split. intros pending Hp. vm_compute in Hp. injection Hp as <-. by vm_compute.
Defined.

Lemma ledger_reserved_is_in_flight_witness :
  reserved ex_row = sum_by r_reserved (results (run initSchema ex_ops)) ∧ 0 ≤ spent ex_row.
Proof. apply ledger_reserved_is_in_flight. by vm_compute. Defined.

Lemma ledger_request_limit_witness : requests ex_row ≤ Z.max 0 3.
Proof. apply (ledger_request_limit ex_ops); by vm_compute. Defined.

Definition ex_st : State := run initSchema [OpReserve 0 (ex_reserve "a" 40)].
Definition ex_settled : State :=
  run (fst (settle (ex_settle "a" 30) ex_st)) [OpReserve 10 (ex_reserve "b" 50)].

Lemma ledger_settled_result_is_replayed_witness :
  reserve 20 (ex_reserve "a" 70) ex_settled = (ex_settled, Replay 200 "{}").
Proof.
  apply (ledger_settled_result_is_replayed ex_st (ex_settle "a" 30));
    by vm_compute.
Defined.

Lemma ledger_abandoned_request_is_retaken_witness :
  reserve 5 (ex_reserve "a" 70) ex_st = (ex_st, InFlight) ∧
  ∃ row', ledger (fst (reserve 3000000 (ex_reserve "a" 70) ex_st)) = Some row' ∧
    requests row' = 1 ∧ spent row' = 0 ∧ reserved row' = 70.
Proof.
  assert (HI : Inv ex_st) by apply ledger_run_Inv, initSchema_Inv.
  pose (row := default (newRow (ex_reserve "a" 40)) (ledger ex_st)).
  pose (ex := pendingResult 40 0).
  split.
  - apply (ledger_abandoned_request_is_retaken ex_st 5 (ex_reserve "a" 70) row ex HI);
      by vm_compute.
  - apply (ledger_abandoned_request_is_retaken ex_st 3000000 (ex_reserve "a" 70) row ex HI)
      with (rem := Some 30); by vm_compute.
Defined.
