(* ===== verification/OwnerLedger.v ===== *)
(** * OwnerLedgerStore (workers/model-gateway/src/owner-ledger-store.ts)

    The ledgers of all capabilities of one owner in two tables of the owner's
    object: [ledger] keyed by [jti] and [results] keyed by [(jti, request_id)].
    Each [jti] is meant to behave as a [CapabilityLedger] of its own; [view] relates
    the two and the refinement theorem states it for whole traces.

    [alarmAt] is the store's cached field, [storageAlarm] the object's one alarm,
    which [OwnerRelayGate] also moves. *)

From Corelib Require Import ssreflect.
From stdpp Require Import prelude gmap strings.
From S2P Require Import Prelude JsNumber JsString GatewayPolicy Ledger.

#[local] Open Scope Z_scope.

Record OwnerLedger := {
  ledgers : gmap string LedgerRow;
  ownedResults : gmap (string * string) ResultRow;
  armedAt : option Z;
  storageAlarm : option Z;
}.

(** The schema, on first use of the object. *)
Definition initOwnerLedger : OwnerLedger :=
  {| ledgers := ∅; ownedResults := ∅; armedAt := None; storageAlarm := None |}.

Definition withTables (l : gmap string LedgerRow) (r : gmap (string * string) ResultRow)
    (st : OwnerLedger) : OwnerLedger :=
  {| ledgers := l; ownedResults := r; armedAt := armedAt st; storageAlarm := storageAlarm st |}.

Definition setAlarm (at_ : Z) (st : OwnerLedger) : OwnerLedger :=
  {| ledgers := ledgers st; ownedResults := ownedResults st; armedAt := armedAt st;
     storageAlarm := Some at_ |}.

Definition setArmedAt (a : option Z) (st : OwnerLedger) : OwnerLedger :=
  {| ledgers := ledgers st; ownedResults := ownedResults st; armedAt := a;
     storageAlarm := storageAlarm st |}.

(** ** Methods *)

(** [reserveSync] from the request limit on: [row] is what the ledger holds for
    the capability, and the request id is free. *)
Definition admitOwned (now estimate : Z) (resumingAbandoned : bool)
    (cap request_id : string) (row : LedgerRow) (st : OwnerLedger) :
    OwnerLedger * LedgerReserveResult :=
  let limited :=
    match max_requests row with
    | Some limit => if negb resumingAbandoned && (limit <=? requests row) then Some limit else None
    | None => None
    end in
  match limited with
  | Some limit => (st, RequestLimit limit)
  | None =>
      let remaining :=
        if unlimited row then None else Some (budget row - spent row - reserved row) in
      let exhausted :=
        match remaining with
        | Some _ => budget row <? spent row + reserved row + estimate
        | None => false
        end in
      if exhausted then (st, BudgetExhausted (Z.max 0 (default 0 remaining)))
      else
        (withTables
           (<[cap := addReservation estimate (if resumingAbandoned then 0 else 1) row]> (ledgers st))
           (<[(cap, request_id) := pendingResult estimate now]> (ownedResults st)) st,
         Reserved (match remaining with
                   | Some rest => Some (Z.max 0 (rest - estimate))
                   | None => None
                   end))
  end.

Definition reserveSync (now : Z) (args : LedgerReserveArgs) (st : OwnerLedger) :
    OwnerLedger * LedgerReserveResult :=
  let cap := jti args in
  let id := requestId args in
  let estimate := clampMicroCents (estimatedMicroCents args) in
  let row := default (newRow args) (ledgers st !! cap) in
  let st := withTables (<[cap := row]> (ledgers st)) (ownedResults st) st in
  match ownedResults st !! (cap, id) with
  | Some existing =>
      match replayable existing with
      | Some (status, body) => (st, Replay status body)
      | None =>
          if now - r_created_at existing <=? IN_FLIGHT_ABANDON_AFTER_MS
          then (st, InFlight)
          else
            let row := releaseReservation (r_reserved existing) row in
            let st := withTables (<[cap := row]> (ledgers st))
                        (delete (cap, id) (ownedResults st)) st in
            admitOwned now estimate true cap id row st
      end
  | None => admitOwned now estimate false cap id row st
  end.

Definition settle (cap : string) (args : LedgerSettleArgs) (st : OwnerLedger) :
    OwnerLedger * LedgerSettleResult :=
  let id := settleRequestId args in
  let refused :=
    (st, {| ok := false;
            spentMicroCents := default 0 (spent <$> ledgers st !! cap);
            reservedMicroCents := default 0 (reserved <$> ledgers st !! cap);
            cached := false |}) in
  match ledgers st !! cap, ownedResults st !! (cap, id) with
  | Some row, Some pending =>
      if 0 <? r_status pending then refused
      else
        let charged := clampMicroCents (chargedMicroCents args) in
        let row' := settleRow (r_reserved pending) charged
                      (if refundRequest args then 1 else 0) row in
        let done := settledResult args pending in
        (withTables (<[cap := row']> (ledgers st))
           (match done with
            | Some r => <[(cap, id) := r]> (ownedResults st)
            | None => delete (cap, id) (ownedResults st)
            end) st,
         {| ok := true; spentMicroCents := spent row'; reservedMicroCents := reserved row';
            cached := bool_decide (is_Some done) |})
  | _, _ => refused
  end.

(** [SELECT MIN(expires_at) + TTL]: arms the object's alarm unless an alarm at
    least as early was armed by this instance. *)
Definition armAlarm (now : Z) (st : OwnerLedger) : OwnerLedger :=
  match min_by expires_at (ledgers st) with
  | None => st
  | Some oldest =>
      let next := oldest + GATEWAY_RESULT_CACHE_TTL_MS in
      if match armedAt st with None => true | Some a => next <? a end
      then let at_ := Z.max (now + 1000) next in setArmedAt (Some at_) (setAlarm at_ st)
      else st
  end.

(** A row the cleanup deletes: its capability and its replay window are over. *)
Definition expired (cutoff : Z) (row : LedgerRow) : bool := expires_at row <=? cutoff.

(** [DELETE FROM results WHERE jti IN (SELECT jti FROM ledger WHERE expires_at <= ?)],
    then the ledger rows, then the next alarm. *)
Definition alarm (now : Z) (st : OwnerLedger) : OwnerLedger :=
  let cutoff := now - GATEWAY_RESULT_CACHE_TTL_MS in
  let results' :=
    filter (λ '((cap, _), _), from_option (λ row, negb (expired cutoff row)) true (ledgers st !! cap) = true)
      (ownedResults st) in
  let ledgers' := filter (λ '(_, row), expired cutoff row = false) (ledgers st) in
  armAlarm now (setArmedAt None (withTables ledgers' results' st)).

(** ** Traces *)

Inductive op : Type :=
  | OpReserve (now : Z) (args : LedgerReserveArgs)
  | OpSettle (cap : string) (args : LedgerSettleArgs)
  | OpArmAlarm (now : Z)
  | OpAlarm (now : Z).

Inductive reply : Type :=
  | ReserveReply (r : LedgerReserveResult)
  | SettleReply (r : LedgerSettleResult).

(** One operation, with the capability it names and its reply. *)
Definition exec (o : op) (st : OwnerLedger) : OwnerLedger * list (string * reply) :=
  match o with
  | OpReserve now args =>
      let '(st', r) := reserveSync now args st in (st', [(jti args, ReserveReply r)])
  | OpSettle cap args =>
      let '(st', r) := settle cap args st in (st', [(cap, SettleReply r)])
  | OpArmAlarm now => (armAlarm now st, [])
  | OpAlarm now => (alarm now st, [])
  end.

Fixpoint run (ops : list op) (st : OwnerLedger) : OwnerLedger * list (string * reply) :=
  match ops with
  | [] => (st, [])
  | o :: ops' =>
      let '(st1, replies1) := exec o st in
      let '(st2, replies2) := run ops' st1 in
      (st2, replies1 ++ replies2)
  end.

(** *** The specification: one [CapabilityLedger] that sees only its own calls *)

Definition expireSpec (now : Z) (sp : State) : State :=
  match ledger sp with
  | Some row =>
      if expired (now - GATEWAY_RESULT_CACHE_TTL_MS) row then Ledger.alarm sp else sp
  | None => sp
  end.

Definition execSpec (cap : string) (o : op) (sp : State) : State * list reply :=
  match o with
  | OpReserve now args =>
      if bool_decide (jti args = cap)
      then let '(sp', r) := Ledger.reserve now args sp in (sp', [ReserveReply r])
      else (sp, [])
  | OpSettle cap' args =>
      if bool_decide (cap' = cap)
      then let '(sp', r) := Ledger.settle args sp in (sp', [SettleReply r])
      else (sp, [])
  | OpArmAlarm _ => (sp, [])
  | OpAlarm now => (expireSpec now sp, [])
  end.

Fixpoint runSpec (cap : string) (ops : list op) (sp : State) : State * list reply :=
  match ops with
  | [] => (sp, [])
  | o :: ops' =>
      let '(sp1, replies1) := execSpec cap o sp in
      let '(sp2, replies2) := runSpec cap ops' sp1 in
      (sp2, replies1 ++ replies2)
  end.

(** The tables of the owner, restricted to [cap], are the tables of the ledger. *)
Definition view (cap : string) (st : OwnerLedger) (sp : State) : Prop :=
  ledgers st !! cap = ledger sp ∧
  ∀ id, ownedResults st !! (cap, id) = results sp !! id.

(** ** The refinement *)

Section refinement.
Context (cap : string).
Implicit Types (st : OwnerLedger) (sp : State).

Lemma view_armAlarm now st sp : view cap st sp → view cap (armAlarm now st) sp.
Proof. unfold armAlarm. intros Hv. by repeat case_match. Qed.

(** The rest of [reserve], once both sides hold the same row and the id is free. *)
Lemma admitOwned_view now estimate resume id row st sp :
  view cap st sp → ledger sp = Some row →
  let '(st', r) := admitOwned now estimate resume cap id row st in
  let '(row', tbl', r') := admitReservation now estimate resume id row (results sp) in
  r = r' ∧ view cap st' {| ledger := Some row'; results := tbl'; alarmAt := alarmAt sp |}.
Proof.
  intros [Hl Hr] Hrow. rw Hrow in Hl.
  assert (Hins : view cap
    (withTables (<[cap := addReservation estimate (if resume then 0 else 1) row]> (ledgers st))
       (<[(cap, id) := pendingResult estimate now]> (ownedResults st)) st)
    {| ledger := Some (addReservation estimate (if resume then 0 else 1) row);
       results := <[id := pendingResult estimate now]> (results sp); alarmAt := alarmAt sp |}).
  { split; simpl; [by rw lookup_insert_eq|]. intros id'.
    destruct (decide (id' = id)) as [->|]; [by rw !lookup_insert_eq|].
    rw !lookup_insert_ne //; congruence. }
  unfold admitOwned, admitReservation, requestLimitReached.
  destruct resume; simpl; destruct (unlimited row); simpl;
    repeat (case_match; simplify_eq/=); try done; by split.
Qed.

Lemma reserveSync_view now args st sp :
  jti args = cap → view cap st sp →
  let '(st', r) := reserveSync now args st in
  let '(sp', r') := Ledger.reserve now args sp in
  r = r' ∧ view cap st' sp'.
Proof.
  intros Hc [Hl Hr]. unfold reserveSync, Ledger.reserve. simpl. rw !Hc.
  rw -Hl -Hr.
  set (row := default (newRow args) (ledgers st !! cap)).
  set (alarm' := match ledgers st !! cap with Some _ => _ | None => _ end).
  assert (Hview : ∀ tbl, (∀ id, ownedResults st !! (cap, id) = tbl !! id) → ∀ row,
    view (cap) (withTables (<[cap:=row]> (ledgers st)) (ownedResults st) st)
      {| ledger := Some row; results := tbl; alarmAt := alarm' |}).
  { intros tbl Htbl row0. split; simpl; [by rw lookup_insert_eq|done]. }
  destruct (ownedResults st !! (cap, requestId args)) as [ex|] eqn:Hex.
  - destruct (replayable ex) as [[status body]|]; [split; [done|by apply Hview]|].
    destruct (_ <=? IN_FLIGHT_ABANDON_AFTER_MS); [split; [done|by apply Hview]|].
    set (row1 := releaseReservation (r_reserved ex) row).
    pose proof (admitOwned_view now (clampMicroCents (estimatedMicroCents args)) true
      (requestId args) row1
      (withTables (<[cap:=row1]> (<[cap:=row]> (ledgers st)))
         (delete (cap, requestId args) (ownedResults st)) st)
      {| ledger := Some row1; results := delete (requestId args) (results sp);
         alarmAt := alarm' |}) as H'.
    simpl in H'. destruct (admitOwned _ _ _ _ _ _ _) as [st' r].
    destruct (admitReservation _ _ _ _ _ _) as [[row' tbl'] r'].
    apply H'; [|done]. split; simpl; [by rw lookup_insert_eq|]. intros id.
    destruct (decide (id = requestId args)) as [->|]; [by rw !lookup_delete_eq|].
    rw !lookup_delete_ne //; congruence.
  - pose proof (admitOwned_view now (clampMicroCents (estimatedMicroCents args)) false
      (requestId args) row _ _ (Hview (results sp) Hr row) eq_refl) as H'.
    simpl in H'. destruct (admitOwned _ _ _ _ _ _ _) as [st' r].
    destruct (admitReservation _ _ _ _ _ _) as [[row' tbl'] r']. exact H'.
Qed.

(** A call on behalf of another capability changes nothing [cap] can see. *)
Lemma withTables_frame st l r cap' row :
  cap' ≠ cap → l = <[cap':=row]> (ledgers st) →
  (∀ id, r !! (cap, id) = ownedResults st !! (cap, id)) →
  ∀ sp, view cap st sp → view cap (withTables l r st) sp.
Proof.
  intros Hne -> Hr sp [Hl Hres]. split; simpl; [by rw lookup_insert_ne|].
  intros id. by rw Hr.
Qed.

Lemma admitOwned_frame now estimate resume cap' id row st sp :
  cap' ≠ cap → view cap st sp →
  view cap (fst (admitOwned now estimate resume cap' id row st)) sp.
Proof.
  intros Hne Hv. unfold admitOwned.
  repeat case_match; simpl; try done;
    (eapply withTables_frame; [exact Hne|done| |done]);
    intros id'; rw lookup_insert_ne //; congruence.
Qed.

Lemma reserveSync_frame now args st sp :
  jti args ≠ cap → view cap st sp → view cap (fst (reserveSync now args st)) sp.
Proof.
  intros Hne Hv. unfold reserveSync. simpl.
  set (row := default (newRow args) (ledgers st !! jti args)).
  assert (Hv1 : view cap (withTables (<[jti args:=row]> (ledgers st)) (ownedResults st) st) sp)
    by by eapply withTables_frame.
  destruct (ownedResults st !! _) as [ex|]; [|by apply admitOwned_frame].
  destruct (replayable ex) as [[??]|]; [done|]. destruct (_ <=? _); [done|].
  apply admitOwned_frame; [done|].
  eapply withTables_frame; [exact Hne|done| |done].
  intros id. rw lookup_delete_ne //; congruence.
Qed.

Lemma settle_view args st sp :
  view cap st sp →
  let '(st', r) := settle cap args st in
  let '(sp', r') := Ledger.settle args sp in
  r = r' ∧ view cap st' sp'.
Proof.
  intros [Hl Hr]. unfold settle, Ledger.settle. rw -Hl -Hr.
  destruct (ledgers st !! cap) as [row|] eqn:Hrow; [|split; [done|by split; rw ?Hrow]].
  destruct (ownedResults st !! (cap, settleRequestId args)) as [p|] eqn:Hp;
    [|split; [done|by split; rw ?Hrow]].
  destruct (0 <? r_status p); [split; [done|by split; rw ?Hrow]|].
  split; [done|]. split; simpl; [by rw lookup_insert_eq|]. intros id.
  unfold storeSettled.
  destruct (settledResult args p), (decide (id = settleRequestId args)) as [->|];
    rw ?lookup_insert_eq ?lookup_delete_eq //.
  - rw !lookup_insert_ne //; congruence.
  - rw !lookup_delete_ne //; congruence.
Qed.

Lemma settle_frame cap' args st sp :
  cap' ≠ cap → view cap st sp → view cap (fst (settle cap' args st)) sp.
Proof.
  intros Hne Hv. unfold settle. repeat case_match; simpl; try done;
    (eapply withTables_frame; [exact Hne|done| |done]); intros id;
    (rw lookup_insert_ne || rw lookup_delete_ne); congruence.
Qed.

Lemma alarm_view now st sp :
  Ledger.Inv sp → view cap st sp → view cap (alarm now st) (expireSpec now sp).
Proof.
  intros HI [Hl Hr]. apply view_armAlarm. unfold expireSpec.
  destruct (ledger sp) as [row|] eqn:Hrow.
  - destruct (expired _ row) eqn:He; split; simpl.
    + apply map_lookup_filter_None. right. intros row' Hrow' Hx. rw Hl in Hrow'. congruence.
    + intros id. rw lookup_empty. apply map_lookup_filter_None. right. intros r _.
      rw Hl. simpl. by rw He.
    + rw Hrow. by apply map_lookup_filter_Some.
    + intros id. rw -Hr. destruct (ownedResults st !! (cap, id)) eqn:E.
      * apply map_lookup_filter_Some. split; [done|]. rw Hl /=. by rw He.
      * apply map_lookup_filter_None. by left.
  - split; simpl.
    + rw Hrow. apply map_lookup_filter_None. by left.
    + intros id. rw -Hr. assert (ownedResults st !! (cap, id) = None) as ->.
      { rw Hr. destruct HI as [_ HI]. rw Hrow in HI. by rw HI. }
      apply map_lookup_filter_None. rw Hr. destruct HI as [_ HI]. rw Hrow in HI. rw HI.
      by left.
Qed.

Lemma expireSpec_Inv now sp : Ledger.Inv sp → Ledger.Inv (expireSpec now sp).
Proof. unfold expireSpec. intros. repeat case_match; auto using initSchema_Inv. Qed.

Lemma execSpec_Inv o sp : Ledger.Inv sp → Ledger.Inv (fst (execSpec cap o sp)).
Proof.
  intros HI. destruct o as [now args|cap' args|now|now]; simpl; auto using expireSpec_Inv.
  - case_match; [|done]. pose proof (reserve_Inv now args sp HI). by case_match.
  - case_match; [|done]. pose proof (settle_Inv args sp HI). by case_match.
Qed.

(** The replies addressed to [cap]. *)
Definition repliesFor (l : list (string * reply)) : list reply :=
  (filter (λ p, p.1 = cap) l).*2.

Lemma repliesFor_app l l' : repliesFor (l ++ l') = repliesFor l ++ repliesFor l'.
Proof. unfold repliesFor. by rw filter_app fmap_app. Qed.

Lemma repliesFor_own r : repliesFor [(cap, r)] = [r].
Proof. unfold repliesFor. rw filter_cons_True //. Qed.

Lemma repliesFor_other cap' r : cap' ≠ cap → repliesFor [(cap', r)] = [].
Proof. intros. unfold repliesFor. rw filter_cons_False //. Qed.

Lemma exec_view o st sp :
  Ledger.Inv sp → view cap st sp →
  view cap (fst (exec o st)) (fst (execSpec cap o sp)) ∧
  repliesFor (snd (exec o st)) = snd (execSpec cap o sp).
Proof.
  intros HI Hv. destruct o as [now args|cap' args|now|now]; simpl.
  - case_bool_decide as Hc.
    + pose proof (reserveSync_view now args st sp Hc Hv) as H.
      destruct (reserveSync now args st), (Ledger.reserve now args sp); simpl.
      destruct H as [-> ?]. by rw Hc repliesFor_own.
    + pose proof (reserveSync_frame now args st sp Hc Hv).
      destruct (reserveSync now args st); simpl. by rw repliesFor_other.
  - case_bool_decide as Hc.
    + subst cap'. pose proof (settle_view args st sp Hv) as H.
      destruct (settle cap args st), (Ledger.settle args sp); simpl.
      destruct H as [-> ?]. by rw repliesFor_own.
    + pose proof (settle_frame cap' args st sp Hc Hv).
      destruct (settle cap' args st); simpl. by rw repliesFor_other.
  - split; [by apply view_armAlarm|done].
  - split; [by apply alarm_view|done].
Qed.

Lemma run_view ops st sp :
  Ledger.Inv sp → view cap st sp →
  view cap (fst (run ops st)) (fst (runSpec cap ops sp)) ∧
  repliesFor (snd (run ops st)) = snd (runSpec cap ops sp).
Proof.
  revert st sp; induction ops as [|o ops IH]; intros st sp HI Hv; simpl; [done|].
  destruct (exec_view o st sp HI Hv) as [Hv1 Hr1]. pose proof (execSpec_Inv o sp HI) as HI1.
  destruct (exec o st) as [st1 r1], (execSpec cap o sp) as [sp1 q1]; simpl in *.
  specialize (IH st1 sp1 HI1 Hv1) as [Hv2 Hr2].
  destruct (run ops st1) as [st2 r2], (runSpec cap ops sp1) as [sp2 q2]; simpl in *.
  by rw repliesFor_app Hr1 Hr2.
Qed.

Lemma initOwnerLedger_view : view cap initOwnerLedger initSchema.
Proof. done. Qed.
End refinement.

(** ** The alarm *)

(** The instance's field never promises more than the object's alarm delivers, and
    a ledger that holds rows has an alarm pending. *)
Definition Armed (st : OwnerLedger) : Prop :=
  (∀ a, armedAt st = Some a → ∃ t, storageAlarm st = Some t ∧ t ≤ a) ∧
  (ledgers st ≠ ∅ → is_Some (storageAlarm st)).

Lemma armAlarm_Armed now st :
  (∀ a, armedAt st = Some a → ∃ t, storageAlarm st = Some t ∧ t ≤ a) →
  Armed (armAlarm now st).
Proof.
  intros Ha. unfold armAlarm.
  destruct (min_by expires_at (ledgers st)) as [oldest|] eqn:Hmin.
  - case_match.
    + split; simpl; [|eauto]. intros a [= <-]. eexists; split; [done|]. lia.
    + split; [done|]. intros _. destruct (armedAt st) as [a|]; [|done].
      destruct (Ha a eq_refl) as (t & -> & _). eauto.
  - split; [done|]. by apply min_by_None in Hmin as ->.
Qed.

Lemma alarm_Armed now st : Armed (alarm now st).
Proof. unfold alarm. by apply armAlarm_Armed. Qed.

Lemma alarm_rows now st cap row :
  ledgers (alarm now st) !! cap = Some row ↔
  ledgers st !! cap = Some row ∧ now < expires_at row + GATEWAY_RESULT_CACHE_TTL_MS.
Proof.
  assert (ledgers (alarm now st) = filter
    (λ '(_, row), expired (now - GATEWAY_RESULT_CACHE_TTL_MS) row = false) (ledgers st)) as ->.
  { unfold alarm, armAlarm. by repeat case_match. }
  rw map_lookup_filter_Some /expired Z.leb_gt. split; intros [? ?]; split; (done || lia).
Qed.

(** ** Properties *)

(** C22: the owner's shared store refines one [CapabilityLedger] per capability: for
    any trace of reservations, settlements and alarms over any capabilities, the
    replies to one capability are exactly those of a ledger object that sees that
    capability's calls alone, and the rows under its [jti] are that object's state. *)
Theorem owner_ledger_refines_capability_ledger cap ops :
  repliesFor cap (snd (run ops initOwnerLedger)) = snd (runSpec cap ops initSchema) ∧
  view cap (fst (run ops initOwnerLedger)) (fst (runSpec cap ops initSchema)).
Proof.
  destruct (run_view cap ops initOwnerLedger initSchema) as [Hv Hr];
    [apply initSchema_Inv|apply initOwnerLedger_view|by split].
Qed.

(** the expiry alarm keeps exactly the capabilities whose replay window is still
    open, deletes no result of a capability it keeps, and leaves an alarm pending
    whenever a capability remains: cleanup never stops and never runs early. *)
Theorem owner_ledger_alarm_keeps_live_capabilities now st :
  let st' := alarm now st in
  (∀ cap row, ledgers st' !! cap = Some row ↔
     ledgers st !! cap = Some row ∧ now < expires_at row + GATEWAY_RESULT_CACHE_TTL_MS) ∧
  (∀ cap id, is_Some (ledgers st' !! cap) →
     ownedResults st' !! (cap, id) = ownedResults st !! (cap, id)) ∧
  (ledgers st' ≠ ∅ → is_Some (storageAlarm st')).
Proof.
  intros st'. split; [intros; apply alarm_rows|]. split; [|apply alarm_Armed].
  intros cap id [row [Hrow Hlive]%alarm_rows].
  assert (ownedResults st' = ownedResults (alarm now st)) as -> by done.
  assert (Hres : ownedResults (alarm now st) = filter (λ '((cap, _), _),
    from_option (λ row, negb (expired (now - GATEWAY_RESULT_CACHE_TTL_MS) row)) true
      (ledgers st !! cap) = true) (ownedResults st)).
  { unfold alarm, armAlarm. by repeat case_match. }
  rw Hres. destruct (ownedResults st !! (cap, id)) as [r|] eqn:E.
  - apply map_lookup_filter_Some. split; [done|]. rw Hrow /= /expired negb_true_iff Z.leb_gt. lia.
  - apply map_lookup_filter_None. by left.
Qed.
