(* ===== verification/TierBudget.v ===== *)
(** * TierBudget (workers/model-gateway/src/gates/tier-budget.ts)

    One object per limits audience: micro-cents reserved per minute, and two
    sliding windows (60 minutes, 24 hours) with a ceiling each.  A negative ceiling
    is "no ceiling".  The posted alerts are the log [posted]; whether a webhook is
    configured is the argument [webhook]. *)

From Corelib Require Import ssreflect.
From stdpp Require Import prelude gmap strings sorting.
From S2P Require Import Prelude JsNumber.

#[local] Open Scope Z_scope.

Definition MINUTE_MS : Z := 60000.
Definition HOUR_MINUTES : Z := 60.
Definition DAY_MINUTES : Z := 24 * HOUR_MINUTES.
Definition ALERT_INTERVAL_MS : Z := 5 * MINUTE_MS.

Inductive TierBudgetWindow : Set := hourly | daily.

#[export] Instance TierBudgetWindow_eq_dec : EqDecision TierBudgetWindow.
Proof. solve_decision. Defined.

Inductive TierBudgetReserveResult : Type :=
  | Accepted (minute : Z)
  | Refused (refused : TierBudgetWindow) (resetAt : Z).

(** The [buckets] table, the two rows [alerts] can hold, and the alerts posted. *)
Record State := {
  buckets : gmap Z Z;
  hourlyAlert : option Z;
  dailyAlert : option Z;
  posted : list (TierBudgetWindow * Z);
}.

Definition initState : State :=
  {| buckets := ∅; hourlyAlert := None; dailyAlert := None; posted := [] |}.

Definition withBuckets (b : gmap Z Z) (st : State) : State :=
  {| buckets := b; hourlyAlert := hourlyAlert st; dailyAlert := dailyAlert st;
     posted := posted st |}.

(** The rows a window of [windowMinutes] ending at [minute] selects. *)
Definition inWindow (minute windowMinutes m reserved : Z) : bool :=
  (minute - windowMinutes + 1 <=? m) && (0 <? reserved).

Definition windowTotal (minute windowMinutes : Z) (b : gmap Z Z) : Z :=
  sum_where (inWindow minute windowMinutes) (λ reserved, reserved) b.

Definition resetAt (minute windowMinutes : Z) (b : gmap Z Z) : Z :=
  (default minute (min_key_where (inWindow minute windowMinutes) b) + windowMinutes) * MINUTE_MS.

(** At most one alert per window and [ALERT_INTERVAL_MS]. *)
Definition reportTrip (webhook : bool) (window : TierBudgetWindow) (now reset : Z)
    (st : State) : State :=
  if negb webhook then st
  else
    let last := match window with hourly => hourlyAlert st | daily => dailyAlert st end in
    if match last with Some at_ => now - at_ <? ALERT_INTERVAL_MS | None => false end then st
    else {|
      buckets := buckets st;
      hourlyAlert := match window with hourly => Some now | daily => hourlyAlert st end;
      dailyAlert := match window with daily => Some now | hourly => dailyAlert st end;
      posted := posted st ++ [(window, reset)];
    |}.

Record ReserveArgs := {
  estimateMicroCents : number;
  hourlyCeiling : Z;
  dailyCeiling : Z;
  now : Z;
}.

(** [INSERT ... ON CONFLICT(minute) DO UPDATE SET reserved = reserved + excluded.reserved]. *)
Definition addToBucket (minute estimate : Z) (b : gmap Z Z) : gmap Z Z :=
  <[minute := default 0 (b !! minute) + estimate]> b.

Definition reserve (webhook : bool) (args : ReserveArgs) (st : State) :
    State * TierBudgetReserveResult :=
  let minute := now args / MINUTE_MS in
  let estimate := clampMicroCents (estimateMicroCents args) in
  let b := filter (λ kv, (kv.1 <? minute - DAY_MINUTES + 1) = false) (buckets st) in
  let st := withBuckets b st in
  if (0 <=? hourlyCeiling args) &&
     (hourlyCeiling args <? windowTotal minute HOUR_MINUTES b + estimate)
  then let reset := resetAt minute HOUR_MINUTES b in
       (reportTrip webhook hourly (now args) reset st, Refused hourly reset)
  else if (0 <=? dailyCeiling args) &&
          (dailyCeiling args <? windowTotal minute DAY_MINUTES b + estimate)
  then let reset := resetAt minute DAY_MINUTES b in
       (reportTrip webhook daily (now args) reset st, Refused daily reset)
  else (withBuckets (addToBucket minute estimate b) st, Accepted minute).

Record SettleArgs := {
  settleEstimate : number;
  actualMicroCents : number;
  settleMinute : Z;
}.

(** [UPDATE buckets SET reserved = MAX(0, reserved - ? + ?) WHERE minute = ?]. *)
Definition settle (args : SettleArgs) (st : State) : State :=
  let estimate := clampMicroCents (settleEstimate args) in
  let actual := clampMicroCents (actualMicroCents args) in
  match buckets st !! settleMinute args with
  | Some reserved =>
      withBuckets (<[settleMinute args := Z.max 0 (reserved - estimate + actual)]> (buckets st)) st
  | None => st
  end.

Definition byMinute (x y : Z * Z) : Prop := x.1 ≤ y.1.

#[export] Instance byMinute_dec : RelDecision byMinute.
Proof. intros x y. unfold byMinute. apply _. Defined.

(** [SELECT minute, reserved FROM buckets ORDER BY minute]. *)
Definition snapshot (st : State) : list (Z * Z) := merge_sort byMinute (map_to_list (buckets st)).

(** ** Lemmas *)

Section window.
Implicit Types (b : gmap Z Z) (minute w : Z).

(** What a row contributes to a window. *)
Definition share (minute w k v : Z) : Z := if inWindow minute w k v then v else 0.

Lemma share_bounds minute w k v : 0 ≤ v → 0 ≤ share minute w k v ≤ v.
Proof. unfold share. case_match; lia. Qed.

Lemma windowTotal_share minute w b : windowTotal minute w b = sum_kv (share minute w) b.
Proof. done. Qed.

(** A later window of the same width selects fewer rows. *)
Lemma windowTotal_mono minute minute' w b :
  minute ≤ minute' → windowTotal minute' w b ≤ windowTotal minute w b.
Proof.
  intros Hle. apply sum_kv_mono. intros k v _. unfold inWindow.
  repeat case_match; bool_to_prop; lia.
Qed.

(** Pruning what is older than a day changes no window. *)
Lemma windowTotal_prune minute w b :
  w ≤ DAY_MINUTES →
  windowTotal minute w
    (filter (λ kv, (kv.1 <? minute - DAY_MINUTES + 1) = false) b) = windowTotal minute w b.
Proof.
  intros Hw. apply sum_kv_filter. intros k v _. unfold inWindow. simpl.
  intros Hlt%not_false_iff_true. bool_to_prop. case_match; bool_to_prop; lia.
Qed.

Lemma windowTotal_add minute w m estimate b :
  0 ≤ estimate → 0 ≤ default 0 (b !! m) →
  windowTotal minute w (addToBucket m estimate b) ≤ windowTotal minute w b + estimate.
Proof.
  intros He Hnn. unfold windowTotal, addToBucket, sum_where.
  destruct (b !! m) as [v|] eqn:E; simpl in *.
  - rw (sum_kv_update _ _ _ _ _ E). unfold inWindow.
    destruct (_ <=? m); simpl; repeat case_match; bool_to_prop; lia.
  - rw sum_kv_insert //. case_match; lia.
Qed.

Lemma windowTotal_decrease minute w m r r' b :
  b !! m = Some r → 0 ≤ r' ≤ r → windowTotal minute w (<[m := r']> b) ≤ windowTotal minute w b.
Proof.
  intros Hm Hr. unfold windowTotal, sum_where. rw (sum_kv_update _ _ _ _ _ Hm). unfold inWindow.
  destruct (_ <=? m); simpl; repeat case_match; bool_to_prop; lia.
Qed.

Lemma windowTotal_zero minute w b :
  min_key_where (inWindow minute w) b = None → windowTotal minute w b = 0.
Proof.
  intros Hmin. transitivity (sum_kv (λ _ _, 0) b).
  - apply sum_kv_ext. intros k v Hk. by rw (min_key_where_None _ _ _ _ Hmin Hk).
  - clear. induction b as [|k v b Hk IH] using map_ind; [apply sum_kv_empty|].
    by rw sum_kv_insert // IH.
Qed.

(** The window keeps its total until [resetAt], and drops there. *)
Lemma windowTotal_until_reset minute w b k :
  min_key_where (inWindow minute w) b = Some k →
  (∀ m, minute ≤ m < k + w → windowTotal m w b = windowTotal minute w b) ∧
  (∀ m, k + w ≤ m → minute ≤ m → windowTotal m w b < windowTotal minute w b).
Proof.
  intros [(v & Hk & Hin) Hmin]%min_key_where_Some.
  unfold inWindow in Hin. bool_to_prop. split.
  - intros m Hm. apply sum_kv_ext. intros k' v' Hk'. specialize (Hmin k' v' Hk').
    unfold inWindow in *. destruct (0 <? v'); rw ?andb_false_r //.
    rw !andb_true_r in Hmin *. repeat case_match; bool_to_prop; try done; lia.
  - intros m Hm Hle. eapply sum_kv_lt; [|exact Hk|]; unfold inWindow.
    + intros k' v' _. repeat case_match; bool_to_prop; lia.
    + repeat case_match; bool_to_prop; lia.
Qed.
End window.

(** Buckets never hold a negative amount. *)
Definition Nonneg (st : State) : Prop := map_Forall (λ _ v, 0 ≤ v) (buckets st).

Lemma reportTrip_buckets webhook w n r st : buckets (reportTrip webhook w n r st) = buckets st.
Proof. unfold reportTrip. by repeat case_match. Qed.

Lemma default_nonneg (b : gmap Z Z) m : map_Forall (λ _ v, 0 ≤ v) b → 0 ≤ default 0 (b !! m).
Proof. intros Hb. destruct (b !! m) eqn:E; simpl; [by eapply Hb|done]. Qed.

Lemma filtered_nonneg (b : gmap Z Z) (P : Z * Z → Prop) `{!∀ x, Decision (P x)} :
  map_Forall (λ _ v, 0 ≤ v) b → map_Forall (λ _ v, 0 ≤ v) (filter P b).
Proof. intros Hb k v [Hv _]%map_lookup_filter_Some. by eapply Hb. Qed.

Lemma reserve_Nonneg webhook args st : Nonneg st → Nonneg (fst (reserve webhook args st)).
Proof.
  intros Hn. unfold reserve, Nonneg.
  assert (Hf : map_Forall (λ _ v, 0 ≤ v) (filter (λ kv : Z * Z,
    (kv.1 <? now args / MINUTE_MS - DAY_MINUTES + 1) = false) (buckets st)))
    by by apply filtered_nonneg.
  repeat case_match; simpl; rw ?reportTrip_buckets //=.
  apply map_Forall_insert_2; [|done].
  pose proof (clampMicroCents_nonneg (estimateMicroCents args)).
  pose proof (default_nonneg _ (now args / MINUTE_MS) Hf). lia.
Qed.

Lemma settle_Nonneg args st : Nonneg st → Nonneg (settle args st).
Proof.
  intros Hn. unfold settle. case_match; [|done]. apply map_Forall_insert_2; [lia|done].
Qed.

(** ** Traces under fixed ceilings *)

Inductive op : Type :=
  | OpReserve (estimate : number) (now : Z)
  | OpSettle (args : SettleArgs).

Section traces.
Context (webhook : bool) (hourlyMax dailyMax : Z).

Definition exec (st : State) (o : op) : State :=
  match o with
  | OpReserve estimate now =>
      fst (reserve webhook {| estimateMicroCents := estimate; hourlyCeiling := hourlyMax;
                              dailyCeiling := dailyMax; now := now |} st)
  | OpSettle args => settle args st
  end.

(** The clock after a trace. *)
Definition clock (t : Z) (o : op) : Z :=
  match o with OpReserve _ now => now | OpSettle _ => t end.

(** Time does not go back, and no settlement raises an amount. *)
Definition op_ok (t : Z) (o : op) : Prop :=
  match o with
  | OpReserve _ now => t ≤ now
  | OpSettle args =>
      clampMicroCents (actualMicroCents args) ≤ clampMicroCents (settleEstimate args)
  end.

Fixpoint trace_ok (t : Z) (ops : list op) : Prop :=
  match ops with
  | [] => True
  | o :: ops' => op_ok t o ∧ trace_ok (clock t o) ops'
  end.

(** Both windows are within their ceilings from time [t] on. *)
Definition Within (t : Z) (st : State) : Prop :=
  ∀ m, t / MINUTE_MS ≤ m →
    (0 ≤ hourlyMax → windowTotal m HOUR_MINUTES (buckets st) ≤ hourlyMax) ∧
    (0 ≤ dailyMax → windowTotal m DAY_MINUTES (buckets st) ≤ dailyMax).

Lemma exec_Within t o st :
  Nonneg st → op_ok t o → Within t st → Within (clock t o) (exec st o).
Proof.
  intros Hn Hok HW. destruct o as [estimate n|args]; simpl in *.
  - assert (HW' : Within n st).
    { intros m Hm. apply HW. assert (t / MINUTE_MS ≤ n / MINUTE_MS); [|lia].
      by apply Z.div_le_mono. }
    intros m Hm. destruct (HW' m Hm) as [Hh Hd]. clear HW HW'.
    unfold reserve; simpl. set (minute := n / MINUTE_MS) in *.
    set (b := filter _ (buckets st)).
    assert (Hb : ∀ w, w ≤ DAY_MINUTES → windowTotal m w b ≤ windowTotal m w (buckets st) ∧
        windowTotal m w b ≤ windowTotal minute w b).
    { intros w Hw. split; [|by apply windowTotal_mono]. apply Z.eq_le_incl, sum_kv_filter.
      intros k v _. unfold inWindow; simpl. intros Hlt%not_false_iff_true.
      bool_to_prop. case_match; bool_to_prop; lia. }
    destruct (Hb HOUR_MINUTES) as [Hh1 Hh2]; [done|].
    destruct (Hb DAY_MINUTES) as [Hd1 Hd2]; [done|].
    assert (Hd0 : 0 ≤ default 0 (b !! minute)) by by apply default_nonneg, filtered_nonneg.
    pose proof (clampMicroCents_nonneg estimate) as He.
    destruct (_ && _) eqn:E1; [simpl; rw reportTrip_buckets /=; lia|].
    destruct ((0 <=? dailyMax) && _) eqn:E2; [simpl; rw reportTrip_buckets /=; lia|].
    simpl. pose proof (windowTotal_add m HOUR_MINUTES minute _ b He Hd0).
    pose proof (windowTotal_add m DAY_MINUTES minute _ b He Hd0).
    apply andb_false_iff in E1, E2. rw !Z.leb_gt !Z.ltb_ge in E1 E2. lia.
  - intros m Hm. destruct (HW m Hm) as [Hh Hd]. unfold settle. case_match; [|done]. simpl.
    assert (0 ≤ z) by by eapply Hn.
    assert (∀ w, windowTotal m w (<[settleMinute args := Z.max 0
      (z - clampMicroCents (settleEstimate args) + clampMicroCents (actualMicroCents args))]>
      (buckets st)) ≤ windowTotal m w (buckets st)) as Hdec.
    { intros w. eapply windowTotal_decrease; [done|]. lia. }
    pose proof (Hdec HOUR_MINUTES). pose proof (Hdec DAY_MINUTES). lia.
Qed.

Lemma exec_Nonneg o st : Nonneg st → Nonneg (exec st o).
Proof. destruct o; simpl; auto using reserve_Nonneg, settle_Nonneg. Qed.

Lemma trace_Within t ops st :
  Nonneg st → trace_ok t ops → Within t st →
  Within (foldl clock t ops) (foldl exec st ops).
Proof.
  revert t st; induction ops as [|o ops IH]; intros t st Hn; simpl; [done|].
  intros [Ho Hops] HW. apply IH; [by apply exec_Nonneg|done|by apply exec_Within].
Qed.
End traces.

(** ** Properties *)

(** C25: as long as time does not run backwards and settlements do not raise the amount
    their request reserved, the micro-cents in the last hour and in the last day never
    exceed the ceilings, at the end of any trace and at every later minute. *)
Theorem tier_budget_windows_within_ceilings webhook hourlyMax dailyMax t0 ops m :
  trace_ok t0 ops →
  foldl clock t0 ops / MINUTE_MS ≤ m →
  let b := buckets (foldl (exec webhook hourlyMax dailyMax) initState ops) in
  (0 ≤ hourlyMax → windowTotal m HOUR_MINUTES b ≤ hourlyMax) ∧
  (0 ≤ dailyMax → windowTotal m DAY_MINUTES b ≤ dailyMax).
Proof.
  intros Hok Hm b. subst b.
  by apply (trace_Within webhook hourlyMax dailyMax t0 ops initState).
Qed.

(** a refusal names a real reset time: the window's total stays what it was until
    [resetAt] and is strictly smaller from then on, so waiting until [resetAt] is
    necessary and makes room. *)
Theorem tier_budget_reset_is_exact webhook args st window reset :
  let width := match window with hourly => HOUR_MINUTES | daily => DAY_MINUTES end in
  let minute := now args / MINUTE_MS in
  snd (reserve webhook args st) = Refused window reset →
  0 < windowTotal minute width (buckets st) →
  let b := buckets (fst (reserve webhook args st)) in
  windowTotal minute width b = windowTotal minute width (buckets st) ∧
  (∀ m, minute ≤ m → m * MINUTE_MS < reset →
     windowTotal m width b = windowTotal minute width b) ∧
  (∀ m, minute ≤ m → reset ≤ m * MINUTE_MS →
     windowTotal m width b < windowTotal minute width b).
Proof.
  intros width minute Href Hpos b.
  set (pruned := filter (λ kv, (kv.1 <? minute - DAY_MINUTES + 1) = false) (buckets st)).
  assert (b = pruned ∧ reset = resetAt minute width pruned) as [-> ->].
  { subst b. unfold reserve in *. fold minute in Href |- *. fold pruned in Href |- *.
    repeat case_match; simpl in *; simplify_eq; (split; [apply reportTrip_buckets|done]). }
  assert (Hp : windowTotal minute width pruned = windowTotal minute width (buckets st)).
  { apply windowTotal_prune. by destruct window. }
  split; [done|]. unfold resetAt.
  destruct (min_key_where (inWindow minute width) pruned) as [k|] eqn:Hmin.
  - destruct (windowTotal_until_reset _ _ _ _ Hmin) as [Heq Hlt]. simpl. unfold MINUTE_MS.
    split; intros m ? ?; [apply Heq|apply Hlt]; lia.
  - apply windowTotal_zero in Hmin. lia.
Qed.

(** ** Witnesses *)

Definition ex_ops : list op :=
  [OpReserve (num_of_Z 40) 60000; OpReserve (num_of_Z 70) 70000;
   OpReserve (num_of_Z 50) 120000;
   OpSettle {| settleEstimate := num_of_Z 40; actualMicroCents := num_of_Z 10; settleMinute := 1 |}].

Definition ex_state : State := foldl (exec false 100 500) initState ex_ops.

Lemma tier_budget_windows_within_ceilings_witness :
  windowTotal 2 HOUR_MINUTES (buckets ex_state) = 60 ∧
  windowTotal 2 HOUR_MINUTES (buckets ex_state) ≤ 100.
Proof.
  split; [by vm_compute|].
  by apply (tier_budget_windows_within_ceilings false 100 500 0 ex_ops 2); vm_compute.
Defined.

Definition ex_args : ReserveArgs :=
  {| estimateMicroCents := num_of_Z 45; hourlyCeiling := 100; dailyCeiling := 500; now := 130000 |}.

Lemma tier_budget_reset_is_exact_witness :
  snd (reserve false ex_args ex_state) = Refused hourly (61 * MINUTE_MS) ∧
  windowTotal 60 HOUR_MINUTES (buckets (fst (reserve false ex_args ex_state))) = 60.
Proof.
  split; [by vm_compute|].
  by apply (tier_budget_reset_is_exact false ex_args ex_state hourly (61 * MINUTE_MS)); vm_compute.
Defined.
