(* ===== verification/SlidingWindow.v ===== *)
(** * Sliding windows

    The gates keep one row per admission in a table ordered by an AUTOINCREMENT id,
    delete the rows that left the window, count what is left and insert a row when
    the count is below a limit.  This file relates such a table to the log of all
    admissions ever made, and shows that the check bounds every window of the log. *)

From Corelib Require Import ssreflect.
From stdpp Require Import prelude.
From S2P Require Import Prelude.

#[local] Open Scope Z_scope.

(** [DELETE FROM t WHERE admitted_at <= cutoff]. *)
Definition prune (cutoff : Z) (l : list Z) : list Z := filter (λ x, cutoff < x) l.

(** [SELECT COUNT(star) FROM t]. *)
Definition count {A} (l : list A) : Z := Z.of_nat (length l).

(** The admissions of the half-open window [(t - width, t]]. *)
Definition inWindow (width t : Z) (l : list Z) : Z :=
  count (filter (λ x, t - width < x ∧ x ≤ t) l).

Lemma count_nonneg {A} (l : list A) : 0 ≤ count l.
Proof. unfold count. lia. Qed.

Lemma count_app {A} (l l' : list A) : count (l ++ l') = count l + count l'.
Proof. unfold count. rw length_app. lia. Qed.

Lemma count_filter_le {A} (P Q : A → Prop) `{!∀ x, Decision (P x), !∀ x, Decision (Q x)} (l : list A) :
  (∀ x, x ∈ l → P x → Q x) → count (filter P l) ≤ count (filter Q l).
Proof.
  unfold count. induction l as [|x l IH]; intros HPQ; [done|]. rw !filter_cons.
  assert (Z.of_nat (length (filter P l)) ≤ Z.of_nat (length (filter Q l))).
  { apply IH. intros y Hy. apply HPQ. by right. }
  pose proof (HPQ x (list_elem_of_here _ _)).
  repeat case_decide; simpl; (lia || tauto).
Qed.

Lemma filter_ext_in {A} (P Q : A → Prop) `{!∀ x, Decision (P x), !∀ x, Decision (Q x)} (l : list A) :
  (∀ x, x ∈ l → P x ↔ Q x) → filter P l = filter Q l.
Proof.
  induction l as [|x l IH]; intros HPQ; [done|]. rw !filter_cons.
  pose proof (HPQ x (list_elem_of_here _ _)).
  rw IH; first (intros y Hy; apply HPQ; by right).
  repeat case_decide; (done || tauto).
Qed.

Lemma filter_fmap {A B} (f : A → B) (P : B → Prop) `{!∀ x, Decision (P x)} (l : list A) :
  filter P (f <$> l) = f <$> filter (λ x, P (f x)) l.
Proof.
  induction l as [|x l IH]; [done|]. rw fmap_cons !filter_cons IH.
  by case_decide.
Qed.

Lemma prune_prune c c' l : c ≤ c' → prune c' (prune c l) = prune c' l.
Proof.
  intros Hc. unfold prune. rw list_filter_filter_l //. intros x ?. lia.
Qed.

Lemma prune_id c l : (∀ x, x ∈ l → c < x) → prune c l = l.
Proof.
  unfold prune. induction l as [|x l IH]; intros Hx; [done|].
  rw filter_cons_True; first (apply Hx; left).
  by rw IH; first (intros y Hy; apply Hx; by right).
Qed.

Lemma prune_app c l l' : prune c (l ++ l') = prune c l ++ prune c l'.
Proof. apply filter_app. Qed.

(** [tbl] holds every admission of [log] of the last [width] milliseconds, and the
    log is not ahead of the clock. *)
Definition represents (width now : Z) (tbl log : list Z) : Prop :=
  (∀ lo, now - width ≤ lo → prune lo tbl = prune lo log) ∧ ∀ x, x ∈ log → x ≤ now.

Lemma represents_later width now now' tbl log :
  now ≤ now' → represents width now tbl log → represents width now' tbl log.
Proof.
  intros Hle [Ht Hl]. split; [intros lo Hlo; apply Ht; lia|].
  intros x Hx. specialize (Hl x Hx). lia.
Qed.

Lemma represents_prune width now tbl log :
  represents width now tbl log → represents width now (prune (now - width) tbl) log.
Proof.
  intros [Ht Hl]. split; [|done]. intros lo Hlo. rw prune_prune //. by apply Ht.
Qed.

Lemma represents_insert width now tbl log :
  represents width now tbl log → represents width now (tbl ++ [now]) (log ++ [now]).
Proof.
  intros [Ht Hl]. split.
  - intros lo Hlo. rw !prune_app (Ht lo Hlo) //.
  - intros x [Hx|Hx]%elem_of_app; [auto|]. apply list_elem_of_singleton in Hx. lia.
Qed.

(** What the table counts above a cutoff is what the log has in that window. *)
Lemma represents_count width now w tbl log :
  represents width now tbl log → w ≤ width →
  count (prune (now - w) tbl) = inWindow w now log.
Proof.
  intros [Ht Hl] Hw. rw Ht; first lia. unfold inWindow, prune. f_equal.
  apply filter_ext_in. intros x Hx. specialize (Hl x Hx). lia.
Qed.

(** ** The bound *)

(** No window of [width] milliseconds of the log holds more than [limit] entries. *)
Definition bounded (width limit : Z) (log : list Z) : Prop :=
  ∀ t, inWindow width t log ≤ Z.max 0 limit.

Lemma bounded_nil width limit : bounded width limit [].
Proof. intros t. unfold inWindow, count. simpl. lia. Qed.

Lemma inWindow_app width t l l' :
  inWindow width t (l ++ l') = inWindow width t l + inWindow width t l'.
Proof. unfold inWindow. by rw filter_app count_app. Qed.

Lemma inWindow_singleton width t x : inWindow width t [x] ≤ 1.
Proof. unfold inWindow. rw filter_cons filter_nil. by case_decide. Qed.

(** Admitting below the limit keeps every window within it. *)
Lemma bounded_insert width limit now log :
  (∀ x, x ∈ log → x ≤ now) → inWindow width now log < limit →
  bounded width limit log → bounded width limit (log ++ [now]).
Proof.
  intros Hlog Hlt Hb t. rw inWindow_app. destruct (decide (t < now)).
  - specialize (Hb t). assert (inWindow width t [now] = 0) as ->; [|lia].
    unfold inWindow. rw filter_cons_False; [lia|done].
  - assert (inWindow width t log ≤ inWindow width now log).
    { apply count_filter_le. intros x Hx. specialize (Hlog x Hx). lia. }
    pose proof (inWindow_singleton width t now). lia.
Qed.

Lemma bounded_weaken width limit limit' log :
  limit ≤ limit' → bounded width limit log → bounded width limit' log.
Proof. intros Hl Hb t. specialize (Hb t). lia. Qed.
