(* ===== verification/NetworkGate.v ===== *)
(** * NetworkGate (workers/model-gateway/src/gates/network-gate.ts)

    One object per client network.  Anonymous and free relays are counted per
    rolling day (anonymous ones per rolling hour too), scaled by the caller's share of
    the cap; session mints are counted per rolling day.  Paid audiences pass. *)

From Corelib Require Import ssreflect SpecFloat.
From stdpp Require Import prelude strings.
From S2P Require Import Prelude JsNumber GatewayPolicy SlidingWindow.

#[local] Open Scope Z_scope.

Definition HOUR_MS : Z := 60 * 60000.
Definition DAY_MS : Z := 24 * HOUR_MS.

Inductive NetworkAdmission : Type :=
  | AdmitOk
  | RateLimited (resetAt : Z).

Record RelayRow := {
  audience : ManagedModelAudienceForLimits;
  admitted_at : Z;
}.

Record State := {
  relay_admissions : list RelayRow;
  mint_admissions : list Z;
}.

Definition initState : State := {| relay_admissions := []; mint_admissions := [] |}.

Definition withRelays (l : list RelayRow) (st : State) : State :=
  {| relay_admissions := l; mint_admissions := mint_admissions st |}.

Definition withMints (l : list Z) (st : State) : State :=
  {| relay_admissions := relay_admissions st; mint_admissions := l |}.

(** [DELETE FROM relay_admissions WHERE admitted_at <= cutoff]. *)
Definition pruneRelays (cutoff : Z) (l : list RelayRow) : list RelayRow :=
  filter (λ r, cutoff < admitted_at r) l.

(** The admission times of one audience: [WHERE audience = ?]. *)
Definition timesOf (a : ManagedModelAudienceForLimits) (l : list RelayRow) : list Z :=
  admitted_at <$> filter (λ r, audience r = a) l.

(** [Number.isFinite(s) ? Math.min(1, Math.max(0, s)) : 0]. *)
Definition clampShare (capShare : number) : number :=
  if isFinite capShare then num_min (num_of_Z 1) (num_max (num_of_Z 0) capShare)
  else num_of_Z 0.

(** [Math.floor(base * capShare)]. *)
Definition scaledCap (base : Z) (capShare : number) : Z :=
  num_floor (num_mul (num_of_Z base) (clampShare capShare)).

Definition refusal (a : ManagedModelAudienceForLimits) (now windowMs : Z) (l : list RelayRow) :
    NetworkAdmission :=
  RateLimited (default now (list_min (prune (now - windowMs) (timesOf a l))) + windowMs).

Definition baseDayLimit (a : ManagedModelAudienceForLimits) : Z :=
  match a with
  | lim_anonymous => GATEWAY_NETWORK_ANONYMOUS_RELAY_PER_DAY
  | _ => GATEWAY_NETWORK_FREE_RELAY_PER_DAY
  end.

Definition admitRelay (now : Z) (requested : ManagedModelAudience) (capShare : number)
    (st : State) : State * NetworkAdmission :=
  let a := limitsAudienceFor requested in
  if bool_decide (a = lim_go ∨ a = lim_pro) then (st, AdmitOk)
  else
    let l := pruneRelays (now - DAY_MS) (relay_admissions st) in
    let st := withRelays l st in
    if scaledCap (baseDayLimit a) capShare <=? count (timesOf a l)
    then (st, refusal a now DAY_MS l)
    else if bool_decide (a = lim_anonymous) &&
            (scaledCap GATEWAY_NETWORK_ANONYMOUS_RELAY_PER_HOUR capShare <=?
             count (prune (now - HOUR_MS) (timesOf a l)))
    then (st, refusal a now HOUR_MS l)
    else (withRelays (l ++ [{| audience := a; admitted_at := now |}]) st, AdmitOk).

Definition admitMint (now : Z) (st : State) : State * NetworkAdmission :=
  let l := prune (now - DAY_MS) (mint_admissions st) in
  let st := withMints l st in
  if GATEWAY_NETWORK_ANONYMOUS_MINTS_PER_DAY <=? count l
  then (st, RateLimited (default now (list_min l) + DAY_MS))
  else (withMints (l ++ [now]) st, AdmitOk).

(** ** Traces, with the log of what was admitted *)

Inductive op : Type :=
  | OpRelay (now : Z) (requested : ManagedModelAudience) (capShare : number)
  | OpMint (now : Z).

Definition opTime (o : op) : Z := match o with OpRelay now _ _ | OpMint now => now end.

Record Log := {
  relayLog : ManagedModelAudienceForLimits → list Z;
  mintLog : list Z;
}.

Definition logRelay (a : ManagedModelAudienceForLimits) (now : Z) (lg : Log) : Log := {|
  relayLog b := if bool_decide (a = b) then relayLog lg b ++ [now] else relayLog lg b;
  mintLog := mintLog lg;
|}.

Definition logMint (now : Z) (lg : Log) : Log :=
  {| relayLog := relayLog lg; mintLog := mintLog lg ++ [now] |}.

Definition exec (s : State * Log) (o : op) : State * Log :=
  match o with
  | OpRelay now requested capShare =>
      match admitRelay now requested capShare s.1 with
      | (st', AdmitOk) => (st', logRelay (limitsAudienceFor requested) now s.2)
      | (st', RateLimited _) => (st', s.2)
      end
  | OpMint now =>
      match admitMint now s.1 with
      | (st', AdmitOk) => (st', logMint now s.2)
      | (st', RateLimited _) => (st', s.2)
      end
  end.

Definition initLog : Log := {| relayLog _ := []; mintLog := [] |}.

Definition run (ops : list op) : State * Log := foldl exec (initState, initLog) ops.

(** Calls arrive in the order of the object's clock. *)
Fixpoint clocked (t : Z) (ops : list op) : Prop :=
  match ops with
  | [] => True
  | o :: ops' => t ≤ opTime o ∧ clocked (opTime o) ops'
  end.

(** Every relay of audience [a] in the trace is checked against at most these caps. *)
Definition capsWithin (a : ManagedModelAudienceForLimits) (day hour : Z) (o : op) : Prop :=
  match o with
  | OpRelay _ requested capShare =>
      limitsAudienceFor requested = a →
      scaledCap (baseDayLimit a) capShare ≤ day ∧
      scaledCap GATEWAY_NETWORK_ANONYMOUS_RELAY_PER_HOUR capShare ≤ hour
  | OpMint _ => True
  end.

(** ** Invariant *)

Lemma timesOf_prune a c l : timesOf a (pruneRelays c l) = prune c (timesOf a l).
Proof.
  unfold timesOf, pruneRelays, prune. rw filter_fmap !list_filter_filter.
  f_equal. apply list_filter_iff. tauto.
Qed.

Lemma timesOf_app a l l' : timesOf a (l ++ l') = timesOf a l ++ timesOf a l'.
Proof. unfold timesOf. by rw filter_app fmap_app. Qed.

Lemma timesOf_one a b now :
  timesOf b [{| audience := a; admitted_at := now |}] = if bool_decide (a = b) then [now] else [].
Proof.
  unfold timesOf. case_bool_decide; [rw filter_cons_True //|rw filter_cons_False //].
Qed.

(** The table represents the log, the log's windows are within the caps, and paid
    audiences leave no trace. *)
Section invariant.
Context (a : ManagedModelAudienceForLimits) (day hour : Z).

Definition Inv (t : Z) (s : State * Log) : Prop :=
  represents DAY_MS t (timesOf a (relay_admissions s.1)) (relayLog s.2 a) ∧
  bounded DAY_MS day (relayLog s.2 a) ∧
  (a = lim_anonymous → bounded HOUR_MS hour (relayLog s.2 a)) ∧
  represents DAY_MS t (mint_admissions s.1) (mintLog s.2) ∧
  bounded DAY_MS GATEWAY_NETWORK_ANONYMOUS_MINTS_PER_DAY (mintLog s.2).

Lemma initState_Inv t : Inv t (initState, initLog).
Proof.
  split; [|split; [|split; [|split]]]; try (intros; apply bounded_nil);
    split; (done || intros x Hx; by apply not_elem_of_nil in Hx).
Qed.

Lemma net_Inv_later t t' s : t ≤ t' → Inv t s → Inv t' s.
Proof. intros Hle (?&?&?&?&?). repeat split; eauto using represents_later; by eapply represents_later. Qed.

Lemma admitRelay_Inv now requested capShare s :
  a = lim_anonymous ∨ a = lim_free →
  capsWithin a day hour (OpRelay now requested capShare) →
  Inv now s → Inv now (exec s (OpRelay now requested capShare)).
Proof.
  intros Ha Hcaps (Hrep & Hday & Hhour & Hmint). destruct s as [st lg]; simpl in *.
  unfold admitRelay. set (b := limitsAudienceFor requested) in *.
  case_bool_decide as Hpaid; simpl.
  { assert (b ≠ a) by (intros <-; intuition congruence).
    unfold Inv; simpl. rw bool_decide_eq_false_2 //. }
  set (l := pruneRelays (now - DAY_MS) (relay_admissions st)).
  assert (Hl : timesOf a l = prune (now - DAY_MS) (timesOf a (relay_admissions st)))
    by apply timesOf_prune.
  assert (Hrep' : represents DAY_MS now (timesOf a l) (relayLog lg a))
    by (rw Hl; by apply represents_prune).
  destruct (_ <=? count (timesOf b l)) eqn:Eday; [by split|].
  destruct (bool_decide (b = lim_anonymous) && _) eqn:Ehour; [by split|].
  unfold Inv; simpl. rw timesOf_app timesOf_one.
  destruct (bool_decide (b = a)) eqn:Hb; bool_to_prop; [|by rw app_nil_r].
  destruct (Hcaps Hb) as [Hcd Hch]. clearbody b; subst b. destruct Hrep' as [Hrep1 Hlog].
  assert (Hcount : ∀ w, w ≤ DAY_MS →
    inWindow w now (relayLog lg a) = count (prune (now - w) (timesOf a l))).
  { intros w Hw. symmetry. by eapply represents_count. }
  split; [by apply represents_insert|]. split; [|split; [|done]].
  - apply bounded_insert; [done| |done]. rw Hcount // Hl prune_prune // -Hl. bool_to_prop. lia.
  - intros ->. apply bounded_insert; [done| |by apply Hhour]. rw Hcount //.
    simpl in Ehour. bool_to_prop. lia.
Qed.

Lemma net_admitMint_Inv now s : Inv now s → Inv now (exec s (OpMint now)).
Proof.
  intros (Hr & Hd & Hh & Hrep & Hb). destruct s as [st lg]; simpl in *. unfold admitMint.
  set (l := prune (now - DAY_MS) (mint_admissions st)).
  assert (Hrep' : represents DAY_MS now l (mintLog lg)) by by apply represents_prune.
  destruct (_ <=? count l) eqn:E; [exact (conj Hr (conj Hd (conj Hh (conj Hrep' Hb))))|].
  bool_to_prop.   do 3 (split; [done|]). simpl.
  split; [by apply represents_insert|]. apply bounded_insert; [apply Hrep'| |done].
  rw -(represents_count DAY_MS now DAY_MS l) // /l prune_prune //. 
Qed.

Lemma net_run_Inv t ops s :
  a = lim_anonymous ∨ a = lim_free →
  Forall (capsWithin a day hour) ops → clocked t ops → Inv t s →
  ∃ t', Inv t' (foldl exec s ops).
Proof.
  intros Ha. revert t s. induction ops as [|o ops IH]; intros t s; simpl; [eauto|].
  intros [Ho Hops]%Forall_cons [Hle Hc] HI. apply (net_Inv_later _ (opTime o)) in HI; [|done].
  apply (IH (opTime o)); [done..|].
  destruct o; [by apply admitRelay_Inv|by apply net_admitMint_Inv].
Qed.
End invariant.

(** ** Properties *)

(** whatever the interleaving of calls, no rolling day of the admissions of an
    anonymous or free audience on one network holds more than the largest day cap the
    calls were checked against, and no rolling hour of anonymous admissions more than
    the largest hour cap. *)
Theorem network_relay_windows_bounded a day hour t ops :
  a = lim_anonymous ∨ a = lim_free →
  Forall (capsWithin a day hour) ops → clocked t ops →
  bounded DAY_MS day (relayLog (run ops).2 a) ∧
  (a = lim_anonymous → bounded HOUR_MS hour (relayLog (run ops).2 a)).
Proof.
  intros Ha Hcaps Hclock.
  destruct (net_run_Inv a day hour t ops _ Ha Hcaps Hclock (initState_Inv a day hour t))
    as (t' & _ & ? & ? & _). by split.
Qed.

(** no rolling day holds more than [anonymousMintsPerDay] session mints, and a
    refused mint is refused again by any retry before the [resetAt] it was given and
    admitted by a retry at that time. *)
Theorem network_mint_window_and_retry st now reset now' :
  snd (admitMint now st) = RateLimited reset →
  count (prune (now - DAY_MS) (mint_admissions st)) = GATEWAY_NETWORK_ANONYMOUS_MINTS_PER_DAY →
  now ≤ now' →
  (now' < reset → ∃ r, snd (admitMint now' (fst (admitMint now st))) = RateLimited r) ∧
  (reset ≤ now' → snd (admitMint now' (fst (admitMint now st))) = AdmitOk).
Proof.
  set (l := prune (now - DAY_MS) (mint_admissions st)). intros Hadm Hcount Hle.
  assert (Hreset : reset = default now (list_min l) + DAY_MS).
  { unfold admitMint in Hadm. fold l in Hadm. destruct (_ <=? _); simpl in Hadm; congruence. }
  assert (Hfst : mint_admissions (fst (admitMint now st)) = l).
  { unfold admitMint in Hadm |- *. fold l in Hadm |- *. by destruct (_ <=? _). }
  unfold admitMint at 1 3. rw Hfst.
  destruct (list_min l) as [oldest|] eqn:Hmin; simpl in Hreset; last first.
  { apply list_min_None in Hmin. by rw Hmin in Hcount. }
  pose proof (list_min_elem _ _ Hmin) as Hin. split; intros Hr.
  - assert (prune (now' - DAY_MS) l = l) as ->.
    { apply prune_id. intros x Hx. pose proof (list_min_le _ _ _ Hmin Hx). lia. }
    destruct (_ <=? _) eqn:E; [simpl; eauto|]. bool_to_prop. lia.
  - destruct (_ <=? _) eqn:E; [|done]. bool_to_prop.
    assert (count (prune (now' - DAY_MS) l) < count l); [|lia].
    unfold count, prune. apply Nat2Z.inj_lt. apply length_filter_lt with oldest; [done|lia].
Qed.

(** ** Witnesses *)

Definition ex_ops : list op :=
  [OpRelay 10 aud_anonymous (num_of_Z 1); OpMint 20; OpRelay 30 aud_free (num_of_Z 1);
   OpRelay 40 aud_anonymous (num_of_Z 1)].

Lemma network_relay_windows_bounded_witness :
  inWindow HOUR_MS 100 (relayLog (run ex_ops).2 lim_anonymous) = 2 ∧
  inWindow HOUR_MS 100 (relayLog (run ex_ops).2 lim_anonymous) ≤ 300.
Proof.
  split; [by vm_compute|].
  apply (network_relay_windows_bounded lim_anonymous 1000 300 0 ex_ops); [by left| |by vm_compute|done].
  repeat (apply Forall_cons; split); try apply Forall_nil; try done; intros _; by vm_compute.
Defined.

(** A network that has used its twenty mints. *)
Definition ex_full : State :=
  foldl (λ st n, fst (admitMint n st)) initState (Z.of_nat <$> seq 1 20).

Lemma network_mint_window_and_retry_witness :
  (∃ r, snd (admitMint 86400000 (fst (admitMint 100 ex_full))) = RateLimited r) ∧
  snd (admitMint 86400001 (fst (admitMint 100 ex_full))) = AdmitOk.
Proof.
  split.
  - by apply (network_mint_window_and_retry ex_full 100 86400001 86400000); vm_compute.
  - by apply (network_mint_window_and_retry ex_full 100 86400001 86400001); vm_compute.
Defined.
