(* ===== verification/OwnerEnforcement.v ===== *)
(** * Owner enforcement (workers/model-gateway/src/owner-enforcement.ts and the
    enforcement half of gates/owner-relay-gate.ts)

    Each owner's gate keeps one durable enforcement record, ordered by the
    [updatedAt] of the pushes it receives, and a marker saying that the record was
    bootstrapped from the owner's object.  Timestamps are integers (milliseconds); a
    record that reaches these functions has passed [normalizeStoredOwnerEnforcement],
    which on a record of this type is the identity. *)

From Corelib Require Import ssreflect.
From stdpp Require Import prelude sorting.
From S2P Require Import Prelude.

#[local] Open Scope Z_scope.

(** [OWNER_ENFORCEMENT_STATUSES]. *)
Inductive OwnerEnforcementStatus : Set := st_ok | challenged | throttled_ | suspended_.

#[export] Instance OwnerEnforcementStatus_eq_dec : EqDecision OwnerEnforcementStatus.
Proof. solve_decision. Defined.

Definition DEFAULT_ENFORCEMENT_TTL_SECONDS : Z := 7 * 24 * 60 * 60.
Definition OWNER_ENFORCEMENT_INITIALIZATION_VERSION : Z := 2.

Record StoredOwnerEnforcement := {
  status : OwnerEnforcementStatus;
  until : option Z;
  updatedAt : Z;
  expiresAt : option Z;
}.

Record OwnerEnforcementAdmission := {
  suspended : bool;
  throttled : bool;
}.

(** When a record without an explicit end lapses. *)
Definition defaultExpiry (r : StoredOwnerEnforcement) : Z :=
  updatedAt r + DEFAULT_ENFORCEMENT_TTL_SECONDS * 1000.

Definition effectiveUntil (r : StoredOwnerEnforcement) : Z :=
  match until r, expiresAt r with
  | Some u, _ => u
  | None, Some e => e
  | None, None => defaultExpiry r
  end.

Definition enforcementAdmissionForRecord (stored : option StoredOwnerEnforcement) (now : Z) :
    OwnerEnforcementAdmission :=
  match stored with
  | None => {| suspended := false; throttled := false |}
  | Some r =>
      if bool_decide (status r = st_ok) then {| suspended := false; throttled := false |}
      else if effectiveUntil r <=? now then {| suspended := false; throttled := false |}
      else {| suspended := bool_decide (status r = suspended_);
              throttled := bool_decide (status r = throttled_) |}
  end.

(** The singleton rows [owner_enforcement_state] and [owner_enforcement_meta], and
    the instance's memo of a completed bootstrap. *)
Record Enforcement := {
  record : option StoredOwnerEnforcement;
  initialized : option Z;
  ready : bool;
}.

Definition initEnforcement : Enforcement :=
  {| record := None; initialized := None; ready := false |}.

Inductive EnforcementError : Set :=
  | UpdateInvalid | BootstrapUnavailable | BootstrapInvalid | IdentityMismatch.

(** [INSERT OR REPLACE INTO owner_enforcement_state]: what is written always carries
    an expiry. *)
Definition normalizedRecord (r : StoredOwnerEnforcement) : StoredOwnerEnforcement :=
  {| status := status r; until := until r; updatedAt := updatedAt r;
     expiresAt := Some (match expiresAt r, until r with
                        | Some e, _ => e
                        | None, Some u => u
                        | None, None => defaultExpiry r
                        end) |}.

Definition withRecord (r : StoredOwnerEnforcement) (st : Enforcement) : Enforcement :=
  {| record := Some r; initialized := initialized st; ready := ready st |}.

Definition markInitialized (st : Enforcement) : Enforcement :=
  {| record := record st; initialized := Some OWNER_ENFORCEMENT_INITIALIZATION_VERSION;
     ready := ready st |}.

Definition applyOwnerEnforcementSync (r : StoredOwnerEnforcement)
    (current : option StoredOwnerEnforcement) (st : Enforcement) :
    Enforcement * StoredOwnerEnforcement :=
  match current with
  | Some c =>
      if updatedAt c <? updatedAt r then (withRecord (normalizedRecord r) st, normalizedRecord r)
      else (st, c)
  | None => (withRecord (normalizedRecord r) st, normalizedRecord r)
  end.

(** The push from the owner's object. *)
Definition applyOwnerEnforcement (r : StoredOwnerEnforcement) :
    M Enforcement EnforcementError StoredOwnerEnforcement := λ st,
  match expiresAt r with
  | None => throw UpdateInvalid st
  | Some _ =>
      let current := record st in
      let '(st', applied) := applyOwnerEnforcementSync r current st in
      (if match current with Some c => updatedAt c <=? updatedAt r | None => true end
       then markInitialized st' else st',
       inr applied)
  end.

(** What [billingControl.ownerEnforcement] can answer. *)
Inductive BootstrapReply : Type :=
  | Unavailable
  | Malformed
  | Answer (answeredAt : option Z) (answerStatus : option OwnerEnforcementStatus)
           (answerUntil : option Z).

(** [parseAuthoritativeOwnerEnforcement]: [None] is the "invalid" [undefined],
    [Some None] "nothing stored yet". *)
Definition parseAuthoritative (reply : BootstrapReply) : option (option StoredOwnerEnforcement) :=
  match reply with
  | Unavailable | Malformed => None
  | Answer None s _ => if bool_decide (s = Some st_ok) then Some None else None
  | Answer (Some at_) None _ => None
  | Answer (Some at_) (Some s) u =>
      Some (Some {| status := s; until := u; updatedAt := at_;
                    expiresAt := Some (default (at_ + DEFAULT_ENFORCEMENT_TTL_SECONDS * 1000) u) |})
  end.

Definition initializeOwnerEnforcement (reply : BootstrapReply) :
    M Enforcement EnforcementError () := λ st,
  if match initialized st with
     | Some v => OWNER_ENFORCEMENT_INITIALIZATION_VERSION <=? v
     | None => false
     end
  then ret () st
  else match reply with
  | Unavailable => throw BootstrapUnavailable st
  | _ =>
      match parseAuthoritative reply with
      | None => throw BootstrapInvalid st
      | Some None => (markInitialized st, inr ())
      | Some (Some r) =>
          (markInitialized (fst (applyOwnerEnforcementSync r (record st) st)), inr ())
      end
  end.

(** [admitOwnerEnforcement]: bootstraps once per instance, then reads the record.
    [matches] says whether the owner id names this object. *)
Definition admitOwnerEnforcement (matches_ : bool) (reply : BootstrapReply) (now : Z) :
    M Enforcement EnforcementError OwnerEnforcementAdmission := λ st,
  if negb matches_ then throw IdentityMismatch st
  else
    let m := if ready st then ret () else initializeOwnerEnforcement reply in
    match m st with
    | (st', inl e) => (st', inl e)
    | (st', inr _) =>
        ({| record := record st'; initialized := initialized st'; ready := true |},
         inr (enforcementAdmissionForRecord (record st') now))
    end.

(** ** Pushes in any order *)

(** A well-formed push, as [applyOwnerEnforcementPush] sends it. *)
Definition push_ok (r : StoredOwnerEnforcement) : Prop := is_Some (expiresAt r).

Definition pushAll (rs : list StoredOwnerEnforcement) (st : Enforcement) : Enforcement :=
  foldl (λ st r, fst (applyOwnerEnforcement r st)) st rs.

(** The most recent of a list of records; the first of those with equal times. *)
Fixpoint latest (c : option StoredOwnerEnforcement) (rs : list StoredOwnerEnforcement) :
    option StoredOwnerEnforcement :=
  match rs with
  | [] => c
  | r :: rs' =>
      latest (match c with
              | Some x => if updatedAt x <? updatedAt r then Some (normalizedRecord r) else Some x
              | None => Some (normalizedRecord r)
              end) rs'
  end.

Lemma applyOwnerEnforcement_record r st :
  push_ok r →
  record (fst (applyOwnerEnforcement r st)) = latest (record st) [r].
Proof.
  intros [e He]. unfold applyOwnerEnforcement, applyOwnerEnforcementSync. rw He /=.
  destruct (record st) as [c|] eqn:E; simpl; [|done].
  destruct (_ <? _); simpl; case_match; done.
Qed.

Lemma pushAll_record rs st :
  Forall push_ok rs → record (pushAll rs st) = latest (record st) rs.
Proof.
  revert st; induction rs as [|r rs IH]; intros st; simpl; [done|].
  intros [Hr Hrs]%Forall_cons. unfold pushAll in *; simpl. rw IH // applyOwnerEnforcement_record //.
Qed.

(** [latest] picks an element with the greatest time. *)
Lemma latest_spec c rs r :
  latest c rs = Some r →
  (c = Some r ∨ ∃ x, x ∈ rs ∧ r = normalizedRecord x) ∧
  (∀ x, c = Some x → updatedAt x ≤ updatedAt r) ∧ (∀ x, x ∈ rs → updatedAt x ≤ updatedAt r).
Proof.
  revert c; induction rs as [|y rs IH]; intros c; simpl.
  { intros ->. split; [by left|]. split; [by intros x [= ->]|]. by intros x ?%not_elem_of_nil. }
  intros (Hin & Hc & Hrs)%IH. split; [|split].
  - destruct Hin as [Hin|(x & ? & ->)]; [|right; exists x; split; [by right|done]].
    repeat case_match; simplify_eq; try (by left); right; exists y; (split; [left|done]).
  - intros x ->. destruct (updatedAt x <? updatedAt y) eqn:E; bool_to_prop.
    + specialize (Hc _ eq_refl). simpl in Hc. lia.
    + by apply Hc.
  - intros x [->|Hx]%elem_of_cons; [|by apply Hrs].
    destruct c as [c|]; [destruct (_ <? _) eqn:E|]; specialize (Hc _ eq_refl); simpl in Hc;
      bool_to_prop; lia.
Qed.

Lemma latest_is_Some c rs : is_Some c ∨ rs ≠ [] → is_Some (latest c rs).
Proof.
  revert c; induction rs as [|r rs IH]; intros c [Hc|Hc]; simpl; try done.
  - apply IH. left. destruct Hc as [? ->]. by case_match.
  - apply IH. left. by repeat case_match.
Qed.

(** ** Properties *)

(** the owner's enforcement does not depend on the order in which the pushes
    arrive: any two deliveries of the same pushes, with distinct times, leave the
    same record, the one of the latest push. *)
Theorem enforcement_order_independent rs rs' :
  Forall push_ok rs → NoDup (updatedAt <$> rs) → rs ≡ₚ rs' →
  record (pushAll rs initEnforcement) = record (pushAll rs' initEnforcement).
Proof.
  intros Hok Hnd Hp.
  assert (Hok' : Forall push_ok rs') by by rw -Hp.
  rw !pushAll_record //=. destruct (decide (rs = [])) as [->|Hne].
  { by apply Permutation_nil_l in Hp as ->. }
  assert (Hne' : rs' ≠ []) by (intros ->; by apply Permutation_nil_r in Hp).
  destruct (latest_is_Some None rs (or_intror Hne)) as [r Hr].
  destruct (latest_is_Some None rs' (or_intror Hne')) as [r' Hr'].
  rw Hr Hr'. apply latest_spec in Hr as ([?|(x & Hx & ->)] & _ & Hmax); [done|].
  apply latest_spec in Hr' as ([?|(x' & Hx' & ->)] & _ & Hmax'); [done|].
  rw -Hp in Hx'. assert (updatedAt x = updatedAt x').
  { apply Z.le_antisymm; [apply Hmax'; by rw -Hp|by apply Hmax]. }
  f_equal. f_equal. apply list_elem_of_lookup in Hx as [i Hi].
  apply list_elem_of_lookup in Hx' as [j Hj].
  assert (i = j) as ->; [|congruence].
  eapply (NoDup_lookup _ _ _ (updatedAt x) Hnd); rw list_lookup_fmap; [rw Hi|rw Hj]; simpl; congruence.
Qed.

(** The record [applyOwnerEnforcementPush] sends to the gate for a push received at
    [receivedAt]. *)
Definition pushedRecord (s : OwnerEnforcementStatus) (u : option Z) (at_ receivedAt : Z) :
    StoredOwnerEnforcement :=
  {| status := s; until := u; updatedAt := at_;
     expiresAt := Some (default (receivedAt + DEFAULT_ENFORCEMENT_TTL_SECONDS * 1000) u) |}.

(** a suspension or throttling pushed without an end is in force for
    [DEFAULT_ENFORCEMENT_TTL_SECONDS] after it was received and not a millisecond
    longer, unless a newer push replaces it. *)
Theorem enforcement_without_until_lapses s at_ receivedAt st now :
  s = suspended_ ∨ s = throttled_ →
  (∀ c, record st = Some c → updatedAt c < at_) →
  let st' := fst (applyOwnerEnforcement (pushedRecord s None at_ receivedAt) st) in
  let admission := enforcementAdmissionForRecord (record st') now in
  suspended admission || throttled admission =
    (now <? receivedAt + DEFAULT_ENFORCEMENT_TTL_SECONDS * 1000).
Proof.
  intros Hs Hnew st'. subst st'.
  rw applyOwnerEnforcement_record; first by exists (receivedAt + DEFAULT_ENFORCEMENT_TTL_SECONDS * 1000).
  assert (latest (record st) [pushedRecord s None at_ receivedAt] =
          Some (normalizedRecord (pushedRecord s None at_ receivedAt))) as ->.
  { simpl. destruct (record st) as [c|]; [|done]. specialize (Hnew c eq_refl).
    apply Z.ltb_lt in Hnew. by rw Hnew. }
  unfold enforcementAdmissionForRecord, effectiveUntil. simpl.
  rw bool_decide_eq_false_2; first by intros ->; destruct Hs.
  rw Z.leb_antisym. destruct (now <? _); simpl; [|done].
  by destruct Hs as [->| ->].
Qed.

(** ** Witnesses *)

Definition ex_push (s : OwnerEnforcementStatus) (at_ : Z) : StoredOwnerEnforcement :=
  pushedRecord s None at_ at_.

Lemma enforcement_order_independent_witness :
  record (pushAll [ex_push suspended_ 5; ex_push st_ok 9] initEnforcement) =
  record (pushAll [ex_push st_ok 9; ex_push suspended_ 5] initEnforcement).
Proof.
  apply enforcement_order_independent.
  - repeat (apply Forall_cons; split); try apply Forall_nil; try done; by eexists.
  - apply (bool_decide_unpack _). by vm_compute.
  - apply Permutation_swap.
Defined.

Lemma enforcement_without_until_lapses_witness :
  let st' := fst (applyOwnerEnforcement (pushedRecord suspended_ None 5 7) initEnforcement) in
  let admission := enforcementAdmissionForRecord (record st') 604800007 in
  suspended admission || throttled admission = false.
Proof.
  apply (enforcement_without_until_lapses suspended_ 5 7 initEnforcement 604800007).
  - by left.
  - intros c Hc. discriminate Hc.
Defined.
