(* ===== verification/OwnerRelayGate.v ===== *)
(** * OwnerRelayGate (workers/model-gateway/src/gates/owner-relay-gate.ts)

    One object per capability owner.  It admits relays (a concurrency limit and a
    per-minute limit), composes the admission with the owner's capability ledger in
    one transaction, counts session mints, remembers cancelled managed requests and
    holds the owner's enforcement record.  [now] is the [Date.now()] of the call: the
    clock does not advance during synchronous execution.

    In-memory state (the abort controllers, the enforcement memo) is part of [State];
    a controller is its number, and [aborted] is the set of controllers whose signal
    has fired. *)

From Corelib Require Import ssreflect SpecFloat.
From stdpp Require Import prelude gmap strings.
From S2P Require Import Prelude JsNumber JsString GatewayPolicy SlidingWindow Ledger OwnerLedger OwnerEnforcement.

#[local] Open Scope Z_scope.

Definition MINUTE_MS : Z := 60000.
Definition HOUR_MS : Z := 60 * MINUTE_MS.
Definition OWNER_IN_FLIGHT_ABANDON_AFTER_MS : Z := GATEWAY_UPSTREAM_MAX_DURATION_MS + MINUTE_MS.

Inductive Refusal : Set := concurrency_limit | rate_limited.

Inductive GateAdmission : Type :=
  | Admit (duplicate : bool)
  | Refuse (refused : Refusal) (resetAt : Z).

Record ManagedController := {
  controller : Z;
  references : Z;
}.

Record State := {
  in_flight : gmap string Z;
  relay_admissions : list Z;
  mint_admissions : list Z;
  managed_cancellations : gmap string Z;
  enforcement : Enforcement;
  capLedger : OwnerLedger;
  managedControllers : gmap string ManagedController;
  aborted : gset Z;
  nextController : Z;
}.

Definition initState : State := {|
  in_flight := ∅; relay_admissions := []; mint_admissions := []; managed_cancellations := ∅;
  enforcement := initEnforcement; capLedger := initOwnerLedger; managedControllers := ∅;
  aborted := ∅; nextController := 0;
|}.

Definition withRelays (f : gmap string Z) (l : list Z) (st : State) : State := {|
  in_flight := f; relay_admissions := l; mint_admissions := mint_admissions st;
  managed_cancellations := managed_cancellations st; enforcement := enforcement st;
  capLedger := capLedger st; managedControllers := managedControllers st;
  aborted := aborted st; nextController := nextController st;
|}.

Definition withMints (l : list Z) (st : State) : State := {|
  in_flight := in_flight st; relay_admissions := relay_admissions st; mint_admissions := l;
  managed_cancellations := managed_cancellations st; enforcement := enforcement st;
  capLedger := capLedger st; managedControllers := managedControllers st;
  aborted := aborted st; nextController := nextController st;
|}.

Definition withLedger (l : OwnerLedger) (st : State) : State := {|
  in_flight := in_flight st; relay_admissions := relay_admissions st;
  mint_admissions := mint_admissions st;
  managed_cancellations := managed_cancellations st; enforcement := enforcement st;
  capLedger := l; managedControllers := managedControllers st;
  aborted := aborted st; nextController := nextController st;
|}.

Definition withCancellations (c : gmap string Z) (st : State) : State := {|
  in_flight := in_flight st; relay_admissions := relay_admissions st;
  mint_admissions := mint_admissions st;
  managed_cancellations := c; enforcement := enforcement st;
  capLedger := capLedger st; managedControllers := managedControllers st;
  aborted := aborted st; nextController := nextController st;
|}.

Definition withControllers (m : gmap string ManagedController) (a : gset Z) (n : Z)
    (st : State) : State := {|
  in_flight := in_flight st; relay_admissions := relay_admissions st;
  mint_admissions := mint_admissions st;
  managed_cancellations := managed_cancellations st; enforcement := enforcement st;
  capLedger := capLedger st; managedControllers := m; aborted := a; nextController := n;
|}.

Definition withEnforcement (e : Enforcement) (st : State) : State := {|
  in_flight := in_flight st; relay_admissions := relay_admissions st;
  mint_admissions := mint_admissions st;
  managed_cancellations := managed_cancellations st; enforcement := e;
  capLedger := capLedger st; managedControllers := managedControllers st;
  aborted := aborted st; nextController := nextController st;
|}.

(** ** Admission *)

Definition scaledLimit (limit : Z) (isThrottled : bool) : Z :=
  if isThrottled
  then Z.max 1 (num_floor (num_mul (num_of_Z limit) GATEWAY_THROTTLED_LIMIT_SHARE))
  else limit.

Definition policyFor (audience : ManagedModelAudience) : GatewayOwnerRelayLimit :=
  GATEWAY_OWNER_RELAY_LIMITS (limitsAudienceFor audience).

(** [DELETE FROM in_flight WHERE started_at <= cutoff]. *)
Definition pruneInFlight (cutoff : Z) (f : gmap string Z) : gmap string Z :=
  filter (λ kv, cutoff < kv.2) f.

Definition admitRelaySync (now : Z) (audience : ManagedModelAudience) (requestId : string)
    (isThrottled : bool) (st : State) : State * GateAdmission :=
  let f := pruneInFlight (now - OWNER_IN_FLIGHT_ABANDON_AFTER_MS) (in_flight st) in
  let l := prune (now - MINUTE_MS) (relay_admissions st) in
  let st := withRelays f l st in
  match f !! requestId with
  | Some _ => (st, Admit true)
  | None =>
      let policy := policyFor audience in
      if scaledLimit (inFlight policy) isThrottled <=? Z.of_nat (size f)
      then (st, Refuse concurrency_limit
                  (default now (min_by id f) + OWNER_IN_FLIGHT_ABANDON_AFTER_MS))
      else if scaledLimit (perMinute policy) isThrottled <=? count l
      then (st, Refuse rate_limited (default now (list_min l) + MINUTE_MS))
      else (withRelays (<[requestId := now]> f) (l ++ [now]) st, Admit false)
  end.

Definition releaseRelay (requestId : string) (st : State) : State :=
  withRelays (delete requestId (in_flight st)) (relay_admissions st) st.

Definition admissionId (generation cap requestId : string) : string :=
  jsonStringArray [generation; cap; requestId].

Definition ledgerKey (generation cap : string) : string := jsonStringArray [generation; cap].

(** [{...args.reservation, requestId, jti: JSON.stringify([generation, jti])}]. *)
Definition ownedReservation (generation requestId : string) (r : LedgerReserveArgs) :
    LedgerReserveArgs := {|
  jti := ledgerKey generation (jti r); budgetMicroCents := budgetMicroCents r;
  maxRequests := maxRequests r; Ledger.expiresAt := Ledger.expiresAt r;
  Ledger.requestId := requestId;
  estimatedMicroCents := estimatedMicroCents r;
|}.

Definition isReserved (r : LedgerReserveResult) : bool :=
  match r with Reserved _ => true | _ => false end.

(** The body of the transaction of [admitAndReserve]. *)
Definition admitAndReserveTx (now : Z) (audience : ManagedModelAudience)
    (requestId generation : string) (isThrottled : bool) (reservation : LedgerReserveArgs)
    (st : State) : State * (GateAdmission * option LedgerReserveResult) :=
  let id := admissionId generation (jti reservation) requestId in
  match admitRelaySync now audience id isThrottled st with
  | (st, Refuse r t) => (st, (Refuse r t, None))
  | (st, Admit duplicate) =>
      let '(ledger', res) :=
        reserveSync now (ownedReservation generation requestId reservation) (capLedger st) in
      let st := withLedger ledger' st in
      let st := if negb (isReserved res) && negb duplicate then releaseRelay id st else st in
      (st, (Admit duplicate, Some res))
  end.

Definition admitAndReserve (now : Z) (audience : ManagedModelAudience)
    (requestId generation : string) (isThrottled : bool) (reservation : LedgerReserveArgs)
    (st : State) : State * (GateAdmission * option LedgerReserveResult) :=
  let '(st', r) := admitAndReserveTx now audience requestId generation isThrottled reservation st in
  (withLedger (armAlarm now (capLedger st')) st', r).

Definition settleCapability (generation cap : string) (args : LedgerSettleArgs) (st : State) :
    State * LedgerSettleResult :=
  let '(l, r) := OwnerLedger.settle (ledgerKey generation cap) args (capLedger st) in
  (withLedger l st, r).

Definition admitMint (now : Z) (audience : ManagedModelAudience) (isThrottled : bool)
    (st : State) : State * GateAdmission :=
  let l := prune (now - HOUR_MS) (mint_admissions st) in
  let st := withMints l st in
  if scaledLimit (mintsPerHour (policyFor audience)) isThrottled <=? count l
  then (st, Refuse rate_limited (default now (list_min l) + HOUR_MS))
  else (withMints (l ++ [now]) st, Admit false).

(** ** Cancellation *)

Record ManagedCancellationIdentity := {
  ownerId : string;
  ownerGeneration : string;
  capabilityId : string;
  cancelRequestId : string;
  turnId : string;
  conversationId : string;
  identityExpiresAt : Z;
}.

Definition managedCancellationKey (i : ManagedCancellationIdentity) : string :=
  jsonStringArray [ownerGeneration i; capabilityId i; cancelRequestId i; turnId i;
                   conversationId i].

(** [armCancellationAlarm] only ever moves the object's alarm earlier. *)
Definition armCancellationAlarm (now : Z) (st : State) : State :=
  match min_by id (managed_cancellations st) with
  | None => st
  | Some next =>
      let at_ := Z.max (now + 1000) next in
      if match storageAlarm (capLedger st) with None => true | Some c => at_ <? c end
      then withLedger (setAlarm at_ (capLedger st)) st
      else st
  end.

(** [DELETE FROM managed_cancellations WHERE expires_at <= now]. *)
Definition pruneCancellations (now : Z) (c : gmap string Z) : gmap string Z :=
  filter (λ kv, now < kv.2) c.

Definition alarm (now : Z) (st : State) : State :=
  let st := withLedger (OwnerLedger.alarm now (capLedger st)) st in
  armCancellationAlarm now (withCancellations (pruneCancellations now (managed_cancellations st)) st).

(** [matches_]: the identity's owner is this object's owner. *)
Definition cancelManagedRequest (matches_ : bool) (now : Z) (i : ManagedCancellationIdentity)
    (st : State) : State * bool :=
  if negb matches_ then (st, false)
  else if identityExpiresAt i <=? now then (st, false)
  else
    let key := managedCancellationKey i in
    let c := pruneCancellations now (managed_cancellations st) in
    let e := match c !! key with
             | Some e => Z.min e (identityExpiresAt i)
             | None => identityExpiresAt i
             end in
    let st := withCancellations (<[key := e]> c) st in
    let st := match managedControllers st !! key with
              | Some active =>
                  withControllers (managedControllers st) ({[controller active]} ∪ aborted st)
                    (nextController st) st
              | None => st
              end in
    (armCancellationAlarm now st, true).

Inductive BeginResult : Type :=
  | Canceled
  | Begun (key : string) (signal : Z).

Definition beginManagedRequest (now : Z) (i : ManagedCancellationIdentity) (st : State) :
    State * BeginResult :=
  let key := managedCancellationKey i in
  let tombstone :=
    match managed_cancellations st !! key with Some e => now <? e | None => false end in
  if tombstone then (st, Canceled)
  else match managedControllers st !! key with
  | Some active =>
      (withControllers
         (<[key := {| controller := controller active; references := references active + 1 |}]>
            (managedControllers st)) (aborted st) (nextController st) st,
       Begun key (controller active))
  | None =>
      (withControllers
         (<[key := {| controller := nextController st; references := 1 |}]>
            (managedControllers st)) (aborted st) (nextController st + 1) st,
       Begun key (nextController st))
  end.

Definition releaseManagedRequest (key : string) (st : State) : State :=
  match managedControllers st !! key with
  | None => st
  | Some active =>
      let m :=
        if references active - 1 =? 0 then delete key (managedControllers st)
        else <[key := {| controller := controller active; references := references active - 1 |}]>
               (managedControllers st) in
      withControllers m (aborted st) (nextController st) st
  end.

(** ** Traces, with the log of what was admitted *)

Inductive op : Type :=
  | OpAdmit (now : Z) (audience : ManagedModelAudience) (requestId : string) (isThrottled : bool)
  | OpReserve (now : Z) (audience : ManagedModelAudience) (requestId generation : string)
      (isThrottled : bool) (reservation : LedgerReserveArgs)
  | OpSettle (generation cap : string) (args : LedgerSettleArgs)
  | OpRelease (requestId : string)
  | OpMint (now : Z) (audience : ManagedModelAudience) (isThrottled : bool)
  | OpCancel (matches_ : bool) (now : Z) (i : ManagedCancellationIdentity)
  | OpBegin (now : Z) (i : ManagedCancellationIdentity)
  | OpEnd (key : string)
  | OpAlarm (now : Z)
  | OpEnforce (r : StoredOwnerEnforcement).

(** The platform consumes the alarm it delivers. *)
Definition consumeAlarm (st : State) : State :=
  withLedger {| ledgers := ledgers (capLedger st); ownedResults := ownedResults (capLedger st);
                armedAt := armedAt (capLedger st); storageAlarm := None |} st.

Definition newRelay (a : GateAdmission) (now : Z) (log : list Z) : list Z :=
  match a with Admit false => log ++ [now] | _ => log end.

Record Traced := { state : State; relayLog : list Z; mintLog : list Z }.

Definition quiet (st : State) (s : Traced) : Traced :=
  {| state := st; relayLog := relayLog s; mintLog := mintLog s |}.

Definition exec (s : Traced) (o : op) : Traced :=
  let st := state s in
  match o with
  | OpAdmit now audience requestId isThrottled =>
      let '(st', a) := admitRelaySync now audience requestId isThrottled st in
      {| state := st'; relayLog := newRelay a now (relayLog s); mintLog := mintLog s |}
  | OpReserve now audience requestId generation isThrottled reservation =>
      let '(st', (a, _)) :=
        admitAndReserve now audience requestId generation isThrottled reservation st in
      {| state := st'; relayLog := newRelay a now (relayLog s); mintLog := mintLog s |}
  | OpSettle generation cap args => quiet (fst (settleCapability generation cap args st)) s
  | OpRelease requestId => quiet (releaseRelay requestId st) s
  | OpMint now audience isThrottled =>
      let '(st', a) := admitMint now audience isThrottled st in
      {| state := st'; relayLog := relayLog s; mintLog := newRelay a now (mintLog s) |}
  | OpCancel matches_ now i => quiet (fst (cancelManagedRequest matches_ now i st)) s
  | OpBegin now i => quiet (fst (beginManagedRequest now i st)) s
  | OpEnd key => quiet (releaseManagedRequest key st) s
  | OpAlarm now => quiet (alarm now (consumeAlarm st)) s
  | OpEnforce r => quiet (withEnforcement (fst (applyOwnerEnforcement r (enforcement st))) st) s
  end.

Definition initTraced : Traced := {| state := initState; relayLog := []; mintLog := [] |}.

Definition run (ops : list op) : Traced := foldl exec initTraced ops.

Definition clock (t : Z) (o : op) : Z :=
  match o with
  | OpAdmit now _ _ _ | OpReserve now _ _ _ _ _ | OpMint now _ _ | OpCancel _ now _
  | OpBegin now _ | OpAlarm now => now
  | _ => t
  end.

Fixpoint clocked (t : Z) (ops : list op) : Prop :=
  match ops with
  | [] => True
  | o :: ops' => t ≤ clock t o ∧ clocked (clock t o) ops'
  end.

Section limits.
Context (concurrent perMin perHour : Z).

(** Every admission of the trace is checked against at most these limits. *)
Definition limitsWithin (o : op) : Prop :=
  match o with
  | OpAdmit _ audience _ isThrottled | OpReserve _ audience _ _ isThrottled _ =>
      scaledLimit (inFlight (policyFor audience)) isThrottled ≤ concurrent ∧
      scaledLimit (perMinute (policyFor audience)) isThrottled ≤ perMin
  | OpMint _ audience isThrottled =>
      scaledLimit (mintsPerHour (policyFor audience)) isThrottled ≤ perHour
  | _ => True
  end.

Definition Inv (t : Z) (s : Traced) : Prop :=
  Z.of_nat (size (in_flight (state s))) ≤ Z.max 0 concurrent ∧
  (represents MINUTE_MS t (relay_admissions (state s)) (relayLog s) ∧
   bounded MINUTE_MS perMin (relayLog s)) ∧
  (represents HOUR_MS t (mint_admissions (state s)) (mintLog s) ∧
   bounded HOUR_MS perHour (mintLog s)).

Lemma gate_Inv_later t t' s : t ≤ t' → Inv t s → Inv t' s.
Proof.
  intros Hle (? & [??] & [??]). split; [done|]. split; split; eauto using represents_later.
Qed.

(** An operation that admits nothing: the admission tables stay and [in_flight] does
    not grow. *)
Lemma gate_Inv_quiet t s st :
  in_flight st ⊆ in_flight (state s) →
  relay_admissions st = relay_admissions (state s) →
  mint_admissions st = mint_admissions (state s) →
  Inv t s → Inv t (quiet st s).
Proof.
  intros Hsub Hr Hm (Hs & HR & HM). unfold Inv; simpl. rw Hr Hm. split; [|done].
  apply map_subseteq_size in Hsub. lia.
Qed.

Lemma pruneInFlight_size cutoff f : (size (pruneInFlight cutoff f) ≤ size f)%nat.
Proof. apply map_subseteq_size, map_filter_subseteq. Qed.

Lemma admitRelaySync_Inv now audience id isThrottled s :
  limitsWithin (OpAdmit now audience id isThrottled) → Inv now s →
  let '(st', a) := admitRelaySync now audience id isThrottled (state s) in
  Inv now {| state := st'; relayLog := newRelay a now (relayLog s); mintLog := mintLog s |}.
Proof.
  intros [Hc Hm] (Hs & [Hrep Hb] & HM). unfold admitRelaySync.
  set (f := pruneInFlight _ (in_flight (state s))).
  set (l := prune _ (relay_admissions (state s))).
  assert (Hf : Z.of_nat (size f) ≤ Z.max 0 concurrent).
  { pose proof (pruneInFlight_size (now - OWNER_IN_FLIGHT_ABANDON_AFTER_MS)
      (in_flight (state s))). unfold f. lia. }
  assert (Hl : represents MINUTE_MS now l (relayLog s)) by by apply represents_prune.
  destruct (f !! id) eqn:Hid; [by split|].
  destruct (_ <=? Z.of_nat (size f)) eqn:E1; [by split|].
  destruct (_ <=? count l) eqn:E2; [by split|]. bool_to_prop.
  split; simpl; [rw map_size_insert_None //; lia|]. split; [|done].
  split; [by apply represents_insert|]. apply bounded_insert; [apply Hl| |done].
  rw -(represents_count MINUTE_MS now MINUTE_MS l) // /l prune_prune // -/l. lia.
Qed.

Lemma admitAndReserve_Inv now audience id generation isThrottled r s :
  limitsWithin (OpReserve now audience id generation isThrottled r) → Inv now s →
  Inv now (exec s (OpReserve now audience id generation isThrottled r)).
Proof.
  intros Hlim HI. simpl. unfold admitAndReserve, admitAndReserveTx.
  pose proof (admitRelaySync_Inv now audience (admissionId generation (jti r) id) isThrottled s
    Hlim HI) as H.
  destruct (admitRelaySync _ _ _ _ _) as [st' [dup|ref reset]]; [|done].
  destruct (reserveSync _ _ _) as [l res]. simpl.
  set (s' := {| state := st'; relayLog := _; mintLog := _ |}) in H.
  destruct (_ && _); apply (gate_Inv_quiet _ s'); try done. apply delete_subseteq.
Qed.

Lemma gate_admitMint_Inv now audience isThrottled s :
  limitsWithin (OpMint now audience isThrottled) → Inv now s →
  Inv now (exec s (OpMint now audience isThrottled)).
Proof.
  intros Hlim (Hs & HR & [Hrep Hb]). simpl in *. unfold admitMint.
  set (l := prune _ (mint_admissions (state s))).
  assert (Hl : represents HOUR_MS now l (mintLog s)) by by apply represents_prune.
  destruct (_ <=? count l) eqn:E; [by split|]. bool_to_prop.
  split; [done|]. split; [done|]. split; simpl; [by apply represents_insert|].
  apply bounded_insert; [apply Hl| |done].
  rw -(represents_count HOUR_MS now HOUR_MS l) // /l prune_prune // -/l. lia.
Qed.

Lemma gate_exec_Inv t s o : t ≤ clock t o → limitsWithin o → Inv t s → Inv (clock t o) (exec s o).
Proof.
  intros Hle Hlim HI. apply (gate_Inv_later _ _ _ Hle) in HI. destruct o; simpl in Hle, HI |- *.
  - pose proof (admitRelaySync_Inv now audience requestId isThrottled s Hlim HI) as H.
    by destruct (admitRelaySync _ _ _ _ _).
  - by apply admitAndReserve_Inv.
  - apply gate_Inv_quiet; try done; unfold settleCapability; by case_match.
  - apply gate_Inv_quiet; try done. apply delete_subseteq.
  - by apply gate_admitMint_Inv.
  - apply gate_Inv_quiet; try done; unfold cancelManagedRequest, armCancellationAlarm;
      by repeat case_match.
  - apply gate_Inv_quiet; try done; unfold beginManagedRequest; by repeat case_match.
  - apply gate_Inv_quiet; try done; unfold releaseManagedRequest; by repeat case_match.
  - apply gate_Inv_quiet; try done; unfold alarm, armCancellationAlarm; by repeat case_match.
  - by apply gate_Inv_quiet.
Qed.

Lemma gate_run_Inv t ops s :
  Forall limitsWithin ops → clocked t ops → Inv t s → ∃ t', Inv t' (foldl exec s ops).
Proof.
  revert t s; induction ops as [|o ops IH]; intros t s; simpl; [eauto|].
  intros [Ho Hops]%Forall_cons [Hle Hc] HI. eapply IH; [done..|by apply gate_exec_Inv].
Qed.

Lemma initTraced_Inv t : Inv t initTraced.
Proof.
  split; [change (0 ≤ Z.max 0 concurrent); lia|]. split; (split; [|apply bounded_nil]);
    (split; [done|]); intros x Hx; by apply not_elem_of_nil in Hx.
Qed.
End limits.

(** ** Admission and reservation *)

Lemma admissionId_inj g c r g' c' r' :
  admissionId g c r = admissionId g' c' r' → g = g' ∧ c = c' ∧ r = r'.
Proof. unfold admissionId. intros Heq%(inj jsonStringArray). by injection Heq. Qed.

Lemma admitRelaySync_lookup now audience id isThrottled st other :
  let '(st', a) := admitRelaySync now audience id isThrottled st in
  (other ≠ id → in_flight st' !! other =
     pruneInFlight (now - OWNER_IN_FLIGHT_ABANDON_AFTER_MS) (in_flight st) !! other) ∧
  capLedger st' = capLedger st ∧
  match a with
  | Admit false => in_flight st' !! id = Some now
  | Admit true => is_Some (in_flight st' !! id)
  | Refuse _ _ => in_flight st' !! id = None
  end.
Proof.
  unfold admitRelaySync.
  destruct (pruneInFlight _ (in_flight st) !! id) eqn:E; simpl; [by rw E; eauto|].
  destruct (_ <=? Z.of_nat _); simpl; [by rw E|].
  destruct (_ <=? count _); simpl; [by rw E|].
  split; [intros; by rw lookup_insert_ne|]. by rw lookup_insert_eq.
Qed.

(** ** Cancellation *)

(** Operations that keep a tombstone alive while the clock is before [t]. *)
Definition keepsTombstone (key : string) (t : Z) (o : op) : Prop :=
  clock t o ≤ t ∧
  match o with
  | OpCancel _ _ i => managedCancellationKey i = key → t < identityExpiresAt i
  | _ => True
  end.

Definition tombstoned (key : string) (t : Z) (st : State) : Prop :=
  ∃ e, managed_cancellations st !! key = Some e ∧ t < e.

Lemma armCancellationAlarm_cancellations now st :
  managed_cancellations (armCancellationAlarm now st) = managed_cancellations st.
Proof. unfold armCancellationAlarm. by repeat case_match. Qed.

Lemma pruneCancellations_keeps key e now t c :
  c !! key = Some e → now ≤ t → t < e → pruneCancellations now c !! key = Some e.
Proof. intros Hc ? ?. apply map_lookup_filter_Some. split; [done|]. simpl. lia. Qed.

Lemma cancel_tombstoned matches_ now i key t st :
  tombstoned key t st → now ≤ t →
  (managedCancellationKey i = key → t < identityExpiresAt i) →
  tombstoned key t (fst (cancelManagedRequest matches_ now i st)).
Proof.
  intros (e & He & Hlt) Hnow Hi. unfold cancelManagedRequest.
  destruct (negb matches_); [by exists e|]. destruct (_ <=? now); [by exists e|]. simpl.
  set (c := pruneCancellations now (managed_cancellations st)).
  assert (Hc : c !! key = Some e) by by eapply pruneCancellations_keeps.
  unfold tombstoned. rw armCancellationAlarm_cancellations.
  assert (∀ m a n s, managed_cancellations (withControllers m a n s) = managed_cancellations s)
    as Hw by done.
  destruct (decide (managedCancellationKey i = key)) as [Hk|Hne].
  - rw Hk Hc. specialize (Hi Hk). exists (Z.min e (identityExpiresAt i)). split; [|lia].
    destruct (managedControllers _ !! key); rw ?Hw /= lookup_insert_eq //.
  - exists e. split; [|done].
    destruct (managedControllers _ !! _); rw ?Hw /= lookup_insert_ne //.
Qed.

Lemma tombstoned_same key t st st' :
  managed_cancellations st' = managed_cancellations st →
  tombstoned key t st → tombstoned key t st'.
Proof. intros Heq. unfold tombstoned. by rw Heq. Qed.

Lemma exec_tombstoned key t o s :
  keepsTombstone key t o → tombstoned key t (state s) → tombstoned key t (state (exec s o)).
Proof.
  intros [Hclock Hc] Ht. destruct o; simpl in Hclock, Hc |- *.
  - eapply tombstoned_same, Ht. unfold admitRelaySync. by cases.
  - eapply tombstoned_same, Ht. unfold admitAndReserve, admitAndReserveTx, admitRelaySync.
    by cases.
  - eapply tombstoned_same, Ht. unfold settleCapability. by cases.
  - done.
  - eapply tombstoned_same, Ht. unfold admitMint. by cases.
  - by apply cancel_tombstoned.
  - eapply tombstoned_same, Ht. unfold beginManagedRequest. by cases.
  - eapply tombstoned_same, Ht. unfold releaseManagedRequest. by cases.
  - unfold alarm, tombstoned. rw armCancellationAlarm_cancellations.
    destruct Ht as (e & He & Hlt). exists e. split; [|done].
    by eapply pruneCancellations_keeps.
  - done.
Qed.

Lemma run_tombstoned key t ops s :
  Forall (keepsTombstone key t) ops → tombstoned key t (state s) →
  tombstoned key t (state (foldl exec s ops)).
Proof.
  revert s; induction ops as [|o ops IH]; intros s; simpl; [done|].
  intros [Ho Hops]%Forall_cons Ht. apply IH; [done|by apply exec_tombstoned].
Qed.

(** ** The one alarm *)

(** The ledgers are armed and pending tombstones have an alarm too. *)
Definition AlarmOk (st : State) : Prop :=
  Armed (capLedger st) ∧
  (managed_cancellations st ≠ ∅ → is_Some (storageAlarm (capLedger st))).

Lemma armCancellationAlarm_Armed now st :
  Armed (capLedger st) → AlarmOk (armCancellationAlarm now st).
Proof.
  intros [Ha Hl]. unfold armCancellationAlarm.
  destruct (min_by id (managed_cancellations st)) as [next|] eqn:E.
  - destruct (match storageAlarm (capLedger st) with None => true | Some c => _ end) eqn:Eb.
    + split; [|by simpl; eauto]. split; simpl; [|eauto]. intros a Harm.
      destruct (Ha a Harm) as (t & Ht & Hle). rw Ht in Eb. bool_to_prop.
      eexists; split; [done|]. lia.
    + split; [done|]. intros _. destruct (storageAlarm _); [eauto|done].
  - apply min_by_None in E. by split; rw ?E.
Qed.

Lemma ledger_armAlarm_AlarmOk now st :
  (∀ a, armedAt (capLedger st) = Some a → ∃ t, storageAlarm (capLedger st) = Some t ∧ t ≤ a) →
  (managed_cancellations st ≠ ∅ → is_Some (storageAlarm (capLedger st))) →
  AlarmOk (withLedger (armAlarm now (capLedger st)) st).
Proof.
  intros Ha Hc. split; simpl; [by apply armAlarm_Armed|]. intros Hne.
  specialize (Hc Hne). unfold armAlarm. repeat case_match; simpl; eauto.
Qed.

(** [reserveSync] and [settle] leave both alarm fields alone. *)
Lemma reserveSync_alarms now args l :
  armedAt (fst (reserveSync now args l)) = armedAt l ∧
  storageAlarm (fst (reserveSync now args l)) = storageAlarm l.
Proof. unfold reserveSync, admitOwned. by cases. Qed.

Lemma settle_Armed cap args l : Armed l → Armed (fst (OwnerLedger.settle cap args l)).
Proof.
  intros [Ha Hl]. unfold OwnerLedger.settle. repeat case_match; try done; simpl;
    (split; simpl; [done|]; intros _; apply Hl; by intros Hn; rw Hn lookup_empty in H).
Qed.

Lemma admitAndReserve_AlarmOk now audience id generation isThrottled r st :
  AlarmOk st → AlarmOk (fst (admitAndReserve now audience id generation isThrottled r st)).
Proof.
  intros [[Ha Hl] Hc]. unfold admitAndReserve, admitAndReserveTx.
  assert (Hadm : ∀ id, let st' := fst (admitRelaySync now audience id isThrottled st) in
    capLedger st' = capLedger st ∧ managed_cancellations st' = managed_cancellations st).
  { intros id'. unfold admitRelaySync. by cases. }
  specialize (Hadm (admissionId generation (jti r) id)).
  destruct (admitRelaySync _ _ _ _ _) as [st' [dup|ref reset]]; simpl in Hadm;
    destruct Hadm as [Hled Hcan]; [|by apply ledger_armAlarm_AlarmOk; rw ?Hled ?Hcan].
  destruct (reserveSync _ _ _) as [l res] eqn:E. simpl.
  pose proof (reserveSync_alarms now (ownedReservation generation id r) (capLedger st')) as [H1 H2].
  rw E Hled /= in H1 H2.
  destruct (_ && _); apply ledger_armAlarm_AlarmOk; simpl; rw ?H1 ?H2 ?Hcan //.
Qed.

Lemma exec_AlarmOk s o : AlarmOk (state s) → AlarmOk (state (exec s o)).
Proof.
  intros [[Ha Hl] Hc]. destruct o; simpl.
  - unfold admitRelaySync. by cases.
  - pose proof (admitAndReserve_AlarmOk now audience requestId generation isThrottled reservation
      (state s) (conj (conj Ha Hl) Hc)).
    by destruct (admitAndReserve _ _ _ _ _ _ _) as [? [? ?]].
  - unfold settleCapability.
    pose proof (settle_Armed (ledgerKey generation cap) args _ (conj Ha Hl)) as HA.
    destruct (OwnerLedger.settle _ _ _) as [l r] eqn:E. split; simpl; [done|]. intros Hne.
    assert (storageAlarm l = storageAlarm (capLedger (state s))) as ->; [|by apply Hc].
    unfold OwnerLedger.settle in E. by cases.
  - by split.
  - unfold admitMint. by cases.
  - unfold cancelManagedRequest. destruct (negb _); [by split|]. destruct (_ <=? _); [by split|].
    simpl. apply armCancellationAlarm_Armed. by destruct (managedControllers _ !! _).
  - unfold beginManagedRequest. by cases.
  - unfold releaseManagedRequest. by cases.
  - unfold alarm. apply armCancellationAlarm_Armed. simpl. apply alarm_Armed.
  - by split.
Qed.

Lemma run_AlarmOk ops s : AlarmOk (state s) → AlarmOk (state (foldl exec s ops)).
Proof.
  revert s; induction ops as [|o ops IH]; intros s HA; simpl; [done|]. by apply IH, exec_AlarmOk.
Qed.

(** ** Properties *)

(** in any trace of the gate's operations, at most the concurrency limit of
    requests is in flight, no rolling minute admits more relays than the per-minute
    limit and no rolling hour more session mints than the hourly limit (the largest
    limits the calls were checked against, throttling included). *)
Theorem owner_gate_limits_bounded concurrent perMin perHour t ops :
  Forall (limitsWithin concurrent perMin perHour) ops → clocked t ops →
  Z.of_nat (size (in_flight (state (run ops)))) ≤ Z.max 0 concurrent ∧
  bounded MINUTE_MS perMin (relayLog (run ops)) ∧
  bounded HOUR_MS perHour (mintLog (run ops)).
Proof.
  intros Hlim Hclock.
  destruct (gate_run_Inv _ _ _ t ops initTraced Hlim Hclock (initTraced_Inv _ _ _ t))
    as (t' & Hs & [_ HR] & [_ HM]). by split.
Qed.

(** admission and reservation agree.  A refused admission leaves every ledger
    table alone; a fresh admission occupies a concurrency slot exactly when the
    capability's ledger reserved the request; a duplicate keeps the slot it had.  The
    slots of all other (generation, capability, request) triples are untouched. *)
Theorem owner_gate_admit_and_reserve now audience id generation isThrottled r st :
  let '(st', (a, res)) := admitAndReserve now audience id generation isThrottled r st in
  let slot := in_flight st' !! admissionId generation (jti r) id in
  match a with
  | Refuse _ _ =>
      res = None ∧ slot = None ∧ ledgers (capLedger st') = ledgers (capLedger st) ∧
      ownedResults (capLedger st') = ownedResults (capLedger st)
  | Admit false =>
      (∃ x, res = Some (Reserved x) ∧ slot = Some now) ∨
      (∃ y, res = Some y ∧ isReserved y = false ∧ slot = None)
  | Admit true => is_Some slot ∧ is_Some res
  end ∧
  ∀ g c q, (g, c, q) ≠ (generation, jti r, id) →
    in_flight st' !! admissionId g c q =
    pruneInFlight (now - OWNER_IN_FLIGHT_ABANDON_AFTER_MS) (in_flight st) !! admissionId g c q.
Proof.
  unfold admitAndReserve, admitAndReserveTx.
  set (key := admissionId generation (jti r) id).
  pose proof (admitRelaySync_lookup now audience key isThrottled st) as Hlk.
  assert (Hne : ∀ g c q, (g, c, q) ≠ (generation, jti r, id) → admissionId g c q ≠ key).
  { intros g c q Hn (-> & -> & ->)%admissionId_inj. done. }
  assert (Harm : ∀ l, ledgers (armAlarm now l) = ledgers l ∧
                      ownedResults (armAlarm now l) = ownedResults l).
  { intros l. unfold armAlarm. by repeat case_match. }
  destruct (admitRelaySync now audience key isThrottled st) as [st1 [dup|ref reset]]; simpl.
  - destruct (reserveSync _ _ _) as [l res]; simpl.
    destruct (Hlk key) as (_ & _ & Hslot). split.
    + destruct dup, (isReserved res) eqn:Er; simpl; rw ?lookup_delete_eq; eauto.
      left. destruct res; try done. eauto.
    + intros g c q Hn. destruct (Hlk (admissionId g c q)) as [Hother _].
      rw -(Hother (Hne _ _ _ Hn)).
      destruct (negb (isReserved res) && negb dup); simpl; [|done].
      rw lookup_delete_ne //. intros Heq. by apply (Hne _ _ _ Hn).
  - destruct (Hlk key) as (_ & Hled & Hslot). destruct (Harm (capLedger st1)) as [-> ->].
    rw Hled. split; [done|]. intros g c q Hn. by apply Hlk, Hne.
Qed.

(** C29: once a managed request is cancelled, no later call can start it before its
    capability expires: whatever operations run in between (alarms and other
    cancellations included), [beginManagedRequest] answers [canceled]; and the
    controller that was serving it is aborted at once. *)
Theorem owner_gate_canceled_request_never_begins now i s t ops t' :
  let key := managedCancellationKey i in
  now ≤ t → t < identityExpiresAt i →
  (∀ e, managed_cancellations (state s) !! key = Some e → e ≤ now ∨ t < e) →
  Forall (keepsTombstone key t) ops → t' ≤ t →
  let s1 := exec s (OpCancel true now i) in
  snd (beginManagedRequest t' i (state (foldl exec s1 ops))) = Canceled ∧
  ∀ active, managedControllers (state s) !! key = Some active →
    controller active ∈ aborted (state s1).
Proof.
  intros key Hnow Hexp Hprev Hops Ht' s1.
  assert (Hcancel : tombstoned key t (state s1) ∧
    ∀ active, managedControllers (state s) !! key = Some active →
      controller active ∈ aborted (state s1)).
  { subst s1. simpl. unfold cancelManagedRequest. simpl. destruct (_ <=? now) eqn:E.
    { bool_to_prop. lia. } simpl. fold key.
    set (c := pruneCancellations now (managed_cancellations (state s))).
    assert (Harm : ∀ st, aborted (armCancellationAlarm now st) = aborted st).
    { intros st. unfold armCancellationAlarm. by repeat case_match. }
    unfold tombstoned. rw armCancellationAlarm_cancellations Harm. split.
    - destruct (managedControllers _ !! key); simpl; rw lookup_insert_eq;
        (eexists; split; [done|]); destruct (c !! key) as [e|] eqn:Ec; try lia;
        apply map_lookup_filter_Some in Ec as [Ec Hlt]; simpl in Hlt;
        destruct (Hprev e Ec); lia.
    - intros active ->. simpl. apply elem_of_union; left. by apply elem_of_singleton. }
  destruct Hcancel as [Htomb Hab]. split; [|done].
  destruct (run_tombstoned key t ops s1 Hops Htomb) as (e & He & Hlt).
  unfold beginManagedRequest. fold key. rw He.
  assert (t' <? e = true) as -> by (apply Z.ltb_lt; lia). done.
Qed.

(** in every reachable state an alarm is pending whenever a capability ledger or a
    cancellation tombstone is still stored, although two components share the one
    alarm and both move it: nothing is kept forever. *)
Theorem owner_gate_alarm_always_pending ops :
  let st := state (run ops) in
  (ledgers (capLedger st) = ∅ ∧ managed_cancellations st = ∅) ∨
  is_Some (storageAlarm (capLedger st)).
Proof.
  intros st. assert (AlarmOk st) as [[_ Hl] Hc].
  { apply run_AlarmOk. by repeat split. }
  destruct (decide (ledgers (capLedger st) = ∅)) as [?|?]; [|right; by apply Hl].
  destruct (decide (managed_cancellations st = ∅)) as [?|?]; [by left|right; by apply Hc].
Qed.

(** ** Witnesses *)

Definition ex_reservation : LedgerReserveArgs := {|
  jti := "cap"; budgetMicroCents := num_of_Z 100; maxRequests := None;
  Ledger.expiresAt := num_of_Z 5000000; Ledger.requestId := "ignored";
  estimatedMicroCents := num_of_Z 40;
|}.

Definition ex_ops : list op :=
  [OpReserve 10 aud_anonymous "a" "g" false ex_reservation;
   OpReserve 20 aud_anonymous "b" "g" true ex_reservation;
   OpMint 30 aud_anonymous false;
   OpRelease (admissionId "g" "cap" "a");
   OpReserve 40 aud_anonymous "b" "g" true ex_reservation].

Lemma owner_gate_limits_bounded_witness :
  in_flight (state (run ex_ops)) !! admissionId "g" "cap" "b" = Some 40 ∧
  Z.of_nat (size (in_flight (state (run ex_ops)))) ≤ 1.
Proof.
  split; [by vm_compute|].
  refine (proj1 (owner_gate_limits_bounded 1 20 12 0 ex_ops _ _)); [|by vm_compute].
  repeat (apply Forall_cons; split); try apply Forall_nil; try done; split; by vm_compute.
Defined.

Definition ex_identity : ManagedCancellationIdentity := {|
  ownerId := "o"; ownerGeneration := "g"; capabilityId := "cap"; cancelRequestId := "a";
  turnId := "t"; conversationId := "c"; identityExpiresAt := 1000;
|}.

Lemma owner_gate_canceled_request_never_begins_witness :
  let s := exec initTraced (OpBegin 5 ex_identity) in
  let s1 := exec s (OpCancel true 10 ex_identity) in
  snd (beginManagedRequest 60 ex_identity (state (foldl exec s1 [OpAlarm 50]))) = Canceled ∧
  0 ∈ aborted (state s1).
Proof.
  intros s s1.
  assert (H := owner_gate_canceled_request_never_begins 10 ex_identity s 100 [OpAlarm 50] 60).
  destruct H as [H1 H2]; [by vm_compute..| | |by vm_compute|].
  - intros e He. vm_compute in He. discriminate He.
  - apply Forall_cons. split; [by split|by apply Forall_nil].
  - split; [exact H1|]. apply (H2 {| controller := 0; references := 1 |}). by vm_compute.
Defined.
