(* ===== verification/FenceStore.v ===== *)
(** * OwnerFenceStore (workers/cloud-builder/src/owner-fence-store.ts)

    The leases an owner's sessions hold on the owner's fence.  Every method is
    synchronous SQL over one table keyed by [lease_id]; a failed validation throws
    before or after writes exactly as the source orders them, which the monad [M]
    keeps.

    A caller-supplied number is [jsint]: [Some z] is the integer [z], [None] any
    number that is not an integer (a fraction, an infinity, NaN), which every check
    rejects.  An [INSERT] cannot meet a constraint here: the row was looked up, and
    [namespace] and [role] were validated, so the catch of the source is unreachable. *)

From Corelib Require Import ssreflect.
From stdpp Require Import prelude gmap strings sorting.
From S2P Require Import Prelude JsNumber JsString.

#[local] Open Scope Z_scope.

Definition OWNER_FENCE_LEASE_SCHEMA_VERSION : Z := 1.
Definition OWNER_FENCE_DEFAULT_MAX_LEASE_MS : Z := 30 * 60000.
Definition OWNER_FENCE_CLOCK_SKEW_MS : Z := 5 * 60000.
Definition OWNER_FENCE_RETIRED_RETENTION_MS : Z := 2 * 60 * 60000.
Definition OWNER_FENCE_RETIRED_PRUNE_LIMIT : Z := 256.
Definition OWNER_FENCE_LEGACY_GRACE_MS : Z := 60 * 60000.
Definition OWNER_FENCE_LEGACY_MIRROR_MAX_ENTRIES : Z := 512.

(** ** Data *)

Inductive OwnerFenceLeaseState : Set := active | retired.

#[export] Instance OwnerFenceLeaseState_eq_dec : EqDecision OwnerFenceLeaseState.
Proof. solve_decision. Defined.

Record OwnerFenceLeaseIdentity := {
  leaseId : string;
  ownerId : string;
  ownerGeneration : string;
  reservationGeneration : string;
  sessionId : string;
  turnId : string;
  namespace : string;
  role : string;
}.

#[export] Instance OwnerFenceLeaseIdentity_eq_dec : EqDecision OwnerFenceLeaseIdentity.
Proof. solve_decision. Defined.

Record OwnerFenceLease := {
  identity : OwnerFenceLeaseIdentity;
  state : OwnerFenceLeaseState;
  expiresAt : Z;
  createdAt : Z;
  renewedAt : Z;
  retiredAt : option Z;
}.

#[export] Instance OwnerFenceLease_eq_dec : EqDecision OwnerFenceLease.
Proof. solve_decision. Defined.

Definition jsint : Type := option Z.

Inductive OwnerFenceLeaseRegistrationResult : Type :=
  | Registered (lease : OwnerFenceLease)
  | Replayed (lease : OwnerFenceLease)
  | LeaseIdConflict (existing : OwnerFenceLease)
  | LeaseRetired (existing : OwnerFenceLease).

Inductive OwnerFenceLeaseMutationResult : Type :=
  | Renewed (lease : OwnerFenceLease)
  | RetiredNow (lease : OwnerFenceLease)
  | Missing
  | Expired (existing : OwnerFenceLease)
  | AlreadyRetired (existing : OwnerFenceLease)
  | IdentityMismatch (existing : OwnerFenceLease).

Record LegacyOwnerFenceLease := {
  legacyLeaseId : string;
  legacySessionId : string;
  legacyTurnId : string;
  legacyNamespace : string;
  legacyRole : string;
  legacyOwnerGeneration : option string;
  legacyReservationGeneration : option string;
  legacyExpiresAt : option jsint;
}.

Record OwnerFenceStoreOptions := {
  maxLeaseMs : Z;
  clockSkewMs : Z;
  legacyGraceMs : Z;
  maxLegacyLeaseMs : Z;
}.

(** The two tables. *)
Record Store := {
  leases : gmap string OwnerFenceLease;
  schemaMigrations : gmap Z Z;
}.

(** [OwnerFenceLeaseValidationError], with the field it names. *)
Definition ValidationError : Type := string.

Definition withLeases (l : gmap string OwnerFenceLease) (st : Store) : Store :=
  {| leases := l; schemaMigrations := schemaMigrations st |}.

Definition retire (now : Z) (lease : OwnerFenceLease) : OwnerFenceLease := {|
  identity := identity lease; state := retired; expiresAt := expiresAt lease;
  createdAt := createdAt lease; renewedAt := renewedAt lease; retiredAt := Some now;
|}.

Definition renew (bounded now : Z) (lease : OwnerFenceLease) : OwnerFenceLease := {|
  identity := identity lease; state := state lease; expiresAt := bounded;
  createdAt := createdAt lease; renewedAt := now; retiredAt := retiredAt lease;
|}.

(** ** Validation *)

Definition NAMESPACES : list string := ["build"; "orchestrator"; "activity"].
Definition ROLES : list string := ["run"; "aux"; "orchestrator"; "activity"].

Definition isSafe (v : jsint) : bool :=
  match v with Some z => Z.abs z <=? MAX_SAFE_INTEGER | None => false end.

(** Returns the time it validated. *)
Definition assertSafeTime {S} (v : jsint) (field : string) : M S ValidationError Z :=
  match v with
  | Some z => if isSafe v && negb (z <? 0) then ret z else throw field
  | None => throw field
  end.

Definition validText (value : string) : bool :=
  negb ((js_length value <? 1) || (512 <? js_length value) || existsChar isControlChar value).

Definition assertText {S} (value field : string) : M S ValidationError () :=
  if validText value then ret () else throw field.

Definition assertIdentity {S} (i : OwnerFenceLeaseIdentity) : M S ValidationError () :=
  assertText (leaseId i) "leaseId" ;;;
  assertText (ownerId i) "ownerId" ;;;
  assertText (ownerGeneration i) "ownerGeneration" ;;;
  assertText (reservationGeneration i) "reservationGeneration" ;;;
  assertText (sessionId i) "sessionId" ;;;
  assertText (turnId i) "turnId" ;;;
  (if negb (bool_decide (namespace i ∈ NAMESPACES)) then throw "namespace" else
   if negb (bool_decide (role i ∈ ROLES)) then throw "role" else ret ()).

Definition exactIdentityMatches (lease : OwnerFenceLease) (i : OwnerFenceLeaseIdentity) : bool :=
  String.eqb (leaseId (identity lease)) (leaseId i) &&
  String.eqb (ownerId (identity lease)) (ownerId i) &&
  String.eqb (ownerGeneration (identity lease)) (ownerGeneration i) &&
  String.eqb (reservationGeneration (identity lease)) (reservationGeneration i) &&
  String.eqb (sessionId (identity lease)) (sessionId i) &&
  String.eqb (turnId (identity lease)) (turnId i) &&
  String.eqb (namespace (identity lease)) (namespace i) &&
  String.eqb (role (identity lease)) (role i).

(** ** Row orders *)

(** [ORDER BY created_at, lease_id] and [ORDER BY expires_at, lease_id]. *)
Definition orderBy (key : OwnerFenceLease → Z) (x y : OwnerFenceLease) : Prop :=
  key x < key y ∨ key x = key y ∧ String.leb (leaseId (identity x)) (leaseId (identity y)) = true.

#[export] Instance orderBy_dec key : RelDecision (orderBy key).
Proof. intros x y. unfold orderBy. apply _. Defined.

Section store.
Context (options : OwnerFenceStoreOptions).

(** The order in which SQLite visits the rows of the table: it decides only which of
    several leases retired in the same millisecond a bounded prune takes first. *)
Context (scan : gmap string OwnerFenceLease → list OwnerFenceLease).

Notation N := (M Store ValidationError).

(** The constructor's check of its options. *)
Definition constructorCheck : bool :=
  forallb (λ v, isSafe (Some v) && negb (v <? 1))
    [maxLeaseMs options; clockSkewMs options; legacyGraceMs options; maxLegacyLeaseMs options].

Definition initialize (now : jsint) : N () :=
  let* n := assertSafeTime now "now" in
  modify (λ st,
    let current := foldr Z.max 0 (map_to_list (schemaMigrations st)).*1 in
    if current <? OWNER_FENCE_LEASE_SCHEMA_VERSION
    then {| leases := leases st;
            schemaMigrations := <[OWNER_FENCE_LEASE_SCHEMA_VERSION := n]> (schemaMigrations st) |}
    else st).

Definition lease (id : string) : N (option OwnerFenceLease) :=
  assertText id "leaseId" ;;; gets (λ st, leases st !! id).

(** [WHERE state = 'active' AND expires_at <= now]. *)
Definition isDue (now : Z) (l : OwnerFenceLease) : bool :=
  bool_decide (state l = active) && (expiresAt l <=? now).

Definition retireDue (now : Z) (m : gmap string OwnerFenceLease) : gmap string OwnerFenceLease :=
  (λ l, if isDue now l then retire now l else l) <$> m.

Definition expireDueLeases (now : jsint) : N (list OwnerFenceLease) :=
  let* n := assertSafeTime now "now" in
  let* due := gets (λ st,
    merge_sort (orderBy expiresAt) (filter (λ l, isDue n l = true) (rows (leases st)))) in
  match due with
  | [] => ret []
  | _ => modify (λ st, withLeases (retireDue n (leases st)) st) ;;; ret (retire n <$> due)
  end.

Definition activeRows (m : gmap string OwnerFenceLease) : list OwnerFenceLease :=
  filter (λ l, state l = active) (rows m).

Definition activeLease (id : string) (now : jsint) : N (option OwnerFenceLease) :=
  expireDueLeases now ;;;
  let* found := lease id in
  ret (match found with
       | Some l => if bool_decide (state l = active) then Some l else None
       | None => None
       end).

Definition activeLeases (now : jsint) : N (list OwnerFenceLease) :=
  expireDueLeases now ;;;
  gets (λ st, merge_sort (orderBy createdAt) (activeRows (leases st))).

Definition activeLeaseCount (now : jsint) : N Z :=
  expireDueLeases now ;;; gets (λ st, Z.of_nat (length (activeRows (leases st)))).

(** A caller's expiry, clamped to this object's bounds, tolerating a caller clock that
    runs ahead by up to the configured skew. *)
Definition boundedExpiry (expires now : jsint) (maxMs : Z) : N Z :=
  let* n := assertSafeTime now "now" in
  let* e := assertSafeTime expires "expiresAt" in
  if (e <=? n) || (n + maxMs + clockSkewMs options <? e) then throw "expiresAt"
  else ret (Z.min e (n + maxMs)).

Definition newLease (i : OwnerFenceLeaseIdentity) (expires now : Z) : OwnerFenceLease := {|
  identity := i; state := active; expiresAt := expires; createdAt := now; renewedAt := now;
  retiredAt := None;
|}.

(** [boundedExpiry] has validated [now] when it is used as an integer. *)
Definition registerLeaseExactBounded (i : OwnerFenceLeaseIdentity) (expires now : jsint)
    (maxMs : Z) : N OwnerFenceLeaseRegistrationResult :=
  assertIdentity i ;;;
  let* bounded := boundedExpiry expires now maxMs in
  expireDueLeases now ;;;
  let* existing := lease (leaseId i) in
  match existing with
  | Some l =>
      if negb (exactIdentityMatches l i) then ret (LeaseIdConflict l)
      else if negb (bool_decide (state l = active)) then ret (LeaseRetired l)
      else ret (Replayed l)
  | None =>
      let l := newLease i bounded (default 0 now) in
      modify (λ st, withLeases (<[leaseId i := l]> (leases st)) st) ;;;
      ret (Registered l)
  end.

Definition registerLeaseExact (i : OwnerFenceLeaseIdentity) (expires now : jsint) :
    N OwnerFenceLeaseRegistrationResult :=
  registerLeaseExactBounded i expires now (maxLeaseMs options).

Definition updateLease (id : string) (f : OwnerFenceLease → OwnerFenceLease) : N () :=
  modify (λ st, withLeases (alter f id (leases st)) st).

Definition renewLeaseExact (i : OwnerFenceLeaseIdentity) (expires now : jsint) :
    N OwnerFenceLeaseMutationResult :=
  assertIdentity i ;;;
  let* bounded := boundedExpiry expires now (maxLeaseMs options) in
  let n := default 0 now in
  let* existing := lease (leaseId i) in
  match existing with
  | None => ret Missing
  | Some l =>
      if negb (exactIdentityMatches l i) then ret (IdentityMismatch l)
      else if bool_decide (state l = retired) then ret (AlreadyRetired l)
      else if expiresAt l <=? n
      then updateLease (leaseId i) (λ l, if isDue n l then retire n l else l) ;;;
           let* after := lease (leaseId i) in
           ret (Expired (default l after))
      else updateLease (leaseId i)
             (λ l, if bool_decide (state l = active) then renew bounded n l else l) ;;;
           let* after := lease (leaseId i) in
           ret (Renewed (default l after))
  end.

Definition retireLeaseExact (i : OwnerFenceLeaseIdentity) (now : jsint) :
    N OwnerFenceLeaseMutationResult :=
  assertIdentity i ;;;
  let* n := assertSafeTime now "now" in
  let* existing := lease (leaseId i) in
  match existing with
  | None => ret Missing
  | Some l =>
      if negb (exactIdentityMatches l i) then ret (IdentityMismatch l)
      else if bool_decide (state l = retired) then ret (AlreadyRetired l)
      else updateLease (leaseId i)
             (λ l, if bool_decide (state l = active) then retire n l else l) ;;;
           let* after := lease (leaseId i) in
           ret (RetiredNow (default l after))
  end.

Definition nextExpiry (st : Store) : option Z :=
  list_min (expiresAt <$> activeRows (leases st)).

(** ** Legacy mirror *)

Record MigrationCounts := {
  inserted : Z;
  replayed : Z;
  expired : Z;
  invalid : list string;
  conflicts : list string;
}.

Definition noCounts : MigrationCounts :=
  {| inserted := 0; replayed := 0; expired := 0; invalid := []; conflicts := [] |}.

Definition addInvalid (id : string) (c : MigrationCounts) : MigrationCounts :=
  {| inserted := inserted c; replayed := replayed c; expired := expired c;
     invalid := invalid c ++ [id]; conflicts := conflicts c |}.

Definition addExpired (c : MigrationCounts) : MigrationCounts :=
  {| inserted := inserted c; replayed := replayed c; expired := expired c + 1;
     invalid := invalid c; conflicts := conflicts c |}.

Definition addResult (id : string) (r : OwnerFenceLeaseRegistrationResult)
    (c : MigrationCounts) : MigrationCounts :=
  match r with
  | Registered _ => {| inserted := inserted c + 1; replayed := replayed c; expired := expired c;
                       invalid := invalid c; conflicts := conflicts c |}
  | Replayed _ => {| inserted := inserted c; replayed := replayed c + 1; expired := expired c;
                     invalid := invalid c; conflicts := conflicts c |}
  | LeaseIdConflict _ | LeaseRetired _ =>
      {| inserted := inserted c; replayed := replayed c; expired := expired c;
         invalid := invalid c; conflicts := conflicts c ++ [id] |}
  end.

(** [legacy.ownerGeneration] is falsy when absent or empty. *)
Definition legacyInvalid (mapLeaseId : string) (legacy : LegacyOwnerFenceLease) : bool :=
  negb (String.eqb mapLeaseId (legacyLeaseId legacy)) ||
  (match legacyOwnerGeneration legacy with Some g => String.eqb g EmptyString | None => true end) ||
  negb (bool_decide (legacyNamespace legacy ∈ NAMESPACES)) ||
  negb (bool_decide (legacyRole legacy ∈ ROLES)).

Definition legacyExpired (now : Z) (legacy : LegacyOwnerFenceLease) : bool :=
  match legacyExpiresAt legacy with
  | Some v => negb (isSafe v) || (default 0 v <=? now)
  | None => false
  end.

Definition legacyExpiry (now : Z) (legacy : LegacyOwnerFenceLease) : Z :=
  Z.min (match legacyExpiresAt legacy with
         | Some v => default 0 v
         | None => now + legacyGraceMs options
         end)
        (now + maxLegacyLeaseMs options).

Definition legacyIdentity (owner fenceGeneration : string) (legacy : LegacyOwnerFenceLease) :
    OwnerFenceLeaseIdentity := {|
  leaseId := legacyLeaseId legacy; ownerId := owner;
  ownerGeneration := default EmptyString (legacyOwnerGeneration legacy);
  reservationGeneration := default fenceGeneration (legacyReservationGeneration legacy);
  sessionId := legacySessionId legacy; turnId := legacyTurnId legacy;
  namespace := legacyNamespace legacy; role := legacyRole legacy;
|}.

(** One entry of the loop: the catch turns a validation error into [invalid], and the
    writes of the failed call stay. *)
Definition migrateEntry (owner fenceGeneration : string) (now : Z)
    (entry : string * LegacyOwnerFenceLease) (s : Store * MigrationCounts) :
    Store * MigrationCounts :=
  let '(st, c) := s in
  let '(id, legacy) := entry in
  if legacyInvalid id legacy then (st, addInvalid id c)
  else if legacyExpired now legacy then (st, addExpired c)
  else match registerLeaseExactBounded (legacyIdentity owner fenceGeneration legacy)
               (Some (legacyExpiry now legacy)) (Some now) (maxLegacyLeaseMs options) st with
  | (st', inl _) => (st', addInvalid id c)
  | (st', inr r) => (st', addResult id r c)
  end.

(** [entries] are the entries of the map in the order of [localeCompare]. *)
Definition migrateLegacyActiveMirror (owner fenceGeneration : string)
    (entries : list (string * LegacyOwnerFenceLease)) (now : jsint) : N MigrationCounts :=
  assertText owner "ownerId" ;;;
  assertText fenceGeneration "fenceGeneration" ;;;
  let* n := assertSafeTime now "now" in
  λ st, let '(st', c) := foldl (λ s e, migrateEntry owner fenceGeneration n e s)
                           (st, noCounts) entries in (st', inr c).

Definition ownerFenceLeaseToLegacyLease (l : OwnerFenceLease) : LegacyOwnerFenceLease := {|
  legacyLeaseId := leaseId (identity l); legacySessionId := sessionId (identity l);
  legacyTurnId := turnId (identity l); legacyNamespace := namespace (identity l);
  legacyRole := role (identity l);
  legacyOwnerGeneration := Some (ownerGeneration (identity l));
  legacyReservationGeneration := Some (reservationGeneration (identity l));
  legacyExpiresAt := Some (Some (expiresAt l));
|}.

Inductive MirrorResult : Type :=
  | Complete (mirror : list (string * LegacyOwnerFenceLease))
  | TooManyActiveLeases (activeCount maxEntries : Z).

Definition boundedLegacyActiveMirror (now maxEntries : jsint) : N MirrorResult :=
  match maxEntries with
  | Some limit =>
      if negb (isSafe maxEntries) || (limit <? 1) then throw "maxEntries"
      else
        let* found := activeLeases now in
        if limit <? Z.of_nat (length found)
        then ret (TooManyActiveLeases (Z.of_nat (length found)) limit)
        else ret (Complete ((λ l, (leaseId (identity l), ownerFenceLeaseToLegacyLease l)) <$> found))
  | None => throw "maxEntries"
  end.

(** ** Pruning *)

(** [WHERE state = 'retired' AND retired_at IS NOT NULL AND retired_at <= cutoff]. *)
Definition prunable (cutoff : Z) (l : OwnerFenceLease) : bool :=
  bool_decide (state l = retired) &&
  match retiredAt l with Some t => t <=? cutoff | None => false end.

Definition retiredBefore (x y : OwnerFenceLease) : Prop :=
  default 0 (retiredAt x) ≤ default 0 (retiredAt y).

#[export] Instance retiredBefore_dec : RelDecision retiredBefore.
Proof. intros x y. unfold retiredBefore. apply _. Defined.

(** [ORDER BY retired_at LIMIT ?]. *)
Definition pruneVictims (cutoff limit : Z) (m : gmap string OwnerFenceLease) :
    list OwnerFenceLease :=
  take (Z.to_nat limit)
    (merge_sort retiredBefore (filter (λ l, prunable cutoff l = true) (scan m))).

Definition pruneRetiredLeases (now retainMs limit : jsint) : N () :=
  let* n := assertSafeTime now "now" in
  match retainMs with
  | Some retain =>
      if negb (isSafe retainMs) || (retain <? 1) then throw "retainMs"
      else match limit with
      | Some k =>
          if negb (isSafe limit) || (k <? 1) then throw "limit"
          else modify (λ st, withLeases
            (filter (λ kv, kv.1 ∉ (λ l, leaseId (identity l)) <$>
                                  pruneVictims (n - retain) k (leases st)) (leases st)) st)
      | None => throw "limit"
      end
  | None => throw "retainMs"
  end.
End store.

(** ** What each operation does to a lease *)

(** A lease keeps its identity and creation time, and is final once retired. *)
Definition keeps (l l' : OwnerFenceLease) : Prop :=
  identity l' = identity l ∧ createdAt l' = createdAt l ∧ (state l = retired → l' = l).

#[export] Instance keeps_preorder : PreOrder keeps.
Proof.
  split; [by intros l|]. intros l1 l2 l3 (H1 & H2 & H3) (H4 & H5 & H6).
  split; [congruence|]. split; [congruence|]. intros Hr. specialize (H3 Hr). subst l2. by apply H6.
Qed.

(** Every lease of [st] is in [st'], kept. *)
Definition evolves (st st' : Store) : Prop :=
  ∀ id l, leases st !! id = Some l → ∃ l', leases st' !! id = Some l' ∧ keeps l l'.

#[export] Instance evolves_preorder : PreOrder evolves.
Proof.
  split.
  - intros st id l Hl. by exists l.
  - intros s1 s2 s3 H12 H23 id l Hl. destruct (H12 id l Hl) as (l2 & Hl2 & Hk).
    destruct (H23 id l2 Hl2) as (l3 & Hl3 & Hk3). exists l3. split; [done|by etrans].
Qed.

Lemma assertText_readonly v f : readonly (S:=Store) (assertText v f).
Proof. intros s. unfold assertText. by case_match. Qed.

Lemma assertSafeTime_readonly v f : readonly (S:=Store) (assertSafeTime v f).
Proof. intros s. unfold assertSafeTime. by repeat case_match. Qed.

Lemma assertIdentity_readonly i : readonly (S:=Store) (assertIdentity i).
Proof.
  unfold assertIdentity. repeat (apply readonly_bind; [apply assertText_readonly|intros _]).
  intros s. by repeat case_match.
Qed.

Lemma lease_readonly id : readonly (lease id).
Proof. apply readonly_bind; [apply assertText_readonly|done]. Qed.

Lemma boundedExpiry_readonly options e now maxMs : readonly (boundedExpiry options e now maxMs).
Proof.
  apply readonly_bind; [apply assertSafeTime_readonly|intros n].
  apply readonly_bind; [apply assertSafeTime_readonly|intros x]. intros s. by case_match.
Qed.

#[export] Hint Resolve assertText_readonly assertSafeTime_readonly assertIdentity_readonly
  lease_readonly boundedExpiry_readonly : stella.

Lemma assertSafeTime_spec {S} v f (s : S) n :
  snd (assertSafeTime v f s) = inr n → v = Some n ∧ 0 ≤ n ≤ MAX_SAFE_INTEGER.
Proof.
  unfold assertSafeTime, isSafe. destruct v as [z|]; [|done].
  destruct (_ && _) eqn:E; [|done]. intros [= <-]. bool_to_prop. split; [done|lia].
Qed.

Lemma boundedExpiry_spec options e now maxMs s b :
  1 ≤ maxMs → snd (boundedExpiry options e now maxMs s) = inr b →
  ∃ n, now = Some n ∧ 0 ≤ n ∧ n < b ≤ n + maxMs.
Proof.
  intros Hmax. unfold boundedExpiry, bind.
  destruct (assertSafeTime now "now" s) as [s1 [?|n]] eqn:E1; [done|].
  destruct (assertSafeTime e "expiresAt" s1) as [s2 [?|x]] eqn:E2; [done|].
  apply (f_equal snd) in E1 as [-> Hn]%assertSafeTime_spec.
  destruct (_ || _) eqn:E; [done|]. intros [= <-]. bool_to_prop. exists n. split; [done|lia].
Qed.

(** [lease] returns the row, if the id is well-formed. *)
Lemma lease_result id s x : snd (lease id s) = inr x → x = leases s !! id.
Proof.
  unfold lease, assertText, bind. destruct (validText id); simpl; [by intros [= <-]|done].
Qed.

Section evolution.
Context (options : OwnerFenceStoreOptions).

(** Updating rows in place by a map that keeps leases. *)
Lemma evolves_alter f id st :
  (∀ l, keeps l (f l)) → evolves st (withLeases (alter f id (leases st)) st).
Proof.
  intros Hf k l Hl. simpl. destruct (decide (k = id)) as [->|].
  - rw lookup_alter_eq Hl. exists (f l). split; [done|apply Hf].
  - rw lookup_alter_ne //. by exists l.
Qed.

Lemma evolves_fmap f st :
  (∀ l, keeps l (f l)) → evolves st (withLeases (f <$> leases st) st).
Proof. intros Hf k l Hl. simpl. rw lookup_fmap Hl. exists (f l). split; [done|apply Hf]. Qed.

Lemma evolves_insert i l st :
  leases st !! i = None → evolves st (withLeases (<[i := l]> (leases st)) st).
Proof.
  intros Hi k l' Hl'. simpl. assert (i ≠ k) by congruence. rw lookup_insert_ne //. by exists l'.
Qed.

Lemma keeps_retire_active n l (b : bool) :
  (b = true → state l = active) → keeps l (if b then retire n l else l).
Proof. intros Hb. destruct b; [|done]. split; [done|]. split; [done|]. by rw Hb. Qed.

Lemma keeps_retireDue n l : keeps l (if isDue n l then retire n l else l).
Proof. apply keeps_retire_active. unfold isDue. intros. by bool_to_prop. Qed.

Lemma expireDueLeases_evolves now : preserves evolves (expireDueLeases now).
Proof.
  unfold expireDueLeases. preserve.
  apply preserves_modify. intros s. apply evolves_fmap. intros l. apply keeps_retireDue.
Qed.

Lemma registerLeaseExactBounded_evolves i e now maxMs :
  preserves evolves (registerLeaseExactBounded options i e now maxMs).
Proof.
  do 3 (apply preserves_bind; [apply _|apply expireDueLeases_evolves || preserve|intros ?]).
  apply preserves_bind_result; [apply _|preserve|]. intros s y Hy%lease_result. rw lease_readonly.
  destruct y as [l|]; [by repeat case_match|].
  unfold bind, modify, ret. simpl. by apply evolves_insert.
Qed.

Lemma updateLease_evolves id f :
  (∀ l, keeps l (f l)) → preserves evolves (updateLease id f).
Proof. intros Hf. apply preserves_modify. intros s. by apply evolves_alter. Qed.

Lemma keeps_retire_if_active n l :
  keeps l (if bool_decide (state l = active) then retire n l else l).
Proof. apply keeps_retire_active. intros. by bool_to_prop. Qed.

Lemma keeps_renew_if_active b n l :
  keeps l (if bool_decide (state l = active) then renew b n l else l).
Proof. case_bool_decide as Ha; [|done]. split; [done|]. split; [done|]. by rw Ha. Qed.

Lemma renewLeaseExact_evolves i e now : preserves evolves (renewLeaseExact options i e now).
Proof.
  unfold renewLeaseExact. preserve; apply updateLease_evolves;
    intros; [apply keeps_retireDue|apply keeps_renew_if_active].
Qed.

Lemma retireLeaseExact_evolves i now : preserves evolves (retireLeaseExact i now).
Proof.
  unfold retireLeaseExact. preserve; apply updateLease_evolves.
  intros; apply keeps_retire_if_active.
Qed.
End evolution.

(** ** Well-formed stores *)

Definition validIdentity (i : OwnerFenceLeaseIdentity) : Prop :=
  Forall (λ s, validText s = true)
    [leaseId i; ownerId i; ownerGeneration i; reservationGeneration i; sessionId i; turnId i] ∧
  namespace i ∈ NAMESPACES ∧ role i ∈ ROLES.

Definition maxLife (options : OwnerFenceStoreOptions) : Z :=
  Z.max (maxLeaseMs options) (maxLegacyLeaseMs options).

Definition lease_ok (options : OwnerFenceStoreOptions) (id : string) (l : OwnerFenceLease) : Prop :=
  leaseId (identity l) = id ∧ validIdentity (identity l) ∧
  renewedAt l < expiresAt l ≤ renewedAt l + maxLife options ∧
  match state l with active => retiredAt l = None | retired => is_Some (retiredAt l) end.

Definition WF (options : OwnerFenceStoreOptions) (st : Store) : Prop :=
  map_Forall (lease_ok options) (leases st).

Definition keepsWF (options : OwnerFenceStoreOptions) (s s' : Store) : Prop :=
  WF options s → WF options s'.

#[export] Instance keepsWF_preorder options : PreOrder (keepsWF options).
Proof. split; [by intros s Hs|]. intros s1 s2 s3 H12 H23 H. by apply H23, H12. Qed.

Lemma assertText_ok {S} v f (s : S) : snd (assertText v f s) = inr () → validText v = true.
Proof. unfold assertText. by case_match. Qed.

Lemma assertText_run {S} v f (s : S) : validText v = true → assertText v f s = (s, inr ()).
Proof. unfold assertText. by intros ->. Qed.

Lemma assertText_bind {S A} v f (k : M S ValidationError A) s x :
  snd ((assertText v f ;;; k) s) = inr x ↔ validText v = true ∧ snd (k s) = inr x.
Proof. unfold bind, assertText. destruct (validText v); split; by [|intros []]. Qed.

Lemma assertIdentity_ok {S} i (s : S) : snd (assertIdentity i s) = inr () ↔ validIdentity i.
Proof.
  unfold assertIdentity, validIdentity. rw !assertText_bind !Forall_cons Forall_nil.
  assert (snd ((if negb (bool_decide (namespace i ∈ NAMESPACES)) then throw "namespace" else
     if negb (bool_decide (role i ∈ ROLES)) then throw "role" else ret () : M S ValidationError ()) s)
     = inr () ↔ namespace i ∈ NAMESPACES ∧ role i ∈ ROLES) as ->; [|tauto].
  do 2 case_bool_decide; simpl; split; try done; tauto.
Qed.

Lemma assertIdentity_run {S} i (s : S) : validIdentity i → assertIdentity i s = (s, inr ()).
Proof.
  intros Hi%(assertIdentity_ok _ s).
  assert (fst (assertIdentity i s) = s) as Hs.
  { unfold assertIdentity, bind, assertText. clear.
    destruct (validText (leaseId i)), (validText (ownerId i)), (validText (ownerGeneration i)),
      (validText (reservationGeneration i)), (validText (sessionId i)), (validText (turnId i));
      try done. simpl. by do 2 case_bool_decide. }
  destruct (assertIdentity i s) as [s' [e|[]]]; simpl in *; by subst.
Qed.

Lemma exactIdentityMatches_spec l i : exactIdentityMatches l i = true ↔ identity l = i.
Proof.
  unfold exactIdentityMatches. rw !andb_true_iff !String.eqb_eq.
  destruct (identity l), i; simpl. split; [intros; destruct_and?; congruence|by intros [=]].
Qed.

Section wf.
Context (options : OwnerFenceStoreOptions) (Hoptions : constructorCheck options = true).

Lemma options_positive : 1 ≤ maxLeaseMs options ∧ 1 ≤ maxLegacyLeaseMs options ∧
  1 ≤ legacyGraceMs options ∧ 1 ≤ clockSkewMs options.
Proof. revert Hoptions. unfold constructorCheck; simpl. intros H. bool_to_prop. lia. Qed.

Lemma retire_ok id n l : lease_ok options id l → lease_ok options id (retire n l).
Proof. intros (?&?&?&?). do 3 (split; [done|]). by eexists. Qed.

Lemma expireDueLeases_WF now : preserves (keepsWF options) (expireDueLeases now).
Proof.
  unfold expireDueLeases. preserve. apply preserves_modify. intros s HW id l Hl.
  simpl in Hl. unfold retireDue in Hl. rw lookup_fmap in Hl.
  apply fmap_Some in Hl as (l0 & Hl0 & ->). specialize (HW _ _ Hl0).
  case_match; [by apply retire_ok|done].
Qed.

Lemma newLease_ok i b n maxMs :
  validIdentity i → n < b ≤ n + maxMs → maxMs ≤ maxLife options →
  lease_ok options (leaseId i) (newLease i b n).
Proof. intros Hi Hb Hm. do 2 (split; [done|]). split; [simpl; lia|done]. Qed.

Lemma registerLeaseExactBounded_WF i e now maxMs :
  1 ≤ maxMs ≤ maxLife options →
  preserves (keepsWF options) (registerLeaseExactBounded options i e now maxMs).
Proof.
  intros Hm.
  apply preserves_bind_result; [apply _|preserve|]. intros s [] Hid%assertIdentity_ok.
  rw assertIdentity_readonly. revert s.
  apply preserves_bind_result; [apply _|preserve|]. intros s b Hb.
  apply boundedExpiry_spec in Hb as (n & -> & Hn & Hb); [|lia].
  rw boundedExpiry_readonly. revert s.
  apply preserves_bind; [apply _|apply expireDueLeases_WF|intros _].
  preserve. apply preserves_modify. intros s HW. apply map_Forall_insert_2; [|done].
  apply (newLease_ok _ _ _ maxMs); [done|done|lia].
Qed.

Lemma updateLease_WF id f :
  (∀ l, lease_ok options id l → lease_ok options id (f l)) →
  preserves (keepsWF options) (updateLease id f).
Proof.
  intros Hf. apply preserves_modify. intros s HW k l Hl. simpl in Hl.
  destruct (decide (k = id)) as [->|].
  - rw lookup_alter_eq in Hl. apply fmap_Some in Hl as (l0 & Hl0 & ->). by apply Hf, HW.
  - rw lookup_alter_ne // in Hl. by apply HW.
Qed.

Lemma renewLeaseExact_WF i e now : preserves (keepsWF options) (renewLeaseExact options i e now).
Proof.
  pose proof options_positive. unfold renewLeaseExact.
  apply preserves_bind; [apply _|preserve|intros _].
  apply preserves_bind_result; [apply _|preserve|]. intros s b Hb.
  apply boundedExpiry_spec in Hb as (n & -> & Hn & Hb); [|lia].
  rw boundedExpiry_readonly. revert s. preserve; apply updateLease_WF; intros l Hl.
  - case_match; [by apply retire_ok|done].
  - case_bool_decide; [|done]. destruct Hl as (?&?&?&?). do 2 (split; [done|]). split; [simpl; unfold maxLife; lia|done].
Qed.

Lemma retireLeaseExact_WF i now : preserves (keepsWF options) (retireLeaseExact i now).
Proof.
  unfold retireLeaseExact. preserve. apply updateLease_WF. intros l Hl.
  case_match; [by apply retire_ok|done].
Qed.

Lemma migrateEntry_WF owner gen n entry st c :
  WF options st → WF options (fst (migrateEntry options owner gen n entry (st, c))).
Proof.
  pose proof options_positive. intros HW. unfold migrateEntry. destruct entry as [id legacy].
  destruct (legacyInvalid id legacy); [done|]. destruct (legacyExpired n legacy); [done|].
  pose proof (registerLeaseExactBounded_WF (legacyIdentity owner gen legacy)
    (Some (legacyExpiry options n legacy)) (Some n) (maxLegacyLeaseMs options)) as Hr.
  assert (1 ≤ maxLegacyLeaseMs options ≤ maxLife options) as Hm by (unfold maxLife; lia).
  specialize (Hr Hm st HW).
  by destruct (registerLeaseExactBounded _ _ _ _ _ _) as [st' [|]].
Qed.

Lemma migrateEntry_evolves owner gen n entry st c :
  evolves st (fst (migrateEntry options owner gen n entry (st, c))).
Proof.
  unfold migrateEntry. destruct entry as [id legacy].
  destruct (legacyInvalid id legacy); [done|]. destruct (legacyExpired n legacy); [done|].
  pose proof (registerLeaseExactBounded_evolves options (legacyIdentity owner gen legacy)
    (Some (legacyExpiry options n legacy)) (Some n) (maxLegacyLeaseMs options) st) as Hr.
  by destruct (registerLeaseExactBounded _ _ _ _ _ _) as [st' [|]].
Qed.

(** A fold over entries relates the stores when each entry does. *)
Lemma foldl_migrate (R : Store → Store → Prop) `{!PreOrder R} owner gen n entries s :
  (∀ e st c, R st (fst (migrateEntry options owner gen n e (st, c)))) →
  R (fst s) (fst (foldl (λ s e, migrateEntry options owner gen n e s) s entries)).
Proof.
  intros HR. revert s. induction entries as [|e entries IH]; intros [st c]; simpl; [done|].
  etrans; [apply (HR e st c)|apply IH].
Qed.

Lemma migrate_preserves (R : Store → Store → Prop) (HR : PreOrder R) owner gen entries now :
  (∀ n e st c, R st (fst (migrateEntry options owner gen n e (st, c)))) →
  preserves R (migrateLegacyActiveMirror options owner gen entries now).
Proof.
  intros Hstep. unfold migrateLegacyActiveMirror. preserve. intros s.
  pose proof (foldl_migrate R owner gen x1 entries (s, noCounts) (Hstep x1)) as H.
  by destruct (foldl _ _ entries) as [st' c'].
Qed.
End wf.

(** ** Pruning *)

Section prune.
Context (scan : gmap string OwnerFenceLease → list OwnerFenceLease).
Context (Hscan : ∀ m, scan m ≡ₚ rows m).

Lemma retiredBefore_total : Total retiredBefore.
Proof. intros x y. unfold retiredBefore. lia. Qed.

Lemma retiredBefore_trans : Transitive retiredBefore.
Proof. intros x y z. unfold retiredBefore. lia. Qed.

Definition sortedCandidates (cutoff : Z) (m : gmap string OwnerFenceLease) :
    list OwnerFenceLease :=
  merge_sort retiredBefore (filter (λ l, prunable cutoff l = true) (scan m)).

Lemma sortedCandidates_perm cutoff m :
  sortedCandidates cutoff m ≡ₚ filter (λ l, prunable cutoff l = true) (rows m).
Proof. unfold sortedCandidates. rw merge_sort_Permutation. by rw (Hscan m). Qed.

Lemma pruneVictims_candidates cutoff limit m :
  pruneVictims scan cutoff limit m = take (Z.to_nat limit) (sortedCandidates cutoff m).
Proof. done. Qed.

Lemma pruneVictims_elem cutoff limit m l :
  l ∈ pruneVictims scan cutoff limit m → prunable cutoff l = true ∧ ∃ id, m !! id = Some l.
Proof.
  intros Hl. assert (l ∈ sortedCandidates cutoff m) as Hin.
  { unfold pruneVictims in Hl. apply (subseteq_take (Z.to_nat limit)). exact Hl. }
  rw sortedCandidates_perm list_elem_of_filter elem_of_rows in Hin. tauto.
Qed.

(** What a limit leaves behind was retired no earlier than what it takes. *)
Lemma pruneVictims_oldest cutoff limit m l l' :
  l ∈ pruneVictims scan cutoff limit m → l' ∈ sortedCandidates cutoff m →
  l' ∉ pruneVictims scan cutoff limit m → retiredBefore l l'.
Proof.
  pose proof retiredBefore_total. pose proof retiredBefore_trans.
  intros Hl Hl' Hn. unfold pruneVictims in *. fold (sortedCandidates cutoff m) in *.
  assert (Hs : StronglySorted retiredBefore (sortedCandidates cutoff m))
    by (unfold sortedCandidates; by apply StronglySorted_merge_sort).
  rw -(take_drop (Z.to_nat limit) (sortedCandidates cutoff m)) in Hs Hl'.
  apply elem_of_app in Hl' as [?|Hd]; [done|].
  by eapply StronglySorted_app_1_elem_of.
Qed.
End prune.

(** ** Traces *)

Inductive op : Type :=
  | OpRegister (i : OwnerFenceLeaseIdentity) (expires now : jsint)
  | OpRenew (i : OwnerFenceLeaseIdentity) (expires now : jsint)
  | OpRetire (i : OwnerFenceLeaseIdentity) (now : jsint)
  | OpExpire (now : jsint)
  | OpMigrate (owner fenceGeneration : string) (entries : list (string * LegacyOwnerFenceLease))
      (now : jsint)
  | OpPrune (now retainMs limit : jsint).

Section traces.
Context (options : OwnerFenceStoreOptions).
Context (scan : gmap string OwnerFenceLease → list OwnerFenceLease).

Definition exec (st : Store) (o : op) : Store :=
  match o with
  | OpRegister i e now => fst (registerLeaseExact options i e now st)
  | OpRenew i e now => fst (renewLeaseExact options i e now st)
  | OpRetire i now => fst (retireLeaseExact i now st)
  | OpExpire now => fst (expireDueLeases now st)
  | OpMigrate owner g entries now => fst (migrateLegacyActiveMirror options owner g entries now st)
  | OpPrune now retain limit => fst (pruneRetiredLeases scan now retain limit st)
  end.

Definition run (ops : list op) (st : Store) : Store := foldl exec st ops.

Definition isPrune (o : op) : bool := match o with OpPrune _ _ _ => true | _ => false end.

(** The age from which a prune may take a retired lease. *)
Definition pruneCutoff (o : op) : option Z :=
  match o with OpPrune (Some n) (Some retain) _ => Some (n - retain) | _ => None end.

Lemma exec_evolves st o : isPrune o = false → evolves st (exec st o).
Proof.
  destruct o; simpl; intros Hp; try done.
  - apply registerLeaseExactBounded_evolves.
  - apply renewLeaseExact_evolves.
  - apply retireLeaseExact_evolves.
  - apply expireDueLeases_evolves.
  - apply migrate_preserves; [apply _|]. intros. apply migrateEntry_evolves.
Qed.

(** A prune either did nothing or deleted its victims. *)
Lemma prune_cases now retain limit st :
  fst (pruneRetiredLeases scan now retain limit st) = st ∨
  ∃ n r k, now = Some n ∧ retain = Some r ∧ limit = Some k ∧ 1 ≤ r ∧ 1 ≤ k ∧
    fst (pruneRetiredLeases scan now retain limit st) =
    withLeases (filter (λ kv, kv.1 ∉ (λ l, leaseId (identity l)) <$>
      pruneVictims scan (n - r) k (leases st)) (leases st)) st.
Proof.
  unfold pruneRetiredLeases, bind.
  destruct (assertSafeTime now "now" st) as [s [?|n]] eqn:E.
  { left. simpl. apply (f_equal fst) in E. by rw assertSafeTime_readonly in E. }
  pose proof (f_equal snd E) as [-> Hn]%assertSafeTime_spec.
  apply (f_equal fst) in E. rw assertSafeTime_readonly /= in E. subst s.
  destruct retain as [r|]; [|by left]. destruct (_ || _) eqn:Er; [by left|].
  destruct limit as [k|]; [|by left]. destruct (negb (isSafe (Some k)) || _) eqn:Ek; [by left|].
  bool_to_prop. right. exists n, r, k. repeat split; try done; lia.
Qed.

Lemma exec_WF st o :
  constructorCheck options = true → WF options st → WF options (exec st o).
Proof.
  intros Hopt HW. destruct o; simpl.
  - apply registerLeaseExactBounded_WF; try done. pose proof (options_positive _ Hopt).
    unfold maxLife. lia.
  - by apply renewLeaseExact_WF.
  - by apply retireLeaseExact_WF.
  - by apply expireDueLeases_WF.
  - revert HW. apply (migrate_preserves options (keepsWF options)); [apply _|]. intros ? ? ? ? HW.
    by apply migrateEntry_WF.
  - destruct (prune_cases now retainMs limit st) as [-> | (n & r & k & _ & _ & _ & _ & _ & ->)];
      [done|]. intros id l [Hl _]%map_lookup_filter_Some. by apply HW.
Qed.

Lemma run_WF ops st :
  constructorCheck options = true → WF options st → WF options (run ops st).
Proof.
  intros Hopt. revert st; induction ops as [|o ops IH]; intros st HW; simpl; [done|].
  by apply IH, exec_WF.
Qed.
End traces.

(** ** Branches of registration *)

Lemma boundedExpiry_accepts options n e maxMs s :
  0 ≤ n ≤ MAX_SAFE_INTEGER → 0 ≤ e ≤ MAX_SAFE_INTEGER →
  n < e ≤ n + maxMs + clockSkewMs options →
  boundedExpiry options (Some e) (Some n) maxMs s = (s, inr (Z.min e (n + maxMs))).
Proof.
  intros Hn He Hle. unfold boundedExpiry, bind, assertSafeTime, isSafe, ret.
  assert (Z.abs n = n) as -> by lia. assert (Z.abs e = e) as -> by lia.
  destruct (n <=? MAX_SAFE_INTEGER) eqn:E1; bool_to_prop; [|lia].
  destruct (n <? 0) eqn:E2; bool_to_prop; [lia|]. simpl.
  destruct (e <=? MAX_SAFE_INTEGER) eqn:E3; bool_to_prop; [|lia].
  destruct (e <? 0) eqn:E4; bool_to_prop; [lia|]. simpl.
  destruct (_ || _) eqn:E5; [|done]. apply orb_true_iff in E5 as [?|?]; bool_to_prop; lia.
Qed.

Lemma expireDueLeases_run n st :
  0 ≤ n ≤ MAX_SAFE_INTEGER →
  ∃ due, expireDueLeases (Some n) st = (withLeases (retireDue n (leases st)) st, inr due).
Proof.
  intros Hn. unfold expireDueLeases, bind, assertSafeTime, isSafe, ret, gets, modify.
  assert (Z.abs n = n) as -> by lia. destruct (n <=? MAX_SAFE_INTEGER) eqn:E1; bool_to_prop; [|lia].
  destruct (n <? 0) eqn:E2; bool_to_prop; [lia|]. simpl.
  destruct (merge_sort _ _) as [|l due] eqn:E; [|eauto].
  exists []. f_equal. destruct st as [m mig]; unfold withLeases; simpl in *. f_equal.
  apply map_eq. intros id. unfold retireDue. rw lookup_fmap.
  destruct (m !! id) as [l|] eqn:Hl; simpl; [|done].
  destruct (isDue n l) eqn:Hd; [|done]. exfalso.
  assert (l ∈ merge_sort (orderBy expiresAt) (filter (λ l, isDue n l = true) (rows m))) as Hin.
  { rw merge_sort_Permutation list_elem_of_filter elem_of_rows. eauto. }
  rw E in Hin. by apply not_elem_of_nil in Hin.
Qed.

Lemma lease_run id st : validText id = true → lease id st = (st, inr (leases st !! id)).
Proof. intros Hv. unfold lease, bind. by rw assertText_run. Qed.

(** The outcome of a well-formed registration, by what is stored under its id. *)
Lemma register_run options i n e maxMs st :
  validIdentity i → 0 ≤ n ≤ MAX_SAFE_INTEGER → 0 ≤ e ≤ MAX_SAFE_INTEGER →
  n < e ≤ n + maxMs + clockSkewMs options →
  let m := retireDue n (leases st) in
  let st1 := withLeases m st in
  let new := newLease i (Z.min e (n + maxMs)) n in
  registerLeaseExactBounded options i (Some e) (Some n) maxMs st =
  match m !! leaseId i with
  | None => (withLeases (<[leaseId i := new]> m) st, inr (Registered new))
  | Some l =>
      (st1, inr (if negb (bool_decide (identity l = i)) then LeaseIdConflict l
                 else if bool_decide (state l = retired) then LeaseRetired l
                 else Replayed l))
  end.
Proof.
  intros Hi Hn He Hle m st1 new. unfold registerLeaseExactBounded, bind.
  rw assertIdentity_run // boundedExpiry_accepts //.
  destruct (expireDueLeases_run n st Hn) as [due ->]. fold m st1.
  assert (Hv : validText (leaseId i) = true) by by destruct Hi as [Hi _]; inversion Hi.
  rw lease_run //. change (leases st1) with m. destruct (m !! leaseId i) as [l|]; [|done].
  destruct (exactIdentityMatches l i) eqn:Hx; simpl.
  - apply exactIdentityMatches_spec in Hx. rw (bool_decide_eq_true_2 _ Hx) /=.
    by destruct (state l).
  - rw (bool_decide_eq_false_2 (identity l = i)) //. intros Hid%exactIdentityMatches_spec.
    congruence.
Qed.

(** ** Properties *)

(** C30: a lease id stays bound to one identity.  Whatever registrations, renewals,
    retirements, expirations, migrations and prunes run, a stored lease either is
    still there with its identity and creation time, unchanged if it had been retired,
    or was retired and deleted by a prune whose retention it had outlived. *)
Theorem fence_lease_identity_is_permanent options scan ops st id l :
  (∀ m, scan m ≡ₚ rows m) → constructorCheck options = true → WF options st →
  leases st !! id = Some l →
  (∃ l', leases (run options scan ops st) !! id = Some l' ∧ keeps l l') ∨
  (∃ ops1 o ops2 l1 cutoff, ops = ops1 ++ o :: ops2 ∧
     leases (run options scan ops1 st) !! id = Some l1 ∧ keeps l l1 ∧
     state l1 = retired ∧ pruneCutoff o = Some cutoff ∧ prunable cutoff l1 = true).
Proof.
  intros Hscan Hopt. revert st l. induction ops as [|o ops IH]; intros st l HW Hl.
  { left. by exists l. }
  assert (Hstep : (∃ l1, leases (exec options scan st o) !! id = Some l1 ∧ keeps l l1) ∨
    (state l = retired ∧ ∃ cutoff, pruneCutoff o = Some cutoff ∧ prunable cutoff l = true)).
  { destruct (isPrune o) eqn:Hp; [|left; by eapply exec_evolves]. destruct o; try done. simpl.
    destruct (prune_cases scan now retainMs limit st)
      as [-> | (n & r & k & -> & -> & -> & _ & _ & ->)]; [left; by exists l|].
    set (gone := (λ l, leaseId (identity l)) <$> pruneVictims scan (n - r) k (leases st)).
    destruct (decide (id ∈ gone)) as [Hin|Hout].
    - right. apply list_elem_of_fmap in Hin as (v & Hv & Hin).
      apply (pruneVictims_elem scan Hscan) in Hin as [Hpr [id' Hid']].
      destruct (HW _ _ Hid') as [Hk _]. assert (id' = id) as -> by congruence.
      assert (v = l) as -> by congruence. unfold prunable in Hpr |- *. bool_to_prop.
      split; [done|]. exists (n - r). split; [done|]. rw bool_decide_eq_true_2 //.
    - left. exists l. split; [|done]. simpl. by apply map_lookup_filter_Some. }
  destruct Hstep as [(l1 & Hl1 & Hk)|(Hr & c & Hc & Hpr)].
  - destruct (IH (exec options scan st o) l1 (exec_WF _ _ _ _ Hopt HW) Hl1)
      as [(l' & Hl' & Hk')|(ops1 & o' & ops2 & l2 & c & -> & Hl2 & Hk2 & Hr & Hc)].
    + left. exists l'. split; [done|by etrans].
    + right. exists (o :: ops1), o', ops2, l2, c. split; [done|]. split; [done|].
      split; [by etrans|done].
  - right. by exists [], o, ops, l, c.
Qed.

(** in every reachable state, the active leases a caller is given have not expired
    and end at most the maximum lease time after their last renewal; a lease whose
    time has come is never handed out as active again. *)
Theorem fence_active_leases_are_live options scan ops st n l found :
  constructorCheck options = true → WF options st →
  snd (activeLeases (Some n) (run options scan ops st)) = inr found → l ∈ found →
  state l = active ∧ n < expiresAt l ≤ renewedAt l + maxLife options ∧
  leases (fst (activeLeases (Some n) (run options scan ops st))) !! leaseId (identity l) = Some l.
Proof.
  intros Hopt HW. pose proof (run_WF options scan ops st Hopt HW) as HW'.
  set (s := run options scan ops st) in *. unfold activeLeases, bind.
  destruct (expireDueLeases (Some n) s) as [s' [?|due]] eqn:E; [done|]. simpl.
  intros [= <-]. rw merge_sort_Permutation. unfold activeRows.
  rw list_elem_of_filter elem_of_rows. intros [Ha [id Hid]].
  assert (Hn : 0 ≤ n ≤ MAX_SAFE_INTEGER).
  { unfold expireDueLeases, bind in E. destruct (assertSafeTime (Some n) "now" s) as [s0 [?|n0]] eqn:E0;
      [done|]. apply (f_equal snd) in E0 as [[= <-] ?]%assertSafeTime_spec. done. }
  destruct (expireDueLeases_run n s Hn) as [due' Hrun]. rw Hrun in E.
  injection E as <- <-. simpl in Hid |- *. unfold retireDue in Hid. rw lookup_fmap in Hid.
  apply fmap_Some in Hid as (l0 & Hl0 & ->). pose proof (HW' _ _ Hl0) as (Hk & _ & Hb & _).
  destruct (isDue n l0) eqn:Hd; [done|]. unfold isDue in Hd.
  rw (bool_decide_eq_true_2 _ Ha) /= in Hd. bool_to_prop.
  split; [done|]. split; [lia|]. unfold retireDue. rw lookup_fmap Hk Hl0 /=.
  assert (isDue n l0 = false) as ->; [|done]. unfold isDue. rw Ha /=. apply Z.leb_gt. lia.
Qed.

(** a registration is exact and retry-safe.  A well-formed request either creates
    the lease it describes, or answers by what its id already holds: the same lease
    again if it is the same identity and active (changing nothing but expiring what is
    due), and a conflict otherwise. *)
Theorem fence_register_outcomes options i n e st :
  validIdentity i → 0 ≤ n ≤ MAX_SAFE_INTEGER → 0 ≤ e ≤ MAX_SAFE_INTEGER →
  n < e ≤ n + maxLeaseMs options + clockSkewMs options →
  let '(st', r) := registerLeaseExact options i (Some e) (Some n) st in
  match leases st !! leaseId i with
  | None => r = inr (Registered (newLease i (Z.min e (n + maxLeaseMs options)) n)) ∧
            leases st' !! leaseId i = Some (newLease i (Z.min e (n + maxLeaseMs options)) n)
  | Some l =>
      let l' := if isDue n l then retire n l else l in
      leases st' = retireDue n (leases st) ∧ leases st' !! leaseId i = Some l' ∧
      r = inr (if negb (bool_decide (identity l = i)) then LeaseIdConflict l'
               else if bool_decide (state l' = retired) then LeaseRetired l' else Replayed l')
  end.
Proof.
  intros Hi Hn He Hle. unfold registerLeaseExact. rw register_run //.
  unfold retireDue at 1. rw lookup_fmap. destruct (leases st !! leaseId i) as [l|] eqn:Hl; simpl.
  - split; [done|]. unfold retireDue. rw lookup_fmap Hl /=. split; [done|].
    by destruct (isDue n l).
  - split; [done|]. by rw lookup_insert_eq.
Qed.

(** a caller whose clock runs ahead by up to the tolerated skew may ask for the
    full maximum lease: the request is accepted, and the lease it gets ends exactly
    the maximum after this object's clock. *)
Theorem fence_skewed_caller_gets_the_maximum options i n skew st :
  validIdentity i → constructorCheck options = true →
  0 ≤ n → 0 ≤ skew ≤ clockSkewMs options →
  n + skew + maxLeaseMs options ≤ MAX_SAFE_INTEGER →
  leases st !! leaseId i = None →
  ∃ st', registerLeaseExact options i (Some (n + skew + maxLeaseMs options)) (Some n) st =
    (st', inr (Registered (newLease i (n + maxLeaseMs options) n))).
Proof.
  intros Hi Hopt Hn Hs Hmax Hl. pose proof (options_positive _ Hopt).
  unfold registerLeaseExact. rw register_run //; try lia.
  unfold retireDue at 1. rw lookup_fmap Hl /=.
  assert (Z.min (n + skew + maxLeaseMs options) (n + maxLeaseMs options) =
          n + maxLeaseMs options) as -> by lia. eauto.
Qed.

(** a bounded prune deletes exactly its victims: retired leases past the retention,
    at most [limit] of them, none retired later than one it leaves behind; every other
    lease is untouched. *)
Theorem fence_prune_takes_the_oldest options scan n retain k st :
  (∀ m, scan m ≡ₚ rows m) → WF options st →
  0 ≤ n ≤ MAX_SAFE_INTEGER → 1 ≤ retain ≤ MAX_SAFE_INTEGER → 1 ≤ k ≤ MAX_SAFE_INTEGER →
  let st' := fst (pruneRetiredLeases scan (Some n) (Some retain) (Some k) st) in
  let victims := pruneVictims scan (n - retain) k (leases st) in
  (∀ id l, leases st' !! id = Some l ↔ leases st !! id = Some l ∧ l ∉ victims) ∧
  Z.of_nat (length victims) ≤ k ∧
  (∀ v, v ∈ victims → prunable (n - retain) v = true) ∧
  (∀ v id l, v ∈ victims → leases st' !! id = Some l → prunable (n - retain) l = true →
     retiredBefore v l).
Proof.
  intros Hscan HW Hn Hr Hk st' victims.
  assert (Hst' : leases st' = filter (λ kv, kv.1 ∉ (λ l, leaseId (identity l)) <$> victims)
                               (leases st)).
  { unfold st', pruneRetiredLeases, bind, assertSafeTime, isSafe, ret, modify, throw.
    assert (Z.abs n = n) as -> by lia. assert (Z.abs retain = retain) as -> by lia.
    assert (Z.abs k = k) as -> by lia.
    destruct (n <=? MAX_SAFE_INTEGER) eqn:?, (n <? 0) eqn:?, (retain <=? MAX_SAFE_INTEGER) eqn:?,
      (retain <? 1) eqn:?, (k <=? MAX_SAFE_INTEGER) eqn:?, (k <? 1) eqn:?; bool_to_prop;
      try lia; done. }
  assert (Hiff : ∀ id l, leases st' !! id = Some l ↔ leases st !! id = Some l ∧ l ∉ victims).
  { intros id l. rw Hst' map_lookup_filter_Some /=. split.
    - intros [Hl Hn']. split; [done|]. intros Hv. apply Hn'. apply list_elem_of_fmap.
      exists l. by destruct (HW _ _ Hl) as [<- _].
    - intros [Hl Hn']. split; [done|]. intros (v & Hid & Hv)%list_elem_of_fmap. apply Hn'.
      pose proof Hv as Hv'. apply (pruneVictims_elem scan Hscan) in Hv' as [_ [id' Hid']].
      destruct (HW _ _ Hid') as [Hk' _]. by assert (l = v) as -> by congruence. }
  split; [done|]. split; [|split].
  - unfold victims, pruneVictims. rw length_take. lia.
  - intros v Hv. by apply (pruneVictims_elem scan Hscan) in Hv as [? _].
  - intros v id l Hv [Hl Hout]%Hiff Hpr. eapply (pruneVictims_oldest scan); [exact Hv| |exact Hout].
    rw (sortedCandidates_perm scan Hscan) list_elem_of_filter elem_of_rows. eauto.
Qed.

(** ** Migration *)

(** [migrateEntry] counts its entry once, whatever happens to it. *)
Definition total (c : MigrationCounts) : Z :=
  inserted c + replayed c + expired c + Z.of_nat (length (invalid c)) +
  Z.of_nat (length (conflicts c)).

Lemma migrateEntry_total options owner g n e s :
  total (snd (migrateEntry options owner g n e s)) = total (snd s) + 1.
Proof.
  unfold migrateEntry. destruct s as [st c], e as [id legacy]; simpl.
  assert (Hi : total (addInvalid id c) = total c + 1).
  { unfold total, addInvalid; simpl. rw length_app /=. lia. }
  destruct (legacyInvalid id legacy); [done|].
  destruct (legacyExpired n legacy); [unfold total, addExpired; simpl; lia|].
  destruct (registerLeaseExactBounded _ _ _ _ _ _) as [st' [err|r]]; [done|]. simpl.
  destruct r; unfold total, addResult; simpl; rw ?length_app /=; lia.
Qed.

Lemma migrate_total options owner g n entries s :
  total (snd (foldl (λ s e, migrateEntry options owner g n e s) s entries)) =
  total (snd s) + Z.of_nat (length entries).
Proof.
  revert s; induction entries as [|e entries IH]; intros s; simpl; [lia|].
  rw IH migrateEntry_total. lia.
Qed.

(** What a migration of the mirror of [l] creates. *)
Definition migrated (options : OwnerFenceStoreOptions) (n : Z) (l : OwnerFenceLease) :
    OwnerFenceLease :=
  newLease (identity l) (Z.min (expiresAt l) (n + maxLegacyLeaseMs options)) n.

(** A mirrored lease of [owner] is a valid entry and registers under its identity. *)
Lemma migrateEntry_mirrored options owner g n l st c :
  constructorCheck options = true → 0 ≤ n → n + maxLegacyLeaseMs options ≤ MAX_SAFE_INTEGER →
  validIdentity (identity l) → ownerId (identity l) = owner →
  n < expiresAt l ≤ MAX_SAFE_INTEGER →
  leases st !! leaseId (identity l) = None →
  map_Forall (λ _ x, isDue n x = false) (leases st) →
  migrateEntry options owner g n
    (leaseId (identity l), ownerFenceLeaseToLegacyLease l) (st, c) =
  (withLeases (<[leaseId (identity l) := migrated options n l]> (leases st)) st,
   addResult (leaseId (identity l)) (Registered (migrated options n l)) c).
Proof.
  intros Hopt Hn Hsafe Hv Ho Hexp Hnone Hdue. pose proof (options_positive _ Hopt).
  unfold migrateEntry.
  assert (Hinv : legacyInvalid (leaseId (identity l)) (ownerFenceLeaseToLegacyLease l) = false).
  { unfold legacyInvalid. simpl. destruct Hv as (Ht & Hns & Hr).
    rw String.eqb_refl !bool_decide_eq_true_2 //=. rw !orb_false_r.
    apply Forall_forall with (x := ownerGeneration (identity l)) in Ht;
      [|by do 2 right; left]. unfold validText in Ht. by destruct (ownerGeneration (identity l)). }
  assert (Hlx : legacyExpired n (ownerFenceLeaseToLegacyLease l) = false).
  { unfold legacyExpired, isSafe. simpl. apply orb_false_iff. split; [|apply Z.leb_gt; lia].
    apply negb_false_iff, Z.leb_le. lia. }
  rw Hinv Hlx. 
  assert (Hid : legacyIdentity owner g (ownerFenceLeaseToLegacyLease l) = identity l).
  { unfold legacyIdentity; simpl. subst owner. by destruct (identity l). }
  assert (Hle : legacyExpiry options n (ownerFenceLeaseToLegacyLease l) =
    Z.min (expiresAt l) (n + maxLegacyLeaseMs options)) by done.
  rw Hid Hle register_run //; try lia.
  assert (retireDue n (leases st) = leases st) as ->.
  { apply map_eq. intros id. unfold retireDue. rw lookup_fmap.
    destruct (leases st !! id) as [x|] eqn:Hx; simpl; [|done]. by rw (Hdue _ _ Hx). }
  rw Hnone. unfold migrated. by rw -Z.min_assoc Z.min_id.
Qed.

(** migrating a legacy mirror never fails on an entry: for a well-formed owner and
    time it returns, and every entry of the mirror is accounted for exactly once, as
    inserted, replayed, expired, invalid or in conflict. *)
Theorem fence_migration_accounts_for_every_entry options owner g entries n st :
  validText owner = true → validText g = true → 0 ≤ n ≤ MAX_SAFE_INTEGER →
  ∃ st' c, migrateLegacyActiveMirror options owner g entries (Some n) st = (st', inr c) ∧
    inserted c + replayed c + expired c + Z.of_nat (length (invalid c)) +
      Z.of_nat (length (conflicts c)) = Z.of_nat (length entries).
Proof.
  intros Ho Hg Hn. unfold migrateLegacyActiveMirror, bind.
  rw !assertText_run //. unfold assertSafeTime, isSafe, ret.
  assert (Z.abs n = n) as -> by lia.
  destruct (n <=? MAX_SAFE_INTEGER) eqn:E1; bool_to_prop; [|lia].
  destruct (n <? 0) eqn:E2; bool_to_prop; [lia|]. simpl.
  pose proof (migrate_total options owner g n entries (st, noCounts)) as Ht.
  destruct (foldl _ _ _) as [st' c]. exists st', c. split; [done|]. exact Ht.
Qed.

(** ** Rolling back and forward again *)

Section round_trip.
Context (options : OwnerFenceStoreOptions) (owner g : string) (n : Z).
Context (Hopt : constructorCheck options = true) (Hn : 0 ≤ n).
Context (Hsafe : n + maxLegacyLeaseMs options ≤ MAX_SAFE_INTEGER).

Definition mirrorable (l : OwnerFenceLease) : Prop :=
  validIdentity (identity l) ∧ ownerId (identity l) = owner ∧
  n < expiresAt l ≤ MAX_SAFE_INTEGER.

Definition toMirror (l : OwnerFenceLease) : string * LegacyOwnerFenceLease :=
  (leaseId (identity l), ownerFenceLeaseToLegacyLease l).

Lemma migrate_mirrored ls st c :
  Forall mirrorable ls → NoDup ((λ l, leaseId (identity l)) <$> ls) →
  (∀ l, l ∈ ls → leases st !! leaseId (identity l) = None) →
  map_Forall (λ _ x, isDue n x = false) (leases st) →
  ∀ id l', leases (fst (foldl (λ s e, migrateEntry options owner g n e s) (st, c)
                          (toMirror <$> ls))) !! id = Some l' ↔
    leases st !! id = Some l' ∨
    ∃ l, l ∈ ls ∧ leaseId (identity l) = id ∧ l' = migrated options n l.
Proof.
  revert st c. induction ls as [|l ls IH]; intros st c Hok Hnd Hfresh Hdue id l'.
  { simpl. split; [by left|]. intros [?|(l & Hl & _)]; [done|]. by apply not_elem_of_nil in Hl. }
  apply Forall_cons in Hok as [(Hv & Ho & He) Hok].
  rw fmap_cons NoDup_cons in Hnd. destruct Hnd as [Hnotin Hnd].
  assert (Hnone : leases st !! leaseId (identity l) = None) by (apply Hfresh; left).
  assert (Hstep : foldl (λ s e, migrateEntry options owner g n e s) (st, c) (toMirror <$> l :: ls) =
    foldl (λ s e, migrateEntry options owner g n e s)
      (migrateEntry options owner g n (toMirror l) (st, c)) (toMirror <$> ls)) by done.
  rw Hstep. unfold toMirror at 1. rw (migrateEntry_mirrored options owner g n l) //.
  pose proof (options_positive _ Hopt) as Hpos.
  rw IH //; simpl; last split.
  - intros x Hx. assert (leaseId (identity l) ≠ leaseId (identity x)).
    { intros Heq. apply Hnotin. rw Heq. by apply (list_elem_of_fmap_2 (λ l, leaseId (identity l))). }
    rw lookup_insert_ne //. apply Hfresh. by right.
  - apply map_Forall_insert_2; [|done]. unfold isDue, migrated; simpl.
    apply Z.leb_gt. lia.
  - intros [Hins|(x & Hx & Hid & ->)]; [|right; exists x; split; [by right|done]].
    apply lookup_insert_Some in Hins as [[Hid <-]|[_ ?]]; [|by left].
    right. exists l. split; [left|by split].
  - intros [Hst|(x & [->|Hx]%elem_of_cons & Hid & ->)].
    + left. rw lookup_insert_ne //. intros Hid. congruence.
    + left. by rw Hid lookup_insert_eq.
    + right. by exists x.
Qed.
End round_trip.

Lemma rows_NoDup options st (P : OwnerFenceLease → Prop) `{!∀ x, Decision (P x)} :
  WF options st → NoDup ((λ l, leaseId (identity l)) <$> filter P (rows (leases st))).
Proof.
  intros HW.
  assert (Hkeys : (λ l, leaseId (identity l)) <$> rows (leases st) = (map_to_list (leases st)).*1).
  { unfold rows. rw -list_fmap_compose. apply list_fmap_ext. intros i [k l] Hi. simpl.
    apply list_elem_of_lookup_2, elem_of_map_to_list in Hi. by destruct (HW _ _ Hi). }
  assert (Hnd : NoDup ((λ l, leaseId (identity l)) <$> rows (leases st)))
    by (rw Hkeys; apply NoDup_fst_map_to_list).
  by apply NoDup_fmap_filter.
Qed.

(** the rollback mirror loses no lease: migrating the mirror of a store into an
    empty one restores exactly the leases that were active, with their identities,
    each ending when it would have but at most the legacy maximum from now. *)
Theorem fence_mirror_round_trip options owner g n limit st mirror :
  constructorCheck options = true → WF options st → validText owner = true →
  validText g = true → 0 ≤ n → n + maxLegacyLeaseMs options ≤ MAX_SAFE_INTEGER →
  map_Forall (λ _ l, ownerId (identity l) = owner ∧ expiresAt l ≤ MAX_SAFE_INTEGER) (leases st) →
  snd (boundedLegacyActiveMirror (Some n) (Some limit) st) = inr (Complete mirror) →
  let empty := {| leases := ∅; schemaMigrations := ∅ |} in
  let st' := fst (migrateLegacyActiveMirror options owner g mirror (Some n) empty) in
  ∀ id l', leases st' !! id = Some l' ↔
    ∃ l, leases st !! id = Some l ∧ state l = active ∧ n < expiresAt l ∧
         l' = migrated options n l.
Proof.
  intros Hopt HW Ho Hg Hn Hsafe Hall Hmirror empty st' id l'.
  pose proof (options_positive _ Hopt).
  assert (Hn' : 0 ≤ n ≤ MAX_SAFE_INTEGER) by lia.
  destruct (expireDueLeases_run n st Hn') as [due Hrun].
  assert (HW1 : WF options (withLeases (retireDue n (leases st)) st)).
  { pose proof (expireDueLeases_WF options (Some n) st HW) as H'. by rw Hrun in H'. }
  set (found := merge_sort (orderBy createdAt) (activeRows (retireDue n (leases st)))).
  assert (Hm : mirror = toMirror <$> found).
  { unfold boundedLegacyActiveMirror, activeLeases, bind in Hmirror.
    destruct (_ || _); [done|]. rw Hrun in Hmirror. simpl in Hmirror. fold found in Hmirror.
    destruct (_ <? _); [done|]. simpl in Hmirror. by injection Hmirror. }
  assert (Hfound : ∀ l, l ∈ found ↔ state l = active ∧ n < expiresAt l ∧
    leases st !! leaseId (identity l) = Some l).
  { intros l. unfold found. rw merge_sort_Permutation. unfold activeRows.
    rw list_elem_of_filter elem_of_rows. split.
    - intros [Ha [k Hk]]. unfold retireDue in Hk. rw lookup_fmap in Hk.
      apply fmap_Some in Hk as (l0 & Hl0 & ->). destruct (isDue n l0) eqn:Hd; [done|].
      destruct (HW _ _ Hl0) as [-> _]. split; [done|]. split; [|done].
      unfold isDue in Hd. rw (bool_decide_eq_true_2 _ Ha) /= in Hd. by bool_to_prop.
    - intros (Ha & He & Hl). split; [done|]. exists (leaseId (identity l)).
      unfold retireDue. rw lookup_fmap Hl /=. unfold isDue.
      assert (expiresAt l <=? n = false) as -> by (apply Z.leb_gt; lia). by rw andb_false_r. }
  assert (Hst' : leases st' !! id = Some l' ↔
    ∃ l, l ∈ found ∧ leaseId (identity l) = id ∧ l' = migrated options n l).
  { subst st'. unfold migrateLegacyActiveMirror, bind. rw !assertText_run // Hm.
    unfold assertSafeTime, isSafe, ret. assert (Z.abs n = n) as -> by lia.
    destruct (n <=? MAX_SAFE_INTEGER) eqn:E1; bool_to_prop; [|lia].
    destruct (n <? 0) eqn:E2; bool_to_prop; [lia|]. simpl.
    pose proof (migrate_mirrored options owner g n Hopt Hn Hsafe found empty noCounts) as Hmig.
    destruct (foldl _ _ _) as [s c]. simpl in Hmig |- *. rw Hmig.
    - apply Forall_forall. intros l (Ha & He & Hl)%Hfound. destruct (Hall _ _ Hl).
      destruct (HW _ _ Hl) as (_ & ? & _). by split.
    - unfold found. rw merge_sort_Permutation. by apply (rows_NoDup options (withLeases _ st)).
    - done.
    - done.
    - rw lookup_empty. split; [by intros [[=]|?]|by right]. }
  rw Hst'. split.
  - intros (l & (Ha & He & Hl)%Hfound & <- & ->). by exists l.
  - intros (l & Hl & Ha & He & ->). exists l. rw Hfound.
    destruct (HW _ _ Hl) as [<- _]. by repeat split.
Qed.

(** ** Witnesses *)

(** The constructor's defaults. *)
Definition defaultOptions : OwnerFenceStoreOptions := {|
  maxLeaseMs := OWNER_FENCE_DEFAULT_MAX_LEASE_MS; clockSkewMs := OWNER_FENCE_CLOCK_SKEW_MS;
  legacyGraceMs := OWNER_FENCE_LEGACY_GRACE_MS; maxLegacyLeaseMs := OWNER_FENCE_LEGACY_GRACE_MS;
|}.

Definition ex_identity (id : string) : OwnerFenceLeaseIdentity := {|
  leaseId := id; ownerId := "owner"; ownerGeneration := "g1"; reservationGeneration := "r1";
  sessionId := "s"; turnId := "t"; namespace := "orchestrator"; role := "run";
|}.

Definition ex_ops : list op :=
  [OpRegister (ex_identity "a") (Some 5000) (Some 1000);
   OpRegister (ex_identity "b") (Some 900000) (Some 2000);
   OpRenew (ex_identity "a") (Some 9000) (Some 3000);
   OpExpire (Some 9000)].

Definition ex_empty : Store := {| leases := ∅; schemaMigrations := ∅ |}.
Definition ex_store : Store := run defaultOptions rows ex_ops ex_empty.
Definition ex_lease (id : string) : OwnerFenceLease :=
  default (newLease (ex_identity id) 0 0) (leases ex_store !! id).

Lemma ex_empty_WF : WF defaultOptions ex_empty.
Proof. apply map_Forall_empty. Qed.

Lemma ex_store_WF : WF defaultOptions ex_store.
Proof. apply run_WF; [done|apply ex_empty_WF]. Qed.

Lemma fence_lease_identity_is_permanent_witness :
  ∃ l', leases (run defaultOptions rows [OpPrune (Some 9001) (Some 7200000) (Some 256)] ex_store)
          !! "a"%string = Some l' ∧ keeps (ex_lease "a") l'.
Proof.
  destruct (fence_lease_identity_is_permanent defaultOptions rows
    [OpPrune (Some 9001) (Some 7200000) (Some 256)] ex_store "a" (ex_lease "a"))
    as [H|(ops1 & o & ops2 & l1 & c & Heq & Hl1 & Hk & Hr & Hc & Hp)];
    [done|done|apply ex_store_WF|by vm_compute|exact H|].
  exfalso. destruct ops1 as [|o' [|? ?]]; [|discriminate Heq|discriminate Heq].
  injection Heq as <- <-. injection Hc as <-.
  assert (l1 = ex_lease "a") as -> by (vm_compute in Hl1; injection Hl1 as <-; by vm_compute).
  vm_compute in Hp. discriminate Hp.
Defined.

Lemma fence_active_leases_are_live_witness :
  state (ex_lease "b") = active ∧ 10000 < expiresAt (ex_lease "b") ≤ 2000 + 3600000.
Proof.
  destruct (fence_active_leases_are_live defaultOptions rows ex_ops ex_empty 10000 (ex_lease "b")
    [ex_lease "b"]) as (H1 & H2 & _);
    [done|apply ex_empty_WF|by vm_compute|by left|split; [exact H1|exact H2]].
Defined.

Lemma ex_identity_valid id : validText id = true → validIdentity (ex_identity id).
Proof.
  intros Hid. split; [|split; by apply (bool_decide_unpack _); vm_compute].
  repeat (apply Forall_cons; split); try apply Forall_nil; done.
Qed.

Lemma fence_register_outcomes_witness :
  snd (registerLeaseExact defaultOptions (ex_identity "b") (Some 50000) (Some 10000) ex_store) =
  inr (Replayed (ex_lease "b")).
Proof.
  pose proof (fence_register_outcomes defaultOptions (ex_identity "b") 10000 50000 ex_store) as H.
  destruct (registerLeaseExact _ _ _ _ ex_store) as [st' r] eqn:E.
  assert (Hb : leases ex_store !! leaseId (ex_identity "b") = Some (ex_lease "b")) by by vm_compute.
  rw Hb in H. destruct H as (_ & _ & Hr);
    [by apply ex_identity_valid|by vm_compute|by vm_compute|by vm_compute|].
  simpl. rw Hr. by vm_compute.
Defined.

Lemma fence_skewed_caller_gets_the_maximum_witness :
  ∃ st', registerLeaseExact defaultOptions (ex_identity "c") (Some 2110000) (Some 10000) ex_store =
    (st', inr (Registered (newLease (ex_identity "c") 1810000 10000))).
Proof.
  apply (fence_skewed_caller_gets_the_maximum defaultOptions (ex_identity "c") 10000 300000 ex_store);
    [by apply ex_identity_valid|by vm_compute..].
Defined.

Lemma fence_prune_takes_the_oldest_witness :
  leases (fst (pruneRetiredLeases rows (Some 7300000) (Some 7200000) (Some 1) ex_store)) !! "b"%string =
    Some (ex_lease "b") ∧
  Z.of_nat (length (pruneVictims rows (7300000 - 7200000) 1 (leases ex_store))) ≤ 1.
Proof.
  destruct (fence_prune_takes_the_oldest defaultOptions rows 7300000 7200000 1 ex_store)
    as (H1 & H2 & _); [done|apply ex_store_WF|by vm_compute..|].
  split; [|exact H2]. apply H1. split; [by vm_compute|].
  apply (bool_decide_unpack _). by vm_compute.
Defined.

Lemma fence_migration_accounts_for_every_entry_witness :
  ∃ st' c, migrateLegacyActiveMirror defaultOptions "owner" "g1"
    [toMirror (ex_lease "b"); ("x"%string, ownerFenceLeaseToLegacyLease (ex_lease "b"))]
    (Some 10000) ex_store = (st', inr c) ∧
    inserted c + replayed c + expired c + Z.of_nat (length (invalid c)) +
      Z.of_nat (length (conflicts c)) = 2.
Proof.
  apply (fence_migration_accounts_for_every_entry defaultOptions "owner" "g1"); by vm_compute.
Defined.

Lemma fence_mirror_round_trip_witness :
  leases (fst (migrateLegacyActiveMirror defaultOptions "owner" "g1" [toMirror (ex_lease "b")]
    (Some 10000) ex_empty)) !! "b"%string = Some (migrated defaultOptions 10000 (ex_lease "b")).
Proof.
  apply (fence_mirror_round_trip defaultOptions "owner" "g1" 10000 512 ex_store).
  - done.
  - apply ex_store_WF.
  - done.
  - done.
  - done.
  - by vm_compute.
  - apply (bool_decide_unpack _). by vm_compute.
  - by vm_compute.
  - exists (ex_lease "b"). by repeat split; vm_compute.
Defined.
