(* ===== verification/ConversationProtocol.v ===== *)
(** * The conversation wire contract (packages/contracts/conversation-protocol.ts)

    The decoded journal rows a client handles, the server frames that carry them and
    the protocol's constants.  What a message or card contains plays no part in the
    ordering of the stream and is kept as the text of its JSON object. *)

From Corelib Require Import ssreflect.
From stdpp Require Import prelude strings.
From S2P Require Import Prelude.

#[local] Open Scope Z_scope.

Definition INITIAL_WINDOW_RECORDS : Z := 100.
Definition MAX_RESUME_RECORDS : Z := 2000.
Definition MAX_CATCHUP_RESUME_RECORDS : Z := 300.
Definition BACKFILL_BATCH_RECORDS : Z := 200.
Definition RATE_BACKFILL_PER_MIN : Z := 20.
Definition MAX_CLIENT_RECORDS : Z := 3000.
Definition MAX_BUFFERED_AHEAD : Z := 512.

Inductive MessageRole : Set := user | assistant | toolResult.

Inductive TurnPhase : Set := started | completed | failed | canceled | timeout.

#[export] Instance MessageRole_eq_dec : EqDecision MessageRole.
Proof. solve_decision. Defined.

#[export] Instance TurnPhase_eq_dec : EqDecision TurnPhase.
Proof. solve_decision. Defined.

(** What distinguishes the four kinds of row. *)
Inductive RecordBody : Type :=
  | Message (role : MessageRole) (hidden : bool) (clientMsgId : option string) (payload : string)
  | TurnRow (phase : TurnPhase) (notice : option string)
  | Card (card : string)
  | Skipped (originalKind : option string).

Record JournalRecord := {
  seq : Z;
  turnId : string;
  createdAtMs : Z;
  body : RecordBody;
}.

Record ToolSnapshot := {
  toolCallId : string;
  toolName : string;
  toolLabel : option string;
  toolStart : bool;
}.

Record LiveTurnSnapshot := {
  snapshotTurnId : string;
  tools : list ToolSnapshot;
}.

Record ReadyFrame := {
  ready_epoch : Z;
  ready_headSeq : Z;
  ready_windowStartSeq : Z;
  ready_floorSeq : Z;
  ready_live : option LiveTurnSnapshot;
}.

(** A request id is the text of a prefix and a counter; the pair stands for it. *)
Definition RequestId : Type := string * Z.

(** The frames that concern the ordered stream. *)
Inductive ServerFrame : Type :=
  | FReady (ready : ReadyFrame)
  | FRecord (record : JournalRecord)
  | FBackfill (id : RequestId) (fromSeq toSeq : Z) (complete : bool) (records : list JournalRecord)
  | FGap (fromSeq toSeq : Z)
  | FReset (reason : string).

(** ** Gapless runs *)

(** The records [from], [from + 1], ... in order: what a gapless stream delivers. *)
Fixpoint gapless (from : Z) (l : list JournalRecord) : Prop :=
  match l with
  | [] => True
  | r :: l' => seq r = from ∧ gapless (from + 1) l'
  end.

Lemma gapless_app from l l' :
  gapless from (l ++ l') ↔ gapless from l ∧ gapless (from + Z.of_nat (length l)) l'.
Proof.
  revert from; induction l as [|r l IH]; intros from; simpl.
  - rw Z.add_0_r. tauto.
  - rw IH. assert (from + 1 + Z.of_nat (length l) = from + Z.of_nat (S (length l))) as -> by lia.
    tauto.
Qed.

Lemma gapless_lookup from l i r :
  gapless from l → l !! i = Some r → seq r = from + Z.of_nat i.
Proof.
  revert from i; induction l as [|x l IH]; intros from i; simpl; [done|].
  intros [Hx Hl]. destruct i as [|i]; simpl; [intros [= <-]; lia|].
  intros Hi. rw (IH _ _ Hl Hi). lia.
Qed.

Lemma gapless_drop from l n : gapless from l → (n ≤ length l)%nat →
  gapless (from + Z.of_nat n) (drop n l).
Proof.
  intros Hl Hn. rw -(take_drop n l) gapless_app in Hl. destruct Hl as [_ Hl].
  by rw length_take_le // in Hl.
Qed.

Lemma gapless_elem from l r :
  gapless from l → r ∈ l → from ≤ seq r < from + Z.of_nat (length l).
Proof.
  intros Hl [i Hi]%list_elem_of_lookup. rw (gapless_lookup _ _ _ _ Hl Hi).
  apply lookup_lt_Some in Hi. lia.
Qed.

Lemma gapless_last from l r : gapless from l → last l = Some r →
  seq r = from + Z.of_nat (length l) - 1.
Proof.
  intros Hl Hr. rw last_lookup in Hr. rw (gapless_lookup _ _ _ _ Hl Hr).
  apply lookup_lt_Some in Hr. lia.
Qed.

Lemma gapless_from_head l r from : gapless from l → head l = Some r → seq r = from.
Proof. destruct l; simpl; [done|]. by intros [? _] [= <-]. Qed.
