(* ===== verification/ConversationView.v ===== *)
(** * The client's conversation view (packages/contracts/conversation-store-reducer.ts)

    The pure core of what a client does with the ordered stream: appending rows,
    bounding what it retains, splicing scrollback pages below the window and tracking
    the live turn. *)

From Corelib Require Import ssreflect.
From stdpp Require Import prelude strings sorting.
From S2P Require Import Prelude ConversationProtocol.

#[local] Open Scope Z_scope.

Inductive SocketStatus : Set := idle | connecting | live_ | offline | blocked.

Record LiveTurn := {
  liveTurnId : string;
  liveToolName : option string;
  liveToolLabel : option string;
}.

Record ConversationViewState := {
  conversationId : string;
  status : SocketStatus;
  statusMessage : option string;
  statusRetryable : bool;
  epoch : option Z;
  headSeq : Z;
  records : list JournalRecord;
  live : option LiveTurn;
  title : string;
  floorSeq : Z;
  hasOlder : bool;
  loadingOlder : bool;
  olderNotice : option string;
}.

Definition initialConversationViewState (id : string) : ConversationViewState := {|
  conversationId := id; status := idle; statusMessage := None; statusRetryable := true;
  epoch := None; headSeq := -1; records := []; live := None; title := ""; floorSeq := 0;
  hasOlder := false; loadingOlder := false; olderNotice := None;
|}.

Definition olderWouldExceedRetainedLimit (l : list JournalRecord) : bool :=
  MAX_CLIENT_RECORDS <? Z.of_nat (length l) + BACKFILL_BATCH_RECORDS.

Definition liveTurnFromReady (s : option LiveTurnSnapshot) : option LiveTurn :=
  match s with
  | Some l => Some {| liveTurnId := snapshotTurnId l;
                      liveToolName := toolName <$> last (tools l);
                      liveToolLabel := last (tools l) ≫= toolLabel |}
  | None => None
  end.

Definition bareTurn (t : string) : LiveTurn :=
  {| liveTurnId := t; liveToolName := None; liveToolLabel := None |}.

Definition liveTurnWithTool (l : option LiveTurn) (t name : string) (label : option string)
    (start : bool) : LiveTurn :=
  let current := match l with
                 | Some x => if bool_decide (liveTurnId x = t) then x else bareTurn t
                 | None => bareTurn t
                 end in
  {| liveTurnId := liveTurnId current;
     liveToolName := if start then Some name else None;
     liveToolLabel := if start then label else None |}.

Definition liveTurnAfterRecord (next : option LiveTurn) (r : JournalRecord) : option LiveTurn :=
  match body r with
  | TurnRow started _ =>
      if bool_decide (liveTurnId <$> next = Some (turnId r)) then next else Some (bareTurn (turnId r))
  | TurnRow _ _ => if bool_decide (liveTurnId <$> next = Some (turnId r)) then None else next
  | _ => next
  end.

Definition liveTurnAfterRecords (l : option LiveTurn) (rs : list JournalRecord) : option LiveTurn :=
  foldl liveTurnAfterRecord l rs.

Record AppendResult := {
  newRecords : list JournalRecord;
  fresh : list JournalRecord;
  newHasOlder : bool;
  newHeadSeq : Z;
}.

(** The seq of the newest retained row, -1 when none is. *)
Definition lastStoredSeq (l : list JournalRecord) : Z := default (-1) (seq <$> last l).

Definition firstSeq (l : list JournalRecord) : Z := default 0 (seq <$> head l).

Definition appendJournalRecords (view : ConversationViewState) (incoming : list JournalRecord)
    (replaceRetained : bool) : option AppendResult :=
  match incoming with
  | [] => None
  | _ =>
      let retained := if replaceRetained then [] else records view in
      let lastStored := lastStoredSeq retained in
      let fresh := filter (λ r, lastStored < seq r) incoming in
      match fresh with
      | [] => None
      | first :: _ =>
          let restart := (0 <=? lastStored) && (lastStored + 1 <? seq first) in
          let rs := (if restart then [] else retained) ++ fresh in
          let older := if replaceRetained then floorSeq view <? seq first
                       else hasOlder view || restart in
          let excess := Z.of_nat (length rs) - MAX_CLIENT_RECORDS in
          let '(rs, older) :=
            if 0 <? excess then (drop (Z.to_nat excess) rs, true) else (rs, older) in
          let older := match head rs with
                       | Some r => (floorSeq view <? seq r) || older
                       | None => older
                       end in
          Some {| newRecords := rs; fresh := fresh; newHasOlder := older;
                  newHeadSeq := Z.max (headSeq view) (lastStoredSeq rs) |}
      end
  end.

Record OlderRange := {
  complete : option bool;
  range_fromSeq : option Z;
  range_toSeq : option Z;
}.

Fixpoint seqsFrom (from : Z) (l : list JournalRecord) : bool :=
  match l with
  | [] => true
  | r :: l' => (seq r =? from) && seqsFrom (from + 1) l'
  end.

Definition olderRangeIsComplete (incoming : list JournalRecord) (range : option OlderRange) : bool :=
  if bool_decide (range ≫= complete = Some false) then false
  else match range ≫= range_fromSeq, range ≫= range_toSeq with
  | Some a, Some b => (Z.of_nat (length incoming) =? b - a + 1) && seqsFrom a incoming
  | _, _ => true
  end.

Definition bySeq (x y : JournalRecord) : Prop := seq x ≤ seq y.

#[export] Instance bySeq_dec : RelDecision bySeq.
Proof. intros x y. unfold bySeq. apply _. Defined.

(** [Number.POSITIVE_INFINITY] when nothing is retained: every row is older. *)
Definition isOlder (view : list JournalRecord) (r : JournalRecord) : bool :=
  match head view with Some o => seq r <? seq o | None => true end.

Definition prependOlderRecords (view : ConversationViewState) (page : list JournalRecord) :
    option (list JournalRecord * bool) :=
  let older := merge_sort bySeq (filter (λ r, isOlder (records view) r = true) page) in
  match older with
  | [] => None
  | _ => let rs := older ++ records view in
         Some (rs, floorSeq view <? firstSeq rs)
  end.

(** ** Lemmas *)

Lemma lastStoredSeq_gapless from l :
  gapless from l → l ≠ [] → lastStoredSeq l = from + Z.of_nat (length l) - 1.
Proof.
  intros Hl Hne. unfold lastStoredSeq. destruct (last l) as [r|] eqn:E; simpl.
  - by eapply gapless_last.
  - by apply last_None in E.
Qed.

Lemma seqsFrom_gapless from l : seqsFrom from l = true ↔ gapless from l.
Proof.
  revert from; induction l as [|r l IH]; intros from; simpl; [done|].
  by rw andb_true_iff Z.eqb_eq IH.
Qed.

(** The new rows of a gapless run: the whole run beyond the last stored one. *)
Lemma fresh_gapless from l c :
  gapless from l →
  filter (λ r, c < seq r) l = drop (Z.to_nat (c + 1 - from)) l.
Proof.
  revert from; induction l as [|r l IH]; intros from; simpl; [by rw drop_nil|].
  intros [Hr Hl]. rw filter_cons. case_decide.
  - assert (Z.to_nat (c + 1 - from) = 0%nat) as -> by lia. rw drop_0. f_equal.
    rw (IH _ Hl). assert (Z.to_nat (c + 1 - (from + 1)) = 0%nat) as -> by lia. by rw drop_0.
  - rw (IH _ Hl). assert (Z.to_nat (c + 1 - from) = S (Z.to_nat (c + 1 - (from + 1)))) as -> by lia.
    done.
Qed.

Lemma gapless_app_last from l l' :
  gapless from l → l ≠ [] → gapless (lastStoredSeq l + 1) l' → gapless from (l ++ l').
Proof.
  intros Hl Hne Hl'. rw gapless_app. split; [done|].
  rw (lastStoredSeq_gapless _ _ Hl Hne) in Hl'.
  by assert (from + Z.of_nat (length l) - 1 + 1 = from + Z.of_nat (length l)) as <- by lia.
Qed.

Lemma merge_sort_sorted_id l : StronglySorted bySeq l → NoDup (seq <$> l) →
  ∀ l', l' ≡ₚ l → merge_sort bySeq l' = l.
Proof.
  intros Hs Hnd l' Hp. apply (StronglySorted_unique_strong bySeq).
  - intros x y Hx Hy Hxy Hyx. assert (seq x = seq y) as Heq by (unfold bySeq in *; lia).
    rw merge_sort_Permutation Hp in Hx.
    apply list_elem_of_lookup in Hx as [i Hi]. apply list_elem_of_lookup in Hy as [j Hj].
    assert (i = j) as ->; [|congruence].
    eapply (NoDup_lookup _ _ _ (seq x) Hnd); rw list_lookup_fmap; [rw Hi|rw Hj]; simpl; congruence.
  - apply StronglySorted_merge_sort; [intros x y z|intros x y]; unfold bySeq; lia.
  - done.
  - by rw merge_sort_Permutation.
Qed.

Lemma gapless_sorted from l : gapless from l → StronglySorted bySeq l ∧ NoDup (seq <$> l).
Proof.
  revert from; induction l as [|r l IH]; intros from; simpl.
  { split; constructor. }
  intros [Hr Hl]. destruct (IH _ Hl) as [Hs Hnd]. split.
  - constructor; [done|]. apply Forall_forall. intros x Hx.
    pose proof (gapless_elem _ _ _ Hl Hx). unfold bySeq. lia.
  - apply NoDup_cons. split; [|done]. intros (x & Hxs & Hx)%list_elem_of_fmap.
    pose proof (gapless_elem _ _ _ Hl Hx). lia.
Qed.

(** ** Properties *)

(** appending keeps the view a gapless window of the stream.  For a retained
    window and an incoming batch that are gapless, the result is [None] exactly when
    the batch holds nothing new; otherwise the new window is gapless, ends with the
    batch, retains at most [MAX_CLIENT_RECORDS] rows, delivers as [fresh] exactly the
    rows beyond the last stored one, and says that older rows exist whenever its
    first row is above the floor. *)
Theorem view_append_keeps_gapless_window view incoming replaceRetained from start :
  gapless from (records view) → gapless start incoming → 0 ≤ from → 0 ≤ start →
  let retained := if replaceRetained then [] else records view in
  match appendJournalRecords view incoming replaceRetained with
  | None => Forall (λ r, seq r ≤ lastStoredSeq retained) incoming
  | Some r =>
      (∃ from', gapless from' (newRecords r)) ∧
      lastStoredSeq (newRecords r) = lastStoredSeq incoming ∧
      Z.of_nat (length (newRecords r)) ≤ MAX_CLIENT_RECORDS ∧
      fresh r ≠ [] ∧
      fresh r = drop (Z.to_nat (lastStoredSeq retained + 1 - start)) incoming ∧
      (floorSeq view < firstSeq (newRecords r) → newHasOlder r = true)
  end.
Proof.
  intros Hrec Hin Hfrom Hstart retained. unfold appendJournalRecords. fold retained.
  destruct incoming as [|i0 incoming']; [constructor|].
  set (incoming := i0 :: incoming') in *.
  assert (Hret : gapless from retained) by by destruct replaceRetained.
  pose proof (fresh_gapless start incoming (lastStoredSeq retained) Hin) as Hfresh.
  set (k := Z.to_nat (lastStoredSeq retained + 1 - start)) in *.
  rw Hfresh. destruct (drop k incoming) as [|first rest] eqn:Hdrop.
  { apply Forall_forall. intros r Hr. destruct (decide (lastStoredSeq retained < seq r)); [|lia].
    assert (r ∈ filter (λ r, lastStoredSeq retained < seq r) incoming) as Hf
      by by apply list_elem_of_filter.
    rw Hfresh in Hf. by apply not_elem_of_nil in Hf. }
  assert (Hk : (k < length incoming)%nat).
  { destruct (decide (k < length incoming)%nat); [done|]. rw drop_ge // in Hdrop. lia. }
  assert (Hgd : gapless (start + Z.of_nat k) (first :: rest)).
  { rw -Hdrop. apply gapless_drop; [done|lia]. }
  set (restart := (0 <=? lastStoredSeq retained) && (lastStoredSeq retained + 1 <? seq first)).
  set (rs := (if restart then [] else retained) ++ first :: rest).
  assert (Hne : (first :: rest) ≠ []) by done.
  assert (Hrs : ∃ from', gapless from' rs).
  { unfold rs. destruct restart eqn:Er; [by eexists|].
    destruct (decide (retained = [])) as [->|Hnr]; [by eexists|]. exists from.
    apply gapless_app_last; [done|done|].
    pose proof (lastStoredSeq_gapless _ _ Hret Hnr) as Hlast.
    assert (0 < Z.of_nat (length retained)) by (destruct retained; [done|simpl; lia]).
    unfold restart in Er. apply andb_false_iff in Er. destruct Hgd as [Hf Hrest].
    rw !Z.leb_gt !Z.ltb_ge in Er.
    assert (seq first = lastStoredSeq retained + 1) as <-.
    { assert (lastStoredSeq retained < seq first); [|lia].
      assert (first ∈ filter (λ r, lastStoredSeq retained < seq r) incoming) as Hf'
        by (rw Hfresh; left). by apply list_elem_of_filter in Hf' as [? _]. }
    by rw Hf. }
  assert (Hlast : lastStoredSeq rs = lastStoredSeq incoming).
  { unfold lastStoredSeq, rs. rw last_app. rw -(take_drop k incoming) Hdrop last_app.
    by destruct (last (first :: rest)) eqn:E; [|by apply last_None in E]. }
  destruct Hrs as [from' Hrs]. destruct (0 <? _) eqn:Hex; bool_to_prop; simpl.
  - set (n := Z.to_nat (Z.of_nat (length rs) - MAX_CLIENT_RECORDS)).
    assert (Hn : (n < length rs)%nat) by (unfold n, MAX_CLIENT_RECORDS in *; lia).
    split; [eexists; apply gapless_drop; [done|lia]|]. split; [|split; [|split; [done|split; [done|]]]].
    + rw -Hlast. unfold lastStoredSeq. rw -{2}(take_drop n rs) last_app.
      destruct (last (drop n rs)) eqn:E; [done|]. apply last_None in E.
      apply (f_equal length) in E. rw length_drop /= in E. lia.
    + rw length_drop. unfold n, MAX_CLIENT_RECORDS in *. lia.
    + destruct (head (drop n rs)); [|done]. by rw orb_true_r.
  - split; [by eexists|]. split; [done|]. split; [lia|]. split; [done|]. split; [done|].
    unfold firstSeq. destruct (head rs) as [r|] eqn:Ehd; simpl; [by intros ->%Z.ltb_lt|].
    unfold rs in Ehd. by destruct (if restart then [] else retained).
Qed.

(** a scrollback page is spliced only whole.  A reply accepted as complete for the
    range just below the window, in whatever order its rows arrive, extends the window
    downwards without a gap; a reply that misses or repeats a row is not accepted. *)
Theorem view_prepend_is_contiguous view page incoming from a :
  gapless from (records view) → records view ≠ [] → a < from →
  olderRangeIsComplete incoming
    (Some {| complete := None; range_fromSeq := Some a; range_toSeq := Some (from - 1) |}) = true →
  page ≡ₚ incoming →
  prependOlderRecords view page = Some (incoming ++ records view, floorSeq view <? a) ∧
  gapless a (incoming ++ records view).
Proof.
  intros Hrec Hne Ha Hc Hp. unfold olderRangeIsComplete in Hc. simpl in Hc.
  apply andb_true_iff in Hc as [Hlen%Z.eqb_eq Hseq%seqsFrom_gapless].
  assert (Hg : gapless a (incoming ++ records view)).
  { rw gapless_app. split; [done|]. by assert (a + Z.of_nat (length incoming) = from) as -> by lia. }
  split; [|done]. unfold prependOlderRecords.
  destruct (records view) as [|r0 rest] eqn:Hrv; [done|].
  assert (Hall : filter (λ r, isOlder (r0 :: rest) r = true) page = page).
  { destruct Hrec as [Hr0 _].
    assert (∀ r, r ∈ page → isOlder (r0 :: rest) r = true) as Hold.
    { intros r Hr. rw Hp in Hr. pose proof (gapless_elem _ _ _ Hseq Hr).
      unfold isOlder; simpl. apply Z.ltb_lt. lia. }
    clear Hp. induction page as [|x page IH]; [done|]. rw filter_cons_True.
    - apply Hold. left.
    - f_equal. apply IH. intros r Hr. apply Hold. by right. }
  rw Hall. destruct (gapless_sorted _ _ Hseq) as [Hs Hnd].
  rw (merge_sort_sorted_id _ Hs Hnd _ Hp). destruct incoming as [|i0 inc]; [simpl in Hlen; lia|].
  unfold firstSeq. simpl. by destruct Hseq as [-> _].
Qed.

(** ** Witnesses *)

Definition ex_row (n : Z) : JournalRecord :=
  {| seq := n; turnId := "t"; createdAtMs := 0; body := Skipped None |}.

Definition ex_view : ConversationViewState :=
  let v := initialConversationViewState "c" in
  {| conversationId := conversationId v; status := live_; statusMessage := None;
     statusRetryable := true; epoch := Some 1; headSeq := 12; records := ex_row <$> [10; 11; 12];
     live := None; title := ""; floorSeq := 3; hasOlder := false; loadingOlder := false;
     olderNotice := None |}.

Lemma view_append_keeps_gapless_window_witness :
  match appendJournalRecords ex_view (ex_row <$> [12; 13; 14]) false with
  | Some r => (∃ from', gapless from' (newRecords r)) ∧ lastStoredSeq (newRecords r) = 14
  | None => False
  end.
Proof.
  pose proof (view_append_keeps_gapless_window ex_view (ex_row <$> [12; 13; 14]) false 10 12) as H.
  destruct (appendJournalRecords ex_view (ex_row <$> [12; 13; 14]) false) as [r|] eqn:E.
  - destruct H as (H1 & H2 & _); [by repeat split|by repeat split|done|done|].
    split; [exact H1|]. rw H2. by vm_compute.
  - vm_compute in E. discriminate E.
Defined.

Lemma view_prepend_is_contiguous_witness :
  prependOlderRecords ex_view (ex_row <$> [9; 8; 7]) = Some (ex_row <$> [7; 8; 9; 10; 11; 12], true).
Proof.
  refine (proj1 (view_prepend_is_contiguous ex_view (ex_row <$> [9; 8; 7])
    (ex_row <$> [7; 8; 9]) 10 7 _ _ _ _ _)).
  - by repeat split.
  - done.
  - done.
  - by vm_compute.
  - apply Permutation_rev.
Defined.
