(* ===== verification/ConversationSocket.v ===== *)
(** * The conversation transport (packages/contracts/conversation-socket.ts)

    The client's side of the socket: a cursor over the server's gapless sequence, a
    buffer for rows that arrive early, gap repair through [backfill], scrollback
    requests, and the resets.  The handlers are state transformers; [events] is the
    log of [onEvent] calls and [sent] the log of frames put on the wire.

    [connected] is "a socket exists and is open".  Opening a socket (token, URL,
    handshake), the keepalive and re-authentication timers and the reconnect backoff
    are not part of the ordered stream and are left out. *)

From Corelib Require Import ssreflect SpecFloat.
From stdpp Require Import prelude gmap strings.
From S2P Require Import Prelude JsNumber ConversationProtocol ConversationView.

#[local] Open Scope Z_scope.

Definition MAX_NO_PROGRESS_BACKFILLS : Z := 3.

Definition CLOSE_UNAUTHENTICATED : Z := 4401.
Definition CLOSE_PROTOCOL_VERSION : Z := 4409.
Definition TERMINAL_CLOSE_CODES : list Z := [4400; 4403; 4404; CLOSE_PROTOCOL_VERSION; 4410; 4413].

Inductive Event : Type :=
  | EReady (ready : ReadyFrame)
  | ERecords (l : list JournalRecord)
  | EOlder (l : list JournalRecord) (complete : bool) (fromSeq toSeq : Z)
  | EReset (reason : string)
  | EGap (fromSeq toSeq : Z)
  | EStatus (s : SocketStatus) (retryable : bool).

Inductive ClientFrame : Type :=
  | CBackfill (id : RequestId) (fromSeq toSeq : Z).

Record OlderRequest := {
  older_fromSeq : Z;
  older_toSeq : Z;
  older_nextSeq : Z;
  older_records : list JournalRecord;
}.

(** [BackfillBudget]: a refilling token bucket of binary64 tokens. *)
Record BackfillBudget := {
  tokens : number;
  refilledAt : Z;
}.

Definition num_add (x y : number) : number := SFadd 53 1024 x y.
Definition num_sub (x y : number) : number := SFsub 53 1024 x y.
Definition num_div (x y : number) : number := SFdiv 53 1024 x y.

Definition refill (now : Z) (b : BackfillBudget) : BackfillBudget :=
  let gained := num_mul (num_div (num_of_Z (now - refilledAt b)) (num_of_Z 60000))
                        (num_of_Z RATE_BACKFILL_PER_MIN) in
  if SFleb (num_of_Z 1) gained
  then {| tokens := num_min (num_of_Z RATE_BACKFILL_PER_MIN) (num_add (tokens b) gained);
          refilledAt := now |}
  else b.

Definition take (now reserve : Z) (b : BackfillBudget) : BackfillBudget * bool :=
  let b := refill now b in
  if SFltb (tokens b) (num_of_Z (1 + reserve)) then (b, false)
  else ({| tokens := num_sub (tokens b) (num_of_Z 1); refilledAt := refilledAt b |}, true).

Record Socket := {
  connected : bool;
  stopped : bool;
  sockStatus : SocketStatus;
  lastSeq : Z;
  sockEpoch : option Z;
  sockHead : Z;
  windowStartSeq : Z;
  sockFloor : Z;
  ahead : gmap Z JournalRecord;
  gapPending : bool;
  noProgressBackfills : Z;
  requestCounter : Z;
  olderRequests : gmap RequestId OlderRequest;
  budget : BackfillBudget;
  authRetryUsed : bool;
  resumeTimer : bool;
  events : list Event;
  sent : list ClientFrame;
}.

(** ** Field updates *)

Definition setStream (last : Z) (a : gmap Z JournalRecord) (st : Socket) : Socket := {|
  connected := connected st; stopped := stopped st; sockStatus := sockStatus st;
  lastSeq := last; sockEpoch := sockEpoch st; sockHead := sockHead st;
  windowStartSeq := windowStartSeq st; sockFloor := sockFloor st; ahead := a;
  gapPending := gapPending st; noProgressBackfills := noProgressBackfills st;
  requestCounter := requestCounter st; olderRequests := olderRequests st;
  budget := budget st; authRetryUsed := authRetryUsed st; resumeTimer := resumeTimer st;
  events := events st; sent := sent st;
|}.

Definition setRepair (pending : bool) (noProgress : Z) (st : Socket) : Socket := {|
  connected := connected st; stopped := stopped st; sockStatus := sockStatus st;
  lastSeq := lastSeq st; sockEpoch := sockEpoch st; sockHead := sockHead st;
  windowStartSeq := windowStartSeq st; sockFloor := sockFloor st; ahead := ahead st;
  gapPending := pending; noProgressBackfills := noProgress;
  requestCounter := requestCounter st; olderRequests := olderRequests st;
  budget := budget st; authRetryUsed := authRetryUsed st; resumeTimer := resumeTimer st;
  events := events st; sent := sent st;
|}.

Definition setOlder (o : gmap RequestId OlderRequest) (st : Socket) : Socket := {|
  connected := connected st; stopped := stopped st; sockStatus := sockStatus st;
  lastSeq := lastSeq st; sockEpoch := sockEpoch st; sockHead := sockHead st;
  windowStartSeq := windowStartSeq st; sockFloor := sockFloor st; ahead := ahead st;
  gapPending := gapPending st; noProgressBackfills := noProgressBackfills st;
  requestCounter := requestCounter st; olderRequests := o;
  budget := budget st; authRetryUsed := authRetryUsed st; resumeTimer := resumeTimer st;
  events := events st; sent := sent st;
|}.

(** What the connection-level code sets: the socket, [stopped] and the status. *)
Definition setConnection (open stop : bool) (s : SocketStatus) (retryUsed timer : bool)
    (st : Socket) : Socket := {|
  connected := open; stopped := stop; sockStatus := s;
  lastSeq := lastSeq st; sockEpoch := sockEpoch st; sockHead := sockHead st;
  windowStartSeq := windowStartSeq st; sockFloor := sockFloor st; ahead := ahead st;
  gapPending := gapPending st; noProgressBackfills := noProgressBackfills st;
  requestCounter := requestCounter st; olderRequests := olderRequests st;
  budget := budget st; authRetryUsed := retryUsed; resumeTimer := timer;
  events := events st; sent := sent st;
|}.

Definition setServerView (e : option Z) (hd window floor : Z) (st : Socket) : Socket := {|
  connected := connected st; stopped := stopped st; sockStatus := sockStatus st;
  lastSeq := lastSeq st; sockEpoch := e; sockHead := hd;
  windowStartSeq := window; sockFloor := floor; ahead := ahead st;
  gapPending := gapPending st; noProgressBackfills := noProgressBackfills st;
  requestCounter := requestCounter st; olderRequests := olderRequests st;
  budget := budget st; authRetryUsed := authRetryUsed st; resumeTimer := resumeTimer st;
  events := events st; sent := sent st;
|}.

Definition setHead (hd : Z) (st : Socket) : Socket :=
  setServerView (sockEpoch st) hd (windowStartSeq st) (sockFloor st) st.

Definition setTimer (timer : bool) (st : Socket) : Socket :=
  setConnection (connected st) (stopped st) (sockStatus st) (authRetryUsed st) timer st.

Definition onEvent (e : Event) (st : Socket) : Socket := {|
  connected := connected st; stopped := stopped st; sockStatus := sockStatus st;
  lastSeq := lastSeq st; sockEpoch := sockEpoch st; sockHead := sockHead st;
  windowStartSeq := windowStartSeq st; sockFloor := sockFloor st; ahead := ahead st;
  gapPending := gapPending st; noProgressBackfills := noProgressBackfills st;
  requestCounter := requestCounter st; olderRequests := olderRequests st;
  budget := budget st; authRetryUsed := authRetryUsed st; resumeTimer := resumeTimer st;
  events := events st ++ [e]; sent := sent st;
|}.

Definition setWire (n : Z) (b : BackfillBudget) (out : list ClientFrame) (st : Socket) : Socket := {|
  connected := connected st; stopped := stopped st; sockStatus := sockStatus st;
  lastSeq := lastSeq st; sockEpoch := sockEpoch st; sockHead := sockHead st;
  windowStartSeq := windowStartSeq st; sockFloor := sockFloor st; ahead := ahead st;
  gapPending := gapPending st; noProgressBackfills := noProgressBackfills st;
  requestCounter := n; olderRequests := olderRequests st;
  budget := b; authRetryUsed := authRetryUsed st; resumeTimer := resumeTimer st;
  events := events st; sent := out;
|}.

(** ** The wire *)

(** [setStatus]: a repeated status with nothing new to say is not an event. *)
Definition setStatus (s : SocketStatus) (hasMessage retryable : bool) (st : Socket) : Socket :=
  let same := match sockStatus st, s with
              | idle, idle | connecting, connecting | live_, live_ | offline, offline => true
              | _, _ => false
              end in
  if same && negb hasMessage then st
  else onEvent (EStatus s retryable)
         (setConnection (connected st) (stopped st) s (authRetryUsed st) (resumeTimer st) st).

Definition takeToken (now reserve : Z) (st : Socket) : Socket * bool :=
  let '(b, ok) := take now reserve (budget st) in
  (setWire (requestCounter st) b (sent st) st, ok).

Definition nextRequestId (prefix : string) (st : Socket) : Socket * RequestId :=
  (setWire (requestCounter st + 1) (budget st) (sent st) st, (prefix, requestCounter st + 1)).

Definition send (f : ClientFrame) (st : Socket) : Socket * bool :=
  if connected st then (setWire (requestCounter st) (budget st) (sent st ++ [f]) st, true)
  else (st, false).

(** [forceReconnect]: the socket is dropped; a new one opens later ([connect]). *)
Definition forceReconnect (st : Socket) : Socket :=
  let st := setConnection false (stopped st) (sockStatus st) (authRetryUsed st) false st in
  if stopped st then st else setStatus connecting false true st.

Definition resetStream (reason : string) (st : Socket) : Socket :=
  onEvent (EReset reason) (setOlder ∅ (setRepair false 0 (setStream (-1) ∅ st))).

Definition requestGap (now throughSeq : Z) (st : Socket) : Socket * bool :=
  if gapPending st then (st, true)
  else
    let fromSeq := lastSeq st + 1 in
    let toSeq := Z.min throughSeq (fromSeq + MAX_RESUME_RECORDS - 1) in
    if toSeq <? fromSeq then (st, true)
    else match takeToken now 0 st with
    | (st, false) => (st, false)
    | (st, true) =>
        let '(st, id) := nextRequestId "g" st in
        match send (CBackfill id fromSeq toSeq) st with
        | (st, false) => (st, false)
        | (st, true) => (setRepair true (noProgressBackfills st) st, true)
        end
    end.

(** ** The ordered stream *)

(** Applies buffered rows that became next; the buffer bounds the loop. *)
Fixpoint drain (fuel : nat) (st : Socket) (applied : list JournalRecord) :
    Socket * list JournalRecord :=
  match fuel with
  | O => (st, applied)
  | S fuel' =>
      match ahead st !! (lastSeq st + 1) with
      | None => (st, applied)
      | Some next =>
          drain fuel' (setStream (seq next) (delete (seq next) (ahead st)) st) (applied ++ [next])
      end
  end.

(** A fresh view starts at the window the server promised. *)
Definition seedCursor (st : Socket) : Socket :=
  if lastSeq st <? 0 then setStream (windowStartSeq st - 1) (ahead st) st else st.

Definition collect (now : Z) (record : JournalRecord) (s : Socket * list JournalRecord) :
    Socket * list JournalRecord :=
  let '(st, applied) := s in
  let st := seedCursor st in
  if seq record <=? lastSeq st then (st, applied)
  else if lastSeq st + 1 <? seq record then
    if MAX_BUFFERED_AHEAD <=? Z.of_nat (size (ahead st))
    then (forceReconnect (resetStream "window" st), applied)
    else
      let st := setStream (lastSeq st) (<[seq record := record]> (ahead st)) st in
      (fst (requestGap now (seq record - 1) st), applied)
  else
    drain (size (ahead st)) (setStream (seq record) (ahead st) st) (applied ++ [record]).

(** Arms the timer that asks for the rows [ready] promised but nobody sent. *)
Definition armResumeGrace (st : Socket) : Socket :=
  setTimer (negb ((sockHead st <? 0) || (sockHead st <=? lastSeq st))) st.

Definition flush (applied : list JournalRecord) (st : Socket) : Socket :=
  match applied with
  | [] => st
  | _ => armResumeGrace
           (onEvent (ERecords applied) (setHead (Z.max (sockHead st) (lastSeq st)) st))
  end.

Definition applyRecord (now : Z) (record : JournalRecord) (st : Socket) : Socket :=
  let '(st, applied) := collect now record (st, []) in flush applied st.

Definition failGapRecovery (st : Socket) : Socket :=
  let st := setRepair false (noProgressBackfills st) st in
  let st := setConnection false true (sockStatus st) (authRetryUsed st) false st in
  setStatus blocked true true st.

(** ** Backfill replies *)

(** A scrollback reply; the caller hears once per range it asked for. *)
Definition handleOlderReply (now : Z) (id : RequestId) (req : OlderRequest) (complete : bool)
    (recs : list JournalRecord) (st : Socket) : Socket :=
  let st := setOlder (delete id (olderRequests st)) st in
  let all := older_records req ++ filter (λ r, older_nextSeq req <= seq r) recs in
  let through := default (older_nextSeq req - 1) (seq <$> last all) in
  let deliver st :=
    onEvent (EOlder all (complete && (older_toSeq req <=? through))
               (older_fromSeq req) (older_toSeq req)) st in
  if negb complete && (through <? older_toSeq req) then
    let '(st, newId) := nextRequestId "o" st in
    match takeToken now 4 st with
    | (st, false) => deliver st
    | (st, true) =>
        match send (CBackfill newId (through + 1) (older_toSeq req)) st with
        | (st, false) => deliver st
        | (st, true) =>
            setOlder (<[newId := {| older_fromSeq := older_fromSeq req;
                                    older_toSeq := older_toSeq req;
                                    older_nextSeq := through + 1; older_records := all |}]>
                        (olderRequests st)) st
        end
    end
  else deliver st.

(** How far the reply was to bring the cursor: to its end, or to the row before the
    first one still buffered. *)
Definition throughSeqOf (toSeq : Z) (st : Socket) : Z :=
  match list_min (map_to_list (ahead st)).*1 with
  | Some k => Z.min toSeq (k - 1)
  | None => toSeq
  end.

Definition handleGapReply (now toSeq : Z) (recs : list JournalRecord) (st : Socket) : Socket :=
  let st := setRepair false (noProgressBackfills st) st in
  let before := lastSeq st in
  let '(st, applied) := foldl (λ s r, collect now r s) (st, []) recs in
  let st := flush applied st in
  let throughSeq := throughSeqOf toSeq st in
  if throughSeq <=? lastSeq st then setRepair (gapPending st) 0 st
  else
    let progressed := before <? lastSeq st in
    let noProgress := if progressed then 0 else noProgressBackfills st + 1 in
    let st := setRepair (gapPending st) noProgress st in
    if negb progressed && (MAX_NO_PROGRESS_BACKFILLS <=? noProgress) then failGapRecovery st
    else if gapPending st then st
    else match requestGap now throughSeq st with
    | (st, true) => st
    | (st, false) => failGapRecovery st
    end.

Definition handleBackfill (now : Z) (id : RequestId) (toSeq : Z) (complete : bool)
    (recs : list JournalRecord) (st : Socket) : Socket :=
  match olderRequests st !! id with
  | Some req => handleOlderReply now id req complete recs st
  | None => handleGapReply now toSeq recs st
  end.

(** ** Frames *)

Definition handleReady (ready : ReadyFrame) (st : Socket) : Socket :=
  let before := lastSeq st in
  let epochChanged := match sockEpoch st with
                      | Some e => negb (e =? ready_epoch ready)
                      | None => false
                      end in
  let st := setConnection (connected st) (stopped st) (sockStatus st) false (resumeTimer st) st in
  let unbridgeable := (0 <=? before) && (before + 1 <? ready_windowStartSeq ready) in
  let st := setServerView (Some (ready_epoch ready)) (ready_headSeq ready)
              (ready_windowStartSeq ready) (ready_floorSeq ready) st in
  let st := if epochChanged || unbridgeable
            then resetStream (if epochChanged then "epoch" else "window") st else st in
  if (0 <=? lastSeq st) && (MAX_CATCHUP_RESUME_RECORDS <? ready_headSeq ready - lastSeq st)
  then forceReconnect (resetStream "window" st)
  else armResumeGrace (setStatus live_ false true (onEvent (EReady ready) st)).

Definition handleFrame (now : Z) (f : ServerFrame) (st : Socket) : Socket :=
  match f with
  | FReady ready => handleReady ready st
  | FRecord record => applyRecord now record st
  | FBackfill id _ toSeq complete recs => handleBackfill now id toSeq complete recs st
  | FGap a b => onEvent (EGap a b) st
  | FReset reason => resetStream reason st
  end.

(** The resume timer. *)
Definition resumeFired (now : Z) (st : Socket) : Socket :=
  let st := setTimer false st in
  if sockHead st <=? lastSeq st then st
  else if gapPending st then st
  else
    let fromSeq := if 0 <=? lastSeq st then lastSeq st + 1
                   else Z.max (sockFloor st) (sockHead st - INITIAL_WINDOW_RECORDS + 1) in
    let toSeq := Z.min (sockHead st) (fromSeq + MAX_RESUME_RECORDS - 1) in
    if toSeq <? fromSeq then st
    else match takeToken now 0 st with
    | (st, false) => st
    | (st, true) =>
        let st := setRepair true (noProgressBackfills st) st in
        let '(st, id) := nextRequestId "g" st in
        fst (send (CBackfill id fromSeq toSeq) st)
    end.

Definition requestOlderRange (now fromSeq toSeq : Z) (st : Socket) : Socket * bool :=
  if (toSeq <? fromSeq) || (fromSeq <? sockFloor st) then (st, false)
  else match takeToken now 4 st with
  | (st, false) => (st, false)
  | (st, true) =>
      let '(st, id) := nextRequestId "o" st in
      match send (CBackfill id fromSeq toSeq) st with
      | (st, false) => (st, false)
      | (st, true) =>
          (setOlder (<[id := {| older_fromSeq := fromSeq; older_toSeq := toSeq;
                                older_nextSeq := fromSeq; older_records := [] |}]>
                       (olderRequests st)) st, true)
      end
  end.

Definition requestOlder (now oldestHeldSeq : Z) (st : Socket) : Socket * bool :=
  if oldestHeldSeq <=? sockFloor st then (st, false)
  else
    let toSeq := oldestHeldSeq - 1 in
    requestOlderRange now (Z.max (sockFloor st) (toSeq - BACKFILL_BATCH_RECORDS + 1)) toSeq st.

Definition handleClose (code : Z) (st : Socket) : Socket :=
  let st := setOlder ∅ (setRepair false 0 (setStream (lastSeq st) ∅ st)) in
  let st := setConnection false (stopped st) (sockStatus st) (authRetryUsed st) false st in
  if bool_decide (code ∈ TERMINAL_CLOSE_CODES) then
    setStatus blocked true (code =? CLOSE_PROTOCOL_VERSION)
      (setConnection false true (sockStatus st) (authRetryUsed st) false st)
  else if code =? CLOSE_UNAUTHENTICATED then
    if authRetryUsed st
    then setStatus blocked true true (setConnection false true (sockStatus st) true false st)
    else
      let st := setConnection false (stopped st) (sockStatus st) true false st in
      if stopped st then st else setStatus offline true true st
  else if stopped st then st else setStatus offline (negb (code =? 1000)) true st.

(** ** Traces *)

Inductive op : Type :=
  | OpFrame (now : Z) (f : ServerFrame)
  | OpResumeTimer (now : Z)
  | OpOlder (now oldestHeldSeq : Z)
  | OpClose (code : Z)
  | OpOpen.

(** A frame, a timer or a close is delivered only to the current open socket. *)
Definition exec (st : Socket) (o : op) : Socket :=
  match o with
  | OpFrame now f => if connected st then handleFrame now f st else st
  | OpResumeTimer now => if resumeTimer st then resumeFired now st else st
  | OpOlder now oldest => fst (requestOlder now oldest st)
  | OpClose code => if connected st then handleClose code st else st
  | OpOpen => if stopped st then st
              else setConnection true false (sockStatus st) (authRetryUsed st) (resumeTimer st) st
  end.

(** The server's side of the protocol: [ready] opens a connection, before any row is
    buffered, with a window that starts at a sequence number; a repair reply is no
    larger than what the client can still buffer. *)
Definition op_ok (st : Socket) (o : op) : Prop :=
  match o with
  | OpFrame _ (FReady ready) => 0 ≤ ready_windowStartSeq ready ∧ ahead st = ∅
  | OpFrame _ (FBackfill id _ _ _ recs) =>
      olderRequests st !! id = None →
      Z.of_nat (size (ahead st)) + Z.of_nat (length recs) ≤ MAX_BUFFERED_AHEAD
  | _ => True
  end.

Fixpoint trace_ok (st : Socket) (ops : list op) : Prop :=
  match ops with
  | [] => True
  | o :: ops' => op_ok st o ∧ trace_ok (exec st o) ops'
  end.

(** What the caller has been given since the last reset. *)
Definition deliver (acc : list JournalRecord) (e : Event) : list JournalRecord :=
  match e with EReset _ => [] | ERecords l => acc ++ l | _ => acc end.

Definition delivered (es : list Event) : list JournalRecord := foldl deliver [] es.

Lemma delivered_snoc es e : delivered (es ++ [e]) = deliver (delivered es) e.
Proof. unfold delivered. by rw foldl_app. Qed.

(** ** The invariant *)

(** [d] is what has been given or is about to be; [last] the cursor. *)
Definition inOrder (d : list JournalRecord) (last : Z) : Prop :=
  d = [] ∨ (0 ≤ last ∧ (∃ from, gapless from d) ∧ lastStoredSeq d = last).

Definition Buffered (st : Socket) : Prop :=
  0 ≤ windowStartSeq st ∧ -1 ≤ lastSeq st ∧ map_Forall (λ k r, seq r = k) (ahead st).

Definition Drained (st : Socket) : Prop := ahead st !! (lastSeq st + 1) = None.

Definition Inv (st : Socket) : Prop :=
  inOrder (delivered (events st)) (lastSeq st) ∧ Buffered st ∧ Drained st ∧
  (lastSeq st < 0 → ahead st = ∅ ∨ windowStartSeq st = 0).

(** The parts of the state the stream depends on are the same. *)
Definition sameStream (st st' : Socket) : Prop :=
  lastSeq st' = lastSeq st ∧ ahead st' = ahead st ∧ events st' = events st ∧
  windowStartSeq st' = windowStartSeq st.

(** The same, up to events that deliver nothing. *)
Definition quiet (st st' : Socket) : Prop :=
  lastSeq st' = lastSeq st ∧ ahead st' = ahead st ∧
  delivered (events st') = delivered (events st) ∧ windowStartSeq st' = windowStartSeq st.

Lemma sameStream_quiet st st' : sameStream st st' → quiet st st'.
Proof. intros (?&?&He&?). split; [done|]. split; [done|]. by rw He. Qed.

Lemma quiet_trans st1 st2 st3 : quiet st1 st2 → quiet st2 st3 → quiet st1 st3.
Proof. unfold quiet. intros (?&?&?&?) (?&?&?&?). repeat split; congruence. Qed.

Lemma socket_Inv_quiet st st' : quiet st st' → Inv st → Inv st'.
Proof. unfold quiet, Inv, Buffered, Drained. by intros (->&->&->&->). Qed.

Lemma setStatus_quiet s m r st : quiet st (setStatus s m r st).
Proof.
  unfold setStatus. case_match; [done|]. split; [done|]. split; [done|]. split; [|done].
  simpl. by rw delivered_snoc.
Qed.

Lemma takeToken_sameStream now r st : sameStream st (fst (takeToken now r st)).
Proof. unfold takeToken. by destruct (take _ _ _). Qed.

Lemma send_sameStream f st : sameStream st (fst (send f st)).
Proof. unfold send. by destruct (connected st). Qed.

Lemma requestGap_sameStream now through st : sameStream st (fst (requestGap now through st)).
Proof.
  unfold requestGap. destruct (gapPending st); [done|]. case_match; [done|].
  pose proof (takeToken_sameStream now 0 st) as Ht.
  destruct (takeToken now 0 st) as [st1 []]; [|done]. simpl in *.
  unfold send. simpl. by destruct (connected st1).
Qed.

Lemma inOrder_extend d last r :
  -1 ≤ last → inOrder d last → seq r = last + 1 → inOrder (d ++ [r]) (seq r).
Proof.
  intros Hlast Hd Hr. right. split; [lia|]. split.
  - destruct Hd as [->|(_ & [from Hg] & Hl)]; [by exists (seq r)|].
    destruct (decide (d = [])) as [->|Hne]; [by exists (seq r)|]. exists from.
    apply gapless_app_last; [done|done|]. simpl. split; [lia|done].
  - unfold lastStoredSeq. by rw last_snoc.
Qed.

(** While a batch is collected: the rows given so far and those applied are in order. *)
Definition Collecting (st : Socket) (applied : list JournalRecord) : Prop :=
  inOrder (delivered (events st) ++ applied) (lastSeq st) ∧ Buffered st ∧
  (lastSeq st < 0 → ahead st = ∅ ∨ windowStartSeq st = 0).

Lemma drain_Collecting fuel st applied :
  Collecting st applied →
  let '(st', applied') := drain fuel st applied in
  Collecting st' applied' ∧ events st' = events st ∧ (size (ahead st') ≤ size (ahead st))%nat ∧
  ((size (ahead st) ≤ fuel)%nat → Drained st').
Proof.
  revert st applied. induction fuel as [|fuel IH]; intros st applied HC; simpl.
  { split; [done|]. split; [done|]. split; [done|]. intros Hs. unfold Drained.
    assert (ahead st = ∅) as -> by (apply map_size_empty_iff; lia). apply lookup_empty. }
  destruct (ahead st !! (lastSeq st + 1)) as [next|] eqn:Hn;
    [|by split; [done|split; [done|split; [done|intros _]]]].
  destruct HC as (Ho & (Hw & Hl & Ha) & Hneg). pose proof (Ha _ _ Hn) as Hseq.
  simpl in Hseq. set (st1 := setStream (seq next) (delete (seq next) (ahead st)) st).
  assert (HC1 : Collecting st1 (applied ++ [next])).
  { unfold st1. split; [|split].
    - simpl. rw assoc. by eapply inOrder_extend.
    - split; [done|]. split; [simpl; lia|]. by apply map_Forall_delete.
    - simpl. intros Hlt. lia. }
  specialize (IH st1 _ HC1). destruct (drain fuel st1 _) as [st' applied'].
  destruct IH as (? & He & Hsz & Hd). split; [done|]. split; [done|].
  assert (size (ahead st1) = Nat.pred (size (ahead st))) as Hsz1.
  { simpl. rw Hseq map_size_delete_Some; [by eexists|]. lia. }
  split; [lia|]. intros Hf. apply Hd. lia.
Qed.

Lemma seedCursor_Collecting st applied :
  Collecting st applied →
  Collecting (seedCursor st) applied ∧ ahead (seedCursor st) = ahead st ∧
  events (seedCursor st) = events st ∧ (Drained st → Drained (seedCursor st)) ∧
  (lastSeq (seedCursor st) < 0 → windowStartSeq (seedCursor st) = 0).
Proof.
  intros (Ho & (Hw & Hl & Ha) & Hneg). unfold seedCursor.
  destruct (lastSeq st <? 0) eqn:E; bool_to_prop.
  2: { split; [done|]. split; [done|]. split; [done|]. split; [done|lia]. }
  destruct Ho as [Ho|(? & _)]; [|lia].
  split; [|split; [done|split; [done|split; [|simpl; lia]]]].
  - split; [by left|]. split; [split; [done|split; [simpl; lia|done]]|].
    simpl. intros. right. lia.
  - unfold Drained. simpl. destruct (Hneg E) as [->|Hw0]; [intros; apply lookup_empty|].
    assert (windowStartSeq st - 1 = lastSeq st) as -> by lia. done.
Qed.

(** One row of a batch, when the buffer has room. *)
Lemma collect_Collecting now r st applied :
  Collecting st applied → Drained st → Z.of_nat (size (ahead st)) < MAX_BUFFERED_AHEAD →
  let '(st', applied') := collect now r (st, applied) in
  Collecting st' applied' ∧ Drained st' ∧ events st' = events st ∧
  (size (ahead st') ≤ S (size (ahead st)))%nat.
Proof.
  intros HC HD Hroom. unfold collect.
  destruct (seedCursor_Collecting st applied HC) as (HC1 & Ha1 & He1 & HD1 & Hw0).
  specialize (HD1 HD). set (st1 := seedCursor st) in *. clearbody st1.
  rw -Ha1 in Hroom |- *. rw -He1. clear HC HD Ha1 He1 st.
  destruct HC1 as (Ho & (Hw & Hl & Ha) & Hneg).
  destruct (seq r <=? lastSeq st1) eqn:E1; bool_to_prop.
  { split; [done|]. split; [done|]. split; [done|lia]. }
  destruct (lastSeq st1 + 1 <? seq r) eqn:E2; bool_to_prop.
  - destruct (MAX_BUFFERED_AHEAD <=? _) eqn:E3; bool_to_prop; [lia|].
    set (st2 := setStream (lastSeq st1) (<[seq r := r]> (ahead st1)) st1).
    pose proof (requestGap_sameStream now (seq r - 1) st2) as (Q1 & Q2 & Q3 & Q4).
    split; [|split; [|split; [done|]]].
    + split; [rw Q3 Q1; exact Ho|]. split.
      * unfold Buffered. rw Q1 Q2 Q4. split; [done|]. split; [done|].
        by apply map_Forall_insert_2.
      * rw Q1 Q2 Q4. intros Hlt. right. by apply Hw0.
    + unfold Drained. rw Q1 Q2. simpl. rw lookup_insert_ne; [lia|]. exact HD1.
    + rw Q2. simpl. pose proof (map_size_insert (seq r) r (ahead st1)) as ->. case_match; simpl; lia.
  - pose proof (drain_Collecting (size (ahead st1)) (setStream (seq r) (ahead st1) st1)
      (applied ++ [r])) as Hdr.
    destruct (drain _ _ _) as [st' applied'].
    destruct Hdr as (? & He & Hs & Hd); [|split; [done|split; [by apply Hd|split; [done|simpl in Hs; lia]]]].
    split; [|split].
    + simpl. rw assoc. eapply inOrder_extend; [exact Hl|done|lia].
    + split; [done|]. split; [simpl; lia|done].
    + simpl. intros. lia.
Qed.

Lemma fold_collect_Collecting now recs st applied :
  Collecting st applied → Drained st →
  Z.of_nat (size (ahead st)) + Z.of_nat (length recs) ≤ MAX_BUFFERED_AHEAD →
  let '(st', applied') := foldl (λ s r, collect now r s) (st, applied) recs in
  Collecting st' applied' ∧ Drained st' ∧ events st' = events st.
Proof.
  revert st applied; induction recs as [|r recs IH]; intros st applied HC HD Hroom.
  { by split. }
  change (foldl (λ s r, collect now r s) (st, applied) (r :: recs)) with
    (foldl (λ s r, collect now r s) (collect now r (st, applied)) recs).
  simpl in Hroom. pose proof (collect_Collecting now r st applied HC HD ltac:(lia)) as H.
  destruct (collect now r (st, applied)) as [st1 applied1]. destruct H as (HC1 & HD1 & He & Hs).
  specialize (IH st1 applied1 HC1 HD1 ltac:(lia)). by rw He in IH.
Qed.

Lemma flush_Inv applied st : Collecting st applied → Drained st → Inv (flush applied st).
Proof.
  intros (Ho & Hb & Hn) HD. unfold flush. destruct applied as [|r l].
  - rw app_nil_r in Ho. by split.
  - split; [|by split]. simpl. by rw delivered_snoc.
Qed.

Lemma Inv_Collecting st : Inv st → Collecting st [] ∧ Drained st.
Proof. intros (Ho & Hb & Hd & Hn). split; [split; [by rw app_nil_r|done]|done]. Qed.

Lemma resetStream_Inv reason st : 0 ≤ windowStartSeq st → Inv (resetStream reason st).
Proof.
  intros Hw. unfold resetStream. split; [simpl; rw delivered_snoc; by left|].
  split; [split; [done|split; [simpl; lia|apply map_Forall_empty]]|].
  split; [apply lookup_empty|]. by left.
Qed.

Lemma forceReconnect_quiet st : quiet st (forceReconnect st).
Proof.
  unfold forceReconnect. set (st1 := setConnection _ _ _ _ _ st).
  assert (quiet st st1) by done. destruct (stopped st1); [done|].
  eapply quiet_trans; [done|apply setStatus_quiet].
Qed.

(** A buffer overflow on a single row resets the stream and reconnects. *)
Lemma applyRecord_Inv now r st : Inv st → Inv (applyRecord now r st).
Proof.
  intros HI. destruct (Inv_Collecting _ HI) as [HC HD]. unfold applyRecord.
  destruct (decide (Z.of_nat (size (ahead st)) < MAX_BUFFERED_AHEAD)) as [Hroom|Hfull].
  - pose proof (collect_Collecting now r st [] HC HD Hroom) as H.
    destruct (collect now r (st, [])) as [st' applied']. destruct H as (HC' & HD' & _).
    by apply flush_Inv.
  - destruct (seedCursor_Collecting st [] HC) as (HC1 & Ha1 & He1 & HD1 & Hw1).
    specialize (HD1 HD). unfold collect. set (st1 := seedCursor st) in *. clearbody st1.
    destruct (seq r <=? lastSeq st1) eqn:E1; [by apply flush_Inv|].
    destruct (lastSeq st1 + 1 <? seq r) eqn:E2; bool_to_prop.
    + destruct (MAX_BUFFERED_AHEAD <=? _) eqn:E3; bool_to_prop; [|rw Ha1 in E3; lia].
      eapply socket_Inv_quiet; [apply forceReconnect_quiet|]. apply resetStream_Inv. apply HC1.
    + destruct HC1 as (Ho & (Hw & Hl & Ha) & Hneg).
      pose proof (drain_Collecting (size (ahead st1)) (setStream (seq r) (ahead st1) st1)
        ([] ++ [r])) as Hdr.
      destruct (drain _ _ _) as [st' applied'].
      destruct Hdr as (? & He & Hs & Hd); [|apply flush_Inv; [done|by apply Hd]].
      split; [|split].
      * simpl. rw app_nil_r in Ho. eapply inOrder_extend; [exact Hl|done|lia].
      * split; [done|]. split; [simpl; lia|done].
      * simpl. intros. lia.
Qed.

Lemma setRepair_quiet p n st : quiet st (setRepair p n st).
Proof. done. Qed.

Lemma failGapRecovery_quiet st : quiet st (failGapRecovery st).
Proof.
  unfold failGapRecovery. eapply quiet_trans; [|apply setStatus_quiet]. done.
Qed.

Lemma handleGapReply_Inv now toSeq recs st :
  Inv st → Z.of_nat (size (ahead st)) + Z.of_nat (length recs) ≤ MAX_BUFFERED_AHEAD →
  Inv (handleGapReply now toSeq recs st).
Proof.
  intros HI Hroom. unfold handleGapReply.
  set (st0 := setRepair false (noProgressBackfills st) st).
  assert (HI0 : Inv st0) by (by eapply socket_Inv_quiet; [apply setRepair_quiet|]).
  destruct (Inv_Collecting _ HI0) as [HC HD].
  pose proof (fold_collect_Collecting now recs st0 [] HC HD Hroom) as H.
  destruct (foldl _ (st0, []) recs) as [st1 applied]. destruct H as (HC1 & HD1 & _).
  pose proof (flush_Inv _ _ HC1 HD1) as HI2. set (st2 := flush applied st1) in *. clearbody st2.
  destruct (_ <=? lastSeq st2); [by eapply socket_Inv_quiet; [apply setRepair_quiet|]|].
  set (st3 := setRepair (gapPending st2) _ st2).
  assert (HI3 : Inv st3) by (by eapply socket_Inv_quiet; [apply setRepair_quiet|]).
  destruct (_ && _); [by eapply socket_Inv_quiet; [apply failGapRecovery_quiet|]|].
  destruct (gapPending st3); [done|].
  pose proof (requestGap_sameStream now (throughSeqOf toSeq st2) st3) as Hq.
  destruct (requestGap _ _ _) as [st4 []]; simpl in Hq; apply sameStream_quiet in Hq.
  - by eapply socket_Inv_quiet.
  - eapply socket_Inv_quiet; [|exact HI3]. eapply quiet_trans; [done|apply failGapRecovery_quiet].
Qed.

Lemma handleOlderReply_quiet now id req c recs st : quiet st (handleOlderReply now id req c recs st).
Proof.
  assert (Hdel : ∀ st l c a b, quiet st (onEvent (EOlder l c a b) st)).
  { intros. split; [done|]. split; [done|]. split; [|done]. simpl. by rw delivered_snoc. }
  unfold handleOlderReply. set (st0 := setOlder _ st). assert (quiet st st0) by done.
  destruct (_ && _); [|by eapply quiet_trans].
  simpl. set (st1 := setWire _ _ _ st0). assert (quiet st st1) by done.
  pose proof (sameStream_quiet _ _ (takeToken_sameStream now 4 st1)) as Ht.
  destruct (takeToken now 4 st1) as [st2 []]; simpl in Ht;
    [|by eapply quiet_trans; [|apply Hdel]; eapply quiet_trans].
  assert (quiet st st2) by by eapply quiet_trans.
  unfold send. destruct (connected st2); [done|]. by eapply quiet_trans.
Qed.

Lemma handleReady_Inv ready st :
  0 ≤ ready_windowStartSeq ready → ahead st = ∅ → Inv st → Inv (handleReady ready st).
Proof.
  intros Hw Ha (Ho & (_ & Hl & _) & _ & _). unfold handleReady.
  set (st1 := setServerView _ _ _ _ _).
  assert (HI1 : Inv st1).
  { split; [done|]. split; [split; [done|split; [done|]]|]; simpl; rw Ha.
    - apply map_Forall_empty.
    - split; [unfold Drained; simpl; rw Ha; apply lookup_empty|by left]. }
  set (st2 := if _ || _ then resetStream _ st1 else st1).
  assert (HI2 : Inv st2 ∧ windowStartSeq st2 = ready_windowStartSeq ready).
  { unfold st2. destruct (_ || _); [|done]. split; [by apply resetStream_Inv|done]. }
  clearbody st2. destruct HI2 as [HI2 Hw2]. destruct (_ && _).
  - eapply socket_Inv_quiet; [apply forceReconnect_quiet|]. apply resetStream_Inv. by rw Hw2.
  - eapply socket_Inv_quiet; [|exact HI2].
    eapply quiet_trans; [|eapply quiet_trans; [apply (setStatus_quiet live_ false true)|done]].
    split; [done|]. split; [done|]. split; [|done]. simpl. by rw delivered_snoc.
Qed.

Lemma resumeFired_sameStream now st : sameStream st (resumeFired now st).
Proof.
  unfold resumeFired. set (st0 := setTimer false st). assert (sameStream st st0) by done.
  do 2 (case_match; [done|]). case_match; [done|].
  pose proof (takeToken_sameStream now 0 st0) as Ht.
  destruct (takeToken now 0 st0) as [st1 []]; simpl in Ht; [|done].
  simpl. unfold send. by destruct (connected _).
Qed.

Lemma requestOlder_sameStream now o st : sameStream st (fst (requestOlder now o st)).
Proof.
  unfold requestOlder, requestOlderRange. case_match; [done|]. case_match; [done|].
  pose proof (takeToken_sameStream now 4 st) as Ht.
  destruct (takeToken now 4 st) as [st1 []]; simpl in Ht; [|done].
  simpl. unfold send. by destruct (connected _).
Qed.

Lemma handleClose_Inv code st : Inv st → Inv (handleClose code st).
Proof.
  intros (Ho & (Hw & Hl & _) & _ & _). unfold handleClose.
  set (st0 := setOlder ∅ (setRepair false 0 (setStream (lastSeq st) ∅ st))).
  assert (HI0 : Inv st0).
  { split; [done|]. split; [split; [done|split; [done|apply map_Forall_empty]]|].
    split; [apply lookup_empty|by left]. }
  assert (Hq : ∀ a b c d e, quiet st0 (setConnection a b c d e st0)) by done.
  repeat case_match; (eapply socket_Inv_quiet; [|exact HI0]); try done;
    (eapply quiet_trans; [|apply setStatus_quiet]); done.
Qed.

Lemma socket_exec_Inv st o : op_ok st o → Inv st → Inv (exec st o).
Proof.
  intros Hok HI. destruct o as [now f|now|now oldest|code|]; simpl.
  - destruct (connected st); [|done]. destruct f as [ready|r|id a b c recs|a b|reason]; simpl in *.
    + destruct Hok. by apply handleReady_Inv.
    + by apply applyRecord_Inv.
    + unfold handleBackfill. destruct (olderRequests st !! id) as [req|] eqn:E.
      * by eapply socket_Inv_quiet; [apply handleOlderReply_quiet|].
      * apply handleGapReply_Inv; [done|by apply Hok].
    + eapply socket_Inv_quiet; [|exact HI]. split; [done|]. split; [done|]. split; [|done].
      simpl. by rw delivered_snoc.
    + apply resetStream_Inv. apply HI.
  - destruct (resumeTimer st); [|done].
    by eapply socket_Inv_quiet; [apply sameStream_quiet, resumeFired_sameStream|].
  - by eapply socket_Inv_quiet; [apply sameStream_quiet, requestOlder_sameStream|].
  - destruct (connected st); [|done]. by apply handleClose_Inv.
  - by destruct (stopped st).
Qed.

Lemma socket_run_Inv ops st : trace_ok st ops → Inv st → Inv (foldl exec st ops).
Proof.
  revert st; induction ops as [|o ops IH]; intros st; simpl; [done|].
  intros [Ho Hops] HI. apply IH; [done|by apply socket_exec_Inv].
Qed.

(** A socket as the constructor leaves it: cold, or with a replica's cursor. *)
Record ConversationSocketCursor := {
  c_epoch : Z; c_lastSeq : Z; c_headSeq : Z; c_floorSeq : Z; c_windowStartSeq : Z;
}.

(** The cursor is used only if it is structurally a complete suffix. *)
Definition cursorUsable (c : ConversationSocketCursor) : bool :=
  (0 <=? c_epoch c) && (-1 <=? c_lastSeq c) && (c_headSeq c =? c_lastSeq c) &&
  (0 <=? c_floorSeq c) && (c_floorSeq c <=? c_windowStartSeq c) &&
  ((c_lastSeq c <? 0) || (c_windowStartSeq c <=? c_lastSeq c)).

Definition newSocket (now : Z) (cursor : option ConversationSocketCursor) : Socket :=
  let base := {|
    connected := false; stopped := true; sockStatus := idle; lastSeq := -1; sockEpoch := None;
    sockHead := -1; windowStartSeq := 0; sockFloor := 0; ahead := ∅; gapPending := false;
    noProgressBackfills := 0; requestCounter := 0; olderRequests := ∅;
    budget := {| tokens := num_of_Z RATE_BACKFILL_PER_MIN; refilledAt := now |};
    authRetryUsed := false; resumeTimer := false; events := []; sent := [] |} in
  match cursor with
  | Some c =>
      if cursorUsable c
      then setServerView (Some (c_epoch c)) (c_headSeq c) (c_windowStartSeq c) (c_floorSeq c)
             (setStream (c_lastSeq c) ∅ base)
      else base
  | None => base
  end.

(** [start]. *)
Definition start (st : Socket) : Socket :=
  if stopped st
  then setStatus connecting false true
         (setConnection (connected st) false (sockStatus st) (authRetryUsed st) (resumeTimer st) st)
  else st.

Lemma newSocket_Inv now cursor : Inv (start (newSocket now cursor)).
Proof.
  assert (Inv (newSocket now cursor)) as HI.
  { destruct cursor as [c|]; simpl; [|by repeat split; try left].
    destruct (cursorUsable c) eqn:E; [|by repeat split; try left].
    unfold cursorUsable in E. bool_to_prop. split; [by left|].
    split; [split; [simpl; lia|split; [simpl; lia|apply map_Forall_empty]]|].
    split; [apply lookup_empty|by left]. }
  unfold start. case_match; [|done]. by eapply socket_Inv_quiet; [apply setStatus_quiet|].
Qed.

(** ** Properties *)

(** C8: exactly once, in order, as long as the server keeps to its side of the protocol.  Whatever
    rows it sends (repeats, rows out of order, holes), with any resets, closes and reopens, the
    rows the caller has been handed since the last [reset] are gapless and without repeats, they
    end at the cursor, and no buffered row that could be delivered is held back.  The server's
    side ([trace_ok]) is that [ready] comes while no row is buffered, with a window start of at
    least 0, and that a repair reply fits what the client can still buffer; where a reply does
    not, [overflow_in_reply_delivers_after_reset] shows rows delivered after the reset. *)
Theorem socket_stream_is_gapless now cursor ops :
  let st0 := start (newSocket now cursor) in
  trace_ok st0 ops →
  let st := foldl exec st0 ops in
  (∃ from, gapless from (delivered (events st))) ∧
  (delivered (events st) ≠ [] → lastStoredSeq (delivered (events st)) = lastSeq st) ∧
  ahead st !! (lastSeq st + 1) = None.
Proof.
  intros st0 Hok st. destruct (socket_run_Inv ops st0 Hok (newSocket_Inv now cursor)) as (Ho & _ & Hd & _).
  fold st in Ho, Hd. split; [|split; [|exact Hd]].
  - destruct Ho as [->|(_ & [from Hg] & _)]; [by exists 0|by exists from].
  - intros Hne. by destruct Ho as [?|(_ & _ & ?)].
Qed.

(** a repair reply is never dropped silently.  After any [backfill] answer to a gap
    request the range is resolved, or another request is in flight, or the socket has
    stopped with a [blocked] status the user sees; and a server that keeps answering
    without progress is asked at most [MAX_NO_PROGRESS_BACKFILLS] times. *)
Theorem socket_gap_reply_is_never_silent now toSeq recs st :
  let st' := handleGapReply now toSeq recs st in
  (throughSeqOf toSeq st' ≤ lastSeq st' ∨ gapPending st' = true ∨
   (stopped st' = true ∧ sockStatus st' = blocked)) ∧
  (noProgressBackfills st' < MAX_NO_PROGRESS_BACKFILLS ∨ stopped st' = true).
Proof.
  intros st'. subst st'. unfold handleGapReply.
  destruct (foldl _ _ recs) as [st1 applied]. set (st2 := flush applied st1). clearbody st2.
  assert (Hfail : ∀ s, stopped (failGapRecovery s) = true ∧ sockStatus (failGapRecovery s) = blocked).
  { intros s. unfold failGapRecovery, setStatus. simpl. by destruct (sockStatus s). }
  destruct (_ <=? lastSeq st2) eqn:E; bool_to_prop; [split; left; [done|by vm_compute]|].
  set (progressed := _ <? lastSeq st2). set (n := if progressed then 0 else _).
  set (st3 := setRepair (gapPending st2) n st2).
  destruct (negb progressed && _) eqn:E2.
  { split; [right; right; apply Hfail|right; apply Hfail]. }
  assert (Hn : n < MAX_NO_PROGRESS_BACKFILLS).
  { unfold n in *. apply andb_false_iff in E2 as [E2|E2]; [|by apply Z.leb_gt in E2].
    apply negb_false_iff in E2. rw E2. by vm_compute. }
  destruct (gapPending st3) eqn:Eg; [split; [by right; left|by left]|].
  assert (Hg : ∀ s, snd (requestGap now (throughSeqOf toSeq st2) st3) = true →
    s = fst (requestGap now (throughSeqOf toSeq st2) st3) →
    (throughSeqOf toSeq s ≤ lastSeq s ∨ gapPending s = true) ∧ noProgressBackfills s = n).
  { intros s Hs ->. unfold requestGap in Hs |- *. rw Eg in Hs |- *.
    destruct (_ <? lastSeq st3 + 1) eqn:Et.
    - bool_to_prop. split; [|done]. left. unfold MAX_RESUME_RECORDS in Et.
      change (throughSeqOf toSeq st3) with (throughSeqOf toSeq st2). simpl. simpl in Et. lia.
    - unfold takeToken, send in *. destruct (take _ _ _) as [b []]; [|done]. simpl in *.
      destruct (connected st2); [|done]. split; [by right|done]. }
  destruct (requestGap _ _ _) as [st4 []] eqn:Er.
  - destruct (Hg st4 eq_refl eq_refl) as [[?|?] Hnp]; (split; [tauto|left; by rw Hnp]).
  - split; [right; right; apply Hfail|right; apply Hfail].
Qed.

(** ** Witnesses *)

Definition ex_ready : ReadyFrame := {|
  ready_epoch := 1; ready_headSeq := 14; ready_windowStartSeq := 10; ready_floorSeq := 0;
  ready_live := None;
|}.

(** Row 11 is lost, 12 and 13 arrive early, 10 is repeated, then 11 is repaired. *)
Definition ex_ops : list op :=
  [OpOpen; OpFrame 0 (FReady ex_ready); OpFrame 0 (FRecord (ex_row 10));
   OpFrame 1 (FRecord (ex_row 12)); OpFrame 1 (FRecord (ex_row 10));
   OpFrame 2 (FRecord (ex_row 13)); OpFrame 3 (FBackfill ("g"%string, 1) 11 11 true [ex_row 11]);
   OpFrame 4 (FRecord (ex_row 14))].

Lemma socket_stream_is_gapless_witness :
  let st := foldl exec (start (newSocket 0 None)) ex_ops in
  delivered (events st) = ex_row <$> [10; 11; 12; 13; 14] ∧ lastSeq st = 14 ∧
  lastStoredSeq (delivered (events st)) = lastSeq st.
Proof.
  split; [by vm_compute|]. split; [by vm_compute|].
  apply (socket_stream_is_gapless 0 None ex_ops).
  - repeat split; try (by vm_compute); intros _; by vm_compute.
  - by vm_compute.
Defined.

(** ** Outside the assumption of [op_ok]

    When a repair reply overflows the buffer halfway, [collect] resets the stream but
    the loop of [handleBackfill] goes on, and the rows it had applied before the reset
    are handed over after it; the next connection then continues elsewhere. *)

Definition ex_overflow_ops : list op :=
  [OpOpen; OpFrame 0 (FReady ex_ready); OpFrame 0 (FRecord (ex_row 10))] ++
  ((λ n : nat, OpFrame 1 (FRecord (ex_row (1000 + Z.of_nat n)))) <$> List.seq 0 512) ++
  [OpFrame 2 (FBackfill ("g"%string, 1) 11 999 false [ex_row 11; ex_row 20])].

Definition ex_overflow : Socket := foldl exec (start (newSocket 0 None)) ex_overflow_ops.

(** Row 11 is delivered after the reset. *)
Example overflow_in_reply_delivers_after_reset :
  drop 4 (events ex_overflow) =
    [EReset "window"; EStatus connecting true; ERecords [ex_row 11]; EStatus blocked true].
Proof. by vm_compute. Qed.
