(* ===== verification/Json.v ===== *)
(** * JSON values and texts

    What the journal reads and writes through [JSON.parse] and [JSON.stringify]: the
    value tree, the text [stringify] writes for it, and the property reads
    ([message.content], [block.type]) the code makes on values of unknown shape.

    A column or body that holds JSON text is a [text]: the text [JSON.stringify]
    writes for a value, or characters that are not JSON, on which [JSON.parse]
    throws. *)

From Corelib Require Import ssreflect.
From stdpp Require Import prelude strings list pretty.
From S2P Require Import Prelude JsString.

#[local] Open Scope Z_scope.

(** A value [JSON.parse] can return.  A number is an integer, or is kept as the
    numeral written for it ([1.5], [1e21]). *)
Inductive json : Type :=
  | JNull
  | JBool (b : bool)
  | JInt (n : Z)
  | JNumeral (numeral : string)
  | JStr (s : string)
  | JArr (items : list json)
  | JObj (fields : list (string * json)).

Definition json_eq_dec : ∀ v w : json, {v = w} + {v ≠ w}.
Proof.
  fix IH 1. intros v w. decide equality.
  - apply Bool.bool_dec.
  - apply Z.eq_dec.
  - apply (String.string_dec _ _).
  - apply (String.string_dec _ _).
  - apply (List.list_eq_dec IH).
  - apply List.list_eq_dec. intros [k x] [k' x'].
    destruct (String.string_dec k k') as [->|Hk]; [|right; congruence].
    destruct (IH x x') as [->|Hx]; [by left|right; congruence].
Defined.

#[export] Instance json_eq_decision : EqDecision json := json_eq_dec.

(** The fields of a message: an object by its type. *)
Definition fields : Type := list (string * json).

Fixpoint assoc (name : string) (l : fields) : option json :=
  match l with
  | [] => None
  | (k, v) :: l' => if String.eqb k name then Some v else assoc name l'
  end.

(** [(v as { name?: unknown }).name] on a value that is not null: [None] is
    [undefined]. *)
Definition prop (name : string) (v : json) : option json :=
  match v with JObj l => assoc name l | _ => None end.

(** [typeof x === "string"], "boolean" and "number", with the value. *)
Definition asString (x : option json) : option string :=
  match x with Some (JStr s) => Some s | _ => None end.
Definition asBoolean (x : option json) : option bool :=
  match x with Some (JBool b) => Some b | _ => None end.
Definition asNumber (x : option json) : option json :=
  match x with Some (JInt n) => Some (JInt n) | Some (JNumeral n) => Some (JNumeral n) | _ => None end.

(** [{...(x !== undefined ? { name: x } : {})}]. *)
Definition optField (name : string) (x : option json) : fields :=
  match x with Some v => [(name, v)] | None => [] end.

(** ** Texts *)

Definition quote (s : string) : string := String quotationMark (jsonChars s EmptyString).

Fixpoint join (sep : string) (l : list string) : string :=
  match l with
  | [] => EmptyString
  | [s] => s
  | s :: l' => s +:+ sep +:+ join sep l'
  end.

(** The text [JSON.stringify] writes. *)
Fixpoint stringify (v : json) : string :=
  match v with
  | JNull => "null"
  | JBool b => if b then "true" else "false"
  | JInt n => pretty n
  | JNumeral s => s
  | JStr s => quote s
  | JArr l => "[" +:+ join "," (List.map stringify l) +:+ "]"
  | JObj l =>
      "{" +:+ join "," (List.map (λ kv, quote kv.1 +:+ ":" +:+ stringify kv.2) l) +:+ "}"
  end.

Inductive text : Type :=
  | Stringified (v : json)
  | RawText (characters : string).

#[export] Instance text_eq_decision : EqDecision text.
Proof. solve_decision. Defined.

Definition JSON_stringify (v : json) : text := Stringified v.

(** [None] is the [SyntaxError]. *)
Definition JSON_parse (t : text) : option json :=
  match t with Stringified v => Some v | RawText _ => None end.

Definition characters (t : text) : string :=
  match t with Stringified v => stringify v | RawText s => s end.

Definition textBytes (t : text) : Z := utf8Length (characters t).

Lemma textBytes_nonneg t : 0 ≤ textBytes t.
Proof. apply utf8Length_nonneg. Qed.

#[export] Hint Resolve textBytes_nonneg : stella.

Lemma assoc_app_None name l l' : assoc name l = None → assoc name (l ++ l') = assoc name l'.
Proof. induction l as [|[k v] l IH]; simpl; [done|]. by case_match. Qed.
