(* ===== verification/SqlTable.v ===== *)
(** * Ordered reads of a table

    [SELECT ... ORDER BY key] over a table whose INTEGER PRIMARY KEY is the map's
    key: the rows in ascending key order, with the facts the scans of the journal
    and of the segment manifest need. *)

From Corelib Require Import ssreflect.
From stdpp Require Import prelude gmap sorting.
From S2P Require Import Prelude.

#[local] Open Scope Z_scope.

Definition keyLe {A} (x y : Z * A) : Prop := x.1 ≤ y.1.
Definition keyLt {A} (x y : Z * A) : Prop := x.1 < y.1.

#[export] Instance keyLe_dec {A} (x y : Z * A) : Decision (keyLe x y).
Proof. unfold keyLe. apply _. Defined.

(** [SELECT * FROM t ORDER BY key ASC]. *)
Definition ordered {A} (m : gmap Z A) : list (Z * A) := merge_sort keyLe (map_to_list m).

(** [SELECT * FROM t WHERE p ORDER BY key ASC]. *)
Definition selectAsc {A} (p : A → bool) (m : gmap Z A) : list A :=
  filter (λ a, p a = true) (ordered m).*2.

(** [... ORDER BY key DESC]. *)
Definition selectDesc {A} (p : A → bool) (m : gmap Z A) : list A := reverse (selectAsc p m).

(** [... LIMIT n] of a list of rows; a negative limit is no limit. *)
Definition limit {A} (n : Z) (l : list A) : list A := if n <? 0 then l else take (Z.to_nat n) l.

Section ordered.
Context {A : Type}.
Implicit Types (m : gmap Z A) (k : Z) (v : A).

#[local] Instance keyLe_trans : Transitive (@keyLe A).
Proof. intros x y z. unfold keyLe. lia. Qed.
#[local] Instance keyLe_total : Total (@keyLe A).
Proof. intros x y. unfold keyLe. lia. Qed.

Lemma ordered_perm m : ordered m ≡ₚ map_to_list m.
Proof. apply merge_sort_Permutation. Qed.

Lemma elem_of_ordered m k v : (k, v) ∈ ordered m ↔ m !! k = Some v.
Proof. by rw ordered_perm elem_of_map_to_list. Qed.

Lemma NoDup_ordered m : NoDup (ordered m).*1.
Proof. rw ordered_perm. apply NoDup_fst_map_to_list. Qed.

Lemma StronglySorted_keyLt (l : list (Z * A)) :
  StronglySorted keyLe l → NoDup l.*1 → StronglySorted keyLt l.
Proof.
  induction 1 as [|x l Hs IH Hx]; [constructor|].
  rw fmap_cons NoDup_cons. intros [Hni Hnd]. constructor; [by apply IH|].
  apply Forall_forall. intros y Hy.
  pose proof (proj1 (Forall_forall _ _) Hx y Hy) as Hle. unfold keyLe in Hle.
  assert (x.1 ≠ y.1); [|unfold keyLt; lia].
  intros Heq. apply Hni. rw Heq. by apply list_elem_of_fmap_2.
Qed.

Lemma ordered_sorted m : StronglySorted keyLt (ordered m).
Proof.
  apply StronglySorted_keyLt; [|apply NoDup_ordered].
  apply StronglySorted_merge_sort; apply _.
Qed.

(** A list sorted by strictly increasing keys is the ordered read of the table it
    holds. *)
Lemma sorted_unique (l1 l2 : list (Z * A)) :
  StronglySorted keyLt l1 → StronglySorted keyLt l2 → l1 ≡ₚ l2 → l1 = l2.
Proof.
  intros H1 H2. apply (StronglySorted_unique_strong keyLt); [|done..].
  intros x y _ _. unfold keyLt. lia.
Qed.

Lemma ordered_eq m (l : list (Z * A)) :
  StronglySorted keyLt l → (∀ k v, (k, v) ∈ l ↔ m !! k = Some v) → ordered m = l.
Proof.
  intros Hl Hin. apply sorted_unique; [apply ordered_sorted|done|].
  apply NoDup_Permutation.
  - eapply NoDup_fmap_1, NoDup_ordered.
  - clear Hin. induction Hl as [|x l Hl IH Hx]; constructor; [|done].
    intros Hxl. pose proof (proj1 (Forall_forall _ _) Hx x Hxl) as Hlt. unfold keyLt in Hlt. lia.
  - intros [k v]. by rw elem_of_ordered Hin.
Qed.

Lemma ordered_empty : ordered (∅ : gmap Z A) = [].
Proof. apply ordered_eq; [constructor|]. intros k v. rw lookup_empty. by rw elem_of_nil. Qed.

(** A row whose key is past every key of the table comes last. *)
Lemma ordered_insert_last m k v :
  (∀ k' v', m !! k' = Some v' → k' < k) → ordered (<[k:=v]> m) = ordered m ++ [(k, v)].
Proof.
  intros Hk. apply ordered_eq.
  - apply StronglySorted_app_2; [|apply ordered_sorted|repeat constructor].
    intros [k1 v1] y H1 ->%list_elem_of_singleton. unfold keyLt; simpl.
    apply elem_of_ordered in H1. eauto.
  - intros k' v'. rw elem_of_app elem_of_ordered list_elem_of_singleton.
    destruct (decide (k = k')) as [<-|Hne].
    + rw lookup_insert_eq. split.
      * intros [Hv|[= ->]]; [|done]. specialize (Hk _ _ Hv). lia.
      * intros [= ->]. by right.
    + rw lookup_insert_ne //. split; [intros [?|[=]]; by simplify_eq|by left].
Qed.

Lemma elem_of_selectAsc (p : A → bool) m v :
  v ∈ selectAsc p m ↔ p v = true ∧ ∃ k, m !! k = Some v.
Proof.
  unfold selectAsc. rw list_elem_of_filter list_elem_of_fmap.
  split; intros [Hp H]; (split; [done|]).
  - destruct H as ([k v'] & -> & H%elem_of_ordered). eauto.
  - destruct H as [k H]. exists (k, v). by rw elem_of_ordered.
Qed.

Lemma selectAsc_insert_last (p : A → bool) m k v :
  (∀ k' v', m !! k' = Some v' → k' < k) →
  selectAsc p (<[k:=v]> m) = selectAsc p m ++ (if p v then [v] else []).
Proof.
  intros Hk. unfold selectAsc. rw ordered_insert_last // fmap_app filter_app. f_equal. simpl.
  rw filter_cons filter_nil. by destruct (p v).
Qed.

Lemma selectDesc_insert_last (p : A → bool) m k v :
  (∀ k' v', m !! k' = Some v' → k' < k) →
  selectDesc p (<[k:=v]> m) = (if p v then [v] else []) ++ selectDesc p m.
Proof.
  intros Hk. unfold selectDesc. rw selectAsc_insert_last // reverse_app. by destruct (p v).
Qed.
End ordered.

Lemma elem_of_limit {A} n (l : list A) x : x ∈ limit n l → x ∈ l.
Proof.
  unfold limit. destruct (n <? 0); [done|].
  intros (i & ? & ?)%elem_of_take. by eapply list_elem_of_lookup_2.
Qed.

(** ** Reads by the rows' own key *)

Section by_key.
Context {A : Type} (key : A → Z).
Implicit Types (m : gmap Z A) (p : A → bool).

(** Every row carries its primary key. *)
Definition keyed (m : gmap Z A) : Prop := ∀ k v, m !! k = Some v → key v = k.

Lemma StronglySorted_filter (P : A → Prop) `{!∀ x, Decision (P x)} (l : list A) :
  StronglySorted (λ x y, key x < key y) l → StronglySorted (λ x y, key x < key y) (filter P l).
Proof.
  induction 1 as [|x l Hl IH Hx]; [constructor|]. rw filter_cons. case_decide; [|done].
  constructor; [done|]. apply Forall_forall. intros y [_ Hy]%list_elem_of_filter.
  exact (proj1 (Forall_forall _ _) Hx y Hy).
Qed.

Lemma selectAsc_sorted p m :
  keyed m → StronglySorted (λ x y, key x < key y) (selectAsc p m).
Proof.
  intros Hkey. apply StronglySorted_filter.
  assert (Hall : ∀ k v, (k, v) ∈ ordered m → key v = k)
    by (intros k v Hin%elem_of_ordered; by apply Hkey).
  induction (ordered_sorted m) as [|[k v] l Hl IH Hx]; simpl; constructor.
  - apply IH. intros k' v' Hin. apply Hall. by right.
  - apply Forall_fmap, Forall_forall. intros [k' v'] Hin. simpl.
    rw (Hall k v); [by left|]. rw (Hall k' v'); [by right|].
    exact (proj1 (Forall_forall _ _) Hx _ Hin).
Qed.

Lemma sorted_keys (l : list A) :
  StronglySorted (λ x y, key x < key y) l → StronglySorted Z.lt (key <$> l).
Proof.
  induction 1 as [|x l Hl IH Hx]; simpl; constructor; [done|]. by apply Forall_fmap.
Qed.
End by_key.

Lemma sortedZ_unique (l1 l2 : list Z) :
  StronglySorted Z.lt l1 → StronglySorted Z.lt l2 → (∀ x, x ∈ l1 ↔ x ∈ l2) → l1 = l2.
Proof.
  assert (HND : ∀ l, StronglySorted Z.lt l → NoDup l).
  { induction 1 as [|x l Hl IH Hx]; constructor; [|done]. intros Hin.
    pose proof (proj1 (Forall_forall _ _) Hx x Hin). lia. }
  intros H1 H2 Hin. apply (StronglySorted_unique_strong Z.lt); [intros; lia|done..|].
  apply NoDup_Permutation; auto.
Qed.

Lemma seqZ_sorted a n : StronglySorted Z.lt (seqZ a n).
Proof.
  destruct (decide (n ≤ 0)) as [|Hn]; [rw seqZ_nil //; constructor|].
  assert (Hz : 0 ≤ n) by lia. revert a. clear Hn.
  refine (natlike_ind (λ n, ∀ a, StronglySorted Z.lt (seqZ a n)) _ _ n Hz).
  - intros a. rw seqZ_nil //. constructor.
  - intros x Hx IH a. rw seqZ_cons; [lia|]. rw Z.pred_succ. constructor; [apply IH|].
    apply Forall_forall. intros y [? ?]%elem_of_seqZ. lia.
Qed.

Lemma take_seqZ a n k : 0 ≤ k → take (Z.to_nat k) (seqZ a n) = seqZ a (Z.min k n).
Proof.
  intros Hk. destruct (decide (k ≤ n)) as [Hle|Hgt].
  - rw Z.min_l //. assert (n = k + (n - k)) as -> by lia. rw seqZ_app; [lia..|].
    rw take_app_length' //. by rw length_seqZ.
  - rw Z.min_r; [lia|]. apply take_ge. rw length_seqZ. lia.
Qed.

Lemma seqZ_eq a n n' : Z.max 0 n = Z.max 0 n' → seqZ a n = seqZ a n'.
Proof.
  intros Hn. destruct (decide (n ≤ 0)); [rw !seqZ_nil //; lia|]. f_equal. lia.
Qed.

Lemma filter_none {A} (P : A → Prop) `{!∀ x, Decision (P x)} (l : list A) :
  (∀ x, x ∈ l → ¬ P x) → filter P l = [].
Proof.
  intros Hl. destruct (filter P l) as [|x l'] eqn:E; [done|].
  assert (Hx : x ∈ filter P l) by (rw E; left).
  apply list_elem_of_filter in Hx as [HP Hx]. by destruct (Hl x Hx).
Qed.
