(* ===== verification/Journal.v ===== *)
(** * The conversation journal: storage, bootstrap and append

    [workers/cloud-builder/src/journal.ts]: messages, turn lifecycle records and
    cards share one gapless sequence in the conversation's own SQLite.  This file
    holds the tables, the bootstrap and its epoch, the [meta] row, the sequence
    allocator [insert], the three appends and the record a reader gets back for a
    row.  The payloads are JSON values; a row's [payload_json] is a [text]. *)

From Corelib Require Import ssreflect.
From stdpp Require Import prelude gmap strings sorting.
From S2P Require Import Prelude JsNumber JsString Json SqlTable.

#[local] Open Scope Z_scope.

(** ** The tables *)

Inductive MessageRole := user | assistant | toolResult.
Inductive TurnPhase := started | completed | failed | canceled | timeout.
Inductive JournalKind := message | turn | card.

#[export] Instance MessageRole_eq_dec : EqDecision MessageRole.
Proof. solve_decision. Defined.
#[export] Instance TurnPhase_eq_dec : EqDecision TurnPhase.
Proof. solve_decision. Defined.
#[export] Instance JournalKind_eq_dec : EqDecision JournalKind.
Proof. solve_decision. Defined.

Definition roleName (r : MessageRole) : string :=
  match r with user => "user" | assistant => "assistant" | toolResult => "toolResult" end.

Record MetaRow := {
  schema_version : Z;
  epoch : Z;
  owner_id : string;
  conversation_id : string;
  meta_created_at : Z;
  title : string;
  next_seq : Z;
  hot_min_seq : Z;
  index_synced_seq : Z;
  deleted_at : option Z;
}.

Record JournalRow := {
  seq : Z;
  kind : JournalKind;
  turn_id : string;
  writer : string;
  writer_key : string;
  created_at : Z;
  bytes : Z;
  role : option MessageRole;
  hidden : bool;
  model_skip : bool;
  tool_call_id : option string;
  open_calls : Z;
  tokens : Z;
  stream_id : option string;
  client_msg_id : option string;
  phase : option TurnPhase;
  lane : option string;
  source : option string;
  notice : option string;
  payload_json : text;
  spill_key : option string;
}.

Record FtsRow := { fts_text : string; fts_turn_id : string; fts_role : MessageRole; fts_created_at : Z }.

Inductive TurnState := queued | running | terminal.
#[export] Instance TurnState_eq_dec : EqDecision TurnState.
Proof. solve_decision. Defined.

Record TurnRow := {
  t_turn_id : string;
  t_session_id : string;
  t_owner_id : string;
  t_lane : option string;
  t_source : option string;
  t_client_msg_id : option string;
  t_state : TurnState;
  t_terminal_kind : option TurnPhase;
  t_ctx_start_seq : option Z;
  t_ctx_end_seq : option Z;
  t_first_seq : option Z;
  t_last_seq : option Z;
  t_created_at : Z;
  t_updated_at : Z;
}.

Record InboxRow := {
  i_id : Z;
  i_writer : string;
  i_writer_key : string;
  i_kind : JournalKind;
  i_turn_id : string;
  i_role : option MessageRole;
  i_hidden : bool;
  i_created_at : Z;
  i_bytes : Z;
  i_payload_json : text;
}.

Inductive SegmentState := uploading | committed.
#[export] Instance SegmentState_eq_dec : EqDecision SegmentState.
Proof. solve_decision. Defined.

Record SegmentRow := {
  s_first_seq : Z;
  s_last_seq : Z;
  s_rows : Z;
  s_bytes : Z;
  s_r2_key : string;
  s_state : SegmentState;
  s_created_at : Z;
}.

Record PurgeRow := { p_r2_key : string; p_queued_at : Z; p_attempts : Z }.
Record SpillRow := { sp_created_at : Z; sp_bytes : Z }.
Record WindowRow := { w_started_at : Z; w_requests : Z; w_bytes : Z }.

Record AppendReceipt := {
  rc_writer_key : string;
  rc_fingerprint : string;
  rc_first_seq : Z;
  rc_last_seq : Z;
  rc_epoch : Z;
  rc_created_at : Z;
}.

Record AcceptanceContextFault := {
  f_run_id_sha256 : string;
  f_seq : Z;
  f_original_payload_json : text;
  f_original_payload_sha256 : string;
  f_corrupt_payload_sha256 : string;
  f_observed_failures : Z;
  f_repair_after_failures : Z;
  f_created_at : Z;
}.

(** The object's storage: the SQLite tables, the names in [sqlite_master], and the
    asynchronous key-value entry [EPOCH_WITNESS_KEY].  [journal], [journal_fts] and
    [segments] are keyed by their INTEGER PRIMARY KEY; [turns], [inbox] and
    [purge_queue] are lists in rowid order, because their reads break ties by it. *)
Record db := {
  epoch_witness : option Z;
  sqlite_master : gset string;
  meta_table : option MetaRow;
  journal : gmap Z JournalRow;
  journal_fts : gmap Z FtsRow;
  turns : list TurnRow;
  inbox : list InboxRow;
  segments : gmap Z SegmentRow;
  purge_queue : list PurgeRow;
  spills : gmap string SpillRow;
  append_window : option WindowRow;
  append_receipts : gmap string AppendReceipt;
  retired_writers : gset string;
  retired_turns : gset string;
  acceptance_context_fault : option AcceptanceContextFault;
}.

Inductive error :=
  | ConversationDeletedError
  | StaleJournalWriterError
  | JournalContextIntegrityError (at_seq : Z)
  | SqlError
  | TypeError
  | Error (msg : string).

Definition J (A : Type) : Type := M db error A.

Definition withWitness (w : option Z) (st : db) : db :=
  let 'Build_db _ b c d e f g h i j k l m n o := st in Build_db w b c d e f g h i j k l m n o.
Definition withMaster (x : gset string) (st : db) : db :=
  let 'Build_db a _ c d e f g h i j k l m n o := st in Build_db a x c d e f g h i j k l m n o.
Definition withMeta (x : option MetaRow) (st : db) : db :=
  let 'Build_db a b _ d e f g h i j k l m n o := st in Build_db a b x d e f g h i j k l m n o.
Definition withJournal (x : gmap Z JournalRow) (st : db) : db :=
  let 'Build_db a b c _ e f g h i j k l m n o := st in Build_db a b c x e f g h i j k l m n o.
Definition withFts (x : gmap Z FtsRow) (st : db) : db :=
  let 'Build_db a b c d _ f g h i j k l m n o := st in Build_db a b c d x f g h i j k l m n o.
Definition withTurns (x : list TurnRow) (st : db) : db :=
  let 'Build_db a b c d e _ g h i j k l m n o := st in Build_db a b c d e x g h i j k l m n o.
Definition withInbox (x : list InboxRow) (st : db) : db :=
  let 'Build_db a b c d e f _ h i j k l m n o := st in Build_db a b c d e f x h i j k l m n o.
Definition withSegments (x : gmap Z SegmentRow) (st : db) : db :=
  let 'Build_db a b c d e f g _ i j k l m n o := st in Build_db a b c d e f g x i j k l m n o.
Definition withPurgeQueue (x : list PurgeRow) (st : db) : db :=
  let 'Build_db a b c d e f g h _ j k l m n o := st in Build_db a b c d e f g h x j k l m n o.
Definition withSpills (x : gmap string SpillRow) (st : db) : db :=
  let 'Build_db a b c d e f g h i _ k l m n o := st in Build_db a b c d e f g h i x k l m n o.
Definition withAppendWindow (x : option WindowRow) (st : db) : db :=
  let 'Build_db a b c d e f g h i j _ l m n o := st in Build_db a b c d e f g h i j x l m n o.
Definition withReceipts (x : gmap string AppendReceipt) (st : db) : db :=
  let 'Build_db a b c d e f g h i j k _ m n o := st in Build_db a b c d e f g h i j k x m n o.
Definition withFault (x : option AcceptanceContextFault) (st : db) : db :=
  let 'Build_db a b c d e f g h i j k l m n _ := st in Build_db a b c d e f g h i j k l m n x.

(** [UPDATE meta SET ... WHERE id = 0]: no row is not an error. *)
Definition updateMeta (f : MetaRow → MetaRow) (st : db) : db := withMeta (f <$> meta_table st) st.

Definition withNextSeq (n : Z) (m : MetaRow) : MetaRow :=
  let 'Build_MetaRow a b c d e f _ h i j := m in Build_MetaRow a b c d e f n h i j.
Definition withHotMin (n : Z) (m : MetaRow) : MetaRow :=
  let 'Build_MetaRow a b c d e f g _ i j := m in Build_MetaRow a b c d e f g n i j.
Definition withSchemaVersion (n : Z) (m : MetaRow) : MetaRow :=
  let 'Build_MetaRow _ b c d e f g h i j := m in Build_MetaRow n b c d e f g h i j.
Definition withTitle (t : string) (m : MetaRow) : MetaRow :=
  let 'Build_MetaRow a b c d e _ g h i j := m in Build_MetaRow a b c d e t g h i j.
Definition withConversationId (t : string) (m : MetaRow) : MetaRow :=
  let 'Build_MetaRow a b c _ e f g h i j := m in Build_MetaRow a b c t e f g h i j.
Definition withIndexSynced (n : Z) (m : MetaRow) : MetaRow :=
  let 'Build_MetaRow a b c d e f g h _ j := m in Build_MetaRow a b c d e f g h n j.
Definition withDeletedAt (d' : option Z) (m : MetaRow) : MetaRow :=
  let 'Build_MetaRow a b c d e f g h i _ := m in Build_MetaRow a b c d e f g h i d'.

(** ** Transcript search ([transcript-search.ts]) *)

Definition INDEXED_TEXT_MAX_BYTES : Z := 64 * 1024.

(** The text of one content block: [None] is a block that is skipped. *)
Definition blockText (item : json) : option string :=
  match asString (prop "type" item) with
  | Some "toolCall" => None
  | _ =>
      match asString (prop "text" item), asString (prop "content" item) with
      | Some t, _ => Some t
      | None, Some c => Some c
      | None, None => None
      end
  end.

Definition extractMessageText (v : json) : string :=
  match prop "content" v with
  | Some (JStr s) => s
  | Some (JArr items) => join (String (Ascii.ascii_of_N 10) EmptyString) (omap blockText items)
  | _ => EmptyString
  end.

(** [value.replace(/\s+/gu, " ")]; [inRun] is set inside a run of white space. *)
Fixpoint replaceRuns (inRun : bool) (s : string) : string :=
  match s with
  | EmptyString => EmptyString
  | String c s' =>
      if isWhiteSpace c then
        if inRun then replaceRuns true s' else String (Ascii.ascii_of_N 32) (replaceRuns true s')
      else String c (replaceRuns false s')
  end.

Definition collapseWhitespace (value : string) : string := trim (replaceRuns false value).

(** Decoding the first [maxBytes] bytes and dropping the replacement character of a
    cut code point leaves the longest prefix that fits. *)
Fixpoint capUtf8 (value : string) (maxBytes : Z) : string :=
  match value with
  | EmptyString => EmptyString
  | String c s' =>
      let n := utf8Length (String c EmptyString) in
      if n <=? maxBytes then String c (capUtf8 s' (maxBytes - n)) else EmptyString
  end.

(** [value.slice(0, n)]. *)
Fixpoint slice0 (value : string) (n : Z) : string :=
  match value with
  | EmptyString => EmptyString
  | String c s' => if n <=? 0 then EmptyString else String c (slice0 s' (n - 1))
  end.

Record TranscriptSearchRow := {
  ts_seq : Z; ts_turnId : string; ts_role : option MessageRole; ts_createdAt : Z;
  ts_hidden : bool; ts_spillKey : option string; ts_payload : json
}.

(** [TranscriptSearchIndex.index]. *)
Definition index (row : TranscriptSearchRow) (st : db) : db :=
  let st := withFts (delete (ts_seq row) (journal_fts st)) st in
  match ts_role row with
  | Some (user as r) | Some (assistant as r) =>
      if ts_hidden row then st
      else match ts_spillKey row with
      | Some _ => st
      | None =>
          let text :=
            capUtf8 (collapseWhitespace (extractMessageText (ts_payload row))) INDEXED_TEXT_MAX_BYTES in
          if String.eqb text "" then st
          else withFts (<[ts_seq row := {| fts_text := text; fts_turn_id := ts_turnId row;
                  fts_role := r; fts_created_at := ts_createdAt row |}]> (journal_fts st)) st
      end
  | _ => st
  end.

(** ** Bootstrap *)

Definition JOURNAL_SCHEMA_VERSION : Z := 8.

Definition CURRENT_SCHEMA_OBJECT_NAMES : list string :=
  ["meta"; "journal"; "journal_writer_key"; "journal_turn"; "journal_context"; "journal_fts";
   "turns"; "turns_state"; "inbox"; "segments"; "purge_queue"; "spills"; "append_window";
   "append_receipts"; "retired_writers"; "retired_turns"; "conversation_edit_receipts";
   "acceptance_context_fault"].

(** The objects the [DDL] statements create. *)
Definition DDL : list string :=
  ["meta"; "journal"; "journal_writer_key"; "journal_turn"; "journal_context"; "journal_fts";
   "turns"; "turns_state"; "inbox"; "segments"; "purge_queue"; "spills"; "append_window";
   "append_receipts"; "retired_writers"; "retired_turns"; "conversation_edit_receipts";
   "acceptance_context_fault"].

(** A migration: the objects it creates and drops, and whether it fills the index.
    (The [ADD COLUMN] of version 2 gives [spills.bytes], which [SpillRow] always has.) *)
Record Migration := {
  to : Z; creates : list string; drops : list string; backfill : bool
}.

Definition MIGRATIONS : list Migration :=
  [ {| to := 2; creates := []; drops := []; backfill := false |};
    {| to := 4; creates := ["append_receipts"]; drops := []; backfill := false |};
    {| to := 5; creates := ["retired_writers"]; drops := []; backfill := false |};
    {| to := 6; creates := ["conversation_edit_receipts"]; drops := []; backfill := false |};
    {| to := 7; creates := ["retired_turns"]; drops := []; backfill := false |};
    {| to := 8; creates := ["journal_fts"]; drops := ["turn_excerpts_unsynced"; "turn_excerpts"];
       backfill := true |} ].

Definition isSafeEpoch (e : Z) : bool := (1 <=? e) && (e <=? MAX_SAFE_INTEGER).

(** [currentBootstrapMeta]: the epoch of a store whose schema is complete and current. *)
Definition currentBootstrapMeta (st : db) : option Z :=
  match meta_table st with
  | Some row =>
      if (schema_version row =? JOURNAL_SCHEMA_VERSION) && isSafeEpoch (epoch row) &&
         forallb (λ name, bool_decide (name ∈ sqlite_master st)) CURRENT_SCHEMA_OBJECT_NAMES
      then Some (epoch row) else None
  | None => None
  end.

Definition indexStoredMessage (row : JournalRow) (st : db) : db :=
  match JSON_parse (payload_json row) with
  | None => st
  | Some payload =>
      index {| ts_seq := seq row; ts_turnId := turn_id row; ts_role := role row;
               ts_createdAt := created_at row; ts_hidden := hidden row;
               ts_spillKey := spill_key row; ts_payload := payload |} st
  end.

Definition isIndexable (row : JournalRow) : bool :=
  bool_decide (kind row = message) &&
  bool_decide (role row = Some user ∨ role row = Some assistant) &&
  negb (hidden row) && bool_decide (spill_key row = None).

Definition backfillTranscriptSearch (st : db) : db :=
  foldl (λ st row, indexStoredMessage row st) st (selectAsc isIndexable (journal st)).

(** [this.sql.exec] of [CREATE ... IF NOT EXISTS] statements. *)
Definition createObjects (names : list string) (st : db) : db :=
  withMaster (list_to_set names ∪ sqlite_master st) st.

Definition runMigration (version : Z) (st : db) (migration : Migration) : db :=
  if to migration <=? version then st
  else
    let st := createObjects (creates migration) st in
    let st := withMaster (sqlite_master st ∖ list_to_set (drops migration)) st in
    if backfill migration then backfillTranscriptSearch st else st.

Definition raiseWitness (e : Z) (st : db) : db :=
  if default 0 (epoch_witness st) <? e then withWitness (Some e) st else st.

(** [INSERT INTO meta (id, schema_version, epoch)], the other columns at their defaults. *)
Definition freshMeta (e : Z) : MetaRow :=
  {| schema_version := JOURNAL_SCHEMA_VERSION; epoch := e; owner_id := ""; conversation_id := "";
     meta_created_at := 0; title := ""; next_seq := 0; hot_min_seq := 0;
     index_synced_seq := -1; deleted_at := None |}.

Definition bootstrap (st : db) : db :=
  match currentBootstrapMeta st with
  | Some e => raiseWitness e st
  | None =>
      let st := createObjects DDL st in
      match meta_table st with
      | None =>
          let e := default 0 (epoch_witness st) + 1 in
          withWitness (Some e) (withMeta (Some (freshMeta e)) st)
      | Some meta =>
          let st := raiseWitness (epoch meta) st in
          if schema_version meta =? JOURNAL_SCHEMA_VERSION then st
          else
            let st := foldl (runMigration (schema_version meta)) st MIGRATIONS in
            updateMeta (withSchemaVersion JOURNAL_SCHEMA_VERSION) st
      end
  end.

(** The storage of an object that never ran, and what is left of one when its
    SQLite database is lost and its key-value entries are not. *)
Definition emptyDb : db :=
  {| epoch_witness := None; sqlite_master := ∅; meta_table := None; journal := ∅;
     journal_fts := ∅; turns := []; inbox := []; segments := ∅; purge_queue := []; spills := ∅;
     append_window := None; append_receipts := ∅; retired_writers := ∅; retired_turns := ∅;
     acceptance_context_fault := None |}.

Definition sqliteReset (st : db) : db := withWitness (epoch_witness st) emptyDb.

(** ** The meta row *)

(** What [meta()] reads back once the storage has been destroyed by a purge. *)
Definition PURGED_META : MetaRow :=
  {| schema_version := JOURNAL_SCHEMA_VERSION; epoch := 0; owner_id := ""; conversation_id := "";
     meta_created_at := 0; title := ""; next_seq := 0; hot_min_seq := 0;
     index_synced_seq := -1; deleted_at := Some 0 |}.

Definition meta (st : db) : MetaRow := default PURGED_META (meta_table st).

Definition ownerId (st : db) : string := owner_id (meta st).

Definition isDeleted (st : db) : bool := bool_decide (deleted_at (meta st) ≠ None).

Record ConversationOwnerRecord := {
  co_ownerId : string; co_createdAt : Z; co_title : string; co_conversationId : option string
}.

Definition bindOwner (record : ConversationOwnerRecord) : J () :=
  let* m := gets meta in
  if negb (String.eqb (owner_id m) "") && negb (String.eqb (owner_id m) (co_ownerId record))
  then throw (Error "Conversation is already bound to a different owner.")
  else
    let given := default "" (co_conversationId record) in
    modify (updateMeta (λ row,
      {| schema_version := schema_version row; epoch := epoch row;
         owner_id := co_ownerId record;
         conversation_id := if String.eqb given "" then conversation_id row else given;
         meta_created_at := if 0 <? meta_created_at m then meta_created_at m else co_createdAt record;
         title := co_title record; next_seq := next_seq row; hot_min_seq := hot_min_seq row;
         index_synced_seq := index_synced_seq row; deleted_at := deleted_at row |})).

Definition setConversationId (conversationId : string) (st : db) : db :=
  if String.eqb conversationId "" then st
  else updateMeta (λ row, if String.eqb (conversation_id row) conversationId then row
                          else withConversationId conversationId row) st.

Definition setTitle (t : string) (st : db) : db :=
  if String.eqb t "" then st
  else updateMeta (λ row, if String.eqb (title row) "" then withTitle t row else row) st.

Definition markDeleted (now : Z) (st : db) : db :=
  updateMeta (λ row, withDeletedAt (Some (default now (deleted_at row))) row) st.

Definition setIndexSyncedSeq (s : Z) (st : db) : db :=
  updateMeta (λ row, if index_synced_seq row <? s then withIndexSynced s row else row) st.

Record JournalHead := {
  h_headSeq : Z; h_windowStartSeq : Z; h_floorSeq : Z; h_epoch : Z; h_title : string;
  h_deleted : bool
}.

Definition isCommitted (_ : Z) (s : SegmentRow) : bool := bool_decide (s_state s = committed).

Definition head (st : db) : JournalHead :=
  let m := meta st in
  {| h_headSeq := next_seq m - 1; h_windowStartSeq := hot_min_seq m;
     h_floorSeq := default (hot_min_seq m) (min_key_where isCommitted (segments st));
     h_epoch := epoch m; h_title := title m; h_deleted := isDeleted st |}.

(** ** Append *)

Definition contentBlocks (v : json) : list json :=
  match prop "content" v with Some (JArr items) => items | _ => [] end.

Definition isToolCall (block : json) : bool :=
  bool_decide (asString (prop "type" block) = Some "toolCall").

Definition countOpenCalls (v : json) : Z :=
  Z.of_nat (length (filter (λ block, isToolCall block = true) (contentBlocks v))).

(** [Math.ceil((length - nonAscii) / 4) + nonAscii] of the serialised message. *)
Fixpoint countNonAscii (s : string) : Z :=
  match s with
  | EmptyString => 0
  | String c s' => (if 127 <? charCodeAt c then 1 else 0) + countNonAscii s'
  end.

Definition estimateTokens (v : json) : Z :=
  let serialized := stringify v in
  let nonAscii := countNonAscii serialized in
  (js_length serialized - nonAscii + 3) / 4 + nonAscii.

Record AppendMessageInput := {
  am_turnId : string;
  am_writer : string;
  am_writerKey : string;
  am_role : MessageRole;
  am_message : fields;
  am_hidden : option bool;
  am_modelSkip : option bool;
  am_streamId : option string;
  am_clientMsgId : option string;
  am_createdAt : option Z;
  am_payloadJson : option text;
  am_spillKey : option string;
}.

Record AppendTurnInput := {
  at_turnId : string;
  at_writer : string;
  at_writerKey : string;
  at_phase : TurnPhase;
  at_lane : option string;
  at_source : option string;
  at_notice : option string;
  at_promptSeq : option Z;
  at_wallClockMs : option Z;
  at_createdAt : option Z;
}.

Record AppendCardInput := {
  ac_turnId : string;
  ac_writer : string;
  ac_writerKey : string;
  ac_card : json;
  ac_createdAt : option Z;
}.

(** The record a reader is given: [JournalMessageRecord], [JournalTurnRecord] or
    [JournalCardRecord]. *)
Inductive JournalRecord :=
  | MessageRecord (seq : Z) (turnId : string) (createdAtMs : Z) (role : MessageRole)
      (hidden : bool) (streamId clientMsgId : option string) (payload : json)
  | TurnRecord (seq : Z) (turnId : string) (createdAtMs : Z) (phase : TurnPhase)
      (lane source notice : option string) (promptSeq wallClockMs : option json)
  | CardRecord (seq : Z) (turnId : string) (createdAtMs : Z) (card : json).

Record AppendResult := { res_seq : Z; res_inserted : bool; res_record : JournalRecord }.

(** [x ? ... : ...] on a string: the empty string and null are false. *)
Definition truthy (x : option string) : option string :=
  match x with Some "" => None | _ => x end.

(** [SELECT seq FROM journal WHERE writer_key = ?]. *)
Definition byWriterKey (st : db) (key : string) : list JournalRow :=
  selectAsc (λ row, String.eqb (writer_key row) key) (journal st).

(** The one seq allocator.  [row] gives the columns at a sequence number; the
    INSERT is refused by the primary key of [journal]. *)
Definition insert (row : Z → JournalRow) (turnId writerKey : string) : J (Z * bool) :=
  transactionSync (
    let* existing := gets (λ st, byWriterKey st writerKey) in
    match existing with
    | first :: _ => ret (seq first, false)
    | [] =>
        let* retired := gets (λ st, bool_decide (writerKey ∈ retired_writers st)) in
        if retired then throw StaleJournalWriterError
        else
          let* retiredTurn := gets (λ st, bool_decide (turnId ∈ retired_turns st)) in
          if retiredTurn then throw StaleJournalWriterError
          else
            let* m := gets meta_table in
            match m with
            | None => throw SqlError
            | Some m =>
                let* taken := gets (λ st, journal st !! next_seq m) in
                match taken with
                | Some _ => throw SqlError
                | None =>
                    modify (λ st, withJournal (<[next_seq m := row (next_seq m)]> (journal st)) st);;;
                    modify (updateMeta (withNextSeq (next_seq m + 1)));;;
                    ret (next_seq m, true)
                end
            end
    end).

Definition assertWritable : J () :=
  let* deleted := gets isDeleted in
  if deleted then throw ConversationDeletedError else ret ().

Definition PREVIEW_CHARS : Z := 64 * 1024.

(** [SpillStub]: what a spilled row keeps of its message. *)
Definition spillStub (r : MessageRole) (fullBytes : Z) (msg : fields) : json :=
  let previewText := slice0 (extractMessageText (JObj msg)) PREVIEW_CHARS in
  JObj ([("$spill", JBool true); ("role", JStr (roleName r)); ("bytes", JInt fullBytes)] ++
    (if String.eqb previewText "" then []
     else [("content", JArr [JObj [("type", JStr "text"); ("text", JStr previewText)]])]) ++
    optField "timestamp" (asNumber (assoc "timestamp" msg)) ++
    optField "toolCallId" (JStr <$> asString (assoc "toolCallId" msg)) ++
    optField "toolName" (JStr <$> asString (assoc "toolName" msg)) ++
    optField "isError" (JBool <$> asBoolean (assoc "isError" msg))).

(** The columns of a message row. *)
Definition messageRow (input : AppendMessageInput) (createdAt : Z) (payload : text) (s : Z) : JournalRow :=
  {| seq := s; kind := message; turn_id := am_turnId input; writer := am_writer input;
     writer_key := am_writerKey input; created_at := createdAt; bytes := textBytes payload;
     role := Some (am_role input); hidden := default false (am_hidden input);
     model_skip := default false (am_modelSkip input);
     tool_call_id := if bool_decide (am_role input = toolResult)
                     then asString (assoc "toolCallId" (am_message input)) else None;
     open_calls := if bool_decide (am_role input = assistant)
                   then countOpenCalls (JObj (am_message input)) else 0;
     tokens := estimateTokens (JObj (am_message input));
     stream_id := am_streamId input; client_msg_id := am_clientMsgId input;
     phase := None; lane := None; source := None; notice := None;
     payload_json := payload; spill_key := am_spillKey input |}.

Definition messagePayload (input : AppendMessageInput) : text :=
  let full := default (JSON_stringify (JObj (am_message input))) (am_payloadJson input) in
  match truthy (am_spillKey input) with
  | Some _ => JSON_stringify (spillStub (am_role input) (textBytes full) (am_message input))
  | None => full
  end.

Definition messageRecord (input : AppendMessageInput) (createdAt : Z) (s : Z) : JournalRecord :=
  MessageRecord s (am_turnId input) createdAt (am_role input) (default false (am_hidden input))
    (truthy (am_streamId input)) (truthy (am_clientMsgId input))
    (let full := default (JSON_stringify (JObj (am_message input))) (am_payloadJson input) in
     match truthy (am_spillKey input) with
     | Some _ => spillStub (am_role input) (textBytes full) (am_message input)
     | None => JObj (am_message input)
     end).

(** [now] is [Date.now()]. *)
Definition appendMessage (input : AppendMessageInput) (now : Z) : J AppendResult :=
  assertWritable;;;
  let createdAt := default now (am_createdAt input) in
  let* sr := transactionSync (
    let* result := insert (messageRow input createdAt (messagePayload input)) (am_turnId input)
                     (am_writerKey input) in
    (if result.2 : bool
     then modify (index {| ts_seq := result.1; ts_turnId := am_turnId input;
            ts_role := Some (am_role input); ts_createdAt := createdAt;
            ts_hidden := default false (am_hidden input); ts_spillKey := am_spillKey input;
            ts_payload := JObj (am_message input) |})
     else ret ());;;
    ret result) in
  ret {| res_seq := sr.1; res_inserted := sr.2; res_record := messageRecord input createdAt sr.1 |}.

Definition turnDetail (input : AppendTurnInput) : json :=
  JObj (optField "promptSeq" (JInt <$> at_promptSeq input) ++
        optField "wallClockMs" (JInt <$> at_wallClockMs input)).

Definition turnRow (input : AppendTurnInput) (createdAt s : Z) : JournalRow :=
  {| seq := s; kind := turn; turn_id := at_turnId input; writer := at_writer input;
     writer_key := at_writerKey input; created_at := createdAt;
     bytes := textBytes (JSON_stringify (turnDetail input));
     role := None; hidden := false; model_skip := true; tool_call_id := None; open_calls := 0;
     tokens := 0; stream_id := None; client_msg_id := None; phase := Some (at_phase input);
     lane := at_lane input; source := at_source input; notice := at_notice input;
     payload_json := JSON_stringify (turnDetail input); spill_key := None |}.

Definition turnRecord (input : AppendTurnInput) (createdAt s : Z) : JournalRecord :=
  TurnRecord s (at_turnId input) createdAt (at_phase input)
    (truthy (at_lane input)) (truthy (at_source input)) (truthy (at_notice input))
    (JInt <$> at_promptSeq input) (JInt <$> at_wallClockMs input).

Definition appendTurn (input : AppendTurnInput) (now : Z) : J AppendResult :=
  assertWritable;;;
  let createdAt := default now (at_createdAt input) in
  let* sr := insert (turnRow input createdAt) (at_turnId input) (at_writerKey input) in
  ret {| res_seq := sr.1; res_inserted := sr.2; res_record := turnRecord input createdAt sr.1 |}.

Definition cardRow (input : AppendCardInput) (createdAt s : Z) : JournalRow :=
  {| seq := s; kind := card; turn_id := ac_turnId input; writer := ac_writer input;
     writer_key := ac_writerKey input; created_at := createdAt;
     bytes := textBytes (JSON_stringify (ac_card input));
     role := None; hidden := false; model_skip := true; tool_call_id := None; open_calls := 0;
     tokens := 0; stream_id := None; client_msg_id := None; phase := None; lane := None;
     source := None; notice := None; payload_json := JSON_stringify (ac_card input);
     spill_key := None |}.

Definition cardRecord (input : AppendCardInput) (createdAt s : Z) : JournalRecord :=
  CardRecord s (ac_turnId input) createdAt (ac_card input).

Definition appendCard (input : AppendCardInput) (now : Z) : J AppendResult :=
  assertWritable;;;
  let createdAt := default now (ac_createdAt input) in
  let* sr := insert (cardRow input createdAt) (ac_turnId input) (ac_writerKey input) in
  ret {| res_seq := sr.1; res_inserted := sr.2; res_record := cardRecord input createdAt sr.1 |}.

Definition appendReceipt (st : db) (writerKey : string) : option AppendReceipt :=
  append_receipts st !! writerKey.

(** [ON CONFLICT(writer_key) DO NOTHING]. *)
Definition putAppendReceipt (r : AppendReceipt) (st : db) : db :=
  match append_receipts st !! rc_writer_key r with
  | Some _ => st
  | None => withReceipts (<[rc_writer_key r := r]> (append_receipts st)) st
  end.

(** ** Reads *)

(** [rowToRecord]: a payload that does not parse reads as null. *)
Definition rowToRecord (row : JournalRow) : JournalRecord :=
  let parse := default JNull (JSON_parse (payload_json row)) in
  match kind row with
  | turn =>
      TurnRecord (seq row) (turn_id row) (created_at row) (default started (phase row))
        (truthy (lane row)) (truthy (source row)) (truthy (notice row))
        (prop "promptSeq" parse) (prop "wallClockMs" parse)
  | card =>
      CardRecord (seq row) (turn_id row) (created_at row)
        (match parse with
         | JNull => JObj [("type", JStr "operation"); ("operation", JStr "unknown")]
         | v => v
         end)
  | message =>
      MessageRecord (seq row) (turn_id row) (created_at row) (default assistant (role row))
        (hidden row) (truthy (stream_id row)) (truthy (client_msg_id row)) parse
  end.

Definition recordSeq (r : JournalRecord) : Z :=
  match r with
  | MessageRecord s _ _ _ _ _ _ _ | TurnRecord s _ _ _ _ _ _ _ _ | CardRecord s _ _ _ => s
  end.

Definition always (_ : JournalRow) : bool := true.

(** Newest [n] records, returned oldest-first. *)
Definition newest (n : Z) (st : db) : list JournalRecord :=
  rowToRecord <$> reverse (limit n (selectDesc always (journal st))).

Definition inRange (fromSeq toSeq : Z) (row : JournalRow) : bool :=
  (fromSeq <=? seq row) && (seq row <=? toSeq).

(** The loop of [readResident]: [n] and [total] are [records.length] and [bytes]. *)
Fixpoint readBudget (maxRecords maxBytes n total : Z) (rows : list JournalRow)
    : list JournalRecord * bool :=
  match rows with
  | [] => ([], true)
  | row :: rows' =>
      if (maxRecords <=? n) || (maxBytes <? total) then ([], false)
      else
        let '(records, complete) := readBudget maxRecords maxBytes (n + 1) (total + bytes row) rows' in
        (rowToRecord row :: records, complete)
  end.

Definition readResident (fromSeq toSeq maxRecords maxBytes : Z) (st : db)
    : list JournalRecord * bool :=
  let rows := limit (maxRecords + 1) (selectAsc (inRange fromSeq toSeq) (journal st)) in
  let '(records, complete) := readBudget maxRecords maxBytes 0 0 rows in
  (records, complete && negb (maxRecords <? Z.of_nat (length rows))).

Definition rowsForArchive (fromSeq toSeq n : Z) (st : db) : list JournalRow :=
  limit n (selectAsc (inRange fromSeq toSeq) (journal st)).

(** ** The resident rows are gapless *)

(** Sequence numbers are dense from the resident floor to the head, every row sits
    at its own, and no two resident rows share a writer key. *)
Definition Dense (m : MetaRow) (j : gmap Z JournalRow) : Prop :=
  0 ≤ hot_min_seq m ≤ next_seq m ∧
  ∀ k, is_Some (j !! k) ↔ hot_min_seq m ≤ k < next_seq m.

Definition RowsAt (j : gmap Z JournalRow) : Prop := ∀ k row, j !! k = Some row → seq row = k.

Definition KeysUnique (j : gmap Z JournalRow) : Prop :=
  ∀ k k' row row', j !! k = Some row → j !! k' = Some row' →
    writer_key row = writer_key row' → k = k'.

Definition Inv (st : db) : Prop :=
  (match meta_table st with Some m => Dense m (journal st) | None => journal st = ∅ end) ∧
  RowsAt (journal st) ∧ KeysUnique (journal st).

(** The three appends under one name. *)
Inductive append :=
  | AppendMessage (input : AppendMessageInput)
  | AppendTurn (input : AppendTurnInput)
  | AppendCard (input : AppendCardInput).

Definition runAppend (o : append) (now : Z) : J AppendResult :=
  match o with
  | AppendMessage input => appendMessage input now
  | AppendTurn input => appendTurn input now
  | AppendCard input => appendCard input now
  end.

Definition appendKey (o : append) : string :=
  match o with
  | AppendMessage i => am_writerKey i | AppendTurn i => at_writerKey i | AppendCard i => ac_writerKey i
  end.

Definition appendTurnId (o : append) : string :=
  match o with
  | AppendMessage i => am_turnId i | AppendTurn i => at_turnId i | AppendCard i => ac_turnId i
  end.

Definition appendRow (o : append) (now s : Z) : JournalRow :=
  match o with
  | AppendMessage i => messageRow i (default now (am_createdAt i)) (messagePayload i) s
  | AppendTurn i => turnRow i (default now (at_createdAt i)) s
  | AppendCard i => cardRow i (default now (ac_createdAt i)) s
  end.

(** A caller that serialised a message itself gave that message's text. *)
Definition payloadAgrees (o : append) : Prop :=
  match o with
  | AppendMessage i =>
      ∀ t, am_payloadJson i = Some t → JSON_parse t = Some (JObj (am_message i))
  | AppendTurn _ => True
  | AppendCard i => ac_card i ≠ JNull
  end.

Lemma meta_withJournal j st : meta_table (withJournal j st) = meta_table st.
Proof. by destruct st. Qed.

Lemma meta_withFts f st : meta_table (withFts f st) = meta_table st.
Proof. by destruct st. Qed.

(** What the search index never touches. *)
Definition sameButFts (st st' : db) : Prop := withFts ∅ st' = withFts ∅ st.

Lemma index_sameButFts row st : sameButFts st (index row st).
Proof.
  unfold sameButFts, index. destruct st. repeat case_match; reflexivity.
Qed.

Lemma sameButFts_fields st st' :
  sameButFts st st' →
  meta_table st' = meta_table st ∧ journal st' = journal st ∧ segments st' = segments st ∧
  spills st' = spills st ∧ turns st' = turns st ∧ epoch_witness st' = epoch_witness st.
Proof. unfold sameButFts. destruct st, st'; simpl. intros [=]; by subst. Qed.

(** The store after a fresh row. *)
Definition inserted (row : Z → JournalRow) (m : MetaRow) (st : db) : db :=
  updateMeta (withNextSeq (next_seq m + 1))
    (withJournal (<[next_seq m := row (next_seq m)]> (journal st)) st).

Lemma elem_of_byWriterKey st key row :
  row ∈ byWriterKey st key ↔ writer_key row = key ∧ ∃ k, journal st !! k = Some row.
Proof. unfold byWriterKey. by rw elem_of_selectAsc String.eqb_eq. Qed.

Lemma byWriterKey_nil st key :
  byWriterKey st key = [] → ∀ k row, journal st !! k = Some row → writer_key row ≠ key.
Proof.
  intros Hnil k row Hk Hkey.
  assert (Hin : row ∈ byWriterKey st key) by (apply elem_of_byWriterKey; eauto).
  rw Hnil in Hin. by apply not_elem_of_nil in Hin.
Qed.

(** Under the invariant a key finds at most one row, and finds it at its number. *)
Lemma byWriterKey_resident st key k row :
  Inv st → journal st !! k = Some row → writer_key row = key →
  ∃ rest, byWriterKey st key = row :: rest.
Proof.
  intros (_ & _ & Hu) Hk Hkey.
  assert (Hin : row ∈ byWriterKey st key) by (apply elem_of_byWriterKey; eauto).
  destruct (byWriterKey st key) as [|first rest] eqn:E; [by apply not_elem_of_nil in Hin|].
  assert (Hf : first ∈ byWriterKey st key) by (rw E; left).
  apply elem_of_byWriterKey in Hf as (Hfk & k' & Hk').
  assert (k' = k) as -> by (eapply Hu; [exact Hk'|exact Hk|congruence]).
  assert (first = row) as -> by congruence. eauto.
Qed.

(** The allocator, in an order that follows its checks. *)
Lemma insert_spec row turnId key st m :
  Inv st → meta_table st = Some m →
  insert row turnId key st =
    match byWriterKey st key with
    | first :: _ => (st, inr (seq first, false))
    | [] =>
        if bool_decide (key ∈ retired_writers st) || bool_decide (turnId ∈ retired_turns st)
        then (st, inl StaleJournalWriterError)
        else (inserted row m st, inr (next_seq m, true))
    end.
Proof.
  intros [HD _] Hm. rw Hm in HD. destruct HD as [_ HD]. unfold insert. unfold_monad.
  destruct (byWriterKey st key) as [|first rest]; [|done].
  destruct (bool_decide (key ∈ retired_writers st)); [done|]. simpl.
  destruct (bool_decide (turnId ∈ retired_turns st)); [done|]. rw Hm.
  destruct (journal st !! next_seq m) as [old|] eqn:Ht; [|done].
  assert (Hs : is_Some (journal st !! next_seq m)) by eauto. apply HD in Hs. lia.
Qed.

Lemma inserted_meta row m st :
  meta_table st = Some m → meta_table (inserted row m st) = Some (withNextSeq (next_seq m + 1) m).
Proof. unfold inserted. destruct st; simpl. by intros ->. Qed.

Lemma inserted_journal row m st :
  journal (inserted row m st) = <[next_seq m := row (next_seq m)]> (journal st).
Proof. unfold inserted, updateMeta. by destruct st. Qed.

Lemma Dense_insert m j row :
  Dense m j → Dense (withNextSeq (next_seq m + 1) m) (<[next_seq m := row]> j).
Proof.
  intros [Hle HD]. destruct m; simpl in *. split; [simpl; lia|]. intros k. simpl.
  rw lookup_insert_is_Some HD. lia.
Qed.

Lemma Inv_inserted row m st :
  Inv st → meta_table st = Some m → seq (row (next_seq m)) = next_seq m →
  (∀ k r, journal st !! k = Some r → writer_key r ≠ writer_key (row (next_seq m))) →
  Inv (inserted row m st).
Proof.
  intros (HD & HR & HU) Hm Hseq Hfresh. rw Hm in HD.
  unfold Inv. rw (inserted_meta _ _ _ Hm) inserted_journal.
  split; [by apply Dense_insert|]. split.
  - intros k r [[<- <-]|[? ?]]%lookup_insert_Some; [done|by apply HR].
  - intros k k' r r' [[<- <-]|[? Hk]]%lookup_insert_Some
      [[<- <-]|[? Hk']]%lookup_insert_Some Heq; try done.
    + by destruct (Hfresh _ _ Hk').
    + by destruct (Hfresh _ _ Hk).
    + by eapply HU.
Qed.

Definition appendRecord (o : append) (now s : Z) : JournalRecord :=
  match o with
  | AppendMessage i => messageRecord i (default now (am_createdAt i)) s
  | AppendTurn i => turnRecord i (default now (at_createdAt i)) s
  | AppendCard i => cardRecord i (default now (ac_createdAt i)) s
  end.

(** The record an append returns is the one a read of its row returns. *)
Lemma rowToRecord_appendRow o now s :
  payloadAgrees o → rowToRecord (appendRow o now s) = appendRecord o now s.
Proof.
  destruct o as [i|i|i]; simpl.
  - intros Hp. unfold rowToRecord, messageRecord, messageRow, messagePayload; simpl. f_equal.
    destruct (truthy (am_spillKey i)); [done|].
    destruct (am_payloadJson i) as [t|] eqn:Et; simpl; [by rw (Hp t)|done].
  - intros _. unfold rowToRecord, turnRow, turnDetail, turnRecord; simpl.
    destruct (at_promptSeq i), (at_wallClockMs i); reflexivity.
  - intros Hc. unfold rowToRecord, cardRow, cardRecord; simpl. by destruct (ac_card i).
Qed.

Lemma appendRow_key o now s : writer_key (appendRow o now s) = appendKey o.
Proof. by destruct o. Qed.

Lemma appendRow_seq o now s : seq (appendRow o now s) = s.
Proof. by destruct o. Qed.

#[export] Instance sameButFts_preorder : PreOrder sameButFts.
Proof. split; [done|]. unfold sameButFts. intros x y z. congruence. Qed.

(** What an append may do to the store: nothing, or one fresh row at the head. *)
Inductive appended (o : append) (now : Z) (st : db) : db → error + AppendResult → Prop :=
  | appended_deleted :
      isDeleted st = true → appended o now st st (inl ConversationDeletedError)
  | appended_again first rest :
      isDeleted st = false → byWriterKey st (appendKey o) = first :: rest →
      appended o now st st (inr {| res_seq := seq first; res_inserted := false;
                                   res_record := appendRecord o now (seq first) |})
  | appended_stale :
      isDeleted st = false → byWriterKey st (appendKey o) = [] →
      appendKey o ∈ retired_writers st ∨ appendTurnId o ∈ retired_turns st →
      appended o now st st (inl StaleJournalWriterError)
  | appended_fresh m st' :
      isDeleted st = false → byWriterKey st (appendKey o) = [] → meta_table st = Some m →
      appendKey o ∉ retired_writers st → appendTurnId o ∉ retired_turns st →
      sameButFts (inserted (appendRow o now) m st) st' →
      appended o now st st' (inr {| res_seq := next_seq m; res_inserted := true;
                                    res_record := appendRecord o now (next_seq m) |}).

Lemma runAppend_appended o now st m :
  Inv st → meta_table st = Some m →
  appended o now st (fst (runAppend o now st)) (snd (runAppend o now st)).
Proof.
  intros HI Hm.
  assert (Hins : ∀ st', sameButFts (inserted (appendRow o now) m st) st' →
    isDeleted st = false → byWriterKey st (appendKey o) = [] →
    bool_decide (appendKey o ∈ retired_writers st) ||
      bool_decide (appendTurnId o ∈ retired_turns st) = false →
    appended o now st st' (inr {| res_seq := next_seq m; res_inserted := true;
                                  res_record := appendRecord o now (next_seq m) |})).
  { intros. bool_to_prop. by econstructor. }
  assert (Hstale : isDeleted st = false → byWriterKey st (appendKey o) = [] →
    bool_decide (appendKey o ∈ retired_writers st) ||
      bool_decide (appendTurnId o ∈ retired_turns st) = true →
    appended o now st st (inl StaleJournalWriterError)).
  { intros ? ? Ho. constructor; [done..|]. apply orb_true_iff in Ho.
    by destruct Ho as [?%bool_decide_eq_true|?%bool_decide_eq_true]; [left|right]. }
  destruct o as [i|i|i]; simpl in *;
    unfold appendMessage, appendTurn, appendCard, assertWritable; unfold_monad;
    (destruct (isDeleted st) eqn:Hd; [by constructor|]);
    rw (insert_spec _ _ _ _ m HI Hm);
    (destruct (byWriterKey st _) as [|first rest] eqn:Hk; [|by econstructor]);
    (destruct (_ || _) eqn:Ho; [by apply Hstale|]); simpl; apply Hins; try done.
  apply index_sameButFts.
Qed.

Lemma Inv_sameButFts st st' : sameButFts st st' → Inv st → Inv st'.
Proof. intros (Hm & Hj & _)%sameButFts_fields. unfold Inv. by rw Hm Hj. Qed.

Lemma runAppend_Inv o now st : Inv st → Inv (fst (runAppend o now st)).
Proof.
  intros HI. destruct (meta_table st) as [m|] eqn:Hm.
  - destruct (runAppend_appended o now st m HI Hm) as [| | |m' st' Hd Hk Hm' ? ? Hsame]; try done.
    eapply Inv_sameButFts; [exact Hsame|]. apply Inv_inserted; [done..|apply appendRow_seq|].
    rw appendRow_key. by apply byWriterKey_nil.
  - assert (isDeleted st = true) as Hd by (unfold isDeleted, meta; by rw Hm).
    destruct o; simpl; unfold appendMessage, appendTurn, appendCard, assertWritable; unfold_monad;
      by rw Hd.
Qed.

Lemma runAppends_Inv now ops st :
  Inv st → Inv (foldl (λ st o, fst (runAppend o now st)) st ops).
Proof. revert st; induction ops as [|o ops IH]; intros st HI; [done|]. by apply IH, runAppend_Inv. Qed.

(** ** Reading a resident range *)

Lemma meta_Some st m : meta_table st = Some m → meta st = m.
Proof. unfold meta. by intros ->. Qed.

(** A range inside the resident window selects exactly its numbers, in order. *)
Lemma selectAsc_inRange m st a b :
  Inv st → meta_table st = Some m → hot_min_seq m ≤ a → b < next_seq m →
  seq <$> selectAsc (inRange a b) (journal st) = seqZ a (b - a + 1).
Proof.
  intros (HD & HR & _) Hm Ha Hb. rw Hm in HD. destruct HD as [_ HD].
  apply sortedZ_unique.
  - by apply sorted_keys, selectAsc_sorted.
  - apply seqZ_sorted.
  - intros x. rw list_elem_of_fmap elem_of_seqZ. split.
    + intros (row & -> & (Hin & k & Hk)%elem_of_selectAsc). unfold inRange in Hin. bool_to_prop. lia.
    + intros Hx. destruct (proj2 (HD x)) as [row Hrow]; [lia|].
      exists row. split; [symmetry; by apply HR|]. apply elem_of_selectAsc.
      split; [|eauto]. unfold inRange. rw (HR _ _ Hrow). apply andb_true_iff.
      rw !Z.leb_le. lia.
Qed.

Lemma recordSeq_rowToRecord row : recordSeq (rowToRecord row) = seq row.
Proof. unfold rowToRecord. by destruct (kind row). Qed.

(** The loop returns a prefix of its rows, at least one of them when the budgets
    allow it, and all of them when it says so. *)
Lemma readBudget_prefix maxRecords maxBytes n total rows :
  let '(records, complete) := readBudget maxRecords maxBytes n total rows in
  (∃ k, records = rowToRecord <$> take k rows ∧ (complete = true → (length rows ≤ k)%nat)) ∧
  n + Z.of_nat (length records) ≤ Z.max n maxRecords ∧
  (n < maxRecords → total ≤ maxBytes → rows ≠ [] → records ≠ []).
Proof.
  revert n total; induction rows as [|row rows IH]; intros n total; simpl.
  { split; [by exists 0%nat|]. split; [lia|done]. }
  destruct (_ || _) eqn:E.
  - apply orb_true_iff in E. rw Z.leb_le Z.ltb_lt in E.
    split; [by exists 0%nat|]. split; simpl; [lia|]. intros; lia.
  - bool_to_prop. specialize (IH (n + 1) (total + bytes row)).
    destruct (readBudget _ _ _ _ rows) as [records complete].
    destruct IH as ((k & -> & Hk) & Hlen & _). split; [|split; [simpl; lia|done]].
    exists (S k). split; [done|]. intros Hc. specialize (Hk Hc). simpl; lia.
Qed.

Lemma readResident_gapless m st a b maxRecords maxBytes :
  Inv st → meta_table st = Some m → hot_min_seq m ≤ a → b < next_seq m → 0 ≤ maxRecords →
  let '(records, complete) := readResident a b maxRecords maxBytes st in
  ∃ n, 0 ≤ n ≤ Z.max 0 (b - a + 1) ∧ recordSeq <$> records = seqZ a n ∧ n ≤ maxRecords ∧
    (complete = true → n = Z.max 0 (b - a + 1)) ∧
    (0 < maxRecords → 0 ≤ maxBytes → a ≤ b → 0 < n) ∧
    ∀ r, r ∈ records → ∃ k row, journal st !! k = Some row ∧ r = rowToRecord row.
Proof.
  intros HI Hm Ha Hb Hmax. unfold readResident, limit.
  pose proof (selectAsc_inRange m st a b HI Hm Ha Hb) as Hsel.
  destruct (maxRecords + 1 <? 0) eqn:E; [bool_to_prop; lia|]. clear E.
  set (all := selectAsc _ _) in *. set (rows := take _ all).
  assert (Hrows : seq <$> rows = seqZ a (Z.min (maxRecords + 1) (b - a + 1)))
    by (unfold rows; rw fmap_take Hsel take_seqZ; [lia|done]).
  assert (Hlen : Z.of_nat (length rows) = Z.max 0 (Z.min (maxRecords + 1) (b - a + 1)))
    by (rw -(length_fmap seq) Hrows length_seqZ; lia).
  pose proof (readBudget_prefix maxRecords maxBytes 0 0 rows) as Hp.
  destruct (readBudget _ _ _ _ rows) as [records complete].
  destruct Hp as ((k & -> & Hk) & Hn & Hne). rw length_fmap in Hn.
  exists (Z.of_nat (length (take k rows))).
  rw length_take in Hn |- *. split; [lia|]. split; [|split; [lia|split]].
  - rw -list_fmap_compose. rw (list_fmap_ext (recordSeq ∘ rowToRecord) seq);
      [intros; apply recordSeq_rowToRecord|].
    rw fmap_take Hrows. rw -{1}(Nat2Z.id k) take_seqZ; [lia|]. apply seqZ_eq. lia.
  - intros [Hc Hfull]%andb_true_iff. specialize (Hk Hc). bool_to_prop. lia.
  - split.
    + intros H0 H1 H2. assert (Hr : rows ≠ []) by (intros ->; simpl in Hlen; lia).
      specialize (Hne H0 H1 Hr). destruct k; [done|]. destruct rows; [done|]. simpl. lia.
    + intros r (row & -> & (i & Hi & _)%elem_of_take)%list_elem_of_fmap.
      apply list_elem_of_lookup_2, elem_of_take in Hi as (j & Hj & _).
      apply list_elem_of_lookup_2, elem_of_selectAsc in Hj as (_ & k' & Hk'). eauto.
Qed.

(** ** Properties *)

(** C24: An append that returns names the row that carries its writer key, and no other row
    changed.  If it inserted that row, on a fresh key, it took the head sequence number, moved
    the head by one, and reading the row back yields the record that was published; if it is a
    retry, nothing changed and the number is that of the row that was there, while the record a
    retry publishes may differ from that row.  An append that throws (a tombstoned conversation,
    a retired writer or turn) leaves the whole store as it was.  A payload the caller serialised
    itself is assumed to be the text of its message ([payloadAgrees]). *)
Theorem append_publishes_what_it_stores o now st m :
  Inv st → meta_table st = Some m → payloadAgrees o →
  let '(st', result) := runAppend o now st in
  match result with
  | inl _ => st' = st
  | inr r =>
      ∃ row, journal st' !! res_seq r = Some row ∧ writer_key row = appendKey o ∧
        (∀ k, k ≠ res_seq r → journal st' !! k = journal st !! k) ∧
        if res_inserted r
        then rowToRecord row = res_record r ∧ res_seq r = next_seq m ∧
             journal st !! res_seq r = None ∧
             meta_table st' = Some (withNextSeq (next_seq m + 1) m)
        else st' = st
  end.
Proof.
  intros HI Hm Hp. pose proof (runAppend_appended o now st m HI Hm) as Happ.
  destruct (runAppend o now st) as [st' result]. simpl in Happ.
  destruct Happ as [|first rest Hd Hk| |m' st' Hd Hk Hm' ? ? Hsame]; try done.
  - assert (Hin : first ∈ byWriterKey st (appendKey o)) by (rw Hk; left).
    apply elem_of_byWriterKey in Hin as (Hkey & k & Hrow).
    assert (seq first = k) as Hseq by (destruct HI as (_ & HR & _); by apply HR).
    exists first. simpl. by rw Hseq.
  - simplify_eq. destruct (sameButFts_fields _ _ Hsame) as (Hmeta & Hj & _).
    rw Hj Hmeta (inserted_meta _ _ _ Hm) inserted_journal. simpl.
    exists (appendRow o now (next_seq m)). rw lookup_insert_eq appendRow_key rowToRecord_appendRow //.
    split; [done|]. split; [done|]. split; [intros k Hne; by rw lookup_insert_ne|].
    split; [done|]. split; [done|]. split; [|done].
    destruct (journal st !! next_seq m) eqn:E; [|done].
    destruct HI as (HD & _). rw Hm in HD. destruct HD as [_ HD].
    assert (Hs : is_Some (journal st !! next_seq m)) by eauto. apply HD in Hs. lia.
Qed.

(** A retry is free while the row is resident: once an append returned, any later
    append under the same writer key, whatever it carries, returns the same sequence
    number, reports that nothing was inserted and leaves the store untouched. *)
Theorem append_retry_is_noop o o' now now' st st1 r st2 m2 :
  Inv st → runAppend o now st = (st1, inr r) →
  Inv st2 → meta_table st2 = Some m2 → isDeleted st2 = false →
  journal st2 !! res_seq r = journal st1 !! res_seq r → appendKey o' = appendKey o →
  ∃ r', runAppend o' now' st2 = (st2, inr r') ∧ res_seq r' = res_seq r ∧ res_inserted r' = false.
Proof.
  intros HI Hrun HI2 Hm2 Hd2 Hrow Hkey.
  assert (∃ row, journal st1 !! res_seq r = Some row ∧ writer_key row = appendKey o) as (row & Hr & Hk).
  { destruct (meta_table st) as [m|] eqn:Hm.
    - pose proof (runAppend_appended o now st m HI Hm) as Happ. rw Hrun in Happ. simpl in Happ.
      inversion Happ as [|first rest Hd Hb| |m' st' Hd Hb Hm' Hw Ht Hsame]; subst; simpl.
      + assert (Hin : first ∈ byWriterKey st1 (appendKey o)) by (rw Hb; left).
        apply elem_of_byWriterKey in Hin as (Hkf & k & Hf).
        exists first. split; [|done]. destruct HI as (_ & HR & _). by rw (HR _ _ Hf).
      + destruct (sameButFts_fields _ _ Hsame) as (_ & Hj & _). rw Hj inserted_journal lookup_insert_eq.
        eexists. split; [done|]. apply appendRow_key.
    - assert (isDeleted st = true) as Hd by (unfold isDeleted, meta; by rw Hm).
      destruct o; simpl in Hrun; unfold appendMessage, appendTurn, appendCard, assertWritable in Hrun;
        unfold_monad; by rw Hd in Hrun. }
  rw Hr in Hrow. rw -Hkey in Hk.
  destruct (byWriterKey_resident _ _ _ _ HI2 Hrow Hk) as [rest Hb].
  pose proof (runAppend_appended o' now' st2 m2 HI2 Hm2) as Happ.
  destruct (runAppend o' now' st2) as [st' result]. simpl in Happ.
  inversion Happ as [|first rest' Hd Hb'| |]; subst; try congruence.
  rw Hb' in Hb. simplify_eq. eexists. split; [done|]. simpl. split; [|done].
  destruct HI2 as (_ & HR & _). by apply HR.
Qed.

(** *** Bootstrap *)

Definition objects (names : list string) : gset string := list_to_set names.

Record Booted (st : db) (m : MetaRow) : Prop := {
  booted_meta : meta_table st = Some m;
  booted_version : schema_version m = JOURNAL_SCHEMA_VERSION;
  booted_witness : epoch m ≤ default 0 (epoch_witness st);
  booted_objects : objects DDL ⊆ sqlite_master st
}.

Lemma sameButFts_master st st' : sameButFts st st' → sqlite_master st' = sqlite_master st.
Proof. unfold sameButFts. destruct st, st'; simpl. intros [=]; by subst. Qed.

Lemma backfill_sameButFts st : sameButFts st (backfillTranscriptSearch st).
Proof.
  unfold backfillTranscriptSearch. generalize (selectAsc isIndexable (journal st)) as l.
  intros l. revert st; induction l as [|row l IH]; intros st; [done|]. simpl.
  etrans; [|apply IH]. unfold indexStoredMessage. case_match; [apply index_sameButFts|done].
Qed.

Lemma subseteq_union_difference (D M C E : gset string) : D ⊆ M → D ## E → D ⊆ (C ∪ M) ∖ E.
Proof. set_solver. Qed.

(** A migration keeps every current object, and the rows outside the search index. *)
Lemma runMigration_keeps v st g :
  g ∈ MIGRATIONS → objects DDL ⊆ sqlite_master st →
  objects DDL ⊆ sqlite_master (runMigration v st g) ∧
  meta_table (runMigration v st g) = meta_table st ∧
  epoch_witness (runMigration v st g) = epoch_witness st ∧
  journal (runMigration v st g) = journal st.
Proof.
  intros Hg Hobj. unfold runMigration. destruct (_ <=? _); [done|].
  assert (Hdisj : objects DDL ## objects (drops g)).
  { assert (Hall : Forall (λ g, objects DDL ## objects (drops g)) MIGRATIONS)
      by (apply (bool_decide_unpack _); by vm_compute).
    exact (proj1 (Forall_forall _ _) Hall g Hg). }
  set (st1 := withMaster _ (createObjects _ _)).
  assert (H1 : objects DDL ⊆ sqlite_master st1 ∧ meta_table st1 = meta_table st ∧
               epoch_witness st1 = epoch_witness st ∧ journal st1 = journal st).
  { unfold st1, createObjects. destruct st; simpl in *. split; [|done].
    by apply subseteq_union_difference. }
  destruct (backfill g); [|done].
  pose proof (backfill_sameButFts st1) as Hs.
  destruct (sameButFts_fields _ _ Hs) as (-> & -> & _ & _ & _ & ->).
  by rw (sameButFts_master _ _ Hs).
Qed.

Lemma runMigrations_keep v gs st :
  gs ⊆ MIGRATIONS → objects DDL ⊆ sqlite_master st →
  let st' := foldl (runMigration v) st gs in
  objects DDL ⊆ sqlite_master st' ∧ meta_table st' = meta_table st ∧
  epoch_witness st' = epoch_witness st ∧ journal st' = journal st.
Proof.
  revert st; induction gs as [|g gs IH]; intros st Hgs Hobj; [done|]. simpl.
  destruct (runMigration_keeps v st g) as (Ho & Hm & Hw & Hj); [by apply Hgs; left|done|].
  destruct (IH (runMigration v st g)) as (Ho' & -> & -> & ->); [|done|done].
  intros x Hx. apply Hgs. by right.
Qed.

Lemma raiseWitness_spec e st :
  e ≤ default 0 (epoch_witness (raiseWitness e st)) ∧
  default 0 (epoch_witness st) ≤ default 0 (epoch_witness (raiseWitness e st)) ∧
  meta_table (raiseWitness e st) = meta_table st ∧ journal (raiseWitness e st) = journal st ∧
  sqlite_master (raiseWitness e st) = sqlite_master st.
Proof.
  unfold raiseWitness. destruct (_ <? _) eqn:E; bool_to_prop; destruct st; simpl in *;
    (split; [lia|]); (split; [lia|]); done.
Qed.

Lemma forallb_objects (M : gset string) (names : list string) :
  forallb (λ name, bool_decide (name ∈ M)) names = true → objects names ⊆ M.
Proof.
  rw forallb_forall. intros Hall x [i Hx]%elem_of_list_to_set%list_elem_of_lookup.
  apply list_elem_of_lookup_2, list_elem_of_In, Hall, bool_decide_eq_true in Hx. done.
Qed.

Lemma bootstrap_Booted st : ∃ m, Booted (bootstrap st) m.
Proof.
  unfold bootstrap, currentBootstrapMeta. destruct (meta_table st) as [m|] eqn:Hm.
  - destruct (_ && _ && _) eqn:E.
    + apply andb_true_iff in E as [[Hv _]%andb_true_iff Ho]. apply Z.eqb_eq in Hv.
      destruct (raiseWitness_spec (epoch m) st) as (H1 & H2 & H3 & H4 & H5).
      exists m. split; [by rw H3|done|done|]. rw H5. by apply forallb_objects.
    + clear E. set (st1 := createObjects DDL st).
      assert (Hm1 : meta_table st1 = Some m) by (unfold st1; by destruct st).
      assert (Ho1 : objects DDL ⊆ sqlite_master st1)
        by (unfold st1, createObjects; destruct st; simpl; apply union_subseteq_l).
      rw Hm1. destruct (raiseWitness_spec (epoch m) st1) as (H1 & H2 & H3 & H4 & H5).
      destruct (_ =? _) eqn:E; bool_to_prop; [exists m; split; by rw ?H3 ?H5|].
      destruct (runMigrations_keep (schema_version m) MIGRATIONS (raiseWitness (epoch m) st1))
        as (Ho & Hm2 & Hw & _); [done|by rw H5|].
      set (st2 := foldl _ _ _) in *.
      exists (withSchemaVersion JOURNAL_SCHEMA_VERSION m). rw H3 Hm1 in Hm2.
      assert (Heq : withMeta (Some (withSchemaVersion JOURNAL_SCHEMA_VERSION m)) st2 =
                    updateMeta (withSchemaVersion JOURNAL_SCHEMA_VERSION) st2)
        by (unfold updateMeta; by rw Hm2).
      rw -Heq. split; [by destruct st2|by destruct m| |by destruct st2].
      assert (epoch (withSchemaVersion JOURNAL_SCHEMA_VERSION m) = epoch m) as -> by by destruct m.
      assert (epoch_witness (withMeta (Some (withSchemaVersion JOURNAL_SCHEMA_VERSION m)) st2) =
              epoch_witness st2) as -> by by destruct st2.
      by rw Hw.
  - assert (Hm1 : meta_table (createObjects DDL st) = None) by by destruct st.
    rw Hm1. eexists. split; [by destruct st|done| |].
    + destruct st; simpl. lia.
    + destruct st; simpl. apply union_subseteq_l.
Qed.

(** A second bootstrap finds nothing to do. *)
Lemma bootstrap_id st m : Booted st m → bootstrap st = st.
Proof.
  intros [Hm Hv Hw Ho]. unfold bootstrap.
  assert (Hraise : raiseWitness (epoch m) st = st)
    by (unfold raiseWitness; destruct (_ <? _) eqn:E; [bool_to_prop; lia|done]).
  destruct (currentBootstrapMeta st) as [e|] eqn:E.
  - unfold currentBootstrapMeta in E. rw Hm in E. destruct (_ && _ && _); [|done]. by simplify_eq.
  - assert (createObjects DDL st = st) as ->.
    { unfold createObjects. fold (objects DDL).
      rw (proj1 (subseteq_union_L _ _) Ho). by destruct st. }
    rw Hm Hv Z.eqb_refl. exact Hraise.
Qed.

Lemma runAppend_epoch o now st m :
  Inv st → meta_table st = Some m →
  epoch_witness (fst (runAppend o now st)) = epoch_witness st ∧
  ∃ m', meta_table (fst (runAppend o now st)) = Some m' ∧ epoch m' = epoch m.
Proof.
  intros HI Hm.
  destruct (runAppend_appended o now st m HI Hm) as [| | |m' st' ? ? Hm' ? ? Hsame]; eauto.
  simplify_eq. destruct (sameButFts_fields _ _ Hsame) as (-> & _ & _ & _ & _ & ->).
  rw (inserted_meta _ _ _ Hm). split; [by destruct st|]. eexists. split; [done|]. by destruct m.
Qed.

Lemma runAppends_epoch ops st m :
  Inv st → meta_table st = Some m →
  let st' := foldl (λ st o, fst (runAppend o.1 o.2 st)) st ops in
  epoch_witness st' = epoch_witness st ∧ ∃ m', meta_table st' = Some m' ∧ epoch m' = epoch m.
Proof.
  revert st m; induction ops as [|[o now] ops IH]; intros st m HI Hm; simpl; [eauto|].
  destruct (runAppend_epoch o now st m HI Hm) as (Hw & m' & Hm' & He).
  destruct (IH _ m' (runAppend_Inv o now st HI) Hm') as (-> & m2 & ? & ?).
  split; [done|]. exists m2. split; [done|congruence].
Qed.

Lemma bootstrap_sqliteReset st :
  ∃ m, meta_table (bootstrap (sqliteReset st)) = Some m ∧
    epoch m = default 0 (epoch_witness st) + 1 ∧ schema_version m = JOURNAL_SCHEMA_VERSION ∧
    journal (bootstrap (sqliteReset st)) = ∅ ∧ next_seq m = 0.
Proof. destruct st. by eexists. Qed.

(** A journal recreated under the same object name never reuses an epoch.  Start
    an object on any storage, append anything to it, lose the SQLite database but not
    the key-value entry, and start it again: the new journal is empty and its epoch is
    larger than the old one, so a cursor into the old journal cannot be read against
    the new one; and starting an object that is already started changes nothing. *)
Theorem recreated_journal_has_a_new_epoch st ops :
  let st1 := bootstrap st in
  let st2 := foldl (λ st o, fst (runAppend o.1 o.2 st)) st1 ops in
  let st3 := bootstrap (sqliteReset st2) in
  Inv st1 →
  bootstrap st1 = st1 ∧
  ∃ m1 m3, meta_table st2 = Some m1 ∧ meta_table st3 = Some m3 ∧ epoch m1 < epoch m3 ∧
    schema_version m3 = JOURNAL_SCHEMA_VERSION ∧ journal st3 = ∅ ∧ next_seq m3 = 0.
Proof.
  intros st1 st2 st3 HI. destruct (bootstrap_Booted st) as [m HB].
  split; [by eapply bootstrap_id|]. destruct HB as [Hm Hv Hw Ho].
  destruct (runAppends_epoch ops st1 m HI Hm) as (Hw2 & m1 & Hm1 & He).
  fold st2 in Hw2, Hm1. fold st1 in Hw.
  destruct (bootstrap_sqliteReset st2) as (m3 & Hm3 & He3 & Hrest).
  exists m1, m3. rw He He3 Hw2. split; [done|]. split; [done|]. split; [lia|done].
Qed.

(** ** Witnesses *)

Lemma Inv_fresh e master w : Inv (withMeta (Some (freshMeta e)) (withMaster master (withWitness w emptyDb))).
Proof.
  split; [|split; [by intros k row|by intros k k' row row']].
  split; [done|]. intros k. simpl. rw lookup_empty. split; [by intros [? ?]|lia].
Qed.

Definition ex_db : db := bootstrap emptyDb.

Definition ex_message (key : string) (r : MessageRole) (content : list json) : append :=
  AppendMessage {| am_turnId := "turn-1"; am_writer := "orchestrator"; am_writerKey := key;
    am_role := r;
    am_message := [("role", JStr (roleName r)); ("content", JArr content)];
    am_hidden := None; am_modelSkip := None; am_streamId := Some "stream-1"; am_clientMsgId := Some "";
    am_createdAt := None; am_payloadJson := None; am_spillKey := None |}.

Definition ex_text (s : string) : json := JObj [("type", JStr "text"); ("text", JStr s)].
Definition ex_call (id : string) : json :=
  JObj [("type", JStr "toolCall"); ("id", JStr id); ("name", JStr "exec")].

Definition ex_hello : append := ex_message "k1" user [ex_text "  hello  world "].

Lemma ex_db_Inv : Inv ex_db.
Proof. apply (Inv_fresh 1 (list_to_set DDL ∪ ∅) (Some 1)). Qed.

Lemma append_publishes_what_it_stores_witness :
  payloadAgrees ex_hello ∧
  let '(st', result) := runAppend ex_hello 1000 ex_db in
  (∃ r, result = inr r ∧ res_inserted r = true) ∧
  fts_text <$> journal_fts st' !! 0 = Some "hello world" ∧
  match result with
  | inl _ => st' = ex_db
  | inr r =>
      ∃ row, journal st' !! res_seq r = Some row ∧ writer_key row = appendKey ex_hello ∧
        (∀ k, k ≠ res_seq r → journal st' !! k = journal ex_db !! k) ∧
        if res_inserted r
        then rowToRecord row = res_record r ∧ res_seq r = next_seq (freshMeta 1) ∧
             journal ex_db !! res_seq r = None ∧
             meta_table st' = Some (withNextSeq (next_seq (freshMeta 1) + 1) (freshMeta 1))
        else st' = ex_db
  end.
Proof.
  assert (Hp : payloadAgrees ex_hello) by done. split; [exact Hp|].
  pose proof (append_publishes_what_it_stores ex_hello 1000 ex_db (freshMeta 1) ex_db_Inv eq_refl Hp) as H.
  destruct (runAppend ex_hello 1000 ex_db) as [st' result] eqn:E.
  split; [|split; [|exact H]].
  - assert (Hr : result = snd (runAppend ex_hello 1000 ex_db)) by (by rw E).
    rw Hr. vm_compute. eauto.
  - assert (Hr : st' = fst (runAppend ex_hello 1000 ex_db)) by (by rw E).
    rw Hr. by vm_compute.
Defined.

Definition ex_db1 : db := fst (runAppend ex_hello 1000 ex_db).
Definition ex_result1 : AppendResult :=
  {| res_seq := 0; res_inserted := true; res_record := appendRecord ex_hello 1000 0 |}.

Lemma append_retry_is_noop_witness :
  ∃ r', runAppend (ex_message "k1" assistant []) 2000 ex_db1 = (ex_db1, inr r') ∧
    res_seq r' = res_seq ex_result1 ∧ res_inserted r' = false.
Proof.
  refine (append_retry_is_noop ex_hello (ex_message "k1" assistant []) 1000 2000 ex_db ex_db1
            ex_result1 ex_db1 (withNextSeq 1 (freshMeta 1)) ex_db_Inv _ _ _ _ _ _);
    [by vm_compute|by apply runAppend_Inv, ex_db_Inv|by vm_compute..|done|done].
Defined.

Lemma recreated_journal_has_a_new_epoch_witness :
  let st3 := bootstrap (sqliteReset (foldl (λ st o, fst (runAppend o.1 o.2 st)) ex_db [(ex_hello, 5)])) in
  epoch <$> meta_table st3 = Some 2 ∧
  bootstrap ex_db = ex_db ∧
  ∃ m1 m3, meta_table (foldl (λ st o, fst (runAppend o.1 o.2 st)) ex_db [(ex_hello, 5)]) = Some m1 ∧
    meta_table st3 = Some m3 ∧ epoch m1 < epoch m3 ∧
    schema_version m3 = JOURNAL_SCHEMA_VERSION ∧ journal st3 = ∅ ∧ next_seq m3 = 0.
Proof.
  intros st3. split; [by vm_compute|].
  exact (recreated_journal_has_a_new_epoch emptyDb [(ex_hello, 5)] ex_db_Inv).
Defined.
