(* ===== verification/JournalContext.v ===== *)
(** * The conversation journal: repair on load and the model's context

    The second half of [workers/cloud-builder/src/journal.ts]: closing the tool calls
    an interrupted turn left open, choosing the suffix of the transcript a turn sends
    to the model, and the development-only fault that corrupts one row and puts it
    back. *)

From Corelib Require Import ssreflect.
From stdpp Require Import prelude gmap strings sorting.
From S2P Require Import Prelude JsNumber JsString Json SqlTable Journal.

#[local] Open Scope Z_scope.

(** ** Repair on load *)

Definition REPAIR_SCAN_ROW_CAP : Z := 400.

(** [kind = 'message' AND model_skip = 0]. *)
Definition isModelRow (row : JournalRow) : bool :=
  bool_decide (kind row = message) && negb (model_skip row).

Definition toolCallIds (v : json) : list string :=
  omap (λ block, if isToolCall block then asString (prop "id" block) else None) (contentBlocks v).

Record ToolCall := { tc_id : string; tc_name : string; tc_arguments : json }.

Definition toolCallsOf (v : json) : list ToolCall :=
  omap (λ block,
    if isToolCall block then
      match asString (prop "id" block), asString (prop "name" block) with
      | Some id, Some name =>
          Some {| tc_id := id; tc_name := name;
                  tc_arguments := match prop "arguments" block with
                                  | Some (JObj l) => JObj l | _ => JObj [] end |}
      | _, _ => None
      end
    else None) (contentBlocks v).

(** The newest-first scan [repairTail] and [openTailCalls] share: [calls] lists the
    calls of a parsed assistant payload in the order they are pushed.  [None] is the
    [TypeError] of reading [content] of a null payload. *)
Fixpoint scanOpen {A} (calls : json → list A) (idOf : A → string) (answered : gset string)
    (rows : list JournalRow) : option (list (string * A)) :=
  match rows with
  | [] => Some []
  | row :: rows' =>
      match role row with
      | Some user => Some []
      | Some toolResult =>
          scanOpen calls idOf
            (match truthy (tool_call_id row) with Some id => {[id]} ∪ answered | None => answered end)
            rows'
      | Some assistant =>
          if open_calls row =? 0 then scanOpen calls idOf answered rows'
          else match truthy (spill_key row) with
          | Some _ => scanOpen calls idOf answered rows'
          | None =>
              match JSON_parse (payload_json row) with
              | None => scanOpen calls idOf answered rows'
              | Some JNull => None
              | Some parsed =>
                  let opened :=
                    filter (λ c, bool_decide (idOf c ∉ answered) = true) (calls parsed) in
                  match scanOpen calls idOf answered rows' with
                  | Some rest => Some (((turn_id row,.) <$> opened) ++ rest)
                  | None => None
                  end
              end
          end
      | None => scanOpen calls idOf answered rows'
      end
  end.

Definition tailRows (st : db) : list JournalRow :=
  limit REPAIR_SCAN_ROW_CAP (selectDesc isModelRow (journal st)).

(** The pairs of turn and call id [repairTail] pushes, newest row first. *)
Definition openTail (st : db) : option (list (string * string)) :=
  scanOpen toolCallIds id ∅ (tailRows st).

Definition openTailCalls (st : db) : error + list (string * ToolCall) :=
  match scanOpen (λ v, reverse (toolCallsOf v)) tc_id ∅ (tailRows st) with
  | Some opened => inr (reverse opened)
  | None => inl TypeError
  end.

Definition repairKey (turnId toolCallId : string) : string :=
  "repair:" +:+ turnId +:+ ":" +:+ toolCallId.

Definition interruptedResult (toolCallId : string) (now : Z) : fields :=
  [("role", JStr "toolResult"); ("toolCallId", JStr toolCallId); ("toolName", JStr "unknown");
   ("content", JArr [JObj [("type", JStr "text");
      ("text", JStr "This tool call was interrupted before it finished.")]]);
   ("isError", JBool true); ("timestamp", JInt now)].

Definition repairInput (turnId key : string) (msg : fields) (now : Z) : AppendMessageInput :=
  {| am_turnId := turnId; am_writer := "repair"; am_writerKey := key; am_role := toolResult;
     am_message := msg; am_hidden := None; am_modelSkip := None; am_streamId := None;
     am_clientMsgId := None; am_createdAt := Some now; am_payloadJson := None;
     am_spillKey := None |}.

Fixpoint forEach {A B} (f : A → J B) (l : list A) : J (list B) :=
  match l with
  | [] => ret []
  | x :: l' => let* y := f x in let* ys := forEach f l' in ret (y :: ys)
  end.

Definition repairOne (now : Z) (entry : string * string) : J AppendResult :=
  appendMessage (repairInput entry.1 (repairKey entry.1 entry.2) (interruptedResult entry.2 now) now) now.

Definition repairTail (now : Z) : J (list AppendResult) :=
  let* found := gets openTail in
  match found with
  | None => throw TypeError
  | Some [] => ret []
  | Some opened => forEach (repairOne now) (reverse opened)
  end.

(** [appendRepairedResult]: a resume's result, under the key a repair would use. *)
Definition appendRepairedResult (turnId : string) (msg : fields) (now : Z) : J AppendResult :=
  match truthy (asString (assoc "toolCallId" msg)) with
  | None => throw (Error "A repaired tool result needs its tool call id.")
  | Some toolCallId => appendMessage (repairInput turnId (repairKey turnId toolCallId) msg now) now
  end.

Definition hasRow (st : db) (writerKey : string) : bool :=
  bool_decide (byWriterKey st writerKey ≠ []).

(** [messageByWriterKey]: [None] is null. *)
Definition messageByWriterKey (st : db) (writerKey : string) : option json :=
  match selectAsc (λ row, String.eqb (writer_key row) writerKey && bool_decide (kind row = message))
          (journal st) with
  | row :: _ => JSON_parse (payload_json row)
  | [] => None
  end.

Definition updateRow (s : Z) (f : JournalRow → JournalRow) (st : db) : db :=
  withJournal (alter f s (journal st)) st.

Definition withPayload (t : text) (row : JournalRow) : JournalRow :=
  let 'Build_JournalRow a b c d e f g h i j k l m n o p q r s _ u := row in
  Build_JournalRow a b c d e f g h i j k l m n o p q r s t u.

Definition withModelSkip (row : JournalRow) : JournalRow :=
  let 'Build_JournalRow a b c d e f g h i _ k l m n o p q r s t u := row in
  Build_JournalRow a b c d e f g h i true k l m n o p q r s t u.

Definition markModelSkip (s : Z) (st : db) : db := updateRow s withModelSkip st.

(** ** The context window *)

Definition CONTEXT_SCAN_ROW_CAP : Z := 4000.

Definition inContext (excludeTurnId : string) (afterSeq : Z) (row : JournalRow) : bool :=
  isModelRow row && negb (String.eqb (turn_id row) excludeTurnId) && (afterSeq <? seq row).

(** How many of the rows, newest first, fit the budget. *)
Fixpoint fitting (budgetTokens used : Z) (newestFirst : list JournalRow) : nat :=
  match newestFirst with
  | [] => 0%nat
  | row :: rows =>
      let used := used + tokens row in
      if budgetTokens <? used then 0%nat else S (fitting budgetTokens used rows)
  end.

Fixpoint skipToUser (rows : list JournalRow) : list JournalRow :=
  match rows with
  | [] => []
  | row :: rows' => if bool_decide (role row = Some user) then rows else skipToUser rows'
  end.

(** The scanned rows, oldest first. *)
Definition contextScan (excludeTurnId : string) (afterSeq : Z) (st : db) : list JournalRow :=
  reverse (limit CONTEXT_SCAN_ROW_CAP (selectDesc (inContext excludeTurnId afterSeq) (journal st))).

Definition contextStartSeq (excludeTurnId : string) (budgetTokens afterSeq : Z) (st : db) : Z :=
  let scan := contextScan excludeTurnId afterSeq st in
  let start := (length scan - fitting budgetTokens 0 (reverse scan))%nat in
  match skipToUser (drop start scan) with
  | row :: _ => seq row
  | [] => next_seq (meta st)
  end.

Record Spilled := {
  spl_seq : Z; spl_spillKey : string; spl_index : nat; spl_role : MessageRole;
  spl_toolCallId : option string
}.

Record WindowSelection := {
  ws_messages : list json;
  ws_rows : list (Z * option MessageRole * bool);
  ws_startSeq : Z;
  ws_endSeq : Z;
  ws_spilled : list Spilled;
}.

Definition isSpillStub (v : json) : bool := bool_decide (asBoolean (prop "$spill" v) = Some true).

(** The loop of [windowFromRows]: [n] is [messages.length]. *)
Fixpoint windowLoop (n : nat) (rows : list JournalRow) : error + (list json * list Spilled) :=
  match rows with
  | [] => inr ([], [])
  | row :: rows' =>
      match JSON_parse (payload_json row) with
      | None => inl (JournalContextIntegrityError (seq row))
      | Some parsed =>
          match windowLoop (S n) rows' with
          | inl e => inl e
          | inr (messages, spilled) =>
              inr (parsed :: messages,
                   match truthy (spill_key row) with
                   | Some key =>
                       if isSpillStub parsed then
                         {| spl_seq := seq row; spl_spillKey := key; spl_index := n;
                            spl_role := default user (role row);
                            spl_toolCallId := tool_call_id row |} :: spilled
                       else spilled
                   | None => spilled
                   end)
          end
      end
  end.

Definition windowFromRows (rows : list JournalRow) (startSeq : Z) : error + WindowSelection :=
  match windowLoop 0 rows with
  | inl e => inl e
  | inr (messages, spilled) =>
      inr {| ws_messages := messages;
             ws_rows := (λ row, (seq row, role row, hidden row)) <$> rows;
             ws_startSeq := startSeq;
             ws_endSeq := match last rows with Some row => seq row | None => startSeq end;
             ws_spilled := spilled |}
  end.

Definition fromSeq (excludeTurnId : string) (startSeq : Z) (row : JournalRow) : bool :=
  (startSeq <=? seq row) && isModelRow row && negb (String.eqb (turn_id row) excludeTurnId).

Definition windowRows (excludeTurnId : string) (startSeq : Z) (st : db) : list JournalRow :=
  selectAsc (fromSeq excludeTurnId startSeq) (journal st).

Definition selectWindow (excludeTurnId : string) (budgetTokens afterSeq : Z) (st : db)
    : error + WindowSelection :=
  let m := meta st in
  let startSeq := contextStartSeq excludeTurnId budgetTokens afterSeq st in
  if next_seq m <=? startSeq then
    inr {| ws_messages := []; ws_rows := []; ws_startSeq := next_seq m;
           ws_endSeq := next_seq m - 1; ws_spilled := [] |}
  else windowFromRows (windowRows excludeTurnId startSeq st) startSeq.

Definition selectRange (excludeTurnId : string) (startSeq endSeq : Z) (st : db)
    : error + WindowSelection :=
  windowFromRows
    (selectAsc (λ row, fromSeq excludeTurnId startSeq row && (seq row <=? endSeq)) (journal st))
    startSeq.

Definition selectTurnMessages (turnId : string) (st : db) : error + WindowSelection :=
  let rows := selectAsc (λ row, isModelRow row && String.eqb (turn_id row) turnId) (journal st) in
  windowFromRows rows (match rows with row :: _ => seq row | [] => next_seq (meta st) end).

(** What stands in for a spilled payload that cannot be fetched. *)
Definition omittedPlaceholder (r : MessageRole) (now : Z) (toolCallId : option string) : json :=
  let content := ("content", JArr [JObj [("type", JStr "text");
                    ("text", JStr "[content omitted: too large]")]]) in
  match r with
  | toolResult =>
      JObj [("role", JStr "toolResult"); ("toolCallId", JStr (default "omitted" toolCallId));
            ("toolName", JStr "unknown"); content; ("isError", JBool false); ("timestamp", JInt now)]
  | r => JObj [("role", JStr (roleName r)); content; ("timestamp", JInt now)]
  end.

(** ** The acceptance fault

    One row's payload is replaced by a fixed text that does not parse; the second
    observed failure puts the original back. *)

Definition ACCEPTANCE_CONTEXT_CORRUPT_PAYLOAD : text :=
  RawText ("{" +:+ String quotationMark ("stellaAcceptanceContextFault" +:+
    String quotationMark ":")).

(** [/^[a-f0-9]{64}$/u]. *)
Fixpoint allHex (s : string) : bool :=
  match s with
  | EmptyString => true
  | String c s' =>
      let n := charCodeAt c in
      (((97 <=? n) && (n <=? 102)) || ((48 <=? n) && (n <=? 57))) && allHex s'
  end.

Definition isSha256 (s : string) : bool := allHex s && (js_length s =? 64).

Record ArmArgs := {
  arm_runIdSha256 : string; arm_seq : Z; arm_expectedPayloadJson : text;
  arm_originalPayloadSha256 : string; arm_corruptPayloadSha256 : string; arm_createdAt : Z
}.

(** [acceptanceContextFaultCandidate]: the newest user row, if its payload parses. *)
Definition acceptanceContextFaultCandidate (st : db) : option (Z * text) :=
  match acceptance_context_fault st with
  | Some _ => None
  | None =>
      match selectDesc (λ row, isModelRow row && bool_decide (role row = Some user)) (journal st) with
      | row :: _ =>
          match JSON_parse (payload_json row) with
          | Some _ => Some (seq row, payload_json row)
          | None => None
          end
      | [] => None
      end
  end.

Definition isSafeSeq (s : Z) : bool := (0 <=? s) && (s <=? MAX_SAFE_INTEGER).

(** The fault record with the original payload left out. *)
Definition safeFault (f : AcceptanceContextFault) : string * Z * string * string * Z * Z * Z :=
  (f_run_id_sha256 f, f_seq f, f_original_payload_sha256 f, f_corrupt_payload_sha256 f,
   f_observed_failures f, f_repair_after_failures f, f_created_at f).

Definition payloadAt (s : Z) (st : db) : option text := payload_json <$> journal st !! s.

(** [UPDATE journal SET payload_json = t WHERE seq = s AND payload_json = old]. *)
Definition replacePayload (s : Z) (old t : text) (st : db) : db :=
  updateRow s (λ row, if bool_decide (payload_json row = old) then withPayload t row else row) st.

Definition armAcceptanceContextFault (args : ArmArgs)
    : J (string * Z * string * string * Z * Z * Z) :=
  if negb (isSha256 (arm_runIdSha256 args)) || negb (isSha256 (arm_originalPayloadSha256 args)) ||
     negb (isSha256 (arm_corruptPayloadSha256 args)) || negb (isSafeSeq (arm_seq args))
  then throw (Error "Invalid acceptance context fault metadata.")
  else transactionSync (
    let* fault := gets acceptance_context_fault in
    match fault with
    | Some _ => throw (Error "An acceptance context fault is already armed.")
    | None =>
        let* row := gets (λ st, journal st !! arm_seq args) in
        match row with
        | Some row =>
            if negb (bool_decide (kind row = message)) || model_skip row ||
               negb (bool_decide (role row = Some user)) ||
               negb (bool_decide (payload_json row = arm_expectedPayloadJson args))
            then throw (Error "Acceptance context fault candidate changed.")
            else match JSON_parse (payload_json row) with
            | None => throw (Error "Acceptance context fault candidate is already corrupt.")
            | Some _ =>
                let armed :=
                  {| f_run_id_sha256 := arm_runIdSha256 args; f_seq := arm_seq args;
                     f_original_payload_json := payload_json row;
                     f_original_payload_sha256 := arm_originalPayloadSha256 args;
                     f_corrupt_payload_sha256 := arm_corruptPayloadSha256 args;
                     f_observed_failures := 0; f_repair_after_failures := 2;
                     f_created_at := arm_createdAt args |} in
                modify (withFault (Some armed));;;
                modify (replacePayload (arm_seq args) (payload_json row)
                          ACCEPTANCE_CONTEXT_CORRUPT_PAYLOAD);;;
                let* changed := gets (payloadAt (arm_seq args)) in
                if bool_decide (changed = Some ACCEPTANCE_CONTEXT_CORRUPT_PAYLOAD)
                then ret (safeFault armed)
                else throw (Error "Acceptance context fault did not commit atomically.")
            end
        | None => throw (Error "Acceptance context fault candidate changed.")
        end
    end).

Record Observation := {
  ob_observedFailures : Z; ob_repaired : bool; ob_seq : Z;
  ob_originalPayloadSha256 : string; ob_corruptPayloadSha256 : string
}.

Definition observation (f : AcceptanceContextFault) (failures : Z) (repaired : bool) : Observation :=
  {| ob_observedFailures := failures; ob_repaired := repaired; ob_seq := f_seq f;
     ob_originalPayloadSha256 := f_original_payload_sha256 f;
     ob_corruptPayloadSha256 := f_corrupt_payload_sha256 f |}.

Definition withObserved (n : Z) (f : AcceptanceContextFault) : AcceptanceContextFault :=
  let 'Build_AcceptanceContextFault a b c d e _ g h := f in
  Build_AcceptanceContextFault a b c d e n g h.

Definition observeAcceptanceContextFault (runIdSha256 : string) : J (option Observation) :=
  transactionSync (
    let* fault := gets acceptance_context_fault in
    match fault with
    | None => ret None
    | Some fault =>
        if negb (String.eqb (f_run_id_sha256 fault) runIdSha256)
        then throw (Error "Acceptance context fault run does not match.")
        else
          let observedFailures := f_observed_failures fault + 1 in
          if observedFailures <? f_repair_after_failures fault then
            modify (withFault (Some (withObserved observedFailures fault)));;;
            ret (Some (observation fault observedFailures false))
          else
            let* current := gets (payloadAt (f_seq fault)) in
            if bool_decide (current = Some ACCEPTANCE_CONTEXT_CORRUPT_PAYLOAD) then
              modify (replacePayload (f_seq fault) ACCEPTANCE_CONTEXT_CORRUPT_PAYLOAD
                        (f_original_payload_json fault));;;
              modify (withFault None);;;
              ret (Some (observation fault observedFailures true))
            else throw (Error "Acceptance context fault evidence changed before repair.")
    end).

(** ** Repair closes the tail *)

(** A second scan that knows every id the first one left open finds nothing open,
    even when fewer rows are scanned. *)
Lemma scanOpen_closed {A} (calls : json → list A) (idOf : A → string)
    (answered answered' : gset string) rows n opened :
  (∀ v c, c ∈ calls v → idOf c ∈ toolCallIds v) →
  scanOpen toolCallIds id answered rows = Some opened →
  answered ⊆ answered' → (∀ e, e ∈ opened → e.2 ∈ answered') →
  scanOpen calls idOf answered' (take n rows) = Some [].
Proof.
  intros Hcalls. revert answered answered' n opened.
  induction rows as [|row rows IH]; intros answered answered' [|n] opened Hscan Hsub Hopen;
    simpl in *; [done..|].
  destruct (role row) as [[| |]|]; [done| |eapply IH; [exact Hscan| |]|by eapply IH].
  - destruct (open_calls row =? 0); [by eapply IH|].
    destruct (truthy (spill_key row)); [by eapply IH|].
    destruct (JSON_parse (payload_json row)) as [parsed|]; [|by eapply IH].
    assert (Hcase : ∃ rest, scanOpen toolCallIds id answered rows = Some rest ∧ parsed ≠ JNull ∧
              opened = ((turn_id row,.) <$>
                filter (λ c, bool_decide (c ∉ answered) = true) (toolCallIds parsed)) ++ rest).
    { destruct parsed; try done;
        (destruct (scanOpen _ _ _ rows) as [rest|]; [|done]); simplify_eq; eauto. }
    destruct Hcase as (rest & Hrest & Hnull & ->).
    assert (Hnone : filter (λ c, bool_decide (idOf c ∉ answered') = true) (calls parsed) = []).
    { apply filter_none. intros c Hc Hnot%bool_decide_eq_true.
      apply Hnot. specialize (Hcalls _ _ Hc).
      destruct (decide (idOf c ∈ answered)) as [Ha|Hna]; [by apply Hsub|].
      apply (Hopen (turn_id row, idOf c)). apply elem_of_app. left.
      apply list_elem_of_fmap. exists (idOf c). split; [done|].
      apply list_elem_of_filter. split; [|done]. by apply bool_decide_eq_true. }
    rw (IH answered answered' n rest Hrest Hsub); [|].
    { intros e He. apply Hopen. apply elem_of_app. by right. }
    rw Hnone. by destruct parsed.
  - destruct (truthy (tool_call_id row)); [|done]. by apply union_mono_l.
  - intros e He. specialize (Hopen e He). destruct (truthy _); [by apply elem_of_union_r|done].
Qed.

Lemma toolCallsOf_ids v c : c ∈ toolCallsOf v → tc_id c ∈ toolCallIds v.
Proof.
  unfold toolCallsOf, toolCallIds. rw !list_elem_of_omap.
  intros (block & Hin & Hblock). exists block. split; [done|].
  destruct (isToolCall block); [|done]. destruct (asString (prop "id" block)); [|done].
  destruct (asString (prop "name" block)); [|done]. by simplify_eq.
Qed.

Definition resultIds (rows : list JournalRow) : gset string :=
  list_to_set (omap (λ row, truthy (tool_call_id row)) rows).

Definition isResult (row : JournalRow) : Prop := role row = Some toolResult.

(** Tool results at the front of a scan only add their ids. *)
Lemma scanOpen_results {A} (calls : json → list A) idOf answered news rows :
  Forall isResult news →
  ∃ answered', scanOpen calls idOf answered (news ++ rows) = scanOpen calls idOf answered' rows ∧
    ∀ x, x ∈ answered' ↔ x ∈ resultIds news ∨ x ∈ answered.
Proof.
  intros Hn. revert answered; induction Hn as [|row news Hrow Hn IH]; intros answered; simpl.
  - exists answered. split; [done|]. intros x. split; [by right|intros [H|]; [|done]].
    by apply elem_of_empty in H.
  - rw Hrow. destruct (IH (match truthy (tool_call_id row) with
      Some id => {[id]} ∪ answered | None => answered end)) as (answered' & -> & Hin).
    exists answered'. split; [done|]. intros x. rw Hin. unfold resultIds. simpl.
    destruct (truthy (tool_call_id row)) as [id|]; simpl; [|done].
    rw !elem_of_union elem_of_singleton. tauto.
Qed.

(** What writing synthetic results for [l] does to a store. *)
Record Repaired (st : db) (l : list (string * string)) (st' : db) (news : list JournalRow) : Prop := {
  rp_inv : Inv st';
  rp_meta : ∃ m, meta_table st' = Some m;
  rp_live : isDeleted st' = false;
  rp_writers : retired_writers st' = retired_writers st;
  rp_turns : retired_turns st' = retired_turns st;
  rp_rows : selectDesc isModelRow (journal st') = news ++ selectDesc isModelRow (journal st);
  rp_results : Forall isResult news;
  rp_answers : ∀ e, e ∈ l →
    (∃ row e0, row ∈ news ∧ e0 ∈ l ∧ repairKey e0.1 e0.2 = repairKey e.1 e.2 ∧
       tool_call_id row = Some e0.2) ∨ byWriterKey st (repairKey e.1 e.2) ≠ [];
  rp_kept : ∀ k row, journal st !! k = Some row → journal st' !! k = Some row;
  rp_new : ∀ k row, journal st' !! k = Some row → journal st !! k = Some row ∨
    row ∈ news ∧ ∃ e0, e0 ∈ l ∧ writer_key row = repairKey e0.1 e0.2 ∧ tool_call_id row = Some e0.2
}.

Lemma Repaired_nil st m :
  Inv st → meta_table st = Some m → isDeleted st = false → Repaired st [] st [].
Proof. intros. split; eauto. intros e []%not_elem_of_nil. Qed.

Lemma isDeleted_inserted row m st :
  meta_table st = Some m → isDeleted (inserted row m st) = isDeleted st.
Proof.
  intros Hm. unfold isDeleted. rw (meta_Some _ _ Hm) (meta_Some _ _ (inserted_meta _ _ _ Hm)).
  by destruct m.
Qed.

Lemma isDeleted_sameButFts st st' : sameButFts st st' → isDeleted st' = isDeleted st.
Proof. intros (Hm & _)%sameButFts_fields. unfold isDeleted, meta. by rw Hm. Qed.

Lemma retired_sameButFts st st' :
  sameButFts st st' →
  retired_writers st' = retired_writers st ∧ retired_turns st' = retired_turns st.
Proof. unfold sameButFts. destruct st, st'; simpl. intros [=]; by subst. Qed.

Lemma repairOne_Repaired now e st m :
  Inv st → meta_table st = Some m → isDeleted st = false →
  repairKey e.1 e.2 ∉ retired_writers st → e.1 ∉ retired_turns st →
  ∃ r news, snd (repairOne now e st) = inr r ∧ Repaired st [e] (fst (repairOne now e st)) news.
Proof.
  intros HI Hm Hd Hw Ht.
  set (o := AppendMessage
    (repairInput e.1 (repairKey e.1 e.2) (interruptedResult e.2 now) now)).
  change (repairOne now e) with (runAppend o now).
  destruct (runAppend_appended o now st m HI Hm)
    as [Hd'|first rest _ Hk|_ _ Hst|m' st' _ Hk Hm' _ _ Hsame]; try congruence.
  - eexists _, []. split; [done|]. split; eauto.
    intros e' ->%list_elem_of_singleton. right. change (appendKey o) with (repairKey e.1 e.2) in Hk.
    by rw Hk.
  - by destruct Hst.
  - simplify_eq. pose proof (runAppend_Inv o now st HI) as HI'.
    destruct (sameButFts_fields _ _ Hsame) as (Hmeta & Hj & _).
    destruct (retired_sameButFts _ _ Hsame) as (Hrw & Hrt).
    set (row := appendRow o now (next_seq m)).
    eexists _, [row]. split; [done|]. destruct (HI) as (HD & _). rw Hm in HD. destruct HD as [_ HD].
    split.
    + eapply Inv_sameButFts; [exact Hsame|]. apply Inv_inserted; [done..|apply appendRow_seq|].
      rw appendRow_key. by apply byWriterKey_nil.
    + rw Hmeta (inserted_meta _ _ _ Hm). eauto.
    + by rw (isDeleted_sameButFts _ _ Hsame) (isDeleted_inserted _ _ _ Hm).
    + rw Hrw. by destruct st.
    + rw Hrt. by destruct st.
    + rw Hj inserted_journal. rw selectDesc_insert_last; [|done].
      intros k' r' Hr'. assert (Hs : is_Some (journal st !! k')) by eauto. apply HD in Hs. lia.
    + by repeat constructor.
    + intros e' ->%list_elem_of_singleton. left. exists row, e. by rw !list_elem_of_singleton.
    + intros k r Hr. rw Hj inserted_journal. rw lookup_insert_ne //. intros <-.
      assert (Hs : is_Some (journal st !! next_seq m)) by eauto. apply HD in Hs. lia.
    + intros k r. rw Hj inserted_journal. intros [[<- <-]|[? ?]]%lookup_insert_Some; [right|by left].
      split; [by left|]. exists e. by rw list_elem_of_singleton.
Qed.

Lemma Repaired_cons st e l st1 st2 news1 news2 :
  Repaired st [e] st1 news1 → Repaired st1 l st2 news2 →
  Repaired st (e :: l) st2 (news2 ++ news1).
Proof.
  intros [HI1 Hm1 Hd1 Hw1 Ht1 Hr1 Hs1 Ha1 Hk1 Hn1] [HI2 Hm2 Hd2 Hw2 Ht2 Hr2 Hs2 Ha2 Hk2 Hn2].
  split; try done; [congruence|congruence|by rw Hr2 Hr1 app_assoc|by apply Forall_app_2| |by eauto|].
  - intros e' [->|He]%elem_of_cons.
    + destruct (Ha1 e) as [(row & e0 & Hin & ->%list_elem_of_singleton & ? & ?)|]; [left| |by right].
      left. exists row, e. split; [apply elem_of_app; by right|]. by split; [left|].
    + destruct (Ha2 e' He) as [(row & e0 & ? & ? & ? & ?)|Hb]; [left|].
      * exists row, e0. split; [apply elem_of_app; by left|]. by split; [right|].
      * destruct (byWriterKey st (repairKey e'.1 e'.2)) eqn:Hb0; [|by right].
        destruct (byWriterKey st1 _) as [|row rest] eqn:Hb1; [done|].
        assert (Hin : row ∈ byWriterKey st1 (repairKey e'.1 e'.2)) by (rw Hb1; left).
        apply elem_of_byWriterKey in Hin as (Hkey & k & Hrow).
        destruct (Hn1 _ _ Hrow) as [Hold|(Hin & e0 & ->%list_elem_of_singleton & Hk0 & Hid)].
        -- by destruct (byWriterKey_nil _ _ Hb0 _ _ Hold).
        -- left. exists row, e. split; [apply elem_of_app; by right|]. split; [left|].
           split; [congruence|done].
  - intros k row [Hrow|(Hin & e0 & He & ?)]%Hn2.
    + destruct (Hn1 _ _ Hrow) as [|(Hin & e0 & ->%list_elem_of_singleton & ?)]; [by left|right].
      rw elem_of_app. split; [by right|]. exists e. split; [left|done].
    + right. rw elem_of_app. split; [by left|]. exists e0. split; [by right|done].
Qed.

Lemma forEach_Repaired now l st m :
  Inv st → meta_table st = Some m → isDeleted st = false →
  (∀ e, e ∈ l → repairKey e.1 e.2 ∉ retired_writers st ∧ e.1 ∉ retired_turns st) →
  ∃ results news, snd (forEach (repairOne now) l st) = inr results ∧
    Repaired st l (fst (forEach (repairOne now) l st)) news.
Proof.
  revert st m; induction l as [|e l IH]; intros st m HI Hm Hd Hl.
  { exists [], []. split; [done|]. by eapply Repaired_nil. }
  destruct (repairOne_Repaired now e st m) as (r & news1 & Hr & HR1); [done..|apply Hl; left|apply Hl; left|].
  simpl. unfold_monad. destruct (repairOne now e st) as [st1 r1]. simpl in *. subst r1.
  destruct (rp_meta _ _ _ _ HR1) as [m1 Hm1].
  destruct (IH st1 m1) as (results & news2 & Hr2 & HR2);
    [by eapply rp_inv|done|by eapply rp_live| |].
  { intros e' He. rw (rp_writers _ _ _ _ HR1) (rp_turns _ _ _ _ HR1). apply Hl. by right. }
  destruct (forEach (repairOne now) l st1) as [st2 r2]. simpl in *. subst r2.
  eexists _, _. split; [done|]. by eapply Repaired_cons.
Qed.

(** No repair of these calls was written before, nothing fences their turns, and two
    of their writer keys are equal only when they answer the same call. *)
Record Repairable (st : db) (opened : list (string * string)) : Prop := {
  ra_id : ∀ e, e ∈ opened → e.2 ≠ "";
  ra_fresh : ∀ e, e ∈ opened → byWriterKey st (repairKey e.1 e.2) = [];
  ra_open : ∀ e, e ∈ opened → repairKey e.1 e.2 ∉ retired_writers st ∧ e.1 ∉ retired_turns st;
  ra_keys : ∀ e e', e ∈ opened → e' ∈ opened →
    repairKey e.1 e.2 = repairKey e'.1 e'.2 → e.2 = e'.2
}.

(** After the results are written the same scan finds every call answered. *)
Lemma repaired_scan {A} (calls : json → list A) idOf st opened l st' news :
  (∀ v c, c ∈ calls v → idOf c ∈ toolCallIds v) →
  openTail st = Some opened → l ≡ₚ opened → Repairable st opened → Repaired st l st' news →
  scanOpen calls idOf ∅ (tailRows st') = Some [].
Proof.
  intros Hcalls Hopen Hperm [Hid Hfresh _ Hkeys] HR. unfold tailRows, limit in *.
  unfold openTail, tailRows, limit in Hopen. simpl in *.
  rw (rp_rows _ _ _ _ HR) take_app.
  set (D := selectDesc isModelRow (journal st)) in *.
  set (n := Z.to_nat REPAIR_SCAN_ROW_CAP) in *. change (Z.to_nat 400) with n.
  destruct (scanOpen_results calls idOf ∅ (take n news) (take (n - length news) D))
    as (answered' & -> & Hans).
  { apply Forall_take, (rp_results _ _ _ _ HR). }
  destruct (decide (n ≤ length news)%nat) as [Hge|Hlt].
  { assert ((n - length news)%nat = 0%nat) as -> by lia. done. }
  assert (take (n - length news) D = take (n - length news) (take n D)) as ->
    by (rw take_take; f_equal; lia).
  eapply scanOpen_closed; [exact Hcalls|exact Hopen|by intros x ?%elem_of_empty|].
  intros e He. apply Hans. left. rw take_ge; [lia|]. unfold resultIds.
  apply elem_of_list_to_set, list_elem_of_omap.
  destruct (rp_answers _ _ _ _ HR e) as [(row & e0 & Hrow & He0 & Hk & Ht)|Hb].
  - by rw Hperm.
  - rw Hperm in He0. exists row. split; [done|]. rw Ht (Hkeys e0 e He0 He Hk).
    specialize (Hid e He). by destruct e.2.
  - by rw (Hfresh e He) in Hb.
Qed.

Lemma repairTail_run now st m opened :
  Inv st → meta_table st = Some m → isDeleted st = false →
  openTail st = Some opened → Repairable st opened →
  ∃ results news, snd (repairTail now st) = inr results ∧
    Repaired st (reverse opened) (fst (repairTail now st)) news.
Proof.
  intros HI Hm Hd Hopen HRa. unfold repairTail. unfold_monad. rw Hopen.
  destruct opened as [|e opened]; simpl.
  - exists [], []. split; [done|]. by eapply Repaired_nil.
  - apply (forEach_Repaired now _ st m HI Hm Hd). intros e' He'. rw elem_of_reverse in He'.
    by apply (ra_open _ _ HRa).
Qed.

(** Repair on load closes the tail.  It succeeds, answers every tool call that an
    interrupted turn left open (so neither a second repair nor a resume finds one),
    leaves every row that was there unchanged, keeps the journal gapless, and a second
    run writes nothing. *)
Theorem repair_closes_the_tail now now' st m opened :
  Inv st → meta_table st = Some m → isDeleted st = false →
  openTail st = Some opened → Repairable st opened →
  let '(st', result) := repairTail now st in
  (∃ results, result = inr results) ∧
  openTail st' = Some [] ∧ openTailCalls st' = inr [] ∧
  repairTail now' st' = (st', inr []) ∧ Inv st' ∧
  (∀ e, e ∈ opened → ∃ k row, journal st' !! k = Some row ∧ role row = Some toolResult ∧
     tool_call_id row = Some e.2) ∧
  ∀ k row, journal st !! k = Some row → journal st' !! k = Some row.
Proof.
  intros HI Hm Hd Hopen HRa.
  destruct (repairTail_run now st m opened HI Hm Hd Hopen HRa) as (results & news & Hr & HR).
  destruct (repairTail now st) as [st' result]. simpl in *. subst result.
  assert (Hperm : reverse opened ≡ₚ opened) by apply reverse_Permutation.
  assert (Hnone : openTail st' = Some []) by (by eapply (repaired_scan toolCallIds id)).
  split; [eauto|]. split; [done|]. split; [|split; [|split; [by eapply rp_inv|split]]].
  - unfold openTailCalls.
    rw (repaired_scan (λ v, reverse (toolCallsOf v)) tc_id _ _ _ _ _ _ Hopen Hperm HRa HR); [|done].
    intros v c Hc. apply toolCallsOf_ids. by rw elem_of_reverse in Hc.
  - unfold repairTail. unfold_monad. by rw Hnone.
  - intros e He. destruct (rp_answers _ _ _ _ HR e) as [(row & e0 & Hrow & He0 & Hk & Ht)|Hb].
    + by rw elem_of_reverse.
    + rw elem_of_reverse in He0.
      assert (Hin : row ∈ selectDesc isModelRow (journal st'))
        by (rw (rp_rows _ _ _ _ HR); apply elem_of_app; by left).
      unfold selectDesc in Hin. rw elem_of_reverse in Hin.
      apply elem_of_selectAsc in Hin as (_ & k & Hk'). exists k, row. split; [done|].
      split; [exact (proj1 (Forall_forall _ _) (rp_results _ _ _ _ HR) row Hrow)|].
      by rw Ht (ra_keys _ _ HRa e0 e He0 He Hk).
    + by rw (ra_fresh _ _ HRa e He) in Hb.
  - by eapply rp_kept.
Qed.

(** ** The context window *)

Definition sumTokens (rows : list JournalRow) : Z := foldr (λ row n, tokens row + n) 0 rows.

Lemma sumTokens_app l l' : sumTokens (l ++ l') = sumTokens l + sumTokens l'.
Proof. induction l as [|x l IH]; simpl; [done|]. rw IH. lia. Qed.

Lemma sumTokens_nonneg l : Forall (λ row, 0 ≤ tokens row) l → 0 ≤ sumTokens l.
Proof. induction 1; simpl; lia. Qed.

Lemma sumTokens_reverse l : sumTokens (reverse l) = sumTokens l.
Proof. induction l as [|x l IH]; [done|]. rw reverse_cons sumTokens_app IH. simpl. lia. Qed.

(** Every row counted keeps the running total within the budget, and the first row
    not counted breaks it. *)
Lemma fitting_spec budget used l :
  let n := fitting budget used l in
  (n ≤ length l)%nat ∧
  (∀ j, (0 < j ≤ n)%nat → used + sumTokens (take j l) ≤ budget) ∧
  ((n < length l)%nat → budget < used + sumTokens (take (S n) l)).
Proof.
  revert used; induction l as [|row l IH]; intros used; simpl.
  { split; [done|]. split; [lia|lia]. }
  destruct (budget <? used + tokens row) eqn:E; bool_to_prop.
  - split; [lia|]. split; [lia|]. simpl. lia.
  - destruct (IH (used + tokens row)) as (Hn & Hle & Hgt). split; [lia|]. split.
    + intros [|[|j]] Hj; [lia|simpl; lia|].
      specialize (Hle (S j)). simpl in *. lia.
    + intros Hlt. simpl in *. lia.
Qed.

Lemma skipToUser_spec rows :
  ∃ skipped, rows = skipped ++ skipToUser rows ∧ Forall (λ row, role row ≠ Some user) skipped ∧
    match skipToUser rows with [] => True | row :: _ => role row = Some user end.
Proof.
  induction rows as [|row rows (skipped & Heq & Hs & Hu)]; simpl; [by exists []|].
  destruct (bool_decide _) eqn:E; bool_to_prop; [by exists []|].
  exists (row :: skipped). simpl. by rw -Heq; auto.
Qed.

(** The rows of a sorted read from one of them on. *)
Lemma filter_from (A B : list JournalRow) r :
  StronglySorted (λ x y, seq x < seq y) (A ++ r :: B) →
  filter (λ row, (seq r <=? seq row) = true) (A ++ r :: B) = r :: B.
Proof.
  intros Hs. rw filter_app filter_none.
  - intros x Hx Hle%Z.leb_le.
    pose proof (StronglySorted_app_1_elem_of _ _ _ x r Hs Hx (list_elem_of_here _ _)). simpl in *. lia.
  - simpl. apply StronglySorted_app_1_r in Hs. rw filter_cons_True; [by apply Z.leb_le|].
    f_equal. apply StronglySorted_inv in Hs as [_ Hr].
    induction Hr as [|y B Hy Hr IH]; [done|]. rw filter_cons_True; [apply Z.leb_le; lia|]. by f_equal.
Qed.

Section window.
Context (excludeTurnId : string) (afterSeq : Z) (st : db) (m : MetaRow).
Context (HI : Inv st) (Hm : meta_table st = Some m).

#[local] Notation eligible := (selectAsc (inContext excludeTurnId afterSeq) (journal st)).

Lemma contextScan_suffix : ∃ older, eligible = older ++ contextScan excludeTurnId afterSeq st.
Proof.
  unfold contextScan, limit, selectDesc. simpl.
  set (n := Z.to_nat CONTEXT_SCAN_ROW_CAP). change (Z.to_nat 4000) with n.
  exists (reverse (drop n (reverse eligible))).
  by rw -reverse_app take_drop reverse_involutive.
Qed.

Lemma eligible_sorted : StronglySorted (λ x y, seq x < seq y) eligible.
Proof. apply (selectAsc_sorted seq). by destruct HI as (_ & HR & _). Qed.

Lemma contextScan_bounds r :
  r ∈ contextScan excludeTurnId afterSeq st → seq r < next_seq m ∧ afterSeq < seq r.
Proof.
  intros Hr. destruct contextScan_suffix as [older Hel].
  assert (Hin : r ∈ eligible) by (rw Hel; apply elem_of_app; by right).
  apply elem_of_selectAsc in Hin as (Hp & k & Hk).
  apply andb_true_iff in Hp as [_ Hp%Z.ltb_lt].
  destruct HI as (HD & HR & _). rw Hm in HD. destruct HD as [_ HD].
  assert (Hk' : is_Some (journal st !! k)) by eauto. apply HD in Hk'. rw (HR _ _ Hk) in Hp |- *. lia.
Qed.

(** The window from an eligible row is that row and the eligible rows after it. *)
Lemma windowRows_from older r rest :
  eligible = older ++ r :: rest → windowRows excludeTurnId (seq r) st = r :: rest.
Proof.
  intros Heq. pose proof eligible_sorted as Hs. rw Heq in Hs.
  rw -(filter_from _ _ _ Hs) -Heq. unfold windowRows, selectAsc.
  rw list_filter_filter. apply list_filter_iff. intros row.
  assert (Hr : r ∈ eligible) by (rw Heq; apply elem_of_app; right; left).
  apply elem_of_selectAsc in Hr as (Hr & _). unfold inContext in *. unfold fromSeq.
  rw !andb_true_iff in Hr |- *. rw !Z.ltb_lt !Z.leb_le in Hr |- *. lia || intuition lia.
Qed.

(** The scan splits at the start the budget gives. *)
Lemma contextScan_split budget :
  (∀ k row, journal st !! k = Some row → 0 ≤ tokens row) →
  let scan := contextScan excludeTurnId afterSeq st in
  ∃ before tail, scan = before ++ tail ∧ tail = drop (length scan - fitting budget 0 (reverse scan)) scan ∧
    (∀ skipped rest, tail = skipped ++ rest → rest ≠ [] → sumTokens rest ≤ budget) ∧
    (∀ u, u ∈ before → ∃ older newer, scan = older ++ u :: newer ∧ budget < sumTokens (u :: newer)).
Proof.
  intros Htok scan. destruct (fitting_spec budget 0 (reverse scan)) as (Hn & Hle & Hgt).
  set (n := fitting budget 0 (reverse scan)) in *. rw length_reverse in Hn Hgt.
  exists (take (length scan - n) scan), (drop (length scan - n) scan).
  split; [by rw take_drop|]. split; [done|].
  assert (Hsuffix : ∀ pre rest, scan = pre ++ rest → take (length rest) (reverse scan) = reverse rest).
  { intros pre rest ->. rw reverse_app take_app_length' //. by rw length_reverse. }
  split.
  - intros skipped rest Heq Hne.
    assert (Hlen : (length rest ≤ n)%nat).
    { apply (f_equal length) in Heq. rw length_drop length_app in Heq. lia. }
    assert (Hs : scan = (take (length scan - n) scan ++ skipped) ++ rest)
      by (rw -app_assoc -Heq; by rw take_drop).
    assert (Hpos : (0 < length rest)%nat) by (destruct rest; [done|simpl; lia]).
    specialize (Hle (length rest) (conj Hpos Hlen)).
    rw (Hsuffix _ _ Hs) sumTokens_reverse in Hle. lia.
  - intros u (older & newer & Hu)%list_elem_of_split.
    exists older, (newer ++ drop (length scan - n) scan).
    assert (Hs : scan = older ++ u :: newer ++ drop (length scan - n) scan).
    { rw -{1}(take_drop (length scan - n) scan) Hu. by rw -app_assoc. }
    split; [done|].
    assert (Hlen : (S (length older + length newer) = length scan - n)%nat).
    { apply (f_equal length) in Hu. rw length_take length_app in Hu. simpl in Hu. lia. }
    specialize (Hgt ltac:(lia)).
    set (rest := u :: newer ++ drop (length scan - n) scan) in *.
    assert (Hrl : (S n ≤ length rest)%nat)
      by (unfold rest; simpl; rw length_app length_drop; lia).
    assert (Hrest : Forall (λ row, 0 ≤ tokens row) (reverse rest)).
    { apply Forall_forall. intros row Hrow. rw elem_of_reverse in Hrow.
      destruct contextScan_suffix as [older' Hel]. fold scan in Hel.
      assert (Hin : row ∈ eligible).
      { rw Hel. apply elem_of_app. right. rw Hs. apply elem_of_app. by right. }
      apply elem_of_selectAsc in Hin as (_ & k & Hk). eauto. }
    assert (take (S n) (reverse scan) = take (S n) (reverse rest)) as Htake.
    { rw Hs reverse_app take_app_le //. rw length_reverse. lia. }
    rw Htake in Hgt. rw -(sumTokens_reverse rest) -(take_drop (S n) (reverse rest)) sumTokens_app.
    assert (0 ≤ sumTokens (drop (S n) (reverse rest))); [|lia].
    apply sumTokens_nonneg. by apply Forall_drop.
Qed.
End window.

(** The window loop drops nothing: it parses every row or names one that does not. *)
Lemma windowLoop_spec n rows :
  match windowLoop n rows with
  | inl e => ∃ row, row ∈ rows ∧ JSON_parse (payload_json row) = None ∧
               e = JournalContextIntegrityError (seq row)
  | inr (messages, spilled) => Forall2 (λ row v, JSON_parse (payload_json row) = Some v) rows messages
  end.
Proof.
  revert n; induction rows as [|row rows IH]; intros n; simpl; [constructor|].
  destruct (JSON_parse (payload_json row)) as [v|] eqn:Ev;
    [|exists row; split; [left|done]].
  specialize (IH (S n)). destruct (windowLoop (S n) rows) as [e|[messages spilled]].
  - destruct IH as (r & ? & ? & ?). exists r. split; [by right|done].
  - by constructor.
Qed.

(** The context a turn sends is a clean suffix of the transcript within its
    budget.  It is empty or opens on a user message, it holds every eligible row from
    there to the head, and its token estimates add up to at most the budget; no older
    scanned user message could have opened it without breaking the budget.  A row whose
    payload does not parse is never left out: the selection fails and names it. *)
Theorem context_window_fits_the_budget excludeTurnId budget afterSeq st m :
  Inv st → meta_table st = Some m →
  (∀ k row, journal st !! k = Some row → 0 ≤ tokens row) →
  let s := contextStartSeq excludeTurnId budget afterSeq st in
  (s = next_seq m ∨ ∃ r rest, windowRows excludeTurnId s st = r :: rest ∧ seq r = s ∧
     s < next_seq m ∧ afterSeq < s ∧ role r = Some user ∧ sumTokens (r :: rest) ≤ budget) ∧
  (∀ u, u ∈ contextScan excludeTurnId afterSeq st → role u = Some user → seq u < s →
     budget < sumTokens (windowRows excludeTurnId (seq u) st)) ∧
  match selectWindow excludeTurnId budget afterSeq st with
  | inl e => ∃ row, row ∈ windowRows excludeTurnId s st ∧ JSON_parse (payload_json row) = None ∧
               e = JournalContextIntegrityError (seq row)
  | inr w => ws_startSeq w = s ∧
      (s < next_seq m → Forall2 (λ row v, JSON_parse (payload_json row) = Some v)
         (windowRows excludeTurnId s st) (ws_messages w))
  end.
Proof.
  intros HI Hm Htok s.
  destruct (contextScan_split excludeTurnId afterSeq st budget Htok)
    as (before & tail & Hscan & Htail & Hfit & Hover).
  destruct (contextScan_suffix excludeTurnId afterSeq st) as [older Hel].
  destruct (skipToUser_spec tail) as (skipped & Hsk & Hnouser & Huser).
  assert (Hs : s = match skipToUser tail with row :: _ => seq row | [] => next_seq m end)
    by (unfold s, contextStartSeq; rw -Htail (meta_Some _ _ Hm); done).
  assert (Hwin : ∀ pre r rest, contextScan excludeTurnId afterSeq st = pre ++ r :: rest →
    windowRows excludeTurnId (seq r) st = r :: rest).
  { intros pre r rest Heq. apply (windowRows_from excludeTurnId afterSeq _ HI (older ++ pre)).
    by rw Hel Heq app_assoc. }
  pose proof (contextScan_bounds excludeTurnId afterSeq st m HI Hm) as Hlt.
  split; [|split].
  - destruct (skipToUser tail) as [|r rest]; [by left|right]. exists r, rest.
    assert (Heq : contextScan excludeTurnId afterSeq st = (before ++ skipped) ++ r :: rest)
      by (rw Hscan Hsk app_assoc; done).
    rw Hs (Hwin _ _ _ Heq). destruct (Hlt r) as [? ?]; [rw Heq; apply elem_of_app; right; left|].
    split; [done|]. split; [done|]. split; [done|]. split; [done|]. split; [done|].
    by apply (Hfit skipped).
  - intros u Hu Hru Hsu. rw Hscan in Hu. apply elem_of_app in Hu as [Hu|Hu].
    + destruct (Hover u Hu) as (old & new & Heq & Hb). by rw (Hwin _ _ _ Heq).
    + exfalso. rw Hsk in Hu. apply elem_of_app in Hu as [Hu|Hu].
      * by apply (proj1 (Forall_forall _ _) Hnouser u).
      * pose proof (eligible_sorted excludeTurnId afterSeq st HI) as Hsort.
        rw Hel Hscan Hsk in Hsort. apply StronglySorted_app_1_r, StronglySorted_app_1_r,
          StronglySorted_app_1_r in Hsort.
        destruct (skipToUser tail) as [|r rest]; [by apply not_elem_of_nil in Hu|].
        apply elem_of_cons in Hu as [->|Hu]; [lia|].
        apply StronglySorted_inv in Hsort as [_ Hr].
        pose proof (proj1 (Forall_forall _ _) Hr u Hu). simpl in *. lia.
  - unfold selectWindow. fold s. rw (meta_Some _ _ Hm).
    destruct (next_seq m <=? s) eqn:E; bool_to_prop.
    + simpl. split; [|lia]. destruct (skipToUser tail) as [|r rest]; [done|].
      destruct (Hlt r); [|lia]. rw Hscan Hsk. apply elem_of_app. right. apply elem_of_app. right. left.
    + unfold windowFromRows. pose proof (windowLoop_spec 0 (windowRows excludeTurnId s st)) as Hl.
      by destruct (windowLoop 0 _) as [e|[messages spilled]].
Qed.

(** ** The acceptance fault is undone *)

Lemma withPayload_payload t row : payload_json (withPayload t row) = t.
Proof. by destruct row. Qed.

Lemma withPayload_same row t : withPayload (payload_json row) (withPayload t row) = row.
Proof. by destruct row. Qed.

Lemma replacePayload_lookup s old t st row :
  journal st !! s = Some row → payload_json row = old →
  journal (replacePayload s old t st) = <[s := withPayload t row]> (journal st).
Proof.
  intros Hr Hp. unfold replacePayload, updateRow.
  assert (∀ j, journal (withJournal j st) = j) as -> by (by destruct st).
  apply map_eq. intros k. destruct (decide (k = s)) as [->|Hne].
  - rw lookup_alter_eq lookup_insert_eq Hr. simpl. by rw bool_decide_eq_true_2.
  - by rw lookup_alter_ne // lookup_insert_ne.
Qed.

Lemma withJournal_journal st : withJournal (journal st) st = st.
Proof. by destruct st. Qed.

(** Arming, when it succeeds, on the row it names. *)
Lemma arm_spec args st st1 safe :
  armAcceptanceContextFault args st = (st1, inr safe) →
  acceptance_context_fault st = None ∧
  ∃ row armed, journal st !! arm_seq args = Some row ∧
    safe = safeFault armed ∧ f_run_id_sha256 armed = arm_runIdSha256 args ∧
    f_seq armed = arm_seq args ∧ f_original_payload_json armed = payload_json row ∧
    f_observed_failures armed = 0 ∧ f_repair_after_failures armed = 2 ∧
    st1 = withFault (Some armed) (withJournal
      (<[arm_seq args := withPayload ACCEPTANCE_CONTEXT_CORRUPT_PAYLOAD row]> (journal st)) st).
Proof.
  unfold armAcceptanceContextFault. destruct (_ || _ || _ || _); [done|]. unfold_monad.
  destruct (acceptance_context_fault st) eqn:Hf; [done|].
  destruct (journal st !! arm_seq args) as [row|] eqn:Hrow; [|done].
  destruct (_ || _ || _ || _); [done|].
  destruct (JSON_parse (payload_json row)); [|done].
  destruct (bool_decide _); [|done]. intros [= <- <-]. split; [done|].
  eexists row, _. split; [done|]. split; [reflexivity|]. do 5 (split; [done|]).
  set (st' := withFault _ st).
  assert (Hj : journal st' = journal st) by (unfold st'; by destruct st).
  assert (Hr : journal (replacePayload (arm_seq args) (payload_json row)
                 ACCEPTANCE_CONTEXT_CORRUPT_PAYLOAD st') =
               <[arm_seq args := withPayload ACCEPTANCE_CONTEXT_CORRUPT_PAYLOAD row]> (journal st))
    by (rw (replacePayload_lookup _ _ _ _ row); [by rw Hj|done|by rw Hj]).
  rw -Hr. unfold replacePayload, updateRow, st'. by destruct st.
Qed.

(** The acceptance fault never costs a byte of history.  Arming it corrupts exactly
    one user row; an observation under another run is refused and changes nothing; the
    first observed failure only counts; the second restores the original row, so the
    whole store is the one the fault was armed on. *)
Theorem acceptance_fault_is_undone args other st st1 safe :
  armAcceptanceContextFault args st = (st1, inr safe) → other ≠ arm_runIdSha256 args →
  payloadAt (arm_seq args) st1 = Some ACCEPTANCE_CONTEXT_CORRUPT_PAYLOAD ∧
  (∀ k, k ≠ arm_seq args → journal st1 !! k = journal st !! k) ∧
  (∃ e, observeAcceptanceContextFault other st1 = (st1, inl e)) ∧
  let '(st2, first) := observeAcceptanceContextFault (arm_runIdSha256 args) st1 in
  (∃ o, first = inr (Some o) ∧ ob_observedFailures o = 1 ∧ ob_repaired o = false) ∧
  journal st2 = journal st1 ∧
  let '(st3, second) := observeAcceptanceContextFault (arm_runIdSha256 args) st2 in
  (∃ o, second = inr (Some o) ∧ ob_observedFailures o = 2 ∧ ob_repaired o = true) ∧ st3 = st.
Proof.
  intros (Hf & row & armed & Hrow & _ & Hrun & Hseq & Horig & H0 & H2 & ->)%arm_spec Hother.
  destruct armed as [run s orig osha csha obs rep created]; simpl in *; subst run s orig obs rep.
  set (corrupt := withPayload ACCEPTANCE_CONTEXT_CORRUPT_PAYLOAD row).
  set (j1 := <[arm_seq args := corrupt]> (journal st)).
  assert (Hj : ∀ f, journal (withFault f (withJournal j1 st)) = j1) by (by destruct st).
  assert (Hff : ∀ f, acceptance_context_fault (withFault f (withJournal j1 st)) = f) by (by destruct st).
  assert (Hww : ∀ f g, withFault g (withFault f (withJournal j1 st)) = withFault g (withJournal j1 st))
    by (by destruct st).
  assert (Hpay : ∀ f, payloadAt (arm_seq args) (withFault f (withJournal j1 st)) =
                      Some ACCEPTANCE_CONTEXT_CORRUPT_PAYLOAD).
  { intros f. unfold payloadAt. rw Hj lookup_insert_eq. simpl. by rw withPayload_payload. }
  split; [apply Hpay|]. split; [intros k Hk; by rw Hj lookup_insert_ne|]. split.
  - eexists. unfold observeAcceptanceContextFault. unfold_monad. rw Hff. simpl.
    assert (String.eqb (arm_runIdSha256 args) other = false) as -> by (by apply String.eqb_neq).
    done.
  - unfold observeAcceptanceContextFault. unfold_monad. rw Hff. simpl. rw String.eqb_refl. simpl.
    rw Hww. split; [by eexists|]. split; [by rw !Hj|]. rw Hff. simpl. rw String.eqb_refl. simpl.
    rw Hpay bool_decide_eq_true_2 //. split; [by eexists|].
    assert (Hback : ∀ f, withFault None (replacePayload (arm_seq args)
      ACCEPTANCE_CONTEXT_CORRUPT_PAYLOAD (payload_json row) (withFault f (withJournal j1 st))) = st);
      [|apply Hback].
    intros f.
    assert (Hr : journal (replacePayload (arm_seq args) ACCEPTANCE_CONTEXT_CORRUPT_PAYLOAD
                   (payload_json row) (withFault f (withJournal j1 st))) = journal st).
    { rw (replacePayload_lookup _ _ _ _ corrupt);
        [by rw Hj lookup_insert_eq|by rw withPayload_payload|]. rw Hj withPayload_same
        insert_insert_eq. by apply insert_id. }
    unfold replacePayload, updateRow in *. destruct st; simpl in *. by rw Hr Hf.
Qed.

(** ** Witnesses *)

Definition ex_result (key id : string) : append :=
  AppendMessage {| am_turnId := "turn-1"; am_writer := "orchestrator"; am_writerKey := key;
    am_role := toolResult;
    am_message := [("role", JStr "toolResult"); ("toolCallId", JStr id); ("content", JArr [])];
    am_hidden := None; am_modelSkip := None; am_streamId := None; am_clientMsgId := None;
    am_createdAt := None; am_payloadJson := None; am_spillKey := None |}.

(** A prompt, an assistant message with three calls, the result of the first one, and
    then the turn was cut off. *)
Definition ex_cut : db :=
  foldl (λ st o, fst (runAppend o 1000 st)) ex_db
    [ex_hello; ex_message "k2" assistant [ex_call "c1"; ex_call "c2"; ex_call "c3"];
     ex_result "k3" "c1"].

Definition ex_cut_meta : MetaRow := withNextSeq 3 (freshMeta 1).
Definition ex_cut_open : list (string * string) := [("turn-1", "c2"); ("turn-1", "c3")].

Lemma ex_cut_Inv : Inv ex_cut.
Proof. apply runAppends_Inv, ex_db_Inv. Qed.

Lemma ex_cut_Repairable : Repairable ex_cut ex_cut_open.
Proof.
  split; unfold ex_cut_open.
  - by intros e [->|[->|[]%not_elem_of_nil]%elem_of_cons]%elem_of_cons.
  - by intros e [->|[->|[]%not_elem_of_nil]%elem_of_cons]%elem_of_cons; vm_compute.
  - intros e [->|[->|[]%not_elem_of_nil]%elem_of_cons]%elem_of_cons;
      split; apply (bool_decide_unpack _); by vm_compute.
  - by intros e e' [->|[->|[]%not_elem_of_nil]%elem_of_cons]%elem_of_cons
      [->|[->|[]%not_elem_of_nil]%elem_of_cons]%elem_of_cons.
Qed.

Lemma repair_closes_the_tail_witness :
  openTail ex_cut = Some ex_cut_open ∧
  let '(st', result) := repairTail 2000 ex_cut in
  (∃ results, result = inr results) ∧
  openTail st' = Some [] ∧ openTailCalls st' = inr [] ∧
  repairTail 3000 st' = (st', inr []) ∧ Inv st' ∧
  (∀ e, e ∈ ex_cut_open → ∃ k row, journal st' !! k = Some row ∧ role row = Some toolResult ∧
     tool_call_id row = Some e.2) ∧
  ∀ k row, journal ex_cut !! k = Some row → journal st' !! k = Some row.
Proof.
  assert (Hopen : openTail ex_cut = Some ex_cut_open) by (by vm_compute).
  assert (Hm : meta_table ex_cut = Some ex_cut_meta) by (by vm_compute).
  assert (Hd : isDeleted ex_cut = false) by (by vm_compute).
  split; [exact Hopen|].
  exact (repair_closes_the_tail 2000 3000 ex_cut ex_cut_meta ex_cut_open ex_cut_Inv Hm Hd Hopen
           ex_cut_Repairable).
Defined.

(** The synthetic results of one assistant message land in the reverse of its calls:
    [c3], the last call, is answered at 3 and [c2] at 4, while a resume lists [c2]
    first. *)
Definition ex_answers (st : db) : list (option string) :=
  tool_call_id <$> selectAsc (λ row, bool_decide (role row = Some toolResult)) (journal st).

Example repair_answers_one_message_in_reverse :
  ex_answers (fst (repairTail 2000 ex_cut)) = [Some "c1"; Some "c3"; Some "c2"] ∧
  match openTailCalls ex_cut with
  | inr calls => (λ call, tc_id call.2) <$> calls = ["c2"; "c3"]
  | inl _ => False
  end.
Proof. split; by vm_compute. Qed.

(** Two exchanges; the budget fits the second one only. *)
Definition ex_talk : db :=
  foldl (λ st o, fst (runAppend o 1000 st)) ex_db
    [ex_message "k1" user [ex_text "first question"]; ex_message "k2" assistant [ex_text "first answer"];
     ex_message "k3" user [ex_text "second question"]; ex_message "k4" assistant [ex_text "second answer"]].

Lemma ex_talk_Inv : Inv ex_talk.
Proof. apply runAppends_Inv, ex_db_Inv. Qed.

Lemma context_window_fits_the_budget_witness :
  let s := contextStartSeq "turn-2" 60 (-1) ex_talk in
  s = 2 ∧
  (s = 4 ∨ ∃ r rest, windowRows "turn-2" s ex_talk = r :: rest ∧ seq r = s ∧
     s < 4 ∧ -1 < s ∧ role r = Some user ∧ sumTokens (r :: rest) ≤ 60) ∧
  (∀ u, u ∈ contextScan "turn-2" (-1) ex_talk → role u = Some user → seq u < s →
     60 < sumTokens (windowRows "turn-2" (seq u) ex_talk)).
Proof.
  assert (Hm : meta_table ex_talk = Some (withNextSeq 4 (freshMeta 1))) by (by vm_compute).
  assert (Htok : map_Forall (λ _ row, 0 ≤ tokens row) (journal ex_talk))
    by (apply (bool_decide_unpack _); by vm_compute).
  pose proof (context_window_fits_the_budget "turn-2" 60 (-1) ex_talk _ ex_talk_Inv Hm Htok)
    as (H1 & H2 & _).
  intros s. split; [by vm_compute|]. split; [exact H1|exact H2].
Defined.

Definition ex_sha : string := "0123456789abcdef0123456789abcdef0123456789abcdef0123456789abcdef".
Definition ex_arm : ArmArgs :=
  {| arm_runIdSha256 := ex_sha; arm_seq := 2;
     arm_expectedPayloadJson := default (RawText "") (payloadAt 2 ex_talk);
     arm_originalPayloadSha256 := ex_sha; arm_corruptPayloadSha256 := ex_sha; arm_createdAt := 7 |}.

Lemma acceptance_fault_is_undone_witness :
  ∃ st1 safe, armAcceptanceContextFault ex_arm ex_talk = (st1, inr safe) ∧
    payloadAt 2 st1 = Some ACCEPTANCE_CONTEXT_CORRUPT_PAYLOAD ∧
    selectWindow "turn-2" 60 (-1) st1 = inl (JournalContextIntegrityError 2).
Proof.
  eexists _, _. split; [by vm_compute|].
  split; [|by vm_compute].
  refine (proj1 (acceptance_fault_is_undone ex_arm "another run" ex_talk _ _ _ _)); [by vm_compute|done].
Defined.
