(* ===== verification/JournalManifest.v ===== *)
(** * The conversation journal: turns, inbox, segment manifest and budgets

    The bookkeeping tables of [workers/cloud-builder/src/journal.ts]: the turn
    projection whose terminal rows are the legal cut points, the inbox that stages
    foreign writes, the manifest of archived segments and spilled objects, the fixed
    append window, and the purge queue. *)

From Corelib Require Import ssreflect.
From stdpp Require Import prelude gmap strings sorting.
From S2P Require Import Prelude JsString Json SqlTable Journal.

#[local] Open Scope Z_scope.

(** ** Turn projection *)

Record UpsertTurnInput := {
  u_turnId : string; u_sessionId : string; u_ownerId : string; u_lane : option string;
  u_source : option string; u_clientMsgId : option string; u_state : TurnState; u_now : Z
}.

Definition withTurnState (s : TurnState) (now : Z) (t : TurnRow) : TurnRow :=
  let 'Build_TurnRow a b c d e f _ h i j k l m _ := t in Build_TurnRow a b c d e f s h i j k l m now.
Definition withTurnContext (s e : Z) (t : TurnRow) : TurnRow :=
  let 'Build_TurnRow a b c d e' f g h _ _ k l m n := t in
  Build_TurnRow a b c d e' f g h (Some s) (Some e) k l m n.
Definition withTurnSpan (s : Z) (t : TurnRow) : TurnRow :=
  let 'Build_TurnRow a b c d e f g h i j k _ m n := t in
  Build_TurnRow a b c d e f g h i j (Some (default s k)) (Some s) m n.
Definition withTurnTerminal (p : TurnPhase) (now : Z) (t : TurnRow) : TurnRow :=
  let 'Build_TurnRow a b c d e f _ _ i j k l m _ := t in
  Build_TurnRow a b c d e f terminal (Some p) i j k l m now.

Definition isTurn (turnId : string) (t : TurnRow) : bool := String.eqb (t_turn_id t) turnId.

(** [UPDATE turns SET ... WHERE turn_id = ?]. *)
Definition updateTurn (turnId : string) (f : TurnRow → TurnRow) (st : db) : db :=
  withTurns ((λ t, if isTurn turnId t then f t else t) <$> turns st) st.

Definition upsertTurn (input : UpsertTurnInput) : J () :=
  let* retired := gets (λ st, bool_decide (u_turnId input ∈ retired_turns st)) in
  if retired then throw StaleJournalWriterError
  else
    modify (λ st,
      if existsb (isTurn (u_turnId input)) (turns st)
      then updateTurn (u_turnId input) (withTurnState (u_state input) (u_now input)) st
      else withTurns (turns st ++
        [{| t_turn_id := u_turnId input; t_session_id := u_sessionId input;
            t_owner_id := u_ownerId input; t_lane := u_lane input; t_source := u_source input;
            t_client_msg_id := u_clientMsgId input; t_state := u_state input;
            t_terminal_kind := None; t_ctx_start_seq := None; t_ctx_end_seq := None;
            t_first_seq := None; t_last_seq := None; t_created_at := u_now input;
            t_updated_at := u_now input |}]) st).

Definition setTurnContext (turnId : string) (s e : Z) (st : db) : db :=
  updateTurn turnId (withTurnContext s e) st.
Definition setTurnSpan (turnId : string) (s : Z) (st : db) : db :=
  updateTurn turnId (withTurnSpan s) st.
Definition setTurnTerminal (turnId : string) (p : TurnPhase) (now : Z) (st : db) : db :=
  updateTurn turnId (withTurnTerminal p now) st.

Definition turnState (st : db) (turnId : string) : option (TurnState * option TurnPhase) :=
  (λ t, (t_state t, t_terminal_kind t)) <$> List.find (isTurn turnId) (turns st).

Definition isTerminal (t : TurnRow) : bool := bool_decide (t_state t = terminal).

(** [ORDER BY created_at DESC LIMIT 1]: the index on [(state, created_at)] yields the
    larger rowid first among equals. *)
Definition latestTerminalTurn (st : db) : option TurnRow :=
  foldl (λ best t,
    if isTerminal t then
      match best with
      | Some b => if t_created_at b <=? t_created_at t then Some t else Some b
      | None => Some t
      end
    else best) None (turns st).

(** The last rows of terminal turns, oldest first. *)
Definition terminalTurnBoundaries (n : Z) (st : db) : list Z :=
  limit n (merge_sort Z.le (omap (λ t, if isTerminal t then t_last_seq t else None) (turns st))).

(** Whether the row after [s] is a plain user message. *)
Definition isCutBoundary (s : Z) (st : db) : bool :=
  match selectAsc (λ row, s <? seq row) (journal st) with
  | next :: _ => bool_decide (kind next = message) && bool_decide (role next = Some user)
  | [] => false
  end.

Definition deleteTurnsBelow (s : Z) (st : db) : db :=
  withTurns (filter (λ t, ¬ (default s (t_last_seq t) < s)) (turns st)) st.

(** ** Inbox *)

Record StageInput := {
  si_writer : string; si_writerKey : string; si_kind : JournalKind; si_turnId : string;
  si_role : option MessageRole; si_hidden : option bool; si_payloadJson : text; si_now : Z
}.

(** [INSERT OR IGNORE]: a writer key already staged is not staged again. *)
Definition stageInbox (input : StageInput) : J () :=
  let* retired := gets (λ st, bool_decide (si_turnId input ∈ retired_turns st)) in
  if retired then throw StaleJournalWriterError
  else
    modify (λ st,
      if existsb (λ r, String.eqb (i_writer_key r) (si_writerKey input)) (inbox st) then st
      else withInbox (inbox st ++
        [{| i_id := match last (inbox st) with Some r => i_id r + 1 | None => 1 end;
            i_writer := si_writer input; i_writer_key := si_writerKey input;
            i_kind := si_kind input; i_turn_id := si_turnId input; i_role := si_role input;
            i_hidden := default false (si_hidden input); i_created_at := si_now input;
            i_bytes := textBytes (si_payloadJson input);
            i_payload_json := si_payloadJson input |}]) st).

Definition inboxSize (st : db) : Z * Z :=
  (Z.of_nat (length (inbox st)), foldr (λ r n, i_bytes r + n) 0 (inbox st)).

Definition takeInbox (n : Z) (st : db) : list InboxRow := limit n (inbox st).

Definition dropInbox (id : Z) (st : db) : db := withInbox (filter (λ r, i_id r ≠ id) (inbox st)) st.

(** ** Segments *)

Definition hotStats (st : db) : Z * Z := (Z.of_nat (size (journal st)), sum_by bytes (journal st)).

(** The loop of [desiredCutSeq], newest row first. *)
Fixpoint cutLoop (targetRows targetBytes kept keptBytes : Z) (rows : list JournalRow) : option Z :=
  match rows with
  | [] => None
  | row :: rows' =>
      if targetRows <=? kept then Some (seq row)
      else if (0 <? targetBytes) && (targetBytes <? keptBytes + bytes row) && (0 <? kept)
      then Some (seq row)
      else cutLoop targetRows targetBytes (kept + 1) (keptBytes + bytes row) rows'
  end.

Definition desiredCutSeq (targetRows targetBytes : Z) (st : db) : option Z :=
  let rows := limit (Z.max targetRows 1 + 1) (selectDesc always (journal st)) in
  let '(totalRows, totalBytes) := hotStats st in
  if (totalRows <=? targetRows) && (totalBytes <=? targetBytes) then None
  else cutLoop targetRows targetBytes 0 0 rows.

Definition pendingSegment (st : db) : option SegmentRow :=
  hd_error (selectAsc (λ s, bool_decide (s_state s = uploading)) (segments st)).

(** [ON CONFLICT(first_seq)] keeps the state and the creation time. *)
Definition insertSegment (row : SegmentRow) (st : db) : db :=
  withSegments (<[s_first_seq row :=
    match segments st !! s_first_seq row with
    | Some old =>
        {| s_first_seq := s_first_seq row; s_last_seq := s_last_seq row; s_rows := s_rows row;
           s_bytes := s_bytes row; s_r2_key := s_r2_key row; s_state := s_state old;
           s_created_at := s_created_at old |}
    | None => row
    end]> (segments st)) st.

Definition withState (s : SegmentState) (r : SegmentRow) : SegmentRow :=
  let 'Build_SegmentRow a b c d e _ g := r in Build_SegmentRow a b c d e s g.

Definition archivedBy (firstSeq lastSeq : Z) (kr : Z * JournalRow) : bool :=
  (firstSeq <=? kr.1) && (kr.1 <=? lastSeq).

Definition endedBy (lastSeq : Z) (t : TurnRow) : bool :=
  match t_last_seq t with Some s => s <=? lastSeq | None => false end.

(** The commit half of the cut, one transaction whose statements cannot fail. *)
Definition commitSegment (firstSeq lastSeq : Z) (st : db) : db :=
  let st := withSegments (alter (withState committed) firstSeq (segments st)) st in
  let st := withJournal (filter (λ kr, archivedBy firstSeq lastSeq kr = false) (journal st)) st in
  let st := updateMeta (λ m, if hot_min_seq m <? lastSeq + 1 then withHotMin (lastSeq + 1) m else m) st in
  withTurns (filter (λ t, endedBy lastSeq t = false) (turns st)) st.

Definition covers (fromSeq toSeq : Z) (s : SegmentRow) : bool :=
  bool_decide (s_state s = committed) && (fromSeq <=? s_last_seq s) && (s_first_seq s <=? toSeq).

Definition segmentsCovering (fromSeq toSeq n : Z) (st : db) : list SegmentRow :=
  limit n (selectAsc (covers fromSeq toSeq) (segments st)).

Definition allSegmentKeys (st : db) : list string :=
  s_r2_key <$> selectAsc (λ _, true) (segments st).

(** ** Spilled objects *)

(** [bytes] is at least what was recorded before. *)
Definition recordSpill (key : string) (n now : Z) (st : db) : db :=
  if String.eqb key "" then st
  else
    let n := Z.max 0 n in
    withSpills (<[key :=
      match spills st !! key with
      | Some old => {| sp_created_at := sp_created_at old; sp_bytes := Z.max (sp_bytes old) n |}
      | None => {| sp_created_at := now; sp_bytes := n |}
      end]> (spills st)) st.

Definition allSpillKeys (st : db) : list string := (map_to_list (spills st)).*1.

Definition withSpill (s : Z) (t : text) (key : string) (row : JournalRow) : JournalRow :=
  let 'Build_JournalRow a b c d e f g h i j k l m n o p q r s' _ _ := row in
  Build_JournalRow a b c d e f g h i j k l m n o p q r s' t (Some key).

(** [attachSpill]: an inline row is replaced by its stub. *)
Definition attachSpill (s : Z) (key : string) (r : MessageRole) (n now : Z) (st : db) : db :=
  let st := recordSpill key n now st in
  let stub := JSON_stringify (JObj [("$spill", JBool true); ("role", JStr (roleName r)); ("bytes", JInt n)]) in
  withJournal (alter (λ row, match spill_key row with
                             | None => withSpill s stub key row | Some _ => row end) s (journal st)) st.

(** Everything the conversation stores: resident, archived and spilled. *)
Definition storedBytes (st : db) : Z :=
  (hotStats st).2 + sum_where isCommitted s_bytes (segments st) + sum_by sp_bytes (spills st).

(** ** The append window *)

Record BudgetInput := {
  b_now : Z; b_bytes : Z; b_windowMs : Z; b_maxRequests : Z; b_maxBytes : Z; b_commit : bool
}.

Record BudgetResult := { allowed : bool; retryAfterMs : Z }.

Definition appendBudget (input : BudgetInput) (st : db) : db * BudgetResult :=
  let expired := match append_window st with
                 | None => true
                 | Some w => b_windowMs input <=? b_now input - w_started_at w
                 end in
  let current := match append_window st with
                 | Some w => if expired then {| w_started_at := b_now input; w_requests := 0; w_bytes := 0 |} else w
                 | None => {| w_started_at := b_now input; w_requests := 0; w_bytes := 0 |}
                 end in
  let requests := w_requests current + 1 in
  let total := w_bytes current + b_bytes input in
  if (b_maxRequests input <? requests) || (b_maxBytes input <? total) then
    (st, {| allowed := false;
            retryAfterMs := Z.max 1000 (w_started_at current + b_windowMs input - b_now input) |})
  else
    (if b_commit input
     then withAppendWindow (Some {| w_started_at := w_started_at current; w_requests := requests;
                                    w_bytes := total |}) st
     else st,
     {| allowed := true; retryAfterMs := 0 |}).

(** ** The purge queue *)

(** [INSERT OR IGNORE]. *)
Definition enqueueKey (now : Z) (st : db) (key : string) : db :=
  if existsb (λ p, String.eqb (p_r2_key p) key) (purge_queue st) then st
  else withPurgeQueue (purge_queue st ++
         [{| p_r2_key := key; p_queued_at := now; p_attempts := 0 |}]) st.

Definition enqueuePurge (keys : list string) (now : Z) (st : db) : db :=
  foldl (enqueueKey now) st keys.

(** [ORDER BY attempts ASC, queued_at ASC]. *)
Definition purgeLe (p q : PurgeRow) : Prop :=
  p_attempts p < p_attempts q ∨ p_attempts p = p_attempts q ∧ p_queued_at p ≤ p_queued_at q.

#[export] Instance purgeLe_dec p q : Decision (purgeLe p q).
Proof. unfold purgeLe. apply _. Defined.

Definition purgeBatch (n : Z) (st : db) : list string :=
  p_r2_key <$> limit n (merge_sort purgeLe (purge_queue st)).

Definition purgeDoneKey (st : db) (key : string) : db :=
  withSpills (delete key (spills st))
    (withPurgeQueue (filter (λ p, p_r2_key p ≠ key) (purge_queue st)) st).

Definition purgeDone (keys : list string) (st : db) : db := foldl purgeDoneKey st keys.

Definition purgeFailedKey (st : db) (key : string) : db :=
  withPurgeQueue ((λ p, if String.eqb (p_r2_key p) key
    then {| p_r2_key := p_r2_key p; p_queued_at := p_queued_at p; p_attempts := p_attempts p + 1 |}
    else p) <$> purge_queue st) st.

Definition purgeFailed (keys : list string) (st : db) : db := foldl purgeFailedKey st keys.

Definition purgePending (st : db) : Z := Z.of_nat (length (purge_queue st)).
