(* ===== verification/ObjectKeys.v ===== *)
(** * R2 object keys of a conversation

    [archive.ts] names a segment by its owner, its conversation and its sequence range
    and a spilled payload by a digest of its writer key.  A segment's key determines
    its range, and is never the key of a spill. *)

From Corelib Require Import ssreflect.
From stdpp Require Import prelude list strings pretty.
From S2P Require Import Prelude JsString.

#[local] Open Scope Z_scope.

Fixpoint zeros (n : nat) : string :=
  match n with O => EmptyString | S n => String (Ascii.ascii_of_N 48) (zeros n) end.

(** [String(value).padStart(12, "0")]. *)
Definition pad (value : Z) : string :=
  let s := pretty value in zeros (12 - String.length s) +:+ s.

Definition segmentKey (prefix : string) (firstSeq lastSeq : Z) : string :=
  prefix +:+ "/seg/" +:+ pad firstSeq +:+ "-" +:+ pad lastSeq +:+ ".jsonl.gz".

Definition spillObjectKey (prefix digest : string) : string :=
  prefix +:+ "/spill/" +:+ digest +:+ ".json.gz".

(** ** Strings as lists of characters *)

Fixpoint chars (s : string) : list Ascii.ascii :=
  match s with EmptyString => [] | String c s' => c :: chars s' end.

Lemma chars_app s t : chars (s +:+ t) = chars s ++ chars t.
Proof. induction s as [|c s IH]; simpl; [done|]. by rw IH. Qed.

#[export] Instance chars_inj : Inj (=) (=) chars.
Proof.
  intros s; induction s as [|c s IH]; intros [|d t]; simpl; try done. intros [= -> ->%IH]. done.
Qed.

(** ** Decimal numerals *)

Definition digitValue (c : Ascii.ascii) : N := (Ascii.N_of_ascii c - 48)%N.

Definition numeralValue (acc : N) (l : list Ascii.ascii) : N :=
  foldl (λ n c, 10 * n + digitValue c)%N acc l.

Definition isDigit (c : Ascii.ascii) : Prop := (48 ≤ Ascii.N_of_ascii c ≤ 57)%N.

Lemma pretty_N_char_digit x :
  (x < 10)%N → digitValue (pretty_N_char x) = x ∧ isDigit (pretty_N_char x).
Proof.
  intros Hx. unfold isDigit.
  assert (x = 0 ∨ x = 1 ∨ x = 2 ∨ x = 3 ∨ x = 4 ∨ x = 5 ∨ x = 6 ∨ x = 7 ∨ x = 8 ∨ x = 9)%N
    as Hcases by lia.
  repeat destruct Hcases as [->|Hcases]; [..|subst x]; by vm_compute.
Qed.

Lemma pretty_N_go_numeral x s :
  numeralValue 0 (chars (pretty_N_go x s)) = numeralValue x (chars s) ∧
  (Forall isDigit (chars s) → Forall isDigit (chars (pretty_N_go x s))).
Proof.
  revert s. induction (N.lt_wf_0 x) as [x _ IH]; intros s.
  assert (x = 0 ∨ 0 < x)%N as [->|Hx] by lia; [by rw pretty_N_go_0|].
  rw pretty_N_go_step //.
  destruct (IH (x `div` 10)%N) with (s := String (pretty_N_char (x `mod` 10)) s) as [-> Hd];
    [by apply N.div_lt|].
  destruct (pretty_N_char_digit (x `mod` 10)) as [Hv Hc]; [by apply N.mod_lt|].
  split; [|intros Hs; apply Hd; by constructor]. simpl. rw Hv. f_equal.
  pose proof (N.div_mod x 10 ltac:(done)). lia.
Qed.

Lemma pretty_Z_numeral v :
  0 ≤ v → numeralValue 0 (chars (pretty v)) = Z.to_N v ∧ Forall isDigit (chars (pretty v)).
Proof.
  intros Hv. assert (Hp : pretty v = pretty (Z.to_N v)) by (by destruct v).
  rw Hp. unfold pretty, pretty_N. case_decide as H0.
  - rw H0. split; [done|]. constructor; [by vm_compute|constructor].
  - destruct (pretty_N_go_numeral (Z.to_N v) "") as [-> Hd]. split; [done|]. by apply Hd.
Qed.

Lemma zeros_numeral n : numeralValue 0 (chars (zeros n)) = 0%N ∧ Forall isDigit (chars (zeros n)).
Proof.
  induction n as [|n [IHv IHd]]; simpl; [by split; [|constructor]|].
  split; [exact IHv|constructor; [by vm_compute|done]].
Qed.

Lemma pad_numeral v :
  0 ≤ v → numeralValue 0 (chars (pad v)) = Z.to_N v ∧ Forall isDigit (chars (pad v)).
Proof.
  intros Hv. unfold pad. rw chars_app.
  destruct (pretty_Z_numeral v Hv) as [Hp Hd].
  destruct (zeros_numeral (12 - String.length (pretty v))) as [Hz Hzd].
  split; [|by apply Forall_app]. unfold numeralValue in *. by rw foldl_app Hz.
Qed.

Lemma pad_inj v v' : 0 ≤ v → 0 ≤ v' → chars (pad v) = chars (pad v') → v = v'.
Proof.
  intros Hv Hv' Heq. destruct (pad_numeral v Hv) as [H1 _], (pad_numeral v' Hv') as [H2 _].
  rw Heq in H1. rw H1 in H2. lia.
Qed.

(** ** The keys *)

Definition slash : Ascii.ascii := Ascii.ascii_of_N 47.
Definition dash : Ascii.ascii := Ascii.ascii_of_N 45.

Lemma not_in_digits (c : Ascii.ascii) l : ¬ isDigit c → Forall isDigit l → c ∉ l.
Proof. intros Hc Hl Hin. by apply Hc, (proj1 (Forall_forall _ _) Hl). Qed.

(** The last separator splits a list in one way. *)
Lemma last_separator {A} (x : A) l1 l2 k1 k2 :
  x ∉ l2 → x ∉ k2 → l1 ++ [x] ++ l2 = k1 ++ [x] ++ k2 → l1 = k1 ∧ l2 = k2.
Proof. intros H1 H2 Heq. by apply not_elem_of_app_cons_inv_r in Heq as (-> & _ & ->). Qed.

Lemma segment_parts p p' a b a' b' :
  Forall isDigit (chars a) → Forall isDigit (chars b) →
  Forall isDigit (chars a') → Forall isDigit (chars b') →
  p +:+ "/seg/" +:+ a +:+ "-" +:+ b +:+ ".jsonl.gz" =
  p' +:+ "/seg/" +:+ a' +:+ "-" +:+ b' +:+ ".jsonl.gz" → chars a = chars a' ∧ chars b = chars b'.
Proof.
  intros Ha Hb Ha' Hb' Heq. apply (f_equal chars) in Heq. rw !chars_app !app_assoc in Heq.
  apply app_inv_tail in Heq.
  assert (Hd : ¬ isDigit dash) by (unfold isDigit; vm_compute; intuition).
  assert (Hs : ¬ isDigit slash) by (unfold isDigit; vm_compute; intuition).
  assert (Hdash : chars "-" = [dash]) by done. rw Hdash -!(app_assoc _ [dash]) in Heq.
  apply last_separator in Heq as (Heq & Hbb); [|by apply not_in_digits..]. split; [|done].
  assert (Hseg : chars "/seg/" = chars "/seg" ++ [slash]) by done.
  rw Hseg !app_assoc -!(app_assoc _ [slash]) in Heq.
  apply last_separator in Heq as (_ & Haa); [done|by apply not_in_digits..].
Qed.

(** A segment's key determines its range. *)
Lemma segmentKey_inj p p' f l f' l' :
  0 ≤ f → 0 ≤ l → 0 ≤ f' → 0 ≤ l' →
  segmentKey p f l = segmentKey p' f' l' → f = f' ∧ l = l'.
Proof.
  intros Hf Hl Hf' Hl' Heq. unfold segmentKey in Heq.
  apply segment_parts in Heq as [H1%pad_inj H2%pad_inj]; try done; by apply pad_numeral.
Qed.

(** A spill never overwrites a segment. *)
Lemma spillObjectKey_ne p d p' f l : spillObjectKey p d ≠ segmentKey p' f l.
Proof.
  intros Heq. apply (f_equal (reverse ∘ chars)) in Heq. unfold spillObjectKey, segmentKey in Heq.
  simpl in Heq. rw !chars_app !reverse_app in Heq. by simpl in Heq.
Qed.
