(* ===== verification/Archive.v ===== *)
(** * Cold storage: rollover of the journal into R2 segments

    [workers/cloud-builder/src/archive.ts] over the journal's storage.  A rollover is
    an asynchronous method; between two of its awaits any journal operation may run,
    the awaited upload may fail or time out while the object still lands later, and the
    isolate may be lost.  [exec] gives one such event at a time; [stage] is where the
    rollover the next event is about is suspended, [waiting] has the others that run, and [log] (which no code reads) remembers the record
    of every row the journal ever held.

    [sha256Hex] is the digest of [hash.ts]; gzip is left out, an object holds what its
    decompression yields. *)

From Corelib Require Import ssreflect.
From stdpp Require Import prelude gmap strings sorting pretty.
From S2P Require Import Prelude JsString Json SqlTable Journal JournalContext JournalManifest ObjectKeys.

#[local] Open Scope Z_scope.

(** ** Constants *)

Definition HOT_MAX_ROWS : Z := 2000.
Definition HOT_MAX_BYTES : Z := 24 * 1024 * 1024.
Definition HOT_TARGET_ROWS : Z := 1000.
Definition HOT_TARGET_BYTES : Z := 12 * 1024 * 1024.
Definition DB_PRESSURE_AGGRESSIVE_BYTES : Z := 64 * 1024 * 1024.
Definition DB_PRESSURE_EMERGENCY_BYTES : Z := 512 * 1024 * 1024.
Definition DB_PRESSURE_AGGRESSIVE_ROWS : Z := 500.
Definition DB_PRESSURE_EMERGENCY_ROWS : Z := 200.
Definition MAX_SEGMENTS_PER_READ : Z := 4.
Definition BACKFILL_BATCH_BYTES : Z := 512 * 1024.
Definition BACKFILL_BATCH_RECORDS : Z := 200.
Definition SEGMENT_MAX_ROWS : Z := 1000.
Definition SEGMENT_MAX_BYTES : Z := 8 * 1024 * 1024.
Definition ARCHIVE_READ_ROWS : Z := 500.

(** ** Object contents *)

Record SegmentHeader := {
  sh_conversationId : string; sh_ownerId : string; sh_epoch : Z; sh_firstSeq : Z;
  sh_lastSeq : Z; sh_rows : Z; sh_createdAt : Z
}.

(** What an R2 object holds: a header line and one line per row, or a payload. *)
Inductive object :=
  | SegmentObject (header : SegmentHeader) (rows : list JournalRow)
  | SpillObject (payload : text).

(** ** Choosing a cut *)

(** The highest legal segment end: at most what residency asks for, below the context
    of the latest turn, the end of a terminal turn, and followed by a user message. *)
Definition resolveCut (targetRows targetBytes : Z) (st : db) : option Z :=
  match desiredCutSeq targetRows targetBytes st with
  | None => None
  | Some desired =>
      let ceiling := match latestTerminalTurn st ≫= t_ctx_start_seq with
                     | Some ctx => Z.min desired (ctx - 1)
                     | None => desired
                     end in
      if ceiling <? 0 then None
      else
        (fix go (best : option Z) (candidates : list Z) :=
           match candidates with
           | [] => best
           | c :: rest =>
               if ceiling <? c then best
               else go (if isCutBoundary c st then Some c else best) rest
           end) None (terminalTurnBoundaries 500 st)
  end.

(** The first rows of the range that fit a segment: their count, bytes and last seq. *)
Fixpoint takeBatch (count total lastSeq : Z) (rows : list JournalRow) : Z * Z * Z :=
  match rows with
  | [] => (count, total, lastSeq)
  | row :: rows' =>
      if (0 <? count) && (SEGMENT_MAX_BYTES <? total + bytes row) then (count, total, lastSeq)
      else takeBatch (count + 1) (total + bytes row) (seq row) rows'
  end.

(** [while (lastSeq > firstSeq && !isCutBoundary(lastSeq)) lastSeq -= 1]; the fuel is
    the distance. *)
Fixpoint walkBack (fuel : nat) (firstSeq lastSeq : Z) (st : db) : Z :=
  match fuel with
  | O => lastSeq
  | S fuel =>
      if (firstSeq <? lastSeq) && negb (isCutBoundary lastSeq st)
      then walkBack fuel firstSeq (lastSeq - 1) st else lastSeq
  end.

(** The synchronous part of [cut] before the manifest write: the segment's last seq,
    and the row count and bytes it is recorded with. *)
Definition chooseSegment (firstSeq cutSeq : Z) (st : db) : option (Z * Z * Z) :=
  if cutSeq <? firstSeq then None
  else
    match rowsForArchive firstSeq cutSeq SEGMENT_MAX_ROWS st with
    | [] => None
    | (row :: _) as rows =>
        let '(count, total, batchEnd) := takeBatch 0 0 (seq row) rows in
        let lastSeq := walkBack (Z.to_nat (batchEnd - firstSeq)) firstSeq batchEnd st in
        if (lastSeq <? firstSeq) || negb (isCutBoundary lastSeq st) then None
        else Some (lastSeq, count, total)
    end.

(** The loop of [upload]: the range in batches of [ARCHIVE_READ_ROWS]. *)
Fixpoint uploadLoop (fuel : nat) (cursor lastSeq : Z) (st : db) : list JournalRow :=
  match fuel with
  | O => []
  | S fuel =>
      let batch := rowsForArchive cursor lastSeq ARCHIVE_READ_ROWS st in
      match last batch with
      | None => []
      | Some row =>
          let cursor := seq row + 1 in
          batch ++ (if lastSeq <? cursor then [] else uploadLoop fuel cursor lastSeq st)
      end
  end.

Definition uploadRows (firstSeq lastSeq : Z) (st : db) : list JournalRow :=
  uploadLoop (S (size (journal st))) firstSeq lastSeq st.

(** ** The residency decision *)

(** [None] leaves the hot set alone; otherwise the targets of the cut. *)
Definition rolloverTargets (databaseBytes : Z) (st : db) : option (Z * Z) :=
  let '(hotRows, hotBytes) := hotStats st in
  if DB_PRESSURE_EMERGENCY_BYTES <? databaseBytes then Some (DB_PRESSURE_EMERGENCY_ROWS, 0)
  else if DB_PRESSURE_AGGRESSIVE_BYTES <? databaseBytes then Some (DB_PRESSURE_AGGRESSIVE_ROWS, 0)
  else if (hotRows <=? HOT_MAX_ROWS) && (hotBytes <=? HOT_MAX_BYTES) then None
  else Some (HOT_TARGET_ROWS, HOT_TARGET_BYTES).

(** ** The object and its storage *)

(** Where the running rollover is suspended. *)
Inductive rollover :=
  | Idle
  | FinishingPending (segment : SegmentRow) (body : object) (now : Z)
  | PendingFinished (now : Z)
  | AwaitingPrefix (snapshot : MetaRow) (cutSeq now : Z)
  | UploadingSegment (firstSeq lastSeq : Z) (key : string) (body : object).

Record world := {
  store : db;
  bucket : gmap string object;
  stage : rollover;
  waiting : list rollover;
  spilling : list (string * text);
  stragglers : list (string * object);
  sealed : bool;
  log : gmap Z JournalRecord;
}.

Definition withStore (st : db) (w : world) : world :=
  {| store := st; bucket := bucket w; stage := stage w; waiting := waiting w; spilling := spilling w;
     stragglers := stragglers w; sealed := sealed w; log := (rowToRecord <$> journal st) ∪ log w |}.
Definition withStage (s : rollover) (w : world) : world :=
  {| store := store w; bucket := bucket w; stage := s; waiting := waiting w; spilling := spilling w;
     stragglers := stragglers w; sealed := sealed w; log := log w |}.
Definition withBucket (b : gmap string object) (w : world) : world :=
  {| store := store w; bucket := b; stage := stage w; waiting := waiting w; spilling := spilling w;
     stragglers := stragglers w; sealed := sealed w; log := log w |}.
Definition withWaiting (l : list rollover) (w : world) : world :=
  {| store := store w; bucket := bucket w; stage := stage w; waiting := l; spilling := spilling w;
     stragglers := stragglers w; sealed := sealed w; log := log w |}.
Definition withSpilling (l : list (string * text)) (w : world) : world :=
  {| store := store w; bucket := bucket w; stage := stage w; waiting := waiting w; spilling := l;
     stragglers := stragglers w; sealed := sealed w; log := log w |}.
Definition withStragglers (l : list (string * object)) (w : world) : world :=
  {| store := store w; bucket := bucket w; stage := stage w; waiting := waiting w; spilling := spilling w;
     stragglers := l; sealed := sealed w; log := log w |}.
Definition seal (w : world) : world :=
  {| store := store w; bucket := bucket w; stage := stage w; waiting := waiting w; spilling := spilling w;
     stragglers := stragglers w; sealed := true; log := log w |}.

(** [bucket.put]. *)
Definition put (key : string) (body : object) (w : world) : world :=
  withBucket (<[key := body]> (bucket w)) w.

(** [this.sealed || this.journal.isDeleted()]. *)
Definition fenced (w : world) : bool := sealed w || isDeleted (store w).

Definition header (m : MetaRow) (firstSeq lastSeq count now : Z) : SegmentHeader :=
  {| sh_conversationId := conversation_id m; sh_ownerId := owner_id m; sh_epoch := epoch m;
     sh_firstSeq := firstSeq; sh_lastSeq := lastSeq; sh_rows := count; sh_createdAt := now |}.

(** The rollovers that run beside the one in [stage]. *)
Definition inProgress (s : rollover) : list rollover := match s with Idle => [] | _ => [s] end.

(** Another call of [maybeRollover] begins: nothing waits for the one that runs. *)
Definition park (w : world) : world := withStage Idle (withWaiting (inProgress (stage w) ++ waiting w) w).

(** The next event goes to another rollover that runs. *)
Definition focus (i : nat) (w : world) : world :=
  match waiting w !! i with
  | Some s => withStage s (withWaiting (inProgress (stage w) ++ delete i (waiting w)) w)
  | None => w
  end.

(** [maybeRollover] up to its first suspension: [finishPendingSegment] uploads a
    segment whose previous cut stopped half way. *)
Definition maybeRollover (now : Z) (w : world) : world :=
  if fenced w then w
  else match pendingSegment (store w) with
  | None => withStage (PendingFinished now) w
  | Some p =>
      withStage (FinishingPending p
        (SegmentObject (header (meta (store w)) (s_first_seq p) (s_last_seq p) (s_rows p) (s_created_at p))
           (uploadRows (s_first_seq p) (s_last_seq p) (store w))) now) w
  end.

(** [rollover] after [finishPendingSegment]: the decision and the start of [cut]. *)
Definition afterPending (now databaseBytes : Z) (w : world) : world :=
  if fenced w then withStage Idle w
  else match rolloverTargets databaseBytes (store w) with
  | None => withStage Idle w
  | Some (targetRows, targetBytes) =>
      match resolveCut targetRows targetBytes (store w) with
      | None => withStage Idle w
      | Some cutSeq => withStage (AwaitingPrefix (meta (store w)) cutSeq now) w
      end
  end.

Section archive.
Context (sha256Hex : string → string).

(** [prefix()]: where a conversation's objects live. *)
Definition prefix (m : MetaRow) : option string :=
  if String.eqb (owner_id m) "" || String.eqb (conversation_id m) "" then None
  else Some ("conversations/" +:+ sha256Hex (owner_id m) +:+ "/" +:+ conversation_id m).

Definition spillKey (p writerKey : string) : string :=
  spillObjectKey p (slice0 (sha256Hex writerKey) 32).

(** [cut] after its prefix arrived: the manifest row, then the upload. *)
Definition afterPrefix (snapshot : MetaRow) (cutSeq now : Z) (w : world) : world :=
  match prefix (meta (store w)) with
  | None => withStage Idle w
  | Some p =>
      if fenced w then withStage Idle w
      else
        let firstSeq := hot_min_seq snapshot in
        match chooseSegment firstSeq cutSeq (store w) with
        | None => withStage Idle w
        | Some (lastSeq, count, total) =>
            let key := segmentKey p firstSeq lastSeq in
            let st := insertSegment
              {| s_first_seq := firstSeq; s_last_seq := lastSeq; s_rows := count; s_bytes := total;
                 s_r2_key := key; s_state := uploading; s_created_at := now |} (store w) in
            withStage (UploadingSegment firstSeq lastSeq key
              (SegmentObject (header snapshot firstSeq lastSeq count now)
                 (uploadRows firstSeq lastSeq st))) (withStore st w)
        end
  end.

(** ** Events *)

(** The journal operations that run between the archive's steps. *)
Inductive journalOp :=
  | OpAppend (o : append) (now : Z)
  | OpRepairTail (now : Z)
  | OpMarkModelSkip (s : Z)
  | OpUpsertTurn (input : UpsertTurnInput)
  | OpSetTurnContext (turnId : string) (s e : Z)
  | OpSetTurnSpan (turnId : string) (s : Z)
  | OpSetTurnTerminal (turnId : string) (p : TurnPhase) (now : Z)
  | OpStageInbox (input : StageInput)
  | OpDropInbox (id : Z)
  | OpPutAppendReceipt (r : AppendReceipt)
  | OpAppendBudget (input : BudgetInput)
  | OpBindOwner (record : ConversationOwnerRecord)
  | OpSetConversationId (conversationId : string)
  | OpSetTitle (t : string)
  | OpSetIndexSyncedSeq (s : Z)
  | OpMarkDeleted (now : Z).

Definition journalStep (o : journalOp) (st : db) : db :=
  match o with
  | OpAppend o now => fst (runAppend o now st)
  | OpRepairTail now => fst (repairTail now st)
  | OpMarkModelSkip s => markModelSkip s st
  | OpUpsertTurn input => fst (upsertTurn input st)
  | OpSetTurnContext t s e => setTurnContext t s e st
  | OpSetTurnSpan t s => setTurnSpan t s st
  | OpSetTurnTerminal t p now => setTurnTerminal t p now st
  | OpStageInbox input => fst (stageInbox input st)
  | OpDropInbox id => dropInbox id st
  | OpPutAppendReceipt r => putAppendReceipt r st
  | OpAppendBudget input => fst (appendBudget input st)
  | OpBindOwner record => fst (bindOwner record st)
  | OpSetConversationId c => setConversationId c st
  | OpSetTitle t => setTitle t st
  | OpSetIndexSyncedSeq s => setIndexSyncedSeq s st
  | OpMarkDeleted now => markDeleted now st
  end.

Inductive event :=
  | Journaled (o : journalOp)
  | Rollover (now : Z)
  | Focused (i : nat)
  | Resumed (databaseBytes : Z)
  | Failed
  | WriteSpill (writerKey : string) (payload : text)
  | SpillLanded (i : nat) (now : Z)
  | SpillFailed (i : nat)
  | StragglerLanded (i : nat)
  | Sealed
  | Evicted.

(** The upload a suspended rollover waits for. *)
Definition inFlight (s : rollover) : list (string * object) :=
  match s with
  | FinishingPending p body _ => [(s_r2_key p, body)]
  | UploadingSegment _ _ key body => [(key, body)]
  | _ => []
  end.

Definition spillPut (s : string * text) : string * object := (s.1, SpillObject s.2).

Definition exec (w : world) (e : event) : world :=
  match e with
  | Journaled o => withStore (journalStep o (store w)) w
  | Rollover now => maybeRollover now (park w)
  | Focused i => focus i w
  | Resumed databaseBytes =>
      match stage w with
      | Idle => w
      | FinishingPending p body now =>
          withStage (PendingFinished now)
            (withStore (commitSegment (s_first_seq p) (s_last_seq p) (store w)) (put (s_r2_key p) body w))
      | PendingFinished now => afterPending now databaseBytes w
      | AwaitingPrefix snapshot cutSeq now => afterPrefix snapshot cutSeq now w
      | UploadingSegment firstSeq lastSeq key body =>
          withStage Idle (withStore (commitSegment firstSeq lastSeq (store w)) (put key body w))
      end
  | Failed => withStage Idle (withStragglers (inFlight (stage w) ++ stragglers w) w)
  | WriteSpill writerKey payload =>
      if fenced w then w
      else match prefix (meta (store w)) with
      | None => w
      | Some p => withSpilling (spilling w ++ [(spillKey p writerKey, payload)]) w
      end
  | SpillLanded i now =>
      match spilling w !! i with
      | Some (key, payload) =>
          withSpilling (delete i (spilling w))
            (withStore (recordSpill key (textBytes payload) now (store w)) (put key (SpillObject payload) w))
      | None => w
      end
  | SpillFailed i =>
      match spilling w !! i with
      | Some s => withSpilling (delete i (spilling w)) (withStragglers (spillPut s :: stragglers w) w)
      | None => w
      end
  | StragglerLanded i =>
      match stragglers w !! i with
      | Some (key, body) => withStragglers (delete i (stragglers w)) (put key body w)
      | None => w
      end
  | Sealed => seal w
  | Evicted =>
      {| store := store w; bucket := bucket w; stage := Idle; waiting := []; spilling := [];
         stragglers := inFlight (stage w) ++ concat (inFlight <$> waiting w) ++ (spillPut <$> spilling w) ++ stragglers w;
         sealed := false; log := log w |}
  end.

Definition run (w : world) (events : list event) : world := foldl exec w events.

(** No rollover begins while another one runs.  The code does not see to it. *)
Fixpoint alone (w : world) (events : list event) : bool :=
  match events with
  | [] => true
  | e :: events =>
      match e, stage w, waiting w with
      | Rollover _, Idle, [] => true
      | Rollover _, _, _ => false
      | _, _, _ => true
      end && alone (exec w e) events
  end.
End archive.

(** A conversation that just started. *)
Definition freshWorld : world :=
  {| store := bootstrap emptyDb; bucket := ∅; stage := Idle; waiting := []; spilling := []; stragglers := [];
     sealed := false; log := ∅ |}.

(** ** What a journal operation leaves alone

    Between two steps of a rollover the journal only grows: resident rows keep their
    record, the resident floor and the manifest stay, the head never moves back. *)

Definition Grows (st st' : db) : Prop := ∀ m,
  Inv st → meta_table st = Some m →
  Inv st' ∧ segments st' = segments st ∧ spills st' = spills st ∧
  (∃ m', meta_table st' = Some m' ∧ hot_min_seq m' = hot_min_seq m ∧ next_seq m ≤ next_seq m') ∧
  ∀ k row, journal st !! k = Some row → ∃ row', journal st' !! k = Some row' ∧
    rowToRecord row' = rowToRecord row.

#[export] Instance Grows_preorder : PreOrder Grows.
Proof.
  split.
  - intros st m HI Hm. do 3 (split; [done|]). split; [by exists m|]. intros k row Hr. eauto.
  - intros st1 st2 st3 H12 H23 m HI Hm.
    destruct (H12 m HI Hm) as (HI2 & Hs2 & Hp2 & (m2 & Hm2 & Hh2 & Hn2) & Hr2).
    destruct (H23 m2 HI2 Hm2) as (HI3 & Hs3 & Hp3 & (m3 & Hm3 & Hh3 & Hn3) & Hr3).
    split; [done|]. split; [congruence|]. split; [congruence|]. split.
    + exists m3. split; [done|]. split; [congruence|lia].
    + intros k row (row2 & Hrow2 & Heq2)%Hr2. destruct (Hr3 _ _ Hrow2) as (row3 & ? & ?).
      exists row3. split; [done|congruence].
Qed.

(** Operations on the other tables and on the other columns of [meta]. *)
Lemma Grows_quiet st st' :
  journal st' = journal st → segments st' = segments st → spills st' = spills st →
  (∀ m, meta_table st = Some m → ∃ m', meta_table st' = Some m' ∧
     hot_min_seq m' = hot_min_seq m ∧ next_seq m' = next_seq m) →
  Grows st st'.
Proof.
  intros Hj Hs Hp Hmeta m (HD & HR & HU) Hm. destruct (Hmeta m Hm) as (m' & Hm' & Hh & Hn).
  split; [|split; [done|split; [done|split]]].
  - unfold Inv, Dense in *. rw Hm' Hj. rw Hm in HD. by rw Hh Hn.
  - exists m'. split; [done|]. split; [done|lia].
  - rw Hj. eauto.
Qed.

Lemma Grows_updateMeta f st :
  (∀ m, hot_min_seq (f m) = hot_min_seq m ∧ next_seq (f m) = next_seq m) → Grows st (updateMeta f st).
Proof.
  intros Hf. apply Grows_quiet; try by destruct st.
  intros m Hm. exists (f m). split; [|apply Hf]. unfold updateMeta. rw Hm. by destruct st.
Qed.

Lemma runAppend_Grows o now st : Grows st (fst (runAppend o now st)).
Proof.
  intros m HI Hm. split; [by apply runAppend_Inv|].
  destruct (runAppend_appended o now st m HI Hm) as [| | |m' st' ? ? Hm' ? ? Hsame];
    [do 2 (split; [done|]); split; [by exists m|]; by eauto..|].
  simplify_eq. destruct (sameButFts_fields _ _ Hsame) as (Hmeta & Hj & Hs & Hp & _).
  rw Hs Hp Hmeta Hj (inserted_meta _ _ _ Hm) inserted_journal.
  split; [by destruct st|]. split; [by destruct st|]. split.
  - eexists. split; [done|]. destruct m; simpl. lia.
  - intros k row Hrow. exists row. split; [|done]. rw lookup_insert_ne //. intros <-.
    destruct HI as (HD & _). rw Hm in HD. destruct HD as [_ HD].
    assert (Hk : is_Some (journal st !! next_seq m)) by eauto. apply HD in Hk. lia.
Qed.

Lemma forEach_preserves {A B} (R : db → db → Prop) (HR : PreOrder R) (f : A → J B) l :
  (∀ x, preserves R (f x)) → preserves R (forEach f l).
Proof.
  intros Hf. induction l as [|x l IH]; simpl; [by apply preserves_ret|].
  apply preserves_bind; [done|apply Hf|]. intros y.
  apply preserves_bind; [done|done|]. intros ys. by apply preserves_ret.
Qed.

Lemma repairTail_Grows now st : Grows st (fst (repairTail now st)).
Proof.
  revert st. change (preserves Grows (repairTail now)). unfold repairTail.
  apply preserves_bind; [apply _|by apply preserves_gets, _|]. intros [[|e l]|];
    [by apply preserves_ret, _| |by apply preserves_throw, _].
  apply forEach_preserves; [apply _|]. intros x st.
  change (repairOne now x) with (runAppend (AppendMessage
    (repairInput x.1 (repairKey x.1 x.2) (interruptedResult x.2 now) now)) now).
  apply runAppend_Grows.
Qed.

Lemma markModelSkip_Grows s st : Grows st (markModelSkip s st).
Proof.
  intros m (HD & HR & HU) Hm. unfold markModelSkip, updateRow.
  assert (Hj : ∀ j, journal (withJournal j st) = j) by (by destruct st).
  set (j' := alter withModelSkip s (journal st)).
  assert (Hrow : ∀ k row', j' !! k = Some row' → ∃ row, journal st !! k = Some row ∧
    seq row' = seq row ∧ writer_key row' = writer_key row).
  { intros k row'. unfold j'. destruct (decide (k = s)) as [->|Hne].
    - rw lookup_alter_eq. intros (row & Hr & ->)%fmap_Some. exists row. by destruct row.
    - rw lookup_alter_ne //. eauto. }
  split; [|split; [by destruct st|split; [by destruct st|split]]].
  - unfold Inv. rw meta_withJournal Hm Hj. rw Hm in HD. split; [|split].
    + destruct HD as [Hle HD]. split; [done|]. intros k. rw -HD. unfold j'.
      destruct (decide (k = s)) as [->|Hne]; [by rw lookup_alter_eq fmap_is_Some|by rw lookup_alter_ne].
    + intros k row' (row & Hr & -> & _)%Hrow. by apply HR.
    + intros k k' r r' (row & Hr & _ & Hk)%Hrow (row' & Hr' & _ & Hk')%Hrow Heq.
      eapply HU; [exact Hr|exact Hr'|congruence].
  - rw meta_withJournal. by exists m.
  - intros k row Hr. rw Hj. unfold j'. destruct (decide (k = s)) as [->|Hne].
    + rw lookup_alter_eq Hr. eexists. split; [done|]. by destruct row.
    + rw lookup_alter_ne //. eauto.
Qed.

Lemma journalStep_Grows o st : Grows st (journalStep o st).
Proof.
  assert (Hquiet : ∀ st', journal st' = journal st → segments st' = segments st →
    spills st' = spills st → meta_table st' = meta_table st → Grows st st').
  { intros st' ? ? ? Hm. apply Grows_quiet; [done..|]. intros m. rw Hm. eauto. }
  destruct o; simpl.
  - apply runAppend_Grows.
  - apply repairTail_Grows.
  - apply markModelSkip_Grows.
  - unfold upsertTurn. unfold_monad. destruct (bool_decide _); [done|]. simpl.
    destruct (existsb _ _); apply Hquiet; by destruct st.
  - apply Hquiet; by destruct st.
  - apply Hquiet; by destruct st.
  - apply Hquiet; by destruct st.
  - unfold stageInbox. unfold_monad. destruct (bool_decide _); [done|]. simpl.
    destruct (existsb _ _); [done|]. apply Hquiet; by destruct st.
  - apply Hquiet; by destruct st.
  - unfold putAppendReceipt. destruct (append_receipts st !! _); [done|]. apply Hquiet; by destruct st.
  - unfold appendBudget. destruct (_ || _); [done|]. simpl.
    destruct (b_commit input); [|done]. apply Hquiet; by destruct st.
  - unfold bindOwner. unfold_monad. destruct (_ && _); [done|]. by apply Grows_updateMeta.
  - unfold setConversationId. destruct (String.eqb _ _); [done|]. apply Grows_updateMeta.
    intros m. destruct (String.eqb _ _); [done|by destruct m].
  - unfold setTitle. destruct (String.eqb _ _); [done|]. apply Grows_updateMeta.
    intros m. destruct (String.eqb _ _); [by destruct m|done].
  - apply Grows_updateMeta. intros m. destruct (_ <? _); [by destruct m|done].
  - apply Grows_updateMeta. intros m. by destruct m.
Qed.

(** ** The upload reads exactly its range *)

Section resident.
Context (st : db) (m : MetaRow) (HI : Inv st) (Hm : meta_table st = Some m).

Lemma selected_lookup p row : row ∈ selectAsc p (journal st) → journal st !! seq row = Some row.
Proof.
  intros (_ & k & Hk)%elem_of_selectAsc. destruct HI as (_ & HR & _). by rw (HR _ _ Hk).
Qed.

(** Resident rows are determined by their numbers. *)
Lemma rows_eq (l1 l2 : list JournalRow) :
  (∀ row, row ∈ l1 → journal st !! seq row = Some row) →
  (∀ row, row ∈ l2 → journal st !! seq row = Some row) →
  seq <$> l1 = seq <$> l2 → l1 = l2.
Proof.
  revert l2; induction l1 as [|r1 l1 IH]; intros [|r2 l2] H1 H2; simpl; try done.
  intros [= Heq Htl]. f_equal.
  - assert (Some r1 = Some r2) as [= ->]; [|done].
    rw -(H1 r1); [left|]. rw -(H2 r2); [left|]. by rw Heq.
  - apply IH; [intros r Hr; apply H1; by right|intros r Hr; apply H2; by right|done].
Qed.

Lemma length_range a b :
  hot_min_seq m ≤ a → b < next_seq m →
  Z.of_nat (length (selectAsc (inRange a b) (journal st))) = Z.max 0 (b - a + 1).
Proof.
  intros Ha Hb. rw -(length_fmap seq) (selectAsc_inRange m st a b HI Hm Ha Hb) length_seqZ. lia.
Qed.

Lemma length_selectAsc p : (length (selectAsc p (journal st)) ≤ size (journal st))%nat.
Proof.
  unfold selectAsc. etrans; [apply length_filter|]. rw length_fmap ordered_perm.
  by rw length_map_to_list.
Qed.

Lemma uploadLoop_spec fuel cursor l :
  hot_min_seq m ≤ cursor → l < next_seq m → (Z.to_nat (l - cursor + 1) < fuel)%nat →
  uploadLoop fuel cursor l st = selectAsc (inRange cursor l) (journal st).
Proof.
  revert cursor; induction fuel as [|fuel IH]; intros cursor Hc Hl Hf; [lia|]. simpl.
  pose proof (selectAsc_inRange m st cursor l HI Hm Hc Hl) as Hseq.
  set (all := selectAsc (inRange cursor l) (journal st)) in *.
  unfold rowsForArchive, limit. simpl. fold all.
  assert (Hbatch : seq <$> take (Z.to_nat ARCHIVE_READ_ROWS) all = seqZ cursor (Z.min 500 (l - cursor + 1)))
    by (by rw fmap_take Hseq take_seqZ).
  set (batch := take (Z.to_nat ARCHIVE_READ_ROWS) all) in *.
  destruct (last batch) as [row|] eqn:Hlast.
  2:{ apply last_None in Hlast. rw Hlast in Hbatch. symmetry.
      destruct (decide (l - cursor + 1 ≤ 0)).
      - rw seqZ_nil in Hseq; [done|]. by apply fmap_nil_inv in Hseq.
      - rw seqZ_cons in Hbatch; [lia|done]. }
  assert (Hrow : seq row = cursor + Z.min 500 (l - cursor + 1) - 1 ∧ 0 < l - cursor + 1).
  { assert (Hl' : last (seq <$> batch) = Some (seq row)) by (by rw fmap_last Hlast).
    rw Hbatch in Hl'. destruct (decide (l - cursor + 1 ≤ 0)).
    - rw seqZ_nil in Hl'; [lia|done].
    - rw last_lookup length_seqZ lookup_seqZ in Hl'. lia. }
  destruct Hrow as [Hrow Hpos].
  assert (Hin : ∀ r, r ∈ batch → journal st !! seq r = Some r).
  { intros r (i & Hi & _)%elem_of_take. eapply selected_lookup, list_elem_of_lookup_2. exact Hi. }
  destruct (l <? seq row + 1) eqn:E; bool_to_prop.
  - rw app_nil_r. apply rows_eq; [done|apply selected_lookup|].
    rw Hbatch Hseq. f_equal. lia.
  - rw IH; [lia|done|lia|]. apply rows_eq; [|apply selected_lookup|].
    + intros r [Hr|Hr]%elem_of_app; [by apply Hin|exact (selected_lookup _ _ Hr)].
    + rw fmap_app Hbatch Hseq (selectAsc_inRange m st _ l HI Hm); [lia|done|].
      assert (l - cursor + 1 = Z.min 500 (l - cursor + 1) + (l - (seq row + 1) + 1)) as Hsplit by lia.
      rw {2}Hsplit (seqZ_app cursor); [lia..|]. f_equal. f_equal. lia.
Qed.

(** The batched upload is one read of the range. *)
Lemma uploadRows_spec f l :
  hot_min_seq m ≤ f → l < next_seq m → uploadRows f l st = selectAsc (inRange f l) (journal st).
Proof.
  intros Hf Hl. apply uploadLoop_spec; [done..|].
  pose proof (length_range f l Hf Hl). pose proof (length_selectAsc (inRange f l)). lia.
Qed.

(** ** A chosen segment is a legal one *)

Lemma walkBack_spec fuel f l :
  f ≤ l → f ≤ walkBack fuel f l st ≤ l.
Proof.
  revert l; induction fuel as [|fuel IH]; intros l Hl; simpl; [lia|].
  destruct (f <? l) eqn:E; simpl; [|lia]. bool_to_prop.
  destruct (isCutBoundary l st); simpl; [lia|]. specialize (IH (l - 1)). lia.
Qed.

Lemma takeBatch_spec count total lastSeq rows :
  let '(_, _, batchEnd) := takeBatch count total lastSeq rows in
  batchEnd = lastSeq ∨ ∃ row, row ∈ rows ∧ seq row = batchEnd.
Proof.
  revert count total lastSeq; induction rows as [|row rows IH]; intros count total lastSeq; simpl;
    [by left|]. destruct (_ && _); [by left|].
  specialize (IH (count + 1) (total + bytes row) (seq row)).
  destruct (takeBatch _ _ _ rows) as [[c t] e]. right.
  destruct IH as [->|(r & Hr & He)]; [exists row; split; [left|done]|].
  exists r. split; [by right|done].
Qed.

Lemma isCutBoundary_spec l :
  isCutBoundary l st = true → ∃ row rest,
    selectAsc (λ row, l <? seq row) (journal st) = row :: rest ∧ l < seq row ∧
    journal st !! seq row = Some row ∧ kind row = message ∧ role row = Some user.
Proof.
  unfold isCutBoundary. destruct (selectAsc _ _) as [|row rest] eqn:E; [done|].
  intros [Hk Hr]%andb_true_iff. bool_to_prop. exists row, rest. split; [done|].
  assert (Hin : row ∈ selectAsc (λ row, l <? seq row) (journal st)) by (rw E; left).
  split; [|split; [exact (selected_lookup _ _ Hin)|done]].
  apply elem_of_selectAsc in Hin as [Hlt _]. bool_to_prop. done.
Qed.

Lemma chooseSegment_spec f cutSeq l count total :
  chooseSegment f cutSeq st = Some (l, count, total) →
  f ≤ l ≤ cutSeq ∧ isCutBoundary l st = true ∧ l < next_seq m.
Proof.
  unfold chooseSegment. destruct (cutSeq <? f) eqn:E; [done|]. bool_to_prop.
  destruct (rowsForArchive f cutSeq SEGMENT_MAX_ROWS st) as [|row rows] eqn:Erows; [done|].
  pose proof (takeBatch_spec 0 0 (seq row) (row :: rows)) as Hb.
  destruct (takeBatch _ _ _ _) as [[c t] e].
  assert (He : f ≤ e ≤ cutSeq).
  { assert (∃ r, r ∈ row :: rows ∧ seq r = e) as (r & Hr & <-)
      by (destruct Hb as [->|?]; [exists row; split; [left|done]|done]).
    rw -Erows in Hr. apply elem_of_limit, elem_of_selectAsc in Hr as [Hr _].
    unfold inRange in Hr. bool_to_prop. done. }
  pose proof (walkBack_spec (Z.to_nat (e - f)) f e (proj1 He)).
  destruct (_ || _) eqn:E2; [done|]. intros [= <- <- <-]. bool_to_prop.
  split; [lia|]. split; [done|].
  destruct (isCutBoundary_spec _ H1) as (r & rest & _ & Hlt & Hr & _).
  destruct HI as (HD & _). rw Hm in HD. destruct HD as [_ HD].
  assert (Hk : is_Some (journal st !! seq r)) by eauto. apply HD in Hk. lia.
Qed.
End resident.

(** ** The invariant of rollover *)

Definition isCommittedRow (s : SegmentRow) : bool := bool_decide (s_state s = committed).

(** Segments, in order, cover a range without a hole or an overlap. *)
Fixpoint tiles (lo hi : Z) (l : list SegmentRow) : Prop :=
  match l with
  | [] => lo = hi
  | s :: l' => s_first_seq s = lo ∧ lo ≤ s_last_seq s ∧ tiles (s_last_seq s + 1) hi l'
  end.

(** The rows of a segment body, as the records they were published with. *)
Definition Body (lg : gmap Z JournalRecord) (f l : Z) (rows : list JournalRow) : Prop :=
  seq <$> rows = seqZ f (l - f + 1) ∧ ∀ row, row ∈ rows → lg !! seq row = Some (rowToRecord row).

(** An upload carries a range and the key of that range, or a spill under a spill's. *)
Definition GoodPut (lg : gmap Z JournalRecord) (kb : string * object) : Prop :=
  match kb.2 with
  | SegmentObject h rows =>
      ∃ p f l, kb.1 = segmentKey p f l ∧ 0 ≤ f ≤ l ∧ Body lg f l rows
  | SpillObject _ => ∃ p d, kb.1 = spillObjectKey p d
  end.

Definition Archived (w : world) (s : SegmentRow) : Prop :=
  ∃ h rows, bucket w !! s_r2_key s = Some (SegmentObject h rows) ∧
    Body (log w) (s_first_seq s) (s_last_seq s) rows.

Definition NoneUploading (st : db) : Prop :=
  ∀ k s, segments st !! k = Some s → s_state s = committed.

Definition StageOk (w : world) (m : MetaRow) : Prop :=
  match stage w with
  | Idle => True
  | FinishingPending p _ _ =>
      segments (store w) !! s_first_seq p = Some p ∧ s_state p = uploading
  | PendingFinished _ => NoneUploading (store w)
  | AwaitingPrefix snapshot _ _ => NoneUploading (store w) ∧ hot_min_seq snapshot = hot_min_seq m
  | UploadingSegment f l key _ =>
      ∃ s, segments (store w) !! f = Some s ∧ s_state s = uploading ∧ s_last_seq s = l ∧
        s_r2_key s = key
  end.

Definition puts (w : world) : list (string * object) :=
  inFlight (stage w) ++ (spillPut <$> spilling w) ++ stragglers w.

Record WInv (w : world) (m : MetaRow) : Prop := {
  wi_inv : Inv (store w);
  wi_meta : meta_table (store w) = Some m;
  wi_tiles : tiles 0 (hot_min_seq m) (selectAsc isCommittedRow (segments (store w)));
  wi_keyed : keyed s_first_seq (segments (store w));
  wi_segkey : ∀ k s, segments (store w) !! k = Some s →
    0 ≤ s_first_seq s ≤ s_last_seq s ∧
    ∃ p, s_r2_key s = segmentKey p (s_first_seq s) (s_last_seq s);
  wi_uploading : ∀ k s, segments (store w) !! k = Some s → s_state s = uploading →
    s_first_seq s = hot_min_seq m ∧ s_last_seq s < next_seq m;
  wi_archived : ∀ k s, segments (store w) !! k = Some s → s_state s = committed → Archived w s;
  wi_puts : Forall (GoodPut (log w)) (puts w);
  wi_dom : ∀ k, is_Some (log w !! k) ↔ 0 ≤ k < next_seq m;
  wi_log : ∀ k row, journal (store w) !! k = Some row → log w !! k = Some (rowToRecord row);
  wi_stage : StageOk w m;
  wi_waiting : waiting w = []
}.

(** *** The log only grows *)

Lemma Body_mono lg lg' f l rows : lg ⊆ lg' → Body lg f l rows → Body lg' f l rows.
Proof. intros Hsub [Hs Hl]. split; [done|]. intros row Hr. eapply lookup_weaken; eauto. Qed.

Lemma GoodPut_mono lg lg' kb : lg ⊆ lg' → GoodPut lg kb → GoodPut lg' kb.
Proof.
  intros Hsub. unfold GoodPut. destruct (kb.2) as [h rows|t]; [|done].
  intros (p & f & l & ? & ? & ?). exists p, f, l. split; [done|]. split; [done|]. by eapply Body_mono.
Qed.

(** When resident rows keep their record, the log of the new store extends the old. *)
Lemma log_extends (st' : db) w :
  (∀ k row, journal (store w) !! k = Some row → log w !! k = Some (rowToRecord row)) →
  (∀ k row, journal st' !! k = Some row →
     log w !! k = Some (rowToRecord row) ∨ log w !! k = None) →
  log w ⊆ (rowToRecord <$> journal st') ∪ log w.
Proof.
  intros Hlog Hnew. apply map_subseteq_spec. intros k r Hr. apply lookup_union_Some_raw.
  destruct ((rowToRecord <$> journal st') !! k) as [r'|] eqn:E; [left|by right].
  rw lookup_fmap in E. apply fmap_Some in E as (row & Hrow & ->).
  destruct (Hnew _ _ Hrow) as [Heq|Heq]; congruence.
Qed.

Lemma inFlight_none w s :
  inFlight s = [] → Forall (GoodPut (log w)) (puts w) →
  Forall (GoodPut (log w)) (inFlight s ++ (spillPut <$> spilling w) ++ stragglers w).
Proof. intros ->. unfold puts. by rw Forall_app => -[_ ?]. Qed.

(** *** Journal operations *)

Lemma withStore_log_new st' w m m' :
  WInv w m → Inv st' → meta_table st' = Some m' → hot_min_seq m' = hot_min_seq m →
  (∀ k row, journal (store w) !! k = Some row → ∃ row', journal st' !! k = Some row' ∧
    rowToRecord row' = rowToRecord row) →
  ∀ k row, journal st' !! k = Some row →
    log w !! k = Some (rowToRecord row) ∨ log w !! k = None ∧ next_seq m ≤ k.
Proof.
  intros HW HI' Hm' Hh Hkeep k row Hrow.
  destruct (journal (store w) !! k) as [old|] eqn:Hold.
  - destruct (Hkeep _ _ Hold) as (row' & Hrow' & Heq). left.
    rw (wi_log _ _ HW _ _ Hold) -Heq. congruence.
  - right. destruct (wi_inv _ _ HW) as (HD & _). rw (wi_meta _ _ HW) in HD. destruct HD as [_ HD].
    destruct HI' as (HD' & _). rw Hm' in HD'. destruct HD' as [_ HD'].
    assert (Hk : is_Some (journal st' !! k)) by eauto. apply HD' in Hk.
    assert (Hn : ¬ is_Some (journal (store w) !! k)) by (rw Hold; by intros []).
    rw HD in Hn. assert (next_seq m ≤ k) by lia. split; [|done].
    apply eq_None_not_Some. intros Hs%(wi_dom _ _ HW). lia.
Qed.

Lemma WInv_Grows st' w m :
  WInv w m → Grows (store w) st' → ∃ m', WInv (withStore st' w) m'.
Proof.
  intros HW HG. destruct (HG m (wi_inv _ _ HW) (wi_meta _ _ HW))
    as (HI' & Hseg & Hsp & (m' & Hm' & Hh & Hn) & Hkeep).
  pose proof (withStore_log_new st' w m m' HW HI' Hm' Hh Hkeep) as Hnew.
  assert (Hsub : log w ⊆ log (withStore st' w)).
  { apply log_extends; [apply (wi_log _ _ HW)|]. intros k row [?|[? ?]]%Hnew; [by left|by right]. }
  exists m'. destruct HW as [HI Hm Ht Hk Hsk Hu Ha Hp Hd Hl Hs Hwait]. split; simpl.
  - done.
  - done.
  - by rw Hseg Hh.
  - by rw Hseg.
  - by rw Hseg.
  - intros k s. rw Hseg. intros Hks Hst. destruct (Hu _ _ Hks Hst). split; [congruence|lia].
  - intros k s. rw Hseg. intros Hks Hst. destruct (Ha _ _ Hks Hst) as (h & rows & ? & ?).
    exists h, rows. split; [done|]. by eapply Body_mono.
  - eapply Forall_impl; [exact Hp|]. intros kb. by apply GoodPut_mono.
  - intros k. rw lookup_union_is_Some lookup_fmap fmap_is_Some Hd.
    destruct HI' as (HD' & _). rw Hm' in HD'. destruct HD' as [Hle HD']. rw HD'.
    destruct HI as (HD & _). rw Hm in HD. destruct HD as [Hle' HD]. lia.
  - intros k row Hrow. apply lookup_union_Some_raw. left. by rw lookup_fmap Hrow.
  - unfold StageOk, NoneUploading in *. simpl. rw Hseg. destruct (stage w); try done.
    by rw Hh.
  - done.
Qed.

(** *** Uploads land *)

Lemma GoodPut_segment lg p f l body :
  0 ≤ f → 0 ≤ l → GoodPut lg (segmentKey p f l, body) →
  ∃ h rows, body = SegmentObject h rows ∧ Body lg f l rows.
Proof.
  intros Hf Hl. unfold GoodPut. simpl. destruct body as [h rows|t].
  - intros (p' & f' & l' & Hkey & [? ?] & HB).
    apply segmentKey_inj in Hkey as [-> ->]; [|lia..]. by exists h, rows.
  - intros (p' & d & Hkey). symmetry in Hkey. by apply spillObjectKey_ne in Hkey.
Qed.

(** Whatever lands, and however late, a committed segment stays readable. *)
Lemma Archived_put w s key body :
  0 ≤ s_first_seq s ≤ s_last_seq s →
  (∃ p, s_r2_key s = segmentKey p (s_first_seq s) (s_last_seq s)) →
  GoodPut (log w) (key, body) → Archived w s → Archived (put key body w) s.
Proof.
  intros Hle [p Hp] HG HA. unfold Archived. simpl.
  destruct (decide (s_r2_key s = key)) as [<-|Hne].
  - rw lookup_insert_eq. rw Hp in HG. apply GoodPut_segment in HG as (h & rows & -> & HB); [|lia..].
    by exists h, rows.
  - by rw lookup_insert_ne.
Qed.

Lemma WInv_put key body w m :
  WInv w m → GoodPut (log w) (key, body) → WInv (put key body w) m.
Proof.
  intros [HI Hm Ht Hk Hsk Hu Ha Hp Hd Hl Hs Hwait] HG. split; try done.
  intros k s Hks Hst. apply Archived_put; [by eapply Hsk..|done|by eapply Ha].
Qed.

(** The awaited and the abandoned uploads, in any order the events leave them. *)
Lemma WInv_puts w m s spl str :
  WInv w m → Forall (GoodPut (log w)) (inFlight s ++ (spillPut <$> spl) ++ str) →
  StageOk (withStage s w) m →
  WInv (withStage s (withSpilling spl (withStragglers str w))) m.
Proof. intros [HI Hm Ht Hk Hsk Hu Ha Hp Hd Hl Hs Hwait] HF HS. by split. Qed.

(** *** The commit *)

Section commit.
Context (f l : Z) (st : db).

Lemma commit_segments : segments (commitSegment f l st) = alter (withState committed) f (segments st).
Proof. by destruct st. Qed.

Lemma commit_journal :
  journal (commitSegment f l st) = filter (λ kr, archivedBy f l kr = false) (journal st).
Proof. by destruct st. Qed.

Lemma commit_meta :
  meta_table (commitSegment f l st) =
  (λ m, if hot_min_seq m <? l + 1 then withHotMin (l + 1) m else m) <$> meta_table st.
Proof. by destruct st. Qed.

Lemma commit_spills : spills (commitSegment f l st) = spills st.
Proof. by destruct st. Qed.
End commit.

Lemma tiles_lt lo hi l s : tiles lo hi l → s ∈ l → s_first_seq s < hi.
Proof.
  revert lo; induction l as [|s' l IH]; intros lo; simpl; [by intros _ ?%not_elem_of_nil|].
  intros (<- & Hle & Ht) [->|Hin]%elem_of_cons; [|by eapply IH].
  assert (Hmono : ∀ l lo, tiles lo hi l → lo ≤ hi).
  { clear. induction l as [|s l IH]; intros lo; simpl; [lia|]. intros (_ & ? & ?%IH). lia. }
  apply Hmono in Ht. lia.
Qed.

Lemma tiles_snoc lo hi l s :
  tiles lo hi l → s_first_seq s = hi → hi ≤ s_last_seq s → tiles lo (s_last_seq s + 1) (l ++ [s]).
Proof.
  revert lo; induction l as [|s' l IH]; intros lo; simpl.
  - intros -> -> ?. done.
  - intros (-> & ? & Ht) Hf Hl. split; [done|]. split; [done|]. by apply IH.
Qed.

Lemma committed_before w m k s :
  WInv w m → segments (store w) !! k = Some s → s_state s = committed → k < hot_min_seq m.
Proof.
  intros HW Hk Hst. rw -(wi_keyed _ _ HW _ _ Hk). eapply tiles_lt; [apply (wi_tiles _ _ HW)|].
  apply elem_of_selectAsc. split; [|eauto]. unfold isCommittedRow. by rw bool_decide_eq_true.
Qed.

(** Committing the segment at the resident floor appends it to the tiling. *)
Lemma commit_tiles w m f s :
  WInv w m → segments (store w) !! f = Some s → s_state s = uploading →
  tiles 0 (s_last_seq s + 1)
    (selectAsc isCommittedRow (alter (withState committed) f (segments (store w)))).
Proof.
  intros HW Hf Hst. destruct (wi_uploading _ _ HW _ _ Hf Hst) as [Hhot Hlast].
  pose proof (wi_keyed _ _ HW _ _ Hf) as Hkey. destruct (wi_segkey _ _ HW _ _ Hf) as [[_ Hle] _].
  set (rest := delete f (segments (store w))).
  assert (Hlt : ∀ k s', rest !! k = Some s' → k < f).
  { intros k s' [Hne Hk]%lookup_delete_Some. destruct (s_state s') eqn:Hs'.
    - destruct (wi_uploading _ _ HW _ _ Hk Hs') as [Hk' _].
      rw (wi_keyed _ _ HW _ _ Hk) in Hk'. congruence.
    - pose proof (committed_before _ _ _ _ HW Hk Hs'). lia. }
  assert (Hold : segments (store w) = <[f := s]> rest) by (by unfold rest; rw insert_delete_id).
  assert (Hnew : alter (withState committed) f (segments (store w)) = <[f := withState committed s]> rest).
  { apply map_eq. intros k. destruct (decide (k = f)) as [->|Hne].
    - by rw lookup_alter_eq Hf lookup_insert_eq.
    - rw lookup_alter_ne // lookup_insert_ne //. unfold rest. by rw lookup_delete_ne. }
  pose proof (wi_tiles _ _ HW) as Ht.
  rw Hold in Ht. rw selectAsc_insert_last in Ht; [done|].
  assert (isCommittedRow s = false) as Hc by (unfold isCommittedRow; by rw Hst).
  rw Hc app_nil_r in Ht. rw Hnew selectAsc_insert_last; [done|].
  assert (isCommittedRow (withState committed s) = true) as -> by (by destruct s).
  assert (s_last_seq s = s_last_seq (withState committed s)) as -> by (by destruct s).
  apply tiles_snoc with (hi := hot_min_seq m); [done|by destruct s|by destruct s; simpl in *; lia].
Qed.

(** The store after a commit still satisfies the journal's invariant. *)
Lemma commit_Inv st m f l :
  Inv st → meta_table st = Some m → f = hot_min_seq m → f ≤ l → l < next_seq m →
  Inv (commitSegment f l st) ∧ meta_table (commitSegment f l st) = Some (withHotMin (l + 1) m).
Proof.
  intros (HD & HR & HU) Hm -> Hle Hl.
  assert (Hm' : meta_table (commitSegment (hot_min_seq m) l st) = Some (withHotMin (l + 1) m)).
  { rw commit_meta Hm. simpl. by destruct (hot_min_seq m <? l + 1) eqn:E; [|bool_to_prop; lia]. }
  split; [|done]. unfold Inv. rw Hm' commit_journal. rw Hm in HD. destruct HD as [Hle' HD].
  split; [|split].
  - split; [destruct m; simpl in *; lia|]. intros k.
    assert (Hout : ∀ row, archivedBy (hot_min_seq m) l (k, row) = false ↔ ¬ (hot_min_seq m ≤ k ≤ l))
      by (intros row; unfold archivedBy; simpl; rw andb_false_iff !Z.leb_gt; lia).
    assert (is_Some (filter (λ kr, archivedBy (hot_min_seq m) l kr = false) (journal st) !! k) ↔
            is_Some (journal st !! k) ∧ ¬ (hot_min_seq m ≤ k ≤ l)) as ->.
    { split.
      - intros (row & [Hr Ha]%map_lookup_filter_Some). split; [eauto|]. by apply (Hout row).
      - intros [[row Hr] Ha]. exists row. apply map_lookup_filter_Some. split; [done|]. by apply Hout. }
    rw HD. destruct m; simpl in *. lia.
  - intros k row [? _]%map_lookup_filter_Some. by apply HR.
  - intros k k' r r' [? _]%map_lookup_filter_Some [? _]%map_lookup_filter_Some. by apply HU.
Qed.

Lemma WInv_commit w m f s body s' :
  WInv w m → segments (store w) !! f = Some s → s_state s = uploading →
  GoodPut (log w) (s_r2_key s, body) → (s' = Idle ∨ ∃ now, s' = PendingFinished now) →
  WInv (withStage s' (withStore (commitSegment f (s_last_seq s) (store w)) (put (s_r2_key s) body w)))
    (withHotMin (s_last_seq s + 1) m).
Proof.
  intros HW Hf Hst HG Hs'.
  destruct (wi_uploading _ _ HW _ _ Hf Hst) as [Hhot Hlast].
  pose proof (wi_keyed _ _ HW _ _ Hf) as Hkey.
  destruct (wi_segkey _ _ HW _ _ Hf) as [[H0 Hle] [p Hp]].
  destruct (commit_Inv (store w) m f (s_last_seq s)) as [HI' Hm'];
    [apply (wi_inv _ _ HW)|apply (wi_meta _ _ HW)|lia|lia|done|].
  pose proof (commit_tiles w m f s HW Hf Hst) as Htiles.
  assert (Hlog : (rowToRecord <$> journal (commitSegment f (s_last_seq s) (store w))) ∪ log w = log w).
  { apply map_eq. intros k. destruct ((rowToRecord <$> journal (commitSegment f (s_last_seq s) (store w))) !! k) as [r|] eqn:E.
    - rw (lookup_union_Some_l _ _ _ _ E). rw lookup_fmap in E. apply fmap_Some in E as (row & Hrow & ->).
      rw commit_journal in Hrow. apply map_lookup_filter_Some in Hrow as [Hrow _].
      symmetry. by apply (wi_log _ _ HW).
    - by rw lookup_union_r. }
  assert (Hnone : NoneUploading (commitSegment f (s_last_seq s) (store w))).
  { intros k s2. rw commit_segments. destruct (decide (k = f)) as [->|Hne].
    - rw lookup_alter_eq Hf. intros [= <-]. by destruct s.
    - rw lookup_alter_ne //. intros Hk. destruct (s_state s2) eqn:E; [|done].
      destruct (wi_uploading _ _ HW _ _ Hk E) as [Hk' _]. rw (wi_keyed _ _ HW _ _ Hk) in Hk'. congruence. }
  pose proof (WInv_put _ body w m HW HG) as HWp.
  assert (Hrow : ∀ k s2, segments (commitSegment f (s_last_seq s) (store w)) !! k = Some s2 →
    ∃ s1, segments (store w) !! k = Some s1 ∧ s_first_seq s2 = s_first_seq s1 ∧
      s_last_seq s2 = s_last_seq s1 ∧ s_r2_key s2 = s_r2_key s1 ∧ (s1 = s2 ∨ k = f)).
  { intros k s2. rw commit_segments. destruct (decide (k = f)) as [->|Hne].
    - rw lookup_alter_eq. intros (s1 & H1 & ->)%fmap_Some. exists s1. split; [done|]. by destruct s1; auto.
    - rw lookup_alter_ne //. intros Hk. exists s2. by auto 10. }
  split; simpl.
  - done.
  - done.
  - rw commit_segments. destruct m; exact Htiles.
  - intros k s2 (s1 & H1 & -> & _)%Hrow. by apply (wi_keyed _ _ HW).
  - intros k s2 (s1 & H1 & -> & -> & -> & _)%Hrow. by eapply (wi_segkey _ _ HW).
  - intros k s2 Hk Hu. by rw (Hnone _ _ Hk) in Hu.
  - intros k s2 (s1 & H1 & Ef & El & Ek & Hor)%Hrow _.
    assert (HA : Archived (put (s_r2_key s) body w) s1).
    { destruct Hor as [-> | ->].
      - destruct (s_state s2) eqn:E2; [|by eapply (wi_archived _ _ HWp)].
        destruct (wi_uploading _ _ HW _ _ H1 E2) as [Hk _].
        rw (wi_keyed _ _ HW _ _ H1) in Hk. assert (k = f) as -> by congruence.
        simplify_eq. rw Hp in HG. apply GoodPut_segment in HG as (h & rows & -> & HB); [|lia..].
        exists h, rows. simpl. by rw lookup_insert_eq.
      - simplify_eq. rw Hp in HG. apply GoodPut_segment in HG as (h & rows & -> & HB); [|lia..].
        exists h, rows. simpl. by rw lookup_insert_eq. }
    destruct HA as (h & rows & Hb & HB). exists h, rows. unfold Archived in *. simpl in *.
    rw Ek Ef El. split; [done|]. by rw Hlog.
  - rw Hlog. unfold puts. simpl. assert (inFlight s' = []) as -> by (by destruct Hs' as [->|[now ->]]).
    pose proof (wi_puts _ _ HW) as HP. unfold puts in HP. by apply Forall_app in HP as [_ ?].
  - intros k. rw Hlog (wi_dom _ _ HW). by destruct m.
  - intros k row Hk. apply lookup_union_Some_raw. left. by rw lookup_fmap Hk.
  - unfold StageOk. simpl. by destruct Hs' as [->|[now ->]].
  - apply (wi_waiting _ _ HW).
Qed.

(** *** The other steps *)

Lemma log_same w m st' :
  WInv w m → journal st' = journal (store w) → (rowToRecord <$> journal st') ∪ log w = log w.
Proof.
  intros HW ->. apply map_eq. intros k.
  destruct ((rowToRecord <$> journal (store w)) !! k) as [r|] eqn:E.
  - rw (lookup_union_Some_l _ _ _ _ E). rw lookup_fmap in E. apply fmap_Some in E as (row & Hrow & ->).
    symmetry. by apply (wi_log _ _ HW).
  - by rw lookup_union_r.
Qed.

(** A write to a table the invariant does not read. *)
Lemma WInv_same w m st' :
  WInv w m → meta_table st' = meta_table (store w) → journal st' = journal (store w) →
  segments st' = segments (store w) → WInv (withStore st' w) m.
Proof.
  intros HW Hm Hj Hs. pose proof (log_same w m st' HW Hj) as Hlog.
  destruct HW as [HI Hmt Ht Hk Hsk Hu Ha Hp Hd Hl Hst Hwait].
  split; simpl; rw ?Hlog ?Hs ?Hm ?Hj; try done.
  - unfold Inv. by rw Hm Hj.
  - intros k s Hks Hc. destruct (Ha k s Hks Hc) as (h & rows & ? & ?).
    exists h, rows. simpl. by rw Hlog.
  - unfold StageOk, NoneUploading in *. simpl. by rw Hs.
Qed.

Lemma uploadRows_Body w m f l :
  WInv w m → hot_min_seq m ≤ f → l < next_seq m → Body (log w) f l (uploadRows f l (store w)).
Proof.
  intros HW Hf Hl.
  rw (uploadRows_spec _ m (wi_inv _ _ HW) (wi_meta _ _ HW) f l Hf Hl). split.
  - apply (selectAsc_inRange m); [apply (wi_inv _ _ HW)|apply (wi_meta _ _ HW)|done..].
  - intros row Hrow. apply (wi_log _ _ HW).
    exact (selected_lookup _ (wi_inv _ _ HW) _ _ Hrow).
Qed.

Lemma puts_Forall w m s :
  WInv w m → Forall (GoodPut (log w)) (inFlight s) → Forall (GoodPut (log w)) (puts (withStage s w)).
Proof.
  intros HW Hs. unfold puts. simpl. apply Forall_app. split; [done|].
  pose proof (wi_puts _ _ HW) as HP. unfold puts in HP. by apply Forall_app in HP as [_ ?].
Qed.

Lemma WInv_stage w m s :
  WInv w m → Forall (GoodPut (log w)) (inFlight s) → StageOk (withStage s w) m →
  WInv (withStage s w) m.
Proof.
  intros HW Hs HS. pose proof (puts_Forall w m s HW Hs).
  destruct HW as [HI Hm Ht Hk Hsk Hu Ha Hp Hd Hl Hst Hwait]. by split.
Qed.

Lemma pendingSegment_spec st :
  match pendingSegment st with
  | Some p => s_state p = uploading ∧ ∃ k, segments st !! k = Some p
  | None => NoneUploading st
  end.
Proof.
  unfold pendingSegment. destruct (selectAsc _ _) as [|p rest] eqn:E; simpl.
  - intros k s Hk. destruct (s_state s) eqn:Hs; [|done].
    assert (Hin : s ∈ selectAsc (λ s, bool_decide (s_state s = uploading)) (segments st))
      by (apply elem_of_selectAsc; split; [by apply bool_decide_eq_true|eauto]).
    rw E in Hin. by apply not_elem_of_nil in Hin.
  - assert (Hin : p ∈ selectAsc (λ s, bool_decide (s_state s = uploading)) (segments st)) by (rw E; left).
    apply elem_of_selectAsc in Hin as [Hp Hk]. by apply bool_decide_eq_true in Hp.
Qed.

Lemma maybeRollover_WInv now w m : WInv w m → WInv (maybeRollover now w) m.
Proof.
  intros HW. unfold maybeRollover. destruct (fenced w); [done|].
  pose proof (pendingSegment_spec (store w)) as Hp.
  destruct (pendingSegment (store w)) as [p|].
  - destruct Hp as (Hu & k & Hk). pose proof (wi_keyed _ _ HW _ _ Hk) as Hkey.
    destruct (wi_segkey _ _ HW _ _ Hk) as [Hle [pr Hpr]].
    destruct (wi_uploading _ _ HW _ _ Hk Hu) as [Hhot Hlast].
    apply WInv_stage; [done| |unfold StageOk; simpl; by rw Hkey].
    apply Forall_singleton. exists pr, (s_first_seq p), (s_last_seq p).
    split; [done|]. split; [done|]. apply (uploadRows_Body w m); [done|lia|done].
  - by apply WInv_stage; [|constructor|].
Qed.

Lemma afterPending_WInv now n w m :
  WInv w m → NoneUploading (store w) → WInv (afterPending now n w) m.
Proof.
  intros HW Hn. unfold afterPending.
  assert (HIdle : WInv (withStage Idle w) m) by (by apply WInv_stage; [|constructor|]).
  destruct (fenced w); [done|]. destruct (rolloverTargets _ _) as [[tr tb]|]; [|done].
  destruct (resolveCut tr tb (store w)) as [c|]; [|done].
  apply WInv_stage; [done|constructor|]. simpl. split; [done|].
  by rw (meta_Some _ _ (wi_meta _ _ HW)).
Qed.

Lemma insert_fresh w m row :
  WInv w m → NoneUploading (store w) → s_first_seq row = hot_min_seq m →
  segments (insertSegment row (store w)) = <[hot_min_seq m := row]> (segments (store w)) ∧
  segments (store w) !! hot_min_seq m = None.
Proof.
  intros HW Hn Hf.
  assert (Hnone : segments (store w) !! hot_min_seq m = None).
  { destruct (segments (store w) !! hot_min_seq m) as [s|] eqn:E; [|done].
    pose proof (committed_before _ _ _ _ HW E (Hn _ _ E)). lia. }
  split; [|done]. unfold insertSegment. rw Hf Hnone. by destruct (store w).
Qed.

Lemma WInv_insert w m row key body :
  WInv w m → NoneUploading (store w) → s_first_seq row = hot_min_seq m →
  s_state row = uploading → hot_min_seq m ≤ s_last_seq row < next_seq m →
  s_r2_key row = key → (∃ p, key = segmentKey p (hot_min_seq m) (s_last_seq row)) →
  GoodPut (log w) (key, body) →
  WInv (withStage (UploadingSegment (hot_min_seq m) (s_last_seq row) key body)
          (withStore (insertSegment row (store w)) w)) m.
Proof.
  intros HW Hn Hf Hst Hlast Hkey [p Hp] HG.
  destruct (insert_fresh w m row HW Hn Hf) as [Hseg Hnone].
  assert (Hm : meta_table (insertSegment row (store w)) = meta_table (store w)) by by destruct (store w).
  assert (Hj : journal (insertSegment row (store w)) = journal (store w)) by by destruct (store w).
  pose proof (log_same w m _ HW Hj) as Hlog.
  pose proof (puts_Forall w m (UploadingSegment (hot_min_seq m) (s_last_seq row) key body) HW) as HP.
  destruct (wi_inv _ _ HW) as (HD & _). rw (wi_meta _ _ HW) in HD. destruct HD as [Hle _].
  split; simpl; rw ?Hlog ?Hm ?Hj; try apply HW.
  - unfold Inv. rw Hm Hj. apply HW.
  - rw Hseg selectAsc_insert_last.
    { intros k s Hk. by eapply committed_before, Hn. }
    assert (isCommittedRow row = false) as -> by (unfold isCommittedRow; by rw Hst).
    rw app_nil_r. apply HW.
  - rw Hseg. intros k s [[<- <-]|[_ Hk]]%lookup_insert_Some; [done|]. by apply (wi_keyed _ _ HW).
  - rw Hseg. intros k s [[<- <-]|[_ Hk]]%lookup_insert_Some; [|by eapply (wi_segkey _ _ HW)].
    rw Hf. split; [lia|]. exists p. congruence.
  - rw Hseg. intros k s [[<- <-]|[_ Hk]]%lookup_insert_Some Hu; [split; [done|lia]|].
    by eapply (wi_uploading _ _ HW).
  - rw Hseg. intros k s [[<- <-]|[_ Hk]]%lookup_insert_Some Hc; [congruence|].
    destruct (wi_archived _ _ HW _ _ Hk Hc) as (h & rows & ? & ?).
    exists h, rows. simpl. by rw Hlog.
  - apply HP. by apply Forall_singleton.
  - unfold StageOk. simpl. exists row. rw Hseg lookup_insert_eq. done.
Qed.

Lemma uploadRows_same st st' f l :
  journal st' = journal st → uploadRows f l st' = uploadRows f l st.
Proof.
  intros Hj. unfold uploadRows. rw Hj. generalize (S (size (journal st))) as n. intros n.
  revert f; induction n as [|n IH]; intros f; simpl; [done|]. unfold rowsForArchive. rw Hj.
  destruct (last _); [|done]. by rw IH.
Qed.

Lemma recordSpill_fields key n now st :
  meta_table (recordSpill key n now st) = meta_table st ∧
  journal (recordSpill key n now st) = journal st ∧
  segments (recordSpill key n now st) = segments st.
Proof. unfold recordSpill. destruct (String.eqb key ""); [done|]. by destruct st. Qed.

Section exec.
Context (sha256Hex : string → string).
#[local] Notation exec := (exec sha256Hex).
#[local] Notation run := (run sha256Hex).

Lemma afterPrefix_WInv snapshot c now w m :
  WInv w m → NoneUploading (store w) → hot_min_seq snapshot = hot_min_seq m →
  WInv (afterPrefix sha256Hex snapshot c now w) m.
Proof.
  intros HW Hn Hs. unfold afterPrefix.
  assert (HIdle : WInv (withStage Idle w) m) by (by apply WInv_stage; [|constructor|]).
  destruct (prefix sha256Hex (meta (store w))) as [p|]; [|done].
  destruct (fenced w); [done|].
  destruct (chooseSegment (hot_min_seq snapshot) c (store w)) as [[[l count] total]|] eqn:E; [|done].
  rw Hs in E |- *.
  destruct (chooseSegment_spec (store w) m (wi_inv _ _ HW) (wi_meta _ _ HW) _ _ _ _ _ E)
    as ([Hfl _] & _ & Hl).
  set (row := Build_SegmentRow _ _ _ _ _ _ _).
  apply (WInv_insert w m row (segmentKey p (hot_min_seq m) l)); try done; [by eexists|].
  exists p, (hot_min_seq m), l. split; [done|].
  destruct (wi_inv _ _ HW) as (HD & _). rw (wi_meta _ _ HW) in HD. destruct HD as [Hle _].
  split; [simpl; lia|].
  assert (uploadRows (hot_min_seq m) l (insertSegment row (store w)) =
          uploadRows (hot_min_seq m) l (store w)) as ->.
  { apply uploadRows_same. by destruct (store w). }
  by apply (uploadRows_Body w m).
Qed.

Lemma spillKey_GoodPut lg p k t : GoodPut lg (spillKey sha256Hex p k, SpillObject t).
Proof. by eexists p, _. Qed.

Lemma puts_spl w m spl str :
  WInv w m → Forall (GoodPut (log w)) ((spillPut <$> spl) ++ str) →
  WInv (withSpilling spl (withStragglers str w)) m.
Proof.
  intros HW HF. pose proof (wi_puts _ _ HW) as HP. unfold puts in HP.
  apply Forall_app in HP as [Hin _]. destruct HW as [HI Hm Ht Hk Hsk Hu Ha Hp Hd Hl Hst Hwait].
  split; try done. unfold puts. simpl. by apply Forall_app.
Qed.

(** Every event keeps the invariant, as long as no rollover begins beside another one. *)
Lemma exec_WInv w e m : WInv w m → alone sha256Hex w [e] = true → ∃ m', WInv (exec w e) m'.
Proof.
  intros HW Halone. simpl in Halone. rw andb_true_r in Halone. pose proof (wi_puts _ _ HW) as HP. unfold puts in HP.
  pose proof HP as HPs. apply Forall_app in HPs as [Hfly [Hspl Hstr]%Forall_app].
  destruct e as [o|now|j|n| |k t|i now|i|i| |]; simpl.
  - eapply WInv_Grows; [done|apply journalStep_Grows].
  - exists m. apply maybeRollover_WInv. unfold park. destruct (stage w) eqn:Hst, (waiting w) eqn:Hwt; try done.
    simpl. replace (withStage Idle (withWaiting [] w)) with w; [done|]. destruct w; simpl in *; by subst.
  - exists m. unfold focus. by rw (wi_waiting _ _ HW).
  - pose proof (wi_stage _ _ HW) as HS. unfold StageOk in HS.
    destruct (stage w) as [|p body now|now|snapshot c now|f l key body]; [eauto|..].
    + destruct HS as [Hseg Hu]. eexists. eapply WInv_commit; [done..| |by eauto].
      exact (List.Forall_inv Hfly).
    + exists m. by apply afterPending_WInv.
    + exists m. destruct HS. by apply afterPrefix_WInv.
    + destruct HS as (s & Hseg & Hu & <- & <-). eexists. eapply WInv_commit; [done..| |by left].
      exact (List.Forall_inv Hfly).
  - exists m. apply (WInv_puts w m Idle (spilling w)); [done| |done]. simpl.
    rw (assoc_L (++)) in HP |- *. by apply Forall_app; split; [|apply Forall_app].
  - exists m. destruct (fenced w); [done|]. destruct (prefix _ _) as [p|]; [|done].
    apply (puts_spl w m _ (stragglers w) HW). rw fmap_app. simpl.
    apply Forall_app. split; [|done]. apply Forall_app. split; [done|].
    apply Forall_singleton. apply spillKey_GoodPut.
  - destruct (spilling w !! i) as [[key t]|] eqn:E; [|eauto]. exists m.
    assert (HG : GoodPut (log w) (key, SpillObject t)).
    { rw Forall_fmap in Hspl. exact (Forall_lookup_1 _ _ _ _ Hspl E). }
    destruct (recordSpill_fields key (textBytes t) now (store w)) as (Hm & Hj & Hs).
    set (w1 := withStore _ _).
    assert (HW1 : WInv w1 m) by (apply WInv_same; [by apply WInv_put|done..]).
    assert (Hlog : log w1 = log w) by (apply (log_same w m _ HW Hj)).
    apply (puts_spl w1 m _ (stragglers w1) HW1). rw Hlog.
    apply Forall_app. split; [|done]. rw list_fmap_delete. by apply Forall_delete.
  - destruct (spilling w !! i) as [s|] eqn:E; [|eauto]. exists m.
    apply (puts_spl w m _ _ HW). apply Forall_app. split; [rw list_fmap_delete; by apply Forall_delete|].
    constructor; [|done]. rw Forall_fmap in Hspl. exact (Forall_lookup_1 _ _ _ _ Hspl E).
  - destruct (stragglers w !! i) as [[key body]|] eqn:E; [|eauto]. exists m.
    pose proof (Forall_lookup_1 _ _ _ _ Hstr E) as HG.
    change (WInv (withSpilling (spilling w) (withStragglers (delete i (stragglers w))
      (put key body w))) m).
    apply puts_spl; [by apply WInv_put|].
    apply Forall_app. split; [done|by apply Forall_delete].
  - exists m. by destruct HW; split.
  - exists m. rw (wi_waiting _ _ HW). assert (HW' : WInv (withStage Idle (withSpilling []
      (withStragglers (inFlight (stage w) ++ (spillPut <$> spilling w) ++ stragglers w) w))) m)
      by (by apply WInv_puts).
    pose proof (wi_waiting _ _ HW). by destruct HW'; split.
Qed.

Lemma freshWorld_WInv : ∃ m, WInv freshWorld m.
Proof.
  exists (freshMeta 1). split; try done.
  - apply ex_db_Inv.
  - intros k. simpl. rw lookup_empty. split; [by intros [? ?]|lia].
Qed.

Lemma alone_cons w e events : alone sha256Hex w (e :: events) = alone sha256Hex w [e] && alone sha256Hex (exec w e) events.
Proof. simpl. by rw andb_true_r. Qed.

Lemma alone_app w events more :
  alone sha256Hex w (events ++ more) = alone sha256Hex w events && alone sha256Hex (run w events) more.
Proof.
  revert w. induction events as [|e events IH]; intros w; [done|]. cbn [app]. rw alone_cons (alone_cons w e events) IH. simpl.
  by rw andb_assoc.
Qed.

Lemma run_WInv w events m : WInv w m → alone sha256Hex w events = true → ∃ m', WInv (run w events) m'.
Proof.
  revert w m; induction events as [|e events IH]; intros w m HW; [eauto|]. rw alone_cons. intros [He Hevents]%andb_true_iff.
  destruct (exec_WInv w e m HW He) as [m' HW']. by apply (IH _ m').
Qed.
End exec.

(** ** No record is lost *)

Lemma tiles_cover lo hi l k :
  tiles lo hi l → lo ≤ k < hi → ∃ s, s ∈ l ∧ s_first_seq s ≤ k ≤ s_last_seq s.
Proof.
  revert lo; induction l as [|s l IH]; intros lo; simpl; [lia|].
  intros (<- & Hle & Ht) Hk. destruct (decide (k ≤ s_last_seq s)).
  - exists s. split; [left|lia].
  - destruct (IH _ Ht) as (s' & ? & ?); [lia|]. exists s'. split; [by right|done].
Qed.

Lemma Grows_log st' w m : WInv w m → Grows (store w) st' → log w ⊆ log (withStore st' w).
Proof.
  intros HW HG. destruct (HG m (wi_inv _ _ HW) (wi_meta _ _ HW))
    as (HI' & _ & _ & (m' & Hm' & Hh & _) & Hkeep).
  apply log_extends; [apply (wi_log _ _ HW)|].
  intros k row [?|[? ?]]%(withStore_log_new st' w m m' HW HI' Hm' Hh Hkeep); [by left|by right].
Qed.

Lemma sub_log st' w m : WInv w m → journal st' ⊆ journal (store w) → log w ⊆ log (withStore st' w).
Proof.
  intros HW Hj. apply log_extends; [apply (wi_log _ _ HW)|].
  intros k row Hrow. left. apply (wi_log _ _ HW). by eapply lookup_weaken.
Qed.

(** A record, once in the journal, is never another one. *)
Lemma exec_log sha256Hex w e m : WInv w m → log w ⊆ log (exec sha256Hex w e).
Proof.
  intros HW. destruct e as [o|now|j|n| |k t|i now|i|i| |]; simpl; try done.
  - by eapply Grows_log, journalStep_Grows.
  - unfold maybeRollover. destruct (fenced _); [done|]. by destruct (pendingSegment _).
  - unfold focus. by destruct (waiting w !! j).
  - destruct (stage w) as [|p body now|now|snapshot c now|f l key body]; simpl; [done|..].
    + apply (sub_log _ w m HW). rw commit_journal. apply map_filter_subseteq.
    + unfold afterPending. destruct (fenced w); [done|].
      destruct (rolloverTargets _ _) as [[? ?]|]; [|done]. by destruct (resolveCut _ _ _).
    + unfold afterPrefix. destruct (prefix _ _); [|done]. destruct (fenced w); [done|].
      destruct (chooseSegment _ _ _) as [[[? ?] ?]|]; [|done]. apply (sub_log _ w m HW).
      by destruct (store w).
    + apply (sub_log _ w m HW). rw commit_journal. apply map_filter_subseteq.
  - destruct (fenced w); [done|]. by destruct (prefix _ _).
  - destruct (spilling w !! i) as [[key t]|]; [|done]. apply (sub_log _ w m HW).
    by destruct (recordSpill_fields key (textBytes t) now (store w)) as (_ & -> & _).
  - by destruct (spilling w !! i).
  - by destruct (stragglers w !! i) as [[? ?]|].
Qed.

Lemma run_log sha256Hex w events m : WInv w m → alone sha256Hex w events = true → log w ⊆ log (run sha256Hex w events).
Proof.
  revert w m; induction events as [|e events IH]; intros w m HW; [done|]. rw alone_cons. intros [He Hevents]%andb_true_iff.
  destruct (exec_WInv sha256Hex w e m HW He) as [m' HW'].
  etrans; [by eapply exec_log|]. by eapply IH.
Qed.

Lemma tiles_from lo hi l s : tiles lo hi l → s ∈ l → lo ≤ s_first_seq s.
Proof.
  revert lo; induction l as [|s' l IH]; intros lo; simpl; [by intros _ ?%not_elem_of_nil|].
  intros (<- & Hle & Ht) [->|Hin]%elem_of_cons; [done|]. specialize (IH _ Ht Hin). lia.
Qed.

(** Tiles do not overlap. *)
Lemma tiles_unique lo hi l k s s' :
  tiles lo hi l → s ∈ l → s' ∈ l → s_first_seq s ≤ k ≤ s_last_seq s → s_first_seq s' ≤ k ≤ s_last_seq s' → s = s'.
Proof.
  revert lo; induction l as [|s0 l IH]; intros lo; simpl; [by intros _ ?%not_elem_of_nil|].
  intros (<- & Hle & Ht) [->|Hin]%elem_of_cons [->|Hin']%elem_of_cons Hk Hk'; [done|..|by eapply IH].
  - pose proof (tiles_from _ _ _ _ Ht Hin'). lia.
  - pose proof (tiles_from _ _ _ _ Ht Hin). lia.
Qed.

(** Where a record of a world is found: among the resident rows, or in the object of the one committed
    segment that covers its number. *)
Definition Held (w : world) (m : MetaRow) (k : Z) (r : JournalRecord) : Prop :=
  if hot_min_seq m <=? k then ∃ row, journal (store w) !! k = Some row ∧ rowToRecord row = r
  else ∃ s h rows row, segments (store w) !! s_first_seq s = Some s ∧ s_state s = committed ∧
    s_first_seq s ≤ k ≤ s_last_seq s ∧ bucket w !! s_r2_key s = Some (SegmentObject h rows) ∧
    row ∈ rows ∧ seq row = k ∧ rowToRecord row = r ∧
    ∀ f s', segments (store w) !! f = Some s' → s_state s' = committed → s_first_seq s' ≤ k ≤ s_last_seq s' → s' = s.

Lemma WInv_Held w m k r : WInv w m → log w !! k = Some r → Held w m k r.
Proof.
  intros HW Hr. assert (Hk : is_Some (log w !! k)) by eauto. apply (wi_dom _ _ HW) in Hk.
  unfold Held. destruct (hot_min_seq m <=? k) eqn:E; bool_to_prop.
  - destruct (wi_inv _ _ HW) as (HD & _). rw (wi_meta _ _ HW) in HD. destruct HD as [_ HD].
    destruct (proj2 (HD k)) as [row Hrow]; [lia|]. exists row. split; [done|].
    rw (wi_log _ _ HW _ _ Hrow) in Hr. congruence.
  - destruct (tiles_cover 0 (hot_min_seq m) _ k (wi_tiles _ _ HW)) as (s & Hs & Hks); [lia|].
    apply elem_of_selectAsc in Hs as [Hc (k' & Hk')]. apply bool_decide_eq_true in Hc.
    destruct (wi_archived _ _ HW _ _ Hk' Hc) as (h & rows & Hb & Hseqs & Hlog).
    assert (Hin : k ∈ seq <$> rows) by (rw Hseqs; apply elem_of_seqZ; lia).
    apply list_elem_of_fmap in Hin as (row & -> & Hrow).
    exists s, h, rows, row. split; [by rw (wi_keyed _ _ HW _ _ Hk')|].
    do 5 (split; [done|]). split; [rw (Hlog _ Hrow) in Hr; congruence|]. intros f s' Hf Hc' Hks'.
    eapply (tiles_unique _ _ _ (seq row)); [apply (wi_tiles _ _ HW)|..|exact Hks'|exact Hks]; apply elem_of_selectAsc.
    + split; [by apply bool_decide_eq_true|by eexists].
    + split; [by apply bool_decide_eq_true|by eexists].
Qed.

(** C1: No record is ever lost.  From a fresh conversation, through any sequence of
    journal operations, rollovers that do not overlap ([alone]; the code does not keep them
    apart, and [overlapping_rollovers_lose_records] shows what happens then), uploads that
    succeed, fail, time out or land late, spills, and evictions at any suspension point, the
    numbers below the head are exactly those that were given a record, no record ever changes,
    and each one is still held: as a resident row from the floor on, and below it inside the R2
    object that the committed manifest row that covers it names; there is exactly one. *)
Theorem no_record_is_lost sha256Hex events more :
  alone sha256Hex freshWorld (events ++ more) = true →
  let w := run sha256Hex freshWorld events in
  let w' := run sha256Hex w more in
  ∃ m', meta_table (store w') = Some m' ∧ Inv (store w') ∧ log w ⊆ log w' ∧
    (∀ k, is_Some (log w' !! k) ↔ 0 ≤ k < next_seq m') ∧
    (∀ k row, journal (store w) !! k = Some row → log w !! k = Some (rowToRecord row)) ∧
    ∀ k r, log w' !! k = Some r → Held w' m' k r.
Proof.
  rw alone_app. intros [Hevents Hmore]%andb_true_iff w w'. destruct freshWorld_WInv as [m0 H0].
  destruct (run_WInv sha256Hex freshWorld events m0 H0 Hevents) as [m HW]. fold w in HW.
  destruct (run_WInv sha256Hex w more m HW Hmore) as [m' HW']. fold w' in HW'.
  exists m'. split; [apply HW'|]. split; [apply HW'|]. split; [by eapply run_log|].
  split; [apply HW'|]. split; [apply HW|]. intros k r. by apply WInv_Held.
Qed.

(** ** A cut is legal *)

Lemma cutCandidates_spec st ceiling best cs c :
  (fix go (best : option Z) (candidates : list Z) :=
     match candidates with
     | [] => best
     | c :: rest =>
         if ceiling <? c then best else go (if isCutBoundary c st then Some c else best) rest
     end) best cs = Some c →
  best = Some c ∨ c ∈ cs ∧ c ≤ ceiling ∧ isCutBoundary c st = true.
Proof.
  revert best; induction cs as [|x cs IH]; intros best; [by left|].
  destruct (ceiling <? x) eqn:E; bool_to_prop; [by left|].
  intros [Hb|(Hin & ? & ?)]%IH; [|right; split; [by right|done]].
  destruct (isCutBoundary x st) eqn:Hx; [|by left]. simplify_eq. right. by split; [left|].
Qed.

Lemma terminalTurnBoundaries_spec n st c :
  c ∈ terminalTurnBoundaries n st → ∃ t, t ∈ turns st ∧ t_state t = terminal ∧ t_last_seq t = Some c.
Proof.
  intros Hin%elem_of_limit. rw merge_sort_Permutation in Hin.
  apply list_elem_of_omap in Hin as (t & Ht & Hc). exists t. unfold isTerminal in Hc.
  destruct (bool_decide _) eqn:E; [|done]. by bool_to_prop.
Qed.

Lemma user_record row : 
  (∃ s t c h si ci p, rowToRecord row = MessageRecord s t c user h si ci p) ↔
  kind row = message ∧ role row = Some user.
Proof.
  unfold rowToRecord. split.
  - intros (s & t & c & h & si & ci & p & Heq). destruct (kind row); try done. split; [done|].
    injection Heq as _ _ _ Hr _ _ _ _. by destruct (role row); simpl in *; congruence.
  - intros [-> ->]. by repeat eexists.
Qed.

(** A cut is legal and leaves a clean window.  The sequence number rollover settles
    on ends a turn that reached a terminal state, is no further than residency asked
    for, and lies strictly below the context the latest turn started from; the segment
    chosen for it starts at the resident floor and does not pass it; and once the
    segment commits, whatever was appended in between, the resident rows open on the
    user message that follows it. *)
Theorem cut_is_legal targetRows targetBytes st st' st'' m' cutSeq l count total :
  resolveCut targetRows targetBytes st = Some cutSeq →
  Inv st' → meta_table st' = Some m' →
  chooseSegment (hot_min_seq m') cutSeq st' = Some (l, count, total) → Grows st' st'' →
  (∃ t, t ∈ turns st ∧ t_state t = terminal ∧ t_last_seq t = Some cutSeq) ∧
  (∃ desired, desiredCutSeq targetRows targetBytes st = Some desired ∧ cutSeq ≤ desired) ∧
  (∀ ctx, latestTerminalTurn st ≫= t_ctx_start_seq = Some ctx → cutSeq < ctx) ∧
  hot_min_seq m' ≤ l ≤ cutSeq ∧
  ∃ row, journal (commitSegment (hot_min_seq m') l st'') !! (l + 1) = Some row ∧
    kind row = message ∧ role row = Some user ∧
    ∀ k, is_Some (journal (commitSegment (hot_min_seq m') l st'') !! k) → l < k.
Proof.
  intros Hres HI Hm Hseg HG. unfold resolveCut in Hres.
  destruct (desiredCutSeq targetRows targetBytes st) as [desired|] eqn:Hd; [|done].
  set (ceiling := match latestTerminalTurn st ≫= t_ctx_start_seq with
                  | Some ctx => _ | None => _ end) in Hres.
  destruct (ceiling <? 0); [done|].
  apply cutCandidates_spec in Hres as [|(Hin & Hle & Hb)]; [done|].
  destruct (chooseSegment_spec st' m' HI Hm _ _ _ _ _ Hseg) as (Hl & Hbl & Hnext).
  destruct (HG m' HI Hm) as (HI2 & _ & _ & (m2 & Hm2 & Hh2 & Hn2) & Hkeep).
  destruct (isCutBoundary_spec st' HI l Hbl) as (row & rest & Hsel & Hlt & Hrow & Hk & Hr).
  destruct (HI) as (HD & HR & _). rw Hm in HD. destruct HD as [Hle0 HD].
  assert (Hseq : seq row = l + 1).
  { assert (is_Some (journal st' !! seq row)) as Hs by eauto. apply HD in Hs.
    destruct (proj2 (HD (l + 1))) as [r1 Hr1]; [lia|].
    assert (Hin1 : r1 ∈ selectAsc (λ row, l <? seq row) (journal st')).
    { apply elem_of_selectAsc. rw (HR _ _ Hr1). split; [apply Z.ltb_lt; lia|eauto]. }
    pose proof (selectAsc_sorted seq (λ row, l <? seq row) (journal st') HR) as Hsort.
    rw Hsel in Hin1 Hsort. apply elem_of_cons in Hin1 as [->|Hin1]; [by apply HR|].
    apply StronglySorted_inv in Hsort as [_ Hall].
    pose proof (proj1 (Forall_forall _ _) Hall r1 Hin1) as Hlt1. simpl in Hlt1.
    rw (HR _ _ Hr1) in Hlt1. lia. }
  split; [by eapply terminalTurnBoundaries_spec|].
  split; [exists desired; split; [done|]; unfold ceiling in Hle; destruct (_ ≫= _); lia|].
  split; [intros ctx Hctx; unfold ceiling in Hle; rw Hctx in Hle; lia|]. split; [done|].
  destruct (Hkeep _ _ Hrow) as (row2 & Hrow2 & Hrec).
  assert (kind row2 = message ∧ role row2 = Some user) as [Hk2 Hr2].
  { apply user_record. rw Hrec. by apply user_record. }
  exists row2. rw commit_journal. rw Hseq in Hrow2.
  split; [|split; [done|split; [done|]]].
  - apply map_lookup_filter_Some. split; [done|]. unfold archivedBy. simpl.
    apply andb_false_iff. right. apply Z.leb_gt. lia.
  - intros k [r [Hkr Ha]%map_lookup_filter_Some]. unfold archivedBy in Ha. simpl in Ha.
    destruct HI2 as (HD2 & _). rw Hm2 in HD2. destruct HD2 as [_ HD2].
    assert (Hs : is_Some (journal st'' !! k)) by eauto. apply HD2 in Hs.
    apply andb_false_iff in Ha as [Ha%Z.leb_gt|Ha%Z.leb_gt]; lia.
Qed.

(** ** Examples *)

Definition ex_turn (turnId : string) : journalOp :=
  OpUpsertTurn {| u_turnId := turnId; u_sessionId := "session-1"; u_ownerId := "owner-1"; u_lane := None;
    u_source := None; u_clientMsgId := None; u_state := running; u_now := 1 |}.

(** One finished turn: a question and its answer. *)
Definition ex_history : list journalOp :=
  [OpBindOwner {| co_ownerId := "owner-1"; co_createdAt := 1; co_title := ""; co_conversationId := None |};
   OpSetConversationId "conversation-1"; ex_turn "turn-1";
   OpAppend (ex_message "a0" user [ex_text "question"]) 2; OpSetTurnSpan "turn-1" 0;
   OpAppend (ex_message "a1" assistant [ex_text "answer"]) 3; OpSetTurnSpan "turn-1" 1;
   OpSetTurnTerminal "turn-1" completed 4].

(** [n] messages of one role from number [s] on. *)
Definition ex_more (r : MessageRole) (s : Z) (n : Z) : list journalOp :=
  (λ k, OpAppend (ex_message ("u" +:+ pretty k) r [ex_text "more"]) 5) <$> seqZ s n.

Definition ex_turns : db := foldl (λ st o, journalStep o st) ex_db (ex_history ++ ex_more user 2 2).

Lemma journalSteps_Grows l st : Grows st (foldl (λ st o, journalStep o st) st l).
Proof.
  revert st. induction l as [|o l IH]; intros st; [done|]. simpl.
  etrans; [apply journalStep_Grows|apply IH].
Qed.

Lemma cut_is_legal_witness :
  ∃ m', (∃ t, t ∈ turns ex_turns ∧ t_state t = terminal ∧ t_last_seq t = Some 1) ∧
  (∃ desired, desiredCutSeq 1 0 ex_turns = Some desired ∧ 1 ≤ desired) ∧
  (∀ ctx, latestTerminalTurn ex_turns ≫= t_ctx_start_seq = Some ctx → 1 < ctx) ∧
  hot_min_seq m' ≤ 1 ≤ 1 ∧
  ∃ row, journal (commitSegment (hot_min_seq m') 1 ex_turns) !! 2 = Some row ∧
    kind row = message ∧ role row = Some user ∧
    ∀ k, is_Some (journal (commitSegment (hot_min_seq m') 1 ex_turns) !! k) → 1 < k.
Proof.
  exists (meta ex_turns).
  refine (cut_is_legal 1 0 ex_turns ex_turns ex_turns (meta ex_turns) 1 1 2 125 _ _ _ _ _);
    [by vm_compute| |by vm_compute|by vm_compute|done].
  destruct (journalSteps_Grows (ex_history ++ ex_more user 2 2) ex_db (freshMeta 1) ex_db_Inv eq_refl)
    as [H _]. exact H.
Defined.

(** A long turn followed by one more question: the batch stops inside the turn and the
    walk back leaves 500 rows, but the segment is recorded with the batch's 1000. *)
Definition ex_long : db :=
  foldl (λ st o, journalStep o st) ex_db
    (ex_more user 0 1 ++ ex_more assistant 1 499 ++ ex_more user 500 1 ++ ex_more assistant 501 600 ++
     ex_more user 1101 1).

Example cut_overstates_a_walked_back_segment :
  match chooseSegment 0 1100 ex_long with
  | Some (lastSeq, count, _) =>
      lastSeq = 499 ∧ count = 1000 ∧ Z.of_nat (length (uploadRows 0 lastSeq ex_long)) = 500
  | None => False
  end.
Proof. vm_compute. done. Qed.

(** A rollover of a large database, from its start to its commit. *)
Definition ex_pressure : list event := [Rollover 10; Resumed (600 * 1024 * 1024); Resumed 0; Resumed 0].
Definition ex_archived : list event := (Journaled <$> ex_history ++ ex_more user 2 205) ++ ex_pressure.

(** The same events but for the last, and an eviction instead. *)
Lemma no_record_is_lost_witness :
  alone (λ s, s) freshWorld (ex_archived ++ [Evicted]) = true ∧
  let w' := run (λ s, s) (run (λ s, s) freshWorld ex_archived) [Evicted] in
  ∃ m', meta_table (store w') = Some m' ∧ ∀ k r, log w' !! k = Some r → Held w' m' k r.
Proof.
  assert (Halone : alone (λ s, s) freshWorld (ex_archived ++ [Evicted]) = true) by (vm_compute; reflexivity).
  split; [exact Halone|]. destruct (no_record_is_lost (λ s, s) ex_archived [Evicted] Halone) as (m' & Hm' & _ & _ & _ & _ & Hheld).
  cbv zeta. exists m'. exact (conj Hm' Hheld).
Defined.

Definition ex_finished (turnId : string) (first last : Z) : list event :=
  Journaled <$> [ex_turn turnId; OpSetTurnSpan turnId first; OpSetTurnSpan turnId last; OpSetTurnTerminal turnId completed 6].

(** A cut is cut off by an eviction; two rollovers then finish it at once.  The first goes on to archive 2
    to 5, a turn ends, and the second records 2 to 9 in the same manifest row.  The upload of the first
    commits that row, and the upload of the second fails: records 2 to 5 are no longer resident, and the
    row names an object that does not exist. *)
Definition ex_overlap : list event :=
  (Journaled <$> ex_history ++ ex_more user 2 215) ++ [Rollover 10; Resumed (600 * 1024 * 1024); Resumed 0; Evicted]
  ++ ex_finished "turn-2" 2 5 ++ [Rollover 20; Rollover 21; Focused 0; Resumed 0; Resumed (600 * 1024 * 1024); Resumed 0]
  ++ ex_finished "turn-3" 6 9 ++ [Focused 0; Resumed 0; Resumed (600 * 1024 * 1024); Resumed 0; Focused 0; Resumed 0; Focused 0; Failed].

Example overlapping_rollovers_lose_records :
  let w := run (λ s, s) freshWorld ex_overlap in
  ((λ s, (s_last_seq s, s_state s, bucket w !! s_r2_key s)) <$> segments (store w) !! 2) = Some (9, committed, None)
  ∧ journal (store w) !! 2 = None ∧ (recordSeq <$> log w !! 2) = Some 2 ∧ hot_min_seq (meta (store w)) = 6 ∧ alone (λ s, s) freshWorld ex_overlap = false.
Proof. vm_compute. split_and!; reflexivity. Qed.
