(* ===== verification/ArchiveRead.v ===== *)
(** * Reading a range across the archive and the resident window

    [ConversationArchive.readRange]: the cold part of a range is read from R2 segments,
    the rest from SQLite.  The method reads the head and the manifest, awaits the
    segments, and then reads the resident rows, so it takes two worlds: the one it
    started in and the one its last await resumed in. *)

From Corelib Require Import ssreflect.
From stdpp Require Import prelude gmap strings sorting.
From S2P Require Import Prelude JsString Json SqlTable Journal JournalContext JournalManifest ObjectKeys Archive.

#[local] Open Scope Z_scope.

Record JournalRange := {
  records : list JournalRecord;
  complete : bool;
  missingBelowSeq : option Z;
}.

(** The rows of a segment object; a missing object reads as none. *)
Definition readSegment (b : gmap string object) (s : SegmentRow) : list JournalRow :=
  match b !! s_r2_key s with
  | Some (SegmentObject _ rows) => rows
  | _ => []
  end.

(** The inner loop over a segment's rows: [n] is [records.length]. *)
Fixpoint coldRows (maxRecords coldEnd n cursor : Z) (rows : list JournalRow)
    : list JournalRecord * Z :=
  match rows with
  | [] => ([], cursor)
  | row :: rows' =>
      if (seq row <? cursor) || (coldEnd <? seq row) then coldRows maxRecords coldEnd n cursor rows'
      else if maxRecords <=? n then ([], cursor)
      else
        let '(rs, cursor') := coldRows maxRecords coldEnd (n + 1) (seq row + 1) rows' in
        (rowToRecord row :: rs, cursor')
  end.

(** The loop over the segments. *)
Fixpoint coldSegments (b : gmap string object) (maxRecords coldEnd n cursor : Z)
    (segs : list SegmentRow) : list JournalRecord * Z :=
  match segs with
  | [] => ([], cursor)
  | s :: segs' =>
      if maxRecords <=? n then ([], cursor)
      else
        let '(rs, cursor') := coldRows maxRecords coldEnd n cursor (readSegment b s) in
        let '(rs', cursor'') :=
          coldSegments b maxRecords coldEnd (n + Z.of_nat (length rs)) cursor' segs' in
        (rs ++ rs', cursor'')
  end.

(** The part of [readRange] before its last await: the records so far, the cursor and
    the first number that can be served, when the range starts below it. *)
Definition readCold (w : world) (start finish maxRecords : Z) : list JournalRecord * Z * option Z :=
  let h := head (store w) in
  if start <? h_windowStartSeq h then
    let coldEnd := Z.min finish (h_windowStartSeq h - 1) in
    let segs := segmentsCovering start coldEnd MAX_SEGMENTS_PER_READ (store w) in
    let lowestCovered := s_first_seq <$> hd_error segs in
    let '(cursor, missing) :=
      match lowestCovered with
      | Some lowest => if start <? lowest then (lowest, Some lowest) else (start, None)
      | None => (h_windowStartSeq h, Some (h_windowStartSeq h))
      end in
    let '(rs, cursor) := coldSegments (bucket w) maxRecords coldEnd 0 cursor segs in
    (rs, cursor, missing)
  else ([], start, None).

Definition readRange (w w' : world) (fromSeq toSeq limit : Z) : JournalRange :=
  let h := head (store w) in
  let start := Z.max 0 fromSeq in
  let finish := Z.min toSeq (h_headSeq h) in
  if finish <? start then {| records := []; complete := true; missingBelowSeq := None |}
  else
    let maxRecords := Z.min limit BACKFILL_BATCH_RECORDS in
    let '(rs, cursor, missing) := readCold w start finish maxRecords in
    let n := Z.of_nat (length rs) in
    if (start <? h_windowStartSeq h) && (cursor <=? Z.min finish (h_windowStartSeq h - 1)) then
      {| records := rs; complete := false; missingBelowSeq := missing |}
    else if (n <? maxRecords) && (cursor <=? finish) then
      let '(resident, residentComplete) :=
        readResident (Z.max cursor (h_windowStartSeq h)) finish (maxRecords - n) BACKFILL_BATCH_BYTES
          (store w') in
      {| records := rs ++ resident; complete := residentComplete; missingBelowSeq := missing |}
    else {| records := rs; complete := negb (cursor <=? finish); missingBelowSeq := missing |}.

(** ** The segments of a range *)

Definition inTiles (c e : Z) (s : SegmentRow) : bool := (c <=? s_last_seq s) && (s_first_seq s <=? e).

(** From a tile on, the selected segments are a prefix of the tiling past [e]. *)
Lemma tiles_filter_from c e lo hi l :
  tiles lo hi l → c ≤ lo → e < hi →
  ∃ b, tiles lo b (filter (λ s, inTiles c e s = true) l) ∧ e < b.
Proof.
  revert lo; induction l as [|s l IH]; intros lo; simpl; [intros -> ? ?; by exists hi|].
  intros (Hf & Hle & Ht) Hc He. destruct (decide (lo ≤ e)) as [Hin|Hout].
  - destruct (IH _ Ht) as (b & Hb & ?); [lia|done|]. exists b. split; [|done].
    rw filter_cons_True; [|done]. unfold inTiles. apply andb_true_iff. rw !Z.leb_le. lia.
  - exists lo. split; [|lia]. rw filter_none; [|done].
    assert (Hge : ∀ l lo, tiles lo hi l → ∀ s, s ∈ l → lo ≤ s_first_seq s).
    { clear. induction l as [|s l IH]; intros lo; simpl; [by intros _ ? ?%not_elem_of_nil|].
      intros (<- & Hle & Ht) s' [->|Hin]%elem_of_cons; [done|]. specialize (IH _ Ht _ Hin). lia. }
    intros s' Hs'. unfold inTiles. rw andb_true_iff !Z.leb_le.
    assert (Htl : tiles lo hi (s :: l)) by done. specialize (Hge _ _ Htl _ Hs'). lia.
Qed.

Lemma tiles_filter c e lo hi l :
  tiles lo hi l → lo ≤ c ≤ e → e < hi →
  ∃ a b s rest, filter (λ s, inTiles c e s = true) l = s :: rest ∧ tiles a b (s :: rest) ∧
    a ≤ c ≤ s_last_seq s ∧ e < b.
Proof.
  revert lo; induction l as [|s l IH]; intros lo; simpl; [intros -> ? ?; lia|].
  intros (Hf & Hle & Ht) Hc He. destruct (decide (c ≤ s_last_seq s)) as [Hin|Hout].
  - destruct (tiles_filter_from c e _ _ _ Ht) as (b & Hb & ?); [lia|done|].
    rw filter_cons_True; [unfold inTiles; apply andb_true_iff; rw !Z.leb_le; lia|].
    exists lo, b, s, (filter (λ s, inTiles c e s = true) l). split; [done|].
    split; [by split; [|split]|]. lia.
  - rw filter_cons_False; [unfold inTiles; rw andb_true_iff !Z.leb_le; lia|].
    apply (IH _ Ht); lia.
Qed.

Lemma tiles_take n lo hi l : tiles lo hi l → ∃ b, tiles lo b (take n l).
Proof.
  revert n lo; induction l as [|s l IH]; intros [|n] lo; simpl; eauto.
  intros (? & ? & Ht). destruct (IH n _ Ht) as [b ?]. by exists b.
Qed.

(** ** The cold loops *)

Section cold.
Context (w : world) (m : MetaRow) (HW : WInv w m).

Lemma coldRows_spec maxRecords e n c x k rows :
  seq <$> rows = seqZ x k → x ≤ c ∨ e < c ∨ maxRecords ≤ n → n ≤ maxRecords →
  let '(rs, c') := coldRows maxRecords e n c rows in
  ∃ t, t = Z.max 0 (Z.min (maxRecords - n) (Z.min (x + k - 1) e - c + 1)) ∧ c' = c + t ∧
    recordSeq <$> rs = seqZ c t ∧ ∀ r, r ∈ rs → ∃ row, row ∈ rows ∧ r = rowToRecord row.
Proof.
  revert n c x k; induction rows as [|row rows IH]; intros n c x k Hseq Hx Hn; simpl.
  - assert (k ≤ 0) by (destruct (decide (k ≤ 0)); [done|]; rw seqZ_cons in Hseq; [lia|done]).
    exists 0. split; [lia|]. split; [lia|]. split; [done|]. by intros r ?%not_elem_of_nil.
  - assert (Hk : 0 < k) by (destruct (decide (k ≤ 0)); [by rw seqZ_nil in Hseq|lia]).
    rw seqZ_cons // in Hseq. simpl in Hseq. injection Hseq as Hrow Hseq.
    destruct (_ || _) eqn:E.
    + apply orb_true_iff in E. rw !Z.ltb_lt in E.
      specialize (IH n c (Z.succ x) (Z.pred k) Hseq). destruct (coldRows _ _ n c rows) as [rs c'].
      destruct IH as (t & -> & -> & Hrs & Hin); [lia|done|]. eexists. split; [reflexivity|].
      assert (Z.succ x + Z.pred k - 1 = x + k - 1) as -> by lia. split; [done|]. split.
      * rw Hrs. f_equal. f_equal. f_equal. lia.
      * intros r (r' & ? & ?)%Hin. exists r'. by split; [right|].
    + apply orb_false_iff in E. rw !Z.ltb_ge in E. destruct (maxRecords <=? n) eqn:E2; bool_to_prop.
      * exists 0. split; [lia|]. split; [lia|]. split; [done|]. by intros r ?%not_elem_of_nil.
      * specialize (IH (n + 1) (seq row + 1) (Z.succ x) (Z.pred k) Hseq).
        destruct (coldRows _ _ (n + 1) _ rows) as [rs c'].
        destruct IH as (t & -> & -> & Hrs & Hin); [lia|lia|]. eexists. split; [reflexivity|].
        split; [lia|]. split.
        -- rw fmap_cons Hrs recordSeq_rowToRecord. symmetry. rw seqZ_cons; [lia|].
           f_equal; [lia|]. f_equal; lia.
        -- intros r [->|(r' & ? & ?)%Hin]%elem_of_cons; [by exists row; split; [left|]|].
           exists r'. by split; [right|].
Qed.

Lemma readSegment_spec s k :
  segments (store w) !! k = Some s → s_state s = committed →
  Body (log w) (s_first_seq s) (s_last_seq s) (readSegment (bucket w) s).
Proof.
  intros Hk Hc. destruct (wi_archived _ _ HW _ _ Hk Hc) as (h & rows & Hb & HB).
  unfold readSegment. by rw Hb.
Qed.

Definition Stored (s : SegmentRow) : Prop :=
  s_state s = committed ∧ ∃ k, segments (store w) !! k = Some s.

Lemma coldSegments_spec maxRecords e n c a b segs :
  tiles a b segs → Forall Stored segs → a ≤ c ∨ e < c ∨ maxRecords ≤ n → n ≤ maxRecords →
  let '(rs, c') := coldSegments (bucket w) maxRecords e n c segs in
  ∃ t, t = Z.max 0 (Z.min (maxRecords - n) (Z.min (b - 1) e - c + 1)) ∧ c' = c + t ∧
    recordSeq <$> rs = seqZ c t ∧ ∀ r, r ∈ rs → log w !! recordSeq r = Some r.
Proof.
  revert n c a; induction segs as [|s segs IH]; intros n c a; simpl.
  - intros -> _ Hc Hn. exists 0. split; [lia|]. split; [lia|]. split; [done|].
    by intros r ?%not_elem_of_nil.
  - intros (Hf & Hle & Ht) [[Hst [k Hk]] Hsegs]%Forall_cons Hc Hn.
    destruct (maxRecords <=? n) eqn:E; bool_to_prop.
    { exists 0. split; [lia|]. split; [lia|]. split; [done|]. by intros r ?%not_elem_of_nil. }
    destruct (readSegment_spec s k Hk Hst) as [Hseq Hlog].
    pose proof (coldRows_spec maxRecords e n c _ _ _ Hseq ltac:(lia) Hn) as Hrows.
    destruct (coldRows _ _ n c _) as [rs1 c1].
    destruct Hrows as (t1 & Ht1 & -> & Hrs1 & Hin1).
    assert (Hlen : Z.of_nat (length rs1) = t1)
      by (rw -(length_fmap recordSeq) Hrs1 length_seqZ; lia).
    specialize (IH (n + Z.of_nat (length rs1)) (c + t1) (s_last_seq s + 1) Ht Hsegs).
    destruct (coldSegments _ _ _ _ _ segs) as [rs2 c2].
    destruct IH as (t2 & Ht2 & -> & Hrs2 & Hin2); [lia|lia|].
    assert (Hb : s_last_seq s + 1 ≤ b).
    { clear -Ht. revert Ht. generalize (s_last_seq s + 1) as x.
      induction segs as [|s' segs IH]; intros x; simpl; [lia|]. intros (_ & ? & ?%IH). lia. }
    exists (t1 + t2). split; [lia|]. split; [lia|]. split.
    + rw fmap_app Hrs1 Hrs2 seqZ_app; [lia..|done].
    + intros r [(row & Hrow & ->)%Hin1|Hr]%elem_of_app; [|by apply Hin2].
      rw recordSeq_rowToRecord. by apply Hlog.
Qed.

(** The cold part serves the start of the range, as far as the segment and record caps
    let it, and misses nothing. *)
Lemma readCold_spec start finish maxRecords :
  0 ≤ start ≤ finish → finish < next_seq m → 0 < maxRecords →
  let '(rs, cursor, missing) := readCold w start finish maxRecords in
  missing = None ∧ ∃ t, 0 ≤ t ≤ maxRecords ∧ cursor = start + t ∧ recordSeq <$> rs = seqZ start t ∧
    (start < hot_min_seq m → 0 < t ∧ cursor ≤ Z.min finish (hot_min_seq m - 1) + 1) ∧
    (hot_min_seq m ≤ start → t = 0) ∧ ∀ r, r ∈ rs → log w !! recordSeq r = Some r.
Proof.
  intros Hs Hfin Hmax. unfold readCold, head. rw (meta_Some _ _ (wi_meta _ _ HW)). simpl.
  destruct (start <? hot_min_seq m) eqn:E; bool_to_prop.
  2:{ split; [done|]. exists 0. split; [lia|]. split; [lia|]. split; [done|]. split; [lia|].
      split; [done|]. by intros r ?%not_elem_of_nil. }
  set (coldEnd := Z.min finish (hot_min_seq m - 1)).
  destruct (tiles_filter start coldEnd _ _ _ (wi_tiles _ _ HW)) as (a & b & s & rest & Hfil & Ht & Ha & Hb);
    [lia|lia|].
  assert (Hsel : selectAsc (covers start coldEnd) (segments (store w)) = s :: rest).
  { rw -Hfil. unfold selectAsc. rw list_filter_filter. apply list_filter_iff. intros x.
    unfold covers, inTiles, isCommittedRow. rw !andb_true_iff. tauto. }
  assert (Hcov : segmentsCovering start coldEnd MAX_SEGMENTS_PER_READ (store w) = s :: take 3 rest)
    by (unfold segmentsCovering; by rw Hsel).
  rw Hcov. change (s_first_seq <$> hd_error (s :: take 3 rest)) with (Some (s_first_seq s)).
  destruct Ht as (Hf & Hle & Ht). cbv beta iota zeta.
  destruct (start <? s_first_seq s) eqn:E2; bool_to_prop; [lia|].
  destruct (tiles_take 3 _ _ _ Ht) as [b' Ht'].
  assert (Hstored : Forall Stored (s :: take 3 rest)).
  { apply Forall_forall. intros x Hx.
    assert (Hx' : x ∈ selectAsc (covers start coldEnd) (segments (store w))).
    { rw Hsel. apply elem_of_cons in Hx as [->|(i & Hi & _)%elem_of_take]; [left|right].
      by eapply list_elem_of_lookup_2. }
    apply elem_of_selectAsc in Hx' as [Hx' Hk]. unfold covers in Hx'. bool_to_prop. done. }
  pose proof (coldSegments_spec maxRecords coldEnd 0 start a b' (s :: take 3 rest)
    (conj Hf (conj Hle Ht')) Hstored ltac:(lia) ltac:(lia)) as Hcold.
  assert (Hb' : s_last_seq s + 1 ≤ b').
  { clear -Ht'. revert Ht'. generalize (s_last_seq s + 1) as x. generalize (take 3 rest) as l.
    induction l as [|s' l IH]; intros x; simpl; [lia|]. intros (_ & ? & ?%IH). lia. }
  destruct (coldSegments _ _ _ _ _ _) as [rs c']. destruct Hcold as (t & Ht0 & -> & Hrs & Hin).
  split; [done|]. exists t. split; [lia|]. split; [done|]. split; [done|].
  split; [intros _; split; lia|]. split; [lia|done].
Qed.
End cold.

(** ** The whole range *)

Section range.
Context (w w' : world) (m m' : MetaRow) (HW : WInv w m) (HW' : WInv w' m').
Context (Hlog : log w ⊆ log w') (Hhot : hot_min_seq m' = hot_min_seq m).

Lemma head_grows : next_seq m ≤ next_seq m'.
Proof.
  destruct (decide (next_seq m ≤ 0)) as [|Hpos].
  - destruct (wi_inv _ _ HW') as (HD & _). rw (wi_meta _ _ HW') in HD. destruct HD as [? _]. lia.
  - destruct (proj2 (wi_dom _ _ HW (next_seq m - 1))) as [r Hr]; [lia|].
    assert (Hs : is_Some (log w' !! (next_seq m - 1))) by (exists r; by eapply lookup_weaken).
    apply (wi_dom _ _ HW') in Hs. lia.
Qed.

(** The resident part, from where the cold part stopped. *)
Lemma resident_part cursor finish maxRecords :
  hot_min_seq m ≤ cursor ≤ finish → finish < next_seq m → 0 < maxRecords →
  let '(rs, complete) := readResident cursor finish maxRecords BACKFILL_BATCH_BYTES (store w') in
  ∃ n, 0 < n ≤ finish - cursor + 1 ∧ recordSeq <$> rs = seqZ cursor n ∧ n ≤ maxRecords ∧
    (complete = true → n = finish - cursor + 1) ∧ ∀ r, r ∈ rs → log w' !! recordSeq r = Some r.
Proof.
  intros Hc Hfin Hmax. pose proof head_grows as Hnext.
  pose proof (readResident_gapless m' (store w') cursor finish maxRecords BACKFILL_BATCH_BYTES
    (wi_inv _ _ HW') (wi_meta _ _ HW') ltac:(lia) ltac:(lia) ltac:(lia)) as Hr.
  destruct (readResident _ _ _ _ _) as [rs c]. destruct Hr as (n & Hn & Hseq & Hle & Hcomp & Hprog & Hrow).
  assert (0 < n) by (apply Hprog; [done|done|lia]).
  exists n. split; [lia|]. split; [done|]. split; [done|].
  split; [intros Hct%Hcomp; lia|]. intros r (k & row & Hk & ->)%Hrow.
  rw recordSeq_rowToRecord. destruct (wi_inv _ _ HW') as (_ & HR & _). rw (HR _ _ Hk).
  by apply (wi_log _ _ HW').
Qed.

Lemma readRange_spec fromSeq toSeq limit :
  0 < limit →
  let start := Z.max 0 fromSeq in
  let finish := Z.min toSeq (next_seq m - 1) in
  let r := readRange w w' fromSeq toSeq limit in
  missingBelowSeq r = None ∧ ∃ n, 0 ≤ n ≤ Z.max 0 (finish - start + 1) ∧
    recordSeq <$> records r = seqZ start n ∧
    (complete r = true → n = Z.max 0 (finish - start + 1)) ∧
    (start ≤ finish → 0 < n ≤ Z.min limit BACKFILL_BATCH_RECORDS) ∧
    ∀ x, x ∈ records r → log w' !! recordSeq x = Some x.
Proof.
  intros Hlim start finish r. subst r. unfold readRange, head.
  rw (meta_Some _ _ (wi_meta _ _ HW)). simpl. fold start finish.
  destruct (finish <? start) eqn:E; bool_to_prop.
  { split; [done|]. exists 0. split; [lia|]. split; [done|]. split; [lia|]. split; [lia|].
    by intros x ?%not_elem_of_nil. }
  assert (Hmax : 0 < Z.min limit BACKFILL_BATCH_RECORDS) by (unfold BACKFILL_BATCH_RECORDS; lia).
  set (maxRecords := Z.min limit BACKFILL_BATCH_RECORDS) in *.
  pose proof (readCold_spec w m HW start finish maxRecords ltac:(lia) ltac:(lia) Hmax) as Hcold.
  destruct (readCold w start finish maxRecords) as [[rs cursor] missing].
  destruct Hcold as (-> & t & Ht & -> & Hrs & Hlt & Hge & Hin).
  assert (Hin' : ∀ x, x ∈ rs → log w' !! recordSeq x = Some x)
    by (intros x Hx; eapply lookup_weaken; [by apply Hin|done]).
  assert (Hlen : Z.of_nat (length rs) = t) by (rw -(length_fmap recordSeq) Hrs length_seqZ; lia).
  rw Hlen.
  destruct ((start <? hot_min_seq m) && (start + t <=? Z.min finish (hot_min_seq m - 1))) eqn:E2.
  - bool_to_prop. split; [done|]. exists t. simpl. destruct Hlt; [done|].
    split; [lia|]. split; [done|]. split; [done|]. split; [lia|done].
  - apply andb_false_iff in E2. rw Z.ltb_ge Z.leb_gt in E2.
    destruct ((t <? maxRecords) && (start + t <=? finish)) eqn:E3.
    + bool_to_prop.
      assert (Hcur : hot_min_seq m ≤ start + t).
      { destruct (decide (start < hot_min_seq m)) as [Hs|]; [destruct (Hlt Hs); lia|lia]. }
      rw Z.max_l; [lia|].
      pose proof (resident_part (start + t) finish (maxRecords - t) ltac:(lia) ltac:(lia) ltac:(lia)) as Hres.
      destruct (readResident _ _ _ _ _) as [rs2 c2].
      destruct Hres as (n & Hn & Hseq & Hle & Hc & Hin2). split; [done|]. exists (t + n). simpl.
      split; [lia|]. split; [rw fmap_app Hrs Hseq seqZ_app; [lia..|done]|].
      split; [intros Hct%Hc; lia|]. split; [lia|].
      intros x [Hx|Hx]%elem_of_app; [by apply Hin'|by apply Hin2].
    + split; [done|]. exists t. simpl. apply andb_false_iff in E3. rw Z.ltb_ge Z.leb_gt in E3.
      assert (start < hot_min_seq m → start + t ≤ finish + 1) by (intros Hs; destruct (Hlt Hs); lia).
      assert (0 < t) by (destruct (decide (start < hot_min_seq m)) as [Hs|];
        [destruct (Hlt Hs); lia|rw Hge in E3; lia]).
      split; [destruct (decide (start < hot_min_seq m)); [lia|rw Hge; lia]|].
      split; [done|]. split; [|split; [lia|done]].
      intros Hc%negb_true_iff%Z.leb_gt. lia.
Qed.
End range.

(** C9: A range read serves the transcript, as long as no cut commits while it waits for the
    archived part.  On any conversation that events without overlapping rollovers can reach, with
    a positive limit and the resident floor of the end of the read where it was at its start, the
    records come back without a gap from the start of the range, each one the record that was
    published under its number, wherever it is stored; nothing is reported missing; at least one
    record comes back when the range holds one, at most the batch; and a read that calls itself
    complete returned the whole range.  Where a cut does commit, [cut_during_a_read_leaves_a_gap]
    shows a reply with a gap it does not report. *)
Theorem readRange_serves_every_record sha256Hex events more m m' fromSeq toSeq limit :
  alone sha256Hex freshWorld (events ++ more) = true →
  let w := run sha256Hex freshWorld events in
  let w' := run sha256Hex w more in
  meta_table (store w) = Some m → meta_table (store w') = Some m' →
  hot_min_seq m' = hot_min_seq m → 0 < limit →
  let start := Z.max 0 fromSeq in
  let finish := Z.min toSeq (next_seq m - 1) in
  let r := readRange w w' fromSeq toSeq limit in
  missingBelowSeq r = None ∧ ∃ n, 0 ≤ n ≤ Z.max 0 (finish - start + 1) ∧
    recordSeq <$> records r = seqZ start n ∧
    (complete r = true → n = Z.max 0 (finish - start + 1)) ∧
    (start ≤ finish → 0 < n ≤ Z.min limit BACKFILL_BATCH_RECORDS) ∧
    ∀ x, x ∈ records r → log w' !! recordSeq x = Some x.
Proof.
  rw alone_app. intros [Hevents Hmore]%andb_true_iff w w' Hm Hm' Hhot Hlim. destruct freshWorld_WInv as [m0 H0].
  destruct (run_WInv sha256Hex freshWorld events m0 H0 Hevents) as [m1 HW]. fold w in HW.
  destruct (run_WInv sha256Hex w more m1 HW Hmore) as [m2 HW']. fold w' in HW'.
  assert (m1 = m) as -> by (pose proof (wi_meta _ _ HW); congruence).
  assert (m2 = m') as -> by (pose proof (wi_meta _ _ HW'); congruence).
  by apply (readRange_spec w w' m m' HW HW' (run_log sha256Hex w more m HW Hmore) Hhot).
Qed.

(** ** Examples *)

(** A conversation whose first turn was archived under storage pressure, and what
    happens to it while a range read waits for that segment: a second cut. *)
Definition ex_appends : list event := Journaled <$> ex_more user 207 3.
Definition ex_second_cut : list event :=
  (Journaled <$> [ex_turn "turn-2"; OpSetTurnSpan "turn-2" 2; OpSetTurnSpan "turn-2" 5;
                  OpSetTurnTerminal "turn-2" completed 6] ++ ex_more user 207 3) ++ ex_pressure.
Definition ex_world : world := run (λ s, s) freshWorld ex_archived.

Lemma readRange_serves_every_record_witness :
  hot_min_seq (meta (store (run (λ s, s) freshWorld ex_archived))) = 2 ∧
  let w := run (λ s, s) freshWorld ex_archived in
  let w' := run (λ s, s) w ex_appends in
  let finish := Z.min 300 (next_seq (meta (store w)) - 1) in
  let r := readRange w w' 0 300 10 in
  missingBelowSeq r = None ∧ ∃ n, 0 ≤ n ≤ Z.max 0 (finish - 0 + 1) ∧
    recordSeq <$> records r = seqZ 0 n ∧
    (complete r = true → n = Z.max 0 (finish - 0 + 1)) ∧
    (0 ≤ finish → 0 < n ≤ Z.min 10 BACKFILL_BATCH_RECORDS) ∧
    ∀ x, x ∈ records r → log w' !! recordSeq x = Some x.
Proof.
  split; [by vm_compute|].
  refine (readRange_serves_every_record (λ s, s) ex_archived ex_appends
    (meta (store (run (λ s, s) freshWorld ex_archived)))
    (meta (store (run (λ s, s) (run (λ s, s) freshWorld ex_archived) ex_appends))) 0 300 10 _ _ _ _ _);
    by vm_compute.
Defined.

(** The same read when a cut commits in between: records 2 to 5 moved to a segment the
    read did not look at, and the reply has a gap it does not report. *)
Example cut_during_a_read_leaves_a_gap :
  let w' := run (λ s, s) ex_world ex_second_cut in
  let r := readRange ex_world w' 0 10 200 in
  recordSeq <$> records r = [0; 1; 6; 7; 8; 9; 10] ∧ complete r = true ∧ missingBelowSeq r = None.
Proof. vm_compute. done. Qed.
