(* ===== verification/ResourceLocks.v ===== *)
(** * The lock table of the computer-use arbiter

    [ComputerUseResourceArbiter.run], [acquire] and [releaseFor] of
    [packages/runtime/kernel/computer-use/resource-arbiter.ts].  A call of [run] is a
    task: it takes its keys in order, one [await] per key, runs its operation, and
    releases in [finally].  Lock objects live in a heap, because a release closure holds
    the object and not the key's current entry.  Between two awaits the code is
    synchronous; an event is one such stretch. *)

From Corelib Require Import ssreflect.
From stdpp Require Import prelude gmap strings sorting.
From S2P Require Import Prelude.

(** ** State *)

(** What [acquire] leaves with a lock: the task to resume, and its abort signal. *)
Record Waiter := { w_task : nat; w_signal : option nat }.

Record ResourceLock := { held : bool; waiters : list Waiter }.

(** The closure [releaseFor(key, lock)]. *)
Record Release := { r_key : string; r_lock : nat }.

(** Where a task is: running synchronous code, at the [await] of an acquire whose
    promise is fulfilled, rejected or pending, inside its operation, or settled. *)
Inductive stage :=
  | Stepping
  | Acquired (r : Release)
  | Refused
  | Waiting (key : string) (lock : nat)
  | Entered
  | Over.

(** [t_keys] are the keys still to take, [releases] the stack of closures, newest first. *)
Record Task := {
  t_requested : list string;
  t_signal : option nat;
  t_keys : list string;
  releases : list Release;
  t_stage : stage;
}.

Record state := {
  locks : gmap string nat;
  heap : gmap nat ResourceLock;
  next_lock : nat;
  tasks : gmap nat Task;
  aborted : gset nat;
}.

#[export] Instance Waiter_eq : EqDecision Waiter.
Proof. solve_decision. Defined.
#[export] Instance Release_eq : EqDecision Release.
Proof. solve_decision. Defined.
#[export] Instance stage_eq : EqDecision stage.
Proof. solve_decision. Defined.

Definition init : state :=
  {| locks := ∅; heap := ∅; next_lock := 0; tasks := ∅; aborted := ∅ |}.

Definition withLocks (ls : gmap string nat) (h : gmap nat ResourceLock) (n : nat) (st : state) : state :=
  {| locks := ls; heap := h; next_lock := n; tasks := tasks st; aborted := aborted st |}.
Definition setTask (id : nat) (t : Task) (st : state) : state :=
  {| locks := locks st; heap := heap st; next_lock := next_lock st;
     tasks := <[id := t]> (tasks st); aborted := aborted st |}.

Definition withStage (s : stage) (t : Task) : Task :=
  {| t_requested := t_requested t; t_signal := t_signal t; t_keys := t_keys t;
     releases := releases t; t_stage := s |}.
Definition withKeys (ks : list string) (t : Task) : Task :=
  {| t_requested := t_requested t; t_signal := t_signal t; t_keys := ks;
     releases := releases t; t_stage := t_stage t |}.
Definition withReleases (rs : list Release) (t : Task) : Task :=
  {| t_requested := t_requested t; t_signal := t_signal t; t_keys := t_keys t;
     releases := rs; t_stage := t_stage t |}.

Definition setStage (id : nat) (s : stage) (st : state) : state :=
  match tasks st !! id with Some t => setTask id (withStage s t) st | None => st end.

(** [signal?.aborted]. *)
Definition isAborted (st : state) (signal : option nat) : bool :=
  match signal with Some s => bool_decide (s ∈ aborted st) | None => false end.

(** ** Acquiring and releasing *)

(** [[...new Set(keys.filter(Boolean))].sort()]. *)
Definition uniqueSorted (keys : list string) : list string :=
  merge_sort String.le (remove_dups (filter (λ k, k ≠ ""%string) keys)).

(** [acquire] by the task [id]; its promise settles into the task's stage. *)
Definition acquire (id : nat) (key : string) (st : state) : state :=
  match tasks st !! id with
  | None => st
  | Some t =>
      if isAborted st (t_signal t) then setTask id (withStage Refused t) st
      else
        let '(l, lock) :=
          match locks st !! key with
          | Some l => (l, default {| held := false; waiters := [] |} (heap st !! l))
          | None => (next_lock st, {| held := false; waiters := [] |})
          end in
        let n := match locks st !! key with Some _ => next_lock st | None => S (next_lock st) end in
        let st := withLocks (<[key := l]> (locks st)) (<[l := lock]> (heap st)) n st in
        if negb (held lock) then
          setTask id (withStage (Acquired {| r_key := key; r_lock := l |}) t)
            (withLocks (locks st) (<[l := {| held := true; waiters := waiters lock |}]> (heap st)) n st)
        else
          setTask id (withStage (Waiting key l) t)
            (withLocks (locks st)
               (<[l := {| held := held lock;
                          waiters := waiters lock ++ [{| w_task := id; w_signal := t_signal t |}] |}]>
                  (heap st)) n st)
  end.

(** The loop of the closure [releaseFor(key, lock)] over the lock's waiters. *)
Fixpoint handOff (r : Release) (ws : list Waiter) (st : state) : state :=
  match ws with
  | [] =>
      withLocks (if bool_decide (locks st !! r_key r = Some (r_lock r))
                 then delete (r_key r) (locks st) else locks st)
        (<[r_lock r := {| held := false; waiters := [] |}]> (heap st)) (next_lock st) st
  | w :: ws' =>
      if isAborted st (w_signal w) then handOff r ws' (setStage (w_task w) Refused st)
      else
        setStage (w_task w) (Acquired r)
          (withLocks (locks st) (<[r_lock r := {| held := true; waiters := ws' |}]> (heap st))
             (next_lock st) st)
  end.

Definition release (r : Release) (st : state) : state :=
  match heap st !! r_lock r with Some lock => handOff r (waiters lock) st | None => st end.

(** [while (releases.length > 0) releases.pop()?.()]. *)
Fixpoint unwind (id : nat) (rs : list Release) (st : state) : state :=
  match rs with
  | [] => st
  | r :: rs' =>
      unwind id rs'
        (release r (match tasks st !! id with
                    | Some t => setTask id (withReleases rs' t) st
                    | None => st
                    end))
  end.

(** The [finally] of [run], after which its promise is settled. *)
Definition finish (id : nat) (st : state) : state :=
  match tasks st !! id with
  | Some t => setStage id Over (unwind id (releases t) (setTask id (withStage Stepping t) st))
  | None => st
  end.

(** The loop of [run] from its head: the next key, or the operation. *)
Definition proceed (id : nat) (st : state) : state :=
  match tasks st !! id with
  | None => st
  | Some t =>
      match t_keys t with
      | [] => if isAborted st (t_signal t) then finish id st else setTask id (withStage Entered t) st
      | k :: ks => acquire id k (setTask id (withKeys ks t) st)
      end
  end.

(** [waiters.splice(waiters.indexOf(waiter), 1)]. *)
Fixpoint splice (w : Waiter) (ws : list Waiter) : list Waiter :=
  match ws with
  | [] => []
  | w' :: ws' => if bool_decide (w' = w) then ws' else w' :: splice w ws'
  end.

(** [onAbort] of the task's waiter. *)
Definition onAbort (id : nat) (st : state) : state :=
  match tasks st !! id with
  | Some t =>
      match t_stage t with
      | Waiting key l =>
          match heap st !! l with
          | Some lock =>
              let w := {| w_task := id; w_signal := t_signal t |} in
              if bool_decide (w ∈ waiters lock) then
                let ws := splice w (waiters lock) in
                setTask id (withStage Refused t)
                  (withLocks (if negb (held lock) && bool_decide (ws = []) then delete key (locks st)
                              else locks st)
                     (<[l := {| held := held lock; waiters := ws |}]> (heap st)) (next_lock st) st)
              else st
          | None => st
          end
      | _ => st
      end
  | None => st
  end.

(** The waiters that listen to a signal. *)
Definition listens (s : nat) (t : Task) : bool :=
  match t_stage t, t_signal t with
  | Waiting _ _, Some s' => Nat.eqb s s'
  | _, _ => false
  end.

Definition listeners (s : nat) (st : state) : list nat :=
  (filter (λ kt, listens s kt.2 = true) (map_to_list (tasks st))).*1.

(** ** Events *)

Inductive event :=
  | Start (id : nat) (keys : list string) (signal : option nat)
  | Resume (id : nat)
  | Leave (id : nat)
  | Abort (s : nat).

Definition start (id : nat) (keys : list string) (signal : option nat) (st : state) : state :=
  match tasks st !! id with
  | Some _ => st
  | None =>
      proceed id (setTask id {| t_requested := keys; t_signal := signal; t_keys := uniqueSorted keys;
                                releases := []; t_stage := Stepping |} st)
  end.

(** The continuation after the [await] of an acquire. *)
Definition resume (id : nat) (st : state) : state :=
  match tasks st !! id with
  | Some t =>
      match t_stage t with
      | Acquired r =>
          proceed id (setTask id (withReleases (r :: releases t) (withStage Stepping t)) st)
      | Refused => finish id st
      | _ => st
      end
  | None => st
  end.

(** The operation's promise settled, either way. *)
Definition leave (id : nat) (st : state) : state :=
  match tasks st !! id with
  | Some t => match t_stage t with Entered => finish id st | _ => st end
  | None => st
  end.

Definition abort (s : nat) (st : state) : state :=
  foldl (λ st id, onAbort id st)
    {| locks := locks st; heap := heap st; next_lock := next_lock st; tasks := tasks st;
       aborted := {[s]} ∪ aborted st |}
    (listeners s st).

Definition exec (st : state) (e : event) : state :=
  match e with
  | Start id keys signal => start id keys signal st
  | Resume id => resume id st
  | Leave id => leave id st
  | Abort s => abort s st
  end.

Definition run (st : state) (events : list event) : state := foldl exec st events.

(** ** Invariant *)

(** The lexical order of keys, strictly. *)
Definition before (x y : string) : Prop := String.le x y ∧ x ≠ y.

#[export] Instance before_trans : Transitive before.
Proof.
  intros x y z [Hxy Hne] [Hyz Hne']. split; [by etrans|]. intros ->.
  apply Hne. by apply (anti_symm String.le).
Qed.

Lemma before_irrefl x : ¬ before x x.
Proof. by intros [_ ?]. Qed.

Lemma before_total x y : x ≠ y → before x y ∨ before y x.
Proof. intros Hne. destruct (total String.le x y); [left|right]; by split. Qed.

Lemma uniqueSorted_sorted keys : StronglySorted before (uniqueSorted keys).
Proof.
  unfold uniqueSorted. set (l := remove_dups _).
  assert (Hs : StronglySorted String.le (merge_sort String.le l)) by apply (StronglySorted_merge_sort _).
  assert (Hn : NoDup (merge_sort String.le l)).
  { rw merge_sort_Permutation. apply NoDup_remove_dups. }
  revert Hs Hn. generalize (merge_sort String.le l) as l'.
  induction l' as [|x l' IH]; intros Hs Hn; [constructor|].
  apply StronglySorted_inv in Hs as [Hs Hall]. apply NoDup_cons in Hn as [Hx Hn].
  constructor; [by apply IH|]. apply Forall_forall. intros y Hy. split.
  - by eapply (proj1 (Forall_forall _ _) Hall).
  - by intros ->.
Qed.

Lemma elem_of_uniqueSorted k keys : k ∈ uniqueSorted keys ↔ k ∈ keys ∧ k ≠ ""%string.
Proof.
  unfold uniqueSorted. rw merge_sort_Permutation elem_of_remove_dups list_elem_of_filter. tauto.
Qed.

(** The closures a task owns, the newest first, and its keys in the order it takes them. *)
Definition holds (t : Task) : list Release :=
  match t_stage t with Acquired r => r :: releases t | _ => releases t end.

Definition sequence (t : Task) : list string :=
  reverse (r_key <$> holds t) ++ (match t_stage t with Waiting k _ => [k] | _ => [] end) ++ t_keys t.

(** On its way to its operation, or in it. *)
Definition active (s : stage) : bool :=
  match s with Acquired _ | Waiting _ _ | Entered | Stepping => true | Refused | Over => false end.

Record LInv (st : state) : Prop := {
  li_locked k l : locks st !! k = Some l →
    (∃ lk, heap st !! l = Some lk ∧ held lk = true) ∧ l < next_lock st ∧
    ∃ id t, tasks st !! id = Some t ∧ {| r_key := k; r_lock := l |} ∈ holds t;
  li_inj k k' l : locks st !! k = Some l → locks st !! k' = Some l → k = k';
  li_holds id t r : tasks st !! id = Some t → r ∈ holds t → locks st !! r_key r = Some (r_lock r);
  li_owner id id' t t' r : tasks st !! id = Some t → tasks st !! id' = Some t' →
    r ∈ holds t → r ∈ holds t' → id = id';
  li_waiting id t k l : tasks st !! id = Some t → t_stage t = Waiting k l →
    locks st !! k = Some l ∧ isAborted st (t_signal t) = false ∧
    ∃ lk, heap st !! l = Some lk ∧ {| w_task := id; w_signal := t_signal t |} ∈ waiters lk;
  li_waiters k l lk w : locks st !! k = Some l → heap st !! l = Some lk → w ∈ waiters lk →
    ∃ t, tasks st !! w_task w = Some t ∧ t_stage t = Waiting k l ∧ w_signal w = t_signal t;
  li_nodup k l lk : locks st !! k = Some l → heap st !! l = Some lk → NoDup (waiters lk);
  li_sorted id t : tasks st !! id = Some t → StronglySorted before (sequence t);
}.

(** ** The primitive steps keep the invariant *)

#[local] Ltac lookup_in H := apply lookup_insert_Some in H as [[<- <-]|[? H]].

(** A step of one task that neither takes nor gives back a closure. *)
Lemma LInv_setTask st id t' :
  LInv st →
  (∀ r, r ∈ holds t' ↔ ∃ t, tasks st !! id = Some t ∧ r ∈ holds t) →
  (∀ t k l, tasks st !! id = Some t → t_stage t ≠ Waiting k l) →
  (∀ k l, t_stage t' ≠ Waiting k l) →
  StronglySorted before (sequence t') →
  LInv (setTask id t' st).
Proof.
  intros HI Hh Hold Hnew Hs. constructor; simpl.
  - intros k l Hk. destruct (li_locked _ HI _ _ Hk) as (Hheap & Hlt & id0 & t0 & Ht0 & Hr).
    split; [done|]. split; [done|]. destruct (decide (id0 = id)) as [->|Hne].
    + exists id, t'. rw lookup_insert_eq. split; [done|]. apply Hh. eauto.
    + exists id0, t0. by rw lookup_insert_ne.
  - apply (li_inj _ HI).
  - intros id0 t0 r Ht0 Hr. lookup_in Ht0.
    + apply Hh in Hr as (t & Ht & Hr). by eapply li_holds.
    + by eapply li_holds.
  - intros id1 id2 t1 t2 r H1 H2 Hr1 Hr2. lookup_in H1; lookup_in H2; [done|..].
    + apply Hh in Hr1 as (t & Ht & Hr1). by eapply (li_owner _ HI).
    + apply Hh in Hr2 as (t & Ht & Hr2). by eapply (li_owner _ HI).
    + by eapply (li_owner _ HI).
  - intros id0 t0 k l Ht0 Hst. lookup_in Ht0; [by apply Hnew in Hst|]. exact (li_waiting _ HI _ _ _ _ Ht0 Hst).
  - intros k l lk w Hk Hlk Hw. destruct (li_waiters _ HI _ _ _ _ Hk Hlk Hw) as (t & Ht & Hst & Hsig).
    exists t. rw lookup_insert_ne; [intros Heq; subst id; by apply (Hold t k l)|done].
  - apply (li_nodup _ HI).
  - intros id0 t0 Ht0. lookup_in Ht0; [done|]. by eapply li_sorted.
Qed.

(** Taking a free key. *)
Lemma LInv_take st id t k :
  LInv st → tasks st !! id = Some t → t_stage t = Stepping → locks st !! k = None →
  let t' := withStage (Acquired {| r_key := k; r_lock := next_lock st |}) t in
  StronglySorted before (sequence t') →
  LInv (setTask id t'
    (withLocks (<[k := next_lock st]> (locks st))
       (<[next_lock st := {| held := true; waiters := [] |}]> (heap st)) (S (next_lock st)) st)).
Proof.
  intros HI Ht Hst Hk t' Hs. set (l := next_lock st) in *.
  assert (Hfresh : ∀ k', locks st !! k' ≠ Some l).
  { intros k' H. destruct (li_locked _ HI _ _ H) as (_ & ? & _). unfold l in *. lia. }
  assert (Hh : ∀ r, r ∈ holds t' ↔ r = {| r_key := k; r_lock := l |} ∨ r ∈ holds t).
  { intros r. unfold t', holds. simpl. rw Hst. apply elem_of_cons. }
  assert (Hold : ∀ id0 t0, tasks st !! id0 = Some t0 → {| r_key := k; r_lock := l |} ∉ holds t0).
  { intros id0 t0 Ht0 Hr. apply (li_holds _ HI _ _ _ Ht0) in Hr. simpl in Hr. congruence. }
  constructor; simpl.
  - intros k' l' [[<- <-]|[Hne Hk']]%lookup_insert_Some.
    + split; [exists {| held := true; waiters := [] |}; by rw lookup_insert_eq|]. split; [lia|].
      exists id, t'. rw lookup_insert_eq. split; [done|]. apply Hh. by left.
    + destruct (li_locked _ HI _ _ Hk') as ((lk & Hlk & Hheld) & Hlt & id0 & t0 & Ht0 & Hr).
      split; [exists lk; rw lookup_insert_ne; [by unfold l in *; lia|done]|]. split; [unfold l in *; lia|].
      destruct (decide (id0 = id)) as [->|Hid].
      * exists id, t'. rw lookup_insert_eq. split; [done|]. apply Hh. right. congruence.
      * exists id0, t0. by rw lookup_insert_ne.
  - intros k1 k2 l' [[<- <-]|[Hne H1]]%lookup_insert_Some [[<- ?]|[Hne2 H2]]%lookup_insert_Some;
      [done|by apply Hfresh in H2|subst l'; by apply Hfresh in H1|by eapply li_inj].
  - intros id0 t0 r Ht0 Hr. lookup_in Ht0.
    + apply Hh in Hr as [->|Hr]; simpl; [by rw lookup_insert_eq|].
      pose proof (li_holds _ HI _ _ _ Ht Hr). rw lookup_insert_ne; [congruence|done].
    + pose proof (li_holds _ HI _ _ _ Ht0 Hr). rw lookup_insert_ne; [congruence|done].
  - intros id1 id2 t1 t2 r H1 H2 Hr1 Hr2. lookup_in H1; lookup_in H2; [done|..].
    + apply Hh in Hr1 as [->|Hr1]; [by eapply Hold in Hr2|]. by eapply (li_owner _ HI).
    + apply Hh in Hr2 as [->|Hr2]; [by eapply Hold in Hr1|]. by eapply (li_owner _ HI).
    + by eapply (li_owner _ HI).
  - intros id0 t0 k' l' Ht0 Hw. lookup_in Ht0; [done|].
    destruct (li_waiting _ HI _ _ _ _ Ht0 Hw) as (Hk' & Ha & lk & Hlk & Hin).
    rw lookup_insert_ne; [congruence|]. split; [done|]. split; [done|]. exists lk.
    rw lookup_insert_ne; [by intros ->; apply (Hfresh k')|done].
  - intros k' l' lk w [[<- <-]|[Hne Hk']]%lookup_insert_Some [[? <-]|[Hne2 Hlk]]%lookup_insert_Some Hw;
      [by apply not_elem_of_nil in Hw|done|by apply not_elem_of_nil in Hw|].
    destruct (li_waiters _ HI _ _ _ _ Hk' Hlk Hw) as (t0 & Ht0 & Hst0 & Hsig).
    exists t0. rw lookup_insert_ne; [intros Heq; subst id; congruence|done].
  - intros k' l' lk [[<- <-]|[Hne Hk']]%lookup_insert_Some [[? <-]|[Hne2 Hlk]]%lookup_insert_Some;
      [constructor|done|constructor|by eapply li_nodup].
  - intros id0 t0 Ht0. lookup_in Ht0; [done|]. by eapply li_sorted.
Qed.

(** Queueing behind a held key. *)
Lemma LInv_enqueue st id t k l lk :
  LInv st → tasks st !! id = Some t → t_stage t = Stepping → isAborted st (t_signal t) = false →
  locks st !! k = Some l → heap st !! l = Some lk →
  let t' := withStage (Waiting k l) t in
  StronglySorted before (sequence t') →
  LInv (setTask id t'
    (withLocks (locks st)
       (<[l := {| held := held lk; waiters := waiters lk ++ [{| w_task := id; w_signal := t_signal t |}] |}]>
          (heap st)) (next_lock st) st)).
Proof.
  intros HI Ht Hst Ha Hk Hl t' Hs.
  assert (Hh : holds t' = holds t) by (unfold t', holds; simpl; by rw Hst).
  assert (Hnew : ∀ w, w ∈ waiters lk → w_task w ≠ id).
  { intros w Hw <-. destruct (li_waiters _ HI _ _ _ _ Hk Hl Hw) as (t0 & ? & ? & _). congruence. }
  constructor; simpl.
  - intros k' l' Hk'. destruct (li_locked _ HI _ _ Hk') as ((lk' & Hlk' & Hheld) & Hlt & id0 & t0 & Ht0 & Hr).
    split.
    { destruct (decide (l = l')) as [<-|]; [|exists lk'; by rw lookup_insert_ne].
      eexists. rw lookup_insert_eq. split; [done|]. simpl. congruence. }
    split; [done|]. destruct (decide (id0 = id)) as [->|Hne].
    + exists id, t'. rw lookup_insert_eq Hh. split; [done|congruence].
    + exists id0, t0. by rw lookup_insert_ne.
  - apply (li_inj _ HI).
  - intros id0 t0 r Ht0 Hr. lookup_in Ht0; [rw Hh in Hr|]; by eapply li_holds.
  - intros id1 id2 t1 t2 r H1 H2 Hr1 Hr2.
    lookup_in H1; lookup_in H2; [done|rw Hh in Hr1|rw Hh in Hr2|]; by eapply (li_owner _ HI).
  - intros id0 t0 k' l' Ht0 Hw. lookup_in Ht0.
    + injection Hw as <- <-. split; [done|]. split; [done|]. eexists. rw lookup_insert_eq.
      split; [done|]. simpl. apply elem_of_app. right. by apply list_elem_of_singleton.
    + destruct (li_waiting _ HI _ _ _ _ Ht0 Hw) as (Hk' & Ha' & lk' & Hlk' & Hin).
      split; [done|]. split; [done|]. destruct (decide (l = l')) as [<-|].
      * eexists. rw lookup_insert_eq. split; [done|]. simpl. apply elem_of_app. left. congruence.
      * exists lk'. by rw lookup_insert_ne.
  - intros k' l' lk' w Hk' Hlk' Hw. lookup_in Hlk'.
    + assert (k' = k) as -> by by eapply li_inj. simpl in Hw.
      apply elem_of_app in Hw as [Hw| ->%list_elem_of_singleton].
      * destruct (li_waiters _ HI _ _ _ _ Hk Hl Hw) as (t0 & Ht0 & Hst0 & Hsig).
        exists t0. rw lookup_insert_ne; [by apply not_eq_sym, Hnew|done].
      * exists t'. simpl. by rw lookup_insert_eq.
    + destruct (li_waiters _ HI _ _ _ _ Hk' Hlk' Hw) as (t0 & Ht0 & Hst0 & Hsig).
      exists t0. rw lookup_insert_ne; [intros Heq; subst id; congruence|done].
  - intros k' l' lk' Hk' Hlk'. lookup_in Hlk'; [|by eapply li_nodup]. simpl.
    apply NoDup_app. split; [by eapply (li_nodup _ HI k)|]. split; [|by apply NoDup_singleton].
    intros w Hw ->%list_elem_of_singleton. by apply Hnew in Hw.
  - intros id0 t0 Ht0. lookup_in Ht0; [done|]. by eapply li_sorted.
Qed.

Lemma StronglySorted_before_NoDup l : StronglySorted before l → NoDup l.
Proof.
  induction 1 as [|x l Hs IH Hall]; constructor; [|done]. intros Hx.
  by apply (before_irrefl x), (proj1 (Forall_forall _ _) Hall).
Qed.

Lemma holds_NoDup t : StronglySorted before (sequence t) → NoDup (r_key <$> holds t).
Proof.
  intros [Hs _]%StronglySorted_before_NoDup%NoDup_app. rw -(reverse_involutive (r_key <$> holds t)).
  by rw reverse_Permutation.
Qed.

(** Two closures of one key are one closure of one task. *)
Lemma LInv_unique st id id' t t' r r' :
  LInv st → tasks st !! id = Some t → tasks st !! id' = Some t' →
  r ∈ holds t → r' ∈ holds t' → r_key r = r_key r' → r = r' ∧ id = id'.
Proof.
  intros HI Ht Ht' Hr Hr' Hk. assert (r = r') as <-.
  { pose proof (li_holds _ HI _ _ _ Ht Hr). pose proof (li_holds _ HI _ _ _ Ht' Hr').
    destruct r, r'. simpl in *. congruence. }
  split; [done|]. by eapply (li_owner _ HI).
Qed.

Section release.
Context (st : state) (id : nat) (t : Task) (r : Release) (rs : list Release) (lk : ResourceLock).
Context (HI : LInv st) (Ht : tasks st !! id = Some t) (Hst : t_stage t = Stepping).
Context (Hrs : releases t = r :: rs) (Hlk : heap st !! r_lock r = Some lk).

Let t' : Task := withReleases rs t.

Lemma rel_holds r' : r' ∈ holds t ↔ r' = r ∨ r' ∈ holds t'.
Proof. unfold t', holds. simpl. rw Hst Hrs. apply elem_of_cons. Qed.

Lemma rel_fresh r' : r' ∈ holds t' → r_key r' ≠ r_key r.
Proof.
  intros Hin Hk. pose proof (holds_NoDup _ (li_sorted _ HI _ _ Ht)) as Hn.
  unfold holds in Hn. rw Hst Hrs in Hn. apply NoDup_cons in Hn as [Hn _]. apply Hn.
  rw -Hk. apply list_elem_of_fmap_2. unfold t', holds in Hin. simpl in Hin. by rw Hst in Hin.
Qed.

Lemma rel_sorted : StronglySorted before (sequence t').
Proof.
  pose proof (li_sorted _ HI _ _ Ht) as Hs. unfold sequence, t', holds in *. simpl in *.
  rw Hst Hrs in Hs. rw Hst. simpl in *. rw reverse_cons -app_assoc in Hs.
  apply StronglySorted_app in Hs as (Hab & Ha & Hb). apply StronglySorted_app.
  simpl in *. apply StronglySorted_inv in Hb as [Hb _].
  split; [|done]. intros x y Hx Hy. apply Hab; [done|]. by right.
Qed.

Lemma rel_key : locks st !! r_key r = Some (r_lock r).
Proof. apply (li_holds _ HI _ _ _ Ht). apply rel_holds. by left. Qed.

Lemma rel_other id0 t0 r0 :
  tasks st !! id0 = Some t0 → r0 ∈ holds t0 → id0 ≠ id → r_key r0 ≠ r_key r.
Proof.
  intros Ht0 Hr0 Hne Hk. apply Hne. apply (LInv_unique st id0 id t0 t r0 r HI Ht0 Ht Hr0); [|done].
  apply rel_holds. by left.
Qed.

(** Nobody waits: the key becomes free. *)
Lemma LInv_unlock :
  waiters lk = [] →
  LInv (withLocks (delete (r_key r) (locks st))
    (<[r_lock r := {| held := false; waiters := [] |}]> (heap st)) (next_lock st) (setTask id t' st)).
Proof.
  intros Hw. pose proof rel_key as Hk. constructor; simpl.
  - intros k l [Hne Hkl]%lookup_delete_Some.
    destruct (li_locked _ HI _ _ Hkl) as ((lk' & Hlk' & Hheld) & Hlt & id0 & t0 & Ht0 & Hr).
    split; [exists lk'; rw lookup_insert_ne; [|done]; intros Heq; apply Hne;
            eapply (li_inj _ HI); [exact Hk|by rw Heq]|].
    split; [done|]. destruct (decide (id0 = id)) as [->|Hid].
    + exists id, t'. rw lookup_insert_eq. split; [done|]. rw Ht in Ht0. injection Ht0 as <-.
      apply rel_holds in Hr as [Heq|]; [|done]. by rw -Heq in Hne.
    + exists id0, t0. by rw lookup_insert_ne.
  - intros k k' l [_ H1]%lookup_delete_Some [_ H2]%lookup_delete_Some. by eapply li_inj.
  - intros id0 t0 r0 Ht0 Hr0. lookup_in Ht0.
    + rw lookup_delete_ne; [by apply not_eq_sym, rel_fresh|].
      apply (li_holds _ HI _ _ _ Ht). apply rel_holds. by right.
    + rw lookup_delete_ne; [by eapply not_eq_sym, rel_other|]. by eapply li_holds.
  - intros id1 id2 t1 t2 r0 H1 H2 Hr1 Hr2. lookup_in H1; lookup_in H2; [done|..].
    + eapply (li_owner _ HI); [exact Ht|done| |done]. apply rel_holds. by right.
    + eapply (li_owner _ HI); [done|exact Ht|done|]. apply rel_holds. by right.
    + by eapply (li_owner _ HI).
  - intros id0 t0 k l Ht0 Hs0. lookup_in Ht0; [by simpl in Hs0; rw Hst in Hs0|].
    destruct (li_waiting _ HI _ _ _ _ Ht0 Hs0) as (Hkl & Ha & lk' & Hlk' & Hin).
    assert (l ≠ r_lock r).
    { intros ->. rw Hlk in Hlk'. injection Hlk' as <-. rw Hw in Hin. by apply not_elem_of_nil in Hin. }
    split; [rw lookup_delete_ne; [congruence|done]|]. split; [done|]. exists lk'.
    by rw lookup_insert_ne.
  - intros k l lk' w [_ Hkl]%lookup_delete_Some Hlk' Hin. lookup_in Hlk'; [by apply not_elem_of_nil in Hin|].
    destruct (li_waiters _ HI _ _ _ _ Hkl Hlk' Hin) as (t0 & Ht0 & Hst0 & Hsig).
    exists t0. rw lookup_insert_ne; [intros Heq; subst id; congruence|done].
  - intros k l lk' [_ Hkl]%lookup_delete_Some Hlk'. lookup_in Hlk'; [constructor|by eapply li_nodup].
  - intros id0 t0 Ht0. lookup_in Ht0; [apply rel_sorted|]. by eapply li_sorted.
Qed.

(** The first waiter gets the key. *)
Lemma LInv_grant w ws tw :
  waiters lk = w :: ws → tasks st !! w_task w = Some tw →
  LInv (setTask (w_task w) (withStage (Acquired r) tw)
    (withLocks (locks st) (<[r_lock r := {| held := true; waiters := ws |}]> (heap st)) (next_lock st)
       (setTask id t' st))).
Proof.
  intros Hw Htw. pose proof rel_key as Hk.
  assert (Hwin : ∀ w', w' ∈ w :: ws → ∃ t0, tasks st !! w_task w' = Some t0 ∧
            t_stage t0 = Waiting (r_key r) (r_lock r) ∧ w_signal w' = t_signal t0).
  { intros w' Hin. apply (li_waiters _ HI _ _ lk); [done|done|by rw Hw]. }
  destruct (Hwin w) as (tw0 & Htw0 & Hstw & Hsig); [by left|]. rw Htw in Htw0. injection Htw0 as <-.
  assert (Hne : w_task w ≠ id) by (intros Heq; rw Heq in Htw; congruence).
  pose proof (li_nodup _ HI _ _ _ Hk Hlk) as Hnd. rw Hw in Hnd. apply NoDup_cons in Hnd as [Hnw Hnd].
  set (tw' := withStage (Acquired r) tw).
  assert (Hhw : ∀ r0, r0 ∈ holds tw' ↔ r0 = r ∨ r0 ∈ holds tw).
  { intros r0. unfold tw', holds. simpl. rw Hstw. apply elem_of_cons. }
  assert (Hget : ∀ id0 t0, <[w_task w := tw']> (<[id := t']> (tasks st)) !! id0 = Some t0 →
            id0 = w_task w ∧ t0 = tw' ∨ id0 = id ∧ t0 = t' ∨
            id0 ≠ w_task w ∧ id0 ≠ id ∧ tasks st !! id0 = Some t0).
  { intros id0 t0 H. lookup_in H; [by left|]. lookup_in H; [by right; left|]. right. right. done. }
  assert (Hold : ∀ id0 t0 r0, <[w_task w := tw']> (<[id := t']> (tasks st)) !! id0 = Some t0 →
            r0 ∈ holds t0 → (id0 = w_task w ∧ r0 = r) ∨
              (r_key r0 ≠ r_key r ∧ ∃ t1, tasks st !! id0 = Some t1 ∧ r0 ∈ holds t1)).
  { intros id0 t0 r0 [[-> ->]|[[-> ->]|(H1 & H2 & Ht0)]]%Hget Hr0.
    - apply Hhw in Hr0 as [->|Hr0]; [by left|right]. split; [by eapply rel_other|eauto].
    - right. split; [by apply rel_fresh|]. exists t. split; [done|]. apply rel_holds. by right.
    - right. split; [by eapply rel_other|eauto]. }
  constructor; simpl.
  - intros k l Hkl. destruct (li_locked _ HI _ _ Hkl) as ((lk' & Hlk' & Hheld) & Hlt & id0 & t0 & Ht0 & Hr).
    split.
    { destruct (decide (r_lock r = l)) as [<-|]; [|exists lk'; by rw lookup_insert_ne].
      eexists. by rw lookup_insert_eq. }
    split; [done|]. destruct (decide (k = r_key r)) as [->|Hkne].
    + exists (w_task w), tw'. rw lookup_insert_eq. split; [done|]. apply Hhw. left.
      rw Hk in Hkl. destruct r. simpl in *. congruence.
    + destruct (decide (id0 = w_task w)) as [->|]; [|destruct (decide (id0 = id)) as [->|]].
      * exists (w_task w), tw'. rw lookup_insert_eq. split; [done|]. apply Hhw. right. congruence.
      * exists id, t'. rw lookup_insert_ne; [done|]. rw lookup_insert_eq. split; [done|].
        rw Ht in Ht0. injection Ht0 as <-. apply rel_holds in Hr as [Heq|]; [|done]. by rw -Heq in Hkne.
      * exists id0, t0. by rw lookup_insert_ne; [|rw lookup_insert_ne].
  - apply (li_inj _ HI).
  - intros id0 t0 r0 Ht0 Hr0. destruct (Hold _ _ _ Ht0 Hr0) as [[-> ->]|(_ & t1 & Ht1 & Hr1)]; [done|].
    by eapply li_holds.
  - intros id1 id2 t1 t2 r0 H1 H2 Hr1 Hr2.
    destruct (Hold _ _ _ H1 Hr1) as [[-> ->]|(Hk1 & t3 & Ht3 & Hr3)],
      (Hold _ _ _ H2 Hr2) as [[-> ?]|(Hk2 & t4 & Ht4 & Hr4)]; [done|done|by subst|].
    by eapply (li_owner _ HI).
  - intros id0 t0 k l Ht0 Hs0. apply Hget in Ht0 as [[-> ->]|[[-> ->]|(H1 & H2 & Ht0)]];
      [done|by simpl in Hs0; rw Hst in Hs0|].
    destruct (li_waiting _ HI _ _ _ _ Ht0 Hs0) as (Hkl & Ha & lk' & Hlk' & Hin).
    split; [done|]. split; [done|]. destruct (decide (r_lock r = l)) as [<-|]; [|exists lk'; by rw lookup_insert_ne].
    eexists. rw lookup_insert_eq. split; [done|]. simpl. rw Hlk in Hlk'. injection Hlk' as <-.
    rw Hw in Hin. apply elem_of_cons in Hin as [Heq|]; [|done]. by rw -Heq in H1.
  - intros k l lk' w' Hkl Hlk' Hin.
    assert (∃ t0, tasks st !! w_task w' = Some t0 ∧ t_stage t0 = Waiting k l ∧
              w_signal w' = t_signal t0 ∧ w_task w' ≠ w_task w) as (t0 & Ht0 & Hst0 & Hsig0 & Hne0).
    { lookup_in Hlk'.
      - assert (k = r_key r) as -> by by eapply li_inj. simpl in Hin.
        destruct (Hwin w') as (t0 & Ht0 & Hst0 & Hsig0); [by right|]. exists t0.
        split; [done|]. split; [done|]. split; [done|]. intros Heq. apply Hnw.
        rw Heq Htw in Ht0. injection Ht0 as <-. destruct w, w'. simpl in *. congruence.
      - destruct (li_waiters _ HI _ _ _ _ Hkl Hlk' Hin) as (t0 & Ht0 & Hst0 & Hsig0). exists t0.
        split; [done|]. split; [done|]. split; [done|]. intros Heq. rw Heq Htw in Ht0.
        injection Ht0 as <-. congruence. }
    exists t0. rw lookup_insert_ne; [done|]. rw lookup_insert_ne; [|done].
    intros Heq. subst id. congruence.
  - intros k l lk' Hkl Hlk'. lookup_in Hlk'; [done|by eapply li_nodup].
  - intros id0 t0 [[-> ->]|[[-> ->]|(_ & _ & Ht0)]]%Hget; [|apply rel_sorted|by eapply li_sorted].
    pose proof (li_sorted _ HI _ _ Htw) as Hs. unfold sequence, tw', holds in *. simpl.
    rw Hstw in Hs. by rw reverse_cons -app_assoc.
Qed.
End release.

(** What happens to the other tasks meanwhile: a waiting one may be handed its key. *)
Definition granted (t t' : Task) : Prop :=
  t' = t ∨ ∃ r, t_stage t = Waiting (r_key r) (r_lock r) ∧ t' = withStage (Acquired r) t.

#[export] Instance granted_preorder : PreOrder granted.
Proof.
  split; [by left|]. intros t1 t2 t3 [->|(r & Hr & ->)] [->|(r' & Hr' & ->)]; [by left|..]; try by right; eauto.
Qed.

Definition frame (id : nat) (st st' : state) : Prop :=
  aborted st' = aborted st ∧ ∀ j, j ≠ id → option_Forall2 granted (tasks st !! j) (tasks st' !! j).

#[export] Instance frame_preorder id : PreOrder (frame id).
Proof.
  split; [intros st; split; [done|]; intros j _; by destruct (tasks st !! j); constructor|].
  intros s1 s2 s3 [Ha Hf] [Ha' Hf']. split; [congruence|]. intros j Hj.
  etrans; [by apply Hf|by apply Hf'].
Qed.

Lemma frame_tasks id t st st' :
  aborted st' = aborted st → tasks st' = <[id := t]> (tasks st) → frame id st st'.
Proof.
  intros Ha Hs. split; [done|]. intros j Hj. rw Hs. rw lookup_insert_ne; [done|].
  by destruct (tasks st !! j); constructor.
Qed.

Lemma frame_setTask id t st : frame id st (setTask id t st).
Proof. by eapply frame_tasks. Qed.

(** A release keeps the invariant, and leaves the task itself alone. *)
Lemma LInv_release st id t r rs :
  LInv st → tasks st !! id = Some t → t_stage t = Stepping → releases t = r :: rs →
  let st' := release r (setTask id (withReleases rs t) st) in
  LInv st' ∧ tasks st' !! id = Some (withReleases rs t) ∧ frame id st st'.
Proof.
  intros HI Ht Hst Hrs st'.
  assert (Hr : r ∈ holds t) by (unfold holds; rw Hst Hrs; by left).
  pose proof (li_holds _ HI _ _ _ Ht Hr) as Hk.
  destruct (li_locked _ HI _ _ Hk) as ((lk & Hlk & Hheld) & _).
  subst st'. unfold release. simpl. rw Hlk. destruct (waiters lk) as [|w ws] eqn:Hw; simpl.
  - rw Hk. rw bool_decide_true; [done|]. simpl.
    split; [by apply (LInv_unlock st id t r rs lk)|]. split; [apply lookup_insert_eq|].
    apply (frame_setTask id (withReleases rs t) st).
  - destruct (li_waiters _ HI _ _ _ w Hk Hlk) as (tw & Htw & Hstw & Hsig); [rw Hw; by left|].
    destruct (li_waiting _ HI _ _ _ _ Htw Hstw) as (_ & Ha & _).
    assert (Hne : w_task w ≠ id) by (intros Heq; rw Heq in Htw; congruence).
    rw Hsig. unfold isAborted in *. simpl. rw Ha. unfold setStage. simpl.
    rw lookup_insert_ne; [done|]. rw Htw.
    split; [by apply (LInv_grant st id t r rs lk HI Ht Hst Hrs Hlk w ws tw)|].
    simpl. split; [rw lookup_insert_ne; [done|]; apply lookup_insert_eq|].
    split; [done|]. intros j Hj. simpl. destruct (decide (j = w_task w)) as [->|Hjw].
    + rw Htw lookup_insert_eq. constructor. right. eauto.
    + rw lookup_insert_ne; [done|]. rw lookup_insert_ne; [done|].
      by destruct (tasks st !! j); constructor.
Qed.

Lemma LInv_unwind rs st id t :
  LInv st → tasks st !! id = Some t → t_stage t = Stepping → releases t = rs →
  LInv (unwind id rs st) ∧ tasks (unwind id rs st) !! id = Some (withReleases [] t) ∧
  frame id st (unwind id rs st).
Proof.
  revert st t. induction rs as [|r rs IH]; intros st t HI Ht Hst Hrs; simpl.
  - split; [done|]. split; [|done]. rw Ht. f_equal. destruct t. simpl in *. by subst.
  - rw Ht. destruct (LInv_release st id t r rs HI Ht Hst Hrs) as (HI' & Ht' & Hf).
    destruct (IH _ _ HI' Ht' Hst eq_refl) as (HI2 & Ht2 & Hf2).
    split; [done|]. split; [done|]. by etrans.
Qed.

(** Not at an [await] of an acquire. *)
Definition between (s : stage) : bool :=
  match s with Waiting _ _ | Acquired _ => false | _ => true end.

Lemma LInv_stage st id t s :
  LInv st → tasks st !! id = Some t → between (t_stage t) = true → between s = true →
  LInv (setTask id (withStage s t) st).
Proof.
  intros HI Ht Hst Hs.
  assert (Hh : holds (withStage s t) = holds t).
  { unfold holds. simpl. by destruct (t_stage t), s. }
  apply LInv_setTask; [done|..].
  - intros r. rw Hh. split; [eauto|]. intros (t0 & Ht0 & Hr). congruence.
  - intros t0 k l Ht0. rw Ht in Ht0. injection Ht0 as <-. by destruct (t_stage t).
  - intros k l. simpl. by destruct s.
  - pose proof (li_sorted _ HI _ _ Ht) as Hsort. unfold sequence in *. rw Hh. simpl.
    by destruct (t_stage t), s.
Qed.

Lemma LInv_finish st id t :
  LInv st → tasks st !! id = Some t → between (t_stage t) = true →
  LInv (finish id st) ∧ tasks (finish id st) !! id = Some (withReleases [] (withStage Over t)) ∧
  frame id st (finish id st).
Proof.
  intros HI Ht Hst. unfold finish. rw Ht.
  assert (HI1 : LInv (setTask id (withStage Stepping t) st)) by by apply LInv_stage.
  destruct (LInv_unwind (releases t) _ id (withStage Stepping t) HI1) as (HI2 & Ht2 & Hf);
    [apply lookup_insert_eq|done..|].
  unfold setStage. rw Ht2. split; [by apply LInv_stage|]. split; [apply lookup_insert_eq|].
  etrans; [apply frame_setTask|]. etrans; [exact Hf|]. apply frame_setTask.
Qed.

Lemma elem_of_splice w w' ws : NoDup ws → w' ∈ splice w ws ↔ w' ∈ ws ∧ w' ≠ w.
Proof.
  induction 1 as [|x ws Hx Hn IH]; simpl; [split; [by intros ?%not_elem_of_nil|by intros [? _]]|].
  case_bool_decide as Hd.
  - subst x. rw elem_of_cons. split; [|by intros [[->|] ?]]. intros Hin. split; [by right|].
    by intros ->.
  - rw !elem_of_cons IH. split; [intros [->|[? ?]]; eauto|]. intros [[->|] ?]; eauto.
Qed.

Lemma NoDup_splice w ws : NoDup ws → NoDup (splice w ws).
Proof.
  induction 1 as [|x ws Hx Hn IH]; simpl; [constructor|]. case_bool_decide; [done|].
  constructor; [|done]. rw elem_of_splice; [done|]. by intros [? _].
Qed.

(** Leaving the queue. *)
Lemma LInv_onAbort st id t k l lk :
  LInv st → tasks st !! id = Some t → t_stage t = Waiting k l → heap st !! l = Some lk →
  LInv (setTask id (withStage Refused t)
    (withLocks (locks st)
       (<[l := {| held := held lk; waiters := splice {| w_task := id; w_signal := t_signal t |} (waiters lk) |}]>
          (heap st)) (next_lock st) st)).
Proof.
  intros HI Ht Hst Hlk. destruct (li_waiting _ HI _ _ _ _ Ht Hst) as (Hk & _ & _).
  set (t' := withStage Refused t). set (w := {| w_task := id; w_signal := t_signal t |}).
  assert (Hh : holds t' = holds t) by (unfold t', holds; simpl; by rw Hst).
  pose proof (li_nodup _ HI _ _ _ Hk Hlk) as Hn.
  constructor; simpl.
  - intros k' l' Hk'. destruct (li_locked _ HI _ _ Hk') as ((lk' & Hlk' & Hheld) & Hlt & id0 & t0 & Ht0 & Hr).
    split.
    { destruct (decide (l = l')) as [<-|]; [|exists lk'; by rw lookup_insert_ne].
      eexists. rw lookup_insert_eq. split; [done|]. simpl. congruence. }
    split; [done|]. destruct (decide (id0 = id)) as [->|Hne].
    + exists id, t'. rw lookup_insert_eq Hh. split; [done|congruence].
    + exists id0, t0. by rw lookup_insert_ne.
  - apply (li_inj _ HI).
  - intros id0 t0 r Ht0 Hr. lookup_in Ht0; [rw Hh in Hr|]; by eapply li_holds.
  - intros id1 id2 t1 t2 r H1 H2 Hr1 Hr2.
    lookup_in H1; lookup_in H2; [done|rw Hh in Hr1|rw Hh in Hr2|]; by eapply (li_owner _ HI).
  - intros id0 t0 k' l' Ht0 Hw. lookup_in Ht0; [done|].
    destruct (li_waiting _ HI _ _ _ _ Ht0 Hw) as (Hk' & Ha' & lk' & Hlk' & Hin).
    split; [done|]. split; [done|]. destruct (decide (l = l')) as [<-|]; [|exists lk'; by rw lookup_insert_ne].
    eexists. rw lookup_insert_eq. split; [done|]. simpl. apply elem_of_splice; [done|].
    split; [congruence|]. intros [= ? _]. congruence.
  - intros k' l' lk' w' Hk' Hlk' Hw. 
    assert (∃ t0, tasks st !! w_task w' = Some t0 ∧ t_stage t0 = Waiting k' l' ∧
              w_signal w' = t_signal t0 ∧ w_task w' ≠ id) as (t0 & Ht0 & Hst0 & Hsig0 & Hne0).
    { lookup_in Hlk'.
      - assert (k' = k) as -> by by eapply li_inj. simpl in Hw.
        apply elem_of_splice in Hw as [Hw Hne]; [|done].
        destruct (li_waiters _ HI _ _ _ _ Hk Hlk Hw) as (t0 & Ht0 & Hst0 & Hsig). exists t0.
        split; [done|]. split; [done|]. split; [done|]. intros Heq. apply Hne. unfold w.
        destruct w' as [i sg]. simpl in *. subst i. f_equal. congruence.
      - destruct (li_waiters _ HI _ _ _ _ Hk' Hlk' Hw) as (t0 & Ht0 & Hst0 & Hsig). exists t0.
        split; [done|]. split; [done|]. split; [done|]. intros Heq. congruence. }
    exists t0. by rw lookup_insert_ne; [apply not_eq_sym|].
  - intros k' l' lk' Hk' Hlk'. lookup_in Hlk'; [by apply NoDup_splice|by eapply li_nodup].
  - intros id0 t0 Ht0. lookup_in Ht0; [|by eapply li_sorted].
    pose proof (li_sorted _ HI _ _ Ht) as Hs. unfold sequence in *. rw Hst in Hs.
    rw Hh. apply StronglySorted_app in Hs as (Hab & Ha & Hb). apply StronglySorted_app.
    simpl in *. apply StronglySorted_inv in Hb as [Hb _]. split; [|done].
    intros x y Hx Hy. apply Hab; [done|]. by right.
Qed.

(** ** Whole events *)

(** A task between events. *)
Record TaskOk (t : Task) : Prop := {
  ok_sequence : active (t_stage t) = true → sequence t = uniqueSorted (t_requested t);
  ok_entered : t_stage t = Entered → t_keys t = [];
  ok_over : t_stage t = Over → releases t = [];
  ok_idle : t_stage t ≠ Stepping;
}.

Definition Inv (st : state) : Prop := LInv st ∧ map_Forall (λ _, TaskOk) (tasks st).

Lemma TaskOk_granted t t' : granted t t' → TaskOk t → TaskOk t'.
Proof.
  intros [->|(r & Hr & ->)] HT; [done|]. split; simpl; [|done..]. intros _.
  rw -(ok_sequence _ HT); [by rw Hr|]. unfold sequence, holds. simpl. rw Hr. simpl.
  by rw reverse_cons -app_assoc.
Qed.

Lemma Inv_frame id st st' t' :
  LInv st' → frame id st st' → (∀ j t, j ≠ id → tasks st !! j = Some t → TaskOk t) →
  tasks st' !! id = Some t' → TaskOk t' → Inv st'.
Proof.
  intros HI [_ Hf] Hok Ht' HT'. split; [done|]. intros j t Ht. destruct (decide (j = id)) as [->|Hj].
  - congruence.
  - specialize (Hf _ Hj). rw Ht in Hf. inversion Hf as [t0 ? Hg Ht0|]. simplify_eq.
    eapply TaskOk_granted; [exact Hg|]. by eapply Hok.
Qed.

Section step.
Context (st : state) (id : nat) (t : Task).
Context (HI : LInv st) (Ht : tasks st !! id = Some t) (Hst : t_stage t = Stepping).
Context (Hok : ∀ j t, j ≠ id → tasks st !! j = Some t → TaskOk t).

Lemma acquire_Inv k :
  reverse (r_key <$> releases t) ++ k :: t_keys t = uniqueSorted (t_requested t) →
  Inv (acquire id k st).
Proof.
  intros Hseq. pose proof (uniqueSorted_sorted (t_requested t)) as Hsort. rw -Hseq in Hsort.
  unfold acquire. rw Ht. destruct (isAborted st (t_signal t)) eqn:Ha.
  { eapply (Inv_frame id st); [apply LInv_stage; [done|done|by rw Hst|done]|apply frame_setTask|done|
      apply lookup_insert_eq|by split]. }
  destruct (locks st !! k) as [l|] eqn:Hk; simpl.
  - destruct (li_locked _ HI _ _ Hk) as ((lk & Hlk & Hheld) & _). rw Hlk. simpl. rw Hheld. simpl.
    rw insert_insert_eq insert_id; [done|]. rw -Hheld.
    eapply (Inv_frame id st); [apply (LInv_enqueue st id t k l lk); [done..|]| |done|apply lookup_insert_eq|].
    + unfold sequence, holds. simpl. exact Hsort.
    + by eapply frame_tasks.
    + split; [intros _; unfold sequence, holds; simpl; exact Hseq|done..].
  - rw insert_insert_eq.
    assert (Hs : sequence (withStage (Acquired {| r_key := k; r_lock := next_lock st |}) t)
                 = reverse (r_key <$> releases t) ++ k :: t_keys t).
    { unfold sequence, holds. simpl. by rw reverse_cons -app_assoc. }
    eapply (Inv_frame id st); [apply (LInv_take st id t k); [done..|]| |done|apply lookup_insert_eq|].
    + by rw Hs.
    + by eapply frame_tasks.
    + split; [intros _; by rw Hs|done..].
Qed.

Lemma finish_Inv : Inv (finish id st).
Proof.
  destruct (LInv_finish st id t HI Ht) as (HI' & Ht' & Hf); [by rw Hst|].
  eapply Inv_frame; [exact HI'|exact Hf|done|exact Ht'|by split].
Qed.
End step.

Lemma proceed_Inv st id t :
  LInv st → tasks st !! id = Some t → t_stage t = Stepping →
  (∀ j t, j ≠ id → tasks st !! j = Some t → TaskOk t) →
  reverse (r_key <$> releases t) ++ t_keys t = uniqueSorted (t_requested t) →
  Inv (proceed id st).
Proof.
  intros HI Ht Hst Hok Hseq. unfold proceed. rw Ht. destruct (t_keys t) as [|k ks] eqn:Hks.
  - destruct (isAborted st (t_signal t)); [by eapply finish_Inv|].
    eapply (Inv_frame id st); [apply LInv_stage; [done|done|by rw Hst|done]|apply frame_setTask|done|
      apply lookup_insert_eq|].
    split; [intros _|done|done|done]. unfold sequence, holds. simpl. by rw Hks.
  - assert (Hsort : StronglySorted before (sequence (withKeys ks t))).
    { pose proof (li_sorted _ HI _ _ Ht) as Hs. unfold sequence, holds in *. simpl.
      rw Hst Hks in Hs. rw Hst. simpl in *.
      apply StronglySorted_app in Hs as (Hab & Ha & Hb). apply StronglySorted_app.
      apply StronglySorted_inv in Hb as [Hb _]. split; [|done]. intros x y Hx Hy.
      apply Hab; [done|by right]. }
    eapply (acquire_Inv _ id (withKeys ks t)); [|apply lookup_insert_eq|done| |exact Hseq].
    + apply LInv_setTask; [done| |intros ?? ? Ht0; rw Ht in Ht0; injection Ht0 as <-; by rw Hst|
        by intros ??; simpl; rw Hst|done].
      intros r. split; [intros Hr; exists t; split; [done|]|intros (t0 & Ht0 & Hr); rw Ht in Ht0;
        injection Ht0 as <-]; unfold holds in *; simpl in *; by destruct (t_stage t).
    + intros j t0 Hj Ht0. simpl in Ht0. rw lookup_insert_ne in Ht0; [done|]. by eapply Hok.
Qed.

Lemma start_Inv id keys signal st : Inv st → Inv (start id keys signal st).
Proof.
  intros [HI Hok]. unfold start. destruct (tasks st !! id) eqn:Ht; [done|].
  eapply proceed_Inv; [|apply lookup_insert_eq|done| |done].
  - apply LInv_setTask; [done| |congruence|done|apply uniqueSorted_sorted].
    intros r. unfold holds. simpl. split; [by intros ?%not_elem_of_nil|]. intros (t & ? & _). congruence.
  - intros j t Hj Ht0. simpl in Ht0. rw lookup_insert_ne in Ht0; [done|]. by eapply Hok.
Qed.

(** Taking the closure a fulfilled acquire delivers. *)
Lemma resume_LInv st id t r :
  LInv st → tasks st !! id = Some t → t_stage t = Acquired r →
  LInv (setTask id (withReleases (r :: releases t) (withStage Stepping t)) st).
Proof.
  intros HI Ht Hst. set (t' := withReleases _ _).
  assert (Hh : holds t' = holds t) by (unfold t', holds; simpl; by rw Hst).
  apply LInv_setTask; [done| |intros t0 ?? Ht0; rw Ht in Ht0; injection Ht0 as <-; by rw Hst|done|].
  - intros r0. rw Hh. split; [eauto|]. intros (t0 & Ht0 & Hr). congruence.
  - pose proof (li_sorted _ HI _ _ Ht) as Hs. unfold sequence in *. rw Hh. by rw Hst in Hs.
Qed.

Lemma resume_Inv id st : Inv st → Inv (resume id st).
Proof.
  intros [HI Hok]. unfold resume. destruct (tasks st !! id) as [t|] eqn:Ht; [|done].
  pose proof (Hok _ _ Ht) as HT. destruct (t_stage t) as [|r| |k l| |] eqn:Hst; try done.
  - set (t' := withReleases (r :: releases t) (withStage Stepping t)).
    assert (Hh : holds t' = holds t) by (unfold t', holds; simpl; by rw Hst).
    assert (Hseq : sequence t' = sequence t) by (unfold sequence; rw Hh; simpl; by rw Hst).
    eapply (proceed_Inv _ id t'); [by apply resume_LInv|apply lookup_insert_eq|done| |].
    + intros j t0 Hj Ht0. simpl in Ht0. rw lookup_insert_ne in Ht0; [done|]. by eapply Hok.
    + transitivity (sequence t'); [done|]. rw Hseq. apply (ok_sequence _ HT). by rw Hst.
  - destruct (LInv_finish st id t HI Ht) as (HI' & Ht' & Hf); [by rw Hst|].
    eapply Inv_frame; [exact HI'|exact Hf| |exact Ht'|by split]. intros j t0 _ Ht0. by eapply Hok.
Qed.

Lemma leave_Inv id st : Inv st → Inv (leave id st).
Proof.
  intros [HI Hok]. unfold leave. destruct (tasks st !! id) as [t|] eqn:Ht; [|done].
  destruct (t_stage t) as [|r| |k l| |] eqn:Hst; try done.
  destruct (LInv_finish st id t HI Ht) as (HI' & Ht' & Hf); [by rw Hst|].
  eapply Inv_frame; [exact HI'|exact Hf| |exact Ht'|by split]. intros j t0 _ Ht0. by eapply Hok.
Qed.

Definition withAborted (a : gset nat) (st : state) : state :=
  {| locks := locks st; heap := heap st; next_lock := next_lock st; tasks := tasks st; aborted := a |}.

Lemma onAbort_withAborted a id st : onAbort id (withAborted a st) = withAborted a (onAbort id st).
Proof. unfold onAbort. simpl. by repeat case_match. Qed.

Lemma onAborts_withAborted a l st :
  foldl (λ st id, onAbort id st) (withAborted a st) l =
  withAborted a (foldl (λ st id, onAbort id st) st l).
Proof. revert st. induction l as [|id l IH]; intros st; simpl; [done|]. by rw onAbort_withAborted IH. Qed.

Lemma onAbort_Inv id st :
  Inv st → Inv (onAbort id st) ∧ aborted (onAbort id st) = aborted st ∧
  ∀ j t k l, tasks (onAbort id st) !! j = Some t → t_stage t = Waiting k l →
    tasks st !! j = Some t ∧ j ≠ id.
Proof.
  intros HIst. pose proof HIst as [HI Hok]. unfold onAbort. destruct (tasks st !! id) as [t|] eqn:Ht.
  2:{ split; [done|]. split; [done|]. intros j t k l Hj _. split; [done|]. intros ->. congruence. }
  destruct (t_stage t) as [|r| |k l| |] eqn:Hst;
    try (split; [done|]; split; [done|]; intros j t0 k0 l0 Hj Hw; split; [done|]; intros ->; congruence).
  destruct (li_waiting _ HI _ _ _ _ Ht Hst) as (Hk & _ & lk & Hlk & Hin).
  destruct (li_locked _ HI _ _ Hk) as ((lk' & Hlk' & Hheld) & _). rw Hlk in Hlk'. injection Hlk' as <-.
  rw Hlk. rw bool_decide_true; [done|]. rw Hheld. simpl. rw -Hheld.
  split; [|split; [done|]].
  - eapply (Inv_frame id st); [by apply (LInv_onAbort st id t k l lk)|by eapply frame_tasks| |
      apply lookup_insert_eq|by split].
    intros j t0 _ Ht0. by eapply Hok.
  - intros j t0 k0 l0 Ht0 Hw. simpl in Ht0. lookup_in Ht0; [done|]. by split; [|apply not_eq_sym].
Qed.

Lemma onAborts_Inv l st :
  Inv st → let st' := foldl (λ st id, onAbort id st) st l in
  Inv st' ∧ aborted st' = aborted st ∧
  ∀ j t k l', tasks st' !! j = Some t → t_stage t = Waiting k l' → tasks st !! j = Some t ∧ j ∉ l.
Proof.
  revert st. induction l as [|id l IH]; intros st HI; simpl.
  - split; [done|]. split; [done|]. intros j t k l' Ht _. split; [done|apply not_elem_of_nil].
  - destruct (onAbort_Inv id st HI) as (HI1 & Ha1 & Hw1). destruct (IH _ HI1) as (HI2 & Ha2 & Hw2).
    split; [done|]. split; [congruence|]. intros j t k l' Ht Hs.
    destruct (Hw2 _ _ _ _ Ht Hs) as [Ht1 Hnin]. destruct (Hw1 _ _ _ _ Ht1 Hs) as [Ht0 Hne].
    split; [done|]. by apply not_elem_of_cons.
Qed.

Lemma abort_Inv s st : Inv st → Inv (abort s st).
Proof.
  intros HIst. unfold abort. fold (withAborted ({[s]} ∪ aborted st) st). rw onAborts_withAborted.
  destruct (onAborts_Inv (listeners s st) st HIst) as ([HI Hok] & Ha & Hw).
  set (st' := foldl _ _ _) in *. split; [|exact Hok].
  constructor; try apply HI. intros id t k l Ht Hst.
  destruct (li_waiting _ HI _ _ _ _ Ht Hst) as (Hk & Hab & Hlk). split; [done|]. split; [|done].
  destruct (Hw _ _ _ _ Ht Hst) as [Ht0 Hnl]. unfold isAborted in *. simpl.
  destruct (t_signal t) as [s'|] eqn:Hs; [|done]. apply bool_decide_eq_false in Hab.
  apply bool_decide_eq_false. rw Ha in Hab. intros [->%elem_of_singleton|]%elem_of_union; [|done].
  apply Hnl. unfold listeners. apply (list_elem_of_fmap_2' _ _ (id, t)); [|done].
  apply list_elem_of_filter. split; [|by apply elem_of_map_to_list].
  unfold listens. simpl. rw Hst Hs. by apply Nat.eqb_eq.
Qed.

Lemma Inv_init : Inv init.
Proof. split; [|apply map_Forall_empty]. constructor; simpl; done. Qed.

Lemma exec_Inv st e : Inv st → Inv (exec st e).
Proof.
  destruct e; simpl; [apply start_Inv|apply resume_Inv|apply leave_Inv|apply abort_Inv].
Qed.

Lemma run_Inv events st : Inv st → Inv (run st events).
Proof. revert st. induction events as [|e events IH]; intros st HI; [done|]. by apply IH, exec_Inv. Qed.

(** ** Progress *)

(** The task can take a step of its own: its continuation is queued, or its operation
    is running and will settle. *)
Definition ready (t : Task) : bool :=
  match t_stage t with Acquired _ | Refused | Entered => true | _ => false end.

Definition unfinished (t : Task) : bool := negb (bool_decide (t_stage t = Over)).

(** A bound on the steps a task still takes. *)
Definition weight (t : Task) : Z :=
  (3 * Z.of_nat (length (t_keys t)) +
  match t_stage t with
  | Stepping | Waiting _ _ => 3 | Acquired _ => 2 | Refused | Entered => 1 | Over => 0
  end)%Z.

(** The step of a ready task. *)
Definition stepOf (id : nat) (t : Task) : event :=
  match t_stage t with Entered => Leave id | _ => Resume id end.

Definition waitedKeys (st : state) : gset string :=
  list_to_set (omap (λ kt, match t_stage kt.2 with Waiting k _ => Some k | _ => None end)
                 (map_to_list (tasks st))).

Lemma elem_of_waitedKeys st k :
  k ∈ waitedKeys st ↔ ∃ id t l, tasks st !! id = Some t ∧ t_stage t = Waiting k l.
Proof.
  unfold waitedKeys. rw elem_of_list_to_set list_elem_of_omap. split.
  - intros ([id t] & Hin%elem_of_map_to_list & Hs). simpl in Hs. exists id, t.
    destruct (t_stage t); simplify_eq. eauto.
  - intros (id & t & l & Ht & Hs). exists (id, t). split; [by apply elem_of_map_to_list|].
    simpl. by rw Hs.
Qed.

Lemma before_last x y l l' : StronglySorted before (l ++ y :: l') → x ∈ l → before x y.
Proof. intros (Hab & _ & _)%StronglySorted_app Hx. apply Hab; [done|by left]. Qed.

(** The holder of the last key anybody waits for waits for nothing. *)
Lemma some_ready st id t :
  Inv st → tasks st !! id = Some t → unfinished t = true →
  ∃ id' t', tasks st !! id' = Some t' ∧ ready t' = true.
Proof.
  intros [HI Hok] Ht Hu.
  assert (Hcase : ∀ id t, tasks st !! id = Some t → unfinished t = true →
            ready t = true ∨ ∃ k l, t_stage t = Waiting k l).
  { intros id0 t0 Ht0 Hu0. pose proof (ok_idle _ (Hok _ _ Ht0)) as Hi. unfold unfinished, ready in *.
    destruct (t_stage t0); try done; eauto. }
  destruct (Hcase _ _ Ht Hu) as [Hr|(k & l & Hw)]; [eauto|].
  destruct (minimal_exists_elem_of_L (flip before) (waitedKeys st)) as (k1 & Hk1 & Hmax).
  { intros Hemp. apply (not_elem_of_empty k (C:=gset string)). rw -Hemp. apply elem_of_waitedKeys. eauto. }
  apply elem_of_waitedKeys in Hk1 as (id1 & t1 & l1 & Ht1 & Hs1).
  destruct (li_waiting _ HI _ _ _ _ Ht1 Hs1) as (Hk & _ & _).
  destruct (li_locked _ HI _ _ Hk) as (_ & _ & id2 & t2 & Ht2 & Hin).
  destruct (Hcase _ _ Ht2) as [Hr|(k2 & l2 & Hs2)]; [|by eauto|].
  - unfold unfinished. case_bool_decide as Ho; [|done]. unfold holds in Hin. rw Ho in Hin.
    rw (ok_over _ (Hok _ _ Ht2) Ho) in Hin. by apply not_elem_of_nil in Hin.
  - exfalso. assert (Hb : before k1 k2).
    { pose proof (li_sorted _ HI _ _ Ht2) as Hs. unfold sequence in Hs. rw Hs2 in Hs.
      eapply before_last; [exact Hs|]. apply elem_of_reverse.
      by apply (list_elem_of_fmap_2' _ _ _ _ Hin). }
    apply (before_irrefl k1). etrans; [exact Hb|]. apply Hmax; [|exact Hb].
    apply elem_of_waitedKeys. eauto.
Qed.

Definition totalWeight (st : state) : Z := sum_by weight (tasks st).

Lemma weight_nonneg t : (0 ≤ weight t)%Z.
Proof. unfold weight. destruct (t_stage t); lia. Qed.

Lemma weight_granted t t' : granted t t' → (weight t' ≤ weight t)%Z.
Proof. intros [->|(r & Hr & ->)]; [lia|]. unfold weight. simpl. rw Hr. lia. Qed.

Lemma sum_weight_le (m m' : gmap nat Task) :
  (∀ j, option_Forall2 granted (m !! j) (m' !! j)) → (sum_by weight m' ≤ sum_by weight m)%Z.
Proof.
  revert m'. induction m as [|j t m Hj IH] using map_ind; intros m' Hf.
  - assert (m' = ∅) as ->; [|done]. apply map_empty. intros j. specialize (Hf j).
    rw lookup_empty in Hf. by inversion Hf.
  - pose proof (Hf j) as Hfj. rw lookup_insert_eq in Hfj. inversion Hfj as [? t' Hg Ht Ht'|]. subst.
    symmetry in Ht'. rw (sum_by_delete _ _ _ _ Ht') sum_by_insert; [done|].
    pose proof (weight_granted _ _ Hg). assert (sum_by weight (delete j m') ≤ sum_by weight m)%Z; [|lia].
    apply IH. intros i. destruct (decide (i = j)) as [->|Hi].
    + rw Hj lookup_delete_eq. constructor.
    + specialize (Hf i). rw lookup_insert_ne in Hf; [done|]. by rw lookup_delete_ne.
Qed.

Lemma frame_weight st st' id t t' :
  frame id st st' → tasks st !! id = Some t → tasks st' !! id = Some t' →
  (weight t' < weight t)%Z → (totalWeight st' < totalWeight st)%Z.
Proof.
  intros [_ Hf] Ht Ht' Hw. unfold totalWeight.
  rw (sum_by_delete _ _ _ _ Ht) (sum_by_delete _ _ _ _ Ht').
  assert (sum_by weight (delete id (tasks st')) ≤ sum_by weight (delete id (tasks st)))%Z; [|lia].
  apply sum_weight_le. intros j. destruct (decide (j = id)) as [->|Hj].
  - rw !lookup_delete_eq. constructor.
  - rw !lookup_delete_ne; [done..|]. by apply Hf.
Qed.

Lemma acquire_step id k st t :
  tasks st !! id = Some t →
  ∃ s, tasks (acquire id k st) = <[id := withStage s t]> (tasks st) ∧
    aborted (acquire id k st) = aborted st ∧ (weight (withStage s t) ≤ 3 * Z.of_nat (length (t_keys t)) + 3)%Z.
Proof.
  intros Ht. unfold acquire. rw Ht. destruct (isAborted st (t_signal t)).
  { exists Refused. split; [done|]. split; [done|]. unfold weight. simpl. lia. }
  destruct (match locks st !! k with Some _ => _ | None => _ end) as [l lk]. simpl.
  destruct (negb (held lk)).
  - eexists. split; [done|]. split; [done|]. unfold weight. simpl. lia.
  - eexists. split; [done|]. split; [done|]. unfold weight. simpl. lia.
Qed.

Lemma proceed_step st id t :
  LInv st → tasks st !! id = Some t → t_stage t = Stepping →
  frame id st (proceed id st) ∧ ∃ t', tasks (proceed id st) !! id = Some t' ∧
    (weight t' < 3 * Z.of_nat (length (t_keys t)) + 2)%Z.
Proof.
  intros HI Ht Hst. unfold proceed. rw Ht. destruct (t_keys t) as [|k ks] eqn:Hks.
  - destruct (isAborted st (t_signal t)).
    + destruct (LInv_finish st id t HI Ht) as (_ & Ht' & Hf); [by rw Hst|].
      split; [done|]. eexists. split; [done|]. unfold weight. simpl. rw Hks. simpl. lia.
    + split; [apply frame_setTask|]. eexists. split; [apply lookup_insert_eq|].
      unfold weight. simpl. rw Hks. simpl. lia.
  - destruct (acquire_step id k (setTask id (withKeys ks t) st) (withKeys ks t)) as (s & Hts & Ha & Hw);
      [apply lookup_insert_eq|].
    split.
    + etrans; [apply (frame_setTask id (withKeys ks t))|]. by eapply frame_tasks.
    + eexists. rw Hts lookup_insert_eq. split; [done|]. simpl in *. lia.
Qed.

Lemma step_decreases st id t :
  Inv st → tasks st !! id = Some t → ready t = true →
  (totalWeight (exec st (stepOf id t)) < totalWeight st)%Z.
Proof.
  intros [HI Hok] Ht Hr. unfold ready, stepOf in *.
  destruct (t_stage t) as [|r| |k l| |] eqn:Hst; try done; simpl.
  - unfold resume. rw Ht Hst. set (t1 := withReleases (r :: releases t) (withStage Stepping t)).
    destruct (proceed_step _ id t1 (resume_LInv st id t r HI Ht Hst)) as (Hf & t' & Ht' & Hw); [apply lookup_insert_eq|done|].
    eapply frame_weight; [etrans; [apply frame_setTask|exact Hf]|exact Ht|exact Ht'|].
    unfold weight at 2. rw Hst. done.
  - unfold resume. rw Ht Hst. destruct (LInv_finish st id t HI Ht) as (_ & Ht' & Hf); [by rw Hst|].
    eapply frame_weight; [exact Hf|exact Ht|exact Ht'|]. unfold weight. simpl. rw Hst. lia.
  - unfold leave. rw Ht Hst. destruct (LInv_finish st id t HI Ht) as (_ & Ht' & Hf); [by rw Hst|].
    eapply frame_weight; [exact Hf|exact Ht|exact Ht'|]. unfold weight. simpl. rw Hst. lia.
Qed.

(** When every task is over nothing is locked. *)
Lemma over_unlocked st :
  Inv st → map_Forall (λ _ t, t_stage t = Over) (tasks st) → locks st = ∅.
Proof.
  intros [HI Hok] Hall. apply map_empty. intros k. destruct (locks st !! k) as [l|] eqn:Hk; [|done].
  destruct (li_locked _ HI _ _ Hk) as (_ & _ & id & t & Ht & Hin). pose proof (Hall _ _ Ht) as Ho.
  simpl in Ho. unfold holds in Hin. rw Ho (ok_over _ (Hok _ _ Ht) Ho) in Hin.
  by apply not_elem_of_nil in Hin.
Qed.

Lemma proceed_frame st id t :
  LInv st → tasks st !! id = Some t → t_stage t = Stepping →
  frame id st (proceed id st) ∧
  ∃ t', tasks (proceed id st) !! id = Some t' ∧ t_requested t' = t_requested t.
Proof.
  intros HI Ht Hst. split; [by eapply proceed_step|]. unfold proceed. rw Ht.
  destruct (t_keys t) as [|k ks] eqn:Hks.
  - destruct (isAborted st (t_signal t)).
    + destruct (LInv_finish st id t HI Ht) as (_ & Ht' & _); [by rw Hst|]. eauto.
    + eexists. split; [apply lookup_insert_eq|done].
  - destruct (acquire_step id k (setTask id (withKeys ks t) st) (withKeys ks t)) as (s & Hts & _);
      [apply lookup_insert_eq|].
    eexists. rw Hts lookup_insert_eq. split; done.
Qed.

Lemma resume_frame st id t :
  Inv st → tasks st !! id = Some t →
  frame id st (resume id st) ∧
  ∃ t', tasks (resume id st) !! id = Some t' ∧ t_requested t' = t_requested t.
Proof.
  intros [HI Hok] Ht. unfold resume. rw Ht.
  destruct (t_stage t) as [|r| |k l| |] eqn:Hst; try (by split; [|eauto]).
  - set (t1 := withReleases (r :: releases t) (withStage Stepping t)).
    destruct (proceed_frame _ id t1 (resume_LInv st id t r HI Ht Hst)) as (Hf & t' & Ht' & Hr);
      [apply lookup_insert_eq|done|].
    split; [etrans; [apply frame_setTask|exact Hf]|]. eauto.
  - destruct (LInv_finish st id t HI Ht) as (_ & Ht' & Hf); [by rw Hst|]. eauto.
Qed.

(** What an event of another task leaves of a task. *)
Definition persists (t t' : Task) : Prop :=
  t_requested t' = t_requested t ∧ (t_stage t = Entered → t_stage t' = Entered).

Lemma onAbort_persist id st i t :
  Inv st → tasks st !! i = Some t → ∃ t', tasks (onAbort id st) !! i = Some t' ∧ persists t t'.
Proof.
  intros [HI _] Hi. assert (Hself : ∃ t', tasks st !! i = Some t' ∧ persists t t') by by exists t.
  unfold onAbort. destruct (tasks st !! id) as [t0|] eqn:Ht; [|done].
  destruct (t_stage t0) as [| | |k l| |] eqn:Hst; try done.
  destruct (heap st !! l) as [lk|]; [|done]. case_bool_decide; [|done]. simpl.
  destruct (decide (i = id)) as [->|Hne].
  - rw lookup_insert_eq. eexists. split; [done|]. rw Ht in Hi. injection Hi as <-.
    split; [done|]. intros He. congruence.
  - exists t. rw lookup_insert_ne; [by apply not_eq_sym|]. by split.
Qed.

Lemma onAborts_persist l st i t :
  Inv st → tasks st !! i = Some t →
  ∃ t', tasks (foldl (λ st id, onAbort id st) st l) !! i = Some t' ∧ persists t t'.
Proof.
  revert st t. induction l as [|id l IH]; intros st t HI Hi; simpl; [by exists t|].
  destruct (onAbort_persist id st i t HI Hi) as (t1 & Ht1 & Hp1).
  destruct (IH (onAbort id st) t1 (proj1 (onAbort_Inv id st HI)) Ht1) as (t2 & Ht2 & Hp2).
  exists t2. split; [done|]. destruct Hp1 as [Hr1 He1], Hp2 as [Hr2 He2]. split; [congruence|eauto].
Qed.

Lemma onAborts_new l st i :
  is_Some (tasks (foldl (λ st id, onAbort id st) st l) !! i) → is_Some (tasks st !! i).
Proof.
  revert st. induction l as [|id l IH]; intros st; simpl; [done|]. intros Hi%IH. revert Hi.
  unfold onAbort. destruct (tasks st !! id) as [t0|] eqn:Ht; [|done].
  destruct (t_stage t0); try done. repeat case_match; try done; simpl;
    (destruct (decide (i = id)) as [->|Hne]; [eauto|by rw lookup_insert_ne]).
Qed.

(** ** What the clients of [run] rely on *)

(** An operation holds every key its task asked for. *)
Lemma entered_holds st id t k :
  Inv st → tasks st !! id = Some t → t_stage t = Entered → k ∈ t_requested t → k ≠ ""%string →
  ∃ r, r ∈ holds t ∧ r_key r = k.
Proof.
  intros [HI Hok] Ht Hst Hk Hne. pose proof (Hok _ _ Ht) as HT.
  assert (Hin : k ∈ sequence t)
    by (rw (ok_sequence _ HT); [by rw Hst|by apply elem_of_uniqueSorted]).
  unfold sequence in Hin. rw Hst (ok_entered _ HT Hst) in Hin. simpl in Hin.
  rw app_nil_r elem_of_reverse in Hin. apply list_elem_of_fmap in Hin as (r & -> & Hr). eauto.
Qed.

Lemma entered_disjoint st id id' t t' k :
  Inv st → tasks st !! id = Some t → tasks st !! id' = Some t' →
  t_stage t = Entered → t_stage t' = Entered → k ∈ t_requested t → k ∈ t_requested t' →
  k ≠ ""%string → id = id'.
Proof.
  intros HIst Ht Ht' Hst Hst' Hk Hk' Hne.
  destruct (entered_holds _ _ _ _ HIst Ht Hst Hk Hne) as (r & Hr & Hrk).
  destruct (entered_holds _ _ _ _ HIst Ht' Hst' Hk' Hne) as (r' & Hr' & Hrk').
  eapply (LInv_unique st id id' t t' r r' (proj1 HIst) Ht Ht' Hr Hr'). congruence.
Qed.

Lemma persists_granted t t' : granted t t' → persists t t'.
Proof. intros [->|(r & Hr & ->)]; [done|]. split; [done|]. intros He. congruence. Qed.

Lemma frame_persists id st st' i t :
  frame id st st' → i ≠ id → tasks st !! i = Some t → ∃ t', tasks st' !! i = Some t' ∧ persists t t'.
Proof.
  intros [_ Hf] Hi Ht. specialize (Hf _ Hi). rw Ht in Hf. inversion Hf as [? t' Hg|]. subst.
  exists t'. split; [done|]. by apply persists_granted.
Qed.

Lemma frame_new id st st' i : frame id st st' → i ≠ id → is_Some (tasks st' !! i) → is_Some (tasks st !! i).
Proof. intros [_ Hf] Hi [t Ht]. specialize (Hf _ Hi). rw Ht in Hf. inversion Hf. eauto. Qed.

Lemma start_frame id keys signal st :
  Inv st → tasks st !! id = None →
  frame id st (start id keys signal st) ∧
  ∃ t, tasks (start id keys signal st) !! id = Some t ∧ t_requested t = keys.
Proof.
  intros [HI Hok] Ht. unfold start. rw Ht. set (t := Build_Task _ _ _ _ _).
  assert (HI1 : LInv (setTask id t st)).
  { apply LInv_setTask; [done| |congruence|done|apply uniqueSorted_sorted].
    intros r. unfold holds. simpl. split; [by intros ?%not_elem_of_nil|]. intros (t0 & ? & _). congruence. }
  destruct (proceed_frame _ id t HI1) as (Hf & t' & Ht' & Hreq); [apply lookup_insert_eq|done|].
  split; [etrans; [apply (frame_setTask id t)|exact Hf]|]. exists t'. split; [done|]. by rw Hreq.
Qed.

(** Every event but the end of its own operation leaves a task its request and keeps it
    in its operation; only [Start] makes tasks. *)
Lemma exec_persists st e i t :
  Inv st → tasks st !! i = Some t →
  ∃ t', tasks (exec st e) !! i = Some t' ∧ t_requested t' = t_requested t ∧
    (t_stage t = Entered → e ≠ Leave i → t_stage t' = Entered).
Proof.
  intros HIst Ht. pose proof HIst as [HI Hok].
  assert (Hsame : ∃ t', tasks st !! i = Some t' ∧ t_requested t' = t_requested t ∧
            (t_stage t = Entered → e ≠ Leave i → t_stage t' = Entered)) by eauto.
  assert (Hframe : ∀ id st', frame id st st' → i ≠ id →
            ∃ t', tasks st' !! i = Some t' ∧ t_requested t' = t_requested t ∧
              (t_stage t = Entered → e ≠ Leave i → t_stage t' = Entered)).
  { intros id st' Hf Hne. destruct (frame_persists _ _ _ _ _ Hf Hne Ht) as (t' & ? & ? & ?). eauto. }
  destruct e as [id keys signal|id|id|s]; simpl.
  - destruct (tasks st !! id) as [t0|] eqn:Hid; [unfold start; by rw Hid|].
    apply (Hframe id); [by apply start_frame|congruence].
  - destruct (tasks st !! id) as [t0|] eqn:Hid; [|unfold resume; by rw Hid].
    destruct (ready t0) eqn:Hr; [|unfold resume; rw Hid; unfold ready in Hr; by destruct (t_stage t0)].
    destruct (resume_frame st id t0 HIst Hid) as (Hf & t' & Ht' & Hreq).
    destruct (decide (i = id)) as [->|Hne]; [|by apply (Hframe id)].
    rw Ht in Hid. injection Hid as <-. exists t'. split; [done|]. split; [done|]. intros He _.
    unfold resume in Ht'. rw Ht He Ht in Ht'. by injection Ht' as <-.
  - destruct (tasks st !! id) as [t0|] eqn:Hid; [|unfold leave; by rw Hid].
    destruct (decide (t_stage t0 = Entered)) as [He0|]; [|unfold leave; rw Hid; by destruct (t_stage t0)].
    destruct (LInv_finish st id t0 HI Hid) as (_ & Ht' & Hf); [by rw He0|].
    assert (Hl : leave id st = finish id st) by (unfold leave; by rw Hid He0). rw Hl.
    destruct (decide (i = id)) as [->|Hne]; [|by apply (Hframe id)].
    eexists. split; [exact Ht'|]. split; [simpl; congruence|done].
  - unfold abort. fold (withAborted ({[s]} ∪ aborted st) st). rw onAborts_withAborted. simpl.
    destruct (onAborts_persist (listeners s st) st i t HIst Ht) as (t' & Ht' & Hr & He). eauto.
Qed.

Lemma exec_new st e i :
  Inv st → is_Some (tasks (exec st e) !! i) →
  is_Some (tasks st !! i) ∨ ∃ keys signal, e = Start i keys signal.
Proof.
  intros HIst Hi. pose proof HIst as [HI Hok]. destruct e as [id keys signal|id|id|s]; simpl in Hi.
  - destruct (decide (i = id)) as [->|Hne]; [eauto|]. left.
    destruct (tasks st !! id) as [t0|] eqn:Hid; [unfold start in Hi; by rw Hid in Hi|].
    eapply frame_new; [by eapply start_frame|done|exact Hi].
  - left. destruct (tasks st !! id) as [t0|] eqn:Hid; [|unfold resume in Hi; by rw Hid in Hi].
    destruct (decide (i = id)) as [->|Hne]; [eauto|].
    destruct (resume_frame st id t0 HIst Hid) as (Hf & _). by eapply frame_new.
  - left. destruct (tasks st !! id) as [t0|] eqn:Hid; [|unfold leave in Hi; by rw Hid in Hi].
    destruct (decide (i = id)) as [->|Hne]; [eauto|]. unfold leave in Hi. rw Hid in Hi.
    destruct (t_stage t0) eqn:Hst; try done.
    destruct (LInv_finish st id t0 HI Hid) as (_ & _ & Hf); [by rw Hst|]. by eapply frame_new.
  - left. unfold abort in Hi. fold (withAborted ({[s]} ∪ aborted st) st) in Hi.
    rw onAborts_withAborted in Hi. simpl in Hi. by eapply onAborts_new.
Qed.

(** Operations on one resource exclude each other.  Whatever requests start, resume,
    settle or are aborted, in any order, two operations that run at the same time have no
    resource key in common, and a running operation holds the lock of every key it asked
    for. *)
Theorem operations_exclude_each_other events id t :
  let st := run init events in
  tasks st !! id = Some t → t_stage t = Entered →
  (∀ k, k ∈ t_requested t → k ≠ ""%string → ∃ l lk, locks st !! k = Some l ∧
     {| r_key := k; r_lock := l |} ∈ releases t ∧ heap st !! l = Some lk ∧ held lk = true) ∧
  ∀ id' t', tasks st !! id' = Some t' → t_stage t' = Entered → id' ≠ id →
    ∀ k, k ∈ t_requested t → k ∈ t_requested t' → k = ""%string.
Proof.
  intros st Ht Hst. pose proof (run_Inv events init Inv_init) as HI. fold st in HI. split.
  - intros k Hk Hne. destruct (entered_holds _ _ _ _ HI Ht Hst Hk Hne) as (r & Hr & <-).
    pose proof (li_holds _ (proj1 HI) _ _ _ Ht Hr) as Hl.
    destruct (li_locked _ (proj1 HI) _ _ Hl) as ((lk & Hlk & Hheld) & _). exists (r_lock r), lk.
    unfold holds in Hr. rw Hst in Hr. by destruct r.
  - intros id' t' Ht' Hst' Hne k Hk Hk'. destruct (decide (k = ""%string)) as [|Hk0]; [done|].
    exfalso. apply Hne. by eapply entered_disjoint.
Qed.

(** C16: The arbiter neither deadlocks nor leaks.  In any reachable state, if a request is
    unfinished then some request can take a step without waiting for another; every such
    step lowers a natural measure, so whatever is scheduled, once operations settle all
    requests finish; and when they have, no lock is left behind. *)
Theorem arbiter_always_drains events :
  let st := run init events in
  (0 ≤ totalWeight st)%Z ∧
  (∀ id t, tasks st !! id = Some t → unfinished t = true →
     ∃ id' t', tasks st !! id' = Some t' ∧ ready t' = true) ∧
  (∀ id t, tasks st !! id = Some t → ready t = true →
     (totalWeight (exec st (stepOf id t)) < totalWeight st)%Z) ∧
  (map_Forall (λ _ t, t_stage t = Over) (tasks st) → locks st = ∅).
Proof.
  intros st. pose proof (run_Inv events init Inv_init) as HI. fold st in HI.
  split; [apply sum_by_nonneg; intros; apply weight_nonneg|].
  split; [intros id t; by apply some_ready|]. split; [intros id t; by apply step_decreases|].
  by apply over_unlocked.
Qed.

(** ** Examples *)

(** Two batches that name the same two resources in opposite orders, and an abort of
    whichever waits. *)
Definition ex_batches : list event :=
  [Start 0 ["app:mail"; "app:notes"] (Some 7); Start 1 ["app:notes"; "app:mail"] (Some 8); Resume 0;
   Resume 0; Start 2 ["app:mail"] None; Abort 8; Resume 1; Leave 0; Resume 2]%string.

Lemma operations_exclude_each_other_witness :
  ∃ t, tasks (run init ex_batches) !! 2 = Some t ∧
    (∀ k, k ∈ t_requested t → k ≠ ""%string → ∃ l lk, locks (run init ex_batches) !! k = Some l ∧
       {| r_key := k; r_lock := l |} ∈ releases t ∧ heap (run init ex_batches) !! l = Some lk ∧
       held lk = true).
Proof.
  destruct (tasks (run init ex_batches) !! 2) as [t|] eqn:Ht; [|by vm_compute in Ht].
  exists t. split; [done|].
  assert (Hst : t_stage t = Entered) by (vm_compute in Ht; by injection Ht as <-).
  exact (proj1 (operations_exclude_each_other ex_batches 2 t Ht Hst)).
Defined.
