(* ===== verification/ResourceArbiter.v ===== *)
(** * The computer-use resource arbiter

    [ComputerUseResourceArbiter] of
    [packages/runtime/kernel/computer-use/resource-arbiter.ts] over the lock table of
    [ResourceLocks]: which keys a request locks, the generation counters that tell a
    stale observation, and the critical section of each kind of request.  The operation a
    request carries runs outside; its outcome is an event.  [history] remembers, newest
    first, what was observed and mutated; no code reads it. *)

From Corelib Require Import ssreflect.
From stdpp Require Import prelude gmap strings pretty.
From S2P Require Import Prelude JsString SqlTable ResourceLocks.

#[local] Open Scope Z_scope.

(** ** Requests and responses ([contract.ts]) *)

Inductive Target :=
  | AppTarget (app : string)
  | WindowTarget (windowId : string) (app : option string).

Inductive ActionType :=
  | click_element | click_point | drag | perform_secondary_action | press_key | scroll
  | select_text | set_value | type_text.

#[export] Instance ActionType_eq : EqDecision ActionType.
Proof. solve_decision. Defined.

Record Command := {
  c_target : Target;
  c_action : ActionType;
  c_observedStateId : option string;
  c_observedResourceGeneration : option Z;
}.

Inductive Request :=
  | ListApps
  | ListWindows
  | ResolveTarget (selector : Target)
  | GetAppState (sessionId : string) (target : Target)
  | WaitForChange (sessionId : string) (target : Target) (afterStateId : string)
  | Action (sessionId : string) (command : Command)
  | Batch (sessionId : string) (commands : list Command).

(** A response by its type; the states carry the generation the arbiter adds. *)
Inductive Response :=
  | ListsResponse
  | TargetPolicy (bundleIdentifier : string)
  | AppState (resourceGeneration : option Z)
  | WaitResponse (resourceGeneration : option Z)
  | ActionResponse
  | BatchResponse
  | ErrorResponse.

Inductive error :=
  | ComputerUseResourceStaleError (observedStateId currentStateId : string) (resourceKeys : list string)
  | AbortError
  | OperationError.

(** ** Keys *)

Definition GLOBAL_HID_RESOURCE : string := "global-hid".

Definition GLOBAL_HID_ACTIONS : list ActionType := [click_point; drag; press_key; type_text].

(** [toLocaleLowerCase] below code unit 256, in a locale without special rules. *)
Definition lowerChar (c : Ascii.ascii) : Ascii.ascii :=
  let n := charCodeAt c in
  if ((65 <=? n) && (n <=? 90)) || ((192 <=? n) && (n <=? 222) && negb (n =? 215))
  then Ascii.ascii_of_N (Z.to_N (n + 32)) else c.

Fixpoint toLowerCase (s : string) : string :=
  match s with
  | EmptyString => EmptyString
  | String c s' => String (lowerChar c) (toLowerCase s')
  end.

Definition normalizedTargetValue (value : string) : string := toLowerCase (trim value).

Definition selectorKey (target : Target) : string :=
  match target with
  | AppTarget app => "app:" +:+ normalizedTargetValue app
  | WindowTarget windowId app =>
      "window:" +:+ normalizedTargetValue windowId +:+ ":" +:+ normalizedTargetValue (default "" app)
  end.

Definition targetFallbackKeys (target : Target) : list string :=
  match target with
  | AppTarget app => ["app:" +:+ normalizedTargetValue app]
  | WindowTarget windowId app =>
      ("window:" +:+ normalizedTargetValue windowId) ::
      match app with
      | Some app => if String.eqb (trim app) "" then [] else ["app:" +:+ normalizedTargetValue app]
      | None => []
      end
  end.

Definition keysForTarget (canonicalTargets : gmap string string) (target : Target) : list string :=
  let canonical := canonicalTargets !! selectorKey target in
  match target with
  | AppTarget _ => match canonical with Some key => [key] | None => targetFallbackKeys target end
  | WindowTarget _ _ => uniqueSorted (targetFallbackKeys target ++ option_list canonical)
  end.

Definition isGlobalHid (c : Command) : bool := bool_decide (c_action c ∈ GLOBAL_HID_ACTIONS).

Definition keysForCommand (ct : gmap string string) (c : Command) : list string :=
  keysForTarget ct (c_target c) ++ (if isGlobalHid c then [GLOBAL_HID_RESOURCE] else []).

Definition keysForRequest (ct : gmap string string) (request : Request) : list string :=
  match request with
  | ListApps | ListWindows | ResolveTarget _ => []
  | GetAppState _ target | WaitForChange _ target _ => keysForTarget ct target
  | Action _ command => uniqueSorted (keysForCommand ct command)
  | Batch _ commands => uniqueSorted (commands ≫= keysForCommand ct)
  end.

Definition stateKeysForRequest (ct : gmap string string) (request : Request) : list string :=
  match request with
  | GetAppState _ target | WaitForChange _ target _ => keysForTarget ct target
  | Action _ command => keysForTarget ct (c_target command)
  | Batch _ commands => uniqueSorted (commands ≫= λ c, keysForTarget ct (c_target c))
  | _ => []
  end.

(** ** State *)

(** Where a call of [runRequest] is.  [Operating] is inside its locks with the operation
    running; [Settling] has the critical section's result and its [finally] ahead; a wait
    observes in one critical section, waits outside, and compares in a second one. *)
Inductive phase :=
  | Direct
  | Locking
  | Operating
  | Settling (o : error + Response)
  | Observing
  | ObservedAt (o : error + Z)
  | NativeWaiting (initialGeneration : Z)
  | Comparing (initialGeneration : Z)
  | Compared (o : error + Response)
  | Done (o : error + Response).

Record Job := {
  j_request : Request;
  j_stateKeys : list string;
  j_signal : option nat;
  j_phase : phase;
}.

Inductive past :=
  | Seen (sessionId : string) (keys : list string)
  | Mutated (keys : list string)
  | Forgotten (sessionId : string).

Record arbiter := {
  lockTable : ResourceLocks.state;
  canonicalTargets : gmap string string;
  resourceGenerations : gmap string Z;
  sessionObservations : gmap string (gmap string Z);
  jobs : gmap nat Job;
  history : list past;
}.

Definition initArbiter : arbiter :=
  {| lockTable := ResourceLocks.init; canonicalTargets := ∅; resourceGenerations := ∅;
     sessionObservations := ∅; jobs := ∅; history := [] |}.

Definition withLockTable (x : ResourceLocks.state) (a : arbiter) : arbiter :=
  {| lockTable := x; canonicalTargets := canonicalTargets a; resourceGenerations := resourceGenerations a;
     sessionObservations := sessionObservations a; jobs := jobs a; history := history a |}.
Definition withCanonical (x : gmap string string) (a : arbiter) : arbiter :=
  {| lockTable := lockTable a; canonicalTargets := x; resourceGenerations := resourceGenerations a;
     sessionObservations := sessionObservations a; jobs := jobs a; history := history a |}.
Definition setJob (id : nat) (j : Job) (a : arbiter) : arbiter :=
  {| lockTable := lockTable a; canonicalTargets := canonicalTargets a;
     resourceGenerations := resourceGenerations a; sessionObservations := sessionObservations a;
     jobs := <[id := j]> (jobs a); history := history a |}.
Definition withPhase (p : phase) (j : Job) : Job :=
  {| j_request := j_request j; j_stateKeys := j_stateKeys j; j_signal := j_signal j; j_phase := p |}.

(** ** Generations *)

Definition generationOf (a : arbiter) (key : string) : Z := default 0 (resourceGenerations a !! key).

Definition currentGeneration (a : arbiter) (keys : list string) : Z :=
  foldl (λ highest key, Z.max highest (generationOf a key)) 0 keys.

Definition observedBy (a : arbiter) (sessionId key : string) : option Z :=
  sessionObservations a !! sessionId ≫= (.!! key).

(** The filter both freshness checks share. *)
Definition isStale (a : arbiter) (sessionId key : string) : bool :=
  match observedBy a sessionId key with
  | None => 0 <? generationOf a key
  | Some observed => negb (observed =? generationOf a key)
  end.

Definition staleKeys (a : arbiter) (sessionId : string) (keys : list string) : list string :=
  filter (λ key, isStale a sessionId key = true) keys.

Definition generationName (n : Z) : string := "resource_generation_" +:+ pretty n.

(** [None] is success. *)
Definition assertSessionGenerationFresh (a : arbiter) (sessionId : string) (keys : list string)
    (observedStateId : string) : option error :=
  match staleKeys a sessionId keys with
  | [] => None
  | stale => Some (ComputerUseResourceStaleError observedStateId
                     (generationName (currentGeneration a keys)) stale)
  end.

Definition checkCommand (a : arbiter) (sessionId : string) (requestGeneration : Z) (c : Command)
    : option error :=
  let commandKeys := keysForTarget (canonicalTargets a) (c_target c) in
  match c_observedResourceGeneration c with
  | Some observedGeneration =>
      let commandGeneration := currentGeneration a commandKeys in
      if observedGeneration =? commandGeneration then None
      else Some (ComputerUseResourceStaleError
                   (default (generationName observedGeneration) (c_observedStateId c))
                   (generationName commandGeneration) commandKeys)
  | None =>
      match staleKeys a sessionId commandKeys with
      | [] => None
      | stale => Some (ComputerUseResourceStaleError (default "state_unobserved" (c_observedStateId c))
                         (generationName requestGeneration) stale)
      end
  end.

Fixpoint checkCommands (a : arbiter) (sessionId : string) (requestGeneration : Z) (cs : list Command)
    : option error :=
  match cs with
  | [] => None
  | c :: cs' =>
      match checkCommand a sessionId requestGeneration c with
      | Some e => Some e
      | None => checkCommands a sessionId requestGeneration cs'
      end
  end.

(** [assertFreshObservation] of an action or a batch, with the request's state keys. *)
Definition assertFreshObservation (a : arbiter) (request : Request) (keys : list string) : option error :=
  match request with
  | Action sessionId command => checkCommands a sessionId (currentGeneration a keys) [command]
  | Batch sessionId commands => checkCommands a sessionId (currentGeneration a keys) commands
  | _ => None
  end.

Definition observe (sessionId : string) (keys : list string) (a : arbiter) : arbiter :=
  let observations := default ∅ (sessionObservations a !! sessionId) in
  {| lockTable := lockTable a; canonicalTargets := canonicalTargets a;
     resourceGenerations := resourceGenerations a;
     sessionObservations :=
       <[sessionId := foldl (λ o key, <[key := generationOf a key]> o) observations keys]>
         (sessionObservations a);
     jobs := jobs a; history := Seen sessionId keys :: history a |}.

Definition advance (keys : list string) (a : arbiter) : arbiter :=
  {| lockTable := lockTable a; canonicalTargets := canonicalTargets a;
     resourceGenerations :=
       foldl (λ g key, <[key := default 0 (g !! key) + 1]> g) (resourceGenerations a) keys;
     sessionObservations := sessionObservations a; jobs := jobs a; history := Mutated keys :: history a |}.

Definition forgetSession (sessionId : string) (a : arbiter) : arbiter :=
  {| lockTable := lockTable a; canonicalTargets := canonicalTargets a;
     resourceGenerations := resourceGenerations a;
     sessionObservations := delete sessionId (sessionObservations a);
     jobs := jobs a; history := Forgotten sessionId :: history a |}.

(** ** [runRequest] *)

(** The calls of [run] are tasks of the lock table: two per request, the second for the
    comparison of a wait. *)
Definition lockTask (id : nat) (p : phase) : nat :=
  match p with Comparing _ | Compared _ => 2 * id + 1 | _ => 2 * id end.

Definition enterLocks (task : nat) (keys : list string) (signal : option nat) (a : arbiter) : arbiter :=
  withLockTable (ResourceLocks.exec (lockTable a) (Start task keys signal)) a.

(** The call, up to its first suspension. *)
Definition submit (id : nat) (request : Request) (signal : option nat) (a : arbiter) : arbiter :=
  match jobs a !! id with
  | Some _ => a
  | None =>
      let stateKeys := stateKeysForRequest (canonicalTargets a) request in
      let keys := keysForRequest (canonicalTargets a) request in
      let job p := {| j_request := request; j_stateKeys := stateKeys; j_signal := signal; j_phase := p |} in
      match request with
      | ResolveTarget _ => setJob id (job Direct) a
      | WaitForChange _ _ _ => enterLocks (2 * id) stateKeys signal (setJob id (job Observing) a)
      | _ =>
          if bool_decide (keys = []) then setJob id (job Direct) a
          else enterLocks (2 * id) keys signal (setJob id (job Locking) a)
      end
  end.

(** The critical section, once its locks are held, up to its operation. *)
Definition enter (id : nat) (j : Job) (a : arbiter) : arbiter :=
  match j_phase j with
  | Locking =>
      match assertFreshObservation a (j_request j) (j_stateKeys j) with
      | Some e => setJob id (withPhase (Settling (inl e)) j) a
      | None => setJob id (withPhase Operating j) a
      end
  | Observing =>
      match j_request j with
      | WaitForChange sessionId _ afterStateId =>
          match assertSessionGenerationFresh a sessionId (j_stateKeys j) afterStateId with
          | Some e => setJob id (withPhase (ObservedAt (inl e)) j) a
          | None => setJob id (withPhase (ObservedAt (inr (currentGeneration a (j_stateKeys j)))) j) a
          end
      | _ => a
      end
  | Comparing initialGeneration =>
      match j_request j with
      | WaitForChange sessionId _ afterStateId =>
          let generation := currentGeneration a (j_stateKeys j) in
          if generation =? initialGeneration then
            setJob id (withPhase (Compared (inr (WaitResponse (Some generation)))) j)
              (observe sessionId (j_stateKeys j) a)
          else
            setJob id (withPhase (Compared (inl (ComputerUseResourceStaleError afterStateId
              (generationName generation) (j_stateKeys j)))) j) a
      | _ => a
      end
  | _ => a
  end.

(** A lock promise of the request settled. *)
Definition continue_ (id : nat) (a : arbiter) : arbiter :=
  match jobs a !! id with
  | None => a
  | Some j =>
      match j_phase j with
      | Locking | Observing | Comparing _ =>
          let task := lockTask id (j_phase j) in
          let a := withLockTable (ResourceLocks.exec (lockTable a) (Resume task)) a in
          match t_stage <$> tasks (lockTable a) !! task with
          | Some Entered => enter id j a
          | Some Over => setJob id (withPhase (Done (inl AbortError)) j) a
          | _ => a
          end
      | _ => a
      end
  end.

(** The critical section after its operation settled. *)
Definition afterOperation (j : Job) (o : error + Response) (a : arbiter) : arbiter * (error + Response) :=
  match j_request j with
  | Action s _ =>
      let a := advance (j_stateKeys j) a in
      (match o with inr ActionResponse => observe s (j_stateKeys j) a | _ => a end, o)
  | Batch s _ =>
      let a := advance (j_stateKeys j) a in
      (match o with inr BatchResponse => observe s (j_stateKeys j) a | _ => a end, o)
  | GetAppState s _ =>
      match o with
      | inr (AppState _) =>
          (observe s (j_stateKeys j) a, inr (AppState (Some (currentGeneration a (j_stateKeys j)))))
      | _ => (a, o)
      end
  | _ => (a, o)
  end.

(** The request's operation settled with [o]. *)
Definition settled (id : nat) (o : error + Response) (a : arbiter) : arbiter :=
  match jobs a !! id with
  | None => a
  | Some j =>
      match j_phase j with
      | Direct =>
          let a :=
            match j_request j, o with
            | ResolveTarget selector, inr (TargetPolicy bundleIdentifier) =>
                withCanonical (<[selectorKey selector := "app:" +:+ normalizedTargetValue bundleIdentifier]>
                  (canonicalTargets a)) a
            | _, _ => a
            end in
          setJob id (withPhase (Done o) j) a
      | Operating =>
          let '(a, o) := afterOperation j o a in setJob id (withPhase (Settling o) j) a
      | NativeWaiting initialGeneration =>
          match o with
          | inr (WaitResponse _) =>
              enterLocks (2 * id + 1) (j_stateKeys j) (j_signal j)
                (setJob id (withPhase (Comparing initialGeneration) j) a)
          | _ => setJob id (withPhase (Done o) j) a
          end
      | _ => a
      end
  end.

(** The critical section's own promise settled: [finally] releases. *)
Definition return_ (id : nat) (a : arbiter) : arbiter :=
  match jobs a !! id with
  | None => a
  | Some j =>
      let released := withLockTable (ResourceLocks.exec (lockTable a) (Leave (lockTask id (j_phase j)))) a in
      match j_phase j with
      | Settling o | Compared o => setJob id (withPhase (Done o) j) released
      | ObservedAt (inl e) => setJob id (withPhase (Done (inl e)) j) released
      | ObservedAt (inr n) => setJob id (withPhase (NativeWaiting n) j) released
      | _ => a
      end
  end.

Inductive step :=
  | Submit (id : nat) (request : Request) (signal : option nat)
  | Continue (id : nat)
  | Settled (id : nat) (o : error + Response)
  | Return (id : nat)
  | Aborted (s : nat)
  | ForgetSession (sessionId : string).

Definition perform (a : arbiter) (e : step) : arbiter :=
  match e with
  | Submit id request signal => submit id request signal a
  | Continue id => continue_ id a
  | Settled id o => settled id o a
  | Return id => return_ id a
  | Aborted s => withLockTable (ResourceLocks.exec (lockTable a) (Abort s)) a
  | ForgetSession sessionId => forgetSession sessionId a
  end.

Definition performAll (a : arbiter) (steps : list step) : arbiter := foldl perform a steps.

(** ** What the history says *)

Definition occurrences (key : string) (keys : list string) : Z :=
  Z.of_nat (length (filter (λ k, k = key) keys)).

(** How often a key was mutated. *)
Fixpoint mutations (key : string) (h : list past) : Z :=
  match h with
  | [] => 0
  | Mutated keys :: h' => occurrences key keys + mutations key h'
  | _ :: h' => mutations key h'
  end.

(** The count a session last saw of a key. *)
Fixpoint seenAt (sessionId key : string) (h : list past) : option Z :=
  match h with
  | [] => None
  | Seen s keys :: h' =>
      if bool_decide (s = sessionId ∧ key ∈ keys) then Some (mutations key h')
      else seenAt sessionId key h'
  | Mutated _ :: h' => seenAt sessionId key h'
  | Forgotten s :: h' => if bool_decide (s = sessionId) then None else seenAt sessionId key h'
  end.

(** Since the session last saw the key, or ever if it has not, nobody mutated it. *)
Fixpoint undisturbed (sessionId key : string) (h : list past) : bool :=
  match h with
  | [] => true
  | Seen s keys :: h' => bool_decide (s = sessionId ∧ key ∈ keys) || undisturbed sessionId key h'
  | Mutated keys :: h' => negb (bool_decide (key ∈ keys)) && undisturbed sessionId key h'
  | Forgotten s :: h' =>
      if bool_decide (s = sessionId) then mutations key h' =? 0 else undisturbed sessionId key h'
  end.

Lemma occurrences_spec key keys :
  0 ≤ occurrences key keys ∧ (occurrences key keys = 0 ↔ key ∉ keys).
Proof.
  unfold occurrences. split; [lia|]. split.
  - intros Hz Hin. assert (key ∈ filter (λ k, k = key) keys) as Hf by by apply list_elem_of_filter.
    destruct (filter _ keys); [by apply not_elem_of_nil in Hf|simpl in Hz; lia].
  - intros Hn. rw filter_none; [|done]. intros k Hk ->. done.
Qed.

Lemma mutations_nonneg key h : 0 ≤ mutations key h.
Proof.
  induction h as [|[s keys|keys|s] h IH]; simpl; try lia.
  pose proof (proj1 (occurrences_spec key keys)). lia.
Qed.

Lemma seenAt_le s key h n : seenAt s key h = Some n → n ≤ mutations key h.
Proof.
  induction h as [|[s' keys|keys|s'] h IH]; simpl; [done|..].
  - case_bool_decide; [intros [= <-]; lia|done].
  - intros H%IH. pose proof (proj1 (occurrences_spec key keys)). lia.
  - by case_bool_decide.
Qed.

Lemma undisturbed_spec s key h :
  undisturbed s key h =
  match seenAt s key h with None => mutations key h =? 0 | Some n => n =? mutations key h end.
Proof.
  induction h as [|[s' keys|keys|s'] h IH]; simpl; [done|..].
  - case_bool_decide; simpl; [by rw Z.eqb_refl|done].
  - rw IH. destruct (occurrences_spec key keys) as [Hpos Hz]. pose proof (mutations_nonneg key h).
    case_bool_decide as Hin; simpl.
    + assert (occurrences key keys ≠ 0) by tauto. symmetry.
      destruct (seenAt s key h) as [n|] eqn:Hs; apply Z.eqb_neq; [|lia].
      apply seenAt_le in Hs. lia.
    + assert (occurrences key keys = 0) as -> by tauto. by rw Z.add_0_l.
  - case_bool_decide; [done|]. exact IH.
Qed.

Record Recorded (a : arbiter) : Prop := {
  re_generation key : generationOf a key = mutations key (history a);
  re_observed s key : observedBy a s key = seenAt s key (history a);
}.

Lemma foldl_observe f keys (o : gmap string Z) key :
  foldl (λ o key, <[key := f key]> o) o keys !! key =
  if bool_decide (key ∈ keys) then Some (f key) else o !! key.
Proof.
  revert o. induction keys as [|k keys IH]; intros o; simpl; [done|]. rw IH.
  case_bool_decide as Hin; case_bool_decide as Hin'; try done.
  - exfalso. apply Hin'. by right.
  - apply elem_of_cons in Hin' as [->|]; [apply lookup_insert_eq|done].
  - apply lookup_insert_ne. intros ->. apply Hin'. by left.
Qed.

Lemma foldl_advance keys (g : gmap string Z) key :
  default 0 (foldl (λ g key, <[key := default 0 (g !! key) + 1]> g) g keys !! key) =
  default 0 (g !! key) + occurrences key keys.
Proof.
  revert g. induction keys as [|k keys IH]; intros g; simpl; [unfold occurrences; simpl; lia|].
  rw IH. unfold occurrences. rw filter_cons. case_decide as Hk.
  - subst k. rw lookup_insert_eq. simpl. lia.
  - by rw lookup_insert_ne.
Qed.

Lemma observe_Recorded s keys a : Recorded a → Recorded (observe s keys a).
Proof.
  intros [Hg Ho]. split; [exact Hg|]. intros s' key. unfold observedBy, observe. simpl.
  destruct (decide (s = s')) as [<-|Hne].
  - rw lookup_insert_eq. simpl. rw foldl_observe. case_bool_decide as Hin.
    + rw bool_decide_true; [done|]. by rw Hg.
    + rw bool_decide_false; [by intros [_ ?]|]. rw -Ho. unfold observedBy.
      by destruct (sessionObservations a !! s).
  - rw lookup_insert_ne; [done|]. rw bool_decide_false; [by intros [? _]|]. apply Ho.
Qed.

Lemma advance_Recorded keys a : Recorded a → Recorded (advance keys a).
Proof.
  intros [Hg Ho]. split; [|exact Ho]. intros key. unfold generationOf, advance. simpl.
  rw foldl_advance -Hg. unfold generationOf. lia.
Qed.

Lemma forgetSession_Recorded s a : Recorded a → Recorded (forgetSession s a).
Proof.
  intros [Hg Ho]. split; [exact Hg|]. intros s' key. unfold observedBy, forgetSession. simpl.
  destruct (decide (s = s')) as [<-|Hne].
  - by rw lookup_delete_eq bool_decide_true.
  - rw lookup_delete_ne; [done|]. rw bool_decide_false; [done|]. apply Ho.
Qed.

Lemma isStale_undisturbed a s key : Recorded a → isStale a s key = negb (undisturbed s key (history a)).
Proof.
  intros [Hg Ho]. unfold isStale. rw undisturbed_spec Ho Hg.
  destruct (seenAt s key (history a)); [done|].
  pose proof (mutations_nonneg key (history a)). destruct (mutations key (history a) =? 0) eqn:E; simpl;
    bool_to_prop; [apply Z.ltb_ge|apply Z.ltb_lt]; lia.
Qed.

(** [perform] only writes counters and history through the three calls above. *)
Definition sameRecord (a a' : arbiter) : Prop :=
  resourceGenerations a' = resourceGenerations a ∧ sessionObservations a' = sessionObservations a ∧
  history a' = history a.

Lemma Recorded_same a a' : sameRecord a a' → Recorded a → Recorded a'.
Proof.
  intros (Hg & Ho & Hh) [Hr1 Hr2]. split.
  - intros key. unfold generationOf. rw Hg Hh. apply Hr1.
  - intros s key. unfold observedBy. rw Ho Hh. apply Hr2.
Qed.

Lemma submit_same id request signal a : sameRecord a (submit id request signal a).
Proof. unfold submit. by destruct (jobs a !! id), request; try case_bool_decide. Qed.

Lemma return_same id a : sameRecord a (return_ id a).
Proof. unfold return_. by repeat case_match. Qed.

Lemma enter_Recorded id j a : Recorded a → Recorded (enter id j a).
Proof.
  intros HR. unfold enter. destruct (j_phase j); try done.
  - case_match; by apply (Recorded_same a).
  - destruct (j_request j); try done. case_match; by apply (Recorded_same a).
  - destruct (j_request j); try done. case_match; [|by apply (Recorded_same a)].
    apply (Recorded_same (observe sessionId (j_stateKeys j) a)); [done|]. by apply observe_Recorded.
Qed.

Lemma continue_Recorded id a : Recorded a → Recorded (continue_ id a).
Proof.
  intros HR. unfold continue_. destruct (jobs a !! id) as [j|]; [|done].
  destruct (j_phase j); try done; simpl;
    destruct (t_stage <$> _) as [[]|]; first [by apply (Recorded_same a)|by apply enter_Recorded, (Recorded_same a)].
Qed.

Lemma afterOperation_Recorded j o a : Recorded a → Recorded (fst (afterOperation j o a)).
Proof.
  intros HR. unfold afterOperation.
  destruct (j_request j); simpl; try done;
    [by destruct o as [|[]]; try apply observe_Recorded|..];
    (destruct o as [|[]]; simpl; try apply observe_Recorded; by apply advance_Recorded).
Qed.

Lemma settled_Recorded id o a : Recorded a → Recorded (settled id o a).
Proof.
  intros HR. unfold settled. destruct (jobs a !! id) as [j|]; [|done].
  destruct (j_phase j); try done.
  - destruct (j_request j); try by apply (Recorded_same a).
    by destruct o as [|[]]; apply (Recorded_same a).
  - pose proof (afterOperation_Recorded j o a HR) as HR'. destruct (afterOperation j o a) as [a' o'].
    by apply (Recorded_same a').
  - destruct o as [|[]]; by apply (Recorded_same a).
Qed.

Lemma perform_Recorded a e : Recorded a → Recorded (perform a e).
Proof.
  intros HR. destruct e; simpl.
  - by apply (Recorded_same a); [apply submit_same|].
  - by apply continue_Recorded.
  - by apply settled_Recorded.
  - by apply (Recorded_same a); [apply return_same|].
  - by apply (Recorded_same a).
  - by apply forgetSession_Recorded.
Qed.

(** ** The critical sections *)

(** Inside locks, or on the way in. *)
Definition locking (p : phase) : bool :=
  match p with Direct | NativeWaiting _ | Done _ => false | _ => true end.

(** Holding its locks. *)
Definition inside (p : phase) : bool :=
  match p with Operating | Settling _ | ObservedAt _ | Compared _ => true | _ => false end.

(** Past its first call of [run]. *)
Definition late (p : phase) : bool :=
  match p with Comparing _ | Compared _ | Done _ => true | _ => false end.

Definition JobOk (st : ResourceLocks.state) (id : nat) (j : Job) : Prop :=
  (∀ k, k ∈ j_stateKeys j → k ≠ "") ∧
  (locking (j_phase j) = true → ∃ t, tasks st !! lockTask id (j_phase j) = Some t ∧
     (∀ k, k ∈ j_stateKeys j → k ∈ t_requested t) ∧
     (inside (j_phase j) = true → t_stage t = Entered)).

Definition TaskOf (js : gmap nat Job) (i : nat) : Prop :=
  ∃ id j, js !! id = Some j ∧ (i = (2 * id)%nat ∨ i = (2 * id + 1)%nat ∧ late (j_phase j) = true).

Record AInv (a : arbiter) : Prop := {
  ai_locks : ResourceLocks.Inv (lockTable a);
  ai_canonical : map_Forall (λ _ key, key ≠ "") (canonicalTargets a);
  ai_jobs : map_Forall (JobOk (lockTable a)) (jobs a);
  ai_tasks i : is_Some (tasks (lockTable a) !! i) → TaskOf (jobs a) i;
}.

Lemma lockTask_cases id p : lockTask id p = (2 * id)%nat ∨ lockTask id p = (2 * id + 1)%nat.
Proof. destruct p; simpl; lia. Qed.

(** One job's step, with at most one event of the lock table that is its own. *)
Definition ownEvent (id : nat) (p : phase) (e : ResourceLocks.event) : Prop :=
  match e with
  | Start i _ _ => i = (2 * id)%nat ∨ i = (2 * id + 1)%nat ∧ late p = true
  | Leave i => i = (2 * id)%nat ∨ i = (2 * id + 1)%nat
  | _ => True
  end.

Lemma AInv_step a a' id j' e :
  AInv a → lockTable a' = from_option (ResourceLocks.exec (lockTable a)) (lockTable a) e →
  jobs a' = <[id := j']> (jobs a) → map_Forall (λ _ key, key ≠ "") (canonicalTargets a') →
  from_option (ownEvent id (j_phase j')) True e →
  (∀ j, jobs a !! id = Some j → late (j_phase j) = true → late (j_phase j') = true) →
  JobOk (lockTable a') id j' → AInv a'.
Proof.
  intros HA Hl Hj Hc Hown Hlate Hok. split; [|done|..].
  - rw Hl. destruct e; [apply exec_Inv|]; apply (ai_locks _ HA).
  - rw Hj. intros id0 j0 Hj0. apply lookup_insert_Some in Hj0 as [[<- <-]|[Hne Hj0]]; [done|].
    destruct (ai_jobs _ HA _ _ Hj0) as [Hk Hjob]. split; [done|]. intros (t & Ht & Hreq & Hin)%Hjob.
    rw Hl. destruct e as [e|]; [|eauto]. simpl.
    destruct (exec_persists _ e _ _ (ai_locks _ HA) Ht) as (t' & Ht' & Hr' & He').
    exists t'. split; [done|]. split; [by rw Hr'|]. intros Hi%Hin. apply He'; [done|]. intros ->.
    simpl in Hown. destruct (lockTask_cases id0 (j_phase j0)), Hown; lia.
  - intros i Hi.
    assert (Hcase : is_Some (tasks (lockTable a) !! i) ∨ i = (2 * id)%nat ∨
              i = (2 * id + 1)%nat ∧ late (j_phase j') = true).
    { rw Hl in Hi. destruct e as [e|]; [|by left]. simpl in Hi.
      destruct (exec_new _ e i (ai_locks _ HA) Hi) as [|(keys & signal & ->)]; [by left|by right]. }
    rw Hj. destruct Hcase as [Hi'|Hi'].
    + destruct (ai_tasks _ HA _ Hi') as (id0 & j0 & Hj0 & Hi0). destruct (decide (id0 = id)) as [->|Hne].
      * exists id, j'. rw lookup_insert_eq. split; [done|]. destruct Hi0 as [|[? ?]]; [by left|right].
        split; [done|]. by eapply Hlate.
      * exists id0, j0. rw lookup_insert_ne; [by apply not_eq_sym|]. done.
    + exists id, j'. by rw lookup_insert_eq.
Qed.

Lemma append_nonempty c s t : String.append (String c s) t ≠ "".
Proof. done. Qed.

Lemma keysForTarget_nonempty ct target k :
  map_Forall (λ _ key, key ≠ "") ct → k ∈ keysForTarget ct target → k ≠ "".
Proof.
  intros Hct. unfold keysForTarget. destruct target as [app|windowId app].
  - destruct (ct !! _) as [key|] eqn:Hk; simpl; intros ->%list_elem_of_singleton; [by eapply Hct|done].
  - by intros [_ ?]%elem_of_uniqueSorted.
Qed.

Lemma stateKeys_nonempty ct r k :
  map_Forall (λ _ key, key ≠ "") ct → k ∈ stateKeysForRequest ct r → k ≠ "".
Proof.
  intros Hct. unfold stateKeysForRequest.
  destruct r; try (by intros ?%not_elem_of_nil); try by apply keysForTarget_nonempty.
  by intros [_ ?]%elem_of_uniqueSorted.
Qed.

Lemma stateKeys_locked ct r k :
  map_Forall (λ _ key, key ≠ "") ct → k ∈ stateKeysForRequest ct r → k ∈ keysForRequest ct r.
Proof.
  intros Hct Hk. pose proof (stateKeys_nonempty _ _ _ Hct Hk) as Hne.
  destruct r as [| | | | |s c|s cs]; simpl in *; try done.
  - apply elem_of_uniqueSorted. split; [|done]. apply elem_of_app. by left.
  - apply elem_of_uniqueSorted in Hk as [Hk _]. apply elem_of_uniqueSorted. split; [|done].
    apply list_elem_of_bind in Hk as (c & Hk & Hc). apply list_elem_of_bind. exists c.
    split; [|done]. apply elem_of_app. by left.
Qed.

(** A job whose call of [run] starts. *)
Lemma started_JobOk st id j task keys signal :
  ResourceLocks.Inv st → tasks st !! task = None → task = lockTask id (j_phase j) →
  inside (j_phase j) = false → (∀ k, k ∈ j_stateKeys j → k ≠ "") →
  (∀ k, k ∈ j_stateKeys j → k ∈ keys) →
  JobOk (ResourceLocks.exec st (Start task keys signal)) id j.
Proof.
  intros HI Hnone -> Hin Hne Hkeys. split; [done|]. intros _.
  destruct (start_frame _ keys signal st HI Hnone) as (_ & t & Ht & Hr). exists t.
  split; [exact Ht|]. split; [by rw Hr|]. by rw Hin.
Qed.

Lemma no_first_task a id : AInv a → jobs a !! id = None → tasks (lockTable a) !! (2 * id)%nat = None.
Proof.
  intros HA Hj. apply eq_None_not_Some. intros (id0 & j0 & Hj0 & [?|[? _]])%(ai_tasks _ HA); [|lia].
  assert (id0 = id) as -> by lia. congruence.
Qed.

Lemma no_second_task a id j :
  AInv a → jobs a !! id = Some j → late (j_phase j) = false →
  tasks (lockTable a) !! (2 * id + 1)%nat = None.
Proof.
  intros HA Hj Hl. apply eq_None_not_Some. intros (id0 & j0 & Hj0 & [?|[? ?]])%(ai_tasks _ HA); [lia|].
  assert (id0 = id) as -> by lia. congruence.
Qed.

Lemma submit_AInv id request signal a : AInv a → AInv (submit id request signal a).
Proof.
  intros HA. unfold submit. destruct (jobs a !! id) eqn:Hj; [done|].
  pose proof (ai_canonical _ HA) as Hct. pose proof (no_first_task _ _ HA Hj) as Hnone.
  set (sk := stateKeysForRequest _ request). set (ks := keysForRequest _ request).
  assert (Hne : ∀ k, k ∈ sk → k ≠ "") by (intros k; by apply stateKeys_nonempty).
  assert (Hlk : ∀ k, k ∈ sk → k ∈ ks) by (intros k; by apply stateKeys_locked).
  assert (Hdirect : AInv (setJob id {| j_request := request; j_stateKeys := sk; j_signal := signal;
                                       j_phase := Direct |} a)).
  { eapply (AInv_step a _ id _ None); [done..| |]; [by intros j0; rw Hj|by split]. }
  assert (Hgo : ∀ p keys, p = Locking ∨ p = Observing → (∀ k, k ∈ sk → k ∈ keys) →
            AInv (enterLocks (2 * id) keys signal (setJob id {| j_request := request; j_stateKeys := sk;
                    j_signal := signal; j_phase := p |} a))).
  { intros p keys Hp Hkeys.
    eapply (AInv_step a _ id _ (Some (Start (2 * id) keys signal))); [done..|by left|by intros j0; rw Hj|].
    apply started_JobOk; [apply (ai_locks _ HA)|done|by destruct Hp as [-> | ->]|by destruct Hp as [-> | ->]|
      done..]. }
  destruct request; try done; try (case_bool_decide; [done|]); apply Hgo; auto.
Qed.

Lemma continue_AInv id a : AInv a → AInv (continue_ id a).
Proof.
  intros HA. unfold continue_. destruct (jobs a !! id) as [j|] eqn:Hj; [|done].
  destruct (locking (j_phase j) && negb (inside (j_phase j))) eqn:Hlock; [|by destruct (j_phase j)].
  pose proof (ai_jobs _ HA _ _ Hj) as [Hne Hjob]. apply andb_true_iff in Hlock as [Hl Hni].
  destruct (Hjob Hl) as (t & Ht & Hreq & _). set (task := lockTask id (j_phase j)) in *.
  set (e := Resume task).
  destruct (exec_persists _ e _ _ (ai_locks _ HA) Ht) as (t' & Ht' & Hr' & _).
  set (a1 := withLockTable (ResourceLocks.exec (lockTable a) e) a).
  assert (Hto : ∀ a' j', lockTable a' = lockTable a1 → jobs a' = <[id := j']> (jobs a) →
            canonicalTargets a' = canonicalTargets a → j_stateKeys j' = j_stateKeys j →
            (late (j_phase j) = true → late (j_phase j') = true) →
            (locking (j_phase j') = true → lockTask id (j_phase j') = task ∧
               (inside (j_phase j') = true → t_stage t' = Entered)) → AInv a').
  { intros a' j' Hlt Hjs Hc Hsk Hlate Hin.
    eapply (AInv_step a a' id j' (Some e)); [done..|by rw Hc; apply (ai_canonical _ HA)|done| |].
    - intros j0 Hj0. rw Hj in Hj0. by injection Hj0 as <-.
    - split; [by rw Hsk|]. intros [Htask Hent]%Hin. rw Htask Hlt. exists t'. split; [done|].
      split; [|done]. rw Hsk Hr'. done. }
  assert (Hsame : AInv a1).
  { apply (Hto _ j); [done|symmetry; by apply insert_id|done..|]. intros _. split; [done|].
    intros Hi. by rw Hi in Hni. }
  assert (Hres : AInv match t_stage <$> tasks (lockTable a1) !! task with
                      | Some Entered => enter id j a1
                      | Some Over => setJob id (withPhase (Done (inl AbortError)) j) a1
                      | _ => a1 end).
  { assert (Hlook : tasks (lockTable a1) !! task = Some t') by exact Ht'. rw Hlook. simpl.
    destruct (t_stage t') eqn:Hst; try done.
    - unfold enter. destruct (j_phase j) eqn:Hp; try done.
      + case_match; by eapply Hto.
      + destruct (j_request j); try done. case_match; by eapply Hto.
      + destruct (j_request j); try done. case_match; by eapply Hto.
    - by eapply Hto. }
  destruct (j_phase j); done.
Qed.

Lemma afterOperation_same j o a :
  lockTable (fst (afterOperation j o a)) = lockTable a ∧ jobs (fst (afterOperation j o a)) = jobs a ∧
  canonicalTargets (fst (afterOperation j o a)) = canonicalTargets a.
Proof. unfold afterOperation. by destruct (j_request j), o as [|[]]. Qed.

Lemma settled_AInv id o a : AInv a → AInv (settled id o a).
Proof.
  intros HA. unfold settled. destruct (jobs a !! id) as [j|] eqn:Hj; [|done].
  pose proof (ai_jobs _ HA _ _ Hj) as [Hne Hjob].
  assert (Hlate : ∀ p, (late (j_phase j) = true → late p = true) →
            ∀ j0, jobs a !! id = Some j0 → late (j_phase j0) = true → late p = true).
  { intros p Hp j0 Hj0. rw Hj in Hj0. by injection Hj0 as <-. }
  destruct (j_phase j) eqn:Hp; try done.
  - assert (Hto : ∀ a', lockTable a' = lockTable a → jobs a' = jobs a →
              map_Forall (λ _ key, key ≠ "") (canonicalTargets a') →
              AInv (setJob id (withPhase (Done o) j) a')).
    { intros a' Hl Hjs Hc.
      eapply (AInv_step a _ id (withPhase (Done o) j) None); [done|done|simpl; by rw Hjs|done|done|
        by apply Hlate|by split]. }
    pose proof (ai_canonical _ HA) as Hct.
    destruct (j_request j); try by apply Hto. destruct o as [|[]]; try by apply Hto.
    apply Hto; [done|done|]. apply map_Forall_insert_2; [|done]. apply append_nonempty.
  - destruct (afterOperation_same j o a) as (Hl & Hjs & Hc).
    destruct (afterOperation j o a) as [a' o']. simpl in *.
    eapply (AInv_step a _ id (withPhase (Settling o') j) None);
      [done|done|simpl; by rw Hjs|simpl; rw Hc; apply (ai_canonical _ HA)|done|by apply Hlate|].
    split; [done|]. intros _. simpl. rw Hl. destruct Hjob as (t & Ht & Hr & Hi); [done|]. eauto.
  - assert (Hdone : AInv (setJob id (withPhase (Done o) j) a)).
    { eapply (AInv_step a _ id (withPhase (Done o) j) None); [done|done|done|apply (ai_canonical _ HA)|
        done|by apply Hlate|by split]. }
    destruct o as [|[]]; try exact Hdone.
    eapply (AInv_step a _ id (withPhase (Comparing initialGeneration) j)
              (Some (Start (2 * id + 1) (j_stateKeys j) (j_signal j))));
      [done|done|done|apply (ai_canonical _ HA)|by right|by apply Hlate|].
    apply started_JobOk; [apply (ai_locks _ HA)| |done..].
    apply (no_second_task a id j); [done|done|by rw Hp].
Qed.

Lemma return_AInv id a : AInv a → AInv (return_ id a).
Proof.
  intros HA. unfold return_. destruct (jobs a !! id) as [j|] eqn:Hj; [|done].
  pose proof (ai_jobs _ HA _ _ Hj) as [Hne _].
  assert (Hto : ∀ p, locking p = false → (late (j_phase j) = true → late p = true) →
            AInv (setJob id (withPhase p j) (withLockTable
              (ResourceLocks.exec (lockTable a) (Leave (lockTask id (j_phase j)))) a))).
  { intros p Hl Hlate.
    eapply (AInv_step a _ id (withPhase p j) (Some (Leave _))); [done|done|done|apply (ai_canonical _ HA)|
      apply lockTask_cases| |].
    - intros j0 Hj0. rw Hj in Hj0. by injection Hj0 as <-.
    - split; [done|]. simpl. by rw Hl. }
  destruct (j_phase j) as [| | |o| |[e|n]| | |o|]; try done; by apply Hto.
Qed.

Lemma aborted_AInv s a : AInv a → AInv (withLockTable (ResourceLocks.exec (lockTable a) (Abort s)) a).
Proof.
  intros HA. split; [apply exec_Inv, (ai_locks _ HA)|apply (ai_canonical _ HA)|..].
  - intros id j Hj. destruct (ai_jobs _ HA _ _ Hj) as [Hk Hjob]. split; [done|]. intros (t & Ht & Hr & Hi)%Hjob.
    destruct (exec_persists _ (Abort s) _ _ (ai_locks _ HA) Ht) as (t' & Ht' & Hr' & He').
    exists t'. split; [done|]. split; [by rw Hr'|]. intros ?%Hi. by apply He'.
  - intros i Hi. simpl in Hi. apply (ai_tasks _ HA).
    by destruct (exec_new _ (Abort s) i (ai_locks _ HA) Hi) as [|(? & ? & ?)].
Qed.

Lemma perform_AInv a e : AInv a → AInv (perform a e).
Proof.
  intros HA. destruct e; simpl; [by apply submit_AInv|by apply continue_AInv|by apply settled_AInv|
    by apply return_AInv|by apply aborted_AInv|]. split; apply HA.
Qed.

Lemma performAll_Inv steps a :
  AInv a → Recorded a → AInv (performAll a steps) ∧ Recorded (performAll a steps).
Proof.
  revert a. induction steps as [|e steps IH]; intros a HA HR; [done|]. simpl.
  apply IH; [by apply perform_AInv|by apply perform_Recorded].
Qed.

Lemma initArbiter_Inv : AInv initArbiter ∧ Recorded initArbiter.
Proof.
  split; [|by split]. split; [apply Inv_init|done|done|]. intros i [t Ht]. simpl in Ht.
  by rw lookup_empty in Ht.
Qed.

(** ** Properties *)

(** What a command's generation field, or the session's own observations, must say. *)
Definition commandFresh (a : arbiter) (sessionId : string) (c : Command) : Prop :=
  match c_observedResourceGeneration c with
  | Some g => g = currentGeneration a (keysForTarget (canonicalTargets a) (c_target c))
  | None => ∀ key, key ∈ keysForTarget (canonicalTargets a) (c_target c) →
      undisturbed sessionId key (history a) = true
  end.

Lemma staleKeys_nil a s keys :
  Recorded a → staleKeys a s keys = [] ↔ ∀ key, key ∈ keys → undisturbed s key (history a) = true.
Proof.
  intros HR. unfold staleKeys. split.
  - intros Hnil key Hin. destruct (undisturbed s key (history a)) eqn:Hu; [done|].
    exfalso. apply (not_elem_of_nil (A:=string) key). rw -Hnil. apply list_elem_of_filter.
    split; [|done]. rw isStale_undisturbed; [done|]. by rw Hu.
  - intros Hall. apply filter_none. intros key Hin. rw isStale_undisturbed; [done|]. by rw Hall.
Qed.

Lemma checkCommand_None a s g c : Recorded a → checkCommand a s g c = None ↔ commandFresh a s c.
Proof.
  intros HR. unfold checkCommand, commandFresh.
  destruct (c_observedResourceGeneration c) as [n|].
  - destruct (_ =? _) eqn:E; bool_to_prop; by split.
  - rw -staleKeys_nil; [done|]. by destruct (staleKeys _ _ _).
Qed.

Lemma checkCommands_None a s g cs :
  Recorded a → checkCommands a s g cs = None ↔ ∀ c, c ∈ cs → commandFresh a s c.
Proof.
  intros HR. induction cs as [|c cs IH]; simpl.
  - split; [|done]. by intros _ c ?%not_elem_of_nil.
  - destruct (checkCommand a s g c) eqn:Hc.
    + split; [done|]. intros Hall. assert (Hf : commandFresh a s c) by (apply Hall; by left).
      apply (checkCommand_None a s g c HR) in Hf. congruence.
    + apply (checkCommand_None a s g c HR) in Hc. rw IH. split.
      * intros Hall c' [->|Hin]%elem_of_cons; [done|by apply Hall].
      * intros Hall c' Hin. apply Hall. by right.
Qed.

Lemma checkCommands_error a s g cs e :
  checkCommands a s g cs = Some e →
  ∃ observed current stale, e = ComputerUseResourceStaleError observed current stale.
Proof.
  induction cs as [|c cs IH]; simpl; [done|].
  destruct (checkCommand a s g c) as [e'|] eqn:Hc; [|done]. intros [= <-]. unfold checkCommand in Hc.
  repeat case_match; simplify_eq; eauto.
Qed.

(** The freshness check decides exactly what it promises.  In any reachable state a
    batch passes exactly when every command either names the current generation of its
    target or, naming none, addresses only resources that nobody mutated since this
    session last saw them (or ever, if it never did); otherwise the result is a stale
    error and no operation runs. *)
Theorem freshness_check_is_exact steps sessionId commands keys :
  let a := performAll initArbiter steps in
  (assertFreshObservation a (Batch sessionId commands) keys = None ↔
     ∀ c, c ∈ commands → commandFresh a sessionId c) ∧
  (∀ e, assertFreshObservation a (Batch sessionId commands) keys = Some e →
     ∃ observed current stale, e = ComputerUseResourceStaleError observed current stale).
Proof.
  intros a. destruct initArbiter_Inv as [HA HR].
  destruct (performAll_Inv steps initArbiter HA HR) as [_ HR']. fold a in HR'. split.
  - by apply checkCommands_None.
  - apply checkCommands_error.
Qed.

(** The one step that writes the counters. *)
Lemma generations_change a e :
  resourceGenerations (perform a e) = resourceGenerations a ∨
  ∃ id j o, e = Settled id o ∧ jobs a !! id = Some j ∧ j_phase j = Operating ∧
    resourceGenerations (perform a e) = resourceGenerations (advance (j_stateKeys j) a).
Proof.
  destruct e as [id r sg|id|id o|id|s|s]; simpl; try by left.
  - left. apply submit_same.
  - left. unfold continue_. destruct (jobs a !! id) as [j|]; [|done].
    assert (He : ∀ a1, resourceGenerations (enter id j a1) = resourceGenerations a1).
    { intros a1. unfold enter. repeat case_match; done. }
    destruct (j_phase j); try done; simpl; destruct (t_stage <$> _) as [[]|]; try done; by rw He.
  - unfold settled. destruct (jobs a !! id) as [j|] eqn:Hj; [|by left].
    destruct (j_phase j) eqn:Hp; try by left.
    + left. by repeat case_match.
    + assert (Hop : resourceGenerations (fst (afterOperation j o a)) = resourceGenerations a ∨
               resourceGenerations (fst (afterOperation j o a)) = resourceGenerations (advance (j_stateKeys j) a)).
      { unfold afterOperation. destruct (j_request j), o as [|[]]; simpl; (by left) || (by right). }
      destruct (afterOperation j o a) as [a' o']. simpl in *. destruct Hop as [?|?]; [by left|right].
      by exists id, j, o.
    + left. by repeat case_match.
  - left. apply return_same.
Qed.

(** Two critical sections share no resource. *)
Lemma operating_disjoint a id id' j j' key :
  AInv a → jobs a !! id = Some j → jobs a !! id' = Some j' →
  j_phase j = Operating → j_phase j' = Operating →
  key ∈ j_stateKeys j → key ∈ j_stateKeys j' → id = id'.
Proof.
  intros HA Hj Hj' Hp Hp' Hk Hk'.
  destruct (ai_jobs _ HA _ _ Hj) as [Hne Ht]. destruct (ai_jobs _ HA _ _ Hj') as [_ Ht'].
  rw Hp in Ht. rw Hp' in Ht'. destruct Ht as (t & Ht & Hr & Hs); [done|].
  destruct Ht' as (t' & Ht' & Hr' & Hs'); [done|].
  assert ((2 * id)%nat = (2 * id')%nat); [|lia].
  eapply (entered_disjoint (lockTable a) _ _ t t' key); eauto. apply (ai_locks _ HA).
Qed.

Lemma generation_advanced a key keys :
  default 0 (resourceGenerations (advance keys a) !! key) = generationOf a key + occurrences key keys.
Proof. simpl. apply foldl_advance. Qed.

(** A mutating operation runs on the state it was checked against.  While an action or
    a batch is in its critical section nothing else changes the generation of the
    resources it addresses, whatever other requests start, settle, abort or resolve; and
    when its operation settles, however it does, each of them is advanced, so that every
    other session's observation of them is stale. *)
Theorem operation_is_undisturbed steps id j key s :
  let a := performAll initArbiter steps in
  jobs a !! id = Some j → j_phase j = Operating → key ∈ j_stateKeys j →
  match j_request j with Action s' _ | Batch s' _ => s' = s | _ => False end →
  (∀ e, (∀ o, e ≠ Settled id o) → generationOf (perform a e) key = generationOf a key) ∧
  (∀ o, generationOf a key < generationOf (settled id o a) key ∧
     ∀ s', s' ≠ s → undisturbed s' key (history (settled id o a)) = false).
Proof.
  intros a Hj Hp Hk Hs. destruct initArbiter_Inv as [HA0 HR0].
  destruct (performAll_Inv steps initArbiter HA0 HR0) as [HA _]. fold a in HA. split.
  - intros e Hne. unfold generationOf.
    destruct (generations_change a e) as [->|(id' & j' & o & -> & Hj' & Hp' & ->)]; [done|].
    rw generation_advanced. rw (proj2 (proj2 (occurrences_spec _ _))); [|unfold generationOf; lia].
    intros Hk'. apply (Hne o). f_equal. by eapply operating_disjoint.
  - intros o. destruct (occurrences_spec key (j_stateKeys j)) as [Hpos Hz].
    assert (occurrences key (j_stateKeys j) ≠ 0) by tauto.
    assert (Hh : resourceGenerations (settled id o a) = resourceGenerations (advance (j_stateKeys j) a) ∧
              (history (settled id o a) = Mutated (j_stateKeys j) :: history a ∨
               history (settled id o a) = Seen s (j_stateKeys j) :: Mutated (j_stateKeys j) :: history a)).
    { unfold settled. rw Hj Hp. unfold afterOperation.
      destruct (j_request j); try done; subst; destruct o as [|[]]; simpl; (split; [done|]); auto. }
    destruct Hh as [Hg Hh]. unfold generationOf at 2. rw Hg generation_advanced. split; [lia|].
    intros s' Hs'. destruct Hh as [-> | ->]; simpl.
    + by rw bool_decide_true.
    + rw bool_decide_false; [by intros [? _]|]. by rw bool_decide_true.
Qed.

(** ** Examples *)

Definition ex_command (target : Target) (g : option Z) : Command :=
  {| c_target := target; c_action := click_point; c_observedStateId := Some "state-1";
     c_observedResourceGeneration := g |}.

(** A request that meets no resistance. *)
Definition ex_whole (id : nat) (r : Request) (o : Response) : list step :=
  [Submit id r None; Continue id; Continue id; Settled id (inr o); Return id].

Definition ex_mail : Target := AppTarget " Mail ".
Definition ex_started : list step :=
  ex_whole 0 (GetAppState "s1" ex_mail) (AppState None) ++
  [Submit 1 (Action "s1" (ex_command ex_mail None)) None; Continue 1; Continue 1].

Lemma operation_is_undisturbed_witness :
  (∀ e, (∀ o, e ≠ Settled 1 o) →
     generationOf (perform (performAll initArbiter ex_started) e) "app:mail" = 0) ∧
  (∀ o, 0 < generationOf (settled 1 o (performAll initArbiter ex_started)) "app:mail" ∧
     ∀ s', s' ≠ "s1" →
       undisturbed s' "app:mail" (history (settled 1 o (performAll initArbiter ex_started))) = false).
Proof.
  destruct (jobs (performAll initArbiter ex_started) !! 1%nat) as [j|] eqn:Hj; [|by vm_compute in Hj].
  assert (Hp : j_phase j = Operating ∧ j_stateKeys j = ["app:mail"] ∧
            j_request j = Action "s1" (ex_command ex_mail None))
    by (vm_compute in Hj; by injection Hj as <-).
  destruct Hp as (Hp & Hk & Hr).
  assert (Hg : generationOf (performAll initArbiter ex_started) "app:mail" = 0) by (by vm_compute).
  pose proof (operation_is_undisturbed ex_started 1 j "app:mail" "s1" Hj Hp) as H.
  rw Hk Hr in H. cbv zeta in H. rw Hg in H. apply H; [by left|done].
Defined.

(** Generations of several resources are compared by their maximum: here a session saw a
    window and its application at generation 1, another session then acted on the
    application, and the first session's command still names the current generation. *)
Definition ex_window : Target := WindowTarget "w" None.
Definition ex_window_of_app : Target := WindowTarget "w" (Some "mail").
Definition ex_masked : arbiter :=
  performAll initArbiter
    (ex_whole 0 (Action "s1" (ex_command ex_window None)) ActionResponse ++
     ex_whole 1 (GetAppState "s1" ex_window_of_app) (AppState None) ++
     ex_whole 2 (Action "s2" (ex_command ex_mail None)) ActionResponse).

Example maximum_hides_a_mutation :
  match jobs ex_masked !! 1%nat with
  | Some j => j_phase j = Done (inr (AppState (Some 1)))
  | None => False
  end ∧
  undisturbed "s1" "app:mail" (history ex_masked) = false ∧
  assertFreshObservation ex_masked (Action "s1" (ex_command ex_window_of_app (Some 1))) [] = None.
Proof. vm_compute. done. Qed.
