(* ===== verification/Compaction.v ===== *)
(** * Conversation compaction: the cut planner

    [packages/runtime/kernel/agent-runtime/orchestrator-compaction.ts] and
    [image-tokens.ts]: what a message costs, where a conversation is cut so that no tool
    call is separated from its result, and the sizes of the summary request.  Message
    indices are [nat]; sizes and token counts are [Z]. *)

From Corelib Require Import ssreflect SpecFloat.
From stdpp Require Import prelude gmap strings pretty.
From S2P Require Import Prelude JsNumber JsString Json.

#[local] Open Scope Z_scope.

(** ** Constants *)

Definition COMPACTION_RESERVE_TOKENS : Z := 49152.
Definition KEEP_RECENT_TOKENS : Z := 20000.
Definition MIN_TAIL_MESSAGES : nat := 2.
Definition PINNED_INSTRUCTION_MAX_CHARS : Z := 12000.
Definition DEFAULT_CONTEXT_WINDOW_TOKENS : Z := 128000.
Definition MIN_TRIGGER_TOKENS : Z := 8000.
Definition MAX_BLOCK_CHARS : Z := 100000.
Definition TOOL_RESULT_MAX_CHARS : Z := 2000.
Definition THREAD_CHECKPOINT_MARKER : string := "[[THREAD_CHECKPOINT]]".
Definition DEFAULT_ESTIMATED_IMAGE_TOKENS : Z := 1200.
Definition IMAGE_TILE_EDGE_PX : Z := 512.
Definition IMAGE_DETAIL_MAX_EDGE_PX : Z := 2048.
Definition IMAGE_BASE_TOKENS : Z := 85.
Definition IMAGE_TILE_TOKENS : Z := 170.
Definition SUMMARY_INPUT_CHARS_PER_TOKEN : Z := 3.
Definition SUMMARY_PROMPT_TEMPLATE_CHARS : Z := 4000.

(** ** Numbers and strings *)

Definition num_quot (x y : number) : number := SFdiv 53 1024 x y.

(** [Math.ceil] on a finite number. *)
Definition num_ceil (x : number) : Z := - num_floor (SFopp x).

Definition ceilDiv (a b : Z) : Z := - (- a / b).

(** [value.slice(0, n)] and [value.slice(n)] for [0 <= n]. *)
Definition sliceTo (value : string) (n : Z) : string := String.substring 0 (Z.to_nat n) value.
Definition sliceFrom (value : string) (n : Z) : string :=
  String.substring (Z.to_nat n) (String.length value - Z.to_nat n) value.

Definition newline : string := String (Ascii.ascii_of_N 10) EmptyString.
Definition blankLine : string := newline +:+ newline.

(** ** Windows and triggers *)

(** [contextWindowTokens] of a value that [Number] turned into [window]. *)
Definition contextWindowTokens (window : number) : Z :=
  if isFinite window && SFltb (num_of_Z 0) window then num_floor window
  else DEFAULT_CONTEXT_WINDOW_TOKENS.

(** [Math.floor(window * 0.5)]: the product is exact. *)
Definition orchestratorCompactionTriggerTokens (window : Z) : Z := Z.max MIN_TRIGGER_TOKENS (window / 2).

(** [window * 0.1]: the literal is the double nearest to a tenth. *)
Definition orchestratorKeepRecentTokens (window : Z) : Z :=
  Z.min KEEP_RECENT_TOKENS
    (num_floor (num_mul (num_of_Z window) (num_quot (num_of_Z 1) (num_of_Z 10)))).

(** ** Text for the summarizer *)

Definition truncateForSummary (value : string) (maxChars : Z) : string :=
  if js_length value <=? maxChars then value
  else sliceTo value maxChars +:+ blankLine +:+ "[... " +:+ pretty (js_length value - maxChars) +:+
       " more characters truncated]".

Definition ellipsize (value : string) : string :=
  let trimmed := trim value in
  if js_length trimmed <=? MAX_BLOCK_CHARS then trimmed
  else sliceTo trimmed MAX_BLOCK_CHARS +:+ "...(truncated)".

Definition formatCheckpointText (summary : string) : string :=
  join newline [THREAD_CHECKPOINT_MARKER; ""; trim summary].

Definition pinnedInstructionText (value : string) : string :=
  truncateForSummary (trim value) PINNED_INSTRUCTION_MAX_CHARS.

(** ** Messages *)

Inductive Block :=
  | TextBlock (t : string)
  | ThinkingBlock (thinking : string)
  | ImageBlock (mimeType : string) (sourcePath : option string) (width height : option number)
      (data : string)
  | ToolCallBlock (id : option string) (name : string) (arguments : option fields).

Inductive CompactionPayload :=
  | UserPayload (content : string + list Block)
  | AssistantPayload (content : list Block) (stopReason : string)
  | ToolResultPayload (content : list Block) (toolCallId : string).

Definition positiveDimension (value : option number) : option Z :=
  match value with
  | Some x => if isFinite x && SFltb (num_of_Z 0) x then Some (num_floor x) else None
  | None => None
  end.

(** A dimension below one floors to zero, which the caller treats as unknown. *)
Definition estimateModelVisibleImageTokens (width height : option number) : Z :=
  match positiveDimension width, positiveDimension height with
  | Some w, Some h =>
      if (w =? 0) || (h =? 0) then DEFAULT_ESTIMATED_IMAGE_TOKENS
      else
        let scale := num_min (num_of_Z 1) (num_quot (num_of_Z IMAGE_DETAIL_MAX_EDGE_PX) (num_of_Z (Z.max w h))) in
        let scaledWidth := Z.max 1 (num_ceil (num_mul (num_of_Z w) scale)) in
        let scaledHeight := Z.max 1 (num_ceil (num_mul (num_of_Z h) scale)) in
        let tiles := ceilDiv scaledWidth IMAGE_TILE_EDGE_PX * ceilDiv scaledHeight IMAGE_TILE_EDGE_PX in
        IMAGE_BASE_TOKENS + IMAGE_TILE_TOKENS * tiles
  | _, _ => DEFAULT_ESTIMATED_IMAGE_TOKENS
  end.

Definition textTokens (t : string) : Z := Z.max 1 (ceilDiv (js_length t) 4).

Definition blockTokens (block : Block) : Z :=
  match block with
  | TextBlock t => textTokens t
  | ThinkingBlock t => textTokens t
  | ImageBlock _ _ width height _ => estimateModelVisibleImageTokens width height
  | ToolCallBlock _ name arguments => textTokens (name +:+ stringify (JObj (default [] arguments)))
  end.

Definition sumZ (l : list Z) : Z := foldr Z.add 0 l.

Definition payloadBlocks (payload : CompactionPayload) : list Block :=
  match payload with
  | UserPayload (inl _) => []
  | UserPayload (inr blocks) | AssistantPayload blocks _ | ToolResultPayload blocks _ => blocks
  end.

Definition estimatePayloadTokens (payload : CompactionPayload) : Z :=
  match payload with
  | UserPayload (inl content) => textTokens content
  | _ => sumZ (blockTokens <$> payloadBlocks payload)
  end.

(** Text blocks verbatim, any other block as an image receipt. *)
Definition blockText (block : Block) : string :=
  match block with
  | TextBlock t => t
  | ImageBlock mimeType sourcePath _ _ _ =>
      "[Image receipt: " +:+ mimeType +:+
      match sourcePath with
      | Some path => if String.eqb path "" then "" else " path=" +:+ path
      | None => ""
      end +:+ "]"
  | _ => "[Image receipt: undefined]"
  end.

Definition isBlank (s : string) : bool := String.eqb (trim s) "".

Definition callText (name : string) (arguments : fields) : string :=
  name +:+ "(" +:+ join ", " ((λ kv, kv.1 +:+ "=" +:+ stringify kv.2) <$> arguments) +:+ ")".

Definition summaryLinesForPayload (payload : CompactionPayload) : list string :=
  match payload with
  | UserPayload content =>
      let content := match content with inl s => s | inr blocks => join newline (blockText <$> blocks) end in
      if isBlank content then [] else ["[User] " +:+ ellipsize content]
  | AssistantPayload blocks stopReason =>
      if String.eqb stopReason "error" || String.eqb stopReason "aborted" ||
         negb (existsb (λ block, match block with
                                 | ToolCallBlock _ _ _ => true
                                 | TextBlock t => negb (isBlank t)
                                 | _ => false
                                 end) blocks)
      then []
      else
        let thinking := omap (λ block, match block with
          | ThinkingBlock t => if isBlank t then None else Some t | _ => None end) blocks in
        let texts := omap (λ block, match block with
          | TextBlock t => if isBlank t then None else Some t | _ => None end) blocks in
        let calls := omap (λ block, match block with
          | ToolCallBlock _ name arguments => Some (callText name (default [] arguments))
          | ImageBlock _ _ _ _ _ => Some (callText "undefined" [])
          | _ => None end) blocks in
        (if bool_decide (thinking = []) then [] else ["[Assistant thinking] " +:+ join newline thinking]) ++
        (if bool_decide (texts = []) then [] else ["[Assistant] " +:+ join newline texts]) ++
        (if bool_decide (calls = []) then [] else ["[Assistant tool calls] " +:+ join "; " calls])
  | ToolResultPayload blocks _ =>
      let content := trim (join newline (blockText <$> blocks)) in
      if String.eqb content "" then []
      else ["[Tool result] " +:+ truncateForSummary content TOOL_RESULT_MAX_CHARS]
  end.

(** ** The planner's view *)

Record CompactionMessageView := {
  v_role : string;
  v_toolCallIds : list string;
  v_toolResultId : option string;
  v_tokens : Z;
}.

Definition payloadRole (payload : CompactionPayload) : string :=
  match payload with
  | UserPayload _ => "user" | AssistantPayload _ _ => "assistant" | ToolResultPayload _ _ => "toolResult"
  end.

Definition toolCallIdsOf (payload : CompactionPayload) : list string :=
  match payload with
  | AssistantPayload blocks _ =>
      omap (λ block, match block with ToolCallBlock id _ _ => id | _ => None end) blocks
  | _ => []
  end.

Definition compactionViewForPayload (payload : CompactionPayload) : CompactionMessageView :=
  {| v_role := payloadRole payload;
     v_toolCallIds := toolCallIdsOf payload;
     v_toolResultId := match payload with
                       | ToolResultPayload _ toolCallId =>
                           if isBlank toolCallId then None else Some (trim toolCallId)
                       | _ => None
                       end;
     v_tokens := estimatePayloadTokens payload |}.

Definition isAssistant (v : CompactionMessageView) : bool := String.eqb (v_role v) "assistant".

(** ** Tool-call groups *)

(** The loop that finds a group's end: [rest] are the messages from [index] on. *)
Fixpoint groupEnd (callIds matched : gset string) (endIndex index : nat)
    (rest : list CompactionMessageView) : nat :=
  match rest with
  | [] => endIndex
  | message :: rest' =>
      if isAssistant message then endIndex
      else
        match v_toolResultId message with
        | Some id =>
            if negb (String.eqb id "") && bool_decide (id ∈ callIds) then
              let matched := {[id]} ∪ matched in
              if bool_decide (size matched = size callIds) then index
              else groupEnd callIds matched index (S index) rest'
            else groupEnd callIds matched index (S index) rest'
        | None => groupEnd callIds matched index (S index) rest'
        end
  end.

(** The outer loop of [containingToolCallGroup], from [startIndex] downwards. *)
Fixpoint findGroup (messages : list CompactionMessageView) (messageIndex startIndex : nat)
    : option (nat * nat) :=
  match messages !! startIndex with
  | None => None
  | Some assistant =>
      if negb (isAssistant assistant) then
        match startIndex with O => None | S startIndex => findGroup messages messageIndex startIndex end
      else if bool_decide (v_toolCallIds assistant = []) then None
      else
        let endIndex := groupEnd (list_to_set (v_toolCallIds assistant)) ∅ startIndex (S startIndex)
                          (drop (S startIndex) messages) in
        if (messageIndex <=? endIndex)%nat then Some (startIndex, endIndex) else None
  end.

Definition containingToolCallGroup (messages : list CompactionMessageView) (messageIndex : nat)
    : option (nat * nat) := findGroup messages messageIndex messageIndex.

Definition alignCutForward (messages : list CompactionMessageView) (index : nat) : nat :=
  if (index <=? 0)%nat || (length messages <=? index)%nat then index
  else match containingToolCallGroup messages index with
       | Some (startIndex, endIndex) => if (startIndex <? index)%nat then S endIndex else index
       | None => index
       end.

Definition alignCutBackward (messages : list CompactionMessageView) (index : nat) : nat :=
  if (index <=? 0)%nat || (length messages <=? index)%nat then index
  else match containingToolCallGroup messages index with
       | Some (startIndex, _) => if (startIndex <? index)%nat then startIndex else index
       | None => index
       end.

(** ** The tail and the plan *)

(** The loop of [tailStartByTokenBudget] over the messages, newest first; the index of
    the head is the number of older ones. *)
Fixpoint tailLoop (n headEnd : nat) (keepRecentTokens accumulated : Z) (tailStart : nat)
    (newestFirst : list CompactionMessageView) : nat :=
  match newestFirst with
  | [] => tailStart
  | message :: older =>
      let index := length older in
      if (index <? headEnd)%nat then tailStart
      else if (keepRecentTokens <? accumulated + v_tokens message) && (tailStart <? n)%nat then tailStart
      else tailLoop n headEnd keepRecentTokens (accumulated + v_tokens message) index older
  end.

Definition tailStartByTokenBudget (messages : list CompactionMessageView) (headEnd : nat)
    (keepRecentTokens : Z) (minTailMessages : nat) : nat :=
  let n := length messages in
  let tailStart := tailLoop n headEnd keepRecentTokens 0 n (reverse messages) in
  alignCutBackward messages
    (if (headEnd + minTailMessages <=? n)%nat then Nat.min tailStart (n - minTailMessages) else tailStart).

Record CompactionPlan := { p_start : nat; p_tailStart : nat; p_latestUserIndex : option nat }.

(** The newest user message, if it is inside the span. *)
Fixpoint latestUser (start tailStart : nat) (newestFirst : list CompactionMessageView) : option nat :=
  match newestFirst with
  | [] => None
  | message :: older =>
      if String.eqb (v_role message) "user" then
        let index := length older in
        if (start <=? index)%nat && (index <? tailStart)%nat then Some index else None
      else latestUser start tailStart older
  end.

Definition planOrchestratorCompaction (messages : list CompactionMessageView) (protectHead : nat)
    (keepRecentTokens : Z) (minTail : nat) : option CompactionPlan :=
  let n := length messages in
  if (n <=? protectHead + minTail)%nat then None
  else
    let start := alignCutForward messages (Nat.min protectHead n) in
    let tailStart := tailStartByTokenBudget messages start keepRecentTokens minTail in
    if (tailStart <=? start)%nat then None
    else Some {| p_start := start; p_tailStart := tailStart;
                 p_latestUserIndex := latestUser start tailStart (reverse messages) |}.

(** ** The summary request *)

(** [Math.floor(0.8 * COMPACTION_RESERVE_TOKENS)] and its half; [limit] is [Number] of the
    model's own maximum. *)
Definition summaryMaxTokens (limit : number) (turnPrefix : bool) : Z :=
  let share := if turnPrefix
               then num_floor (num_mul (num_quot (num_of_Z 1) (num_of_Z 2)) (num_of_Z COMPACTION_RESERVE_TOKENS))
               else num_floor (num_mul (num_quot (num_of_Z 4) (num_of_Z 5)) (num_of_Z COMPACTION_RESERVE_TOKENS)) in
  if isFinite limit && SFltb (num_of_Z 0) limit then Z.min share (num_floor limit) else share.

Definition summaryTargetTokens (spanTokens maxTokens : Z) : Z :=
  Z.max 100 (Z.min
    (num_floor (num_mul (num_of_Z spanTokens) (num_quot (num_of_Z 1) (num_of_Z 5)))) (maxTokens / 2)).

Definition summaryOverheadChars (systemPromptChars : Z) (previousSummary durableMemoryReference : option string) : Z :=
  systemPromptChars + default 0 (js_length <$> previousSummary) +
  default 0 (js_length <$> durableMemoryReference) + SUMMARY_PROMPT_TEMPLATE_CHARS.

Definition summaryInputCharBudget (window overheadChars : Z) : Z :=
  Z.max (MIN_TRIGGER_TOKENS * SUMMARY_INPUT_CHARS_PER_TOKEN)
    (Z.max MIN_TRIGGER_TOKENS (window - COMPACTION_RESERVE_TOKENS) * SUMMARY_INPUT_CHARS_PER_TOKEN -
     overheadChars).

Definition capSummaryConversation (formatted : string) (maxChars : Z) : string :=
  if (maxChars <=? 0) || (js_length formatted <=? maxChars) then formatted
  else
    let omittedChars := js_length formatted - maxChars in
    join blankLine
      ["[Compaction input truncated: the oldest ~" +:+
         pretty (num_round (num_quot (num_of_Z omittedChars) (num_of_Z SUMMARY_INPUT_CHARS_PER_TOKEN))) +:+
         " tokens of unsummarized conversation were omitted so this request fits the summary model's context window. Rely on the previous summary (when present) for older details.]";
       sliceFrom formatted (js_length formatted - maxChars)].

Definition DURABLE_MEMORY_DOC_MAX_CHARS : Z := 8000.

Definition durableMemoryReference (profile : option string) : option string :=
  let text := default "" (trim <$> profile) in
  if String.eqb text "" then None
  else
    let capped := if DURABLE_MEMORY_DOC_MAX_CHARS <? js_length text
                  then sliceTo text DURABLE_MEMORY_DOC_MAX_CHARS +:+ newline +:+ "[truncated]"
                  else text in
    Some ("### User profile (memories/profile.md)" +:+ newline +:+ capped).

(** The messages that open a compacted conversation. *)
Definition checkpointMessages (summary : string) (pinnedInstruction : option string)
    : list CompactionPayload :=
  AssistantPayload [TextBlock (formatCheckpointText summary)] "stop" ::
  match pinnedInstruction with
  | Some pinned => if isBlank pinned then [] else [UserPayload (inl pinned)]
  | None => []
  end.

(** ** What a cut must not do *)

Section cuts.
Context (messages : list CompactionMessageView).

Definition assistantAt (k : nat) : Prop := ∃ v, messages !! k = Some v ∧ isAssistant v = true.
Definition resultAt (k : nat) (id : string) : Prop :=
  ∃ v, messages !! k = Some v ∧ v_toolResultId v = Some id.

(** Message [j] is the answer to the call [id] the assistant makes in message [i]: the
    first result with that id before another assistant message. *)
Definition answers (i j : nat) (id : string) : Prop :=
  (i < j)%nat ∧ id ≠ ""%string ∧
  (∃ v, messages !! i = Some v ∧ isAssistant v = true ∧ id ∈ v_toolCallIds v) ∧
  resultAt j id ∧
  (∀ k, (i < k ≤ j)%nat → ¬ assistantAt k) ∧
  (∀ k, (i < k < j)%nat → ¬ resultAt k id).

(** A cut at [c] puts no call on one side and its answer on the other. *)
Definition legalCut (c : nat) : Prop := ∀ i j id, answers i j id → ¬ (i < c ≤ j)%nat.

Lemma resultAt_length k id : resultAt k id → (k < length messages)%nat.
Proof. intros (v & Hv & _). by eapply lookup_lt_Some. Qed.

Lemma legalCut_bound c : (c ≤ 0 ∨ length messages ≤ c)%nat → legalCut c.
Proof.
  intros Hc i j id (Hij & _ & _ & Hj%resultAt_length & _). lia.
Qed.

Lemma legalCut_assistant c : assistantAt c → legalCut c.
Proof. intros Hc i j id (_ & _ & _ & _ & Hno & _) ?. by apply (Hno c). Qed.

(** The scan for a group's end passes no assistant message, and stops at the end of the
    conversation, before an assistant message, or once every call is answered. *)
Lemma groupEnd_spec (callIds matched : gset string) (a index : nat) :
  (a < index ≤ length messages)%nat → matched ⊆ callIds →
  (∀ x, x ∈ matched → ∃ k, (a < k < index)%nat ∧ resultAt k x) →
  let e := groupEnd callIds matched (index - 1) index (drop index messages) in
  (index - 1 ≤ e < length messages)%nat ∧
  (∀ k, (index ≤ k ≤ e)%nat → ¬ assistantAt k) ∧
  (S e = length messages ∨ assistantAt (S e) ∨
   ∀ id, id ∈ callIds → ∃ k, (a < k ≤ e)%nat ∧ resultAt k id).
Proof.
  remember (drop index messages) as rest eqn:Hrest. revert index matched Hrest.
  induction rest as [|v rest IH]; intros index matched Hrest Hi Hsub Hm; simpl.
  - symmetry in Hrest. apply drop_nil_inv in Hrest || (apply (f_equal length) in Hrest;
      rw length_drop in Hrest; simpl in Hrest).
    split_and!; [lia..| |]; [intros k ?; lia|left; lia].
  - assert (Hv : messages !! index = Some v)
      by (rw -(Nat.add_0_r index) -lookup_drop -Hrest //).
    assert (Hlt := lookup_lt_Some _ _ _ Hv).
    assert (Hrest' : rest = drop (S index) messages)
      by (rw -Nat.add_1_r -drop_drop -Hrest //).
    destruct (isAssistant v) eqn:Ha.
    { split_and!; [lia..| |]; [intros k ?; lia|].
      right; left. exists v. split; [|done]. by replace (S (index - 1)) with index by lia. }
    assert (Hcont : ∀ matched', matched' ⊆ callIds →
      (∀ x, x ∈ matched' → ∃ k, (a < k < S index)%nat ∧ resultAt k x) →
      let e := groupEnd callIds matched' index (S index) rest in
      (index - 1 ≤ e < length messages)%nat ∧
      (∀ k, (index ≤ k ≤ e)%nat → ¬ assistantAt k) ∧
      (S e = length messages ∨ assistantAt (S e) ∨
       ∀ id, id ∈ callIds → ∃ k, (a < k ≤ e)%nat ∧ resultAt k id)).
    { intros matched' Hs' Hm'.
      destruct (IH (S index) matched' Hrest' ltac:(lia) Hs' Hm') as (He & Hno & Hend).
      rw Nat.sub_succ Nat.sub_0_r in He Hno Hend. simpl. split_and!; [lia..| |done].
      intros k Hk. destruct (decide (k = index)) as [->|]; [|apply Hno; lia].
      intros (v' & Hv' & ?). congruence. }
    assert (Hkeep : ∀ x, x ∈ matched → ∃ k, (a < k < S index)%nat ∧ resultAt k x)
      by (intros x (k & ? & ?)%Hm; exists k; split; [lia|done]).
    destruct (v_toolResultId v) as [id|] eqn:Hid; [|by apply Hcont].
    destruct (negb (String.eqb id "") && bool_decide (id ∈ callIds)) eqn:Hin; [|by apply Hcont].
    apply andb_true_iff in Hin as [_ Hin%bool_decide_eq_true].
    assert (Hsub' : {[id]} ∪ matched ⊆ callIds).
    { intros x [->%elem_of_singleton|Hx]%elem_of_union; [done|by apply Hsub]. }
    assert (Hm' : ∀ x, x ∈ {[id]} ∪ matched → ∃ k, (a < k < S index)%nat ∧ resultAt k x).
    { intros x [->%elem_of_singleton|Hx]%elem_of_union; [|by apply Hkeep].
      exists index. split; [lia|]. by exists v. }
    case_bool_decide as Hsize; [|by apply Hcont].
    split_and!; [lia..| |].
    + intros k Hk. replace k with index by lia. intros (v' & Hv' & ?). congruence.
    + do 2 right. intros x Hx. rw -(set_subseteq_size_eq _ _ Hsub' _) in Hx; [lia|].
      destruct (Hm' x Hx) as (k & ? & ?). exists k. split; [lia|done].
Qed.

(** The assistant message a scan downwards from [k] meets first. *)
Definition nearestAssistant (k a : nat) (v : CompactionMessageView) : Prop :=
  (a ≤ k)%nat ∧ messages !! a = Some v ∧ isAssistant v = true ∧
  ∀ i, (a < i ≤ k)%nat → ¬ assistantAt i.

Definition groupOf (a : nat) (v : CompactionMessageView) : nat :=
  groupEnd (list_to_set (v_toolCallIds v)) ∅ a (S a) (drop (S a) messages).

Lemma findGroup_spec m k : (k < length messages)%nat →
  match findGroup messages m k with
  | Some (a, e) => ∃ v, nearestAssistant k a v ∧ e = groupOf a v ∧ (m ≤ e)%nat
  | None => (∀ i, (i ≤ k)%nat → ¬ assistantAt i) ∨
            ∃ a v, nearestAssistant k a v ∧ (v_toolCallIds v = [] ∨ (groupOf a v < m)%nat)
  end.
Proof.
  induction k as [|k IH]; intros Hk; simpl.
  - destruct (messages !! 0%nat) as [v|] eqn:Hv; [|apply lookup_ge_None in Hv; lia].
    destruct (isAssistant v) eqn:Ha; simpl.
    + assert (Hn : nearestAssistant 0 0 v) by (split_and!; [lia|done..|intros i ?; lia]).
      case_bool_decide; [by right; exists 0%nat, v; auto|].
      destruct (m <=? _)%nat eqn:E; [apply Nat.leb_le in E; by exists v|].
      apply Nat.leb_gt in E. right. exists 0%nat, v. auto.
    + left. intros i Hi (v' & Hv' & ?). replace i with 0%nat in Hv' by lia. congruence.
  - destruct (messages !! S k) as [v|] eqn:Hv; [|apply lookup_ge_None in Hv; lia].
    destruct (isAssistant v) eqn:Ha; simpl.
    + assert (Hn : nearestAssistant (S k) (S k) v) by (split_and!; [lia|done..|intros i ?; lia]).
      case_bool_decide; [by right; exists (S k), v; auto|].
      destruct (m <=? _)%nat eqn:E; [apply Nat.leb_le in E; by exists v|].
      apply Nat.leb_gt in E. right. exists (S k), v. auto.
    + assert (Hno : ¬ assistantAt (S k)) by (intros (v' & ? & ?); congruence).
      assert (Hup : ∀ a w, nearestAssistant k a w → nearestAssistant (S k) a w).
      { intros a w (? & ? & ? & Hi). split_and!; [lia|done..|].
        intros i ?. destruct (decide (i = S k)) as [->|]; [done|apply Hi; lia]. }
      specialize (IH ltac:(lia)).
      destruct (findGroup messages m k) as [[a e]|].
      * destruct IH as (w & ? & ? & ?). exists w. auto.
      * destruct IH as [Hnone | (a & w & ? & ?)]; [left|right; exists a, w; auto].
        intros i ?. destruct (decide (i = S k)) as [->|]; [done|apply Hnone; lia].
Qed.

(** No call before the nearest assistant message is still open. *)
Lemma legalCut_nearest k a v c :
  nearestAssistant k a v → (a < c ≤ S k)%nat ∨ c = S (groupOf a v) →
  v_toolCallIds v = [] ∨ (groupOf a v < c)%nat → legalCut c.
Proof.
  intros (Hak & Hv & Ha & Hno) Hc Hgroup i j id
    (Hij & Hid & (w & Hw & Hwa & Hcall) & Hj & Hnoas & Hfirst) [Hic Hcj].
  assert (Hjn := resultAt_length _ _ Hj).
  assert (Haa : assistantAt a) by (exists v; done).
  destruct (groupEnd_spec (list_to_set (v_toolCallIds v)) ∅ a (S a)) as (He & Hin & Hend);
    [split; [lia|by eapply lookup_lt_Some]|set_solver|set_solver|].
  rw Nat.sub_succ Nat.sub_0_r in He Hin Hend. change (groupEnd _ _ a _ _) with (groupOf a v) in *.
  assert (¬ (i < a)%nat) by (intros ?; apply (Hnoas a); [lia|done]).
  destruct (decide (i = a)) as [->|].
  - assert (w = v) as -> by congruence.
    destruct Hgroup as [Hnil | Hlt]; [rw Hnil in Hcall; by apply elem_of_nil in Hcall|].
    destruct Hend as [Hend | [Hend | Hall]].
    + lia.
    + apply (Hnoas (S (groupOf a v))); [lia|done].
    + destruct (Hall id) as (k' & Hk' & Hres); [by apply elem_of_list_to_set|].
      apply (Hfirst k'); [lia|done].
  - assert (assistantAt i) by (exists w; done).
    destruct Hc as [Hc | Hc].
    + apply (Hno i); [lia|done].
    + by apply (Hin i); [lia|].
Qed.
End cuts.

(** ** The aligned cuts *)

Lemma findGroup_None_legal messages index :
  (index < length messages)%nat → findGroup messages index index = None → legalCut messages index.
Proof.
  intros Hi Hf. pose proof (findGroup_spec messages index index Hi) as Hspec. rw Hf in Hspec.
  destruct Hspec as [Hnone | (a & v & Hn & Hg)].
  - intros i j id (_ & _ & (w & ? & ? & _) & _) ?. apply (Hnone i); [lia|by exists w].
  - destruct (decide (a = index)) as [->|].
    + apply legalCut_assistant. exists v. by destruct Hn as (_ & ? & ? & _).
    + eapply legalCut_nearest; [exact Hn| |exact Hg]. left. destruct Hn. lia.
Qed.

Lemma alignCutForward_spec messages index :
  legalCut messages (alignCutForward messages index) ∧
  (index ≤ alignCutForward messages index)%nat ∧
  ((index ≤ length messages)%nat → (alignCutForward messages index ≤ length messages)%nat).
Proof.
  unfold alignCutForward, containingToolCallGroup.
  destruct ((index <=? 0)%nat || (length messages <=? index)%nat) eqn:Hb.
  { apply orb_true_iff in Hb as [?%Nat.leb_le|?%Nat.leb_le];
      (split; [apply legalCut_bound; lia|done]). }
  apply orb_false_iff in Hb as [?%Nat.leb_gt ?%Nat.leb_gt].
  pose proof (findGroup_spec messages index index ltac:(done)) as Hspec.
  destruct (findGroup messages index index) as [[a e]|] eqn:Hf.
  - destruct Hspec as (v & Hn & -> & Hle). pose proof Hn as (Hak & Hv & Ha & Hno).
    assert (He : (groupOf messages a v < length messages)%nat).
    { destruct (groupEnd_spec messages (list_to_set (v_toolCallIds v)) ∅ a (S a)) as ([_ He] & _);
        [split; [lia|by eapply lookup_lt_Some]|set_solver|set_solver|].
      by rw Nat.sub_succ Nat.sub_0_r in He. }
    destruct (a <? index)%nat eqn:Hlt.
    + split; [|lia]. eapply legalCut_nearest; [exact Hn|by right|right; lia].
    + split; [|lia]. apply Nat.ltb_ge in Hlt. apply legalCut_assistant.
      replace index with a by lia. by exists v.
  - split; [|lia]. by apply findGroup_None_legal.
Qed.

Lemma alignCutBackward_spec messages index :
  legalCut messages (alignCutBackward messages index) ∧
  (alignCutBackward messages index ≤ index)%nat.
Proof.
  unfold alignCutBackward, containingToolCallGroup.
  destruct ((index <=? 0)%nat || (length messages <=? index)%nat) eqn:Hb.
  { apply orb_true_iff in Hb as [?%Nat.leb_le|?%Nat.leb_le];
      (split; [apply legalCut_bound; lia|done]). }
  apply orb_false_iff in Hb as [?%Nat.leb_gt ?%Nat.leb_gt].
  pose proof (findGroup_spec messages index index ltac:(done)) as Hspec.
  destruct (findGroup messages index index) as [[a e]|] eqn:Hf.
  - destruct Hspec as (v & (Hak & Hv & Ha & Hno) & _).
    destruct (a <? index)%nat eqn:Hlt.
    + split; [|apply Nat.ltb_lt in Hlt; lia]. apply legalCut_assistant. by exists v.
    + split; [|lia]. apply Nat.ltb_ge in Hlt. apply legalCut_assistant.
      replace index with a by lia. by exists v.
  - split; [|lia]. by apply findGroup_None_legal.
Qed.

(** ** The tail *)

Definition tokensFrom (messages : list CompactionMessageView) (k : nat) : Z :=
  sumZ (v_tokens <$> drop k messages).

Lemma drop_lookup (messages : list CompactionMessageView) k v :
  messages !! k = Some v → drop k messages = v :: drop (S k) messages.
Proof. intros Hk. by rw (drop_S _ _ _ Hk). Qed.

Lemma tokensFrom_lookup messages k v :
  messages !! k = Some v → tokensFrom messages k = v_tokens v + tokensFrom messages (S k).
Proof. intros Hk. unfold tokensFrom. by rw (drop_lookup _ _ _ Hk). Qed.

(** Every suffix at or after [headEnd] that fits the budget is kept, at least one message
    is, and more than one only when what is kept fits. *)
Lemma tailLoop_spec messages headEnd keep index :
  (headEnd ≤ index ≤ length messages)%nat →
  (∀ v, v ∈ messages → 0 ≤ v_tokens v) →
  let n := length messages in
  let t := tailLoop n headEnd keep (tokensFrom messages index) index
             (reverse (take index messages)) in
  (headEnd ≤ t ≤ index)%nat ∧
  ((headEnd < n)%nat → (t < n)%nat) ∧
  (∀ k, (headEnd ≤ k < index)%nat → tokensFrom messages k ≤ keep → (t ≤ k)%nat) ∧
  ((t < index)%nat → t = (n - 1)%nat ∨ tokensFrom messages t ≤ keep).
Proof.
  intros Hi Hpos. induction index as [|index IH]; simpl.
  { split_and!; lia. }
  destruct (lookup_lt_is_Some_2 messages index ltac:(lia)) as [v Hv].
  rw (take_S_r _ _ _ Hv) reverse_snoc. simpl.
  rw length_reverse length_take_le; [lia|].
  destruct (index <? headEnd)%nat eqn:Hh; [apply Nat.ltb_lt in Hh; split_and!; lia|].
  apply Nat.ltb_ge in Hh.
  assert (Hsum : tokensFrom messages (S index) + v_tokens v = tokensFrom messages index)
    by (rw (tokensFrom_lookup _ _ _ Hv); lia).
  rw Hsum. destruct ((keep <? tokensFrom messages index) && (S index <? length messages)%nat) eqn:Hstop.
  - apply andb_true_iff in Hstop as [Hk%Z.ltb_lt Hn%Nat.ltb_lt].
    split_and!; [lia..| |lia]. intros k Hk' Hfit. exfalso.
    assert (tokensFrom messages index ≤ tokensFrom messages k); [|lia].
    assert (Hmono : ∀ d, (d ≤ index)%nat → tokensFrom messages index ≤ tokensFrom messages (index - d)).
    { induction d as [|d IHd]; intros Hd; [rw Nat.sub_0_r; lia|].
      destruct (lookup_lt_is_Some_2 messages (index - S d) ltac:(lia)) as [w Hw].
      rw (tokensFrom_lookup _ _ _ Hw). replace (S (index - S d)) with (index - d)%nat by lia.
      specialize (IHd ltac:(lia)). pose proof (Hpos w ltac:(by eapply list_elem_of_lookup_2)). lia. }
    replace k with (index - (index - k))%nat by lia. apply Hmono. lia.
  - destruct (IH ltac:(lia)) as (H1 & H2 & H3 & H4). split_and!; [lia..|done| |].
    + intros k Hk Hfit. destruct (decide (k = index)) as [->|]; [lia|]. apply H3; [lia|done].
    + intros _. destruct (decide (tailLoop (length messages) headEnd keep
        (tokensFrom messages index) index (reverse (take index messages)) < index)%nat); [by apply H4|].
      assert (tailLoop (length messages) headEnd keep
        (tokensFrom messages index) index (reverse (take index messages)) = index) as -> by lia.
      apply andb_false_iff in Hstop as [Hs%Z.ltb_ge|Hs%Nat.ltb_ge]; [by right|left; lia].
Qed.

Lemma tailStartByTokenBudget_spec messages headEnd keep minTail :
  (headEnd ≤ length messages)%nat → (∀ v, v ∈ messages → 0 ≤ v_tokens v) →
  let n := length messages in
  let t := tailStartByTokenBudget messages headEnd keep minTail in
  legalCut messages t ∧ (t ≤ n)%nat ∧
  ((headEnd < n)%nat → (t < n)%nat) ∧
  ((headEnd + minTail ≤ n)%nat → (t ≤ n - minTail)%nat) ∧
  (∀ k, (headEnd ≤ k < n)%nat → tokensFrom messages k ≤ keep → (t ≤ k)%nat).
Proof.
  intros Hh Hpos n t. subst t. unfold tailStartByTokenBudget. fold n.
  destruct (tailLoop_spec messages headEnd keep n ltac:(lia) Hpos) as (H1 & H2 & H3 & _).
  assert (tokensFrom messages n = 0) as E by (unfold tokensFrom, n; rw drop_all //).
  rw E (firstn_all messages) in H1 H2 H3. fold n in H1, H2, H3.
  match goal with |- context [alignCutBackward messages ?c] => set (cut := c) end.
  destruct (alignCutBackward_spec messages cut) as [Hlegal Hle].
  assert (Hcut : (cut ≤ tailLoop n headEnd keep 0 n (reverse messages))%nat
               ∧ ((headEnd + minTail ≤ n)%nat → (cut ≤ n - minTail)%nat)).
  { unfold cut. destruct (headEnd + minTail <=? n)%nat eqn:Hm.
    - split; [|intros _]; lia.
    - apply Nat.leb_gt in Hm. split; lia. }
  destruct Hcut as [Hc1 Hc2]. split_and!; [done|lia| | |].
  - intros Hn. specialize (H2 Hn). lia.
  - intros Hn. specialize (Hc2 Hn). lia.
  - intros k Hk Hfit. specialize (H3 k Hk Hfit). lia.
Qed.

(** Message [u] is the newest from the user. *)
Definition newestUser (messages : list CompactionMessageView) (u : nat) : Prop :=
  (∃ v, messages !! u = Some v ∧ v_role v = "user"%string) ∧
  ∀ k v, (u < k)%nat → messages !! k = Some v → v_role v ≠ "user"%string.

Lemma latestUser_spec messages start tailStart u :
  latestUser start tailStart (reverse messages) = Some u ↔
  newestUser messages u ∧ (start ≤ u < tailStart)%nat.
Proof.
  induction messages as [|v messages IH] using rev_ind.
  { split; [done|]. by intros [[(v & ? & _) _] _]. }
  rw reverse_snoc. simpl. rw length_reverse.
  assert (Hlast : (messages ++ [v]) !! length messages = Some v)
    by (rw lookup_app_r // Nat.sub_diag //).
  destruct (String.eqb_spec (v_role v) "user") as [Hu|Hu].
  - assert (Huniq : newestUser (messages ++ [v]) u ↔ u = length messages).
    { split.
      - intros [(w & Hw & _) Hno]. apply lookup_lt_Some in Hw. rw length_app in Hw. simpl in Hw.
        destruct (decide (u = length messages)); [done|]. exfalso. eapply (Hno (length messages));
        [lia|done..].
      - intros ->. split; [by exists v|]. intros k w Hk Hw%lookup_lt_Some.
        rw length_app in Hw. simpl in Hw. lia. }
    rw Huniq. destruct ((start <=? length messages)%nat && (length messages <? tailStart)%nat) eqn:Hin.
    + apply andb_true_iff in Hin as [?%Nat.leb_le ?%Nat.ltb_lt]. split; [|intros [-> _]; done].
      intros [= <-]. done.
    + split; [done|]. intros [-> [?%Nat.leb_le ?%Nat.ltb_lt]].
      apply andb_false_iff in Hin as [|]; congruence.
  - rw IH. apply and_iff_compat_r. split; intros [(w & Hw & Hr) Hno].
    + split.
      * exists w. split; [by apply lookup_app_l_Some|done].
      * intros k x Hk [Hx|[? Hx]]%lookup_app_Some; [by eapply Hno|].
        apply list_lookup_singleton_Some in Hx as [_ <-]. done.
    + assert (Hw' : messages !! u = Some w).
      { apply lookup_app_Some in Hw as [|[? Hx]]; [done|].
        apply list_lookup_singleton_Some in Hx as [_ <-]. done. }
      split; [by exists w|]. intros k x Hk Hx. eapply (Hno k); [done|by apply lookup_app_l_Some].
Qed.

(** ** What messages cost *)

Lemma textTokens_pos t : 1 ≤ textTokens t.
Proof. unfold textTokens. lia. Qed.

Lemma ceilDiv_nonneg a b : 0 ≤ a → 0 < b → 0 ≤ ceilDiv a b.
Proof. intros ? ?. unfold ceilDiv. assert (- a / b ≤ 0) by (apply Z.div_le_upper_bound; lia). lia. Qed.

Lemma estimateModelVisibleImageTokens_nonneg width height :
  0 ≤ estimateModelVisibleImageTokens width height.
Proof.
  unfold estimateModelVisibleImageTokens, DEFAULT_ESTIMATED_IMAGE_TOKENS. repeat case_match; try lia.
  apply Z.add_nonneg_nonneg; [done|]. apply Z.mul_nonneg_nonneg; [done|].
  apply Z.mul_nonneg_nonneg; apply ceilDiv_nonneg; unfold IMAGE_TILE_EDGE_PX; lia.
Qed.

Lemma sumZ_nonneg l : (∀ x, x ∈ l → 0 ≤ x) → 0 ≤ sumZ l.
Proof.
  induction l as [|x l IH]; simpl; intros Hl; [done|].
  pose proof (Hl x (list_elem_of_here _ _)). 
  assert (0 ≤ sumZ l) by (apply IH; intros y ?; apply Hl; by right). lia.
Qed.

Lemma estimatePayloadTokens_nonneg payload : 0 ≤ estimatePayloadTokens payload.
Proof.
  assert (Hb : ∀ blocks, 0 ≤ sumZ (blockTokens <$> blocks)).
  { intros blocks. apply sumZ_nonneg. intros x (b & -> & _)%list_elem_of_fmap.
    destruct b; simpl; try apply estimateModelVisibleImageTokens_nonneg;
      match goal with |- 0 ≤ textTokens ?t => pose proof (textTokens_pos t); lia end. }
  destruct payload as [[t|]| |]; simpl; try apply Hb. pose proof (textTokens_pos t); lia.
Qed.

(** The planner's view of a conversation. *)
Definition views (payloads : list CompactionPayload) : list CompactionMessageView :=
  compactionViewForPayload <$> payloads.

Lemma views_nonneg payloads v : v ∈ views payloads → 0 ≤ v_tokens v.
Proof. intros (p & -> & _)%list_elem_of_fmap. apply estimatePayloadTokens_nonneg. Qed.

#[local] Hint Resolve views_nonneg : stella.

(** C27: A compaction plan never separates a tool call from its answer: no call is on the
    other side of either end of the summarized span from the first result that answers it.
    The protected head stays, the span is not empty, and at least one message (two, or the
    given minimum, when the head leaves room) stays verbatim after it. *)
Theorem compaction_never_splits_a_tool_call payloads protectHead keep minTail plan :
  let messages := views payloads in
  planOrchestratorCompaction messages protectHead keep minTail = Some plan →
  legalCut messages (p_start plan) ∧ legalCut messages (p_tailStart plan) ∧
  (protectHead ≤ p_start plan < p_tailStart plan)%nat ∧
  (p_tailStart plan < length messages)%nat ∧
  ((p_start plan + minTail ≤ length messages)%nat →
   (p_tailStart plan + minTail ≤ length messages)%nat).
Proof.
  intros messages. pose proof (views_nonneg payloads) as Hpos. fold messages in Hpos.
  clearbody messages. unfold planOrchestratorCompaction.
  destruct (length messages <=? protectHead + minTail)%nat eqn:Hn; [done|].
  apply Nat.leb_gt in Hn. rw Nat.min_l; [lia|].
  destruct (alignCutForward_spec messages protectHead) as (Hl & Hge & Hle).
  set (start := alignCutForward messages protectHead) in *.
  destruct (tailStartByTokenBudget_spec messages start keep minTail (Hle ltac:(lia)) Hpos)
    as (Htl & Hb & Hlt & Hmin & _).
  destruct (tailStartByTokenBudget messages start keep minTail <=? start)%nat eqn:Hs; [done|].
  apply Nat.leb_gt in Hs. intros [= <-]; simpl.
  specialize (Hle ltac:(lia)).
  split_and!; [done..|lia|lia|apply Hlt; lia|]. intros Hm. specialize (Hmin Hm). lia.
Qed.

(** A compaction plan keeps verbatim every end of the conversation, after the protected
    head, whose estimated tokens fit the recent budget; and it reports the newest user
    message exactly when that message is inside the summarized span. *)
Theorem compaction_keeps_what_fits payloads protectHead keep minTail plan :
  let messages := views payloads in
  planOrchestratorCompaction messages protectHead keep minTail = Some plan →
  (∀ k, (p_start plan ≤ k < length messages)%nat → tokensFrom messages k ≤ keep →
        (p_tailStart plan ≤ k)%nat) ∧
  ∀ u, p_latestUserIndex plan = Some u ↔
       newestUser messages u ∧ (p_start plan ≤ u < p_tailStart plan)%nat.
Proof.
  intros messages. pose proof (views_nonneg payloads) as Hpos. fold messages in Hpos.
  clearbody messages. unfold planOrchestratorCompaction.
  destruct (length messages <=? protectHead + minTail)%nat eqn:Hn; [done|].
  apply Nat.leb_gt in Hn. rw Nat.min_l; [lia|].
  destruct (alignCutForward_spec messages protectHead) as (_ & _ & Hle).
  set (start := alignCutForward messages protectHead) in *.
  destruct (tailStartByTokenBudget_spec messages start keep minTail (Hle ltac:(lia)) Hpos)
    as (_ & _ & _ & _ & Hfit).
  destruct (tailStartByTokenBudget messages start keep minTail <=? start)%nat eqn:Hs; [done|].
  intros [= <-]; simpl. split; [done|]. intros u. apply latestUser_spec.
Qed.

(** ** A long conversation with a steer between a call and its result *)

Definition exampleConversation : list CompactionPayload :=
  [ UserPayload (inl "profile");
    UserPayload (inl "compare the two reports and tell me which one is newer");
    AssistantPayload [TextBlock "reading"; ToolCallBlock (Some "a") "read" None;
                      ToolCallBlock (Some "b") "read" None] "toolUse";
    ToolResultPayload [TextBlock "first report"] "a";
    UserPayload (inl "also check the date");
    ToolResultPayload [TextBlock "second report"] " b ";
    AssistantPayload [TextBlock "the second one"] "stop" ].

(** The budget alone would cut at message 5, between call [b] and its result; the plan
    moves the cut back to the call, and the steer is then in the tail. *)
Lemma compaction_never_splits_a_tool_call_witness :
  let plan := {| p_start := 1; p_tailStart := 2; p_latestUserIndex := None |} in
  let messages := views exampleConversation in
  tailLoop 7 1 8 0 7 (reverse messages) = 5%nat ∧
  planOrchestratorCompaction messages 1 8 2 = Some plan ∧
  legalCut messages 1 ∧ legalCut messages 2.
Proof.
  intros plan messages. split; [by vm_compute|].
  assert (H : planOrchestratorCompaction messages 1 8 2 = Some plan) by by vm_compute.
  split; [done|].
  pose proof (compaction_never_splits_a_tool_call exampleConversation 1 8 2 plan H) as (? & ? & _).
  done.
Defined.

Lemma compaction_keeps_what_fits_witness :
  let plan := {| p_start := 1; p_tailStart := 2; p_latestUserIndex := None |} in
  let messages := views exampleConversation in
  planOrchestratorCompaction messages 1 8 2 = Some plan ∧
  tokensFrom messages 5 = 8 ∧ (p_tailStart plan ≤ 5)%nat.
Proof.
  intros plan messages.
  assert (H : planOrchestratorCompaction messages 1 8 2 = Some plan) by by vm_compute.
  split; [done|]. split; [by vm_compute|].
  destruct (compaction_keeps_what_fits exampleConversation 1 8 2 plan H) as [Hk _].
  apply Hk; [simpl; lia|by vm_compute].
Defined.
