(* ===== verification/DispatchPolicy.v ===== *)
(** * Placement policy

    [workers/cloud-builder/src/dispatch-policy.ts], with the types of
    [packages/contracts/turn-plane/placement.ts], the execution selection of
    [turn-start-request.ts] and the canonical payload of [pairing-proof.ts]: where a
    dispatch may run, which devices an offer may reach, and the strict parsers of a
    submitted request. *)

From Corelib Require Import ssreflect.
From stdpp Require Import prelude strings list pretty.
From S2P Require Import Prelude JsString Json.

#[local] Open Scope Z_scope.

(** ** Types *)

Inductive ExecutionIngress := Desktop | Mobile | Browser | CloudIngress | Schedule.
Inductive ExecutionSubject := Portable | ComputerSubject | CloudSubject.
Inductive ExecutionTargetMode := Automatic | CloudTarget | DeviceTarget.
Inductive ExecutionKind := Chat | Agent.
Inductive ExecutionCapability :=
  | CapChat | CapAgent | ComputerUse | LocalFiles | LocalApps | Attachments.
Inductive Placement := OnComputer | InCloud.

Inductive DispatchState :=
  | Offering | ComputerClaimed | ComputerAccepted | ComputerRunning
  | CloudCommitted | CloudRunning | CancelPending | ReconciliationRequired
  | Blocked | Completed | Failed | Canceled.

#[export] Instance ExecutionIngress_eq : EqDecision ExecutionIngress.
Proof. solve_decision. Defined.
#[export] Instance ExecutionSubject_eq : EqDecision ExecutionSubject.
Proof. solve_decision. Defined.
#[export] Instance ExecutionTargetMode_eq : EqDecision ExecutionTargetMode.
Proof. solve_decision. Defined.
#[export] Instance ExecutionKind_eq : EqDecision ExecutionKind.
Proof. solve_decision. Defined.
#[export] Instance ExecutionCapability_eq : EqDecision ExecutionCapability.
Proof. solve_decision. Defined.
#[export] Instance Placement_eq : EqDecision Placement.
Proof. solve_decision. Defined.
#[export] Instance DispatchState_eq : EqDecision DispatchState.
Proof. solve_decision. Defined.

(** The strings the wire and the table hold. *)
Definition ingressName (i : ExecutionIngress) : string :=
  match i with
  | Desktop => "desktop" | Mobile => "mobile" | Browser => "browser"
  | CloudIngress => "cloud" | Schedule => "schedule"
  end.
Definition subjectName (s : ExecutionSubject) : string :=
  match s with Portable => "portable" | ComputerSubject => "computer" | CloudSubject => "cloud" end.
Definition targetModeName (m : ExecutionTargetMode) : string :=
  match m with Automatic => "automatic" | CloudTarget => "cloud" | DeviceTarget => "device" end.
Definition kindName (k : ExecutionKind) : string :=
  match k with Chat => "chat" | Agent => "agent" end.
Definition capabilityName (c : ExecutionCapability) : string :=
  match c with
  | CapChat => "chat" | CapAgent => "agent" | ComputerUse => "computer-use"
  | LocalFiles => "local-files" | LocalApps => "local-apps" | Attachments => "attachments"
  end.

Definition stateName (s : DispatchState) : string :=
  match s with
  | Offering => "offering" | ComputerClaimed => "computer_claimed"
  | ComputerAccepted => "computer_accepted" | ComputerRunning => "computer_running"
  | CloudCommitted => "cloud_committed" | CloudRunning => "cloud_running"
  | CancelPending => "cancel_pending" | ReconciliationRequired => "reconciliation_required"
  | Blocked => "blocked" | Completed => "completed" | Failed => "failed" | Canceled => "canceled"
  end.

Definition INGRESSES := [Desktop; Mobile; Browser; CloudIngress; Schedule].
Definition SUBJECTS := [Portable; ComputerSubject; CloudSubject].
Definition TARGET_MODES := [Automatic; CloudTarget; DeviceTarget].
Definition EXECUTION_CAPABILITIES :=
  [CapChat; CapAgent; ComputerUse; LocalFiles; LocalApps; Attachments].
Definition CLOUD_PROVIDED_CAPABILITIES := [CapChat; CapAgent; Attachments].
Definition TERMINAL_DISPATCH_STATES := [Completed; Failed; Canceled; Blocked].

Definition PLACEMENT_PROTOCOL : Z := 1.
Definition DEVICE_PRESENCE_PROTOCOL_VERSION : Z := 1.
Definition MAX_DEVICE_ID_CHARS : Z := 256.
Definition MAX_IDEMPOTENCY_KEY_CHARS : Z := 128.
Definition MAX_CONVERSATION_ID_CHARS : Z := 256.
Definition MAX_REQUIRED_CAPABILITIES : Z := 8.
Definition MAX_OFFERS_PER_DISPATCH : nat := 8.
Definition MAX_DISPATCH_PROMPT_CHARS : Z := 8000.
Definition MAX_DISPATCH_DESCRIPTION_CHARS : Z := 1000.
Definition MAX_DISPATCH_ATTACHMENTS : Z := 4.
Definition MAX_EXECUTION_FIELD_LENGTH : Z := 2048.

(** ** Routing *)

Inductive DispatchPolicyDecision :=
  | Commit (placement : Placement) (reason : string)
  | Offer (onNoEligibleComputer : option Placement) (reason : string)
  | Refuse (reason : string).

(** The fallback of an offer is [Some InCloud] for "cloud" and [None] for "blocked". *)
Definition decideDispatchPlacement (ingress : ExecutionIngress) (subject : ExecutionSubject)
    (targetMode : option ExecutionTargetMode) : DispatchPolicyDecision :=
  match targetMode with
  | Some CloudTarget => Commit InCloud "explicit-cloud"
  | Some DeviceTarget =>
      Offer (if bool_decide (subject = ComputerSubject) then None else Some InCloud) "explicit-device"
  | _ =>
      if bool_decide (subject = CloudSubject) then Commit InCloud "hosted-subject"
      else if bool_decide (ingress = Desktop) then Commit OnComputer "desktop-ingress"
      else if bool_decide (ingress = Mobile) then
        Offer (Some InCloud)
          (if bool_decide (subject = ComputerSubject) then "paired-computer-preferred-for-computer-work"
           else "paired-computer-preferred")
      else if bool_decide (subject = ComputerSubject) then Refuse "computer-unavailable-for-ingress"
      else Commit InCloud (ingressName ingress +:+ "-ingress")
  end.

Definition ingressMayClaimComputerSubject (ingress : ExecutionIngress) : bool :=
  match ingress with Desktop | Mobile => true | _ => false end.

(** ** Eligibility *)

Record DevicePresenceState := {
  pr_deviceId : string;
  pr_presenceSessionId : string;
  pr_connected : bool;
  pr_ready : bool;
  pr_capabilities : list ExecutionCapability;
  pr_protocolVersion : Z;
  pr_lastSeenAt : Z;
}.

(** The part of a registration the gate reads. *)
Record DeviceRegistration := { dr_deviceId : string; dr_remoteExecutionEnabled : bool }.

Definition hasCapabilities (advertised required : list ExecutionCapability) : bool :=
  forallb (λ capability, bool_decide (capability ∈ advertised)) required.

Definition isEligibleDevice (presence : option DevicePresenceState) (device : option DeviceRegistration)
    (requiredCapabilities : list ExecutionCapability) (now staleAfterMs : Z) : bool :=
  match presence, device with
  | Some presence, Some device =>
      if negb (dr_remoteExecutionEnabled device) then false
      else if negb (pr_connected presence) || negb (pr_ready presence) then false
      else if negb (pr_protocolVersion presence =? DEVICE_PRESENCE_PROTOCOL_VERSION) then false
      else if pr_lastSeenAt presence + staleAfterMs <=? now then false
      else hasCapabilities (pr_capabilities presence) requiredCapabilities
  | _, _ => false
  end.

Definition cloudUnsupportedCapabilities (required : list ExecutionCapability) : list ExecutionCapability :=
  filter (λ capability, capability ∉ CLOUD_PROVIDED_CAPABILITIES) required.

Definition isTerminalDispatchState (state : DispatchState) : bool :=
  bool_decide (state ∈ TERMINAL_DISPATCH_STATES).

Definition mayFallbackToCloud (state : DispatchState) : bool :=
  bool_decide (state = Offering ∨ state = ComputerClaimed).

(** ** Parsing *)

(** A parse returns a message or a value. *)
Definition parsed (A : Type) : Type := string + A.
Definition fail {A} (message : string) : parsed A := inl message.
Definition andThen {A B} (m : parsed A) (k : A → parsed B) : parsed B :=
  match m with inl message => inl message | inr a => k a end.

#[local] Notation "'let?' x ':=' c 'in' k" := (andThen c (λ x, k))
  (at level 10, x name, c at level 100, k at level 200).
(** [if (!b) return fail(message);] *)
Definition check (b : bool) (message : string) : parsed () := if b then inr () else inl message.
#[local] Notation "'require' b 'else' m 'in' k" := (andThen (check b m) (λ _, k))
  (at level 10, b at level 100, m at level 100, k at level 200).

(** A property that is not [undefined], and one that is neither that nor [null]. *)
Definition defined (x : option json) : bool := match x with Some _ => true | None => false end.
Definition given (x : option json) : bool :=
  match x with Some JNull | None => false | Some _ => true end.

Definition isRecord (v : json) : bool := match v with JObj _ => true | _ => false end.

(** [typeof x === "string" ? x.trim() : ""]. *)
Definition trimmed (x : option json) : string :=
  match asString x with Some s => trim s | None => "" end.

Definition bounded (x : option json) (max : Z) : string :=
  if (0 <? js_length (trimmed x)) && (js_length (trimmed x) <=? max) then trimmed x else "".

(** [LIST.includes(x)], returning the member. *)
Definition member {A} (name : A → string) (l : list A) (x : option json) : option A :=
  match x with Some (JStr s) => List.find (λ a, String.eqb (name a) s) l | _ => None end.

(** An optional bounded field: absent, or its trimmed text. *)
Definition optionalField (present : bool) (x : option json) (max : Z) (message : string)
    : parsed (option string) :=
  if present then
    if String.eqb (bounded x max) "" then fail message else inr (Some (bounded x max))
  else inr None.

(** *** The execution selection *)

Inductive Engine := Stella | Anthropic | Chatgpt.
Definition engineName (e : Engine) : string :=
  match e with Stella => "stella" | Anthropic => "anthropic" | Chatgpt => "chatgpt" end.
Definition ENGINES := [Stella; Anthropic; Chatgpt].

#[export] Instance Engine_eq : EqDecision Engine.
Proof. solve_decision. Defined.

(** [String(v)]: an array is its elements joined by commas, [null] among them empty. *)
Fixpoint String_ (v : json) : string :=
  match v with
  | JNull => "null"
  | JBool b => if b then "true" else "false"
  | JInt n => pretty n
  | JNumeral s => s
  | JStr s => s
  | JArr l => join "," (List.map (λ x, match x with JNull => "" | _ => String_ x end) l)
  | JObj _ => "[object Object]"
  end.

(** The engine and the provider are kept as they came. *)
Record CloudExecutionSelection := {
  x_engine : json;
  x_provider : json;
  x_model : string;
  x_reasoningEffort : string;
}.

Definition boundedText (x : option json) : option string :=
  match asString x with
  | Some s => if negb (String.eqb (trim s) "") && (js_length s <=? MAX_EXECUTION_FIELD_LENGTH)
              then Some s else None
  | None => None
  end.

Definition isExecutionPair (engine provider : json) : bool :=
  let pair := String_ engine +:+ "/" +:+ String_ provider in
  existsb (λ e, String.eqb pair (engineName e +:+ "/" +:+ engineName e)) ENGINES.

Definition parseCloudExecutionSelection (v : json) : option CloudExecutionSelection :=
  if negb (isRecord v) then None
  else
    match boundedText (prop "model" v), boundedText (prop "reasoningEffort" v),
          prop "engine" v, prop "provider" v with
    | Some model, Some reasoningEffort, Some engine, Some provider =>
        if isExecutionPair engine provider
        then Some {| x_engine := engine; x_provider := provider;
                     x_model := model; x_reasoningEffort := reasoningEffort |}
        else None
    | _, _, _, _ => None
    end.

(** *** The payload *)

Record DispatchPayload := {
  p_prompt : string;
  p_conversationId : string;
  p_clientMsgId : string;
  p_userMessageEventId : option string;
  p_locale : option string;
  p_attachments : option (list string);
  p_execution : option CloudExecutionSelection;
  p_description : option string;
  p_threadId : option string;
  p_model : option string;
  p_handoff : bool;
}.

Fixpoint parseAttachments (entries : list json) : parsed (list string) :=
  match entries with
  | [] => inr []
  | entry :: entries =>
      let path := bounded (Some entry) 1024 in
      if String.eqb path "" then fail "payload.attachments must be drive paths."
      else let? paths := parseAttachments entries in inr (path :: paths)
  end.

Definition parseAttachmentField (x : option json) : parsed (option (list string)) :=
  if negb (given x) then inr None
  else
    match x with
    | Some (JArr entries) =>
        if MAX_DISPATCH_ATTACHMENTS <? Z.of_nat (length entries)
        then fail "payload.attachments must be at most 4 drive paths."
        else let? paths := parseAttachments entries in
             inr (match paths with [] => None | _ => Some paths end)
    | _ => fail "payload.attachments must be at most 4 drive paths."
    end.

Definition parseExecutionField (x : option json) : parsed (option CloudExecutionSelection) :=
  match x with
  | None | Some JNull => inr None
  | Some v =>
      match parseCloudExecutionSelection v with
      | Some execution => inr (Some execution)
      | None => fail "payload.execution is malformed."
      end
  end.

Definition parseDescription (x : option json) (kind : ExecutionKind) : parsed (option string) :=
  match kind with
  | Agent =>
      require negb (String.eqb (trimmed x) "") && (js_length (trimmed x) <=? MAX_DISPATCH_DESCRIPTION_CHARS)
        else "payload.description must be 1-1000 characters for an agent dispatch." in
      inr (Some (trimmed x))
  | Chat => optionalField (defined x) x MAX_DISPATCH_DESCRIPTION_CHARS "payload.description is malformed."
  end.

Definition parseHandoff (x : option json) (kind : ExecutionKind) : parsed bool :=
  match x with
  | None => inr false
  | Some (JBool true) => if bool_decide (kind = Chat) then inr true
                         else fail "payload.handoff must be true on a chat dispatch."
  | Some _ => fail "payload.handoff must be true on a chat dispatch."
  end.

Definition parseDispatchPayload (value : option json) (kind : ExecutionKind) : parsed DispatchPayload :=
  match value with
  | Some (JObj _ as v) =>
      require bool_decide (prop "schemaVersion" v = Some (JInt 1)) else "payload.schemaVersion must be 1." in
      let prompt := trimmed (prop "prompt" v) in
      require negb (String.eqb prompt "") && (js_length prompt <=? MAX_DISPATCH_PROMPT_CHARS)
        else "payload.prompt must be 1-8000 characters." in
      let conversationId := bounded (prop "conversationId" v) MAX_CONVERSATION_ID_CHARS in
      require negb (String.eqb conversationId "") else "payload.conversationId is required." in
      let clientMsgId := bounded (prop "clientMsgId" v) MAX_IDEMPOTENCY_KEY_CHARS in
      require negb (String.eqb clientMsgId "") else "payload.clientMsgId is required." in
      let? eventId := optionalField (defined (prop "userMessageEventId" v)) (prop "userMessageEventId" v) 256
                        "payload.userMessageEventId is malformed." in
      let? locale := optionalField (given (prop "locale" v)) (prop "locale" v) 64
                       "payload.locale is malformed." in
      let? attachments := parseAttachmentField (prop "attachments" v) in
      let? execution := parseExecutionField (prop "execution" v) in
      let? description := parseDescription (prop "description" v) kind in
      let? handoff := parseHandoff (prop "handoff" v) kind in
      inr {| p_prompt := prompt; p_conversationId := conversationId; p_clientMsgId := clientMsgId;
             p_userMessageEventId := eventId; p_locale := locale; p_attachments := attachments;
             p_execution := execution; p_description := description;
             p_threadId := None; p_model := None; p_handoff := handoff |}
  | _ => fail "payload must be an object."
  end.

(** *** The request *)

Record DispatchSubmitRequest := {
  r_idempotencyKey : string;
  r_kind : ExecutionKind;
  r_ingress : ExecutionIngress;
  r_subject : ExecutionSubject;
  r_targetMode : option ExecutionTargetMode;
  r_targetDeviceId : option string;
  r_requestingDeviceId : option string;
  r_conversationId : string;
  r_parentTurnId : option string;
  r_threadId : option string;
  r_requiredCapabilities : list ExecutionCapability;
  r_payload : DispatchPayload;
}.

(** [[A-Za-z0-9._:-]]. *)
Definition isKeyChar (c : Ascii.ascii) : bool :=
  let n := charCodeAt c in
  ((65 <=? n) && (n <=? 90)) || ((97 <=? n) && (n <=? 122)) || ((48 <=? n) && (n <=? 57)) ||
  (n =? 46) || (n =? 95) || (n =? 58) || (n =? 45).

(** [IDEMPOTENCY_KEY_PATTERN.test]. *)
Definition isIdempotencyKey (s : string) : bool :=
  negb (existsChar (λ c, negb (isKeyChar c)) s) && (8 <=? js_length s) && (js_length s <=? 128).

Definition kindCapability (kind : ExecutionKind) : ExecutionCapability :=
  match kind with Chat => CapChat | Agent => CapAgent end.

(** [[...new Set(l)]]: the first of each, in order. *)
Fixpoint uniqueFirst {A} `{EqDecision A} (l : list A) : list A :=
  match l with
  | [] => []
  | x :: l => x :: filter (λ y, y ≠ x) (uniqueFirst l)
  end.

Fixpoint members {A} (name : A → string) (all : list A) (l : list json) : option (list A) :=
  match l with
  | [] => Some []
  | x :: l =>
      match member name all (Some x), members name all l with
      | Some a, Some l => Some (a :: l)
      | _, _ => None
      end
  end.

Definition parseRequiredCapabilities (x : option json) : parsed (list ExecutionCapability) :=
  match default (JArr []) x with
  | JArr raw =>
      match members capabilityName EXECUTION_CAPABILITIES raw with
      | Some l => if MAX_REQUIRED_CAPABILITIES <? Z.of_nat (length raw)
                  then fail "requiredCapabilities contains an unsupported requirement."
                  else inr l
      | None => fail "requiredCapabilities contains an unsupported requirement."
      end
  | _ => fail "requiredCapabilities contains an unsupported requirement."
  end.

Definition parseTargetMode (x : option json) : parsed (option ExecutionTargetMode) :=
  match x with
  | None => inr None
  | Some _ =>
      match member targetModeName TARGET_MODES x with
      | Some mode => inr (Some mode)
      | None => fail "targetMode must be automatic, cloud, or device."
      end
  end.

Definition required {A} (x : option A) (message : string) : parsed A :=
  match x with Some a => inr a | None => fail message end.

Definition parseDispatchSubmitRequest (v : json) : parsed DispatchSubmitRequest :=
  require isRecord v else "A JSON object is required." in
  require bool_decide (prop "protocol" v = Some (JInt PLACEMENT_PROTOCOL)) else "protocol must be 1." in
  let idempotencyKey := trimmed (prop "idempotencyKey" v) in
  require isIdempotencyKey idempotencyKey else "idempotencyKey must be 8-128 URL-safe characters." in
  let? kind := required (member kindName [Chat; Agent] (prop "kind" v)) "kind must be chat or agent." in
  let? ingress := required (member ingressName INGRESSES (prop "ingress" v)) "ingress is not recognized." in
  let? subject := required (member subjectName SUBJECTS (prop "subject" v))
                    "subject must be portable, computer, or cloud." in
  require ingressMayClaimComputerSubject ingress || bool_decide (subject = CloudSubject)
    else (ingressName ingress +:+ " ingress cannot claim a local execution subject.") in
  let? targetMode := parseTargetMode (prop "targetMode" v) in
  let? targetDeviceId := optionalField (defined (prop "targetDeviceId" v)) (prop "targetDeviceId" v)
                           MAX_DEVICE_ID_CHARS "targetDeviceId is malformed." in
  require Bool.eqb (bool_decide (targetMode = Some DeviceTarget)) (bool_decide (is_Some targetDeviceId))
    else "A device execution target requires exactly one device id." in
  let conversationId := bounded (prop "conversationId" v) MAX_CONVERSATION_ID_CHARS in
  require negb (String.eqb conversationId "") else "conversationId is required." in
  let? raw := parseRequiredCapabilities (prop "requiredCapabilities" v) in
  let? payload := parseDispatchPayload (prop "payload" v) kind in
  require String.eqb (p_conversationId payload) conversationId
    else "payload.conversationId does not match the dispatch." in
  let? requestingDeviceId := optionalField (defined (prop "requestingDeviceId" v))
      (prop "requestingDeviceId" v) MAX_DEVICE_ID_CHARS "requestingDeviceId is malformed." in
  let? parentTurnId := optionalField (defined (prop "parentTurnId" v)) (prop "parentTurnId" v) 256
                         "parentTurnId is malformed." in
  let? threadId := optionalField (defined (prop "threadId" v)) (prop "threadId" v) 256
                     "threadId is malformed." in
  inr {| r_idempotencyKey := idempotencyKey; r_kind := kind; r_ingress := ingress; r_subject := subject;
         r_targetMode := targetMode; r_targetDeviceId := targetDeviceId;
         r_requestingDeviceId := requestingDeviceId; r_conversationId := conversationId;
         r_parentTurnId := parentTurnId; r_threadId := threadId;
         r_requiredCapabilities := uniqueFirst (kindCapability kind :: raw);
         r_payload := payload |}.

(** ** The canonical payload *)

(** [x ? { name: x } : {}] on an optional string. *)
Definition nonEmptyField (name : string) (x : option string) : fields :=
  match x with Some s => if String.eqb s "" then [] else [(name, JStr s)] | None => [] end.

(** The object of [canonicalDispatchPayloadJson]. *)
Definition canonicalDispatchPayload (payload : DispatchPayload) : json :=
  JObj ([("schemaVersion", JInt 1); ("prompt", JStr (p_prompt payload));
         ("conversationId", JStr (p_conversationId payload));
         ("clientMsgId", JStr (p_clientMsgId payload))] ++
        nonEmptyField "userMessageEventId" (p_userMessageEventId payload) ++
        nonEmptyField "locale" (p_locale payload) ++
        match p_attachments payload with
        | Some ((_ :: _) as l) => [("attachments", JArr (JStr <$> l))]
        | _ => []
        end ++
        match p_execution payload with
        | Some x => [("execution", JObj [("engine", x_engine x); ("provider", x_provider x);
                                         ("model", JStr (x_model x));
                                         ("reasoningEffort", JStr (x_reasoningEffort x))])]
        | None => []
        end ++
        nonEmptyField "description" (p_description payload) ++
        nonEmptyField "threadId" (p_threadId payload) ++
        nonEmptyField "model" (p_model payload) ++
        (if p_handoff payload then [("handoff", JBool true)] else [])).

Definition canonicalDispatchPayloadJson (payload : DispatchPayload) : text :=
  JSON_stringify (canonicalDispatchPayload payload).

(** ** Well-formed requests *)

(** A trimmed, non-empty text of at most [max] characters. *)
Definition wfText (max : Z) (s : string) : Prop := trim s = s ∧ s ≠ ""%string ∧ js_length s ≤ max.
Definition wfOptional (max : Z) (x : option string) : Prop := ∀ s, x = Some s → wfText max s.

Definition wfExecution (x : CloudExecutionSelection) : Prop :=
  isExecutionPair (x_engine x) (x_provider x) = true ∧
  trim (x_model x) ≠ ""%string ∧ js_length (x_model x) ≤ MAX_EXECUTION_FIELD_LENGTH ∧
  trim (x_reasoningEffort x) ≠ ""%string ∧ js_length (x_reasoningEffort x) ≤ MAX_EXECUTION_FIELD_LENGTH.

Record wfPayload (kind : ExecutionKind) (p : DispatchPayload) : Prop := {
  wf_prompt : wfText MAX_DISPATCH_PROMPT_CHARS (p_prompt p);
  wf_conversationId : wfText MAX_CONVERSATION_ID_CHARS (p_conversationId p);
  wf_clientMsgId : wfText MAX_IDEMPOTENCY_KEY_CHARS (p_clientMsgId p);
  wf_eventId : wfOptional 256 (p_userMessageEventId p);
  wf_locale : wfOptional 64 (p_locale p);
  wf_attachments : ∀ l, p_attachments p = Some l →
    l ≠ [] ∧ Z.of_nat (length l) ≤ MAX_DISPATCH_ATTACHMENTS ∧ Forall (wfText 1024) l;
  wf_execution : ∀ x, p_execution p = Some x → wfExecution x;
  wf_description : wfOptional MAX_DISPATCH_DESCRIPTION_CHARS (p_description p);
  wf_described : kind = Agent → is_Some (p_description p);
  wf_internal : p_threadId p = None ∧ p_model p = None;
  wf_handoff : p_handoff p = true → kind = Chat;
}.

Record wfRequest (r : DispatchSubmitRequest) : Prop := {
  wf_key : isIdempotencyKey (r_idempotencyKey r) = true ∧ trim (r_idempotencyKey r) = r_idempotencyKey r;
  wf_subject : ingressMayClaimComputerSubject (r_ingress r) = true ∨ r_subject r = CloudSubject;
  wf_target : r_targetMode r = Some DeviceTarget ↔ is_Some (r_targetDeviceId r);
  wf_targetDeviceId : wfOptional MAX_DEVICE_ID_CHARS (r_targetDeviceId r);
  wf_requestingDeviceId : wfOptional MAX_DEVICE_ID_CHARS (r_requestingDeviceId r);
  wf_parentTurnId : wfOptional 256 (r_parentTurnId r);
  wf_threadId : wfOptional 256 (r_threadId r);
  wf_capabilities : NoDup (r_requiredCapabilities r) ∧
    head (r_requiredCapabilities r) = Some (kindCapability (r_kind r));
  wf_payload : wfPayload (r_kind r) (r_payload r);
  wf_conversation : r_conversationId r = p_conversationId (r_payload r);
}.

(** ** What the parsers return is well formed *)

Lemma trim_idem s : trim (trim s) = trim s.
Proof.
  unfold trim.
  assert (Hs : trimStart (trimEnd (trimStart s)) = trimEnd (trimStart s)).
  { induction s as [|c s IH]; simpl; [done|].
    destruct (isWhiteSpace c) eqn:Hc; [done|]. simpl.
    destruct (trimEnd s) eqn:He; simpl; by rw ?Hc; simpl; rw ?Hc. }
  by rw Hs trimEnd_idem.
Qed.

Lemma eqb_empty s : String.eqb s "" = false ↔ s ≠ ""%string.
Proof. apply String.eqb_neq. Qed.

Lemma js_length_pos s : 0 < js_length s ↔ s ≠ ""%string.
Proof. unfold js_length. destruct s; simpl; split; intros; [lia|done|done|lia]. Qed.

Lemma trimmed_idem x : trim (trimmed x) = trimmed x.
Proof. unfold trimmed. destruct (asString x); [apply trim_idem|done]. Qed.

Lemma bounded_wf x max : bounded x max ≠ ""%string → wfText max (bounded x max).
Proof.
  unfold bounded, wfText. case_match eqn:E; [|done].
  apply andb_true_iff in E as [_ ?%Z.leb_le]. auto using trimmed_idem.
Qed.

Lemma check_inr b m a : check b m = inr a → b = true.
Proof. by destruct b. Qed.

(** Steps through a parser that returned a value. *)
Ltac parse_inv H :=
  repeat match type of H with
  | andThen ?m _ = inr _ =>
      let E := fresh "E" in destruct m eqn:E; [discriminate H|simpl in H]
  end;
  repeat match goal with
  | E : check _ _ = inr _ |- _ => apply check_inr in E
  end.

Lemma optionalField_wf b x max m y : optionalField b x max m = inr y → wfOptional max y.
Proof.
  unfold optionalField. destruct b; [|by intros [= <-]].
  destruct (String.eqb_spec (bounded x max) ""); [done|]. intros [= <-] s [= <-].
  by apply bounded_wf.
Qed.

Lemma parseAttachments_wf entries l :
  parseAttachments entries = inr l → Forall (wfText 1024) l ∧ length l = length entries.
Proof.
  revert l; induction entries as [|e entries IH]; intros l; simpl; [by intros [= <-]|].
  destruct (String.eqb_spec (bounded (Some e) 1024) ""); [done|].
  intros H. parse_inv H. injection H as <-. destruct (IH _ eq_refl) as [? Hl]. simpl. rw Hl.
  split; [|done]. constructor; [by apply bounded_wf|done].
Qed.

Lemma boundedText_wf x s :
  boundedText x = Some s → trim s ≠ ""%string ∧ js_length s ≤ MAX_EXECUTION_FIELD_LENGTH.
Proof.
  unfold boundedText. destruct (asString x); [|done]. case_match eqn:E; [|done]. intros [= <-].
  apply andb_true_iff in E as [?%negb_true_iff%String.eqb_neq ?%Z.leb_le]. done.
Qed.

Lemma parseCloudExecutionSelection_wf v x :
  parseCloudExecutionSelection v = Some x → wfExecution x.
Proof.
  unfold parseCloudExecutionSelection. destruct (negb (isRecord v)); [done|].
  destruct (boundedText (prop "model" v)) eqn:Em; [|done].
  destruct (boundedText (prop "reasoningEffort" v)) eqn:Er; [|done].
  destruct (prop "engine" v), (prop "provider" v); try done.
  destruct (isExecutionPair _ _) eqn:Ep; [|done]. intros [= <-].
  apply boundedText_wf in Em as [??]. apply boundedText_wf in Er as [??]. by split_and!.
Qed.

Lemma parseAttachmentField_wf x l :
  parseAttachmentField x = inr (Some l) →
  l ≠ [] ∧ Z.of_nat (length l) ≤ MAX_DISPATCH_ATTACHMENTS ∧ Forall (wfText 1024) l.
Proof.
  unfold parseAttachmentField. destruct (negb (given x)); [done|].
  destruct x as [[| | | | |entries|]|]; try done.
  destruct (_ <? _) eqn:Hn; [done|]. apply Z.ltb_ge in Hn. intros H. parse_inv H.
  apply parseAttachments_wf in E as [? Hlen]. destruct l0; simplify_eq. by rw Hlen.
Qed.

Lemma parseExecutionField_wf x y : parseExecutionField x = inr (Some y) → wfExecution y.
Proof.
  unfold parseExecutionField. destruct x as [[]|]; try done; case_match eqn:Ex; try done;
    intros [= <-]; by eapply parseCloudExecutionSelection_wf.
Qed.

Lemma parseDescription_wf x kind y :
  parseDescription x kind = inr y →
  wfOptional MAX_DISPATCH_DESCRIPTION_CHARS y ∧ (kind = Agent → is_Some y).
Proof.
  unfold parseDescription. destruct kind; [intros; split; [by eapply optionalField_wf|done]|].
  intros H. parse_inv H. injection H as <-. bool_to_prop. split; [|done].
  intros s [= <-]. split_and!; [apply trimmed_idem|by apply String.eqb_neq|done].
Qed.

Lemma parseHandoff_wf x kind : parseHandoff x kind = inr true → kind = Chat.
Proof. unfold parseHandoff. repeat case_match; try done. by bool_to_prop. Qed.

Lemma parseDispatchPayload_wf v kind p : parseDispatchPayload v kind = inr p → wfPayload kind p.
Proof.
  unfold parseDispatchPayload. destruct v as [[| | | | | |l]|]; try done. intros H. parse_inv H.
  injection H as <-. bool_to_prop.
  repeat match goal with E : String.eqb _ _ = false |- _ => apply String.eqb_neq in E end.
  constructor; simpl.
  - split_and!; auto using trimmed_idem.
  - by apply bounded_wf.
  - by apply bounded_wf.
  - by eapply optionalField_wf.
  - by eapply optionalField_wf.
  - intros paths ->. by eapply parseAttachmentField_wf.
  - intros x ->. by eapply parseExecutionField_wf.
  - by eapply parseDescription_wf.
  - intros ->. by eapply parseDescription_wf.
  - done.
  - intros ->. by eapply parseHandoff_wf.
Qed.

Lemma uniqueFirst_NoDup {A} `{EqDecision A} (l : list A) : NoDup (uniqueFirst l).
Proof.
  induction l as [|x l IH]; simpl; constructor; [|by apply NoDup_filter].
  intros [? _]%list_elem_of_filter. done.
Qed.

Lemma uniqueFirst_id {A} `{EqDecision A} (l : list A) : NoDup l → uniqueFirst l = l.
Proof.
  induction l as [|x l IH]; simpl; [done|]. intros [Hx Hl]%NoDup_cons. rw IH //. f_equal.
  clear IH Hl. induction l as [|y l IH]; [done|]. apply not_elem_of_cons in Hx as [? ?].
  rw filter_cons decide_True //. f_equal. by apply IH.
Qed.

(** C39: Whatever JSON arrives, the request parser either answers with a message or returns a
    well-formed request: the idempotency key, the ids, the prompt, the locale, the description and
    the attachments are trimmed, non-empty and within their limits, an ingress without a device
    behind it claims no local work, a device is named exactly when one is targeted, the capabilities
    have no repeats and start with the kind, and the payload is the dispatch's own.  Of a pinned
    execution, the model and the reasoning effort are bounded and not blank, but not trimmed, and
    the engine and provider print as a known pair; an array that prints so passes
    ([array_engine_is_accepted]). *)
Theorem parsed_request_is_well_formed v r :
  parseDispatchSubmitRequest v = inr r → wfRequest r.
Proof.
  unfold parseDispatchSubmitRequest. intros H. parse_inv H.
  injection H as <-. bool_to_prop.
  repeat match goal with E : String.eqb _ _ = false |- _ => apply String.eqb_neq in E end.
  constructor; simpl; try by eapply optionalField_wf.
  - split; [done|apply trimmed_idem].
  - match goal with E : _ || _ = true |- _ => apply orb_true_iff in E as [|?%bool_decide_eq_true] end; auto.
  - match goal with E : Bool.eqb _ _ = true |- _ => apply Bool.eqb_prop in E; rename E into Ht end.
    by rw -(bool_decide_eq_true (o = _)) -(bool_decide_eq_true (is_Some o0)) Ht.
  - split; [apply (uniqueFirst_NoDup (_ :: _))|done].
  - by eapply parseDispatchPayload_wf.
  - match goal with E : String.eqb _ _ = true |- _ => apply String.eqb_eq in E end. done.
Qed.

(** ** What a client sends for a well-formed request *)

(** The request as [JSON.stringify] of its object writes it, the payload in canonical form. *)
Definition requestJson (r : DispatchSubmitRequest) : json :=
  JObj ([("protocol", JInt PLACEMENT_PROTOCOL); ("idempotencyKey", JStr (r_idempotencyKey r));
         ("kind", JStr (kindName (r_kind r))); ("ingress", JStr (ingressName (r_ingress r)));
         ("subject", JStr (subjectName (r_subject r)))] ++
        optField "targetMode" (JStr ∘ targetModeName <$> r_targetMode r) ++
        optField "targetDeviceId" (JStr <$> r_targetDeviceId r) ++
        optField "requestingDeviceId" (JStr <$> r_requestingDeviceId r) ++
        [("conversationId", JStr (r_conversationId r))] ++
        optField "parentTurnId" (JStr <$> r_parentTurnId r) ++
        optField "threadId" (JStr <$> r_threadId r) ++
        [("requiredCapabilities", JArr (JStr ∘ capabilityName <$> r_requiredCapabilities r));
         ("payload", canonicalDispatchPayload (r_payload r))]).

Lemma assoc_app name l l' :
  assoc name (l ++ l') = match assoc name l with Some v => Some v | None => assoc name l' end.
Proof. induction l as [|[k v] l IH]; simpl; [done|]. by destruct (String.eqb k name). Qed.

Lemma assoc_optField name name' x :
  assoc name (optField name' x) = if String.eqb name' name then x else None.
Proof. destruct x; simpl; by case_match. Qed.

Lemma nonEmptyField_wf max name x :
  wfOptional max x → nonEmptyField name x = optField name (JStr <$> x).
Proof.
  destruct x as [s|]; simpl; [|done]. intros Hx. destruct (Hx s eq_refl) as (_ & Hs & _).
  by apply String.eqb_neq in Hs as ->.
Qed.

Lemma trimmed_wf max s : wfText max s → trimmed (Some (JStr s)) = s.
Proof. by intros (? & _ & _). Qed.

Lemma bounded_id max s : wfText max s → bounded (Some (JStr s)) max = s.
Proof.
  intros Hs. unfold bounded. rw (trimmed_wf max) //. destruct Hs as (_ & Hs & Hl).
  apply js_length_pos, Z.ltb_lt in Hs as ->. by apply Z.leb_le in Hl as ->.
Qed.

Lemma optionalField_id max x m :
  wfOptional max x → optionalField (defined (JStr <$> x)) (JStr <$> x) max m = inr x.
Proof.
  destruct x as [s|]; simpl; [|done]. intros Hx. specialize (Hx s eq_refl).
  unfold optionalField. rw bounded_id //. destruct Hx as (_ & Hs & _).
  by apply String.eqb_neq in Hs as ->.
Qed.

Lemma given_JStr x : given (JStr <$> x) = defined (JStr <$> x).
Proof. by destruct x. Qed.

Lemma parseAttachments_id l : Forall (wfText 1024) l → parseAttachments (JStr <$> l) = inr l.
Proof.
  induction 1 as [|s l Hs _ IH]; [done|]. simpl. rw bounded_id //.
  destruct Hs as (_ & Hs & _). apply String.eqb_neq in Hs as ->. simpl in IH. by rw IH.
Qed.

Definition executionJson (x : CloudExecutionSelection) : json :=
  JObj [("engine", x_engine x); ("provider", x_provider x); ("model", JStr (x_model x));
        ("reasoningEffort", JStr (x_reasoningEffort x))].

Lemma boundedText_id s :
  trim s ≠ ""%string → js_length s ≤ MAX_EXECUTION_FIELD_LENGTH → boundedText (Some (JStr s)) = Some s.
Proof.
  intros ?%String.eqb_neq ?%Z.leb_le. unfold boundedText. simpl.
  by repeat match goal with E : _ = _ |- _ => rw E end.
Qed.

Lemma parseCloudExecutionSelection_id x :
  wfExecution x → parseCloudExecutionSelection (executionJson x) = Some x.
Proof.
  intros (Hp & ? & ? & ? & ?). unfold parseCloudExecutionSelection, executionJson.
  cbn [isRecord negb prop assoc String.eqb Ascii.eqb Bool.eqb].
  rw !boundedText_id // Hp. by destruct x.
Qed.

Lemma parseAttachmentField_id l :
  (∀ paths, l = Some paths → paths ≠ [] ∧ Z.of_nat (length paths) ≤ MAX_DISPATCH_ATTACHMENTS ∧
                             Forall (wfText 1024) paths) →
  parseAttachmentField ((λ paths, JArr (JStr <$> paths)) <$> l) = inr l.
Proof.
  destruct l as [paths|]; [|done]. intros Hl. destruct (Hl paths eq_refl) as (Hne & Hn & Hw).
  simpl. unfold parseAttachmentField. simpl. rw length_fmap.
  apply Z.ltb_ge in Hn as ->. rw parseAttachments_id //. by destruct paths.
Qed.

Lemma parseExecutionField_id x :
  (∀ y, x = Some y → wfExecution y) → parseExecutionField (executionJson <$> x) = inr x.
Proof.
  destruct x as [y|]; [|done]. intros Hx. unfold parseExecutionField. simpl.
  by rw -/(executionJson y) parseCloudExecutionSelection_id; [apply Hx|].
Qed.

Lemma parseDescription_id kind x :
  wfOptional MAX_DISPATCH_DESCRIPTION_CHARS x → (kind = Agent → is_Some x) →
  parseDescription (JStr <$> x) kind = inr x.
Proof.
  intros Hx Hk. destruct kind; simpl; [by apply optionalField_id|].
  destruct (Hk eq_refl) as [s ->]. simpl. rw (trimmed_wf MAX_DISPATCH_DESCRIPTION_CHARS); [by apply Hx|].
  destruct (Hx s eq_refl) as (_ & ->%String.eqb_neq & ->%Z.leb_le). done.
Qed.

Definition handoffJson (b : bool) : option json := if b then Some (JBool true) else None.

Lemma parseHandoff_id kind b : (b = true → kind = Chat) → parseHandoff (handoffJson b) kind = inr b.
Proof. destruct b; [|done]. intros Hk. by rw Hk. Qed.

(** The fields of a well-formed payload's canonical object. *)
Lemma canonicalDispatchPayload_wf kind p : wfPayload kind p →
  canonicalDispatchPayload p =
  JObj ([("schemaVersion", JInt 1); ("prompt", JStr (p_prompt p));
         ("conversationId", JStr (p_conversationId p)); ("clientMsgId", JStr (p_clientMsgId p))] ++
        optField "userMessageEventId" (JStr <$> p_userMessageEventId p) ++
        optField "locale" (JStr <$> p_locale p) ++
        optField "attachments" ((λ paths, JArr (JStr <$> paths)) <$> p_attachments p) ++
        optField "execution" (executionJson <$> p_execution p) ++
        optField "description" (JStr <$> p_description p) ++
        optField "handoff" (handoffJson (p_handoff p))).
Proof.
  intros []. unfold canonicalDispatchPayload. destruct wf_internal0 as [Ht Hm]. rw Ht Hm.
  rw (nonEmptyField_wf 256) // (nonEmptyField_wf 64) // (nonEmptyField_wf MAX_DISPATCH_DESCRIPTION_CHARS) //.
  f_equal. do 3 f_equal. simpl. f_equal; [|f_equal; [by destruct (p_execution p)|f_equal; by destruct (p_handoff p)]].
  destruct (p_attachments p) as [[|]|] eqn:E; simpl; [|done..]. by destruct (wf_attachments0 _ eq_refl).
Qed.

Lemma option_eta {A} (x : option A) : match x with Some v => Some v | None => None end = x.
Proof. by destruct x. Qed.

(** Reads a field of an object written as an append of optional fields. *)
Ltac read_fields :=
  cbn [prop]; rw ?assoc_app ?assoc_optField; cbn [assoc optField app String.eqb Ascii.eqb Bool.eqb];
  rw ?option_eta.

(** A required text that is well formed passes its test. *)
Lemma wfText_nonempty max s : wfText max s → String.eqb s "" = false.
Proof. intros (_ & ? & _). by apply String.eqb_neq. Qed.

(** A well-formed payload survives the trip through its canonical bytes, so the bytes behind
    a dispatch's hash always parse to the same verdict. *)
Lemma parse_canonical_payload kind p :
  wfPayload kind p →
  parseDispatchPayload (JSON_parse (canonicalDispatchPayloadJson p)) kind = inr p.
Proof.
  intros Hwf. unfold canonicalDispatchPayloadJson, JSON_parse, JSON_stringify.
  rw (canonicalDispatchPayload_wf kind) //. destruct Hwf.
  unfold parseDispatchPayload. read_fields. rw bool_decide_true //=.
  rw (trimmed_wf MAX_DISPATCH_PROMPT_CHARS) // !bounded_id // !(wfText_nonempty _ _ wf_prompt0)
     (wfText_nonempty _ _ wf_conversationId0) (wfText_nonempty _ _ wf_clientMsgId0) /=.
  destruct wf_prompt0 as (_ & _ & ->%Z.leb_le). simpl.
  rw given_JStr !optionalField_id //= parseAttachmentField_id //= parseExecutionField_id //=
     parseDescription_id //= parseHandoff_id //=.
  destruct p, wf_internal0. simpl in *. congruence.
Qed.

Lemma member_id {A} (name : A → string) (all : list A) a :
  NoDup (name <$> all) → a ∈ all → member name all (Some (JStr (name a))) = Some a.
Proof.
  simpl. induction all as [|b all IH]; [by intros _ ?%not_elem_of_nil|].
  simpl. intros [Hb Hall]%NoDup_cons [-> | Ha]%elem_of_cons; [by rw String.eqb_refl|].
  destruct (String.eqb_spec (name b) (name a)) as [E|]; [|by apply IH].
  destruct Hb. rw E. by apply list_elem_of_fmap_2.
Qed.

Lemma members_id {A} (name : A → string) (all l : list A) :
  NoDup (name <$> all) → (∀ a, a ∈ all) → members name all (JStr ∘ name <$> l) = Some l.
Proof.
  intros Hn Ha. induction l as [|a l IH]; [done|]. cbn [fmap list_fmap members].
  rw member_id //. simpl in IH. by rw IH.
Qed.

Lemma capability_elem c : c ∈ EXECUTION_CAPABILITIES.
Proof. destruct c; refine (bool_decide_eq_true_1 _ _); by vm_compute. Qed.

(** There are six capabilities, so a list without repeats is within the limit of eight. *)
Lemma capabilities_bound (l : list ExecutionCapability) :
  NoDup l → (length l ≤ 6)%nat.
Proof.
  intros Hl. apply (submseteq_length l EXECUTION_CAPABILITIES).
  apply NoDup_submseteq; [done|]. intros c _. apply capability_elem.
Qed.

Lemma uniqueFirst_head {A} `{EqDecision A} (c : A) l :
  NoDup l → head l = Some c → uniqueFirst (c :: l) = l.
Proof.
  intros Hl Hc. destruct l as [|d l]; simplify_eq/=.
  rw -/(uniqueFirst (c :: l)) uniqueFirst_id //. f_equal.
  apply NoDup_cons in Hl as [Hc _]. rw filter_cons decide_False; [by intros []|].
  clear -Hc. induction l as [|y l IH]; [done|]. apply not_elem_of_cons in Hc as [? ?].
  rw filter_cons decide_True //. f_equal. by apply IH.
Qed.

Lemma parseRequiredCapabilities_id l :
  NoDup l → parseRequiredCapabilities (Some (JArr (JStr ∘ capabilityName <$> l))) = inr l.
Proof.
  intros Hl. unfold parseRequiredCapabilities. simpl.
  rw members_id; [refine (bool_decide_eq_true_1 _ _); by vm_compute|apply capability_elem|].
  rw length_fmap. pose proof (capabilities_bound l Hl).
  destruct (Z.ltb_spec MAX_REQUIRED_CAPABILITIES (Z.of_nat (length l))); [|done].
  unfold MAX_REQUIRED_CAPABILITIES in *. lia.
Qed.

Lemma kind_member k : member kindName [Chat; Agent] (Some (JStr (kindName k))) = Some k.
Proof. by destruct k. Qed.
Lemma ingress_member i : member ingressName INGRESSES (Some (JStr (ingressName i))) = Some i.
Proof. by destruct i. Qed.
Lemma subject_member s : member subjectName SUBJECTS (Some (JStr (subjectName s))) = Some s.
Proof. by destruct s. Qed.
Lemma parseTargetMode_id m : parseTargetMode (JStr ∘ targetModeName <$> m) = inr m.
Proof. by destruct m as [[]|]. Qed.

(** The parser accepts exactly the well-formed requests: parsing the JSON a client writes
    for one, its payload in canonical bytes, returns that very request, so a replay of the
    same bytes is the same request. *)
Theorem well_formed_request_roundtrip r :
  wfRequest r → parseDispatchSubmitRequest (requestJson r) = inr r.
Proof.
  intros []. unfold parseDispatchSubmitRequest, requestJson. read_fields.
  destruct wf_key0 as [Hkey Htrim], wf_capabilities0 as [Hnd Hhead].
  assert (Hpayload := parse_canonical_payload _ _ wf_payload0).
  assert (Hconv := wf_conversationId _ _ wf_payload0). rw -wf_conversation0 in Hconv.
  cbn [isRecord check andThen]. rw bool_decide_true //.
  assert (trimmed (Some (JStr (r_idempotencyKey r))) = r_idempotencyKey r) as -> by done.
  rw Hkey kind_member ingress_member subject_member. cbn [check andThen required].
  assert (ingressMayClaimComputerSubject (r_ingress r) || bool_decide (r_subject r = CloudSubject) = true)
    as -> by (apply orb_true_iff; rw bool_decide_eq_true; tauto).
  rw parseTargetMode_id !optionalField_id //. cbn [check andThen].
  rw (bool_decide_ext _ _ wf_target0) Bool.eqb_reflx bounded_id // (wfText_nonempty _ _ Hconv).
  cbn [negb check andThen]. rw parseRequiredCapabilities_id //. cbn [andThen].
  rw Hpayload. cbn [andThen]. rw -wf_conversation0 String.eqb_refl. cbn [check andThen].
  rw uniqueFirst_head //. by destruct r.
Qed.

(** A request from a phone for its paired computer, with the longest permitted device id. *)
Definition exampleRequest : DispatchSubmitRequest :=
  {| r_idempotencyKey := "turn:0123-abcd"; r_kind := Agent; r_ingress := Mobile; r_subject := ComputerSubject;
     r_targetMode := Some DeviceTarget; r_targetDeviceId := Some "desktop-1";
     r_requestingDeviceId := Some "phone-1"; r_conversationId := "conversation"; r_parentTurnId := None;
     r_threadId := Some "thread"; r_requiredCapabilities := [CapAgent; LocalFiles];
     r_payload := {| p_prompt := "find the report"; p_conversationId := "conversation";
                     p_clientMsgId := "message-1"; p_userMessageEventId := None; p_locale := Some "en";
                     p_attachments := Some ["drive/report.pdf"];
                     p_execution := Some {| x_engine := JStr "stella"; x_provider := JStr "stella";
                                            x_model := "stella/large"; x_reasoningEffort := "high" |};
                     p_description := Some "find a report"; p_threadId := None; p_model := None;
                     p_handoff := false |} |}.

Lemma parsed_request_is_well_formed_witness :
  let v := requestJson exampleRequest in
  parseDispatchSubmitRequest v = inr exampleRequest ∧ wfRequest exampleRequest.
Proof.
  intros v. assert (H : parseDispatchSubmitRequest v = inr exampleRequest) by by vm_compute.
  split; [done|]. exact (parsed_request_is_well_formed v exampleRequest H).
Defined.

Lemma exampleRequest_wf : wfRequest exampleRequest.
Proof.
  assert (Ht : ∀ max s x, x = Some s → trim s = s → s ≠ ""%string → js_length s ≤ max → wfOptional max x)
    by (intros max s x -> ? ? ? t [= <-]; done).
  constructor; simpl; try done; [by left|by apply (Ht _ "desktop-1"%string)|by apply (Ht _ "phone-1"%string)|by apply (Ht _ "thread"%string)| |].
  - split; [refine (bool_decide_eq_true_1 _ _); by vm_compute|done].
  - constructor; simpl; try done; [by apply (Ht _ "en"%string)|by intros l [= <-]; split_and!; repeat constructor
      | by intros x [= <-] | by apply (Ht _ "find a report"%string)].
Qed.

Lemma well_formed_request_roundtrip_witness :
  wfRequest exampleRequest ∧ parseDispatchSubmitRequest (requestJson exampleRequest) = inr exampleRequest.
Proof.
  split; [exact exampleRequest_wf|]. exact (well_formed_request_roundtrip exampleRequest exampleRequest_wf).
Defined.

(** The execution parser compares [String(engine)], so an engine that is an array of one
    string passes, and is handed on as the array it is. *)
Example array_engine_is_accepted :
  let v := JObj [("engine", JArr [JStr "stella"]); ("provider", JStr "stella");
                 ("model", JStr "m"); ("reasoningEffort", JStr "low")] in
  x_engine <$> parseCloudExecutionSelection v = Some (JArr [JStr "stella"]).
Proof. reflexivity. Qed.
