(* ===== verification/DispatchRows.v ===== *)
(** * The owner gate's dispatch tables

    The rows of [dispatches], [dispatch_offers] and [cloud_dispatch_terminals]
    ([workers/cloud-builder/src/owner-gate/schema.ts], [types.ts]), the handoff records of
    [cloud-chat-admission.ts], what the gate sends, and the primitive writes of
    [owner-gate/dispatch.ts] that every handler is made of.

    A row's [d_submit] never changes after the [INSERT]; the other columns change through one
    setter each, and a patch is a composition of setters.  The texts written only for people
    ([error_message], [cancel_reason]) and the columns no handler reads ([subject],
    [parent_turn_id], [thread_id], [payload_hash]) are left out, and a row keeps the payload itself where
    the table keeps its canonical JSON. *)

From Corelib Require Import ssreflect.
From stdpp Require Import prelude gmap strings sorting pretty.
From S2P Require Import Prelude JsString Json DispatchPolicy.

#[local] Open Scope Z_scope.

Definition DISPATCH_OFFER_WINDOW_MS : Z := 4000.
Definition DISPATCH_CLAIM_LEASE_MS : Z := 30000.
Definition DISPATCH_ACCEPTED_LEASE_MS : Z := 120000.
Definition DISPATCH_PAYLOAD_TTL_MS : Z := 900000.
Definition DEVICE_PRESENCE_STALE_AFTER_MS : Z := 60000.
Definition DISPATCH_CLOUD_RETRY_DELAY_MS : Z := 1000.
Definition DISPATCH_CLOUD_MAX_ATTEMPTS : Z := 2.
Definition OWNER_GATE_RUNNING_GRACE_MS : Z := 60000.
Definition MAX_DISPATCH_PAYLOAD_BYTES : Z := 128 * 1024.

(** ** Rows *)

(** The columns an [INSERT] fixes; [q_fallback] is [on_no_eligible_computer], [None] for
    "blocked". *)
Record Submitted := {
  q_id : string;
  q_idempotency_key : string;
  q_owner_generation : string;
  q_kind : ExecutionKind;
  q_ingress : ExecutionIngress;
  q_target_mode : ExecutionTargetMode;
  q_target_device : option string;
  q_conversation_id : string;
  q_requesting_device : option string;
  q_pair_grant_device : option string;
  q_required : list ExecutionCapability;
  q_fingerprint : string;
  q_fallback : option Placement;
  q_created_at : Z;
}.

Record DispatchRow := {
  d_submit : Submitted;
  d_state : DispatchState;
  d_placement : option Placement;
  d_executor : option string;
  d_session : option string;
  d_revision : Z;
  d_fallback_reason : option string;
  d_cancel_request_id : option string;
  d_error_code : option string;
  d_result : option string;
  d_cloud_turn_id : option string;
  d_cloud_thread_id : option string;
  d_payload : option DispatchPayload;
  d_payload_expires_at : option Z;
  d_offer_deadline_at : option Z;
  d_lease_expires_at : option Z;
  d_started_at : option Z;
  d_cloud_attempts : Z;
  d_cloud_retry_at : option Z;
  d_gate_held : bool;
  d_updated_at : Z;
}.

Definition setState (v : DispatchState) (r : DispatchRow) : DispatchRow :=
  {| d_submit := d_submit r; d_state := v; d_placement := d_placement r;
     d_executor := d_executor r; d_session := d_session r; d_revision := d_revision r;
     d_fallback_reason := d_fallback_reason r; d_cancel_request_id := d_cancel_request_id r;
     d_error_code := d_error_code r; d_result := d_result r; d_cloud_turn_id := d_cloud_turn_id r;
     d_cloud_thread_id := d_cloud_thread_id r; d_payload := d_payload r;
     d_payload_expires_at := d_payload_expires_at r; d_offer_deadline_at := d_offer_deadline_at r;
     d_lease_expires_at := d_lease_expires_at r; d_started_at := d_started_at r;
     d_cloud_attempts := d_cloud_attempts r; d_cloud_retry_at := d_cloud_retry_at r;
     d_gate_held := d_gate_held r; d_updated_at := d_updated_at r |}.
Definition setPlacement (v : option Placement) (r : DispatchRow) : DispatchRow :=
  {| d_submit := d_submit r; d_state := d_state r; d_placement := v; d_executor := d_executor r;
     d_session := d_session r; d_revision := d_revision r;
     d_fallback_reason := d_fallback_reason r; d_cancel_request_id := d_cancel_request_id r;
     d_error_code := d_error_code r; d_result := d_result r; d_cloud_turn_id := d_cloud_turn_id r;
     d_cloud_thread_id := d_cloud_thread_id r; d_payload := d_payload r;
     d_payload_expires_at := d_payload_expires_at r; d_offer_deadline_at := d_offer_deadline_at r;
     d_lease_expires_at := d_lease_expires_at r; d_started_at := d_started_at r;
     d_cloud_attempts := d_cloud_attempts r; d_cloud_retry_at := d_cloud_retry_at r;
     d_gate_held := d_gate_held r; d_updated_at := d_updated_at r |}.
Definition setExecutor (v : option string) (w : option string) (r : DispatchRow) : DispatchRow :=
  {| d_submit := d_submit r; d_state := d_state r; d_placement := d_placement r; d_executor := v;
     d_session := w; d_revision := d_revision r; d_fallback_reason := d_fallback_reason r;
     d_cancel_request_id := d_cancel_request_id r; d_error_code := d_error_code r;
     d_result := d_result r; d_cloud_turn_id := d_cloud_turn_id r;
     d_cloud_thread_id := d_cloud_thread_id r; d_payload := d_payload r;
     d_payload_expires_at := d_payload_expires_at r; d_offer_deadline_at := d_offer_deadline_at r;
     d_lease_expires_at := d_lease_expires_at r; d_started_at := d_started_at r;
     d_cloud_attempts := d_cloud_attempts r; d_cloud_retry_at := d_cloud_retry_at r;
     d_gate_held := d_gate_held r; d_updated_at := d_updated_at r |}.
Definition setFallback (v : option string) (r : DispatchRow) : DispatchRow :=
  {| d_submit := d_submit r; d_state := d_state r; d_placement := d_placement r;
     d_executor := d_executor r; d_session := d_session r; d_revision := d_revision r;
     d_fallback_reason := v; d_cancel_request_id := d_cancel_request_id r;
     d_error_code := d_error_code r; d_result := d_result r; d_cloud_turn_id := d_cloud_turn_id r;
     d_cloud_thread_id := d_cloud_thread_id r; d_payload := d_payload r;
     d_payload_expires_at := d_payload_expires_at r; d_offer_deadline_at := d_offer_deadline_at r;
     d_lease_expires_at := d_lease_expires_at r; d_started_at := d_started_at r;
     d_cloud_attempts := d_cloud_attempts r; d_cloud_retry_at := d_cloud_retry_at r;
     d_gate_held := d_gate_held r; d_updated_at := d_updated_at r |}.
Definition setCancel (v : option string) (r : DispatchRow) : DispatchRow :=
  {| d_submit := d_submit r; d_state := d_state r; d_placement := d_placement r;
     d_executor := d_executor r; d_session := d_session r; d_revision := d_revision r;
     d_fallback_reason := d_fallback_reason r; d_cancel_request_id := v;
     d_error_code := d_error_code r; d_result := d_result r; d_cloud_turn_id := d_cloud_turn_id r;
     d_cloud_thread_id := d_cloud_thread_id r; d_payload := d_payload r;
     d_payload_expires_at := d_payload_expires_at r; d_offer_deadline_at := d_offer_deadline_at r;
     d_lease_expires_at := d_lease_expires_at r; d_started_at := d_started_at r;
     d_cloud_attempts := d_cloud_attempts r; d_cloud_retry_at := d_cloud_retry_at r;
     d_gate_held := d_gate_held r; d_updated_at := d_updated_at r |}.
Definition setError (v : option string) (r : DispatchRow) : DispatchRow :=
  {| d_submit := d_submit r; d_state := d_state r; d_placement := d_placement r;
     d_executor := d_executor r; d_session := d_session r; d_revision := d_revision r;
     d_fallback_reason := d_fallback_reason r; d_cancel_request_id := d_cancel_request_id r;
     d_error_code := v; d_result := d_result r; d_cloud_turn_id := d_cloud_turn_id r;
     d_cloud_thread_id := d_cloud_thread_id r; d_payload := d_payload r;
     d_payload_expires_at := d_payload_expires_at r; d_offer_deadline_at := d_offer_deadline_at r;
     d_lease_expires_at := d_lease_expires_at r; d_started_at := d_started_at r;
     d_cloud_attempts := d_cloud_attempts r; d_cloud_retry_at := d_cloud_retry_at r;
     d_gate_held := d_gate_held r; d_updated_at := d_updated_at r |}.
Definition setResult (v : option string) (r : DispatchRow) : DispatchRow :=
  {| d_submit := d_submit r; d_state := d_state r; d_placement := d_placement r;
     d_executor := d_executor r; d_session := d_session r; d_revision := d_revision r;
     d_fallback_reason := d_fallback_reason r; d_cancel_request_id := d_cancel_request_id r;
     d_error_code := d_error_code r; d_result := v; d_cloud_turn_id := d_cloud_turn_id r;
     d_cloud_thread_id := d_cloud_thread_id r; d_payload := d_payload r;
     d_payload_expires_at := d_payload_expires_at r; d_offer_deadline_at := d_offer_deadline_at r;
     d_lease_expires_at := d_lease_expires_at r; d_started_at := d_started_at r;
     d_cloud_attempts := d_cloud_attempts r; d_cloud_retry_at := d_cloud_retry_at r;
     d_gate_held := d_gate_held r; d_updated_at := d_updated_at r |}.
Definition setCloudTurn (v : option string) (r : DispatchRow) : DispatchRow :=
  {| d_submit := d_submit r; d_state := d_state r; d_placement := d_placement r;
     d_executor := d_executor r; d_session := d_session r; d_revision := d_revision r;
     d_fallback_reason := d_fallback_reason r; d_cancel_request_id := d_cancel_request_id r;
     d_error_code := d_error_code r; d_result := d_result r; d_cloud_turn_id := v;
     d_cloud_thread_id := d_cloud_thread_id r; d_payload := d_payload r;
     d_payload_expires_at := d_payload_expires_at r; d_offer_deadline_at := d_offer_deadline_at r;
     d_lease_expires_at := d_lease_expires_at r; d_started_at := d_started_at r;
     d_cloud_attempts := d_cloud_attempts r; d_cloud_retry_at := d_cloud_retry_at r;
     d_gate_held := d_gate_held r; d_updated_at := d_updated_at r |}.
Definition setCloudThread (v : option string) (r : DispatchRow) : DispatchRow :=
  {| d_submit := d_submit r; d_state := d_state r; d_placement := d_placement r;
     d_executor := d_executor r; d_session := d_session r; d_revision := d_revision r;
     d_fallback_reason := d_fallback_reason r; d_cancel_request_id := d_cancel_request_id r;
     d_error_code := d_error_code r; d_result := d_result r; d_cloud_turn_id := d_cloud_turn_id r;
     d_cloud_thread_id := v; d_payload := d_payload r;
     d_payload_expires_at := d_payload_expires_at r; d_offer_deadline_at := d_offer_deadline_at r;
     d_lease_expires_at := d_lease_expires_at r; d_started_at := d_started_at r;
     d_cloud_attempts := d_cloud_attempts r; d_cloud_retry_at := d_cloud_retry_at r;
     d_gate_held := d_gate_held r; d_updated_at := d_updated_at r |}.
Definition setPayload (v : option DispatchPayload) (w : option Z) (r : DispatchRow) : DispatchRow :=
  {| d_submit := d_submit r; d_state := d_state r; d_placement := d_placement r;
     d_executor := d_executor r; d_session := d_session r; d_revision := d_revision r;
     d_fallback_reason := d_fallback_reason r; d_cancel_request_id := d_cancel_request_id r;
     d_error_code := d_error_code r; d_result := d_result r; d_cloud_turn_id := d_cloud_turn_id r;
     d_cloud_thread_id := d_cloud_thread_id r; d_payload := v; d_payload_expires_at := w;
     d_offer_deadline_at := d_offer_deadline_at r; d_lease_expires_at := d_lease_expires_at r;
     d_started_at := d_started_at r; d_cloud_attempts := d_cloud_attempts r;
     d_cloud_retry_at := d_cloud_retry_at r; d_gate_held := d_gate_held r;
     d_updated_at := d_updated_at r |}.
Definition setOfferDeadline (v : option Z) (r : DispatchRow) : DispatchRow :=
  {| d_submit := d_submit r; d_state := d_state r; d_placement := d_placement r;
     d_executor := d_executor r; d_session := d_session r; d_revision := d_revision r;
     d_fallback_reason := d_fallback_reason r; d_cancel_request_id := d_cancel_request_id r;
     d_error_code := d_error_code r; d_result := d_result r; d_cloud_turn_id := d_cloud_turn_id r;
     d_cloud_thread_id := d_cloud_thread_id r; d_payload := d_payload r;
     d_payload_expires_at := d_payload_expires_at r; d_offer_deadline_at := v;
     d_lease_expires_at := d_lease_expires_at r; d_started_at := d_started_at r;
     d_cloud_attempts := d_cloud_attempts r; d_cloud_retry_at := d_cloud_retry_at r;
     d_gate_held := d_gate_held r; d_updated_at := d_updated_at r |}.
Definition setLease (v : option Z) (r : DispatchRow) : DispatchRow :=
  {| d_submit := d_submit r; d_state := d_state r; d_placement := d_placement r;
     d_executor := d_executor r; d_session := d_session r; d_revision := d_revision r;
     d_fallback_reason := d_fallback_reason r; d_cancel_request_id := d_cancel_request_id r;
     d_error_code := d_error_code r; d_result := d_result r; d_cloud_turn_id := d_cloud_turn_id r;
     d_cloud_thread_id := d_cloud_thread_id r; d_payload := d_payload r;
     d_payload_expires_at := d_payload_expires_at r; d_offer_deadline_at := d_offer_deadline_at r;
     d_lease_expires_at := v; d_started_at := d_started_at r;
     d_cloud_attempts := d_cloud_attempts r; d_cloud_retry_at := d_cloud_retry_at r;
     d_gate_held := d_gate_held r; d_updated_at := d_updated_at r |}.
Definition setStarted (v : option Z) (r : DispatchRow) : DispatchRow :=
  {| d_submit := d_submit r; d_state := d_state r; d_placement := d_placement r;
     d_executor := d_executor r; d_session := d_session r; d_revision := d_revision r;
     d_fallback_reason := d_fallback_reason r; d_cancel_request_id := d_cancel_request_id r;
     d_error_code := d_error_code r; d_result := d_result r; d_cloud_turn_id := d_cloud_turn_id r;
     d_cloud_thread_id := d_cloud_thread_id r; d_payload := d_payload r;
     d_payload_expires_at := d_payload_expires_at r; d_offer_deadline_at := d_offer_deadline_at r;
     d_lease_expires_at := d_lease_expires_at r; d_started_at := v;
     d_cloud_attempts := d_cloud_attempts r; d_cloud_retry_at := d_cloud_retry_at r;
     d_gate_held := d_gate_held r; d_updated_at := d_updated_at r |}.
Definition setAttempts (v : Z) (r : DispatchRow) : DispatchRow :=
  {| d_submit := d_submit r; d_state := d_state r; d_placement := d_placement r;
     d_executor := d_executor r; d_session := d_session r; d_revision := d_revision r;
     d_fallback_reason := d_fallback_reason r; d_cancel_request_id := d_cancel_request_id r;
     d_error_code := d_error_code r; d_result := d_result r; d_cloud_turn_id := d_cloud_turn_id r;
     d_cloud_thread_id := d_cloud_thread_id r; d_payload := d_payload r;
     d_payload_expires_at := d_payload_expires_at r; d_offer_deadline_at := d_offer_deadline_at r;
     d_lease_expires_at := d_lease_expires_at r; d_started_at := d_started_at r;
     d_cloud_attempts := v; d_cloud_retry_at := d_cloud_retry_at r; d_gate_held := d_gate_held r;
     d_updated_at := d_updated_at r |}.
Definition setRetry (v : option Z) (r : DispatchRow) : DispatchRow :=
  {| d_submit := d_submit r; d_state := d_state r; d_placement := d_placement r;
     d_executor := d_executor r; d_session := d_session r; d_revision := d_revision r;
     d_fallback_reason := d_fallback_reason r; d_cancel_request_id := d_cancel_request_id r;
     d_error_code := d_error_code r; d_result := d_result r; d_cloud_turn_id := d_cloud_turn_id r;
     d_cloud_thread_id := d_cloud_thread_id r; d_payload := d_payload r;
     d_payload_expires_at := d_payload_expires_at r; d_offer_deadline_at := d_offer_deadline_at r;
     d_lease_expires_at := d_lease_expires_at r; d_started_at := d_started_at r;
     d_cloud_attempts := d_cloud_attempts r; d_cloud_retry_at := v; d_gate_held := d_gate_held r;
     d_updated_at := d_updated_at r |}.
Definition setGate (v : bool) (r : DispatchRow) : DispatchRow :=
  {| d_submit := d_submit r; d_state := d_state r; d_placement := d_placement r;
     d_executor := d_executor r; d_session := d_session r; d_revision := d_revision r;
     d_fallback_reason := d_fallback_reason r; d_cancel_request_id := d_cancel_request_id r;
     d_error_code := d_error_code r; d_result := d_result r; d_cloud_turn_id := d_cloud_turn_id r;
     d_cloud_thread_id := d_cloud_thread_id r; d_payload := d_payload r;
     d_payload_expires_at := d_payload_expires_at r; d_offer_deadline_at := d_offer_deadline_at r;
     d_lease_expires_at := d_lease_expires_at r; d_started_at := d_started_at r;
     d_cloud_attempts := d_cloud_attempts r; d_cloud_retry_at := d_cloud_retry_at r;
     d_gate_held := v; d_updated_at := d_updated_at r |}.
Definition setRevision (v : Z) (w : Z) (r : DispatchRow) : DispatchRow :=
  {| d_submit := d_submit r; d_state := d_state r; d_placement := d_placement r;
     d_executor := d_executor r; d_session := d_session r; d_revision := v;
     d_fallback_reason := d_fallback_reason r; d_cancel_request_id := d_cancel_request_id r;
     d_error_code := d_error_code r; d_result := d_result r; d_cloud_turn_id := d_cloud_turn_id r;
     d_cloud_thread_id := d_cloud_thread_id r; d_payload := d_payload r;
     d_payload_expires_at := d_payload_expires_at r; d_offer_deadline_at := d_offer_deadline_at r;
     d_lease_expires_at := d_lease_expires_at r; d_started_at := d_started_at r;
     d_cloud_attempts := d_cloud_attempts r; d_cloud_retry_at := d_cloud_retry_at r;
     d_gate_held := d_gate_held r; d_updated_at := w |}.

Definition d_id (r : DispatchRow) : string := q_id (d_submit r).
Definition d_kind (r : DispatchRow) : ExecutionKind := q_kind (d_submit r).

Inductive OfferStatus := OpenOffer | WithdrawnOffer | ClaimedOffer.
#[export] Instance OfferStatus_eq : EqDecision OfferStatus.
Proof. solve_decision. Defined.

Record OfferRow := { of_session : string; of_status : OfferStatus; of_expires_at : Z }.

(** [CloudChatHandoff]: the turn identity of a placed chat. *)
Inductive Handoff :=
  | Allocating (turnId : string)
  | Registered (turnId : string)
  | Retired (turnId : string).

Definition handoffTurn (h : Handoff) : string :=
  match h with Allocating t | Registered t | Retired t => t end.

Record Receipt := { rc_outcome : DispatchState; rc_result : option string }.

(** ** What the gate sends *)

Inductive Frame :=
  | OfferFrame (dispatchId : string) (payload : option DispatchPayload) (expiresAt : Z)
  | WithdrawnFrame (dispatchId reason : string)
  | ClaimedFrame (dispatchId : string) (expiresAt : Z) (replayed : bool)
  | CancelFrame (dispatchId cancelRequestId : string)
  | DispatchFrame (dispatchId : string) (state : DispatchState) (revision : Z)
  | ErrorFrame (code : string)
  | CloseFrame (reason : string).

(** A frame to a device, a start request to the cloud, a stop, or the report of a settled
    device agent. *)
Inductive Output :=
  | Sent (device : string) (frame : Frame)
  | StartChat (dispatchId : string) (turnId : option string)
  | StartAgent (dispatchId threadId : string)
  | StartPi (dispatchId threadId : string)
  | CancelCloud (dispatchId : string)
  | ReportSettled (dispatchId : string) (state : DispatchState).

(** The start requests for one dispatch. *)
Definition startOf (o : Output) : option string :=
  match o with
  | StartChat id _ | StartAgent id _ | StartPi id _ => Some id
  | _ => None
  end.

(** ** The gate *)

(** Where a suspended call is: at the fence lease of a chat's admission, at the preparation
    after it, at the conversation's answer ([None] for a dispatch older than the handoff
    protocol), at an agent session's or a pi thread's answer, or at the report of a settled
    device agent.  Each carries the row and the time its caller read. *)
Inductive Await :=
  | AwaitLease (row : DispatchRow) (now : Z) (turnId : string)
  | AwaitPreparation (row : DispatchRow) (now : Z) (turnId : string)
  | AwaitChat (row : DispatchRow) (now : Z) (turnId : option string)
  | AwaitAgent (row : DispatchRow) (now : Z) (threadId : string)
  | AwaitPi (row : DispatchRow) (now : Z) (threadId : string)
  | AwaitSettle (row : DispatchRow).

(** What is left for the caller: nothing, or the rest of an alarm's list. *)
Record Task := { t_await : Await; t_rest : option (Z * list DispatchRow) }.

Record gate := {
  dispatches : gmap string DispatchRow;
  offers : gmap (string * string) OfferRow;
  handoffs : gmap string Handoff;
  terminals : gmap (string * string) Receipt;
  running : gmap string Z;
  presence : gmap string DevicePresenceState;
  connected : gset string;
  tasks : list Task;
  sent : list Output;
}.

Definition init : gate :=
  {| dispatches := ∅; offers := ∅; handoffs := ∅; terminals := ∅; running := ∅; presence := ∅;
     connected := ∅; tasks := []; sent := [] |}.

Definition withDispatches (m : gmap string DispatchRow) (g : gate) : gate :=
  {| dispatches := m; offers := offers g; handoffs := handoffs g; terminals := terminals g;
     running := running g; presence := presence g; connected := connected g; tasks := tasks g;
     sent := sent g |}.
Definition withOffers (m : gmap (string * string) OfferRow) (g : gate) : gate :=
  {| dispatches := dispatches g; offers := m; handoffs := handoffs g; terminals := terminals g;
     running := running g; presence := presence g; connected := connected g; tasks := tasks g;
     sent := sent g |}.
Definition withHandoffs (m : gmap string Handoff) (g : gate) : gate :=
  {| dispatches := dispatches g; offers := offers g; handoffs := m; terminals := terminals g;
     running := running g; presence := presence g; connected := connected g; tasks := tasks g;
     sent := sent g |}.
Definition withTerminals (m : gmap (string * string) Receipt) (g : gate) : gate :=
  {| dispatches := dispatches g; offers := offers g; handoffs := handoffs g; terminals := m;
     running := running g; presence := presence g; connected := connected g; tasks := tasks g;
     sent := sent g |}.
Definition withRunning (m : gmap string Z) (g : gate) : gate :=
  {| dispatches := dispatches g; offers := offers g; handoffs := handoffs g; terminals := terminals g;
     running := m; presence := presence g; connected := connected g; tasks := tasks g;
     sent := sent g |}.
Definition withPresence (m : gmap string DevicePresenceState) (c : gset string) (g : gate) : gate :=
  {| dispatches := dispatches g; offers := offers g; handoffs := handoffs g; terminals := terminals g;
     running := running g; presence := m; connected := c; tasks := tasks g; sent := sent g |}.
Definition withTasks (m : list Task) (g : gate) : gate :=
  {| dispatches := dispatches g; offers := offers g; handoffs := handoffs g; terminals := terminals g;
     running := running g; presence := presence g; connected := connected g; tasks := m;
     sent := sent g |}.
Definition output (o : Output) (g : gate) : gate :=
  {| dispatches := dispatches g; offers := offers g; handoffs := handoffs g; terminals := terminals g;
     running := running g; presence := presence g; connected := connected g; tasks := tasks g;
     sent := sent g ++ [o] |}.

(** An answer to the socket a frame came in on, and a frame to a device's connected socket. *)
Definition reply (device : string) (f : Frame) (g : gate) : gate := output (Sent device f) g.
Definition send (device : string) (f : Frame) (g : gate) : gate :=
  if bool_decide (device ∈ connected g) then output (Sent device f) g else g.

(** ** Rows and patches *)

Definition dispatchRow (id : string) (g : gate) : option DispatchRow := dispatches g !! id.

Definition notifyExecutor (row : DispatchRow) (g : gate) : gate :=
  match d_executor row with
  | Some device => send device (DispatchFrame (d_id row) (d_state row) (d_revision row)) g
  | None => g
  end.

(** The [UPDATE] of [patchDispatch]: the patch applies to the row the table holds. *)
Definition writePatch (id : string) (patch : DispatchRow → DispatchRow) (now : Z) (g : gate) : gate :=
  withDispatches
    (alter (λ r, let r := patch r in setRevision (d_revision r + 1) now r) id (dispatches g)) g.

(** [UPDATE dispatches SET column = ? WHERE dispatch_id = ?], with no revision. *)
Definition writeColumn (id : string) (set : DispatchRow → DispatchRow) (g : gate) : gate :=
  withDispatches (alter set id (dispatches g)) g.

(** ** Settled device agents *)

Definition DEVICE_AGENT_DISPATCH_PREFIX : string := "agent-thread:".

(** The part of [s] before its first colon, and what follows it. *)
Fixpoint splitColon (s : string) : string * option string :=
  match s with
  | EmptyString => (EmptyString, None)
  | String c s' =>
      if charCodeAt c =? 58 then (EmptyString, Some s')
      else let '(before, after) := splitColon s' in (String c before, after)
  end.

Definition isDigit (c : Ascii.ascii) : bool := (48 <=? charCodeAt c) && (charCodeAt c <=? 57).

(** [/^([^:]+)(?::r(\d+))?$/u] on what follows the prefix; the turn id. *)
Definition parseDeviceAgentDispatchKey (key : string) : option string :=
  if String.prefix DEVICE_AGENT_DISPATCH_PREFIX key then
    let rest := String.substring (String.length DEVICE_AGENT_DISPATCH_PREFIX)
                  (String.length key - String.length DEVICE_AGENT_DISPATCH_PREFIX) key in
    match splitColon rest with
    | (EmptyString, _) => None
    | (turnId, None) => Some turnId
    | (turnId, Some (String c digits)) =>
        if (charCodeAt c =? 114) && negb (String.eqb digits "") && negb (existsChar (λ d, negb (isDigit d)) digits)
        then Some turnId else None
    | (_, Some EmptyString) => None
    end
  else None.

Definition reportsSettled (row : DispatchRow) : bool :=
  bool_decide (d_kind row = Agent) &&
  bool_decide (is_Some (parseDeviceAgentDispatchKey (q_idempotency_key (d_submit row)))).

(** ** Admission slots *)

Definition release (turnId : string) (g : gate) : gate := withRunning (delete turnId (running g)) g.

Definition releaseGate (row : DispatchRow) (g : gate) : gate :=
  if negb (d_gate_held row) then g
  else
    let turnId := match handoffs g !! d_id row with Some h => handoffTurn h | None => d_id row end in
    writeColumn (d_id row) (setGate false) (release turnId g).

(** A call that returned, or one that suspended. *)
Definition outcome : Type := gate * option Await.

(** [patchDispatch] with its report; the caller's next write waits for the report. *)
Definition patchDispatch (row : DispatchRow) (patch : DispatchRow → DispatchRow) (now : Z)
    (notify : bool) (g : gate) : gate * DispatchRow * bool :=
  let g := writePatch (d_id row) patch now g in
  let next := default row (dispatchRow (d_id row) g) in
  let g := if notify then notifyExecutor next g else g in
  if negb (isTerminalDispatchState (d_state row)) && isTerminalDispatchState (d_state next) &&
     reportsSettled next
  then (output (ReportSettled (d_id next) (d_state next)) g, next, true)
  else (g, next, false).

(** [const next = await patchDispatch(...); await releaseGate(next);]. *)
Definition terminate (row : DispatchRow) (patch : DispatchRow → DispatchRow) (now : Z)
    (notify : bool) (g : gate) : outcome :=
  let '(g, next, reporting) := patchDispatch row patch now notify g in
  if reporting then (g, Some (AwaitSettle next)) else (releaseGate next g, None).

(** ** Offers *)

Definition openOffers (id : string) (g : gate) : list (string * OfferRow) :=
  omap (λ ko, if bool_decide (ko.1.1 = id) && bool_decide (of_status ko.2 = OpenOffer)
              then Some (ko.1.2, ko.2) else None) (map_to_list (offers g)).

Definition setOfferStatus (id device : string) (status : OfferStatus) (g : gate) : gate :=
  withOffers (alter (λ o, {| of_session := of_session o; of_status := status;
                             of_expires_at := of_expires_at o |}) (id, device) (offers g)) g.

Definition withdrawOffers (id : string) (keepDeviceId : option string) (reason : string) (g : gate) : gate :=
  foldl (λ g offer,
           if bool_decide (keepDeviceId = Some offer.1) then g
           else send offer.1 (WithdrawnFrame id reason) (setOfferStatus id offer.1 WithdrawnOffer g))
    g (openOffers id g).

Definition openOffer (id : string) (device : DevicePresenceState) (expiresAt : Z) (g : gate) : gate :=
  withOffers (<[(id, pr_deviceId device) := {| of_session := pr_presenceSessionId device;
                                               of_status := OpenOffer; of_expires_at := expiresAt |}]>
                (offers g)) g.

Definition pushOffer (row : DispatchRow) (device : string) (expiresAt : Z) (g : gate) : gate :=
  send device (OfferFrame (d_id row) (d_payload row) expiresAt) g.
