(* ===== verification/OwnerGateDispatch.v ===== *)
(** * Placing a dispatch

    The handlers of [workers/cloud-builder/src/owner-gate/dispatch.ts] and
    [cloud-dispatch.ts], and [admit], [submit], [recordCloudDispatchTerminal],
    [dispatchStatus] and [cancelDispatch] of [owner-gate.ts].

    The object runs one event at a time up to its next suspension: a call to the fence, the
    conversation, a build session or the thread ledger.  The owner's snapshot is read from
    this object's own tables, so reading it does not suspend.  An event is one such stretch;
    what it left suspended is in [tasks]. *)

From Corelib Require Import ssreflect.
From stdpp Require Import prelude gmap strings sorting pretty.
From S2P Require Import Prelude JsString Json DispatchPolicy DispatchRows.

#[local] Open Scope Z_scope.

(** ** What an event reads from outside the tables *)

Inductive DeviceRemoteExecution := Unconfigured | Asking | Enabled | Declined.
#[export] Instance DeviceRemoteExecution_eq : EqDecision DeviceRemoteExecution.
Proof. solve_decision. Defined.

Definition remoteExecutionName (s : DeviceRemoteExecution) : string :=
  match s with
  | Unconfigured => "unconfigured" | Asking => "asking" | Enabled => "enabled" | Declined => "declined"
  end.

Record SnapshotDevice := { sd_device : DeviceRegistration; sd_remoteExecution : option DeviceRemoteExecution }.

(** [s_pairings] are mobile and desktop device ids, [s_engine] the engine of the default
    execution. *)
Record OwnerSnapshot := {
  s_ownerGeneration : string;
  s_writable : bool;
  s_suspended : bool;
  s_cloudSandbox : bool;
  s_devices : list SnapshotDevice;
  s_pairings : list (string * string);
  s_engine : json;
}.

(** [e_ids] are the random ids a stretch draws, one per dispatch; [e_retires] says whether the
    fence would answer a retirement. *)
Record Env := { e_snapshot : OwnerSnapshot; e_ids : string → string; e_retires : bool }.

Section gate.
Context (sha256Hex : string → string) (turnTimeoutMs : Z).

(** ** Admission *)

Definition prune (now : Z) (g : gate) : gate :=
  withRunning (filter (λ kv, ¬ kv.2 < now - (turnTimeoutMs + OWNER_GATE_RUNNING_GRACE_MS)) (running g)) g.

(** The checks [admit] and [submitSnapshot] share; [None] when they pass. *)
Definition ownerRefusal (expectedGeneration : option string) (snapshot : OwnerSnapshot) : option string :=
  if match expectedGeneration with
     | Some e => negb (String.eqb e "") && negb (String.eqb e (s_ownerGeneration snapshot))
     | None => false
     end then Some "generation_stale"%string
  else if s_suspended snapshot then Some "owner_suspended"%string
  else if negb (s_writable snapshot) then Some "owner_purged"%string
  else None.

(** [admit] with [deferCloudSandboxCheck] or on the chat lane. *)
Definition admitTurn (turnId : string) (expectedGeneration : option string) (snapshot : OwnerSnapshot)
    (now : Z) (g : gate) : string + gate :=
  if String.eqb (trim turnId) "" then inl "internal"%string
  else
    match ownerRefusal expectedGeneration snapshot with
    | Some code => inl code
    | None =>
        let g := prune now g in
        match running g !! trim turnId with
        | Some _ => inr g
        | None => inr (withRunning (<[trim turnId := now]> (running g)) g)
        end
    end.

(** [TURN_START_ERROR_STATUS] of the codes an admission refuses with. *)
Definition turnStartStatus (code : string) : Z :=
  if String.eqb code "owner_purged" then 410 else if String.eqb code "internal" then 503 else 403.

(** ** The cloud branch *)

(** A patch whose state is not terminal: nothing is reported. *)
Definition advance (row : DispatchRow) (patch : DispatchRow → DispatchRow) (now : Z) (notify : bool)
    (g : gate) : gate :=
  let '(g, _, _) := patchDispatch row patch now notify g in g.

Definition cloudRefusal (row : DispatchRow) (status : Z) (code : string) (now : Z) (g : gate) : outcome :=
  if (status =? 503) && (d_cloud_attempts row <? DISPATCH_CLOUD_MAX_ATTEMPTS) then
    (advance row (λ r, setRetry (Some (now + DISPATCH_CLOUD_RETRY_DELAY_MS))
                      (setLease (Some (now + DISPATCH_ACCEPTED_LEASE_MS)) (setError (Some code) r)))
       now false g, None)
  else
    terminate row (λ r, setState Failed (setPayload None None (setLease None (setError (Some code) r))))
      now true g.

(** [retireCloudChatHandoff], which throws when the fence does not answer. *)
Definition retireHandoff (id turnId : string) (g : gate) : gate :=
  withHandoffs (<[id := Retired turnId]> (handoffs g)) g.

(** The registered identity goes to the conversation, unless the dispatch moved on. *)
Definition handToConversation (env : Env) (row : DispatchRow) (now : Z) (turnId : string) (g : gate)
    : outcome :=
  let current := default row (dispatchRow (d_id row) g) in
  if negb (bool_decide (d_state current = CloudCommitted)) then
    if e_retires env then
      let g := retireHandoff (d_id row) turnId g in
      (releaseGate (default row (dispatchRow (d_id row) g)) g, None)
    else (g, None)
  else
    let g := writeColumn (d_id row) (setCloudTurn (Some turnId)) g in
    (output (StartChat (d_id row) (Some turnId)) g, Some (AwaitChat row now (Some turnId))).

Definition startCloudChat (env : Env) (row : DispatchRow) (now : Z) (g : gate) : outcome :=
  let id := d_id row in
  let g := match handoffs g !! id with
           | None => if d_cloud_attempts row =? 1
                     then withHandoffs (<[id := Allocating (e_ids env id)]> (handoffs g)) g else g
           | Some _ => g
           end in
  match handoffs g !! id with
  | Some (Retired _) => cloudRefusal row 410 "owner_purged" now g
  | Some (Allocating turnId) =>
      match admitTurn turnId (Some (q_owner_generation (d_submit row))) (e_snapshot env) now g with
      | inl code => cloudRefusal row (turnStartStatus code) code now g
      | inr g => (g, Some (AwaitLease row now turnId))
      end
  | Some (Registered turnId) => handToConversation env row now turnId g
  | None => (output (StartChat id None) g, Some (AwaitChat row now None))
  end.

Definition runsAsPiAgent (engine : json) : bool :=
  match engine with JStr e => String.eqb e "stella" || String.eqb e "chatgpt" | _ => false end.

Definition startCloudAgent (env : Env) (row : DispatchRow) (payload : DispatchPayload) (now : Z) (g : gate)
    : outcome :=
  let id := d_id row in
  let threadId := "thr-" +:+ String.substring 0 18 (e_ids env id) in
  let engine := match p_execution payload with Some x => x_engine x | None => s_engine (e_snapshot env) end in
  if runsAsPiAgent engine then (output (StartPi id threadId) g, Some (AwaitPi row now threadId))
  else (output (StartAgent id threadId) g, Some (AwaitAgent row now threadId)).

Definition runCloudBranch (env : Env) (row : DispatchRow) (now : Z) (g : gate) : outcome :=
  if negb (bool_decide (d_state row = CloudCommitted)) then (g, None)
  else if negb (bool_decide (cloudUnsupportedCapabilities (q_required (d_submit row)) = [])) then
    terminate row (λ r, setState Failed (setPayload None None (setLease None
                         (setError (Some "CLOUD_CAPABILITY_UNAVAILABLE"%string) r)))) now true g
  else
    match d_payload row with
    | None =>
        terminate row (λ r, setState Failed (setLease None
                             (setError (Some "CLOUD_PAYLOAD_UNAVAILABLE"%string) r))) now true g
    | Some payload =>
        let g := writeColumn (d_id row)
                   (λ r, setRetry None (setAttempts (d_cloud_attempts r + 1) r)) g in
        let attempting := default row (dispatchRow (d_id row) g) in
        match d_kind row with
        | Chat => startCloudChat env attempting now g
        | Agent => startCloudAgent env attempting payload now g
        end
    end.

(** ** Answers from outside *)

(** An answer: the call returned (with the ids it reports), was refused, or threw. *)
Inductive Answer :=
  | Returned (turnId : string) (threadId : option string)
  | Refused (status : Z) (code : string)
  | Threw.

Definition toCloudRunning (turnId : string) (threadId : option string) (now : Z) (r : DispatchRow)
    : DispatchRow :=
  let r := match threadId with Some t => setCloudThread (Some t) r | None => r end in
  setState CloudRunning (setPlacement (Some InCloud) (setCloudTurn (Some turnId) (setRetry None
    (setError None (setPayload None None (setLease None (setStarted (Some now) r))))))).

(** The rest of a suspended start, up to its next suspension. *)
Definition resumeAwait (env : Env) (a : Await) (answer : Answer) (g : gate) : outcome :=
  match a with
  | AwaitLease row now turnId =>
      match answer with
      | Threw => (g, None)
      | Refused _ _ =>
          cloudRefusal (setGate true row) 410 "owner_purged" now
            (writeColumn (d_id row) (setGate true) g)
      | Returned _ _ =>
          (writeColumn (d_id row) (setGate true) g, Some (AwaitPreparation (setGate true row) now turnId))
      end
  | AwaitPreparation row now turnId =>
      match answer with
      | Returned _ _ =>
          match handoffs g !! d_id row with
          | Some (Retired _) => cloudRefusal row 410 "owner_purged" now (release turnId g)
          | _ =>
              handToConversation env row now turnId
                (withHandoffs (<[d_id row := Registered turnId]> (handoffs g)) g)
          end
      | _ => (g, None)
      end
  | AwaitChat row now turnId =>
      match answer with
      | Threw => (g, None)
      | Refused status code =>
          match turnId with
          | Some t =>
              if (400 <=? status) && (status <? 500) then
                if e_retires env then cloudRefusal row status code now (retireHandoff (d_id row) t g)
                else (g, None)
              else cloudRefusal row status code now g
          | None => cloudRefusal row status code now g
          end
      | Returned started _ =>
          if match turnId with Some t => negb (String.eqb started t) | None => false end then (g, None)
          else
            match dispatchRow (d_id row) g with
            | Some current =>
                if negb (bool_decide (d_state current = CloudCommitted)) then (g, None)
                else (advance row (toCloudRunning started None now) now true g, None)
            | None => (g, None)
            end
      end
  | AwaitAgent row now threadId =>
      match answer with
      | Threw => (g, None)
      | Refused status code => cloudRefusal row status code now g
      | Returned started thread =>
          (advance row (toCloudRunning started (Some (default threadId thread)) now) now true g, None)
      end
  | AwaitPi row now threadId =>
      match answer with
      | Returned _ _ =>
          (advance row (toCloudRunning (d_id row) (Some threadId) now) now true (releaseGate row g), None)
      | _ => (g, None)
      end
  | AwaitSettle row => (releaseGate row g, None)
  end.

(** ** Placement without an acceptance *)

Definition findDevice (deviceId : string) (snapshot : OwnerSnapshot) : option SnapshotDevice :=
  List.find (λ d, String.eqb (dr_deviceId (sd_device d)) deviceId) (s_devices snapshot).

(** The stored consent for a device id, defaulted for rows older than consent. *)
Definition deviceRemoteExecution (deviceId : option string) (snapshot : OwnerSnapshot)
    : option DeviceRemoteExecution :=
  match deviceId with
  | None => None
  | Some id =>
      match findDevice id snapshot with
      | None => None
      | Some d =>
          Some (default (if dr_remoteExecutionEnabled (sd_device d) then Enabled else Unconfigured)
                  (sd_remoteExecution d))
      end
  end.

(** The fallback reason and the error code when the selected device is away or not ready. *)
Definition deviceUnreachable (deviceId : option string) (now : Z) (g : gate) : option (string * string) :=
  match deviceId ≫= λ d, presence g !! d with
  | Some p =>
      if negb (pr_connected p) || (pr_lastSeenAt p + DEVICE_PRESENCE_STALE_AFTER_MS <=? now)
      then Some ("selected-device-offline", "SELECTED_DEVICE_OFFLINE")%string
      else if negb (pr_ready p)
      then Some ("selected-device-unavailable", "SELECTED_DEVICE_UNAVAILABLE")%string
      else None
  | None => Some ("selected-device-offline", "SELECTED_DEVICE_OFFLINE")%string
  end.

(** Consent comes first. *)
Definition selectedDeviceRefusal (deviceId : option string) (remote : option DeviceRemoteExecution)
    (now : Z) (g : gate) : option (string * string) :=
  match remote with
  | Some r =>
      if bool_decide (r = Enabled) then deviceUnreachable deviceId now g
      else Some ("selected-device-" +:+ remoteExecutionName r, "SELECTED_DEVICE_NEEDS_CONSENT"%string)
  | None => deviceUnreachable deviceId now g
  end.

(** Why no computer took the work: the reason and the error code. *)
Definition blockedReason (explicitDevice : bool) (refusal : option (string * string)) : string * string :=
  match refusal with
  | Some r => r
  | None =>
      if explicitDevice then ("selected-device-unavailable", "SELECTED_DEVICE_UNAVAILABLE")%string
      else ("no-eligible-paired-computer", "COMPUTER_REQUIRED_UNAVAILABLE")%string
  end.

(** The columns every way out of an offer clears. *)
Definition leaveOffer (r : DispatchRow) : DispatchRow := setExecutor None None (setOfferDeadline None r).

Definition toBlocked (reason code : string) (r : DispatchRow) : DispatchRow :=
  setState Blocked (leaveOffer (setLease None (setPayload None None
    (setFallback (Some reason) (setError (Some code) r))))).

Definition toCloudCommitted (now : Z) (reason : string) (r : DispatchRow) : DispatchRow :=
  setState CloudCommitted (setPlacement (Some InCloud) (leaveOffer
    (setLease (Some (now + DISPATCH_ACCEPTED_LEASE_MS)) (setFallback (Some reason) r)))).

(** The one local-to-cloud transition.  [row] is what the caller read. *)
Definition resolveUnaccepted (env : Env) (row : DispatchRow) (now : Z) (fallbackReason : string) (g : gate)
    : outcome :=
  if negb (mayFallbackToCloud (d_state row)) then (g, None)
  else
    let g := withdrawOffers (d_id row) None fallbackReason g in
    let toCloud := bool_decide (q_fallback (d_submit row) = Some InCloud) in
    if toCloud && bool_decide (d_kind row = Agent) && negb (s_cloudSandbox (e_snapshot env)) then
      terminate row (toBlocked "subscription-required" "SUBSCRIPTION_REQUIRED") now true g
    else if toCloud then
      let g := advance row (toCloudCommitted now fallbackReason) now true g in
      runCloudBranch env (default row (dispatchRow (d_id row) g)) now g
    else
      let explicitDevice := bool_decide (q_target_mode (d_submit row) = DeviceTarget) in
      let refusal :=
        if explicitDevice
        then selectedDeviceRefusal (q_target_device (d_submit row))
               (deviceRemoteExecution (q_target_device (d_submit row)) (e_snapshot env)) now g
        else None in
      let '(reason, code) := blockedReason explicitDevice refusal in
      terminate row (toBlocked reason code) now true g.

(** ** Eligibility of the devices an offer may reach *)

(** The loop of [eligibleDevices], which stops at the cap. *)
Fixpoint eligibleLoop (registrations : list SnapshotDevice) (required : list ExecutionCapability) (now : Z)
    (g : gate) (found : list DevicePresenceState) (deviceIds : list string) : list DevicePresenceState :=
  match deviceIds with
  | [] => found
  | deviceId :: rest =>
      (* the last registration of an id wins, as in the [Map] *)
      let device := sd_device <$> List.find (λ d, String.eqb (dr_deviceId (sd_device d)) deviceId)
                                    (reverse registrations) in
      let found :=
        match presence g !! deviceId with
        | Some p => if isEligibleDevice (Some p) device required now DEVICE_PRESENCE_STALE_AFTER_MS
                    then found ++ [p] else found
        | None => found
        end in
      if (MAX_OFFERS_PER_DISPATCH <=? length found)%nat then found
      else eligibleLoop registrations required now g found rest
  end.

Definition eligibleDevices (snapshot : OwnerSnapshot) (deviceIds : list string)
    (required : list ExecutionCapability) (now : Z) (g : gate) : list DevicePresenceState :=
  eligibleLoop (s_devices snapshot) required now g [] deviceIds.

Definition offerCandidateIds (ingress : ExecutionIngress) (requesting pairGrant : option string)
    (targetMode : ExecutionTargetMode) (targetDevice : option string) (snapshot : OwnerSnapshot)
    : list string :=
  match ingress, requesting with
  | Mobile, Some mobile =>
      uniqueFirst (omap (λ pairing,
        if String.eqb pairing.1 mobile &&
           match pairGrant with Some d => String.eqb pairing.2 d | None => true end
        then Some pairing.2 else None) (s_pairings snapshot))
  | Mobile, None => []
  | _, _ =>
      match targetMode, targetDevice with
      | DeviceTarget, Some device => [device]
      | _, _ => []
      end
  end.

(** ** Continuing what waited *)

(** One row of an alarm's list, as the list read it. *)
Definition expireRow (env : Env) (now : Z) (row : DispatchRow) (g : gate) : outcome :=
  let lapsed (deadline : option Z) := match deadline with Some d => d <=? now | None => false end in
  if bool_decide (d_state row = Offering) && lapsed (d_offer_deadline_at row) then
    resolveUnaccepted env row now "computer-offer-expired-unaccepted" g
  else if bool_decide (d_state row = CloudCommitted) && lapsed (d_cloud_retry_at row) then
    runCloudBranch env row now g
  else if bool_decide (d_state row = ComputerClaimed) && lapsed (d_lease_expires_at row) then
    resolveUnaccepted env row now "computer-claim-expired" g
  else if lapsed (d_lease_expires_at row) &&
          bool_decide (d_state row ∈ [ComputerAccepted; ComputerRunning; CloudCommitted; CancelPending]) then
    (advance row (λ r, setState ReconciliationRequired (setLease None
       (setFallback (Some (stateName (d_state row) +:+ "-lease-expired")) r))) now false g, None)
  else if bool_decide (is_Some (d_payload row)) then
    (writeColumn (d_id row) (setPayload None None) g, None)
  else (g, None).

Definition suspend (a : Await) (rest : option (Z * list DispatchRow)) (g : gate) : gate :=
  withTasks (tasks g ++ [{| t_await := a; t_rest := rest |}]) g.

(** The alarm's loop: a row whose handler suspends leaves the rest for later. *)
Fixpoint expireRows (env : Env) (now : Z) (rows : list DispatchRow) (g : gate) : gate :=
  match rows with
  | [] => g
  | row :: rest =>
      match expireRow env now row g with
      | (g, None) => expireRows env now rest g
      | (g, Some a) => suspend a (Some (now, rest)) g
      end
  end.

Definition finish (env : Env) (rest : option (Z * list DispatchRow)) (o : outcome) : gate :=
  match o with
  | (g, Some a) => suspend a rest g
  | (g, None) =>
      match rest with
      | Some (now, rows) => expireRows env now rows g
      | None => g
      end
  end.

(** The rows [expireDispatches] selects. *)
Definition isExpired (now : Z) (row : DispatchRow) : bool :=
  let lapsed (deadline : option Z) := match deadline with Some d => d <=? now | None => false end in
  (bool_decide (d_state row = Offering) && lapsed (d_offer_deadline_at row)) ||
  (bool_decide (d_state row = CloudCommitted) && lapsed (d_cloud_retry_at row)) ||
  (bool_decide (d_state row ∈ [ComputerClaimed; ComputerAccepted; ComputerRunning; CloudCommitted; CancelPending])
     && lapsed (d_lease_expires_at row)) ||
  (bool_decide (is_Some (d_payload row)) && lapsed (d_payload_expires_at row)).

Definition olderUpdate (r r' : DispatchRow) : Prop := d_updated_at r ≤ d_updated_at r'.

#[local] Instance olderUpdate_dec : RelDecision olderUpdate.
Proof. intros r r'. unfold olderUpdate. apply _. Defined.

Definition expireDispatches (env : Env) (now : Z) (g : gate) : gate :=
  expireRows env now
    (take 64 (merge_sort olderUpdate (filter (λ r, isExpired now r = true) (map_to_list (dispatches g)).*2))) g.

(** ** Executor frames *)

(** The frames of a proven device about a dispatch; a completion's outcome is text. *)
Inductive DeviceFrame :=
  | ClaimFrame (claimRequestId : string)
  | ReleaseFrame (reason : string)
  | AckFrame
  | RunningFrame
  | RenewFrame
  | CompleteFrame (outcome : string) (result errorCode : option string)
  | SteerAckFrame.

(** The socket a frame came in on. *)
Record Attachment := { a_deviceId : string; a_presenceSessionId : string }.

Definition owns (row : DispatchRow) (a : Attachment) : bool :=
  bool_decide (d_executor row = Some (a_deviceId a)) &&
  bool_decide (d_session row = Some (a_presenceSessionId a)).

Definition deny (a : Attachment) (code : string) (g : gate) : outcome :=
  (reply (a_deviceId a) (ErrorFrame code) g, None).

Definition handleClaim (env : Env) (a : Attachment) (row : DispatchRow) (claimRequestId : string)
    (now : Z) (g : gate) : outcome :=
  if String.eqb (trim claimRequestId) "" then
    (reply (a_deviceId a) (CloseFrame "bad_request") g, None)
  else if bool_decide (d_state row = ComputerClaimed) && owns row a &&
          bool_decide (d_cancel_request_id row = None) then
    (reply (a_deviceId a) (ClaimedFrame (d_id row) (default now (d_lease_expires_at row)) true) g, None)
  else if negb (bool_decide (d_state row = Offering)) ||
          match d_offer_deadline_at row with Some d => d <=? now | None => true end then
    deny a "conflict" g
  else if negb (existsb (λ offer, String.eqb offer.1 (a_deviceId a) &&
                                  String.eqb (of_session offer.2) (a_presenceSessionId a))
                  (openOffers (d_id row) g)) then
    deny a "forbidden" g
  else
    match eligibleDevices (e_snapshot env) [a_deviceId a] (q_required (d_submit row)) now g with
    | [] => deny a "conflict" g
    | _ =>
        let g := setOfferStatus (d_id row) (a_deviceId a) ClaimedOffer g in
        let g := withdrawOffers (d_id row) (Some (a_deviceId a)) "claimed" g in
        let g := advance row (λ r, setState ComputerClaimed
                   (setExecutor (Some (a_deviceId a)) (Some (a_presenceSessionId a))
                     (setLease (Some (now + DISPATCH_CLAIM_LEASE_MS)) r))) now false g in
        (reply (a_deviceId a) (ClaimedFrame (d_id row) (now + DISPATCH_CLAIM_LEASE_MS) false) g, None)
    end.

(** [frame.outcome] as a terminal state. *)
Definition completionOutcome (outcome : string) : option DispatchState :=
  if String.eqb outcome "completed" then Some Completed
  else if String.eqb outcome "failed" then Some Failed
  else if String.eqb outcome "canceled" then Some Canceled
  else None.

(** [if (frame.errorCode) ... slice(0, 128)]. *)
Definition setErrorCode (code : option string) (r : DispatchRow) : DispatchRow :=
  match code with
  | Some c => if String.eqb c "" then r else setError (Some (String.substring 0 128 c)) r
  | None => r
  end.

Definition handleOwnedFrame (env : Env) (a : Attachment) (row : DispatchRow) (frame : DeviceFrame) (now : Z)
    (g : gate) : outcome :=
  match frame with
  | ReleaseFrame reason =>
      if negb (bool_decide (d_state row = ComputerClaimed)) then deny a "conflict" g
      else
        let g := advance row (λ r, setState Offering (setExecutor None None (setLease None r))) now false g in
        let released := default row (dispatchRow (d_id row) g) in
        let g := setOfferStatus (d_id row) (a_deviceId a) WithdrawnOffer g in
        resolveUnaccepted env released now
          ("computer-claim-released:" +:+ String.substring 0 160 reason) g
  | AckFrame =>
      if bool_decide (d_state row ∈ [ComputerAccepted; ComputerRunning; ReconciliationRequired]) then (g, None)
      else if negb (bool_decide (d_state row = ComputerClaimed)) ||
              match d_lease_expires_at row with Some l => l <=? now | None => true end then
        deny a "conflict" g
      else
        (advance row (λ r, setState ComputerAccepted (setPlacement (Some OnComputer)
           (setPayload None None (setLease (Some (now + DISPATCH_ACCEPTED_LEASE_MS)) r)))) now true g, None)
  | RunningFrame =>
      if negb (bool_decide (d_state row ∈ [ComputerAccepted; ComputerRunning; ReconciliationRequired]))
      then deny a "conflict" g
      else
        (advance row (λ r, setState ComputerRunning (setStarted (Some (default now (d_started_at row)))
           (setLease (Some (now + DISPATCH_ACCEPTED_LEASE_MS)) r))) now true g, None)
  | RenewFrame =>
      if negb (bool_decide (d_state row ∈ [ComputerAccepted; ComputerRunning; CancelPending;
                                           ReconciliationRequired])) then deny a "conflict" g
      else
        let state :=
          if bool_decide (d_state row = ReconciliationRequired)
          then if match d_started_at row with Some t => negb (t =? 0) | None => false end
               then ComputerRunning else ComputerAccepted
          else d_state row in
        (advance row (λ r, setState state (setLease (Some (now + DISPATCH_ACCEPTED_LEASE_MS)) r)) now true g, None)
  | CompleteFrame outcome result errorCode =>
      match completionOutcome outcome with
      | None => deny a "bad_request" g
      | Some outcome =>
          if isTerminalDispatchState (d_state row) then (notifyExecutor row g, None)
          else if negb (bool_decide (d_state row ∈ [ComputerAccepted; ComputerRunning; CancelPending;
                                                    ReconciliationRequired])) then deny a "conflict" g
          else
            terminate row (λ r, setErrorCode errorCode (setState outcome (setResult result
              (setPayload None None (setLease None r))))) now true g
      end
  | ClaimFrame _ | SteerAckFrame => (g, None)
  end.

Definition handleExecutorFrame (env : Env) (a : Attachment) (dispatchId : string) (frame : DeviceFrame)
    (now : Z) (g : gate) : outcome :=
  if String.eqb (trim dispatchId) "" then (reply (a_deviceId a) (CloseFrame "bad_request") g, None)
  else
    match dispatchRow (trim dispatchId) g with
    | None => deny a "not_found" g
    | Some row =>
        match frame with
        | SteerAckFrame => (g, None)
        | ClaimFrame claimRequestId => handleClaim env a row claimRequestId now g
        | _ => if owns row a then handleOwnedFrame env a row frame now g else deny a "forbidden" g
        end
    end.

(** ** Submit *)

(** Every routing fact a replay must match. *)
Definition routingFingerprint (request : DispatchSubmitRequest) (pairGrant : option string)
    (payloadHash : string) : string :=
  stringify (JArr
    [JStr (kindName (r_kind request)); JStr (ingressName (r_ingress request));
     JStr (subjectName (r_subject request)); JStr (targetModeName (default Automatic (r_targetMode request)));
     JStr (default "" (r_targetDeviceId request)); JStr (r_conversationId request);
     JStr (default "" (r_parentTurnId request)); JStr (default "" (r_threadId request));
     JStr (default "" (r_requestingDeviceId request)); JStr (default "" pairGrant);
     JArr (JStr ∘ capabilityName <$> r_requiredCapabilities request); JStr payloadHash]).

(** [SELECT * FROM dispatches WHERE idempotency_key = ?]. *)
Definition byIdempotencyKey (key : string) (g : gate) : option DispatchRow :=
  head (filter (λ r, q_idempotency_key (d_submit r) = key) (map_to_list (dispatches g)).*2).

(** The answer to a submit: an error code, or the dispatch and whether it was replayed. *)
Definition SubmitResult : Type := string + string * bool.

(** Where a dispatch starts: its state, placement, executor, fallback policy, reason, error
    and deadlines. *)
Record Route := {
  t_state : DispatchState;
  t_placement : option Placement;
  t_executor : option string;
  t_session : option string;
  t_fallback : option Placement;
  t_reason : string;
  t_error : option string;
  t_offerDeadline : option Z;
  t_lease : option Z;
}.

Definition cloudRoute (fallback : option Placement) (reason : string) (now : Z) : Route :=
  {| t_state := CloudCommitted; t_placement := Some InCloud; t_executor := None; t_session := None;
     t_fallback := fallback; t_reason := reason; t_error := None; t_offerDeadline := None;
     t_lease := Some (now + DISPATCH_ACCEPTED_LEASE_MS) |}.

Definition blockedRoute (reason code : string) : Route :=
  {| t_state := Blocked; t_placement := None; t_executor := None; t_session := None; t_fallback := None;
     t_reason := reason; t_error := Some code; t_offerDeadline := None; t_lease := None |}.

Definition routeFor (request : DispatchSubmitRequest) (decision : DispatchPolicyDecision)
    (candidates : list DevicePresenceState) (targetConsent : option DeviceRemoteExecution) (now : Z)
    (g : gate) : Route :=
  let subjectFallback := if bool_decide (r_subject request = ComputerSubject) then None else Some InCloud in
  match decision with
  | Commit InCloud reason => cloudRoute subjectFallback reason now
  | Commit OnComputer reason =>
      {| t_state := ComputerAccepted; t_placement := Some OnComputer;
         t_executor := r_requestingDeviceId request;
         t_session := (r_requestingDeviceId request ≫= λ d, presence g !! d) ≫= λ p, Some (pr_presenceSessionId p);
         t_fallback := subjectFallback; t_reason := reason; t_error := None; t_offerDeadline := None;
         t_lease := Some (now + DISPATCH_ACCEPTED_LEASE_MS) |}
  | Refuse reason => blockedRoute reason "COMPUTER_REQUIRED_UNAVAILABLE"
  | Offer fallback reason =>
      match candidates with
      | _ :: _ =>
          {| t_state := Offering; t_placement := None; t_executor := None; t_session := None;
             t_fallback := fallback; t_reason := reason; t_error := None;
             t_offerDeadline := Some (now + DISPATCH_OFFER_WINDOW_MS); t_lease := None |}
      | [] =>
          match fallback with
          | Some InCloud => cloudRoute fallback "no-eligible-paired-computer" now
          | _ =>
              let explicitDevice := bool_decide (default Automatic (r_targetMode request) = DeviceTarget) in
              let refusal := if explicitDevice
                             then selectedDeviceRefusal (r_targetDeviceId request) targetConsent now g
                             else None in
              let '(reason, code) := blockedReason explicitDevice refusal in
              blockedRoute reason code
          end
      end
  end.

Definition insertedRow (id : string) (request : DispatchSubmitRequest) (pairGrant : option string)
    (fingerprint : string) (snapshot : OwnerSnapshot) (route : Route) (gateHeld : bool) (now : Z)
    : DispatchRow :=
  let terminal := bool_decide (t_state route = Blocked) in
  let keepsPayload := negb terminal && negb (bool_decide (t_state route = ComputerAccepted)) in
  {| d_submit :=
       {| q_id := id; q_idempotency_key := r_idempotencyKey request;
          q_owner_generation := s_ownerGeneration snapshot; q_kind := r_kind request;
          q_ingress := r_ingress request; q_target_mode := default Automatic (r_targetMode request);
          q_target_device := r_targetDeviceId request; q_conversation_id := r_conversationId request;
          q_requesting_device := r_requestingDeviceId request; q_pair_grant_device := pairGrant;
          q_required := r_requiredCapabilities request; q_fingerprint := fingerprint;
          q_fallback := t_fallback route; q_created_at := now |};
     d_state := t_state route; d_placement := t_placement route; d_executor := t_executor route;
     d_session := t_session route; d_revision := 1; d_fallback_reason := Some (t_reason route);
     d_cancel_request_id := None; d_error_code := t_error route; d_result := None;
     d_cloud_turn_id := None; d_cloud_thread_id := None;
     d_payload := if keepsPayload then Some (r_payload request) else None;
     d_payload_expires_at := if keepsPayload then Some (now + DISPATCH_PAYLOAD_TTL_MS) else None;
     d_offer_deadline_at := t_offerDeadline route; d_lease_expires_at := t_lease route;
     d_started_at := None; d_cloud_attempts := 0; d_cloud_retry_at := None;
     d_gate_held := gateHeld && negb terminal; d_updated_at := now |}.

(** [submit] from the routing on: the refusals that need the decision, the [INSERT], and what
    follows it. *)
Definition place (env : Env) (id : string) (request : DispatchSubmitRequest) (pairGrant : option string)
    (fingerprint : string) (gateHeld : bool) (now : Z) (g : gate) : gate * SubmitResult :=
  let snapshot := e_snapshot env in
  let refuse code := (if gateHeld then release id g else g, inl code) in
  let targetMode := default Automatic (r_targetMode request) in
  let decision := decideDispatchPlacement (r_ingress request) (r_subject request) (Some targetMode) in
  let requesting := r_requestingDeviceId request in
  let isOffer := match decision with Offer _ _ => true | _ => false end in
  let isMobile := bool_decide (r_ingress request = Mobile) in
  if isOffer && isMobile && negb (Bool.eqb (bool_decide (is_Some requesting)) (bool_decide (is_Some pairGrant)))
  then refuse "bad_request"%string
  else if isOffer && isMobile && bool_decide (targetMode = DeviceTarget) &&
          negb (bool_decide (r_targetDeviceId request = pairGrant))
  then refuse "forbidden"%string
  else
    let candidates :=
      if isOffer
      then eligibleDevices snapshot
             (offerCandidateIds (r_ingress request) requesting pairGrant targetMode
                (r_targetDeviceId request) snapshot) (r_requiredCapabilities request) now g
      else [] in
    let targetConsent := if bool_decide (targetMode = DeviceTarget)
                         then deviceRemoteExecution (r_targetDeviceId request) snapshot else None in
    if match decision with Commit OnComputer _ => negb (bool_decide (is_Some requesting)) | _ => false end
    then refuse "bad_request"%string
    else
      let route := routeFor request decision candidates targetConsent now g in
      if bool_decide (r_kind request = Agent) && bool_decide (t_state route = CloudCommitted) &&
         negb (s_cloudSandbox snapshot)
      then refuse "subscription_required"%string
      else
        let row := insertedRow id request pairGrant fingerprint snapshot route gateHeld now in
        let g := withDispatches (<[id := row]> (dispatches g)) g in
        let result := inr (id, false) in
        match t_state route with
        | Blocked => (if gateHeld then release id g else g, result)
        | ComputerAccepted => (notifyExecutor row g, result)
        | Offering =>
            let deadline := now + DISPATCH_OFFER_WINDOW_MS in
            (foldl (λ g candidate, pushOffer row (pr_deviceId candidate) deadline
                                     (openOffer id candidate deadline g)) g candidates, result)
        | _ => (finish env None (runCloudBranch env row now g), result)
        end.

(** [value?.trim() || undefined]. *)
Definition present (x : option string) : option string :=
  match x with Some s => if String.eqb (trim s) "" then None else Some (trim s) | None => None end.

Definition withRequestingDevice (x : option string) (r : DispatchSubmitRequest) : DispatchSubmitRequest :=
  {| r_idempotencyKey := r_idempotencyKey r; r_kind := r_kind r; r_ingress := r_ingress r;
     r_subject := r_subject r; r_targetMode := r_targetMode r; r_targetDeviceId := r_targetDeviceId r;
     r_requestingDeviceId := x; r_conversationId := r_conversationId r; r_parentTurnId := r_parentTurnId r;
     r_threadId := r_threadId r; r_requiredCapabilities := r_requiredCapabilities r;
     r_payload := r_payload r |}.

(** [submit] of a parsed request.  [id] is the new dispatch's random id; an id already in the
    table is a primary key conflict, and the call throws. *)
Definition submit (env : Env) (id : string) (request : DispatchSubmitRequest)
    (expectedGeneration pairGrant : option string) (now : Z) (g : gate) : gate * SubmitResult :=
  let payloadJson := canonicalDispatchPayloadJson (r_payload request) in
  if MAX_DISPATCH_PAYLOAD_BYTES <? textBytes payloadJson then (g, inl "bad_request"%string)
  else
    let request := withRequestingDevice (present (r_requestingDeviceId request)) request in
    let pairGrant := present pairGrant in
    let fingerprint := routingFingerprint request pairGrant (sha256Hex (characters payloadJson)) in
    match byIdempotencyKey (r_idempotencyKey request) g with
    | Some existing =>
        if negb (String.eqb (q_fingerprint (d_submit existing)) fingerprint)
        then (g, inl "conflict"%string)
        else (g, inr (d_id existing, true))
    | None =>
        match dispatches g !! id with
        | Some _ => (g, inl "internal"%string)
        | None =>
            match r_kind request with
            | Agent =>
                match admitTurn id expectedGeneration (e_snapshot env) now g with
                | inl code => (g, inl code)
                | inr g => place env id request pairGrant fingerprint true now g
                end
            | Chat =>
                match ownerRefusal expectedGeneration (e_snapshot env) with
                | Some code => (g, inl code)
                | None => place env id request pairGrant fingerprint false now g
                end
            end
        end
    end.

(** ** Status, terminals, cancellation *)

(** [dispatchStatus]: a receipt settles a cloud dispatch that is not terminal. *)
Definition dispatchStatus (dispatchId : string) (now : Z) (g : gate) : outcome :=
  match dispatchRow (trim dispatchId) g with
  | None => (g, None)
  | Some row =>
      let receipt :=
        match d_placement row, d_cloud_turn_id row with
        | Some InCloud, Some turnId => terminals g !! (turnId, q_owner_generation (d_submit row))
        | _, _ => None
        end in
      match receipt with
      | Some receipt =>
          if isTerminalDispatchState (d_state row) then (g, None)
          else terminate row (λ r, setState (rc_outcome receipt)
                 (setPayload None None (setLease None r))) now true g
      | None => (g, None)
      end
  end.

(** [recordCloudDispatchTerminal]: the first receipt of a turn is kept. *)
Definition recordCloudDispatchTerminal (ownerGeneration turnId : string) (receipt : Receipt) (now : Z)
    (g : gate) : outcome :=
  let key := (turnId, ownerGeneration) in
  let g := match terminals g !! key with
           | Some _ => g
           | None => withTerminals (<[key := receipt]> (terminals g)) g
           end in
  match head (filter (λ r, d_cloud_turn_id r = Some turnId ∧ q_owner_generation (d_submit r) = ownerGeneration ∧
                           d_placement r = Some InCloud) (map_to_list (dispatches g)).*2) with
  | Some row => dispatchStatus (d_id row) now g
  | None => (g, None)
  end.

(** [cancelDispatch], with the error code or the state it answers. *)
Definition cancelDispatch (dispatchId cancelRequestId : string) (now : Z) (g : gate)
    : outcome * (string + DispatchState) :=
  let cancelRequestId := String.substring 0 128 (trim cancelRequestId) in
  match dispatchRow (trim dispatchId) g with
  | None => ((g, None), inl "not_found"%string)
  | Some row =>
      if String.eqb cancelRequestId "" then ((g, None), inl "bad_request"%string)
      else if match d_cancel_request_id row with
              | Some c => negb (String.eqb c "") && negb (String.eqb c cancelRequestId)
              | None => false
              end then ((g, None), inl "conflict"%string)
      else if isTerminalDispatchState (d_state row) then ((g, None), inr (d_state row))
      else
        let outright :=
          bool_decide (d_state row ∈ [Offering; ComputerClaimed]) ||
          (bool_decide (d_state row = CloudCommitted) && bool_decide (d_cloud_turn_id row = None)) in
        let g := withdrawOffers (d_id row) None "canceled" g in
        if outright then
          (terminate row (λ r, setState Canceled (setCancel (Some cancelRequestId)
             (setPayload None None (setLease None (leaveOffer r))))) now false g, inr Canceled)
        else
          let g := advance row (λ r, setState CancelPending (setCancel (Some cancelRequestId) r)) now false g in
          let next := default row (dispatchRow (d_id row) g) in
          let g :=
            match d_placement next, d_executor next, d_cloud_turn_id next with
            | Some OnComputer, Some device, _ => send device (CancelFrame (d_id next) cancelRequestId) g
            | Some InCloud, _, Some _ => output (CancelCloud (d_id next)) g
            | _, _, _ => g
            end in
          ((g, None), inr CancelPending)
  end.

(** ** Events *)

Inductive event :=
  | Submit (id : string) (request : DispatchSubmitRequest) (expectedGeneration pairGrant : option string)
  | FrameIn (a : Attachment) (dispatchId : string) (frame : DeviceFrame)
  | Status (dispatchId : string)
  | Terminal (ownerGeneration turnId : string) (receipt : Receipt)
  | Cancel (dispatchId cancelRequestId : string)
  | Alarm
  | Resume (task : nat) (answer : Answer)
  | Evict
  | Presence (presence : gmap string DevicePresenceState) (connected : gset string).

(** The receipts a cloud turn reports are terminal. *)
Definition wfEvent (ev : event) : Prop :=
  match ev with
  | Terminal _ _ receipt => rc_outcome receipt ∈ [Completed; Failed; Canceled]
  | _ => True
  end.

Definition exec (env : Env) (now : Z) (ev : event) (g : gate) : gate :=
  match ev with
  | Submit id request expectedGeneration pairGrant =>
      (submit env id request expectedGeneration pairGrant now g).1
  | FrameIn a dispatchId frame => finish env None (handleExecutorFrame env a dispatchId frame now g)
  | Status dispatchId => finish env None (dispatchStatus dispatchId now g)
  | Terminal ownerGeneration turnId receipt =>
      finish env None (recordCloudDispatchTerminal ownerGeneration turnId receipt now g)
  | Cancel dispatchId cancelRequestId =>
      finish env None (cancelDispatch dispatchId cancelRequestId now g).1
  | Alarm => expireDispatches env now g
  | Resume n answer =>
      match tasks g !! n with
      | Some t =>
          finish env (t_rest t)
            (resumeAwait env (t_await t) answer (withTasks (list_delete n (tasks g)) g))
      | None => g
      end
  | Evict => withTasks [] g
  | Presence p c => withPresence p c g
  end.

(** A step at a time, in an environment. *)
Record stamped := { st_env : Env; st_now : Z; st_event : event }.

Definition run (trace : list stamped) (g : gate) : gate :=
  foldl (λ g s, exec (st_env s) (st_now s) (st_event s) g) g trace.
End gate.
