(* ===== verification/OwnerGateSafety.v ===== *)
(** * One executor per dispatch

    The handlers of [OwnerGateDispatch] keep every dispatch in one of four classes: waiting
    for a computer, taken by a computer, given to the cloud, or closed with neither.  A row
    read before a suspension may be stale; the invariant says what is still true of the row
    the table holds. *)

From Corelib Require Import ssreflect.
From stdpp Require Import prelude gmap strings sorting.
From S2P Require Import Prelude JsString Json DispatchPolicy DispatchRows OwnerGateDispatch.

#[local] Open Scope Z_scope.

(** ** Classes of rows *)

(** No computer has durably accepted the work.  A claim's lease outlives its offer. *)
Definition isWaiting (t : Z) (r : DispatchRow) : Prop :=
  d_placement r = None ∧
  ∃ d, d_offer_deadline_at r = Some d ∧ d ≤ t + DISPATCH_OFFER_WINDOW_MS ∧
    (d_state r = Offering ∧ d_executor r = None ∨
     d_state r = ComputerClaimed ∧ is_Some (d_executor r) ∧ ∃ l, d_lease_expires_at r = Some l ∧ d ≤ l).

Definition isTaken (r : DispatchRow) : Prop :=
  d_placement r = Some OnComputer ∧ is_Some (d_executor r) ∧
  d_payload r = None ∧
  d_state r ∈ [ComputerAccepted; ComputerRunning; CancelPending; ReconciliationRequired;
               Completed; Failed; Canceled].

Definition isCloud (r : DispatchRow) : Prop :=
  d_placement r = Some InCloud ∧ d_executor r = None ∧
  d_state r ∉ [Offering; ComputerClaimed; ComputerAccepted; ComputerRunning].

Definition isClosed (r : DispatchRow) : Prop :=
  d_placement r = None ∧ d_executor r = None ∧ d_state r ∈ [Blocked; Canceled].

Definition wfRow (t : Z) (r : DispatchRow) : Prop :=
  isWaiting t r ∨ isTaken r ∨ isCloud r ∨ isClosed r.

(** No computer can accept the work any more. *)
Definition isLate (t : Z) (r : DispatchRow) : Prop :=
  isCloud r ∨ isClosed r ∨
  isWaiting t r ∧ (d_state r = Offering → ∃ d, d_offer_deadline_at r = Some d ∧ d ≤ t) ∧
                  (d_state r = ComputerClaimed → ∃ l, d_lease_expires_at r = Some l ∧ l ≤ t).

(** What a write may do to a row at time [t]. *)
Definition evolves (t : Z) (r r' : DispatchRow) : Prop :=
  d_submit r' = d_submit r ∧ wfRow t r' ∧
  (isTaken r → isTaken r') ∧ (isCloud r → isCloud r') ∧ (isLate t r → isLate t r').

(** Membership of a given state in a literal list. *)
Ltac in_states := first [by left | right; in_states].
Ltac decide_state := refine (bool_decide_eq_true_1 _ _); by vm_compute.

(** Closes [sameClass] goals. *)
Ltac same_class := split_and!; first [done | by left | by right].

(** Splits memberships in literal lists of states. *)
Ltac states :=
  repeat match goal with
  | H : _ ∈ _ :: _ |- _ => apply elem_of_cons in H as [H | H]
  | H : _ ∈ [] |- _ => by apply not_elem_of_nil in H
  end.

Lemma isWaiting_mono t t' r : t ≤ t' → isWaiting t r → isWaiting t' r.
Proof. intros Ht (Hp & d & Hd & Hle & Hs). split; [done|]. exists d. split_and!; [done|lia|done]. Qed.

Lemma isLate_mono t t' r : t ≤ t' → isLate t r → isLate t' r.
Proof.
  intros Ht [|[|(Hw & Ho & Hc)]]; [by left|by right; left|]. right; right.
  split_and!; [by eapply isWaiting_mono| |].
  - intros (d & ? & ?)%Ho. exists d. split; [done|lia].
  - intros (l & ? & ?)%Hc. exists l. split; [done|lia].
Qed.

Lemma wfRow_mono t t' r : t ≤ t' → wfRow t r → wfRow t' r.
Proof. intros Ht [|[|[|]]]; unfold wfRow; [left; by eapply isWaiting_mono|auto..]. Qed.

Lemma isLate_cloud t r : isCloud r → isLate t r.
Proof. by left. Qed.

Lemma taken_not_cloud r : isTaken r → isCloud r → False.
Proof. intros (Hp & _) (Hp' & _). congruence. Qed.

Lemma taken_not_late t r : isTaken r → isLate t r → False.
Proof. intros (Hp & _) [(Hp' & _) | [(Hp' & _) | ((Hp' & _) & _)]]; congruence. Qed.

#[global] Instance evolves_trans t : Transitive (evolves t).
Proof.
  intros r1 r2 r3 (Hs & _ & Hb & Hc & Hl) (Hs' & Hw & Hb' & Hc' & Hl').
  split_and!; [congruence|done|auto..].
Qed.

(** The shapes of writes: into the cloud, inside a class, out of the offer. *)
Lemma evolves_to_cloud t r r' : d_submit r' = d_submit r → ¬ isTaken r → isCloud r' → evolves t r r'.
Proof. intros ? ? ?. split_and!; [done|unfold wfRow; auto|done|done|intros _; by left]. Qed.

Lemma evolves_taken t r r' : d_submit r' = d_submit r → isTaken r → isTaken r' → evolves t r r'.
Proof.
  intros ? Hr ?. split_and!; [done|unfold wfRow; auto|done| |].
  - by intros ?%(taken_not_cloud r).
  - by intros ?%(taken_not_late t r).
Qed.

Lemma evolves_closed t r r' :
  d_submit r' = d_submit r → ¬ isTaken r → ¬ isCloud r → isClosed r' → evolves t r r'.
Proof. intros ? ? ? ?. split_and!; [done|unfold wfRow; auto|done|done|intros _; right; by left]. Qed.

Lemma evolves_waiting t r r' :
  d_submit r' = d_submit r → isWaiting t r → isWaiting t r' → (isLate t r → isLate t r') → evolves t r r'.
Proof.
  intros ? Hr ? ?. split_and!; [done|by left| | |done].
  - intros (Hp & _). destruct Hr as (? & _). congruence.
  - intros (Hp & _). destruct Hr as (? & _). congruence.
Qed.

(** A write to columns the classes do not mention. *)
Definition sameClass (r r' : DispatchRow) : Prop :=
  d_submit r' = d_submit r ∧ d_state r' = d_state r ∧ d_placement r' = d_placement r ∧
  d_executor r' = d_executor r ∧ d_offer_deadline_at r' = d_offer_deadline_at r ∧
  d_lease_expires_at r' = d_lease_expires_at r ∧ (d_payload r' = d_payload r ∨ d_payload r' = None).

Lemma evolves_same t r r' : wfRow t r → sameClass r r' → evolves t r r'.
Proof.
  intros Hw (Hsub & Hs & Hp & He & Ho & Hl & Hpay).
  assert (Htk : isTaken r → isTaken r').
  { intros (? & ? & Hn & ?). split_and!; [by rw Hp|by rw He|destruct Hpay; congruence|by rw Hs]. }
  unfold evolves, wfRow, isLate, isWaiting, isCloud, isClosed in *.
  rw Hs Hp He Ho Hl. split_and!; [done|destruct Hw as [|[]]; auto|done..].
Qed.

(** ** The invariant *)

Definition isCloudAt (id : string) (g : gate) : Prop :=
  ∃ cur, dispatches g !! id = Some cur ∧ isCloud cur.

(** What a stale row [r], selected at [now], still says about the row of its dispatch. *)
Definition rowOk (t now : Z) (g : gate) (r : DispatchRow) : Prop :=
  ∃ cur, dispatches g !! d_id r = Some cur ∧
    (d_state r = Offering → (∃ d, d_offer_deadline_at r = Some d ∧ d ≤ now) → isLate t cur) ∧
    (d_state r = ComputerClaimed → (∃ l, d_lease_expires_at r = Some l ∧ l ≤ now) → isLate t cur) ∧
    (d_state r = CloudCommitted → isCloud cur) ∧
    (d_state r ∈ [ComputerAccepted; ComputerRunning] → isTaken cur) ∧
    (d_state r = CancelPending → isTaken cur ∨ isCloud cur).

Definition awaitRow (a : Await) : option DispatchRow :=
  match a with
  | AwaitLease r _ _ | AwaitPreparation r _ _ | AwaitChat r _ _ | AwaitAgent r _ _ | AwaitPi r _ _ => Some r
  | AwaitSettle _ => None
  end.

Definition awaitOk (g : gate) (a : Await) : Prop := ∀ r, awaitRow a = Some r → isCloudAt (d_id r) g.

Definition restOk (t : Z) (g : gate) (rest : option (Z * list DispatchRow)) : Prop :=
  ∀ now rows, rest = Some (now, rows) → now ≤ t ∧ ∀ r, r ∈ rows → rowOk t now g r.

Definition wfReceipts (g : gate) : Prop :=
  ∀ key receipt, terminals g !! key = Some receipt → rc_outcome receipt ∈ [Completed; Failed; Canceled].

(** One row per idempotency key. *)
Definition oneRowPerKey (g : gate) : Prop :=
  ∀ id id' r r', dispatches g !! id = Some r → dispatches g !! id' = Some r' →
    q_idempotency_key (d_submit r) = q_idempotency_key (d_submit r') → id = id'.

Record Inv (t : Z) (g : gate) : Prop := {
  inv_rows : ∀ id r, dispatches g !! id = Some r → d_id r = id ∧ wfRow t r;
  inv_sent : ∀ o id, o ∈ sent g → startOf o = Some id → isCloudAt id g;
  inv_tasks : ∀ k, k ∈ tasks g → awaitOk g (t_await k) ∧ restOk t g (t_rest k);
  inv_receipts : wfReceipts g;
  inv_keys : oneRowPerKey g;
}.

(** The rows of [g] evolved into those of [g']. *)
Definition ext (t : Z) (g g' : gate) : Prop :=
  ∀ id r, dispatches g !! id = Some r → ∃ r', dispatches g' !! id = Some r' ∧ evolves t r r'.

Definition ok (t : Z) (g g' : gate) : Prop := Inv t g' ∧ ext t g g'.

(** An outcome that keeps the invariant, with what it waits for. *)
Definition okOutcome (t : Z) (g : gate) (o : outcome) : Prop :=
  ok t g o.1 ∧ ∀ a, o.2 = Some a → awaitOk o.1 a.

Lemma ext_refl t g : Inv t g → ext t g g.
Proof.
  intros HI id r Hr. exists r. split; [done|]. apply evolves_same; [by eapply inv_rows|].
  same_class.
Qed.

Lemma ext_trans t g1 g2 g3 : ext t g1 g2 → ext t g2 g3 → ext t g1 g3.
Proof.
  intros H12 H23 id r (r2 & Hr2 & E12)%H12. apply H23 in Hr2 as (r3 & Hr3 & E23).
  exists r3. split; [done|by etrans].
Qed.

Lemma ok_trans t g1 g2 g3 : ok t g1 g2 → ok t g2 g3 → ok t g1 g3.
Proof. intros [? ?] [? ?]. split; [done|by eapply ext_trans]. Qed.

Lemma ok_refl t g : Inv t g → ok t g g.
Proof. split; [done|by apply ext_refl]. Qed.

Lemma okOutcome_trans t g1 g2 o : ok t g1 g2 → okOutcome t g2 o → okOutcome t g1 o.
Proof. intros ? [? ?]. split; [by eapply ok_trans|done]. Qed.

Lemma okOutcome_ret t g g' : ok t g g' → okOutcome t g (g', None).
Proof. by split. Qed.

Lemma isCloudAt_ext t g g' id : ext t g g' → isCloudAt id g → isCloudAt id g'.
Proof. intros He (cur & Hcur & Hc). destruct (He _ _ Hcur) as (r' & ? & _ & _ & _ & Hcl & _). exists r'. auto. Qed.

Lemma awaitOk_ext t g g' a : ext t g g' → awaitOk g a → awaitOk g' a.
Proof. intros He Ha r Hr. eapply isCloudAt_ext; [done|by apply Ha]. Qed.

Lemma rowOk_ext t now g g' r : ext t g g' → rowOk t now g r → rowOk t now g' r.
Proof.
  intros He (cur & Hcur & Ho & Hc & Hcl & Hb & Hp).
  destruct (He _ _ Hcur) as (r' & ? & _ & _ & Hb' & Hcl' & Hl').
  exists r'. split_and!; auto. intros [|]%Hp; auto.
Qed.

Lemma restOk_ext t g g' rest : ext t g g' → restOk t g rest → restOk t g' rest.
Proof.
  intros He Hr now rows E. destruct (Hr now rows E) as [? Hrows]. split; [done|].
  intros r ?. eapply rowOk_ext; [done|by apply Hrows].
Qed.

Lemma ok_of t g g' :
  Inv t g → ext t g g' →
  (∀ id r, dispatches g' !! id = Some r → d_id r = id ∧ wfRow t r) →
  (∀ o id, o ∈ sent g' → startOf o = Some id → o ∈ sent g ∨ isCloudAt id g') →
  (∀ k, k ∈ tasks g' → k ∈ tasks g ∨ awaitOk g' (t_await k) ∧ restOk t g' (t_rest k)) →
  wfReceipts g' → oneRowPerKey g' → ok t g g'.
Proof.
  intros HI He Hr Hs Ht Hw Hkeys. split; [|done]. constructor; [done| | |done..].
  - intros o id Ho Hid. destruct (Hs o id Ho Hid) as [Ho'|]; [|done].
    eapply isCloudAt_ext; [done|by eapply inv_sent].
  - intros k Hk. destruct (Ht k Hk) as [Hk'|]; [|done].
    destruct (inv_tasks _ _ HI k Hk'). split; [by eapply awaitOk_ext|by eapply restOk_ext].
Qed.

Lemma oneRowPerKey_back g g' :
  oneRowPerKey g →
  (∀ id r', dispatches g' !! id = Some r' → ∃ r, dispatches g !! id = Some r ∧ d_submit r = d_submit r') →
  oneRowPerKey g'.
Proof.
  intros Hk Hb id id' r1 r2 (r1' & H1 & E1)%Hb (r2' & H2 & E2)%Hb Hkey.
  eapply Hk; [exact H1|exact H2|congruence].
Qed.

(** ** Writes to one row *)

Lemma ok_alter t id f g :
  Inv t g → (∀ r, dispatches g !! id = Some r → evolves t r (f r)) →
  ok t g (withDispatches (alter f id (dispatches g)) g).
Proof.
  intros HI Hf. apply ok_of; [done| | |by intros ? ?; left|by intros ? ?; left|exact (inv_receipts _ _ HI)|].
  - intros id' r Hr. simpl. destruct (decide (id' = id)) as [->|Hne].
    + exists (f r). rw lookup_alter_eq Hr. split; [done|by apply Hf].
    + exists r. rw lookup_alter_ne //. split; [done|]. apply evolves_same; [by eapply inv_rows|same_class].
  - simpl. intros id' r Hr. destruct (decide (id' = id)) as [->|Hne].
    + rw lookup_alter_eq in Hr. apply fmap_Some in Hr as (r0 & Hr0 & ->).
      destruct (Hf r0 Hr0) as (Hsub & Hw & _). destruct (inv_rows _ _ HI _ _ Hr0) as [Hid _].
      split; [|done]. unfold d_id in *. congruence.
    + rw lookup_alter_ne // in Hr. by apply (inv_rows _ _ HI).
  - apply (oneRowPerKey_back g); [apply HI|]. simpl. intros id' r.
    destruct (decide (id' = id)) as [->|Hne]; [|rw lookup_alter_ne //; by exists r].
    rw lookup_alter_eq fmap_Some. intros (r0 & Hr0 & ->). exists r0. split; [done|].
    by destruct (Hf r0 Hr0) as (<- & _).
Qed.

Lemma ok_writeColumn t id set g :
  Inv t g → (∀ r, sameClass r (set r)) → ok t g (writeColumn id set g).
Proof.
  intros HI Hs. apply ok_alter; [done|]. intros r Hr. apply evolves_same; [by eapply inv_rows|done].
Qed.

Lemma evolves_revision t r r' v now : evolves t r r' → evolves t r (setRevision v now r').
Proof.
  intros E. etrans; [exact E|]. apply evolves_same; [by destruct E as (_ & ? & _)|same_class].
Qed.

Lemma ok_writePatch t id patch now g :
  Inv t g → (∀ r, dispatches g !! id = Some r → evolves t r (patch r)) →
  ok t g (writePatch id patch now g).
Proof.
  intros HI Hp. apply ok_alter; [done|]. intros r Hr. cbv zeta. apply evolves_revision. by apply Hp.
Qed.

(** ** Writes that leave the rows alone *)

Definition quiet (g g' : gate) : Prop :=
  dispatches g' = dispatches g ∧ tasks g' = tasks g ∧ terminals g' = terminals g ∧
  ∃ outs, sent g' = sent g ++ outs ∧ Forall (λ o, startOf o = None) outs.

Lemma quiet_refl g : quiet g g.
Proof. split_and!; [done..|]. exists []. by rw app_nil_r. Qed.

Lemma quiet_after g1 g2 g3 : quiet g1 g2 → quiet g2 g3 → quiet g1 g3.
Proof.
  intros (Hd & Ht & Hr & o & Hs & Ho) (Hd' & Ht' & Hr' & o' & Hs' & Ho'). split_and!; [congruence..|].
  exists (o ++ o'). rw Hs' Hs -app_assoc. split; [done|by apply Forall_app].
Qed.

Lemma quiet_ok t g g' : Inv t g → quiet g g' → ok t g g'.
Proof.
  intros HI (Hd & Ht & Hr & outs & Hs & Ho). apply ok_of; [done| | | | | |].
  - intros id r Hr'. exists r. rw Hd. split; [done|]. apply evolves_same; [by eapply inv_rows|same_class].
  - intros id r. rw Hd. apply (inv_rows _ _ HI).
  - intros o id. rw Hs. intros [|Ho']%elem_of_app Hid; [by left|].
    apply (proj1 (Forall_forall _ _)) with (x := o) in Ho; [congruence|done].
  - intros k. rw Ht. by left.
  - intros key receipt. rw Hr. apply (inv_receipts _ _ HI).
  - intros id id' r r'. rw Hd. apply (inv_keys _ _ HI).
Qed.

Lemma quiet_output o g : startOf o = None → quiet g (output o g).
Proof. intros Ho. split_and!; [done..|]. exists [o]. split; [done|by constructor]. Qed.

Lemma quiet_send device f g : quiet g (send device f g).
Proof. unfold send. case_bool_decide; [by apply quiet_output|apply quiet_refl]. Qed.

Lemma quiet_reply device f g : quiet g (reply device f g).
Proof. by apply quiet_output. Qed.

Lemma quiet_notifyExecutor row g : quiet g (notifyExecutor row g).
Proof. unfold notifyExecutor. destruct (d_executor row); [apply quiet_send|apply quiet_refl]. Qed.

Lemma quiet_fields g g' :
  dispatches g' = dispatches g → tasks g' = tasks g → terminals g' = terminals g → sent g' = sent g →
  quiet g g'.
Proof. intros ? ? ? Hs. split_and!; [done..|]. exists []. by rw Hs app_nil_r. Qed.

Lemma quiet_withdrawOffers id keep reason g : quiet g (withdrawOffers id keep reason g).
Proof.
  unfold withdrawOffers. generalize (openOffers id g). intros l. revert g.
  induction l as [|offer l IH]; intros g; simpl; [apply quiet_refl|].
  case_bool_decide; [apply IH|].
  eapply quiet_after; [by apply (quiet_fields g (setOfferStatus id offer.1 WithdrawnOffer g))|].
  eapply quiet_after; [apply quiet_send|apply IH].
Qed.

Lemma quiet_lookup g g' id : quiet g g' → dispatches g' !! id = dispatches g !! id.
Proof. by intros (-> & _). Qed.

(** ** Compositions *)

Lemma ok_releaseGate t row g : Inv t g → ok t g (releaseGate row g).
Proof.
  intros HI. unfold releaseGate. destruct (negb (d_gate_held row)); [by apply ok_refl|].
  cbv zeta. match goal with |- context [release ?x g] => set (turnId := x) end.
  eapply ok_trans; [apply quiet_ok; [done|by apply (quiet_fields g (release turnId g))]|].
  apply ok_writeColumn; [|intros r; same_class].
  by apply (quiet_ok t g (release turnId g) HI), quiet_fields.
Qed.

Lemma patchDispatch_ok t row patch now notify g :
  Inv t g → (∀ r, dispatches g !! d_id row = Some r → evolves t r (patch r)) →
  ok t g (patchDispatch row patch now notify g).1.1.
Proof.
  intros HI Hp. assert (Hw := ok_writePatch t _ patch now g HI Hp).
  unfold patchDispatch. set (g1 := writePatch _ _ _ g) in *.
  set (next := default row (dispatchRow (d_id row) g1)).
  assert (Hn : ok t g1 (if notify then notifyExecutor next g1 else g1)).
  { destruct Hw. apply quiet_ok; [done|]. destruct notify; [apply quiet_notifyExecutor|apply quiet_refl]. }
  assert (Hgn := ok_trans _ _ _ _ Hw Hn).
  set (gn := if notify then notifyExecutor next g1 else g1) in *.
  destruct (_ && reportsSettled next); simpl; [|done].
  eapply ok_trans; [exact Hgn|]. apply quiet_ok; [apply Hgn|by apply quiet_output].
Qed.

Lemma ok_advance t row patch now notify g :
  Inv t g → (∀ r, dispatches g !! d_id row = Some r → evolves t r (patch r)) →
  ok t g (advance row patch now notify g).
Proof.
  intros HI Hp. assert (H := patchDispatch_ok t row patch now notify g HI Hp).
  unfold advance. by destruct (patchDispatch row patch now notify g) as [[g' next] b].
Qed.

Lemma okOutcome_terminate t row patch now notify g :
  Inv t g → (∀ r, dispatches g !! d_id row = Some r → evolves t r (patch r)) →
  okOutcome t g (terminate row patch now notify g).
Proof.
  intros HI Hp. assert (H := patchDispatch_ok t row patch now notify g HI Hp).
  unfold terminate. destruct (patchDispatch row patch now notify g) as [[g' next] []]; simpl in H.
  - split; [done|]. intros a [= <-] r. done.
  - apply okOutcome_ret. eapply ok_trans; [done|]. destruct H. by apply ok_releaseGate.
Qed.

(** The row the table holds after an advance. *)
Lemma advance_lookup row patch now notify g :
  dispatches (advance row patch now notify g) =
  alter (λ r, setRevision (d_revision (patch r) + 1) now (patch r)) (d_id row) (dispatches g).
Proof.
  unfold advance, patchDispatch. set (g1 := writePatch _ _ _ g).
  assert (Hq : ∀ x, dispatches (if notify then notifyExecutor x g1 else g1) = dispatches g1)
    by (intros x; destruct notify; [apply quiet_notifyExecutor|done]).
  destruct (_ && reportsSettled _); simpl; by rw Hq.
Qed.

(** ** The cloud branch *)

Section handlers.
Context (turnTimeoutMs : Z).
Notation startCloudChat := (startCloudChat turnTimeoutMs).
Notation runCloudBranch := (runCloudBranch turnTimeoutMs).
Notation resolveUnaccepted := (resolveUnaccepted turnTimeoutMs).
Notation expireRow := (expireRow turnTimeoutMs).
Notation expireRows := (expireRows turnTimeoutMs).
Notation finish := (finish turnTimeoutMs).


(** A patch that keeps a cloud row in the cloud. *)
Definition keepsCloud (patch : DispatchRow → DispatchRow) : Prop :=
  ∀ r, isCloud r → d_submit (patch r) = d_submit r ∧ isCloud (patch r).

Lemma keepsCloud_evolves t patch g id :
  keepsCloud patch → isCloudAt id g →
  ∀ r, dispatches g !! id = Some r → evolves t r (patch r).
Proof.
  intros Hp (cur & Hcur & Hc) r Hr. assert (r = cur) as -> by congruence.
  destruct (Hp cur Hc). apply evolves_to_cloud; [done| |done]. intros ?. by eapply taken_not_cloud.
Qed.

Lemma isCloud_state r r' :
  isCloud r → d_placement r' = d_placement r ∨ d_placement r' = Some InCloud →
  d_executor r' = d_executor r →
  d_state r' ∉ [Offering; ComputerClaimed; ComputerAccepted; ComputerRunning] → isCloud r'.
Proof. intros (Hp0 & He0 & _) Hp He Hn. split_and!; [destruct Hp; congruence|congruence|done]. Qed.

Lemma keepsCloud_failed code : keepsCloud (λ r, setState Failed (setPayload None None (setLease None (setError code r)))).
Proof. intros r Hr. split; [done|]. apply (isCloud_state r); [done|by left|done|decide_state]. Qed.

Lemma keepsCloud_unavailable code : keepsCloud (λ r, setState Failed (setLease None (setError code r))).
Proof. intros r Hr. split; [done|]. apply (isCloud_state r); [done|by left|done|decide_state]. Qed.

Lemma keepsCloud_retry v w code : keepsCloud (λ r, setRetry v (setLease w (setError code r))).
Proof. intros r Hr. split; [done|]. apply (isCloud_state r); [done|by left|done|apply Hr]. Qed.

Lemma keepsCloud_running turnId threadId now : keepsCloud (toCloudRunning turnId threadId now).
Proof.
  intros r Hr. unfold toCloudRunning. destruct threadId; (split; [done|]);
    (apply (isCloud_state r); [done|by right|done|decide_state]).
Qed.

Lemma okOutcome_cloudRefusal t row status code now g :
  Inv t g → isCloudAt (d_id row) g → okOutcome t g (cloudRefusal row status code now g).
Proof.
  intros HI Hc. unfold cloudRefusal. case_match.
  - apply okOutcome_ret, ok_advance; [done|]. eapply keepsCloud_evolves; [apply keepsCloud_retry|done].
  - apply okOutcome_terminate; [done|]. eapply keepsCloud_evolves; [apply keepsCloud_failed|done].
Qed.

(** Sending a start for a dispatch that is in the cloud, and waiting for its answer. *)
Lemma okOutcome_start t g id o a :
  Inv t g → startOf o = Some id → isCloudAt id g →
  (∀ r, awaitRow a = Some r → d_id r = id) → okOutcome t g (output o g, Some a).
Proof.
  intros HI Ho Hc Ha. split.
  - apply ok_of; [done|by intros id' r Hr; exists r; split; [done|]; apply evolves_same;
      [by eapply inv_rows|same_class]| |simpl|by left|exact (inv_receipts _ _ HI)|exact (inv_keys _ _ HI)].
    + apply (inv_rows _ _ HI).
    + intros o' id' [|Ho']%elem_of_app Hid; [by left|]. apply list_elem_of_singleton in Ho' as ->.
      right. by assert (id' = id) as -> by congruence.
  - intros a' [= <-] r Hr. simpl. rw (Ha r Hr). done.
Qed.

(** Waiting, with nothing sent. *)
Lemma okOutcome_await t g row a :
  Inv t g → isCloudAt (d_id row) g → awaitRow a = Some row → okOutcome t g (g, Some a).
Proof.
  intros HI Hc Ha. split; [by apply ok_refl|]. intros a' [= <-] r Hr. by simplify_eq.
Qed.

(** Quiet writes first. *)
Lemma okOutcome_quiet t g g' o : Inv t g → quiet g g' → (Inv t g' → okOutcome t g' o) → okOutcome t g o.
Proof.
  intros HI Hq Ho. assert (Hok := quiet_ok t g g' HI Hq). eapply okOutcome_trans; [done|].
  apply Ho. apply Hok.
Qed.

Lemma isCloudAt_ok t g g' id : ok t g g' → isCloudAt id g → isCloudAt id g'.
Proof. intros [_ ?]. by eapply isCloudAt_ext. Qed.

Lemma okOutcome_handToConversation t env row now turnId g :
  Inv t g → isCloudAt (d_id row) g → okOutcome t g (handToConversation env row now turnId g).
Proof.
  intros HI Hc. unfold handToConversation. destruct (negb _).
  - destruct (e_retires env); [|by apply okOutcome_ret, ok_refl].
    eapply (okOutcome_quiet _ _ (retireHandoff (d_id row) turnId g)); [done|by apply quiet_fields|].
    intros HI'. by apply okOutcome_ret, ok_releaseGate.
  - assert (Hw : ok t g (writeColumn (d_id row) (setCloudTurn (Some turnId)) g))
      by (apply ok_writeColumn; [done|intros r; same_class]).
    eapply okOutcome_trans; [exact Hw|]. apply (okOutcome_start _ _ (d_id row)); [apply Hw|done| |].
    + by eapply isCloudAt_ok.
    + by intros r [= <-].
Qed.

Lemma quiet_admit turnId expected snapshot now g g' :
  admitTurn turnTimeoutMs turnId expected snapshot now g = inr g' → quiet g g'.
Proof.
  unfold admitTurn. repeat case_match; try done; intros [= <-]; by apply quiet_fields.
Qed.

Lemma okOutcome_startCloudChat t env row now g :
  Inv t g → isCloudAt (d_id row) g → okOutcome t g (startCloudChat env row now g).
Proof.
  intros HI Hc. unfold startCloudChat. cbv zeta.
  match goal with |- context [handoffs ?x !! d_id row] => match x with g => fail 1 | _ => set (g1 := x) end end.
  assert (Hq : quiet g g1) by (unfold g1; repeat case_match; first [apply quiet_refl | by apply quiet_fields]).
  assert (Hok := quiet_ok t g g1 HI Hq). assert (Hc1 := isCloudAt_ok _ _ _ _ Hok Hc).
  eapply okOutcome_trans; [exact Hok|]. destruct Hok as [HI1 _].
  destruct (handoffs g1 !! d_id row) as [[turnId | turnId | turnId]|].
  - destruct (admitTurn _ _ _ _ _ g1) as [code|g2] eqn:Ha.
    + by apply okOutcome_cloudRefusal.
    + apply quiet_admit in Ha. eapply (okOutcome_quiet _ _ g2); [done|done|]. intros HI2.
      eapply (okOutcome_await _ _ row); [done| |done].
      eapply isCloudAt_ok; [by apply (quiet_ok t g1 g2)|done].
  - by apply okOutcome_handToConversation.
  - by apply okOutcome_cloudRefusal.
  - apply (okOutcome_start _ _ (d_id row)); [done..|by intros r [= <-]].
Qed.

Lemma okOutcome_startCloudAgent t env row payload now g :
  Inv t g → isCloudAt (d_id row) g → okOutcome t g (startCloudAgent env row payload now g).
Proof.
  intros HI Hc. unfold startCloudAgent. cbv zeta.
  destruct (runsAsPiAgent _);
    (apply (okOutcome_start _ _ (d_id row)); [done..|by intros r [= <-]]).
Qed.

Lemma okOutcome_runCloudBranch t env row now g :
  Inv t g → (d_state row = CloudCommitted → isCloudAt (d_id row) g) →
  okOutcome t g (runCloudBranch env row now g).
Proof.
  intros HI Hpre. unfold runCloudBranch.
  destruct (bool_decide_reflect (d_state row = CloudCommitted)) as [Hs|]; simpl;
    [|by apply okOutcome_ret, ok_refl].
  assert (Hc := Hpre Hs). destruct (negb _).
  { apply okOutcome_terminate; [done|]. eapply keepsCloud_evolves; [apply keepsCloud_failed|done]. }
  destruct (d_payload row) as [payload|].
  2:{ apply okOutcome_terminate; [done|]. eapply keepsCloud_evolves; [apply keepsCloud_unavailable|done]. }
  match goal with |- context [writeColumn ?i ?f g] => set (g1 := writeColumn i f g) end.
  assert (Hw : ok t g g1) by (apply ok_writeColumn; [done|intros r; same_class]).
  eapply okOutcome_trans; [exact Hw|]. destruct Hw as [HI1 He].
  assert (Hc1 : isCloudAt (d_id row) g1) by by eapply isCloudAt_ext.
  assert (Hid : d_id (default row (dispatchRow (d_id row) g1)) = d_id row).
  { unfold dispatchRow. destruct (dispatches g1 !! d_id row) eqn:E; [|done]. by eapply inv_rows. }
  destruct (d_kind row);
    [apply okOutcome_startCloudChat|apply okOutcome_startCloudAgent]; rw ?Hid; done.
Qed.

(** The rest of a suspended start. *)
Lemma okOutcome_resumeAwait t env a answer g :
  Inv t g → awaitOk g a → okOutcome t g (resumeAwait env a answer g).
Proof.
  intros HI Ha.
  assert (Hgate : ∀ row, ok t g (writeColumn (d_id row) (setGate true) g))
    by (intros row; apply ok_writeColumn; [done|intros r; same_class]).
  destruct a as [row now turnId|row now turnId|row now turnId|row now threadId|row now threadId|row];
    try (assert (Hc := Ha row eq_refl)); simpl.
  - destruct answer; [| |by apply okOutcome_ret, ok_refl].
    + eapply okOutcome_trans; [apply Hgate|]. eapply (okOutcome_await _ _ (setGate true row)); [apply Hgate| |done].
      eapply isCloudAt_ok; [apply Hgate|done].
    + eapply okOutcome_trans; [apply Hgate|]. apply okOutcome_cloudRefusal; [apply Hgate|].
      eapply isCloudAt_ok; [apply Hgate|done].
  - destruct answer; [|by apply okOutcome_ret, ok_refl..].
    assert (Hh : okOutcome t g (handToConversation env row now turnId
                   (withHandoffs (<[d_id row := Registered turnId]> (handoffs g)) g))).
    { eapply (okOutcome_quiet _ _ (withHandoffs _ g)); [done|by apply quiet_fields|intros HI'].
      by apply okOutcome_handToConversation. }
    destruct (handoffs g !! d_id row) as [[]|]; [done|done| |done].
    eapply (okOutcome_quiet _ _ (release turnId g)); [done|by apply quiet_fields|intros HI'].
    by apply okOutcome_cloudRefusal.
  - destruct answer as [started thread|status code|]; [| |by apply okOutcome_ret, ok_refl].
    + destruct (match turnId with Some _ => _ | None => _ end); [by apply okOutcome_ret, ok_refl|].
      destruct (dispatchRow (d_id row) g); [|by apply okOutcome_ret, ok_refl].
      destruct (negb _); [by apply okOutcome_ret, ok_refl|].
      apply okOutcome_ret, ok_advance; [done|]. eapply keepsCloud_evolves; [apply keepsCloud_running|done].
    + destruct turnId as [turnId|]; [|by apply okOutcome_cloudRefusal].
      destruct (_ && _); [|by apply okOutcome_cloudRefusal].
      destruct (e_retires env); [|by apply okOutcome_ret, ok_refl].
      eapply (okOutcome_quiet _ _ (retireHandoff (d_id row) turnId g)); [done|by apply quiet_fields|].
      intros HI'. by apply okOutcome_cloudRefusal.
  - destruct answer; [|by apply okOutcome_cloudRefusal|by apply okOutcome_ret, ok_refl].
    apply okOutcome_ret, ok_advance; [done|]. eapply keepsCloud_evolves; [apply keepsCloud_running|done].
  - destruct answer; [|by apply okOutcome_ret, ok_refl..].
    assert (Hr := ok_releaseGate t row g HI). apply okOutcome_ret. eapply ok_trans; [exact Hr|].
    apply ok_advance; [apply Hr|]. eapply keepsCloud_evolves; [apply keepsCloud_running|].
    by eapply isCloudAt_ok.
  - by apply okOutcome_ret, ok_releaseGate.
Qed.

(** ** Leaving an offer *)

(** A row no computer has durably accepted. *)
Definition notTakenAt (id : string) (g : gate) : Prop :=
  ∀ r, dispatches g !! id = Some r → ¬ isTaken r.

Lemma evolves_toBlocked t reason code r :
  wfRow t r → ¬ isTaken r → evolves t r (toBlocked reason code r).
Proof.
  intros Hw Hn. destruct Hw as [(Hp & _) | [|[Hc|Hd]]]; [|done| |].
  - apply evolves_closed; [done|done|intros (Hp' & _); congruence|]. split_and!; [done|done|decide_state].
  - apply evolves_to_cloud; [done|done|]. destruct Hc as (Hp & _ & _). split_and!; [done|done|decide_state].
  - apply evolves_closed; [done|done|intros (Hp' & _); destruct Hd; congruence|].
    destruct Hd as (Hp & _). split_and!; [done|done|decide_state].
Qed.

Lemma isCloud_toCloudCommitted now reason r : isCloud (toCloudCommitted now reason r).
Proof. split_and!; [done|done|decide_state]. Qed.

Lemma okOutcome_resolveUnaccepted t env row now reason g :
  Inv t g → notTakenAt (d_id row) g → is_Some (dispatches g !! d_id row) →
  okOutcome t g (resolveUnaccepted env row now reason g).
Proof.
  intros HI Hn [cur Hcur]. unfold resolveUnaccepted.
  destruct (negb _); [by apply okOutcome_ret, ok_refl|]. cbv zeta.
  eapply (okOutcome_quiet _ _ (withdrawOffers (d_id row) None reason g)); [done|apply quiet_withdrawOffers|].
  set (g1 := withdrawOffers _ _ _ g). intros HI1.
  assert (Hl : dispatches g1 !! d_id row = dispatches g !! d_id row)
    by apply quiet_lookup, quiet_withdrawOffers.
  assert (Hblocked : ∀ why code, okOutcome t g1 (terminate row (toBlocked why code) now true g1)).
  { intros why code. apply okOutcome_terminate; [done|]. intros r Hr. apply evolves_toBlocked.
    - by eapply inv_rows.
    - apply Hn. by rw -Hl. }
  destruct (_ && _ && _); [apply Hblocked|].
  destruct (bool_decide (q_fallback _ = _)).
  - assert (Ha : ok t g1 (advance row (toCloudCommitted now reason) now true g1)).
    { apply ok_advance; [done|]. intros r Hr. apply evolves_to_cloud; [done| |apply isCloud_toCloudCommitted].
      apply Hn. by rw -Hl. }
    eapply okOutcome_trans; [exact Ha|]. apply okOutcome_runCloudBranch; [apply Ha|]. intros _.
    unfold dispatchRow. rw advance_lookup lookup_alter_eq Hl Hcur /=.
    match goal with |- isCloudAt (d_id ?x) _ => assert (d_id x = d_id row) as -> end.
    { by apply (inv_rows _ _ HI) in Hcur as [<- _]. }
    eexists. rw advance_lookup lookup_alter_eq Hl Hcur. split; [done|].
    split_and!; [done|done|decide_state].
  - destruct (blockedReason _ _) as [why code]. apply Hblocked.
Qed.

(** ** The alarm *)

Lemma late_not_taken t g id cur : dispatches g !! id = Some cur → isLate t cur → notTakenAt id g.
Proof. intros Hcur Hl r Hr Ht. assert (r = cur) as -> by congruence. by eapply taken_not_late. Qed.

Lemma evolves_reconcile t reason r :
  isTaken r ∨ isCloud r →
  evolves t r (setState ReconciliationRequired (setLease None (setFallback reason r))).
Proof.
  intros [Ht|Hc].
  - apply evolves_taken; [done|done|]. destruct Ht as (? & ? & ? & _). split_and!; [done..|decide_state].
  - apply evolves_to_cloud; [done|intros ?; by eapply taken_not_cloud|].
    apply (isCloud_state r); [done|by left|done|decide_state].
Qed.

Lemma lapsed_Some (deadline : option Z) now :
  match deadline with Some d => d <=? now | None => false end = true → ∃ d, deadline = Some d ∧ d ≤ now.
Proof. destruct deadline as [d|]; [intros ?%Z.leb_le; by exists d|done]. Qed.

Lemma okOutcome_expireRow t env now row g :
  Inv t g → rowOk t now g row → okOutcome t g (expireRow env now row g).
Proof.
  intros HI (cur & Hcur & Ho & Hcl & Hcc & Hb & Hp). unfold expireRow. cbv zeta.
  destruct (bool_decide (d_state row = Offering) && _) eqn:E1.
  { apply andb_true_iff in E1 as [E%bool_decide_eq_true Hl%lapsed_Some].
    apply okOutcome_resolveUnaccepted; [done| |by exists cur]. eapply late_not_taken; eauto. }
  destruct (bool_decide (d_state row = CloudCommitted) && _) eqn:E2.
  { apply okOutcome_runCloudBranch; [done|]. intros E. exists cur. auto. }
  destruct (bool_decide (d_state row = ComputerClaimed) && _) eqn:E3.
  { apply andb_true_iff in E3 as [E%bool_decide_eq_true Hl%lapsed_Some].
    apply okOutcome_resolveUnaccepted; [done| |by exists cur]. eapply late_not_taken; eauto. }
  destruct (_ && bool_decide (d_state row ∈ _)) eqn:E4.
  { apply andb_true_iff in E4 as [_ E%bool_decide_eq_true]. apply okOutcome_ret, ok_advance; [done|].
    intros r Hr. assert (r = cur) as -> by congruence. apply evolves_reconcile.
    states; [left; apply Hb; rw E; in_states|left; apply Hb; rw E; in_states|right; auto|auto]. }
  destruct (bool_decide (is_Some (d_payload row))); [|by apply okOutcome_ret, ok_refl].
  apply okOutcome_ret, ok_writeColumn; [done|intros r; same_class].
Qed.

Lemma ok_suspend t a rest g :
  Inv t g → awaitOk g a → restOk t g rest → ok t g (suspend a rest g).
Proof.
  intros HI Ha Hr. apply ok_of; [done|intros id r Hr'; exists r; split; [done|]; apply evolves_same;
    [by eapply inv_rows|same_class]|apply (inv_rows _ _ HI)|by left| |exact (inv_receipts _ _ HI)|exact (inv_keys _ _ HI)].
  simpl. intros k [|Hk]%elem_of_app; [by left|]. apply list_elem_of_singleton in Hk as ->. by right.
Qed.

Lemma ok_expireRows t env now rows g :
  Inv t g → now ≤ t → (∀ r, r ∈ rows → rowOk t now g r) → ok t g (expireRows env now rows g).
Proof.
  revert g; induction rows as [|row rows IH]; intros g HI Hnow Hrows; simpl; [by apply ok_refl|].
  assert (Hrow := okOutcome_expireRow t env now row g HI (Hrows row ltac:(left))).
  destruct (expireRow env now row g) as [g' [a|]];
    destruct Hrow as [[HI' He] Ha]; simpl in *.
  - apply (ok_trans _ _ g'); [by split|]. apply ok_suspend; [done|by apply Ha|].
    intros now' rows' [= <- <-]. split; [done|]. intros r Hr. eapply rowOk_ext; [done|]. apply Hrows. by right.
  - apply (ok_trans _ _ g'); [by split|]. apply IH; [done..|]. intros r Hr. eapply rowOk_ext; [done|].
    apply Hrows. by right.
Qed.

Lemma ok_finish t env rest g o :
  okOutcome t g o → restOk t g rest → ok t g (finish env rest o).
Proof.
  intros [Hok Ha] Hr. unfold finish. destruct o as [g' [a|]]; simpl in *.
  - eapply ok_trans; [exact Hok|]. apply ok_suspend; [apply Hok|by apply Ha|].
    eapply restOk_ext; [apply Hok|done].
  - destruct rest as [[now rows]|]; [|done]. eapply ok_trans; [exact Hok|].
    destruct (Hr now rows eq_refl) as [Hnow Hrows]. apply ok_expireRows; [apply Hok|done|].
    intros r ?. eapply rowOk_ext; [apply Hok|by apply Hrows].
Qed.

Lemma restOk_None t g : restOk t g None.
Proof. by intros ? ?. Qed.

(** A state tells the class. *)
Lemma wfRow_waiting t r :
  wfRow t r → d_state r ∈ [Offering; ComputerClaimed] → isWaiting t r.
Proof.
  intros [Hw|[(_ & _ & _ & Hs)|[(_ & _ & Hs)|(_ & _ & Hs)]]] Hin; [done| | |]; exfalso.
  - states; congruence.
  - apply Hs. states; rw Hin; in_states.
  - states; congruence.
Qed.

Lemma wfRow_waiting_state t r : isWaiting t r → d_state r ∈ [Offering; ComputerClaimed].
Proof. intros (_ & d & _ & _ & [(-> & _) | (-> & _)]); in_states. Qed.

Lemma wfRow_cloud t r :
  wfRow t r → d_state r ∈ [CloudCommitted; CloudRunning] → isCloud r.
Proof.
  intros [Hw|[(_ & _ & _ & Hs)|[Hc|(_ & _ & Hs)]]] Hin; [|exfalso; states; congruence|done|exfalso; states; congruence].
  apply wfRow_waiting_state in Hw. exfalso; states; congruence.
Qed.

Lemma wfRow_taken t r :
  wfRow t r → d_state r ∈ [ComputerAccepted; ComputerRunning] → isTaken r.
Proof.
  intros [Hw|[Ht|[(_ & _ & Hs)|(_ & _ & Hs)]]] Hin; [|done| |].
  - apply wfRow_waiting_state in Hw. exfalso; states; congruence.
  - exfalso. apply Hs. states; rw Hin; in_states.
  - exfalso; states; congruence.
Qed.

Lemma wfRow_pending t r :
  wfRow t r → d_state r ∈ [CancelPending; ReconciliationRequired] → isTaken r ∨ isCloud r.
Proof.
  intros [Hw|[Ht|[Hc|(_ & _ & Hs)]]] Hin; [|by left|by right|exfalso; states; congruence].
  apply wfRow_waiting_state in Hw. exfalso; states; congruence.
Qed.

(** Rows as they are now satisfy what a stale row promises. *)
Lemma rowOk_current t g id row : Inv t g → dispatches g !! id = Some row → rowOk t t g row.
Proof.
  intros HI Hrow. destruct (inv_rows _ _ HI _ _ Hrow) as [Hid Hw]. exists row. rw Hid.
  split_and!; [done| | | | |].
  - intros Hs Hd. right; right. split_and!; [apply wfRow_waiting; [done|rw Hs; in_states]|done|congruence].
  - intros Hs Hl. right; right. split_and!; [apply wfRow_waiting; [done|rw Hs; in_states]|congruence|done].
  - intros Hs. apply (wfRow_cloud t); [done|rw Hs; in_states].
  - by apply (wfRow_taken t).
  - intros Hs. apply (wfRow_pending t); [done|rw Hs; in_states].
Qed.

Lemma ok_expireDispatches t env g :
  Inv t g → ok t g (expireDispatches turnTimeoutMs env t g).
Proof.
  intros HI. apply ok_expireRows; [done|done|]. intros r Hr.
  apply elem_of_take in Hr as (i & Hi & _). apply list_elem_of_lookup_2 in Hi.
  rw merge_sort_Permutation in Hi. apply list_elem_of_filter in Hi as [_ Hi].
  apply list_elem_of_fmap in Hi as ([id r'] & -> & Hin%elem_of_map_to_list).
  by eapply rowOk_current.
Qed.

(** ** Executor frames *)

Lemma okOutcome_deny t a code g : Inv t g → okOutcome t g (deny a code g).
Proof. intros HI. apply okOutcome_ret, quiet_ok; [done|apply quiet_reply]. Qed.

Lemma okOutcome_handleClaim t env a row claimRequestId g :
  Inv t g → dispatches g !! d_id row = Some row →
  okOutcome t g (handleClaim env a row claimRequestId t g).
Proof.
  intros HI Hrow. unfold handleClaim.
  destruct (String.eqb _ _); [by apply okOutcome_ret, quiet_ok, quiet_reply|].
  destruct (_ && _ && _); [by apply okOutcome_ret, quiet_ok, quiet_reply|].
  destruct (negb (bool_decide (d_state row = Offering)) || _) eqn:E; [by apply okOutcome_deny|].
  apply orb_false_iff in E as [Hs%negb_false_iff%bool_decide_eq_true Hd].
  destruct (negb (existsb _ _)); [by apply okOutcome_deny|].
  destruct (eligibleDevices _ _ _ _ _) as [|p l]; [by apply okOutcome_deny|]. cbv zeta.
  set (g1 := withdrawOffers _ _ _ _).
  assert (Hq : quiet g g1).
  { eapply quiet_after; [|apply quiet_withdrawOffers]. by apply quiet_fields. }
  eapply (okOutcome_quiet _ _ g1); [done|done|]. intros HI1.
  match goal with |- context [advance row ?f t false g1] => set (patch := f) end.
  assert (Ha : ok t g1 (advance row patch t false g1)).
  { apply ok_advance; [done|]. intros r Hr. assert (r = row) as ->.
    { rw (quiet_lookup g g1) // in Hr. congruence. }
    destruct (inv_rows _ _ HI _ _ Hrow) as [_ Hw].
    assert (Hwait := wfRow_waiting t row Hw ltac:(rw Hs; in_states)).
    destruct Hwait as (Hp & d & Hdl & Hle & Hst).
    apply evolves_waiting; [done|split; [done|by exists d]| |].
    - split; [done|]. exists d. split_and!; [done|done|]. right. split_and!; [done|done|].
      exists (t + DISPATCH_CLAIM_LEASE_MS). split; [done|].
      unfold DISPATCH_OFFER_WINDOW_MS, DISPATCH_CLAIM_LEASE_MS in *. lia.
    - intros [(Hp' & _) | [(_ & _ & Hc) | (_ & Hlate & _)]]; [congruence|states; congruence|].
      destruct (Hlate Hs) as (d' & Hd' & ?). rw Hd' in Hd. apply Z.leb_gt in Hd. lia. }
  apply okOutcome_ret. eapply ok_trans; [exact Ha|]. apply quiet_ok; [apply Ha|apply quiet_reply].
Qed.

(** A row a session owns, past the claim, is taken. *)
Lemma owned_taken t row a :
  wfRow t row → owns row a = true →
  d_state row ∈ [ComputerAccepted; ComputerRunning; CancelPending; ReconciliationRequired] →
  isTaken row.
Proof.
  intros Hw [Ho%bool_decide_eq_true _]%andb_true_iff Hs.
  destruct Hw as [Hw|[Ht|[(_ & He & _)|(_ & He & _)]]]; [|done|congruence|congruence].
  apply wfRow_waiting_state in Hw. exfalso; states; congruence.
Qed.

Lemma isTaken_state r r' :
  isTaken r → d_placement r' = d_placement r → d_executor r' = d_executor r →
  d_payload r' = d_payload r ∨ d_payload r' = None →
  d_state r' ∈ [ComputerAccepted; ComputerRunning; CancelPending; ReconciliationRequired;
                Completed; Failed; Canceled] → isTaken r'.
Proof. intros (Hp & He & Hn & _) Hp' He' Hn' Hs. split_and!; [congruence|by rw He'|destruct Hn'; congruence|done]. Qed.

(** A write that keeps a taken row taken. *)
Lemma okOutcome_taken t row patch g :
  Inv t g → dispatches g !! d_id row = Some row → isTaken row →
  d_submit (patch row) = d_submit row → d_placement (patch row) = d_placement row →
  d_executor (patch row) = d_executor row →
  d_payload (patch row) = d_payload row ∨ d_payload (patch row) = None →
  d_state (patch row) ∈ [ComputerAccepted; ComputerRunning; CancelPending; ReconciliationRequired;
                         Completed; Failed; Canceled] →
  ∀ r, dispatches g !! d_id row = Some r → evolves t r (patch r).
Proof.
  intros HI Hrow Ht Hsub Hp He Hn Hs r Hr. assert (r = row) as -> by congruence.
  apply evolves_taken; [done|done|]. by eapply isTaken_state.
Qed.

Lemma okOutcome_release t env a row reason g :
  Inv t g → dispatches g !! d_id row = Some row → d_state row = ComputerClaimed →
  okOutcome t g (handleOwnedFrame turnTimeoutMs env a row (ReleaseFrame reason) t g).
Proof.
  intros HI Hrow Hs. simpl. rw bool_decide_true //. simpl.
  match goal with |- context [advance row ?f t false g] => set (patch := f) end.
  destruct (inv_rows _ _ HI _ _ Hrow) as [_ Hw].
  assert (Hwait := wfRow_waiting t row Hw ltac:(rw Hs; in_states)).
  destruct Hwait as (Hp & d & Hd & Hle & Hst).
  assert (Hw' : isWaiting t (patch row)).
  { split; [done|]. exists d. split_and!; [done|done|]. by left. }
  assert (Ha : ok t g (advance row patch t false g)).
  { apply ok_advance; [done|]. intros r Hr. assert (r = row) as -> by congruence.
    apply evolves_waiting; [done|split; [done|by exists d]|done|].
    intros [(Hp' & _) | [(_ & _ & Hc) | (_ & _ & Hlate)]]; [congruence|states; congruence|].
    right; right. split_and!; [done| |done]. intros _. exists d. split; [done|].
    destruct (Hlate Hs) as (l & Hl & ?).
    destruct Hst as [(? & _) | (_ & _ & l' & Hl' & ?)]; [congruence|]. simplify_eq. lia. }
  set (g1 := advance row patch t false g) in *.
  eapply okOutcome_trans; [exact Ha|].
  eapply (okOutcome_quiet _ _ (setOfferStatus (d_id row) (a_deviceId a) WithdrawnOffer g1));
    [apply Ha|by apply quiet_fields|]. intros HI2.
  assert (Hl1 : dispatches g1 !! d_id row = Some (setRevision (d_revision (patch row) + 1) t (patch row)))
    by (unfold g1; rw advance_lookup lookup_alter_eq Hrow //).
  unfold dispatchRow. rw Hl1. simpl.
  match goal with |- okOutcome _ _ (OwnerGateDispatch.resolveUnaccepted _ _ ?x _ _ _) => set (released := x) end.
  assert (Hid : d_id released = d_id row) by done.
  apply okOutcome_resolveUnaccepted; [done| |rw Hid; simpl; by rw Hl1].
  intros r. rw Hid. simpl. rw Hl1. intros [= <-] (Hp' & _). simpl in Hp'. congruence.
Qed.

Lemma okOutcome_handleOwnedFrame t env a row frame g :
  Inv t g → dispatches g !! d_id row = Some row → owns row a = true →
  okOutcome t g (handleOwnedFrame turnTimeoutMs env a row frame t g).
Proof.
  intros HI Hrow Ho. destruct (inv_rows _ _ HI _ _ Hrow) as [_ Hw].
  destruct frame as [|reason| | | |outcome result errorCode|]; [by apply okOutcome_ret, ok_refl| | | | | |by apply okOutcome_ret, ok_refl].
  - destruct (decide (d_state row = ComputerClaimed)) as [Hs|Hs]; [by apply okOutcome_release|].
    simpl. rw bool_decide_false //. by apply okOutcome_deny.
  - simpl. destruct (bool_decide _); [by apply okOutcome_ret, ok_refl|].
    destruct (negb _ || _) eqn:E; [by apply okOutcome_deny|].
    apply orb_false_iff in E as [Hs%negb_false_iff%bool_decide_eq_true Hl].
    apply okOutcome_ret, ok_advance; [done|]. intros r Hr. assert (r = row) as -> by congruence.
    assert (Hwait := wfRow_waiting t row Hw ltac:(rw Hs; in_states)).
    destruct Hwait as (Hp & d & Hd & Hle & [(? & _) | (_ & He & _)]); [congruence|].
    split_and!; [done| | | |].
    + right; left. split_and!; [done|done|done|in_states].
    + intros (Hp' & _). congruence.
    + intros (Hp' & _). congruence.
    + intros [(Hp' & _) | [(_ & _ & Hc) | (_ & _ & Hlate)]]; [congruence|states; congruence|].
      destruct (Hlate Hs) as (l & Hl' & ?). rw Hl' in Hl. apply Z.leb_gt in Hl. lia.
  - simpl. destruct (negb _) eqn:E; [by apply okOutcome_deny|].
    apply negb_false_iff, bool_decide_eq_true in E.
    apply okOutcome_ret, ok_advance; [done|].
    apply okOutcome_taken; [done|done| |done|done|done|by left|simpl; in_states].
    apply (owned_taken t row a); [done|done|states; rw E; in_states].
  - simpl. destruct (negb _) eqn:E; [by apply okOutcome_deny|].
    apply negb_false_iff, bool_decide_eq_true in E.
    apply okOutcome_ret, ok_advance; [done|].
    apply okOutcome_taken; [done|done| |done|done|done|by left|].
    + apply (owned_taken t row a); [done|done|]. states; rw E; in_states.
    + simpl. repeat case_match; try in_states. states; rw E; in_states.
  - simpl. destruct (completionOutcome outcome) as [st|] eqn:Ho'; [|by apply okOutcome_deny].
    destruct (isTerminalDispatchState _); [by apply okOutcome_ret, quiet_ok, quiet_notifyExecutor|].
    destruct (negb _) eqn:E; [by apply okOutcome_deny|].
    apply negb_false_iff, bool_decide_eq_true in E.
    apply okOutcome_terminate; [done|].
    assert (Hse : ∀ code r, sameClass r (setErrorCode code r))
      by (intros code r; unfold setErrorCode; repeat case_match; same_class).
    apply okOutcome_taken; [done|done| | | | | |].
    + apply (owned_taken t row a); [done|done|]. states; rw E; in_states.
    + by rw (proj1 (Hse errorCode _)).
    + destruct (Hse errorCode (setState st (setResult result (setPayload None None (setLease None row)))))
        as (_ & _ & -> & _). done.
    + destruct (Hse errorCode (setState st (setResult result (setPayload None None (setLease None row)))))
        as (_ & _ & _ & -> & _). done.
    + right. unfold setErrorCode. by repeat case_match.
    + destruct (Hse errorCode (setState st (setResult result (setPayload None None (setLease None row)))))
        as (_ & -> & _). simpl. unfold completionOutcome in Ho'. repeat case_match; simplify_eq; in_states.
Qed.

Lemma okOutcome_handleExecutorFrame t env a dispatchId frame g :
  Inv t g → okOutcome t g (handleExecutorFrame turnTimeoutMs env a dispatchId frame t g).
Proof.
  intros HI. unfold handleExecutorFrame.
  destruct (String.eqb _ _); [by apply okOutcome_ret, quiet_ok, quiet_reply|].
  unfold dispatchRow. destruct (dispatches g !! trim dispatchId) as [row|] eqn:Hrow; [|by apply okOutcome_deny].
  assert (Hid : dispatches g !! d_id row = Some row).
  { by destruct (inv_rows _ _ HI _ _ Hrow) as [-> _]. }
  assert (Hf : ∀ f, okOutcome t g (if owns row a then handleOwnedFrame turnTimeoutMs env a row f t g
                                   else deny a "forbidden" g)).
  { intros f. destruct (owns row a) eqn:Ho; [by apply okOutcome_handleOwnedFrame|by apply okOutcome_deny]. }
  destruct frame; try apply Hf; [by apply okOutcome_handleClaim|by apply okOutcome_ret, ok_refl].
Qed.

(** ** Receipts and cancellation *)

Lemma okOutcome_dispatchStatus t dispatchId g :
  Inv t g → okOutcome t g (dispatchStatus dispatchId t g).
Proof.
  intros HI. assert (Hr := inv_receipts _ _ HI). unfold dispatchStatus, dispatchRow.
  destruct (dispatches g !! trim dispatchId) as [row|] eqn:Hrow; [|by apply okOutcome_ret, ok_refl]. cbv zeta.
  destruct (d_placement row) as [[]|] eqn:Hp; try by apply okOutcome_ret, ok_refl.
  destruct (d_cloud_turn_id row) as [turnId|]; [|by apply okOutcome_ret, ok_refl].
  destruct (terminals g !! _) as [receipt|] eqn:Hrc; [|by apply okOutcome_ret, ok_refl].
  destruct (isTerminalDispatchState _); [by apply okOutcome_ret, ok_refl|].
  apply Hr in Hrc. destruct (inv_rows _ _ HI _ _ Hrow) as [Hid Hw].
  apply okOutcome_terminate; [done|]. rw Hid. intros r Hr'. assert (r = row) as -> by congruence.
  assert (Hc : isCloud row).
  { destruct Hw as [(? & _) | [(? & _) | [|(? & _)]]]; congruence || done. }
  apply evolves_to_cloud; [done|intros ?; by eapply taken_not_cloud|].
  apply (isCloud_state row); [done|by left|done|]. simpl. intros Hin. states; congruence.
Qed.

Lemma okOutcome_cancelDispatch t dispatchId cancelRequestId g :
  Inv t g → okOutcome t g (cancelDispatch dispatchId cancelRequestId t g).1.
Proof.
  intros HI. unfold cancelDispatch, dispatchRow. cbv zeta.
  destruct (dispatches g !! trim dispatchId) as [row|] eqn:Hrow; [|by apply okOutcome_ret, ok_refl].
  destruct (String.eqb _ ""); [by apply okOutcome_ret, ok_refl|].
  destruct (match d_cancel_request_id row with Some _ => _ | None => _ end); [by apply okOutcome_ret, ok_refl|].
  destruct (isTerminalDispatchState (d_state row)) eqn:Hterm; [by apply okOutcome_ret, ok_refl|].
  destruct (inv_rows _ _ HI _ _ Hrow) as [Hid Hw]. rw -Hid in Hrow.
  set (g1 := withdrawOffers _ _ _ g). set (patchOut := λ r, setState Canceled _). 
  assert (Hq : quiet g g1) by apply quiet_withdrawOffers.
  assert (Hl : dispatches g1 !! d_id row = Some row) by rw (quiet_lookup _ _ _ Hq) //.
  destruct (_ || _) eqn:E; simpl.
  - eapply (okOutcome_quiet _ _ g1); [done|done|]. intros HI1. apply okOutcome_terminate; [done|].
    intros r Hr. assert (r = row) as -> by congruence.
    apply orb_true_iff in E as [E%bool_decide_eq_true|[E%bool_decide_eq_true _]%andb_true_iff].
    + destruct (wfRow_waiting t row Hw E) as (Hp & _).
      apply evolves_closed; [done|intros (Hp' & _); congruence|intros (Hp' & _); congruence|].
      split_and!; [done|done|in_states].
    + assert (Hc : isCloud row) by (apply (wfRow_cloud t); [done|rw E; in_states]).
      apply evolves_to_cloud; [done|intros ?; by eapply taken_not_cloud|].
      destruct Hc as (Hp & _). split_and!; [done|done|decide_state].
  - apply orb_false_iff in E as [E%bool_decide_eq_false _].
    match goal with |- context [advance row ?f t false g1] => set (patch := f) end.
    assert (Ha : ok t g1 (advance row patch t false g1)).
    { apply ok_advance; [by apply (quiet_ok t g g1)|]. intros r Hr. assert (r = row) as -> by congruence.
      destruct Hw as [Hw|[Ht|[Hc|(_ & _ & Hs)]]].
      - by apply wfRow_waiting_state in Hw.
      - apply evolves_taken; [done|done|]. apply (isTaken_state row); [done..|by left|simpl; in_states].
      - apply evolves_to_cloud; [done|intros ?; by eapply taken_not_cloud|].
        apply (isCloud_state row); [done|by left|done|decide_state].
      - apply bool_decide_eq_false in Hterm. destruct Hterm. states; rw Hs; in_states. }
    apply okOutcome_ret. eapply (ok_trans _ _ g1); [by apply quiet_ok|]. eapply ok_trans; [exact Ha|].
    apply quiet_ok; [apply Ha|]. repeat case_match; try apply quiet_refl; try apply quiet_send; by apply quiet_output.
Qed.

Lemma okOutcome_recordCloudDispatchTerminal t ownerGeneration turnId receipt g :
  Inv t g → rc_outcome receipt ∈ [Completed; Failed; Canceled] →
  okOutcome t g (recordCloudDispatchTerminal ownerGeneration turnId receipt t g).
Proof.
  intros HI Hrc. unfold recordCloudDispatchTerminal. cbv zeta.
  match goal with |- okOutcome _ _ (match head (filter _ (map_to_list (dispatches ?x)).*2) with _ => _ end) =>
    set (g1 := x) end.
  assert (Hok : ok t g g1).
  { unfold g1. destruct (terminals g !! (turnId, ownerGeneration)); [by apply ok_refl|].
    apply ok_of; [done|exact (ext_refl t g HI)|apply (inv_rows _ _ HI)|by left|by left| |exact (inv_keys _ _ HI)].
    intros key receipt'. simpl. rw lookup_insert_Some.
    intros [[_ <-]|[_ ?]]; [done|by eapply (inv_receipts _ _ HI)]. }
  destruct (head _) as [row|]; [|by apply okOutcome_ret].
  eapply okOutcome_trans; [exact Hok|]. apply okOutcome_dispatchStatus, Hok.
Qed.

End handlers.
