(* ===== verification/OwnerGateTraces.v ===== *)
(** * Traces of the owner gate

    Submissions, and what holds of every interleaving of submissions, device frames, alarms,
    receipts, cancellations and resumed calls: accepted work never starts in the cloud, a
    retried submission changes nothing. *)

From Corelib Require Import ssreflect.
From stdpp Require Import prelude gmap strings sorting pretty.
From S2P Require Import Prelude JsString Json DispatchPolicy DispatchRows OwnerGateDispatch OwnerGateSafety.

#[local] Open Scope Z_scope.

Section submissions.
Context (sha256Hex : string → string) (turnTimeoutMs : Z).
Notation finish := (finish turnTimeoutMs).
Notation runCloudBranch := (runCloudBranch turnTimeoutMs).

(** ** Submissions *)

Lemma ok_insert t id row g :
  Inv t g → dispatches g !! id = None → d_id row = id → wfRow t row →
  (∀ id' r, dispatches g !! id' = Some r →
     q_idempotency_key (d_submit r) ≠ q_idempotency_key (d_submit row)) →
  ok t g (withDispatches (<[id := row]> (dispatches g)) g).
Proof.
  intros HI Hn Hid Hw Hfresh. apply ok_of; [done| | |by left|by left|exact (inv_receipts _ _ HI)|].
  - intros id' r Hr. exists r. simpl. split; [rw lookup_insert_ne //; congruence|].
    apply evolves_same; [by eapply inv_rows|same_class].
  - simpl. intros id' r. rw lookup_insert_Some.
    intros [[<- <-]|[_ Hr]]; [done|by apply (inv_rows _ _ HI)].
  - simpl. intros id1 id2 r1 r2. rw !lookup_insert_Some.
    intros [[<- <-]|[_ H1]] [[<- <-]|[_ H2]] Hkey; [done| | |by eapply inv_keys].
    + by destruct (Hfresh _ _ H2).
    + by destruct (Hfresh _ _ H1).
Qed.

(** Where each route puts a fresh row. *)
Definition routeOk (t : Z) (route : Route) : Prop :=
  t_state route = CloudCommitted ∧ t_placement route = Some InCloud ∧ t_executor route = None ∨
  t_state route = ComputerAccepted ∧ t_placement route = Some OnComputer ∧ is_Some (t_executor route) ∨
  t_state route = Blocked ∧ t_placement route = None ∧ t_executor route = None ∨
  t_state route = Offering ∧ t_placement route = None ∧ t_executor route = None ∧
    t_offerDeadline route = Some (t + DISPATCH_OFFER_WINDOW_MS).

Lemma routeFor_ok t request decision candidates targetConsent g :
  (∀ reason, decision = Commit OnComputer reason → is_Some (r_requestingDeviceId request)) →
  routeOk t (routeFor request decision candidates targetConsent t g).
Proof.
  intros Hr. unfold routeOk, routeFor.
  destruct decision as [[] reason|fallback reason|reason]; [|by left| |by right; right; left].
  - right; left. split_and!; [done|done|]. by eapply Hr.
  - destruct candidates; [|by right; right; right].
    destruct fallback as [[]|]; [|by left|]; cbv zeta;
      destruct (blockedReason _ _) as [why code]; by right; right; left.
Qed.

Lemma routeOk_wfRow t id request pairGrant fingerprint snapshot route gateHeld :
  routeOk t route →
  let row := insertedRow id request pairGrant fingerprint snapshot route gateHeld t in
  wfRow t row ∧ (t_state route = CloudCommitted → isCloud row).
Proof.
  unfold routeOk, wfRow, isWaiting, isTaken, isCloud, isClosed.
  intros [(Hs & Hp & He) | [(Hs & Hp & He) | [(Hs & Hp & He) | (Hs & Hp & He & Ho)]]]; simpl;
    rw Hs Hp; (split; [|try done]).
  - right; right; left. split_and!; [done|done|decide_state].
  - intros _. split_and!; [done|done|decide_state].
  - right; left. split_and!; [done|done|done|in_states].
  - right; right; right. split_and!; [done|done|in_states].
  - left. split; [done|]. exists (t + DISPATCH_OFFER_WINDOW_MS). split_and!; [done|lia|by left].
Qed.

Lemma quiet_offers row deadline candidates g :
  quiet g (foldl (λ g candidate, pushOffer row (pr_deviceId candidate) deadline
                                   (openOffer (d_id row) candidate deadline g)) g candidates).
Proof.
  revert g. induction candidates as [|c l IH]; intros g; simpl; [apply quiet_refl|].
  eapply quiet_after; [|apply IH].
  eapply quiet_after; [by apply (quiet_fields g (openOffer (d_id row) c deadline g))|apply quiet_send].
Qed.


(** A submission answers with the row of its key, or inserts one. *)
Definition placed (id key fingerprint : string) (res : gate * SubmitResult) : Prop :=
  ∀ id' replayed, res.2 = inr (id', replayed) →
    id' = id ∧ ∃ row, dispatches res.1 !! id = Some row ∧
      q_idempotency_key (d_submit row) = key ∧ q_fingerprint (d_submit row) = fingerprint.

Lemma placed_ext t id row g g' key fingerprint replayed :
  ext t g g' → dispatches g !! id = Some row →
  q_idempotency_key (d_submit row) = key → q_fingerprint (d_submit row) = fingerprint →
  placed id key fingerprint (g', inr (id, replayed)).
Proof.
  intros He Hrow Hk Hf id' b [= <- _]. split; [done|].
  destruct (He _ _ Hrow) as (row' & Hrow' & Hs & _). exists row'. by rw Hs.
Qed.

Lemma ok_place t env id request pairGrant fingerprint gateHeld g :
  Inv t g → dispatches g !! id = None →
  (∀ id' r, dispatches g !! id' = Some r → q_idempotency_key (d_submit r) ≠ r_idempotencyKey request) →
  let res := place turnTimeoutMs env id request pairGrant fingerprint gateHeld t g in
  ok t g res.1 ∧ placed id (r_idempotencyKey request) fingerprint res.
Proof.
  intros HI Hn Hfresh. unfold place. cbv zeta.
  set (refused := if gateHeld then release id g else g).
  assert (Hrefused : ∀ code, ok t g refused ∧ placed id (r_idempotencyKey request) fingerprint (refused, inl code)).
  { intros code. split; [|done]. apply quiet_ok; [done|]. unfold refused.
    destruct gateHeld; [by apply quiet_fields|apply quiet_refl]. }
  set (decision := decideDispatchPlacement _ _ _). set (isOffer := match decision with Offer _ _ => true | _ => false end).
  destruct (isOffer && _ && _); [apply Hrefused|]. destruct (isOffer && _ && _ && _); [apply Hrefused|].
  set (candidates := if isOffer then _ else []). set (consent := if bool_decide _ then _ else None).
  destruct (match decision with Commit OnComputer _ => _ | _ => false end) eqn:Hreq; [apply Hrefused|].
  assert (Hroute := routeFor_ok t request decision candidates consent g).
  set (route := routeFor request decision candidates consent t g) in *.
  assert (Hok : routeOk t route).
  { apply Hroute. intros reason Hd. rw Hd in Hreq. by apply negb_false_iff, bool_decide_eq_true in Hreq. }
  destruct (bool_decide _ && _ && _); [apply Hrefused|].
  destruct (routeOk_wfRow t id request pairGrant fingerprint (e_snapshot env) route gateHeld Hok) as [Hw Hc].
  set (row := insertedRow _ _ _ _ _ _ _ _) in *.
  assert (Hi := ok_insert t id row g HI Hn eq_refl Hw Hfresh).
  set (g1 := withDispatches _ g) in *.
  assert (Hthen : ∀ g', ok t g1 g' →
    ok t g g' ∧ placed id (r_idempotencyKey request) fingerprint (g', inr (id, false))).
  { intros g' Hg'. split; [by eapply ok_trans|]. eapply (placed_ext t id row g1); [apply Hg'| |done..].
    apply lookup_insert_eq. }
  assert (Hcloud : ok t g1 (finish env None (runCloudBranch env row t g1)) ∨ t_state route ≠ CloudCommitted).
  { destruct (decide (t_state route = CloudCommitted)); [left|by right].
    apply ok_finish; [|apply restOk_None]. apply okOutcome_runCloudBranch; [apply Hi|]. intros Hs. exists row.
    split; [by apply lookup_insert_eq|by apply Hc]. }
  destruct Hok as [(Hs & _) | [(Hs & _) | [(Hs & _) | (Hs & _)]]]; rw Hs; apply Hthen.
  - by destruct Hcloud.
  - apply quiet_ok; [apply Hi|apply quiet_notifyExecutor].
  - apply quiet_ok; [apply Hi|]. destruct gateHeld; [by apply quiet_fields|apply quiet_refl].
  - apply quiet_ok; [apply Hi|apply (quiet_offers row)].
Qed.

Lemma byIdempotencyKey_Some key row g :
  byIdempotencyKey key g = Some row →
  (∃ id, dispatches g !! id = Some row) ∧ q_idempotency_key (d_submit row) = key.
Proof.
  unfold byIdempotencyKey. intros Hh. apply head_Some_elem_of in Hh.
  apply list_elem_of_filter in Hh as [Hk Hin]. split; [|done].
  apply list_elem_of_fmap in Hin as ([id r] & -> & Hin%elem_of_map_to_list). by exists id.
Qed.

Lemma byIdempotencyKey_None key id row g :
  byIdempotencyKey key g = None → dispatches g !! id = Some row → q_idempotency_key (d_submit row) ≠ key.
Proof.
  unfold byIdempotencyKey. intros Hh%head_None Hrow Hk.
  apply (not_elem_of_nil row). rw -Hh. apply list_elem_of_filter. split; [done|].
  apply list_elem_of_fmap. exists (id, row). split; [done|]. by apply elem_of_map_to_list.
Qed.

Lemma ok_submit t env id request expectedGeneration pairGrant g :
  Inv t g → ok t g (submit sha256Hex turnTimeoutMs env id request expectedGeneration pairGrant t g).1.
Proof.
  intros HI. unfold submit. cbv zeta. destruct (_ <? _); [by apply ok_refl|].
  destruct (byIdempotencyKey _ g) as [existing|] eqn:Hkey; [destruct (negb _); by apply ok_refl|].
  destruct (dispatches g !! id) eqn:Hn; [by apply ok_refl|].
  destruct (r_kind (withRequestingDevice _ _)).
  - destruct (ownerRefusal _ _); [by apply ok_refl|].
    apply ok_place; [done..|]. intros id' r. by apply byIdempotencyKey_None.
  - destruct (admitTurn _ _ _ _ _ g) as [code|g1] eqn:Ha; [by apply ok_refl|].
    apply quiet_admit in Ha. assert (Hok := quiet_ok t g g1 HI Ha).
    eapply ok_trans; [exact Hok|]. apply ok_place; [apply Hok|by rw (quiet_lookup _ _ _ Ha)|].
    intros id' r. rw (quiet_lookup _ _ _ Ha). by apply byIdempotencyKey_None.
Qed.

(** ** Every event *)

Lemma ok_exec t env ev g : Inv t g → wfEvent ev → ok t g (exec sha256Hex turnTimeoutMs env t ev g).
Proof.
  intros HI Hwf. destruct ev as [id request expected pairGrant|a id frame|id|generation turnId receipt|id cancel
                                | |n answer| |p c]; simpl.
  - by apply ok_submit.
  - apply ok_finish; [by apply okOutcome_handleExecutorFrame|apply restOk_None].
  - apply ok_finish; [by apply okOutcome_dispatchStatus|apply restOk_None].
  - apply ok_finish; [by apply okOutcome_recordCloudDispatchTerminal|apply restOk_None].
  - apply ok_finish; [by apply okOutcome_cancelDispatch|apply restOk_None].
  - by apply ok_expireDispatches.
  - destruct (tasks g !! n) as [k|] eqn:Hk; [|by apply ok_refl].
    apply list_elem_of_lookup_2 in Hk. destruct (inv_tasks _ _ HI k Hk) as [Ha Hr].
    set (g1 := withTasks _ g).
    assert (Hok : ok t g g1).
    { apply ok_of; [done|exact (ext_refl t g HI)|apply (inv_rows _ _ HI)|by left| |exact (inv_receipts _ _ HI)|exact (inv_keys _ _ HI)].
      simpl. intros k' Hk'. left. by eapply list_elem_of_delete_inv. }
    eapply ok_trans; [exact Hok|]. apply ok_finish.
    + apply okOutcome_resumeAwait; [apply Hok|]. eapply awaitOk_ext; [apply Hok|done].
    + eapply restOk_ext; [apply Hok|done].
  - apply ok_of; [done|exact (ext_refl t g HI)|apply (inv_rows _ _ HI)|by left| |exact (inv_receipts _ _ HI)|exact (inv_keys _ _ HI)].
    simpl. intros k Hk. by apply not_elem_of_nil in Hk.
  - by apply quiet_ok, quiet_fields.
Qed.

(** ** Every trace *)

(** The clock does not run backwards. *)
Fixpoint clocked (t : Z) (trace : list stamped) : Prop :=
  match trace with
  | [] => True
  | s :: rest => t ≤ st_now s ∧ wfEvent (st_event s) ∧ clocked (st_now s) rest
  end.

Lemma Inv_mono t t' g : t ≤ t' → Inv t g → Inv t' g.
Proof.
  intros Ht HI. constructor; [|apply (inv_sent _ _ HI)| |apply (inv_receipts _ _ HI)|apply (inv_keys _ _ HI)].
  - intros id r Hr. destruct (inv_rows _ _ HI _ _ Hr). split; [done|by eapply wfRow_mono].
  - intros k Hk. destruct (inv_tasks _ _ HI k Hk) as [? Hr]. split; [done|].
    intros now rows E. destruct (Hr now rows E) as [? Hrows]. split; [lia|].
    intros r (cur & Hcur & Ho & Hc & Hrest)%Hrows. exists cur. split; [done|]. split; [|split; [|exact Hrest]].
    + intros ? ?. eapply isLate_mono; [done|auto].
    + intros ? ?. eapply isLate_mono; [done|auto].
Qed.

Lemma gate_Inv_init t : Inv t init.
Proof.
  constructor; [done| | |done|done].
  - intros o id Ho. by apply not_elem_of_nil in Ho.
  - intros k Hk. by apply not_elem_of_nil in Hk.
Qed.

Lemma run_app tr1 tr2 g :
  run sha256Hex turnTimeoutMs (tr1 ++ tr2) g =
  run sha256Hex turnTimeoutMs tr2 (run sha256Hex turnTimeoutMs tr1 g).
Proof. apply foldl_app. Qed.

Lemma clocked_app t tr1 tr2 :
  clocked t (tr1 ++ tr2) → clocked t tr1 ∧ clocked (default t (st_now <$> last tr1)) tr2.
Proof.
  revert t. induction tr1 as [|s tr1 IH]; intros t; [done|]. simpl.
  intros (? & ? & [? Hl]%IH). split; [done|]. rw last_cons. by destruct (last tr1).
Qed.

Lemma trace_Inv t trace g :
  Inv t g → clocked t trace → Inv (default t (st_now <$> last trace)) (run sha256Hex turnTimeoutMs trace g).
Proof.
  revert t g. induction trace as [|[env now ev] trace IH]; intros t g HI; [done|]. simpl.
  intros (Ht & Hwf & Hc). apply (Inv_mono t now) in HI; [|done].
  destruct (ok_exec now env ev g HI Hwf) as [HI' _]. specialize (IH _ _ HI' Hc). rw last_cons. by destruct (last trace).
Qed.

(** A row keeps what was submitted, and what a computer has taken stays taken. *)
Lemma run_row t trace g id r :
  Inv t g → clocked t trace → dispatches g !! id = Some r →
  ∃ r', dispatches (run sha256Hex turnTimeoutMs trace g) !! id = Some r' ∧
    d_submit r' = d_submit r ∧ (isTaken r → isTaken r').
Proof.
  revert t g r. induction trace as [|[env now ev] trace IH]; intros t g r HI; simpl.
  - intros _ ?. by exists r.
  - intros (Ht & Hwf & Hc) Hr. apply (Inv_mono t now) in HI; [|done].
    destruct (ok_exec now env ev g HI Hwf) as [HI' He].
    destruct (He _ _ Hr) as (r1 & Hr1 & Hs1 & _ & Hk1 & _).
    destruct (IH _ _ _ HI' Hc Hr1) as (r2 & Hr2 & Hs2 & Hk2). exists r2.
    split_and!; [done|congruence|auto].
Qed.

Lemma wfRow_onComputer t r : wfRow t r → d_placement r = Some OnComputer → isTaken r.
Proof. intros [(Hp & _) | [|[(Hp & _) | (Hp & _)]]] ?; congruence || done. Qed.

(** C15: Work a computer durably accepted never starts in the cloud, before or after: whatever
    the sockets, the alarms, the cancellations, the cloud's answers and their interleavings do,
    once a dispatch is placed on a computer it stays there, the gate no longer stores its
    prompt, and no start request for it is ever sent to the cloud. *)
Theorem accepted_work_never_runs_in_the_cloud t tr1 tr2 id row :
  clocked t (tr1 ++ tr2) →
  dispatches (run sha256Hex turnTimeoutMs tr1 init) !! id = Some row →
  d_placement row = Some OnComputer →
  let g := run sha256Hex turnTimeoutMs (tr1 ++ tr2) init in
  (∃ row', dispatches g !! id = Some row' ∧ d_placement row' = Some OnComputer ∧ d_payload row' = None) ∧
  ∀ o, o ∈ sent g → startOf o ≠ Some id.
Proof.
  intros [Hc1 Hc2]%clocked_app Hrow Hp. cbv zeta. rw run_app.
  assert (HI1 := trace_Inv t tr1 init (gate_Inv_init t) Hc1).
  assert (Htk := wfRow_onComputer _ _ (proj2 (inv_rows _ _ HI1 _ _ Hrow)) Hp).
  destruct (run_row _ tr2 _ id row HI1 Hc2 Hrow) as (row' & Hrow' & _ & Htk').
  destruct (Htk' Htk) as (Hp' & He' & Hn' & Hst').
  split; [by exists row'|]. intros o Ho Hs.
  assert (HI2 := trace_Inv _ tr2 _ HI1 Hc2).
  destruct (inv_sent _ _ HI2 o id Ho Hs) as (cur & Hcur & Hcl). simplify_eq.
  eapply taken_not_cloud; [exact (Htk' Htk)|done].
Qed.

(** ** Retried submissions *)

Lemma byIdempotencyKey_row t key id row g :
  Inv t g → dispatches g !! id = Some row → q_idempotency_key (d_submit row) = key →
  byIdempotencyKey key g = Some row.
Proof.
  intros HI Hrow Hk. destruct (byIdempotencyKey key g) as [r|] eqn:E.
  - apply byIdempotencyKey_Some in E as [[id' Hr] Hk'].
    assert (id' = id) as -> by (eapply inv_keys; [done..|congruence]). congruence.
  - by eapply byIdempotencyKey_None in E.
Qed.

(** The fingerprint [submit] stores or compares. *)
Definition submitFingerprint (request : DispatchSubmitRequest) (pairGrant : option string) : string :=
  routingFingerprint (withRequestingDevice (present (r_requestingDeviceId request)) request)
    (present pairGrant) (sha256Hex (characters (canonicalDispatchPayloadJson (r_payload request)))).

Lemma submit_placed t env id request expected pairGrant g :
  Inv t g →
  let res := submit sha256Hex turnTimeoutMs env id request expected pairGrant t g in
  ∀ did replayed, res.2 = inr (did, replayed) →
    textBytes (canonicalDispatchPayloadJson (r_payload request)) ≤ MAX_DISPATCH_PAYLOAD_BYTES ∧
    ∃ row, dispatches res.1 !! did = Some row ∧ d_id row = did ∧
      q_idempotency_key (d_submit row) = r_idempotencyKey request ∧
      q_fingerprint (d_submit row) = submitFingerprint request pairGrant.
Proof.
  intros HI. assert (Hid := ok_submit t env id request expected pairGrant g HI).
  cbv zeta. intros did replayed. revert Hid. unfold submit. cbv zeta.
  destruct (Z.ltb_spec MAX_DISPATCH_PAYLOAD_BYTES (textBytes (canonicalDispatchPayloadJson (r_payload request))));
    [done|]. fold (submitFingerprint request pairGrant).
  intros Hok Hres. split; [done|]. revert Hok Hres.
  destruct (byIdempotencyKey _ g) as [row|] eqn:Hkey.
  - destruct (String.eqb_spec (q_fingerprint (d_submit row)) (submitFingerprint request pairGrant)); [|done].
    simpl. intros _ [= <- _]. apply byIdempotencyKey_Some in Hkey as [[i Hrow] Hk].
    destruct (inv_rows _ _ HI _ _ Hrow) as [<- _]. by exists row.
  - destruct (dispatches g !! id) eqn:Hn; [done|].
    assert (Hplaced : ∀ g1 gateHeld, quiet g g1 →
      let res := place turnTimeoutMs env id (withRequestingDevice (present (r_requestingDeviceId request)) request)
                   (present pairGrant) (submitFingerprint request pairGrant) gateHeld t g1 in
      ok t g res.1 → res.2 = inr (did, replayed) →
      ∃ row, dispatches res.1 !! did = Some row ∧ d_id row = did ∧
        q_idempotency_key (d_submit row) = r_idempotencyKey request ∧
        q_fingerprint (d_submit row) = submitFingerprint request pairGrant).
    { intros g1 gateHeld Hq res Hok Hres.
      destruct (ok_place t env id (withRequestingDevice (present (r_requestingDeviceId request)) request)
                  (present pairGrant) (submitFingerprint request pairGrant) gateHeld g1) as [_ Hp].
      - by apply (quiet_ok t g g1).
      - by rw (quiet_lookup _ _ _ Hq).
      - intros id' r. rw (quiet_lookup _ _ _ Hq). by apply byIdempotencyKey_None.
      - destruct (Hp did replayed Hres) as (-> & row & Hrow & Hk & Hf).
        exists row. split_and!; [done| |done|done]. by destruct (inv_rows _ _ (proj1 Hok) _ _ Hrow). }
    destruct (r_kind (withRequestingDevice _ _)).
    + destruct (ownerRefusal _ _); [done|]. apply Hplaced, quiet_refl.
    + destruct (admitTurn _ _ _ _ _ g) as [code|g1] eqn:Ha; [done|].
      apply Hplaced. by eapply quiet_admit.
Qed.

(** A retried submission is answered with the dispatch of the first one and changes
    nothing: however long after, whatever happened to the dispatch in between, in whatever
    state the owner now is, and with whatever fresh id the retry drew. *)
Theorem submit_is_idempotent t tr1 now env id request expected pairGrant did replayed tr2
    env' id' expected' now' :
  let before := run sha256Hex turnTimeoutMs tr1 init in
  let res := submit sha256Hex turnTimeoutMs env id request expected pairGrant now before in
  let after := run sha256Hex turnTimeoutMs tr2 res.1 in
  clocked t (tr1 ++ {| st_env := env; st_now := now; st_event := Submit id request expected pairGrant |} :: tr2) →
  res.2 = inr (did, replayed) →
  submit sha256Hex turnTimeoutMs env' id' request expected' pairGrant now' after = (after, inr (did, true)).
Proof.
  intros before res after [Hc1 (Ht & _ & Hc2)]%clocked_app Hres.
  assert (HI1 := trace_Inv t tr1 init (gate_Inv_init t) Hc1). apply (Inv_mono _ now) in HI1; [|done].
  destruct (submit_placed now env id request expected pairGrant _ HI1 _ _ Hres)
    as (Hsize & row & Hrow & Hid & Hk & Hf).
  destruct (ok_submit now env id request expected pairGrant _ HI1) as [HI2 _].
  destruct (run_row _ tr2 _ _ _ HI2 Hc2 Hrow) as (row' & Hrow' & Hs & _).
  assert (HI3 := trace_Inv _ tr2 _ HI2 Hc2).
  unfold submit. cbv zeta. rw (proj2 (Z.ltb_ge _ _) Hsize). fold (submitFingerprint request pairGrant).
  rw (byIdempotencyKey_row _ _ did row' _ HI3); [done|by rw Hs|].
  rw Hs Hf. rw String.eqb_refl. unfold d_id in *. rw Hs Hid. done.
Qed.

(** ** Frames from other sockets *)

(** Only the frame's own socket hears of it: nothing else of the gate differs. *)
Definition onlyAnswered (device : string) (g g' : gate) : Prop :=
  g' = g ∨ ∃ f, g' = reply device f g ∧ ((∃ code, f = ErrorFrame code) ∨ ∃ reason, f = CloseFrame reason).

Lemma exec_reply env now a dispatchId frame g f :
  handleExecutorFrame turnTimeoutMs env a dispatchId frame now g = (reply (a_deviceId a) f g, None) →
  ((∃ code, f = ErrorFrame code) ∨ ∃ reason, f = CloseFrame reason) →
  onlyAnswered (a_deviceId a) g (exec sha256Hex turnTimeoutMs env now (FrameIn a dispatchId frame) g).
Proof. intros E Hf. simpl. rw E. right. by exists f. Qed.

(** Once a device has claimed a dispatch, no frame from another device, or from an older
    session of the same device, does anything to it: at most that socket is told an error.
    This covers a second claim, a forged completion and a release. *)
Theorem only_the_claiming_socket_moves_a_dispatch t tr env now a dispatchId frame row :
  let g := run sha256Hex turnTimeoutMs tr init in
  clocked t tr →
  dispatches g !! trim dispatchId = Some row → is_Some (d_executor row) → owns row a = false →
  onlyAnswered (a_deviceId a) g (exec sha256Hex turnTimeoutMs env now (FrameIn a dispatchId frame) g).
Proof.
  intros g Hc Hrow [d He] Ho. assert (HI := trace_Inv t tr init (gate_Inv_init t) Hc). fold g in HI.
  assert (Hs : d_state row ≠ Offering).
  { intros Hs. destruct (inv_rows _ _ HI _ _ Hrow) as [_ Hw].
    destruct (wfRow_waiting _ row Hw ltac:(rw Hs; in_states)) as (_ & _ & _ & _ & [(_ & ?) | (? & _)]); congruence. }
  destruct (String.eqb_spec (trim dispatchId) "") as [Hd|Hd].
  { eapply exec_reply; [unfold handleExecutorFrame; rw Hd; done|by right; eexists]. }
  assert (Hdeny : ∀ code, onlyAnswered (a_deviceId a) g (deny a code g).1)
    by (intros code; right; eexists; split; [done|by left; eexists]).
  simpl. unfold handleExecutorFrame, dispatchRow. rw (proj2 (String.eqb_neq _ _) Hd) Hrow Ho.
  destruct frame; try by apply Hdeny.
  - unfold handleClaim. rw Ho andb_false_r andb_false_l.
    destruct (String.eqb _ _); [right; eexists; split; [done|by right; eexists]|].
    rw (bool_decide_eq_false_2 _ Hs). by apply Hdeny.
  - by left.
Qed.
End submissions.

(** ** Concrete traces *)

(** A paired desktop, connected and ready, and an owner with a cloud sandbox. *)
Definition exampleDevice (seen : Z) : DevicePresenceState :=
  {| pr_deviceId := "desktop-1"; pr_presenceSessionId := "session-1"; pr_connected := true; pr_ready := true;
     pr_capabilities := [CapAgent; LocalFiles]; pr_protocolVersion := DEVICE_PRESENCE_PROTOCOL_VERSION;
     pr_lastSeenAt := seen |}.

Definition exampleEnv (ids : string) : Env :=
  {| e_snapshot := {| s_ownerGeneration := "generation-1"; s_writable := true; s_suspended := false;
                      s_cloudSandbox := true;
                      s_devices := [{| sd_device := {| dr_deviceId := "desktop-1"; dr_remoteExecutionEnabled := true |};
                                       sd_remoteExecution := Some Enabled |}];
                      s_pairings := [("phone-1", "desktop-1")]%string; s_engine := JStr "anthropic" |};
     e_ids := λ id, ids +:+ "-" +:+ id; e_retires := true |}.

(** The time is all the ids drawn differ by. *)
Definition at_ (now : Z) (ev : event) : stamped :=
  {| st_env := exampleEnv (pretty now); st_now := now; st_event := ev |}.
Definition exampleRun (trace : list stamped) : gate := run (λ s, s) 3600000 trace init.

Definition exampleSocket : Attachment := {| a_deviceId := "desktop-1"; a_presenceSessionId := "session-1" |}.

(** The phone's request is offered to the desktop, which claims it and acknowledges. *)
Definition acceptedTrace : list stamped :=
  [at_ 1000 (Presence {["desktop-1" := exampleDevice 1000]} {["desktop-1"]});
   at_ 1000 (Submit "d1" exampleRequest None (Some "desktop-1"));
   at_ 2000 (FrameIn exampleSocket "d1" (ClaimFrame "claim-1"));
   at_ 3000 (FrameIn exampleSocket "d1" AckFrame)]%string.

(** It falls silent; its lease runs out; it comes back, and completes. *)
Definition returningTrace : list stamped :=
  [at_ 200000 Alarm; at_ 200001 (FrameIn exampleSocket "d1" RenewFrame);
   at_ 200002 (FrameIn exampleSocket "d1" (CompleteFrame "completed" (Some "done") None))]%string.

Definition rowSummary (id : string) (g : gate) : option (DispatchState * option Placement * Z) :=
  (λ r, (d_state r, d_placement r, d_revision r)) <$> dispatches g !! id.

Example accepted_then_silent :
  rowSummary "d1" (exampleRun acceptedTrace) = Some (ComputerAccepted, Some OnComputer, 3) ∧
  rowSummary "d1" (exampleRun (acceptedTrace ++ take 1 returningTrace)) =
    Some (ReconciliationRequired, Some OnComputer, 4) ∧
  rowSummary "d1" (exampleRun (acceptedTrace ++ returningTrace)) = Some (Completed, Some OnComputer, 6).
Proof. by vm_compute. Qed.

Lemma accepted_work_never_runs_in_the_cloud_witness :
  ∃ row, clocked 0 (acceptedTrace ++ returningTrace) ∧
    dispatches (exampleRun acceptedTrace) !! "d1"%string = Some row ∧ d_placement row = Some OnComputer ∧
    let g := exampleRun (acceptedTrace ++ returningTrace) in
    (∃ row', dispatches g !! "d1"%string = Some row' ∧ d_placement row' = Some OnComputer ∧ d_payload row' = None) ∧
    ∀ o, o ∈ sent g → startOf o ≠ Some "d1"%string.
Proof.
  assert (Hc : clocked 0 (acceptedTrace ++ returningTrace)) by (simpl; split_and!; done).
  destruct (dispatches (exampleRun acceptedTrace) !! "d1"%string) as [row|] eqn:E; [|by vm_compute in E].
  assert (Hp : d_placement row = Some OnComputer) by (vm_compute in E; by injection E as <-).
  exists row. split_and!; [done..|].
  exact (accepted_work_never_runs_in_the_cloud (λ s, s) 3600000 0 acceptedTrace returningTrace "d1" row Hc E Hp).
Defined.

Lemma submit_is_idempotent_witness :
  let before := exampleRun (take 1 acceptedTrace) in
  let res := submit (λ s, s) 3600000 (exampleEnv "a") "d1" exampleRequest None (Some "desktop-1") 1000 before in
  let after := run (λ s, s) 3600000 (drop 2 acceptedTrace ++ returningTrace) res.1 in
  res.2 = inr ("d1", false) ∧
  submit (λ s, s) 3600000 (exampleEnv "b") "d2" exampleRequest None (Some "desktop-1") 300000 after =
    (after, inr ("d1", true)).
Proof.
  intros before res after. assert (Hr : res.2 = inr ("d1"%string, false)) by by vm_compute.
  split; [exact Hr|].
  assert (Hc : clocked 0 (take 1 acceptedTrace ++
    {| st_env := exampleEnv "a"; st_now := 1000; st_event := Submit "d1" exampleRequest None (Some "desktop-1") |}
      :: (drop 2 acceptedTrace ++ returningTrace))) by (simpl; split_and!; done).
  exact (submit_is_idempotent (λ s, s) 3600000 0 (take 1 acceptedTrace) 1000 (exampleEnv "a") "d1" exampleRequest
    None (Some "desktop-1"%string) "d1" false (drop 2 acceptedTrace ++ returningTrace)
    (exampleEnv "b") "d2" None 300000 Hc Hr).
Defined.

Lemma only_the_claiming_socket_moves_a_dispatch_witness :
  let g := exampleRun acceptedTrace in
  let other := {| a_deviceId := "desktop-1"; a_presenceSessionId := "session-0" |}%string in
  ∃ row, dispatches g !! trim "d1" = Some row ∧ owns row other = false ∧
    onlyAnswered "desktop-1" g
      (exec (λ s, s) 3600000 (exampleEnv "a") 4000 (FrameIn other "d1" (CompleteFrame "failed" None None)) g).
Proof.
  intros g other.
  destruct (dispatches g !! trim "d1") as [row|] eqn:E; [|by vm_compute in E].
  assert (Ho : owns row other = false) by (vm_compute in E; by injection E as <-).
  assert (He : is_Some (d_executor row)) by (vm_compute in E; injection E as <-; by eexists).
  assert (Hc : clocked 0 acceptedTrace) by (simpl; split_and!; done).
  exists row. split_and!; [done|exact Ho|].
  exact (only_the_claiming_socket_moves_a_dispatch (λ s, s) 3600000 0 acceptedTrace (exampleEnv "a") 4000 other
    "d1" (CompleteFrame "failed" None None) row Hc E He Ho).
Defined.

(** ** What a suspended call finds when it returns *)

Definition requestFor (key : string) (ingress : ExecutionIngress) (subject : ExecutionSubject)
    (mobile : option string) : DispatchSubmitRequest :=
  {| r_idempotencyKey := key; r_kind := Agent; r_ingress := ingress; r_subject := subject;
     r_targetMode := None; r_targetDeviceId := None; r_requestingDeviceId := mobile;
     r_conversationId := "conversation"; r_parentTurnId := None; r_threadId := None;
     r_requiredCapabilities := [CapAgent];
     r_payload := {| p_prompt := "find the report"; p_conversationId := "conversation"; p_clientMsgId := key;
                     p_userMessageEventId := None; p_locale := None; p_attachments := None;
                     p_execution := None; p_description := Some "find a report"; p_threadId := None;
                     p_model := None; p_handoff := false |} |}.

Definition startsOf (id : string) (g : gate) : list Output :=
  filter (λ o, startOf o = Some id) (sent g).

(** A start in flight when the dispatch is canceled outright puts the dispatch back in
    [cloud_running], and nothing stops the agent that started. *)
Example canceled_agent_is_resurrected :
  let canceled := [at_ 1000 (Submit "d1" (requestFor "key-1" Browser Portable None) None None);
                   at_ 1500 (Cancel "d1" "cancel-1")]%string in
  let answered := canceled ++ [at_ 2000 (Resume 0 (Returned "d1" None))] in
  rowSummary "d1" (exampleRun canceled) = Some (Canceled, Some InCloud, 2) ∧
  rowSummary "d1" (exampleRun answered) = Some (CloudRunning, Some InCloud, 3) ∧
  sent (exampleRun answered) = [StartAgent "d1" "thr-1000-d1"]%string.
Proof. by vm_compute. Qed.

(** A retry that keeps the alarm waiting, and another dispatch behind it in the alarm's list. *)
Definition waitingAlarm (request : DispatchSubmitRequest) (frames : list stamped) (alarmAt : Z) : list stamped :=
  [at_ 500 (Presence {["desktop-1" := exampleDevice 500]} {["desktop-1"]});
    at_ 1000 (Submit "d1" (requestFor "key-1" Browser Portable None) None None);
    at_ 1100 (Resume 0 (Refused 503 "unavailable"));
    at_ 2000 (Submit "d2" request None (r_requestingDeviceId request ≫= λ _, Some "desktop-1"));
    at_ 2100 (FrameIn exampleSocket "d2" (ClaimFrame "claim-2"))]%string ++ frames ++
  [at_ alarmAt Alarm].

(** The alarm marks for reconciliation a dispatch that completed while the alarm waited. *)
Example completed_dispatch_is_reopened :
  let trace := waitingAlarm (requestFor "key-2" Mobile ComputerSubject (Some "phone-1"))
                 [at_ 2200 (FrameIn exampleSocket "d2" AckFrame)] 200000 in
  let completed := trace ++ [at_ 200001 (FrameIn exampleSocket "d2" (CompleteFrame "completed" None None))] in
  rowSummary "d2" (exampleRun completed) = Some (Completed, Some OnComputer, 4) ∧
  rowSummary "d2" (exampleRun (completed ++ [at_ 200002 (Resume 0 (Returned "d1" None))])) =
    Some (ReconciliationRequired, Some OnComputer, 5).
Proof. by vm_compute. Qed.

(** A claim given back while the alarm waits goes to the cloud twice, in two threads. *)
Example released_claim_starts_twice :
  let trace := waitingAlarm (requestFor "key-2" Mobile Portable (Some "phone-1")) [] 40000 in
  let released := trace ++ [at_ 40001 (FrameIn exampleSocket "d2" (ReleaseFrame "busy"))] in
  startsOf "d2" (exampleRun released) = [StartAgent "d2" "thr-40001-d2"]%string ∧
  startsOf "d2" (exampleRun (released ++ [at_ 40002 (Resume 0 (Returned "d1" None))])) =
    [StartAgent "d2" "thr-40001-d2"; StartAgent "d2" "thr-40002-d2"]%string.
Proof. by vm_compute. Qed.
