(* ===== verification/OwnerGateHandoff.v ===== *)
(** * One turn per cloud chat

    The identity a placed chat runs under is drawn once, and every request that hands the chat
    to its conversation carries it, whatever was refused, retried or suspended in between. *)

From Corelib Require Import ssreflect.
From stdpp Require Import prelude gmap strings sorting pretty.
From S2P Require Import Prelude JsString Json DispatchPolicy DispatchRows OwnerGateDispatch OwnerGateSafety OwnerGateTraces.

#[local] Open Scope Z_scope.

(** ** Turn identities *)

Definition turnAt (id t : string) (g : gate) : Prop := handoffTurn <$> handoffs g !! id = Some t.

(** The identity a suspended call will use. *)
Definition awaitTurn (a : Await) : option (string * string) :=
  match a with
  | AwaitLease row _ t | AwaitPreparation row _ t | AwaitChat row _ (Some t) => Some (d_id row, t)
  | _ => None
  end.

Definition awaits (g : gate) (a : Await) : Prop := ∀ id t, awaitTurn a = Some (id, t) → turnAt id t g.

Record HInv (g : gate) : Prop := {
  hi_sent : ∀ id t, StartChat id (Some t) ∈ sent g → turnAt id t g;
  hi_tasks : ∀ k, k ∈ tasks g → awaits g (t_await k);
}.

(** A step that keeps every identity, and uses only those. *)
Record carries (g g' : gate) : Prop := {
  ca_turns : ∀ id t, turnAt id t g → turnAt id t g';
  ca_sent : ∀ id t, StartChat id (Some t) ∈ sent g' → StartChat id (Some t) ∈ sent g ∨ turnAt id t g';
  ca_tasks : ∀ k, k ∈ tasks g' → k ∈ tasks g ∨ awaits g' (t_await k);
}.

Definition carried (g : gate) (o : outcome) : Prop := carries g o.1 ∧ ∀ a, o.2 = Some a → awaits o.1 a.

Lemma carries_refl g : carries g g.
Proof. constructor; auto. Qed.

Lemma awaits_carries g g' a : carries g g' → awaits g a → awaits g' a.
Proof. intros Hc Ha id t E. by apply Hc, Ha. Qed.

Lemma carries_trans g1 g2 g3 : carries g1 g2 → carries g2 g3 → carries g1 g3.
Proof.
  intros H1 H2. constructor.
  - intros id t ?. by apply H2, H1.
  - intros id t [Hs|]%H2; [|by right]. apply H1 in Hs as [|]; [by left|right; by apply H2].
  - intros k [Hk|]%H2; [|by right]. apply H1 in Hk as [|]; [by left|right; by eapply awaits_carries].
Qed.

Lemma HInv_carries g g' : HInv g → carries g g' → HInv g'.
Proof.
  intros HI Hc. constructor.
  - intros id t [|]%Hc; [by apply Hc, HI|done].
  - intros k [|]%Hc; [|done]. eapply awaits_carries; [done|by apply HI].
Qed.

Lemma carried_ret g g' : carries g g' → carried g (g', None).
Proof. by split. Qed.

Lemma carried_trans g1 g2 o : carries g1 g2 → carried g2 o → carried g1 o.
Proof. intros ? [? ?]. split; [by eapply carries_trans|done]. Qed.

(** ** Steps that neither draw nor use an identity *)

Definition startsChat (o : Output) : Prop := match o with StartChat _ (Some _) => True | _ => False end.

Definition calm (g g' : gate) : Prop :=
  handoffs g' = handoffs g ∧ tasks g' = tasks g ∧ ∃ outs, sent g' = sent g ++ outs ∧ Forall (λ o, ¬ startsChat o) outs.

Lemma calm_refl g : calm g g.
Proof. split_and!; [done..|]. exists []. by rw app_nil_r. Qed.

Lemma calm_trans g1 g2 g3 : calm g1 g2 → calm g2 g3 → calm g1 g3.
Proof.
  intros (Hh & Ht & o & Hs & Ho) (Hh' & Ht' & o' & Hs' & Ho'). split_and!; [congruence..|].
  exists (o ++ o'). rw Hs' Hs -app_assoc. split; [done|by apply Forall_app].
Qed.

Lemma calm_fields g g' : handoffs g' = handoffs g → tasks g' = tasks g → sent g' = sent g → calm g g'.
Proof. intros ? ? Hs. split_and!; [done..|]. exists []. by rw Hs app_nil_r. Qed.

Lemma calm_output o g : ¬ startsChat o → calm g (output o g).
Proof. intros Ho. split_and!; [done..|]. exists [o]. split; [done|by constructor]. Qed.

Lemma calm_carries g g' : calm g g' → carries g g'.
Proof.
  intros (Hh & Ht & outs & Hs & Ho). constructor.
  - intros id t. unfold turnAt. by rw Hh.
  - intros id t. rw Hs. intros [|Hin]%elem_of_app; [by left|].
    by destruct (proj1 (Forall_forall _ _) Ho _ Hin).
  - intros k. rw Ht. by left.
Qed.

Lemma calm_then g g1 g2 : calm g1 g2 → calm g g1 → calm g g2.
Proof. intros ? ?. by eapply calm_trans. Qed.

Lemma calm_writeColumn g g0 id set : calm g0 g → calm g0 (writeColumn id set g).
Proof. apply calm_then. by apply calm_fields. Qed.

Lemma calm_send g g0 device f : calm g0 g → calm g0 (send device f g).
Proof. apply calm_then. unfold send. case_bool_decide; [by apply calm_output; intros []|apply calm_refl]. Qed.

Lemma calm_reply g g0 device f : calm g0 g → calm g0 (reply device f g).
Proof. apply calm_then, calm_output. by intros []. Qed.

Lemma calm_notifyExecutor g g0 row : calm g0 g → calm g0 (notifyExecutor row g).
Proof. intros ?. unfold notifyExecutor. case_match; [by apply calm_send|done]. Qed.

Lemma calm_setOfferStatus g g0 id device status : calm g0 g → calm g0 (setOfferStatus id device status g).
Proof. apply calm_then. by apply calm_fields. Qed.

Lemma calm_release g g0 turnId : calm g0 g → calm g0 (release turnId g).
Proof. apply calm_then. by apply calm_fields. Qed.

Lemma calm_releaseGate g g0 row : calm g0 g → calm g0 (releaseGate row g).
Proof. intros ?. unfold releaseGate. case_match; [done|]. by apply calm_writeColumn, calm_release. Qed.

Lemma calm_withdrawOffers g g0 id keep reason : calm g0 g → calm g0 (withdrawOffers id keep reason g).
Proof.
  unfold withdrawOffers. generalize (openOffers id g). intros l. revert g.
  induction l as [|offer l IH]; intros g Hg; simpl; [done|].
  apply IH. case_bool_decide; [done|]. by apply calm_send, calm_setOfferStatus.
Qed.

Lemma calm_patchDispatch g g0 row patch now notify :
  calm g0 g → calm g0 (patchDispatch row patch now notify g).1.1.
Proof.
  intros Hg. unfold patchDispatch. cbv zeta.
  assert (Hw : calm g0 (writePatch (d_id row) patch now g)) by (revert Hg; apply calm_then; by apply calm_fields).
  destruct (_ && _); simpl; [eapply calm_then; [by apply calm_output; intros []|]|];
    (destruct notify; [by apply calm_notifyExecutor|done]).
Qed.

Lemma calm_advance g g0 row patch now notify : calm g0 g → calm g0 (advance row patch now notify g).
Proof.
  intros Hg. apply (calm_patchDispatch g g0 row patch now notify) in Hg. revert Hg.
  unfold advance. by destruct (patchDispatch row patch now notify g) as [[g' next] b].
Qed.

Lemma calm_admit g g0 turnTimeoutMs turnId expected snapshot now g' :
  calm g0 g → admitTurn turnTimeoutMs turnId expected snapshot now g = inr g' → calm g0 g'.
Proof.
  intros Hg Ha. eapply calm_then; [|exact Hg]. revert Ha.
  unfold admitTurn. repeat case_match; try done; intros [= <-]; by apply calm_fields.
Qed.

Lemma calm_cancelCloud g g0 id : calm g0 g → calm g0 (output (CancelCloud id) g).
Proof. apply calm_then, calm_output. by intros []. Qed.

Create HintDb calm.
#[local] Hint Resolve calm_refl calm_cancelCloud calm_writeColumn calm_send calm_reply calm_notifyExecutor calm_setOfferStatus
  calm_release calm_releaseGate calm_withdrawOffers calm_advance : calm.

Lemma carried_calm g g' : calm g g' → carried g (g', None).
Proof. intros. by apply carried_ret, calm_carries. Qed.

Lemma carried_after g g1 o : calm g g1 → carried g1 o → carried g o.
Proof. intros. eapply carried_trans; [by apply calm_carries|done]. Qed.

Lemma carried_terminate g row patch now notify : carried g (terminate row patch now notify g).
Proof.
  assert (H := calm_patchDispatch g g row patch now notify (calm_refl g)). unfold terminate.
  destruct (patchDispatch row patch now notify g) as [[g' next] []]; simpl in H.
  - split; [by apply calm_carries|]. by intros a [= <-].
  - apply carried_calm. by apply calm_releaseGate.
Qed.

(** ** The handlers *)

Section handlers.
Context (sha256Hex : string → string) (turnTimeoutMs : Z).

Lemma carries_handoff id h g :
  (∀ t, turnAt id t g → handoffTurn h = t) → carries g (withHandoffs (<[id := h]> (handoffs g)) g).
Proof.
  intros Hh. constructor; [|by left|by left].
  intros id' t Ht. unfold turnAt in *. simpl. destruct (decide (id' = id)) as [->|].
  - rw lookup_insert_eq /=. by rw (Hh t Ht).
  - by rw lookup_insert_ne.
Qed.

Lemma turnAt_handoff id h g : turnAt id (handoffTurn h) (withHandoffs (<[id := h]> (handoffs g)) g).
Proof. unfold turnAt. simpl. by rw lookup_insert_eq. Qed.

(** Replacing the record of an identity by another of the same identity. *)
Lemma carries_same_turn id t h g :
  turnAt id t g → handoffTurn h = t → carries g (withHandoffs (<[id := h]> (handoffs g)) g).
Proof. intros Ht Hh. apply carries_handoff. unfold turnAt in *. intros t' E. congruence. Qed.

Lemma carried_cloudRefusal g row status code now : carried g (cloudRefusal row status code now g).
Proof. unfold cloudRefusal. case_match; [apply carried_calm; auto with calm|apply carried_terminate]. Qed.

Lemma carried_start g id turnId a :
  turnAt id turnId g → (∀ id' t, awaitTurn a = Some (id', t) → id' = id ∧ t = turnId) →
  carried g (output (StartChat id (Some turnId)) g, Some a).
Proof.
  intros Ht Ha. split.
  - constructor; [done| |by left]. intros id' t [|Hin]%elem_of_app; [by left|].
    apply list_elem_of_singleton in Hin as [= -> ->]. by right.
  - intros a' [= <-] id' t E. by destruct (Ha _ _ E) as [-> ->].
Qed.

Lemma carried_await g a : awaits g a → carried g (g, Some a).
Proof. intros Ha. split; [apply carries_refl|]. by intros a' [= <-]. Qed.

Lemma carried_handToConversation g env row now turnId :
  turnAt (d_id row) turnId g → carried g (handToConversation env row now turnId g).
Proof.
  intros Ht. unfold handToConversation. destruct (negb _).
  - destruct (e_retires env); [|by apply carried_calm, calm_refl].
    eapply carried_trans; [by eapply (carries_same_turn _ turnId (Retired turnId))|].
    apply carried_calm. by apply calm_releaseGate, calm_refl.
  - eapply carried_after; [apply calm_writeColumn, calm_refl|]. by apply carried_start; [|intros ? ? [= <- <-]].
Qed.

Lemma carried_startCloudChat g env row now : carried g (startCloudChat turnTimeoutMs env row now g).
Proof.
  unfold startCloudChat. cbv zeta.
  match goal with |- context [handoffs ?x !! d_id row] => match x with g => fail 1 | _ => set (g1 := x) end end.
  assert (Hg1 : carries g g1).
  { unfold g1. destruct (handoffs g !! d_id row) eqn:E; [apply carries_refl|].
    case_match; [|apply carries_refl]. apply carries_handoff. unfold turnAt. by rw E. }
  eapply carried_trans; [exact Hg1|]. clearbody g1.
  destruct (handoffs g1 !! d_id row) as [[t | t | t]|] eqn:E.
  - destruct (admitTurn _ _ _ _ _ g1) as [code|g2] eqn:Ha; [apply carried_cloudRefusal|].
    apply (calm_admit g1 g1) in Ha; [|apply calm_refl]. eapply carried_after; [exact Ha|].
    apply carried_await. intros id t' [= <- <-]. unfold turnAt. destruct Ha as (-> & _). by rw E.
  - apply carried_handToConversation. unfold turnAt. by rw E.
  - apply carried_cloudRefusal.
  - eapply carried_after; [|by apply carried_await]. apply calm_output. by intros [].
Qed.

Lemma carried_runCloudBranch g env row now : carried g (runCloudBranch turnTimeoutMs env row now g).
Proof.
  unfold runCloudBranch. case_match; [by apply carried_calm, calm_refl|].
  case_match; [apply carried_terminate|]. case_match; [|apply carried_terminate].
  eapply carried_after; [apply calm_writeColumn, calm_refl|]. case_match; [apply carried_startCloudChat|].
  unfold startCloudAgent. cbv zeta.
  case_match; (eapply carried_after; [|by apply carried_await]; apply calm_output; by intros []).
Qed.

Lemma carried_resumeAwait g env a answer : awaits g a → carried g (resumeAwait env a answer g).
Proof.
  intros Ha. assert (Hret : carried g (g, None)) by apply carried_calm, calm_refl.
  destruct a as [row now turnId|row now turnId|row now turnId|row now threadId|row now threadId|row]; simpl.
  - assert (Ht := Ha _ _ eq_refl). destruct answer; [| |done].
    + eapply carried_after; [apply calm_writeColumn, calm_refl|]. by apply carried_await; intros ? ? [= <- <-].
    + eapply carried_after; [apply calm_writeColumn, calm_refl|]. apply carried_cloudRefusal.
  - assert (Ht := Ha _ _ eq_refl). destruct answer; [|done..].
    assert (Hhand : carried g (handToConversation env row now turnId
                      (withHandoffs (<[d_id row := Registered turnId]> (handoffs g)) g))).
    { eapply carried_trans; [|apply carried_handToConversation, (turnAt_handoff _ (Registered turnId))].
      by apply (carries_same_turn _ turnId). }
    destruct (handoffs g !! d_id row) as [[]|]; [done|done| |done].
    eapply carried_after; [apply calm_release, calm_refl|]. apply carried_cloudRefusal.
  - destruct answer as [started thread|status code|]; [| |done].
    + repeat case_match; try done; apply carried_calm; auto with calm.
    + destruct turnId as [turnId|]; [|apply carried_cloudRefusal].
      case_match; [|apply carried_cloudRefusal]. case_match; [|done].
      eapply carried_trans; [|apply carried_cloudRefusal].
      by eapply (carries_same_turn _ turnId); [apply Ha|].
  - destruct answer; [|apply carried_cloudRefusal|done]. apply carried_calm; auto with calm.
  - destruct answer; [|done..]. apply carried_calm; auto with calm.
  - apply carried_calm; auto with calm.
Qed.

Lemma carried_resolveUnaccepted g env row now reason :
  carried g (resolveUnaccepted turnTimeoutMs env row now reason g).
Proof.
  unfold resolveUnaccepted. case_match; [by apply carried_calm, calm_refl|]. cbv zeta.
  eapply carried_after; [apply calm_withdrawOffers, calm_refl|].
  case_match; [apply carried_terminate|]. case_match.
  - eapply carried_after; [apply calm_advance, calm_refl|apply carried_runCloudBranch].
  - destruct (blockedReason _ _). apply carried_terminate.
Qed.

Lemma carried_expireRow g env now row : carried g (expireRow turnTimeoutMs env now row g).
Proof.
  unfold expireRow. cbv zeta.
  repeat case_match; try apply carried_resolveUnaccepted; try apply carried_runCloudBranch;
    apply carried_calm; auto with calm.
Qed.

Lemma carries_suspend g a rest : awaits g a → carries g (suspend a rest g).
Proof.
  intros Ha. constructor; [done|by left|]. simpl. intros k [|Hk]%elem_of_app; [by left|].
  apply list_elem_of_singleton in Hk as ->. by right.
Qed.

Lemma carries_expireRows env now rows g : carries g (expireRows turnTimeoutMs env now rows g).
Proof.
  revert g. induction rows as [|row rows IH]; intros g; simpl; [apply carries_refl|].
  assert (Hrow := carried_expireRow g env now row).
  destruct (expireRow turnTimeoutMs env now row g) as [g' [a|]]; destruct Hrow as [Hc Ha]; simpl in *;
    eapply carries_trans; [exact Hc|by apply carries_suspend, Ha|exact Hc|apply IH].
Qed.

Lemma carries_finish g env rest o : carried g o → carries g (finish turnTimeoutMs env rest o).
Proof.
  intros [Hc Ha]. unfold finish. destruct o as [g' [a|]]; simpl in *.
  - eapply carries_trans; [exact Hc|]. by apply carries_suspend, Ha.
  - destruct rest as [[now rows]|]; [|done]. eapply carries_trans; [exact Hc|apply carries_expireRows].
Qed.

Lemma carried_handleClaim g env a row claimRequestId now : carried g (handleClaim env a row claimRequestId now g).
Proof.
  unfold handleClaim, deny. cbv zeta. repeat case_match; apply carried_calm; auto 6 with calm.
Qed.

Lemma carried_handleOwnedFrame g env a row frame now :
  carried g (handleOwnedFrame turnTimeoutMs env a row frame now g).
Proof.
  destruct frame; simpl; unfold deny; try (apply carried_calm; auto with calm).
  - case_match; [apply carried_calm; auto with calm|].
    eapply carried_after; [apply calm_setOfferStatus, calm_advance, calm_refl|]. apply carried_resolveUnaccepted.
  - repeat case_match; apply carried_calm; auto with calm.
  - repeat case_match; apply carried_calm; auto with calm.
  - repeat case_match; apply carried_calm; auto with calm.
  - repeat case_match; try apply carried_terminate; apply carried_calm; auto with calm.
Qed.

Lemma carried_handleExecutorFrame g env a dispatchId frame now :
  carried g (handleExecutorFrame turnTimeoutMs env a dispatchId frame now g).
Proof.
  unfold handleExecutorFrame, deny. repeat case_match; try apply carried_handleClaim;
    try apply carried_handleOwnedFrame; apply carried_calm; auto with calm.
Qed.

Lemma carried_dispatchStatus g dispatchId now : carried g (dispatchStatus dispatchId now g).
Proof.
  unfold dispatchStatus. cbv zeta. repeat case_match; try apply carried_terminate;
    apply carried_calm; auto with calm.
Qed.

Lemma carried_recordCloudDispatchTerminal g generation turnId receipt now :
  carried g (recordCloudDispatchTerminal generation turnId receipt now g).
Proof.
  unfold recordCloudDispatchTerminal. cbv zeta.
  match goal with |- carried _ (match head (filter _ (map_to_list (dispatches ?x)).*2) with _ => _ end) =>
    set (g1 := x) end.
  assert (Hg1 : calm g g1) by (unfold g1; case_match; [apply calm_refl|by apply calm_fields]).
  case_match; [|by apply carried_calm]. eapply carried_after; [exact Hg1|apply carried_dispatchStatus].
Qed.

Lemma carried_cancelDispatch g dispatchId cancelRequestId now :
  carried g (cancelDispatch dispatchId cancelRequestId now g).1.
Proof.
  unfold cancelDispatch. cbv zeta. repeat case_match; simpl;
    try (eapply carried_after; [apply calm_withdrawOffers, calm_refl|apply carried_terminate]);
    apply carried_calm; auto with calm.
Qed.

Lemma calm_offers row deadline candidates g g0 :
  calm g0 g →
  calm g0 (foldl (λ g candidate, pushOffer row (pr_deviceId candidate) deadline
                                   (openOffer (d_id row) candidate deadline g)) g candidates).
Proof.
  revert g. induction candidates as [|c l IH]; intros g Hg; simpl; [done|]. apply IH, calm_send.
  revert Hg. apply calm_then. by apply calm_fields.
Qed.

Lemma carries_place g env id request pairGrant fingerprint gateHeld now :
  carries g (place turnTimeoutMs env id request pairGrant fingerprint gateHeld now g).1.
Proof.
  unfold place. cbv zeta.
  assert (Hrefused : ∀ code : string, carries g (if gateHeld then release id g else g, @inl string (string * bool) code).1)
    by (intros code; apply calm_carries; simpl; destruct gateHeld; auto with calm).
  set (decision := decideDispatchPlacement _ _ _).
  set (isOffer := match decision with Offer _ _ => true | _ => false end).
  destruct (isOffer && _ && _); [apply Hrefused|]. destruct (isOffer && _ && _ && _); [apply Hrefused|].
  set (candidates := if isOffer then _ else []). set (consent := if bool_decide _ then _ else None).
  destruct (match decision with Commit OnComputer _ => _ | _ => false end); [apply Hrefused|].
  set (route := routeFor _ _ _ _ _ _). destruct (bool_decide _ && _ && _); [apply Hrefused|].
  set (row := insertedRow _ _ _ _ _ _ _ _). set (g1 := withDispatches _ g).
  assert (Hg1 : calm g g1) by by apply calm_fields.
  assert (Hcloud : carries g (finish turnTimeoutMs env None (runCloudBranch turnTimeoutMs env row now g1))).
  { eapply carries_trans; [by apply calm_carries|]. apply carries_finish, carried_runCloudBranch. }
  destruct (t_state route); simpl; try exact Hcloud; apply calm_carries;
    [by apply (calm_offers row)|by apply calm_notifyExecutor|destruct gateHeld; auto with calm].
Qed.

Lemma carries_exec g env now ev : HInv g → carries g (exec sha256Hex turnTimeoutMs env now ev g).
Proof.
  intros HI. destruct ev as [id request expected pairGrant|a id frame|id|generation turnId receipt|id cancel
                            | |n answer| |p c]; simpl.
  - unfold submit. cbv zeta. repeat case_match; simpl; try apply carries_refl; try apply carries_place.
    eapply carries_trans; [|apply carries_place]. apply calm_carries.
    eapply calm_admit; [apply calm_refl|done].
  - apply carries_finish, carried_handleExecutorFrame.
  - apply carries_finish, carried_dispatchStatus.
  - apply carries_finish, carried_recordCloudDispatchTerminal.
  - apply carries_finish, carried_cancelDispatch.
  - apply carries_expireRows.
  - destruct (tasks g !! n) as [k|] eqn:Hk; [|apply carries_refl].
    apply list_elem_of_lookup_2, (hi_tasks _ HI) in Hk.
    eapply carries_trans; [|apply carries_finish, carried_resumeAwait; exact Hk].
    constructor; [done|by left|]. intros k' Hk'. left. simpl in Hk'. by eapply list_elem_of_delete_inv.
  - constructor; [done|by left|]. intros k Hk. by apply not_elem_of_nil in Hk.
  - by apply calm_carries, calm_fields.
Qed.

Lemma run_HInv trace g : HInv g → HInv (run sha256Hex turnTimeoutMs trace g).
Proof.
  revert g. induction trace as [|[env now ev] trace IH]; intros g HI; [done|]. simpl.
  apply IH. eapply HInv_carries; [done|by apply carries_exec].
Qed.

Lemma HInv_init : HInv init.
Proof. constructor; [intros id t Hin|intros k Hin]; by apply not_elem_of_nil in Hin. Qed.

(** The identities a dispatch was handed to its conversation with. *)
Definition turnsHanded (id : string) (g : gate) : list string :=
  omap (λ o, match o with StartChat i (Some t) => if String.eqb i id then Some t else None | _ => None end) (sent g).

Lemma elem_of_turnsHanded id t g : t ∈ turnsHanded id g → StartChat id (Some t) ∈ sent g.
Proof.
  intros (o & Ho & Ht)%list_elem_of_omap. destruct o as [|i [t'|]| | | |]; try done.
  destruct (String.eqb_spec i id); [|done]. by simplify_eq.
Qed.

(** C26: A placed chat is one turn: every request that hands the dispatch to its conversation
    with an identity carries the same one, however the random ids, the refusals, the retries,
    the alarms and the evictions fall. *)
Theorem one_turn_per_placed_chat trace id t t' :
  let g := run sha256Hex turnTimeoutMs trace init in
  t ∈ turnsHanded id g → t' ∈ turnsHanded id g → t = t'.
Proof.
  intros g Ht Ht'. assert (HI : HInv g) by apply run_HInv, HInv_init.
  apply elem_of_turnsHanded, (hi_sent _ HI) in Ht, Ht'. unfold turnAt in *. congruence.
Qed.
End handlers.

(** A browser chat: the conversation answers 503, and the alarm tries again. *)
Definition chatTrace : list stamped :=
  [at_ 1000 (Submit "d1" {| r_idempotencyKey := "key-1"; r_kind := Chat; r_ingress := Browser; r_subject := Portable;
      r_targetMode := None; r_targetDeviceId := None; r_requestingDeviceId := None;
      r_conversationId := "conversation"; r_parentTurnId := None; r_threadId := None;
      r_requiredCapabilities := [CapChat];
      r_payload := {| p_prompt := "hello"; p_conversationId := "conversation"; p_clientMsgId := "key-1";
                      p_userMessageEventId := None; p_locale := None; p_attachments := None;
                      p_execution := None; p_description := None; p_threadId := None;
                      p_model := None; p_handoff := false |} |} None None);
   at_ 1100 (Resume 0 (Returned "" None)); at_ 1200 (Resume 0 (Returned "" None));
   at_ 1300 (Resume 0 (Refused 503 "unavailable")); at_ 3000 Alarm]%string.

Lemma one_turn_per_placed_chat_witness :
  turnsHanded "d1" (exampleRun chatTrace) = ["1000-d1"; "1000-d1"]%string ∧ "1000-d1"%string = "1000-d1"%string.
Proof.
  assert (H : turnsHanded "d1" (exampleRun chatTrace) = ["1000-d1"; "1000-d1"]%string) by by vm_compute.
  split; [exact H|]. apply (one_turn_per_placed_chat (λ s, s) 3600000 chatTrace "d1").
  - change ("1000-d1"%string ∈ turnsHanded "d1" (exampleRun chatTrace)). rw H. by left.
  - change ("1000-d1"%string ∈ turnsHanded "d1" (exampleRun chatTrace)). rw H. by left.
Defined.
