(* ===== verification/RunCoordinator.v ===== *)
(** * The run coordinator of the desktop runner

    [packages/runtime/kernel/runner/run-coordinator.ts], the lane that admits orchestrator
    runs one at a time and drains the turns queued behind them; [executeOrQueue...] of
    [orchestrator-dispatch.ts], the callers that park behind a queued turn; [cleanupRun] of
    [orchestrator-coordinator.ts]; and the teardown of the lane in [stop]
    ([runtime-initialization.ts]).

    A drain pass runs synchronously up to the turn it waits for, so the coordinator's state
    changes at the events of a trace: a call, a wake-up the microtask queue delivers, a turn
    that settles, a shutdown.  What a turn does to the lane while it runs are further events. *)

From Corelib Require Import ssreflect.
From stdpp Require Import prelude gmap strings.
From S2P Require Import Prelude.

(** ** The lane *)

Inductive Priority := User | System.
#[export] Instance Priority_eq : EqDecision Priority.
Proof. solve_decision. Defined.

(** A queued turn, with the call that waits for it. *)
Record Turn := { t_call : nat; t_priority : Priority }.
#[export] Instance Turn_eq : EqDecision Turn.
Proof. solve_decision. Defined.

Inductive Visibility := Visible | Hidden.

Record Registration := { runId : string; conversationId : string; uiVisibility : Visibility }.

(** A caller's promise. *)
Inductive Call := Parked | Resolved | Rejected.
#[export] Instance Call_eq : EqDecision Call.
Proof. solve_decision. Defined.

(** What the lane did, in order. *)
Inductive Entry := Queued (t : Turn) | Started (t : Turn) | Settled (t : Turn) | Canceled (t : Turn).

(** [l_inflight] is the turn the live drain waits for; [l_direct] are the calls that run
    without the queue; [l_scheduled] counts the [startDrain]s on the microtask queue;
    [l_waiters] and [l_closing] are the calls waiting for the pass to end and for the scope to
    close; [l_closed] is [closePromise] settled. *)
Record lane := {
  activeRun : option Registration;
  activeSession : bool;
  queue : list Turn;
  draining : bool;
  wakePending : bool;
  closed : bool;
  drainPasses : nat;
  passWaiters : nat;
  l_inflight : option Turn;
  l_direct : list nat;
  l_scheduled : nat;
  l_shutdown : bool;
  l_calls : gmap nat Call;
  l_log : list Entry;
}.

Definition createRunCoordinator : lane :=
  {| activeRun := None; activeSession := false; queue := []; draining := false; wakePending := false;
     closed := false; drainPasses := 0; passWaiters := 0; l_inflight := None; l_direct := []; l_scheduled := 0;
     l_shutdown := false; l_calls := ∅; l_log := [] |}.

Definition withRun (r : option Registration) (s : bool) (l : lane) : lane :=
  {| activeRun := r; activeSession := s; queue := queue l; draining := draining l; wakePending := wakePending l;
     closed := closed l; drainPasses := drainPasses l; passWaiters := passWaiters l; l_inflight := l_inflight l;
     l_direct := l_direct l; l_scheduled := l_scheduled l; l_shutdown := l_shutdown l; l_calls := l_calls l;
     l_log := l_log l |}.
Definition withQueue (q : list Turn) (l : lane) : lane :=
  {| activeRun := activeRun l; activeSession := activeSession l; queue := q; draining := draining l;
     wakePending := wakePending l; closed := closed l; drainPasses := drainPasses l; passWaiters := passWaiters l;
     l_inflight := l_inflight l; l_direct := l_direct l; l_scheduled := l_scheduled l; l_shutdown := l_shutdown l;
     l_calls := l_calls l; l_log := l_log l |}.
Definition withDrain (d w : bool) (waiters : nat) (t : option Turn) (l : lane) : lane :=
  {| activeRun := activeRun l; activeSession := activeSession l; queue := queue l; draining := d;
     wakePending := w; closed := closed l; drainPasses := drainPasses l; passWaiters := waiters;
     l_inflight := t; l_direct := l_direct l; l_scheduled := l_scheduled l; l_shutdown := l_shutdown l;
     l_calls := l_calls l; l_log := l_log l |}.
Definition withPasses (n : nat) (l : lane) : lane :=
  {| activeRun := activeRun l; activeSession := activeSession l; queue := queue l; draining := draining l;
     wakePending := wakePending l; closed := closed l; drainPasses := n; passWaiters := passWaiters l;
     l_inflight := l_inflight l; l_direct := l_direct l; l_scheduled := l_scheduled l; l_shutdown := l_shutdown l;
     l_calls := l_calls l; l_log := l_log l |}.
Definition withScheduled (n : nat) (l : lane) : lane :=
  {| activeRun := activeRun l; activeSession := activeSession l; queue := queue l; draining := draining l;
     wakePending := wakePending l; closed := closed l; drainPasses := drainPasses l; passWaiters := passWaiters l;
     l_inflight := l_inflight l; l_direct := l_direct l; l_scheduled := n; l_shutdown := l_shutdown l;
     l_calls := l_calls l; l_log := l_log l |}.
Definition withClosed (c s : bool) (l : lane) : lane :=
  {| activeRun := activeRun l; activeSession := activeSession l; queue := queue l; draining := draining l;
     wakePending := wakePending l; closed := c; drainPasses := drainPasses l; passWaiters := passWaiters l;
     l_inflight := l_inflight l; l_direct := l_direct l; l_scheduled := l_scheduled l; l_shutdown := s;
     l_calls := l_calls l; l_log := l_log l |}.
Definition withCalls (d : list nat) (c : gmap nat Call) (l : lane) : lane :=
  {| activeRun := activeRun l; activeSession := activeSession l; queue := queue l; draining := draining l;
     wakePending := wakePending l; closed := closed l; drainPasses := drainPasses l; passWaiters := passWaiters l;
     l_inflight := l_inflight l; l_direct := d; l_scheduled := l_scheduled l; l_shutdown := l_shutdown l;
     l_calls := c; l_log := l_log l |}.
Definition logged (e : Entry) (l : lane) : lane :=
  {| activeRun := activeRun l; activeSession := activeSession l; queue := queue l; draining := draining l;
     wakePending := wakePending l; closed := closed l; drainPasses := drainPasses l; passWaiters := passWaiters l;
     l_inflight := l_inflight l; l_direct := l_direct l; l_scheduled := l_scheduled l; l_shutdown := l_shutdown l;
     l_calls := l_calls l; l_log := l_log l ++ [e] |}.

(** ** Admission *)

(** [None] is the thrown "The orchestrator is already running." *)
Definition beginRun (run : Registration) (l : lane) : option lane :=
  match activeRun l with
  | Some current => if String.eqb (runId current) (runId run) then Some (withRun (Some run) (activeSession l) l) else None
  | None => Some (withRun (Some run) (activeSession l) l)
  end.

Definition releaseRun (id : string) (l : lane) : lane * bool :=
  match activeRun l with
  | Some current => if String.eqb (runId current) id then (withRun None false l, true) else (l, false)
  | None => (l, false)
  end.

(** ** The queue *)

(** [queue.findIndex] and [queue.splice]: a user turn goes before the first that is not one. *)
Fixpoint enqueue (turn : Turn) (queue : list Turn) : list Turn :=
  match t_priority turn, queue with
  | User, entry :: rest =>
      if bool_decide (t_priority entry = User) then entry :: enqueue turn rest else turn :: queue
  | _, _ => queue ++ [turn]
  end.

Definition wake (l : lane) : lane := withScheduled (S (l_scheduled l)) l.

Definition enqueueTurn (turn : Turn) (l : lane) : lane :=
  let l := logged (Queued turn) (withQueue (enqueue turn (queue l)) l) in
  match activeRun l with None => wake l | Some _ => l end.

(** ** The drain *)

(** [Effect.ensuring]: the pass is over, and its waiters hear of it. *)
Definition passEnd (l : lane) : lane :=
  let l := withDrain false (wakePending l) 0 None l in
  if closed l then withClosed true true l else l.

(** The loops of [drainEffect], up to the turn they wait for or their end. *)
Fixpoint drainLoop (fuel : nat) (l : lane) : lane :=
  match closed l, activeRun l, queue l with
  | false, None, turn :: rest =>
      logged (Started turn) (withDrain true (wakePending l) (passWaiters l) (Some turn) (withQueue rest l))
  | _, _, _ =>
      match fuel with
      | O => passEnd l
      | S fuel =>
          if negb (closed l) && wakePending l
          then drainLoop fuel (withDrain (draining l) false (passWaiters l) (l_inflight l) l)
          else passEnd l
      end
  end.

Definition startDrain (l : lane) : lane :=
  if closed l then l
  else if draining l then withDrain true true (passWaiters l) (l_inflight l) l
  else drainLoop 2 (withPasses (S (drainPasses l)) (withDrain true (wakePending l) (passWaiters l) None l)).

(** [drainNow]: a caller waits if a pass is live. *)
Definition drainNow (l : lane) : lane :=
  let l := startDrain l in
  if draining l then withDrain true (wakePending l) (S (passWaiters l)) (l_inflight l) l else l.

Definition shutdown (l : lane) : lane :=
  if closed l then l else withClosed true (negb (draining l)) l.

(** ** Callers *)

Definition settleCall (id : nat) (ok : bool) (calls : gmap nat Call) : gmap nat Call :=
  match calls !! id with
  | Some Parked => <[id := if ok then Resolved else Rejected]> calls
  | _ => calls
  end.

(** [executeOrQueueUserOrchestratorTurn] and [executeOrQueueSystemOrchestratorTurn]: on an idle
    lane the call runs at once. *)
Definition executeOrQueue (id : nat) (priority : Priority) (rejectIfBusy : bool) (l : lane) : lane :=
  match activeRun l with
  | None => withCalls (id :: l_direct l) (<[id := Parked]> (l_calls l)) l
  | Some _ =>
      if rejectIfBusy && bool_decide (priority = System)
      then withCalls (l_direct l) (<[id := Resolved]> (l_calls l)) l
      else enqueueTurn {| t_call := id; t_priority := priority |}
             (withCalls (l_direct l) (<[id := Parked]> (l_calls l)) l)
  end.

Definition cleanupRun (id : string) (l : lane) : lane := wake (releaseRun id l).1.

(** [settleTurn] returned: the call behind the turn has its answer, and the drain goes on. *)
Definition turnDone (ok : bool) (l : lane) : lane :=
  match l_inflight l with
  | None => l
  | Some turn =>
      let l := withCalls (l_direct l) (settleCall (t_call turn) ok (l_calls l)) l in
      let l := logged (Settled turn) (withDrain true (wakePending l) (passWaiters l) None l) in
      drainLoop 1 l
  end.

Definition directDone (id : nat) (ok : bool) (l : lane) : lane :=
  withCalls (filter (λ i, i ≠ id) (l_direct l)) (settleCall id ok (l_calls l)) l.

(** The end of [stop]: the lane is cleared and every queued turn is canceled
    ([turn.cancel?.(shutdownError)]). *)
Definition cancelTurn (l : lane) (turn : Turn) : lane :=
  logged (Canceled turn) (withCalls (l_direct l) (settleCall (t_call turn) false (l_calls l)) l).

Definition teardown (l : lane) : lane := withQueue [] (foldl cancelTurn (withRun None false l) (queue l)).

(** ** Events *)

Inductive event :=
  | CallTurn (id : nat) (priority : Priority) (rejectIfBusy : bool)
  | Enqueue (turn : Turn)
  | Begin (run : Registration)
  | Release (id : string)
  | Cleanup (id : string)
  | Wake
  | Microtask
  | DrainNow
  | TurnDone (ok : bool)
  | DirectDone (id : nat) (ok : bool)
  | Shutdown
  | Teardown.

Definition exec (ev : event) (l : lane) : lane :=
  match ev with
  | CallTurn id priority rejectIfBusy => executeOrQueue id priority rejectIfBusy l
  | Enqueue turn => enqueueTurn turn l
  | Begin run => default l (beginRun run l)
  | Release id => (releaseRun id l).1
  | Cleanup id => cleanupRun id l
  | Wake => wake l
  | Microtask => match l_scheduled l with O => l | S n => startDrain (withScheduled n l) end
  | DrainNow => drainNow l
  | TurnDone ok => turnDone ok l
  | DirectDone id ok => directDone id ok l
  | Shutdown => shutdown l
  | Teardown => teardown l
  end.

Definition run (trace : list event) (l : lane) : lane := foldl (λ l ev, exec ev l) l trace.

(** ** The drain loop, in one step *)

(** The turn a drain would start now. *)
Definition nextTurn (l : lane) : option (Turn * list Turn) :=
  match closed l, activeRun l, queue l with
  | false, None, turn :: rest => Some (turn, rest)
  | _, _, _ => None
  end.

Definition startTurn (turn : Turn) (rest : list Turn) (l : lane) : lane :=
  logged (Started turn) (withDrain true (wakePending l) (passWaiters l) (Some turn) (withQueue rest l)).

(** The end of a pass, which consumed the wake-up that was pending. *)
Definition passOver (l : lane) : lane :=
  passEnd (withDrain (draining l) (closed l && wakePending l) (passWaiters l) (l_inflight l) l).

Lemma drainLoop_S fuel l :
  drainLoop (S fuel) l = match nextTurn l with Some (turn, rest) => startTurn turn rest l | None => passOver l end.
Proof.
  unfold nextTurn, passOver. destruct fuel as [|fuel]; simpl;
    destruct (closed l) eqn:Hc, (activeRun l) eqn:Ha, (queue l) eqn:Hq, (wakePending l) eqn:Hw; simpl;
    rw ?Hc ?Ha ?Hq ?Hw //=; unfold passEnd, startTurn; simpl;
    rw ?Hc ?Hw //.
Qed.

(** ** One turn at a time *)

(** The turns the log ran: one after the other, and the one in flight. *)
Definition ran (e : Entry) : bool := match e with Started _ | Settled _ => true | _ => false end.

Definition oneByOne (l : lane) : Prop :=
  ∃ turns, filter (λ e, ran e = true) (l_log l) =
    (turns ≫= λ t, [Started t; Settled t]) ++ match l_inflight l with Some t => [Started t] | None => [] end.

(** The fields a drain keeps consistent. *)
Record Inv (l : lane) : Prop := {
  inv_draining : draining l = bool_decide (is_Some (l_inflight l));
  inv_closed : closed l = true → l_shutdown l = bool_decide (l_inflight l = None);
  inv_open : closed l = false → l_shutdown l = false;
  inv_log : oneByOne l;
}.

Lemma lane_Inv_init : Inv createRunCoordinator.
Proof. constructor; [done..|]. by exists []. Qed.

(** Writes the invariant does not see. *)
Lemma lane_Inv_same l l' :
  draining l' = draining l → closed l' = closed l → l_shutdown l' = l_shutdown l → l_inflight l' = l_inflight l →
  filter (λ e, ran e = true) (l_log l') = filter (λ e, ran e = true) (l_log l) → Inv l → Inv l'.
Proof.
  intros Hd Hc Hs Hi Hl [? ? ? Hlog]. constructor; unfold oneByOne in *; rw ?Hd ?Hc ?Hs ?Hi ?Hl //.
Qed.

Lemma ran_app e l : filter (λ e, ran e = true) (l ++ [e]) = filter (λ e, ran e = true) l ++ if ran e then [e] else [].
Proof. rw filter_app. f_equal. by destruct e. Qed.

Lemma Inv_startTurn turn rest l :
  l_inflight l = None → closed l = false → l_shutdown l = false → oneByOne l → Inv (startTurn turn rest l).
Proof.
  intros Hi Hc Hs [turns Hlog]. constructor; simpl; [done|congruence|done|].
  exists turns. simpl. rw ran_app Hlog Hi app_nil_r //.
Qed.

Lemma Inv_passOver l : l_inflight l = None → oneByOne l → (closed l = false → l_shutdown l = false) → Inv (passOver l).
Proof.
  intros Hi [turns Hlog] Ho. unfold passOver, passEnd. simpl. destruct (closed l) eqn:Hc; constructor; simpl; rw ?Hc //;
    try (by intros; apply Ho); exists turns; simpl; rw Hlog Hi //.
Qed.

Lemma Inv_drainLoop fuel l :
  l_inflight l = None → oneByOne l → (closed l = false → l_shutdown l = false) → Inv (drainLoop (S fuel) l).
Proof.
  intros Hi Hlog Ho. rw drainLoop_S. destruct (nextTurn l) as [[turn rest]|] eqn:E; [|by apply Inv_passOver].
  unfold nextTurn in E. destruct (closed l) eqn:Hc; [done|]. apply Inv_startTurn; [done..|by apply Ho|done].
Qed.

Lemma not_draining l : Inv l → draining l = false → l_inflight l = None.
Proof.
  intros HI Hd. rw (inv_draining l HI) in Hd. apply bool_decide_eq_false in Hd.
  destruct (l_inflight l); [|done]. by destruct Hd.
Qed.

Lemma Inv_startDrain l : Inv l → Inv (startDrain l).
Proof.
  intros HI. unfold startDrain. destruct (closed l) eqn:Hc; [done|]. destruct (draining l) eqn:Hd.
  - revert HI. by apply lane_Inv_same.
  - apply Inv_drainLoop; [done| |by intros; apply (inv_open l HI)].
    destruct (inv_log l HI) as [turns Hlog]. rw (not_draining l HI Hd) in Hlog. by exists turns.
Qed.

Lemma Inv_drainNow l : Inv l → Inv (drainNow l).
Proof.
  intros HI%Inv_startDrain. unfold drainNow. cbv zeta. destruct (draining (startDrain l)) eqn:Hd; [|done].
  revert HI. by apply lane_Inv_same.
Qed.

Lemma Inv_shutdown l : Inv l → Inv (shutdown l).
Proof.
  intros HI. unfold shutdown. destruct (closed l) eqn:Hc; [done|]. destruct HI as [Hd _ _ Hlog].
  constructor; simpl; [done| |done|done]. intros _. rw Hd. destruct (l_inflight l); [|done].
  by rw bool_decide_true.
Qed.

Lemma oneByOne_settled turn l :
  l_inflight l = Some turn → oneByOne l →
  oneByOne (logged (Settled turn) (withDrain true (wakePending l) (passWaiters l) None l)).
Proof.
  intros Hi [turns Hlog]. exists (turns ++ [turn]). simpl. rw ran_app Hlog Hi bind_app app_nil_r -app_assoc //.
Qed.

Lemma Inv_turnDone ok l : Inv l → Inv (turnDone ok l).
Proof.
  intros HI. unfold turnDone. destruct (l_inflight l) as [turn|] eqn:Hi; [|done]. cbv zeta.
  apply Inv_drainLoop; [done| |by intros; apply (inv_open l HI)].
  by apply (oneByOne_settled turn (withCalls _ _ l)), (inv_log l HI).
Qed.

Lemma releaseRun_lane id l : (releaseRun id l).1 = l ∨ (releaseRun id l).1 = withRun None false l.
Proof. unfold releaseRun. repeat case_match; auto. Qed.

(** A turn joins the queue. *)
Lemma Inv_enqueueTurn turn l : Inv l → Inv (enqueueTurn turn l).
Proof.
  intros HI. unfold enqueueTurn, wake. simpl. case_match; revert HI; apply lane_Inv_same; try done;
    rw /= ran_app app_nil_r //.
Qed.

Lemma Inv_teardown l : Inv l → Inv (teardown l).
Proof.
  unfold teardown. cbv zeta. generalize (queue l). intros turns HI.
  assert (HI' : Inv (withRun None false l)) by (revert HI; by apply lane_Inv_same).
  revert HI'. generalize (withRun None false l). clear l HI. induction turns as [|turn turns IH]; intros l HI; simpl.
  - revert HI. by apply lane_Inv_same.
  - apply IH. revert HI. apply lane_Inv_same; try done. rw /= ran_app app_nil_r //.
Qed.

Lemma lane_Inv_exec ev l : Inv l → Inv (exec ev l).
Proof.
  intros HI. destruct ev as [id p b|t|r|id|id| | | |ok|id ok| |]; simpl.
  - unfold executeOrQueue. repeat case_match; [| |]; try (revert HI; by apply lane_Inv_same).
    apply Inv_enqueueTurn. revert HI. by apply lane_Inv_same.
  - by apply Inv_enqueueTurn.
  - unfold beginRun. repeat case_match; simpl; [|done|]; revert HI; by apply lane_Inv_same.
  - destruct (releaseRun_lane id l) as [-> | ->]; [done|]. revert HI. by apply lane_Inv_same.
  - unfold cleanupRun, wake. destruct (releaseRun_lane id l) as [-> | ->]; revert HI; by apply lane_Inv_same.
  - revert HI. by apply lane_Inv_same.
  - case_match; [done|]. apply Inv_startDrain. revert HI. by apply lane_Inv_same.
  - by apply Inv_drainNow.
  - by apply Inv_turnDone.
  - revert HI. by apply lane_Inv_same.
  - by apply Inv_shutdown.
  - by apply Inv_teardown.
Qed.

Lemma lane_Inv_run trace l : Inv l → Inv (run trace l).
Proof. revert l. induction trace as [|ev trace IH]; intros l HI; [done|]. simpl. by apply IH, lane_Inv_exec. Qed.

(** ** The queue against two plain ones *)

(** The reference: a queue of user turns and a queue of the others, and a turn may leave only
    from the front, a user turn first. *)
Definition refStep (q : option (list Turn * list Turn)) (e : Entry) : option (list Turn * list Turn) :=
  match q with
  | None => None
  | Some (users, others) =>
      match e with
      | Queued t =>
          Some (if bool_decide (t_priority t = User) then (users ++ [t], others) else (users, others ++ [t]))
      | Started t | Canceled t =>
          match users, others with
          | u :: users, _ => if bool_decide (t = u) then Some (users, others) else None
          | [], o :: others => if bool_decide (t = o) then Some ([], others) else None
          | [], [] => None
          end
      | Settled _ => q
      end
  end.

Definition replay (log : list Entry) : option (list Turn * list Turn) := foldl refStep (Some ([], [])) log.

Definition isUser (t : Turn) : Prop := t_priority t = User.

(** The lane's queue is the two, one after the other. *)
Definition refines (l : lane) : Prop :=
  ∃ users others, replay (l_log l) = Some (users, others) ∧ queue l = users ++ others ∧
    Forall isUser users ∧ Forall (λ t, ¬ isUser t) others.

Lemma enqueue_user turn users others :
  isUser turn → Forall isUser users → Forall (λ t, ¬ isUser t) others →
  enqueue turn (users ++ others) = (users ++ [turn]) ++ others.
Proof.
  intros Ht Hu Ho. induction Hu as [|u users Hu _ IH]; simpl.
  - unfold isUser in Ht. destruct Ho as [|o others Hno _]; simpl; rw Ht //. by rw bool_decide_false.
  - rw Ht bool_decide_true //. by rw IH.
Qed.

Lemma enqueue_other turn queue : ¬ isUser turn → enqueue turn queue = queue ++ [turn].
Proof. intros Ht. unfold isUser in Ht. by destruct queue; simpl; destruct (t_priority turn). Qed.

Lemma refines_same l l' : queue l' = queue l → l_log l' = l_log l → refines l → refines l'.
Proof. unfold refines. by intros -> ->. Qed.

Lemma replay_app log e : replay (log ++ [e]) = refStep (replay log) e.
Proof. unfold replay. by rw foldl_app. Qed.

Lemma refines_enqueueTurn turn l : refines l → refines (enqueueTurn turn l).
Proof.
  intros (users & others & Hr & Hq & Hu & Ho).
  assert (H : refines (logged (Queued turn) (withQueue (enqueue turn (queue l)) l))).
  { destruct (decide (isUser turn)) as [Ht|Ht].
    - exists (users ++ [turn]), others. rw /= replay_app Hr Hq enqueue_user //. unfold isUser in Ht. simpl.
      rw bool_decide_true //. split_and!; [done..| |done]. apply Forall_app. by split; [|repeat constructor].
    - exists users, (others ++ [turn]). rw /= replay_app Hr Hq enqueue_other //. simpl.
      rw bool_decide_false // app_assoc. split_and!; [done..|]. apply Forall_app. by split; [|repeat constructor]. }
  unfold enqueueTurn, wake. simpl. case_match; [done|]. revert H. by apply refines_same.
Qed.

(** The front of the queue leaves it. *)
Lemma refines_leave e turn rest l l' :
  queue l = turn :: rest → e = Started turn ∨ e = Canceled turn →
  l_log l' = l_log l ++ [e] → queue l' = rest → refines l → refines l'.
Proof.
  intros Hq He Hl Hq' (users & others & Hr & Hqs & Hu & Ho). rw Hqs in Hq. unfold refines. rw Hl replay_app Hr Hq'.
  destruct Hu as [|u users Hu Hus]; simpl in Hq.
  - subst others. inversion Ho as [|? ? _ Ho']. exists [], rest.
    destruct He as [-> | ->]; simpl; rw bool_decide_true //.
  - injection Hq as -> <-. exists users, others. destruct He as [-> | ->]; simpl; rw bool_decide_true //.
Qed.

Lemma refines_drainLoop fuel l : refines l → refines (drainLoop (S fuel) l).
Proof.
  intros Hr. rw drainLoop_S. destruct (nextTurn l) as [[turn rest]|] eqn:E.
  - unfold nextTurn in E. repeat case_match; simplify_eq.
    eapply (refines_leave (Started turn)); [done|by left|done..].
  - unfold passOver, passEnd. simpl. case_match; revert Hr; by apply refines_same.
Qed.

Lemma refines_startDrain l : refines l → refines (startDrain l).
Proof.
  intros Hr. unfold startDrain. case_match; [done|]. case_match; [revert Hr; by apply refines_same|].
  apply refines_drainLoop. revert Hr. by apply refines_same.
Qed.

(** The cancellations of a teardown empty both queues. *)
Lemma replay_canceled users others :
  foldl refStep (Some (users, others)) (Canceled <$> users ++ others) = Some ([], []).
Proof.
  induction users as [|u users IH]; simpl.
  - induction others as [|o others IH]; simpl; [done|]. by rw bool_decide_true.
  - by rw bool_decide_true.
Qed.

Lemma cancelAll_spec turns l :
  let l' := foldl cancelTurn l turns in
  l_log l' = l_log l ++ (Canceled <$> turns) ∧
  l_calls l' = foldl (λ calls t, settleCall (t_call t) false calls) (l_calls l) turns ∧
  l_direct l' = l_direct l ∧ l_inflight l' = l_inflight l ∧ closed l' = closed l.
Proof.
  revert l. induction turns as [|turn turns IH]; intros l; simpl; [by rw app_nil_r|].
  destruct (IH (cancelTurn l turn)) as (-> & -> & -> & -> & ->). by rw /= -app_assoc.
Qed.

Lemma refines_teardown l : refines l → refines (teardown l).
Proof.
  intros (users & others & Hr & Hq & _). exists [], []. unfold teardown. cbv zeta. simpl.
  rw (proj1 (cancelAll_spec _ _)) /= /replay foldl_app. unfold replay in Hr. rw Hr Hq replay_canceled.
  by split_and!; [..|constructor|constructor].
Qed.

Lemma refines_exec ev l : refines l → refines (exec ev l).
Proof.
  intros Hr. destruct ev as [id p b|t|r|id|id| | | |ok|id ok| |]; simpl.
  - unfold executeOrQueue. repeat case_match; try (revert Hr; by apply refines_same).
    apply refines_enqueueTurn. revert Hr. by apply refines_same.
  - by apply refines_enqueueTurn.
  - unfold beginRun. repeat case_match; simpl; [|done|]; revert Hr; by apply refines_same.
  - destruct (releaseRun_lane id l) as [-> | ->]; [done|]. revert Hr. by apply refines_same.
  - unfold cleanupRun, wake. destruct (releaseRun_lane id l) as [-> | ->]; revert Hr; by apply refines_same.
  - revert Hr. by apply refines_same.
  - case_match; [done|]. apply refines_startDrain. revert Hr. by apply refines_same.
  - unfold drainNow. cbv zeta. apply refines_startDrain in Hr. case_match; [|done]. revert Hr. by apply refines_same.
  - unfold turnDone. destruct (l_inflight l) as [turn|]; [|done]. cbv zeta. apply refines_drainLoop.
    destruct Hr as (users & others & Hr & Hq & ? & ?). exists users, others.
    by rw /= replay_app Hr.
  - revert Hr. by apply refines_same.
  - unfold shutdown. case_match; [done|]. revert Hr. by apply refines_same.
  - by apply refines_teardown.
Qed.

(** C28: The lane's queue is two plain queues, user turns and the others: every turn leaves it
    in the order it came within its class, a system turn leaves only when no user turn waits,
    and none is lost or runs twice, in every trace of calls, runs, wake-ups and shutdowns. *)
Theorem lane_is_two_fifo_queues trace :
  let l := run trace createRunCoordinator in
  ∃ users others, replay (l_log l) = Some (users, others) ∧ queue l = users ++ others ∧
    Forall isUser users ∧ Forall (λ t, ¬ isUser t) others.
Proof.
  intros l. assert (H : refines l); [|exact H].
  assert (H : refines createRunCoordinator) by (exists [], []; by split_and!).
  unfold l, run. revert H. generalize createRunCoordinator. clear l.
  induction trace as [|ev trace IH]; intros l Hr; [done|]. simpl. by apply IH, refines_exec.
Qed.

(** Whatever calls, runs, wake-ups and shutdowns fall together, the turns of the lane run
    one after the other, a drain is live exactly while one of them runs, and closing the lane
    waits for it. *)
Theorem lane_runs_one_turn_at_a_time trace :
  let l := run trace createRunCoordinator in
  oneByOne l ∧ draining l = bool_decide (is_Some (l_inflight l)) ∧
  (l_shutdown l = true → closed l = true ∧ l_inflight l = None).
Proof.
  intros l. assert (HI : Inv l) by apply lane_Inv_run, lane_Inv_init.
  split_and!; [apply HI|apply HI|]. intros Hs. destruct (closed l) eqn:Hc.
  - rw (inv_closed l HI Hc) in Hs. by apply bool_decide_eq_true in Hs.
  - rw (inv_open l HI Hc) in Hs. done.
Qed.

(** ** No turn is stranded *)

(** A turn that could start has a drain live or on its way. *)
Definition served (l : lane) : Prop :=
  nextTurn l ≠ None → is_Some (l_inflight l) ∨ (0 < l_scheduled l)%nat.

Lemma nextTurn_closed l : closed l = true → nextTurn l = None.
Proof. intros Hc. unfold nextTurn. by rw Hc. Qed.

Lemma nextTurn_busy l r : activeRun l = Some r → nextTurn l = None.
Proof. intros Ha. unfold nextTurn. rw Ha. by case_match. Qed.

Lemma nextTurn_same l l' :
  closed l' = closed l → activeRun l' = activeRun l → queue l' = queue l → nextTurn l' = nextTurn l.
Proof. unfold nextTurn. by intros -> -> ->. Qed.

Lemma served_same l l' :
  nextTurn l' = nextTurn l → l_inflight l' = l_inflight l → (l_scheduled l ≤ l_scheduled l')%nat → served l → served l'.
Proof. unfold served. intros -> -> ? Hs [|]%Hs; [by left|right; lia]. Qed.

Lemma served_scheduled l : (0 < l_scheduled l)%nat → served l.
Proof. intros ? _. by right. Qed.

Lemma served_drainLoop fuel l : served (drainLoop (S fuel) l).
Proof.
  rw drainLoop_S. destruct (nextTurn l) as [[turn rest]|] eqn:E; [intros _; left; by eexists|].
  intros H. exfalso. apply H. unfold passOver, passEnd. simpl. destruct (closed l) eqn:Hc.
  - by apply nextTurn_closed.
  - rw -E. by apply nextTurn_same.
Qed.

Lemma served_startDrain l n : Inv l → served (startDrain (withScheduled n l)).
Proof.
  intros HI. unfold startDrain. cbn [closed draining withScheduled]. destruct (closed l) eqn:Hc.
  - intros H. exfalso. apply H. by apply nextTurn_closed.
  - destruct (draining l) eqn:Hd; [|apply served_drainLoop]. intros _. left. simpl.
    rw (inv_draining l HI) in Hd. by apply bool_decide_eq_true in Hd.
Qed.

Lemma served_enqueueTurn turn l : served l → served (enqueueTurn turn l).
Proof.
  intros Hs. unfold enqueueTurn. simpl. destruct (activeRun l) eqn:Ha.
  - intros H. exfalso. apply H. by eapply nextTurn_busy.
  - apply served_scheduled. simpl. lia.
Qed.

Lemma startDrain_scheduled l : withScheduled (l_scheduled l) l = l.
Proof. by destruct l. Qed.

Lemma served_exec ev l :
  (∀ id, ev ≠ Release id) → Inv l → served l → served (exec ev l).
Proof.
  intros Hev HI Hs. destruct ev as [id p b|t|r|id|id| | | |ok|id ok| |]; simpl.
  - unfold executeOrQueue. repeat case_match; try (revert Hs; by apply served_same).
    apply served_enqueueTurn. revert Hs. by apply served_same.
  - by apply served_enqueueTurn.
  - unfold beginRun. repeat case_match; simpl; [|done|]; intros Hnt; exfalso; apply Hnt; by eapply nextTurn_busy.
  - by destruct (Hev id).
  - apply served_scheduled. simpl. lia.
  - apply served_scheduled. simpl. lia.
  - destruct (l_scheduled l); [done|]. by apply served_startDrain.
  - assert (H : served (startDrain l)).
    { rw -(startDrain_scheduled l). by apply served_startDrain. }
    unfold drainNow. cbv zeta. destruct (draining (startDrain l)) eqn:Hd; [|done].
    revert H. apply served_same; [by apply nextTurn_same|done|done].
  - unfold turnDone. destruct (l_inflight l); [|done]. apply served_drainLoop.
  - revert Hs. by apply served_same.
  - unfold shutdown. case_match; [done|]. intros Hnt. exfalso. apply Hnt. by apply nextTurn_closed.
  - intros Hnt. exfalso. apply Hnt. unfold nextTurn, teardown. simpl. by repeat case_match.
Qed.

Lemma served_run trace l :
  (∀ id, Release id ∉ trace) → Inv l → served l → served (run trace l).
Proof.
  revert l. induction trace as [|ev trace IH]; intros l Hr HI Hs; [done|]. simpl. apply IH.
  - intros id Hin. apply (Hr id). by right.
  - by apply lane_Inv_exec.
  - apply served_exec; [|done|done]. intros id ->. apply (Hr id). by left.
Qed.

(** C21: No queued turn is stranded: when every run gives its lane back through [cleanupRun], a
    turn at the front of an idle, open lane is started by the wake-up already on the microtask
    queue, or by the turn in flight as soon as it settles. *)
Theorem no_queued_turn_is_stranded trace turn rest :
  let l := run trace createRunCoordinator in
  (∀ id, Release id ∉ trace) →
  closed l = false → activeRun l = None → queue l = turn :: rest →
  match l_inflight l with
  | Some _ => ∀ ok, l_inflight (exec (TurnDone ok) l) = Some turn ∧ queue (exec (TurnDone ok) l) = rest
  | None => (0 < l_scheduled l)%nat ∧ l_inflight (exec Microtask l) = Some turn ∧ queue (exec Microtask l) = rest
  end.
Proof.
  intros l Hr Hc Ha Hq. assert (HI : Inv l) by apply lane_Inv_run, lane_Inv_init.
  assert (Hs : served l) by (apply served_run; [done|apply lane_Inv_init|by intros []]).
  assert (Hn : ∀ l', closed l' = closed l → activeRun l' = activeRun l → queue l' = queue l →
                 nextTurn l' = Some (turn, rest))
    by (intros l' Hc' Ha' Hq'; unfold nextTurn; by rw Hc' Hc Ha' Ha Hq' Hq).
  destruct (l_inflight l) as [current|] eqn:Hi.
  - intros ok. simpl. unfold turnDone. rw Hi. cbv zeta. by rw drainLoop_S Hn.
  - destruct Hs as [Hs|Hs]; [by rw (Hn l)|rw Hi in Hs; by destruct Hs|]. split; [done|].
    simpl. destruct (l_scheduled l); [lia|]. unfold startDrain. cbn [closed draining withScheduled]. rw Hc (inv_draining l HI) Hi.
    rw bool_decide_false; [by intros []|]. by rw drainLoop_S Hn.
Qed.

(** ** Shutdown *)

Definition startedTurns (l : lane) : list Turn := omap (λ e, match e with Started t => Some t | _ => None end) (l_log l).

(** A caller waits only behind a turn that will settle or cancel, or runs itself. *)
Definition accounted (l : lane) : Prop :=
  ∀ id, l_calls l !! id = Some Parked →
    id ∈ l_direct l ∨ id ∈ t_call <$> queue l ∨ t_call <$> l_inflight l = Some id.

Lemma settleCall_parked id id' ok calls :
  settleCall id ok calls !! id' = Some Parked → calls !! id' = Some Parked ∧ id' ≠ id.
Proof.
  unfold settleCall. destruct (calls !! id) as [[]|] eqn:E; try (intros H; split; [done|intros ->; congruence]).
  rw lookup_insert_Some. intros [[_ H]|[? H]]; [by destruct ok|]. by split.
Qed.

Lemma settleCalls_parked turns id calls :
  foldl (λ calls t, settleCall (t_call t) false calls) calls turns !! id = Some Parked →
  calls !! id = Some Parked ∧ id ∉ t_call <$> turns.
Proof.
  revert calls. induction turns as [|turn turns IH]; intros calls; simpl; [intros ?; split; [done|by apply not_elem_of_nil]|].
  intros [[? ?]%settleCall_parked ?]%IH. split; [done|]. by apply not_elem_of_cons.
Qed.

Lemma enqueue_perm turn queue : enqueue turn queue ≡ₚ turn :: queue.
Proof.
  induction queue as [|entry queue IH]; simpl; [by destruct (t_priority turn)|].
  destruct (t_priority turn); [|by apply (Permutation_app_comm (entry :: queue) [turn])].
  case_bool_decide; [|done]. rw IH. constructor.
Qed.

(** Moving a turn from the queue into the drain, and adding one, keep the account. *)
Lemma accounted_grows l l' :
  l_calls l' = l_calls l → (∀ id, id ∈ l_direct l → id ∈ l_direct l') →
  (∀ id, id ∈ t_call <$> queue l ∨ t_call <$> l_inflight l = Some id →
         id ∈ t_call <$> queue l' ∨ t_call <$> l_inflight l' = Some id) →
  accounted l → accounted l'.
Proof. intros Hc Hd Hq Ha id. rw Hc. intros [|]%Ha; [left; auto|right; auto]. Qed.

Lemma accounted_same l l' :
  l_calls l' = l_calls l → l_direct l' = l_direct l → queue l' = queue l → l_inflight l' = l_inflight l →
  accounted l → accounted l'.
Proof. intros Hc Hd Hq Hi. apply accounted_grows; [done|by rw Hd|by rw Hq Hi]. Qed.

Lemma accounted_drainLoop fuel l : l_inflight l = None → accounted l → accounted (drainLoop (S fuel) l).
Proof.
  intros Hi Ha. rw drainLoop_S. destruct (nextTurn l) as [[turn rest]|] eqn:E.
  - revert Ha. apply accounted_grows; [done|done|]. intros id. rw Hi. intros [Hin|]; [|done].
    unfold nextTurn in E. repeat case_match; simplify_eq. rw fmap_cons in Hin.
    apply elem_of_cons in Hin as [->|]; [by right|by left].
  - unfold passOver, passEnd. simpl. case_match; revert Ha; by apply accounted_same.
Qed.

Lemma accounted_startDrain l n : Inv l → accounted l → accounted (startDrain (withScheduled n l)).
Proof.
  intros HI Ha. unfold startDrain. cbn [closed draining withScheduled].
  case_match; [revert Ha; by apply accounted_same|]. destruct (draining l) eqn:Hd; [revert Ha; by apply accounted_same|].
  apply accounted_drainLoop; [done|]. revert Ha. apply accounted_same; try done.
  by rw (not_draining l HI Hd).
Qed.

Lemma accounted_enqueueTurn turn l : accounted l → accounted (enqueueTurn turn l).
Proof.
  intros Ha. assert (H : accounted (logged (Queued turn) (withQueue (enqueue turn (queue l)) l))).
  { revert Ha. apply accounted_grows; [done|done|]. intros id [Hin|]; [left|by right].
    rw /= enqueue_perm fmap_cons. by right. }
  unfold enqueueTurn, wake. simpl. case_match; [done|]. revert H. by apply accounted_same.
Qed.

(** A call parks behind a turn that joins the queue. *)
Lemma accounted_parks id priority l :
  accounted l →
  accounted (enqueueTurn {| t_call := id; t_priority := priority |} (withCalls (l_direct l) (<[id := Parked]> (l_calls l)) l)).
Proof.
  intros Ha id'. unfold enqueueTurn, wake. simpl.
  assert (H : (<[id:=Parked]> (l_calls l)) !! id' = Some Parked →
    id' ∈ l_direct l ∨ id' ∈ t_call <$> enqueue {| t_call := id; t_priority := priority |} (queue l) ∨
    t_call <$> l_inflight l = Some id').
  { rw lookup_insert_Some. rw enqueue_perm fmap_cons.
    intros [[<- _]|[_ [|[|]]%Ha]]; [right; left; by left|by left|right; left; by right|by right; right]. }
  by case_match.
Qed.

Lemma accounted_teardown l : accounted l → accounted (teardown l) ∧
  (l_inflight l = None → ∀ id, l_calls (teardown l) !! id = Some Parked → id ∈ l_direct (teardown l)).
Proof.
  intros Ha. destruct (cancelAll_spec (queue l) (withRun None false l)) as (_ & Hc & Hd & Hi & _).
  assert (Hp : ∀ id, l_calls (teardown l) !! id = Some Parked →
    id ∈ l_direct l ∨ t_call <$> l_inflight l = Some id).
  { intros id. unfold teardown. cbv zeta. cbn [l_calls withQueue]. rw Hc.
    intros [[|[|]]%Ha ?]%settleCalls_parked; [by left|done|by right]. }
  unfold teardown in *. cbv zeta in *. split.
  - intros id [|]%Hp; cbn [l_direct l_inflight withQueue]; rw Hd Hi; [by left|by right; right].
  - intros Hn id [|Hin]%Hp; cbn [l_direct withQueue]; rw Hd; [done|]. by rw Hn in Hin.
Qed.

Lemma accounted_exec ev l : Inv l → accounted l → accounted (exec ev l).
Proof.
  intros HI Ha. destruct ev as [id p b|t|r|id|id| | | |ok|id ok| |]; simpl.
  - unfold executeOrQueue. case_match; [case_match; [|by apply accounted_parks]|].
    + intros id'. simpl. rw lookup_insert_Some. intros [[_ Hx]|[_ ?]]; [done|by apply Ha].
    + intros id'. simpl. rw lookup_insert_Some. intros [[<- _]|[_ [|]%Ha]]; [left; by left|left; by right|by right].
  - by apply accounted_enqueueTurn.
  - unfold beginRun. repeat case_match; simpl; [|done|]; revert Ha; by apply accounted_same.
  - destruct (releaseRun_lane id l) as [-> | ->]; [done|]. revert Ha. by apply accounted_same.
  - unfold cleanupRun, wake. destruct (releaseRun_lane id l) as [-> | ->]; revert Ha; by apply accounted_same.
  - revert Ha. by apply accounted_same.
  - case_match; [done|]. by apply accounted_startDrain.
  - assert (H : accounted (startDrain l)) by (rw -(startDrain_scheduled l); by apply accounted_startDrain).
    unfold drainNow. cbv zeta. case_match; [|done]. revert H. by apply accounted_same.
  - unfold turnDone. destruct (l_inflight l) as [turn|] eqn:Hi; [|done]. cbv zeta.
    apply accounted_drainLoop; [done|]. intros id. simpl. intros [Hp Hne]%settleCall_parked.
    destruct (Ha id Hp) as [|[|Hin]]; [by left|by right; left|]. rw Hi /= in Hin. congruence.
  - intros id'. simpl. intros [Hp Hne]%settleCall_parked.
    destruct (Ha id' Hp) as [|]; [left; by apply list_elem_of_filter|by right].
  - unfold shutdown. case_match; [done|]. revert Ha. by apply accounted_same.
  - by apply accounted_teardown.
Qed.

(** A closed lane starts nothing. *)
Lemma closed_exec ev l :
  Inv l → closed l = true → l_inflight l = None →
  closed (exec ev l) = true ∧ l_inflight (exec ev l) = None ∧ startedTurns (exec ev l) = startedTurns l.
Proof.
  intros HI Hc Hi.
  assert (Henq : ∀ turn l', closed l' = true → l_inflight l' = None → l_log l' = l_log l →
    closed (enqueueTurn turn l') = true ∧ l_inflight (enqueueTurn turn l') = None ∧
    startedTurns (enqueueTurn turn l') = startedTurns l).
  { intros turn l' Hc' Hi' Hl'. unfold enqueueTurn, wake, startedTurns. simpl.
    case_match; simpl; rw Hc' Hi' Hl' omap_app /= app_nil_r //. }
  assert (Hs : ∀ n, startDrain (withScheduled n l) = withScheduled n l)
    by (intros n; unfold startDrain; cbn [closed withScheduled]; by rw Hc).
  destruct ev as [id p b|t|r|id|id| | | |ok|id ok| |]; simpl.
  - unfold executeOrQueue. case_match; [case_match; [done|by apply Henq]|done].
  - by apply Henq.
  - unfold beginRun. by repeat case_match.
  - by destruct (releaseRun_lane id l) as [-> | ->].
  - unfold cleanupRun, wake. by destruct (releaseRun_lane id l) as [-> | ->].
  - done.
  - case_match; [done|]. by rw Hs.
  - unfold drainNow. cbv zeta. rw -(startDrain_scheduled l) Hs startDrain_scheduled. by case_match.
  - unfold turnDone. by rw Hi.
  - done.
  - unfold shutdown. by rw Hc.
  - unfold teardown, startedTurns. simpl. cbv zeta.
    destruct (cancelAll_spec (queue l) (withRun None false l)) as (-> & _ & _ & -> & ->). split_and!; [done|done|].
    assert (Hnil : ∀ turns, omap (λ e, match e with Started t => Some t | _ => None end) (Canceled <$> turns) = [])
      by (intros turns; by induction turns).
    by rw omap_app /= Hnil app_nil_r.
Qed.

Lemma closed_run trace l :
  Inv l → closed l = true → l_inflight l = None → startedTurns (run trace l) = startedTurns l.
Proof.
  revert l. induction trace as [|ev trace IH]; intros l HI Hc Hi; [done|]. simpl.
  destruct (closed_exec ev l HI Hc Hi) as (Hc' & Hi' & <-). apply IH; [by apply lane_Inv_exec|done|done].
Qed.

(** C40: Once the scope of a shut-down lane has closed, the teardown answers every caller that
    waits in the queue, and no queued turn starts ever after.  A run that begins without the queue
    is not covered: it is not refused after the shutdown ([run_begins_after_shutdown]). *)
Theorem shutdown_answers_every_caller trace trace' :
  let l := run trace createRunCoordinator in
  l_shutdown l = true →
  (∀ id, l_calls (teardown l) !! id = Some Parked → id ∈ l_direct (teardown l)) ∧
  startedTurns (run trace' (teardown l)) = startedTurns l.
Proof.
  intros l Hs.
  assert (H : Inv l ∧ accounted l).
  { assert (H : Inv createRunCoordinator ∧ accounted createRunCoordinator) by (split; [apply lane_Inv_init|by intros ?]).
    unfold l, run. clear Hs l. revert H. generalize createRunCoordinator.
    induction trace as [|ev trace IH]; intros l [HI Ha]; [done|]. simpl.
    apply IH. split; [by apply lane_Inv_exec|by apply accounted_exec]. }
  destruct H as [HI Ha]. assert (Hc : closed l = true).
  { destruct (closed l) eqn:Hc; [done|]. by rw (inv_open l HI Hc) in Hs. }
  assert (Hi : l_inflight l = None) by (rw (inv_closed l HI Hc) in Hs; by apply bool_decide_eq_true in Hs).
  split; [by apply accounted_teardown|].
  destruct (closed_exec Teardown l HI Hc Hi) as (Hct & Hit & <-).
  apply closed_run; [by apply (lane_Inv_exec Teardown)|done|done].
Qed.

(** ** Concrete traces *)

Definition runA : Registration := {| runId := "run-a"; conversationId := "chat"; uiVisibility := Visible |}.

(** A run holds the lane; a user and a system call park behind it; it ends. *)
Definition busyTrace : list event :=
  [CallTurn 0 User false; Begin runA; CallTurn 1 System false; CallTurn 2 User false; DirectDone 0 true;
   Cleanup "run-a"].

Example user_turn_goes_first :
  let l := run (busyTrace ++ [Microtask; TurnDone true; TurnDone false]) createRunCoordinator in
  startedTurns l = [{| t_call := 2; t_priority := User |}; {| t_call := 1; t_priority := System |}] ∧
  l_calls l !! 2%nat = Some Resolved ∧ l_calls l !! 1%nat = Some Rejected ∧ drainPasses l = 1%nat.
Proof. by vm_compute. Qed.

Lemma no_queued_turn_is_stranded_witness :
  let l := run busyTrace createRunCoordinator in
  queue l = [{| t_call := 2; t_priority := User |}; {| t_call := 1; t_priority := System |}] ∧
  (0 < l_scheduled l)%nat ∧ l_inflight (exec Microtask l) = Some {| t_call := 2; t_priority := User |}.
Proof.
  intros l. assert (Hq : queue l = [{| t_call := 2; t_priority := User |}; {| t_call := 1; t_priority := System |}])
    by reflexivity.
  split; [exact Hq|].
  assert (Hr : ∀ id, Release id ∉ busyTrace) by (intros id Hin; repeat (apply elem_of_cons in Hin as [|Hin]; [done|]);
    by apply not_elem_of_nil in Hin).
  destruct (no_queued_turn_is_stranded busyTrace _ _ Hr eq_refl eq_refl Hq) as (Hs & Hi & _).
  split; [exact Hs|exact Hi].
Defined.

Lemma shutdown_answers_every_caller_witness :
  let l := run (busyTrace ++ [Microtask; Shutdown; TurnDone true]) createRunCoordinator in
  l_shutdown l = true ∧ l_calls (teardown l) !! 1%nat = Some Rejected ∧
  (∀ id, l_calls (teardown l) !! id = Some Parked → id ∈ l_direct (teardown l)) ∧
  startedTurns (run [CallTurn 3 User false; Microtask; Wake; Microtask] (teardown l)) = startedTurns l.
Proof.
  intros l. assert (Hs : l_shutdown l = true) by reflexivity. split; [exact Hs|]. split; [reflexivity|].
  exact (shutdown_answers_every_caller (busyTrace ++ [Microtask; Shutdown; TurnDone true])
           [CallTurn 3 User false; Microtask; Wake; Microtask] Hs).
Defined.

(** A run that fails while it prepares gives the lane back without waking it
    ([prepareOrchestratorRun], and [startAutomationTurn] does not clean up after it): the call
    that parked meanwhile waits, with nothing on its way. *)
Example failed_preparation_strands_a_caller :
  let l := run [CallTurn 0 System false; Begin runA; CallTurn 1 User false; Release "run-a"; DirectDone 0 false]
             createRunCoordinator in
  activeRun l = None ∧ closed l = false ∧ queue l = [{| t_call := 1; t_priority := User |}] ∧
  l_inflight l = None ∧ l_scheduled l = 0%nat ∧ l_calls l !! 1%nat = Some Parked.
Proof. by vm_compute. Qed.

(** [beginRun] does not look at [closed]: a call on the idle lane runs after the shutdown. *)
Example run_begins_after_shutdown :
  let l := run [Shutdown; Teardown; CallTurn 0 User false; Begin runA; CallTurn 1 User false; DirectDone 0 true;
                Cleanup "run-a"; Microtask] createRunCoordinator in
  l_calls l !! 0%nat = Some Resolved ∧ l_calls l !! 1%nat = Some Parked ∧ l_inflight l = None.
Proof. by vm_compute. Qed.
