(* ===== verification/Text.v ===== *)
(** * Texts

    The text tools of the runtime work on JavaScript strings with any code units, so a text is
    the list of its UTF-16 code units, and an offset is an index into that list.  This file has
    the string operations of the language those tools use ([slice], [indexOf], [split], [join],
    [trim], [startsWith]) and the lemmas about them; [u] writes an ASCII literal as a text. *)

From Corelib Require Import ssreflect.
From stdpp Require Import prelude strings.
From Stdlib Require Ascii String.
From S2P Require Import Prelude.

#[local] Open Scope nat_scope.

Definition text : Type := list N.

(** An ASCII literal. *)
Definition u (s : string) : text := Ascii.N_of_ascii <$> String.list_ascii_of_string s.
Arguments u s%_string.

Definition newline : N := 10%N.
Definition carriageReturn : N := 13%N.

(** [text.slice(from, to)], for offsets in the text. *)
Definition slice (from to : nat) (t : text) : text := take (to - from) (drop from t).

(** [text.startsWith(prefix)]. *)
Fixpoint startsWith (prefix t : text) : bool :=
  match prefix, t with
  | [], _ => true
  | p :: prefix, c :: t => (p =? c)%N && startsWith prefix t
  | _ :: _, [] => false
  end.

(** [text.indexOf(needle)]. *)
Fixpoint search (needle t : text) : option nat :=
  if startsWith needle t then Some 0
  else match t with [] => None | _ :: t => S <$> search needle t end.

(** [text.indexOf(needle, from)]. *)
Definition indexOf (needle : text) (from : nat) (t : text) : option nat :=
  (λ i, from + i) <$> search needle (drop from t).

Definition includes (needle t : text) : bool := bool_decide (is_Some (search needle t)).

(** [text.split(separator)] for a one-unit separator. *)
Fixpoint splitOn (separator : N) (t : text) : list text :=
  match t with
  | [] => [[]]
  | c :: t =>
      if (c =? separator)%N then [] :: splitOn separator t
      else match splitOn separator t with
           | piece :: pieces => (c :: piece) :: pieces
           | [] => [[c]]
           end
  end.

(** [text.split(needle)] for a non-empty needle; [skip] units of a match are left to drop. *)
Fixpoint splitText (needle : text) (skip : nat) (piece t : text) : list text :=
  match t with
  | [] => [piece]
  | c :: rest =>
      match skip with
      | S skip => splitText needle skip piece rest
      | O =>
          if startsWith needle t then piece :: splitText needle (length needle - 1) [] rest
          else splitText needle 0 (piece ++ [c]) rest
      end
  end.

(** [pieces.join(separator)]. *)
Fixpoint join (separator : text) (pieces : list text) : text :=
  match pieces with
  | [] => []
  | [piece] => piece
  | piece :: pieces => piece ++ separator ++ join separator pieces
  end.

(** White space and line terminators of [String.prototype.trim]. *)
Definition isWhite (c : N) : bool :=
  ((9 <=? c) && (c <=? 13) || (c =? 32) || (c =? 160) || (c =? 5760) || (8192 <=? c) && (c <=? 8202)
   || (c =? 8232) || (c =? 8233) || (c =? 8239) || (c =? 8287) || (c =? 12288) || (c =? 65279))%N.

Fixpoint trimStart (t : text) : text :=
  match t with
  | [] => []
  | c :: rest => if isWhite c then trimStart rest else t
  end.

Fixpoint trimEnd (t : text) : text :=
  match t with
  | [] => []
  | c :: rest => match trimEnd rest with [] => if isWhite c then [] else [c] | kept => c :: kept end
  end.

Definition trim (t : text) : text := trimEnd (trimStart t).

(** ** Prefixes and slices *)

Lemma startsWith_spec p t : startsWith p t = true ↔ ∃ rest, t = p ++ rest.
Proof.
  revert t. induction p as [|x p IH]; intros t; simpl; [by split; [exists t|]|].
  destruct t as [|c t]; [by split; [|intros [? ?]]|].
  rw andb_true_iff N.eqb_eq IH. split.
  - intros [-> [rest ->]]. by exists rest.
  - by intros [rest [= -> ->]]; split; [|exists rest].
Qed.

Lemma startsWith_app p t : startsWith p (p ++ t) = true.
Proof. apply startsWith_spec. by exists t. Qed.

Lemma startsWith_take p t : startsWith p t = true ↔ take (length p) t = p.
Proof.
  rw startsWith_spec. split.
  - intros [rest ->]. by rw take_app_length.
  - intros H. exists (drop (length p) t). by rw -{1}(take_drop (length p) t) H.
Qed.

Lemma startsWith_length p t : startsWith p t = true → length p ≤ length t.
Proof. intros [rest ->]%startsWith_spec. rw length_app. lia. Qed.

Lemma slice_full t : slice 0 (length t) t = t.
Proof. unfold slice. by rw Nat.sub_0_r drop_0 firstn_all. Qed.

Lemma slice_app i j k t : i ≤ j → j ≤ k → slice i j t ++ slice j k t = slice i k t.
Proof.
  intros Hij Hjk. unfold slice.
  rw -[in RHS](take_drop (j - i) (drop i t)) take_app take_take drop_drop length_take length_drop.
  f_equal; [by rw Nat.min_r; [lia|]|]. replace (i + (j - i)) with j by lia.
  destruct (decide (j ≤ length t)); [f_equal; lia|]. rw !(drop_ge t j) ?take_nil //; lia.
Qed.

Lemma slice_mid a b c : slice (length a) (length a + length b) (a ++ b ++ c) = b.
Proof. unfold slice. rw drop_app_length Nat.add_sub' take_app_length //. Qed.

Lemma slice_empty i t : slice i i t = [].
Proof. unfold slice. by rw Nat.sub_diag. Qed.

Lemma slice_to_end i t : slice i (length t) t = drop i t.
Proof. unfold slice. rw take_ge //. rw length_drop. lia. Qed.

Lemma slice_from_start i t : slice 0 i t = take i t.
Proof. unfold slice. by rw Nat.sub_0_r drop_0. Qed.

Lemma length_slice i j t : i ≤ j → j ≤ length t → length (slice i j t) = j - i.
Proof. intros. unfold slice. rw length_take length_drop. lia. Qed.

(** ** Trimming *)

Lemma trimEnd_white t : ∃ w, t = trimEnd t ++ w ∧ Forall (λ c, isWhite c = true) w.
Proof.
  induction t as [|c t (w & Ht & Hw)]; [by exists []|]. cbn [trimEnd]. destruct (trimEnd t) as [|d kept].
  - simpl in Ht. subst t. destruct (isWhite c) eqn:Hc; [by exists (c :: w); split; [|constructor]|by exists w].
  - exists w. split; [|done]. by rw {1}Ht.
Qed.

Lemma trimEnd_snoc t c : isWhite c = false → trimEnd (t ++ [c]) = t ++ [c].
Proof.
  intros Hc. induction t as [|d t IH]; simpl; [by rw Hc|]. rw IH. by destruct t.
Qed.

Lemma trim_snoc a t b : isWhite a = false → isWhite b = false → trim (a :: t ++ [b]) = a :: t ++ [b].
Proof. intros Ha Hb. unfold trim. cbn [trimStart]. rw Ha. by apply (trimEnd_snoc (a :: t)). Qed.

Lemma trim_head a t : isWhite a = false → ∃ w, a :: t = trim (a :: t) ++ w.
Proof. intros Ha. unfold trim. cbn [trimStart]. rw Ha. destruct (trimEnd_white (a :: t)) as (w & Hw & _). exists w. exact Hw. Qed.

Lemma trim_nonempty a t : isWhite a = false → trim (a :: t) ≠ [].
Proof. intros Ha. unfold trim. cbn [trimStart]. rw Ha. cbn [trimEnd]. rw Ha. by destruct (trimEnd t). Qed.

(** ** Searching *)

Lemma search_Some needle t i :
  search needle t = Some i ↔
    i ≤ length t ∧ startsWith needle (drop i t) = true ∧ ∀ j, j < i → startsWith needle (drop j t) = false.
Proof.
  revert i. induction t as [|c t IH]; intros i; cbn [search].
  - destruct (startsWith needle []) eqn:E.
    + split; [intros [= <-]; split; [done|split; [done|lia]]|]. intros (Hi & _). f_equal. simpl in Hi. lia.
    + split; [done|]. intros (Hi & Hs & _). destruct i; [by rw drop_0 E in Hs|]. simpl in Hi. lia.
  - destruct (startsWith needle (c :: t)) eqn:E.
    + split; [intros [= <-]; repeat split; try done; simpl; lia|]. intros (Hi & Hs & Hn).
      destruct i; [done|]. specialize (Hn 0 ltac:(lia)). rw drop_0 in Hn. congruence.
    + rw fmap_Some. split.
      * intros (k & Hk & ->). apply IH in Hk as (Hk & Hs & Hn). repeat split; [simpl; lia|done|].
        intros [|j] Hj; [by rw drop_0|]. apply Hn. lia.
      * intros (Hi & Hs & Hn). destruct i as [|i]; [by rw drop_0 E in Hs|].
        exists i. split; [|done]. apply IH. simpl in Hi, Hs. split; [lia|split; [done|]].
        intros j Hj. apply (Hn (S j)). lia.
Qed.

Lemma search_None needle t : search needle t = None ↔ ∀ j, j ≤ length t → startsWith needle (drop j t) = false.
Proof.
  split.
  - intros H j Hj. apply not_true_iff_false. intros Hs. revert H. induction t as [|c t IH] in j, Hj, Hs |- *; cbn [search].
    + rw drop_nil in Hs. by rw Hs.
    + destruct (startsWith needle (c :: t)) eqn:E; [done|]. destruct j as [|j]; [rw drop_0 in Hs; congruence|].
      intros Hn%fmap_None. revert Hn. apply (IH j); [simpl in Hj; lia|done].
  - intros H. destruct (search needle t) as [i|] eqn:E; [|done].
    apply search_Some in E as (Hi & Hs & _). rw H // in Hs.
Qed.

Lemma indexOf_Some needle from t i :
  from ≤ length t →
  indexOf needle from t = Some i ↔
    from ≤ i ∧ i ≤ length t ∧ startsWith needle (drop i t) = true
    ∧ ∀ j, from ≤ j → j < i → startsWith needle (drop j t) = false.
Proof.
  intros Hf. unfold indexOf. rw fmap_Some. split.
  - intros (k & Hk & ->). apply search_Some in Hk as (Hk & Hs & Hn). rw length_drop in Hk. rw drop_drop in Hs.
    repeat split; [lia|lia|done|]. intros j Hj Hj'. specialize (Hn (j - from) ltac:(lia)). rw drop_drop in Hn.
    by replace (from + (j - from)) with j in Hn by lia.
  - intros (Hfi & Hi & Hs & Hn). exists (i - from). split; [|lia]. apply search_Some.
    rw length_drop drop_drop. replace (from + (i - from)) with i by lia. split; [lia|split; [done|]].
    intros j Hj. rw drop_drop. apply Hn; lia.
Qed.

Lemma indexOf_None needle from t :
  from ≤ length t →
  indexOf needle from t = None ↔ ∀ j, from ≤ j → j ≤ length t → startsWith needle (drop j t) = false.
Proof.
  intros Hf. unfold indexOf. rw fmap_None search_None length_drop. split.
  - intros H j Hj Hj'. specialize (H (j - from) ltac:(lia)). rw drop_drop in H.
    by replace (from + (j - from)) with j in H by lia.
  - intros H j Hj. rw drop_drop. apply H; lia.
Qed.

(** ** Splitting and joining *)

Lemma join_cons separator piece pieces :
  pieces ≠ [] → join separator (piece :: pieces) = piece ++ separator ++ join separator pieces.
Proof. by destruct pieces. Qed.

Lemma join_app separator l l' :
  l ≠ [] → l' ≠ [] → join separator (l ++ l') = join separator l ++ separator ++ join separator l'.
Proof.
  intros Hl Hl'. induction l as [|p l IH]; [done|]. destruct l as [|q l]; [by destruct l'|].
  rw -app_comm_cons (join_cons _ p ((q :: l) ++ l')) // IH // (join_cons _ p (q :: l)) //.
  rw -!app_assoc //.
Qed.

Lemma splitOn_nonempty c t : splitOn c t ≠ [].
Proof. destruct t as [|d t]; simpl; [done|]. case_match; [done|]. by case_match. Qed.

Lemma join_splitOn c t : join [c] (splitOn c t) = t.
Proof.
  induction t as [|d t IH]; [done|]. cbn [splitOn]. destruct (N.eqb_spec d c) as [->|_].
  - rw join_cons ?IH //. apply splitOn_nonempty.
  - destruct (splitOn c t) as [|p ps] eqn:E; [by destruct (splitOn_nonempty c t)|].
    transitivity (d :: join [c] (p :: ps)); [by destruct ps|by rw IH].
Qed.

Lemma splitOn_piece c t : Forall (λ p, c ∉ p) (splitOn c t).
Proof.
  induction t as [|d t IH]; simpl; [by constructor; [apply not_elem_of_nil|]|].
  destruct (N.eqb_spec d c) as [->|Hd]; [by constructor; [apply not_elem_of_nil|]|].
  destruct (splitOn c t) as [|p ps]; (constructor; [|by inversion IH]); rw not_elem_of_cons; split; try done;
    [apply not_elem_of_nil|by inversion IH].
Qed.

Lemma splitOn_cons_piece c p t : c ∉ p → splitOn c (p ++ c :: t) = p :: splitOn c t.
Proof.
  induction p as [|d p IH]; cbn [splitOn app]; [by rw N.eqb_refl|]. rw not_elem_of_cons. intros [Hd Hp].
  destruct (N.eqb_spec d c); [congruence|]. by rw IH.
Qed.

Lemma splitOn_none c p : c ∉ p → splitOn c p = [p].
Proof.
  induction p as [|d p IH]; cbn [splitOn]; [done|]. rw not_elem_of_cons. intros [Hd Hp].
  destruct (N.eqb_spec d c); [congruence|]. by rw IH.
Qed.

Lemma splitOn_join c pieces :
  pieces ≠ [] → Forall (λ p, c ∉ p) pieces → splitOn c (join [c] pieces) = pieces.
Proof.
  intros Hne H. induction H as [|p ps Hp Hps IH]; [done|]. destruct ps as [|q ps]; [by apply splitOn_none|].
  rw join_cons // splitOn_cons_piece // IH //.
Qed.

(** ** Splitting at a text *)

Lemma splitText_nonempty needle skip piece t : splitText needle skip piece t ≠ [].
Proof.
  induction t as [|c t IH] in skip, piece |- *; simpl; [done|]. destruct skip; [|apply IH]. case_match; [done|apply IH].
Qed.

Lemma join_splitText_skip needle skip piece t :
  needle ≠ [] → skip ≤ length t → join needle (splitText needle skip piece t) = piece ++ drop skip t.
Proof.
  intros Hne. induction t as [|c t IH] in skip, piece |- *; cbn [splitText].
  { intros Hs. by rw drop_nil app_nil_r. }
  destruct skip as [|skip]; [|by intros Hs; rw IH //; simpl in Hs; lia]. intros _. rw drop_0.
  destruct (startsWith needle (c :: t)) eqn:E.
  - rw join_cons; [apply splitText_nonempty|]. f_equal. apply startsWith_spec in E as [rest Ht].
    destruct needle as [|d needle]; [done|]. injection Ht as -> ->. cbn [length]. rw Nat.sub_1_r /= IH ?length_app; [lia|].
    by rw /= drop_app_length.
  - rw IH; [lia|]. by rw drop_0 -app_assoc.
Qed.

Lemma join_splitText needle t : needle ≠ [] → join needle (splitText needle 0 [] t) = t.
Proof. intros H. rw join_splitText_skip //. lia. Qed.

(** ** Lines *)

(** Lines each followed, or each preceded, by a newline. *)
Definition ended (lines : list text) : text := lines ≫= λ l, l ++ [newline].
Definition begun (lines : list text) : text := lines ≫= λ l, newline :: l.

Lemma ended_app l l' : ended (l ++ l') = ended l ++ ended l'.
Proof. apply bind_app. Qed.

Lemma begun_app l l' : begun (l ++ l') = begun l ++ begun l'.
Proof. apply bind_app. Qed.

Lemma join_begun l lines : join [newline] (l :: lines) = l ++ begun lines.
Proof.
  induction lines as [|m lines IH] in l |- *; [by rw /= app_nil_r|]. rw join_cons // IH. done.
Qed.

Lemma begun_join lines : lines ≠ [] → begun lines = newline :: join [newline] lines.
Proof. destruct lines as [|l lines]; [done|]. intros _. by rw join_begun. Qed.

Lemma join_ended lines lines' : lines' ≠ [] → join [newline] (lines ++ lines') = ended lines ++ join [newline] lines'.
Proof.
  intros H. induction lines as [|l lines IH]; [done|]. rw -app_comm_cons join_cons; [by destruct lines|].
  rw IH. unfold ended. by rw bind_cons -!app_assoc.
Qed.

(** A block of lines inside a text. *)
Lemma join_block a m b :
  m ≠ [] → join [newline] (a ++ m ++ b) = ended a ++ join [newline] m ++ begun b.
Proof.
  intros Hm. rw join_ended; [by destruct m|]. f_equal. destruct m as [|l m]; [done|].
  by rw -app_comm_cons !join_begun begun_app -app_assoc.
Qed.

(** The offset at which every line starts. *)
Fixpoint lineOffsets (offset : nat) (lines : list text) : list nat :=
  match lines with
  | [] => []
  | l :: lines => offset :: lineOffsets (offset + length l + 1) lines
  end.

Lemma length_lineOffsets offset lines : length (lineOffsets offset lines) = length lines.
Proof. induction lines as [|l lines IH] in offset |- *; simpl; [done|by rw IH]. Qed.

Lemma lineOffsets_app offset a b :
  lineOffsets offset (a ++ b) = lineOffsets offset a ++ lineOffsets (offset + length (ended a)) b.
Proof.
  induction a as [|l a IH] in offset |- *; simpl; [by rw Nat.add_0_r|].
  rw IH. do 3 f_equal. unfold ended. rw !length_app /=. lia.
Qed.

Lemma lineOffsets_lookup a l b : lineOffsets 0 (a ++ l :: b) !! length a = Some (length (ended a)).
Proof. rw lineOffsets_app lookup_app_r length_lineOffsets // Nat.sub_diag //. Qed.
