(* ===== verification/Weave.v ===== *)
(** * Replacing parts of a list

    The shared lemmas of the edit tools.  A part is a start, an end and what to put there;
    parts that follow one another are replaced from the last to the first, so that the earlier
    ones keep their offsets, and what lies between them is kept. *)

From Corelib Require Import ssreflect.
From stdpp Require Import prelude.
From S2P Require Import Prelude.

#[local] Open Scope nat_scope.

Section Weave.
Context {A : Type}.

Record part := { p_start : nat; p_end : nat; p_new : list A }.

(** Lists laid out between gaps. *)
Fixpoint weave (gs xs : list (list A)) : list A :=
  match gs, xs with
  | g :: gs, x :: xs => g ++ x ++ weave gs xs
  | g :: _, [] => g
  | [], _ => []
  end.

Definition oldPart (l : list A) (p : part) : list A := take (p_end p - p_start p) (drop (p_start p) l).

Fixpoint gapsFrom (l : list A) (from : nat) (parts : list part) : list (list A) :=
  match parts with
  | [] => [drop from l]
  | p :: parts => take (p_start p - from) (drop from l) :: gapsFrom l (p_end p) parts
  end.

(** Parts one after the other, none before [from]. *)
Fixpoint spaced (from : nat) (parts : list part) : Prop :=
  match parts with
  | [] => True
  | p :: parts => from ≤ p_start p ∧ spaced (p_end p) parts
  end.

Definition within (l : list A) (p : part) : Prop := p_start p ≤ p_end p ≤ length l.

Definition replacePart (p : part) (l : list A) : list A := take (p_start p) l ++ p_new p ++ drop (p_end p) l.
Definition replaceParts (l : list A) (parts : list part) : list A := foldr replacePart l parts.

Lemma spaced_le from from' parts : from ≤ from' → spaced from' parts → spaced from parts.
Proof. destruct parts as [|p parts]; simpl; [done|]. intros ? [? ?]. split; [lia|done]. Qed.

Lemma length_gapsFrom l from parts : length (gapsFrom l from parts) = S (length parts).
Proof. induction parts as [|p parts IH] in from |- *; simpl; [done|by rw IH]. Qed.

Lemma take_drop_again (l : list A) i j : i ≤ j → take (j - i) (drop i l) ++ drop j l = drop i l.
Proof. intros H. rw -{2}(take_drop (j - i) (drop i l)) drop_drop. do 2 f_equal. lia. Qed.

(** The gaps and the old parts make up the list. *)
Lemma weave_old l from parts :
  Forall (within l) parts → spaced from parts → weave (gapsFrom l from parts) (oldPart l <$> parts) = drop from l.
Proof.
  intros H. induction H as [|p parts [Hse _] H IH] in from |- *; simpl; [done|]. intros [Hf Hsp].
  rw IH // /oldPart (take_drop_again l (p_start p)) // (take_drop_again l from) //.
Qed.

(** The gaps and the new parts make up the result. *)
Lemma replaceParts_weave l parts from :
  Forall (within l) parts → spaced from parts →
  take from (replaceParts l parts) = take from l
  ∧ (from ≤ length l → drop from (replaceParts l parts) = weave (gapsFrom l from parts) (p_new <$> parts)).
Proof.
  induction parts as [|p parts IH] in from |- *; simpl; [done|].
  intros [[Hse Hel] H]%Forall_cons [Hf Hsp]. destruct (IH (p_end p) H Hsp) as [Ht Hd]. unfold replacePart. rw Hd //.
  assert (E : take (p_start p) (replaceParts l parts) = take (p_start p) l)
    by (rw -(Nat.min_l (p_start p) (p_end p)) // -!take_take Ht //).
  rw E. assert (Hl : length (take (p_start p) l) = p_start p) by (rw length_take; lia). split.
  - rw take_app_le; [lia|]. rw take_take Nat.min_l //.
  - intros _. rw drop_app_le; [lia|]. by rw skipn_firstn_comm.
Qed.

(** The result, where the parts leave no gap out. *)
Lemma replaceParts_spec l parts :
  Forall (within l) parts → spaced 0 parts →
  ∃ gs, length gs = S (length parts)
        ∧ l = weave gs (oldPart l <$> parts) ∧ replaceParts l parts = weave gs (p_new <$> parts).
Proof.
  intros H Hsp. exists (gapsFrom l 0 parts). destruct (replaceParts_weave l parts 0 H Hsp) as [_ Hd].
  rw length_gapsFrom weave_old // drop_0. split; [done|split; [done|]]. rw -Hd; [lia|]. by rw drop_0.
Qed.

(** Two parts with the same borders are empty, or one and the same. *)
Lemma spaced_after from parts p :
  spaced from parts → Forall (λ x, p_start x ≤ p_end x) parts → p ∈ parts → from ≤ p_start p.
Proof.
  intros Hs H. induction H as [|x parts Hx H IH] in from, Hs |- *; [by intros ?%not_elem_of_nil|].
  destruct Hs as [Hf Hs]. intros [->|Hin]%elem_of_cons; [done|]. specialize (IH _ Hs Hin). lia.
Qed.

Lemma spaced_same from parts x y :
  spaced from parts → Forall (λ s, p_start s ≤ p_end s) parts → x ∈ parts → y ∈ parts →
  p_start x = p_start y → p_end x = p_end y → x = y ∨ p_start x = p_end x.
Proof.
  intros Hs H. induction H as [|s parts Hse H IH] in from, Hs |- *; [by intros ?%not_elem_of_nil|].
  destruct Hs as [Hf Hs]. intros [->|Hx]%elem_of_cons [->|Hy]%elem_of_cons Hb He; [by left| | |by eapply IH].
  - right. apply (spaced_after _ _ y Hs H) in Hy. lia.
  - right. apply (spaced_after _ _ x Hs H) in Hx. lia.
Qed.
End Weave.
Arguments part : clear implicits.
