(* ===== verification/EditDiff.v ===== *)
(** * Matching the text of an edit

    [packages/runtime/kernel/tools/edit-diff.ts]: line endings, the byte order mark, and the
    exact-then-fuzzy search for the text an edit replaces, with the map from the normalized
    text back to the offsets of the file.  [normalize("NFKC")] and the Unicode property [M] of a
    code point are the two tables the language brings: they are parameters. *)

From Corelib Require Import ssreflect.
From stdpp Require Import prelude strings sorting.
From Stdlib Require Import Sorted.
From S2P Require Import Prelude Text.

#[local] Open Scope nat_scope.

(** ** Line endings and the byte order mark *)

Inductive LineEnding := CRLF | LF.
#[export] Instance LineEnding_eq : EqDecision LineEnding.
Proof. solve_decision. Defined.

Definition detectLineEnding (content : text) : LineEnding :=
  match search [newline] content, search [carriageReturn; newline] content with
  | None, _ => LF
  | _, None => LF
  | Some lfIdx, Some crlfIdx => if crlfIdx <? lfIdx then CRLF else LF
  end.

(** [replace(/\r\n/g, "\n")]. *)
Fixpoint crlfToLf (t : text) : text :=
  match t with
  | [] => []
  | c :: rest =>
      match rest with
      | d :: rest' =>
          if (c =? carriageReturn)%N && (d =? newline)%N then newline :: crlfToLf rest' else c :: crlfToLf rest
      | [] => [c]
      end
  end.

(** [replace(/\r/g, "\n")]. *)
Definition crToLf (t : text) : text := (λ c, if (c =? carriageReturn)%N then newline else c) <$> t.

Definition normalizeToLF (t : text) : text := crToLf (crlfToLf t).

Definition restoreLineEndings (t : text) (ending : LineEnding) : text :=
  match ending with
  | CRLF => t ≫= λ c, if (c =? newline)%N then [carriageReturn; newline] else [c]
  | LF => t
  end.

Definition byteOrderMark : N := 65279%N.

Definition stripBom (content : text) : text * text :=
  match content with
  | c :: rest => if (c =? byteOrderMark)%N then ([byteOrderMark], rest) else ([], content)
  | [] => ([], [])
  end.

(** ** Code points and clusters *)

Definition isHighSurrogate (c : N) : bool := ((55296 <=? c) && (c <=? 56319))%N.
Definition isLowSurrogate (c : N) : bool := ((56320 <=? c) && (c <=? 57343))%N.

(** A text as its code points, each the one or two units that encode it. *)
Fixpoint points (t : text) : list text :=
  match t with
  | [] => []
  | h :: rest =>
      match rest with
      | l :: rest' => if isHighSurrogate h && isLowSurrogate l then [h; l] :: points rest' else [h] :: points rest
      | [] => [[h]]
      end
  end.

Definition codePoint (p : text) : N :=
  match p with
  | [h; l] => (65536 + (h - 55296) * 1024 + (l - 56320))%N
  | c :: _ => c
  | [] => 0%N
  end.

(** Dashes, quotes and spaces that stand for an ASCII character. *)
Definition foldPunctuation (c : N) : N :=
  if ((8216 <=? c) && (c <=? 8219))%N then 39%N
  else if ((8220 <=? c) && (c <=? 8223))%N then 34%N
  else if ((8208 <=? c) && (c <=? 8213) || (c =? 8722))%N then 45%N
  else if ((c =? 160) || (8194 <=? c) && (c <=? 8202) || (c =? 8239) || (c =? 8287) || (c =? 12288))%N then 32%N
  else c.

(** [/^[\x00-\x7f]*$/] *)
Definition isAsciiLine (line : text) : bool := forallb (λ c, (c <=? 127)%N) line.

(** [findOccurrences], the loop over its cursor. *)
Fixpoint occurrencesFrom (fuel cursor : nat) (haystack needle : text) : list nat :=
  match fuel with
  | O => []
  | S fuel =>
      if cursor + length needle <=? length haystack then
        match indexOf needle cursor haystack with
        | None => []
        | Some index => index :: occurrencesFrom fuel (index + Nat.max 1 (length needle)) haystack needle
        end
      else []
  end.

Definition findOccurrences (haystack needle : text) : list nat :=
  occurrencesFrom (S (length haystack)) 0 haystack needle.

Record FuzzyNormalized := {
  fn_text : text;
  startMap : list (option nat);
  endMap : list (option nat);
}.

Record FuzzyMatchResult := {
  index : nat;
  matchLength : nat;
  usedFuzzyMatch : bool;
  occurrences : nat;
  locations : list nat;
  leading : text;
  trailing : text;
}.

Definition MAX_REPORTED_LOCATIONS : nat := 5.

Section Fuzzy.
Context (nfkc : text → text) (isMark : N → bool).

(** [FUZZY_CLUSTER]: a code point with the marks after it. *)
Fixpoint clustersOf (ps : list text) : list text :=
  match ps with
  | [] => []
  | p :: rest =>
      let tail := clustersOf rest in
      match rest, tail with
      | q :: _, cluster :: clusters =>
          if isMark (codePoint q) then (p ++ cluster) :: clusters else p :: cluster :: clusters
      | _, _ => [p]
      end
  end.

Definition clusters (line : text) : list text := clustersOf (points line).

Definition normalizeFuzzyCluster (cluster : text) : text := foldPunctuation <$> nfkc cluster.

(** [lineMap] of one cluster: its first unit maps to the cluster, the others to -1. *)
Definition clusterMap (offset : nat) (normalized : text) : list (option nat) :=
  match normalized with
  | [] => []
  | _ :: rest => Some offset :: ((λ _, None) <$> rest)
  end.

Fixpoint pieces (offset : nat) (cs : list text) : text * list (option nat) :=
  match cs with
  | [] => ([], [])
  | cluster :: cs =>
      let normalized := normalizeFuzzyCluster cluster in
      let rest := pieces (offset + length cluster) cs in
      (normalized ++ rest.1, clusterMap offset normalized ++ rest.2)
  end.

(** [lineText] and [lineMap] of a line at [lineOffset]. *)
Definition lineView (lineOffset : nat) (line : text) : text * list (option nat) :=
  if isAsciiLine line then (line, Some <$> seq lineOffset (length line)) else pieces lineOffset (clusters line).

(** [while (kept < lineText.length && lineMap[kept] === -1) kept++]. *)
Fixpoint skipInside (fuel kept : nat) (lineMap : list (option nat)) : nat :=
  match fuel with
  | O => kept
  | S fuel => match lineMap !! kept with Some None => skipInside fuel (S kept) lineMap | _ => kept end
  end.

Definition keptLength (view : text * list (option nat)) : nat :=
  skipInside (length view.1) (length (trimEnd view.1)) view.2.

(** [previousStrippedFrom] after a line. *)
Definition strippedFrom (lineOffset : nat) (line : text) : nat :=
  let view := lineView lineOffset line in
  match view.2 !! keptLength view with
  | Some (Some offset) => offset
  | _ => lineOffset + length line
  end.

(** The loop over the lines; [first] is [lineIndex === 0]. *)
Fixpoint viewLines (first : bool) (lineOffset previousStrippedFrom : nat) (lines : list text) :
    text * list (option nat) * list (option nat) * nat :=
  match lines with
  | [] => ([], [], [], previousStrippedFrom)
  | line :: lines =>
      let view := lineView lineOffset line in
      let kept := keptLength view in
      let '(parts, starts, ends, stripped) :=
        viewLines false (lineOffset + length line + 1) (strippedFrom lineOffset line) lines in
      ((if first then [] else [newline]) ++ take kept view.1 ++ parts,
       (if first then [] else [Some (lineOffset - 1)]) ++ take kept view.2 ++ starts,
       (if first then [] else [Some previousStrippedFrom]) ++ take kept view.2 ++ ends,
       stripped)
  end.

Definition normalizeForFuzzyMatchWithMap (t : text) : FuzzyNormalized :=
  let '(parts, starts, ends, stripped) := viewLines true 0 0 (splitOn newline t) in
  {| fn_text := parts; startMap := starts ++ [Some (length t)]; endMap := ends ++ [Some stripped] |}.

Definition normalizeForFuzzyMatch (t : text) : text := fn_text (normalizeForFuzzyMatchWithMap t).

(** [while (start > 0 && startMap[start] === -1) start--]. *)
Fixpoint widenStart (map : list (option nat)) (start : nat) : nat :=
  match start with
  | O => O
  | S start' => match map !! start with Some None => widenStart map start' | _ => start end
  end.

(** [while (end < text.length && endMap[end] === -1) end++]. *)
Fixpoint widenEnd (fuel : nat) (map : list (option nat)) (end_ : nat) : nat :=
  match fuel with
  | O => end_
  | S fuel => match map !! end_ with Some None => widenEnd fuel map (S end_) | _ => end_ end
  end.

(** [fuzzy.startMap[i]!]; the maps hold an offset wherever [toOriginal] reads them. *)
Definition offsetAt (map : list (option nat)) (i : nat) : nat := default 0 (default None (map !! i)).

(** [toOriginal]: the index, the length and the text to put back around the replacement. *)
Definition toOriginal (fuzzy : FuzzyNormalized) (needleLength normalizedStart : nat) : nat * nat * text * text :=
  let normalizedEnd := normalizedStart + needleLength in
  let start := widenStart (startMap fuzzy) normalizedStart in
  let end_ := widenEnd (length (fn_text fuzzy) - normalizedEnd) (endMap fuzzy) normalizedEnd in
  let originalStart := offsetAt (startMap fuzzy) start in
  let originalEnd := Nat.max originalStart (offsetAt (endMap fuzzy) end_) in
  (originalStart, originalEnd - originalStart,
   slice start normalizedStart (fn_text fuzzy), slice normalizedEnd end_ (fn_text fuzzy)).

(** [None] is [notFound]. *)
Definition fuzzyFindText (content oldText : text) : option FuzzyMatchResult :=
  match (match oldText with [] => [] | _ => findOccurrences content oldText end) with
  | (first :: _) as exact =>
      Some {| index := first; matchLength := length oldText; usedFuzzyMatch := false; occurrences := length exact;
              locations := take MAX_REPORTED_LOCATIONS exact; leading := []; trailing := [] |}
  | [] =>
      let fuzzyOldText := normalizeForFuzzyMatch oldText in
      match fuzzyOldText with
      | [] => None
      | _ =>
          let fuzzy := normalizeForFuzzyMatchWithMap content in
          match findOccurrences (fn_text fuzzy) fuzzyOldText with
          | [] => None
          | (first :: _) as matches =>
              let '(i, n, before, after) := toOriginal fuzzy (length fuzzyOldText) first in
              Some {| index := i; matchLength := n; usedFuzzyMatch := true; occurrences := length matches;
                      locations := (λ m, (toOriginal fuzzy (length fuzzyOldText) m).1.1.1) <$>
                                     take MAX_REPORTED_LOCATIONS matches;
                      leading := before; trailing := after |}
          end
      end
  end.
End Fuzzy.

(** ** Line endings *)

Lemma crlfToLf_cons c t :
  crlfToLf (c :: t) =
    match t with
    | d :: t' => if (c =? carriageReturn)%N && (d =? newline)%N then newline :: crlfToLf t' else c :: crlfToLf t
    | [] => [c]
    end.
Proof. done. Qed.

Lemma crlfToLf_restore c :
  carriageReturn ∉ c → crlfToLf (restoreLineEndings c CRLF) = c.
Proof.
  induction c as [|d c IH]; [done|]. rw not_elem_of_cons. intros [Hd Hc]. specialize (IH Hc).
  cbn [restoreLineEndings] in *. rw bind_cons. destruct (N.eqb_spec d newline) as [->|Hn].
  - rw -{2}IH. done.
  - destruct (N.eqb_spec d carriageReturn); [congruence|]. cbn [app]. rw crlfToLf_cons IH.
    set (r := c ≫= _) in IH |- *. destruct r; [by rw -IH|]. by destruct (N.eqb_spec d carriageReturn).
Qed.

Lemma crToLf_id t : carriageReturn ∉ t → crToLf t = t.
Proof.
  intros H. unfold crToLf. rw -{2}(list_fmap_id t). apply list_fmap_ext. intros i c Hi. simpl.
  destruct (N.eqb_spec c carriageReturn) as [->|]; [|done]. by apply list_elem_of_lookup_2 in Hi.
Qed.

Lemma crlfToLf_no_cr t : carriageReturn ∉ t → crlfToLf t = t.
Proof.
  induction t as [|c t IH]; [done|]. rw not_elem_of_cons. intros [Hc Ht]. rw crlfToLf_cons IH //.
  destruct t; [done|]. by destruct (N.eqb_spec c carriageReturn).
Qed.

Lemma normalizeToLF_id t : carriageReturn ∉ t → normalizeToLF t = t.
Proof. intros H. unfold normalizeToLF. by rw crlfToLf_no_cr // crToLf_id. Qed.

Lemma normalizeToLF_no_cr t : carriageReturn ∉ normalizeToLF t.
Proof.
  unfold normalizeToLF, crToLf. rw list_elem_of_fmap. intros (c & Hc & _). by destruct (N.eqb_spec c carriageReturn).
Qed.

(** The LF form of a text written with one line ending is the text it was written from. *)
Lemma normalizeToLF_restore c ending : carriageReturn ∉ c → normalizeToLF (restoreLineEndings c ending) = c.
Proof.
  intros H. destruct ending; [|by apply normalizeToLF_id]. unfold normalizeToLF. by rw crlfToLf_restore // crToLf_id.
Qed.

Lemma restoreLineEndings_one_line c ending : newline ∉ c → restoreLineEndings c ending = c.
Proof.
  intros H. destruct ending; [|done]. cbn [restoreLineEndings]. induction c as [|d c IH]; [done|].
  rw not_elem_of_cons in H. destruct H as [Hd Hc]. rw bind_cons IH //. by destruct (N.eqb_spec d newline).
Qed.

Lemma search_skip h needle l t :
  h ∉ l → search (h :: needle) (l ++ t) = (λ i, length l + i) <$> search (h :: needle) t.
Proof.
  induction l as [|c l IH]; simpl app.
  - intros _. by destruct (search _ t).
  - rw not_elem_of_cons. intros [Hc Hl]. cbn [search startsWith]. destruct (N.eqb_spec h c); [congruence|].
    simpl. rw IH //. by destruct (search _ t).
Qed.

Lemma search_absent h needle t : h ∉ t → search (h :: needle) t = None.
Proof. intros H. rw -(app_nil_r t) search_skip //. Qed.

(** The first line ending decides. *)
Lemma detectLineEnding_restore c ending :
  carriageReturn ∉ c → newline ∈ c → detectLineEnding (restoreLineEndings c ending) = ending.
Proof.
  intros Hc Hn. apply list_elem_of_split_l in Hn as (l & r & -> & Hl). unfold detectLineEnding.
  destruct ending; cbn [restoreLineEndings].
  - rw not_elem_of_app in Hc. destruct Hc as [Hcl _].
    assert (E : (l ++ newline :: r) ≫= (λ c, if (c =? newline)%N then [carriageReturn; newline] else [c]) =
                l ++ carriageReturn :: newline :: restoreLineEndings r CRLF).
    { rw bind_app bind_cons. f_equal. by apply (restoreLineEndings_one_line l CRLF). }
    rw E !search_skip //=. by destruct (Nat.ltb_spec (length l + 0) (length l + 1)); [|lia].
  - rw (search_absent carriageReturn) //. by case_match.
Qed.

(** Editing a file keeps its line endings: the text the tools normalized to LF and edited is
    written back with the ending of its first line, and a file left as it was comes back
    unchanged exactly if it was written with one line ending throughout. *)
Theorem line_endings_round_trip t :
  restoreLineEndings (normalizeToLF t) (detectLineEnding t) = t
  ↔ ∃ c ending, carriageReturn ∉ c ∧ t = restoreLineEndings c ending.
Proof.
  split; [by intros H; exists (normalizeToLF t), (detectLineEnding t); split; [apply normalizeToLF_no_cr|]|].
  intros (c & ending & Hc & ->). rw normalizeToLF_restore //.
  destruct (decide (newline ∈ c)); [by rw detectLineEnding_restore|]. by rw !restoreLineEndings_one_line.
Qed.

(** ** Occurrences *)

Section Occurrences.
Context (haystack needle : text).

(** Where the needle is, and the list of the places a scan from the left finds. *)
Definition occursAt (i : nat) : Prop := startsWith needle (drop i haystack) = true.

Lemma occursAt_bound i : needle ≠ [] → occursAt i → i + length needle ≤ length haystack.
Proof.
  intros Hn H%startsWith_length. rw length_drop in H. destruct needle; [done|]. simpl in *. lia.
Qed.

(** The scan stops at the first place, then goes on after it. *)
Record Scan (cursor : nat) (found : list nat) : Prop := {
  scan_sound : ∀ i, i ∈ found → cursor ≤ i ∧ occursAt i;
  scan_complete : ∀ j, cursor ≤ j → occursAt j → ∃ i, i ∈ found ∧ i ≤ j < i + length needle;
  scan_spaced : StronglySorted (λ i j, i + length needle ≤ j) found;
}.

Lemma occurrencesFrom_scan fuel cursor :
  needle ≠ [] → cursor ≤ length haystack → length haystack - cursor < fuel →
  Scan cursor (occurrencesFrom fuel cursor haystack needle).
Proof.
  intros Hn. revert cursor. induction fuel as [|fuel IH]; intros cursor Hc Hf; [lia|]. cbn [occurrencesFrom].
  assert (Hlen : 0 < length needle) by (destruct needle; simpl; [done|lia]).
  destruct (Nat.leb_spec (cursor + length needle) (length haystack)) as [Hle|Hgt].
  2:{ constructor; [by intros ? ?%not_elem_of_nil| |constructor]. intros j Hj Hocc.
      apply occursAt_bound in Hocc; [lia|done]. }
  destruct (indexOf needle cursor haystack) as [i|] eqn:E.
  - apply indexOf_Some in E as (Hi & Hil & Hs & Hfirst); [|lia]. rw (Nat.max_r 1) //.
    assert (Hb := occursAt_bound i Hn Hs).
    destruct (IH (i + length needle)) as [Hsound Hcomplete Hspaced]; [lia|lia|]. constructor.
    + intros j [->|Hj]%elem_of_cons; [done|]. apply Hsound in Hj as [? ?]. split; [lia|done].
    + intros j Hj Hocc. destruct (decide (j < i + length needle)) as [Hlt|Hge].
      * exists i. split; [by left|]. split; [|done]. destruct (decide (j < i)) as [Hji|]; [|lia].
        specialize (Hfirst j Hj Hji). unfold occursAt in Hocc. congruence.
      * destruct (Hcomplete j) as (k & Hk & ?); [lia|done|]. exists k. split; [by right|done].
    + constructor; [done|]. apply Forall_forall. intros j Hj. by apply Hsound in Hj as [? ?].
  - constructor; [by intros ? ?%not_elem_of_nil| |constructor]. intros j Hj Hocc.
    assert (Hb := occursAt_bound j Hn Hocc). rw indexOf_None // in E. specialize (E j Hj ltac:(lia)).
    unfold occursAt in Hocc. congruence.
Qed.

Lemma findOccurrences_scan : needle ≠ [] → Scan 0 (findOccurrences haystack needle).
Proof. intros Hn. apply occurrencesFrom_scan; [done|lia|lia]. Qed.
End Occurrences.
