(* ===== verification/Hashline.v ===== *)
(** * Lines addressed by hash

    [packages/runtime/kernel/tools/hashline.ts]: the LINE#HASH anchors [Read] prints before
    every line, their parser, the resolution of an anchor against the lines a file has now, and
    the single anchored edit.  Offsets and line numbers are exact integers; a thrown error is
    [None]. *)

From Corelib Require Import ssreflect.
From stdpp Require Import prelude strings.
From S2P Require Import Prelude Text EditDiff.

#[local] Open Scope nat_scope.

(** ** The tag of a line *)

Definition HASH_TAG_LENGTH : nat := 3.
Definition HASH_SPACE : N := 46656%N.

(** [Number.prototype.toString(radix)]: digits, then letters. *)
Definition digitChar (d : N) : N := (if d <? 10 then 48 + d else 87 + d)%N.

Fixpoint digitsOf (fuel : nat) (radix n : N) : text :=
  match fuel with
  | O => []
  | S fuel => if (n <? radix)%N then [digitChar n] else digitsOf fuel radix (n / radix)%N ++ [digitChar (n mod radix)%N]
  end.

Definition toRadix (radix n : N) : text := digitsOf (S (N.size_nat n)) radix n.

Definition padStart (width : nat) (c : N) (t : text) : text := replicate (width - length t) c ++ t.

(** One step of the hash: the exclusive or and [Math.imul], on the 32 bits of the number. *)
Definition hashStep (hash c : N) : N := (N.lxor hash c * 16777619 mod 2 ^ 32)%N.

Definition hashLineTag (line : text) : text :=
  padStart HASH_TAG_LENGTH 48 (toRadix 36 (foldl hashStep 2166136261%N line mod HASH_SPACE)%N).

(** ** Anchors *)

Record HashLineAnchor := { line : Z; hash : text }.

Definition isDigit (c : N) : bool := ((48 <=? c) && (c <=? 57))%N.
Definition isBase36 (c : N) : bool := isDigit c || ((97 <=? c) && (c <=? 122))%N.

(** The longest prefix of units that satisfy [p], and the rest. *)
Fixpoint span (p : N → bool) (t : text) : text * text :=
  match t with
  | [] => ([], [])
  | c :: rest => if p c then (c :: (span p rest).1, (span p rest).2) else ([], t)
  end.

(** [Number(digits)]. *)
Definition digitsValue (digits : text) : N := foldl (λ n c, (10 * n + (c - 48))%N) 0%N digits.

(** [parseAnchor], the pattern [^\s*(\d+)#([0-9a-z]+)\s*$]. *)
Definition parseAnchor (raw : text) : option HashLineAnchor :=
  let '(digits, rest) := span isDigit (trimStart raw) in
  match digits, rest with
  | _ :: _, c :: rest =>
      if (c =? 35)%N then
        let '(tag, rest) := span isBase36 rest in
        match tag, trimStart rest with
        | _ :: _, [] => Some {| line := Z.of_N (digitsValue digits); hash := tag |}
        | _, _ => None
        end
      else None
  | _, _ => None
  end.

(** ** What [Read] prints *)

Definition anchorTag (index : nat) (rawLine : text) : text :=
  padStart 6 32 (toRadix 10 (N.of_nat (S index))) ++ [35%N] ++ hashLineTag rawLine.

Definition formatRow (index : nat) (rawLine display : text) : text :=
  anchorTag index rawLine ++ [9%N] ++
    (if 2000 <? length display then slice 0 2000 display ++ u "..." else display).

(** The rows of [body]; [offset] and [limit] are integers. *)
Definition formatWithHashLines (rawLines displayLines : list text) (offset limit : Z) : list text :=
  let startLine := Z.to_nat (0 `max` (offset - 1))%Z in
  let endLine := Z.to_nat (Z.of_nat (length rawLines) `min` (Z.of_nat startLine + limit))%Z in
  (λ index, formatRow index (default [] (rawLines !! index)) (default [] (displayLines !! index))) <$>
    seq startLine (endLine - startLine).

(** ** Resolution *)

Definition distance (hintIndex : Z) (index : nat) : Z := Z.abs (Z.of_nat index - hintIndex).

(** The loop that keeps the nearest line with the hash. *)
Fixpoint nearest (hintIndex : Z) (tag : text) (best : option nat) (index : nat) (lines : list text) : option nat :=
  match lines with
  | [] => best
  | l :: lines =>
      let best :=
        if bool_decide (hashLineTag l = tag) then
          match best with
          | None => Some index
          | Some b => if (distance hintIndex index <? distance hintIndex b)%Z then Some index else best
          end
        else best in
      nearest hintIndex tag best (S index) lines
  end.

Definition resolveAnchor (lines : list text) (anchor : HashLineAnchor) : option nat :=
  let hintIndex := (line anchor - 1)%Z in
  if bool_decide (0 ≤ hintIndex < Z.of_nat (length lines))%Z
     && bool_decide (hashLineTag (default [] (lines !! Z.to_nat hintIndex)) = hash anchor)
  then Some (Z.to_nat hintIndex)
  else nearest hintIndex (hash anchor) None 0 lines.

(** ** Pasted prefixes *)

(** [^\s*\d+(#[0-9a-z]+)?\t], and what follows it. *)
Definition afterPrefix (l : text) : option text :=
  let '(digits, rest) := span isDigit (trimStart l) in
  match digits, rest with
  | _ :: _, c :: after =>
      if (c =? 9)%N then Some after
      else if (c =? 35)%N then
        match span isBase36 after with
        | (_ :: _, t :: after) => if (t =? 9)%N then Some after else None
        | _ => None
        end
      else None
  | _, _ => None
  end.

Definition stripHashLinePrefixes (t : text) : text :=
  let lines := splitOn newline t in
  let meaningful := filter (λ l, trim l ≠ []) lines in
  if bool_decide (meaningful = []) || negb (forallb (λ l, bool_decide (is_Some (afterPrefix l))) meaningful)
  then t
  else join [newline] ((λ l, default l (afterPrefix l)) <$> lines).

(** ** One anchored edit *)

Record AnchoredEdit := { anchor : HashLineAnchor; endAnchor : option HashLineAnchor; newText : text; insertAfter : bool }.

Record AnchoredEditResult :=
  { content : text; startLine : nat; endLine : nat; linesRemoved : nat; linesAdded : nat }.

Definition resolveRange (lines : list text) (edit : AnchoredEdit) : option (nat * nat) :=
  startIndex ← resolveAnchor lines (anchor edit);
  endIndex ← match endAnchor edit with Some a => resolveAnchor lines a | None => Some startIndex end;
  if endIndex <? startIndex then None else Some (startIndex, endIndex).

(** [next.splice(start, deleteCount, ...items)]. *)
Definition splice (start deleteCount : nat) (items lines : list text) : list text :=
  take start lines ++ items ++ drop (start + deleteCount) lines.

Definition applyAnchoredEdit (text : text) (edit : AnchoredEdit) : option AnchoredEditResult :=
  let lines := splitOn newline text in
  '(startIndex, endIndex) ← resolveRange lines edit;
  let added := normalizeToLF (stripHashLinePrefixes (newText edit)) in
  let replacementLines :=
    if bool_decide (added = []) && negb (insertAfter edit) then [] else splitOn newline added in
  if insertAfter edit then
    Some {| content := join [newline] (splice (startIndex + 1) 0 replacementLines lines);
            startLine := startIndex + 1; endLine := startIndex + 1;
            linesRemoved := 0; linesAdded := length replacementLines |}
  else
    let removed := endIndex - startIndex + 1 in
    Some {| content := join [newline] (splice startIndex removed replacementLines lines);
            startLine := startIndex + 1; endLine := endIndex + 1;
            linesRemoved := removed; linesAdded := length replacementLines |}.

(** ** Digits *)

Lemma digitsOf_forall (p : N → bool) fuel radix n :
  (0 < radix)%N → (∀ d, (d < radix)%N → p (digitChar d) = true) → Forall (λ c, p c = true) (digitsOf fuel radix n).
Proof.
  intros Hr Hp. revert n. induction fuel as [|fuel IH]; intros n; cbn [digitsOf]; [constructor|].
  destruct (N.ltb_spec n radix); [by repeat constructor; apply Hp|].
  apply Forall_app. split; [apply IH|]. repeat constructor. apply Hp, N.mod_lt. lia.
Qed.

Lemma digitsOf_nonempty fuel radix n : digitsOf (S fuel) radix n ≠ [].
Proof. cbn [digitsOf]. case_match; [done|]. by destruct (digitsOf fuel _ _). Qed.

Lemma digitsValue_snoc l c : digitsValue (l ++ [c]) = (10 * digitsValue l + (c - 48))%N.
Proof. unfold digitsValue. rw foldl_app //. Qed.

Lemma digitsOf_value fuel n : (n < 2 ^ N.of_nat fuel)%N → digitsValue (digitsOf (S fuel) 10 n) = n.
Proof.
  revert n. induction fuel as [|fuel IH]; intros n Hn.
  - assert (n = 0%N) as -> by (simpl in Hn; lia). done.
  - rw Nat2N.inj_succ N.pow_succ_r' in Hn. remember (S fuel) as f. cbn [digitsOf]. subst f.
    assert (Hd : ∀ d, (d < 10)%N → (digitChar d - 48 = d)%N)
      by (intros d Hd; unfold digitChar; destruct (N.ltb_spec d 10); lia).
    destruct (N.ltb_spec n 10); [unfold digitsValue; simpl; rw Hd; lia|].
    assert (Hm := N.mod_lt n 10 ltac:(done)). assert (Hq := N.div_mod n 10 ltac:(done)).
    rw digitsValue_snoc IH; [apply N.Div0.div_lt_upper_bound; lia|]. rw Hd; lia.
Qed.

Lemma toRadix_value n : digitsValue (toRadix 10 n) = n.
Proof.
  apply digitsOf_value. destruct n as [|p]; [done|]. simpl N.size_nat.
  assert (H := N.size_gt (N.pos p)). replace (N.of_nat (Pos.size_nat p)) with (N.size (N.pos p)); [done|].
  clear H. induction p as [p IH|p IH|]; cbn [Pos.size_nat N.size Pos.size] in *; lia.
Qed.

Lemma toRadix_digits n : Forall (λ c, isDigit c = true) (toRadix 10 n).
Proof.
  apply (digitsOf_forall isDigit); [done|]. intros d Hd. unfold isDigit, digitChar.
  destruct (N.ltb_spec d 10); [|lia]. rw andb_true_iff !N.leb_le. lia.
Qed.

Lemma toRadix_base36 n : Forall (λ c, isBase36 c = true) (toRadix 36 n).
Proof.
  apply (digitsOf_forall isBase36); [done|]. intros d Hd. unfold isBase36, isDigit, digitChar.
  destruct (N.ltb_spec d 10); rw orb_true_iff !andb_true_iff !N.leb_le; lia.
Qed.

Lemma hashLineTag_base36 l : Forall (λ c, isBase36 c = true) (hashLineTag l).
Proof. apply Forall_app. split; [by apply Forall_replicate|apply toRadix_base36]. Qed.

Lemma hashLineTag_nonempty l : hashLineTag l ≠ [].
Proof. unfold hashLineTag, padStart. intros [_ H]%app_nil. by apply digitsOf_nonempty in H. Qed.

(** ** Reading an anchor back *)

Lemma span_app (p : N → bool) l t :
  Forall (λ c, p c = true) l → (∀ c rest, t = c :: rest → p c = false) → span p (l ++ t) = (l, t).
Proof.
  intros Hl Ht. induction Hl as [|c l Hc Hl IH]; simpl.
  - destruct t as [|c t]; [done|]. simpl. by rw (Ht c t).
  - by rw Hc IH.
Qed.

Lemma trimStart_pad k t : trimStart (replicate k 32%N ++ t) = trimStart t.
Proof. by induction k. Qed.

Lemma trimStart_digits l t : l ≠ [] → Forall (λ c, isDigit c = true) l → trimStart (l ++ t) = l ++ t.
Proof.
  intros Hne Hl. destruct Hl as [|c l Hc Hl]; [done|]. simpl.
  assert (isWhite c = false) as ->; [|done]. unfold isDigit in Hc. apply andb_true_iff in Hc as [H1 H2].
  apply N.leb_le in H1, H2. apply not_true_iff_false. unfold isWhite.
  rw !orb_true_iff !andb_true_iff !N.leb_le !N.eqb_eq. lia.
Qed.

Lemma parse_anchorTag index rawLine :
  parseAnchor (anchorTag index rawLine) = Some {| line := Z.of_nat (S index); hash := hashLineTag rawLine |}.
Proof.
  unfold parseAnchor, anchorTag, padStart. set (digits := toRadix 10 _).
  assert (Hd : Forall (λ c, isDigit c = true) digits) by apply toRadix_digits.
  assert (Hne : digits ≠ []) by apply digitsOf_nonempty.
  assert (Hv : digitsValue digits = N.of_nat (S index)) by apply toRadix_value. clearbody digits.
  rw -app_assoc trimStart_pad trimStart_digits // span_app //; [by intros c rest [= <- _]|].
  destruct digits as [|d digits]; [done|]. cbn [app]. rw N.eqb_refl.
  rw -{1}(app_nil_r (hashLineTag rawLine)) (span_app isBase36 _ []) //; [apply hashLineTag_base36|].
  destruct (hashLineTag rawLine) eqn:E; [by apply hashLineTag_nonempty in E|]. simpl trimStart. rw Hv. do 2 f_equal.
Qed.

(** ** Resolution *)

Section Resolve.
Context (lines : list text) (hintIndex : Z) (tag : text).

Definition carries (i : nat) : Prop := hashLineTag <$> lines !! i = Some tag.

(** Of the first [n] lines that carry the hash, [best] is the nearest, the upper one of two. *)
Definition isNearest (n : nat) (best : option nat) : Prop :=
  match best with
  | None => ∀ i, i < n → ¬ carries i
  | Some b =>
      b < n ∧ carries b ∧
      ∀ i, i < n → carries i →
        (distance hintIndex b < distance hintIndex i)%Z ∨ distance hintIndex b = distance hintIndex i ∧ b ≤ i
  end.

Lemma isNearest_unique n best best' : isNearest n best → isNearest n best' → best = best'.
Proof.
  destruct best as [b|], best' as [b'|]; simpl.
  - intros (Hb & Hc & H) (Hb' & Hc' & H'). f_equal.
    destruct (H b' Hb' Hc') as [?|[? ?]], (H' b Hb Hc) as [?|[? ?]]; lia.
  - intros (Hb & Hc & _) Hn. by destruct (Hn b).
  - intros Hn (Hb & Hc & _). by destruct (Hn b').
  - done.
Qed.

Lemma isNearest_step n best l :
  lines !! n = Some l → isNearest n best →
  isNearest (S n)
    (if bool_decide (hashLineTag l = tag) then
       match best with
       | None => Some n
       | Some b => if (distance hintIndex n <? distance hintIndex b)%Z then Some n else best
       end
     else best).
Proof.
  intros Hl Hbest.
  assert (Hc : carries n ↔ hashLineTag l = tag) by (unfold carries; rw Hl /=; split; [by intros [=]|by intros ->]).
  assert (Hlt : ∀ i, i < S n → i < n ∨ i = n) by lia.
  destruct (bool_decide_reflect (hashLineTag l = tag)) as [Htag|Htag].
  - destruct best as [b|]; simpl in Hbest.
    + destruct Hbest as (Hb & Hcb & H). destruct (Z.ltb_spec (distance hintIndex n) (distance hintIndex b)); simpl.
      * split; [lia|split; [by apply Hc|]]. intros i [Hi| ->]%Hlt Hci; [|by right]. destruct (H i Hi Hci); lia.
      * split; [lia|split; [done|]]. intros i [Hi| ->]%Hlt Hci; [by apply H|]. lia.
    + split; [lia|split; [by apply Hc|]]. intros i [Hi| ->]%Hlt Hci; [by destruct (Hbest i)|by right].
  - destruct best as [b|]; simpl in *.
    + destruct Hbest as (Hb & Hcb & H). split; [lia|split; [done|]].
      intros i [Hi| ->]%Hlt Hci; [by apply H|]. by apply Hc in Hci.
    + intros i [Hi| ->]%Hlt; [by apply Hbest|]. by rw Hc.
Qed.

Lemma nearest_isNearest rest n best :
  drop n lines = rest → isNearest n best → isNearest (n + length rest) (nearest hintIndex tag best n rest).
Proof.
  revert n best. induction rest as [|l rest IH]; intros n best Hd Hbest; cbn [nearest length].
  - by rw Nat.add_0_r.
  - rw Nat.add_succ_r -Nat.add_succ_l. apply IH.
    + replace (S n) with (n + 1) by lia. by rw -drop_drop Hd.
    + apply isNearest_step; [|done]. by rw -(Nat.add_0_r n) -lookup_drop Hd.
Qed.
End Resolve.

Lemma resolveAnchor_isNearest lines a : isNearest lines (line a - 1) (hash a) (length lines) (resolveAnchor lines a).
Proof.
  unfold resolveAnchor. case_bool_decide as Hhint; cbn [andb]; [case_bool_decide as Htag|].
  - destruct (lookup_lt_is_Some_2 lines (Z.to_nat (line a - 1))) as [l Hl]; [lia|]. rw Hl /= in Htag.
    split; [lia|split; [by unfold carries; rw Hl /= Htag|]]. intros i Hi Hc. unfold distance. lia.
  - apply (nearest_isNearest lines _ _ lines 0 None); [done|]. by intros i Hi; lia.
  - apply (nearest_isNearest lines _ _ lines 0 None); [done|]. by intros i Hi; lia.
Qed.

(** A line where the anchor says it is. *)
Lemma resolveAnchor_here lines i l :
  lines !! i = Some l → resolveAnchor lines {| line := Z.of_nat (S i); hash := hashLineTag l |} = Some i.
Proof.
  intros Hl. assert (i < length lines) by (by apply lookup_lt_Some in Hl). unfold resolveAnchor. simpl line.
  replace (Z.of_nat (S i) - 1)%Z with (Z.of_nat i) by lia. rw bool_decide_true; [lia|]. rw Nat2Z.id Hl /=.
  by rw bool_decide_true.
Qed.

(** An anchor resolves to the line that carries its hash and lies nearest to the line it
    names, the upper one of two at the same distance, and fails exactly if no line carries the
    hash; a line that kept its number and its content is therefore found where it was. *)
Theorem anchor_resolves_to_the_nearest_line lines a r :
  resolveAnchor lines a = r ↔ isNearest lines (line a - 1) (hash a) (length lines) r.
Proof.
  assert (H := resolveAnchor_isNearest lines a).
  split; [by intros <-|]. intros Hr. by apply (isNearest_unique lines (line a - 1) (hash a) (length lines)).
Qed.

(** ** Read, then edit *)

Lemma anchorTag_no_tab index rawLine : 9%N ∉ anchorTag index rawLine.
Proof.
  assert (Hcls : ∀ (p : N → bool) l, Forall (λ c, p c = true) l → p 9%N = false → 9%N ∉ l).
  { intros p l Hl Hp H9. rw Forall_forall in Hl. apply Hl in H9. congruence. }
  unfold anchorTag, hashLineTag, padStart. rw !not_elem_of_app. repeat split.
  - apply (Hcls (λ c, (c =? 32)%N)); [by apply Forall_replicate|done].
  - by apply (Hcls isDigit); [apply toRadix_digits|].
  - by rw list_elem_of_singleton.
  - apply (Hcls isBase36); [by apply Forall_replicate|done].
  - by apply (Hcls isBase36); [apply toRadix_base36|].
Qed.

(** The anchor at the head of any row [Read] prints parses back, and resolved against the
    lines the row was printed from it gives the row's own line, whatever the offset and the
    limit of the read. *)
Theorem read_anchor_names_its_line rawLines displayLines offset limit k row :
  formatWithHashLines rawLines displayLines offset limit !! k = Some row →
  ∃ a, parseAnchor (default [] (head (splitOn 9 row))) = Some a
       ∧ resolveAnchor rawLines a = Some (Z.to_nat (0 `max` (offset - 1))%Z + k).
Proof.
  unfold formatWithHashLines. rw list_lookup_fmap. set (start := Z.to_nat _).
  intros (i & [-> Hk]%lookup_seq & ->)%fmap_Some. destruct (lookup_lt_is_Some_2 rawLines (start + k)) as [l Hl]; [lia|].
  rw Hl /= /formatRow splitOn_cons_piece; [apply anchorTag_no_tab|]. simpl. rw parse_anchorTag. eexists. split; [done|].
  by apply resolveAnchor_here.
Qed.

(** The second row of a listing that starts at the second line. *)
Lemma read_anchor_names_its_line_witness :
  let lines := u <$> ["one"; "two"; "two"] in
  formatWithHashLines lines lines 2 5 !! 1 = Some (formatRow 2 (u "two") (u "two"))
  ∧ ∃ a, parseAnchor (default [] (head (splitOn 9 (formatRow 2 (u "two") (u "two"))))) = Some a
         ∧ resolveAnchor lines a = Some (Z.to_nat (0 `max` (2 - 1))%Z + 1).
Proof.
  intros lines. split; [by vm_compute|]. by apply (read_anchor_names_its_line lines lines 2 5 1); vm_compute.
Defined.
