(* ===== verification/EditText.v ===== *)
(** * The edits of one call

    [packages/runtime/kernel/tools/edit-text.ts]: the plan of the [Edit] tool.  Every edit of a
    call is matched against the original content, overlapping edits are rejected, and the
    replacements are applied in one pass; [applyStringReplacement] is the single-edit form.
    A thrown error is a value of [EditError]; the hints in its message are left out. *)

From Corelib Require Import ssreflect.
From stdpp Require Import prelude strings sorting.
From Stdlib Require Import Sorted.
From S2P Require Import Prelude Text Weave EditDiff Hashline.

#[local] Open Scope nat_scope.

Inductive EditSpec :=
  | TextEdit (oldText newText : text)
  | AnchorEdit (edit : AnchoredEdit).

Inductive EditError :=
  | BlankOldText
  | NotFound
  | DuplicateMatch (occurrences : nat) (locations : list nat)
  | BadAnchor
  | EditFailed (editIndex : nat) (error : EditError)
  | Overlap (first second : nat)
  | Identical.

Record StringReplacementResult := { newContent : text; replacements : nat; noChange : bool }.

(** A planned replacement: the span [start, end) of the original content and its new text. *)
Notation Span := (part N).
Record PlannedReplacement := { editIndex : nat; span_of : Span }.

(** [lineStarts]: 0, and the offset after every newline. *)
Fixpoint lineStartsFrom (offset : nat) (content : text) : list nat :=
  match content with
  | [] => []
  | c :: rest =>
      if (c =? newline)%N then S offset :: lineStartsFrom (S offset) rest else lineStartsFrom (S offset) rest
  end.
Definition lineStarts (content : text) : list nat := 0 :: lineStartsFrom 0 content.

Definition planAnchorEdit (content : text) (lines : list text) (starts : list nat) (edit : AnchoredEdit) : option Span :=
  '(startIndex, endIndex) ← resolveRange lines edit;
  let added := normalizeToLF (stripHashLinePrefixes (newText edit)) in
  let lineStart (index : nat) := default 0 (starts !! index) in
  let lineEnd (index : nat) := lineStart index + length (default [] (lines !! index)) in
  Some
    (if insertAfter edit then
       {| p_start := lineEnd startIndex; p_end := lineEnd startIndex; p_new := newline :: added |}
     else if negb (bool_decide (added = [])) then
       {| p_start := lineStart startIndex; p_end := lineEnd endIndex; p_new := added |}
     else if endIndex + 1 <? length lines then
       {| p_start := lineStart startIndex; p_end := lineStart (endIndex + 1); p_new := [] |}
     else if 0 <? startIndex then
       {| p_start := lineEnd (startIndex - 1); p_end := length content; p_new := [] |}
     else {| p_start := 0; p_end := length content; p_new := [] |}).

(** The order of the sort: by start, then end, then position in the call. *)
Definition before (p q : PlannedReplacement) : Prop :=
  p_start (span_of p) < p_start (span_of q)
  ∨ p_start (span_of p) = p_start (span_of q)
    ∧ (p_end (span_of p) < p_end (span_of q)
       ∨ p_end (span_of p) = p_end (span_of q) ∧ editIndex p ≤ editIndex q).
#[export] Instance before_dec : RelDecision before.
Proof. unfold RelDecision, before. intros. apply _. Defined.

Definition ordered (planned : list PlannedReplacement) : list PlannedReplacement := merge_sort before planned.

(** The first neighbours that overlap. *)
Fixpoint overlapping (sorted : list PlannedReplacement) : option (nat * nat) :=
  match sorted with
  | previous :: rest =>
      match rest with
      | current :: _ =>
          if p_start (span_of current) <? p_end (span_of previous)
          then Some (editIndex previous, editIndex current) else overlapping rest
      | [] => None
      end
  | [] => None
  end.

(** [next.slice(0, start) + text + next.slice(end)], from the last replacement to the first. *)
Definition replaceSpan (r : PlannedReplacement) (next : text) : text :=
  slice 0 (p_start (span_of r)) next ++ p_new (span_of r) ++ drop (p_end (span_of r)) next.
Definition applySpans (content : text) (sorted : list PlannedReplacement) : text := foldr replaceSpan content sorted.

(** [lineOf]: the binary search over the starts. *)
Fixpoint lineSearch (fuel low high : nat) (starts : list nat) (offset : nat) : nat :=
  match fuel with
  | O => low
  | S fuel =>
      if low <? high then
        let mid := (low + high + 1) / 2 in
        if default 0 (starts !! mid) <=? offset then lineSearch fuel mid high starts offset
        else lineSearch fuel low (mid - 1) starts offset
      else low
  end.
Definition lineOf (starts : list nat) (offset : nat) : nat :=
  lineSearch (length starts) 0 (length starts - 1) starts offset + 1.

Record AppliedEditsSummary := { editedContent : text; editedLines : list nat }.

Section Edits.
Context (nfkc : text → text) (isMark : N → bool).

(** The single [old_string] replacement. *)
Definition applyStringReplacement (content oldString newString : text) (replaceAll : bool) :
    EditError + StringReplacementResult :=
  let normalizedOld := normalizeToLF oldString in
  let normalizedNew := normalizeToLF newString in
  if bool_decide (trim normalizedOld = []) then inl BlankOldText
  else if (8 <=? length normalizedNew) && includes normalizedNew content
          && (bool_decide (normalizedOld = normalizedNew) || negb (includes normalizedOld content))
  then inr {| newContent := content; replacements := 0; noChange := true |}
  else
    let exactLocations := findOccurrences content normalizedOld in
    if negb replaceAll && (1 <? length exactLocations)
    then inl (DuplicateMatch (length exactLocations) exactLocations)
    else if replaceAll then
      let split := splitText normalizedOld 0 [] content in
      let occurrences := length split - 1 in
      if occurrences =? 0 then inl NotFound
      else inr {| newContent := join normalizedNew split; replacements := occurrences; noChange := false |}
    else
      match fuzzyFindText nfkc isMark content normalizedOld with
      | None => inl NotFound
      | Some found =>
          if 1 <? occurrences found then inl (DuplicateMatch (occurrences found) (locations found))
          else
            let replaced :=
              slice 0 (index found) content ++ leading found ++ normalizedNew ++ trailing found
                ++ drop (index found + matchLength found) content in
            if bool_decide (content = replaced) then inl Identical
            else inr {| newContent := replaced; replacements := 1; noChange := false |}
      end.

(** The plan of one edit. *)
Definition planEdit (content : text) (edit : EditSpec) : EditError + Span :=
  match edit with
  | AnchorEdit edit =>
      match planAnchorEdit content (splitOn newline content) (lineStarts content) edit with
      | Some span => inr span
      | None => inl BadAnchor
      end
  | TextEdit oldText newText =>
      let oldText := normalizeToLF oldText in
      if bool_decide (trim oldText = []) then inl BlankOldText
      else
        match fuzzyFindText nfkc isMark content oldText with
        | None => inl NotFound
        | Some found =>
            if 1 <? occurrences found then inl (DuplicateMatch (occurrences found) (locations found))
            else inr {| p_start := index found; p_end := index found + matchLength found;
                        p_new := leading found ++ normalizeToLF newText ++ trailing found |}
        end
  end.

(** [edits.map(...)], which the first failing edit ends. *)
Fixpoint planEdits (content : text) (editIndex : nat) (edits : list EditSpec) :
    EditError + list PlannedReplacement :=
  match edits with
  | [] => inr []
  | edit :: edits =>
      match planEdit content edit with
      | inl error => inl (EditFailed editIndex error)
      | inr span =>
          match planEdits content (S editIndex) edits with
          | inl error => inl error
          | inr planned => inr ({| editIndex := editIndex; span_of := span |} :: planned)
          end
      end
  end.

Definition applyEditsToContent (content : text) (edits : list EditSpec) : EditError + AppliedEditsSummary :=
  match planEdits content 0 edits with
  | inl error => inl error
  | inr planned =>
      match overlapping (ordered planned) with
      | Some (first, second) => inl (Overlap first second)
      | None =>
          let next := applySpans content (ordered planned) in
          if bool_decide (next = content) then inl Identical
          else inr {| editedContent := next;
                      editedLines := (λ r, lineOf (lineStarts content) (p_start (span_of r))) <$> planned |}
      end
  end.
End Edits.

(** ** Lines and offsets *)

Lemma lineStartsFrom_piece offset p t :
  newline ∉ p →
  lineStartsFrom offset (p ++ newline :: t)
  = S (offset + length p) :: lineStartsFrom (S (offset + length p)) t
  ∧ lineStartsFrom offset p = [].
Proof.
  induction p as [|c p IH] in offset |- *; simpl; [by rw Nat.add_0_r|]. rw not_elem_of_cons. intros [Hc Hp].
  destruct (N.eqb_spec c newline); [congruence|]. destruct (IH (S offset) Hp) as [-> ->].
  split; [|done]. do 2 f_equal; lia.
Qed.

Lemma lineStarts_join offset lines :
  lines ≠ [] → Forall (λ l, newline ∉ l) lines →
  offset :: lineStartsFrom offset (join [newline] lines) = lineOffsets offset lines.
Proof.
  intros Hne H. induction H as [|l lines Hl H IH] in offset, Hne |- *; [done|]. destruct lines as [|m lines].
  - simpl. by destruct (lineStartsFrom_piece offset l [] Hl) as [_ ->].
  - rw join_cons //. destruct (lineStartsFrom_piece offset l (join [newline] (m :: lines)) Hl) as [Hs _].
    cbn [app]. rw Hs. remember (m :: lines) as ms. cbn [lineOffsets]. f_equal. rw Nat.add_1_r. apply IH. by subst.
Qed.

Lemma lineStarts_split content : lineStarts content = lineOffsets 0 (splitOn newline content).
Proof.
  unfold lineStarts. rw -{1}(join_splitOn newline content) lineStarts_join //.
  - apply splitOn_nonempty.
  - apply splitOn_piece.
Qed.

(** ** Anchored edits *)

Lemma nearest_bound hintIndex tag best n lines i :
  nearest hintIndex tag best n lines = Some i → best = Some i ∨ n ≤ i < n + length lines.
Proof.
  induction lines as [|l lines IH] in n, best |- *; cbn [nearest length]; [by left|].
  intros [H|H]%IH; [|right; lia]. revert H. repeat case_match; try (by left); intros [= <-]; right; lia.
Qed.

Lemma resolveAnchor_bound lines a i : resolveAnchor lines a = Some i → i < length lines.
Proof. intros H. assert (Hn := resolveAnchor_isNearest lines a). rw H in Hn. by destruct Hn. Qed.

Lemma resolveRange_bound lines edit s e : resolveRange lines edit = Some (s, e) → s ≤ e < length lines.
Proof.
  unfold resolveRange. destruct (resolveAnchor lines (anchor edit)) as [s'|] eqn:Hs; [|done].
  apply resolveAnchor_bound in Hs. simpl. destruct (endAnchor edit) as [a|]; simpl.
  - destruct (resolveAnchor lines a) as [e'|] eqn:He; [|done]. apply resolveAnchor_bound in He. simpl.
    destruct (Nat.ltb_spec e' s'); [done|]. intros [= <- <-]. lia.
  - destruct (Nat.ltb_spec s' s'); [done|]. intros [= <- <-]. lia.
Qed.

Lemma split_block (lines : list text) s e :
  s ≤ e < length lines →
  ∃ a m b, lines = a ++ m ++ b ∧ length a = s ∧ length m = e - s + 1.
Proof.
  intros H. exists (take s lines), (take (e - s + 1) (drop s lines)), (drop (e + 1) lines).
  rw !length_take length_drop. split; [|lia]. rw -{1}(take_drop s lines) -{1}(take_drop (e - s + 1) (drop s lines)).
  rw drop_drop. do 3 f_equal. lia.
Qed.

(** The text a span leaves. *)
Definition spliced (content : text) (span : Span) : text :=
  take (p_start span) content ++ p_new span ++ drop (p_end span) content.

Lemma spliced_at a b c t :
  spliced (a ++ b ++ c) {| p_start := length a; p_end := length a + length b; p_new := t |} = a ++ t ++ c
  ∧ within (a ++ b ++ c) {| p_start := length a; p_end := length a + length b; p_new := t |}.
Proof.
  unfold spliced, within. simpl. rw take_app_length !length_app -drop_drop !drop_app_length. split; [done|lia].
Qed.

Section Anchored.
Context (edit : AnchoredEdit) (a m b : list text).

Let lines := a ++ m ++ b.
Let added := normalizeToLF (stripHashLinePrefixes (newText edit)).
Let replacementLines :=
  if bool_decide (added = []) && negb (insertAfter edit) then [] else splitOn newline added.

(** The span of an edit of the block of lines [m], from its first line or after it. *)
Definition blockSpan : Span :=
  if insertAfter edit then
    match m with
    | l :: _ => {| p_start := length (ended a ++ l); p_end := length (ended a ++ l); p_new := newline :: added |}
    | [] => {| p_start := 0; p_end := 0; p_new := [] |}
    end
  else if negb (bool_decide (added = [])) then
    {| p_start := length (ended a); p_end := length (ended a) + length (join [newline] m); p_new := added |}
  else if bool_decide (b ≠ []) then
    {| p_start := length (ended a); p_end := length (ended (a ++ m)); p_new := [] |}
  else if bool_decide (a ≠ []) then
    {| p_start := length (join [newline] a); p_end := length (join [newline] lines); p_new := [] |}
  else {| p_start := 0; p_end := length (join [newline] lines); p_new := [] |}.

Lemma blockSpan_insert :
  m ≠ [] → insertAfter edit = true →
  spliced (join [newline] lines) blockSpan
  = join [newline] (splice (length a + 1) 0 replacementLines lines) ∧ within (join [newline] lines) blockSpan.
Proof.
  intros Hm Hi. unfold blockSpan, replacementLines, lines. rw Hi andb_false_r. destruct m as [|l m']; [done|].
  assert (E : join [newline] (a ++ (l :: m') ++ b) = (ended a ++ l) ++ [] ++ begun (m' ++ b)).
  { change ((l :: m') ++ b) with ([l] ++ (m' ++ b)). by rw join_block // -app_assoc. }
  destruct (spliced_at (ended a ++ l) [] (begun (m' ++ b)) (newline :: added)) as [Hs Hin].
  rw Nat.add_0_r -E in Hs Hin. split; [|done]. rw Hs.
  assert (Hl : splice (length a + 1) 0 (splitOn newline added) (a ++ (l :: m') ++ b)
               = a ++ [l] ++ (splitOn newline added ++ m' ++ b)).
  { unfold splice. rw Nat.add_0_r !take_app -!drop_drop drop_app_length.
    rw (take_ge a) ?Nat.add_sub' /=; [lia|]. by rw -app_assoc drop_0. }
  rw Hl join_block // (begun_app (splitOn newline added)) (begun_join (splitOn newline added)); [apply splitOn_nonempty|].
  by rw join_splitOn -!app_assoc.
Qed.

Lemma blockSpan_replace :
  m ≠ [] → insertAfter edit = false →
  spliced (join [newline] lines) blockSpan
  = join [newline] (splice (length a) (length m) replacementLines lines) ∧ within (join [newline] lines) blockSpan.
Proof.
  intros Hm Hi. unfold blockSpan, replacementLines, splice, lines. rw Hi andb_true_r.
  rw take_app_length -drop_drop !drop_app_length. assert (E := join_block a m b Hm).
  case_bool_decide as Ha; simpl.
  - case_bool_decide as Hb; [|subst b; rw !app_nil_r in E |- *].
    + assert (E1 : join [newline] (a ++ m ++ b) = ended a ++ ended m ++ join [newline] b)
        by rw app_assoc join_ended // ended_app -app_assoc //.
      rw E1 (join_ended a b) // ended_app length_app. apply spliced_at.
    + case_bool_decide as Ha'; [|subst a].
      * assert (E' : join [newline] (a ++ m) = join [newline] a ++ begun m ++ []).
        { destruct a; [done|]. by rw -app_comm_cons !join_begun begun_app app_nil_r app_assoc. }
        replace (length (join [newline] (a ++ m))) with (length (join [newline] a) + length (begun m))
          by (rw E' !length_app /=; lia).
        rw E'. destruct (spliced_at (join [newline] a) (begun m) [] []) as [Hs Hin]. rw Hs !app_nil_r in Hin |- *. done.
      * destruct (spliced_at [] (join [newline] m) [] []) as [Hs Hin]. rw app_nil_r in Hs Hin. done.
  - destruct (spliced_at (ended a) (join [newline] m) (begun b) added) as [Hs Hin].
    rw E join_block ?join_splitOn //. apply splitOn_nonempty.
Qed.
End Anchored.

(** The end of the last line of a block. *)
Lemma lineEnd_block a m b :
  m ≠ [] →
  default 0 (lineOffsets 0 (a ++ m ++ b) !! (length a + length m - 1))
    + length (default [] ((a ++ m ++ b) !! (length a + length m - 1)))
  = length (ended a) + length (join [newline] m).
Proof.
  intros Hm. destruct (exists_last Hm) as (m' & l & ->).
  replace (length a + length (m' ++ [l]) - 1) with (length (a ++ m')) by (rw !length_app /=; lia).
  replace (a ++ (m' ++ [l]) ++ b) with ((a ++ m') ++ l :: b) by rw -!app_assoc //.
  rw lineOffsets_lookup list_lookup_middle // ended_app join_ended // !length_app /=. lia.
Qed.

Lemma planAnchorEdit_block content edit a m b :
  splitOn newline content = a ++ m ++ b → m ≠ [] →
  resolveRange (splitOn newline content) edit = Some (length a, length a + length m - 1) →
  planAnchorEdit content (splitOn newline content) (lineStarts content) edit = Some (blockSpan edit a m b).
Proof.
  intros Hc Hm Hr. assert (Hlen : 0 < length m) by (destruct m; simpl; [done|lia]).
  assert (E : join [newline] (a ++ m ++ b) = content) by rw -Hc join_splitOn //.
  unfold planAnchorEdit. rw Hr lineStarts_split Hc. simpl. f_equal. unfold blockSpan.
  destruct (insertAfter edit).
  - destruct m as [|l m]; [done|]. simpl. rw lineOffsets_lookup list_lookup_middle //= length_app //.
  - case_bool_decide as Ha; simpl.
    + rw !length_app. case_bool_decide as Hb.
      * destruct b as [|l b]; [done|]. destruct (Nat.ltb_spec (length a + length m - 1 + 1) (length a + (length m + length (l :: b)))) as [_|Hl]; [|simpl in Hl; lia].
        destruct m as [|l' m]; [done|]. f_equal; [by rw /= lineOffsets_lookup|].
        replace (length a + length (l' :: m) - 1 + 1) with (length (a ++ l' :: m)) by (rw length_app; lia).
        by rw app_assoc lineOffsets_lookup.
      * subst b. simpl. destruct (Nat.ltb_spec (length a + length m - 1 + 1) (length a + (length m + 0))) as [Hl|_]; [lia|].
        rw E. case_bool_decide as Ha'; [|by subst a].
        destruct (Nat.ltb_spec 0 (length a)) as [_|Hl]; [|by destruct a; [|simpl in Hl; lia]].
        f_equal. by apply (lineEnd_block [] a (m ++ [])).
    + f_equal; [|by apply lineEnd_block]. destruct m as [|l m]; [done|]. by rw /= lineOffsets_lookup.
Qed.

(** The anchored edit of [edits] and of the single-edit form plan the same change. *)
Lemma planAnchorEdit_applies content edit :
  match planAnchorEdit content (splitOn newline content) (lineStarts content) edit with
  | Some span =>
      within content span ∧ Hashline.content <$> applyAnchoredEdit content edit = Some (spliced content span)
  | None => applyAnchoredEdit content edit = None
  end.
Proof.
  destruct (resolveRange (splitOn newline content) edit) as [[s e]|] eqn:Hr.
  2:{ unfold planAnchorEdit, applyAnchoredEdit. by rw Hr. }
  destruct (split_block (splitOn newline content) s e) as (a & m & b & Hc & Ha & Hm); [by apply resolveRange_bound in Hr|].
  assert (Hb := resolveRange_bound _ _ _ _ Hr). assert (Hne : m ≠ []) by (intros ->; simpl in Hm; lia).
  assert (E : join [newline] (a ++ m ++ b) = content) by rw -Hc join_splitOn //.
  rw (planAnchorEdit_block content edit a m b) //; [rw Hr; do 2 f_equal; lia|].
  unfold applyAnchoredEdit. rw Hr /=. rw -Hm -Ha Hc. rw Ha.
  destruct (insertAfter edit) eqn:Hi; simpl.
  - destruct (blockSpan_insert edit a m b Hne Hi) as [Hs Hin]. rw E in Hs Hin. split; [done|]. rw Hs Hi Ha //.
  - destruct (blockSpan_replace edit a m b Hne Hi) as [Hs Hin]. rw E in Hs Hin. split; [done|]. rw Hs Hi Ha //.
Qed.
