(* ===== verification/EditDiffCells.v ===== *)
(** * What a fuzzy match covers

    The fuzzy view of a file ([normalizeForFuzzyMatchWithMap] of [EditDiff]) seen as a list of
    cells: a piece of the file, and the text it stands for in the view.  A cell is a cluster, a
    newline, or white space stripped from the end of a line, which stands for nothing.  The
    maps of the view lead from the view back to the borders of cells, so that a fuzzy match is a
    run of whole cells of the file. *)

From Corelib Require Import ssreflect.
From stdpp Require Import prelude strings.
From S2P Require Import Prelude Text EditDiff.

#[local] Open Scope nat_scope.

Record cell := { source : text; norm : text }.

Definition sources (cs : list cell) : text := cs ≫= source.
Definition norms (cs : list cell) : text := cs ≫= norm.

Lemma sources_app a b : sources (a ++ b) = sources a ++ sources b.
Proof. apply bind_app. Qed.
Lemma norms_app a b : norms (a ++ b) = norms a ++ norms b.
Proof. apply bind_app. Qed.

#[local] Arguments sources : simpl never.
#[local] Arguments norms : simpl never.

Lemma sources_cons c cs : sources (c :: cs) = source c ++ sources cs.
Proof. done. Qed.
Lemma norms_cons c cs : norms (c :: cs) = norm c ++ norms cs.
Proof. done. Qed.

Lemma norms_snoc cs c : norms (cs ++ [c]) = norms cs ++ norm c.
Proof. rw norms_app. by unfold norms; rw /= app_nil_r. Qed.

(** The start map of cells, from an offset of the file. *)
Fixpoint startsOf (offset : nat) (cs : list cell) : list (option nat) :=
  match cs with
  | [] => []
  | c :: cs => clusterMap offset (norm c) ++ startsOf (offset + length (source c)) cs
  end.

(** The end map: a cell that stands for something starts, for a match that ends there, where the
    cell before it that stands for something ends ([stop]). *)
Fixpoint endsOf (stop offset : nat) (cs : list cell) : list (option nat) :=
  match cs with
  | [] => []
  | c :: cs =>
      clusterMap stop (norm c)
        ++ endsOf (match norm c with [] => stop | _ => offset + length (source c) end) (offset + length (source c)) cs
  end.

Fixpoint stopOf (stop offset : nat) (cs : list cell) : nat :=
  match cs with
  | [] => stop
  | c :: cs => stopOf (match norm c with [] => stop | _ => offset + length (source c) end) (offset + length (source c)) cs
  end.

Lemma startsOf_app offset a b : startsOf offset (a ++ b) = startsOf offset a ++ startsOf (offset + length (sources a)) b.
Proof.
  induction a as [|c a IH] in offset |- *; simpl; [by rw Nat.add_0_r|].
  rw IH -app_assoc. rw sources_cons length_app Nat.add_assoc //.
Qed.

Lemma endsOf_app stop offset a b :
  endsOf stop offset (a ++ b)
  = endsOf stop offset a ++ endsOf (stopOf stop offset a) (offset + length (sources a)) b.
Proof.
  induction a as [|c a IH] in stop, offset |- *; simpl; [by rw Nat.add_0_r|].
  rw IH -app_assoc. rw sources_cons length_app Nat.add_assoc //.
Qed.

Lemma stopOf_app stop offset a b : stopOf stop offset (a ++ b) = stopOf (stopOf stop offset a) (offset + length (sources a)) b.
Proof.
  induction a as [|c a IH] in stop, offset |- *; simpl; [by rw Nat.add_0_r|].
  rw IH. rw sources_cons length_app Nat.add_assoc //.
Qed.

Lemma length_clusterMap offset n : length (clusterMap offset n) = length n.
Proof. destruct n; simpl; [done|by rw length_fmap]. Qed.

Lemma length_startsOf offset cs : length (startsOf offset cs) = length (norms cs).
Proof.
  induction cs as [|c cs IH] in offset |- *; simpl; [done|].
  rw norms_cons !length_app length_clusterMap IH //.
Qed.

Lemma length_endsOf stop offset cs : length (endsOf stop offset cs) = length (norms cs).
Proof.
  induction cs as [|c cs IH] in stop, offset |- *; simpl; [done|].
  rw norms_cons !length_app length_clusterMap IH //.
Qed.

(** A run of cells all of which stand for something stops at its end. *)
Lemma stopOf_full offset cs : Forall (λ c, norm c ≠ []) cs → stopOf offset offset cs = offset + length (sources cs).
Proof.
  intros H. induction H as [|c cs Hc H IH] in offset |- *; simpl; [lia|].
  rw sources_cons length_app. destruct (norm c); [done|]. rw IH. lia.
Qed.

Lemma stopOf_blank stop offset cs : Forall (λ c, norm c = []) cs → stopOf stop offset cs = stop.
Proof. intros H. induction H as [|c cs Hc H IH] in offset |- *; simpl; [done|]. by rw Hc IH. Qed.

Lemma endsOf_full offset cs : Forall (λ c, norm c ≠ []) cs → endsOf offset offset cs = startsOf offset cs.
Proof. intros H. induction H as [|c cs Hc H IH] in offset |- *; simpl; [done|]. destruct (norm c); [done|]. by rw IH. Qed.

Lemma norms_blank cs : Forall (λ c, norm c = []) cs → norms cs = [].
Proof. intros H. induction H as [|c cs Hc H IH]; [done|]. by rw norms_cons Hc IH. Qed.

Lemma startsOf_blank offset cs : Forall (λ c, norm c = []) cs → startsOf offset cs = [].
Proof. intros H. induction H as [|c cs Hc H IH] in offset |- *; simpl; [done|]. by rw Hc IH. Qed.

Lemma endsOf_blank stop offset cs : Forall (λ c, norm c = []) cs → endsOf stop offset cs = [].
Proof. intros H. induction H as [|c cs Hc H IH] in offset |- *; simpl; [done|]. by rw Hc IH. Qed.

(** ** The maps lead to borders of cells *)

(** The cell a unit of the view lies in. *)
Lemma cell_at cs n :
  n < length (norms cs) →
  ∃ a c b, cs = a ++ c :: b ∧ length (norms a) ≤ n < length (norms a) + length (norm c).
Proof.
  induction cs as [|c cs IH] in n |- *; [unfold norms; simpl; lia|]. rw norms_cons length_app. intros Hn.
  destruct (decide (n < length (norm c))) as [Hlt|Hge]; [by exists [], c, cs; split; [|unfold norms; simpl; lia]|].
  destruct (IH (n - length (norm c))) as (a & d & b & -> & Hd); [lia|].
  exists (c :: a), d, b. split; [done|]. rw norms_cons !length_app. lia.
Qed.

Lemma clusterMap_lookup offset n i :
  i < length n → clusterMap offset n !! i = Some (if i =? 0 then Some offset else None).
Proof.
  destruct n as [|x n]; simpl; [lia|]. intros Hi. destruct i as [|i]; [done|]. simpl.
  rw list_lookup_fmap. destruct (lookup_lt_is_Some_2 n i) as [y ->]; [lia|done].
Qed.

Lemma startsOf_at offset a c b i :
  length (norms a) ≤ i < length (norms a) + length (norm c) →
  startsOf offset (a ++ c :: b) !! i
  = Some (if i - length (norms a) =? 0 then Some (offset + length (sources a)) else None).
Proof.
  intros Hi. rw startsOf_app lookup_app_r length_startsOf; [lia|]. cbn [startsOf].
  rw lookup_app_l ?length_clusterMap; [lia|]. rw clusterMap_lookup //. lia.
Qed.

Lemma startsOf_lookup a c b last i :
  i < length (norm c) →
  (startsOf 0 (a ++ c :: b) ++ [last]) !! (length (norms a) + i)
  = Some (if i =? 0 then Some (length (sources a)) else None).
Proof.
  intros Hi. rw lookup_app_l ?length_startsOf; [rw norms_app norms_cons !length_app; lia|].
  rw startsOf_at; [lia|]. by rw Nat.add_sub'.
Qed.

Lemma widenStart_border a c b last i :
  i < length (norm c) →
  widenStart (startsOf 0 (a ++ c :: b) ++ [last]) (length (norms a) + i) = length (norms a).
Proof.
  intros Hi. induction i as [|i IH].
  - rw Nat.add_0_r. destruct (length (norms a)) as [|n] eqn:E; [done|]. simpl. rw -E.
    assert (H := startsOf_lookup a c b last 0 Hi). rw Nat.add_0_r in H. by rw H.
  - rw Nat.add_succ_r. simpl. rw -Nat.add_succ_r startsOf_lookup //=. apply IH. lia.
Qed.

(** The end map of a whole view. *)
Definition endsMap (cs : list cell) : list (option nat) := endsOf 0 0 cs ++ [Some (stopOf 0 0 cs)].
Definition startsMap (cs : list cell) : list (option nat) := startsOf 0 cs ++ [Some (length (sources cs))].

Lemma endsOf_head stop offset cs : (endsOf stop offset cs ++ [Some (stopOf stop offset cs)]) !! 0 = Some (Some stop).
Proof. induction cs as [|c cs IH] in offset |- *; simpl; [done|]. destruct (norm c); simpl; [apply IH|done]. Qed.

Lemma endsMap_border a c b :
  norm c ≠ [] → endsMap (a ++ c :: b) !! length (norms (a ++ [c])) = Some (Some (length (sources (a ++ [c])))).
Proof.
  intros Hc. unfold endsMap. replace (a ++ c :: b) with ((a ++ [c]) ++ b) by rw -app_assoc //.
  rw (endsOf_app _ _ (a ++ [c]) b) (stopOf_app _ _ (a ++ [c]) b) -app_assoc lookup_app_r length_endsOf //.
  rw Nat.sub_diag endsOf_head.
  rw stopOf_app /=. destruct (norm c); [done|]. rw sources_app length_app.
  replace (sources [c]) with (source c) by (unfold sources; rw /= app_nil_r //). done.
Qed.

Lemma endsMap_inside a c b i :
  0 < i < length (norm c) → endsMap (a ++ c :: b) !! (length (norms a) + i) = Some None.
Proof.
  intros Hi. unfold endsMap. rw endsOf_app -app_assoc lookup_app_r length_endsOf; [lia|].
  rw Nat.add_sub' /= -app_assoc lookup_app_l ?length_clusterMap; [lia|]. rw clusterMap_lookup; [lia|].
  destruct i; [lia|done].
Qed.

Lemma widenEnd_border a c b fuel i :
  0 < i ≤ length (norm c) → length (norm c) - i ≤ fuel →
  widenEnd fuel (endsMap (a ++ c :: b)) (length (norms a) + i) = length (norms (a ++ [c])).
Proof.
  assert (E : length (norms (a ++ [c])) = length (norms a) + length (norm c)).
  { rw norms_app length_app. unfold norms at 2. rw /= app_nil_r //. }
  induction fuel as [|fuel IH] in i |- *; intros Hi Hf; simpl; [lia|].
  destruct (decide (i = length (norm c))) as [->|Hne].
  - rw -E endsMap_border //. intros H. rw H in Hi. simpl in Hi. lia.
  - rw endsMap_inside; [lia|]. rw -Nat.add_succ_r. apply IH; lia.
Qed.

(** A stretch of the view, widened to whole cells. *)
Record covers (cs : list cell) (from to : nat) (a m b : list cell) : Prop := {
  cov_cells : cs = a ++ m ++ b;
  cov_from : length (norms a) ≤ from;
  cov_to : to ≤ length (norms (a ++ m));
  cov_first : ∃ c m', m = c :: m' ∧ from < length (norms (a ++ [c]));
  cov_last : ∃ m' c, m = m' ++ [c] ∧ length (norms (a ++ m')) < to;
}.

Lemma stretch_covers cs from to :
  from < to ≤ length (norms cs) →
  ∃ a m b, covers cs from to a m b
    ∧ widenStart (startsMap cs) from = length (norms a) ∧ offsetAt (startsMap cs) (length (norms a)) = length (sources a)
    ∧ widenEnd (length (norms cs) - to) (endsMap cs) to = length (norms (a ++ m))
    ∧ offsetAt (endsMap cs) (length (norms (a ++ m))) = length (sources (a ++ m)).
Proof.
  intros H. destruct (cell_at cs from) as (a & c & b & Hcs & Hc); [lia|].
  destruct (cell_at cs (to - 1)) as (a' & c' & b' & Hcs' & Hc'); [lia|].
  assert (Hm : ∃ m, a' ++ [c'] = a ++ m ∧ m ≠ []).
  { assert (Hno : ∀ k, a ≠ (a' ++ [c']) ++ k) by (intros k Ha; rw Ha norms_app norms_snoc !length_app in Hc; lia).
    assert (E : a ++ (c :: b) = (a' ++ [c']) ++ b') by rw -app_assoc -Hcs' -Hcs //.
    apply app_eq_inv in E as [(k & Ha & _)|(k & Ha & _)]; [by destruct (Hno k)|].
    exists k. split; [done|]. intros ->. destruct (Hno []). rw app_nil_r. by rw app_nil_r in Ha. }
  destruct Hm as (m & Hm & Hne). exists a, m, b'.
  assert (E : cs = a ++ m ++ b') by (rw app_assoc -Hm -app_assoc //).
  assert (Hfirst : ∃ m', m = c :: m').
  { destruct m as [|d m']; [done|]. exists m'. rw Hcs in E. apply app_inv_head in E as [= <- _]. done. }
  destruct Hfirst as [m' ->]. split; [constructor|repeat split].
  - done.
  - lia.
  - rw -Hm norms_snoc length_app. lia.
  - exists c, m'. rw norms_snoc length_app. split; [done|lia].
  - destruct (exists_last Hne) as (m'' & d & Hd). exists m'', d. split; [done|]. rw Hd app_assoc in Hm.
    apply app_inj_tail in Hm as [<- <-]. lia.
  - unfold startsMap. rw {1}Hcs. replace from with (length (norms a) + (from - length (norms a))) by lia.
    apply widenStart_border. lia.
  - unfold offsetAt, startsMap. rw {1}Hcs. assert (Hs := startsOf_lookup a c b (Some (length (sources cs))) 0).
    rw Nat.add_0_r in Hs. rw Hs //. lia.
  - rw -Hm {2}Hcs'. replace to with (length (norms a') + (to - length (norms a'))) at 2 by lia.
    apply widenEnd_border; [lia|]. rw Hcs' norms_app norms_cons !length_app. lia.
  - rw -Hm Hcs'. unfold offsetAt. rw endsMap_border //. intros Hnil. rw Hnil /= in Hc'. lia.
Qed.

(** ** The cells of a text *)

Definition newlineCell : cell := {| source := [newline]; norm := [newline] |}.
Definition blank (c : cell) : cell := {| source := source c; norm := [] |}.
Definition full (cs : list cell) : Prop := Forall (λ c, norm c ≠ []) cs.

Lemma sources_blank cs : sources (blank <$> cs) = sources cs.
Proof. induction cs as [|c cs IH]; [done|]. by rw fmap_cons !sources_cons IH. Qed.

(** The cells from offset [k] of the view on stand for nothing. *)
Fixpoint strip (k : nat) (cs : list cell) : list cell :=
  match cs with
  | [] => []
  | c :: cs => match k with O => blank c :: strip 0 cs | S _ => c :: strip (k - length (norm c)) cs end
  end.

Lemma strip_app a b : full a → strip (length (norms a)) (a ++ b) = a ++ (blank <$> b).
Proof.
  intros H. induction H as [|c a Hc H IH].
  - unfold norms. simpl. induction b as [|c b IH]; [done|]. by rw /= IH.
  - rw norms_cons length_app /=. destruct (length (norm c) + length (norms a)) eqn:E.
    { destruct (norm c); [done|simpl in E; lia]. }
    f_equal. rw -E Nat.add_sub' IH //.
Qed.

(** Where a line's stripping starts is the border of a cell. *)
Lemma skipInside_border fuel k offset cs :
  full cs → k ≤ length (norms cs) → length (norms cs) - k ≤ fuel →
  ∃ a b, cs = a ++ b ∧ skipInside fuel k (startsOf offset cs) = length (norms a) ∧ k ≤ length (norms a).
Proof.
  intros Hfull. induction fuel as [|fuel IH] in k |- *; intros Hk Hf.
  { exists cs, []. rw app_nil_r /=. split; [done|lia]. }
  destruct (decide (k = length (norms cs))) as [->|Hne].
  { exists cs, []. rw app_nil_r /= lookup_ge_None_2 ?length_startsOf //. }
  destruct (cell_at cs k) as (a & c & b & -> & Hc); [lia|].
  assert (Hl := startsOf_at offset a c b k Hc).
  simpl. rw Hl. destruct (Nat.eqb_spec (k - length (norms a)) 0) as [E|E].
  - exists a, (c :: b). split; [done|split; lia].
  - destruct (IH (S k)) as (a' & b' & ? & ? & ?); [lia|lia|]. exists a', b'. split; [done|split; [done|lia]].
Qed.

Section View.
Context (nfkc : text → text) (isMark : N → bool).
(** Normalization never erases a text. *)
Hypothesis nfkc_nonempty : ∀ t, t ≠ [] → nfkc t ≠ [].

(** The cells of a line before its end is stripped. *)
Definition lineCells (l : text) : list cell :=
  if isAsciiLine l then (λ c, {| source := [c]; norm := [c] |}) <$> l
  else (λ cl, {| source := cl; norm := normalizeFuzzyCluster nfkc cl |}) <$> clusters isMark l.

Definition cellsOfLine (l : text) : list cell :=
  strip (keptLength (norms (lineCells l), startsOf 0 (lineCells l))) (lineCells l).

Fixpoint cellsOfLines (first : bool) (lines : list text) : list cell :=
  match lines with
  | [] => []
  | l :: lines => (if first then [] else [newlineCell]) ++ cellsOfLine l ++ cellsOfLines false lines
  end.

Definition cells (t : text) : list cell := cellsOfLines true (splitOn newline t).

Lemma points_concat_fuel n t : length t ≤ n → points t ≫= id = t ∧ Forall (λ p, p ≠ []) (points t).
Proof.
  induction n as [|n IH] in t |- *; intros Hn; [by destruct t; [|simpl in Hn; lia]|].
  destruct t as [|h [|l t]]; [done|by split; [|repeat constructor]|]. cbn [points].
  destruct (isHighSurrogate h && isLowSurrogate l).
  - destruct (IH t) as [E F]; [simpl in Hn; lia|]. rw bind_cons E. split; [done|by constructor].
  - destruct (IH (l :: t)) as [E F]; [simpl in Hn |- *; lia|]. rw bind_cons E. split; [done|by constructor].
Qed.

Lemma clustersOf_concat ps :
  Forall (λ p, p ≠ []) ps → clustersOf isMark ps ≫= id = ps ≫= id ∧ Forall (λ c, c ≠ []) (clustersOf isMark ps).
Proof.
  intros H. induction H as [|p ps Hp H [E F]]; [done|]. cbn [clustersOf].
  destruct ps as [|q ps]; [by split; [|repeat constructor]|].
  destruct (clustersOf isMark (q :: ps)) as [|cl cls] eqn:Hcl.
  - apply Forall_cons in H as [Hq _]. exfalso. apply (f_equal length) in E. rw bind_cons length_app in E.
    destruct q; [done|simpl in E; lia].
  - apply Forall_cons in F as [Fc F]. destruct (isMark (codePoint q)).
    + split; [by rw bind_cons (bind_cons _ p) -E bind_cons -app_assoc|].
      constructor; [|done]. by destruct p.
    + split; [by rw bind_cons (bind_cons _ p) -E|by repeat constructor].
Qed.

Lemma lineCells_source l : sources (lineCells l) = l.
Proof.
  unfold lineCells. destruct (isAsciiLine l).
  - induction l as [|c l IH]; [done|]. by rw fmap_cons sources_cons IH.
  - destruct (points_concat_fuel (length l) l (le_n _)) as [Ep Fp]. destruct (clustersOf_concat _ Fp) as [E _].
    rw -{2}Ep -E. clear E. unfold clusters. induction (clustersOf isMark (points l)) as [|c cls IH]; [done|].
    by rw fmap_cons sources_cons IH.
Qed.

Lemma lineCells_full l : full (lineCells l).
Proof.
  unfold lineCells, full. destruct (isAsciiLine l); apply Forall_fmap, Forall_forall; [done|].
  intros c Hc. destruct (points_concat_fuel (length l) l (le_n _)) as [_ Fp]. destruct (clustersOf_concat _ Fp) as [_ F].
  rw Forall_forall in F. apply F, nfkc_nonempty in Hc. simpl. unfold normalizeFuzzyCluster. by destruct (nfkc c).
Qed.

Lemma lineView_cells offset l : lineView nfkc isMark offset l = (norms (lineCells l), startsOf offset (lineCells l)).
Proof.
  unfold lineView, lineCells. destruct (isAsciiLine l).
  - induction l as [|c l IH] in offset |- *; [done|]. simpl. injection (IH (S offset)) as E1 E2.
    rw norms_cons Nat.add_1_r -E1 -E2 //.
  - induction (clusters isMark l) as [|c cls IH] in offset |- *; [done|]. simpl. by rw IH norms_cons.
Qed.

(** Where a line's stripping starts does not depend on where the line is. *)
Lemma skipInside_offset fuel k offset offset' cs :
  skipInside fuel k (startsOf offset cs) = skipInside fuel k (startsOf offset' cs).
Proof.
  assert (H : ∀ i, startsOf offset cs !! i = Some None ↔ startsOf offset' cs !! i = Some None).
  { intros i. destruct (decide (i < length (norms cs))) as [Hi|Hi].
    - destruct (cell_at cs i Hi) as (a & c & b & -> & Hc). rw !startsOf_at //. by case_match.
    - rw !lookup_ge_None_2 ?length_startsOf //; lia. }
  induction fuel as [|fuel IH] in k |- *; simpl; [done|].
  destruct (startsOf offset cs !! k) as [[o|]|] eqn:E; specialize (H k); rw E in H.
  - destruct (startsOf offset' cs !! k) as [[o'|]|]; [done| |done]. by destruct H as [_ H]; specialize (H eq_refl).
  - destruct H as [H _]. rw H //.
  - destruct (startsOf offset' cs !! k) as [[o'|]|]; [done| |done]. by destruct H as [_ H]; specialize (H eq_refl).
Qed.

(** A line of the view: the cells that are kept, and the blank rest, which is white space. *)
Lemma line_kept offset l :
  ∃ a b,
    lineCells l = a ++ b
    ∧ cellsOfLine l = a ++ (blank <$> b)
    ∧ keptLength (lineView nfkc isMark offset l) = length (norms a)
    ∧ Forall (λ c, isWhite c = true) (norms b).
Proof.
  rw lineView_cells. unfold cellsOfLine, keptLength. cbn [fst snd].
  set (cs := lineCells l). assert (Hfull : full cs) by apply lineCells_full.
  destruct (trimEnd_white (norms cs)) as (w & Hw & Hwhite).
  assert (Hk : length (trimEnd (norms cs)) ≤ length (norms cs)) by (rw {2}Hw length_app; lia).
  destruct (skipInside_border (length (norms cs)) (length (trimEnd (norms cs))) offset cs) as (a & b & E & Hs & Hle);
    [done|done|lia|].
  exists a, b. rw (skipInside_offset _ _ 0 offset) Hs. split; [done|]. split; [|split; [done|]].
  - rw {1}E. apply strip_app. rw E in Hfull. by apply Forall_app in Hfull as [? _].
  - apply (Forall_drop _ (length (norms a) - length (trimEnd (norms cs)))) in Hwhite.
    replace (norms b) with (drop (length (norms a) - length (trimEnd (norms cs))) w); [done|].
    rw -(drop_app_length (trimEnd (norms cs)) w) -Hw drop_drop.
    replace (_ + _) with (length (norms a)) by lia. by rw E norms_app drop_app_length.
Qed.

Lemma strippedFrom_kept offset l a b :
  lineCells l = a ++ b → keptLength (lineView nfkc isMark offset l) = length (norms a) →
  strippedFrom nfkc isMark offset l = offset + length (sources a).
Proof.
  intros E Hk. unfold strippedFrom. rw Hk lineView_cells E. cbn [snd].
  assert (Hl := lineCells_source l). assert (Hfull := lineCells_full l). rw E in Hl Hfull.
  apply Forall_app in Hfull as [_ Hb]. rw startsOf_app lookup_app_r length_startsOf // Nat.sub_diag.
  destruct b as [|c b].
  - simpl. rw app_nil_r in Hl. by rw Hl.
  - apply Forall_cons in Hb as [Hc _]. simpl. by destruct (norm c).
Qed.

Lemma viewLines_cells first offset stop lines :
  stop = (if first then offset else stop) → (first = false → 0 < offset) →
  let o := if first then offset else offset - 1 in
  let cs := cellsOfLines first lines in
  viewLines nfkc isMark first offset stop lines = (norms cs, startsOf o cs, endsOf stop o cs, stopOf stop o cs).
Proof.
  induction lines as [|l lines IH] in first, offset, stop |- *; intros Hstop Hoff; [done|].
  cbn [viewLines cellsOfLines]. destruct (line_kept offset l) as (a & b & E & Ec & Hk & _).
  rw (strippedFrom_kept offset l a b E Hk) Hk (IH false) //; [lia|].
  rw lineView_cells E Ec. cbn [fst snd].
  assert (Hfull := lineCells_full l). rw E in Hfull. apply Forall_app in Hfull as [Ha _].
  assert (Hblank : Forall (λ c, norm c = []) (blank <$> b)) by (apply Forall_fmap, Forall_forall; done).
  assert (Hs : length (sources (a ++ (blank <$> b))) = length l)
    by (rw sources_app sources_blank -sources_app -E lineCells_source //).
  rw norms_app startsOf_app take_app_length take_app_length' ?length_startsOf //.
  set (rest := cellsOfLines false lines). set (line := a ++ (blank <$> b)) in *.
  assert (Hn : norms line = norms a) by (unfold line; rw norms_app (norms_blank (blank <$> b)) // app_nil_r //).
  assert (Hst : ∀ o, startsOf o line = startsOf o a)
    by (intros o; unfold line; rw startsOf_app (startsOf_blank _ (blank <$> b)) // app_nil_r //).
  assert (Hen : ∀ o, endsOf o o line = startsOf o a)
    by (intros o; unfold line; rw endsOf_app (endsOf_blank _ _ (blank <$> b)) // app_nil_r endsOf_full //).
  assert (Hso : ∀ o, stopOf o o line = o + length (sources a))
    by (intros o; unfold line; rw stopOf_app (stopOf_blank _ _ (blank <$> b)) // stopOf_full //).
  clearbody line rest. replace (offset + length l + 1 - 1) with (offset + length l) by lia.
  destruct first.
  - subst stop. cbn [app]. rw !norms_app !startsOf_app !endsOf_app !stopOf_app Hn Hst Hen Hso Hs //.
  - assert (Ho : offset - 1 + length [newline] = offset) by (simpl; specialize (Hoff eq_refl); lia).
    cbn [app]. rw norms_cons norms_app. cbn [startsOf endsOf stopOf newlineCell source norm clusterMap fmap].
    rw Ho !startsOf_app !endsOf_app !stopOf_app Hn Hst Hen Hso Hs //.
Qed.

Lemma cellsOfLines_source first lines :
  sources (cellsOfLines first lines)
  = match lines with [] => [] | _ => (if first then [] else [newline]) ++ join [newline] lines end.
Proof.
  induction lines as [|l lines IH] in first |- *; [done|]. cbn [cellsOfLines].
  destruct (line_kept 0 l) as (a & b & E & Ec & _). rw !sources_app Ec sources_app sources_blank -sources_app -E.
  rw lineCells_source IH. destruct lines as [|m lines]; [by destruct first; rw app_nil_r|].
  rw (join_cons [newline] l) //. by destruct first.
Qed.

Lemma cells_source t : sources (cells t) = t.
Proof.
  unfold cells. rw cellsOfLines_source. destruct (splitOn newline t) eqn:E; [by destruct (splitOn_nonempty newline t)|].
  by rw -E join_splitOn.
Qed.

Lemma view_cells t :
  normalizeForFuzzyMatchWithMap nfkc isMark t
  = {| fn_text := norms (cells t); startMap := startsMap (cells t); endMap := endsMap (cells t) |}.
Proof.
  unfold normalizeForFuzzyMatchWithMap. rw (viewLines_cells true) //. unfold startsMap, endsMap.
  by rw cells_source.
Qed.

(** ** Fuzzy matches *)

(** A cell that stands for its cluster, or for the character or newline it is. *)
Definition stands (c : cell) : Prop :=
  norm c = source c ∨ norm c = normalizeFuzzyCluster nfkc (source c).

(** A cell of stripped white space. *)
Definition stripped (c : cell) : Prop :=
  norm c = [] ∧ (Forall (λ x, isWhite x = true) (source c)
                 ∨ Forall (λ x, isWhite x = true) (normalizeFuzzyCluster nfkc (source c))).

Lemma lineCells_stand l : Forall stands (lineCells l).
Proof. unfold lineCells, stands. destruct (isAsciiLine l); apply Forall_fmap, Forall_forall; simpl; by [left|right]. Qed.

Lemma cells_kinds t : Forall (λ c, stands c ∨ stripped c) (cells t).
Proof.
  unfold cells. generalize (splitOn newline t) as lines. intros lines. generalize true as first.
  induction lines as [|l lines IH]; intros first; cbn [cellsOfLines]; [constructor|].
  destruct (line_kept 0 l) as (a & b & E & Ec & _ & Hw). rw Ec. assert (Hs := lineCells_stand l). rw E in Hs.
  apply Forall_app in Hs as [Ha Hb]. apply Forall_app. split; [|apply Forall_app; split; [apply Forall_app; split|apply IH]].
  - destruct first; [constructor|]. apply Forall_singleton. by left; left.
  - by eapply Forall_impl; [apply Ha|left].
  - apply Forall_fmap. clear E Ec. revert Hb Hw. induction b as [|c b IHb]; [constructor|].
    rw norms_cons Forall_app. intros [Hc Hb]%Forall_cons [Hwc Hwb].
    constructor; [|by apply IHb]. right. split; [done|]. simpl. destruct Hc as [Hc|Hc]; rw Hc in Hwc; by [left|right].
Qed.

Lemma normalizeForFuzzyMatch_cells t : normalizeForFuzzyMatch nfkc isMark t = norms (cells t).
Proof. unfold normalizeForFuzzyMatch. by rw view_cells. Qed.

(** [toOriginal] of a stretch of the view. *)
Lemma toOriginal_covers t n i :
  0 < n → i + n ≤ length (norms (cells t)) →
  ∃ a m b,
    covers (cells t) i (i + n) a m b
    ∧ toOriginal (normalizeForFuzzyMatchWithMap nfkc isMark t) n i
      = (length (sources a), length (sources m),
         slice (length (norms a)) i (norms (cells t)), slice (i + n) (length (norms (a ++ m))) (norms (cells t))).
Proof.
  intros Hn Hi. destruct (stretch_covers (cells t) i (i + n)) as (a & m & b & Hcov & Hs & Hso & He & Heo); [lia|].
  exists a, m, b. split; [done|]. unfold toOriginal. rw view_cells. cbn [fn_text startMap endMap].
  rw Hs Hso He Heo sources_app length_app Nat.max_r ?Nat.add_sub' //. lia.
Qed.

Lemma fuzzyFindText_covers content oldText found :
  fuzzyFindText nfkc isMark content oldText = Some found → usedFuzzyMatch found = true →
  ∃ a m b,
    content = sources (a ++ m ++ b) ∧ Forall (λ c, stands c ∨ stripped c) (a ++ m ++ b)
    ∧ index found = length (sources a) ∧ matchLength found = length (sources m)
    ∧ norms m = leading found ++ normalizeForFuzzyMatch nfkc isMark oldText ++ trailing found
    ∧ (∃ c m', m = c :: m' ∧ length (leading found) < length (norm c))
    ∧ (∃ m' c, m = m' ++ [c] ∧ length (trailing found) < length (norm c)).
Proof.
  unfold fuzzyFindText. destruct (match oldText with [] => [] | _ => _ end); [|by intros [= <-]].
  set (needle := normalizeForFuzzyMatch nfkc isMark oldText). destruct (decide (needle = [])) as [->|Hne]; [done|].
  assert (Hlen : 0 < length needle) by (destruct needle; simpl; [done|lia]).
  destruct (findOccurrences _ needle) as [|first matches] eqn:Hocc; [by destruct needle|].
  assert (Hfirst : occursAt (norms (cells content)) needle first).
  { assert (Hscan := findOccurrences_scan (fn_text (normalizeForFuzzyMatchWithMap nfkc isMark content)) needle Hne).
    rw Hocc in Hscan. rw view_cells in Hscan. apply (scan_sound _ _ _ _ Hscan first). by left. }
  assert (Hb := occursAt_bound _ _ _ Hne Hfirst).
  destruct (toOriginal_covers content (length needle) first Hlen Hb) as (a & m & b & Hcov & Ho).
  replace (match needle with [] => None | _ :: _ => _ end) with
    (Some {| index := length (sources a); matchLength := length (sources m); usedFuzzyMatch := true;
             occurrences := length (first :: matches);
             locations := (λ k, (toOriginal (normalizeForFuzzyMatchWithMap nfkc isMark content) (length needle) k).1.1.1)
                            <$> take MAX_REPORTED_LOCATIONS (first :: matches);
             leading := slice (length (norms a)) first (norms (cells content));
             trailing := slice (first + length needle) (length (norms (a ++ m))) (norms (cells content)) |})
    by (rw Ho; by destruct needle).
  intros [= <-] _. exists a, m, b. simpl. destruct Hcov as [Hcells Hfrom Hto (c & m' & Hc & Hcl) (m'' & d & Hd & Hdl)].
  assert (Hin : slice first (first + length needle) (norms (cells content)) = needle).
  { unfold slice. rw Nat.add_sub'. by apply startsWith_take. }
  rw -Hcells cells_source. split; [done|]. split; [apply cells_kinds|]. split; [done|]. split; [done|].
  assert (Hca : length (norms (a ++ [c])) = length (norms a) + length (norm c))
    by rw norms_snoc length_app //.
  assert (Hda : length (norms (a ++ m)) = length (norms (a ++ m'')) + length (norm d))
    by rw Hd app_assoc norms_snoc length_app //.
  assert (Hle : length (norms (a ++ m)) ≤ length (norms (cells content)))
    by (rw Hcells app_assoc (norms_app (a ++ m)) length_app; lia).
  split; [|split].
  - transitivity (slice (length (norms a)) (length (norms (a ++ m))) (norms (cells content))).
    { rw Hcells !norms_app length_app slice_mid //. }
    rw -(slice_app _ first); try lia. rw -(slice_app first (first + length needle)); try lia. by rw Hin.
  - exists c, m'. split; [done|]. rw length_slice; lia.
  - exists m'', d. split; [done|]. rw length_slice; lia.
Qed.

(** A fuzzy match is a run of whole clusters of the file: its span covers them exactly, what
    they normalize to is the text looked for with the margins the replacement puts back, and
    every cluster of the span shares some of the text looked for at either end; what lies
    between stands for the view, but for white space stripped from the ends of lines. *)
Theorem fuzzy_match_covers_whole_clusters content oldText found :
  fuzzyFindText nfkc isMark content oldText = Some found → usedFuzzyMatch found = true →
  ∃ a m b,
    content = sources (a ++ m ++ b) ∧ Forall (λ c, stands c ∨ stripped c) (a ++ m ++ b)
    ∧ index found = length (sources a) ∧ matchLength found = length (sources m)
    ∧ norms m = leading found ++ normalizeForFuzzyMatch nfkc isMark oldText ++ trailing found
    ∧ (∃ c m', m = c :: m' ∧ length (leading found) < length (norm c))
    ∧ (∃ m' c, m = m' ++ [c] ∧ length (trailing found) < length (norm c)).
Proof. apply fuzzyFindText_covers. Qed.

(** An exact match. *)
Lemma fuzzyFindText_exact content oldText found :
  fuzzyFindText nfkc isMark content oldText = Some found → usedFuzzyMatch found = false →
  oldText ≠ [] ∧ matchLength found = length oldText ∧ leading found = [] ∧ trailing found = []
  ∧ findOccurrences content oldText = index found :: tail (findOccurrences content oldText)
  ∧ occurrences found = length (findOccurrences content oldText).
Proof.
  unfold fuzzyFindText. destruct oldText as [|c oldText].
  - cbn. destruct (normalizeForFuzzyMatch nfkc isMark []); [done|]. repeat case_match; by intros [= <-].
  - destruct (findOccurrences content (c :: oldText)) as [|i l]; [|by intros [= <-]].
    destruct (normalizeForFuzzyMatch nfkc isMark (c :: oldText)); [done|]. repeat case_match; by intros [= <-].
Qed.

(** A match lies in the content. *)
Lemma fuzzyFindText_inside content oldText found :
  fuzzyFindText nfkc isMark content oldText = Some found → index found + matchLength found ≤ length content.
Proof.
  intros H. destruct (usedFuzzyMatch found) eqn:Hu.
  - destruct (fuzzyFindText_covers content oldText found H Hu) as (a & m & b & Hc & _ & Hi & Hl & _).
    rw Hi Hl Hc !sources_app !length_app. lia.
  - destruct (fuzzyFindText_exact content oldText found H Hu) as (Hne & Hl & _ & _ & Ho & _).
    assert (Hocc : occursAt content oldText (index found)).
    { apply (scan_sound _ _ _ _ (findOccurrences_scan content oldText Hne)). rw Ho. by left. }
    rw Hl. by apply occursAt_bound in Hocc.
Qed.
End View.

(** The curly quotes and the stripped blanks of the file, matched by a plain text. *)
Lemma fuzzy_match_covers_whole_clusters_witness :
  let content := u "say " ++ [8220%N] ++ u "hi" ++ [8221%N; 32%N; 10%N] ++ u "ok" in
  let found := {| index := 4; matchLength := 7; usedFuzzyMatch := true; occurrences := 1; locations := [4];
                  leading := []; trailing := [] |} in
  ∃ a m b,
    content = sources (a ++ m ++ b) ∧ Forall (λ c, stands id c ∨ stripped id c) (a ++ m ++ b)
    ∧ index found = length (sources a) ∧ matchLength found = length (sources m)
    ∧ norms m = leading found ++ normalizeForFuzzyMatch id (λ _, false) ([34%N] ++ u "hi" ++ [34; 10; 111]%N) ++ trailing found
    ∧ (∃ c m', m = c :: m' ∧ length (leading found) < length (norm c))
    ∧ (∃ m' c, m = m' ++ [c] ∧ length (trailing found) < length (norm c)).
Proof. by apply (fuzzy_match_covers_whole_clusters id (λ _, false)). Defined.
