(* ===== verification/EditTextPlan.v ===== *)
(** * What the edits of one call change

    The plan of [EditText] is correct: a call either fails or replaces exactly the spans its
    edits matched in the original content, all of them, and nothing else; the order of the
    edits does not matter; the line numbers it reports are those of the spans; and the
    single-edit forms of the tool ([applyAnchoredEdit], [applyStringReplacement]) make the same
    change as the same edit in a list. *)

From Corelib Require Import ssreflect.
From stdpp Require Import prelude strings sorting.
From Stdlib Require Import Sorted.
From S2P Require Import Prelude Text Weave EditDiff Hashline EditText EditDiffCells.

#[local] Open Scope nat_scope.

(** ** Spans as parts of the content *)

Lemma applySpans_parts content sorted : applySpans content sorted = replaceParts content (span_of <$> sorted).
Proof. induction sorted as [|p sorted IH]; [done|]. simpl. unfold replaceSpan, replacePart. by rw slice_from_start IH. Qed.

(** ** The sort, and the test for overlaps *)

#[export] Instance before_total : Total before.
Proof. intros p q. unfold before. lia. Qed.
#[export] Instance before_trans : Transitive before.
Proof. intros p q r. unfold before. lia. Qed.

(** The order of spans the sort leaves. *)
Definition spanLe (s s' : Span) : Prop := p_start s < p_start s' ∨ p_start s = p_start s' ∧ p_end s ≤ p_end s'.

Lemma ordered_permutation planned : ordered planned ≡ₚ planned.
Proof. apply merge_sort_Permutation. Qed.

Lemma ordered_spans_sorted planned : StronglySorted spanLe (span_of <$> ordered planned).
Proof.
  assert (H : StronglySorted before (ordered planned)) by (apply StronglySorted_merge_sort; apply _).
  induction H as [|p l Hl IH Hp]; simpl; constructor; [done|]. apply Forall_fmap. eapply Forall_impl; [apply Hp|].
  intros q. unfold before, spanLe. simpl. lia.
Qed.

Lemma overlapping_None sorted : overlapping sorted = None ↔ spaced 0 (span_of <$> sorted).
Proof.
  destruct sorted as [|p l]; [done|]. induction l as [|q l IH] in p |- *; [split; [simpl; lia|done]|].
  cbn [overlapping]. destruct (Nat.ltb_spec (p_start (span_of q)) (p_end (span_of p))) as [Hlt|Hge].
  - split; [done|]. simpl. lia.
  - rw IH. simpl. split; intros; [split; [lia|]; by split; [|apply H]|]. by split; [lia|apply H].
Qed.

(** ** The line of an offset *)

Lemma lineSearch_spec starts offset fuel low high :
  (∀ i j, i ≤ j → j < length starts → default 0 (starts !! i) ≤ default 0 (starts !! j)) →
  low ≤ high < length starts → high - low ≤ fuel →
  default 0 (starts !! low) ≤ offset →
  (∀ k, high < k → k < length starts → offset < default 0 (starts !! k)) →
  let r := lineSearch fuel low high starts offset in
  r < length starts ∧ default 0 (starts !! r) ≤ offset
  ∧ ∀ k, r < k → k < length starts → offset < default 0 (starts !! k).
Proof.
  intros Hmono. induction fuel as [|fuel IH] in low, high |- *; intros Hlh Hf Hlow Hhigh; cbn [lineSearch].
  { assert (low = high) as -> by lia. split; [lia|done]. }
  destruct (Nat.ltb_spec low high) as [Hlt|Hge].
  2:{ assert (low = high) as -> by lia. split; [lia|done]. }
  set (mid := (low + high + 1) / 2).
  assert (Hmid : low < mid ≤ high).
  { unfold mid. split; [apply Nat.div_le_lower_bound; lia|]. apply Nat.lt_succ_r, Nat.Div0.div_lt_upper_bound. lia. }
  destruct (Nat.leb_spec (default 0 (starts !! mid)) offset) as [Hm|Hm]; [by apply IH; [lia|lia| |]|].
  apply IH; [lia|lia|done|]. intros k Hk Hkl. specialize (Hmono mid k ltac:(lia) Hkl). lia.
Qed.

Lemma splitOn_ended a p : Forall (λ l, newline ∉ l) a → newline ∉ p → splitOn newline (ended a ++ p) = a ++ [p].
Proof.
  intros Ha Hp. induction Ha as [|l a Hl Ha IH]; [by apply splitOn_none|].
  unfold ended in *. rw bind_cons -!app_assoc splitOn_cons_piece // IH //.
Qed.

(** [lineOf] counts the lines up to the offset. *)
Lemma lineOf_line content offset :
  offset ≤ length content → lineOf (lineStarts content) offset = length (splitOn newline (take offset content)).
Proof.
  intros Hoff. unfold lineOf. rw lineStarts_split. set (lines := splitOn newline content).
  assert (Hne : lines ≠ []) by apply splitOn_nonempty. assert (Hpos : 0 < length lines) by (destruct lines; simpl; [done|lia]).
  assert (Hst : ∀ a b, lines = a ++ b → b ≠ [] → default 0 (lineOffsets 0 lines !! length a) = length (ended a))
    by (intros a [|l b] -> Hb; [done|by rw lineOffsets_lookup]).
  assert (Hat : ∀ i, i < length lines → default 0 (lineOffsets 0 lines !! i) = length (ended (take i lines))).
  { intros i Hi. rw -(Hst (take i lines) (drop i lines)) ?take_drop ?length_take_le //; [|lia].
    intros Hd. apply (f_equal length) in Hd. rw length_drop /= in Hd. lia. }
  set (starts := lineOffsets 0 lines) in *. assert (Hlen : length starts = length lines) by apply length_lineOffsets.
  destruct (lineSearch_spec starts offset (length starts) 0 (length starts - 1)) as (Hr & Hle & Hgt); try lia.
  - intros i j Hij Hj. rw Hlen in Hj. rw !Hat; try lia. rw -{1}(Nat.min_l i j) // -take_take.
    rw -{2}(take_drop i (take j lines)) ended_app length_app. lia.
  - rw Hat //. unfold ended. simpl. lia.
  - set (r := lineSearch _ _ _ _ _) in *. rw Hlen in Hr. rw Hat // in Hle.
    destruct (lookup_lt_is_Some_2 lines r Hr) as [l Hl].
    assert (E : content = ended (take r lines) ++ l ++ begun (drop (S r) lines)).
    { rw -{1}(join_splitOn newline content) -/lines -{1}(take_drop_middle lines r l Hl) join_ended // join_begun //. }
    assert (Hpl := splitOn_piece newline content). rw -/lines in Hpl.
    assert (Hoffl : offset ≤ length (ended (take r lines)) + length l).
    { destruct (decide (S r < length lines)) as [Hlt|Hge].
      - specialize (Hgt (S r) ltac:(lia) ltac:(lia)). rw Hat // in Hgt. rw (take_S_r _ _ l) // ended_app length_app in Hgt.
        unfold ended at 2 in Hgt. simpl in Hgt. rw app_nil_r length_app /= in Hgt. lia.
      - rw E drop_ge /= ?app_nil_r ?length_app in Hoff; lia. }
    assert (Et : take offset content = ended (take r lines) ++ take (offset - length (ended (take r lines))) l).
    { rw {1}E take_app take_ge //. f_equal. rw take_app_le //. lia. }
    rw Et splitOn_ended ?length_app ?length_take /=; [by apply Forall_take| |lia].
    intros Hin. eapply Forall_lookup in Hpl; [|exact Hl]. apply Hpl. apply elem_of_take in Hin as (i & Hi & _).
    by eapply list_elem_of_lookup_2.
Qed.

(** ** Plans *)

Section Plans.
Context (nfkc : text → text) (isMark : N → bool).
Hypothesis nfkc_nonempty : ∀ t, t ≠ [] → nfkc t ≠ [].

Notation planEdit := (planEdit nfkc isMark).
Notation planEdits := (planEdits nfkc isMark).
Notation applyEditsToContent := (applyEditsToContent nfkc isMark).

Lemma planEdit_within content edit span : planEdit content edit = inr span → within content span.
Proof.
  destruct edit as [old new|edit]; cbn [EditText.planEdit].
  - case_bool_decide; [done|]. destruct (fuzzyFindText _ _ _ _) as [found|] eqn:E; [|done].
    apply (fuzzyFindText_inside nfkc isMark nfkc_nonempty) in E. case_match; [done|]. intros [= <-].
    unfold within. simpl. lia.
  - assert (H := planAnchorEdit_applies content edit). destruct (planAnchorEdit _ _ _ _); [|done].
    intros [= <-]. apply H.
Qed.

(** What a text edit with an exact match replaces: that text, and no other occurrence of it but
    those that overlap it. *)
Definition exactly (content : text) (edit : EditSpec) (span : Span) : Prop :=
  match edit with
  | TextEdit old new =>
      includes (normalizeToLF old) content = true →
      oldPart content span = normalizeToLF old ∧ p_new span = normalizeToLF new
      ∧ ∀ j, occursAt content (normalizeToLF old) j → p_start span ≤ j < p_end span
  | AnchorEdit _ => True
  end.

Lemma planEdit_exactly content edit span : planEdit content edit = inr span → exactly content edit span.
Proof.
  destruct edit as [old new|edit]; [|done]. cbn [EditText.planEdit exactly]. set (needle := normalizeToLF old).
  case_bool_decide as Hblank; [done|]. assert (Hne : needle ≠ []) by (by intros ->).
  destruct (fuzzyFindText _ _ _ _) as [found|] eqn:E; [|done].
  destruct (Nat.ltb_spec 1 (occurrences found)) as [|Hone]; [done|]. intros [= <-] Hin.
  apply bool_decide_eq_true in Hin as [i Hi]. apply search_Some in Hi as (_ & Hi & _).
  assert (Hscan := findOccurrences_scan content needle Hne).
  destruct (scan_complete _ _ _ _ Hscan i ltac:(lia) Hi) as (k & Hk & _).
  assert (Hu : usedFuzzyMatch found = false).
  { revert E. unfold fuzzyFindText. destruct needle as [|c l]; [done|].
    destruct (findOccurrences content (c :: l)); [by apply not_elem_of_nil in Hk|]. by intros [= <-]. }
  destruct (fuzzyFindText_exact nfkc isMark content needle found E Hu) as (_ & Hl & Hlead & Htrail & Ho & Hcount).
  rw Hcount Ho /= in Hone. destruct (tail _) eqn:Ht; [|simpl in Hone; lia]. rw Ho in Hscan.
  assert (Hat : occursAt content needle (index found)) by (apply (scan_sound _ _ _ _ Hscan); by left).
  unfold oldPart. simpl. rw Nat.add_sub' Hlead Htrail app_nil_r Hl. split; [by apply startsWith_take|split; [done|]].
  intros j Hj. destruct (scan_complete _ _ _ _ Hscan j ltac:(lia) Hj) as (m & Hm & ?).
  apply list_elem_of_singleton in Hm as ->. lia.
Qed.

Lemma planEdits_Forall2 content n edits planned :
  planEdits content n edits = inr planned → Forall2 (λ e p, planEdit content e = inr (span_of p)) edits planned.
Proof.
  induction edits as [|e edits IH] in n, planned |- *; cbn [EditText.planEdits]; [by intros [= <-]|].
  destruct (planEdit content e) eqn:E; [done|]. destruct (planEdits content (S n) edits) eqn:E'; [done|].
  intros [= <-]. constructor; [done|]. by apply (IH (S n)).
Qed.

Lemma planEdits_within content n edits planned :
  planEdits content n edits = inr planned → Forall (within content) (span_of <$> ordered planned).
Proof.
  intros H%planEdits_Forall2. rw ordered_permutation. apply Forall_fmap.
  induction H as [|e p edits planned Hp H IH]; [by apply Forall_nil|].
  apply Forall_cons. split; [by eapply planEdit_within|done].
Qed.

(** The content a successful call leaves. *)
Definition outcome (content : text) (edits : list EditSpec) : option text :=
  match applyEditsToContent content edits with inl _ => None | inr r => Some (editedContent r) end.

Lemma outcome_Some content edits next :
  outcome content edits = Some next ↔
    ∃ planned, planEdits content 0 edits = inr planned ∧ spaced 0 (span_of <$> ordered planned)
               ∧ next = applySpans content (ordered planned) ∧ next ≠ content.
Proof.
  unfold outcome, EditText.applyEditsToContent. destruct (planEdits content 0 edits) as [e|planned]; [by split; [|intros (? & ? & _)]|].
  destruct (overlapping (ordered planned)) as [[i j]|] eqn:E.
  - split; [done|]. intros (? & [= <-] & Hs & _). apply overlapping_None in Hs. congruence.
  - apply overlapping_None in E. case_bool_decide as Hid; split; [done| | |].
    + by intros (? & [= <-] & _ & -> & ?).
    + intros [= <-]. by exists planned.
    + by intros (? & [= <-] & _ & -> & _).
Qed.

(** C13: A call of [Edit] that succeeds replaces exactly the spans its edits matched in the
    original content: the spans are disjoint, what lies between them is kept unit for unit, every
    span has its edit's new text, a text edit whose text is in the file replaces that text and
    leaves no other place it could have meant but those that overlap it, and the lines reported
    are those of the spans in the original content. *)
Theorem edits_change_only_their_spans content edits r :
  applyEditsToContent content edits = inr r →
  ∃ planned gs,
    Forall2 (λ e p, planEdit content e = inr (span_of p) ∧ exactly content e (span_of p)) edits planned
    ∧ ordered planned ≡ₚ planned ∧ spaced 0 (span_of <$> ordered planned)
    ∧ length gs = S (length edits)
    ∧ content = weave gs (oldPart content <$> (span_of <$> ordered planned))
    ∧ editedContent r = weave gs (p_new <$> (span_of <$> ordered planned))
    ∧ editedLines r = (λ p, length (splitOn newline (take (p_start (span_of p)) content))) <$> planned.
Proof.
  unfold EditText.applyEditsToContent. destruct (planEdits content 0 edits) as [e|planned] eqn:Hp; [done|].
  destruct (overlapping (ordered planned)) as [[i j]|] eqn:Ho; [done|]. apply overlapping_None in Ho.
  case_bool_decide; [done|]. intros [= <-]. assert (Hin := planEdits_within _ _ _ _ Hp).
  apply planEdits_Forall2 in Hp. rw applySpans_parts.
  destruct (replaceParts_spec content (span_of <$> ordered planned) Hin Ho) as (gs & Hgs & Hold & Hnew).
  rw length_fmap (Permutation_length (ordered_permutation planned)) in Hgs. exists planned, gs.
  split; [|split; [apply ordered_permutation|split; [done|split; [|split; [done|split; [done|]]]]]].
  - eapply Forall2_impl; [apply Hp|]. intros e p He. split; [done|]. by apply planEdit_exactly.
  - by rw Hgs (Forall2_length _ _ _ Hp).
  - apply list_fmap_ext. intros i p Hi. apply lineOf_line. simpl.
    assert (Hpin : within content (span_of p)).
    { rw ordered_permutation Forall_fmap in Hin. by eapply Forall_lookup in Hin. }
    unfold within in Hpin. lia.
Qed.

(** ** The order of the edits *)

Lemma planEdits_inr content n edits :
  Forall (λ e, ∃ s, planEdit content e = inr s) edits → ∃ planned, planEdits content n edits = inr planned.
Proof.
  intros H. induction H as [|e edits [s He] H IH] in n |- *; cbn [EditText.planEdits]; [by eexists|].
  rw He. destruct (IH (S n)) as [planned ->]. by eexists.
Qed.

Lemma planned_spans content edits planned :
  Forall2 (λ e p, planEdit content e = inr (span_of p)) edits planned →
  span_of <$> planned = omap (λ e, match planEdit content e with inr s => Some s | inl _ => None end) edits.
Proof. intros H. induction H as [|e p edits planned He H IH]; [done|]. by rw fmap_cons /= He IH. Qed.

(** No two edits insert different texts at one place. *)
Definition noRivalInsertions (content : text) (edits : list EditSpec) : Prop :=
  ∀ e e' s s', e ∈ edits → e' ∈ edits → planEdit content e = inr s → planEdit content e' = inr s' →
    p_start s = p_end s → p_start s' = p_start s → p_end s' = p_end s → s' = s.

Lemma applySpans_spans content sorted sorted' :
  span_of <$> sorted = span_of <$> sorted' → applySpans content sorted = applySpans content sorted'.
Proof.
  intros H. by rw !applySpans_parts H.
Qed.

Lemma outcome_order content edits edits' next :
  edits ≡ₚ edits' → noRivalInsertions content edits → outcome content edits = Some next → outcome content edits' = Some next.
Proof.
  intros Hperm Hrival (planned & Hp & Hsp & -> & Hne)%outcome_Some.
  assert (Hin := planEdits_within _ _ _ _ Hp). assert (H2 := planEdits_Forall2 _ _ _ _ Hp).
  destruct (planEdits_inr content 0 edits') as [planned' Hp'].
  { rw -Hperm. clear -H2. induction H2; constructor; [by eexists|done]. }
  assert (H2' := planEdits_Forall2 _ _ _ _ Hp').
  assert (Hspans : span_of <$> ordered planned ≡ₚ span_of <$> ordered planned').
  { rw !ordered_permutation (planned_spans _ _ _ H2) (planned_spans _ _ _ H2') Hperm //. }
  assert (Hse : Forall (λ s, p_start s ≤ p_end s) (span_of <$> ordered planned)).
  { eapply Forall_impl; [apply Hin|]. by intros s [? _]. }
  assert (Hfrom : ∀ s, s ∈ span_of <$> ordered planned → ∃ e, e ∈ edits ∧ planEdit content e = inr s).
  { intros s. rw ordered_permutation (planned_spans _ _ _ H2) list_elem_of_omap. intros (e & He & Hs). exists e.
    split; [done|]. destruct (planEdit content e); [done|]. by injection Hs as ->. }
  assert (Heq : span_of <$> ordered planned = span_of <$> ordered planned').
  { apply (StronglySorted_unique_strong spanLe); [|apply ordered_spans_sorted..|done].
    intros x y Hx Hy Hxy Hyx. rw -Hspans in Hy.
    assert (Hb : p_start x = p_start y ∧ p_end x = p_end y) by (unfold spanLe in *; lia). destruct Hb as [Hb He].
    destruct (spaced_same 0 _ x y Hsp Hse Hx Hy Hb He) as [|Hempty]; [done|].
    destruct (Hfrom x Hx) as (e & Hein & Hes), (Hfrom y Hy) as (e' & Hein' & Hes').
    symmetry. by apply (Hrival e e' x y). }
  apply outcome_Some. exists planned'. rw -Heq. split; [done|split; [done|]].
  by rw -(applySpans_spans content (ordered planned) (ordered planned')).
Qed.

(** The order in which a call lists its edits does not matter: any two orders both fail, or
    leave the same file, unless two edits insert different texts at one and the same place. *)
Theorem edit_order_is_irrelevant content edits edits' :
  edits ≡ₚ edits' → noRivalInsertions content edits → outcome content edits = outcome content edits'.
Proof.
  intros Hperm Hrival. destruct (outcome content edits) as [next|] eqn:E.
  - symmetry. by apply (outcome_order content edits).
  - destruct (outcome content edits') as [next|] eqn:E'; [|done].
    rw (outcome_order content edits' edits next) // in E. intros e e' s s'. rw -Hperm. apply Hrival.
Qed.

(** ** The single-edit forms *)

Lemma outcome_single content edit :
  outcome content [edit] =
    match planEdit content edit with
    | inl _ => None
    | inr s => if bool_decide (spliced content s = content) then None else Some (spliced content s)
    end.
Proof.
  unfold outcome, EditText.applyEditsToContent. cbn [EditText.planEdits]. destruct (planEdit content edit) as [|s]; [done|].
  change (ordered [{| editIndex := 0; span_of := s |}]) with [{| editIndex := 0; span_of := s |}]. simpl.
  unfold replaceSpan, spliced. simpl. rw slice_from_start. by case_bool_decide.
Qed.

(** The two forms of the tool agree.  One anchored edit in the list leaves the file that the
    anchored form leaves, and fails if that form fails or leaves the file as it was; one text
    edit in the list fails exactly if the single replacement fails, and leaves the same file,
    where the replacement does not find the edit already made. *)
Theorem single_edit_forms_agree content :
  (∀ edit, outcome content [AnchorEdit edit] =
     match applyAnchoredEdit content edit with
     | Some r => if bool_decide (Hashline.content r = content) then None else Some (Hashline.content r)
     | None => None
     end)
  ∧ ∀ old new,
      match applyStringReplacement nfkc isMark content old new false with
      | inl _ => outcome content [TextEdit old new] = None
      | inr r => noChange r = true ∧ newContent r = content ∨ outcome content [TextEdit old new] = Some (newContent r)
      end.
Proof.
  split.
  - intros edit. rw outcome_single. cbn [EditText.planEdit]. assert (H := planAnchorEdit_applies content edit).
    destruct (planAnchorEdit _ _ _ _) as [s|]; [|by rw H]. destruct H as [_ H].
    destruct (applyAnchoredEdit content edit) as [r|]; [|done]. by injection H as ->.
  - intros old new. rw outcome_single. unfold applyStringReplacement. cbn [EditText.planEdit].
    set (needle := normalizeToLF old). set (replacement := normalizeToLF new).
    destruct (bool_decide (trim needle = [])) eqn:Hblank; [done|].
    destruct (_ && _ && _); [by left|]. cbn [negb andb].
    assert (Hne : needle ≠ []) by (intros Hn; by rw Hn in Hblank).
    destruct (fuzzyFindText nfkc isMark content needle) as [found|] eqn:E.
    + destruct (Nat.ltb_spec 1 (length (findOccurrences content needle))) as [Hmany|Hone].
      { assert (Hu : usedFuzzyMatch found = false).
        { revert E. unfold fuzzyFindText. destruct needle; [done|]. destruct (findOccurrences content _); [simpl in Hmany; lia|].
          by intros [= <-]. }
        destruct (fuzzyFindText_exact nfkc isMark content needle found E Hu) as (_ & _ & _ & _ & _ & ->).
        by destruct (Nat.ltb_spec 1 (length (findOccurrences content needle))); [|lia]. }
      destruct (1 <? occurrences found); [done|]. unfold spliced. cbn [p_start p_end p_new].
      rw slice_from_start -!app_assoc. set (next := take _ _ ++ _). destruct (decide (next = content)) as [->|Hid].
      { by rw !bool_decide_true. }
      rw !bool_decide_false //. by right.
    + by destruct (1 <? _).
Qed.
End Plans.

(** A change at the end and one at the start of a file, listed out of order. *)
Lemma edits_change_only_their_spans_witness :
  let content := u "alpha" ++ [newline] ++ u "beta" ++ [newline] ++ u "gamma" in
  let edits := [TextEdit (u "gamma") (u "X"); TextEdit (u "al") (u "AL")] in
  let r := {| editedContent := u "ALpha" ++ [newline] ++ u "beta" ++ [newline] ++ u "X"; editedLines := [3; 1] |} in
  ∃ planned gs,
    Forall2 (λ e p, planEdit id (λ _, false) content e = inr (span_of p) ∧ exactly content e (span_of p)) edits planned
    ∧ ordered planned ≡ₚ planned ∧ spaced 0 (span_of <$> ordered planned)
    ∧ length gs = S (length edits)
    ∧ content = weave gs (oldPart content <$> (span_of <$> ordered planned))
    ∧ editedContent r = weave gs (p_new <$> (span_of <$> ordered planned))
    ∧ editedLines r = (λ p, length (splitOn newline (take (p_start (span_of p)) content))) <$> planned.
Proof. by apply (edits_change_only_their_spans id (λ _, false)). Defined.

Lemma edit_order_is_irrelevant_witness :
  let content := u "alpha" ++ [newline] ++ u "beta" in
  let first := TextEdit (u "beta") (u "B") in
  let second := TextEdit (u "al") (u "AL") in
  outcome id (λ _, false) content [first; second] = outcome id (λ _, false) content [second; first]
  ∧ outcome id (λ _, false) content [second; first] = Some (u "ALpha" ++ [newline] ++ u "B").
Proof.
  split; [|by vm_compute]. apply (edit_order_is_irrelevant id (λ _, false)); [done|apply perm_swap|].
  intros e e' s s' He _ Hs _ Hempty _ _. exfalso. apply elem_of_cons in He as [->|He]; [by vm_compute in Hs; simplify_eq|].
  apply list_elem_of_singleton in He as ->. by vm_compute in Hs; simplify_eq.
Defined.

(** A text that occurs at two overlapping places counts as one match: the edit is made at the
    first, though "each text edit must match exactly one location". *)
Example overlapping_matches_count_once :
  let content := u "ababa" in
  occursAt content (u "aba") 0 ∧ occursAt content (u "aba") 2
  ∧ outcome id (λ _, false) content [TextEdit (u "aba") (u "X")] = Some (u "Xba").
Proof. by vm_compute. Qed.

(** [replace_all]: the content cut at every match, joined again with the new text. *)
Lemma replace_all_joins nfkc isMark content old new r :
  applyStringReplacement nfkc isMark content old new true = inr r → noChange r = false →
  ∃ pieces, content = join (normalizeToLF old) pieces ∧ newContent r = join (normalizeToLF new) pieces
            ∧ length pieces = S (replacements r) ∧ 0 < replacements r.
Proof.
  unfold applyStringReplacement. case_bool_decide as Hblank; [done|]. destruct (_ && _ && _); [by intros [= <-]|].
  cbn [negb andb]. set (pieces := splitText _ _ _ _). destruct (Nat.eqb_spec (length pieces - 1) 0); [done|].
  intros [= <-] _. exists pieces. simpl. split; [|split; [done|lia]]. symmetry.
  rw (join_splitText (normalizeToLF old)) //. by intros Hn; rw Hn in Hblank.
Qed.
