(* ===== verification/HostPaths.v ===== *)
(** * Paths of the file tools

    Node's [path] on a POSIX host as the file tools use it; the expansion of home and temp
    placeholders ([expandHomePath] of [packages/runtime/kernel/tools/utils.ts]); and the two
    checks every file tool makes before it touches a path: that it is absolute and inside the
    workspace ([resolveFilePath] of [file.ts]), and that it is not protected ([isBlockedPath] of
    [command-safety.ts]).

    [toLowerCase] is the language's table: a parameter.  Replacement strings are taken to hold
    no dollar pattern, so [replace] puts them in as they are. *)

From Corelib Require Import ssreflect.
From stdpp Require Import prelude strings.
From S2P Require Import Prelude Text.

#[local] Open Scope nat_scope.

Definition slash : N := 47%N.
Definition dot : text := u ".".
Definition dotdot : text := u "..".

(** ** Node's [path] *)

Definition isAbsolute (p : text) : bool := startsWith [slash] p.

(** The segments of an absolute path: empty ones and [.] dropped, [..] takes one back. *)
Definition pushSegment (segments : list text) (part : text) : list text :=
  if bool_decide (part = []) || bool_decide (part = dot) then segments
  else if bool_decide (part = dotdot) then removelast segments
  else segments ++ [part].
Definition segmentsOf (p : text) : list text := foldl pushSegment [] (splitOn slash p).

Definition ofSegments (segments : list text) : text := slash :: join [slash] segments.

(** [path.resolve(p)] in the directory [cwd]. *)
Definition resolve (cwd p : text) : text :=
  ofSegments (segmentsOf (if isAbsolute p then p else cwd ++ [slash] ++ p)).

(** [path.join(base, rel)] below an absolute base. *)
Definition joinPath (base rel : text) : text := ofSegments (segmentsOf (base ++ [slash] ++ rel)).

Fixpoint commonPrefix (a b : list text) : nat :=
  match a, b with
  | x :: a, y :: b => if bool_decide (x = y) then S (commonPrefix a b) else 0
  | _, _ => 0
  end.

(** [path.relative(from, to)] between resolved paths. *)
Definition relative (from to : text) : text :=
  let a := segmentsOf from in
  let b := segmentsOf to in
  let n := commonPrefix a b in
  join [slash] (replicate (length a - n) dotdot ++ drop n b).

(** ** Placeholders *)

Definition lowerAscii (c : N) : N := if ((65 <=? c) && (c <=? 90))%N then (c + 32)%N else c.

(** A word character of [\b]. *)
Definition isWord (c : N) : bool :=
  ((48 <=? c) && (c <=? 57) || (65 <=? c) && (c <=? 90) || (97 <=? c) && (c <=? 122) || (c =? 95))%N.

(** What follows a placeholder at the head of a text, the letters in any case if [anyCase], and
    a word boundary after it if [boundary]. *)
Definition afterPlaceholder (anyCase boundary : bool) (placeholder t : text) : option text :=
  let head := take (length placeholder) t in
  let rest := drop (length placeholder) t in
  if bool_decide ((if anyCase then lowerAscii <$> head else head) = (if anyCase then lowerAscii <$> placeholder else placeholder))
     && negb (boundary && match rest with c :: _ => isWord c | [] => false end)
  then Some rest else None.

(** [replace(/.../g, value)]; [skip] units of a match are left to drop. *)
Fixpoint replaceAll (anyCase boundary : bool) (placeholder value : text) (skip : nat) (t : text) : text :=
  match t with
  | [] => []
  | c :: rest =>
      match skip with
      | S skip => replaceAll anyCase boundary placeholder value skip rest
      | O =>
          match afterPlaceholder anyCase boundary placeholder t with
          | Some _ => value ++ replaceAll anyCase boundary placeholder value (length placeholder - 1) rest
          | None => c :: replaceAll anyCase boundary placeholder value 0 rest
          end
      end
  end.

(** [replace(/^~(?=$|[\\/])/, home)] *)
Definition expandTilde (home p : text) : text :=
  match p with
  | c :: rest =>
      if (c =? 126)%N && match rest with d :: _ => (d =? slash)%N || (d =? 92)%N | [] => true end
      then home ++ rest else p
  | [] => []
  end.

(** The environment of the process. *)
Record HostEnv := { userProfile : text; localAppData : text; appData : text; tempDir : text; homedir : text; cwd : text }.

Definition expandHomePath (env : HostEnv) (home value : text) : text :=
  let dollar name (v : text) := replaceAll true true (u "$" ++ name) v 0 in
  let percent name (v : text) := replaceAll true false (u "%" ++ name ++ u "%") v 0 in
  let both name v t := percent name v (dollar name v t) in
  replaceAll false true (u "/tmp") (tempDir env) 0
    (both (u "HOME") home
      (both (u "TMP") (tempDir env)
        (both (u "TEMP") (tempDir env)
          (both (u "APPDATA") (appData env)
            (both (u "LOCALAPPDATA") (localAppData env)
              (both (u "USERPROFILE") (userProfile env) (expandTilde home value))))))).

(** ** The workspace *)

Definition isPathInsideRoot (candidate root : text) : bool :=
  let rel := relative root candidate in
  bool_decide (rel = []) || negb (startsWith dotdot rel) && negb (isAbsolute rel).

Inductive PathError := NotAbsolute | OutsideWorkspace.

(** The context a tool call brings: whose home, and the workspace it is confined to. *)
Record ToolContext := {
  toolHome : option text;
  toolWorkspaceRoot : option text;
  stellaDataDir : option text;
  stellaAppDir : option text;
}.

Definition toolContextHome (env : HostEnv) (context : ToolContext) : text := default (homedir env) (toolHome context).

(** [context?.toolWorkspaceRoot?.trim() || undefined] *)
Definition scopedWorkspaceRoot (context : ToolContext) : option text :=
  match toolWorkspaceRoot context with
  | Some root => if bool_decide (trim root = []) then None else Some root
  | None => None
  end.

Definition requireAbsoluteFilePath (env : HostEnv) (raw home : text) : PathError + text :=
  let expanded := expandHomePath env home raw in
  if isAbsolute expanded then inr (resolve (cwd env) expanded) else inl NotAbsolute.

Definition resolveFilePath (env : HostEnv) (context : ToolContext) (raw : text) : PathError + text :=
  match requireAbsoluteFilePath env raw (toolContextHome env context) with
  | inl error => inl error
  | inr resolvedPath =>
      match scopedWorkspaceRoot context with
      | Some root =>
          if isPathInsideRoot resolvedPath (resolve (cwd env) root) then inr resolvedPath else inl OutsideWorkspace
      | None => inr resolvedPath
      end
  end.

(** ** Protected paths *)

Definition BLOCKED_WRITE_PATH_PREFIXES : list text :=
  u <$> ["/etc/"; "/etc"; "/usr/"; "/usr"; "/bin/"; "/bin"; "/sbin/"; "/sbin"; "/boot/"; "/boot"; "/sys/"; "/sys";
         "/proc/"; "/proc"; "/private/etc/"; "/private/etc"; "/private/var/"; "/private/var"].

Definition BLOCKED_HOME_DIRECTORIES : list text :=
  u <$> [".ssh"; ".aws"; ".gnupg"; ".kube"; ".docker"; ".azure"; ".config/gh"; ".config/gcloud"].

Definition BLOCKED_DEVICE_PATHS : list text :=
  u <$> ["/dev/zero"; "/dev/random"; "/dev/urandom"; "/dev/full"; "/dev/stdin"; "/dev/stdout"; "/dev/stderr";
         "/dev/tty"; "/dev/console"; "/dev/fd/0"; "/dev/fd/1"; "/dev/fd/2"].

Definition SENSITIVE_HOME_FILES : list text :=
  u <$> [".ssh/authorized_keys"; ".ssh/id_rsa"; ".ssh/id_ed25519"; ".ssh/config"; ".bashrc"; ".zshrc"; ".profile";
         ".bash_profile"; ".zprofile"; ".netrc"; ".pgpass"; ".npmrc"; ".pypirc"; ".git-credentials"].

Definition STELLA_CREDENTIAL_FILES : list text :=
  u <$> [".env"; "auth.json"; "auth.lock"; "config.json"; "preferences.json"; "connectors/.credentials.json"].

Definition STELLA_STATE_DIRECTORIES : list text := u <$> ["mcp-tokens"; "pairing"; "skills/.hub"].

Inductive Blocked := BlockedDevice | SensitiveFile | SystemDirectory.

Section Safety.
Context (toLowerCase : text → text) (env : HostEnv).

Definition resolveHomeRelative (candidate : text) : text := resolve (cwd env) (expandTilde (homedir env) candidate).

Definition normalizePath (filePath : text) : text :=
  toLowerCase ((λ c, if (c =? 92)%N then slash else c) <$> resolve (cwd env) (resolveHomeRelative filePath)).

(** [replace(/\/+$/u, "")] *)
Fixpoint trimSlashes (t : text) : text :=
  match t with
  | [] => []
  | c :: rest => match trimSlashes rest with [] => if (c =? slash)%N then [] else [c] | kept => c :: kept end
  end.

Definition normalizePrefix (prefix : text) : text := trimSlashes (normalizePath prefix).

Definition pathMatchesPrefix (normalized prefix : text) : bool :=
  bool_decide (normalized = normalizePrefix prefix) || startsWith (normalizePrefix prefix ++ [slash]) normalized.

Definition stellaDataDirsForContext (stellaDataDirEnv : option text) (context : ToolContext) : list text :=
  let homes := [stellaDataDir context; stellaDataDirEnv; Some (joinPath (homedir env) (u ".stella")); stellaAppDir context] in
  resolve (cwd env) <$> filter (λ entry, trim entry ≠ []) (omap id homes).

(** [/^\/proc\/\d+\/fd\/[0-2]$/u], on the parts of the path. *)
Definition isProcFd (normalized : text) : bool :=
  match splitOn slash normalized with
  | [a; b; c; d; e] =>
      bool_decide (a = []) && bool_decide (b = u "proc") && negb (bool_decide (c = []))
      && forallb (λ x, (48 <=? x) && (x <=? 57))%N c && bool_decide (d = u "fd")
      && (bool_decide (e = u "0") || bool_decide (e = u "1") || bool_decide (e = u "2"))
  | _ => false
  end.

Definition isBlockedDevice (normalized : text) : bool :=
  bool_decide (normalized ∈ BLOCKED_DEVICE_PATHS) || isProcFd normalized.

Definition isSensitiveHomePath (normalized home : text) : bool :=
  existsb (λ rel, bool_decide (normalized = normalizePath (joinPath home rel))) SENSITIVE_HOME_FILES.

Definition isSensitiveStellaPath (stellaDataDirEnv : option text) (normalized : text) (context : ToolContext) : bool :=
  existsb (λ home,
      existsb (λ rel, bool_decide (normalized = normalizePath (joinPath home rel))) STELLA_CREDENTIAL_FILES
      || existsb (λ rel, pathMatchesPrefix normalized (joinPath home rel)) STELLA_STATE_DIRECTORIES)
    (stellaDataDirsForContext stellaDataDirEnv context).

Definition isBlockedPath (stellaDataDirEnv : option text) (context : ToolContext) (filePath : text) : option Blocked :=
  let normalized := normalizePath filePath in
  let home := toolContextHome env context in
  if isBlockedDevice normalized then Some BlockedDevice
  else if isSensitiveHomePath normalized home || isSensitiveStellaPath stellaDataDirEnv normalized context
  then Some SensitiveFile
  else if existsb (pathMatchesPrefix normalized)
            (BLOCKED_WRITE_PATH_PREFIXES ++ (joinPath home <$> BLOCKED_HOME_DIRECTORIES))
  then Some SystemDirectory
  else None.
End Safety.

(** ** Resolved paths *)

(** What a segment of a resolved path is. *)
Definition goodSegment (s : text) : Prop := s ≠ [] ∧ s ≠ dot ∧ s ≠ dotdot ∧ slash ∉ s.

Lemma Forall_removelast {A} (P : A → Prop) l : Forall P l → Forall P (removelast l).
Proof.
  intros H. induction H as [|x l Hx H IH]; [done|]. destruct l as [|y l]; [constructor|]. by constructor.
Qed.

Lemma pushSegments_good segments parts :
  Forall goodSegment segments → Forall (λ p, slash ∉ p) parts → Forall goodSegment (foldl pushSegment segments parts).
Proof.
  intros Hs H. induction H as [|part parts Hp H IH] in segments, Hs |- *; [done|]. simpl. apply IH. unfold pushSegment.
  destruct (bool_decide_reflect (part = [])) as [->|Hne]; [done|].
  destruct (bool_decide_reflect (part = dot)) as [->|Hd]; [done|]. cbn [orb].
  case_bool_decide; [by apply Forall_removelast|]. by apply Forall_app; split; [|apply Forall_singleton].
Qed.

Lemma segmentsOf_good p : Forall goodSegment (segmentsOf p).
Proof. apply pushSegments_good; [constructor|apply splitOn_piece]. Qed.

Lemma pushSegments_app segments parts :
  Forall goodSegment parts → foldl pushSegment segments parts = segments ++ parts.
Proof.
  intros H. induction H as [|part parts (Hn & Hd & Hdd & _) H IH] in segments |- *; [by rw app_nil_r|].
  simpl. unfold pushSegment at 2. rw !bool_decide_false // /= IH -app_assoc //.
Qed.

Lemma splitOn_slash_segments segments :
  Forall goodSegment segments →
  foldl pushSegment [] (splitOn slash (ofSegments segments)) = segments.
Proof.
  intros H. unfold ofSegments. change (slash :: join [slash] segments) with ([] ++ slash :: join [slash] segments).
  rw splitOn_cons_piece; [apply not_elem_of_nil|]. destruct segments as [|s segments]; [done|].
  rw splitOn_join //; [by eapply Forall_impl; [apply H|intros x (_ & _ & _ & ?)]|]. simpl.
  by apply (pushSegments_app [] (s :: segments)).
Qed.

Lemma segmentsOf_ofSegments segments : Forall goodSegment segments → segmentsOf (ofSegments segments) = segments.
Proof. apply splitOn_slash_segments. Qed.

Lemma segmentsOf_resolve cwd p :
  segmentsOf (resolve cwd p) = segmentsOf (if isAbsolute p then p else cwd ++ [slash] ++ p).
Proof. apply segmentsOf_ofSegments, segmentsOf_good. Qed.

Lemma isAbsolute_ofSegments segments : isAbsolute (ofSegments segments) = true.
Proof. done. Qed.

Lemma resolve_ofSegments cwd segments :
  Forall goodSegment segments → resolve cwd (ofSegments segments) = ofSegments segments.
Proof. intros H. unfold resolve. rw isAbsolute_ofSegments segmentsOf_ofSegments //. Qed.

Lemma resolve_resolved cwd p : resolve cwd (resolve cwd p) = resolve cwd p.
Proof. apply resolve_ofSegments, segmentsOf_good. Qed.

(** ** Inside the workspace *)

Lemma commonPrefix_spec a b :
  take (commonPrefix a b) a = take (commonPrefix a b) b ∧ commonPrefix a b ≤ length a.
Proof.
  induction a as [|x a IH] in b |- *; [by destruct b|]. destruct b as [|y b]; [by simpl; split; [|lia]|]. cbn [commonPrefix].
  case_bool_decide as Hxy; simpl; [|split; [done|lia]]. destruct (IH b) as [-> ?]. split; [by subst|lia].
Qed.

Lemma commonPrefix_app a rest : commonPrefix a (a ++ rest) = length a.
Proof. induction a as [|x a IH]; [by destruct rest|]. simpl. by rw bool_decide_true // IH. Qed.

Lemma join_segment_nonempty s rest : goodSegment s → join [slash] (s :: rest) ≠ [].
Proof. intros (Hn & _). destruct s as [|c s]; [done|]. by destruct rest. Qed.

Lemma isAbsolute_join_segment s rest : goodSegment s → isAbsolute (join [slash] (s :: rest)) = false.
Proof.
  intros (Hn & _ & _ & Hs). destruct s as [|c s]; [done|]. rw not_elem_of_cons in Hs. destruct Hs as [Hc _].
  destruct rest; unfold isAbsolute; cbn [join startsWith app]; by destruct (N.eqb_spec slash c).
Qed.

Lemma startsWith_join_segment s rest :
  goodSegment s → startsWith dotdot (join [slash] (s :: rest)) = startsWith dotdot s.
Proof.
  intros (Hn & Hd & Hdd & Hs). destruct rest as [|r rest]; [done|]. rw join_cons //.
  destruct s as [|a [|b s]]; [done| |done]. simpl. by rw !andb_false_r.
Qed.

(** The test for the workspace, on segments: a path below the root whose first segment there
    does not start with two dots. *)
Lemma isPathInsideRoot_spec candidate root :
  isPathInsideRoot candidate root = true ↔
    ∃ rest, segmentsOf candidate = segmentsOf root ++ rest
            ∧ match rest with s :: _ => startsWith dotdot s = false | [] => True end.
Proof.
  unfold isPathInsideRoot, relative. set (a := segmentsOf root). set (b := segmentsOf candidate).
  assert (Hb : Forall goodSegment b) by apply segmentsOf_good.
  destruct (commonPrefix_spec a b) as [Ht Hle]. set (n := commonPrefix a b) in *. split.
  - intros H. assert (Hn : n = length a).
    { destruct (decide (n = length a)) as [|Hne]; [done|]. destruct (length a - n) as [|k] eqn:E; [lia|].
      apply orb_true_iff in H as [H|H].
      - apply bool_decide_eq_true in H. apply (f_equal length) in H. revert H. simpl. by destruct (replicate k dotdot ++ drop n b).
      - apply andb_true_iff in H as [H _]. apply negb_true_iff in H. revert H. simpl.
        by destruct (replicate k dotdot ++ drop n b). }
    exists (drop n b). rw -{1}(take_drop n b) -Ht Hn firstn_all. split; [done|]. rw Hn Nat.sub_diag in H. cbn [replicate app] in H.
    destruct (drop (length a) b) as [|s rest] eqn:E; [done|].
    assert (Hs := Forall_drop _ (length a) _ Hb). rw E in Hs. apply Forall_cons in Hs as [Hs _].
    apply orb_true_iff in H as [H|H].
    + apply bool_decide_eq_true in H. by apply join_segment_nonempty in H.
    + apply andb_true_iff in H as [H _]. apply negb_true_iff in H. by rw (startsWith_join_segment s rest Hs) in H.
  - intros (rest & Hseg & Hrest). assert (n = length a) as -> by (unfold n; rw Hseg commonPrefix_app //).
    rw Nat.sub_diag Hseg drop_app_length. cbn [replicate app]. destruct rest as [|s rest]; [done|].
    rw Hseg in Hb. apply Forall_app in Hb as [_ [Hs _]%Forall_cons]. rw startsWith_join_segment // Hrest.
    apply orb_true_iff. right. by rw isAbsolute_join_segment.
Qed.

Lemma splitOn_app_sep c a b : splitOn c (a ++ c :: b) = splitOn c a ++ splitOn c b.
Proof.
  induction a as [|d a IH]; cbn [splitOn app]; [by rw N.eqb_refl|]. destruct (N.eqb_spec d c); [by rw IH|].
  rw IH. by destruct (splitOn c a) eqn:E; [destruct (splitOn_nonempty c a)|].
Qed.

Lemma segmentsOf_below base rel : segmentsOf (base ++ slash :: rel) = foldl pushSegment (segmentsOf base) (splitOn slash rel).
Proof. unfold segmentsOf. rw splitOn_app_sep foldl_app //. Qed.

(** A path a file tool goes on with is absolute and normal, and in a call confined to a
    workspace it lies below the workspace's root, however the path it was given was spelled. *)
Theorem resolved_path_is_confined env context raw root p :
  resolveFilePath env context raw = inr p → scopedWorkspaceRoot context = Some root →
  ∃ rest, p = ofSegments (segmentsOf (resolve (cwd env) root) ++ rest) ∧ Forall goodSegment rest.
Proof.
  unfold resolveFilePath, requireAbsoluteFilePath. set (expanded := expandHomePath _ _ _).
  destruct (isAbsolute expanded) eqn:Ha; [|done]. intros Hp Hroot. rw Hroot in Hp.
  destruct (isPathInsideRoot _ _) eqn:Hin; [|done]. injection Hp as <-.
  apply isPathInsideRoot_spec in Hin as (rest & Hseg & _). exists rest. rw -Hseg segmentsOf_resolve Ha. split.
  - unfold resolve. by rw Ha.
  - assert (Hg := segmentsOf_good (resolve (cwd env) expanded)). rw Hseg in Hg. by apply Forall_app in Hg as [_ ?].
Qed.

Lemma resolved_path_is_confined_witness :
  let env := {| userProfile := u "/home/me"; localAppData := []; appData := []; tempDir := u "/tmp";
                homedir := u "/home/me"; cwd := u "/" |} in
  let context := {| toolHome := None; toolWorkspaceRoot := Some (u "/srv/work"); stellaDataDir := None; stellaAppDir := None |} in
  ∃ rest, u "/srv/work/a/c" = ofSegments (segmentsOf (resolve (cwd env) (u "/srv/work")) ++ rest) ∧ Forall goodSegment rest.
Proof.
  intros env context.
  by apply (resolved_path_is_confined env context (u "/srv/./work/../work//a/b/../c") (u "/srv/work")); vm_compute.
Defined.

(** ** Protected directories *)

Section Protected.
Context (toLowerCase : text → text) (env : HostEnv) (stellaDataDirEnv : option text) (context : ToolContext).

(** A slash separates what lower-casing looks at, and lower-case ASCII stays as it is. *)
Hypothesis lower_slash : ∀ a b, toLowerCase (a ++ slash :: b) = toLowerCase a ++ slash :: toLowerCase b.
Hypothesis lower_ascii : ∀ t, Forall (λ c, (c < 128)%N ∧ lowerAscii c = c) t → toLowerCase t = t.

(** How the check compares names. *)
Definition foldName (s : text) : text := toLowerCase ((λ c, if (c =? 92)%N then slash else c) <$> s).
Definition foldNames (segments : list text) : text := segments ≫= λ s, slash :: foldName s.

Lemma foldNames_app a b : foldNames (a ++ b) = foldNames a ++ foldNames b.
Proof. apply bind_app. Qed.

Lemma normalize_segments segments :
  segments ≠ [] → toLowerCase ((λ c, if (c =? 92)%N then slash else c) <$> ofSegments segments) = foldNames segments.
Proof.
  intros Hne. assert (Hnil : toLowerCase [] = []) by (apply lower_ascii; constructor).
  assert (H : ∀ s rest, toLowerCase ((λ c, if (c =? 92)%N then slash else c) <$> join [slash] (s :: rest))
                        = foldName s ++ foldNames rest).
  { intros s rest. induction rest as [|r rest IH] in s |- *; [by rw app_nil_r|]. rw join_cons // !fmap_app.
    cbn [fmap list_fmap app]. rw lower_slash IH. done. }
  destruct segments as [|s rest]; [done|]. assert (E := lower_slash [] ((λ c, if (c =? 92)%N then slash else c) <$> join [slash] (s :: rest))).
  rw Hnil H in E. exact E.
Qed.

Lemma normalizePath_segments p :
  isAbsolute p = true → segmentsOf p ≠ [] → normalizePath toLowerCase env p = foldNames (segmentsOf p).
Proof.
  intros Ha Hne. unfold normalizePath, resolveHomeRelative.
  assert (expandTilde (homedir env) p = p) as ->.
  { destruct p as [|c p]; [done|]. unfold isAbsolute in Ha. cbn [startsWith] in Ha. apply andb_true_iff in Ha as [Hc _].
    apply N.eqb_eq in Hc as <-. done. }
  rw resolve_resolved. unfold resolve at 1. rw Ha normalize_segments //.
Qed.

(** A plain name: lower-case ASCII without a separator. *)
Definition plainName (s : text) : bool :=
  negb (bool_decide (s = [])) && forallb (λ c, (c <? 128) && (lowerAscii c =? c) && negb (c =? 92) && negb (c =? slash))%N s.

Lemma foldName_plain s : plainName s = true → foldName s = s ∧ trimSlashes s = s ∧ s ≠ [].
Proof.
  unfold plainName. rw andb_true_iff negb_true_iff bool_decide_eq_false forallb_forall. intros [Hne H].
  assert (Hall : ∀ c, c ∈ s → (c < 128)%N ∧ lowerAscii c = c ∧ c ≠ 92%N ∧ c ≠ slash).
  { intros c Hc. apply list_elem_of_In, H in Hc. rw !andb_true_iff !negb_true_iff N.ltb_lt !N.eqb_neq N.eqb_eq in Hc. tauto. }
  split; [|split; [|done]].
  - unfold foldName. assert (E : (λ c, if (c =? 92)%N then slash else c) <$> s = s).
    { rw -{2}(list_fmap_id s). apply list_fmap_ext. intros i c Hi. simpl. apply list_elem_of_lookup_2, Hall in Hi as (_ & _ & Hc & _).
      by destruct (N.eqb_spec c 92). }
    rw E. apply lower_ascii, Forall_forall. intros c Hc. apply Hall in Hc. tauto.
  - clear Hne H. induction s as [|c s IH]; [done|]. cbn [trimSlashes]. rw IH; [by intros d Hd; apply Hall; right|].
    destruct s; [|done]. destruct (Hall c) as (_ & _ & _ & Hc); [by left|]. by destruct (N.eqb_spec c slash).
Qed.

Lemma trimSlashes_app a b : trimSlashes b ≠ [] → trimSlashes (a ++ b) = a ++ trimSlashes b.
Proof.
  intros Hb. induction a as [|c a IH]; [done|]. cbn [app trimSlashes]. rw IH. by destruct (a ++ trimSlashes b) eqn:E; [apply app_nil in E as [_ ?]|].
Qed.

(** Everything below a directory with a plain name matches its prefix. *)
Lemma pathMatchesPrefix_below dir name p segments rest :
  isAbsolute dir = true → segmentsOf dir = segments ++ [name] → plainName name = true →
  isAbsolute p = true → ∀ names, segmentsOf p = names ++ rest → Forall2 (λ s d, foldName s = foldName d) names (segmentsOf dir) →
  pathMatchesPrefix toLowerCase env (normalizePath toLowerCase env p) dir = true.
Proof.
  intros Had Hdir Hplain Hap names Hp Hnames. destruct (foldName_plain name Hplain) as (Hf & Ht & Hne).
  assert (Hpre : foldNames names = foldNames (segmentsOf dir)).
  { clear -Hnames. unfold foldNames. induction Hnames as [|s d ss ds Hs H IH]; [done|]. by rw !bind_cons Hs IH. }
  assert (Hn : normalizePath toLowerCase env p = foldNames (segmentsOf dir) ++ foldNames rest).
  { rw normalizePath_segments // Hp ?foldNames_app ?Hpre //. intros [-> _]%app_nil. apply Forall2_nil_inv_l in Hnames.
    rw Hdir in Hnames. by apply app_nil in Hnames as [_ ?]. }
  assert (Hd : normalizePrefix toLowerCase env dir = foldNames (segmentsOf dir)).
  { unfold normalizePrefix. rw normalizePath_segments // Hdir; [by intros [_ ?]%app_nil|]. rw foldNames_app.
    unfold foldNames at 2 4. rw /= app_nil_r Hf. change (slash :: name) with ([slash] ++ name).
    rw app_assoc trimSlashes_app Ht //. }
  unfold pathMatchesPrefix. rw Hd Hn. destruct rest as [|r rest].
  - apply orb_true_iff. left. apply bool_decide_eq_true. by rw app_nil_r.
  - apply orb_true_iff. right. apply startsWith_spec. eexists. unfold foldNames at 2. rw bind_cons -app_assoc. done.
Qed.

Definition systemDirectories : list text :=
  u <$> ["/etc"; "/usr"; "/bin"; "/sbin"; "/boot"; "/sys"; "/proc"; "/private/etc"; "/private/var"].
Definition protectedDirectories (home : text) : list text := systemDirectories ++ (joinPath home <$> BLOCKED_HOME_DIRECTORIES).

Definition endsPlain (segments : list text) : Prop := ∃ init name, segments = init ++ [name] ∧ plainName name = true.

Lemma endsPlain_push base parts :
  forallb (λ p, plainName p && negb (bool_decide (p = dot)) && negb (bool_decide (p = dotdot))) parts = true →
  parts ≠ [] → endsPlain (foldl pushSegment base parts).
Proof.
  intros H Hne. rw forallb_forall in H. destruct (exists_last Hne) as (init & name & ->). exists (foldl pushSegment base init), name.
  assert (Hn : plainName name && negb (bool_decide (name = dot)) && negb (bool_decide (name = dotdot)) = true)
    by (apply H, list_elem_of_In, elem_of_app; by right; left).
  apply andb_true_iff in Hn as [Hn Hdd]. apply andb_true_iff in Hn as [Hp Hd].
  apply negb_true_iff in Hd, Hdd. split; [|exact Hp].
  rw foldl_app /=. unfold pushSegment at 1. rw Hd Hdd. unfold plainName in Hp. apply andb_true_iff in Hp as [Hp _].
  apply negb_true_iff in Hp. by rw Hp.
Qed.

Lemma protectedDirectories_plain home dir :
  dir ∈ protectedDirectories home → isAbsolute dir = true ∧ endsPlain (segmentsOf dir).
Proof.
  unfold protectedDirectories. rw elem_of_app list_elem_of_fmap. intros [Hd|(rel & -> & Hrel)].
  - assert (H : forallb (λ d, isAbsolute d && match splitOn slash d with
                                              | [] :: parts => negb (bool_decide (parts = [])) &&
                                                  forallb (λ p, plainName p && negb (bool_decide (p = dot)) && negb (bool_decide (p = dotdot))) parts
                                              | _ => false end) systemDirectories = true) by by vm_compute.
    rw forallb_forall in H. apply list_elem_of_In, H, andb_true_iff in Hd as [? Hp]. split; [done|].
    unfold segmentsOf. destruct (splitOn slash dir) as [|[|] parts]; [done| |done].
    apply andb_true_iff in Hp as [Hn Hp]. apply negb_true_iff, bool_decide_eq_false in Hn. by apply (endsPlain_push [] parts).
  - split; [done|]. unfold joinPath. rw segmentsOf_ofSegments; [apply segmentsOf_good|].
    change (home ++ [slash] ++ rel) with (home ++ slash :: rel). rw segmentsOf_below.
    assert (H : forallb (λ d, forallb (λ p, plainName p && negb (bool_decide (p = dot)) && negb (bool_decide (p = dotdot)))
                                 (splitOn slash d)) BLOCKED_HOME_DIRECTORIES = true) by by vm_compute.
    rw forallb_forall in H. apply list_elem_of_In, H in Hrel. apply endsPlain_push; [done|apply splitOn_nonempty].
Qed.

(** C20: No file tool touches what lies at or below a system directory or a credential directory
    of the home, however the path is spelled: relative segments, doubled slashes and other
    letter cases of the directory's name do not get past the check. *)
Theorem protected_directories_are_blocked dir p names rest :
  dir ∈ protectedDirectories (toolContextHome env context) → isAbsolute p = true →
  segmentsOf p = names ++ rest → Forall2 (λ s d, foldName s = foldName d) names (segmentsOf dir) →
  isBlockedPath toLowerCase env stellaDataDirEnv context p ≠ None.
Proof.
  intros Hdir Ha Hp Hnames. destruct (protectedDirectories_plain _ _ Hdir) as [Had (init & name & Hend & Hplain)].
  assert (Hm := pathMatchesPrefix_below dir name p init rest Had Hend Hplain Ha names Hp Hnames).
  unfold isBlockedPath. destruct (isBlockedDevice _); [done|]. destruct (_ || _); [done|].
  destruct (existsb _ _) eqn:E; [done|]. exfalso. apply not_true_iff_false in E. apply E, existsb_exists.
  exists dir. split; [|done]. apply list_elem_of_In. unfold protectedDirectories in Hdir.
  apply elem_of_app in Hdir as [Hdir|Hdir]; [|by apply elem_of_app; right].
  apply elem_of_app. left. revert Hdir. clear.
  assert (H : forallb (λ d, bool_decide (d ∈ BLOCKED_WRITE_PATH_PREFIXES)) systemDirectories = true) by by vm_compute.
  rw forallb_forall in H. intros Hd. apply list_elem_of_In, H in Hd. by apply bool_decide_eq_true in Hd.
Qed.
End Protected.

Lemma lowerAscii_slash a b : fmap lowerAscii (a ++ slash :: b) = fmap lowerAscii a ++ slash :: fmap lowerAscii b.
Proof. by rw fmap_app. Qed.

Lemma lowerAscii_id t : Forall (λ c, (c < 128)%N ∧ lowerAscii c = c) t → fmap lowerAscii t = t.
Proof. intros H. induction H as [|c t [_ Hc] H IH]; [done|]. by rw fmap_cons Hc IH. Qed.

(** The key files of the home, in other letters and through another directory. *)
Lemma protected_directories_are_blocked_witness :
  let env := {| userProfile := []; localAppData := []; appData := []; tempDir := u "/tmp"; homedir := u "/home/me"; cwd := u "/" |} in
  let context := {| toolHome := None; toolWorkspaceRoot := None; stellaDataDir := None; stellaAppDir := None |} in
  isBlockedPath (fmap lowerAscii) env None context (u "/home//you/../me/.SSH/known_hosts") ≠ None.
Proof.
  intros env context.
  apply (protected_directories_are_blocked (fmap lowerAscii) env None context
           lowerAscii_slash lowerAscii_id
           (u "/home/me/.ssh") _ [u "home"; u "me"; u ".SSH"] [u "known_hosts"]).
  - by vm_compute; repeat (try (by left); right).
  - done.
  - by vm_compute.
  - by vm_compute; repeat constructor.
Defined.

(** [/\/tmp/g] is not anchored: where the temp directory is not [/tmp], a directory called
    [tmp] anywhere in a path is taken for it, and the tool goes on with another file. *)
Example nested_tmp_is_redirected :
  let env := {| userProfile := u "/Users/me"; localAppData := []; appData := []; tempDir := u "/var/folders/x/T";
                homedir := u "/Users/me"; cwd := u "/" |} in
  let context := {| toolHome := None; toolWorkspaceRoot := None; stellaDataDir := None; stellaAppDir := None |} in
  resolveFilePath env context (u "/Users/me/app/tmp/cache.json") = inr (u "/Users/me/app/var/folders/x/T/cache.json").
Proof. by vm_compute. Qed.

(** A name that starts with two dots is taken for a way out of the workspace. *)
Example dotted_name_is_refused :
  let env := {| userProfile := []; localAppData := []; appData := []; tempDir := u "/tmp"; homedir := u "/home/me"; cwd := u "/" |} in
  let context := {| toolHome := None; toolWorkspaceRoot := Some (u "/w"); stellaDataDir := None; stellaAppDir := None |} in
  resolveFilePath env context (u "/w/..notes.md") = inl OutsideWorkspace.
Proof. by vm_compute. Qed.
