(* ===== verification/PatchParse.v ===== *)
(** * The patch envelope

    The parser of [packages/runtime/kernel/tools/apply-patch.ts] ([parsePatch]): the envelope a
    model sends, from [*** Begin Patch] to [*** End Patch], as a list of file operations.  The
    loops over the lines are recursive functions that return the lines left; those whose next
    turn starts further on take the number of lines as fuel.  A thrown error is a value. *)

From Corelib Require Import ssreflect.
From stdpp Require Import prelude strings.
From S2P Require Import Prelude Text EditDiff HostPaths.

#[local] Open Scope nat_scope.

Inductive HunkLine := Context_ (line : text) | Remove (line : text) | Add (line : text).

Record Hunk := { header : option text; hunkLines : list HunkLine; isEndOfFile : bool }.

Inductive FileOp :=
  | AddFile (path : text) (lines : list text)
  | DeleteFile (path : text)
  | UpdateFile (path : text) (moveTo : option text) (hunks : list Hunk).

Inductive PatchError :=
  | NoFilePath
  | NoBegin
  | BadAddLine (line : text)
  | NoHunkHeader (line : text)
  | BadHunkLine (line : text)
  | EmptyHunk
  | NoHunks
  | UnexpectedLine (line : text)
  | NoEnd.

Definition normalizeRawPath (env : HostEnv) (home raw : text) : PatchError + text :=
  let expanded := expandHomePath env home (trim raw) in
  if bool_decide (expanded = []) then inl NoFilePath else inr expanded.

Definition endsWith (suffix t : text) : bool := bool_decide (drop (length t - length suffix) t = suffix).

Definition stripHeredocWrapper (t : text) : text :=
  let lines := splitOn newline t in
  if length lines <? 4 then t
  else
    let first := default [] (head lines) in
    let last := default [] (last lines) in
    let isOpen :=
      bool_decide (first = u "<<EOF") || bool_decide (first = u "<<'EOF'")
      || bool_decide (first = u "<<" ++ [34%N] ++ u "EOF" ++ [34%N]) in
    if isOpen && endsWith (u "EOF") last then join [newline] (removelast (tail lines)) else t.

Definition BEGIN_PATCH := u "*** Begin Patch".
Definition END_PATCH := u "*** End Patch".
Definition ADD_FILE := u "*** Add File: ".
Definition DELETE_FILE := u "*** Delete File: ".
Definition UPDATE_FILE := u "*** Update File: ".
Definition MOVE_TO := u "*** Move to: ".
Definition END_OF_FILE := u "*** End of File".
Definition STARS := u "*** ".
Definition AT := u "@@".

(** [text.slice(prefix.length)] of a text with that prefix. *)
Definition afterText (prefix t : text) : option text :=
  if startsWith prefix t then Some (drop (length prefix) t) else None.

(** The lines under [*** Add File], and the lines left. *)
Fixpoint addLines (lines : list text) : PatchError + (list text * list text) :=
  match lines with
  | [] => inr ([], [])
  | next :: rest =>
      if startsWith STARS next then inr ([], lines)
      else match next with
           | c :: body =>
               if (c =? 43)%N then
                 match addLines rest with
                 | inl error => inl error
                 | inr (collected, remaining) => inr (body :: collected, remaining)
                 end
               else inl (BadAddLine next)
           | [] => inl (BadAddLine next)
           end
  end.

(** The lines of a chunk, whether it ends the file, and the lines left. *)
Fixpoint chunkLines (lines : list text) : PatchError + (list HunkLine * bool * list text) :=
  match lines with
  | [] => inr ([], false, [])
  | candidate :: rest =>
      if bool_decide (candidate = END_OF_FILE) then inr ([], true, rest)
      else if startsWith STARS candidate then inr ([], false, lines)
      else if startsWith AT candidate then inr ([], false, lines)
      else
        let line : PatchError + HunkLine :=
          match candidate with
          | [] => inr (Context_ [])
          | c :: body =>
              if (c =? 43)%N then inr (Add body)
              else if (c =? 45)%N then inr (Remove body)
              else if (c =? 32)%N then inr (Context_ body)
              else inl (BadHunkLine candidate)
          end in
        match line with
        | inl error => inl error
        | inr line =>
            match chunkLines rest with
            | inl error => inl error
            | inr (collected, eof, remaining) => inr (line :: collected, eof, remaining)
            end
        end
  end.

(** The chunks of an update; [started] says that there is one already. *)
Fixpoint chunks (fuel : nat) (started : bool) (lines : list text) : PatchError + (list Hunk * list text) :=
  match fuel, lines with
  | O, _ | _, [] => inr ([], lines)
  | S fuel, next :: rest =>
      let collect header lines :=
        match chunkLines lines with
        | inl error => inl error
        | inr (collected, eof, remaining) =>
            if bool_decide (collected = []) && negb eof then inl EmptyHunk
            else
              match chunks fuel true remaining with
              | inl error => inl error
              | inr (hunks, remaining) =>
                  inr ({| header := header; hunkLines := collected; isEndOfFile := eof |} :: hunks, remaining)
              end
        end in
      if startsWith STARS next && negb (bool_decide (next = END_OF_FILE)) then inr ([], lines)
      else if bool_decide (trim next = []) then chunks fuel started rest
      else
        match afterText AT next with
        | Some after => collect (if bool_decide (trim after = []) then None else Some (trim after)) rest
        | None => if started then inl (NoHunkHeader next) else collect None lines
        end
  end.

(** The operations up to the end of the envelope. *)
Fixpoint parseOps (env : HostEnv) (home : text) (fuel : nat) (lines : list text) : PatchError + list FileOp :=
  match fuel, lines with
  | O, _ | _, [] => inl NoEnd
  | S fuel, line :: rest =>
      let continue op lines :=
        match parseOps env home fuel lines with
        | inl error => inl error
        | inr ops => inr (op :: ops)
        end in
      if bool_decide (trim line = END_PATCH) then inr []
      else match afterText ADD_FILE line with
      | Some raw =>
          match normalizeRawPath env home raw, addLines rest with
          | inl error, _ | _, inl error => inl error
          | inr path, inr (collected, rest) => continue (AddFile path collected) rest
          end
      | None =>
      match afterText DELETE_FILE line with
      | Some raw =>
          match normalizeRawPath env home raw with
          | inl error => inl error
          | inr path => continue (DeleteFile path) rest
          end
      | None =>
      match afterText UPDATE_FILE line with
      | Some raw =>
          match normalizeRawPath env home raw with
          | inl error => inl error
          | inr path =>
              let move : PatchError + (option text * list text) :=
                match rest with
                | next :: rest' =>
                    match afterText MOVE_TO next with
                    | Some raw =>
                        match normalizeRawPath env home raw with
                        | inl error => inl error
                        | inr target => inr (Some target, rest')
                        end
                    | None => inr (None, rest)
                    end
                | [] => inr (None, [])
                end in
              match move with
              | inl error => inl error
              | inr (moveTo, rest) =>
                  match chunks (S (length rest)) false rest with
                  | inl error => inl error
                  | inr ([], _) => inl NoHunks
                  | inr (hunks, rest) => continue (UpdateFile path moveTo hunks) rest
                  end
              end
          end
      | None => if bool_decide (trim line = []) then parseOps env home fuel rest else inl (UnexpectedLine line)
      end end end
  end.

Definition parsePatch (env : HostEnv) (home input : text) : PatchError + list FileOp :=
  let normalized := trim (crlfToLf input) in
  match splitOn newline (stripHeredocWrapper normalized) with
  | first :: rest =>
      if bool_decide (trim first = BEGIN_PATCH) then parseOps env home (S (length rest)) rest else inl NoBegin
  | [] => inl NoBegin
  end.

Definition opPaths (op : FileOp) : list text :=
  match op with
  | AddFile path _ | DeleteFile path => [path]
  | UpdateFile path (Some moveTo) _ => [path; moveTo]
  | UpdateFile path None _ => [path]
  end.

(** [extractApplyPatchTargetPaths], for the home of the process. *)
Definition extractApplyPatchTargetPaths (env : HostEnv) (patch : text) : PatchError + list text :=
  match parsePatch env (homedir env) patch with
  | inl error => inl error
  | inr ops => inr (ops ≫= opPaths)
  end.

(** ** The fuel is enough *)

Lemma addLines_shorter lines collected rest : addLines lines = inr (collected, rest) → length rest ≤ length lines.
Proof.
  induction lines as [|next lines IH] in collected, rest |- *; cbn [addLines]; [by intros [= _ <-]|].
  destruct (startsWith STARS next); [by intros [= _ <-]|]. destruct next as [|c body]; [done|].
  destruct (c =? 43)%N; [|done]. destruct (addLines lines) as [|[collected' rest']] eqn:E; [done|].
  intros [= _ <-]. specialize (IH _ _ eq_refl). simpl. lia.
Qed.

Lemma chunkLines_shorter lines collected eof rest :
  chunkLines lines = inr (collected, eof, rest) →
  length rest ≤ length lines ∧ (collected ≠ [] ∨ eof = true → length rest < length lines).
Proof.
  induction lines as [|next lines IH] in collected, eof, rest |- *; cbn [chunkLines].
  { intros [= <- <- <-]. split; [done|]. by intros [?|?]. }
  destruct (bool_decide (next = END_OF_FILE)); [intros [= <- <- <-]; simpl; split; lia|].
  destruct (startsWith STARS next || startsWith AT next) eqn:Hstop.
  { apply orb_true_iff in Hstop. destruct (startsWith STARS next); [by intros [= <- <- <-]; split; [|intros [?|?]]|].
    destruct Hstop as [?|Hat]; [done|]. rw Hat. by intros [= <- <- <-]; split; [|intros [?|?]]. }
  apply orb_false_iff in Hstop as [-> ->]. destruct (match next with [] => _ | _ => _ end); [done|].
  destruct (chunkLines lines) as [|[[collected' eof'] rest']] eqn:E; [done|]. intros [= <- <- <-].
  destruct (IH _ _ _ eq_refl) as [? _]. simpl. split; lia.
Qed.

(** More fuel than lines changes nothing. *)
Lemma chunks_fuel fuel fuel' started lines :
  length lines < fuel → length lines < fuel' → chunks fuel started lines = chunks fuel' started lines.
Proof.
  induction fuel as [|fuel IH] in fuel', started, lines |- *; [lia|]. destruct fuel' as [|fuel']; [lia|].
  destruct lines as [|next rest]; [done|]. intros Hf Hf'. simpl in Hf, Hf'. cbn [chunks].
  destruct (startsWith STARS next && negb (bool_decide (next = END_OF_FILE))); [done|].
  destruct (bool_decide (trim next = [])); [apply IH; lia|].
  assert (Hgo : ∀ h lines, length lines ≤ S (length rest) →
    match chunkLines lines with
    | inl error => inl error
    | inr (collected, eof, remaining) =>
        if bool_decide (collected = []) && negb eof then inl EmptyHunk
        else match chunks fuel true remaining with
             | inl error => inl error
             | inr (hunks, remaining) => inr ({| header := h; hunkLines := collected; isEndOfFile := eof |} :: hunks, remaining)
             end
    end =
    match chunkLines lines with
    | inl error => inl error
    | inr (collected, eof, remaining) =>
        if bool_decide (collected = []) && negb eof then inl EmptyHunk
        else match chunks fuel' true remaining with
             | inl error => inl error
             | inr (hunks, remaining) => inr ({| header := h; hunkLines := collected; isEndOfFile := eof |} :: hunks, remaining)
             end
    end).
  { intros h lines Hl. destruct (chunkLines lines) as [|[[collected eof] remaining]] eqn:E; [done|].
    destruct (bool_decide_reflect (collected = [])) as [Hc|Hc]; destruct eof; cbn [andb negb]; try done;
      (rw (IH fuel' true remaining) //; apply chunkLines_shorter in E as [_ E]; [specialize (E ltac:(auto)); lia..]). }
  destruct (afterText AT next); [by apply Hgo; simpl; lia|]. destruct started; [done|]. by apply Hgo.
Qed.

Lemma chunks_shorter fuel started lines hunks rest :
  chunks fuel started lines = inr (hunks, rest) → length rest ≤ length lines.
Proof.
  induction fuel as [|fuel IH] in started, lines, hunks, rest |- *; [by intros [= _ <-]|].
  destruct lines as [|next lines]; [by intros [= _ <-]|]. cbn [chunks].
  destruct (startsWith STARS next && negb (bool_decide (next = END_OF_FILE))); [by intros [= _ <-]|].
  destruct (bool_decide (trim next = [])); [intros H%IH; simpl; lia|].
  assert (Hgo : ∀ h lines',
    match chunkLines lines' with
    | inl error => inl error
    | inr (collected, eof, remaining) =>
        if bool_decide (collected = []) && negb eof then inl EmptyHunk
        else match chunks fuel true remaining with
             | inl error => inl error
             | inr (hunks, remaining) => inr ({| header := h; hunkLines := collected; isEndOfFile := eof |} :: hunks, remaining)
             end
    end = inr (hunks, rest) → length rest ≤ length lines').
  { intros h lines'. destruct (chunkLines lines') as [|[[collected eof] remaining]] eqn:E; [done|].
    apply chunkLines_shorter in E as [E _]. destruct (_ && _); [done|].
    destruct (chunks fuel true remaining) as [|[hunks' rest']] eqn:E'; [done|]. intros [= _ <-]. apply IH in E'. lia. }
  destruct (afterText AT next); [intros H%Hgo; simpl; lia|]. destruct started; [done|]. apply Hgo.
Qed.

Section Envelope.
Context (env : HostEnv) (home : text).

Lemma parseOps_fuel fuel fuel' lines :
  length lines < fuel → length lines < fuel' → parseOps env home fuel lines = parseOps env home fuel' lines.
Proof.
  induction fuel as [|fuel IH] in fuel', lines |- *; [lia|]. destruct fuel' as [|fuel']; [lia|].
  destruct lines as [|line rest]; [done|]. intros Hf Hf'. simpl in Hf, Hf'. cbn [parseOps].
  destruct (bool_decide (trim line = END_PATCH)); [done|].
  destruct (afterText ADD_FILE line) as [raw|].
  { destruct (normalizeRawPath env home raw); [done|]. destruct (addLines rest) as [|[collected rest']] eqn:E; [done|].
    apply addLines_shorter in E. rw (IH fuel' rest') //; lia. }
  destruct (afterText DELETE_FILE line) as [raw|].
  { destruct (normalizeRawPath env home raw); [done|]. rw (IH fuel' rest) //; lia. }
  destruct (afterText UPDATE_FILE line) as [raw|]; [|destruct (bool_decide (trim line = [])); [apply IH; lia|done]].
  destruct (normalizeRawPath env home raw); [done|].
  assert (Hgo : ∀ moveTo lines, length lines ≤ length rest →
    match chunks (S (length lines)) false lines with
    | inl error => inl error
    | inr ([], _) => inl NoHunks
    | inr ((_ :: _) as hunks, rest) =>
        match parseOps env home fuel rest with inl error => inl error | inr ops => inr (UpdateFile t moveTo hunks :: ops) end
    end =
    match chunks (S (length lines)) false lines with
    | inl error => inl error
    | inr ([], _) => inl NoHunks
    | inr ((_ :: _) as hunks, rest) =>
        match parseOps env home fuel' rest with inl error => inl error | inr ops => inr (UpdateFile t moveTo hunks :: ops) end
    end).
  { intros moveTo lines Hl. destruct (chunks _ false lines) as [|[[|h hunks] rest']] eqn:E; [done..|].
    apply chunks_shorter in E. rw (IH fuel' rest') //; lia. }
  destruct rest as [|next rest']; [by apply Hgo|]. destruct (afterText MOVE_TO next) as [target|]; [|by apply Hgo].
  destruct (normalizeRawPath env home target); [done|]. apply Hgo. simpl. lia.
Qed.

(** ** Writing an envelope *)

Definition renderLine (line : HunkLine) : text :=
  match line with Context_ l => 32%N :: l | Remove l => 45%N :: l | Add l => 43%N :: l end.
Definition renderHunk (hunk : Hunk) : list text :=
  (AT ++ match header hunk with Some h => 32%N :: h | None => [] end)
    :: (renderLine <$> hunkLines hunk) ++ (if isEndOfFile hunk then [END_OF_FILE] else []).
Definition renderOp (op : FileOp) : list text :=
  match op with
  | AddFile path lines => (ADD_FILE ++ path) :: ((λ l, 43%N :: l) <$> lines)
  | DeleteFile path => [DELETE_FILE ++ path]
  | UpdateFile path moveTo hunks =>
      (UPDATE_FILE ++ path) :: match moveTo with Some target => [MOVE_TO ++ target] | None => [] end ++ (hunks ≫= renderHunk)
  end.
Definition renderPatch (ops : list FileOp) : text :=
  join [newline] (BEGIN_PATCH :: (ops ≫= renderOp) ++ [END_PATCH]).

(** What an operation of an envelope is: its texts are lines, its paths are those the parser
    gives back, its headers are trimmed and its chunks are not empty. *)
Definition oneLine (t : text) : Prop := newline ∉ t ∧ carriageReturn ∉ t.
Definition pathText (t : text) : Prop := oneLine t ∧ normalizeRawPath env home t = inr t.
Definition lineText (line : HunkLine) : text := match line with Context_ l | Remove l | Add l => l end.
Definition goodHunk (hunk : Hunk) : Prop :=
  Forall (λ l, oneLine (lineText l)) (hunkLines hunk)
  ∧ match header hunk with Some h => oneLine h ∧ trim h = h ∧ h ≠ [] | None => True end
  ∧ (hunkLines hunk ≠ [] ∨ isEndOfFile hunk = true).
Definition goodOp (op : FileOp) : Prop :=
  match op with
  | AddFile path lines => pathText path ∧ Forall oneLine lines
  | DeleteFile path => pathText path
  | UpdateFile path moveTo hunks =>
      pathText path ∧ match moveTo with Some target => pathText target | None => True end
      ∧ hunks ≠ [] ∧ Forall goodHunk hunks
  end.

(** ** Reading an envelope back *)

(** What may follow a chunk, and what may follow an operation. *)
Definition stopsChunk (lines : list text) : Prop :=
  match lines with l :: _ => l ≠ END_OF_FILE ∧ startsWith STARS l || startsWith AT l = true | [] => True end.
Definition stopsOp (lines : list text) : Prop :=
  match lines with l :: _ => l ≠ END_OF_FILE ∧ startsWith STARS l = true | [] => True end.

Lemma addLines_render lines rest : stopsOp rest → addLines (((λ l, 43%N :: l) <$> lines) ++ rest) = inr (lines, rest).
Proof.
  intros Hrest. induction lines as [|l lines IH].
  - destruct rest as [|r rest]; [done|]. destruct Hrest as [_ Hr]. cbn [fmap list_fmap app addLines]. by rw Hr.
  - cbn [fmap list_fmap app addLines]. change (startsWith STARS (43%N :: l)) with false. rw N.eqb_refl. by rw IH.
Qed.

Lemma chunkLines_render lines eof rest :
  (eof = false → stopsChunk rest) →
  chunkLines ((renderLine <$> lines) ++ (if eof then [END_OF_FILE] else []) ++ rest) = inr (lines, eof, rest).
Proof.
  intros Hrest. induction lines as [|l lines IH].
  - destruct eof; [done|]. specialize (Hrest eq_refl). destruct rest as [|r rest]; [done|]. destruct Hrest as [Hne Hr].
    cbn [fmap list_fmap app chunkLines]. rw bool_decide_false //. by destruct (startsWith STARS r); [|cbn [orb] in Hr; rw Hr].
  - rw fmap_cons. cbn [app chunkLines]. rw IH. by destruct l.
Qed.

Lemma afterText_app prefix t : afterText prefix (prefix ++ t) = Some t.
Proof. unfold afterText. by rw startsWith_app drop_app_length. Qed.

Lemma trim_space t : trim (32%N :: t) = trim t.
Proof. done. Qed.

Lemma chunks_render fuel started hunks rest :
  Forall goodHunk hunks → stopsOp rest → length ((hunks ≫= renderHunk) ++ rest) < fuel →
  chunks fuel started ((hunks ≫= renderHunk) ++ rest) = inr (hunks, rest).
Proof.
  intros H Hrest. induction H as [|h hunks Hh H IH] in fuel, started |- *.
  - destruct fuel as [|fuel]; [lia|]. intros _. destruct rest as [|r rest]; [done|]. destruct Hrest as [Hne Hr].
    cbn [mbind list_bind app chunks]. rw Hr bool_decide_false //.
  - destruct fuel as [|fuel]; [lia|]. rw bind_cons -app_assoc. unfold renderHunk at 1 3. intros Hf.
    cbn [app length] in Hf. rw !length_app in Hf. cbn [app chunks].
    set (next := AT ++ _). set (after := match header h with Some _ => _ | None => [] end) in next.
    replace (startsWith STARS next && _) with false by done. rw bool_decide_false; [by apply (trim_nonempty 64%N)|].
    unfold next. rw afterText_app -app_assoc chunkLines_render.
    { intros _. destruct hunks as [|h' hunks]; [|done]. destruct rest as [|r rest]; [done|]. destruct Hrest as [Hne Hr].
      change (stopsChunk (r :: rest)). split; [done|]. by rw Hr. }
    destruct Hh as (_ & Hheader & Hne).
    assert (bool_decide (hunkLines h = []) && negb (isEndOfFile h) = false) as ->.
    { apply andb_false_iff. destruct Hne as [Hne| ->]; [left; by apply bool_decide_eq_false|by right]. }
    rw (IH fuel true); [rw length_app; lia|]. do 3 f_equal.
    assert ((if bool_decide (trim after = []) then None else Some (trim after)) = header h) as ->; [|by destruct h].
    unfold after. destruct (header h) as [t|]; [|done]. destruct Hheader as (_ & Ht & Htn). rw trim_space Ht.
    by rw bool_decide_false.
Qed.

Lemma not_end_line prefix t :
  startsWith END_PATCH (42%N :: prefix ++ t) = false → bool_decide (trim (42%N :: prefix ++ t) = END_PATCH) = false.
Proof.
  intros H. apply bool_decide_eq_false. intros Htrim. destruct (trim_head 42%N (prefix ++ t) eq_refl) as [w Hw].
  rw Htrim in Hw. rw Hw startsWith_app in H. done.
Qed.

Lemma renderOps_stop ops : stopsOp ((ops ≫= renderOp) ++ [END_PATCH]).
Proof. destruct ops as [|op ops]; [done|]. by destruct op. Qed.

Lemma parseOps_render fuel ops :
  Forall goodOp ops → length ((ops ≫= renderOp) ++ [END_PATCH]) < fuel →
  parseOps env home fuel ((ops ≫= renderOp) ++ [END_PATCH]) = inr ops.
Proof.
  intros H. induction H as [|op ops Hop H IH] in fuel |- *; [by destruct fuel; [lia|]|].
  rw bind_cons -app_assoc length_app. set (rest := (ops ≫= renderOp) ++ [END_PATCH]) in *. intros Hf.
  assert (Hstop : stopsOp rest) by apply renderOps_stop.
  destruct fuel as [|fuel]; [lia|]. destruct op as [path lines|path|path moveTo hunks]; cbn [renderOp app length] in Hf |- *.
  - destruct Hop as [[_ Hpath] _]. cbn [parseOps]. rw (not_end_line (tail ADD_FILE)) // afterText_app Hpath addLines_render //.
    rw IH //. rw length_fmap in Hf. lia.
  - destruct Hop as [_ Hpath]. cbn [parseOps]. rw (not_end_line (tail DELETE_FILE)) //.
    change (afterText ADD_FILE (DELETE_FILE ++ path)) with (@None text). rw afterText_app Hpath IH //. lia.
  - destruct Hop as ([_ Hpath] & Hmove & Hne & Hhunks). cbn [parseOps]. rw (not_end_line (tail UPDATE_FILE)) //.
    change (afterText ADD_FILE (UPDATE_FILE ++ path)) with (@None text).
    change (afterText DELETE_FILE (UPDATE_FILE ++ path)) with (@None text). rw afterText_app Hpath.
    assert (Hchunks : chunks (S (length ((hunks ≫= renderHunk) ++ rest))) false ((hunks ≫= renderHunk) ++ rest) = inr (hunks, rest))
      by (apply chunks_render; [done|done|lia]).
    assert (Hrest : parseOps env home fuel rest = inr ops) by (apply IH; destruct moveTo; cbn [app length] in Hf; lia).
    destruct moveTo as [target|].
    + destruct Hmove as [_ Htarget]. rw -app_assoc. cbn [app]. rw afterText_app Htarget Hchunks Hrest. by destruct hunks.
    + cbn [app]. destruct hunks as [|h hunks]; [done|]. rw bind_cons -app_assoc in Hchunks |- *.
      destruct (renderHunk h) as [|next hunkRest] eqn:Eh; [done|]. unfold renderHunk in Eh. injection Eh as Hnext _.
      assert (afterText MOVE_TO next = None) as Hmv by by rw -Hnext. cbn [app] in Hchunks |- *.
      by rw Hmv Hchunks Hrest.
Qed.

Lemma oneLine_app a b : oneLine a → oneLine b → oneLine (a ++ b).
Proof. intros [? ?] [? ?]. split; rw not_elem_of_app; done. Qed.

Lemma oneLine_literal t : forallb (λ c, negb (c =? newline) && negb (c =? carriageReturn))%N t = true → oneLine t.
Proof.
  rw forallb_forall. intros H. split; intros Hin%list_elem_of_In%H; by vm_compute in Hin.
Qed.

Lemma renderOp_lines op : goodOp op → Forall oneLine (renderOp op).
Proof.
  assert (Hcons : ∀ c t, (c =? newline)%N = false → (c =? carriageReturn)%N = false → oneLine t → oneLine (c :: t)).
  { intros c t H1 H2 Ht. apply (oneLine_app [c]); [|done]. apply oneLine_literal. simpl. by rw H1 H2. }
  destruct op as [path lines|path|path moveTo hunks]; cbn [goodOp renderOp].
  - intros [[Hp _] Hl]. constructor; [by apply oneLine_app; [apply oneLine_literal|]|].
    apply Forall_fmap. eapply Forall_impl; [apply Hl|]. intros l Hl'. by apply Hcons.
  - intros [Hp _]. apply Forall_singleton. by apply oneLine_app; [apply oneLine_literal|].
  - intros ([Hp _] & Hm & _ & Hh). constructor; [by apply oneLine_app; [apply oneLine_literal|]|].
    apply Forall_app. split; [destruct moveTo; [destruct Hm|]; repeat constructor; by apply oneLine_app; [apply oneLine_literal|]|].
    apply Forall_bind. eapply Forall_impl; [apply Hh|]. intros h (Hl & Hhd & _). unfold renderHunk. constructor.
    + apply oneLine_app; [by apply oneLine_literal|]. destruct (header h); [|by apply oneLine_literal]. by apply Hcons; [| |apply Hhd].
    + apply Forall_app. split; [|destruct (isEndOfFile h); repeat constructor; by apply oneLine_literal].
      apply Forall_fmap. eapply Forall_impl; [apply Hl|]. intros [l|l|l] Hl'; by apply Hcons.
Qed.

Lemma renderPatch_lines ops : Forall goodOp ops → Forall oneLine (BEGIN_PATCH :: (ops ≫= renderOp) ++ [END_PATCH]).
Proof.
  intros H. constructor; [by apply oneLine_literal|]. apply Forall_app. split; [|by apply Forall_singleton, oneLine_literal].
  apply Forall_bind. eapply Forall_impl; [apply H|]. apply renderOp_lines.
Qed.

Lemma join_no_unit c lines : c ≠ newline → Forall (λ l, c ∉ l) lines → c ∉ join [newline] lines.
Proof.
  intros Hc H. induction H as [|l lines Hl H IH]; [by apply not_elem_of_nil|]. destruct lines as [|m lines]; [done|].
  rw join_cons // !not_elem_of_app list_elem_of_singleton. done.
Qed.

Lemma trim_renderPatch ops : trim (renderPatch ops) = renderPatch ops.
Proof.
  unfold renderPatch. change (BEGIN_PATCH :: (ops ≫= renderOp) ++ [END_PATCH]) with ((BEGIN_PATCH :: (ops ≫= renderOp)) ++ [END_PATCH]).
  rw join_ended //. unfold ended. rw bind_cons -!app_assoc. simpl join.
  change END_PATCH with (removelast END_PATCH ++ [104%N]). rw !app_assoc. by apply (trim_snoc 42%N).
Qed.

Lemma renderPatch_nonempty ops : renderPatch ops ≠ [].
Proof. unfold renderPatch. rw join_cons; [by intros [_ ?]%app_nil|done]. Qed.

Lemma parse_rendered ops : Forall goodOp ops → parsePatch env home (renderPatch ops) = inr ops.
Proof.
  intros Hops. assert (Hlines := renderPatch_lines ops Hops). assert (Htrim := trim_renderPatch ops).
  unfold renderPatch, parsePatch in *. set (lines := BEGIN_PATCH :: (ops ≫= renderOp) ++ [END_PATCH]) in *.
  assert (Hcr : carriageReturn ∉ join [newline] lines).
  { apply join_no_unit; [done|]. eapply Forall_impl; [apply Hlines|]. by intros l [_ ?]. }
  assert (Hsplit : splitOn newline (join [newline] lines) = lines).
  { apply splitOn_join; [done|]. eapply Forall_impl; [apply Hlines|]. by intros l [? _]. }
  rw crlfToLf_no_cr // Htrim.
  assert (Hstrip : stripHeredocWrapper (join [newline] lines) = join [newline] lines).
  { unfold stripHeredocWrapper. rw Hsplit. by destruct (length lines <? 4). }
  rw Hstrip Hsplit. unfold lines. rw bool_decide_true; [by vm_compute|]. apply parseOps_render; [done|lia].
Qed.

(** C18: The parser reads back what [renderPatch] writes: the operations of such an envelope, whatever
    their number, chunks and lines, come back unchanged.  It writes each chunk under its own [@@]
    line and no blank line between operations or chunks; a blank separator above a chunk is not
    skipped by the parser ([blank_separators_join_the_chunk]). *)
Theorem patch_envelope_round_trip ops : Forall goodOp ops → parsePatch env home (renderPatch ops) = inr ops.
Proof. apply parse_rendered. Qed.
End Envelope.

(** An envelope with a new file, a deletion, and an update that moves the file. *)
Lemma patch_envelope_round_trip_witness :
  let env := {| userProfile := []; localAppData := []; appData := []; tempDir := u "/tmp"; homedir := u "/home/me"; cwd := u "/" |} in
  let ops :=
    [AddFile (u "/w/new.txt") [u "one"; []];
     DeleteFile (u "/w/old.txt");
     UpdateFile (u "/w/a.ts") (Some (u "/w/b.ts"))
       [{| header := Some (u "class A"); hunkLines := [Context_ (u "x"); Remove (u "y"); Add (u "z")]; isEndOfFile := false |};
        {| header := None; hunkLines := [Context_ []; Add (u "end")]; isEndOfFile := true |}]] in
  parsePatch env (u "/home/me") (renderPatch ops) = inr ops.
Proof.
  intros env ops. apply (patch_envelope_round_trip env (u "/home/me")).
  assert (Hp : ∀ t, forallb (λ c, negb (c =? newline) && negb (c =? carriageReturn))%N t = true → oneLine t)
    by apply oneLine_literal.
  repeat constructor; try (by apply Hp); try (by vm_compute); try done; by left.
Defined.
