(* ===== verification/PatchPlan.v ===== *)
(** * Placing the chunks of a patch

    The matching half of [packages/runtime/kernel/tools/apply-patch.ts]: the search for the old
    lines of a chunk, from exact to tolerant ([seekSequence]), the plan of a file's chunks
    ([computeReplacements]) and its application ([applyReplacements]).  The hints of an error
    message ([buildPatchMissHint]) are left out. *)

From Corelib Require Import ssreflect.
From stdpp Require Import prelude strings.
From S2P Require Import Prelude Text Weave PatchParse.

#[local] Open Scope nat_scope.

(** ** Matching *)

Definition fuzzyChar (c : N) : N :=
  if ((8208 <=? c) && (c <=? 8213) || (c =? 8722))%N then 45%N
  else if ((8216 <=? c) && (c <=? 8219))%N then 39%N
  else if ((8220 <=? c) && (c <=? 8223))%N then 34%N
  else if ((c =? 160) || (8194 <=? c) && (c <=? 8202) || (c =? 8239) || (c =? 8287) || (c =? 12288))%N then 32%N
  else c.

Definition fuzzyNormalize (t : text) : text := fuzzyChar <$> trim t.

(** A strategy compares the lines after [f]; [lines[at + j] ?? ""]. *)
Definition matchBy (f : text → text) (lines pattern : list text) (at_ : nat) : bool :=
  forallb (λ j, bool_decide (f (default [] (lines !! (at_ + j))) = f (default [] (pattern !! j)))) (seq 0 (length pattern)).
Definition matchExact (lines pattern : list text) (at_ : nat) : bool :=
  forallb (λ j, bool_decide (lines !! (at_ + j) = pattern !! j)) (seq 0 (length pattern)).
Definition matchTrimEnd := matchBy trimEnd.
Definition matchTrim := matchBy trim.
Definition matchFuzzy := matchBy fuzzyNormalize.

(** [for (let i = from; i <= upper; i++) if (matches(i)) return i] *)
Definition firstMatch (matches : nat → bool) (from upper : nat) : option nat :=
  snd <$> list_find (λ i, matches i = true) (seq from (S upper - from)).

Definition seekSequence (lines pattern : list text) (start : nat) (eof : bool) : option nat :=
  if length pattern =? 0 then Some start
  else if length lines <? length pattern then None
  else
    let upper := length lines - length pattern in
    let searchStart := if eof then upper else start in
    match firstMatch (matchExact lines pattern) searchStart upper with
    | Some i => Some i
    | None =>
        match firstMatch (matchTrimEnd lines pattern) searchStart upper with
        | Some i => Some i
        | None =>
            match firstMatch (matchTrim lines pattern) searchStart upper with
            | Some i => Some i
            | None => firstMatch (matchFuzzy lines pattern) searchStart upper
            end
        end
    end.

Definition findExactSequenceLocations (lines pattern : list text) : list nat :=
  if (length pattern =? 0) || (length lines <? length pattern) then []
  else filter (λ i, matchExact lines pattern i = true) (seq 0 (S (length lines - length pattern))).

Definition isAlreadyAppliedHunk (fileLines oldLines newLines : list text) : bool :=
  if (length (join [newline] newLines) <? 8) || (length newLines =? 0) then false
  else negb (bool_decide (findExactSequenceLocations fileLines newLines = []))
       && bool_decide (findExactSequenceLocations fileLines oldLines = []).

(** ** The plan *)

Definition oldLinesOf (hunk : Hunk) : list text :=
  omap (λ l, match l with Context_ t | Remove t => Some t | Add _ => None end) (hunkLines hunk).
Definition newLinesOf (hunk : Hunk) : list text :=
  omap (λ l, match l with Context_ t | Add t => Some t | Remove _ => None end) (hunkLines hunk).

Record Replacement := { startIdx : nat; oldLen : nat; newLines : list text }.

Inductive PlanError := ContextNotFound (header : text) | LinesNotFound (lines : list text).

(** The last line, if it is empty, dropped. *)
Definition dropLastEmpty (lines : list text) : list text :=
  if bool_decide (last lines = Some []) then removelast lines else lines.

(** The place of a chunk's old lines: the pattern that matched, what replaces it, and where. *)
Definition placeHunk (fileLines : list text) (hunk : Hunk) (cursor : nat) : option (list text * list text * nat) :=
  let pattern := oldLinesOf hunk in
  match seekSequence fileLines pattern cursor (isEndOfFile hunk) with
  | Some found => Some (pattern, newLinesOf hunk, found)
  | None =>
      if bool_decide (last pattern = Some []) then
        match seekSequence fileLines (removelast pattern) cursor (isEndOfFile hunk) with
        | Some retry => Some (removelast pattern, dropLastEmpty (newLinesOf hunk), retry)
        | None => None
        end
      else None
  end.

(** The rest of the plan after a replacement. *)
Definition planned (r : Replacement) (rest : PlanError + (list Replacement * nat)) : PlanError + (list Replacement * nat) :=
  match rest with inl error => inl error | inr (rs, n) => inr (r :: rs, n) end.

(** One chunk, once its header is found; [continue] plans the chunks after it. *)
Definition planHunk (fileLines : list text) (hunk : Hunk) (continue : nat → PlanError + (list Replacement * nat))
    (cursor : nat) : PlanError + (list Replacement * nat) :=
  if length (oldLinesOf hunk) =? 0 then
    let insertionIdx := length fileLines in
    planned {| startIdx := insertionIdx; oldLen := 0; newLines := newLinesOf hunk |} (continue insertionIdx)
  else
    match placeHunk fileLines hunk cursor with
    | Some (pattern, replacementLines, found) =>
        planned {| startIdx := found; oldLen := length pattern; newLines := replacementLines |}
          (continue (found + length pattern))
    | None =>
        if isAlreadyAppliedHunk fileLines (oldLinesOf hunk) (newLinesOf hunk) then
          match continue cursor with inl error => inl error | inr (rs, n) => inr (rs, S n) end
        else inl (LinesNotFound (oldLinesOf hunk))
    end.

(** The loop over the chunks; [cursor] is where the next search starts. *)
Fixpoint planHunks (fileLines : list text) (cursor : nat) (hunks : list Hunk) : PlanError + (list Replacement * nat) :=
  match hunks with
  | [] => inr ([], 0)
  | hunk :: hunks =>
      let continue cursor := planHunks fileLines cursor hunks in
      match header hunk with
      | None => planHunk fileLines hunk continue cursor
      | Some header =>
          match seekSequence fileLines [header] cursor false with
          | None => inl (ContextNotFound header)
          | Some headerIdx => planHunk fileLines hunk continue (headerIdx + 1)
          end
      end
  end.

Definition computeReplacements (fileLines : list text) (hunks : list Hunk) : PlanError + (list Replacement * nat) :=
  planHunks fileLines 0 hunks.

(** The stable sort by [startIdx]. *)
Fixpoint insertReplacement (r : Replacement) (sorted : list Replacement) : list Replacement :=
  match sorted with
  | [] => [r]
  | x :: rest => if startIdx r <? startIdx x then r :: sorted else x :: insertReplacement r rest
  end.
Definition sortReplacements (rs : list Replacement) : list Replacement :=
  foldl (λ sorted r, insertReplacement r sorted) [] rs.

Definition partOf (r : Replacement) : part text :=
  {| p_start := startIdx r; p_end := startIdx r + oldLen r; p_new := newLines r |}.

(** [fileLines.splice(startIdx, oldLen, ...newLines)], from the last to the first. *)
Definition applyReplacements (fileLines : list text) (rs : list Replacement) : list text :=
  replaceParts fileLines (partOf <$> sortReplacements rs).

(** ** The search *)

(** Lines that differ at most in white space at their ends and in typographic look-alikes. *)
Definition similar : list text → list text → Prop := Forall2 (λ a b, fuzzyNormalize a = fuzzyNormalize b).

(** The block of lines at an index. *)
Definition blockAt (lines : list text) (i n : nat) : list text := take n (drop i lines).

Lemma firstMatch_Some matches from upper i :
  firstMatch matches from upper = Some i ↔
    from ≤ i ≤ upper ∧ matches i = true ∧ ∀ j, from ≤ j → j < i → matches j = false.
Proof.
  unfold firstMatch. rw fmap_Some. split.
  - intros ([k x] & Hk & ->). apply list_find_Some in Hk as (Hx & Hm & Hfirst). apply lookup_seq in Hx as [-> Hk]. simpl.
    split; [lia|split; [done|]]. intros j Hj Hji. apply not_true_iff_false.
    apply (Hfirst (j - from) j); [|lia]. apply lookup_seq. lia.
  - intros (Hi & Hm & Hfirst). exists (i - from, i). split; [|done]. apply list_find_Some. split; [apply lookup_seq; lia|].
    split; [done|]. intros j y [-> Hj]%lookup_seq Hlt. rw Hfirst //; lia.
Qed.

Lemma firstMatch_None matches from upper :
  firstMatch matches from upper = None ↔ ∀ i, from ≤ i ≤ upper → matches i = false.
Proof.
  unfold firstMatch. rw fmap_None list_find_None Forall_forall. split.
  - intros H i Hi. apply not_true_iff_false, H. apply elem_of_seq. lia.
  - intros H i Hi%elem_of_seq. rw H //. lia.
Qed.

Lemma forallb_seq (p : nat → bool) n : forallb p (seq 0 n) = true ↔ ∀ j, j < n → p j = true.
Proof.
  rw forallb_forall. split; intros H j Hj; apply H; [apply in_seq; lia|apply in_seq in Hj; lia].
Qed.

(** A strategy matches the block of lines at its index. *)
Lemma matchBy_block f lines pattern i :
  i + length pattern ≤ length lines →
  matchBy f lines pattern i = true ↔ Forall2 (λ a b, f a = f b) (blockAt lines i (length pattern)) pattern.
Proof.
  intros Hi. unfold matchBy, blockAt. rw forallb_seq Forall2_same_length_lookup length_take length_drop. split.
  - intros H. split; [lia|]. intros j a b Ha Hb. apply lookup_lt_Some in Hb as Hj.
    specialize (H j Hj). apply bool_decide_eq_true in H. rw lookup_take_lt // lookup_drop in Ha. by rw Ha Hb in H.
  - intros [_ H] j Hj. apply bool_decide_eq_true. destruct (lookup_lt_is_Some_2 pattern j Hj) as [b Hb].
    destruct (lookup_lt_is_Some_2 lines (i + j)) as [a Ha]; [lia|]. rw Ha Hb. apply (H j); [|done]. by rw lookup_take_lt // lookup_drop.
Qed.

Lemma matchExact_block lines pattern i :
  i + length pattern ≤ length lines → matchExact lines pattern i = true ↔ blockAt lines i (length pattern) = pattern.
Proof.
  intros Hi. unfold matchExact, blockAt. rw forallb_seq. split.
  - intros H. apply list_eq. intros j. destruct (decide (j < length pattern)) as [Hj|Hj].
    + rw lookup_take_lt // lookup_drop. specialize (H j Hj). by apply bool_decide_eq_true in H.
    + rw !lookup_ge_None_2 // ?length_take; lia.
  - intros H j Hj. apply bool_decide_eq_true. rw -[in RHS]H lookup_take_lt // lookup_drop //.
Qed.

Lemma fuzzy_of_trim a b : trim a = trim b → fuzzyNormalize a = fuzzyNormalize b.
Proof. intros H. unfold fuzzyNormalize. by rw H. Qed.

Lemma trimEnd_trimStart t : trimEnd (trimStart t) = trimStart (trimEnd t).
Proof.
  induction t as [|c t IH]; [done|]. destruct (isWhite c) eqn:Hc; cbn [trimStart]; rw Hc.
  - rw IH. cbn [trimEnd]. destruct (trimEnd t); rw ?Hc //. cbn [trimStart]. by rw Hc.
  - cbn [trimEnd]. destruct (trimEnd t); rw ?Hc; cbn [trimStart]; by rw Hc.
Qed.

Lemma fuzzy_of_trimEnd a b : trimEnd a = trimEnd b → fuzzyNormalize a = fuzzyNormalize b.
Proof. intros H. apply fuzzy_of_trim. unfold trim. by rw !trimEnd_trimStart H. Qed.

Lemma similar_refl l : similar l l.
Proof. by apply Forall2_same_length_lookup; split; [|intros i a b Ha Hb; simplify_eq]. Qed.

Lemma similar_length a b : similar a b → length a = length b.
Proof. apply Forall2_length. Qed.

Lemma length_blockAt lines i n : i + n ≤ length lines → length (blockAt lines i n) = n.
Proof. intros H. unfold blockAt. rw length_take length_drop. lia. Qed.

(** What a search that starts at [from] finds. *)
Lemma seek_spec lines pattern start eof :
  pattern ≠ [] →
  let from := if eof then length lines - length pattern else start in
  match seekSequence lines pattern start eof with
  | Some i =>
      from ≤ i ∧ i + length pattern ≤ length lines ∧ similar (blockAt lines i (length pattern)) pattern
      ∧ ∀ j, from ≤ j → j + length pattern ≤ length lines → blockAt lines j (length pattern) = pattern →
          i ≤ j ∧ blockAt lines i (length pattern) = pattern
  | None => ∀ j, from ≤ j → j + length pattern ≤ length lines → ¬ similar (blockAt lines j (length pattern)) pattern
  end.
Proof.
  intros Hne from. unfold seekSequence. assert (Hlen : 0 < length pattern) by (destruct pattern; simpl; [done|lia]).
  destruct (Nat.eqb_spec (length pattern) 0); [lia|]. destruct (Nat.ltb_spec (length lines) (length pattern)).
  { intros j ? ?. lia. }
  set (upper := length lines - length pattern) in *. fold from.
  assert (Hno : ∀ P : nat → nat → Prop, firstMatch (matchExact lines pattern) from upper = None →
    ∀ i j, from ≤ j → j + length pattern ≤ length lines → blockAt lines j (length pattern) = pattern → P i j).
  { intros P Hn i j Hj Hjl Hb. apply firstMatch_None with (i := j) in Hn; [|unfold upper; lia].
    apply matchExact_block in Hb; [congruence|done]. }
  assert (Hby : ∀ f i, (∀ a b, f a = f b → fuzzyNormalize a = fuzzyNormalize b) →
    firstMatch (matchBy f lines pattern) from upper = Some i →
    firstMatch (matchExact lines pattern) from upper = None →
    from ≤ i ∧ i + length pattern ≤ length lines ∧ similar (blockAt lines i (length pattern)) pattern
    ∧ ∀ j, from ≤ j → j + length pattern ≤ length lines → blockAt lines j (length pattern) = pattern →
        i ≤ j ∧ blockAt lines i (length pattern) = pattern).
  { intros f i Hf (Hi & Hm & _)%firstMatch_Some Hn. apply matchBy_block in Hm; [|unfold upper in Hi; lia].
    split; [lia|split; [unfold upper in Hi; lia|split; [by eapply Forall2_impl|]]].
    intros j. by apply (Hno (λ i j, i ≤ j ∧ blockAt lines i (length pattern) = pattern)). }
  destruct (firstMatch (matchExact lines pattern) from upper) as [i|] eqn:E1.
  { apply firstMatch_Some in E1 as (Hi & Hm & Hfirst). apply matchExact_block in Hm; [|unfold upper in Hi; lia].
    split; [lia|split; [unfold upper in Hi; lia|split; [rw Hm; apply similar_refl|]]]. intros j Hj Hjl Hb. split; [|done].
    destruct (decide (i ≤ j)) as [|Hlt]; [done|]. apply matchExact_block in Hb; [|done]. rw Hfirst // in Hb. lia. }
  destruct (firstMatch (matchTrimEnd lines pattern) from upper) as [i|] eqn:E2; [by eapply Hby; [apply fuzzy_of_trimEnd| |]|].
  destruct (firstMatch (matchTrim lines pattern) from upper) as [i|] eqn:E3; [by eapply Hby; [apply fuzzy_of_trim| |]|].
  destruct (firstMatch (matchFuzzy lines pattern) from upper) as [i|] eqn:E4; [by eapply (Hby fuzzyNormalize)|].
  intros j Hj Hjl Hs. apply firstMatch_None with (i := j) in E4; [|unfold upper; lia].
  apply (matchBy_block fuzzyNormalize) in Hs; [|done]. unfold matchFuzzy in E4. congruence.
Qed.

Lemma seek_nil lines start eof : seekSequence lines [] start eof = Some start.
Proof. done. Qed.

(** The search for a chunk's lines takes the first place at or after the cursor where they
    stand exactly, if there is one; otherwise it takes a place where they differ at most in white
    space at their ends and typographic look-alikes, and it fails only if there is none. *)
Theorem seek_takes_the_first_exact_place lines pattern start :
  pattern ≠ [] →
  match seekSequence lines pattern start false with
  | Some i =>
      start ≤ i ∧ i + length pattern ≤ length lines ∧ similar (blockAt lines i (length pattern)) pattern
      ∧ ∀ j, start ≤ j → j + length pattern ≤ length lines → blockAt lines j (length pattern) = pattern →
          i ≤ j ∧ blockAt lines i (length pattern) = pattern
  | None => ∀ j, start ≤ j → j + length pattern ≤ length lines → ¬ similar (blockAt lines j (length pattern)) pattern
  end.
Proof. apply (seek_spec lines pattern start false). Qed.

Lemma seek_takes_the_first_exact_place_witness :
  let lines := u <$> ["a "; "b"; "a"; "a"] in
  seekSequence lines [u "a"] 0 false = Some 2
  ∧ 0 ≤ 2 ∧ 2 + 1 ≤ length lines ∧ similar (blockAt lines 2 1) [u "a"]
  ∧ ∀ j, 0 ≤ j → j + 1 ≤ length lines → blockAt lines j 1 = [u "a"] → 2 ≤ j ∧ blockAt lines 2 1 = [u "a"].
Proof. intros lines. split; [done|]. by apply (seek_takes_the_first_exact_place lines [u "a"] 0). Defined.

(** ** What a plan replaces *)

(** A replacement that a chunk asks for. *)
Definition placedBy (lines : list text) (h : Hunk) (r : Replacement) : Prop :=
  oldLinesOf h = [] ∧ startIdx r = length lines ∧ oldLen r = 0 ∧ newLines r = newLinesOf h
  ∨ oldLen r = length (oldLinesOf h) ∧ similar (blockAt lines (startIdx r) (oldLen r)) (oldLinesOf h)
    ∧ newLines r = newLinesOf h
  ∨ ∃ p, oldLinesOf h = p ++ [[]] ∧ oldLen r = length p ∧ similar (blockAt lines (startIdx r) (oldLen r)) p
         ∧ newLines r = dropLastEmpty (newLinesOf h).

(** Every chunk has its replacement, in order, but those already applied. *)
Inductive Planned (lines : list text) : list Hunk → list Replacement → Prop :=
  | planned_nil : Planned lines [] []
  | planned_hunk h r hs rs : placedBy lines h r → Planned lines hs rs → Planned lines (h :: hs) (r :: rs)
  | planned_skip h hs rs :
      isAlreadyAppliedHunk lines (oldLinesOf h) (newLinesOf h) = true → Planned lines hs rs → Planned lines (h :: hs) rs.

Lemma placeHunk_spec lines h cursor pattern new found :
  isEndOfFile h = false → cursor ≤ length lines → placeHunk lines h cursor = Some (pattern, new, found) →
  cursor ≤ found ∧ found + length pattern ≤ length lines
  ∧ placedBy lines h {| startIdx := found; oldLen := length pattern; newLines := new |}.
Proof.
  intros Heof Hc. unfold placeHunk. rw Heof.
  assert (Hseek : ∀ p i, seekSequence lines p cursor false = Some i →
    cursor ≤ i ∧ i + length p ≤ length lines ∧ similar (blockAt lines i (length p)) p).
  { intros p i Hi. destruct (decide (p = [])) as [->|Hne]; [injection Hi as <-; by split; [|split; [simpl; lia|constructor]]|].
    assert (H := seek_spec lines p cursor false Hne). rw Hi in H. by destruct H as (? & ? & ? & _). }
  destruct (seekSequence lines (oldLinesOf h) cursor false) as [i|] eqn:E.
  - intros [= <- <- <-]. destruct (Hseek _ _ E) as (? & ? & ?). split; [done|split; [done|]]. by right; left.
  - case_bool_decide as Hlast; [|done]. destruct (seekSequence lines (removelast _) cursor false) as [i|] eqn:E'; [|done].
    intros [= <- <- <-]. destruct (Hseek _ _ E') as (? & ? & ?). split; [done|split; [done|]]. right. right.
    exists (removelast (oldLinesOf h)). split; [|done]. apply last_Some in Hlast as [l ->]. by rw removelast_last.
Qed.

Lemma planHunks_spec lines hunks cursor rs n :
  Forall (λ h, isEndOfFile h = false) hunks → cursor ≤ length lines → planHunks lines cursor hunks = inr (rs, n) →
  Planned lines hunks rs ∧ spaced cursor (partOf <$> rs) ∧ Forall (within lines) (partOf <$> rs).
Proof.
  intros H. induction H as [|h hunks Heof H IH] in cursor, rs, n |- *; intros Hc; cbn [planHunks].
  { intros [= <- _]. by repeat constructor. }
  assert (Hafter : ∀ c, cursor ≤ c → c ≤ length lines →
    planHunk lines h (λ cursor, planHunks lines cursor hunks) c = inr (rs, n) →
    Planned lines (h :: hunks) rs ∧ spaced cursor (partOf <$> rs) ∧ Forall (within lines) (partOf <$> rs)).
  { intros c Hcc Hcl. unfold planHunk. destruct (Nat.eqb_spec (length (oldLinesOf h)) 0) as [Hold|Hold].
    - destruct (planHunks lines (length lines) hunks) as [|[rs' n']] eqn:E; [done|]. intros [= <- <-].
      destruct (IH _ _ _ (le_n _) E) as (Hp & Hs & Hw). split; [constructor; [|done]; left; by apply length_zero_iff_nil in Hold|].
      split; [split; simpl; [lia|by rw Nat.add_0_r]|]. constructor; [|done]. unfold within. simpl. lia.
    - destruct (placeHunk lines h c) as [[[pattern new] found]|] eqn:Hplace.
      + destruct (planHunks lines (found + length pattern) hunks) as [|[rs' n']] eqn:E; [done|]. intros [= <- <-].
        destruct (placeHunk_spec lines h c pattern new found Heof Hcl Hplace) as (Hf & Hfl & Hpl).
        destruct (IH _ _ _ Hfl E) as (Hp & Hs & Hw). split; [by constructor|].
        split; [split; simpl; [lia|done]|]. constructor; [|done]. unfold within. simpl. lia.
      + destruct (isAlreadyAppliedHunk lines _ _) eqn:Happ; [|done].
        destruct (planHunks lines c hunks) as [|[rs' n']] eqn:E; [done|]. intros [= <- _].
        destruct (IH _ _ _ Hcl E) as (Hp & Hs & Hw). split; [by apply planned_skip|]. split; [|done].
        by apply (spaced_le cursor c). }
  destruct (header h) as [hd|]; [|by apply Hafter].
  destruct (seekSequence lines [hd] cursor false) as [i|] eqn:E; [|done].
  assert (Hs := seek_spec lines [hd] cursor false ltac:(done)). rw E in Hs. destruct Hs as (? & Hil & _).
  apply Hafter; [lia|]. simpl in Hil. lia.
Qed.

(** Replacements that follow one another are in order. *)
Lemma sort_spaced acc rs from :
  (∀ x, x ∈ acc → startIdx x ≤ from) → spaced from (partOf <$> rs) → Forall (λ r, startIdx r ≤ startIdx r + oldLen r) rs →
  foldl (λ sorted r, insertReplacement r sorted) acc rs = acc ++ rs.
Proof.
  intros Hacc Hs H. induction H as [|r rs _ H IH] in acc, from, Hacc, Hs |- *; [by rw app_nil_r|]. simpl in Hs.
  destruct Hs as [Hf Hs]. cbn [foldl].
  assert (insertReplacement r acc = acc ++ [r]) as ->.
  { clear -Hacc Hf. induction acc as [|x acc IH]; [done|]. cbn [insertReplacement app].
    assert (startIdx x ≤ from) by (apply Hacc; by left). destruct (Nat.ltb_spec (startIdx r) (startIdx x)); [lia|].
    rw IH //. intros y Hy. apply Hacc. by right. }
  rw (IH (acc ++ [r]) (startIdx r + oldLen r)) // -?app_assoc //.
  intros x [Hx|Hx%list_elem_of_singleton]%elem_of_app; [apply Hacc in Hx; lia|subst; lia].
Qed.

Lemma sortReplacements_spaced rs : spaced 0 (partOf <$> rs) → sortReplacements rs = rs.
Proof.
  intros H. apply (sort_spaced [] rs 0); [by intros x ?%not_elem_of_nil|done|]. apply Forall_forall. intros. lia.
Qed.

(** A patch whose chunks are not tied to the end of the file changes exactly the blocks its
    chunks match: the file falls into gaps and blocks, the result has the same gaps with the
    chunks' new lines in place of the blocks, in the order of the patch, and every chunk has its
    block, similar to its old lines, unless it is applied already. *)
Theorem patch_changes_only_matched_blocks lines hunks rs n :
  Forall (λ h, isEndOfFile h = false) hunks → computeReplacements lines hunks = inr (rs, n) →
  Planned lines hunks rs
  ∧ ∃ gs, length gs = S (length rs)
          ∧ lines = weave gs ((λ r, blockAt lines (startIdx r) (oldLen r)) <$> rs)
          ∧ applyReplacements lines rs = weave gs (newLines <$> rs).
Proof.
  intros Heof Hp. destruct (planHunks_spec lines hunks 0 rs n Heof (Nat.le_0_l _) Hp) as (Hpl & Hs & Hw). split; [done|].
  destruct (replaceParts_spec lines (partOf <$> rs) Hw Hs) as (gs & Hl & Hold & Hnew). exists gs.
  rw length_fmap in Hl. split; [done|]. unfold applyReplacements. rw sortReplacements_spaced // Hnew.
  rw -!list_fmap_compose in Hold |- *. split; [|done]. rw {1}Hold. f_equal. apply list_fmap_ext. intros i r _.
  unfold oldPart, blockAt. simpl. f_equal. lia.
Qed.


Lemma patch_changes_only_matched_blocks_witness :
  let lines := u <$> ["a"; "b"; "c"; "b"] in
  let hunk old new := {| header := None; hunkLines := [Remove (u old); Add (u new)]; isEndOfFile := false |} in
  let rs := [ {| startIdx := 1; oldLen := 1; newLines := [u "B"] |}; {| startIdx := 3; oldLen := 1; newLines := [u "D"] |} ] in
  Planned lines [hunk "b" "B"; hunk "b" "D"] rs
  ∧ ∃ gs, length gs = S (length rs)
          ∧ lines = weave gs ((λ r, blockAt lines (startIdx r) (oldLen r)) <$> rs)
          ∧ applyReplacements lines rs = weave gs (newLines <$> rs).
Proof.
  intros lines hunk rs.
  apply (patch_changes_only_matched_blocks lines [hunk "b" "B"; hunk "b" "D"] rs 0); [by repeat constructor|by vm_compute].
Defined.

(** A chunk tied to the end of the file is placed there without regard for the cursor, so over
    the block of the chunk before it; the first chunk's replacement is then put in place of lines
    the second one wrote, whose change is lost. *)
Example end_of_file_chunk_overwrites :
  let lines := u <$> ["a"; "b"; "c"] in
  let first := {| header := None; hunkLines := [Context_ (u "b"); Remove (u "c"); Add (u "C")]; isEndOfFile := true |} in
  let whole := {| header := None; hunkLines := [Remove (u "b"); Add (u "B"); Context_ (u "c")]; isEndOfFile := false |} in
  match computeReplacements lines [whole; first] with
  | inr (rs, _) => applyReplacements lines rs = u <$> ["a"; "B"; "c"]
  | inl _ => False
  end.
Proof. by vm_compute. Qed.

(** ** A patch that fits *)

(** Where the search for a chunk's old lines starts: after its header, if it has one. *)
Definition startsAt (rest : list text) (h : Hunk) (from : nat) : Prop :=
  match header h with
  | None => from = 0
  | Some hd => ∃ i, from = S i ∧ rest !! i = Some hd ∧ ∀ j, j < i → rest !! j ≠ Some hd
  end.

(** The chunks have their old lines in the file between the gaps, each where they stand first
    after the chunk before it and after the chunk's header. *)
Fixpoint fits (rest : list text) (hunks : list Hunk) (gs : list (list text)) : Prop :=
  match hunks, gs with
  | [], [g] => rest = g
  | h :: hunks, g :: gs =>
      isEndOfFile h = false ∧ oldLinesOf h ≠ []
      ∧ (∃ from, startsAt rest h from ∧ from ≤ length g
                 ∧ ∀ j, from ≤ j → j < length g → blockAt rest j (length (oldLinesOf h)) ≠ oldLinesOf h)
      ∧ ∃ rest', rest = g ++ oldLinesOf h ++ rest' ∧ fits rest' hunks gs
  | _, _ => False
  end.

Lemma blockAt_drop lines c j n : blockAt (drop c lines) j n = blockAt lines (c + j) n.
Proof. unfold blockAt. by rw drop_drop. Qed.

(** The search finds lines that stand exactly, at their first place. *)
Lemma seek_exact lines pattern start i :
  pattern ≠ [] → start ≤ i → i + length pattern ≤ length lines → blockAt lines i (length pattern) = pattern →
  (∀ j, start ≤ j → j < i → blockAt lines j (length pattern) ≠ pattern) →
  seekSequence lines pattern start false = Some i.
Proof.
  intros Hne Hs Hl Hb Hfirst. assert (H := seek_spec lines pattern start false Hne).
  destruct (seekSequence lines pattern start false) as [k|].
  - destruct H as (Hk & Hkl & _ & Hall). destruct (Hall i Hs Hl Hb) as [Hki Hkb]. f_equal.
    destruct (decide (k < i)) as [Hlt|]; [|lia]. by destruct (Hfirst k Hk Hlt).
  - exfalso. apply (H i Hs Hl). rw Hb. apply similar_refl.
Qed.

Lemma blockAt_one lines i x : blockAt lines i 1 = [x] ↔ lines !! i = Some x.
Proof.
  unfold blockAt. rw -{2}(Nat.add_0_r i) -lookup_drop. destruct (drop i lines) as [|y l]; [by split|]. simpl.
  rw take_0. split; by intros [= ->].
Qed.

Lemma seek_header lines cursor h hd from :
  header h = Some hd → startsAt (drop cursor lines) h from →
  ∃ i, seekSequence lines [hd] cursor false = Some i ∧ i + 1 = cursor + from.
Proof.
  unfold startsAt. intros -> (i & -> & Hi & Hfirst). exists (cursor + i). split; [|lia]. rw lookup_drop in Hi.
  apply seek_exact; [done|lia| |by apply blockAt_one|].
  - apply lookup_lt_Some in Hi. simpl. lia.
  - intros j Hj Hji Hb. apply blockAt_one in Hb. apply (Hfirst (j - cursor)); [lia|]. rw lookup_drop -Hb. f_equal. lia.
Qed.

Lemma planHunk_fits lines h continue cursor from g rest :
  isEndOfFile h = false → oldLinesOf h ≠ [] → from ≤ length g → drop cursor lines = g ++ oldLinesOf h ++ rest →
  (∀ j, from ≤ j → j < length g → blockAt (drop cursor lines) j (length (oldLinesOf h)) ≠ oldLinesOf h) →
  planHunk lines h continue (cursor + from)
  = planned {| startIdx := cursor + length g; oldLen := length (oldLinesOf h); newLines := newLinesOf h |}
      (continue (cursor + length g + length (oldLinesOf h))).
Proof.
  intros Heof Hne Hf Hrest Hfirst. unfold planHunk. destruct (Nat.eqb_spec (length (oldLinesOf h)) 0) as [Hz|_].
  { by apply length_zero_iff_nil in Hz. }
  assert (Hlen : cursor + length (g ++ oldLinesOf h ++ rest) ≤ length lines).
  { rw -Hrest length_drop. destruct (decide (cursor ≤ length lines)); [lia|]. rw drop_ge in Hrest; [lia|].
    symmetry in Hrest. apply app_nil in Hrest as [_ [? _]%app_nil]. done. }
  rw !length_app in Hlen. unfold placeHunk. rw Heof.
  rw (seek_exact lines (oldLinesOf h) (cursor + from) (cursor + length g)) //; [lia|lia| |].
  - rw -blockAt_drop Hrest. unfold blockAt. by rw drop_app_length take_app_length.
  - intros j Hj Hjg. assert (E : j = cursor + (j - cursor)) by lia. rw E -blockAt_drop. apply Hfirst; lia.
Qed.

Lemma planHunks_fits lines hunks cursor gs :
  cursor ≤ length lines → fits (drop cursor lines) hunks gs →
  ∃ rs, planHunks lines cursor hunks = inr (rs, 0) ∧ newLines <$> rs = newLinesOf <$> hunks
        ∧ spaced cursor (partOf <$> rs) ∧ Forall (within lines) (partOf <$> rs) ∧ gapsFrom lines cursor (partOf <$> rs) = gs.
Proof.
  induction hunks as [|h hunks IH] in cursor, gs |- *; intros Hc Hfit.
  { destruct gs as [|g [|]]; [done| |done]. exists []. simpl in Hfit |- *. subst g. by repeat constructor. }
  destruct gs as [|g gs]; [done|]. destruct Hfit as (Heof & Hne & (from & Hst & Hf & Hfirst) & rest & Hrest & Hfit).
  assert (Hlen : length lines - cursor = length g + length (oldLinesOf h) + length rest).
  { rw -length_drop Hrest !length_app. lia. }
  set (c' := cursor + length g + length (oldLinesOf h)).
  destruct (IH c' gs) as (rs & Hplan & Hnew & Hsp & Hw & Hgs); [unfold c'; lia| |].
  { unfold c'. rw -Nat.add_assoc -drop_drop Hrest app_assoc. by rw -length_app drop_app_length. }
  exists ({| startIdx := cursor + length g; oldLen := length (oldLinesOf h); newLines := newLinesOf h |} :: rs).
  split; [|split; [by rw !fmap_cons Hnew|split; [split; simpl; [lia|done]|split]]].
  - cbn [planHunks]. destruct (header h) as [hd|] eqn:Hh.
    + destruct (seek_header lines cursor h hd from Hh Hst) as (i & -> & ->).
      by rw (planHunk_fits lines h _ cursor from g rest) // Hplan.
    + unfold startsAt in Hst. rw Hh in Hst. subst from.
      assert (E := planHunk_fits lines h (λ c, planHunks lines c hunks) cursor 0 g rest Heof Hne Hf Hrest Hfirst).
      rw Nat.add_0_r Hplan in E. exact E.
  - constructor; [|done]. unfold within. simpl. unfold c' in *. lia.
  - rw fmap_cons. cbn [gapsFrom partOf p_start p_end startIdx oldLen]. rw Hgs Hrest. f_equal.
    rw Nat.add_comm Nat.add_sub take_app_length //.
Qed.

Lemma fits_weave rest hunks gs : fits rest hunks gs → rest = weave gs (oldLinesOf <$> hunks).
Proof.
  induction hunks as [|h hunks IH] in rest, gs |- *; [by destruct gs as [|g [|]]|]. destruct gs as [|g gs]; [done|].
  intros (_ & _ & _ & rest' & -> & Hfit). cbn [weave fmap list_fmap]. by rw -(IH rest' gs).
Qed.

(** Every chunk of a patch that fits is applied, where it fits. *)
Lemma fitting_plan lines hunks gs :
  fits lines hunks gs →
  ∃ rs, computeReplacements lines hunks = inr (rs, 0) ∧ length rs = length hunks
        ∧ applyReplacements lines rs = weave gs (newLinesOf <$> hunks).
Proof.
  intros Hfit. destruct (planHunks_fits lines hunks 0 gs) as (rs & Hplan & Hnew & Hsp & Hw & Hgs); [lia|done|].
  exists rs. split; [done|]. split; [by rw -(length_fmap newLines) Hnew length_fmap|]. unfold applyReplacements. rw sortReplacements_spaced //.
  destruct (replaceParts_weave lines (partOf <$> rs) 0 Hw Hsp) as [_ Hd]. rw drop_0 Hgs in Hd. rw Hd; [lia|].
  by rw -Hnew -list_fmap_compose.
Qed.
