(* ===== verification/PatchApply.v ===== *)
(** * Applying a patch

    The tool half of [packages/runtime/kernel/tools/apply-patch.ts]: the operations of an
    envelope on the store of files, one after the other ([applyAdd], [applyUpdate],
    [applyDelete]), behind the checks of their paths ([resolveOp], [ensurePatchOpsWithinRoot],
    [isBlockedPath]).  A file is its decoded text; the host may refuse to read or to remove a path,
    and a write can fail before or after it touched the file ([Host], with the [Writer] of
    [FileTools]).  The locks the operations run under are those of [FileLock]. *)

From Corelib Require Import ssreflect.
From stdpp Require Import prelude gmap strings.
From S2P Require Import Prelude Text Weave EditDiff HostPaths FileTools PatchParse PatchPlan.

#[local] Open Scope nat_scope.

(** What the host refuses, and what becomes of the writes it is given.  The removal of a file is one
    system call, which fails as a whole. *)
Record Host := { unreadable : text → bool; writer : Writer; unremovable : text → bool }.

Inductive OpResult :=
  | Added (path : text)
  | Updated (path : text) (movedTo : option text)
  | Noop (path : text)
  | Deleted (path : text).

Inductive OpError :=
  | OpBlocked (why : Blocked)
  | NotFoundForUpdate (path : text)
  | PlanFailed (error : PlanError)
  | HostRefused (path : text)
  | OriginalKept (path target : text).

Inductive PatchFailure :=
  | EmptyPatch
  | ParseFailed (error : PatchError)
  | RelativePath (path : text)
  | PathOutside (path : text)
  | OpFailed (error : OpError).

(** The lines of a file, without the empty one after its last newline. *)
Definition patchLines (original : text) : list text :=
  let fileLines := splitOn newline original in
  if endsWith [newline] original then removelast fileLines else fileLines.

(** The lines put back together, with the newline the file ended with. *)
Definition patchText (original : text) (fileLines : list text) : text :=
  join [newline] fileLines ++ (if endsWith [newline] original then [newline] else []).

Section Apply.
Context (toLowerCase : text → text) (env : HostEnv) (stellaDataDirEnv : option text) (host : Host).

Definition readPatchText (filePath : text) (files : Files) : option text :=
  if unreadable host filePath then None else files !! filePath.

Definition deletePatchFile (filePath : text) (files : Files) : option Files :=
  if unremovable host filePath then None
  else match files !! filePath with Some _ => Some (delete filePath files) | None => None end.

Section Ops.
Context (context : ToolContext).

(** What the write leaves, and whether it returned. *)
Definition writePatchText (filePath content : text) (exclusive : bool) : Files → Files * bool :=
  writeScoped (writer host) context filePath content exclusive.

Definition blockOf (path : text) : option Blocked := isBlockedPath toLowerCase env stellaDataDirEnv context path.

(** The write of an update, and the removal of the original after a move. *)
Definition writeUpdate (path : text) (moveTo : option text) (newContent : text) (files : Files) :
    Files * (OpError + OpResult) :=
  match moveTo with
  | Some target =>
      match blockOf target with
      | Some why => (files, inl (OpBlocked why))
      | None =>
          match writePatchText target newContent false files with
          | (files, false) => (files, inl (HostRefused target))
          | (files, true) =>
              if bool_decide (target = path) then (files, inr (Updated path moveTo))
              else
                match deletePatchFile path files with
                | None => (files, inl (OriginalKept path target))
                | Some files => (files, inr (Updated path moveTo))
                end
          end
      end
  | None =>
      match writePatchText path newContent false files with
      | (files, false) => (files, inl (HostRefused path))
      | (files, true) => (files, inr (Updated path None))
      end
  end.

Definition applyUpdate (path : text) (moveTo : option text) (hunks : list Hunk) (files : Files) :
    Files * (OpError + OpResult) :=
  match blockOf path with
  | Some why => (files, inl (OpBlocked why))
  | None =>
      match readPatchText path files with
      | None => (files, inl (NotFoundForUpdate path))
      | Some original =>
          match computeReplacements (patchLines original) hunks with
          | inl error => (files, inl (PlanFailed error))
          | inr (replacements, alreadyAppliedHunks) =>
              if (length replacements =? 0) && (0 <? alreadyAppliedHunks) then (files, inr (Noop path))
              else
                writeUpdate path moveTo
                  (patchText original (applyReplacements (patchLines original) replacements)) files
          end
      end
  end.

Definition applyAdd (path : text) (lines : list text) (files : Files) : Files * (OpError + OpResult) :=
  match blockOf path with
  | Some why => (files, inl (OpBlocked why))
  | None =>
      let content := join [newline] lines ++ (if 0 <? length lines then [newline] else []) in
      match writePatchText path content true files with
      | (files, false) => (files, inl (HostRefused path))
      | (files, true) => (files, inr (Added path))
      end
  end.

Definition applyDelete (path : text) (files : Files) : Files * (OpError + OpResult) :=
  match blockOf path with
  | Some why => (files, inl (OpBlocked why))
  | None =>
      match deletePatchFile path files with
      | None => (files, inl (HostRefused path))
      | Some files => (files, inr (Deleted path))
      end
  end.

Definition applyOp (op : FileOp) : Files → Files * (OpError + OpResult) :=
  match op with
  | AddFile path lines => applyAdd path lines
  | UpdateFile path moveTo hunks => applyUpdate path moveTo hunks
  | DeleteFile path => applyDelete path
  end.

(** The loop over the operations: the first that fails ends it. *)
Fixpoint applyOps (ops : list FileOp) (files : Files) : Files * (OpError + list OpResult) :=
  match ops with
  | [] => (files, inr [])
  | op :: ops =>
      match applyOp op files with
      | (files, inl error) => (files, inl error)
      | (files, inr result) =>
          match applyOps ops files with
          | (files, inl error) => (files, inl error)
          | (files, inr results) => (files, inr (result :: results))
          end
      end
  end.
End Ops.

Definition requireAbsolutePatchPath (raw : text) : PatchFailure + text :=
  if isAbsolute raw then inr (resolve (cwd env) raw) else inl (RelativePath raw).

Definition resolveOp (op : FileOp) : PatchFailure + FileOp :=
  match op with
  | AddFile path lines =>
      match requireAbsolutePatchPath path with inl e => inl e | inr path => inr (AddFile path lines) end
  | DeleteFile path =>
      match requireAbsolutePatchPath path with inl e => inl e | inr path => inr (DeleteFile path) end
  | UpdateFile path moveTo hunks =>
      match requireAbsolutePatchPath path with
      | inl e => inl e
      | inr path =>
          match moveTo with
          | None => inr (UpdateFile path None hunks)
          | Some target =>
              match requireAbsolutePatchPath target with
              | inl e => inl e
              | inr target => inr (UpdateFile path (Some target) hunks)
              end
          end
      end
  end.

(** [.map(resolveOp)]: the first that throws ends it. *)
Fixpoint resolveOps (ops : list FileOp) : PatchFailure + list FileOp :=
  match ops with
  | [] => inr []
  | op :: ops =>
      match resolveOp op with
      | inl e => inl e
      | inr op => match resolveOps ops with inl e => inl e | inr ops => inr (op :: ops) end
      end
  end.

(** The first path outside the workspace. *)
Definition ensurePatchOpsWithinRoot (ops : list FileOp) (root : text) : option text :=
  let outside path := isPathInsideRoot (resolve (cwd env) path) (resolve (cwd env) root) = false in
  snd <$> list_find outside (ops ≫= opPaths).

(** The tool's arguments: [input], or [patch]. *)
Record PatchArgs := { argInput : option text; argPatch : option text }.

Definition handleApplyPatch (context : ToolContext) (args : PatchArgs) (files : Files) :
    Files * (PatchFailure + list OpResult) :=
  let patch := trim (default [] (match argInput args with Some i => Some i | None => argPatch args end)) in
  if bool_decide (patch = []) then (files, inl EmptyPatch)
  else
    match parsePatch env (toolContextHome env context) patch with
    | inl error => (files, inl (ParseFailed error))
    | inr parsed =>
        match resolveOps parsed with
        | inl failure => (files, inl failure)
        | inr ops =>
            let run :=
              match applyOps context ops files with
              | (files, inl error) => (files, inl (OpFailed error))
              | (files, inr results) => (files, inr results)
              end in
            match scopedWorkspaceRoot context with
            | None => run
            | Some root =>
                match ensurePatchOpsWithinRoot ops root with
                | Some path => (files, inl (PathOutside path))
                | None => run
                end
            end
        end
    end.
End Apply.

(** ** What an operation does *)

(** The documented effect of an operation on the files. *)
Inductive Effect : FileOp → Files → OpResult → Files → Prop :=
  | effect_add path lines files :
      files !! path = None →
      Effect (AddFile path lines) files (Added path) (<[path := ended lines]> files)
  | effect_delete path raw files :
      files !! path = Some raw → Effect (DeleteFile path) files (Deleted path) (delete path files)
  | effect_noop path moveTo hunks raw n files :
      files !! path = Some raw → computeReplacements (patchLines raw) hunks = inr ([], S n) →
      Effect (UpdateFile path moveTo hunks) files (Noop path) files
  | effect_update path hunks raw rs n files :
      files !! path = Some raw → computeReplacements (patchLines raw) hunks = inr (rs, n) → rs ≠ [] ∨ n = 0 →
      Effect (UpdateFile path None hunks) files (Updated path None)
        (<[path := patchText raw (applyReplacements (patchLines raw) rs)]> files)
  | effect_move path target hunks raw rs n files :
      files !! path = Some raw → computeReplacements (patchLines raw) hunks = inr (rs, n) → rs ≠ [] ∨ n = 0 →
      Effect (UpdateFile path (Some target) hunks) files (Updated path (Some target))
        (<[target := patchText raw (applyReplacements (patchLines raw) rs)]>
           (if bool_decide (target = path) then files else delete path files)).

(** The effects of operations one after the other. *)
Inductive Effects : list FileOp → Files → list OpResult → Files → Prop :=
  | effects_nil files : Effects [] files [] files
  | effects_cons op ops files r files1 results files' :
      Effect op files r files1 → Effects ops files1 results files' → Effects (op :: ops) files (r :: results) files'.

(** The path an operation writes. *)
Definition targetOf (op : FileOp) : option text :=
  match op with
  | AddFile path _ => Some path
  | UpdateFile path moveTo _ => Some (default path moveTo)
  | DeleteFile _ => None
  end.

(** The operation got as far as its write: there is no file to add over, or the chunks of the
    update have their places in the file. *)
Definition ReachedWrite (op : FileOp) (files : Files) : Prop :=
  match op with
  | AddFile path _ => files !! path = None
  | UpdateFile path _ hunks =>
      ∃ raw rs n, files !! path = Some raw ∧ computeReplacements (patchLines raw) hunks = inr (rs, n) ∧ (rs ≠ [] ∨ n = 0)
  | DeleteFile _ => False
  end.

(** What a failed operation leaves: nothing changed; the file it wrote in whatever state, if the
    write itself failed half way; or, of a move, the new file next to the original, which could
    not be removed. *)
Inductive Leftover : FileOp → OpError → Files → Files → Prop :=
  | left_untouched op error files : Leftover op error files files
  | left_torn op path held files :
      targetOf op = Some path → ReachedWrite op files →
      Leftover op (HostRefused path) files (setFile path held files)
  | left_both path target hunks raw rs n files :
      files !! path = Some raw → computeReplacements (patchLines raw) hunks = inr (rs, n) →
      Leftover (UpdateFile path (Some target) hunks) (OriginalKept path target) files
        (<[target := patchText raw (applyReplacements (patchLines raw) rs)]> files).

Lemma content_ended lines : join [newline] lines ++ (if 0 <? length lines then [newline] else []) = ended lines.
Proof.
  destruct lines as [|l lines] using rev_ind; [done|]. clear IHlines. rw join_ended // ended_app length_app Nat.add_comm.
  cbn [length Nat.add Nat.ltb Nat.leb join ended mbind list_bind]. unfold ended. simpl. by rw ?app_nil_r -?app_assoc.
Qed.

Section Calls.
Context (toLowerCase : text → text) (env : HostEnv) (stellaDataDirEnv : option text) (host : Host) (context : ToolContext).
Let blockOf := blockOf toLowerCase env stellaDataDirEnv context.
Let applyOp := applyOp toLowerCase env stellaDataDirEnv host context.
Let applyOps := applyOps toLowerCase env stellaDataDirEnv host context.
Let handleApplyPatch := handleApplyPatch toLowerCase env stellaDataDirEnv host context.

Lemma deletePatchFile_Some path files files' :
  deletePatchFile host path files = Some files' → files' = delete path files ∧ is_Some (files !! path).
Proof.
  unfold deletePatchFile. destruct (unremovable host path); [done|]. destruct (files !! path) as [raw|] eqn:E; [|done].
  intros [= <-]. by split; [|eexists].
Qed.

(** One operation: its effect, on paths that are not blocked, or an error. *)
Lemma applyOp_spec op files files' r :
  applyOp op files = (files', r) →
  match r with
  | inr result => Effect op files result files' ∧ (∀ p, files' !! p ≠ files !! p → p ∈ opPaths op ∧ blockOf p = None)
  | inl error => Leftover op error files files' ∧ (∀ p, files' !! p ≠ files !! p → p ∈ opPaths op ∧ blockOf p = None)
  end.
Proof.
  unfold applyOp, PatchApply.applyOp, applyAdd, applyUpdate, applyDelete. fold blockOf. destruct op as [path lines|path|path moveTo hunks].
  all: destruct (blockOf path) as [why|] eqn:Hb; [by intros [= <- <-]; split; [constructor|]|].
  - destruct (writePatchText _ _ _ _ _ _) as [files1 ok] eqn:Hw.
    apply writeScoped_spec in Hw as [ [-> ->] |(Hnone & held & -> & Hok)]; [by intros [= <- <-]; split; [constructor|]|].
    specialize (Hnone eq_refl). rw content_ended in Hok.
    assert (Hp : ∀ p, setFile path held files !! p ≠ files !! p → p ∈ opPaths (AddFile path lines) ∧ blockOf p = None).
    { intros p Hp. apply setFile_changed in Hp as ->. by split; [left|]. }
    destruct ok; intros [= <- <-]; (split; [|exact Hp]); [rw Hok //; by constructor|by constructor].
  - destruct (deletePatchFile _ _ _) as [files1|] eqn:Hd; [|by intros [= <- <-]; split; [constructor|]].
    apply deletePatchFile_Some in Hd as [-> [raw Hraw]]. intros [= <- <-]. split; [by econstructor|].
    intros p Hp. destruct (decide (p = path)) as [->|Hne]; [by split; [left|]|]. by rw lookup_delete_ne in Hp.
  - unfold readPatchText. destruct (unreadable host path); [by intros [= <- <-]; split; [constructor|]|].
    destruct (files !! path) as [raw|] eqn:Hraw; [|by intros [= <- <-]; split; [constructor|]].
    destruct (computeReplacements _ hunks) as [error|[rs n]] eqn:Hplan; [by intros [= <- <-]; split; [constructor|]|].
    destruct ((length rs =? 0) && (0 <? n)) eqn:Hnoop.
    { apply andb_true_iff in Hnoop as [Hrs Hn]. apply Nat.eqb_eq, length_zero_iff_nil in Hrs as ->. apply Nat.ltb_lt in Hn.
      intros [= <- <-]. split; [|done]. destruct n; [lia|]. by econstructor. }
    assert (Hplain : rs ≠ [] ∨ n = 0).
    { apply andb_false_iff in Hnoop as [Hrs|Hn]; [left; by intros ->|right]. apply Nat.ltb_ge in Hn. lia. }
    clear Hnoop. unfold writeUpdate. fold blockOf. destruct moveTo as [target|].
    + destruct (blockOf target) as [why|] eqn:Hbt; [by intros [= <- <-]; split; [constructor|]|].
      destruct (writePatchText _ _ _ _ _ _) as [files1 ok] eqn:Hw.
      apply writeScoped_spec in Hw as [ [-> ->] |(_ & held & -> & Hok)]; [by intros [= <- <-]; split; [constructor|]|].
      assert (Hdiff : ∀ p, setFile target held files !! p ≠ files !! p →
                           p ∈ opPaths (UpdateFile path (Some target) hunks) ∧ blockOf p = None).
      { intros p Hp. apply setFile_changed in Hp as ->. by split; [right; left|]. }
      destruct ok; [|intros [= <- <-]; split; [by constructor; [|exists raw, rs, n]|exact Hdiff]].
      specialize (Hok eq_refl) as ->. assert (Heff := effect_move path target hunks raw rs n files Hraw Hplan Hplain).
      case_bool_decide as Htp; [by intros [= <- <-]|].
      destruct (deletePatchFile _ _ _) as [files2|] eqn:Hd.
      * apply deletePatchFile_Some in Hd as [-> _]. intros [= <- <-]. split; [by rw setFile_insert delete_insert_ne|].
        intros p Hp. destruct (decide (p = path)) as [->|Hne]; [by split; [left|]|]. rw lookup_delete_ne // in Hp. by apply Hdiff.
      * intros [= <- <-]. split; [by econstructor|exact Hdiff].
    + destruct (writePatchText _ _ _ _ _ _) as [files1 ok] eqn:Hw.
      apply writeScoped_spec in Hw as [ [-> ->] |(_ & held & -> & Hok)]; [by intros [= <- <-]; split; [constructor|]|].
      assert (Hdiff : ∀ p, setFile path held files !! p ≠ files !! p → p ∈ opPaths (UpdateFile path None hunks) ∧ blockOf p = None).
      { intros p Hp. apply setFile_changed in Hp as ->. by split; [left|]. }
      destruct ok; intros [= <- <-]; (split; [|exact Hdiff]).
      * rw Hok //. by econstructor.
      * by constructor; [|exists raw, rs, n].
Qed.

(** The operations in order, up to the first that fails. *)
Lemma applyOps_spec ops files files' r :
  applyOps ops files = (files', r) →
  match r with
  | inr results => Effects ops files results files'
  | inl error => ∃ before op after results files1,
      ops = before ++ op :: after ∧ Effects before files results files1 ∧ Leftover op error files1 files'
  end.
Proof.
  induction ops as [|op ops IH] in files, files', r |- *; [by intros [= <- <-]; constructor|].
  unfold applyOps. cbn [PatchApply.applyOps]. fold applyOps applyOp. destruct (applyOp op files) as [files1 r1] eqn:E.
  apply applyOp_spec in E. destruct r1 as [error|result].
  { intros [= <- <-]. destruct E as [E _]. exists [], op, ops, [], files. split; [done|]. by split; [constructor|]. }
  destruct E as [E _]. destruct (applyOps ops files1) as [files2 r2] eqn:E2. apply IH in E2. destruct r2 as [error|results].
  - intros [= <- <-]. destruct E2 as (before & op' & after & results & files3 & -> & Heff & Hl).
    exists (op :: before), op', after, (result :: results), files3. split; [done|]. split; [by econstructor|done].
  - intros [= <- <-]. by econstructor.
Qed.

Lemma applyOps_changes ops files files' r p :
  applyOps ops files = (files', r) → files' !! p ≠ files !! p → p ∈ ops ≫= opPaths ∧ blockOf p = None.
Proof.
  induction ops as [|op ops IH] in files, files', r |- *; [by intros [= <- <-]|].
  unfold applyOps. cbn [PatchApply.applyOps]. fold applyOps applyOp. destruct (applyOp op files) as [files1 r1] eqn:E.
  apply applyOp_spec in E. assert (Hd : ∀ p, files1 !! p ≠ files !! p → p ∈ opPaths op ∧ blockOf p = None) by by destruct r1, E.
  rw bind_cons elem_of_app. destruct r1 as [error|result]; [intros [= <- <-] [? ?]%Hd; by split; [left|]|].
  destruct (applyOps ops files1) as [files2 r2] eqn:E2.
  assert (files' = files2 → files' !! p ≠ files !! p → (p ∈ opPaths op ∨ p ∈ ops ≫= opPaths) ∧ blockOf p = None) as Hgo.
  { intros -> Hp. destruct (decide (files2 !! p = files1 !! p)) as [Heq|Hne].
    - rw Heq in Hp. apply Hd in Hp as [? ?]. by split; [left|].
    - destruct (IH _ _ _ E2 Hne). by split; [right|]. }
  destruct r2; intros [= <- <-]; by apply Hgo.
Qed.
End Calls.

(** ** The call *)

Section Patch.
Context (toLowerCase : text → text) (env : HostEnv) (stellaDataDirEnv : option text) (host : Host) (context : ToolContext).

Lemma resolveOp_paths op op' :
  resolveOp env op = inr op' →
  opPaths op' = resolve (cwd env) <$> opPaths op ∧ Forall (λ p, isAbsolute p = true) (opPaths op).
Proof.
  assert (Habs : ∀ raw p, requireAbsolutePatchPath env raw = inr p → p = resolve (cwd env) raw ∧ isAbsolute raw = true).
  { intros raw p. unfold requireAbsolutePatchPath. destruct (isAbsolute raw); by intros [= <-]. }
  destruct op as [path lines|path|path [target|] hunks]; cbn [resolveOp].
  all: destruct (requireAbsolutePatchPath env path) as [|p] eqn:E; [done|]; apply Habs in E as [-> Hp].
  3: destruct (requireAbsolutePatchPath env target) as [|q] eqn:E'; [done|]; apply Habs in E' as [-> Hq].
  all: intros [= <-]; split; [done|]; by repeat constructor.
Qed.

Lemma resolveOps_paths ops ops' :
  resolveOps env ops = inr ops' →
  ops' ≫= opPaths = resolve (cwd env) <$> (ops ≫= opPaths) ∧ Forall (λ p, isAbsolute p = true) (ops ≫= opPaths).
Proof.
  induction ops as [|op ops IH] in ops' |- *; cbn [resolveOps]; [by intros [= <-]|].
  destruct (resolveOp env op) as [|op1] eqn:E; [done|]. apply resolveOp_paths in E as [Hp Ha].
  destruct (resolveOps env ops) as [|ops1]; [done|]. intros [= <-]. destruct (IH ops1) as [Hps Has]; [done|].
  rw !bind_cons fmap_app Hp Hps. split; [done|]. by apply Forall_app.
Qed.

Lemma ensurePatchOpsWithinRoot_None ops root :
  ensurePatchOpsWithinRoot env ops root = None →
  Forall (λ p, isPathInsideRoot (resolve (cwd env) p) (resolve (cwd env) root) = true) (ops ≫= opPaths).
Proof.
  unfold ensurePatchOpsWithinRoot. rw fmap_None list_find_None. intros H. eapply Forall_impl; [exact H|]. intros p Hp. by apply not_false_iff_true.
Qed.

(** What a call comes down to. *)
Lemma handleApplyPatch_inv args files files' o :
  handleApplyPatch toLowerCase env stellaDataDirEnv host context args files = (files', o) →
  files' = files ∧ (∃ failure, o = inl failure)
  ∨ ∃ patch parsed ops r,
      patch = trim (default [] (match argInput args with Some i => Some i | None => argPatch args end))
      ∧ parsePatch env (toolContextHome env context) patch = inr parsed ∧ resolveOps env parsed = inr ops
      ∧ (∀ root, scopedWorkspaceRoot context = Some root → ensurePatchOpsWithinRoot env ops root = None)
      ∧ applyOps toLowerCase env stellaDataDirEnv host context ops files = (files', r)
      ∧ o = match r with inl error => inl (OpFailed error) | inr results => inr results end.
Proof.
  unfold handleApplyPatch. set (patch := trim _). case_bool_decide; [by intros [= <- <-]; left; split; [|eexists]|].
  destruct (parsePatch _ _ patch) as [|parsed] eqn:Hparse; [by intros [= <- <-]; left; split; [|eexists]|].
  destruct (resolveOps env parsed) as [|ops] eqn:Hops; [by intros [= <- <-]; left; split; [|eexists]|].
  destruct (applyOps _ _ _ _ _ ops files) as [files1 r] eqn:Hrun.
  destruct (scopedWorkspaceRoot context) as [root|]; [destruct (ensurePatchOpsWithinRoot env ops root) eqn:Hroot|].
  1: by intros [= <- <-]; left; split; [|eexists].
  all: intros Heq; right; exists patch, parsed, ops, r; destruct r; injection Heq as <- <-;
    split_and!; try done; by intros ? [= <-].
Qed.

(** C14: A call of [apply_patch], whatever its envelope says and however it ends, changes no file
    but those its operations name by absolute paths that the protection of system and
    credential files lets through and, in a call confined to a workspace, that lie below the
    workspace's root. *)
Theorem patch_call_touches_only_permitted_paths args files files' o p :
  handleApplyPatch toLowerCase env stellaDataDirEnv host context args files = (files', o) →
  files' !! p ≠ files !! p →
  isBlockedPath toLowerCase env stellaDataDirEnv context p = None
  ∧ (∃ patch ops raw,
       patch = trim (default [] (match argInput args with Some i => Some i | None => argPatch args end))
       ∧ parsePatch env (toolContextHome env context) patch = inr ops
       ∧ raw ∈ ops ≫= opPaths ∧ isAbsolute raw = true ∧ p = resolve (cwd env) raw)
  ∧ ∀ root, scopedWorkspaceRoot context = Some root →
      ∃ rest, p = ofSegments (segmentsOf (resolve (cwd env) root) ++ rest) ∧ Forall goodSegment rest.
Proof.
  intros [ [-> _] |(patch & parsed & ops & r & Hpatch & Hparse & Hops & Hroot & Hrun & _)]%handleApplyPatch_inv Hp; [done|].
  destruct (applyOps_changes _ _ _ _ _ _ _ _ _ _ Hrun Hp) as [Hin Hb]. split; [exact Hb|].
  destruct (resolveOps_paths _ _ Hops) as [Hpaths Habs]. assert (Hin' := Hin). rw Hpaths in Hin'.
  apply list_elem_of_fmap in Hin' as (raw & Hraw & Hrawin). split.
  - exists patch, parsed, raw. repeat (split; [done|]). rw Forall_forall in Habs. by split; [apply Habs|].
  - intros root Hr. specialize (Hroot root Hr). apply ensurePatchOpsWithinRoot_None in Hroot. rw Forall_forall in Hroot.
    specialize (Hroot p Hin). rw Hraw resolve_resolved in Hroot. apply isPathInsideRoot_spec in Hroot as (rest & Hseg & _).
    exists rest. rw -Hseg Hraw. split; [by unfold resolve; rw segmentsOf_ofSegments; [apply segmentsOf_good|]|].
    assert (Hg := segmentsOf_good (resolve (cwd env) raw)). rw Hseg in Hg. by apply Forall_app in Hg as [_ ?].
Qed.

(** C19: A call of [apply_patch] runs the operations of its envelope in order: if it succeeds, each
    had its documented effect on what the ones before it left; if it fails, either no file
    changed, or the operations before the failed one had theirs and stay.  The failed one then left
    everything as it was, with two exceptions: if its write failed half way, the file it was
    writing, which for an added file was not there before; and if the original of a move could
    not be removed, the new file next to it. *)
Theorem patch_call_runs_operations_in_order args files files' o :
  handleApplyPatch toLowerCase env stellaDataDirEnv host context args files = (files', o) →
  match o with
  | inr results => ∃ patch parsed ops,
      parsePatch env (toolContextHome env context) patch = inr parsed ∧ resolveOps env parsed = inr ops
      ∧ Effects ops files results files'
  | inl failure =>
      files' = files
      ∨ ∃ patch parsed before op after results error files1,
          parsePatch env (toolContextHome env context) patch = inr parsed
          ∧ resolveOps env parsed = inr (before ++ op :: after) ∧ failure = OpFailed error
          ∧ Effects before files results files1 ∧ Leftover op error files1 files'
  end.
Proof.
  intros [ [-> [failure ->]] |(patch & parsed & ops & r & _ & Hparse & Hops & _ & Hrun & ->)]%handleApplyPatch_inv; [by left|].
  apply applyOps_spec in Hrun. destruct r as [error|results].
  - destruct Hrun as (before & op & after & results & files1 & -> & Heff & Hl). right.
    by exists patch, parsed, before, op, after, results, error, files1.
  - by exists patch, parsed, ops.
Qed.

Lemma patchText_lines raw : patchText raw (patchLines raw) = raw.
Proof.
  unfold patchText, patchLines, endsWith. case_bool_decide as H; [|by rw app_nil_r join_splitOn].
  set (init := take (length raw - 1) raw). assert (E : raw = init ++ [newline]) by (rw -(take_drop (length raw - 1) raw) H //).
  rw E. unfold newline. rw (splitOn_app_sep 10 init []). cbn [splitOn]. rw removelast_last. by rw join_splitOn.
Qed.

(** The patch of one file. *)
Definition filePatch (p : text) (hunks : list Hunk) : PatchArgs :=
  {| argInput := Some (renderPatch [UpdateFile p None hunks]); argPatch := None |}.

(** C12: A patch that fits its file is applied: the call reads the envelope it was sent, finds each
    chunk where it stands first after the one before it and its header, and replaces its old
    lines with its new ones; the rest of the file, its last newline included, and every other
    file stay as they were. *)
Theorem fitting_patch_is_applied p hunks gs raw files :
  goodOp env (toolContextHome env context) (UpdateFile p None hunks) →
  isAbsolute p = true → resolve (cwd env) p = p →
  (∀ root, scopedWorkspaceRoot context = Some root → isPathInsideRoot p (resolve (cwd env) root) = true) →
  isBlockedPath toLowerCase env stellaDataDirEnv context p = None → unreadable host p = false → files !! p = Some raw →
  writer host 1 p (patchText raw (weave gs (newLinesOf <$> hunks))) = ReadBack (patchText raw (weave gs (newLinesOf <$> hunks))) →
  fits (patchLines raw) hunks gs →
  raw = patchText raw (weave gs (oldLinesOf <$> hunks))
  ∧ handleApplyPatch toLowerCase env stellaDataDirEnv host context (filePatch p hunks) files
    = (<[p := patchText raw (weave gs (newLinesOf <$> hunks))]> files, inr [Updated p None]).
Proof.
  intros Hgood Habs Hres Hroot Hb Hr Hraw Hw Hfit. split; [by rw -(fits_weave _ _ _ Hfit) patchText_lines|].
  unfold handleApplyPatch, filePatch. cbn [argInput default]. rw trim_renderPatch.
  rw bool_decide_false; [by apply renderPatch_nonempty|].
  rw parse_rendered; [by constructor|]. cbn [resolveOps resolveOp]. unfold requireAbsolutePatchPath. rw Habs Hres.
  assert (Hrun : applyOps toLowerCase env stellaDataDirEnv host context [UpdateFile p None hunks] files
                 = (<[p := patchText raw (weave gs (newLinesOf <$> hunks))]> files, inr [Updated p None])).
  { cbn [applyOps applyOp]. unfold applyUpdate, blockOf, readPatchText. rw Hb Hr Hraw.
    destruct (fitting_plan _ _ _ Hfit) as (rs & Hplan & Hlen & Happ). rw Hplan Happ andb_false_r.
    unfold writeUpdate, writePatchText. by rw writeScoped_verified. }
  rw Hrun. destruct (scopedWorkspaceRoot context) as [root|]; [|done].
  assert (ensurePatchOpsWithinRoot env [UpdateFile p None hunks] root = None) as ->; [|done].
  unfold ensurePatchOpsWithinRoot. rw fmap_None list_find_None. simpl. apply Forall_singleton. by rw Hres Hroot.
Qed.
End Patch.

(** ** A call *)

Definition demoEnv : HostEnv :=
  {| userProfile := []; localAppData := []; appData := []; tempDir := u "/tmp"; homedir := u "/home/me"; cwd := u "/" |}.
Definition demoContext : ToolContext :=
  {| toolHome := None; toolWorkspaceRoot := Some (u "/w"); stellaDataDir := None; stellaAppDir := None |}.
Definition openHost : Host := {| unreadable := λ _, false; writer := openWriter; unremovable := λ _, false |}.
Definition demoCall : PatchArgs → Files → Files * (PatchFailure + list OpResult) :=
  handleApplyPatch (fmap lowerAscii) demoEnv None openHost demoContext.
Definition textOf (lines : list String.string) : text := join [newline] (u <$> lines).

Lemma fitting_patch_is_applied_witness :
  let raw := textOf ["fn f"; "  x"; "fn g"; "  x"; ""] in
  let hunk := {| header := Some (u "fn g"); hunkLines := [Remove (u "  x"); Add (u "  y")]; isEndOfFile := false |} in
  let files : Files := {[ u "/w/a" := raw ]} in
  let gs := [u <$> ["fn f"; "  x"; "fn g"]; []] in
  raw = patchText raw (weave gs (oldLinesOf <$> [hunk]))
  ∧ demoCall (filePatch (u "/w/a") [hunk]) files
    = (<[u "/w/a" := patchText raw (weave gs (newLinesOf <$> [hunk]))]> files, inr [Updated (u "/w/a") None]).
Proof.
  intros raw hunk files gs.
  apply (fitting_patch_is_applied (fmap lowerAscii) demoEnv None openHost demoContext (u "/w/a") [hunk] gs raw files).
  - assert (Hp : ∀ t, forallb (λ c, negb (c =? newline) && negb (c =? carriageReturn))%N t = true → oneLine t)
      by apply oneLine_literal.
    repeat constructor; try (by apply Hp); try (by vm_compute); try done; by left.
  - done.
  - by vm_compute.
  - intros root [= <-]. by vm_compute.
  - by vm_compute.
  - done.
  - done.
  - by vm_compute.
  - split; [done|]. split; [done|]. split; [|by exists []].
    exists 3. split; [|split; [simpl; lia|intros j ? Hj; simpl in Hj; lia]]. exists 2. split; [done|]. split; [done|].
    intros [|[|j]] Hj; [done|done|lia].
Defined.

(** An envelope whose second operation names a file that is not there: the first stays. *)
Definition brokenPatch : PatchArgs :=
  {| argInput := None;
     argPatch := Some (textOf ["*** Begin Patch"; "*** Add File: /w/new"; "+one"; "*** Delete File: /w/gone"; "*** End Patch"]) |}.

Lemma patch_call_touches_only_permitted_paths_witness :
  isBlockedPath (fmap lowerAscii) demoEnv None demoContext (u "/w/new") = None
  ∧ (∃ patch ops raw,
       patch = trim (default [] (argPatch brokenPatch)) ∧ parsePatch demoEnv (toolContextHome demoEnv demoContext) patch = inr ops
       ∧ raw ∈ ops ≫= opPaths ∧ isAbsolute raw = true ∧ u "/w/new" = resolve (cwd demoEnv) raw)
  ∧ ∀ root, scopedWorkspaceRoot demoContext = Some root →
      ∃ rest, u "/w/new" = ofSegments (segmentsOf (resolve (cwd demoEnv) root) ++ rest) ∧ Forall goodSegment rest.
Proof.
  apply (patch_call_touches_only_permitted_paths (fmap lowerAscii) demoEnv None openHost demoContext brokenPatch ∅
           {[ u "/w/new" := textOf ["one"; ""] ]} (inl (OpFailed (HostRefused (u "/w/gone"))))); by vm_compute.
Defined.

Lemma patch_call_runs_operations_in_order_witness :
  let files' : Files := {[ u "/w/new" := textOf ["one"; ""] ]} in
  demoCall brokenPatch ∅ = (files', inl (OpFailed (HostRefused (u "/w/gone"))))
  ∧ (files' = ∅
     ∨ ∃ patch parsed before op after results error files1,
         parsePatch demoEnv (toolContextHome demoEnv demoContext) patch = inr parsed
         ∧ resolveOps demoEnv parsed = inr (before ++ op :: after)
         ∧ OpFailed (HostRefused (u "/w/gone")) = OpFailed error
         ∧ Effects before ∅ results files1 ∧ Leftover op error files1 files').
Proof.
  intros files'. split; [by vm_compute|].
  apply (patch_call_runs_operations_in_order (fmap lowerAscii) demoEnv None openHost demoContext brokenPatch ∅ files'
           (inl (OpFailed (HostRefused (u "/w/gone"))))). by vm_compute.
Defined.

(** [Add] creates a file that is not there, but a move replaces what is at its target. *)
Example move_replaces_its_target :
  let files : Files := {[ u "/w/a" := textOf ["x"; ""]; u "/w/b" := textOf ["kept"; ""] ]} in
  let move := textOf ["*** Begin Patch"; "*** Update File: /w/a"; "*** Move to: /w/b"; "@@"; "-x"; "+y"; "*** End Patch"] in
  let add := textOf ["*** Begin Patch"; "*** Add File: /w/b"; "+y"; "*** End Patch"] in
  demoCall {| argInput := Some move; argPatch := None |} files
    = ({[ u "/w/b" := textOf ["y"; ""] ]}, inr [Updated (u "/w/a") (Some (u "/w/b"))])
  ∧ demoCall {| argInput := Some add; argPatch := None |} files = (files, inl (OpFailed (HostRefused (u "/w/b")))).
Proof. by vm_compute. Qed.

(** A write that fails half way leaves a torn file, and the operations before it stay; a move
    whose write fails keeps its original. *)
Example torn_write_ends_the_patch :
  let torn := {| unreadable := λ _, false; unremovable := λ _, false;
                 writer := λ _ p content, if bool_decide (p = u "/w/b") then Threw (Some (take 1 content)) else ReadBack content |} in
  let files : Files := {[ u "/w/a" := textOf ["x"; ""]; u "/w/b" := textOf ["kept"; ""] ]} in
  let patch := textOf ["*** Begin Patch"; "*** Add File: /w/c"; "+new"; "*** Update File: /w/a"; "*** Move to: /w/b"; "@@"; "-x"; "+y"; "*** End Patch"] in
  handleApplyPatch (fmap lowerAscii) demoEnv None torn demoContext {| argInput := Some patch; argPatch := None |} files
  = ({[ u "/w/a" := textOf ["x"; ""]; u "/w/b" := u "y"; u "/w/c" := textOf ["new"; ""] ]}, inl (OpFailed (HostRefused (u "/w/b")))).
Proof. by vm_compute. Qed.

(** A blank line between two chunks is not skipped: it becomes the last line of the chunk above,
    as context.  The search drops one such line if it must, so one separator is harmless; with
    two the chunk is not found. *)
Example blank_separators_join_the_chunk :
  let files : Files := {[ u "/w/a" := textOf ["x"; "z"; ""] ]} in
  let patch blanks :=
    textOf (["*** Begin Patch"; "*** Update File: /w/a"; "@@"; "-x"; "+y"] ++ blanks ++ ["@@"; "-z"; "+w"; "*** End Patch"])%list in
  demoCall {| argInput := Some (patch [""%string]); argPatch := None |} files
    = ({[ u "/w/a" := textOf ["y"; "w"; ""] ]}, inr [Updated (u "/w/a") None])
  ∧ demoCall {| argInput := Some (patch [""%string; ""%string]); argPatch := None |} files
    = (files, inl (OpFailed (PlanFailed (LinesNotFound [u "x"; []; []])))).
Proof. by vm_compute. Qed.
