(* ===== verification/FileLock.v ===== *)
(** * The locks of the file tools

    [packages/runtime/kernel/tools/file-write-lock.ts]: a chain of calls per path.  A call on
    several paths joins the chain of its first key, and of each next one when it is its turn on
    the one before, so that its function runs at the head of all of them; when the function
    settles, the keys are given back from the last to the first.  The promises of a chain are
    the list of its calls; the steps of the calls interleave as the events of a trace say.

    The function a call runs reads files and then writes files.  What it needs of the locks, that
    nobody else writes under its keys in between, is the class [Local]; the operations of
    [apply_patch] are instances. *)

From Corelib Require Import ssreflect.
From stdpp Require Import prelude gmap strings sorting.
From Stdlib Require Import Sorted.
From S2P Require Import Prelude Text HostPaths FileTools PatchParse PatchPlan PatchApply.

#[local] Open Scope nat_scope.

(** ** Keys *)

(** The order of [sort]: by the units of the texts. *)
Fixpoint textLe (a b : text) : bool :=
  match a, b with
  | [], _ => true
  | _ :: _, [] => false
  | x :: a, y :: b => (x <? y)%N || (x =? y)%N && textLe a b
  end.

Definition textOrder (a b : text) : Prop := textLe a b = true.

#[export] Instance textOrder_dec a b : Decision (textOrder a b).
Proof. unfold textOrder. apply _. Defined.

Definition lockKeyForPath (env : HostEnv) (linux : bool) (toLowerCase : text → text) (filePath : text) : text :=
  let resolved := resolve (cwd env) filePath in
  if linux then resolved else toLowerCase resolved.

(** [[...new Set(keys)].sort()] *)
Definition lockKeys (lockKey : text → text) (filePaths : list text) : list text :=
  merge_sort textOrder (remove_dups (lockKey <$> filePaths)).

(** ** Calls *)

(** Waiting for its turn on the key after those it holds; running its function, which has read
    [snapshot] of the files once it starts to write; giving its keys back. *)
Inductive Phase := Waiting | Inside (snapshot : option Files) | Leaving.

Record Call := { keys : list text; held : nat; phase : Phase }.

Record State := { calls : gmap nat Call; queues : gmap text (list nat); store : Files }.

Definition init (files : Files) : State := {| calls := ∅; queues := ∅; store := files |}.

(** [prev.then(fn, fn)]: last in the chain of the key. *)
Definition enqueue (key : text) (id : nat) (qs : gmap text (list nat)) : gmap text (list nat) :=
  <[key := default [] (qs !! key) ++ [id]]> qs.

(** The head of a chain settles; the last one drops it. *)
Definition dequeue (key : text) (qs : gmap text (list nat)) : gmap text (list nat) :=
  match qs !! key with
  | Some (_ :: (_ :: _) as rest) => <[key := rest]> qs
  | _ => delete key qs
  end.

(** [withFileWriteLock] of the next key, or the function itself. *)
Definition advance (id : nat) (ks : list text) (n : nat) (st : State) : State :=
  match ks !! n with
  | Some key =>
      {| calls := <[id := {| keys := ks; held := n; phase := Waiting |}]> (calls st);
         queues := enqueue key id (queues st); store := store st |}
  | None =>
      {| calls := <[id := {| keys := ks; held := n; phase := Inside None |}]> (calls st);
         queues := queues st; store := store st |}
  end.

(** What [withFileWriteLocks] is called with. *)
Record Job := { filePaths : list text; fn : Files → Files }.

Section Locks.
Context (lockKey : text → text) (job : nat → Job).

(** The files under keys from one store, the others from another. *)
Definition overlay (ks : list text) (before after : Files) : Files :=
  filter (λ pc, lockKey pc.1 ∈ ks) after ∪ filter (λ pc, lockKey pc.1 ∉ ks) before.

Inductive Event :=
  | Begin (id : nat)
  | Granted (id : nat)
  | Reads (id : nat)
  | Writes (id : nat)
  | Releases (id : nat).

Definition queueOf (st : State) (key : text) : list nat := default [] (queues st !! key).

Definition withPhase (id : nat) (c : Call) (n : nat) (ph : Phase) (st : State) : State :=
  {| calls := <[id := {| keys := keys c; held := n; phase := ph |}]> (calls st); queues := queues st; store := store st |}.

Definition step (st : State) (e : Event) : option State :=
  match e with
  | Begin id =>
      match calls st !! id with
      | None => Some (advance id (lockKeys lockKey (filePaths (job id))) 0 st)
      | Some _ => None
      end
  | Granted id =>
      match calls st !! id with
      | Some {| keys := ks; held := n; phase := Waiting |} =>
          match ks !! n with
          | Some key => if bool_decide (head (queueOf st key) = Some id) then Some (advance id ks (S n) st) else None
          | None => None
          end
      | _ => None
      end
  | Reads id =>
      match calls st !! id with
      | Some ({| held := n; phase := Inside None |} as c) => Some (withPhase id c n (Inside (Some (store st))) st)
      | _ => None
      end
  | Writes id =>
      match calls st !! id with
      | Some ({| keys := ks; held := n; phase := Inside (Some snapshot) |} as c) =>
          Some (withPhase id c n Leaving
                  {| calls := calls st; queues := queues st; store := overlay ks (store st) (fn (job id) snapshot) |})
      | _ => None
      end
  | Releases id =>
      match calls st !! id with
      | Some ({| keys := ks; held := S n; phase := Leaving |} as c) =>
          match ks !! n with
          | Some key =>
              Some (withPhase id c n Leaving {| calls := calls st; queues := dequeue key (queues st); store := store st |})
          | None => None
          end
      | _ => None
      end
  end.

Fixpoint steps (st : State) (es : list Event) : option State :=
  match es with
  | [] => Some st
  | e :: es => match step st e with Some st => steps st es | None => None end
  end.

(** The calls whose functions wrote, in order. *)
Definition writers (es : list Event) : list nat :=
  omap (λ e, match e with Writes id => Some id | _ => None end) es.
End Locks.

(** ** The order of keys *)

#[export] Instance textOrder_trans : Transitive textOrder.
Proof.
  unfold textOrder. intros a. induction a as [|x a IH]; intros [|y b] [|z c]; try done. simpl.
  rw !orb_true_iff !andb_true_iff !N.ltb_lt !N.eqb_eq. intros [Hxy|[-> Hab]] [Hyz|[-> Hbc]].
  - left. lia.
  - by left.
  - by left.
  - right. split; [done|]. by eapply IH.
Qed.

#[export] Instance textOrder_total : Total textOrder.
Proof.
  unfold textOrder. intros a. induction a as [|x a IH]; intros [|y b]; try (by left + right). simpl.
  rw !orb_true_iff !andb_true_iff !N.ltb_lt !N.eqb_eq. destruct (N.lt_trichotomy x y) as [?|[->|?]]; [by left; left| |by right; left].
  destruct (IH b); [left|right]; by right.
Qed.

#[export] Instance textOrder_antisymm : AntiSymm (=) textOrder.
Proof.
  unfold textOrder. intros a. induction a as [|x a IH]; intros [|y b]; try done. simpl.
  rw !orb_true_iff !andb_true_iff !N.ltb_lt !N.eqb_eq. intros [Hxy|[-> Hab]] [Hyz|[He Hbc]]; try lia. f_equal. by apply IH.
Qed.

(** Strictly before. *)
Definition before (a b : text) : Prop := textOrder a b ∧ a ≠ b.

#[export] Instance before_trans : Transitive before.
Proof.
  intros x y z [Hxy Hne] [Hyz Hne']. split; [by etrans|]. intros ->. apply Hne. by apply (anti_symm textOrder).
Qed.

Lemma StronglySorted_strict l : StronglySorted textOrder l → NoDup l → StronglySorted before l.
Proof.
  intros H. induction H as [|x l H IH Hall]; [constructor|]. intros [Hx Hn]%NoDup_cons. constructor; [by apply IH|].
  rw Forall_forall in Hall. apply Forall_forall. intros y Hy. split; [by apply Hall|]. by intros ->.
Qed.

Lemma lockKeys_sorted lockKey paths : StronglySorted before (lockKeys lockKey paths).
Proof.
  unfold lockKeys. apply StronglySorted_strict; [apply (StronglySorted_merge_sort _)|].
  rw merge_sort_Permutation. apply NoDup_remove_dups.
Qed.

Lemma elem_of_lockKeys lockKey paths k : k ∈ lockKeys lockKey paths ↔ ∃ p, p ∈ paths ∧ lockKey p = k.
Proof.
  unfold lockKeys. rw merge_sort_Permutation elem_of_remove_dups list_elem_of_fmap. split; [intros (q & -> & ?)|intros (q & ? & <-)]; by exists q.
Qed.

(** ** Chains *)

Lemma queueOf_enqueue key id st cs fs k :
  queueOf {| calls := cs; queues := enqueue key id (queues st); store := fs |} k
  = if bool_decide (k = key) then queueOf st key ++ [id] else queueOf st k.
Proof.
  unfold queueOf, enqueue. simpl. case_bool_decide as H; [subst; by rw lookup_insert_eq|]. by rw lookup_insert_ne.
Qed.

Lemma queueOf_dequeue key st cs fs k :
  queueOf {| calls := cs; queues := dequeue key (queues st); store := fs |} k
  = if bool_decide (k = key) then tail (queueOf st key) else queueOf st k.
Proof.
  unfold queueOf, dequeue. simpl. case_bool_decide as H.
  - subst. destruct (queues st !! key) as [[|x [|y q]]|] eqn:E; simpl; by rw ?lookup_insert_eq ?lookup_delete_eq.
  - destruct (queues st !! key) as [[|x [|y q]]|] eqn:E; by rw ?lookup_insert_ne ?lookup_delete_ne.
Qed.

(** ** Invariant *)

(** How many chains a call is in. *)
Definition joined (c : Call) : nat := match phase c with Waiting => S (held c) | _ => held c end.

(** What a function under locks may do: read and change the files under its keys. *)
Section LocalFunctions.
Context (lockKey : text → text).

(** The same files under keys. *)
Definition agree (ks : list text) (a b : Files) : Prop := ∀ p, lockKey p ∈ ks → a !! p = b !! p.

Class Local (ks : list text) (f : Files → Files) : Prop :=
  local snap now : agree ks snap now → overlay lockKey ks now (f snap) = f now.

Lemma lookup_overlay ks before after p :
  overlay lockKey ks before after !! p = if bool_decide (lockKey p ∈ ks) then after !! p else before !! p.
Proof.
  assert (Hnone : ∀ (P : text * text → Prop) `{!∀ x, Decision (P x)} (m : Files), (∀ c, ¬ P (p, c)) → filter P m !! p = None).
  { intros P ? m H. apply map_lookup_filter_None. right. intros c _. apply H. }
  assert (Hall : ∀ (P : text * text → Prop) `{!∀ x, Decision (P x)} (m : Files), (∀ c, P (p, c)) → filter P m !! p = m !! p).
  { intros P ? m H. destruct (m !! p) as [c|] eqn:E; [by apply map_lookup_filter_Some|apply map_lookup_filter_None; by left]. }
  unfold overlay. case_bool_decide; [rw lookup_union_l|rw lookup_union_r]; try (apply Hnone; simpl; tauto); by apply Hall.
Qed.
End LocalFunctions.

Section Invariant.
Context (lockKey : text → text) (job : nat → Job).
#[local] Abbreviation agree := (agree lockKey).

Record Inv (st : State) : Prop := {
  inv_sorted : ∀ id c, calls st !! id = Some c → StronglySorted before (keys c);
  inv_joined : ∀ id c, calls st !! id = Some c → joined c ≤ length (keys c);
  inv_inside : ∀ id c s, calls st !! id = Some c → phase c = Inside s → held c = length (keys c);
  inv_queue : ∀ key id, id ∈ queueOf st key ↔ ∃ c, calls st !! id = Some c ∧ key ∈ take (joined c) (keys c);
  inv_nodup : ∀ key, NoDup (queueOf st key);
  inv_nonempty : ∀ key, queues st !! key ≠ Some [];
  inv_head : ∀ id c key, calls st !! id = Some c → key ∈ take (held c) (keys c) → head (queueOf st key) = Some id;
  inv_snapshot : ∀ id c s, calls st !! id = Some c → phase c = Inside (Some s) → agree (keys c) s (store st);
}.

Lemma locks_Inv_init files : Inv (init files).
Proof.
  split; try done.
  - intros key id. split; [by intros ?%not_elem_of_nil|]. by intros (c & ? & _).
  - intros key. constructor.
Qed.

(** A key held belongs to one call. *)
Lemma held_once st id id' c c' key :
  Inv st → calls st !! id = Some c → calls st !! id' = Some c' →
  key ∈ take (held c) (keys c) → key ∈ take (held c') (keys c') → id = id'.
Proof. intros HI Hc Hc' Hk Hk'. assert (H := inv_head _ HI _ _ _ Hc Hk). rw (inv_head _ HI _ _ _ Hc' Hk') in H. by injection H. Qed.

Lemma inside_disjoint st id id' c c' s s' key :
  Inv st → calls st !! id = Some c → calls st !! id' = Some c' → phase c = Inside s → phase c' = Inside s' →
  key ∈ keys c → key ∈ keys c' → id = id'.
Proof.
  intros HI Hc Hc' Hp Hp' Hk Hk'. apply (held_once st id id' c c' key HI Hc Hc').
  - by rw (inv_inside _ HI _ _ _ Hc Hp) firstn_all.
  - by rw (inv_inside _ HI _ _ _ Hc' Hp') firstn_all.
Qed.

Lemma elem_of_take_S {A} (x : A) (l : list A) n y : l !! n = Some y → x ∈ take (S n) l ↔ x ∈ take n l ∨ x = y.
Proof. intros H. rw (take_S_r _ _ y) // elem_of_app list_elem_of_singleton. done. Qed.

Lemma sorted_fresh ks n key : StronglySorted before ks → ks !! n = Some key → key ∉ take n ks.
Proof.
  intros Hs Hk Hin. rw -(take_drop_middle ks n key Hk) in Hs. apply StronglySorted_app in Hs as (Hb & _ & _).
  by destruct (Hb key key Hin ltac:(by left)) as [_ ?].
Qed.

(** What a call has to be for the invariant, whatever the others are. *)
Definition callOk (st : State) (id : nat) (c : Call) : Prop :=
  StronglySorted before (keys c) ∧ joined c ≤ length (keys c)
  ∧ (∀ s, phase c = Inside s → held c = length (keys c))
  ∧ (∀ s, phase c = Inside (Some s) → agree (keys c) s (store st))
  ∧ (∀ key, id ∈ queueOf st key ↔ key ∈ take (joined c) (keys c))
  ∧ (∀ key, key ∈ take (held c) (keys c) → head (queueOf st key) = Some id).

Lemma Inv_callOk st id c : Inv st → calls st !! id = Some c → callOk st id c.
Proof.
  intros HI Hc. split_and!.
  - by apply (inv_sorted _ HI id).
  - by apply (inv_joined _ HI id).
  - intros s. by apply (inv_inside _ HI id).
  - intros s. by apply (inv_snapshot _ HI id).
  - intros key. rw (inv_queue _ HI). split; [by intros (c' & Hc' & ?); simplify_eq|by intros ?; exists c].
  - intros key. by apply (inv_head _ HI).
Qed.

(** A step of one call. *)
Lemma Inv_put st st' id c :
  Inv st → calls st' = <[id := c]> (calls st) → callOk st' id c →
  (∀ key i, i ≠ id → i ∈ queueOf st' key ↔ i ∈ queueOf st key) →
  (∀ key i, i ≠ id → head (queueOf st key) = Some i → head (queueOf st' key) = Some i) →
  (∀ key, NoDup (queueOf st' key)) → (∀ key, queues st' !! key ≠ Some []) →
  (∀ i c' s, i ≠ id → calls st !! i = Some c' → phase c' = Inside (Some s) → agree (keys c') s (store st')) →
  Inv st'.
Proof.
  intros HI Hcalls (Hsort & Hjoin & Hins & Hsnap & Hin & Hheld) Hothers Hheads Hnd Hne Hos.
  assert (Hlook : ∀ i c', calls st' !! i = Some c' → i = id ∧ c' = c ∨ i ≠ id ∧ calls st !! i = Some c').
  { intros i c'. rw Hcalls lookup_insert_Some. intros [[-> ->]|[? ?]]; [by left|by right]. }
  split; [| | | |done|done| |].
  - intros i c' [[-> ->]|[? Hc]]%Hlook; [done|by apply (inv_sorted _ HI i)].
  - intros i c' [[-> ->]|[? Hc]]%Hlook; [done|by apply (inv_joined _ HI i)].
  - intros i c' s [[-> ->]|[? Hc]]%Hlook; [by apply Hins|by apply (inv_inside _ HI i)].
  - intros key i. destruct (decide (i = id)) as [->|Hi].
    + rw Hin Hcalls lookup_insert_eq. split; [by intros ?; exists c|by intros (? & [= <-] & ?)].
    + rw Hothers // (inv_queue _ HI) Hcalls lookup_insert_ne //.
  - intros i c' key [[-> ->]|[Hi Hc]]%Hlook; [by apply Hheld|]. intros Hk. apply Hheads; [done|]. by apply (inv_head _ HI _ c').
  - intros i c' s [[-> ->]|[? Hc]]%Hlook; [by apply Hsnap|by apply (Hos i)].
Qed.

(** A call joins its next chain. *)
Lemma Inv_join st id ks n key :
  Inv st → StronglySorted before ks → ks !! n = Some key →
  (∀ k, k ∈ take n ks → head (queueOf st k) = Some id) → (∀ k, id ∈ queueOf st k ↔ k ∈ take n ks) →
  Inv {| calls := <[id := {| keys := ks; held := n; phase := Waiting |}]> (calls st);
         queues := enqueue key id (queues st); store := store st |}.
Proof.
  intros HI Hsort Hk Hheads Hin. pose proof (inv_snapshot _ HI) as Hsnap. assert (Hlt := lookup_lt_Some _ _ _ Hk). assert (Hfresh := sorted_fresh ks n key Hsort Hk).
  apply (Inv_put st _ id {| keys := ks; held := n; phase := Waiting |}); try done; [split_and!; try done| | | | |by intros i c' s _; apply Hsnap].
  - intros k. rw queueOf_enqueue. change (joined _) with (S n). rw (elem_of_take_S _ _ _ key) // -Hin.
    case_bool_decide as Hkk; [subst k; rw elem_of_app list_elem_of_singleton|]; tauto.
  - intros k Hkn. rw queueOf_enqueue. apply Hheads in Hkn. case_bool_decide; [|done]. subst k. by destruct (queueOf st key).
  - intros k i Hi. rw queueOf_enqueue. case_bool_decide; [|done]. subst k. rw elem_of_app list_elem_of_singleton. tauto.
  - intros k i Hi Hh. rw queueOf_enqueue. case_bool_decide; [|done]. subst k. by destruct (queueOf st key).
  - intros k. rw queueOf_enqueue. case_bool_decide; [|by apply HI]. apply NoDup_app. split; [by apply HI|].
    split; [|by apply NoDup_singleton]. intros i Hi ->%list_elem_of_singleton. by apply Hin in Hi.
  - intros k. simpl. unfold enqueue. destruct (decide (k = key)) as [->|?]; [rw lookup_insert_eq|rw lookup_insert_ne //; by apply HI].
    intros [= H]. by apply app_nil in H as [_ ?].
Qed.

(** A call whose chains and files stay as they are. *)
Lemma Inv_phase st id c :
  Inv st → callOk st id c → Inv {| calls := <[id := c]> (calls st); queues := queues st; store := store st |}.
Proof.
  intros HI Hok. apply (Inv_put st _ id c); try done; [by apply HI|by apply HI|]. intros i c' s _. apply (inv_snapshot _ HI).
Qed.

(** A call joins its next chain, or enters its function. *)
Lemma Inv_advance st id ks n :
  Inv st → StronglySorted before ks → n ≤ length ks →
  (∀ k, k ∈ take n ks → head (queueOf st k) = Some id) → (∀ k, id ∈ queueOf st k ↔ k ∈ take n ks) →
  Inv (advance id ks n st).
Proof.
  intros HI Hsort Hn Hheads Hin. unfold advance. destruct (ks !! n) as [key|] eqn:Hk; [by apply Inv_join|].
  apply lookup_ge_None in Hk. apply Inv_phase; [done|]. split_and!; try done. simpl. intros _ _. lia.
Qed.

Lemma Inv_release st id c n key :
  Inv st → calls st !! id = Some c → held c = S n → phase c = Leaving → keys c !! n = Some key →
  Inv (withPhase id c n Leaving {| calls := calls st; queues := dequeue key (queues st); store := store st |}).
Proof.
  intros HI Hc Hheld Hph Hk. destruct (Inv_callOk st id c HI Hc) as (Hsort & Hjoin & _ & _ & Hin & Hheads).
  pose proof (inv_snapshot _ HI) as Hsnap. assert (Hfresh := sorted_fresh _ n key Hsort Hk).
  unfold joined in Hjoin, Hin. rw Hph Hheld in Hjoin, Hin, Hheads.
  assert (Hhead : head (queueOf st key) = Some id) by (apply Hheads; rw (elem_of_take_S _ _ _ key) //; by right).
  destruct (queueOf st key) as [|i0 q] eqn:Hq; [done|]. injection Hhead as ->.
  assert (Hnd := inv_nodup _ HI key). rw Hq in Hnd. apply NoDup_cons in Hnd as [Hidq Hnd].
  apply (Inv_put st _ id {| keys := keys c; held := n; phase := Leaving |}); try done.
  - split_and!; try done; [unfold joined; simpl; lia| |]; intros k; rw queueOf_dequeue; unfold joined; simpl.
    + case_bool_decide as Hkk; [subst k; rw Hq; by split; intros ?|]. rw Hin (elem_of_take_S _ _ _ key) //. tauto.
    + intros Hkn. case_bool_decide as Hkk; [by subst k|]. apply Hheads. rw (elem_of_take_S _ _ _ key) //. by left.
  - intros k i Hi. rw queueOf_dequeue. case_bool_decide as Hkk; [|done]. subst k. rw Hq elem_of_cons. simpl. tauto.
  - intros k i Hi Hh. rw queueOf_dequeue. case_bool_decide as Hkk; [|done]. subst k. rw Hq in Hh. by injection Hh as ->.
  - intros k. rw queueOf_dequeue. case_bool_decide as Hkk; [by rw Hq|apply HI].
  - intros k. simpl. unfold dequeue. assert (Hne := inv_nonempty _ HI k).
    destruct (queues st !! key) as [[|x [|y r]]|] eqn:E; destruct (decide (k = key)) as [->|?];
      by rw ?lookup_insert_eq ?lookup_delete_eq ?lookup_insert_ne ?lookup_delete_ne.
  - intros i c' s _. apply Hsnap.
Qed.

Lemma Inv_write st id c snap :
  Inv st → calls st !! id = Some c → phase c = Inside (Some snap) →
  Inv (withPhase id c (held c) Leaving
         {| calls := calls st; queues := queues st; store := overlay lockKey (keys c) (store st) (fn (job id) snap) |}).
Proof.
  intros HI Hc Hph. destruct (Inv_callOk st id c HI Hc) as (Hsort & Hjoin & _ & _ & Hin & Hheads).
  unfold joined in Hjoin, Hin. rw Hph in Hjoin, Hin.
  apply (Inv_put st _ id {| keys := keys c; held := held c; phase := Leaving |}); try done; [by apply HI|by apply HI|].
  intros i c' s Hi Hc' Hs p Hp. simpl. rw lookup_overlay bool_decide_false; [|by apply (inv_snapshot _ HI i c')].
  intros Hpk. apply Hi. by apply (inside_disjoint st i id c' c (Some s) (Some snap) (lockKey p)).
Qed.

Lemma Inv_step st e st' : Inv st → step lockKey job st e = Some st' → Inv st'.
Proof.
  intros HI. destruct e as [id|id|id|id|id]; simpl; destruct (calls st !! id) as [c|] eqn:Hc; try done.
  - intros [= <-]. apply Inv_advance; [done|apply lockKeys_sorted|lia|by intros k ?%not_elem_of_nil|].
    intros k. rw (inv_queue _ HI) Hc. split; [by intros (? & ? & _)|by intros ?%not_elem_of_nil].
  - destruct c as [ks n [|s|]] eqn:Ec; try done. destruct (ks !! n) as [key|] eqn:Hk; [|done].
    case_bool_decide as Hh; [|done]. intros [= <-]. destruct (Inv_callOk st id _ HI Hc) as (Hsort & Hjoin & _ & _ & Hin & Hheads).
    apply Inv_advance; [done|done|done| |done]. intros k. rw (elem_of_take_S _ _ _ key) //.
    intros [Hkn|Hkk]; [by apply Hheads|congruence].
  - destruct c as [ks n [| [s|] |]] eqn:Ec; try done. intros [= <-]. apply Inv_phase; [done|].
    destruct (Inv_callOk st id _ HI Hc) as (Hsort & Hjoin & Hins & _ & Hin & Hheads). split_and!; try done.
    + intros s _. by apply (Hins None).
    + by intros s [= <-].
  - destruct c as [ks n [| [s|] |]] eqn:Ec; try done. intros [= <-]. by apply (Inv_write st id _ s HI Hc).
  - destruct c as [ks [|n] [|s|]] eqn:Ec; try done. destruct (ks !! n) as [key|] eqn:Hk; [|done]. intros [= <-].
    by apply Inv_release.
Qed.

Lemma Inv_steps st es st' : Inv st → steps lockKey job st es = Some st' → Inv st'.
Proof.
  induction es as [|e es IH] in st |- *; simpl; [by intros ? [= <-]|]. intros HI.
  destruct (step lockKey job st e) as [st1|] eqn:E; [|done]. apply IH. by eapply Inv_step.
Qed.

(** The calls are those the jobs ask for. *)
Definition ownKeys (st : State) : Prop :=
  ∀ id c, calls st !! id = Some c → keys c = lockKeys lockKey (filePaths (job id)).

Lemma calls_advance id ks n st i c :
  calls (advance id ks n st) !! i = Some c → i = id ∧ keys c = ks ∨ i ≠ id ∧ calls st !! i = Some c.
Proof.
  unfold advance. destruct (ks !! n); cbn [calls]; intros [[<- <-]|[Hi Hc]]%lookup_insert_Some; first [by left|right; by split].
Qed.

Lemma calls_withPhase id c n ph st i c' :
  calls (withPhase id c n ph st) !! i = Some c' → i = id ∧ keys c' = keys c ∨ i ≠ id ∧ calls st !! i = Some c'.
Proof. unfold withPhase. cbn [calls]. intros [[<- <-]|[Hi Hc]]%lookup_insert_Some; [by left|right; by split]. Qed.

Lemma ownKeys_step st e st' : ownKeys st → step lockKey job st e = Some st' → ownKeys st'.
Proof.
  intros Ho. destruct e as [id|id|id|id|id]; simpl; destruct (calls st !! id) as [c|] eqn:Hc; try done; try specialize (Ho id _ Hc) as Hid.
  - intros [= <-] i c' [[-> ->]|[_ Hi]]%calls_advance; [done|by apply Ho].
  - destruct c as [ks n [|s|]]; try done. destruct (ks !! n); [|done]. case_bool_decide; [|done].
    intros [= <-] i c' [[-> ->]|[_ Hi]]%calls_advance; [done|by apply Ho].
  - destruct c as [ks n [| [s|] |]]; try done. intros [= <-] i c' [[-> ->]|[_ Hi]]%calls_withPhase; [done|by apply Ho].
  - destruct c as [ks n [| [s|] |]]; try done. intros [= <-] i c' [[-> ->]|[_ Hi]]%calls_withPhase; [done|by apply Ho].
  - destruct c as [ks [|n] [|s|]]; try done. destruct (ks !! n); [|done].
    intros [= <-] i c' [[-> ->]|[_ Hi]]%calls_withPhase; [done|by apply Ho].
Qed.

(** A step writes what the job makes of the files there are, or nothing. *)
Lemma step_store st e st' :
  Inv st → ownKeys st → (∀ id, Local lockKey (lockKeys lockKey (filePaths (job id))) (fn (job id))) →
  step lockKey job st e = Some st' → store st' = foldl (λ fs id, fn (job id) fs) (store st) (writers [e]).
Proof.
  intros HI Ho Hlocal. destruct e as [id|id|id|id|id]; simpl; destruct (calls st !! id) as [c|] eqn:Hc; try done.
  - intros [= <-]. unfold advance. by destruct (_ !! 0).
  - destruct c as [ks n [|s|]]; try done. destruct (ks !! n); [|done]. case_bool_decide; [|done].
    intros [= <-]. unfold advance. by destruct (ks !! S n).
  - destruct c as [ks n [| [s|] |]]; try done. by intros [= <-].
  - destruct c as [ks n [| [s|] |]]; try done. intros [= <-]. simpl. assert (Hks := Ho id _ Hc). simpl in Hks.
    rw Hks. apply Hlocal. rw -Hks. by apply (inv_snapshot _ HI id _ s Hc).
  - destruct c as [ks [|n] [|s|]]; try done. destruct (ks !! n); [|done]. by intros [= <-].
Qed.

Lemma steps_store st es st' :
  Inv st → ownKeys st → (∀ id, Local lockKey (lockKeys lockKey (filePaths (job id))) (fn (job id))) →
  steps lockKey job st es = Some st' → store st' = foldl (λ fs id, fn (job id) fs) (store st) (writers es).
Proof.
  intros HI Ho Hlocal. induction es as [|e es IH] in st, HI, Ho |- *; simpl; [by intros [= <-]|].
  destruct (step lockKey job st e) as [st1|] eqn:E; [|done]. intros Hs.
  rw (IH st1) //; [by eapply Inv_step|by eapply ownKeys_step|]. rw (step_store st e st1) // -foldl_app. f_equal.
  unfold writers. by rw -omap_app.
Qed.
End Invariant.

(** ** Progress *)

Section Progress.
Context (lockKey : text → text) (job : nat → Job).

Definition over (c : Call) : Prop := phase c = Leaving ∧ held c = 0.
#[export] Instance over_dec c : Decision (over c).
Proof. unfold over. destruct (phase c); try (right; by intros [? _]). destruct (decide (held c = 0)); [by left|right; by intros [_ ?]]. Defined.

#[export] Instance waiting_dec (ph : Phase) : Decision (ph = Waiting).
Proof. destruct ph; [by left|by right|by right]. Defined.

(** The steps a call has left. *)
Definition remaining (c : Call) : Z :=
  match phase c with
  | Waiting => Z.of_nat (length (keys c) - held c + 2 + length (keys c))
  | Inside None => Z.of_nat (2 + held c)
  | Inside (Some _) => Z.of_nat (1 + held c)
  | Leaving => Z.of_nat (held c)
  end.
Definition stepsLeft (st : State) : Z := sum_by remaining (calls st).

(** A step of a call that has begun. *)
Definition internal (e : Event) : Prop := match e with Begin _ => False | _ => True end.

Lemma remaining_nonneg c : (0 ≤ remaining c)%Z.
Proof. unfold remaining. destruct (phase c) as [|[s|]|]; lia. Qed.

Lemma stepsLeft_put st st' id c c' :
  calls st !! id = Some c → calls st' = <[id := c']> (calls st) → remaining c' = (remaining c - 1)%Z →
  stepsLeft st' = (stepsLeft st - 1)%Z.
Proof. intros Hc Hcalls Hl. unfold stepsLeft. rw Hcalls (sum_by_update remaining _ _ c) //. lia. Qed.

Lemma step_counts st e st' :
  Inv lockKey st → internal e → step lockKey job st e = Some st' → stepsLeft st' = (stepsLeft st - 1)%Z.
Proof.
  intros HI. destruct e as [id|id|id|id|id]; simpl; try done; intros _; destruct (calls st !! id) as [c|] eqn:Hc; try done.
  - destruct c as [ks n [|s|]]; try done. destruct (ks !! n) as [key|] eqn:Hk; [|done]. case_bool_decide; [|done].
    intros [= <-]. assert (Hlt := lookup_lt_Some _ _ _ Hk). unfold advance. destruct (ks !! S n) as [key'|] eqn:Hk'.
    + assert (Hlt' := lookup_lt_Some _ _ _ Hk'). eapply (stepsLeft_put st _ id); [done|done|]. unfold remaining. simpl. lia.
    + apply lookup_ge_None in Hk'. eapply (stepsLeft_put st _ id); [done|done|]. unfold remaining. simpl. lia.
  - destruct c as [ks n [| [s|] |]]; try done. intros [= <-]. eapply (stepsLeft_put st _ id); [done|done|]. unfold remaining. simpl. lia.
  - destruct c as [ks n [| [s|] |]]; try done. intros [= <-]. eapply (stepsLeft_put st _ id); [done|done|]. unfold remaining. simpl. lia.
  - destruct c as [ks [|n] [|s|]]; try done. destruct (ks !! n); [|done]. intros [= <-].
    eapply (stepsLeft_put st _ id); [done|done|]. unfold remaining. simpl. lia.
Qed.

(** The keys calls wait for. *)
Definition wanted (st : State) : gset text :=
  list_to_set (omap (λ ic : nat * Call, match phase ic.2 with Waiting => keys ic.2 !! held ic.2 | _ => None end) (map_to_list (calls st)) : list text).

Lemma elem_of_wanted st key :
  key ∈ wanted st ↔ ∃ id c, calls st !! id = Some c ∧ phase c = Waiting ∧ keys c !! held c = Some key.
Proof.
  unfold wanted. rw elem_of_list_to_set list_elem_of_omap. split.
  - intros ([id c] & Hin%elem_of_map_to_list & Hk). exists id, c. simpl in Hk. by destruct (phase c).
  - intros (id & c & Hc & Hp & Hk). exists (id, c). split; [by apply elem_of_map_to_list|]. simpl. by rw Hp.
Qed.

(** A call that does not wait can take its step. *)
Lemma running_steps st id c :
  Inv lockKey st → calls st !! id = Some c → ¬ over c → phase c ≠ Waiting →
  ∃ e, internal e ∧ is_Some (step lockKey job st e).
Proof.
  intros HI Hc Hover Hp. assert (Hj := inv_joined _ _ HI id c Hc). destruct c as [ks n [| [s|] |]]; try done.
  - exists (Writes id). split; [done|]. simpl. by rw Hc.
  - exists (Reads id). split; [done|]. simpl. by rw Hc.
  - exists (Releases id). split; [done|]. simpl. rw Hc. destruct n as [|n]; [by destruct Hover|].
    unfold joined in Hj. simpl in Hj. destruct (lookup_lt_is_Some_2 ks n) as [key ->]; [lia|done].
Qed.

(** The call at the head of the chain of the last key anybody waits for can take its step. *)
Lemma some_step st id c :
  Inv lockKey st → calls st !! id = Some c → ¬ over c → ∃ e, internal e ∧ is_Some (step lockKey job st e).
Proof.
  intros HI Hc Hover. destruct (decide (phase c = Waiting)) as [Hw|Hw]; [|by apply (running_steps st id c)].
  assert (Hwant : wanted st ≠ ∅).
  { assert (Hj := inv_joined _ _ HI id c Hc). unfold joined in Hj. rw Hw in Hj.
    destruct (lookup_lt_is_Some_2 (keys c) (held c)) as [key Hkey]; [lia|]. intros He. apply (not_elem_of_empty key (C:=gset text)).
    rw -He. apply elem_of_wanted. by exists id, c. }
  destruct (minimal_exists_elem_of_L (flip before) (wanted st) Hwant) as (key & Hkey & Hmax).
  apply elem_of_wanted in Hkey as (id1 & c1 & Hc1 & Hw1 & Hk1).
  assert (Hin : id1 ∈ queueOf st key).
  { apply (inv_queue _ _ HI). exists c1. split; [done|]. unfold joined. rw Hw1 (elem_of_take_S _ _ _ key) //. by right. }
  destruct (queueOf st key) as [|id2 q] eqn:Hq; [by apply not_elem_of_nil in Hin|].
  assert (H2 : id2 ∈ queueOf st key) by (rw Hq; by left). apply (inv_queue _ _ HI) in H2 as (c2 & Hc2 & Hin2).
  destruct (decide (phase c2 = Waiting)) as [Hw2|Hw2].
  - assert (Hj2 := inv_joined _ _ HI id2 c2 Hc2). unfold joined in Hin2, Hj2. rw Hw2 in Hin2, Hj2.
    destruct (lookup_lt_is_Some_2 (keys c2) (held c2)) as [key2 Hkey2]; [lia|].
    rw (elem_of_take_S _ _ _ key2) // in Hin2. destruct Hin2 as [Hin2| ->].
    + exfalso. assert (Hb : before key key2).
      { assert (Hs := inv_sorted _ _ HI id2 c2 Hc2). rw -(take_drop_middle _ _ _ Hkey2) in Hs.
        apply StronglySorted_app in Hs as (Hab & _ & _). apply Hab; [done|by left]. }
      assert (Hmin : before key2 key) by (apply Hmax; [|exact Hb]; apply elem_of_wanted; by exists id2, c2).
      destruct Hb as [Hb Hne]. apply Hne. apply (anti_symm textOrder); [done|]. by destruct Hmin.
    + exists (Granted id2). split; [done|]. simpl. rw Hc2. destruct c2 as [ks2 n2 ph2]. simpl in *. subst ph2. rw Hkey2.
      rw bool_decide_true; [|done]. by rw Hq.
  - apply (running_steps st id2 c2); try done. intros [Hp2 Hh2]. unfold joined in Hin2. rw Hp2 Hh2 in Hin2. by apply not_elem_of_nil in Hin2.
Qed.

Lemma over_drained st : Inv lockKey st → (∀ id c, calls st !! id = Some c → over c) → queues st = ∅.
Proof.
  intros HI Hall. apply map_empty. intros key. destruct (queues st !! key) as [q|] eqn:Hq; [|done]. exfalso.
  destruct q as [|id q]; [by apply (inv_nonempty _ _ HI key)|].
  assert (Hin : id ∈ queueOf st key) by (unfold queueOf; rw Hq; by left). apply (inv_queue _ _ HI) in Hin as (c & Hc & Hin).
  destruct (Hall id c Hc) as [Hp Hh]. unfold joined in Hin. rw Hp Hh in Hin. by apply not_elem_of_nil in Hin.
Qed.

Lemma steps_count st es st' :
  Inv lockKey st → Forall internal es → steps lockKey job st es = Some st' →
  stepsLeft st' = (stepsLeft st - Z.of_nat (length es))%Z.
Proof.
  intros HI H. induction H as [|e es He H IH] in st, HI |- *; simpl; [intros [= <-]; lia|].
  destruct (step lockKey job st e) as [st1|] eqn:E; [|done]. intros Hs.
  rw (IH st1) //; [by eapply Inv_step|]. rw (step_counts st e st1) //. lia.
Qed.

Lemma steps_app st es es' :
  steps lockKey job st (es ++ es') = match steps lockKey job st es with Some st' => steps lockKey job st' es' | None => None end.
Proof. induction es as [|e es IH] in st |- *; simpl; [done|]. destruct (step lockKey job st e); [apply IH|done]. Qed.

Lemma written_leaves st es st' id :
  steps lockKey job st es = Some st' → (∃ c, calls st !! id = Some c ∧ phase c = Leaving) →
  id ∉ writers es ∧ ∃ c, calls st' !! id = Some c ∧ phase c = Leaving.
Proof.
  induction es as [|e es IH] in st |- *; simpl; [intros [= <-] ?; split; [by apply not_elem_of_nil|done]|].
  destruct (step lockKey job st e) as [st1|] eqn:E; [|done]. intros Hs (c & Hc & Hp).
  assert (Hstep : e ≠ Writes id ∧ ∃ c, calls st1 !! id = Some c ∧ phase c = Leaving).
  { destruct e as [i|i|i|i|i]; simpl in E; destruct (decide (i = id)) as [->|Hi]; rw ?Hc in E; try done.
    all: try (destruct c as [ks [|n] ph]; simpl in Hp; subst ph; done).
    5: { destruct c as [ks [|n] ph]; simpl in Hp; subst ph; [done|]. destruct (ks !! n); [|done]. injection E as <-.
         split; [done|]. eexists. split; [apply lookup_insert_eq|done]. }
    all: split; [by intros [=]|]; exists c; split; [|done]; destruct (calls st !! i) as [ [ks n ph] |]; try done.
    - injection E as <-. unfold advance. destruct (_ !! 0); simpl; by rw lookup_insert_ne.
    - destruct ph as [|?|]; try done. destruct (ks !! n); [|done]. case_bool_decide; [|done]. injection E as <-.
      unfold advance. destruct (_ !! S n); simpl; by rw lookup_insert_ne.
    - destruct ph as [| [?|] |]; try done. injection E as <-. simpl. by rw lookup_insert_ne.
    - destruct ph as [| [?|] |]; try done. injection E as <-. simpl. by rw lookup_insert_ne.
    - destruct n, ph as [|?|]; try done. destruct (ks !! n); [|done]. injection E as <-. simpl. by rw lookup_insert_ne. }
  destruct Hstep as [Hne Hl]. destruct (IH st1 Hs Hl) as [Hn Hl']. split; [|done]. unfold writers. destruct e; try exact Hn.
  cbn [omap list_omap]. apply not_elem_of_cons. split; [congruence|exact Hn].
Qed.

Lemma writers_once st es st' : steps lockKey job st es = Some st' → NoDup (writers es).
Proof.
  induction es as [|e es IH] in st |- *; simpl; [constructor|].
  destruct (step lockKey job st e) as [st1|] eqn:E; [|done]. intros Hs. assert (Hn := IH st1 Hs).
  destruct e as [i|i|i|i|i]; try exact Hn. cbn [writers omap list_omap]. apply NoDup_cons. split; [|exact Hn].
  apply (written_leaves st1 es st'); [done|]. simpl in E. destruct (calls st !! i) as [ [ks n [| [s|] |]] |]; try done.
  injection E as <-. eexists. split; [apply lookup_insert_eq|done].
Qed.
End Progress.

(** ** The operations of a patch *)

Section Operations.
Context (lockKey : text → text).

(** Files written and removed, one after the other. *)
Definition applyWrites (ws : list (text * option text)) (files : Files) : Files :=
  foldl (λ files w, match w.2 with Some content => <[w.1 := content]> files | None => delete w.1 files end) files ws.

Lemma applyWrites_same ws a b p : a !! p = b !! p → applyWrites ws a !! p = applyWrites ws b !! p.
Proof.
  induction ws as [|[q [content|]] ws IH] in a, b |- *; intros H; simpl; [done| |]; apply IH.
  - destruct (decide (p = q)) as [->|?]; [by rw !lookup_insert_eq|by rw !lookup_insert_ne].
  - destruct (decide (p = q)) as [->|?]; [by rw !lookup_delete_eq|by rw !lookup_delete_ne].
Qed.

Lemma applyWrites_other ws a p : p ∉ ws.*1 → applyWrites ws a !! p = a !! p.
Proof.
  induction ws as [|[q [content|]] ws IH] in a |- *; simpl; [done| |]; intros [? ?]%not_elem_of_cons; rw IH //.
  - by rw lookup_insert_ne.
  - by rw lookup_delete_ne.
Qed.

(** A function that reads some paths and writes only those needs no more than their locks. *)
Lemma writes_local paths f :
  (∀ snap now, (∀ p, p ∈ paths → snap !! p = now !! p) →
     ∃ ws, ws.*1 ⊆ paths ∧ f snap = applyWrites ws snap ∧ f now = applyWrites ws now) →
  Local lockKey (lockKeys lockKey paths) f.
Proof.
  intros Hf snap now Hag. destruct (Hf snap now) as (ws & Hws & Hs & Hn).
  { intros p Hp. apply Hag, elem_of_lockKeys. by exists p. }
  apply map_eq. intros p. rw lookup_overlay Hs Hn. case_bool_decide as Hp; [by apply applyWrites_same, Hag|].
  rw applyWrites_other //. intros Hin. apply Hp, elem_of_lockKeys. exists p. split; [by apply Hws|done].
Qed.

(** A write, torn or not, sets its path to what it leaves there, which depends on no other path. *)
Lemma writeScoped_writes writer context path content exclusive (snap now : Files) :
  snap !! path = now !! path →
  ∃ ws ok, ws.*1 ⊆ [path]
    ∧ writeScoped writer context path content exclusive snap = (applyWrites ws snap, ok)
    ∧ writeScoped writer context path content exclusive now = (applyWrites ws now, ok).
Proof.
  intros Hp.
  assert (Hone : ∀ n e (a b : Files), a !! path = b !! path →
    ∃ ws v, ws.*1 ⊆ [path] ∧ attemptWrite writer n path content e a = (applyWrites ws a, v)
            ∧ attemptWrite writer n path content e b = (applyWrites ws b, v)).
  { intros n e a b Hab. unfold attemptWrite. rw Hab. destruct (e && _); [by exists [], Thrown; split; [apply list_subseteq_nil|]|].
    destruct (writer n path content) as [|held|held]; [by exists [], Thrown; split; [apply list_subseteq_nil|]| |].
    - by exists [(path, held)], Thrown; destruct held.
    - by eexists [(path, Some held)], _. }
  unfold writeScoped, writeWorkspaceFileNoFollow, writeFileWithNulGuard. destruct (Hone 1 exclusive snap now Hp) as (ws & v & Hws & Ha & Hb).
  destruct (scopedWorkspaceRoot context); rw Ha Hb; [by eexists ws, _|]. destruct v; [by eexists ws, _| |by eexists ws, _].
  destruct (Hone 2 false (applyWrites ws snap) (applyWrites ws now)) as (ws' & v & Hws' & -> & ->); [by apply applyWrites_same|].
  eexists (ws ++ ws'), _. rw fmap_app /applyWrites !foldl_app. split; [|done]. by apply list_subseteq_app_iff_l.
Qed.

Lemma writes_within (ws : list (text * option text)) (xs ys : list text) : ws.*1 ⊆ xs → xs ⊆ ys → ws.*1 ⊆ ys.
Proof. intros H1 H2 x Hx. by apply H2, H1. Qed.

#[export] Instance applyOp_local toLowerCase env dataDir host context op :
  Local lockKey (lockKeys lockKey (opPaths op)) (λ files, (applyOp toLowerCase env dataDir host context op files).1).
Proof.
  apply writes_local. intros snap now Hag.
  assert (Hsame : ∃ ws : list (text * option text), ws.*1 ⊆ opPaths op ∧ snap = applyWrites ws snap ∧ now = applyWrites ws now).
  { exists []. split; [apply list_subseteq_nil|done]. }
  destruct op as [path lines|path|path moveTo hunks]; cbn [applyOp].
  - unfold applyAdd, writePatchText. destruct (blockOf _ _ _ _ path); [exact Hsame|].
    destruct (writeScoped_writes (writer host) context path (join [newline] lines ++ (if 0 <? length lines then [newline] else []))
                true snap now (Hag path ltac:(by left))) as (ws & ok & Hws & -> & ->).
    exists ws. split; [by apply (writes_within _ [path]); [done|intros x; simpl; tauto]|by destruct ok].
  - unfold applyDelete, deletePatchFile. destruct (blockOf _ _ _ _ path); [exact Hsame|]. destruct (unremovable host path); [exact Hsame|].
    rw (Hag path); [by left|]. destruct (now !! path); [|exact Hsame].
    exists [(path, None)]. split; [|done]. intros x. simpl. rw !elem_of_cons. tauto.
  - unfold applyUpdate, readPatchText. destruct (blockOf _ _ _ _ path); [exact Hsame|]. destruct (unreadable host path); [exact Hsame|].
    assert (Hp : snap !! path = now !! path) by (apply Hag; destruct moveTo; by left). rw Hp.
    destruct (now !! path) as [raw|] eqn:Hraw; [|exact Hsame]. destruct (computeReplacements _ hunks) as [|[rs n]]; [exact Hsame|].
    destruct (_ && _); [exact Hsame|]. set (content := patchText raw _). clearbody content.
    unfold writeUpdate, writePatchText, deletePatchFile. destruct moveTo as [target|].
    + destruct (blockOf _ _ _ _ target); [exact Hsame|].
      destruct (writeScoped_writes (writer host) context target content false snap now (Hag target ltac:(right; by left)))
        as (ws & ok & Hws & -> & ->).
      assert (Hin : ws.*1 ⊆ opPaths (UpdateFile path (Some target) hunks)).
      { apply (writes_within _ [target]); [done|]. intros x. simpl. rw !elem_of_cons. tauto. }
      destruct ok; [|by exists ws]. destruct (bool_decide (target = path)) eqn:Htp; [by exists ws|].
      apply bool_decide_eq_false in Htp. destruct (unremovable host path); [by exists ws|].
      rw !applyWrites_other; [intros [= ?]%Hws%list_elem_of_singleton; congruence..|]. rw Hp Hraw.
      exists (ws ++ [(path, None)]). rw fmap_app /applyWrites !foldl_app. split; [|done].
      intros x [Hx|Hx%list_elem_of_singleton]%elem_of_app; [by apply Hin|]. subst x. by left.
    + destruct (writeScoped_writes (writer host) context path content false snap now (Hag path ltac:(by left))) as (ws & ok & Hws & -> & ->).
      exists ws. split; [by apply (writes_within _ [path]); [done|intros x; simpl; tauto]|by destruct ok].
Qed.
End Operations.

(** C11: Calls under locks leave the files as if they had run one after the other: however the
    steps of the calls interleave, what the files are at any point is what the functions that
    wrote so far make of the first files, each applied to the whole outcome of the one before, in
    the order in which they wrote; and a call writes once. *)
Theorem locked_writes_are_serial lockKey job files es st :
  (∀ id, Local lockKey (lockKeys lockKey (filePaths (job id))) (fn (job id))) →
  steps lockKey job (init files) es = Some st →
  store st = foldl (λ fs id, fn (job id) fs) files (writers es) ∧ NoDup (writers es).
Proof.
  intros Hlocal Hs. split; [|by eapply writers_once]. apply (steps_store lockKey job (init files)); [apply locks_Inv_init|done|done|done].
Qed.

(** C17: Calls that name the same paths in whatever order never wait for each other in a circle:
    from any state, a sequence of steps of the calls under way is no longer than the steps they
    have left, and one that cannot go on has finished every call and left no chain behind. *)
Theorem file_locks_always_drain lockKey job files es st es' st' :
  steps lockKey job (init files) es = Some st → Forall internal es' → steps lockKey job st es' = Some st' →
  (Z.of_nat (length es') ≤ stepsLeft st)%Z
  ∧ ((∀ e, internal e → step lockKey job st' e = None) → (∀ id c, calls st' !! id = Some c → over c) ∧ queues st' = ∅).
Proof.
  intros Hs Hint Hs'. assert (HI : Inv lockKey st) by (eapply Inv_steps; [apply locks_Inv_init|done]).
  assert (HI' : Inv lockKey st') by by eapply Inv_steps. split.
  - assert (E := steps_count lockKey job st es' st' HI Hint Hs').
    assert (0 ≤ stepsLeft st')%Z by (apply sum_by_nonneg; intros; apply remaining_nonneg). lia.
  - intros Hstuck. assert (Hall : ∀ id c, calls st' !! id = Some c → over c).
    { intros id c Hc. destruct (decide (over c)) as [|Hover]; [done|].
      destruct (some_step lockKey job st' id c HI' Hc Hover) as (e & He & st2 & Hst2). rw Hstuck // in Hst2. }
    split; [done|]. by apply (over_drained lockKey).
Qed.

(** ** Two moves of the same two files *)

(** One call moves [/w/a] to [/w/b], the other [/w/b] to [/w/a]. *)
Definition demoJob (id : nat) : Job :=
  let move from to := UpdateFile (u from) (Some (u to)) [{| header := None; hunkLines := [Add (u "+")]; isEndOfFile := false |}] in
  let op := if id =? 0 then move "/w/a" "/w/b" else move "/w/b" "/w/a" in
  {| filePaths := opPaths op;
     fn := λ files, (applyOp (fmap lowerAscii) demoEnv None openHost demoContext op files).1 |}.
Definition demoKey : text → text := lockKeyForPath demoEnv true id.
Definition demoFiles : Files := {[ u "/w/a" := u "one" ]}.
Definition demoEvents : list Event :=
  [Begin 1; Begin 0; Granted 1; Granted 1; Reads 1; Writes 1; Releases 1; Releases 1; Granted 0; Granted 0; Reads 0; Writes 0].

Lemma locked_writes_are_serial_witness :
  match steps demoKey demoJob (init demoFiles) demoEvents with
  | Some st => store st = foldl (λ fs id, fn (demoJob id) fs) demoFiles (writers demoEvents) ∧ NoDup (writers demoEvents)
               ∧ store st !! u "/w/b" = Some (textOf ["one"; "+"])
  | None => False
  end.
Proof.
  destruct (steps demoKey demoJob (init demoFiles) demoEvents) as [st|] eqn:E; [|by vm_compute in E].
  destruct (locked_writes_are_serial demoKey demoJob demoFiles demoEvents st) as [Hst Hn]; [|exact E|].
  - intros i. unfold demoJob. destruct (i =? 0); apply applyOp_local.
  - split; [exact Hst|]. split; [exact Hn|]. rw Hst. by vm_compute.
Defined.

(** Both calls are under way, one holds a key the other waits for. *)
Lemma file_locks_always_drain_witness :
  match steps demoKey demoJob (init demoFiles) (take 3 demoEvents) with
  | Some st => match steps demoKey demoJob st (drop 3 demoEvents) with
               | Some st' => (Z.of_nat 9 ≤ stepsLeft st)%Z
                             ∧ ((∀ e, internal e → step demoKey demoJob st' e = None) →
                                (∀ id c, calls st' !! id = Some c → over c) ∧ queues st' = ∅)
               | None => False
               end
  | None => False
  end.
Proof.
  destruct (steps demoKey demoJob (init demoFiles) (take 3 demoEvents)) as [st|] eqn:E; [|by vm_compute in E].
  destruct (steps demoKey demoJob st (drop 3 demoEvents)) as [st'|] eqn:E'.
  - refine (file_locks_always_drain demoKey demoJob demoFiles (take 3 demoEvents) st (drop 3 demoEvents) st' E _ E').
    by repeat constructor.
  - assert (H : steps demoKey demoJob (init demoFiles) (take 3 demoEvents ++ drop 3 demoEvents) = None) by by rw steps_app E.
    by vm_compute in H.
Defined.
