(* ===== verification/WorkspaceFs.v ===== *)
(** * A file system under attack

    What [packages/runtime/kernel/tools/workspace-file-boundary.ts] uses of the file system on
    Linux: inodes, entries opened relative to an opened directory without following symbolic
    links, and calls on opened files.  A tool runs in a trusted process while the commands of the
    model run as another user in the same workspace, so between any two calls that user may
    change the files: a program is a tree of calls, run against a schedule of such changes.

    An inode is never given to another file while the program runs; its [version] stands for its
    times, and moves with every change of its content.  A read or write transfers all it can. *)

From Corelib Require Import ssreflect.
From stdpp Require Import prelude gmap strings.
From S2P Require Import Prelude Text.

#[local] Open Scope nat_scope.

(** ** Inodes *)

Inductive Kind := Directory (entries : gmap text nat) | Regular (bytes : list N) | Symlink (target : text).

Record Inode := { kind : Kind; owner : nat; nlink : nat; version : nat }.

Definition Fs : Type := gmap nat Inode.

Inductive Errno := ENOENT | EEXIST | ELOOP | ENOTDIR | EISDIR | EBADF.

(** The identity of the trusted process. *)
Definition self : nat := 0.

(** ** Calls *)

(** Opened: an existing directory, an existing file for reading or for writing, or a new file
    ([O_CREAT | O_EXCL]).  No call follows a link in the last component. *)
Inductive OpenMode := OpenDirectory | OpenRead | OpenWrite | CreateNew.

Inductive Sys : Type → Type :=
  | OpenAt (dir : nat) (name : text) (mode : OpenMode) : Sys (Errno + nat)
  | MkdirAt (dir : nat) (name : text) : Sys (Errno + ())
  | LstatAt (dir : nat) (name : text) : Sys (Errno + (nat * Inode))
  | UnlinkAt (dir : nat) (name : text) : Sys (Errno + ())
  | Fstat (file : nat) : Sys (Errno + Inode)
  | Fchown (file : nat) (to : nat) : Sys (Errno + ())
  | Ftruncate (file : nat) (length : nat) : Sys (Errno + ())
  | Pwrite (file : nat) (bytes : list N) (offset : nat) : Sys (Errno + nat)
  | Pread (file : nat) (length offset : nat) : Sys (Errno + list N).

Definition entriesOf (dir : nat) (fs : Fs) : Errno + gmap text nat :=
  match fs !! dir with
  | Some {| kind := Directory entries |} => inr entries
  | Some _ => inl ENOTDIR
  | None => inl EBADF
  end.

Definition setKind (file : nat) (k : Kind) (fs : Fs) : Fs :=
  match fs !! file with
  | Some n => <[file := {| kind := k; owner := owner n; nlink := nlink n; version := S (version n) |}]> fs
  | None => fs
  end.

(** A new inode under a name that is free. *)
Definition addEntry (dir : nat) (name : text) (entries : gmap text nat) (k : Kind) (fs : Fs) : Fs * nat :=
  let i := fresh (dom fs) in
  (setKind dir (Directory (<[name := i]> entries)) (<[i := {| kind := k; owner := self; nlink := 1; version := 0 |}]> fs), i).

Definition openAt (dir : nat) (name : text) (mode : OpenMode) (fs : Fs) : Fs * (Errno + nat) :=
  match entriesOf dir fs with
  | inl e => (fs, inl e)
  | inr entries =>
      match entries !! name with
      | None =>
          match mode with
          | CreateNew => let '(fs, i) := addEntry dir name entries (Regular []) fs in (fs, inr i)
          | _ => (fs, inl ENOENT)
          end
      | Some i =>
          match mode, kind <$> fs !! i with
          | CreateNew, _ => (fs, inl EEXIST)
          | _, None => (fs, inl ENOENT)
          | OpenDirectory, Some (Directory _) => (fs, inr i)
          | OpenDirectory, Some _ => (fs, inl ENOTDIR)
          | _, Some (Symlink _) => (fs, inl ELOOP)
          | OpenWrite, Some (Directory _) => (fs, inl EISDIR)
          | _, Some _ => (fs, inr i)
          end
      end
  end.

Definition mkdirAt (dir : nat) (name : text) (fs : Fs) : Fs * (Errno + ()) :=
  match entriesOf dir fs with
  | inl e => (fs, inl e)
  | inr entries =>
      match entries !! name with
      | Some _ => (fs, inl EEXIST)
      | None => ((addEntry dir name entries (Directory ∅) fs).1, inr ())
      end
  end.

Definition lstatAt (dir : nat) (name : text) (fs : Fs) : Errno + (nat * Inode) :=
  match entriesOf dir fs with
  | inl e => inl e
  | inr entries =>
      match entries !! name with
      | Some i => match fs !! i with Some n => inr (i, n) | None => inl ENOENT end
      | None => inl ENOENT
      end
  end.

Definition unlinkAt (dir : nat) (name : text) (fs : Fs) : Fs * (Errno + ()) :=
  match entriesOf dir fs with
  | inl e => (fs, inl e)
  | inr entries =>
      match entries !! name with
      | None => (fs, inl ENOENT)
      | Some i =>
          match fs !! i with
          | Some {| kind := Directory _ |} => (fs, inl EISDIR)
          | Some n =>
              (setKind dir (Directory (delete name entries))
                 (<[i := {| kind := kind n; owner := owner n; nlink := pred (nlink n); version := S (version n) |}]> fs), inr ())
          | None => (fs, inl ENOENT)
          end
      end
  end.

Definition bytesOf (file : nat) (fs : Fs) : Errno + list N :=
  match fs !! file with
  | Some {| kind := Regular bytes |} => inr bytes
  | Some _ => inl EISDIR
  | None => inl EBADF
  end.

(** The content with some bytes put in place at an offset, zeros in a gap. *)
Definition putBytes (bytes : list N) (offset : nat) (content : list N) : list N :=
  take offset content ++ replicate (offset - length content) 0%N ++ bytes ++ drop (offset + length bytes) content.

Definition sys {R} (c : Sys R) (fs : Fs) : Fs * R :=
  match c with
  | OpenAt dir name mode => openAt dir name mode fs
  | MkdirAt dir name => mkdirAt dir name fs
  | LstatAt dir name => (fs, lstatAt dir name fs)
  | UnlinkAt dir name => unlinkAt dir name fs
  | Fstat file => (fs, match fs !! file with Some n => inr n | None => inl EBADF end)
  | Fchown file to =>
      match fs !! file with
      | Some n => (<[file := {| kind := kind n; owner := to; nlink := nlink n; version := S (version n) |}]> fs, inr ())
      | None => (fs, inl EBADF)
      end
  | Ftruncate file len =>
      match bytesOf file fs with
      | inr bytes => (setKind file (Regular (take len bytes ++ replicate (len - length bytes) 0%N)) fs, inr ())
      | inl e => (fs, inl e)
      end
  | Pwrite file bytes offset =>
      match bytesOf file fs with
      | inr content => (setKind file (Regular (putBytes bytes offset content)) fs, inr (length bytes))
      | inl e => (fs, inl e)
      end
  | Pread file len offset =>
      match bytesOf file fs with
      | inr content => (fs, inr (take len (drop offset content)))
      | inl e => (fs, inl e)
      end
  end.

(** ** Programs *)

Inductive prog (A : Type) : Type :=
  | Ret (a : A)
  | Vis {R} (c : Sys R) (k : R → prog A).
Arguments Ret {A} a.
Arguments Vis {A R} c k.

Fixpoint pbind {A B} (p : prog A) (f : A → prog B) : prog B :=
  match p with Ret a => f a | Vis c k => Vis c (λ r, pbind (k r) f) end.

Notation "'perform' x ':=' p 'in' q" := (pbind p (λ x, q)) (at level 200, x name, p at level 100, q at level 200).

Definition call {R} (c : Sys R) : prog R := Vis c Ret.

(** A call of the program: the files when it was made, and the call. *)
Record Made := { when : Fs; what : { R & Sys R } }.

(** The program against a schedule of changes: before each call the next one happens, and one
    more at the end. *)
Definition next (advs : list (Fs → Fs)) (fs : Fs) : Fs := match advs with adv :: _ => adv fs | [] => fs end.

Fixpoint exec {A} (advs : list (Fs → Fs)) (p : prog A) (fs : Fs) : list Made * Fs * A :=
  match p with
  | Ret a => ([], next advs fs, a)
  | Vis c k =>
      let before := next advs fs in
      let '(after, r) := sys c before in
      let '(log, fs', a) := exec (tail advs) (k r) after in
      ({| when := before; what := existT _ c |} :: log, fs', a)
  end.
