(* ===== verification/FileBoundary.v ===== *)
(** * Files of a confined workspace

    The operations of [packages/runtime/kernel/tools/workspace-file-boundary.ts] on Linux, as
    programs of the calls of [WorkspaceFs]: each opens the parents of a path one by one from the
    root of the workspace, without following a link, checks what it opened, and works on the
    opened file.  The root is an inode, since nobody but the trusted process can replace it.
    Descriptors are closed at the end of every operation, which changes no file.  The walk of
    other platforms ([openPortableParent]) and the operation that hands the opened file to its
    caller ([withWorkspaceFileNoFollow]) are not modelled. *)

From Corelib Require Import ssreflect.
From stdpp Require Import prelude gmap strings.
From S2P Require Import Prelude Text HostPaths WorkspaceFs.

#[local] Open Scope nat_scope.

Inductive Refusal :=
  | SysError (e : Errno)
  | OutsideRoot
  | NotBelowRoot
  | RootNotDirectory
  | ForeignParent
  | NotPlainFile
  | ChangedWhileAuthorizing
  | ChangedSinceAuthorized
  | ChangedWhileReading
  | TooLarge
  | NoProgress
  | VerificationFailed.

(** A program that throws or returns. *)
Definition Attempt (A : Type) : Type := prog (Refusal + A).
Definition done_ {A} (a : A) : Attempt A := Ret (inr a).
Definition refuse {A} (e : Refusal) : Attempt A := Ret (inl e).
Definition abind {A B} (p : Attempt A) (f : A → Attempt B) : Attempt B :=
  pbind p (λ r, match r with inl e => Ret (inl e) | inr a => f a end).
Notation "'attempt' x ':=' p 'in' q" := (abind p (λ x, q)) (at level 200, x name, p at level 100, q at level 200).
Notation "p '>>>' q" := (abind p (λ _, q)) (at level 100, q at level 200, right associativity).

(** A call whose error is thrown. *)
Definition syscall {A} (c : Sys (Errno + A)) : Attempt A :=
  Vis c (λ r, match r with inl e => refuse (SysError e) | inr a => done_ a end).
Definition ensure (b : bool) (e : Refusal) : Attempt () := if b then done_ () else refuse e.

Definition isFile (n : Inode) : bool := match kind n with Regular _ => true | _ => false end.
Definition isDirectory (n : Inode) : bool := match kind n with Directory _ => true | _ => false end.
Definition size (n : Inode) : nat := match kind n with Regular bytes => length bytes | _ => 0 end.

Definition ownedBy (n : Inode) (o : option nat) : bool :=
  match o with Some o => owner n =? o | None => true end.

Section Boundary.
Context (env : HostEnv) (lexicalRoot : text) (root : nat).

(** The segments of the path below the root. *)
Definition relativeTarget (filePath : text) : Refusal + list text :=
  let target := resolve (cwd env) filePath in
  let base := resolve (cwd env) lexicalRoot in
  if negb (isPathInsideRoot target base) then inl OutsideRoot
  else
    let parts := splitOn slash (relative base target) in
    if bool_decide (relative base target = []) || existsb (λ part, bool_decide (part = []) || bool_decide (part = dotdot)) parts
    then inl NotBelowRoot else inr parts.

Definition assertDirectory (handle : nat) (o : option nat) : Attempt () :=
  attempt metadata := syscall (Fstat handle) in
  ensure (isDirectory metadata && ownedBy metadata o) ForeignParent.

(** One parent: opened, or created where it may be. *)
Definition openPart (createParents : bool) (current : nat) (part : text) : Attempt (nat * bool) :=
  perform opened := call (OpenAt current part OpenDirectory) in
  match opened with
  | inr dir => done_ (dir, false)
  | inl ENOENT =>
      if createParents then
        syscall (MkdirAt current part) >>>
        attempt dir := syscall (OpenAt current part OpenDirectory) in
        done_ (dir, true)
      else refuse (SysError ENOENT)
  | inl e => refuse (SysError e)
  end.

Fixpoint openParts (createParents : bool) (o : option nat) (current : nat) (parts : list text) : Attempt nat :=
  match parts with
  | [] => done_ current
  | part :: parts =>
      attempt opened := openPart createParents current part in
      let '(dir, created) := opened in
      match o with Some o => if created then syscall (Fchown dir o) else done_ () | None => done_ () end >>>
      assertDirectory dir o >>>
      openParts createParents o dir parts
  end.

Definition openLinuxParent (parentParts : list text) (createParents : bool) (o : option nat) : Attempt nat :=
  assertDirectory root o >>> openParts createParents o root parentParts.

Record OpenedFile := { handle : nat; entryParent : nat; entryName : text }.

Definition openWorkspaceFile (filePath : text) (mode : OpenMode) (createParents : bool) (o expectedFileOwner : option nat) :
    Attempt OpenedFile :=
  match relativeTarget filePath with
  | inl e => refuse e
  | inr parts =>
      attempt rootMetadata := syscall (Fstat root) in
      ensure (isDirectory rootMetadata && ownedBy rootMetadata o) RootNotDirectory >>>
      attempt parent := openLinuxParent (removelast parts) createParents o in
      let basename := List.last parts [] in
      attempt file := syscall (OpenAt parent basename mode) in
      attempt metadata := syscall (Fstat file) in
      ensure (isFile metadata && (nlink metadata =? 1) && ownedBy metadata expectedFileOwner) NotPlainFile >>>
      done_ {| handle := file; entryParent := parent; entryName := basename |}
  end.

Definition assertEntryStillOpenedFile (opened : OpenedFile) : Attempt () :=
  attempt openedMetadata := syscall (Fstat (handle opened)) in
  attempt pathMetadata := syscall (LstatAt (entryParent opened) (entryName opened)) in
  ensure ((pathMetadata.1 =? handle opened) && (nlink openedMetadata =? 1) && (nlink pathMetadata.2 =? 1) && isFile pathMetadata.2)
    ChangedWhileAuthorizing.

(** [while (offset < output.length)], to the end of the content. *)
Fixpoint readLoop (fuel : nat) (file length_ : nat) (output : list N) : Attempt (list N) :=
  match fuel with
  | O => done_ output
  | S fuel =>
      if length output <? length_ then
        attempt bytes := syscall (Pread file (length_ - length output) (length output)) in
        if length bytes =? 0 then done_ output else readLoop fuel file length_ (output ++ bytes)
      else done_ output
  end.

Definition readBounded (file maxBytes : nat) : Attempt (list N) :=
  attempt metadata := syscall (Fstat file) in
  ensure (isFile metadata && (size metadata <=? maxBytes)) TooLarge >>>
  attempt output := readLoop (S (size metadata)) file (size metadata) [] in
  attempt finalMetadata := syscall (Fstat file) in
  ensure ((length output =? size metadata) && (size finalMetadata =? size metadata) && (version finalMetadata =? version metadata))
    ChangedWhileReading >>>
  done_ output.

Definition readWorkspaceFileNoFollow (filePath : text) (maxBytes : nat) (o : option nat) : Attempt (list N) :=
  attempt opened := openWorkspaceFile filePath OpenRead false o o in
  syscall (Fstat (handle opened)) >>>
  attempt bytes := readBounded (handle opened) maxBytes in
  assertEntryStillOpenedFile opened >>>
  done_ bytes.

Definition statWorkspaceFileNoFollow (filePath : text) (o : option nat) : Attempt Inode :=
  attempt opened := openWorkspaceFile filePath OpenRead false o o in
  attempt metadata := syscall (Fstat (handle opened)) in
  assertEntryStillOpenedFile opened >>>
  done_ metadata.

Definition assertWorkspaceDirectoryNoFollow (directoryPath : text) (o : option nat) : Attempt nat :=
  match relativeTarget directoryPath with
  | inl e => refuse e
  | inr parts =>
      attempt rootMetadata := syscall (Fstat root) in
      ensure (isDirectory rootMetadata && ownedBy rootMetadata o) RootNotDirectory >>>
      openLinuxParent parts false o
  end.

(** [sameAuthorizedIdentity]: the inode, its size and its times. *)
Definition sameAuthorizedIdentity (file : nat) (actual : Inode) (expected : nat * nat * nat) : bool :=
  let '(i, s, v) := expected in (file =? i) && (size actual =? s) && (version actual =? v).

Definition checkExpected (file : nat) (expectedStat : option (nat * nat * nat)) : Attempt () :=
  match expectedStat with
  | None => done_ ()
  | Some expected =>
      attempt actual := syscall (Fstat file) in
      ensure (sameAuthorizedIdentity file actual expected) ChangedSinceAuthorized
  end.

Fixpoint writeLoop (fuel : nat) (file : nat) (intended : list N) (offset : nat) : Attempt () :=
  match fuel with
  | O => done_ ()
  | S fuel =>
      if offset <? length intended then
        attempt written := syscall (Pwrite file (drop offset intended) offset) in
        if written =? 0 then refuse NoProgress else writeLoop fuel file intended (offset + written)
      else done_ ()
  end.

(** Opened for writing: as it is, or a new file. *)
Definition openForWrite (filePath : text) (exclusive : bool) (o : option nat) : Attempt (OpenedFile * bool) :=
  let create := attempt opened := openWorkspaceFile filePath CreateNew true o None in done_ (opened, true) in
  if exclusive then create
  else
    perform existing := openWorkspaceFile filePath OpenWrite true o o in
    match existing with
    | inr opened => done_ (opened, false)
    | inl (SysError ENOENT) => create
    | inl e => refuse e
    end.

Definition writeWorkspaceBytesNoFollow (filePath : text) (intended : list N) (exclusive : bool) (o : option nat)
    (expectedStat : option (nat * nat * nat)) : Attempt () :=
  attempt opened := openForWrite filePath exclusive o in
  let '(opened, created) := opened in
  checkExpected (handle opened) expectedStat >>>
  match o with Some o => if created then syscall (Fchown (handle opened) o) else done_ () | None => done_ () end >>>
  syscall (Ftruncate (handle opened) 0) >>>
  writeLoop (S (length intended)) (handle opened) intended 0 >>>
  syscall (Ftruncate (handle opened) (length intended)) >>>
  attempt verification := readBounded (handle opened) (length intended) in
  ensure (bool_decide (verification = intended)) VerificationFailed >>>
  assertEntryStillOpenedFile opened.

Definition unlinkWorkspaceFileNoFollow (filePath : text) (o : option nat) (expectedStat : option (nat * nat * nat)) : Attempt () :=
  attempt opened := openWorkspaceFile filePath OpenRead false o o in
  checkExpected (handle opened) expectedStat >>>
  assertEntryStillOpenedFile opened >>>
  syscall (UnlinkAt (entryParent opened) (entryName opened)).
End Boundary.
