(* ===== verification/FileBoundarySafety.v ===== *)
(** * What the boundary keeps from the model's commands

    Safety of [FileBoundary] against a schedule of changes by another user.  The reasoning is
    that of a program logic: a precondition and a postcondition of every program
    ([establishes]), where what is known of the files has to survive the steps of both sides
    ([Stable]), and every call has to be allowed when it is made ([callOk]). *)

From Corelib Require Import ssreflect.
From stdpp Require Import prelude gmap strings.
From S2P Require Import Prelude Text HostPaths WorkspaceFs FileBoundary.

#[local] Open Scope nat_scope.

Definition sameKind (k k' : Kind) : Prop :=
  match k, k' with
  | Directory _, Directory _ | Regular _, Regular _ | Symlink _, Symlink _ => True
  | _, _ => False
  end.

#[export] Instance sameKind_refl : Reflexive sameKind.
Proof. by intros []. Qed.
#[export] Instance sameKind_trans : Transitive sameKind.
Proof. by intros [] [] []. Qed.

Section Safety.
Context (o : nat).

(** What the user [o] can do between two calls: whatever it likes with its own files and
    directories (put any entry into them, too), make new ones, add and remove links, but neither
    change the content of what belongs to others nor give anything a new owner. *)
Definition rely (fs fs' : Fs) : Prop :=
  ∀ i n, fs !! i = Some n → ∃ n', fs' !! i = Some n' ∧ sameKind (kind n) (kind n') ∧ owner n' = owner n
                                  ∧ (owner n ≠ o → kind n' = kind n).
Definition obeys (adv : Fs → Fs) : Prop := ∀ fs, rely fs (adv fs).

Definition isDirectoryAt (i : nat) (fs : Fs) : Prop := ∃ n, fs !! i = Some n ∧ isDirectory n = true.
Definition ownedDirectory (i : nat) (fs : Fs) : Prop := ∃ n, fs !! i = Some n ∧ isDirectory n = true ∧ owner n = o.
Definition ownedFile (i : nat) (fs : Fs) : Prop := ∃ n, fs !! i = Some n ∧ isFile n = true ∧ owner n = o.
(** A file that belongs to the user, or holds nothing. *)
Definition harmless (i : nat) (fs : Fs) : Prop := ∃ n, fs !! i = Some n ∧ isFile n = true ∧ (owner n = o ∨ kind n = Regular []).

(** The calls a tool may make for the user: it reads, writes and truncates only files of the
    user, looks up and changes entries only in directories of the user, and gives the user
    directories and empty files only. *)
Definition callOk {R} (c : Sys R) (fs : Fs) : Prop :=
  match c with
  | OpenAt dir _ _ | MkdirAt dir _ | LstatAt dir _ | UnlinkAt dir _ => ownedDirectory dir fs
  | Fstat _ => True
  | Fchown file to => to = o ∧ (isDirectoryAt file fs ∨ harmless file fs)
  | Ftruncate file _ | Pwrite file _ _ | Pread file _ _ => ownedFile file fs
  end.

(** What both sides keep: what is the user's stays the user's, and a file of another owner that
    holds anything keeps its content and its owner. *)
Definition keeps (fs fs' : Fs) : Prop :=
  ∀ i n, fs !! i = Some n →
    ∃ n', fs' !! i = Some n' ∧ sameKind (kind n) (kind n') ∧ (owner n = o → owner n' = o)
          ∧ (owner n ≠ o → ∀ bytes, kind n = Regular bytes →
               kind n' = Regular bytes ∧ owner n' = owner n ∨ bytes = [] ∧ owner n' = o).

#[export] Instance keeps_refl : Reflexive keeps.
Proof. intros fs i n Hn. exists n. split; [done|]. split; [reflexivity|]. split; [done|]. intros _ bytes Hb. by left. Qed.

#[export] Instance keeps_trans : Transitive keeps.
Proof.
  intros fs fs1 fs2 H1 H2 i n Hn. destruct (H1 i n Hn) as (n1 & Hn1 & Hk1 & Ho1 & Hp1).
  destruct (H2 i n1 Hn1) as (n2 & Hn2 & Hk2 & Ho2 & Hp2). exists n2. split; [done|]. split; [by etrans|].
  split; [by intros; apply Ho2, Ho1|]. intros Hno bytes Hb. destruct (Hp1 Hno bytes Hb) as [[Hk Ho]|[-> Ho]].
  - destruct (Hp2 ltac:(by rw Ho) bytes Hk) as [[? ?]|[? ?]]; [left; split; [done|congruence]|by right].
  - right. split; [done|by apply Ho2].
Qed.

Lemma rely_keeps fs fs' : rely fs fs' → keeps fs fs'.
Proof.
  intros H i n Hn. destruct (H i n Hn) as (n' & Hn' & Hk & Ho & Hp). exists n'. split; [done|]. split; [done|].
  split; [by rw Ho|]. intros Hno bytes Hb. left. by rw (Hp Hno).
Qed.

(** One inode replaced, others added. *)
Lemma keeps_put fs fs' i n n' :
  fs !! i = Some n → fs' !! i = Some n' → (∀ j, j ≠ i → is_Some (fs !! j) → fs' !! j = fs !! j) →
  sameKind (kind n) (kind n') → (owner n = o → owner n' = o) →
  (owner n ≠ o → ∀ bytes, kind n = Regular bytes → kind n' = Regular bytes ∧ owner n' = owner n ∨ bytes = [] ∧ owner n' = o) →
  keeps fs fs'.
Proof.
  intros Hn Hn' Hothers Hk Ho Hp j m Hm. destruct (decide (j = i)) as [->|Hj].
  - simplify_eq. by exists n'.
  - exists m. rw Hothers //. split; [done|]. split; [reflexivity|]. split; [done|]. intros _ bytes Hb. by left.
Qed.

(** The content of an inode of the user, or of a directory. *)
Lemma keeps_setKind fs i n k :
  fs !! i = Some n → sameKind (kind n) k → owner n = o → keeps fs (setKind i k fs).
Proof.
  intros Hn Hk Ho. unfold setKind. rw Hn. eapply keeps_put; [done|apply lookup_insert_eq| |done|done|done].
  intros j Hj _. by rw lookup_insert_ne.
Qed.

Lemma entriesOf_inr dir fs entries : entriesOf dir fs = inr entries → ∃ n, fs !! dir = Some n ∧ kind n = Directory entries.
Proof. unfold entriesOf. destruct (fs !! dir) as [ [k ow nl v] |]; [|done]. destruct k; [|done|done]. intros [= ->]. by eexists. Qed.

Lemma bytesOf_inr file fs bytes : bytesOf file fs = inr bytes → ∃ n, fs !! file = Some n ∧ kind n = Regular bytes.
Proof. unfold bytesOf. destruct (fs !! file) as [ [k ow nl v] |]; [|done]. destruct k; [done| |done]. intros [= ->]. by eexists. Qed.

Lemma keeps_addEntry dir name entries k fs :
  ownedDirectory dir fs → entriesOf dir fs = inr entries → keeps fs (addEntry dir name entries k fs).1.
Proof.
  intros (n & Hn & _ & Ho) He. apply entriesOf_inr in He as (n' & Hn' & Hk). simplify_eq. unfold addEntry. cbn [fst].
  set (i := fresh (dom fs)). assert (Hi : fs !! i = None) by (apply not_elem_of_dom, is_fresh).
  etrans; [|apply (keeps_setKind _ dir n); [|by rw Hk|done]].
  - intros j m Hm. exists m. rw lookup_insert_ne; [by intros ->; rw Hi in Hm|]. split; [done|]. split; [reflexivity|].
    split; [done|]. intros _ bytes Hb. by left.
  - rw lookup_insert_ne //. by intros ->; rw Hi in Hn.
Qed.

(** An allowed call keeps what is to be kept. *)
Lemma sys_keeps {R} (c : Sys R) fs : callOk c fs → keeps fs (sys c fs).1.
Proof.
  destruct c as [dir name mode|dir name|dir name|dir name|file|file to|file len|file bytes offset|file len offset]; cbn [callOk sys]; intros Hok.
  - unfold openAt. destruct (entriesOf dir fs) as [|entries] eqn:He; [done|]. destruct (entries !! name) as [i|].
    + destruct mode, (kind <$> fs !! i) as [ [] |]; done.
    + destruct mode; try done. assert (H := keeps_addEntry dir name entries (Regular []) fs Hok He).
      by destruct (addEntry dir name entries (Regular []) fs).
  - unfold mkdirAt. destruct (entriesOf dir fs) as [|entries] eqn:He; [done|]. destruct (entries !! name); [done|].
    by apply keeps_addEntry.
  - done.
  - unfold unlinkAt. destruct (entriesOf dir fs) as [|entries] eqn:He; [done|]. destruct (entries !! name) as [i|]; [|done].
    destruct (fs !! i) as [n|] eqn:Hn; [|done]. destruct (kind n) eqn:Hk; destruct n as [k ow nl v]; simpl in Hk; subst k; [done| |].
    all: destruct Hok as (d & Hd & Hdir & Ho); apply entriesOf_inr in He as (d' & Hd' & Hkd); simplify_eq.
    all: assert (Hne : dir ≠ i) by (intros ->; rw Hn in Hd; injection Hd as <-; by simpl in Hkd).
    all: etrans; [|apply (keeps_setKind _ dir d); [by rw lookup_insert_ne|by rw Hkd|done]].
    all: eapply keeps_put; [exact Hn|apply lookup_insert_eq|by intros j Hj _; rw lookup_insert_ne|done|done|].
    all: intros _ bs Hb; by left.
  - done.
  - destruct Hok as [-> Hh]. destruct (fs !! file) as [n|] eqn:Hn; [|done].
    eapply keeps_put; [exact Hn|apply lookup_insert_eq|by intros j Hj _; rw lookup_insert_ne|reflexivity|done|].
    simpl. intros Hno bytes Hb. right. destruct Hh as [(m & Hm & Hd)|(m & Hm & _ & [Ho|He])]; rw Hn in Hm; injection Hm as <-; [|by destruct Hno|split; [congruence|done]].
    unfold isDirectory in Hd. by rw Hb in Hd.
  - destruct Hok as (n & Hn & _ & Ho). destruct (bytesOf file fs) as [|content] eqn:Hb; [done|].
    apply bytesOf_inr in Hb as (n' & Hn' & Hk). simplify_eq. apply (keeps_setKind fs file n); [done|by rw Hk|done].
  - destruct Hok as (n & Hn & _ & Ho). destruct (bytesOf file fs) as [|content] eqn:Hb; [done|].
    apply bytesOf_inr in Hb as (n' & Hn' & Hk). simplify_eq. apply (keeps_setKind fs file n); [done|by rw Hk|done].
  - by destruct (bytesOf file fs).
Qed.

(** ** The logic *)

Fixpoint wp {A} (p : prog A) (post : A → Fs → Prop) (fs : Fs) : Prop :=
  match p with
  | Ret a => post a fs
  | Vis c k => ∀ fs', rely fs fs' → callOk c fs' ∧ wp (k (sys c fs').2) post (sys c fs').1
  end.

Lemma wp_keeps {A} (p : prog A) post fs : wp p post fs → wp p (λ a fs', keeps fs fs' ∧ post a fs') fs.
Proof.
  assert (H : ∀ fs0, keeps fs0 fs → wp p post fs → wp p (λ a fs', keeps fs0 fs' ∧ post a fs') fs).
  { induction p as [a|R c k IH] in fs |- *; intros fs0 H0; simpl; [done|]. intros H fs' Hr. destruct (H fs' Hr) as [Hok Hw].
    split; [done|]. apply IH; [|done]. etrans; [exact H0|]. etrans; [by apply rely_keeps|]. by apply sys_keeps. }
  apply H. reflexivity.
Qed.

Lemma wp_mono {A} (p : prog A) (post post' : A → Fs → Prop) fs :
  (∀ a fs, post a fs → post' a fs) → wp p post fs → wp p post' fs.
Proof.
  intros Hp. induction p as [a|R c k IH] in fs |- *; simpl; [apply Hp|]. intros H fs' Hr. destruct (H fs' Hr) as [? ?].
  split; [done|]. by apply IH.
Qed.

Lemma wp_bind {A B} (p : prog A) (f : A → prog B) post fs : wp p (λ a fs, wp (f a) post fs) fs → wp (pbind p f) post fs.
Proof.
  induction p as [a|R c k IH] in fs |- *; simpl; [done|]. intros H fs' Hr. destruct (H fs' Hr) as [? ?]. split; [done|]. by apply IH.
Qed.

(** What is known of the files that survives both sides. *)
Class Stable (P : Fs → Prop) : Prop := stable fs fs' : keeps fs fs' → P fs → P fs'.

#[export] Instance Stable_true : Stable (λ _, True).
Proof. by intros fs fs' _. Qed.
#[export] Instance Stable_pure (Q : Prop) : Stable (λ _, Q).
Proof. by intros fs fs' _. Qed.
#[export] Instance Stable_and P Q : Stable P → Stable Q → Stable (λ fs, P fs ∧ Q fs).
Proof. intros HP HQ fs fs' Hk [? ?]. split; [by eapply HP|by eapply HQ]. Qed.
#[export] Instance Stable_impl (Q : Prop) P : Stable P → Stable (λ fs, Q → P fs).
Proof. intros HP fs fs' Hk H HQ. eapply HP; [done|by apply H]. Qed.

#[export] Instance Stable_ownedDirectory i : Stable (ownedDirectory i).
Proof.
  intros fs fs' Hk (n & Hn & Hd & Ho). destruct (Hk i n Hn) as (n' & Hn' & Hs & Ho' & _). exists n'. split; [done|].
  split; [|by apply Ho']. unfold isDirectory in *. by destruct (kind n), (kind n').
Qed.
#[export] Instance Stable_isDirectoryAt i : Stable (isDirectoryAt i).
Proof.
  intros fs fs' Hk (n & Hn & Hd). destruct (Hk i n Hn) as (n' & Hn' & Hs & _). exists n'. split; [done|].
  unfold isDirectory in *. by destruct (kind n), (kind n').
Qed.
#[export] Instance Stable_ownedFile i : Stable (ownedFile i).
Proof.
  intros fs fs' Hk (n & Hn & Hd & Ho). destruct (Hk i n Hn) as (n' & Hn' & Hs & Ho' & _). exists n'. split; [done|].
  split; [|by apply Ho']. unfold isFile in *. by destruct (kind n), (kind n').
Qed.
#[export] Instance Stable_harmless i : Stable (harmless i).
Proof.
  intros fs fs' Hk (n & Hn & Hf & Hh). destruct (Hk i n Hn) as (n' & Hn' & Hs & Ho' & Hp). exists n'. split; [done|].
  split; [unfold isFile in *; by destruct (kind n), (kind n')|]. destruct (decide (owner n = o)) as [Ho|Ho]; [left; by apply Ho'|].
  destruct Hh as [?|Hb]; [done|]. destruct (Hp Ho [] Hb) as [[? _]|[_ ?]]; [by right|by left].
Qed.

(** A program that keeps to the rules from [P] on, and leaves [Q] of what it returns. *)
Definition establishes {A} (P : Fs → Prop) (p : Attempt A) (Q : A → Fs → Prop) : Prop :=
  ∀ fs, P fs → wp p (λ r fs', match r with inr a => Q a fs' | inl _ => True end) fs.

Lemma establishes_done {A} P (a : A) Q : (∀ fs, P fs → Q a fs) → establishes P (done_ a) Q.
Proof. intros H fs HP. by apply H. Qed.

Lemma establishes_refuse {A} P e (Q : A → Fs → Prop) : establishes P (refuse e) Q.
Proof. done. Qed.

Lemma establishes_ensure P b e Q : (b = true → ∀ fs, P fs → Q () fs) → establishes P (ensure b e) Q.
Proof. intros H fs HP. unfold ensure. destruct b; [by apply H|done]. Qed.

Lemma establishes_bind {A B} P `{!Stable P} (p : Attempt A) (f : A → Attempt B) Q R :
  establishes P p Q → (∀ a, establishes (λ fs, P fs ∧ Q a fs) (f a) R) → establishes P (abind p f) R.
Proof.
  intros Hp Hf fs HP. apply wp_bind. eapply wp_mono; [|apply wp_keeps, Hp, HP]. intros [e|a] fs' [Hk HQ]; [done|].
  apply Hf. split; [by eapply (stable (P:=P))|done].
Qed.

Lemma establishes_syscall {A} P `{!Stable P} (c : Sys (Errno + A)) (Q : A → Fs → Prop) :
  (∀ fs, P fs → callOk c fs) → (∀ fs a, P fs → (sys c fs).2 = inr a → Q a (sys c fs).1) → establishes P (syscall c) Q.
Proof.
  intros Hok HQ fs HP fs' Hr. assert (HP' : P fs') by (eapply (stable (P:=P)); [by apply rely_keeps|done]).
  split; [by apply Hok|]. destruct (sys c fs').2 as [e|a] eqn:E; [done|]. by apply HQ.
Qed.

Lemma establishes_mono {A} (P P' : Fs → Prop) (p : Attempt A) (Q Q' : A → Fs → Prop) :
  (∀ fs, P' fs → P fs) → (∀ a fs, Q a fs → Q' a fs) → establishes P p Q → establishes P' p Q'.
Proof. intros HP HQ H fs HP'. eapply wp_mono; [|by apply H, HP]. intros [e|a] fs' Ha; [done|by apply HQ]. Qed.

(** What the schedule leaves of a program that keeps to the rules. *)
Lemma exec_wp {A} advs (p : prog A) post fs log fs' a :
  Forall obeys advs → wp p post fs → exec advs p fs = (log, fs', a) →
  Forall (λ m, callOk (projT2 (what m)) (when m)) log ∧ keeps fs fs'.
Proof.
  intros Hadv. assert (Hnext : ∀ advs fs, Forall obeys advs → rely fs (next advs fs)).
  { intros l g H. destruct H as [|adv l Ha _]; [|by apply Ha]. intros i n Hn. exists n. by repeat split. }
  induction p as [b|R c k IH] in advs, Hadv, fs, log |- *; simpl.
  - intros _ [= <- <- <-]. split; [constructor|]. by apply rely_keeps, Hnext.
  - intros Hwp. destruct (Hwp _ (Hnext advs fs Hadv)) as [Hok Hk]. assert (Hkeep := sys_keeps c _ Hok).
    destruct (sys c (next advs fs)) as [after r] eqn:Hs. destruct (exec (tail advs) (k r) after) as [[log' fs1] b] eqn:E.
    intros [= <- <- <-]. destruct (IH r (tail advs)) with (fs := after) (log := log') as [Hlog Hkeeps]; [by destruct Hadv|done|done|].
    split; [by constructor|]. etrans; [by apply rely_keeps, Hnext|]. by etrans.
Qed.

(** ** The operations *)

Ltac esys := apply establishes_syscall; [apply _|..].

Context (env : HostEnv) (lexicalRoot : text) (root : nat).

Lemma assertDirectory_spec P `{!Stable P} i : establishes P (assertDirectory i (Some o)) (λ _, ownedDirectory i).
Proof.
  unfold assertDirectory. eapply (establishes_bind P _ _ (λ n fs, isDirectory n = true → owner n = o → ownedDirectory i fs)).
  - esys; [done|]. intros fs n HP. simpl. destruct (fs !! i) as [m|] eqn:Hm; [|done]. intros [= ->] Hd Ho. by exists n.
  - intros n. apply establishes_ensure. intros [Hd Ho%Nat.eqb_eq]%andb_true_iff fs [_ H]. by apply H.
Qed.

Lemma openAt_directory_spec P `{!Stable P} current part :
  (∀ fs, P fs → ownedDirectory current fs) →
  establishes P (syscall (OpenAt current part OpenDirectory)) (λ i, isDirectoryAt i).
Proof.
  intros HP. esys; [done|]. intros fs i _. simpl. unfold openAt.
  destruct (entriesOf current fs) as [|entries]; [done|]. destruct (entries !! part) as [j|]; [|done].
  destruct (fs !! j) as [n|] eqn:Hn; [|done]. simpl. destruct (kind n) eqn:Hk; try done. intros [= <-]. exists n.
  split; [done|]. unfold isDirectory. by rw Hk.
Qed.

Lemma openPart_spec P `{!Stable P} create current part :
  (∀ fs, P fs → ownedDirectory current fs) →
  establishes P (openPart create current part) (λ r fs, isDirectoryAt r.1 fs).
Proof.
  intros HP fs HPfs. unfold openPart.
  assert (Hmake : establishes P (syscall (MkdirAt current part) >>>
                    attempt dir := syscall (OpenAt current part OpenDirectory) in done_ (dir, true)) (λ r fs, isDirectoryAt r.1 fs)).
  { apply (establishes_bind P _ _ (λ _ _, True)); [by esys|]. intros [].
    eapply (establishes_bind _ _ _ (λ i, isDirectoryAt i)); [apply openAt_directory_spec; [apply _|]; intros fs3 [? _]; by apply HP|].
    intros i. apply establishes_done. by intros fs3 [_ ?]. }
  apply wp_bind. assert (H := openAt_directory_spec P current part HP fs HPfs).
  intros fs1 Hr. destruct (H fs1 Hr) as [Hok Hwp]. split; [done|].
  assert (HP1 : P (sys (OpenAt current part OpenDirectory) fs1).1).
  { eapply (stable (P:=P)); [|exact HPfs]. etrans; [by apply rely_keeps|]. by apply sys_keeps. }
  destruct (sys (OpenAt current part OpenDirectory) fs1) as [fs2 [e|i]]; simpl in *; [|done].
  destruct e; try done. destruct create; [by apply Hmake|done].
Qed.

Lemma openParts_spec P `{!Stable P} create current parts :
  (∀ fs, P fs → ownedDirectory current fs) →
  establishes P (openParts create (Some o) current parts) (λ i, ownedDirectory i).
Proof.
  induction parts as [|part parts IH] in current, P, Stable0 |- *; intros HP; cbn [openParts].
  { by apply establishes_done. }
  eapply (establishes_bind P _ _ (λ r fs, isDirectoryAt r.1 fs)); [by apply openPart_spec|]. intros [dir created].
  apply (establishes_bind _ _ _ (λ _ _, True)).
  { destruct created; [|by apply establishes_done]. esys; [|done].
    intros fs [_ Hd]. split; [done|]. by left. }
  intros []. eapply (establishes_bind _ _ _ (λ _, ownedDirectory dir)); [apply assertDirectory_spec; apply _|].
  intros []. apply IH; [apply _|]. by intros fs [_ ?].
Qed.

Lemma openLinuxParent_spec P `{!Stable P} parts create :
  establishes P (openLinuxParent root parts create (Some o)) (λ i, ownedDirectory i).
Proof.
  unfold openLinuxParent. eapply (establishes_bind P _ _ (λ _, ownedDirectory root)); [by apply assertDirectory_spec|].
  intros []. apply openParts_spec; [apply _|]. by intros fs [_ ?].
Qed.

(** What [openWorkspaceFile] leaves: an entry of a directory of the user, and a file of the user
    if it was asked for one, or else a new file that holds nothing. *)
Definition authorized (mode : OpenMode) (expected : option nat) (opened : OpenedFile) (fs : Fs) : Prop :=
  ownedDirectory (entryParent opened) fs
  ∧ (expected = Some o → ownedFile (handle opened) fs)
  ∧ (mode = CreateNew → harmless (handle opened) fs).

Lemma created_harmless P `{!Stable P} parent name mode :
  (∀ fs, P fs → ownedDirectory parent fs) →
  establishes P (syscall (OpenAt parent name mode)) (λ i fs, mode = CreateNew → harmless i fs).
Proof.
  intros HP. esys; [done|]. intros fs i HPfs Hi ->. revert Hi. simpl. unfold openAt.
  destruct (entriesOf parent fs) as [|entries] eqn:He; [done|]. destruct (entries !! name) as [j|]; [done|].
  destruct (HP fs HPfs) as (d & Hd & Hdir & _). unfold addEntry. cbn [snd fst]. intros [= <-].
  set (i := fresh (dom fs)). assert (Hi : fs !! i = None) by (apply not_elem_of_dom, is_fresh).
  assert (Hne : i ≠ parent) by (intros ->; by rw Hi in Hd).
  exists {| kind := Regular []; owner := self; nlink := 1; version := 0 |}. split; [|split; [done|by right]].
  unfold setKind. rw (lookup_insert_ne fs i parent) // Hd. rw lookup_insert_ne //. apply lookup_insert_eq.
Qed.

Lemma openWorkspaceFile_spec P `{!Stable P} filePath mode create expected :
  establishes P (openWorkspaceFile env lexicalRoot root filePath mode create (Some o) expected) (authorized mode expected).
Proof.
  unfold openWorkspaceFile. destruct (relativeTarget _ _ filePath) as [e|parts]; [apply establishes_refuse|].
  apply (establishes_bind P _ _ (λ _ _, True)); [by esys|]. intros rootMetadata.
  apply (establishes_bind _ _ _ (λ _ _, True)); [by apply establishes_ensure|]. intros [].
  eapply (establishes_bind _ _ _ (λ i, ownedDirectory i)); [apply openLinuxParent_spec; apply _|]. intros parent.
  eapply (establishes_bind _ _ _ (λ i fs, mode = CreateNew → harmless i fs)).
  { apply created_harmless; [apply _|]. by intros fs [_ ?]. }
  intros file.
  eapply (establishes_bind _ _ _ (λ n fs, isFile n = true → owner n = o → ownedFile file fs)).
  { esys; [done|]. intros fs n _. simpl. destruct (fs !! file) as [m|] eqn:Hm; [|done].
    intros [= ->] Hf Ho. by exists n. }
  intros metadata. eapply (establishes_bind _ _ _ (λ _ fs, expected = Some o → ownedFile file fs)).
  { apply establishes_ensure. intros [[Hf _]%andb_true_iff Ho]%andb_true_iff fs [_ H] ->. apply H; [done|]. by apply Nat.eqb_eq. }
  intros []. apply establishes_done. intros fs [[[[_ Hp] Hh] _] Hf]. by split.
Qed.

Lemma assertEntry_spec P `{!Stable P} opened :
  (∀ fs, P fs → ownedDirectory (entryParent opened) fs) →
  establishes P (assertEntryStillOpenedFile opened) (λ _ _, True).
Proof.
  intros HP. unfold assertEntryStillOpenedFile. apply (establishes_bind P _ _ (λ _ _, True)); [by esys|]. intros n.
  apply (establishes_bind _ _ _ (λ _ _, True)); [|by intros; apply establishes_ensure].
  esys; [|done]. intros fs [? _]. by apply HP.
Qed.

Lemma readBounded_spec P `{!Stable P} file maxBytes :
  (∀ fs, P fs → ownedFile file fs) → establishes P (readBounded file maxBytes) (λ _ _, True).
Proof.
  intros HP. unfold readBounded. apply (establishes_bind P _ _ (λ _ _, True)); [by esys|]. intros n.
  apply (establishes_bind _ _ _ (λ _ _, True)); [by apply establishes_ensure|]. intros [].
  apply (establishes_bind _ _ _ (λ _ _, True)).
  - generalize (S (size n)) (@nil N). intros fuel. induction fuel as [|fuel IH]; intros output; cbn [readLoop]; [by apply establishes_done|].
    destruct (length output <? size n); [|by apply establishes_done].
    apply (establishes_bind _ _ _ (λ _ _, True)).
    + esys; [|done]. intros fs [[? _] _]. by apply HP.
    + intros bytes. destruct (length bytes =? 0); [by apply establishes_done|].
      eapply establishes_mono; [|done|apply IH]. by intros fs [? _].
  - intros output. apply (establishes_bind _ _ _ (λ _ _, True)); [by esys|]. intros final.
    apply (establishes_bind _ _ _ (λ _ _, True)); [by apply establishes_ensure|]. intros []. by apply establishes_done.
Qed.

Lemma writeLoop_spec P `{!Stable P} fuel file intended offset :
  (∀ fs, P fs → ownedFile file fs) → establishes P (writeLoop fuel file intended offset) (λ _ _, True).
Proof.
  intros HP. induction fuel as [|fuel IH] in offset |- *; cbn [writeLoop]; [by apply establishes_done|].
  destruct (offset <? length intended); [|by apply establishes_done].
  apply (establishes_bind P _ _ (λ _ _, True)); [by esys|]. intros written.
  destruct (written =? 0); [done|]. eapply establishes_mono; [|done|apply IH]. by intros fs [? _].
Qed.

Lemma checkExpected_spec P `{!Stable P} file expectedStat : establishes P (checkExpected file expectedStat) (λ _ _, True).
Proof.
  unfold checkExpected. destruct expectedStat as [expected|]; [|by apply establishes_done].
  apply (establishes_bind P _ _ (λ _ _, True)); [by esys|]. intros n. by apply establishes_ensure.
Qed.

Lemma read_spec filePath maxBytes :
  establishes (λ _, True) (readWorkspaceFileNoFollow env lexicalRoot root filePath maxBytes (Some o)) (λ _ _, True).
Proof.
  unfold readWorkspaceFileNoFollow. eapply establishes_bind; [apply _|apply openWorkspaceFile_spec; apply _|]. intros opened. unfold authorized.
  apply (establishes_bind _ _ _ (λ _ _, True)); [by esys|]. intros n.
  apply (establishes_bind _ _ _ (λ _ _, True)).
  { apply readBounded_spec; [apply _|]. intros fs [[_ (_ & Hf & _)] _]. by apply Hf. }
  intros bytes. apply (establishes_bind _ _ _ (λ _ _, True)); [|by intros; apply establishes_done].
  apply assertEntry_spec; [apply _|]. by intros fs [[[_ [? _]] _] _].
Qed.

Lemma stat_spec filePath :
  establishes (λ _, True) (statWorkspaceFileNoFollow env lexicalRoot root filePath (Some o)) (λ _ _, True).
Proof.
  unfold statWorkspaceFileNoFollow. eapply establishes_bind; [apply _|apply openWorkspaceFile_spec; apply _|]. intros opened. unfold authorized.
  apply (establishes_bind _ _ _ (λ _ _, True)); [by esys|]. intros n.
  apply (establishes_bind _ _ _ (λ _ _, True)); [|by intros; apply establishes_done].
  apply assertEntry_spec; [apply _|]. intros fs Hfs. tauto.
Qed.

Lemma directory_spec directoryPath :
  establishes (λ _, True) (assertWorkspaceDirectoryNoFollow env lexicalRoot root directoryPath (Some o)) (λ i, ownedDirectory i).
Proof.
  unfold assertWorkspaceDirectoryNoFollow. destruct (relativeTarget _ _ directoryPath) as [e|parts]; [apply establishes_refuse|].
  apply (establishes_bind _ _ _ (λ _ _, True)); [by esys|]. intros rootMetadata.
  apply (establishes_bind _ _ _ (λ _ _, True)); [by apply establishes_ensure|]. intros []. apply openLinuxParent_spec. apply _.
Qed.

Lemma openForWrite_spec filePath exclusive :
  establishes (λ _, True) (openForWrite env lexicalRoot root filePath exclusive (Some o))
    (λ r fs, ownedDirectory (entryParent r.1) fs ∧ harmless (handle r.1) fs ∧ (r.2 = false → ownedFile (handle r.1) fs)).
Proof.
  assert (Hcreate : establishes (λ _, True)
    (attempt opened := openWorkspaceFile env lexicalRoot root filePath CreateNew true (Some o) None in done_ (opened, true))
    (λ r fs, ownedDirectory (entryParent r.1) fs ∧ harmless (handle r.1) fs ∧ (r.2 = false → ownedFile (handle r.1) fs))).
  { eapply establishes_bind; [apply _|apply openWorkspaceFile_spec; apply _|]. intros opened. apply establishes_done.
    intros fs [_ (Hp & _ & Hh)]. simpl. split; [done|]. split; [by apply Hh|done]. }
  unfold openForWrite. destruct exclusive; [exact Hcreate|]. intros fs _. apply wp_bind.
  eapply wp_mono; [|by apply (openWorkspaceFile_spec (λ _, True))]. intros [e|opened] fs'.
  - intros _. destruct e as [ [] | | | | | | | | | | |]; try done. by apply Hcreate.
  - intros (Hp & Hf & _). simpl. specialize (Hf eq_refl). split; [done|]. split; [|done].
    destruct Hf as (n & Hn & Hfile & Ho). exists n. split; [done|]. split; [done|]. by left.
Qed.

Lemma write_spec filePath intended exclusive expectedStat :
  establishes (λ _, True) (writeWorkspaceBytesNoFollow env lexicalRoot root filePath intended exclusive (Some o) expectedStat) (λ _ _, True).
Proof.
  unfold writeWorkspaceBytesNoFollow. eapply establishes_bind; [apply _|apply openForWrite_spec|]. intros [opened created]. cbn [fst snd].
  apply (establishes_bind _ _ _ (λ _ _, True)); [apply checkExpected_spec; apply _|]. intros [].
  eapply (establishes_bind _ _ _ (λ _, ownedFile (handle opened))).
  { destruct created; [|by apply establishes_done; intros fs [[_ (_ & _ & H)] _]; apply H].
    esys; [intros fs [[_ (_ & Hh & _)] _]; split; [done|by right]|].
    intros fs [] [[_ (_ & (n & Hn & Hf & _) & _)] _] _. simpl. rw Hn. eexists. split; [apply lookup_insert_eq|]. by split. }
  intros []. do 2 (eapply (establishes_bind _ _ _ (λ _ _, True));
    [first [esys; [|done]; intros fs Hfs; simpl; tauto|apply writeLoop_spec; [apply _|]; intros fs Hfs; tauto]|]; intros []).
  eapply (establishes_bind _ _ _ (λ _ _, True)); [esys; [|done]; intros fs Hfs; simpl; tauto|]. intros [].
  eapply (establishes_bind _ _ _ (λ _ _, True)); [apply readBounded_spec; [apply _|]; intros fs Hfs; tauto|]. intros verification.
  eapply (establishes_bind _ _ _ (λ _ _, True)); [by apply establishes_ensure|]. intros [].
  apply assertEntry_spec; [apply _|]. intros fs Hfs. tauto.
Qed.

Lemma unlink_spec filePath expectedStat :
  establishes (λ _, True) (unlinkWorkspaceFileNoFollow env lexicalRoot root filePath (Some o) expectedStat) (λ _ _, True).
Proof.
  unfold unlinkWorkspaceFileNoFollow. eapply establishes_bind; [apply _|apply openWorkspaceFile_spec; apply _|]. intros opened. unfold authorized.
  apply (establishes_bind _ _ _ (λ _ _, True)); [apply checkExpected_spec; apply _|]. intros [].
  apply (establishes_bind _ _ _ (λ _ _, True)); [apply assertEntry_spec; [apply _|]; intros fs Hfs; tauto|]. intros [].
  esys; [|done]. intros fs Hfs. simpl. tauto.
Qed.
End Safety.

(** ** The boundary *)

(** A call of one of the operations. *)
Inductive Operation :=
  | ReadFile (filePath : text) (maxBytes : nat)
  | StatFile (filePath : text)
  | CheckDirectory (directoryPath : text)
  | WriteFile (filePath : text) (intended : list N) (exclusive : bool) (expectedStat : option (nat * nat * nat))
  | UnlinkFile (filePath : text) (expectedStat : option (nat * nat * nat)).

Definition runOperation (env : HostEnv) (lexicalRoot : text) (root : nat) (op : Operation) (o : option nat) : Attempt (list N) :=
  match op with
  | ReadFile filePath maxBytes => readWorkspaceFileNoFollow env lexicalRoot root filePath maxBytes o
  | StatFile filePath => statWorkspaceFileNoFollow env lexicalRoot root filePath o >>> done_ []
  | CheckDirectory directoryPath => assertWorkspaceDirectoryNoFollow env lexicalRoot root directoryPath o >>> done_ []
  | WriteFile filePath intended exclusive expectedStat =>
      writeWorkspaceBytesNoFollow env lexicalRoot root filePath intended exclusive o expectedStat >>> done_ []
  | UnlinkFile filePath expectedStat => unlinkWorkspaceFileNoFollow env lexicalRoot root filePath o expectedStat >>> done_ []
  end.

(** C10: Whatever the model's commands do to the workspace between the calls of a file tool that
    runs for their user (links put in place of directories and files, directories moved, hard
    links to files of others), the tool reads, writes and truncates only files of that user and
    changes entries only in its directories, and every file of another owner that holds anything
    comes out with the content and the owner it had. *)
Theorem boundary_keeps_foreign_files env lexicalRoot root o op advs fs log fs' r :
  Forall (obeys o) advs → exec advs (runOperation env lexicalRoot root op (Some o)) fs = (log, fs', r) →
  Forall (λ m, callOk o (projT2 (what m)) (when m)) log
  ∧ ∀ i n bytes, fs !! i = Some n → owner n ≠ o → kind n = Regular bytes → bytes ≠ [] →
      ∃ n', fs' !! i = Some n' ∧ owner n' = owner n ∧ kind n' = Regular bytes.
Proof.
  intros Hadv Hexec. assert (Hspec : establishes o (λ _, True) (runOperation env lexicalRoot root op (Some o)) (λ _ _, True)).
  { destruct op as [filePath maxBytes|filePath|directoryPath|filePath intended exclusive expectedStat|filePath expectedStat]; simpl; [apply read_spec| | | |].
    - eapply establishes_bind; [apply _|apply stat_spec|]. intros n. by apply establishes_done.
    - eapply establishes_bind; [apply _|apply directory_spec|]. intros i. by apply establishes_done.
    - eapply establishes_bind; [apply _|apply write_spec|]. intros []. by apply establishes_done.
    - eapply establishes_bind; [apply _|apply unlink_spec|]. intros []. by apply establishes_done. }
  destruct (exec_wp o advs _ _ fs log fs' r Hadv (Hspec fs I) Hexec) as [Hlog Hkeeps]. split; [exact Hlog|].
  intros i n bytes Hn Ho Hk Hne. destruct (Hkeeps i n Hn) as (n' & Hn' & _ & _ & Hp). exists n'. split; [done|].
  by destruct (Hp Ho bytes Hk) as [[? ?]|[? _]].
Qed.

(** ** An attack *)

(** The user puts an entry into a directory of its own: a link to any file, or a directory moved
    within its parent. *)
Definition relink (o dir : nat) (name : text) (i : nat) (fs : Fs) : Fs :=
  match fs !! dir with
  | Some n =>
      match kind n with
      | Directory entries => if owner n =? o then setKind dir (Directory (<[name := i]> entries)) fs else fs
      | _ => fs
      end
  | None => fs
  end.

Lemma id_obeys o : obeys o id.
Proof. intros fs i n Hn. by exists n. Qed.

Lemma relink_obeys o dir name i : obeys o (relink o dir name i).
Proof.
  intros fs j n Hn. unfold relink. destruct (fs !! dir) as [d|] eqn:Hd; [|by exists n]. destruct (kind d) as [entries| |] eqn:Hk; [|by exists n..].
  destruct (Nat.eqb_spec (owner d) o) as [Ho|]; [|by exists n]. unfold setKind. rw Hd.
  destruct (decide (j = dir)) as [->|Hj]; [|exists n; by rw lookup_insert_ne]. rw Hd in Hn. injection Hn as <-.
  eexists. split; [apply lookup_insert_eq|]. rw Hk. by split.
Qed.

Definition boundaryEnv : HostEnv :=
  {| userProfile := []; localAppData := []; appData := []; tempDir := u "/tmp"; homedir := u "/root"; cwd := u "/" |}.

(** The workspace [/w] of the user 7, with a file of its own and a directory of the trusted
    process, which also keeps a secret elsewhere. *)
Definition workspaceFs : Fs :=
  list_to_map
    [(1, {| kind := Directory (list_to_map [(u "a", 2); (u "old", 5)]); owner := 7; nlink := 1; version := 0 |});
     (2, {| kind := Regular (u "mine"); owner := 7; nlink := 1; version := 0 |});
     (5, {| kind := Directory ∅; owner := 0; nlink := 1; version := 0 |});
     (9, {| kind := Regular (u "secret"); owner := 0; nlink := 1; version := 0 |})].

(** A hard link to the secret takes the place of the file while it is opened. *)
Lemma boundary_keeps_foreign_files_witness :
  let '(log, fs', r) := exec [id; id; relink 7 1 (u "a") 9] (runOperation boundaryEnv (u "/w") 1 (ReadFile (u "/w/a") 100) (Some 7)) workspaceFs in
  r = inl NotPlainFile ∧ Forall (λ m, callOk 7 (projT2 (what m)) (when m)) log
  ∧ ∃ n', fs' !! 9 = Some n' ∧ owner n' = 0 ∧ kind n' = Regular (u "secret").
Proof.
  destruct (exec _ _ workspaceFs) as [[log fs'] r] eqn:E.
  destruct (boundary_keeps_foreign_files boundaryEnv (u "/w") 1 7 (ReadFile (u "/w/a") 100)
              [id; id; relink 7 1 (u "a") 9] workspaceFs log fs' r) as [Hlog Hkept].
  - constructor; [apply id_obeys|constructor; [apply id_obeys|constructor; [apply relink_obeys|constructor]]].
  - exact E.
  - split; [|split; [exact Hlog|]].
    + transitivity (exec [id; id; relink 7 1 (u "a") 9] (runOperation boundaryEnv (u "/w") 1 (ReadFile (u "/w/a") 100) (Some 7)) workspaceFs).2;
        [by rw E|by vm_compute].
    + apply (Hkept 9 {| kind := Regular (u "secret"); owner := 0; nlink := 1; version := 0 |} (u "secret")); [by vm_compute|done|done|done].
Defined.

(** The new owner of a parent that was just made is set before it is checked what was opened: if
    the user moves another directory into its place in between, one of the trusted process that
    no operation would enter, that directory is given to the user. *)
Example made_directory_swapped_for_another :
  let advs := [id; id; id; id; relink 7 1 (u "d") 5] in
  let run := exec advs (runOperation boundaryEnv (u "/w") 1 (WriteFile (u "/w/d/f") (u "x") false None) (Some 7)) workspaceFs in
  Forall (obeys 7) advs ∧ (owner <$> workspaceFs !! 5) = Some 0 ∧ (owner <$> run.1.2 !! 5) = Some 7
  ∧ (exec [] (runOperation boundaryEnv (u "/w") 1 (WriteFile (u "/w/old/f") (u "x") false None) (Some 7)) workspaceFs).2 = inl ForeignParent.
Proof.
  split; [|by vm_compute]. repeat (constructor; [apply id_obeys|]). constructor; [apply relink_obeys|constructor].
Qed.
