(* ===== verification/FileBoundaryQuiet.v ===== *)
(** * The boundary when nobody interferes

    What the operations of [FileBoundary] do when the files change only through them: which
    files a read finds ([reachable]), that a write creates what it needs, and that what was
    written is read back. *)

From Corelib Require Import ssreflect.
From stdpp Require Import prelude gmap strings.
From S2P Require Import Prelude Text HostPaths WorkspaceFs FileBoundary.

#[local] Open Scope nat_scope.

(** ** Runs *)

Definition undisturbed {A} (p : prog A) (fs : Fs) : Fs * A := let '(_, fs', a) := exec [] p fs in (fs', a).

Lemma undisturbed_vis {R A} (c : Sys R) (k : R → prog A) fs :
  undisturbed (Vis c k) fs = undisturbed (k (sys c fs).2) (sys c fs).1.
Proof. unfold undisturbed. simpl. destruct (sys c fs) as [fs1 r]. simpl. by destruct (exec [] (k r) fs1) as [[? ?] ?]. Qed.

Lemma undisturbed_bind {A B} (p : prog A) (f : A → prog B) fs :
  undisturbed (pbind p f) fs = undisturbed (f (undisturbed p fs).2) (undisturbed p fs).1.
Proof. induction p as [a|R c k IH] in fs |- *; [done|]. cbn [pbind]. by rw !undisturbed_vis IH. Qed.

Lemma undisturbed_abind {A B} (p : Attempt A) (f : A → Attempt B) fs :
  undisturbed (abind p f) fs
  = match undisturbed p fs with (fs1, inr a) => undisturbed (f a) fs1 | (fs1, inl e) => (fs1, inl e) end.
Proof. unfold abind. rw undisturbed_bind. by destruct (undisturbed p fs) as [fs1 [e|a]]. Qed.

Lemma undisturbed_syscall {A} (c : Sys (Errno + A)) fs :
  undisturbed (syscall c) fs = ((sys c fs).1, match (sys c fs).2 with inl e => inl (SysError e) | inr a => inr a end).
Proof. unfold syscall. rw undisturbed_vis. by destruct (sys c fs).2. Qed.

Lemma undisturbed_done {A} (a : A) fs : undisturbed (done_ a) fs = (fs, inr a).
Proof. done. Qed.

Lemma undisturbed_ensure b e fs : undisturbed (ensure b e) fs = (fs, if b then inr () else inl e).
Proof. by destruct b. Qed.

Lemma abind_inr {A B} (p : Attempt A) (f : A → Attempt B) fs fs' b :
  undisturbed (abind p f) fs = (fs', inr b) →
  ∃ fs1 a, undisturbed p fs = (fs1, inr a) ∧ undisturbed (f a) fs1 = (fs', inr b).
Proof. rw undisturbed_abind. destruct (undisturbed p fs) as [fs1 [e|a]]; [done|]. intros H. by exists fs1, a. Qed.

Lemma syscall_inr {A} (c : Sys (Errno + A)) fs fs' a :
  undisturbed (syscall c) fs = (fs', inr a) → fs' = (sys c fs).1 ∧ (sys c fs).2 = inr a.
Proof. rw undisturbed_syscall. destruct (sys c fs).2; [done|]. by intros [= <- <-]. Qed.

Lemma ensure_inr b e fs fs' : undisturbed (ensure b e) fs = (fs', inr ()) → b = true ∧ fs' = fs.
Proof. rw undisturbed_ensure. destruct b; [by intros [= <-]|done]. Qed.

Lemma fstat_inr file fs fs' n : undisturbed (syscall (Fstat file)) fs = (fs', inr n) → fs' = fs ∧ fs !! file = Some n.
Proof. intros [-> H]%syscall_inr. simpl in *. destruct (fs !! file); [by injection H as ->|done]. Qed.

(** ** The files of a workspace *)

Section Workspace.
Context (o : option nat).

(** A real directory of the user. *)
Definition dirAt (fs : Fs) (i : nat) : option (gmap text nat) :=
  match fs !! i with
  | Some n => if ownedBy n o then match kind n with Directory entries => Some entries | _ => None end else None
  | None => None
  end.

(** The directory at the end of a path of real directories. *)
Fixpoint walk (fs : Fs) (dir : nat) (parts : list text) : option nat :=
  match dirAt fs dir with
  | None => None
  | Some entries =>
      match parts with
      | [] => Some dir
      | part :: parts => match entries !! part with Some i => walk fs i parts | None => None end
      end
  end.

(** A regular file of the user with one name, below real directories of the user. *)
Definition reachable (fs : Fs) (root : nat) (parts : list text) (i : nat) (bytes : list N) : Prop :=
  ∃ dir entries n,
    walk fs root (removelast parts) = Some dir ∧ dirAt fs dir = Some entries ∧ entries !! List.last parts [] = Some i
    ∧ fs !! i = Some n ∧ kind n = Regular bytes ∧ nlink n = 1 ∧ ownedBy n o = true.

Lemma dirAt_Some fs i entries :
  dirAt fs i = Some entries ↔ ∃ n, fs !! i = Some n ∧ kind n = Directory entries ∧ ownedBy n o = true.
Proof.
  unfold dirAt. split.
  - destruct (fs !! i) as [n|]; [|done]. destruct (ownedBy n o) eqn:Ho; [|done]. destruct (kind n) eqn:Hk; [|done..]. intros [= <-]. by exists n.
  - by intros (n & -> & -> & ->).
Qed.

Lemma walk_dirAt fs dir parts i : walk fs dir parts = Some i → is_Some (dirAt fs i).
Proof.
  induction parts as [|part parts IH] in dir |- *; simpl; destruct (dirAt fs dir) as [entries|] eqn:Hd; [|done| |done].
  - intros [= <-]. by eexists.
  - destruct (entries !! part); [apply IH|done].
Qed.

Lemma entriesOf_dirAt fs i entries : dirAt fs i = Some entries → entriesOf i fs = inr entries.
Proof. intros (n & Hn & Hk & _)%dirAt_Some. unfold entriesOf. rw Hn. destruct n as [k ow nl v]. simpl in Hk. by subst k. Qed.

Lemma entriesOf_inr' fs i entries : entriesOf i fs = inr entries → ∃ n, fs !! i = Some n ∧ kind n = Directory entries.
Proof. unfold entriesOf. destruct (fs !! i) as [ [k ow nl v] |]; [|done]. destruct k; [|done|done]. intros [= ->]. by eexists. Qed.

Lemma assertDirectory_inr i fs fs' :
  undisturbed (assertDirectory i o) fs = (fs', inr ()) → fs' = fs ∧ is_Some (dirAt fs i).
Proof.
  unfold assertDirectory. intros (fs1 & n & [-> Hn]%fstat_inr & [H ->]%ensure_inr)%abind_inr. split; [done|].
  apply andb_true_iff in H as [Hd Ho]. unfold isDirectory in Hd. destruct (kind n) as [entries| |] eqn:Hk; [|done..].
  exists entries. apply dirAt_Some. by exists n.
Qed.

Lemma assertDirectory_ok i fs : is_Some (dirAt fs i) → undisturbed (assertDirectory i o) fs = (fs, inr ()).
Proof.
  intros [entries (n & Hn & Hk & Ho)%dirAt_Some]. unfold assertDirectory. rw undisturbed_abind undisturbed_syscall /= Hn.
  rw undisturbed_ensure. unfold isDirectory. by rw Hk Ho.
Qed.

(** ** Reading *)

Lemma openPart_existing fs fs' dir part i c :
  undisturbed (openPart false dir part) fs = (fs', inr (i, c)) ↔
  fs' = fs ∧ c = false
  ∧ ∃ entries n, entriesOf dir fs = inr entries ∧ entries !! part = Some i ∧ fs !! i = Some n ∧ isDirectory n = true.
Proof.
  unfold openPart, call. rw undisturbed_bind undisturbed_vis. cbn [sys]. unfold openAt.
  destruct (entriesOf dir fs) as [e|entries] eqn:He.
  { cbn [fst snd]. split; [by destruct e|by intros (_ & _ & entries & ? & ? & _)]. }
  destruct (entries !! part) as [j|] eqn:Hj; [|by split; [|intros (_ & _ & ? & ? & [= <-] & Hp & _); rw Hj in Hp]].
  destruct (fs !! j) as [n|] eqn:Hn; simpl.
  - destruct (kind n) as [es|bs|t] eqn:Hk; (split; [try done; intros [= <- <- <-]|]).
    + split; [done|]. split; [done|]. exists entries, n. unfold isDirectory. by rw Hk.
    + intros (-> & -> & es' & n' & [= <-] & Hj' & Hn' & Hd). by simplify_eq.
    + intros (-> & -> & es' & n' & [= <-] & Hj' & Hn' & Hd). simplify_eq. unfold isDirectory in Hd. by rw Hk in Hd.
    + intros (-> & -> & es' & n' & [= <-] & Hj' & Hn' & Hd). simplify_eq. unfold isDirectory in Hd. by rw Hk in Hd.
  - split; [done|]. intros (-> & -> & es' & n' & [= <-] & Hj' & Hn' & Hd). by simplify_eq.
Qed.

Lemma openParts_existing fs fs' dir parts i :
  is_Some (dirAt fs dir) →
  undisturbed (openParts false o dir parts) fs = (fs', inr i) ↔ fs' = fs ∧ walk fs dir parts = Some i.
Proof.
  induction parts as [|part parts IH] in dir |- *; intros [entries Hd]; cbn [openParts walk]; rw Hd.
  { rw undisturbed_done. split; [by intros [= <- <-]|by intros [-> [= ->]]]. }
  assert (Hchown : ∀ j, undisturbed (match o with Some _ => done_ () | None => done_ () end >>> assertDirectory j o >>> openParts false o j parts) fs
                        = undisturbed (assertDirectory j o >>> openParts false o j parts) fs).
  { intros j. rw undisturbed_abind. by destruct o. }
  split.
  - intros (fs1 & [j c] & (-> & -> & es & n & He & Hj & Hn & _)%openPart_existing & Hrest)%abind_inr.
    assert (Hrest' : undisturbed (assertDirectory j o >>> openParts false o j parts) fs = (fs', inr i)) by (rw -Hchown; by destruct o).
    apply abind_inr in Hrest' as (fs2 & [] & [-> Hj']%assertDirectory_inr & Hgo).
    apply entriesOf_dirAt in Hd. rw Hd in He. injection He as <-. rw Hj. by apply IH.
  - intros [-> Hw]. destruct (entries !! part) as [j|] eqn:Hj; [|done].
    assert (Hj' : is_Some (dirAt fs j)) by (destruct parts; simpl in Hw; by destruct (dirAt fs j)).
    rw undisturbed_abind. assert (Hopen : undisturbed (openPart false dir part) fs = (fs, inr (j, false))).
    { apply openPart_existing. split; [done|]. split; [done|]. destruct Hj' as [es (n & Hn & Hk & _)%dirAt_Some]. exists entries, n.
      split; [by apply entriesOf_dirAt|]. split; [done|]. split; [done|]. unfold isDirectory. by rw Hk. }
    rw Hopen. transitivity (undisturbed (assertDirectory j o >>> openParts false o j parts) fs); [rw -Hchown; by destruct o|].
    rw undisturbed_abind assertDirectory_ok //. by apply IH.
Qed.

Context (env : HostEnv) (lexicalRoot : text) (root : nat).

Lemma rootDirectory_inr {A} fs fs' (p : Attempt A) a :
  undisturbed (attempt metadata := syscall (Fstat root) in ensure (isDirectory metadata && ownedBy metadata o) RootNotDirectory >>> p) fs = (fs', inr a) →
  is_Some (dirAt fs root) ∧ undisturbed p fs = (fs', inr a).
Proof.
  intros (fs1 & n & [-> Hn]%fstat_inr & H)%abind_inr. apply abind_inr in H as (fs2 & [] & [Hd ->]%ensure_inr & H). split; [|done].
  apply andb_true_iff in Hd as [Hd Ho]. unfold isDirectory in Hd. destruct (kind n) as [es| |] eqn:Hk; [|done..].
  exists es. apply dirAt_Some. by exists n.
Qed.

Lemma rootDirectory_ok {A} fs (p : Attempt A) :
  is_Some (dirAt fs root) →
  undisturbed (attempt metadata := syscall (Fstat root) in ensure (isDirectory metadata && ownedBy metadata o) RootNotDirectory >>> p) fs
  = undisturbed p fs.
Proof.
  intros [es (n & Hn & Hk & Ho)%dirAt_Some]. rw undisturbed_abind undisturbed_syscall /= Hn undisturbed_abind undisturbed_ensure.
  unfold isDirectory. by rw Hk Ho.
Qed.

Lemma openLinuxParent_existing fs fs' parts i :
  undisturbed (openLinuxParent root parts false o) fs = (fs', inr i) ↔ fs' = fs ∧ walk fs root parts = Some i.
Proof.
  unfold openLinuxParent. split.
  - intros (fs1 & [] & [-> Hd]%assertDirectory_inr & H)%abind_inr. by apply openParts_existing.
  - intros [-> Hw]. assert (Hd : is_Some (dirAt fs root)) by (destruct parts; simpl in Hw; by destruct (dirAt fs root)).
    rw undisturbed_abind assertDirectory_ok //. by apply openParts_existing.
Qed.

(** The file an entry opens for reading. *)
Lemma openRead_inr fs fs' dir name i :
  undisturbed (syscall (OpenAt dir name OpenRead)) fs = (fs', inr i) ↔
  fs' = fs ∧ ∃ entries n, entriesOf dir fs = inr entries ∧ entries !! name = Some i ∧ fs !! i = Some n
                          ∧ match kind n with Symlink _ => False | _ => True end.
Proof.
  rw undisturbed_syscall. cbn [sys]. unfold openAt. destruct (entriesOf dir fs) as [e|entries] eqn:He.
  { split; [done|by intros (_ & entries & ? & ? & _)]. }
  destruct (entries !! name) as [j|] eqn:Hj; [|by split; [|intros (_ & ? & ? & [= <-] & Hp & _); rw Hj in Hp]].
  destruct (fs !! j) as [n|] eqn:Hn; simpl; [|by split; [|intros (_ & ? & ? & [= <-] & Hp & Hn' & _); simplify_eq]].
  destruct (kind n) eqn:Hk; simpl; (split; [first [done|intros [= <- <-]; split; [done|]; exists entries, n; by rw Hk]|]).
  all: intros (-> & ? & ? & [= <-] & Hp & Hn' & Hl); simplify_eq; by rw Hk in Hl.
Qed.

Lemma open_for_read filePath parts fs fs' opened :
  relativeTarget env lexicalRoot filePath = inr parts →
  undisturbed (openWorkspaceFile env lexicalRoot root filePath OpenRead false o o) fs = (fs', inr opened) →
  fs' = fs ∧ ∃ bytes, reachable fs root parts (handle opened) bytes
  ∧ walk fs root (removelast parts) = Some (entryParent opened) ∧ entryName opened = List.last parts [].
Proof.
  intros Hparts. unfold openWorkspaceFile. rw Hparts. intros [_ H]%rootDirectory_inr.
  apply abind_inr in H as (fs1 & dir & [-> Hw]%openLinuxParent_existing & H).
  apply abind_inr in H as (fs2 & i & [-> (entries & n & He & Hi & Hn & _)]%openRead_inr & H).
  apply abind_inr in H as (fs3 & m & [-> Hm]%fstat_inr & H). simplify_eq.
  apply abind_inr in H as (fs4 & [] & [Hc ->]%ensure_inr & H). injection H as <- <-. split; [done|].
  apply andb_true_iff in Hc as [[Hf Hl%Nat.eqb_eq]%andb_true_iff Ho]. unfold isFile in Hf.
  destruct (kind n) as [|bytes|] eqn:Hk; [done| |done]. exists bytes. split; [|done].
  destruct (walk_dirAt _ _ _ _ Hw) as [es Hes]. assert (es = entries) as -> by (apply entriesOf_dirAt in Hes; congruence).
  by exists dir, entries, n.
Qed.

Lemma open_reachable filePath parts fs i bytes :
  relativeTarget env lexicalRoot filePath = inr parts → reachable fs root parts i bytes →
  ∃ dir, undisturbed (openWorkspaceFile env lexicalRoot root filePath OpenRead false o o) fs
         = (fs, inr {| handle := i; entryParent := dir; entryName := List.last parts [] |})
         ∧ walk fs root (removelast parts) = Some dir.
Proof.
  intros Hparts (dir & entries & n & Hw & Hes & Hi & Hn & Hk & Hl & Ho). exists dir. split; [|done]. unfold openWorkspaceFile. rw Hparts.
  assert (Hd : is_Some (dirAt fs root)) by (destruct (removelast parts); simpl in Hw; by destruct (dirAt fs root)).
  rw rootDirectory_ok // undisturbed_abind. assert (E : undisturbed (openLinuxParent root (removelast parts) false o) fs = (fs, inr dir))
    by by apply openLinuxParent_existing.
  rw E undisturbed_abind. assert (E' : undisturbed (syscall (OpenAt dir (List.last parts []) OpenRead)) fs = (fs, inr i)).
  { apply openRead_inr. split; [done|]. exists entries, n. split; [by apply entriesOf_dirAt|]. by rw Hk. }
  rw E' undisturbed_abind undisturbed_syscall /= Hn undisturbed_abind undisturbed_ensure. unfold isFile. by rw Hk Hl Ho.
Qed.

Lemma readBounded_ok file n bytes maxBytes fs :
  fs !! file = Some n → kind n = Regular bytes →
  undisturbed (readBounded file maxBytes) fs = (fs, if length bytes <=? maxBytes then inr bytes else inl TooLarge).
Proof.
  intros Hn Hk. unfold readBounded. rw undisturbed_abind undisturbed_syscall /= Hn undisturbed_abind undisturbed_ensure.
  assert (Hsize : size n = length bytes) by (unfold size; by rw Hk). unfold isFile. rw Hk Hsize. cbn [andb].
  destruct (length bytes <=? maxBytes); [|done]. rw undisturbed_abind.
  assert (Hb : bytesOf file fs = inr bytes) by (unfold bytesOf; rw Hn; destruct n as [k ow nl v]; simpl in Hk; by subst k).
  assert (Hloop : undisturbed (readLoop (S (length bytes)) file (length bytes) []) fs = (fs, inr bytes)).
  { cbn [readLoop length]. destruct bytes as [|b bytes]; [done|]. cbn [length Nat.ltb Nat.leb]. rw undisturbed_abind undisturbed_syscall /= Hb /=.
    by rw firstn_all Nat.ltb_irrefl. }
  rw Hloop undisturbed_abind undisturbed_syscall /= Hn undisturbed_abind undisturbed_ensure Hsize !Nat.eqb_refl. done.
Qed.

Lemma assertEntry_ok opened n entries fs :
  fs !! handle opened = Some n → isFile n = true → nlink n = 1 → dirAt fs (entryParent opened) = Some entries →
  entries !! entryName opened = Some (handle opened) → undisturbed (assertEntryStillOpenedFile opened) fs = (fs, inr ()).
Proof.
  intros Hn Hf Hl Hd He. unfold assertEntryStillOpenedFile. rw undisturbed_abind undisturbed_syscall /= Hn undisturbed_abind undisturbed_syscall /=.
  unfold lstatAt. apply entriesOf_dirAt in Hd. rw Hd He Hn. rw undisturbed_ensure /= Nat.eqb_refl Hl Hf. done.
Qed.

Lemma read_reachable filePath parts i bytes maxBytes fs :
  relativeTarget env lexicalRoot filePath = inr parts → reachable fs root parts i bytes →
  undisturbed (readWorkspaceFileNoFollow env lexicalRoot root filePath maxBytes o) fs
  = (fs, if length bytes <=? maxBytes then inr bytes else inl TooLarge).
Proof.
  intros Hparts Hreach. destruct (open_reachable filePath parts fs i bytes Hparts Hreach) as (dir & Hopen & Hw).
  destruct Hreach as (dir' & entries & n & Hw' & Hes & Hi & Hn & Hk & Hl & Ho). simplify_eq.
  unfold readWorkspaceFileNoFollow. rw undisturbed_abind Hopen undisturbed_abind undisturbed_syscall /= Hn undisturbed_abind.
  rw (readBounded_ok i n bytes) //. destruct (length bytes <=? maxBytes); [|done]. rw undisturbed_abind (assertEntry_ok _ n entries) //.
  unfold isFile. by rw Hk.
Qed.

(** Undisturbed, a read of a path inside the workspace returns exactly the content of the
    regular file of the user, with one name and within the limit, that the path leads to through
    real directories of the user, and changes nothing; if a part of the path is a symbolic link,
    or anything else but such a directory, there is none. *)
Theorem read_follows_real_directories filePath parts maxBytes fs fs' r :
  relativeTarget env lexicalRoot filePath = inr parts →
  undisturbed (readWorkspaceFileNoFollow env lexicalRoot root filePath maxBytes o) fs = (fs', r) →
  ∀ bytes, r = inr bytes ↔ fs' = fs ∧ length bytes ≤ maxBytes ∧ ∃ i, reachable fs root parts i bytes.
Proof.
  intros Hparts Hrun bytes. split.
  - intros ->. pose proof Hrun as H. unfold readWorkspaceFileNoFollow in H. apply abind_inr in H as (fs1 & opened & Hopen & _).
    destruct (open_for_read _ _ _ _ _ Hparts Hopen) as (-> & bytes' & Hreach & _).
    rw (read_reachable filePath parts (handle opened) bytes') // in Hrun.
    destruct (Nat.leb_spec (length bytes') maxBytes); [|done]. injection Hrun as <- <-. split; [done|]. split; [done|]. by exists (handle opened).
  - intros (-> & Hlen & i & Hreach). rw (read_reachable filePath parts i bytes) // in Hrun.
    destruct (Nat.leb_spec (length bytes) maxBytes); [by injection Hrun as <-|lia].
Qed.
End Workspace.

(** ** A workspace with a link *)

Definition quietEnv : HostEnv :=
  {| userProfile := []; localAppData := []; appData := []; tempDir := u "/tmp"; homedir := u "/root"; cwd := u "/" |}.

(** [/w/d/a] is a file; [/w/l] leads to [/w/d]. *)
Definition linkedFs : Fs :=
  list_to_map
    [(1, {| kind := Directory (list_to_map [(u "d", 2); (u "l", 4)]); owner := 7; nlink := 1; version := 0 |});
     (2, {| kind := Directory (list_to_map [(u "a", 3)]); owner := 7; nlink := 1; version := 0 |});
     (3, {| kind := Regular (u "text"); owner := 7; nlink := 1; version := 0 |});
     (4, {| kind := Symlink (u "d"); owner := 7; nlink := 1; version := 0 |})].

Lemma read_follows_real_directories_witness :
  let read path := undisturbed (readWorkspaceFileNoFollow quietEnv (u "/w") 1 (u path) 100 (Some 7)) linkedFs in
  read "/w/l/a"%string = (linkedFs, inl (SysError ENOTDIR))
  ∧ linkedFs = linkedFs ∧ length (u "text") ≤ 100 ∧ ∃ i, reachable (Some 7) linkedFs 1 [u "d"; u "a"] i (u "text").
Proof.
  intros read. split; [by vm_compute|].
  apply (read_follows_real_directories (Some 7) quietEnv (u "/w") 1 (u "/w/d/a") [u "d"; u "a"] 100 linkedFs linkedFs (inr (u "text")));
    [by vm_compute|by vm_compute|done].
Defined.
