(* ===== verification/FileBoundaryWrite.v ===== *)
(** * What is written is read back

    The write of [FileBoundary] when nobody interferes: it opens or creates the parents and the
    file, and once it has succeeded the file is where a read finds it, with the content that was
    written; no other file has changed. *)

From Corelib Require Import ssreflect.
From stdpp Require Import prelude gmap strings.
From S2P Require Import Prelude Text HostPaths WorkspaceFs FileBoundary FileBoundaryQuiet.

#[local] Open Scope nat_scope.

Section Write.
Context (o : option nat).

(** Directories of the user keep their entries; files other than [h] stay as they are. *)
Definition evolves (h : nat) (fs fs' : Fs) : Prop :=
  (∀ i entries, dirAt o fs i = Some entries → ∃ entries', dirAt o fs' i = Some entries' ∧ entries ⊆ entries')
  ∧ ∀ i n, fs !! i = Some n → isFile n = true → i ≠ h → fs' !! i = Some n.

#[local] Instance evolves_refl h : Reflexive (evolves h).
Proof. intros fs. split; [|done]. intros i entries Hd. by exists entries. Qed.

#[local] Instance evolves_trans h : Transitive (evolves h).
Proof.
  intros fs fs1 fs2 [Hd Hf] [Hd' Hf']. split.
  - intros i entries (entries1 & H1 & Hsub)%Hd. apply Hd' in H1 as (entries2 & H2 & Hsub'). exists entries2. split; [done|]. by etrans.
  - intros i n Hn Hfile Hi. apply Hf'; [|done|done]. by apply Hf.
Qed.

Lemma walk_evolves h fs fs' dir parts i : evolves h fs fs' → walk o fs dir parts = Some i → walk o fs' dir parts = Some i.
Proof.
  intros [Hd _]. induction parts as [|part parts IH] in dir |- *; simpl; destruct (dirAt o fs dir) as [entries|] eqn:He; try done;
    apply Hd in He as (entries' & -> & Hsub); [done|].
  destruct (entries !! part) as [j|] eqn:Hj; [|done]. rw (lookup_weaken _ _ _ _ Hj Hsub). apply IH.
Qed.

(** One inode replaced, of the same kind, with no fewer entries. *)
Lemma evolves_put h fs i n n' :
  fs !! i = Some n → (ownedBy n o = true → ownedBy n' o = true) →
  (∀ entries, kind n = Directory entries → ∃ entries', kind n' = Directory entries' ∧ entries ⊆ entries') →
  (isFile n = true → i = h) → evolves h fs (<[i := n']> fs).
Proof.
  intros Hn Ho Hk Hf. split.
  - intros j entries (m & Hm & Hkm & Hom)%dirAt_Some. destruct (decide (j = i)) as [->|Hj].
    + simplify_eq. destruct (Hk entries Hkm) as (entries' & Hk' & Hsub). exists entries'. split; [|done]. apply dirAt_Some. exists n'.
      rw lookup_insert_eq. split; [done|]. split; [done|by apply Ho].
    + exists entries. split; [|done]. apply dirAt_Some. exists m. by rw lookup_insert_ne.
  - intros j m Hm Hfile Hj. rw lookup_insert_ne; [intros <-; simplify_eq; by apply Hj, Hf|done].
Qed.

Lemma evolves_addEntry h dir name entries k fs :
  entriesOf dir fs = inr entries → entries !! name = None → evolves h fs (addEntry dir name entries k fs).1.
Proof.
  intros (n & Hn & Hk)%entriesOf_inr' Hname. unfold addEntry. cbn [fst]. set (i := fresh (dom fs)).
  assert (Hi : fs !! i = None) by (apply not_elem_of_dom, is_fresh).
  assert (Hne : i ≠ dir) by (intros ->; by rw Hn in Hi).
  transitivity (<[i := {| kind := k; owner := self; nlink := 1; version := 0 |}]> fs).
  - split; [|intros j m Hm _ _; apply lookup_insert_Some; right; split; [by intros ->; rw Hi in Hm|exact Hm]].
    intros j es (m & Hm & Hkm & Hom)%dirAt_Some. exists es. split; [|done]. apply dirAt_Some. exists m. rw lookup_insert_ne; [by intros ->; rw Hi in Hm|done].
  - unfold setKind. rw (lookup_insert_ne fs i dir) // Hn. apply (evolves_put _ _ _ n); [by rw lookup_insert_ne|done| |].
    + intros es. rw Hk. intros [= <-]. eexists. split; [done|]. by apply insert_subseteq.
    + unfold isFile. by rw Hk.
Qed.

Lemma evolves_openAt h dir name mode fs : evolves h fs (openAt dir name mode fs).1.
Proof.
  unfold openAt. destruct (entriesOf dir fs) as [|entries] eqn:He; [reflexivity|]. destruct (entries !! name) as [i|] eqn:Hi.
  - destruct mode, (kind <$> fs !! i) as [ [] |]; reflexivity.
  - destruct mode; try reflexivity. assert (H := evolves_addEntry h dir name entries (Regular []) fs He Hi).
    by destruct (addEntry dir name entries (Regular []) fs).
Qed.

Lemma evolves_mkdirAt h dir name fs : evolves h fs (mkdirAt dir name fs).1.
Proof.
  unfold mkdirAt. destruct (entriesOf dir fs) as [|entries] eqn:He; [reflexivity|]. destruct (entries !! name) as [i|] eqn:Hi; [reflexivity|].
  by apply evolves_addEntry.
Qed.

(** The file is given to the user. *)
Lemma evolves_chown h fs i u :
  o = Some u → (∀ n, fs !! i = Some n → isFile n = true → i = h) → evolves h fs (sys (Fchown i u) fs).1.
Proof.
  intros Ho Hf. cbn [sys]. destruct (fs !! i) as [n|] eqn:Hn; [|reflexivity]. apply (evolves_put h fs i n); [done| | |by apply Hf].
  - intros _. unfold ownedBy. rw Ho /=. apply Nat.eqb_refl.
  - intros entries Hk. by exists entries.
Qed.

(** Programs, step by step. *)
Lemma abind_evolves {A B} h (p : Attempt A) (f : A → Attempt B) fs :
  evolves h fs (undisturbed p fs).1 →
  (∀ fs1 a, undisturbed p fs = (fs1, inr a) → evolves h fs1 (undisturbed (f a) fs1).1) →
  evolves h fs (undisturbed (abind p f) fs).1.
Proof.
  intros Hp Hf. rw undisturbed_abind. destruct (undisturbed p fs) as [fs1 [e|a]] eqn:E; [exact Hp|]. etrans; [exact Hp|]. by apply Hf.
Qed.

Lemma fstat_same i fs : (undisturbed (syscall (Fstat i)) fs).1 = fs.
Proof. by rw undisturbed_syscall. Qed.

Lemma assertDirectory_same i o' fs : (undisturbed (assertDirectory i o') fs).1 = fs.
Proof.
  unfold assertDirectory. rw undisturbed_abind undisturbed_syscall /=. destruct (fs !! i); [|done]. by rw undisturbed_ensure.
Qed.

(** A part of the path opened or created. *)
Lemma openPart_result create dir part fs :
  (∀ h, evolves h fs (undisturbed (openPart create dir part) fs).1)
  ∧ ∀ fs' i c, undisturbed (openPart create dir part) fs = (fs', inr (i, c)) →
      ∃ entries n, entriesOf dir fs' = inr entries ∧ entries !! part = Some i ∧ fs' !! i = Some n ∧ isDirectory n = true.
Proof.
  assert (Hopened : ∀ fs1 fs2 i, openAt dir part OpenDirectory fs1 = (fs2, inr i) →
    fs2 = fs1 ∧ ∃ entries n, entriesOf dir fs1 = inr entries ∧ entries !! part = Some i ∧ fs1 !! i = Some n ∧ isDirectory n = true).
  { intros fs1 fs2 i. unfold openAt. destruct (entriesOf dir fs1) as [|entries]; [done|]. destruct (entries !! part) as [j|] eqn:Hj; [|done].
    destruct (fs1 !! j) as [n|] eqn:Hn; [|done]. simpl. destruct (kind n) eqn:Hk; try done. intros [= <- <-]. split; [done|].
    exists entries, n. unfold isDirectory. by rw Hk. }
  unfold openPart, call. rw undisturbed_bind undisturbed_vis. cbn [sys fst snd].
  destruct (openAt dir part OpenDirectory fs) as [fs1 r] eqn:E. cbn [fst snd].
  assert (Hev : ∀ h, evolves h fs fs1) by (intros h; assert (H := evolves_openAt h dir part OpenDirectory fs); by rw E in H).
  destruct r as [e|i].
  - assert (Hmake : (∀ h, evolves h fs1 (undisturbed (syscall (MkdirAt dir part) >>>
                        attempt dir' := syscall (OpenAt dir part OpenDirectory) in done_ (dir', true)) fs1).1)
                    ∧ ∀ fs' i c, undisturbed (syscall (MkdirAt dir part) >>>
                        attempt dir' := syscall (OpenAt dir part OpenDirectory) in done_ (dir', true)) fs1 = (fs', inr (i, c)) →
                      ∃ entries n, entriesOf dir fs' = inr entries ∧ entries !! part = Some i ∧ fs' !! i = Some n ∧ isDirectory n = true).
    { split.
      - intros h. apply abind_evolves; [rw undisturbed_syscall; apply evolves_mkdirAt|]. intros fs2 [] _.
        apply abind_evolves; [rw undisturbed_syscall; apply evolves_openAt|]. intros fs3 j _. reflexivity.
      - intros fs' i c (fs2 & [] & _ & H)%abind_inr. apply abind_inr in H as (fs3 & j & [-> Hj]%syscall_inr & H). injection H as <- <- <-.
        cbn [sys] in *. destruct (openAt dir part OpenDirectory fs2) as [fs4 r] eqn:E'. simpl in Hj. subst r.
        apply Hopened in E' as [-> H]. exact H. }
    cbn [fst snd].
    destruct e; try (by split). destruct create; [|by split]. split; [intros h; etrans; [apply Hev|apply Hmake]|apply Hmake].
  - apply Hopened in E as [-> H]. cbn [fst snd]. split; [done|]. by intros fs' j c [= <- <- <-].
Qed.

(** The parents opened or created. *)
Lemma openParts_evolves create dir parts fs h : evolves h fs (undisturbed (openParts create o dir parts) fs).1.
Proof.
  induction parts as [|part parts IH] in dir, fs |- *; cbn [openParts]; [reflexivity|].
  destruct (openPart_result create dir part fs) as [Hev Hres]. apply abind_evolves; [apply Hev|]. intros fs1 [j c] E.
  destruct (Hres _ _ _ E) as (entries & n & _ & _ & Hn & Hdir). apply abind_evolves.
  - destruct o as [u|] eqn:Ho; [|reflexivity]. destruct c; [|reflexivity]. rw undisturbed_syscall. apply evolves_chown; [by rw Ho|].
    intros m Hm Hf. rw Hn in Hm. injection Hm as <-. unfold isDirectory, isFile in *. by destruct (kind n).
  - intros fs2 [] _. apply abind_evolves; [rw assertDirectory_same; reflexivity|]. intros fs3 [] _. apply IH.
Qed.

Lemma openParts_walk create dir parts fs fs' i :
  is_Some (dirAt o fs dir) → undisturbed (openParts create o dir parts) fs = (fs', inr i) → walk o fs' dir parts = Some i.
Proof.
  induction parts as [|part parts IH] in dir, fs |- *; cbn [openParts]; intros [entries Hd].
  { rw undisturbed_done. intros [= <- <-]. cbn [walk]. by rw Hd. }
  intros Hrun. apply abind_inr in Hrun as (fs1 & [j c] & E & H). destruct (openPart_result create dir part fs) as [Hev Hres].
  destruct (Hres _ _ _ E) as (es & n & Hes & Hj & Hn & Hdir).
  assert (Hd1 : dirAt o fs1 dir = Some es).
  { specialize (Hev 0). rw E in Hev. destruct (proj1 Hev _ _ Hd) as (es' & Hd' & _). cbn [fst] in Hd'. rw Hd'.
    apply entriesOf_dirAt in Hd'. congruence. }
  apply abind_inr in H as (fs2 & [] & Hchown & H). apply abind_inr in H as (fs3 & [] & [-> Hdj]%assertDirectory_inr & H).
  assert (Hgrow : evolves 0 fs1 fs').
  { transitivity fs2.
    - destruct o as [u|] eqn:Ho; [|injection Hchown as <-; reflexivity]. destruct c; [|injection Hchown as <-; reflexivity].
      apply syscall_inr in Hchown as [-> _]. apply evolves_chown; [by rw Ho|].
      intros m Hm Hf. rw Hn in Hm. injection Hm as <-. unfold isDirectory, isFile in *. by destruct (kind n).
    - assert (G := openParts_evolves create j parts fs2 0). by rw H in G. }
  cbn [walk]. destruct Hgrow as [Hg _]. destruct (Hg _ _ Hd1) as (es' & -> & Hsub). rw (lookup_weaken _ _ _ _ Hj Hsub).
  by apply (IH j fs2).
Qed.

Context (env : HostEnv) (lexicalRoot : text) (root : nat).

(** A plain file with one name, of the user where one is expected. *)
Definition plainFile (fs : Fs) (i : nat) (expected : option nat) : Prop :=
  ∃ n, fs !! i = Some n ∧ isFile n = true ∧ nlink n = 1 ∧ ownedBy n expected = true.

Lemma openWorkspaceFile_evolves filePath mode expected fs h :
  evolves h fs (undisturbed (openWorkspaceFile env lexicalRoot root filePath mode true o expected) fs).1.
Proof.
  unfold openWorkspaceFile. destruct (relativeTarget _ _ filePath) as [e|parts]; [reflexivity|].
  apply abind_evolves; [by rw fstat_same|]. intros fs1 n _. apply abind_evolves; [by rw undisturbed_ensure|]. intros fs2 [] _.
  apply abind_evolves.
  { unfold openLinuxParent. apply abind_evolves; [by rw assertDirectory_same|]. intros fs3 [] _. apply openParts_evolves. }
  intros fs3 dir _. apply abind_evolves; [rw undisturbed_syscall; apply evolves_openAt|]. intros fs4 file _.
  apply abind_evolves; [by rw fstat_same|]. intros fs5 m _. apply abind_evolves; [by rw undisturbed_ensure|]. reflexivity.
Qed.

Lemma openWorkspaceFile_inr filePath parts mode expected fs fs' opened :
  relativeTarget env lexicalRoot filePath = inr parts →
  undisturbed (openWorkspaceFile env lexicalRoot root filePath mode true o expected) fs = (fs', inr opened) →
  walk o fs' root (removelast parts) = Some (entryParent opened) ∧ entryName opened = List.last parts []
  ∧ plainFile fs' (handle opened) expected.
Proof.
  intros Hparts. unfold openWorkspaceFile. rw Hparts. intros [Hd H]%rootDirectory_inr.
  apply abind_inr in H as (fs1 & dir & Hparent & H). unfold openLinuxParent in Hparent.
  apply abind_inr in Hparent as (fs0 & [] & [-> _]%assertDirectory_inr & Hparent). apply openParts_walk in Hparent; [|done].
  apply abind_inr in H as (fs2 & i & [-> _]%syscall_inr & H). apply abind_inr in H as (fs3 & n & [-> Hn]%fstat_inr & H).
  apply abind_inr in H as (fs4 & [] & [Hc ->]%ensure_inr & H). injection H as <- <-. cbn [handle entryParent entryName].
  split; [apply (walk_evolves 0 fs1); [apply evolves_openAt|done]|]. split; [done|].
  apply andb_true_iff in Hc as [[Hf Hl%Nat.eqb_eq]%andb_true_iff Ho]. by exists n.
Qed.

Lemma openForWrite_inr filePath parts exclusive fs fs' opened created :
  relativeTarget env lexicalRoot filePath = inr parts →
  undisturbed (openForWrite env lexicalRoot root filePath exclusive o) fs = (fs', inr (opened, created)) →
  (∀ h, evolves h fs fs') ∧ walk o fs' root (removelast parts) = Some (entryParent opened) ∧ entryName opened = List.last parts []
  ∧ plainFile fs' (handle opened) (if created then None else o).
Proof.
  intros Hparts.
  assert (Hcreate : ∀ fs1, undisturbed (attempt opened := openWorkspaceFile env lexicalRoot root filePath CreateNew true o None in done_ (opened, true)) fs1
                           = (fs', inr (opened, created)) →
    (∀ h, evolves h fs1 fs') ∧ walk o fs' root (removelast parts) = Some (entryParent opened) ∧ entryName opened = List.last parts []
    ∧ plainFile fs' (handle opened) (if created then None else o)).
  { intros fs1 (fs2 & op & Hop & H)%abind_inr. injection H as <- <- <-. split.
    - intros h. assert (E := openWorkspaceFile_evolves filePath CreateNew None fs1 h). by rw Hop in E.
    - by apply (openWorkspaceFile_inr filePath parts CreateNew None fs1). }
  unfold openForWrite. destruct exclusive; [apply Hcreate|]. rw undisturbed_bind.
  assert (Hev := openWorkspaceFile_evolves filePath OpenWrite o fs).
  destruct (undisturbed (openWorkspaceFile env lexicalRoot root filePath OpenWrite true o o) fs) as [fs1 [e|op]] eqn:E; cbn [fst snd] in *.
  - destruct e as [ [] | | | | | | | | | | |]; try done. intros Hrun. destruct (Hcreate fs1 Hrun) as [H1 H2].
    split; [intros h; etrans; [apply Hev|apply H1]|exact H2].
  - rw undisturbed_done. intros [= <- <- <-]. split; [done|]. by apply (openWorkspaceFile_inr filePath parts OpenWrite o fs).
Qed.

(** A change of the content keeps the file plain. *)
Definition rewritten (h : nat) (fs fs' : Fs) : Prop :=
  evolves h fs fs' ∧ ∀ expected, plainFile fs h expected → plainFile fs' h expected.

#[local] Instance rewritten_refl h : Reflexive (rewritten h).
Proof. intros fs. by split. Qed.

#[local] Instance rewritten_trans h : Transitive (rewritten h).
Proof. intros fs fs1 fs2 [? H1] [? H2]. split; [by etrans|]. intros expected Hp. by apply H2, H1. Qed.

Lemma rewritten_setKind h fs content bytes :
  bytesOf h fs = inr content → rewritten h fs (setKind h (Regular bytes) fs).
Proof.
  intros Hb. assert (Hn : ∃ n, fs !! h = Some n ∧ kind n = Regular content).
  { unfold bytesOf in Hb. destruct (fs !! h) as [ [k ow nl v] |]; [|done]. destruct k; [done| |done]. injection Hb as ->. by eexists. }
  destruct Hn as (n & Hn & Hk). unfold setKind. rw Hn. split.
  - apply (evolves_put h fs h n); [done|done| |done]. intros entries. by rw Hk.
  - intros expected (m & Hm & Hf & Hl & Ho). simplify_eq. eexists. split; [apply lookup_insert_eq|]. by split.
Qed.

Lemma truncate_rewritten h len fs fs' : undisturbed (syscall (Ftruncate h len)) fs = (fs', inr ()) → rewritten h fs fs'.
Proof. intros [-> H]%syscall_inr. cbn [sys] in *. destruct (bytesOf h fs) eqn:E; [done|]. by apply (rewritten_setKind h fs l). Qed.

Lemma writeLoop_rewritten fuel h intended offset fs fs' :
  undisturbed (writeLoop fuel h intended offset) fs = (fs', inr ()) → rewritten h fs fs'.
Proof.
  induction fuel as [|fuel IH] in offset, fs |- *; cbn [writeLoop]; [by intros [= <-]|]. destruct (offset <? length intended); [|by intros [= <-]].
  intros Hrun. apply abind_inr in Hrun as (fs1 & written & [-> Hw]%syscall_inr & Hrun). cbn [sys] in *. destruct (bytesOf h fs) as [|content] eqn:E; [done|].
  destruct (written =? 0); [done|]. apply IH in Hrun. etrans; [|exact Hrun]. by apply (rewritten_setKind h fs content).
Qed.

Lemma readBounded_inr h maxBytes expected fs fs' bytes :
  plainFile fs h expected → undisturbed (readBounded h maxBytes) fs = (fs', inr bytes) →
  fs' = fs ∧ ∃ n, fs !! h = Some n ∧ kind n = Regular bytes.
Proof.
  intros (n & Hn & Hf & _). unfold isFile in Hf. destruct (kind n) as [|content|] eqn:Hk; [done| |done].
  rw (readBounded_ok h n content) //. destruct (_ <=? _); [|done]. intros [= <- <-]. split; [done|]. by exists n.
Qed.

Lemma assertEntry_inr opened fs fs' :
  undisturbed (assertEntryStillOpenedFile opened) fs = (fs', inr ()) →
  fs' = fs ∧ ∃ entries, entriesOf (entryParent opened) fs = inr entries ∧ entries !! entryName opened = Some (handle opened).
Proof.
  intros Hrun. unfold assertEntryStillOpenedFile in Hrun. apply abind_inr in Hrun as (fs1 & n & [-> Hn]%fstat_inr & Hrun).
  apply abind_inr in Hrun as (fs2 & [i m] & [-> Hl]%syscall_inr & [Hc ->]%ensure_inr). cbn [sys fst snd] in *. split; [done|].
  unfold lstatAt in Hl. destruct (entriesOf (entryParent opened) fs) as [|entries]; [done|]. exists entries. split; [done|].
  destruct (entries !! entryName opened) as [j|]; [|done]. destruct (fs !! j); [|done]. injection Hl as <- <-.
  apply andb_true_iff in Hc as [[[Hi%Nat.eqb_eq _]%andb_true_iff _]%andb_true_iff _]. by rw Hi.
Qed.

(** What a write that returns leaves. *)
Lemma write_leaves filePath parts intended exclusive expectedStat fs fs' :
  relativeTarget env lexicalRoot filePath = inr parts →
  undisturbed (writeWorkspaceBytesNoFollow env lexicalRoot root filePath intended exclusive o expectedStat) fs = (fs', inr ()) →
  ∃ i, reachable o fs' root parts i intended ∧ evolves i fs fs'.
Proof.
  intros Hparts Hrun. unfold writeWorkspaceBytesNoFollow in Hrun. apply abind_inr in Hrun as (fs1 & [opened created] & Hopen & Hrun).
  destruct (openForWrite_inr _ _ _ _ _ _ _ Hparts Hopen) as (Hev & Hw & Hname & Hplain). clear Hopen. set (i := handle opened) in *.
  apply abind_inr in Hrun as (fs2 & [] & Hexp & Hrun).
  assert (fs2 = fs1) as ->.
  { unfold checkExpected in Hexp. destruct expectedStat; [|by injection Hexp as <-].
    apply abind_inr in Hexp as (fs3 & n & [-> _]%fstat_inr & [_ ->]%ensure_inr). done. }
  apply abind_inr in Hrun as (fs2 & [] & Hchown & Hrun).
  assert (Hown : evolves i fs1 fs2 ∧ plainFile fs2 i o).
  { destruct o as [u|] eqn:Ho; [|injection Hchown as <-; split; [reflexivity|by destruct created]].
    destruct created; [|injection Hchown as <-; by split].
    apply syscall_inr in Hchown as [-> _]. split; [by apply evolves_chown; rw ?Ho|]. destruct Hplain as (n & Hn & Hf & Hl & _).
    cbn [sys]. rw Hn. eexists. split; [apply lookup_insert_eq|]. split; [done|]. split; [done|]. apply Nat.eqb_refl. }
  destruct Hown as [Hev2 Hplain2].
  apply abind_inr in Hrun as (fs3 & [] & [Hev3 Hp3]%truncate_rewritten & Hrun).
  apply abind_inr in Hrun as (fs4 & [] & [Hev4 Hp4]%writeLoop_rewritten & Hrun).
  apply abind_inr in Hrun as (fs5 & [] & [Hev5 Hp5]%truncate_rewritten & Hrun). apply Hp3, Hp4, Hp5 in Hplain2 as Hplain5.
  apply abind_inr in Hrun as (fs6 & v & Hread & Hrun). destruct (readBounded_inr _ _ _ _ _ _ Hplain5 Hread) as (-> & n & Hn & Hk).
  apply abind_inr in Hrun as (fs7 & [] & [->%bool_decide_eq_true ->]%ensure_inr & Hrun).
  destruct (assertEntry_inr _ _ _ Hrun) as (-> & entries & Hes & He).
  assert (Hevs : evolves i fs1 fs5) by (by etrans; [exact Hev2|etrans; [exact Hev3|etrans; [exact Hev4|exact Hev5]]]).
  exists i. split; [|by etrans; [apply Hev|]]. apply (walk_evolves i _ fs5) in Hw; [|done]. destruct (walk_dirAt _ _ _ _ _ Hw) as [es Hdes].
  assert (es = entries) as -> by (apply entriesOf_dirAt in Hdes; congruence).
  destruct Hplain5 as (n' & Hn' & _ & Hl & Ho). rw Hn in Hn'. injection Hn' as <-. exists (entryParent opened), entries, n. by rw -Hname.
Qed.

(** ** A write to a file that is there *)

Lemma openParts_ok create dir parts fs i :
  walk o fs dir parts = Some i → undisturbed (openParts create o dir parts) fs = (fs, inr i).
Proof.
  induction parts as [|part parts IH] in dir |- *; cbn [openParts walk]; destruct (dirAt o fs dir) as [entries|] eqn:Hd; try done.
  { by intros [= ->]. }
  destruct (entries !! part) as [j|] eqn:Hj; [|done]. intros Hw.
  assert (Hdj : is_Some (dirAt o fs j)) by (destruct parts; simpl in Hw; by destruct (dirAt o fs j)).
  destruct Hdj as [es Hes]. assert (Hes' := Hes). apply dirAt_Some in Hes' as (n & Hn & Hk & _).
  assert (Hopen : undisturbed (openPart create dir part) fs = (fs, inr (j, false))).
  { unfold openPart, call. rw undisturbed_bind undisturbed_vis. cbn [sys]. unfold openAt. by rw (entriesOf_dirAt o fs dir entries) // Hj Hn /= Hk. }
  rw undisturbed_abind Hopen undisturbed_abind. assert (Hchown : undisturbed match o with Some _ => done_ () | None => done_ () end fs = (fs, inr ()))
    by by destruct o. rw Hchown undisturbed_abind assertDirectory_ok; [by exists es|]. by apply IH.
Qed.

Lemma openWrite_reachable filePath parts fs i bytes :
  relativeTarget env lexicalRoot filePath = inr parts → reachable o fs root parts i bytes →
  ∃ dir, undisturbed (openWorkspaceFile env lexicalRoot root filePath OpenWrite true o o) fs
         = (fs, inr {| handle := i; entryParent := dir; entryName := List.last parts [] |})
         ∧ walk o fs root (removelast parts) = Some dir.
Proof.
  intros Hparts (dir & entries & n & Hw & Hes & Hi & Hn & Hk & Hl & Ho). exists dir. split; [|done]. unfold openWorkspaceFile. rw Hparts.
  assert (Hd : is_Some (dirAt o fs root)) by (destruct (removelast parts); simpl in Hw; by destruct (dirAt o fs root)).
  rw rootDirectory_ok // undisturbed_abind. unfold openLinuxParent. rw undisturbed_abind assertDirectory_ok // (openParts_ok true root (removelast parts) fs dir) //.
  rw undisturbed_abind undisturbed_syscall. cbn [sys]. unfold openAt. rw (entriesOf_dirAt o fs dir entries) // Hi Hn /= Hk /=.
  rw undisturbed_abind undisturbed_syscall /= Hn undisturbed_abind undisturbed_ensure. unfold isFile. by rw Hk Hl Ho.
Qed.

Lemma setKind_same file k fs n :
  fs !! file = Some n → ∃ v, setKind file k fs !! file = Some {| kind := k; owner := owner n; nlink := nlink n; version := v |}.
Proof. intros Hn. unfold setKind. rw Hn. eexists. apply lookup_insert_eq. Qed.

Lemma putBytes_empty intended : putBytes intended 0 [] = intended.
Proof. unfold putBytes. by rw /= drop_nil app_nil_r. Qed.

Lemma bytesOf_kind file fs n bytes : fs !! file = Some n → kind n = Regular bytes → bytesOf file fs = inr bytes.
Proof. intros Hn Hk. unfold bytesOf. rw Hn. destruct n as [k ow nl v]. simpl in Hk. by subst k. Qed.

(** The content replaced, step by step. *)
Lemma rewrite_ok file n content intended fs :
  fs !! file = Some n → kind n = Regular content →
  ∃ fs' n', undisturbed (syscall (Ftruncate file 0) >>> writeLoop (S (length intended)) file intended 0 >>>
                         syscall (Ftruncate file (length intended))) fs = (fs', inr ())
            ∧ fs' !! file = Some n' ∧ kind n' = Regular intended ∧ nlink n' = nlink n ∧ owner n' = owner n
            ∧ ∀ j, j ≠ file → fs' !! j = fs !! j.
Proof.
  intros Hn Hk. assert (Hsame : ∀ k fs j, j ≠ file → setKind file k fs !! j = fs !! j).
  { intros k g j Hj. unfold setKind. destruct (g !! file); [|done]. by rw lookup_insert_ne. }
  rw undisturbed_abind undisturbed_syscall. cbn [sys]. rw (bytesOf_kind file fs n content) //. cbn [fst snd take length replicate Nat.sub app].
  destruct (setKind_same file (Regular []) fs n Hn) as [v1 H1]. set (fs1 := setKind file (Regular []) fs) in *.
  assert (Hb1 : bytesOf file fs1 = inr []) by by eapply bytesOf_kind.
  assert (Hloop : ∃ fs2 v2, undisturbed (writeLoop (S (length intended)) file intended 0) fs1 = (fs2, inr ())
                            ∧ fs2 !! file = Some {| kind := Regular intended; owner := owner n; nlink := nlink n; version := v2 |}
                            ∧ ∀ j, j ≠ file → fs2 !! j = fs1 !! j).
  { cbn [writeLoop]. destruct intended as [|b intended]; [by exists fs1, v1|]. cbn [length Nat.ltb Nat.leb]. rw undisturbed_abind undisturbed_syscall.
    cbn [sys]. rw Hb1 drop_0 putBytes_empty. cbn [fst snd]. destruct (setKind_same file (Regular (b :: intended)) fs1 _ H1) as [v2 H2].
    exists (setKind file (Regular (b :: intended)) fs1), v2. split; [|split; [exact H2|by apply Hsame]]. cbn [length Nat.eqb].
    cbn [writeLoop]. rw Nat.add_0_l. change (length (b :: intended)) with (S (length intended)). by rw Nat.ltb_irrefl. }
  destruct Hloop as (fs2 & v2 & Hrun & H2 & Ho2). rw undisturbed_abind Hrun undisturbed_syscall. cbn [sys].
  rw (bytesOf_kind file fs2 _ intended H2 eq_refl) firstn_all Nat.sub_diag app_nil_r. cbn [fst snd].
  destruct (setKind_same file (Regular intended) fs2 _ H2) as [v3 H3]. eexists _, _. split; [done|]. split; [exact H3|].
  repeat (split; [done|]). intros j Hj. by rw Hsame // Ho2 // Hsame.
Qed.

Lemma dirAt_same fs fs' i j : fs' !! j = fs !! j → i = j → dirAt o fs' i = dirAt o fs i.
Proof. intros H ->. unfold dirAt. by rw H. Qed.

(** A write to a file that is there returns. *)
Lemma write_reachable filePath parts intended fs i bytes :
  relativeTarget env lexicalRoot filePath = inr parts → reachable o fs root parts i bytes →
  ∃ fs', undisturbed (writeWorkspaceBytesNoFollow env lexicalRoot root filePath intended false o None) fs = (fs', inr ()).
Proof.
  intros Hparts Hreach. destruct (openWrite_reachable _ _ _ _ _ Hparts Hreach) as (dir & Hopen & Hw).
  destruct Hreach as (dir' & entries & n & Hw' & Hes & Hi & Hn & Hk & Hl & Ho). rw Hw in Hw'. injection Hw' as <-.
  unfold writeWorkspaceBytesNoFollow, openForWrite. rw undisturbed_abind undisturbed_bind Hopen. cbn [fst snd]. rw undisturbed_done undisturbed_abind.
  cbn [checkExpected]. rw undisturbed_done undisturbed_abind.
  assert (Hchown : undisturbed match o with Some _ => done_ () | None => done_ () end fs = (fs, inr ())) by by destruct o.
  rw Hchown. destruct (rewrite_ok i n bytes intended fs Hn Hk) as (fs1 & n1 & Hrun & Hn1 & Hk1 & Hl1 & Ho1 & Hsame).
  exists fs1. cbn [handle]. rw undisturbed_abind. rw undisturbed_abind in Hrun.
  destruct (undisturbed (syscall (Ftruncate i 0)) fs) as [fs2 [e|[]]]; [done|]. rw undisturbed_abind. rw undisturbed_abind in Hrun.
  destruct (undisturbed (writeLoop _ _ _ _) fs2) as [fs3 [e|[]]]; [done|]. rw undisturbed_abind Hrun.
  rw undisturbed_abind (readBounded_ok i n1 intended) // Nat.leb_refl undisturbed_abind undisturbed_ensure bool_decide_true //.
  apply (assertEntry_ok o _ n1 entries); cbn [handle entryParent entryName]; [done|unfold isFile; by rw Hk1|congruence| |done].
  rw -Hes. apply (dirAt_same fs fs1 dir dir); [|done]. apply Hsame. intros ->.
  apply dirAt_Some in Hes as (m & Hm & Hkm & _). rw Hn in Hm. injection Hm as <-. by rw Hk in Hkm.
Qed.
End Write.

(** A write that succeeds undisturbed, into a new or an old file and with the parents it had
    to make, is read back: the next read of the path returns the bytes that were written, and no
    other file has changed; and a write to a file that a read finds does succeed. *)
Theorem written_file_is_read_back env lexicalRoot root o filePath parts intended exclusive expectedStat maxBytes fs fs' :
  relativeTarget env lexicalRoot filePath = inr parts →
  undisturbed (writeWorkspaceBytesNoFollow env lexicalRoot root filePath intended exclusive o expectedStat) fs = (fs', inr ()) →
  length intended ≤ maxBytes →
  undisturbed (readWorkspaceFileNoFollow env lexicalRoot root filePath maxBytes o) fs' = (fs', inr intended)
  ∧ (∃ i, reachable o fs' root parts i intended ∧ ∀ j n, fs !! j = Some n → isFile n = true → j ≠ i → fs' !! j = Some n)
  ∧ ∀ later, ∃ fs'', undisturbed (writeWorkspaceBytesNoFollow env lexicalRoot root filePath later false o None) fs' = (fs'', inr ()).
Proof.
  intros Hparts Hwrite Hlen. destruct (write_leaves o env lexicalRoot root _ _ _ _ _ _ _ Hparts Hwrite) as (i & Hreach & [_ Hothers]).
  split; [|split; [by exists i|intros later; by apply (write_reachable o env lexicalRoot root filePath parts later fs' i intended)]].
  rw (read_reachable o env lexicalRoot root filePath parts i intended) //.
  by destruct (Nat.leb_spec (length intended) maxBytes); [|lia].
Qed.

(** A new file below a new directory. *)
Lemma written_file_is_read_back_witness :
  let write := undisturbed (writeWorkspaceBytesNoFollow quietEnv (u "/w") 1 (u "/w/e/f") (u "new") true (Some 7) None) linkedFs in
  write.2 = inr ()
  ∧ undisturbed (readWorkspaceFileNoFollow quietEnv (u "/w") 1 (u "/w/e/f") 100 (Some 7)) write.1 = (write.1, inr (u "new")).
Proof.
  intros write. assert (Hw : write.2 = inr ()) by by vm_compute. split; [exact Hw|].
  destruct (written_file_is_read_back quietEnv (u "/w") 1 (Some 7) (u "/w/e/f") [u "e"; u "f"] (u "new") true None 100 linkedFs write.1)
    as [Hread _]; [by vm_compute| |simpl; lia|exact Hread].
  fold write. rw -Hw. by destruct write.
Defined.
