(* ===== verification/SchedulerRecords.v ===== *)
(** * Records of the local scheduler

    The data of [packages/runtime/kernel/local-scheduler-service.ts] and
    [packages/contracts/scheduling.ts]: schedules and payloads with their validation, cron jobs and
    heartbeats, the messages a fire delivers, the time of the next run, the active hours of a
    heartbeat, and the texts the scheduler composes.

    Times are whole milliseconds.  A number that comes from outside is a [num]: a double, or an
    integer that was read back from the file of the scheduler.  A run [at] a time between two
    milliseconds is due from the next whole one, which is when every comparison with [Date.now()]
    says so.  Croner, the zones of [Intl] and the order of [localeCompare] are parameters. *)

From Corelib Require Import ssreflect.
From stdpp Require Import prelude gmap strings.
From Corelib Require Import SpecFloat.
From S2P Require Import Prelude JsNumber Text HostPaths.

#[local] Open Scope Z_scope.

Definition DEFAULT_HEARTBEAT_PROMPT : text :=
  u "Read the heartbeat checklist if provided. Follow it strictly. Do not infer or repeat old tasks from prior chats. If nothing needs attention, call NoResponse().".
Definition DEFAULT_HEARTBEAT_INTERVAL_MS : Z := 30 * 60 * 1000.
Definition DUPLICATE_SUPPRESSION_MS : Z := 24 * 60 * 60 * 1000.
Definition MIN_HEARTBEAT_INTERVAL_MS : Z := 60000.
Definition MAX_PREVIEW_CHARS : nat := 800.
Definition MAX_GENERATED_EVENTS_PER_CONVERSATION : nat := 500.
Definition MAX_TIMER_DELAY_MS : Z := 60000.

(** ** Numbers from outside *)

Inductive num := Double (x : number) | Whole (z : Z).

Definition numFinite (n : num) : bool := match n with Double x => isFinite x | Whole _ => true end.
Definition numPositive (n : num) : bool :=
  match n with Double x => SFltb (S754_zero false) x | Whole z => 0 <? z end.
(** [Math.floor], and the least integer that is not below, on a finite number. *)
Definition numFloor (n : num) : Z := match n with Double x => num_floor x | Whole z => z end.
Definition numCeil (n : num) : Z := match n with Double x => - num_floor (SFopp x) | Whole z => z end.
(** A number as a condition: false if it is zero (or not a number, which no caller reaches). *)
Definition numTruthy (n : num) : bool :=
  match n with Double (S754_zero _) => false | Double _ => true | Whole z => negb (z =? 0) end.

(** ** Schedules and payloads *)

Inductive LocalCronSchedule :=
  | At (atMs : num)
  | Every (everyMs : Z) (anchorMs : option num)
  | CronExpr (expr : text) (tz : option text).

Inductive LocalCronPayload :=
  | Notify (notifyText : text)
  | Task (taskPrompt : text)
  | Watch (watchPath : text)
  | Script (legacyPath : text)
  | Agent (agentPrompt : text) (payloadAgentType : option text).

(** What the validation reads of a value of unknown shape: [None] for a field that is not a string,
    the number [Number] makes of a field, and the anchor if it is a number. *)
Record RawSchedule := {
  scheduleKind : option text;
  rawAtMs : num;
  rawEveryMs : num;
  rawAnchorMs : option num;
  rawExpr : option text;
  rawTz : option text;
}.

Record RawPayload := {
  payloadKind : option text;
  rawText : option text;
  rawPrompt : option text;
  rawScriptPath : option text;
  rawAgentType : option text;
}.

(** Every check throws the message of its error. *)
Definition refused {A} (message : string) : text + A := inl (u message).
Definition quoted (t : text) : text := [34%N] ++ t ++ [34%N].
Definition requires {A} (field kind what : string) : text + A :=
  inl (u field ++ u "=" ++ quoted (u kind) ++ u " requires " ++ u what).
Arguments refused {A} message%_string.

Definition asTrimmedString (value : option text) : text := default [] (trim <$> value).

(** [asTrimmedString(value) || undefined] *)
Definition nonEmpty (t : text) : option text := if bool_decide (t = []) then None else Some t.

Definition truncatePreview (value : text) : text :=
  if (MAX_PREVIEW_CHARS <? length value)%nat then take MAX_PREVIEW_CHARS value ++ u "..." else value.

(** A number that may be absent, not a number, or not finite is [None]. *)
Definition finiteFloor (value : option num) : option Z :=
  match value with Some n => if numFinite n then Some (numFloor n) else None | None => None end.

Definition normalizeIntervalMs (value : option num) : Z :=
  match finiteFloor value with
  | None => DEFAULT_HEARTBEAT_INTERVAL_MS
  | Some floor => Z.max MIN_HEARTBEAT_INTERVAL_MS floor
  end.

Definition ensureConversationId (value : option text) : text + text :=
  let conversationId := asTrimmedString value in
  if bool_decide (conversationId = []) then refused "conversationId is required." else inr conversationId.

Definition ensureName (value : option text) : text + text :=
  let name := asTrimmedString value in
  if bool_decide (name = []) then refused "name is required." else inr name.

Definition assertValidSchedule (schedule : option RawSchedule) : text + LocalCronSchedule :=
  match schedule with
  | None => refused "schedule must be an object."
  | Some record =>
      let kind := asTrimmedString (scheduleKind record) in
      if bool_decide (kind = u "at") then
        if negb (numFinite (rawAtMs record)) || negb (numPositive (rawAtMs record))
        then requires "schedule.kind" "at" "atMs (epoch ms)."
        else inr (At (rawAtMs record))
      else if bool_decide (kind = u "every") then
        if negb (numFinite (rawEveryMs record)) || negb (numPositive (rawEveryMs record))
        then requires "schedule.kind" "every" "everyMs (> 0)."
        else
          let anchorMs := match rawAnchorMs record with Some a => if numFinite a && numTruthy a then Some a else None | None => None end in
          inr (Every (numFloor (rawEveryMs record)) anchorMs)
      else if bool_decide (kind = u "cron") then
        let expr := asTrimmedString (rawExpr record) in
        if bool_decide (expr = [])
        then requires "schedule.kind" "cron" "expr."
        else inr (CronExpr expr (nonEmpty (asTrimmedString (rawTz record))))
      else inl (u "schedule.kind must be " ++ quoted (u "at") ++ u ", " ++ quoted (u "every") ++ u ", or " ++ quoted (u "cron") ++ u ".")
  end.

(** [path.resolve] of an absolute path needs no working directory. *)
Definition assertValidScriptPath (value : option text) (scriptsDir : text) : text + text :=
  let raw := asTrimmedString value in
  if bool_decide (raw = []) then requires "payload.kind" "script" "scriptPath."
  else if negb (isAbsolute raw) then refused "payload.scriptPath must be absolute."
  else
    let normalized := resolve [] raw in
    let dir := resolve [] scriptsDir in
    let rel := relative dir normalized in
    if startsWith dotdot rel || isAbsolute rel || bool_decide (rel = [])
    then inl (u "payload.scriptPath must live inside " ++ dir ++ u " (got " ++ normalized ++ u ").")
    else inr normalized.

Definition sumMap {A B} (f : A → B) (v : text + A) : text + B :=
  match v with inl e => inl e | inr a => inr (f a) end.

Definition assertValidPayload (payload : option RawPayload) (scriptsDir : text) : text + LocalCronPayload :=
  match payload with
  | None => refused "payload must be an object."
  | Some record =>
      let kind := asTrimmedString (payloadKind record) in
      if bool_decide (kind = u "notify") then
        let text := asTrimmedString (rawText record) in
        if bool_decide (text = []) then requires "payload.kind" "notify" "text." else inr (Notify text)
      else if bool_decide (kind = u "task") then
        let prompt := asTrimmedString (rawPrompt record) in
        if bool_decide (prompt = []) then requires "payload.kind" "task" "prompt." else inr (Task prompt)
      else if bool_decide (kind = u "watch") then sumMap Watch (assertValidScriptPath (rawScriptPath record) scriptsDir)
      else if bool_decide (kind = u "script") then sumMap Script (assertValidScriptPath (rawScriptPath record) scriptsDir)
      else if bool_decide (kind = u "agent") then
        let prompt := asTrimmedString (rawPrompt record) in
        if bool_decide (prompt = []) then requires "payload.kind" "agent" "prompt."
        else inr (Agent prompt (nonEmpty (asTrimmedString (rawAgentType record))))
      else inl (u "payload.kind must be " ++ quoted (u "notify") ++ u ", " ++ quoted (u "task") ++ u ", " ++ quoted (u "watch")
            ++ u ", " ++ quoted (u "script") ++ u ", or " ++ quoted (u "agent") ++ u ".")
  end.

Definition payloadScriptPath (payload : LocalCronPayload) : option text :=
  match payload with Watch p | Script p => Some p | _ => None end.

(** ** Active hours *)

Record LocalHeartbeatActiveHours := { activeStart : text; activeEnd : text; activeTimezone : option text }.

Record RawActiveHours := { rawStart : option text; rawEnd : option text; rawTimezone : option text }.

(** What is given for the hours. *)
Inductive HoursValue := HoursNull | HoursNotObject | HoursObject (record : RawActiveHours).

Definition normalizeActiveHours (value : option HoursValue) : text + option LocalHeartbeatActiveHours :=
  match value with
  | None | Some HoursNull => inr None
  | Some HoursNotObject => refused "activeHours must be an object."
  | Some (HoursObject record) =>
      let start := asTrimmedString (rawStart record) in
      let finish := asTrimmedString (rawEnd record) in
      if bool_decide (start = []) || bool_decide (finish = [])
      then refused "activeHours.start and activeHours.end are required."
      else inr (Some {| activeStart := start; activeEnd := finish; activeTimezone := nonEmpty (asTrimmedString (rawTimezone record)) |})
  end.

Definition digit (c : N) : option Z :=
  if ((48 <=? c) && (c <=? 57))%N then Some (Z.of_N c - 48) else None.

(** [ACTIVE_HOURS_TIME_PATTERN], with the hour and the minute it splits. *)
Definition activeHoursTime (raw : text) : option (Z * Z) :=
  match raw with
  | [a; b; colon; c; d] =>
      match digit a, digit b, digit c, digit d with
      | Some a, Some b, Some c, Some d =>
          if (colon =? 58)%N && ((a <? 2) || (a =? 2) && (b <=? 4)) && (c <=? 5)
          then Some (10 * a + b, 10 * c + d) else None
      | _, _, _, _ => None
      end
  | _ => None
  end.

Definition parseActiveHoursTime (allow24 : bool) (raw : text) : option Z :=
  match activeHoursTime raw with
  | None => None
  | Some (hour, minute) =>
      if hour =? 24 then if negb allow24 || negb (minute =? 0) then None else Some (24 * 60)
      else Some (hour * 60 + minute)
  end.

(** What [Intl] knows: the zone of the host, the zones there are, and the hour and the minute of a
    time in one of them ([None] if it throws or formats something else than numbers). *)
Record Zones := { hostZone : text; zoneKnown : text → bool; formatToParts : Z → text → option (Z * Z) }.

Section Hours.
Context (zones : Zones).

Definition resolveActiveHoursTimezone (raw : option text) : text :=
  let trimmed := asTrimmedString raw in
  if bool_decide (trimmed = []) || bool_decide (trimmed = u "local") || bool_decide (trimmed = u "user") then hostZone zones
  else if zoneKnown zones trimmed then trimmed else hostZone zones.

Definition resolveMinutesInTimeZone (nowMs : Z) (timeZone : text) : option Z :=
  (λ '(hour, minute), hour * 60 + minute) <$> formatToParts zones nowMs timeZone.

Definition isWithinActiveHours (active : option LocalHeartbeatActiveHours) (nowMs : Z) : bool :=
  match active with
  | None => true
  | Some active =>
      match parseActiveHoursTime false (activeStart active), parseActiveHoursTime true (activeEnd active) with
      | Some startMin, Some endMin =>
          if startMin =? endMin then true
          else match resolveMinutesInTimeZone nowMs (resolveActiveHoursTimezone (activeTimezone active)) with
          | None => true
          | Some currentMin =>
              if startMin <? endMin then (startMin <=? currentMin) && (currentMin <? endMin)
              else (startMin <=? currentMin) || (currentMin <? endMin)
          end
      | _, _ => true
      end
  end.
End Hours.

(** ** The next run *)

Section NextRun.
(** [new Cron(expr, { timezone }).nextRun(new Date(nowMs))]: [None] if it throws or there is none. *)
Context (cronNextRun : text → option text → Z → option Z).

Definition computeNextRunAtMs (schedule : LocalCronSchedule) (nowMs : Z) : text + Z :=
  match schedule with
  | At atMs => inr (if nowMs <? numCeil atMs then numCeil atMs else nowMs)
  | Every everyMs anchorMs =>
      let everyMs := Z.max 1 everyMs in
      let anchor := Z.max 0 (match anchorMs with Some a => numFloor a | None => nowMs end) in
      if nowMs <? anchor then inr anchor
      else
        let elapsed := nowMs - anchor in
        let steps := Z.max 1 ((elapsed + everyMs - 1) / everyMs) in
        inr (anchor + steps * everyMs)
  | CronExpr expr tz =>
      match cronNextRun expr (tz ≫= λ tz, nonEmpty (trim tz)) nowMs with
      | None => refused "Unable to compute next run for cron expression."
      | Some next => inr next
      end
  end.
End NextRun.

(** ** Records *)

Inductive EscalationReason := Change | SensorError.

#[export] Instance EscalationReason_eq_dec : EqDecision EscalationReason.
Proof. solve_decision. Defined.

Record Escalation := { reason : EscalationReason; summary : text; escalatedAtMs : Z }.

Record LocalCronJobRecord := {
  jobId : text;
  jobConversationId : text;
  jobName : text;
  jobDescription : option text;
  jobEnabled : bool;
  jobSchedule : LocalCronSchedule;
  jobPayload : LocalCronPayload;
  jobDeliver : option bool;
  deleteAfterRun : option bool;
  jobNextRunAtMs : Z;
  jobRunningAtMs : option Z;
  jobLastRunAtMs : option Z;
  jobLastStatus : option text;
  jobLastError : option text;
  jobLastDurationMs : option Z;
  jobLastOutputPreview : option text;
  pendingEscalation : option Escalation;
  jobCreatedAt : Z;
  jobUpdatedAt : Z;
}.

Record LocalHeartbeatConfigRecord := {
  heartbeatId : text;
  heartbeatConversationId : text;
  heartbeatEnabled : bool;
  intervalMs : Z;
  heartbeatPrompt : option text;
  checklist : option text;
  ackMaxChars : option Z;
  heartbeatDeliver : option bool;
  heartbeatAgentType : option text;
  activeHours : option LocalHeartbeatActiveHours;
  targetDeviceId : option text;
  heartbeatRunningAtMs : option Z;
  heartbeatLastRunAtMs : option Z;
  heartbeatNextRunAtMs : Z;
  heartbeatLastStatus : option text;
  heartbeatLastError : option text;
  lastSentText : option text;
  lastSentAtMs : option Z;
  heartbeatCreatedAt : Z;
  heartbeatUpdatedAt : Z;
}.

(** The payload of a generated message. *)
Inductive EventPayload :=
  | CronMessage (messageText cronJobId cronJobName : text)
  | HeartbeatMessage (messageText heartbeatConfigId : text).

(** [type] is always [assistant_message]. *)
Record ScheduledConversationEvent := {
  eventId : text;
  eventConversationId : text;
  timestamp : Z;
  eventPayload : EventPayload;
}.

(** ** Assignments to the fields of a record *)

Definition setJobName (name : text) (job : LocalCronJobRecord) : LocalCronJobRecord := {|
  jobId := jobId job; jobConversationId := jobConversationId job; jobName := name;
  jobDescription := jobDescription job; jobEnabled := jobEnabled job; jobSchedule := jobSchedule job;
  jobPayload := jobPayload job; jobDeliver := jobDeliver job; deleteAfterRun := deleteAfterRun job;
  jobNextRunAtMs := jobNextRunAtMs job; jobRunningAtMs := jobRunningAtMs job;
  jobLastRunAtMs := jobLastRunAtMs job; jobLastStatus := jobLastStatus job;
  jobLastError := jobLastError job; jobLastDurationMs := jobLastDurationMs job;
  jobLastOutputPreview := jobLastOutputPreview job; pendingEscalation := pendingEscalation job;
  jobCreatedAt := jobCreatedAt job; jobUpdatedAt := jobUpdatedAt job;
|}.

Definition setJobConversationId (conversationId : text) (job : LocalCronJobRecord) : LocalCronJobRecord := {|
  jobId := jobId job; jobConversationId := conversationId; jobName := jobName job;
  jobDescription := jobDescription job; jobEnabled := jobEnabled job; jobSchedule := jobSchedule job;
  jobPayload := jobPayload job; jobDeliver := jobDeliver job; deleteAfterRun := deleteAfterRun job;
  jobNextRunAtMs := jobNextRunAtMs job; jobRunningAtMs := jobRunningAtMs job;
  jobLastRunAtMs := jobLastRunAtMs job; jobLastStatus := jobLastStatus job;
  jobLastError := jobLastError job; jobLastDurationMs := jobLastDurationMs job;
  jobLastOutputPreview := jobLastOutputPreview job; pendingEscalation := pendingEscalation job;
  jobCreatedAt := jobCreatedAt job; jobUpdatedAt := jobUpdatedAt job;
|}.

Definition setJobPlan (schedule : LocalCronSchedule) (payload : LocalCronPayload) (job : LocalCronJobRecord) : LocalCronJobRecord := {|
  jobId := jobId job; jobConversationId := jobConversationId job; jobName := jobName job;
  jobDescription := jobDescription job; jobEnabled := jobEnabled job; jobSchedule := schedule;
  jobPayload := payload; jobDeliver := jobDeliver job; deleteAfterRun := deleteAfterRun job;
  jobNextRunAtMs := jobNextRunAtMs job; jobRunningAtMs := jobRunningAtMs job;
  jobLastRunAtMs := jobLastRunAtMs job; jobLastStatus := jobLastStatus job;
  jobLastError := jobLastError job; jobLastDurationMs := jobLastDurationMs job;
  jobLastOutputPreview := jobLastOutputPreview job; pendingEscalation := pendingEscalation job;
  jobCreatedAt := jobCreatedAt job; jobUpdatedAt := jobUpdatedAt job;
|}.

Definition setJobDescription (description : option text) (job : LocalCronJobRecord) : LocalCronJobRecord := {|
  jobId := jobId job; jobConversationId := jobConversationId job; jobName := jobName job;
  jobDescription := description; jobEnabled := jobEnabled job; jobSchedule := jobSchedule job;
  jobPayload := jobPayload job; jobDeliver := jobDeliver job; deleteAfterRun := deleteAfterRun job;
  jobNextRunAtMs := jobNextRunAtMs job; jobRunningAtMs := jobRunningAtMs job;
  jobLastRunAtMs := jobLastRunAtMs job; jobLastStatus := jobLastStatus job;
  jobLastError := jobLastError job; jobLastDurationMs := jobLastDurationMs job;
  jobLastOutputPreview := jobLastOutputPreview job; pendingEscalation := pendingEscalation job;
  jobCreatedAt := jobCreatedAt job; jobUpdatedAt := jobUpdatedAt job;
|}.

Definition setJobEnabled (enabled : bool) (job : LocalCronJobRecord) : LocalCronJobRecord := {|
  jobId := jobId job; jobConversationId := jobConversationId job; jobName := jobName job;
  jobDescription := jobDescription job; jobEnabled := enabled; jobSchedule := jobSchedule job;
  jobPayload := jobPayload job; jobDeliver := jobDeliver job; deleteAfterRun := deleteAfterRun job;
  jobNextRunAtMs := jobNextRunAtMs job; jobRunningAtMs := jobRunningAtMs job;
  jobLastRunAtMs := jobLastRunAtMs job; jobLastStatus := jobLastStatus job;
  jobLastError := jobLastError job; jobLastDurationMs := jobLastDurationMs job;
  jobLastOutputPreview := jobLastOutputPreview job; pendingEscalation := pendingEscalation job;
  jobCreatedAt := jobCreatedAt job; jobUpdatedAt := jobUpdatedAt job;
|}.

Definition setJobDeliver (deliver : bool) (job : LocalCronJobRecord) : LocalCronJobRecord := {|
  jobId := jobId job; jobConversationId := jobConversationId job; jobName := jobName job;
  jobDescription := jobDescription job; jobEnabled := jobEnabled job; jobSchedule := jobSchedule job;
  jobPayload := jobPayload job; jobDeliver := Some deliver; deleteAfterRun := deleteAfterRun job;
  jobNextRunAtMs := jobNextRunAtMs job; jobRunningAtMs := jobRunningAtMs job;
  jobLastRunAtMs := jobLastRunAtMs job; jobLastStatus := jobLastStatus job;
  jobLastError := jobLastError job; jobLastDurationMs := jobLastDurationMs job;
  jobLastOutputPreview := jobLastOutputPreview job; pendingEscalation := pendingEscalation job;
  jobCreatedAt := jobCreatedAt job; jobUpdatedAt := jobUpdatedAt job;
|}.

Definition setDeleteAfterRun (value : bool) (job : LocalCronJobRecord) : LocalCronJobRecord := {|
  jobId := jobId job; jobConversationId := jobConversationId job; jobName := jobName job;
  jobDescription := jobDescription job; jobEnabled := jobEnabled job; jobSchedule := jobSchedule job;
  jobPayload := jobPayload job; jobDeliver := jobDeliver job; deleteAfterRun := Some value;
  jobNextRunAtMs := jobNextRunAtMs job; jobRunningAtMs := jobRunningAtMs job;
  jobLastRunAtMs := jobLastRunAtMs job; jobLastStatus := jobLastStatus job;
  jobLastError := jobLastError job; jobLastDurationMs := jobLastDurationMs job;
  jobLastOutputPreview := jobLastOutputPreview job; pendingEscalation := pendingEscalation job;
  jobCreatedAt := jobCreatedAt job; jobUpdatedAt := jobUpdatedAt job;
|}.

Definition setJobNextRunAtMs (at_ : Z) (job : LocalCronJobRecord) : LocalCronJobRecord := {|
  jobId := jobId job; jobConversationId := jobConversationId job; jobName := jobName job;
  jobDescription := jobDescription job; jobEnabled := jobEnabled job; jobSchedule := jobSchedule job;
  jobPayload := jobPayload job; jobDeliver := jobDeliver job; deleteAfterRun := deleteAfterRun job;
  jobNextRunAtMs := at_; jobRunningAtMs := jobRunningAtMs job; jobLastRunAtMs := jobLastRunAtMs job;
  jobLastStatus := jobLastStatus job; jobLastError := jobLastError job;
  jobLastDurationMs := jobLastDurationMs job; jobLastOutputPreview := jobLastOutputPreview job;
  pendingEscalation := pendingEscalation job; jobCreatedAt := jobCreatedAt job;
  jobUpdatedAt := jobUpdatedAt job;
|}.

Definition setJobRunningAtMs (at_ : option Z) (job : LocalCronJobRecord) : LocalCronJobRecord := {|
  jobId := jobId job; jobConversationId := jobConversationId job; jobName := jobName job;
  jobDescription := jobDescription job; jobEnabled := jobEnabled job; jobSchedule := jobSchedule job;
  jobPayload := jobPayload job; jobDeliver := jobDeliver job; deleteAfterRun := deleteAfterRun job;
  jobNextRunAtMs := jobNextRunAtMs job; jobRunningAtMs := at_; jobLastRunAtMs := jobLastRunAtMs job;
  jobLastStatus := jobLastStatus job; jobLastError := jobLastError job;
  jobLastDurationMs := jobLastDurationMs job; jobLastOutputPreview := jobLastOutputPreview job;
  pendingEscalation := pendingEscalation job; jobCreatedAt := jobCreatedAt job;
  jobUpdatedAt := jobUpdatedAt job;
|}.

Definition setJobUpdatedAt (at_ : Z) (job : LocalCronJobRecord) : LocalCronJobRecord := {|
  jobId := jobId job; jobConversationId := jobConversationId job; jobName := jobName job;
  jobDescription := jobDescription job; jobEnabled := jobEnabled job; jobSchedule := jobSchedule job;
  jobPayload := jobPayload job; jobDeliver := jobDeliver job; deleteAfterRun := deleteAfterRun job;
  jobNextRunAtMs := jobNextRunAtMs job; jobRunningAtMs := jobRunningAtMs job;
  jobLastRunAtMs := jobLastRunAtMs job; jobLastStatus := jobLastStatus job;
  jobLastError := jobLastError job; jobLastDurationMs := jobLastDurationMs job;
  jobLastOutputPreview := jobLastOutputPreview job; pendingEscalation := pendingEscalation job;
  jobCreatedAt := jobCreatedAt job; jobUpdatedAt := at_;
|}.

Definition setPendingEscalation (escalation : option Escalation) (job : LocalCronJobRecord) : LocalCronJobRecord := {|
  jobId := jobId job; jobConversationId := jobConversationId job; jobName := jobName job;
  jobDescription := jobDescription job; jobEnabled := jobEnabled job; jobSchedule := jobSchedule job;
  jobPayload := jobPayload job; jobDeliver := jobDeliver job; deleteAfterRun := deleteAfterRun job;
  jobNextRunAtMs := jobNextRunAtMs job; jobRunningAtMs := jobRunningAtMs job;
  jobLastRunAtMs := jobLastRunAtMs job; jobLastStatus := jobLastStatus job;
  jobLastError := jobLastError job; jobLastDurationMs := jobLastDurationMs job;
  jobLastOutputPreview := jobLastOutputPreview job; pendingEscalation := escalation;
  jobCreatedAt := jobCreatedAt job; jobUpdatedAt := jobUpdatedAt job;
|}.

(** [lastRunAtMs] and [lastDurationMs]. *)
Definition setJobRan (finishedAt duration : Z) (job : LocalCronJobRecord) : LocalCronJobRecord := {|
  jobId := jobId job; jobConversationId := jobConversationId job; jobName := jobName job;
  jobDescription := jobDescription job; jobEnabled := jobEnabled job; jobSchedule := jobSchedule job;
  jobPayload := jobPayload job; jobDeliver := jobDeliver job; deleteAfterRun := deleteAfterRun job;
  jobNextRunAtMs := jobNextRunAtMs job; jobRunningAtMs := jobRunningAtMs job;
  jobLastRunAtMs := Some finishedAt; jobLastStatus := jobLastStatus job;
  jobLastError := jobLastError job; jobLastDurationMs := Some duration;
  jobLastOutputPreview := jobLastOutputPreview job; pendingEscalation := pendingEscalation job;
  jobCreatedAt := jobCreatedAt job; jobUpdatedAt := jobUpdatedAt job;
|}.

(** [lastStatus], [lastError] and [lastOutputPreview]. *)
Definition setJobOutcome (status : text) (error preview : option text) (job : LocalCronJobRecord) : LocalCronJobRecord := {|
  jobId := jobId job; jobConversationId := jobConversationId job; jobName := jobName job;
  jobDescription := jobDescription job; jobEnabled := jobEnabled job; jobSchedule := jobSchedule job;
  jobPayload := jobPayload job; jobDeliver := jobDeliver job; deleteAfterRun := deleteAfterRun job;
  jobNextRunAtMs := jobNextRunAtMs job; jobRunningAtMs := jobRunningAtMs job;
  jobLastRunAtMs := jobLastRunAtMs job; jobLastStatus := Some status; jobLastError := error;
  jobLastDurationMs := jobLastDurationMs job; jobLastOutputPreview := preview;
  pendingEscalation := pendingEscalation job; jobCreatedAt := jobCreatedAt job;
  jobUpdatedAt := jobUpdatedAt job;
|}.

Definition clearJobError (job : LocalCronJobRecord) : LocalCronJobRecord := {|
  jobId := jobId job; jobConversationId := jobConversationId job; jobName := jobName job;
  jobDescription := jobDescription job; jobEnabled := jobEnabled job; jobSchedule := jobSchedule job;
  jobPayload := jobPayload job; jobDeliver := jobDeliver job; deleteAfterRun := deleteAfterRun job;
  jobNextRunAtMs := jobNextRunAtMs job; jobRunningAtMs := jobRunningAtMs job;
  jobLastRunAtMs := jobLastRunAtMs job; jobLastStatus := jobLastStatus job; jobLastError := None;
  jobLastDurationMs := jobLastDurationMs job; jobLastOutputPreview := jobLastOutputPreview job;
  pendingEscalation := pendingEscalation job; jobCreatedAt := jobCreatedAt job;
  jobUpdatedAt := jobUpdatedAt job;
|}.

Definition setHeartbeatRunningAtMs (at_ : option Z) (config : LocalHeartbeatConfigRecord) : LocalHeartbeatConfigRecord := {|
  heartbeatId := heartbeatId config; heartbeatConversationId := heartbeatConversationId config;
  heartbeatEnabled := heartbeatEnabled config; intervalMs := intervalMs config;
  heartbeatPrompt := heartbeatPrompt config; checklist := checklist config;
  ackMaxChars := ackMaxChars config; heartbeatDeliver := heartbeatDeliver config;
  heartbeatAgentType := heartbeatAgentType config; activeHours := activeHours config;
  targetDeviceId := targetDeviceId config; heartbeatRunningAtMs := at_;
  heartbeatLastRunAtMs := heartbeatLastRunAtMs config;
  heartbeatNextRunAtMs := heartbeatNextRunAtMs config; heartbeatLastStatus := heartbeatLastStatus config;
  heartbeatLastError := heartbeatLastError config; lastSentText := lastSentText config;
  lastSentAtMs := lastSentAtMs config; heartbeatCreatedAt := heartbeatCreatedAt config;
  heartbeatUpdatedAt := heartbeatUpdatedAt config;
|}.

Definition setHeartbeatNextRunAtMs (at_ : Z) (config : LocalHeartbeatConfigRecord) : LocalHeartbeatConfigRecord := {|
  heartbeatId := heartbeatId config; heartbeatConversationId := heartbeatConversationId config;
  heartbeatEnabled := heartbeatEnabled config; intervalMs := intervalMs config;
  heartbeatPrompt := heartbeatPrompt config; checklist := checklist config;
  ackMaxChars := ackMaxChars config; heartbeatDeliver := heartbeatDeliver config;
  heartbeatAgentType := heartbeatAgentType config; activeHours := activeHours config;
  targetDeviceId := targetDeviceId config; heartbeatRunningAtMs := heartbeatRunningAtMs config;
  heartbeatLastRunAtMs := heartbeatLastRunAtMs config; heartbeatNextRunAtMs := at_;
  heartbeatLastStatus := heartbeatLastStatus config; heartbeatLastError := heartbeatLastError config;
  lastSentText := lastSentText config; lastSentAtMs := lastSentAtMs config;
  heartbeatCreatedAt := heartbeatCreatedAt config; heartbeatUpdatedAt := heartbeatUpdatedAt config;
|}.

Definition setHeartbeatUpdatedAt (at_ : Z) (config : LocalHeartbeatConfigRecord) : LocalHeartbeatConfigRecord := {|
  heartbeatId := heartbeatId config; heartbeatConversationId := heartbeatConversationId config;
  heartbeatEnabled := heartbeatEnabled config; intervalMs := intervalMs config;
  heartbeatPrompt := heartbeatPrompt config; checklist := checklist config;
  ackMaxChars := ackMaxChars config; heartbeatDeliver := heartbeatDeliver config;
  heartbeatAgentType := heartbeatAgentType config; activeHours := activeHours config;
  targetDeviceId := targetDeviceId config; heartbeatRunningAtMs := heartbeatRunningAtMs config;
  heartbeatLastRunAtMs := heartbeatLastRunAtMs config;
  heartbeatNextRunAtMs := heartbeatNextRunAtMs config; heartbeatLastStatus := heartbeatLastStatus config;
  heartbeatLastError := heartbeatLastError config; lastSentText := lastSentText config;
  lastSentAtMs := lastSentAtMs config; heartbeatCreatedAt := heartbeatCreatedAt config;
  heartbeatUpdatedAt := at_;
|}.

Definition setHeartbeatLastRunAtMs (at_ : Z) (config : LocalHeartbeatConfigRecord) : LocalHeartbeatConfigRecord := {|
  heartbeatId := heartbeatId config; heartbeatConversationId := heartbeatConversationId config;
  heartbeatEnabled := heartbeatEnabled config; intervalMs := intervalMs config;
  heartbeatPrompt := heartbeatPrompt config; checklist := checklist config;
  ackMaxChars := ackMaxChars config; heartbeatDeliver := heartbeatDeliver config;
  heartbeatAgentType := heartbeatAgentType config; activeHours := activeHours config;
  targetDeviceId := targetDeviceId config; heartbeatRunningAtMs := heartbeatRunningAtMs config;
  heartbeatLastRunAtMs := Some at_; heartbeatNextRunAtMs := heartbeatNextRunAtMs config;
  heartbeatLastStatus := heartbeatLastStatus config; heartbeatLastError := heartbeatLastError config;
  lastSentText := lastSentText config; lastSentAtMs := lastSentAtMs config;
  heartbeatCreatedAt := heartbeatCreatedAt config; heartbeatUpdatedAt := heartbeatUpdatedAt config;
|}.

Definition setHeartbeatStatus (status : text) (config : LocalHeartbeatConfigRecord) : LocalHeartbeatConfigRecord := {|
  heartbeatId := heartbeatId config; heartbeatConversationId := heartbeatConversationId config;
  heartbeatEnabled := heartbeatEnabled config; intervalMs := intervalMs config;
  heartbeatPrompt := heartbeatPrompt config; checklist := checklist config;
  ackMaxChars := ackMaxChars config; heartbeatDeliver := heartbeatDeliver config;
  heartbeatAgentType := heartbeatAgentType config; activeHours := activeHours config;
  targetDeviceId := targetDeviceId config; heartbeatRunningAtMs := heartbeatRunningAtMs config;
  heartbeatLastRunAtMs := heartbeatLastRunAtMs config;
  heartbeatNextRunAtMs := heartbeatNextRunAtMs config; heartbeatLastStatus := Some status;
  heartbeatLastError := heartbeatLastError config; lastSentText := lastSentText config;
  lastSentAtMs := lastSentAtMs config; heartbeatCreatedAt := heartbeatCreatedAt config;
  heartbeatUpdatedAt := heartbeatUpdatedAt config;
|}.

Definition setHeartbeatError (error : option text) (config : LocalHeartbeatConfigRecord) : LocalHeartbeatConfigRecord := {|
  heartbeatId := heartbeatId config; heartbeatConversationId := heartbeatConversationId config;
  heartbeatEnabled := heartbeatEnabled config; intervalMs := intervalMs config;
  heartbeatPrompt := heartbeatPrompt config; checklist := checklist config;
  ackMaxChars := ackMaxChars config; heartbeatDeliver := heartbeatDeliver config;
  heartbeatAgentType := heartbeatAgentType config; activeHours := activeHours config;
  targetDeviceId := targetDeviceId config; heartbeatRunningAtMs := heartbeatRunningAtMs config;
  heartbeatLastRunAtMs := heartbeatLastRunAtMs config;
  heartbeatNextRunAtMs := heartbeatNextRunAtMs config; heartbeatLastStatus := heartbeatLastStatus config;
  heartbeatLastError := error; lastSentText := lastSentText config; lastSentAtMs := lastSentAtMs config;
  heartbeatCreatedAt := heartbeatCreatedAt config; heartbeatUpdatedAt := heartbeatUpdatedAt config;
|}.

Definition setLastSent (sent : text) (at_ : Z) (config : LocalHeartbeatConfigRecord) : LocalHeartbeatConfigRecord := {|
  heartbeatId := heartbeatId config; heartbeatConversationId := heartbeatConversationId config;
  heartbeatEnabled := heartbeatEnabled config; intervalMs := intervalMs config;
  heartbeatPrompt := heartbeatPrompt config; checklist := checklist config;
  ackMaxChars := ackMaxChars config; heartbeatDeliver := heartbeatDeliver config;
  heartbeatAgentType := heartbeatAgentType config; activeHours := activeHours config;
  targetDeviceId := targetDeviceId config; heartbeatRunningAtMs := heartbeatRunningAtMs config;
  heartbeatLastRunAtMs := heartbeatLastRunAtMs config;
  heartbeatNextRunAtMs := heartbeatNextRunAtMs config; heartbeatLastStatus := heartbeatLastStatus config;
  heartbeatLastError := heartbeatLastError config; lastSentText := Some sent; lastSentAtMs := Some at_;
  heartbeatCreatedAt := heartbeatCreatedAt config; heartbeatUpdatedAt := heartbeatUpdatedAt config;
|}.

(** ** The messages of a conversation *)

Section Events.
(** [a.localeCompare(b)]: its sign is what the code reads. *)
Context (localeCompare : text → text → Z).

(** The comparator of [sortEventsAscending]. *)
Definition compareEvents (a b : ScheduledConversationEvent) : Z :=
  if negb (timestamp a =? timestamp b) then timestamp a - timestamp b else localeCompare (eventId a) (eventId b).

(** [Array.prototype.sort] is stable: an element goes in front of the first that is greater. *)
Fixpoint insertSorted {A} (compare : A → A → Z) (x : A) (l : list A) : list A :=
  match l with
  | [] => [x]
  | y :: rest => if 0 <? compare y x then x :: l else y :: insertSorted compare x rest
  end.
Definition sortBy {A} (compare : A → A → Z) (l : list A) : list A := foldl (λ acc x, insertSorted compare x acc) [] l.

Definition sortEventsAscending (events : list ScheduledConversationEvent) : list ScheduledConversationEvent :=
  sortBy compareEvents events.

(** [findIndex] and [splice(index, 0, event)]: in front of the first that is greater, at the end if
    there is none. *)
Fixpoint spliceBefore (event : ScheduledConversationEvent) (events : list ScheduledConversationEvent) : list ScheduledConversationEvent :=
  match events with
  | [] => [event]
  | existing :: rest =>
      if (timestamp event <? timestamp existing)
         || (timestamp existing =? timestamp event) && (0 <? localeCompare (eventId existing) (eventId event))
      then event :: events else existing :: spliceBefore event rest
  end.

Definition insertEventAscending (events : list ScheduledConversationEvent) (event : ScheduledConversationEvent)
    : list ScheduledConversationEvent :=
  match last events with
  | None => events ++ [event]
  | Some final =>
      if (timestamp final <? timestamp event)
         || (timestamp final =? timestamp event) && (localeCompare (eventId final) (eventId event) <=? 0)
      then events ++ [event] else spliceBefore event events
  end.

(** [.slice(-500)], and the [splice] of a bucket that has grown past it. *)
Definition capEvents (events : list ScheduledConversationEvent) : list ScheduledConversationEvent :=
  drop (length events - MAX_GENERATED_EVENTS_PER_CONVERSATION) events.
End Events.

(** [sortByUpdatedDesc]. *)
Definition compareUpdatedDesc {A} (updatedAt createdAt : A → Z) (a b : A) : Z :=
  if negb (updatedAt a =? updatedAt b) then updatedAt b - updatedAt a else createdAt b - createdAt a.
Definition sortByUpdatedDesc {A} (updatedAt createdAt : A → Z) (rows : list A) : list A :=
  sortBy (compareUpdatedDesc updatedAt createdAt) rows.

(** ** The texts of a fire *)

Definition emDash : N := 8212%N.
Definition newlines : text := [newline; newline].

Definition resolveHeartbeatPrompt (prompt list : option text) : text :=
  let base := default DEFAULT_HEARTBEAT_PROMPT (nonEmpty (asTrimmedString prompt)) in
  let list := asTrimmedString list in
  if bool_decide (list = []) then base
  else base ++ newlines ++ u "Heartbeat checklist:" ++ [newline] ++ list.

Definition buildTaskFirePrompt (name intent : text) : text :=
  u "Scheduled task " ++ quoted name ++ u " fired. Carry out the stored intent below now " ++ [emDash]
  ++ u " answer directly or spawn agents as you normally would. Your final reply is delivered to the user as an assistant message and a native notification, so make it a concise user-facing report of what happened."
  ++ newlines ++ u "Stored intent:" ++ [newline] ++ intent.

Definition buildWatchChangePrompt (name details : text) : text :=
  u "Watch " ++ quoted name ++ u " detected a change. Raw change details from its check script:" ++ newlines ++ details ++ newlines
  ++ u "Tell the user what changed, and act on it only if the watch clearly implies an action. Your final reply is delivered as an assistant message and a native notification "
  ++ [emDash] ++ u " keep it concise and user-facing.".

Definition buildWatchFailurePrompt (name scriptPath details : text) : text :=
  u "Watch " ++ quoted name ++ u " FAILED to run its check (sensor error " ++ [emDash] ++ u " NOT a detected change):" ++ newlines
  ++ details ++ newlines ++ u "The deterministic check script lives at " ++ scriptPath ++ u " (baseline state sidecar: " ++ scriptPath
  ++ u ".state.json). Repair the sensor: investigate the target source, fix the script, dry-run it, and update the schedule entry if needed. If the watch is no longer viable, say so and remove it. Your final reply is delivered as an assistant message and a native notification "
  ++ [emDash] ++ u " keep it concise and user-facing.".

Fixpoint dropWhile (p : N → bool) (t : text) : text :=
  match t with c :: rest => if p c then dropWhile p rest else t | [] => [] end.

(** Hash signs, then white space or the end. *)
Definition isHeading (t : text) : bool :=
  match t with
  | 35%N :: rest => match dropWhile (N.eqb 35) rest with [] => true | c :: _ => isWhite c end
  | _ => false
  end.

(** A bullet with nothing behind it but white space and an optional checkbox. *)
Definition isEmptyItem (t : text) : bool :=
  match t with
  | c :: rest =>
      ((c =? 45) || (c =? 42) || (c =? 43))%N
      && match trimStart rest with
         | [] => true
         | 91%N :: box =>
             match box with
             | 93%N :: after => bool_decide (trimStart after = [])
             | m :: 93%N :: after => (isWhite m || (m =? 88) || (m =? 120))%N && bool_decide (trimStart after = [])
             | _ => false
             end
         | _ => false
         end
  | [] => false
  end.

Definition isHeartbeatContentEffectivelyEmpty (content : option text) : bool :=
  match content with
  | None => false
  | Some content =>
      forallb (λ line, let trimmed := trim line in bool_decide (trimmed = []) || isHeading trimmed || isEmptyItem trimmed)
        (splitOn newline content)
  end.
