(* ===== verification/Scheduler.v ===== *)
(** * The local scheduler

    [LocalSchedulerService] of [packages/runtime/kernel/local-scheduler-service.ts] with its state
    in a heap: a running job keeps the object of its record while calls may change the same object,
    take it out of the list, or restart the service over fresh objects.  [step] is one synchronous
    stretch of the program: a call, the wake of the timer, an awaited operation that settles, the
    fiber of a tick that goes on, or its interruption after [stop].

    A [Moment] has the successive readings of [Date.now()] in a stretch, the uuid it draws, and
    whether a runner is there.  [outputs] is what the outside sees.  Listeners are left out, and the
    file is taken to be writable. *)

From Corelib Require Import ssreflect SpecFloat.
From stdpp Require Import prelude gmap strings pretty.
From S2P Require Import Prelude JsNumber Text HostPaths SchedulerRecords.

#[local] Open Scope Z_scope.

(** What the service gets from outside. *)
Record SchedulerEnv := {
  scriptsDir : text;
  zones : Zones;
  cronNextRun : text → option text → Z → option Z;
  localeCompare : text → text → Z;
  hasNotifier : bool;
}.

Record Moment := { clock : nat → Z; uuid : text; runnerReady : bool }.

(** ** The state of the service *)

(** The contents of the state file: what [persistState] wrote, or something [JSON.parse] refuses. *)
Record LocalSchedulerState := {
  storedCronJobs : list LocalCronJobRecord;
  storedHeartbeats : list LocalHeartbeatConfigRecord;
  storedEvents : gmap text (list ScheduledConversationEvent);
}.

Inductive StateFile := Stored (state : LocalSchedulerState) | Unreadable.

Record ScriptRunResult := { exitCode : Z; stdout : text; stderr : text; durationMs : Z; timedOut : bool }.

(** Where an execution waits. *)
Inductive Point :=
  | ScriptAuth (path : text)
  | ScriptRun (path : text)
  | TaskTurn
  | WatchAuth (path : text)
  | WatchRun (path : text)
  | WatchTurn (path : text) (escalation : Escalation)
  | AgentTurn
  | HeartbeatTurn.

Inductive RunOutcome := Done | Busy.

(** The object an execution works on. *)
Inductive Item := CronItem (ref : nat) | HeartbeatItem (ref : nat).

#[export] Instance Item_eq_dec : EqDecision Item.
Proof. solve_decision. Defined.

Inductive Phase := Awaiting (point : Point) | Settled (result : text + RunOutcome).

Record Execution := { executing : Item; startedAt : Z; phase : Phase }.

(** A tick fiber at the promise of an execution, in the scope it was forked into. *)
Record Tick := { tickScope : nat; awaiting : nat }.

Record Timer := { timerId : nat; timerScope : nat; delayMs : Z }.

Record AutomationTurn := { turnConversationId : text; userPrompt : text; localStorage : bool; turnAgentType : text }.

Inductive Source := FromCron | FromHeartbeat.

Inductive Output :=
  | Notified (title body conversationId : text) (source : Source) (refId : text)
  | TurnStarted (turn : AutomationTurn)
  | ScriptStarted (path : text) (env : option (list (text * text)))
  | FileRemoved (path : text).

Record Scheduler := {
  cronHeap : gmap nat LocalCronJobRecord;
  heartbeatHeap : gmap nat LocalHeartbeatConfigRecord;
  cronJobs : list nat;
  heartbeats : list nat;
  generatedEvents : gmap text (list ScheduledConversationEvent);
  disk : option StateFile;
  started : bool;
  serviceScope : option nat;
  closing : list nat;
  timerFiber : option Timer;
  tickInFlight : bool;
  ticks : gmap nat Tick;
  executions : gmap nat Execution;
  fresh : nat;
  outputs : list Output;
}.

(** ** Assignments to its fields *)

Definition setCronHeap (h : gmap nat LocalCronJobRecord) (s : Scheduler) : Scheduler := {|
  cronHeap := h; heartbeatHeap := heartbeatHeap s; cronJobs := cronJobs s; heartbeats := heartbeats s;
  generatedEvents := generatedEvents s; disk := disk s; started := started s;
  serviceScope := serviceScope s; closing := closing s; timerFiber := timerFiber s;
  tickInFlight := tickInFlight s; ticks := ticks s; executions := executions s; fresh := fresh s;
  outputs := outputs s;
|}.

Definition setHeartbeatHeap (h : gmap nat LocalHeartbeatConfigRecord) (s : Scheduler) : Scheduler := {|
  cronHeap := cronHeap s; heartbeatHeap := h; cronJobs := cronJobs s; heartbeats := heartbeats s;
  generatedEvents := generatedEvents s; disk := disk s; started := started s;
  serviceScope := serviceScope s; closing := closing s; timerFiber := timerFiber s;
  tickInFlight := tickInFlight s; ticks := ticks s; executions := executions s; fresh := fresh s;
  outputs := outputs s;
|}.

Definition setCronJobs (l : list nat) (s : Scheduler) : Scheduler := {|
  cronHeap := cronHeap s; heartbeatHeap := heartbeatHeap s; cronJobs := l; heartbeats := heartbeats s;
  generatedEvents := generatedEvents s; disk := disk s; started := started s;
  serviceScope := serviceScope s; closing := closing s; timerFiber := timerFiber s;
  tickInFlight := tickInFlight s; ticks := ticks s; executions := executions s; fresh := fresh s;
  outputs := outputs s;
|}.

Definition setHeartbeats (l : list nat) (s : Scheduler) : Scheduler := {|
  cronHeap := cronHeap s; heartbeatHeap := heartbeatHeap s; cronJobs := cronJobs s; heartbeats := l;
  generatedEvents := generatedEvents s; disk := disk s; started := started s;
  serviceScope := serviceScope s; closing := closing s; timerFiber := timerFiber s;
  tickInFlight := tickInFlight s; ticks := ticks s; executions := executions s; fresh := fresh s;
  outputs := outputs s;
|}.

Definition setGeneratedEvents (e : gmap text (list ScheduledConversationEvent)) (s : Scheduler) : Scheduler := {|
  cronHeap := cronHeap s; heartbeatHeap := heartbeatHeap s; cronJobs := cronJobs s;
  heartbeats := heartbeats s; generatedEvents := e; disk := disk s; started := started s;
  serviceScope := serviceScope s; closing := closing s; timerFiber := timerFiber s;
  tickInFlight := tickInFlight s; ticks := ticks s; executions := executions s; fresh := fresh s;
  outputs := outputs s;
|}.

Definition setDisk (d : option StateFile) (s : Scheduler) : Scheduler := {|
  cronHeap := cronHeap s; heartbeatHeap := heartbeatHeap s; cronJobs := cronJobs s;
  heartbeats := heartbeats s; generatedEvents := generatedEvents s; disk := d; started := started s;
  serviceScope := serviceScope s; closing := closing s; timerFiber := timerFiber s;
  tickInFlight := tickInFlight s; ticks := ticks s; executions := executions s; fresh := fresh s;
  outputs := outputs s;
|}.

Definition setLifetime (running : bool) (scope : option nat) (closed : list nat) (s : Scheduler) : Scheduler := {|
  cronHeap := cronHeap s; heartbeatHeap := heartbeatHeap s; cronJobs := cronJobs s;
  heartbeats := heartbeats s; generatedEvents := generatedEvents s; disk := disk s; started := running;
  serviceScope := scope; closing := closed; timerFiber := timerFiber s; tickInFlight := tickInFlight s;
  ticks := ticks s; executions := executions s; fresh := fresh s; outputs := outputs s;
|}.

Definition setTimer (t : option Timer) (s : Scheduler) : Scheduler := {|
  cronHeap := cronHeap s; heartbeatHeap := heartbeatHeap s; cronJobs := cronJobs s;
  heartbeats := heartbeats s; generatedEvents := generatedEvents s; disk := disk s; started := started s;
  serviceScope := serviceScope s; closing := closing s; timerFiber := t; tickInFlight := tickInFlight s;
  ticks := ticks s; executions := executions s; fresh := fresh s; outputs := outputs s;
|}.

Definition setTicks (inFlight : bool) (t : gmap nat Tick) (s : Scheduler) : Scheduler := {|
  cronHeap := cronHeap s; heartbeatHeap := heartbeatHeap s; cronJobs := cronJobs s;
  heartbeats := heartbeats s; generatedEvents := generatedEvents s; disk := disk s; started := started s;
  serviceScope := serviceScope s; closing := closing s; timerFiber := timerFiber s;
  tickInFlight := inFlight; ticks := t; executions := executions s; fresh := fresh s;
  outputs := outputs s;
|}.

Definition setExecutions (e : gmap nat Execution) (s : Scheduler) : Scheduler := {|
  cronHeap := cronHeap s; heartbeatHeap := heartbeatHeap s; cronJobs := cronJobs s;
  heartbeats := heartbeats s; generatedEvents := generatedEvents s; disk := disk s; started := started s;
  serviceScope := serviceScope s; closing := closing s; timerFiber := timerFiber s;
  tickInFlight := tickInFlight s; ticks := ticks s; executions := e; fresh := fresh s;
  outputs := outputs s;
|}.

Definition setFresh (n : nat) (s : Scheduler) : Scheduler := {|
  cronHeap := cronHeap s; heartbeatHeap := heartbeatHeap s; cronJobs := cronJobs s;
  heartbeats := heartbeats s; generatedEvents := generatedEvents s; disk := disk s; started := started s;
  serviceScope := serviceScope s; closing := closing s; timerFiber := timerFiber s;
  tickInFlight := tickInFlight s; ticks := ticks s; executions := executions s; fresh := n;
  outputs := outputs s;
|}.

Definition setOutputs (o : list Output) (s : Scheduler) : Scheduler := {|
  cronHeap := cronHeap s; heartbeatHeap := heartbeatHeap s; cronJobs := cronJobs s;
  heartbeats := heartbeats s; generatedEvents := generatedEvents s; disk := disk s; started := started s;
  serviceScope := serviceScope s; closing := closing s; timerFiber := timerFiber s;
  tickInFlight := tickInFlight s; ticks := ticks s; executions := executions s; fresh := fresh s;
  outputs := o;
|}.

(** ** Reads *)

Definition jobsOf (s : Scheduler) : list LocalCronJobRecord := omap (λ r, cronHeap s !! r) (cronJobs s).
Definition heartbeatsOf (s : Scheduler) : list LocalHeartbeatConfigRecord := omap (λ r, heartbeatHeap s !! r) (heartbeats s).

(** The value [JSON.stringify(this.state)] writes down. *)
Definition stateOf (s : Scheduler) : LocalSchedulerState := {|
  storedCronJobs := jobsOf s;
  storedHeartbeats := heartbeatsOf s;
  storedEvents := generatedEvents s;
|}.

(** [this.state.cronJobs.find(...)], as the object. *)
Fixpoint findRef {A} (heap : gmap nat A) (p : A → bool) (refs : list nat) : option (nat * A) :=
  match refs with
  | [] => None
  | r :: refs =>
      match heap !! r with
      | Some a => if p a then Some (r, a) else findRef heap p refs
      | None => findRef heap p refs
      end
  end.
Definition findJob (id : text) (s : Scheduler) : option (nat * LocalCronJobRecord) :=
  findRef (cronHeap s) (λ job, bool_decide (jobId job = id)) (cronJobs s).
Definition findHeartbeat (p : LocalHeartbeatConfigRecord → bool) (s : Scheduler) : option (nat * LocalHeartbeatConfigRecord) :=
  findRef (heartbeatHeap s) p (heartbeats s).

Definition getSnapshot (s : Scheduler) : list LocalCronJobRecord * list LocalHeartbeatConfigRecord :=
  (sortByUpdatedDesc jobUpdatedAt jobCreatedAt (jobsOf s),
   sortByUpdatedDesc heartbeatUpdatedAt heartbeatCreatedAt (heartbeatsOf s)).
Definition listCronJobs (s : Scheduler) : list LocalCronJobRecord := (getSnapshot s).1.
Definition listHeartbeats (s : Scheduler) : list LocalHeartbeatConfigRecord := (getSnapshot s).2.
Definition getHeartbeatConfig (conversationId : text) (s : Scheduler) : option LocalHeartbeatConfigRecord :=
  snd <$> findHeartbeat (λ config, bool_decide (heartbeatConversationId config = conversationId)) s.

Definition eventsOf (conversationId : text) (s : Scheduler) : list ScheduledConversationEvent :=
  default [] (generatedEvents s !! conversationId).
Definition listConversationEvents (conversationId : text) (maxItems : nat) (s : Scheduler) : list ScheduledConversationEvent :=
  let events := eventsOf conversationId s in
  let normalizedMax := Nat.max 1 maxItems in
  if (length events <=? normalizedMax)%nat then events else drop (length events - normalizedMax) events.
Definition getConversationEventCount (conversationId : text) (s : Scheduler) : nat := length (eventsOf conversationId s).

(** ** What is due *)

Definition jobIdle (job : LocalCronJobRecord) : bool :=
  jobEnabled job && match jobRunningAtMs job with None => true | Some _ => false end.
Definition heartbeatIdle (config : LocalHeartbeatConfigRecord) : bool :=
  heartbeatEnabled config && match heartbeatRunningAtMs config with None => true | Some _ => false end.

Definition earlier (next : option Z) (at_ : Z) : option Z :=
  match next with Some n => if at_ <? n then Some at_ else Some n | None => Some at_ end.
Definition getNextDueAt (s : Scheduler) : option Z :=
  foldl (λ next config, if heartbeatIdle config then earlier next (heartbeatNextRunAtMs config) else next)
    (foldl (λ next job, if jobIdle job then earlier next (jobNextRunAtMs job) else next) None (jobsOf s))
    (heartbeatsOf s).

(** The records of a list with their objects. *)
Definition entries {A} (heap : gmap nat A) (refs : list nat) : list (nat * A) :=
  omap (λ r, pair r <$> heap !! r) refs.

(** The first of those with the least [key]: the head of a stable sort. *)
Definition firstDue {A} (ready : A → bool) (key : A → Z) (now : Z) (l : list (nat * A)) : option (nat * A) :=
  head (sortBy (λ a b, key a.2 - key b.2) (List.filter (λ e, ready e.2 && (key e.2 <=? now)) l)).

Inductive DueItem := DueCron (ref : nat) (job : LocalCronJobRecord) | DueHeartbeat (ref : nat) (config : LocalHeartbeatConfigRecord).

Definition getNextDueItem (now : Z) (s : Scheduler) : option DueItem :=
  let cronCandidate := firstDue jobIdle jobNextRunAtMs now (entries (cronHeap s) (cronJobs s)) in
  let heartbeatCandidate := firstDue heartbeatIdle heartbeatNextRunAtMs now (entries (heartbeatHeap s) (heartbeats s)) in
  match cronCandidate, heartbeatCandidate with
  | None, None => None
  | Some (r, job), None => Some (DueCron r job)
  | None, Some (r, config) => Some (DueHeartbeat r config)
  | Some (r, job), Some (r', config) =>
      if jobNextRunAtMs job <=? heartbeatNextRunAtMs config then Some (DueCron r job) else Some (DueHeartbeat r' config)
  end.

Definition requiresRunner (item : DueItem) : bool :=
  match item with
  | DueHeartbeat _ _ => true
  | DueCron _ job => match jobPayload job with Agent _ _ | Task _ | Watch _ => true | _ => false end
  end.

(** ** The file *)

Section Service.
Context (env : SchedulerEnv).

(** What a stored record is validated as. *)
Definition rawOfSchedule (schedule : LocalCronSchedule) : RawSchedule :=
  match schedule with
  | At a => {| scheduleKind := Some (u "at"); rawAtMs := a; rawEveryMs := Double S754_nan; rawAnchorMs := None; rawExpr := None; rawTz := None |}
  | Every e a => {| scheduleKind := Some (u "every"); rawAtMs := Double S754_nan; rawEveryMs := Whole e; rawAnchorMs := a; rawExpr := None; rawTz := None |}
  | CronExpr e tz => {| scheduleKind := Some (u "cron"); rawAtMs := Double S754_nan; rawEveryMs := Double S754_nan; rawAnchorMs := None; rawExpr := Some e; rawTz := tz |}
  end.
Definition rawOfPayload (payload : LocalCronPayload) : RawPayload :=
  match payload with
  | Notify t => {| payloadKind := Some (u "notify"); rawText := Some t; rawPrompt := None; rawScriptPath := None; rawAgentType := None |}
  | Task p => {| payloadKind := Some (u "task"); rawText := None; rawPrompt := Some p; rawScriptPath := None; rawAgentType := None |}
  | Watch p => {| payloadKind := Some (u "watch"); rawText := None; rawPrompt := None; rawScriptPath := Some p; rawAgentType := None |}
  | Script p => {| payloadKind := Some (u "script"); rawText := None; rawPrompt := None; rawScriptPath := Some p; rawAgentType := None |}
  | Agent p t => {| payloadKind := Some (u "agent"); rawText := None; rawPrompt := Some p; rawScriptPath := None; rawAgentType := t |}
  end.

Definition isRight {A B} (v : A + B) : bool := match v with inr _ => true | inl _ => false end.

Definition isCronJobRecord (job : LocalCronJobRecord) : bool :=
  isRight (assertValidSchedule (Some (rawOfSchedule (jobSchedule job))))
  && isRight (assertValidPayload (Some (rawOfPayload (jobPayload job))) (scriptsDir env))
  && isRight (ensureConversationId (Some (jobConversationId job)))
  && isRight (ensureName (Some (jobName job))).
Definition isHeartbeatRecord (config : LocalHeartbeatConfigRecord) : bool :=
  negb (bool_decide (trim (heartbeatConversationId config) = [])).

Definition createEmptyState : LocalSchedulerState := {| storedCronJobs := []; storedHeartbeats := []; storedEvents := ∅ |}.

Definition sanitizeState (state : LocalSchedulerState) : LocalSchedulerState := {|
  storedCronJobs := List.filter isCronJobRecord (storedCronJobs state);
  storedHeartbeats := List.filter isHeartbeatRecord (storedHeartbeats state);
  storedEvents := omap (λ events,
    if (0 <? length events)%nat then Some (capEvents (sortEventsAscending (localeCompare env) events)) else None)
    (storedEvents state);
|}.

Definition readState (file : option StateFile) : LocalSchedulerState :=
  match file with Some (Stored state) => sanitizeState state | _ => createEmptyState end.

Definition persistState : M Scheduler text () := modify (λ s, setDisk (Some (Stored (stateOf s))) s).

Definition emit (o : Output) : M Scheduler text () := modify (λ s, setOutputs (outputs s ++ [o]) s).

Definition changeJob (r : nat) (f : LocalCronJobRecord → LocalCronJobRecord) : M Scheduler text () :=
  modify (λ s, setCronHeap (alter f r (cronHeap s)) s).
Definition changeHeartbeat (r : nat) (f : LocalHeartbeatConfigRecord → LocalHeartbeatConfigRecord) : M Scheduler text () :=
  modify (λ s, setHeartbeatHeap (alter f r (heartbeatHeap s)) s).

(** ** The timer *)

(** The stale delay fiber is interrupted; should it win the race, it finds that it is not
    [timerFiber] and does nothing. *)
Definition scheduleNextTick (overrideDelayMs : option Z) (now : Z) : M Scheduler text () :=
  modify (λ s,
    let s := setTimer None s in
    match serviceScope s with
    | Some scope =>
        if started s then
          match (match overrideDelayMs with
                 | Some delay => Some delay
                 | None => (λ dueAt, Z.max 250 (Z.min (dueAt - now) MAX_TIMER_DELAY_MS)) <$> getNextDueAt s
                 end) with
          | Some delay => setFresh (S (fresh s)) (setTimer (Some {| timerId := fresh s; timerScope := scope; delayMs := Z.max 0 delay |}) s)
          | None => s
          end
        else s
    | None => s
    end).

Definition afterMutation (overrideDelayMs : option Z) (now : Z) : M Scheduler text () :=
  persistState;;; scheduleNextTick overrideDelayMs now.

(** ** Script files *)

Definition isScriptPathReferenced (scriptPath : text) (exceptJobId : text) (s : Scheduler) : bool :=
  let target := resolve [] scriptPath in
  existsb (λ job,
    negb (bool_decide (jobId job = exceptJobId))
    && match payloadScriptPath (jobPayload job) with Some p => bool_decide (resolve [] p = target) | None => false end)
    (jobsOf s).

Definition sidecar (scriptPath : text) : text := scriptPath ++ u ".state.json".

Definition removeScriptFile (scriptPath : text) : M Scheduler text () :=
  emit (FileRemoved scriptPath);;; emit (FileRemoved (sidecar scriptPath)).

Definition endsWith (suffix t : text) : bool :=
  (length suffix <=? length t)%nat && bool_decide (drop (length t - length suffix) t = suffix).

(** The script a file of the directory belongs to. *)
Definition scriptOfEntry (abs : text) : text :=
  if endsWith (u ".state.json") abs then take (length abs - length (u ".state.json")) abs ++ u ".ts" else abs.

(** [None]: the directory cannot be read. *)
Definition collectOrphanScripts (directory : option (list text)) : M Scheduler text () := λ s,
  match directory with
  | None => (s, inr ())
  | Some names =>
      let referenced := (λ job, resolve [] <$> payloadScriptPath (jobPayload job)) <$> jobsOf s in
      let orphan name :=
        (endsWith (u ".ts") name || endsWith (u ".state.json") name)
        && negb (bool_decide (Some (scriptOfEntry (resolve (scriptsDir env) name)) ∈ referenced)) in
      (setOutputs (outputs s ++ ((λ name, FileRemoved (resolve (scriptsDir env) name)) <$> List.filter orphan names)) s, inr ())
  end.

(** ** start and stop *)

(** The records get objects of their own. *)
Definition loadState (state : LocalSchedulerState) (s : Scheduler) : Scheduler :=
  let jobs := storedCronJobs state in
  let configs := storedHeartbeats state in
  let jobRefs := seq (fresh s) (length jobs) in
  let configRefs := seq (fresh s + length jobs) (length configs) in
  setFresh (fresh s + length jobs + length configs)
    (setGeneratedEvents (storedEvents state)
      (setHeartbeats configRefs
        (setCronJobs jobRefs
          (setHeartbeatHeap (map_seq (fresh s + length jobs) configs ∪ heartbeatHeap s)
            (setCronHeap (map_seq (fresh s) jobs ∪ cronHeap s) s))))).

Definition isSome {A} (v : option A) : bool := match v with Some _ => true | None => false end.

Definition hasRunningFlags (s : Scheduler) : bool :=
  existsb (λ job, isSome (jobRunningAtMs job)) (jobsOf s) || existsb (λ config, isSome (heartbeatRunningAtMs config)) (heartbeatsOf s).

Definition clearRunningFlags (s : Scheduler) : Scheduler :=
  setHeartbeatHeap (foldr (λ r heap, alter (setHeartbeatRunningAtMs None) r heap) (heartbeatHeap s) (heartbeats s))
    (setCronHeap (foldr (λ r heap, alter (setJobRunningAtMs None) r heap) (cronHeap s) (cronJobs s)) s).

(** Whether a flag was there. *)
Definition clearRecoveredRunningFlags : M Scheduler text bool := λ s,
  if hasRunningFlags s then (clearRunningFlags s, inr true) else (s, inr false).

(** [this.started = true], a new scope, and [this.state = this.readState()]. *)
Definition newLife (state : LocalSchedulerState) (s : Scheduler) : Scheduler :=
  loadState state (setFresh (S (fresh s)) (setLifetime true (Some (fresh s)) (closing s) s)).

(** What start does after it has read the file. *)
Definition afterLoad (directory : option (list text)) (now : Z) : M Scheduler text () :=
  let* there := gets disk in
  (match there with None => persistState | Some _ => ret () end);;;
  let* changed := clearRecoveredRunningFlags in
  (if (changed : bool) then persistState else ret ());;;
  collectOrphanScripts directory;;;
  scheduleNextTick (Some 250) now.

Definition start (directory : option (list text)) (m : Moment) : M Scheduler text () := λ s,
  if started s then (s, inr ()) else afterLoad directory (clock m 0) (newLife (readState (disk s)) s).

(** The scope is closed in the background, after the tick in flight or 30 seconds. *)
Definition stop : M Scheduler text () :=
  modify (λ s,
    let scope := serviceScope s in
    setTimer None (setLifetime false None (match scope with Some scope => scope :: closing s | None => closing s end) s)).

(** ** Calls *)

Record CronJobInput := {
  inputName : option text;
  inputConversationId : option text;
  inputSchedule : option RawSchedule;
  inputPayload : option RawPayload;
  inputDescription : option text;
  inputEnabled : option bool;
  inputDeliver : option bool;
  inputDeleteAfterRun : option bool;
}.

(** A field that is [None] is not in the patch. *)
Record CronJobPatch := {
  patchName : option text;
  patchConversationId : option text;
  patchSchedule : option (option RawSchedule);
  patchPayload : option (option RawPayload);
  patchDescription : option text;
  patchEnabled : option bool;
  patchDeliver : option bool;
  patchDeleteAfterRun : option bool;
}.

Record HeartbeatInput := {
  upsertConversationId : option text;
  upsertEnabled : option bool;
  upsertIntervalMs : option num;
  upsertPrompt : option text;
  upsertChecklist : option text;
  upsertAckMaxChars : option num;
  upsertDeliver : option bool;
  upsertAgentType : option text;
  upsertActiveHours : option HoursValue;
  upsertTargetDeviceId : option text;
}.

(** A check throws before anything after it runs. *)
Definition check {A} (v : text + A) : M Scheduler text A := match v with inl e => throw e | inr a => ret a end.

Definition nextRun (schedule : LocalCronSchedule) (nowMs : Z) : M Scheduler text Z :=
  check (computeNextRunAtMs (cronNextRun env) schedule nowMs).

(** A new object at the end of the list. *)
Definition pushJob (job : LocalCronJobRecord) : M Scheduler text () :=
  modify (λ s, setFresh (S (fresh s)) (setCronJobs (cronJobs s ++ [fresh s]) (setCronHeap (<[fresh s := job]> (cronHeap s)) s))).
Definition pushHeartbeat (config : LocalHeartbeatConfigRecord) : M Scheduler text () :=
  modify (λ s, setFresh (S (fresh s)) (setHeartbeats (heartbeats s ++ [fresh s]) (setHeartbeatHeap (<[fresh s := config]> (heartbeatHeap s)) s))).

Definition addCronJob (input : CronJobInput) (m : Moment) : M Scheduler text LocalCronJobRecord :=
  let now := clock m 0 in
  let* conversationId := check (ensureConversationId (inputConversationId input)) in
  let* name := check (ensureName (inputName input)) in
  let* schedule := check (assertValidSchedule (inputSchedule input)) in
  let* payload := check (assertValidPayload (inputPayload input) (scriptsDir env)) in
  let* nextRunAtMs := nextRun schedule now in
  let job := {|
    jobId := u "cron:" ++ uuid m; jobConversationId := conversationId; jobName := name;
    jobDescription := nonEmpty (asTrimmedString (inputDescription input)); jobEnabled := default true (inputEnabled input);
    jobSchedule := schedule; jobPayload := payload; jobDeliver := inputDeliver input;
    deleteAfterRun := inputDeleteAfterRun input; jobNextRunAtMs := nextRunAtMs; jobRunningAtMs := None;
    jobLastRunAtMs := None; jobLastStatus := None; jobLastError := None; jobLastDurationMs := None;
    jobLastOutputPreview := None; pendingEscalation := None; jobCreatedAt := now; jobUpdatedAt := now;
  |} in
  pushJob job;;; afterMutation None (clock m 1);;; ret job.

(** [f] for each field of a patch that is there. *)
Definition whenSome {A} (v : option A) (f : A → M Scheduler text ()) : M Scheduler text () :=
  match v with Some a => f a | None => ret () end.

Definition updateCronJob (id : text) (patch : CronJobPatch) (m : Moment) : M Scheduler text (option LocalCronJobRecord) :=
  let* found := gets (findJob id) in
  match found with
  | None => ret None
  | Some (r, job) =>
      let* nextSchedule := match patchSchedule patch with Some raw => check (assertValidSchedule raw) | None => ret (jobSchedule job) end in
      let* nextPayload := match patchPayload patch with Some raw => check (assertValidPayload raw (scriptsDir env)) | None => ret (jobPayload job) end in
      let now := clock m 0 in
      let priorScriptPath := payloadScriptPath (jobPayload job) in
      whenSome (patchName patch) (λ name, let* name := check (ensureName (Some name)) in changeJob r (setJobName name));;;
      whenSome (patchConversationId patch) (λ c, let* c := check (ensureConversationId (Some c)) in changeJob r (setJobConversationId c));;;
      changeJob r (setJobPlan nextSchedule nextPayload);;;
      whenSome (patchDescription patch) (λ d, changeJob r (setJobDescription (nonEmpty (trim d))));;;
      whenSome (patchEnabled patch) (λ b, changeJob r (setJobEnabled b));;;
      whenSome (patchDeliver patch) (λ b, changeJob r (setJobDeliver b));;;
      whenSome (patchDeleteAfterRun patch) (λ b, changeJob r (setDeleteAfterRun b));;;
      changeJob r (setJobRunningAtMs None);;;
      let* next := nextRun nextSchedule now in
      changeJob r (setJobNextRunAtMs next);;;
      changeJob r (setJobUpdatedAt now);;;
      (match priorScriptPath with
       | Some prior =>
           let* referenced := gets (isScriptPathReferenced prior (jobId job)) in
           if negb (bool_decide (payloadScriptPath nextPayload = Some prior)) && negb referenced
           then removeScriptFile prior else ret ()
       | None => ret ()
       end);;;
      afterMutation None (clock m 1);;;
      gets (λ s, cronHeap s !! r)
  end.

Definition removeCronJob (id : text) (m : Moment) : M Scheduler text bool :=
  let* found := gets (findJob id) in
  match found with
  | None => ret false
  | Some (r, removed) =>
      modify (λ s, setCronJobs (List.filter (λ r', negb (r' =? r)%nat) (cronJobs s)) s);;;
      (match payloadScriptPath (jobPayload removed) with
       | Some path =>
           let* referenced := gets (isScriptPathReferenced path (jobId removed)) in
           if (referenced : bool) then ret () else removeScriptFile path
       | None => ret ()
       end);;;
      afterMutation None (clock m 0);;;
      ret true
  end.

Definition runCronJob (id : text) (m : Moment) : M Scheduler text (option LocalCronJobRecord) :=
  let* found := gets (findJob id) in
  match found with
  | None => ret None
  | Some (r, _) =>
      changeJob r (λ job, setJobUpdatedAt (clock m 1) (setJobNextRunAtMs (clock m 0) job));;;
      afterMutation (Some 250) (clock m 2);;;
      gets (λ s, cronHeap s !! r)
  end.

Definition patchHeartbeat (input : HeartbeatInput) (interval now : Z) (hours : option LocalHeartbeatActiveHours)
    (config : LocalHeartbeatConfigRecord) : LocalHeartbeatConfigRecord :=
  let field (given old : option text) := match given with Some v => nonEmpty (trim v) | None => old end in {|
  heartbeatId := heartbeatId config; heartbeatConversationId := heartbeatConversationId config;
  heartbeatEnabled := default (heartbeatEnabled config) (upsertEnabled input);
  intervalMs := interval;
  heartbeatPrompt := field (upsertPrompt input) (heartbeatPrompt config);
  checklist := field (upsertChecklist input) (checklist config);
  ackMaxChars := match upsertAckMaxChars input with Some n => Z.max 0 <$> finiteFloor (Some n) | None => ackMaxChars config end;
  heartbeatDeliver := match upsertDeliver input with Some b => Some b | None => heartbeatDeliver config end;
  heartbeatAgentType := field (upsertAgentType input) (heartbeatAgentType config);
  activeHours := match upsertActiveHours input with Some _ => hours | None => activeHours config end;
  targetDeviceId := field (upsertTargetDeviceId input) (targetDeviceId config);
  heartbeatRunningAtMs := None; heartbeatLastRunAtMs := heartbeatLastRunAtMs config;
  heartbeatNextRunAtMs := now + interval; heartbeatLastStatus := heartbeatLastStatus config;
  heartbeatLastError := heartbeatLastError config; lastSentText := lastSentText config; lastSentAtMs := lastSentAtMs config;
  heartbeatCreatedAt := heartbeatCreatedAt config; heartbeatUpdatedAt := now;
|}.

Definition upsertHeartbeat (input : HeartbeatInput) (m : Moment) : M Scheduler text (option LocalHeartbeatConfigRecord) :=
  let* conversationId := check (ensureConversationId (upsertConversationId input)) in
  let now := clock m 0 in
  let interval := normalizeIntervalMs (upsertIntervalMs input) in
  let* hours := check (normalizeActiveHours (upsertActiveHours input)) in
  let* existing := gets (findHeartbeat (λ config, bool_decide (heartbeatConversationId config = conversationId))) in
  match existing with
  | Some (r, _) =>
      changeHeartbeat r (patchHeartbeat input interval now hours);;;
      afterMutation None (clock m 1);;;
      gets (λ s, heartbeatHeap s !! r)
  | None =>
      let field (given : option text) := given ≫= λ v, nonEmpty (trim v) in
      let record := {|
        heartbeatId := u "heartbeat:" ++ uuid m; heartbeatConversationId := conversationId;
        heartbeatEnabled := default true (upsertEnabled input); intervalMs := interval;
        heartbeatPrompt := field (upsertPrompt input); checklist := field (upsertChecklist input);
        ackMaxChars := Z.max 0 <$> finiteFloor (upsertAckMaxChars input); heartbeatDeliver := upsertDeliver input;
        heartbeatAgentType := field (upsertAgentType input); activeHours := hours;
        targetDeviceId := field (upsertTargetDeviceId input); heartbeatRunningAtMs := None; heartbeatLastRunAtMs := None;
        heartbeatNextRunAtMs := now + interval; heartbeatLastStatus := None; heartbeatLastError := None;
        lastSentText := None; lastSentAtMs := None; heartbeatCreatedAt := now; heartbeatUpdatedAt := now;
      |} in
      pushHeartbeat record;;; afterMutation None (clock m 1);;; ret (Some record)
  end.

Definition runHeartbeat (conversationId : text) (m : Moment) : M Scheduler text (option LocalHeartbeatConfigRecord) :=
  let* found := gets (findHeartbeat (λ config, bool_decide (heartbeatConversationId config = conversationId))) in
  match found with
  | None => ret None
  | Some (r, _) =>
      changeHeartbeat r (λ config, setHeartbeatUpdatedAt (clock m 1) (setHeartbeatNextRunAtMs (clock m 0) config));;;
      afterMutation (Some 250) (clock m 2);;;
      gets (λ s, heartbeatHeap s !! r)
  end.

(** ** Executions *)

(** [appendGeneratedAssistantMessage] *)
Definition appendGeneratedAssistantMessage (conversationId : text) (payload : EventPayload) (m : Moment) (reading : nat) : M Scheduler text () :=
  modify (λ s,
    let event := {| eventId := u "schedule:" ++ uuid m; eventConversationId := conversationId; timestamp := clock m reading; eventPayload := payload |} in
    let bucket := insertEventAscending (localeCompare env) (eventsOf conversationId s) event in
    setGeneratedEvents (<[conversationId := capEvents bucket]> (generatedEvents s)) s).

Definition fireOsNotification (title body conversationId : text) (source : Source) (refId : text) : M Scheduler text () :=
  if hasNotifier env then emit (Notified title body conversationId source refId) else ret ().

(** Reads the object of an execution; it is never freed. *)
Definition withJob {A} (r : nat) (dummy : A) (k : LocalCronJobRecord → M Scheduler text A) : M Scheduler text A := λ s,
  match cronHeap s !! r with Some job => k job s | None => (s, inr dummy) end.
Definition withHeartbeat {A} (r : nat) (dummy : A) (k : LocalHeartbeatConfigRecord → M Scheduler text A) : M Scheduler text A := λ s,
  match heartbeatHeap s !! r with Some config => k config s | None => (s, inr dummy) end.

(** Whether the job survived. *)
Definition advanceCronAfterRun (r : nat) (finishedAt : Z) (failed : bool) : M Scheduler text bool :=
  withJob r true (λ active,
    match jobSchedule active with
    | At _ =>
        if failed then changeJob r (setJobEnabled false);;; ret true
        else if default false (deleteAfterRun active) then
          modify (λ s, setCronJobs (List.filter (λ r', match cronHeap s !! r' with
              | Some entry => negb (bool_decide (jobId entry = jobId active)) | None => true end) (cronJobs s)) s);;;
          (match payloadScriptPath (jobPayload active) with
           | Some removedScript =>
               let* referenced := gets (isScriptPathReferenced removedScript (jobId active)) in
               if (referenced : bool) then ret () else removeScriptFile removedScript
           | None => ret ()
           end);;;
          ret false
        else changeJob r (setJobEnabled false);;; ret true
    | schedule =>
        let* next := nextRun schedule finishedAt in
        changeJob r (setJobNextRunAtMs next);;; ret true
    end).

(** The message and the banner of a fire that produced text. *)
Definition deliverCron (r : nat) (body : text) (m : Moment) (reading : nat) : M Scheduler text () :=
  withJob r () (λ active,
    if default true (jobDeliver active) && negb (bool_decide (body = [])) then
      appendGeneratedAssistantMessage (jobConversationId active) (CronMessage body (jobId active) (jobName active)) m reading;;;
      fireOsNotification (default (u "Stella") (nonEmpty (trim (jobName active)))) body (jobConversationId active) FromCron (jobId active)
    else ret ()).

Definition previewOf (body : text) : option text := truncatePreview <$> nonEmpty body.

(** The bookkeeping at the end of a run, and its two ways to finish. *)
Definition markFinished (r : nat) (startedAt finishedAt : Z) : M Scheduler text () :=
  changeJob r (λ job, setJobUpdatedAt finishedAt (setJobRan finishedAt (finishedAt - startedAt) (setJobRunningAtMs None job))).
Definition finishCron (r : nat) (finishedAt : Z) (failed : bool) : M Scheduler text (Point + RunOutcome) :=
  let* _ := advanceCronAfterRun r finishedAt failed in
  persistState;;; ret (inr Done).

(** A runner that is busy, or gone. *)
Definition markBusy (r : nat) (now : Z) : M Scheduler text (Point + RunOutcome) :=
  changeJob r (λ job, setJobUpdatedAt now (setJobRunningAtMs None job));;; persistState;;; ret (inr Busy).

Definition executeCronNotify (r : nat) (startedAt : Z) (m : Moment) : M Scheduler text (Point + RunOutcome) :=
  withJob r (inr Done) (λ active,
    match jobPayload active with
    | Notify message =>
        let finishedAt := clock m 2 in
        let body := trim message in
        markFinished r startedAt finishedAt;;;
        changeJob r (setJobOutcome (if bool_decide (body = []) then u "no-response" else u "ok") None (previewOf body));;;
        deliverCron r body m 3;;;
        finishCron r finishedAt false
    | _ => ret (inr Done)
    end).

Definition startTurn (turn : AutomationTurn) (point : Point) : M Scheduler text (Point + RunOutcome) :=
  emit (TurnStarted turn);;; ret (inl point).

Definition orchestratorTurn (conversationId prompt : text) : AutomationTurn :=
  {| turnConversationId := conversationId; userPrompt := prompt; localStorage := false; turnAgentType := u "orchestrator" |}.

(** The turn a watch escalates with. *)
Definition escalate (r : nat) (path : text) (escalation : Escalation) : M Scheduler text (Point + RunOutcome) :=
  withJob r (inr Done) (λ active,
    let prompt := match reason escalation with
      | Change => buildWatchChangePrompt (jobName active) (summary escalation)
      | SensorError => buildWatchFailurePrompt (jobName active) path (summary escalation)
      end in
    startTurn (orchestratorTurn (jobConversationId active) prompt) (WatchTurn path escalation)).

(** Raises the flag of a run. *)
Definition beginRun (r : nat) (startedAt : Z) : M Scheduler text () :=
  changeJob r (λ job, setJobUpdatedAt startedAt (clearJobError (setJobRunningAtMs (Some startedAt) job)));;; persistState.

(** The executor of a payload, up to its first await. *)
Definition runPayload (r : nat) (active : LocalCronJobRecord) (runner : bool) (startedAt : Z) (m : Moment) : M Scheduler text (Point + RunOutcome) :=
  match jobPayload active with
  | Notify _ => executeCronNotify r startedAt m
  | Script path => ret (inl (ScriptAuth path))
  | Task prompt =>
      if negb runner then markBusy r (clock m 2)
      else startTurn (orchestratorTurn (jobConversationId active) (buildTaskFirePrompt (jobName active) prompt)) TaskTurn
  | Watch path =>
      if negb runner then markBusy r (clock m 2)
      else match pendingEscalation active with
           | Some escalation => escalate r path escalation
           | None => ret (inl (WatchAuth path))
           end
  | Agent prompt agentType =>
      if negb runner then markBusy r (clock m 2)
      else startTurn {| turnConversationId := jobConversationId active; userPrompt := prompt; localStorage := true;
                        turnAgentType := default (u "general") agentType |} AgentTurn
  end.

(** The part of [executeCronJob] and of what it calls that runs before its first await. *)
Definition executeCronJob (id : text) (runner : bool) (m : Moment) : M Scheduler text (Point + RunOutcome) :=
  let* found := gets (findJob id) in
  match found with
  | None => ret (inr Done)
  | Some (r, active) =>
      if negb (jobEnabled active) then ret (inr Done)
      else beginRun r (clock m 1);;; runPayload r active runner (clock m 1) m
  end.

(** What an awaited operation settles with. *)
Inductive Answer :=
  | AuthEnv (authEnv : option (list (text * text)))
  | ScriptRan (result : ScriptRunResult)
  | ScriptFailed (message : text)
  | TurnOk (finalText : text)
  | TurnBusy
  | TurnError (error : text)
  | TurnRejected (error : text).

Definition numeral (z : Z) : text := u (pretty z).

(** [runResult] for a script that could not be run. *)
Definition scriptResult (answer : Answer) (startedAt now : Z) : option ScriptRunResult :=
  match answer with
  | ScriptRan result => Some result
  | ScriptFailed message => Some {| exitCode := -1; stdout := []; stderr := message; durationMs := now - startedAt; timedOut := false |}
  | _ => None
  end.

Definition scriptError (result : ScriptRunResult) : text :=
  let head := if timedOut result then u "script timed out after " ++ numeral (durationMs result) ++ u "ms"
              else u "exit " ++ numeral (exitCode result) in
  let stderrTrim := trim (stderr result) in
  truncatePreview (join [newline] (if bool_decide (stderrTrim = []) then [head] else [head; stderrTrim])).

Definition executeCronScript (r : nat) (startedAt : Z) (result : ScriptRunResult) (m : Moment) : M Scheduler text (Point + RunOutcome) :=
  let finishedAt := clock m 1 in
  markFinished r startedAt finishedAt;;;
  if negb (exitCode result =? 0) then
    changeJob r (setJobOutcome (if timedOut result then u "timeout" else u "error") (Some (scriptError result)) None);;;
    finishCron r finishedAt true
  else
    let body := trim (stdout result) in
    changeJob r (setJobOutcome (if bool_decide (body = []) then u "no-response" else u "ok") None (previewOf body));;;
    deliverCron r body m 2;;;
    finishCron r finishedAt false.

(** The turn of a task or an agent has settled. *)
Definition finishTurn (r : nat) (startedAt : Z) (answer : Answer) (m : Moment) : option (M Scheduler text (Point + RunOutcome)) :=
  match answer with
  | TurnBusy => Some (markBusy r (clock m 0))
  | TurnRejected error => Some (throw error)
  | TurnError error => Some (
      markFinished r startedAt (clock m 0);;;
      changeJob r (setJobOutcome (u "error") (Some error) None);;;
      finishCron r (clock m 0) true)
  | TurnOk finalText => Some (
      let body := trim finalText in
      markFinished r startedAt (clock m 0);;;
      changeJob r (setJobOutcome (if bool_decide (body = []) then u "no-response" else u "ok") None (previewOf body));;;
      deliverCron r body m 1;;;
      finishCron r (clock m 0) false)
  | _ => None
  end.

(** What the script of a watch has to tell: a change it printed, or that it failed. *)
Definition escalationOf (result : ScriptRunResult) (checkedAt : Z) : option Escalation :=
  if exitCode result =? 0 then
    let body := trim (stdout result) in
    if bool_decide (body = []) then None else Some {| reason := Change; summary := body; escalatedAtMs := checkedAt |}
  else Some {| reason := SensorError; summary := scriptError result; escalatedAtMs := checkedAt |}.

(** The script of a watch has run. *)
Definition checkWatch (r : nat) (path : text) (startedAt : Z) (result : ScriptRunResult) (m : Moment) : M Scheduler text (Point + RunOutcome) :=
  let checkedAt := clock m 1 in
  changeJob r (setJobRan checkedAt (checkedAt - startedAt));;;
  match escalationOf result checkedAt with
  | None =>
      changeJob r (λ job, setJobOutcome (u "no-change") None None (setJobRunningAtMs None job));;;
      finishCron r checkedAt false
  | Some escalation => escalate r path escalation
  end.

(** The turn of a watch has settled. *)
Definition finishWatch (r : nat) (startedAt : Z) (escalation : Escalation) (answer : Answer) (m : Moment)
    : option (M Scheduler text (Point + RunOutcome)) :=
  let settled := changeJob r (setPendingEscalation None);;; markFinished r startedAt (clock m 0) in
  match answer with
  | TurnBusy => Some (changeJob r (setPendingEscalation (Some escalation));;; markBusy r (clock m 0))
  | TurnRejected error => Some (throw error)
  | TurnError error => Some (
      settled;;; changeJob r (setJobOutcome (u "error") (Some error) None);;; finishCron r (clock m 0) true)
  | TurnOk finalText => Some (
      let body := trim finalText in
      settled;;;
      changeJob r (match reason escalation with
        | Change => setJobOutcome (if bool_decide (body = []) then u "no-response" else u "ok") None (previewOf body)
        | SensorError => setJobOutcome (u "sensor-error") (Some (summary escalation)) (previewOf body)
        end);;;
      deliverCron r body m 1;;;
      finishCron r (clock m 0) false)
  | _ => None
  end.

(** ** Heartbeats *)

Definition markSkipped (r : nat) (startedAt : Z) (status : text) : M Scheduler text (Point + RunOutcome) :=
  changeHeartbeat r (λ config,
    setHeartbeatUpdatedAt startedAt
      (setHeartbeatNextRunAtMs (startedAt + normalizeIntervalMs (Some (Whole (intervalMs config))))
        (setHeartbeatStatus status (setHeartbeatLastRunAtMs startedAt (setHeartbeatRunningAtMs None config)))));;;
  persistState;;; ret (inr Done).

Definition beginHeartbeat (r : nat) (startedAt : Z) : M Scheduler text () :=
  changeHeartbeat r (λ config, setHeartbeatUpdatedAt startedAt (setHeartbeatError None (setHeartbeatRunningAtMs (Some startedAt) config)));;;
  persistState.

(** The part of [executeHeartbeat] before its turn. *)
Definition executeHeartbeat (id : text) (m : Moment) : M Scheduler text (Point + RunOutcome) :=
  let* found := gets (findHeartbeat (λ config, bool_decide (heartbeatId config = id))) in
  match found with
  | None => ret (inr Done)
  | Some (r, active) =>
      if negb (heartbeatEnabled active) then ret (inr Done) else
      let startedAt := clock m 1 in
      beginHeartbeat r startedAt;;;
      if negb (isWithinActiveHours (zones env) (activeHours active) startedAt) then markSkipped r startedAt (u "skipped:quiet-hours")
      else if isSome (checklist active ≫= nonEmpty) && isHeartbeatContentEffectivelyEmpty (checklist active)
      then markSkipped r startedAt (u "skipped:empty-checklist")
      else startTurn {| turnConversationId := heartbeatConversationId active;
                        userPrompt := resolveHeartbeatPrompt (heartbeatPrompt active) (checklist active);
                        localStorage := true; turnAgentType := default (u "orchestrator") (heartbeatAgentType active) |} HeartbeatTurn
  end.

Definition isDuplicate (config : LocalHeartbeatConfigRecord) (finalText : text) (finishedAt : Z) : bool :=
  let dedupeText := asTrimmedString (lastSentText config) in
  let lastSent := default 0 (lastSentAtMs config) in
  negb (bool_decide (dedupeText = [])) && bool_decide (dedupeText = finalText) && (0 <? lastSent)
  && (finishedAt - lastSent <? DUPLICATE_SUPPRESSION_MS).

Definition noteHeartbeat (r : nat) (status : text) (error : option text) : M Scheduler text (Point + RunOutcome) :=
  changeHeartbeat r (λ config, setHeartbeatError error (setHeartbeatStatus status config));;; persistState;;; ret (inr Done).

(** The turn of a heartbeat has settled. *)
Definition finishHeartbeat (r : nat) (answer : Answer) (m : Moment) : option (M Scheduler text (Point + RunOutcome)) :=
  let finishedAt := clock m 0 in
  let settled := changeHeartbeat r (λ config,
    setHeartbeatUpdatedAt finishedAt
      (setHeartbeatNextRunAtMs (finishedAt + normalizeIntervalMs (Some (Whole (intervalMs config))))
        (setHeartbeatLastRunAtMs finishedAt (setHeartbeatRunningAtMs None config)))) in
  match answer with
  | TurnBusy => Some (
      changeHeartbeat r (λ config, setHeartbeatUpdatedAt finishedAt (setHeartbeatRunningAtMs None config));;;
      persistState;;; ret (inr Busy))
  | TurnRejected error => Some (throw error)
  | TurnError error => Some (settled;;; noteHeartbeat r (u "failed") (Some error))
  | TurnOk finalText => Some (
      let body := trim finalText in
      settled;;;
      if bool_decide (body = []) then noteHeartbeat r (u "no-response") None else
      withHeartbeat r (inr Done) (λ active,
        if isDuplicate active body finishedAt then noteHeartbeat r (u "skipped:duplicate") None
        else if default true (heartbeatDeliver active) then
          appendGeneratedAssistantMessage (heartbeatConversationId active) (HeartbeatMessage body (heartbeatId active)) m 1;;;
          fireOsNotification (u "Stella check-in") body (heartbeatConversationId active) FromHeartbeat (heartbeatId active);;;
          changeHeartbeat r (setLastSent body finishedAt);;;
          noteHeartbeat r (u "sent") None
        else noteHeartbeat r (u "completed") None))
  | _ => None
  end.

(** ** What runs when an awaited operation settles *)

Definition resume (item : Item) (startedAt : Z) (point : Point) (answer : Answer) (m : Moment)
    : option (M Scheduler text (Point + RunOutcome)) :=
  match item, point with
  | CronItem r, ScriptAuth path =>
      match answer with AuthEnv auth => Some (emit (ScriptStarted path auth);;; ret (inl (ScriptRun path))) | _ => None end
  | CronItem r, ScriptRun _ => (λ result, executeCronScript r startedAt result m) <$> scriptResult answer startedAt (clock m 0)
  | CronItem r, WatchAuth path =>
      match answer with AuthEnv auth => Some (emit (ScriptStarted path auth);;; ret (inl (WatchRun path))) | _ => None end
  | CronItem r, WatchRun path => (λ result, checkWatch r path startedAt result m) <$> scriptResult answer startedAt (clock m 0)
  | CronItem r, WatchTurn _ escalation => finishWatch r startedAt escalation answer m
  | CronItem r, (TaskTurn | AgentTurn) => finishTurn r startedAt answer m
  | HeartbeatItem r, HeartbeatTurn => finishHeartbeat r answer m
  | _, _ => None
  end.

Definition phaseOf (result : text + (Point + RunOutcome)) : Phase :=
  match result with
  | inl error => Settled (inl error)
  | inr (inl point) => Awaiting point
  | inr (inr outcome) => Settled (inr outcome)
  end.

(** ** Ticks *)

(** The finalizer of a tick. *)
Definition endTick (fiber : nat) (nextDelayOverride : option Z) (now : Z) (s : Scheduler) : Scheduler :=
  (scheduleNextTick nextDelayOverride now (setTicks false (delete fiber (ticks s)) s)).1.

(** The object that [executeCronJob] or [executeHeartbeat] finds for what is due, and its first stretch. *)
Definition targetOf (item : DueItem) (s : Scheduler) : Item :=
  match item with
  | DueCron r job => CronItem (default r (fst <$> findJob (jobId job) s))
  | DueHeartbeat r config => HeartbeatItem (default r (fst <$> findHeartbeat (λ c, bool_decide (heartbeatId c = heartbeatId config)) s))
  end.
Definition beginItem (item : DueItem) (m : Moment) : M Scheduler text (Point + RunOutcome) :=
  match item with
  | DueCron r job => executeCronJob (jobId job) (requiresRunner item) m
  | DueHeartbeat r config => executeHeartbeat (heartbeatId config) m
  end.

(** [drainLoop]: one turn of it, up to the promise of an execution. *)
Definition drainLoop (fiber scope : nat) (m : Moment) (s : Scheduler) : Scheduler :=
  if negb (started s) then endTick fiber None (clock m 1) s
  else match getNextDueItem (clock m 0) s with
  | None => endTick fiber None (clock m 1) s
  | Some item =>
      if requiresRunner item && negb (runnerReady m) then endTick fiber (Some 5000) (clock m 1) s
      else
        let '(s', result) := beginItem item m s in
        let execution := {| executing := targetOf item s; startedAt := clock m 1; phase := phaseOf result |} in
        setFresh (S (fresh s'))
          (setTicks true (<[fiber := {| tickScope := scope; awaiting := fresh s' |}]> (ticks s'))
            (setExecutions (<[fresh s' := execution]> (executions s')) s'))
  end.

(** The delay fiber wakes as [timerFiber] and runs [runDueItemsEffect]. *)
Definition wake (t : Timer) (m : Moment) (s : Scheduler) : Scheduler :=
  let s := setTimer None s in
  if negb (started s) || tickInFlight s then s
  else drainLoop (timerId t) (timerScope t) m (setTicks true (ticks s) s).

(** The promise of its execution has settled: the fiber goes on. *)
Definition continueTick (fiber : nat) (tick : Tick) (result : text + RunOutcome) (m : Moment) (s : Scheduler) : Scheduler :=
  match result with
  | inl _ => endTick fiber None (clock m 0) s
  | inr Busy => endTick fiber (Some 5000) (clock m 0) s
  | inr Done => drainLoop fiber (tickScope tick) m s
  end.
End Service.

(** ** The service as a system *)

Inductive Call :=
  | AddCronJob (input : CronJobInput)
  | UpdateCronJob (id : text) (patch : CronJobPatch)
  | RemoveCronJob (id : text)
  | RunCronJob (id : text)
  | UpsertHeartbeat (input : HeartbeatInput)
  | RunHeartbeat (conversationId : text).

Inductive Event :=
  | Start (directory : option (list text))
  | Stop
  | Called (call : Call)
  | Woke
  | Answered (execution : nat) (answer : Answer)
  | Continued (fiber : nat)
  | Interrupted (fiber : nat).

Definition runCall (env : SchedulerEnv) (call : Call) (m : Moment) (s : Scheduler) : Scheduler :=
  match call with
  | AddCronJob input => (addCronJob env input m s).1
  | UpdateCronJob id patch => (updateCronJob env id patch m s).1
  | RemoveCronJob id => (removeCronJob id m s).1
  | RunCronJob id => (runCronJob id m s).1
  | UpsertHeartbeat input => (upsertHeartbeat input m s).1
  | RunHeartbeat conversationId => (runHeartbeat conversationId m s).1
  end.

(** [None]: the event cannot happen here. *)
Definition step (env : SchedulerEnv) (event : Event) (m : Moment) (s : Scheduler) : option Scheduler :=
  match event with
  | Start directory => Some (start env directory m s).1
  | Stop => Some (stop s).1
  | Called call => Some (runCall env call m s)
  | Woke => (λ t, wake env t m s) <$> timerFiber s
  | Answered e answer =>
      match executions s !! e with
      | Some execution =>
          match phase execution with
          | Awaiting point =>
              (λ run : M Scheduler text (Point + RunOutcome),
                let '(s', result) := run s in
                setExecutions (<[e := {| executing := executing execution; startedAt := startedAt execution; phase := phaseOf result |}]> (executions s')) s')
              <$> resume env (executing execution) (startedAt execution) point answer m
          | Settled _ => None
          end
      | None => None
      end
  | Continued fiber =>
      match ticks s !! fiber with
      | Some tick =>
          match executions s !! awaiting tick with
          | Some {| phase := Settled result |} => Some (continueTick env fiber tick result m s)
          | _ => None
          end
      | None => None
      end
  | Interrupted fiber =>
      match ticks s !! fiber with
      | Some tick => if bool_decide (tickScope tick ∈ closing s) then Some (endTick fiber None (clock m 0) s) else None
      | None => None
      end
  end.

Definition initial (file : option StateFile) : Scheduler := {|
  cronHeap := ∅; heartbeatHeap := ∅; cronJobs := []; heartbeats := []; generatedEvents := ∅; disk := file;
  started := false; serviceScope := None; closing := []; timerFiber := None; tickInFlight := false; ticks := ∅;
  executions := ∅; fresh := 0; outputs := [];
|}.

Fixpoint runEvents (env : SchedulerEnv) (events : list (Event * Moment)) (s : Scheduler) : option Scheduler :=
  match events with
  | [] => Some s
  | (event, m) :: events => match step env event m s with Some s => runEvents env events s | None => None end
  end.
