(* ===== verification/SchedulerOrder.v ===== *)
(** * When a job is due, and in which order messages are kept

    The grid of an interval schedule, the choice of the item a tick runs next, the stable order of
    the messages of a conversation, and the active hours as an arc of the day. *)

From Corelib Require Import ssreflect SpecFloat.
From stdpp Require Import prelude gmap strings sorting.
From S2P Require Import Prelude JsNumber Text HostPaths SchedulerRecords Scheduler.

#[local] Open Scope Z_scope.

(** ** Interval schedules *)

(** The start of the grid of an interval, and its period. *)
Definition gridStart (anchorMs : option num) (nowMs : Z) : Z := Z.max 0 (match anchorMs with Some a => numFloor a | None => nowMs end).
Definition period (everyMs : Z) : Z := Z.max 1 everyMs.

(** the next run of an interval schedule is the first point of its grid that is not in the past:
    never before now, the start of the grid exactly while that is ahead, else at least one period
    after it and no later than any such point; it is now itself exactly if now is such a point. *)
Theorem next_run_is_the_next_grid_point cronNextRun everyMs anchorMs nowMs next :
  computeNextRunAtMs cronNextRun (Every everyMs anchorMs) nowMs = inr next →
  let a := gridStart anchorMs nowMs in
  let p := period everyMs in
  nowMs ≤ next
  ∧ (∃ k, 0 ≤ k ∧ next = a + k * p ∧ (k = 0 ↔ nowMs < a))
  ∧ (∀ j, 1 ≤ j → nowMs ≤ a + j * p → next ≤ a + j * p)
  ∧ (next = nowMs ↔ ∃ j, 1 ≤ j ∧ nowMs = a + j * p).
Proof.
  unfold computeNextRunAtMs. fold (gridStart anchorMs nowMs) (period everyMs).
  set (a := gridStart anchorMs nowMs). set (p := period everyMs).
  assert (1 ≤ p) by (unfold p, period; lia). clearbody a p.
  destruct (Z.ltb_spec nowMs a) as [Hbefore|Hafter]; intros [= Hnext]; subst next.
  - split_and!; [lia|exists 0; lia|nia|]. split; [lia|intros (j & Hj & ->); nia].
  - set (q := (nowMs - a + p - 1) / p).
    assert (p * q ≤ nowMs - a + p - 1 < p * q + p).
    { pose proof (Z.mul_div_le (nowMs - a + p - 1) p ltac:(lia)).
      pose proof (Z.mul_succ_div_gt (nowMs - a + p - 1) p ltac:(lia)). unfold q. lia. } clearbody q.
    destruct (Z.max_spec 1 q) as [[Hq ->]|[Hq ->]].
    + split_and!; [nia|exists q; split_and!; [lia|done|lia]| |].
      * intros j Hj Hnow. assert (q ≤ j); [|nia]. destruct (Z.le_gt_cases q j); [done|nia].
      * split; [intros Heq; exists q; nia|]. intros (j & Hj & Hnow).
        assert (q ≤ j) by (destruct (Z.le_gt_cases q j); [done|nia]). nia.
    + split_and!; [nia|exists 1; split_and!; [lia|done|lia]|intros; nia|].
      split; [intros Heq; exists 1; lia|]. intros (j & Hj & Hnow). assert (j = 1) by nia. nia.
Qed.

Lemma next_run_is_the_next_grid_point_witness :
  computeNextRunAtMs (λ _ _ _, None) (Every 60000 (Some (Whole 1000))) 130000 = inr 181000
  ∧ 130000 ≤ 181000.
Proof.
  split; [reflexivity|].
  apply (next_run_is_the_next_grid_point (λ _ _ _, None) 60000 (Some (Whole 1000)) 130000 181000). reflexivity.
Defined.

(** ** Stable insertion *)

Section Sorting.
Context {A : Type} (compare : A → A → Z).

Definition le_ (a b : A) : Prop := compare a b ≤ 0.

(** What [localeCompare] documents: opposite signs the other way round, and a transitive order. *)
Definition Comparator : Prop :=
  (∀ a b, 0 < compare a b ↔ compare b a < 0) ∧ (∀ a b c, compare a b ≤ 0 → compare b c ≤ 0 → compare a c ≤ 0).

Lemma sortBy_snoc l x : sortBy compare (l ++ [x]) = insertSorted compare x (sortBy compare l).
Proof. unfold sortBy. by rw foldl_app. Qed.

Lemma insertSorted_last l x : Forall (λ y, le_ y x) l → insertSorted compare x l = l ++ [x].
Proof.
  induction 1 as [|y l Hy _ IH]; [done|]. simpl. destruct (Z.ltb_spec 0 (compare y x)); [unfold le_ in Hy; lia|]. by rw IH.
Qed.

Lemma insertSorted_perm l x : insertSorted compare x l ≡ₚ x :: l.
Proof. induction l as [|y l IH]; simpl; [done|]. destruct (0 <? compare y x); [done|]. rw IH. by apply Permutation_swap. Qed.

Context (law : Comparator).

Lemma le_total a b : le_ a b ∨ le_ b a.
Proof using law. destruct law as [Hsign _]. unfold le_. destruct (Z.le_gt_cases (compare a b) 0); [by left|right]. apply Hsign in H. lia. Qed.

Lemma sorted_snoc_last l z : StronglySorted le_ (l ++ [z]) → Forall (λ y, le_ y z) l.
Proof.
  induction l as [|y l IH]; [done|]. simpl. intros Hs. inversion_clear Hs as [|? ? Hl Hy].
  constructor; [|by apply IH]. apply Forall_app in Hy as [_ Hz]. by inversion_clear Hz.
Qed.

Lemma sorted_sortBy l : StronglySorted le_ l → sortBy compare l = l.
Proof.
  induction l as [|x l IH] using rev_ind; [done|]. intros Hs. rw sortBy_snoc IH.
  - clear IH. induction l as [|y l IHl]; [constructor|]. simpl in Hs. inversion_clear Hs as [|? ? Hl Hy].
    constructor; [by apply IHl|]. by apply Forall_app in Hy as [Hy _].
  - by apply insertSorted_last, sorted_snoc_last.
Qed.

Lemma insertSorted_sorted l x : StronglySorted le_ l → StronglySorted le_ (insertSorted compare x l).
Proof using law.
  induction 1 as [|y l Hl IH Hy]; simpl; [by repeat constructor|].
  destruct law as [Hsign Htrans]. destruct (Z.ltb_spec 0 (compare y x)) as [Hgt|Hle].
  - constructor; [by constructor|]. apply Hsign in Hgt. constructor; [unfold le_; lia|].
    eapply Forall_impl; [exact Hy|]. intros z Hz. unfold le_ in *. eapply Htrans; [|exact Hz]. lia.
  - constructor; [done|]. apply Forall_forall. intros z. rw insertSorted_perm elem_of_cons.
    intros [->|Hz]; [done|]. by eapply Forall_forall in Hy.
Qed.

Lemma sortBy_sorted l : StronglySorted le_ (sortBy compare l).
Proof using law. induction l as [|x l IH] using rev_ind; [constructor|]. rw sortBy_snoc. by apply insertSorted_sorted. Qed.

Lemma sortBy_perm l : sortBy compare l ≡ₚ l.
Proof.
  induction l as [|x l IH] using rev_ind; [done|]. rw sortBy_snoc insertSorted_perm IH. by rw Permutation_app_comm.
Qed.
End Sorting.

(** ** The messages of a conversation *)

Section Events.
Context (localeCompare : text → text → Z).

Lemma compareEvents_law : Comparator localeCompare → Comparator (compareEvents localeCompare).
Proof.
  intros [Hsign Htrans]. unfold Comparator, compareEvents. split.
  - intros a b. destruct (Z.eqb_spec (timestamp a) (timestamp b)), (Z.eqb_spec (timestamp b) (timestamp a)); simpl; try lia. apply Hsign.
  - intros a b c. destruct (Z.eqb_spec (timestamp a) (timestamp b)), (Z.eqb_spec (timestamp b) (timestamp c)),
      (Z.eqb_spec (timestamp a) (timestamp c)); simpl; try lia. apply Htrans.
Qed.

Lemma spliceBefore_insertSorted event l : spliceBefore localeCompare event l = insertSorted (compareEvents localeCompare) event l.
Proof.
  induction l as [|y l IH]; [done|]. simpl. rw IH. unfold compareEvents.
  destruct (Z.eqb_spec (timestamp y) (timestamp event)) as [->|Hne]; simpl.
  - by rw Z.ltb_irrefl.
  - rw orb_false_r. destruct (Z.ltb_spec (timestamp event) (timestamp y)), (Z.ltb_spec 0 (timestamp y - timestamp event)); done || lia.
Qed.

Definition inOrder (l : list ScheduledConversationEvent) : Prop := StronglySorted (le_ (compareEvents localeCompare)) l.

Lemma insertEventAscending_insertSorted l event :
  Comparator localeCompare → inOrder l → insertEventAscending localeCompare l event = insertSorted (compareEvents localeCompare) event l.
Proof.
  intros Hlaw%compareEvents_law Hl. unfold insertEventAscending. rw spliceBefore_insertSorted.
  destruct (last l) as [final|] eqn:Hlast; [|by apply last_None in Hlast as ->].
  apply last_Some in Hlast as [front ->]. case_match eqn:Hfast; [|done].
  assert (Hle : le_ (compareEvents localeCompare) final event).
  { unfold le_, compareEvents. destruct (Z.eqb_spec (timestamp final) (timestamp event)); simpl.
    - apply orb_true_iff in Hfast as [?%Z.ltb_lt|[_ ?%Z.leb_le]%andb_true_iff]; lia.
    - rw orb_false_r in Hfast. apply Z.ltb_lt in Hfast. lia. }
  rw insertSorted_last //. apply Forall_app; split; [|by constructor].
  eapply Forall_impl; [by eapply sorted_snoc_last|]. intros y Hy. destruct Hlaw as [_ Htrans]. exact (Htrans _ _ _ Hy Hle).
Qed.

Lemma insertEventAscending_inOrder l event :
  Comparator localeCompare → inOrder l → inOrder (insertEventAscending localeCompare l event).
Proof. intros Hlaw Hl. rw insertEventAscending_insertSorted //. by apply insertSorted_sorted; [apply compareEvents_law|]. Qed.

Lemma inOrder_drop n l : inOrder l → inOrder (drop n l).
Proof. revert n. induction l as [|x l IH]; intros [|n] Hl; simpl; try done. inversion_clear Hl. by apply IH. Qed.

(** putting a message into the messages of a conversation, by its fast path at the end or by
    looking for its place, is the stable sort of the messages with the new one behind them; it keeps
    them in order, so reading them back from the file changes nothing. *)
Theorem insert_is_a_stable_sort l event :
  Comparator localeCompare → inOrder l →
  insertEventAscending localeCompare l event = sortEventsAscending localeCompare (l ++ [event])
  ∧ inOrder (insertEventAscending localeCompare l event)
  ∧ sortEventsAscending localeCompare (insertEventAscending localeCompare l event) = insertEventAscending localeCompare l event.
Proof.
  intros Hlaw Hl. pose proof (insertEventAscending_inOrder l event Hlaw Hl) as Hnew. split_and!; [|done|by apply sorted_sortBy].
  unfold sortEventsAscending. by rw sortBy_snoc sorted_sortBy // insertEventAscending_insertSorted.
Qed.

(** A bucket as the scheduler keeps it. *)
Definition goodBucket (l : list ScheduledConversationEvent) : Prop :=
  inOrder l ∧ (0 < length l ≤ MAX_GENERATED_EVENTS_PER_CONVERSATION)%nat.

Lemma length_insertSorted {A} (compare : A → A → Z) x l : length (insertSorted compare x l) = S (length l).
Proof. induction l as [|y l IH]; simpl; [done|]. case_match; simpl; lia. Qed.

Lemma length_insertEventAscending l event : length (insertEventAscending localeCompare l event) = S (length l).
Proof.
  unfold insertEventAscending. rw spliceBefore_insertSorted. repeat case_match; rw ?length_app ?length_insertSorted /=; lia.
Qed.

Lemma capEvents_good l : inOrder l → l ≠ [] → goodBucket (capEvents l).
Proof.
  intros Hl Hne. split; [by apply inOrder_drop|]. unfold capEvents. rw length_drop. unfold MAX_GENERATED_EVENTS_PER_CONVERSATION.
  destruct l; [done|]. simpl. lia.
Qed.

Lemma capEvents_id l : goodBucket l → capEvents (sortEventsAscending localeCompare l) = l.
Proof.
  intros [Hl Hlen]. unfold sortEventsAscending. rw sorted_sortBy //. unfold capEvents.
  by replace (length l - MAX_GENERATED_EVENTS_PER_CONVERSATION)%nat with 0%nat by lia.
Qed.
End Events.

(** Identifiers compared by their lengths, as one order that obeys the law. *)
Definition byLength (a b : text) : Z := Z.of_nat (length a) - Z.of_nat (length b).

Lemma byLength_law : Comparator byLength.
Proof. unfold byLength. split; intros; lia. Qed.

Definition sampleEvent (id : text) (at_ : Z) : ScheduledConversationEvent :=
  {| eventId := id; eventConversationId := u "c"; timestamp := at_; eventPayload := HeartbeatMessage (u "hi") (u "h") |}.

Lemma insert_is_a_stable_sort_witness :
  insertEventAscending byLength [sampleEvent (u "a") 1; sampleEvent (u "b") 5] (sampleEvent (u "c") 3)
  = sortEventsAscending byLength ([sampleEvent (u "a") 1; sampleEvent (u "b") 5] ++ [sampleEvent (u "c") 3]).
Proof.
  apply (insert_is_a_stable_sort byLength); [exact byLength_law|].
  repeat constructor; unfold le_, compareEvents; simpl; lia.
Defined.

(** ** The item a tick runs next *)

Lemma difference_law {A} (key : A → Z) : Comparator (λ a b, key a - key b).
Proof. split; intros; lia. Qed.

Lemma firstDue_Some {A} (ready : A → bool) (key : A → Z) now l r a :
  firstDue ready key now l = Some (r, a) →
  (r, a) ∈ l ∧ ready a = true ∧ key a ≤ now ∧ ∀ r' a', (r', a') ∈ l → ready a' = true → key a' ≤ now → key a ≤ key a'.
Proof.
  unfold firstDue. set (due := List.filter _ l). set (compare := λ a b : nat * A, key a.2 - key b.2). intros Hhead.
  pose proof (sortBy_perm compare due) as Hperm. pose proof (sortBy_sorted compare (difference_law _) due) as Hsorted.
  assert (Hmem : ∀ x, x ∈ due ↔ x ∈ l ∧ ready x.2 = true ∧ key x.2 ≤ now).
  { intros x. unfold due. rw !list_elem_of_In List.filter_In andb_true_iff Z.leb_le. done. }
  destruct (sortBy compare due) as [|x rest]; [done|]. injection Hhead as ->.
  assert ((r, a) ∈ due) as Hin by (rw -Hperm; by left). apply Hmem in Hin as (?&?&?). split_and!; [done..|].
  intros r' a' Hin' Hready Hkey. assert (Hdue : (r', a') ∈ due) by (by apply Hmem). rw -Hperm in Hdue.
  inversion_clear Hsorted as [|? ? _ Hall]. apply elem_of_cons in Hdue as [[= -> ->]|Hdue]; [lia|].
  eapply Forall_forall in Hall; [|exact Hdue]. unfold le_, compare in Hall. simpl in Hall. lia.
Qed.

Lemma firstDue_None {A} (ready : A → bool) (key : A → Z) now (l : list (nat * A)) :
  firstDue ready key now l = None → ∀ r a, (r, a) ∈ l → ready a = true → now < key a.
Proof.
  unfold firstDue. set (due := List.filter _ l). intros Hhead r a Hin Hready.
  destruct (Z.le_gt_cases (key a) now) as [Hle|]; [|done].
  assert (Hdue : (r, a) ∈ due).
  { unfold due. rw list_elem_of_In List.filter_In -list_elem_of_In andb_true_iff Z.leb_le. done. }
  pose proof (sortBy_perm (λ a b : nat * A, key a.2 - key b.2) due) as Hperm. rw -Hperm in Hdue.
  destruct (sortBy (λ a b : nat * A, key a.2 - key b.2) due); [by apply not_elem_of_nil in Hdue|done].
Qed.

Lemma elem_of_entries {A} (heap : gmap nat A) refs r a : (r, a) ∈ entries heap refs ↔ r ∈ refs ∧ heap !! r = Some a.
Proof.
  unfold entries. rw list_elem_of_omap. split.
  - intros (r' & Hin & Heq). destruct (heap !! r') eqn:E; simplify_eq/=. done.
  - intros [Hin Hheap]. exists r. by rw Hheap.
Qed.

(** The items of the lists that are enabled and not running, with their next run. *)
Definition idleAt (s : Scheduler) (item : Item) (at_ : Z) : Prop :=
  match item with
  | CronItem r => r ∈ cronJobs s ∧ ∃ job, cronHeap s !! r = Some job ∧ jobIdle job = true ∧ jobNextRunAtMs job = at_
  | HeartbeatItem r => r ∈ heartbeats s ∧ ∃ config, heartbeatHeap s !! r = Some config ∧ heartbeatIdle config = true ∧ heartbeatNextRunAtMs config = at_
  end.

#[global] Arguments idleAt : simpl never.

Definition itemOf (due : DueItem) : Item := match due with DueCron r _ => CronItem r | DueHeartbeat r _ => HeartbeatItem r end.
Definition dueAt (due : DueItem) : Z := match due with DueCron _ job => jobNextRunAtMs job | DueHeartbeat _ config => heartbeatNextRunAtMs config end.

Lemma idleAt_cron s r at_ :
  idleAt s (CronItem r) at_ ↔ ∃ job, (r, job) ∈ entries (cronHeap s) (cronJobs s) ∧ jobIdle job = true ∧ jobNextRunAtMs job = at_.
Proof.
  split; [intros (?&job&?&?&?)|intros (job & [??]%elem_of_entries & ? & ?); split; [done|]]; exists job; by rw ?elem_of_entries.
Qed.
Lemma idleAt_heartbeat s r at_ :
  idleAt s (HeartbeatItem r) at_ ↔ ∃ c, (r, c) ∈ entries (heartbeatHeap s) (heartbeats s) ∧ heartbeatIdle c = true ∧ heartbeatNextRunAtMs c = at_.
Proof.
  split; [intros (?&c&?&?&?)|intros (c & [??]%elem_of_entries & ? & ?); split; [done|]]; exists c; by rw ?elem_of_entries.
Qed.

(** a tick runs the item that has waited longest: the one [getNextDueItem] gives is enabled, idle
    and due, no other such item was due before it, and a heartbeat comes first only if no job was due
    as early; it gives none only if nothing that may run is due. *)
Theorem next_item_is_the_longest_due now s :
  match getNextDueItem now s with
  | Some due =>
      idleAt s (itemOf due) (dueAt due) ∧ dueAt due ≤ now
      ∧ (∀ item at_, idleAt s item at_ → at_ ≤ now → dueAt due ≤ at_)
      ∧ (∀ r r' at_, itemOf due = HeartbeatItem r → idleAt s (CronItem r') at_ → dueAt due < at_)
  | None => ∀ item at_, idleAt s item at_ → now < at_
  end.
Proof.
  pose proof (idleAt_cron s) as Hcron. pose proof (idleAt_heartbeat s) as Hheart.
  unfold getNextDueItem.
  destruct (firstDue jobIdle _ _ _) as [[r job]|] eqn:Ejob; [apply firstDue_Some in Ejob as (Hin & Hidle & Hdue & Hleast)|pose proof (firstDue_None _ _ _ _ Ejob) as Hnone];
    (destruct (firstDue heartbeatIdle _ _ _) as [[r' c]|] eqn:Ec; [apply firstDue_Some in Ec as (Hin' & Hidle' & Hdue' & Hleast')|pose proof (firstDue_None _ _ _ _ Ec) as Hnone']).
  - destruct (Z.leb_spec (jobNextRunAtMs job) (heartbeatNextRunAtMs c)); simpl.
    + split_and!; [apply Hcron; eauto|done| |done]. intros [r2|r2] at_ Hi Hat.
      * apply Hcron in Hi as (j & Hj & Hji & <-). by eapply Hleast.
      * apply Hheart in Hi as (j & Hj & Hji & <-). specialize (Hleast' _ _ Hj Hji Hat). lia.
    + split_and!; [apply Hheart; eauto|done| |].
      * intros [r2|r2] at_ Hi Hat.
        -- apply Hcron in Hi as (j & Hj & Hji & <-). specialize (Hleast _ _ Hj Hji Hat). lia.
        -- apply Hheart in Hi as (j & Hj & Hji & <-). by eapply Hleast'.
      * intros ? r2 at_ _ Hi. apply Hcron in Hi as (j & Hj & Hji & <-).
        destruct (Z.le_gt_cases (jobNextRunAtMs j) now) as [Hle|]; [|lia]. specialize (Hleast _ _ Hj Hji Hle). lia.
  - simpl. split_and!; [apply Hcron; eauto|done| |done]. intros [r2|r2] at_ Hi Hat.
    + apply Hcron in Hi as (j & Hj & Hji & <-). by eapply Hleast.
    + apply Hheart in Hi as (j & Hj & Hji & <-). specialize (Hnone' _ _ Hj Hji). lia.
  - simpl. split_and!; [apply Hheart; eauto|done| |].
    + intros [r2|r2] at_ Hi Hat.
      * apply Hcron in Hi as (j & Hj & Hji & <-). specialize (Hnone _ _ Hj Hji). lia.
      * apply Hheart in Hi as (j & Hj & Hji & <-). by eapply Hleast'.
    + intros ? r2 at_ _ Hi. apply Hcron in Hi as (j & Hj & Hji & <-). specialize (Hnone _ _ Hj Hji). lia.
  - intros [r2|r2] at_ Hi.
    + apply Hcron in Hi as (j & Hj & Hji & <-). by eapply Hnone.
    + apply Hheart in Hi as (j & Hj & Hji & <-). by eapply Hnone'.
Qed.

(** ** Active hours *)

Definition minutesOfDay : Z := 24 * 60.

Lemma parseActiveHoursTime_range allow24 raw minutes :
  parseActiveHoursTime allow24 raw = Some minutes → 0 ≤ minutes ≤ minutesOfDay ∧ (allow24 = false → minutes < minutesOfDay).
Proof.
  unfold parseActiveHoursTime, activeHoursTime, minutesOfDay.
  destruct raw as [|a [|b [|colon [|c [|d [|]]]]]]; try done.
  destruct (digit a) as [a'|] eqn:Ea, (digit b) as [b'|] eqn:Eb, (digit c) as [c'|] eqn:Ec, (digit d) as [d'|] eqn:Ed; try done.
  assert (Hdigit : ∀ x y, digit x = Some y → 0 ≤ y ≤ 9).
  { intros x y. unfold digit. destruct (_ && _)%N eqn:E; [|done]. apply andb_true_iff in E as [?%N.leb_le ?%N.leb_le]. intros [= <-]. lia. }
  apply Hdigit in Ea, Eb, Ec, Ed. destruct (_ && _) eqn:E; [|done].
  apply andb_true_iff in E as [[_ Ehour]%andb_true_iff ?%Z.leb_le].
  assert (10 * a' + b' ≤ 24) by (apply orb_true_iff in Ehour as [?%Z.ltb_lt|[?%Z.eqb_eq ?%Z.leb_le]%andb_true_iff]; lia).
  cbv beta iota. destruct (Z.eqb_spec (10 * a' + b') 24) as [_|Hne].
  - destruct (negb allow24) eqn:Eallow; [done|]. simpl. case_match; [done|]. intros [= <-]. apply negb_false_iff in Eallow as ->. split; [lia|done].
  - intros [= <-]. lia.
Qed.

(** the active hours of a heartbeat are an arc of the day: with both times readable and different,
    a minute is inside exactly if it follows the start by less than the length of the way from the
    start forward to the end, past midnight if the end is not later; anything unreadable, an unknown
    clock or equal times leave the heartbeat always active. *)
Theorem active_hours_are_an_arc_of_the_day zones active nowMs :
  match parseActiveHoursTime false (activeStart active), parseActiveHoursTime true (activeEnd active),
        resolveMinutesInTimeZone zones nowMs (resolveActiveHoursTimezone zones (activeTimezone active)) with
  | Some from, Some to, Some minute =>
      0 ≤ minute < minutesOfDay →
      isWithinActiveHours zones (Some active) nowMs
      = bool_decide (from = to) || ((minute - from) mod minutesOfDay <=? (to - from - 1) mod minutesOfDay)
  | _, _, _ => isWithinActiveHours zones (Some active) nowMs = true
  end.
Proof.
  unfold isWithinActiveHours.
  destruct (parseActiveHoursTime false _) as [from|] eqn:Efrom; [|done].
  destruct (parseActiveHoursTime true _) as [to|] eqn:Eto; [|done].
  destruct (resolveMinutesInTimeZone _ _ _) as [minute|]; [|by case_match].
  intros Hminute. apply parseActiveHoursTime_range in Efrom as [Hfrom Hfrom'], Eto as [Hto _]. specialize (Hfrom' eq_refl).
  unfold minutesOfDay in *. destruct (Z.eqb_spec from to) as [->|Hne]; [by rw bool_decide_true|]. rw bool_decide_false //=.
  assert (Hmod : ∀ z, -1440 ≤ z < 1440 → z mod 1440 = if z <? 0 then z + 1440 else z).
  { intros z Hz. destruct (Z.ltb_spec z 0).
    - symmetry. apply (Z.mod_unique_pos _ _ (-1)); lia.
    - apply Z.mod_small. lia. }
  change (24 * 60) with 1440 in *. rw !Hmod; [lia..|].
  destruct (Z.ltb_spec from to), (Z.ltb_spec (minute - from) 0), (Z.ltb_spec (to - from - 1) 0);
    destruct (Z.leb_spec from minute), (Z.ltb_spec minute to); simpl; try lia;
    symmetry; (apply Z.leb_le; lia) || (apply Z.leb_gt; lia).
Qed.
