(* ===== verification/SchedulerSafety.v ===== *)
(** * What holds of the scheduler at any time

    A stretch of an execution touches only the record it runs ([touches]); with the invariant [wf]
    of ticks, scopes and executions this gives that a started service runs one item at a time and
    that, with something to run, it always has a timer armed or a tick in flight. *)

From Corelib Require Import ssreflect SpecFloat.
From stdpp Require Import prelude gmap strings.
From S2P Require Import Prelude JsNumber Text HostPaths SchedulerRecords Scheduler SchedulerOrder.

#[local] Open Scope Z_scope.

(** ** What an execution touches *)

Definition control (s : Scheduler) :=
  (started s, serviceScope s, closing s, timerFiber s, tickInFlight s, ticks s, executions s, fresh s).

Record touches (item : Item) (s s' : Scheduler) : Prop := {
  touches_control : control s' = control s;
  touches_heartbeats : heartbeats s' = heartbeats s;
  touches_cronJobs : cronJobs s' `sublist_of` cronJobs s;
  touches_cronHeap : ∀ r, item ≠ CronItem r → cronHeap s' !! r = cronHeap s !! r;
  touches_heartbeatHeap : ∀ r, item ≠ HeartbeatItem r → heartbeatHeap s' !! r = heartbeatHeap s !! r;
  touches_cronDom : ∀ r, is_Some (cronHeap s' !! r) ↔ is_Some (cronHeap s !! r);
  touches_heartbeatDom : ∀ r, is_Some (heartbeatHeap s' !! r) ↔ is_Some (heartbeatHeap s !! r);
}.

#[export] Instance touches_preorder item : PreOrder (touches item).
Proof.
  split; [by split|]. intros s s' s'' [] []. split; [congruence|congruence|by etrans|..]; intros r.
  - intros Hr. by rw touches_cronHeap1 // touches_cronHeap0.
  - intros Hr. by rw touches_heartbeatHeap1 // touches_heartbeatHeap0.
  - by rw touches_cronDom1.
  - by rw touches_heartbeatDom1.
Qed.

Section walk.
Context (R : Scheduler → Scheduler → Prop) `{!PreOrder R}.

Lemma preserves_whenSome {A} (v : option A) f : (∀ a, preserves R (f a)) → preserves R (whenSome v f).
Proof. destruct v; simpl; [done|]. intros _. by apply preserves_ret. Qed.

Lemma preserves_check {A} (v : text + A) : preserves R (check v).
Proof. destruct v; [by apply preserves_throw|by apply preserves_ret]. Qed.

Lemma preserves_withJob {A} r (d : A) k : (∀ job, preserves R (k job)) → preserves R (withJob r d k).
Proof. intros Hk s. unfold withJob. by destruct (cronHeap s !! r); [apply Hk|]. Qed.

Lemma preserves_withHeartbeat {A} r (d : A) k : (∀ config, preserves R (k config)) → preserves R (withHeartbeat r d k).
Proof. intros Hk s. unfold withHeartbeat. by destruct (heartbeatHeap s !! r); [apply Hk|]. Qed.
End walk.

(** Walks a method down to its writes; what is known of a part of it ends the walk there. *)
Ltac walk_writes :=
  repeat first
    [ solve [eauto with stella]
    | apply preserves_ret; apply _
    | apply preserves_throw; apply _
    | apply preserves_gets; apply _
    | apply preserves_check; apply _
    | apply preserves_if
    | apply preserves_whenSome; [apply _|intros ?]
    | apply preserves_withJob; [apply _|intros ?]
    | apply preserves_withHeartbeat; [apply _|intros ?]
    | apply preserves_bind; [apply _| |intros ?]
    | match goal with |- preserves _ (match ?d with _ => _ end) => destruct d end ].

Lemma is_Some_alter {A} (f : A → A) (i j : nat) (m : gmap nat A) : is_Some (alter f i m !! j) ↔ is_Some (m !! j).
Proof. destruct (decide (i = j)) as [->|]; [rw lookup_alter_eq fmap_is_Some|rw lookup_alter_ne]; done. Qed.

Lemma bind_gets {A B} (f : Scheduler → A) (k : A → M Scheduler text B) s : bind (gets f) k s = k (f s) s.
Proof. done. Qed.

Section Touches.
Context (env : SchedulerEnv) (item : Item).

Lemma touches_persistState : preserves (touches item) persistState.
Proof. intros s. by split. Qed.
Lemma touches_emit o : preserves (touches item) (emit o).
Proof. intros s. by split. Qed.
Lemma touches_append c p m n : preserves (touches item) (appendGeneratedAssistantMessage env c p m n).
Proof. intros s. by split. Qed.
Lemma touches_changeJob r f : item = CronItem r → preserves (touches item) (changeJob r f).
Proof.
  intros -> s. split; simpl; try done; [|intros; apply is_Some_alter].
  intros r' Hr. apply lookup_alter_ne. congruence.
Qed.
Lemma touches_changeHeartbeat r f : item = HeartbeatItem r → preserves (touches item) (changeHeartbeat r f).
Proof.
  intros -> s. split; simpl; try done; [|intros; apply is_Some_alter].
  intros r' Hr. apply lookup_alter_ne. congruence.
Qed.
Lemma sublist_filter {A} (p : A → bool) (l : list A) : List.filter p l `sublist_of` l.
Proof. induction l as [|x l IH]; simpl; [done|]. by destruct (p x); constructor. Qed.
End Touches.

#[export] Hint Resolve touches_persistState touches_emit touches_append touches_changeJob touches_changeHeartbeat : stella.

Section Executions.
Context (env : SchedulerEnv).

Lemma touches_removeScriptFile item path : preserves (touches item) (removeScriptFile path).
Proof. unfold removeScriptFile. walk_writes. Qed.

Lemma touches_fireOsNotification item t b c src i : preserves (touches item) (fireOsNotification env t b c src i).
Proof. unfold fireOsNotification. walk_writes. Qed.

Hint Resolve touches_removeScriptFile touches_fireOsNotification : stella.

Lemma touches_advance r finishedAt failed : preserves (touches (CronItem r)) (advanceCronAfterRun env r finishedAt failed).
Proof.
  unfold advanceCronAfterRun, nextRun. walk_writes.
  intros s. split; simpl; try done. apply sublist_filter.
Qed.

Hint Resolve touches_advance : stella.

Lemma touches_deliverCron r body m n : preserves (touches (CronItem r)) (deliverCron env r body m n).
Proof. unfold deliverCron. walk_writes. Qed.
Lemma touches_markFinished r a b : preserves (touches (CronItem r)) (markFinished r a b).
Proof. unfold markFinished. walk_writes. Qed.
Lemma touches_finishCron r a b : preserves (touches (CronItem r)) (finishCron env r a b).
Proof. unfold finishCron. walk_writes. Qed.
Lemma touches_markBusy r a : preserves (touches (CronItem r)) (markBusy r a).
Proof. unfold markBusy. walk_writes. Qed.
Lemma touches_startTurn item t p : preserves (touches item) (startTurn t p).
Proof. unfold startTurn. walk_writes. Qed.
Lemma touches_escalate r p e : preserves (touches (CronItem r)) (escalate r p e).
Proof. unfold escalate, startTurn. walk_writes. Qed.

Hint Resolve touches_deliverCron touches_markFinished touches_finishCron touches_markBusy touches_startTurn touches_escalate : stella.

Lemma touches_finishTurn r startedAt answer m run :
  finishTurn env r startedAt answer m = Some run → preserves (touches (CronItem r)) run.
Proof. destruct answer; try done; intros [= <-]; walk_writes. Qed.

Lemma touches_finishWatch r startedAt escalation answer m run :
  finishWatch env r startedAt escalation answer m = Some run → preserves (touches (CronItem r)) run.
Proof. destruct answer; try done; intros [= <-]; walk_writes. Qed.

Lemma touches_finishHeartbeat r answer m run :
  finishHeartbeat env r answer m = Some run → preserves (touches (HeartbeatItem r)) run.
Proof. destruct answer; try done; intros [= <-]; unfold noteHeartbeat; walk_writes. Qed.

Lemma touches_executeCronScript r startedAt result m : preserves (touches (CronItem r)) (executeCronScript env r startedAt result m).
Proof. unfold executeCronScript. walk_writes. Qed.

Lemma touches_checkWatch r path startedAt result m : preserves (touches (CronItem r)) (checkWatch env r path startedAt result m).
Proof. unfold checkWatch. walk_writes. Qed.

Hint Resolve touches_finishTurn touches_finishWatch touches_finishHeartbeat touches_executeCronScript touches_checkWatch : stella.

Lemma touches_resume item startedAt point answer m run :
  resume env item startedAt point answer m = Some run → preserves (touches item) run.
Proof.
  unfold resume. destruct item as [r|r], point; try done; eauto with stella.
  - destruct answer; try done. intros [= <-]. walk_writes.
  - destruct (scriptResult answer startedAt (clock m 0)); [intros [= <-]; walk_writes|done].
  - destruct answer; try done. intros [= <-]. walk_writes.
  - destruct (scriptResult answer startedAt (clock m 0)); [intros [= <-]; walk_writes|done].
Qed.

(** The first stretch touches the object that is found for the id. *)
Lemma touches_executeCronJob id runner m s :
  match findJob id s with
  | Some (r, _) => touches (CronItem r) s (executeCronJob env id runner m s).1
  | None => executeCronJob env id runner m s = (s, inr (inr Done))
  end.
Proof.
  unfold executeCronJob. rw (bind_gets (findJob id)). destruct (findJob id s) as [[r active]|]; [|done].
  match goal with |- touches _ _ (?run s).1 => assert (Hrun : preserves (touches (CronItem r)) run); [|apply Hrun] end.
  unfold beginRun, runPayload, executeCronNotify. walk_writes.
Qed.

Lemma touches_executeHeartbeat id m s :
  match findHeartbeat (λ config, bool_decide (heartbeatId config = id)) s with
  | Some (r, _) => touches (HeartbeatItem r) s (executeHeartbeat env id m s).1
  | None => executeHeartbeat env id m s = (s, inr (inr Done))
  end.
Proof.
  unfold executeHeartbeat. rw (bind_gets (findHeartbeat _)). destruct (findHeartbeat _ s) as [[r active]|]; [|done].
  match goal with |- touches _ _ (?run s).1 => assert (Hrun : preserves (touches (HeartbeatItem r)) run); [|apply Hrun] end.
  unfold beginHeartbeat, markSkipped. walk_writes.
Qed.
End Executions.

(** ** Ticks, scopes and executions *)

Definition itemRef (item : Item) : nat := match item with CronItem r | HeartbeatItem r => r end.

Definition listed (s : Scheduler) (item : Item) : Prop :=
  match item with CronItem r => r ∈ cronJobs s | HeartbeatItem r => r ∈ heartbeats s end.

(** Execution [e] works on [item] and has not settled. *)
Definition busyWith (s : Scheduler) (e : nat) (item : Item) : Prop :=
  ∃ execution point, executions s !! e = Some execution ∧ executing execution = item ∧ phase execution = Awaiting point.

Definition refsOk {A} (heap : gmap nat A) (refs : list nat) (n : nat) : Prop :=
  NoDup refs ∧ Forall (λ r, is_Some (heap !! r)) refs ∧ ∀ r, is_Some (heap !! r) → (r < n)%nat.

Record wf (s : Scheduler) : Prop := {
  wf_cron : refsOk (cronHeap s) (cronJobs s) (fresh s);
  wf_heartbeat : refsOk (heartbeatHeap s) (heartbeats s) (fresh s);
  wf_started : started s = isSome (serviceScope s);
  wf_scope : ∀ scope, serviceScope s = Some scope → scope ∉ closing s ∧ (scope < fresh s)%nat;
  wf_closing : Forall (λ scope, scope < fresh s)%nat (closing s);
  wf_timer : ∀ t, timerFiber s = Some t → serviceScope s = Some (timerScope t) ∧ 0 ≤ delayMs t ≤ MAX_TIMER_DELAY_MS;
  wf_flight : tickInFlight s = true ↔ ∃ f t, ticks s !! f = Some t;
  wf_one : ∀ f f' t t', ticks s !! f = Some t → ticks s !! f' = Some t' → f = f';
  wf_awaits : ∀ f t, ticks s !! f = Some t → is_Some (executions s !! awaiting t);
  wf_tick : ∀ f t, ticks s !! f = Some t → started s = true → serviceScope s = Some (tickScope t);
  wf_executions : ∀ e execution, executions s !! e = Some execution → (e < fresh s)%nat ∧ (itemRef (executing execution) < fresh s)%nat;
  wf_mine : ∀ e item, started s = true → busyWith s e item → listed s item → ∃ f t, ticks s !! f = Some t ∧ awaiting t = e;
}.

(** With something enabled and idle, a started service that is in no tick has a timer armed. *)
Definition armed (s : Scheduler) : Prop :=
  started s = true → tickInFlight s = false → ∀ item at_, idleAt s item at_ → is_Some (timerFiber s).

Lemma refsOk_touches {A} (heap heap' : gmap nat A) refs refs' n :
  refs' `sublist_of` refs → (∀ r, is_Some (heap' !! r) ↔ is_Some (heap !! r)) → refsOk heap refs n → refsOk heap' refs' n.
Proof.
  intros Hsub Hdom (Hnd & Hall & Hlt). split_and!.
  - by eapply sublist_NoDup.
  - apply Forall_forall. intros r Hr. apply Hdom. rw Forall_forall in Hall. apply Hall. by eapply elem_of_sublist.
  - intros r Hr. apply Hlt. by apply Hdom.
Qed.

Lemma touches_listed item s s' other : touches item s s' → listed s' other → listed s other.
Proof.
  intros [_ Hh Hc _ _ _ _]. destruct other; simpl; [|by rw Hh]. intros Hin. by eapply elem_of_sublist.
Qed.

Lemma wf_shape s s' :
  control s' = control s → heartbeats s' = heartbeats s → cronJobs s' `sublist_of` cronJobs s →
  (∀ r, is_Some (cronHeap s' !! r) ↔ is_Some (cronHeap s !! r)) → (∀ r, is_Some (heartbeatHeap s' !! r) ↔ is_Some (heartbeatHeap s !! r)) →
  wf s → wf s'.
Proof.
  intros Hcontrol Hh Hc Hcd Hhd Hwf. destruct Hwf, s, s'. unfold control, busyWith in *. simpl in *. simplify_eq.
  split; unfold busyWith; simpl; try done; [by eapply refsOk_touches..|].
  intros e other Hs Hbusy Hin. apply (wf_mine0 e other Hs Hbusy). destruct other; simpl in *; [by eapply elem_of_sublist|done].
Qed.

Lemma wf_touches item s s' : touches item s s' → wf s → wf s'.
Proof. intros []. by apply wf_shape. Qed.

(** ** Calls *)

Definition keepsWf (s s' : Scheduler) : Prop := wf s → wf s'.
#[export] Instance keepsWf_preorder : PreOrder keepsWf.
Proof. split; [by intros s Hwf|]. intros s s1 s2 H1 H2 Hwf. by apply H2, H1. Qed.

Lemma keepsWf_touches {A} item (m : M Scheduler text A) : preserves (touches item) m → preserves keepsWf m.
Proof. intros Hm s Hwf. eapply wf_touches; [apply Hm|done]. Qed.

Lemma keepsWf_persistState : preserves keepsWf persistState.
Proof. apply (keepsWf_touches (CronItem 0)), touches_persistState. Qed.
Lemma keepsWf_changeJob r f : preserves keepsWf (changeJob r f).
Proof. by apply (keepsWf_touches (CronItem r)), touches_changeJob. Qed.
Lemma keepsWf_changeHeartbeat r f : preserves keepsWf (changeHeartbeat r f).
Proof. by apply (keepsWf_touches (HeartbeatItem r)), touches_changeHeartbeat. Qed.
Lemma keepsWf_removeScriptFile path : preserves keepsWf (removeScriptFile path).
Proof. apply (keepsWf_touches (CronItem 0)), touches_removeScriptFile. Qed.

Lemma keepsWf_filterJobs p : preserves keepsWf (E:=text) (modify (λ s, setCronJobs (List.filter (p s) (cronJobs s)) s)).
Proof. intros s Hwf. eapply (wf_touches (CronItem 0)); [|exact Hwf]. split; simpl; try done. apply sublist_filter. Qed.

Lemma refsOk_push {A} (heap : gmap nat A) refs n a : refsOk heap refs n → refsOk (<[n := a]> heap) (refs ++ [n]) (S n).
Proof.
  intros (Hnd & Hall & Hlt). assert (n ∉ refs).
  { intros Hin. eapply Forall_forall in Hall; [|exact Hin]. apply Hlt in Hall. lia. }
  split_and!.
  - apply NoDup_app. split_and!; [done| |apply NoDup_singleton]. intros r Hr ->%list_elem_of_singleton. done.
  - apply Forall_app. split; [|constructor; [rw lookup_insert_eq; by eexists|done]].
    eapply Forall_impl; [exact Hall|]. intros r Hr. by apply lookup_insert_is_Some'; right.
  - intros r [ ->|Hr]%lookup_insert_is_Some'; [lia|]. apply Hlt in Hr. lia.
Qed.

Lemma refsOk_mono {A} (heap : gmap nat A) refs n n' : (n ≤ n')%nat → refsOk heap refs n → refsOk heap refs n'.
Proof. intros Hn (?&?&Hlt). split_and!; [done..|]. intros r Hr. apply Hlt in Hr. lia. Qed.

(** The counter may grow. *)
Lemma wf_fresh s n : (fresh s ≤ n)%nat → wf s → wf (setFresh n s).
Proof.
  intros Hn []. split; simpl; try done; try (by eapply refsOk_mono).
  - intros scope Hs. apply wf_scope0 in Hs as [? ?]. split; [done|lia].
  - eapply Forall_impl; [exact wf_closing0|]. intros. simpl in *. lia.
  - intros e ex He. apply wf_executions0 in He. lia.
Qed.

Lemma keepsWf_pushJob job : preserves keepsWf (pushJob job).
Proof.
  intros s Hwf. pose proof Hwf as [Hcron _ _ _ _ _ _ _ _ _ Hex Hmine].
  apply (wf_fresh s (S (fresh s))) in Hwf; [|lia]. destruct Hwf. split; simpl in *; try done; [by apply refsOk_push|].
  intros e [r|r] Hs Hbusy Hin; simpl in Hin; [|by eapply Hmine].
  apply elem_of_app in Hin as [Hin| ->%list_elem_of_singleton]; [by eapply Hmine|].
  destruct Hbusy as (ex & point & He & Hitem & _). apply Hex in He. rw Hitem /= in He. lia.
Qed.

Lemma keepsWf_pushHeartbeat config : preserves keepsWf (pushHeartbeat config).
Proof.
  intros s Hwf. pose proof Hwf as [_ Hcron _ _ _ _ _ _ _ _ Hex Hmine].
  apply (wf_fresh s (S (fresh s))) in Hwf; [|lia]. destruct Hwf. split; simpl in *; try done; [by apply refsOk_push|].
  intros e [r|r] Hs Hbusy Hin; simpl in Hin; [by eapply Hmine|].
  apply elem_of_app in Hin as [Hin| ->%list_elem_of_singleton]; [by eapply Hmine|].
  destruct Hbusy as (ex & point & He & Hitem & _). apply Hex in He. rw Hitem /= in He. lia.
Qed.

Lemma wf_setTimer t s :
  (∀ t', t = Some t' → serviceScope s = Some (timerScope t') ∧ 0 ≤ delayMs t' ≤ MAX_TIMER_DELAY_MS) → wf s → wf (setTimer t s).
Proof. intros Ht []. by split. Qed.

(** The delays the service asks for itself. *)
Definition shortDelay (override : option Z) : Prop := match override with Some d => d ≤ MAX_TIMER_DELAY_MS | None => True end.

Lemma keepsWf_scheduleNextTick override now : shortDelay override → preserves keepsWf (scheduleNextTick override now).
Proof.
  intros Hshort s Hwf. unfold scheduleNextTick, modify. simpl. assert (Hnone : wf (setTimer None s)) by (by apply wf_setTimer).
  destruct (serviceScope s) as [scope|] eqn:Hscope; [|done]. destruct (started s); [|done].
  match goal with |- wf (match ?d with _ => _ end) => destruct d as [delay|] eqn:Hd end; [|done].
  apply (wf_fresh (setTimer _ _)); [simpl; lia|]. apply wf_setTimer; [|done]. intros t' [= <-]. simpl. split; [done|].
  unfold shortDelay, MAX_TIMER_DELAY_MS in *. destruct override as [d|]; simplify_eq/=; [lia|].
  destruct (getNextDueAt _); simplify_eq/=. lia.
Qed.

(** ** The timer is armed *)

Lemma earliest_None {A} (ready : A → bool) (key : A → Z) l next :
  foldl (λ next a, if ready a then earlier next (key a) else next) next l = None →
  next = None ∧ ∀ a, a ∈ l → ready a = false.
Proof.
  revert next. induction l as [|a l IH]; intros next; simpl; [intros ->; split; [done|]; by intros a ?%not_elem_of_nil|].
  intros [Hnext Hl]%IH. destruct (ready a) eqn:Ha.
  - unfold earlier in Hnext. repeat case_match; done.
  - split; [done|]. intros b [->|Hb]%elem_of_cons; eauto.
Qed.

Lemma nothing_due s item at_ : getNextDueAt s = None → ¬ idleAt s item at_.
Proof.
  unfold getNextDueAt. intros [[_ Hjobs]%earliest_None Hheartbeats]%earliest_None.
  destruct item; intros (Hin & a & Ha & Hidle & _).
  - rw Hjobs in Hidle; [|done]. apply list_elem_of_omap. eauto.
  - rw Hheartbeats in Hidle; [|done]. apply list_elem_of_omap. eauto.
Qed.

Lemma scheduleNextTick_armed override now s : wf s → armed (scheduleNextTick override now s).1.
Proof.
  intros Hwf. unfold armed, scheduleNextTick, modify. simpl. pose proof (wf_started s Hwf) as Hstarted.
  destruct (serviceScope s) as [scope|] eqn:Hscope; simpl in *; [|congruence]. rw Hstarted.
  destruct override as [d|]; simpl; [by eauto|].
  destruct (getNextDueAt _) eqn:Hdue; simpl; [by eauto|]. intros _ _ item at_ Hidle.
  exfalso. eapply nothing_due; [exact Hdue|exact Hidle].
Qed.

(** A method after which, if it returns, the timer is armed. *)
Definition arms {A} (m : M Scheduler text A) : Prop := ∀ s, wf s → isRight (m s).2 = true → armed (m s).1.

Lemma arms_bind {A B} (c : M Scheduler text A) (k : A → M Scheduler text B) :
  preserves keepsWf c → (∀ x, arms (k x)) → arms (bind c k).
Proof.
  intros Hc Hk s Hwf. unfold bind. specialize (Hc s Hwf). destruct (c s) as [s' [e|x]]; simpl in *; [done|]. by apply Hk.
Qed.

Lemma arms_readonly {A B} (c : M Scheduler text A) (k : A → M Scheduler text B) :
  arms c → (∀ x, readonly (k x)) → arms (bind c k).
Proof.
  intros Hc Hk s Hwf. specialize (Hc s Hwf). unfold bind. destruct (c s) as [s' [e|x]]; simpl in *; [done|].
  intros _. specialize (Hk x s'). rw Hk. by apply Hc.
Qed.

Lemma arms_afterMutation override now : arms (afterMutation override now).
Proof.
  unfold afterMutation. apply arms_bind; [apply keepsWf_persistState|]. intros _ s Hwf _. by apply scheduleNextTick_armed.
Qed.

Lemma keepsWf_afterMutation override now : shortDelay override → preserves keepsWf (afterMutation override now).
Proof.
  intros Hshort. unfold afterMutation. apply preserves_bind; [apply _|apply keepsWf_persistState|]. intros _. by apply keepsWf_scheduleNextTick.
Qed.

Lemma readonly_gets {A} (f : Scheduler → A) : readonly (E:=text) (gets f).
Proof. done. Qed.
Lemma readonly_ret {A} (a : A) : readonly (S:=Scheduler) (E:=text) (ret a).
Proof. done. Qed.

#[export] Hint Resolve keepsWf_persistState keepsWf_changeJob keepsWf_changeHeartbeat keepsWf_removeScriptFile keepsWf_pushJob
  keepsWf_pushHeartbeat keepsWf_filterJobs keepsWf_afterMutation arms_afterMutation readonly_gets readonly_ret : stella.

Lemma shortDelay_250 : shortDelay (Some 250).
Proof. unfold shortDelay, MAX_TIMER_DELAY_MS. lia. Qed.
Lemma shortDelay_None : shortDelay None.
Proof. done. Qed.
#[export] Hint Resolve shortDelay_250 shortDelay_None : stella.

(** Walks a method down to the [afterMutation] at its end. *)
Ltac walk_arms :=
  repeat first
    [ solve [eauto with stella]
    | apply arms_readonly; [solve [eauto with stella]|intros ?]
    | apply arms_bind; [walk_writes|intros ?] ].

Section Calls.
Context (env : SchedulerEnv).

Lemma call_keepsWf call m : preserves keepsWf (λ s, (runCall env call m s, inr () : text + ())).
Proof.
  assert (Hlift : ∀ A (c : M Scheduler text A), preserves keepsWf c → preserves keepsWf (λ s, ((c s).1, inr () : text + ()))) by done.
  destruct call; apply Hlift; unfold addCronJob, updateCronJob, removeCronJob, runCronJob, upsertHeartbeat, runHeartbeat, nextRun;
    walk_writes.
Qed.

(** A call leaves the timer armed, or it throws; only an update can throw after it has changed something. *)
Definition callReturns (call : Call) (m : Moment) (s : Scheduler) : Prop :=
  match call with UpdateCronJob id patch => isRight (updateCronJob env id patch m s).2 = true | _ => True end.

Lemma addCronJob_throws input m s : (addCronJob env input m s).1 = s ∨ isRight (addCronJob env input m s).2 = true.
Proof.
  unfold addCronJob, nextRun, check, bind.
  repeat match goal with |- context [match ?v with inl _ => _ | inr _ => _ end] => destruct v; simpl; [by left|] end. by right.
Qed.

Lemma upsertHeartbeat_throws input m s : (upsertHeartbeat input m s).1 = s ∨ isRight (upsertHeartbeat input m s).2 = true.
Proof.
  unfold upsertHeartbeat, check, bind. simpl.
  repeat match goal with |- context [match ?v with inl _ => _ | inr _ => _ end] => destruct v; simpl; [by left|] end.
  right. by destruct (findHeartbeat _ s) as [[]|].
Qed.

Lemma call_armed call m s : wf s → armed s → callReturns call m s → armed (runCall env call m s).
Proof.
  intros Hwf Harmed Hreturns. destruct call as [input|id patch|id|id|input|conversationId]; simpl in *.
  - destruct (addCronJob_throws input m s) as [->|Hright]; [done|]. revert Hwf Hright.
    enough (Harms : arms (addCronJob env input m)) by apply Harms. unfold addCronJob, nextRun. walk_arms.
  - revert Hreturns. unfold updateCronJob. rw bind_gets. destruct (findJob id s) as [[r job]|]; [|done]. revert Hwf.
    match goal with |- wf s → isRight (?run s).2 = true → _ => enough (Harms : arms run) by apply Harms end.
    unfold nextRun. walk_arms.
  - unfold removeCronJob. rw bind_gets. destruct (findJob id s) as [[r job]|]; [|done].
    match goal with |- armed (?run s).1 => assert (Harms : arms run); [walk_arms|apply Harms; [done|]] end.
    unfold bind. simpl. by destruct (payloadScriptPath _); [destruct (isScriptPathReferenced _ _ _)|].
  - unfold runCronJob. rw bind_gets. destruct (findJob id s) as [[r job]|]; [|done].
    match goal with |- armed (?run s).1 => assert (Harms : arms run); [walk_arms|by apply Harms] end.
  - destruct (upsertHeartbeat_throws input m s) as [->|Hright]; [done|]. revert Hwf Hright.
    enough (Harms : arms (upsertHeartbeat input m)) by apply Harms. unfold upsertHeartbeat.
    apply arms_bind; [walk_writes|intros ?]. apply arms_bind; [walk_writes|intros ?]. apply arms_bind; [walk_writes|intros existing].
    destruct existing as [[]|]; walk_arms.
  - unfold runHeartbeat. rw bind_gets. destruct (findHeartbeat _ s) as [[r config]|]; [|done].
    match goal with |- armed (?run s).1 => assert (Harms : arms run); [walk_arms|by apply Harms] end.
Qed.
End Calls.

(** ** Ticks *)

Section Ticks.
Context (env : SchedulerEnv).

Lemma wf_noTicks s f : wf (setTicks false ∅ s) → delete f (ticks s) = ∅ → wf (setTicks false (delete f (ticks s)) s).
Proof. intros Hwf Hdel. by rw Hdel. Qed.

Lemma shortDelay_5000 : shortDelay (Some 5000).
Proof. unfold shortDelay, MAX_TIMER_DELAY_MS. lia. Qed.

Lemma endTick_ok f override now s :
  shortDelay override → wf (setTicks false ∅ s) → delete f (ticks s) = ∅ →
  wf (endTick f override now s) ∧ armed (endTick f override now s).
Proof.
  intros Hshort Hwf Hdel. apply (wf_noTicks s f) in Hwf; [|done]. unfold endTick. split.
  - by apply keepsWf_scheduleNextTick.
  - by apply scheduleNextTick_armed.
Qed.

(** Starting an execution puts the tick at its promise. *)
Lemma beginExecution_ok f scope item at_ phase s :
  wf (setTicks false ∅ s) → delete f (ticks s) = ∅ → (started s = true → serviceScope s = Some scope) → (itemRef item < fresh s)%nat →
  wf (setFresh (S (fresh s))
        (setTicks true (<[f := {| tickScope := scope; awaiting := fresh s |}]> (ticks s))
          (setExecutions (<[fresh s := {| executing := item; startedAt := at_; phase := phase |}]> (executions s)) s))).
Proof.
  intros Hwf Hdel Hscope Hitem. replace (<[f:=_]> (ticks s)) with ({[f := {| tickScope := scope; awaiting := fresh s |}]} : gmap nat Tick);
    [|by rw -insert_delete_eq Hdel].
  apply (wf_fresh _ (S (fresh s))) in Hwf; [|simpl; lia]. destruct Hwf. split; simpl in *; try done.
  - split; [intros _|done]. eexists f, _. by rw lookup_singleton_eq.
  - intros f1 f2 t1 t2 [<- <-]%lookup_singleton_Some [<- <-]%lookup_singleton_Some. done.
  - intros f1 t1 [<- <-]%lookup_singleton_Some. simpl. rw lookup_insert_eq. by eexists.
  - intros f1 t1 [<- <-]%lookup_singleton_Some. done.
  - intros e ex [[<- <-]|[Hne He]]%lookup_insert_Some; simpl; [lia|by apply wf_executions0].
  - intros e other Hs (ex & point & He & Hother & Hphase) Hin. simpl in He.
    apply lookup_insert_Some in He as [[<- <-]|[Hne He]]; simpl in *.
    + eexists f, _. by rw lookup_singleton_eq.
    + destruct (wf_mine0 e other Hs) as (f1 & t1 & Hf1 & _); [by exists ex, point|done|]. by rw lookup_empty in Hf1.
Qed.

Lemma findRef_Some {A} (heap : gmap nat A) p refs r a : findRef heap p refs = Some (r, a) → r ∈ refs ∧ heap !! r = Some a ∧ p a = true.
Proof.
  induction refs as [|r' refs IH]; simpl; [done|]. destruct (heap !! r') as [a'|] eqn:Hheap; [destruct (p a') eqn:Hp|].
  - intros [= <- <-]. split_and!; [by left|done..].
  - intros (?&?&?)%IH. split_and!; [by right|done..].
  - intros (?&?&?)%IH. split_and!; [by right|done..].
Qed.

Lemma touches_beginItem item m s : touches (targetOf item s) s (beginItem env item m s).1.
Proof.
  destruct item as [r job|r config]; simpl.
  - pose proof (touches_executeCronJob env (jobId job) (requiresRunner (DueCron r job)) m s) as H.
    destruct (findJob (jobId job) s) as [[r' job']|]; [done|]. rw H. simpl. reflexivity.
  - pose proof (touches_executeHeartbeat env (heartbeatId config) m s) as H.
    destruct (findHeartbeat _ s) as [[r' c']|]; [done|]. rw H. simpl. reflexivity.
Qed.

Lemma targetOf_fresh item now s : wf s → getNextDueItem now s = Some item → (itemRef (targetOf item s) < fresh s)%nat.
Proof.
  intros [(_ & _ & Hcron) (_ & _ & Hheart) _ _ _ _ _ _ _ _ _ _] Hdue.
  pose proof (next_item_is_the_longest_due now s) as H. rw Hdue in H. destruct H as (Hidle & _ & _ & _).
  destruct item as [r job|r config]; destruct Hidle as (_ & a & Ha & _ & _); simpl.
  - destruct (findJob (jobId job) s) as [[r' job']|] eqn:Hfind; simpl; [apply findRef_Some in Hfind as (_ & Hj & _)|]; apply Hcron; by eexists.
  - destruct (findHeartbeat _ s) as [[r' c']|] eqn:Hfind; simpl; [apply findRef_Some in Hfind as (_ & Hj & _)|]; apply Hheart; by eexists.
Qed.
End Ticks.

(** ** Every event *)

Section Steps.
Context (env : SchedulerEnv).

Lemma control_eq s s' :
  control s' = control s →
  started s' = started s ∧ serviceScope s' = serviceScope s ∧ tickInFlight s' = tickInFlight s ∧ ticks s' = ticks s
  ∧ executions s' = executions s ∧ fresh s' = fresh s ∧ timerFiber s' = timerFiber s.
Proof. unfold control. by intros [=]. Qed.

Lemma touches_setTicks item b t s s' : touches item s s' → touches item (setTicks b t s) (setTicks b t s').
Proof. intros []. split; try done. unfold control in *. simpl. by simplify_eq; f_equal; congruence. Qed.

Lemma drainLoop_ok f scope m s :
  wf (setTicks false ∅ s) → delete f (ticks s) = ∅ → (started s = true → serviceScope s = Some scope) →
  wf (drainLoop env f scope m s) ∧ armed (drainLoop env f scope m s).
Proof.
  intros Hwf Hdel Hscope. unfold drainLoop.
  destruct (started s) eqn:Hstarted; [|by apply endTick_ok]. simpl.
  destruct (getNextDueItem (clock m 0) s) as [item|] eqn:Hdue; [|by apply endTick_ok].
  case_match; [by apply endTick_ok; [apply shortDelay_5000|..]|].
  pose proof (touches_beginItem env item m s) as Htouch.
  assert (Hfresh : (itemRef (targetOf item s) < fresh s)%nat).
  { apply (targetOf_fresh item (clock m 0) (setTicks false ∅ s) Hwf Hdue). }
  destruct (beginItem env item m s) as [s' result]. simpl in Htouch.
  pose proof (touches_control _ _ _ Htouch) as (Hst&Hsc&_&Hti&_&Hfr&_)%control_eq.
  split; [|unfold armed; simpl; done].
  apply beginExecution_ok; [|by rw Hti|intros _; rw Hsc; by apply Hscope|by rw Hfr].
  eapply wf_touches; [by apply touches_setTicks|done].
Qed.

Lemma ticks_idle s : wf s → tickInFlight s = false → ticks s = ∅.
Proof.
  intros Hwf Hflight. apply map_empty. intros f. destruct (ticks s !! f) eqn:Hf; [|done].
  enough (tickInFlight s = true) by congruence. apply (wf_flight s Hwf). eauto.
Qed.

Lemma wf_idle s : wf s → tickInFlight s = false → wf (setTicks false ∅ (setTimer None s)).
Proof.
  intros Hwf Hflight. pose proof (ticks_idle s Hwf Hflight) as Hticks. apply (wf_setTimer None) in Hwf; [|done].
  destruct s. simpl in *. by subst.
Qed.

Lemma wake_ok t m s : wf s → timerFiber s = Some t → wf (wake env t m s) ∧ armed (wake env t m s).
Proof.
  intros Hwf Ht. pose proof (wf_timer s Hwf t Ht) as [Hscope _].
  assert (Hnone : wf (setTimer None s)) by (by apply wf_setTimer). unfold wake. simpl.
  destruct (started s) eqn:Hstarted; simpl; [|split; [done|by unfold armed; simpl; rw Hstarted]].
  destruct (tickInFlight s) eqn:Hflight; [split; [done|by unfold armed; simpl; rw Hflight]|].
  apply drainLoop_ok; simpl; [by apply wf_idle|by rw ticks_idle // delete_empty|done].
Qed.

(** A tick whose execution has settled, or whose scope is closing, leaves nothing behind that it had to wait for. *)
Lemma wf_dropTick f t s :
  wf s → ticks s !! f = Some t → (started s = true → ∀ item, ¬ busyWith s (awaiting t) item) →
  wf (setTicks false ∅ s) ∧ delete f (ticks s) = ∅.
Proof.
  intros Hwf Hf Hidle. pose proof Hwf as [_ _ _ _ _ _ _ Hone _ _ _ _]. split.
  - destruct Hwf. split; simpl in *; try done; [split; [done|by intros (f' & t' & ?%lookup_empty_Some)]|].
    intros e item Hs Hbusy Hin. destruct (wf_mine0 e item Hs Hbusy Hin) as (f' & t' & Hf' & <-).
    pose proof (Hone _ _ _ _ Hf' Hf) as ->. simplify_eq. by destruct (Hidle Hs item).
  - apply map_empty. intros f'. destruct (decide (f = f')) as [->|Hne]; [apply lookup_delete_eq|rw lookup_delete_ne //].
    destruct (ticks s !! f') eqn:Hf'; [|done]. by pose proof (Hone _ _ _ _ Hf Hf').
Qed.

Lemma idle_exec s e execution : executions s !! e = Some execution → (∀ point, phase execution ≠ Awaiting point) → ∀ item, ¬ busyWith s e item.
Proof. intros He Hphase item (ex & point & He' & _ & Hp). simplify_eq. by apply (Hphase point). Qed.

Lemma continueTick_ok f t result at_ m s item0 :
  wf s → ticks s !! f = Some t → executions s !! awaiting t = Some {| executing := item0; startedAt := at_; phase := Settled result |} →
  wf (continueTick env f t result m s) ∧ armed (continueTick env f t result m s).
Proof.
  intros Hwf Hf He. destruct (wf_dropTick f t s Hwf Hf) as [Hwf' Hdel]; [intros _; by eapply idle_exec; [exact He|]|].
  unfold continueTick. destruct result as [e|[|]].
  - by apply endTick_ok.
  - apply drainLoop_ok; [done..|]. by eapply wf_tick.
  - by apply endTick_ok; [apply shortDelay_5000|..].
Qed.

(** An execution settles, or goes on to its next await. *)
Lemma answered_ok e execution point answer m run s :
  wf s → armed s → executions s !! e = Some execution → phase execution = Awaiting point →
  resume env (executing execution) (startedAt execution) point answer m = Some run →
  let s' := setExecutions (<[e := {| executing := executing execution; startedAt := startedAt execution; phase := phaseOf (run s).2 |}]> (executions (run s).1)) (run s).1 in
  wf s' ∧ armed s'.
Proof.
  intros Hwf Harmed He Hphase Hrun. apply touches_resume in Hrun. specialize (Hrun s).
  destruct (run s) as [s1 result]. simpl in *. pose proof (wf_touches _ _ _ Hrun Hwf) as Hwf1.
  pose proof (touches_control _ _ _ Hrun) as (Hst&Hsc&Hfl&Hti&Hex&Hfr&Htm)%control_eq. split.
  - pose proof (wf_executions s Hwf e _ He) as Hbound. destruct Hwf1. split; simpl; try done.
    + intros f t Hf. destruct (wf_awaits0 f t Hf) as [ex Hawait].
      destruct (decide (awaiting t = e)) as [->|]; [rw lookup_insert_eq|rw lookup_insert_ne //]; by eexists.
    + intros e' ex' [[<- <-]|[Hne He']]%lookup_insert_Some; simpl; [by rw Hfr|by apply wf_executions0].
    + intros e' item Hs (ex & p & He' & Hitem & Hp) Hin. simpl in He'. apply wf_mine0 with item; [done| |done].
      apply lookup_insert_Some in He' as [[<- <-]|[Hne He']]; [|by exists ex, p].
      exists execution, point. by rw Hex.
  - unfold armed. simpl. rw Hst Hfl Htm. intros Hs Hflight item at_ Hidle.
    assert (Hunlisted : ¬ listed s (executing execution)).
    { intros Hin. destruct (wf_mine s Hwf e (executing execution) Hs) as (f & t & Hf & _); [by exists execution, point|done|].
      enough (tickInFlight s = true) by congruence. apply (wf_flight s Hwf). eauto. }
    apply (Harmed Hs Hflight item at_). destruct Hrun as [_ Hh Hc Hch Hhh _ _].
    destruct item as [r|r]; destruct Hidle as (Hin & a & Ha & Hrest); simpl in *.
    + pose proof (elem_of_sublist _ _ _ Hin Hc) as Hin'. split; [done|]. exists a. split; [|done]. rw -Hch //. intros Heq. by rw Heq in Hunlisted.
    + rw Hh in Hin. split; [done|]. exists a. split; [|done]. rw -Hhh //. intros Heq. by rw Heq in Hunlisted.
Qed.
End Steps.

(** ** start and stop *)

Section Lifetime.
Context (env : SchedulerEnv).

Lemma is_Some_load {A} (heap : gmap nat A) n l r :
  is_Some ((map_seq n l ∪ heap) !! r) ↔ (n ≤ r < n + length l)%nat ∨ is_Some (heap !! r).
Proof.
  rw lookup_union_is_Some. unfold is_Some at 1. setoid_rewrite lookup_map_seq_Some. split.
  - intros [(x & Hn & Hx)|Hr]; [left|by right]. apply lookup_lt_Some in Hx. lia.
  - intros [Hn|Hr]; [left|by right]. destruct (lookup_lt_is_Some_2 l (r - n)) as [x Hx]; [lia|]. exists x. split; [lia|done].
Qed.

Lemma refsOk_load {A} (heap : gmap nat A) n l n0 k :
  (∀ r, is_Some (heap !! r) → (r < n0)%nat) → (n0 ≤ n)%nat → refsOk (map_seq n l ∪ heap) (seq n (length l)) (n + length l + k).
Proof.
  intros Hlt Hn. split_and!.
  - apply NoDup_seq.
  - apply Forall_forall. intros r Hr%elem_of_seq. apply is_Some_load. by left.
  - intros r [?|Hr]%is_Some_load; [lia|]. apply Hlt in Hr. lia.
Qed.

(** No execution of the last lifetime works on an object of the new one. *)
Lemma wf_newLife state s : wf s → started s = false → tickInFlight s = false → wf (newLife state s).
Proof.
  intros Hwf Hstarted Hflight. assert (Hticks : ∀ f, ticks s !! f = None).
  { intros f. destruct (ticks s !! f) eqn:Hf; [|done]. enough (tickInFlight s = true) by congruence. apply (wf_flight s Hwf). eauto. }
  assert (Htimer : timerFiber s = None).
  { destruct (timerFiber s) as [t|] eqn:Ht; [|done]. destruct (wf_timer s Hwf t Ht) as [Hscope _].
    pose proof (wf_started s Hwf) as H. rw Hscope Hstarted in H. done. }
  destruct Hwf as [(?&?&Hcron) (?&?&Hheart) _ _ Hclosing _ Hfl _ _ _ Hex _].
  set (n := fresh s). unfold newLife, loadState. split; simpl; fold n in Hcron, Hheart, Hclosing, Hex |- *; try done.
  - exact (refsOk_load _ (S n) _ n (length (storedHeartbeats state)) Hcron ltac:(lia)).
  - pose proof (refsOk_load _ (S n + length (storedCronJobs state)) (storedHeartbeats state) n 0 Hheart ltac:(lia)) as Hload.
    by rw Nat.add_0_r in Hload.
  - intros scope [= <-]. split; [|lia]. intros Hin. rw Forall_forall in Hclosing. apply Hclosing in Hin. lia.
  - eapply Forall_impl; [exact Hclosing|]. intros scope ?. simpl in *. lia.
  - by rw Htimer.
  - intros f f' t t' Hf. by rw Hticks in Hf.
  - intros f t Hf. by rw Hticks in Hf.
  - intros f t Hf. by rw Hticks in Hf.
  - intros e ex He. apply Hex in He. lia.
  - intros e item _ (ex & point & He & Hitem & _) Hin. apply Hex in He. rw Hitem in He.
    destruct item; simpl in *; apply elem_of_seq in Hin; lia.
Qed.

Lemma is_Some_foldr_alter {A} (f : A → A) refs (heap : gmap nat A) r :
  is_Some (foldr (λ r heap, alter f r heap) heap refs !! r) ↔ is_Some (heap !! r).
Proof. induction refs as [|r' refs IH]; simpl; [done|]. by rw is_Some_alter. Qed.

Lemma keepsWf_clearRecoveredRunningFlags : preserves keepsWf clearRecoveredRunningFlags.
Proof.
  intros s Hwf. unfold clearRecoveredRunningFlags. case_match; [|done]. simpl.
  apply (wf_shape s); simpl; try done; intros r; apply is_Some_foldr_alter.
Qed.

Lemma keepsWf_collectOrphanScripts directory : preserves keepsWf (collectOrphanScripts env directory).
Proof. intros s Hwf. unfold collectOrphanScripts. case_match; [|done]. by apply (wf_shape s). Qed.

Hint Resolve keepsWf_clearRecoveredRunningFlags keepsWf_collectOrphanScripts keepsWf_scheduleNextTick : stella.

(** A method that never throws. *)
Definition total {A} (c : M Scheduler text A) : Prop := ∀ s, isRight (c s).2 = true.

Lemma total_bind {A B} (c : M Scheduler text A) (k : A → M Scheduler text B) : total c → (∀ x, total (k x)) → total (bind c k).
Proof. intros Hc Hk s. specialize (Hc s). unfold bind. destruct (c s) as [s' [e|x]]; [done|apply Hk]. Qed.

Lemma start_ok directory m s :
  wf s → armed s → started s = true ∨ tickInFlight s = false → wf (start env directory m s).1 ∧ armed (start env directory m s).1.
Proof.
  intros Hwf Harmed Hfree. unfold start. destruct (started s) eqn:Hs; [by split|]. destruct Hfree as [|Hfree]; [done|]. pose proof (wf_newLife (readState env (disk s)) s Hwf Hs Hfree) as Hnew.
  unfold afterLoad. split.
  - match goal with |- wf (?run ?s0).1 => assert (Hrun : preserves keepsWf run); [walk_writes|by apply Hrun] end.
  - match goal with |- armed (?run ?s0).1 => assert (Hrun : arms run) end.
    { repeat (apply arms_bind; [walk_writes|intros ?]). intros s0 Hwf0 _. by apply scheduleNextTick_armed. }
    apply Hrun; [done|]. apply total_bind; [done|intros there]. apply total_bind; [by destruct there|intros _].
    apply total_bind; [intros s0; unfold clearRecoveredRunningFlags; by case_match|intros changed].
    apply total_bind; [by destruct changed|intros _]. by apply total_bind; [intros s0; by destruct directory|intros _].
Qed.

Lemma stop_ok s : wf s → wf (stop s).1 ∧ armed (stop s).1.
Proof.
  intros Hwf. unfold stop, modify. simpl. split; [|by unfold armed]. destruct Hwf. split; simpl; try done.
  - destruct (serviceScope s) as [scope|] eqn:Hscope; [|done]. constructor; [|done]. by apply wf_scope0.
Qed.
End Lifetime.

(** ** Histories *)

(** Two things a history must not do: start the service again while a tick of its last life is still
    in flight, and update a job so that the call throws half way. *)
Definition orderly (env : SchedulerEnv) (event : Event) (m : Moment) (s : Scheduler) : Prop :=
  match event with
  | Start _ => started s = true ∨ tickInFlight s = false
  | Called call => callReturns env call m s
  | _ => True
  end.

(** What a service that begins with [file] can come to by [allowed] events. *)
Inductive reaches (env : SchedulerEnv) (allowed : Event → Prop) (file : option StateFile) : Scheduler → Prop :=
  | reaches_initial : reaches env allowed file (initial file)
  | reaches_step event m s s' :
      reaches env allowed file s → allowed event → orderly env event m s → step env event m s = Some s' →
      reaches env allowed file s'.

Definition anyEvent (_ : Event) : Prop := True.

Lemma wf_initial file : wf (initial file).
Proof.
  split; simpl; try done; try (by split; [constructor|split; [done|intros r [? ?%lookup_empty_Some]]]); try (by intros * ?%lookup_empty_Some).
  - split; [done|]. by intros (f & t & ?%lookup_empty_Some).
Qed.

Lemma step_ok env event m s s' :
  wf s → armed s → orderly env event m s → step env event m s = Some s' → wf s' ∧ armed s'.
Proof.
  intros Hwf Harmed Horderly. destruct event as [directory| |call| |e answer|f|f]; simpl in *.
  - intros [= <-]. by apply start_ok.
  - intros [= <-]. by apply stop_ok.
  - intros [= <-]. split; [by apply (call_keepsWf env call m s)|by apply call_armed].
  - destruct (timerFiber s) as [t|] eqn:Ht; simpl; [|done]. intros [= <-]. by apply wake_ok.
  - destruct (executions s !! e) as [execution|] eqn:He; [|done]. destruct (phase execution) as [point|] eqn:Hphase; [|done].
    destruct (resume _ _ _ _ _ _) as [run|] eqn:Hrun; simpl; [|done]. intros [= <-].
    pose proof (answered_ok env e execution point answer m run s Hwf Harmed He Hphase Hrun) as H. by destruct (run s).
  - destruct (ticks s !! f) as [t|] eqn:Hf; [|done]. destruct (executions s !! awaiting t) as [[item at_ [|result]]|] eqn:He; try done.
    intros [= <-]. by eapply continueTick_ok.
  - destruct (ticks s !! f) as [t|] eqn:Hf; [|done]. case_bool_decide as Hclosing; [|done]. intros [= <-].
    destruct (wf_dropTick f t s Hwf Hf) as [Hwf' Hdel]; [|by apply endTick_ok].
    intros Hs. pose proof (wf_tick s Hwf f t Hf Hs) as Hscope. by apply (wf_scope s Hwf) in Hscope as [? _].
Qed.

Lemma reaches_ok env allowed file s : reaches env allowed file s → wf s ∧ armed s.
Proof.
  induction 1 as [|event m s s' _ [Hwf Harmed] _ Horderly Hstep]; [split; [apply wf_initial|done]|by eapply step_ok].
Qed.

(** ** One item at a time, and none forgotten *)

Section Theorems.
Context (env : SchedulerEnv).

(** C3: nothing that may run is forgotten: whatever calls, ticks, answers, stops and restarts came
    before, as long as a started service has an item that is enabled and idle, either a tick is in
    flight, at an execution it waits for, or a timer of at most a minute is armed; and when that
    timer wakes once the item is due, with a runner there, it starts a tick on an item that was due
    no later.  Excluded ([orderly]) are histories in which an update threw half way, which enables a job
    and arms no timer ([a_refused_update_changes_the_job]), and in which the service was started again
    during a tick of the life before ([a_restart_during_a_tick_overlaps]). *)
Theorem an_idle_item_is_never_forgotten file s item at_ :
  reaches env anyEvent file s → started s = true → idleAt s item at_ →
  (tickInFlight s = true ∧ ∃ f t, ticks s !! f = Some t ∧ is_Some (executions s !! awaiting t))
  ∨ ∃ t, timerFiber s = Some t ∧ 0 ≤ delayMs t ≤ MAX_TIMER_DELAY_MS
      ∧ ∀ m, at_ ≤ clock m 0 → runnerReady m = true →
          tickInFlight (wake env t m s) = true
          ∧ ∃ due, getNextDueItem (clock m 0) s = Some due ∧ dueAt due ≤ at_.
Proof.
  intros [Hwf Harmed]%reaches_ok Hs Hidle. destruct (tickInFlight s) eqn:Hflight; [left; split; [done|]|right].
  - apply (wf_flight s Hwf) in Hflight as (f & t & Hf). exists f, t. split; [done|]. by eapply wf_awaits.
  - destruct (Harmed Hs Hflight item at_ Hidle) as [t Ht]. exists t. split; [done|]. split; [by eapply wf_timer|].
    intros m Hdue Hrunner. pose proof (next_item_is_the_longest_due (clock m 0) s) as Hnext.
    assert (Hsome : ∃ due, getNextDueItem (clock m 0) s = Some due ∧ dueAt due ≤ at_).
    { destruct (getNextDueItem (clock m 0) s) as [due|]; [|specialize (Hnext _ _ Hidle); lia].
      exists due. split; [done|]. destruct Hnext as (_ & _ & Hleast & _). by eapply Hleast. }
    split; [|done]. destruct Hsome as (due & Hget & _).
    unfold wake. simpl. rw Hs Hflight /=. unfold drainLoop. simpl. rw Hs /=.
    change (getNextDueItem (clock m 0) _) with (getNextDueItem (clock m 0) s). rw Hget Hrunner andb_false_r.
    by destruct (beginItem _ _ _ _).
Qed.

(** C7: jobs and heartbeats never overlap: in a started service at most one execution on a record of
    its lists has not settled, and the one tick in flight waits for it. *)
Theorem executions_never_overlap file s e e' item item' :
  reaches env anyEvent file s → started s = true →
  busyWith s e item → listed s item → busyWith s e' item' → listed s item' →
  e = e' ∧ item = item' ∧ tickInFlight s = true
  ∧ ∃ f t, ticks s !! f = Some t ∧ awaiting t = e ∧ ∀ f' t', ticks s !! f' = Some t' → f' = f.
Proof.
  intros [Hwf _]%reaches_ok Hs Hbusy Hin Hbusy' Hin'.
  destruct (wf_mine s Hwf e item Hs Hbusy Hin) as (f & t & Hf & Ht). destruct (wf_mine s Hwf e' item' Hs Hbusy' Hin') as (f' & t' & Hf' & Ht').
  pose proof (wf_one s Hwf _ _ _ _ Hf Hf') as <-. simplify_eq. split_and!; [done| | |].
  - destruct Hbusy as (? & ? & He & <- & _), Hbusy' as (? & ? & He' & <- & _). by simplify_eq.
  - apply (wf_flight s Hwf). eauto.
  - exists f, t. split_and!; [done..|]. intros f' t' Hf''. by eapply wf_one.
Qed.
End Theorems.

(** ** A run *)

(** A watch whose script prints a change while the assistant is busy. *)
Definition sampleZones : Zones := {| hostZone := u "UTC"; zoneKnown := λ _, true; formatToParts := λ _ _, None |}.
Definition sampleEnv : SchedulerEnv := {|
  scriptsDir := u "/s"; zones := sampleZones; cronNextRun := λ _ _ _, None; localeCompare := byLength; hasNotifier := true;
|}.
Definition sampleJob (payload : LocalCronPayload) (schedule : LocalCronSchedule) : LocalCronJobRecord := {|
  jobId := u "cron:1"; jobConversationId := u "c"; jobName := u "w"; jobDescription := None; jobEnabled := true;
  jobSchedule := schedule; jobPayload := payload; jobDeliver := None; deleteAfterRun := None; jobNextRunAtMs := 1000;
  jobRunningAtMs := None; jobLastRunAtMs := None; jobLastStatus := None; jobLastError := None; jobLastDurationMs := None;
  jobLastOutputPreview := None; pendingEscalation := None; jobCreatedAt := 0; jobUpdatedAt := 0;
|}.
Definition fileOf (job : LocalCronJobRecord) : option StateFile :=
  Some (Stored {| storedCronJobs := [job]; storedHeartbeats := []; storedEvents := ∅ |}).
Definition at_ (z : Z) : Moment := {| clock := λ _, z; uuid := u "x"; runnerReady := true |}.
Definition afterEvents (env : SchedulerEnv) (events : list (Event * Moment)) (file : option StateFile) : Scheduler :=
  default (initial None) (runEvents env events (initial file)).

Definition watchFile : option StateFile := fileOf (sampleJob (Watch (u "/s/a.ts")) (Every 60000 None)).
Definition printed : ScriptRunResult := {| exitCode := 0; stdout := u "new"; stderr := []; durationMs := 5; timedOut := false |}.
Definition watchEvents : list (Event * Moment) :=
  [(Start None, at_ 500); (Woke, at_ 1000); (Answered 3 (AuthEnv None), at_ 1001); (Answered 3 (ScriptRan printed), at_ 1002);
   (Answered 3 TurnBusy, at_ 1003)].
Definition watchReport : Escalation := {| reason := Change; summary := u "new"; escalatedAtMs := 1002 |}.

(** Timers, answers and fibers, with nothing rejected. *)
Definition plainEvent (event : Event) : bool :=
  match event with Woke | Continued _ => true | Answered _ (TurnRejected _) => false | Answered _ _ => true | _ => false end.

Lemma reaches_started env (allowed : Event → Prop) file directory m :
  allowed (Start directory) → reaches env allowed file (start env directory m (initial file)).1.
Proof. intros Hallowed. by eapply (reaches_step _ _ _ (Start directory) m); [apply reaches_initial|done|right|]. Qed.

Lemma reaches_plain env (allowed : Event → Prop) file events s s' :
  (∀ event, plainEvent event = true → allowed event) → reaches env allowed file s →
  forallb (λ e, plainEvent e.1) events = true → runEvents env events s = Some s' → reaches env allowed file s'.
Proof.
  intros Hallowed. revert s. induction events as [|[event m] events IH]; intros s Hreach; simpl; [by intros _ [= <-]|].
  intros [Hplain Hrest]%andb_true_iff. destruct (step env event m s) as [s1|] eqn:Hstep; [|done]. intros Hrun.
  eapply IH; [|done|exact Hrun]. eapply reaches_step; [exact Hreach|by apply Hallowed| |exact Hstep]. by destruct event.
Qed.

Lemma watchFile_started : reaches sampleEnv anyEvent watchFile (afterEvents sampleEnv (take 1 watchEvents) watchFile).
Proof. by apply (reaches_started sampleEnv anyEvent watchFile None (at_ 500)). Qed.

Lemma watchFile_woken allowed :
  allowed (Start None) → (∀ event, plainEvent event = true → allowed event) →
  reaches sampleEnv allowed watchFile (afterEvents sampleEnv (take 2 watchEvents) watchFile).
Proof.
  intros Hstart Hallowed. apply (reaches_plain _ _ _ (drop 1 (take 2 watchEvents)) (afterEvents sampleEnv (take 1 watchEvents) watchFile)).
  - done.
  - by apply (reaches_started sampleEnv allowed watchFile None (at_ 500)).
  - vm_compute. reflexivity.
  - vm_compute. reflexivity.
Qed.

Lemma watchFile_busy : busyWith (afterEvents sampleEnv (take 2 watchEvents) watchFile) 3 (CronItem 1).
Proof.
  exists {| executing := CronItem 1; startedAt := 1000; phase := Awaiting (WatchAuth (u "/s/a.ts")) |}, (WatchAuth (u "/s/a.ts")).
  split_and!; vm_compute; reflexivity.
Qed.

Lemma an_idle_item_is_never_forgotten_witness :
  let s := afterEvents sampleEnv (take 1 watchEvents) watchFile in
  (tickInFlight s = true ∧ ∃ f t, ticks s !! f = Some t ∧ is_Some (executions s !! awaiting t)) ∨ is_Some (timerFiber s).
Proof.
  destruct (an_idle_item_is_never_forgotten sampleEnv watchFile (afterEvents sampleEnv (take 1 watchEvents) watchFile) (CronItem 1) 1000)
    as [H|(t & Ht & _)].
  - apply watchFile_started.
  - vm_compute. reflexivity.
  - split; [vm_compute; left|]. exists (sampleJob (Watch (u "/s/a.ts")) (Every 60000 None)). split_and!; vm_compute; reflexivity.
  - left. exact H.
  - right. exists t. exact Ht.
Defined.

Lemma executions_never_overlap_witness :
  tickInFlight (afterEvents sampleEnv (take 2 watchEvents) watchFile) = true.
Proof.
  apply (executions_never_overlap sampleEnv watchFile (afterEvents sampleEnv (take 2 watchEvents) watchFile) 3 3 (CronItem 1) (CronItem 1)).
  - by apply watchFile_woken.
  - vm_compute. reflexivity.
  - apply watchFile_busy.
  - vm_compute. left.
  - apply watchFile_busy.
  - vm_compute. left.
Defined.
