(* ===== verification/SchedulerRuns.v ===== *)
(** * Running flags

    A record that says it is running is one that an execution works on, as long as no turn is
    rejected; every execution ends with its flag down.  At the end, what happens when a turn is
    rejected, when there is no next run, and in other places where the scheduler does something it
    does not mean to. *)

From Corelib Require Import ssreflect SpecFloat.
From stdpp Require Import prelude gmap strings.
From S2P Require Import Prelude JsNumber Text HostPaths SchedulerRecords Scheduler SchedulerOrder SchedulerSafety.

#[local] Open Scope Z_scope.

Definition flagged (s : Scheduler) (item : Item) : Prop :=
  match item with
  | CronItem r => ∃ job, cronHeap s !! r = Some job ∧ jobRunningAtMs job ≠ None
  | HeartbeatItem r => ∃ config, heartbeatHeap s !! r = Some config ∧ heartbeatRunningAtMs config ≠ None
  end.

(** ** Writes that raise no flag *)

(** Nothing is flagged that was not. *)
Definition lowers (s s' : Scheduler) : Prop := ∀ item, flagged s' item → flagged s item.
#[export] Instance lowers_preorder : PreOrder lowers.
Proof. split; [by intros s item|]. intros s s1 s2 H1 H2 item Hf. by apply H1, H2. Qed.

Definition keepsFlag (f : LocalCronJobRecord → LocalCronJobRecord) : Prop :=
  ∀ job, jobRunningAtMs (f job) = jobRunningAtMs job ∨ jobRunningAtMs (f job) = None.
Definition keepsHeartbeatFlag (f : LocalHeartbeatConfigRecord → LocalHeartbeatConfigRecord) : Prop :=
  ∀ config, heartbeatRunningAtMs (f config) = heartbeatRunningAtMs config ∨ heartbeatRunningAtMs (f config) = None.

Lemma lowers_changeJob r f : keepsFlag f → preserves lowers (changeJob r f).
Proof.
  intros Hf s [r'|r']; [|done]. intros (job & Hjob & Hrun). simpl in Hjob. apply lookup_alter_Some in Hjob as [(-> & old & Hold & ->)|[_ Hold]].
  - exists old. split; [done|]. destruct (Hf old) as [<-|?]; done.
  - by exists job.
Qed.

Lemma lowers_changeHeartbeat r f : keepsHeartbeatFlag f → preserves lowers (changeHeartbeat r f).
Proof.
  intros Hf s [r'|r']; [done|]. intros (c & Hc & Hrun). simpl in Hc. apply lookup_alter_Some in Hc as [(-> & old & Hold & ->)|[_ Hold]].
  - exists old. split; [done|]. destruct (Hf old) as [<-|?]; done.
  - by exists c.
Qed.

Lemma lowers_persistState : preserves lowers persistState.
Proof. by intros s item. Qed.
Lemma lowers_emit o : preserves lowers (emit o).
Proof. by intros s item. Qed.
Lemma lowers_append env c p m n : preserves lowers (appendGeneratedAssistantMessage env c p m n).
Proof. by intros s item. Qed.
Lemma lowers_filterJobs p : preserves lowers (E:=text) (modify (λ s, setCronJobs (p s) s)).
Proof. by intros s item. Qed.
Lemma lowers_scheduleNextTick override now : preserves lowers (scheduleNextTick override now).
Proof. intros s item. unfold scheduleNextTick, modify. simpl. by repeat case_match. Qed.
#[export] Hint Resolve lowers_persistState lowers_emit lowers_append lowers_filterJobs lowers_scheduleNextTick : stella.
#[export] Hint Extern 1 (preserves lowers (changeJob _ _)) => (apply lowers_changeJob; intros ?; first [left; reflexivity|right; reflexivity]) : stella.
#[export] Hint Extern 1 (preserves lowers (changeHeartbeat _ _)) => (apply lowers_changeHeartbeat; intros ?; first [left; reflexivity|right; reflexivity]) : stella.

Section Flags.
Context (env : SchedulerEnv).

Lemma lowers_advance r finishedAt failed : preserves lowers (advanceCronAfterRun env r finishedAt failed).
Proof. unfold advanceCronAfterRun, nextRun, removeScriptFile. walk_writes. Qed.
Hint Resolve lowers_advance : stella.
Lemma lowers_finishCron r at_ failed : preserves lowers (finishCron env r at_ failed).
Proof. unfold finishCron. walk_writes. Qed.
Lemma lowers_deliverCron r body m n : preserves lowers (deliverCron env r body m n).
Proof. unfold deliverCron, fireOsNotification. walk_writes. Qed.
Hint Resolve lowers_finishCron lowers_deliverCron : stella.

(** ** Runs that end with the flag down *)

(** Whatever it returns or throws, the flag is down. *)
Definition drops {A} (item : Item) (c : M Scheduler text A) : Prop := ∀ s, ¬ flagged (c s).1 item.
(** It suspends, or the flag is down. *)
Definition suspendsOrDrops (item : Item) (c : M Scheduler text (Point + RunOutcome)) : Prop :=
  ∀ s, (∃ point, (c s).2 = inr (inl point)) ∨ ¬ flagged (c s).1 item.

Lemma drops_bind {A B} item (c : M Scheduler text A) (k : A → M Scheduler text B) :
  drops item c → (∀ x, preserves lowers (k x)) → drops item (bind c k).
Proof.
  intros Hc Hk s Hf. specialize (Hc s). unfold bind in Hf. destruct (c s) as [s' [e|x]]; [done|].
  apply Hc. by apply (Hk x s').
Qed.
Lemma drops_later {A B} item (c : M Scheduler text A) (k : A → M Scheduler text B) :
  (∀ s, ∃ x, (c s).2 = inr x) → (∀ x, drops item (k x)) → drops item (bind c k).
Proof. intros Hc Hk s. destruct (Hc s) as [x Hx]. unfold bind. destruct (c s) as [s' [e|y]]; [done|]. apply Hk. Qed.

Lemma drops_suspends item c : drops item c → suspendsOrDrops item c.
Proof. intros Hc s. right. apply Hc. Qed.
Lemma suspendsOrDrops_later {A} item (c : M Scheduler text A) k :
  (∀ s, ∃ x, (c s).2 = inr x) → (∀ x, suspendsOrDrops item (k x)) → suspendsOrDrops item (bind c k).
Proof. intros Hc Hk s. destruct (Hc s) as [x Hx]. unfold bind. destruct (c s) as [s' [e|y]]; [done|]. apply Hk. Qed.

Lemma drops_changeJob r f : (∀ job, jobRunningAtMs (f job) = None) → drops (CronItem r) (changeJob r f).
Proof. intros Hf s (job & Hjob & Hrun). simpl in Hjob. rw lookup_alter_eq in Hjob. apply fmap_Some in Hjob as (old & _ & ->). by apply Hrun. Qed.
Lemma drops_changeHeartbeat r f : (∀ c, heartbeatRunningAtMs (f c) = None) → drops (HeartbeatItem r) (changeHeartbeat r f).
Proof. intros Hf s (c & Hc & Hrun). simpl in Hc. rw lookup_alter_eq in Hc. apply fmap_Some in Hc as (old & _ & ->). by apply Hrun. Qed.

Lemma drops_markFinished r a b : drops (CronItem r) (markFinished r a b).
Proof. by apply drops_changeJob. Qed.
Lemma drops_markBusy r a : drops (CronItem r) (markBusy r a).
Proof. apply drops_bind; [by apply drops_changeJob|intros []; walk_writes]. Qed.

(** A read of the object of the run: without one there is no flag to raise. *)
Lemma suspends_escalate r path escalation : suspendsOrDrops (CronItem r) (escalate r path escalation).
Proof.
  intros s. unfold escalate, withJob. destruct (cronHeap s !! r) as [job|] eqn:Hjob; [left; simpl; eauto|].
  right. simpl. intros (job & Hsome & _). congruence.
Qed.

Lemma changeJob_returns r f s : ∃ x, ((changeJob r f) s).2 = inr x.
Proof. by eexists. Qed.

Lemma resume_settles item startedAt point answer m run :
  resume env item startedAt point answer m = Some run → (∀ error, answer ≠ TurnRejected error) → suspendsOrDrops item run.
Proof.
  unfold resume. intros Hrun Hpatient. destruct item as [r|r], point; try done.
  - destruct answer; try done. injection Hrun as <-. intros s. left. simpl. eauto.
  - destruct (scriptResult answer startedAt (clock m 0)) as [result|]; [|done]. injection Hrun as <-.
    apply drops_suspends. unfold executeCronScript. apply drops_bind; [apply drops_markFinished|intros []; walk_writes].
  - destruct answer; try done; injection Hrun as <-; apply drops_suspends;
      first [apply drops_markBusy|by edestruct Hpatient|apply drops_bind; [apply drops_markFinished|intros []; walk_writes]].
  - destruct answer; try done. injection Hrun as <-. intros s. left. simpl. eauto.
  - destruct (scriptResult answer startedAt (clock m 0)) as [result|]; [|done]. injection Hrun as <-.
    unfold checkWatch. apply suspendsOrDrops_later; [apply changeJob_returns|intros []].
    case_match; [apply suspends_escalate|].
    apply drops_suspends, drops_bind; [by apply drops_changeJob|intros []; walk_writes].
  - destruct answer; try done; injection Hrun as <-; apply drops_suspends.
    + apply drops_bind; [apply drops_later; [apply changeJob_returns|intros []; apply drops_markFinished]|intros []].
      destruct (reason escalation); walk_writes.
    + apply drops_later; [apply changeJob_returns|intros []; apply drops_markBusy].
    + apply drops_bind; [apply drops_later; [apply changeJob_returns|intros []; apply drops_markFinished]|intros []; walk_writes].
    + by edestruct Hpatient.
  - destruct answer; try done; injection Hrun as <-; apply drops_suspends;
      first [apply drops_markBusy|by edestruct Hpatient|apply drops_bind; [apply drops_markFinished|intros []; walk_writes]].
  - destruct answer; try done; injection Hrun as <-; apply drops_suspends; unfold noteHeartbeat, fireOsNotification;
      first [by edestruct Hpatient|apply drops_bind; [by apply drops_changeHeartbeat|intros []; walk_writes]].
Qed.

Lemma beginRun_reads r at_ s active :
  cronHeap s !! r = Some active →
  ∃ s1 job, beginRun r at_ s = (s1, inr ()) ∧ cronHeap s1 !! r = Some job ∧ jobPayload job = jobPayload active.
Proof. intros Hactive. eexists _, _. split; [reflexivity|]. simpl. by rw lookup_alter_eq Hactive. Qed.

(** The first stretch of what is due: unchanged state if there is nothing to run after all. *)
Lemma executeCronJob_settles id runner m s :
  match findJob id s with
  | Some (r, _) =>
      (∃ point, (executeCronJob env id runner m s).2 = inr (inl point))
      ∨ ¬ flagged (executeCronJob env id runner m s).1 (CronItem r) ∨ (executeCronJob env id runner m s).1 = s
  | None => True
  end.
Proof.
  unfold executeCronJob. rw bind_gets. destruct (findJob id s) as [[r active]|] eqn:Hfind; [|done].
  apply findRef_Some in Hfind as (_ & Hactive & _). destruct (jobEnabled active); [cbn [negb]|by right; right].
  destruct (beginRun_reads r (clock m 1) s active Hactive) as (s1 & job & Heq & Hjob & Hsame). unfold bind. rw Heq.
  enough (H : (∃ point, (runPayload env r active runner (clock m 1) m s1).2 = inr (inl point))
              ∨ ¬ flagged (runPayload env r active runner (clock m 1) m s1).1 (CronItem r)) by (destruct H; auto).
  unfold runPayload. rw -Hsame. destruct (jobPayload job) eqn:Hpayload.
  - right. unfold executeCronNotify, withJob at 1. rw Hjob Hpayload.
    match goal with |- ¬ flagged (?run s1).1 _ => assert (Hrun : drops (CronItem r) run); [|apply Hrun] end.
    apply drops_bind; [apply drops_markFinished|intros []; walk_writes].
  - destruct runner; [left; simpl; eauto|right; apply drops_markBusy].
  - destruct runner; [|right; apply drops_markBusy]. destruct (pendingEscalation active) as [escalation|]; [|left; simpl; eauto].
    apply suspends_escalate.
  - left. simpl. eauto.
  - destruct runner; [left; simpl; eauto|right; apply drops_markBusy].
Qed.

Lemma executeHeartbeat_settles id m s :
  match findHeartbeat (λ config, bool_decide (heartbeatId config = id)) s with
  | Some (r, _) =>
      (∃ point, (executeHeartbeat env id m s).2 = inr (inl point))
      ∨ ¬ flagged (executeHeartbeat env id m s).1 (HeartbeatItem r) ∨ (executeHeartbeat env id m s).1 = s
  | None => True
  end.
Proof.
  unfold executeHeartbeat. rw bind_gets. destruct (findHeartbeat _ s) as [[r active]|] eqn:Hfind; [|done].
  destruct (heartbeatEnabled active); [cbn [negb]|by right; right].
  assert (Hbegin : ∃ s1, beginHeartbeat r (clock m 1) s = (s1, inr ())) by (eexists; reflexivity). destruct Hbegin as [s1 Heq].
  unfold bind. rw Heq. assert (Hskip : ∀ at_ status, drops (HeartbeatItem r) (markSkipped r at_ status)).
  { intros at_ status. apply drops_bind; [by apply drops_changeHeartbeat|intros []; walk_writes]. }
  case_match; [right; left; apply Hskip|]. case_match; [right; left; apply Hskip|]. left. simpl. eauto.
Qed.

Lemma beginItem_settles item m s :
  (∃ point, (beginItem env item m s).2 = inr (inl point))
  ∨ ¬ flagged (beginItem env item m s).1 (targetOf item s) ∨ (beginItem env item m s).1 = s.
Proof.
  destruct item as [r job|r config]; simpl.
  - pose proof (executeCronJob_settles (jobId job) (requiresRunner (DueCron r job)) m s) as H.
    pose proof (touches_executeCronJob env (jobId job) (requiresRunner (DueCron r job)) m s) as Htouch.
    destruct (findJob (jobId job) s) as [[r' job']|]; [done|]. right; right. by rw Htouch.
  - pose proof (executeHeartbeat_settles (heartbeatId config) m s) as H.
    pose proof (touches_executeHeartbeat env (heartbeatId config) m s) as Htouch.
    destruct (findHeartbeat _ s) as [[r' config']|]; [done|]. right; right. by rw Htouch.
Qed.

(** ** A flag means an execution *)

Definition flagOk (s : Scheduler) : Prop :=
  started s = true → ∀ item, listed s item → flagged s item → ∃ e, busyWith s e item.

Lemma flagged_touches item other s s' : touches item s s' → other ≠ item → flagged s' other → flagged s other.
Proof.
  intros [_ _ _ Hc Hh _ _] Hne. destruct other as [r|r]; intros (a & Ha & Hrun); exists a; (split; [|done]).
  - by rw -Hc.
  - by rw -Hh.
Qed.

(** An execution that is new, or goes on, on the item it touches. *)
Lemma flagOk_put item e execution s s' :
  touches item s s' → flagOk s → executing execution = item →
  (∀ old, executions s !! e = Some old → executing old = item) →
  (∃ point, phase execution = Awaiting point) ∨ ¬ flagged s' item ∨ (s' = s ∧ executions s !! e = None) →
  flagOk (setExecutions (<[e := execution]> (executions s')) s').
Proof.
  intros Htouch Hok Hitem Hold Hcase Hs other Hin Hflag. simpl in Hs.
  pose proof (touches_control _ _ _ Htouch) as (Hst&_&_&_&Hex&_&_)%control_eq. rw Hst in Hs.
  assert (Hin' : listed s other) by (eapply touches_listed; [exact Htouch|by destruct other]).
  assert (Hflag' : flagged s' other) by (by destruct other).
  assert (Hother : ∀ e', busyWith s e' other → (e' = e → executions s !! e = None) →
    ∃ e', busyWith (setExecutions (<[e := execution]> (executions s')) s') e' other).
  { intros e' (old & point & He' & Hexec & Hphase) Hne. exists e', old, point. split; [|done]. simpl.
    rw Hex lookup_insert_ne //. intros <-. rw Hne // in He'. }
  destruct (decide (other = item)) as [->|Hne].
  - destruct Hcase as [[point Hphase]|[Hnone|[-> Hfresh]]]; [|done|].
    + exists e, execution, point. simpl. by rw lookup_insert_eq.
    + destruct (Hok Hs item Hin' Hflag') as [e' Hbusy]. by eapply Hother.
  - destruct (Hok Hs other Hin' (flagged_touches _ _ _ _ Htouch Hne Hflag')) as [e' Hbusy]. apply (Hother e' Hbusy). intros ->.
    destruct Hbusy as (old & point & He & Hexec & _). apply Hold in He. congruence.
Qed.

Lemma flagOk_lowers s s' :
  (∀ item, flagged s' item → flagged s item) → (∀ item, listed s' item → listed s item) → executions s' = executions s →
  (started s' = true → started s = true) → flagOk s → flagOk s'.
Proof.
  intros Hlow Hlist Hex Hst Hok Hs item Hin Hflag. destruct (Hok (Hst Hs) item) as [e Hbusy]; [by apply Hlist|by apply Hlow|].
  exists e. unfold busyWith. by rw Hex.
Qed.

Lemma scheduleNextTick_frame override now s :
  let s' := (scheduleNextTick override now s).1 in
  cronHeap s' = cronHeap s ∧ heartbeatHeap s' = heartbeatHeap s ∧ cronJobs s' = cronJobs s ∧ heartbeats s' = heartbeats s
  ∧ executions s' = executions s ∧ started s' = started s.
Proof. unfold scheduleNextTick, modify. simpl. by repeat case_match. Qed.

Lemma flagOk_endTick f override now s : flagOk s → flagOk (endTick f override now s).
Proof.
  unfold endTick. pose proof (scheduleNextTick_frame override now (setTicks false (delete f (ticks s)) s)) as H. simpl in H.
  destruct H as (Hc & Hh & Hcj & Hhb & Hex & Hst). apply (flagOk_lowers s).
  - intros [r|r]; simpl; by rw ?Hc ?Hh.
  - intros [r|r]; simpl; by rw ?Hcj ?Hhb.
  - done.
  - by rw Hst.
Qed.

Lemma flagOk_drainLoop f scope m s : wf (setTicks false ∅ s) → flagOk s → flagOk (drainLoop env f scope m s).
Proof.
  intros Hwf Hok. unfold drainLoop. destruct (started s); [|by apply flagOk_endTick]. simpl.
  destruct (getNextDueItem (clock m 0) s) as [item|]; [|by apply flagOk_endTick]. case_match; [by apply flagOk_endTick|].
  pose proof (touches_beginItem env item m s) as Htouch. pose proof (beginItem_settles item m s) as Hsettles.
  destruct (beginItem env item m s) as [s' result]. simpl in *.
  pose proof (touches_control _ _ _ Htouch) as (_&_&_&_&_&Hfr&_)%control_eq.
  assert (Hnew : executions s !! fresh s' = None).
  { rw Hfr. destruct (executions s !! fresh s) as [ex|] eqn:He; [|done]. apply (wf_executions _ Hwf) in He as [He _]. simpl in He. lia. }
  pose proof (flagOk_put (targetOf item s) (fresh s')
    {| executing := targetOf item s; startedAt := clock m 1; phase := phaseOf result |} s s' Htouch Hok eq_refl) as Hput.
  apply Hput; [intros old; by rw Hnew|]. destruct Hsettles as [[point ->]|[Hdrop| ->]]; [left; by eexists|by right; left|by right; right].
Qed.

(** ** The same for calls and restarts *)

(** A record that is listed and running after a call was so before it. *)
Definition quietly (s s' : Scheduler) : Prop :=
  started s' = started s ∧ executions s' = executions s ∧ ∀ item, listed s' item → flagged s' item → listed s item ∧ flagged s item.
#[export] Instance quietly_preorder : PreOrder quietly.
Proof.
  split; [by intros s|]. intros s s1 s2 (?&?&H1) (?&?&H2). split_and!; [congruence..|]. intros item Hin Hflag.
  by destruct (H2 item Hin Hflag); apply H1.
Qed.

Lemma quietly_lowers {A} (c : M Scheduler text A) :
  preserves lowers c →
  (∀ s, let s' := (c s).1 in started s' = started s ∧ executions s' = executions s ∧ cronJobs s' `sublist_of` cronJobs s ∧ heartbeats s' = heartbeats s) →
  preserves quietly c.
Proof.
  intros Hlow Hframe s. destruct (Hframe s) as (Hst & Hex & Hc & Hh). split_and!; [done..|]. intros item Hin Hflag.
  split; [|by apply (Hlow s)]. destruct item; simpl in *; [by eapply elem_of_sublist|by rw -Hh].
Qed.

Lemma quietly_changeJob r f : keepsFlag f → preserves quietly (changeJob r f).
Proof. intros Hf. by apply quietly_lowers; [apply lowers_changeJob|]. Qed.
Lemma quietly_changeHeartbeat r f : keepsHeartbeatFlag f → preserves quietly (changeHeartbeat r f).
Proof. intros Hf. by apply quietly_lowers; [apply lowers_changeHeartbeat|]. Qed.
Lemma quietly_persistState : preserves quietly persistState.
Proof. by apply quietly_lowers; [apply lowers_persistState|]. Qed.
Lemma quietly_emit o : preserves quietly (emit o).
Proof. by apply quietly_lowers; [apply lowers_emit|]. Qed.
Lemma quietly_filterJobs p : preserves quietly (E:=text) (modify (λ s, setCronJobs (List.filter (p s) (cronJobs s)) s)).
Proof. apply quietly_lowers; [apply lowers_filterJobs|]. intros s. split_and!; try done. apply sublist_filter. Qed.
Lemma quietly_scheduleNextTick override now : preserves quietly (scheduleNextTick override now).
Proof.
  apply quietly_lowers; [apply lowers_scheduleNextTick|]. intros s.
  destruct (scheduleNextTick_frame override now s) as (_&_&Hc&?&?&?). split_and!; try done. by rw Hc.
Qed.
Lemma quietly_pushJob job : jobRunningAtMs job = None → preserves quietly (pushJob job).
Proof.
  intros Hjob s. split_and!; [done..|]. intros [r|r] Hin Hflag; [|done].
  destruct Hflag as (j & Hj & Hrun). simpl in *. apply lookup_insert_Some in Hj as [[_ <-]|[Hne Hj]]; [done|].
  split; [|by exists j]. apply elem_of_app in Hin as [?| ->%list_elem_of_singleton]; done.
Qed.
Lemma quietly_pushHeartbeat c : heartbeatRunningAtMs c = None → preserves quietly (pushHeartbeat c).
Proof.
  intros Hjob s. split_and!; [done..|]. intros [r|r] Hin Hflag; [done|].
  destruct Hflag as (j & Hj & Hrun). simpl in *. apply lookup_insert_Some in Hj as [[_ <-]|[Hne Hj]]; [done|].
  split; [|by exists j]. apply elem_of_app in Hin as [?| ->%list_elem_of_singleton]; done.
Qed.

Hint Resolve quietly_persistState quietly_emit quietly_filterJobs quietly_scheduleNextTick : stella.
Hint Extern 1 (preserves quietly (changeJob _ _)) => (apply quietly_changeJob; intros ?; first [left; reflexivity|right; reflexivity]) : stella.
Hint Extern 1 (preserves quietly (changeHeartbeat _ _)) => (apply quietly_changeHeartbeat; intros ?; first [left; reflexivity|right; reflexivity]) : stella.
Hint Extern 1 (preserves quietly (pushJob _)) => (apply quietly_pushJob; reflexivity) : stella.
Hint Extern 1 (preserves quietly (pushHeartbeat _)) => (apply quietly_pushHeartbeat; reflexivity) : stella.

Lemma quietly_call call m s : quietly s (runCall env call m s).
Proof.
  assert (Hlift : ∀ A (c : M Scheduler text A), preserves quietly c → quietly s (c s).1) by (intros A c H; apply H).
  destruct call; apply Hlift;
    unfold addCronJob, updateCronJob, removeCronJob, runCronJob, upsertHeartbeat, runHeartbeat, nextRun, removeScriptFile, afterMutation;
    walk_writes.
Qed.

Definition noFlags (s : Scheduler) : Prop := ∀ item, listed s item → ¬ flagged s item.

Lemma foldr_alter_listed {A} (f : A → A) refs (heap : gmap nat A) r a :
  r ∈ refs → foldr (λ r heap, alter f r heap) heap refs !! r = Some a → ∃ b, a = f b.
Proof.
  revert a. induction refs as [|r' refs IH]; intros a; simpl; [by intros ?%not_elem_of_nil|].
  intros Hin. destruct (decide (r' = r)) as [->|Hne]; [|rw lookup_alter_ne //; apply IH; by apply elem_of_cons in Hin as [->|]].
  rw lookup_alter_eq. intros (b & _ & ->)%fmap_Some. by eexists.
Qed.

Lemma clear_noFlags s : noFlags (clearRecoveredRunningFlags s).1.
Proof.
  unfold clearRecoveredRunningFlags. destruct (hasRunningFlags s) eqn:Hflags; simpl.
  - intros [r|r] Hin (a & Ha & Hrun); simpl in *; by apply foldr_alter_listed in Ha as [b ->].
  - unfold hasRunningFlags in Hflags. apply orb_false_iff in Hflags as [Hc Hh].
    intros [r|r] Hin (a & Ha & Hrun); simpl in *.
    + enough (existsb (λ job, isSome (jobRunningAtMs job)) (jobsOf s) = true) by congruence. apply existsb_exists.
      exists a. split; [|by destruct (jobRunningAtMs a)]. apply list_elem_of_In, list_elem_of_omap. eauto.
    + enough (existsb (λ config, isSome (heartbeatRunningAtMs config)) (heartbeatsOf s) = true) by congruence. apply existsb_exists.
      exists a. split; [|by destruct (heartbeatRunningAtMs a)]. apply list_elem_of_In, list_elem_of_omap. eauto.
Qed.

Lemma quietly_noFlags s s' : quietly s s' → noFlags s → noFlags s'.
Proof. intros (_&_&H) Hno item Hin Hflag. destruct (H item Hin Hflag). by apply (Hno item). Qed.

Lemma quietly_collect directory : preserves quietly (collectOrphanScripts env directory).
Proof. intros s. unfold collectOrphanScripts. by destruct directory; split_and!. Qed.

Lemma noFlags_afterLoad directory now s : noFlags (afterLoad env directory now s).1.
Proof.
  unfold afterLoad. rw bind_gets. unfold bind at 1. destruct (disk s).
  - unfold ret. unfold bind at 1. pose proof (clear_noFlags s) as H. destruct (clearRecoveredRunningFlags s) as [s1 [e|changed]]; [done|].
    simpl in H. revert H. apply quietly_noFlags. pose proof quietly_collect.
    match goal with |- quietly s1 (?run s1).1 => assert (Hrun : preserves quietly run); [walk_writes|apply Hrun] end.
  - assert (Hp : ∃ s0, persistState s = (s0, inr ())) by (by eexists). destruct Hp as [s0 ->].
    unfold bind at 1. pose proof (clear_noFlags s0) as H. destruct (clearRecoveredRunningFlags s0) as [s1 [e|changed]]; [done|].
    simpl in H. revert H. apply quietly_noFlags. pose proof quietly_collect.
    match goal with |- quietly s1 (?run s1).1 => assert (Hrun : preserves quietly run); [walk_writes|apply Hrun] end.
Qed.

(** No turn is rejected. *)
Definition patient (event : Event) : Prop :=
  match event with Answered _ (TurnRejected _) => False | _ => True end.

Lemma step_flagOk event m s s' :
  wf s → flagOk s → patient event → orderly env event m s → step env event m s = Some s' → flagOk s'.
Proof.
  intros Hwf Hok Hpatient Horderly. destruct event as [directory| |call| |e answer|f|f]; simpl in *.
  - intros [= <-]. unfold start. destruct (started s) eqn:Hs; [done|]. intros _ item Hin Hflag.
    by destruct (noFlags_afterLoad directory (clock m 0) (newLife (readState env (disk s)) s) item).
  - intros [= <-]. by intros [=].
  - intros [= <-]. destruct (quietly_call call m s) as (Hst & Hex & Hq). intros Hs item Hin Hflag.
    rw Hst in Hs. destruct (Hq item Hin Hflag) as [Hin' Hflag']. destruct (Hok Hs item Hin' Hflag') as [e Hbusy].
    exists e. unfold busyWith. by rw Hex.
  - destruct (timerFiber s) as [t|] eqn:Ht; simpl; [|done]. intros [= <-]. unfold wake. simpl.
    destruct (started s); simpl; [|exact Hok]. destruct (tickInFlight s) eqn:Hflight; [exact Hok|].
    apply flagOk_drainLoop; [by apply wf_idle|exact Hok].
  - destruct (executions s !! e) as [execution|] eqn:He; [|done]. destruct (phase execution) as [point|] eqn:Hphase; [|done].
    destruct (resume _ _ _ _ _ _) as [run|] eqn:Hrun; simpl; [|done].
    assert (Hanswer : ∀ error, answer ≠ TurnRejected error) by (intros error ->; done).
    pose proof (touches_resume _ _ _ _ _ _ _ Hrun s) as Htouch. pose proof (resume_settles _ _ _ _ _ _ Hrun Hanswer s) as Hsettles.
    destruct (run s) as [s1 result]. simpl in *. intros [= <-].
    apply (flagOk_put (executing execution) e _ s); [done..|intros old ?; by simplify_eq|].
    destruct Hsettles as [[p ->]|Hdrop]; [left; by eexists|by right; left].
  - destruct (ticks s !! f) as [t|] eqn:Hf; [|done]. destruct (executions s !! awaiting t) as [[item at_ [|result]]|] eqn:He; try done.
    intros [= <-]. unfold continueTick. destruct result as [err|[|]]; [by apply flagOk_endTick| |by apply flagOk_endTick].
    apply flagOk_drainLoop; [|done]. eapply (wf_dropTick f t); [done..|]. intros _. by eapply idle_exec.
  - destruct (ticks s !! f) as [t|] eqn:Hf; [|done]. case_bool_decide; [|done]. intros [= <-]. by apply flagOk_endTick.
Qed.
End Flags.

(** C31: a running flag is never left behind: as long as no turn is rejected, every job and heartbeat of
    a started service that says it is running is the one an execution works on, for which the tick in
    flight waits; so, with nothing in flight, every enabled item is idle and counts for the next tick.
    Histories in which the service was started again during a tick of the life before, or an update
    threw half way, are excluded ([orderly]); after such a start two items run and the tick waits for
    one ([a_restart_during_a_tick_overlaps]). *)
Theorem a_running_item_is_being_executed env file s item :
  reaches env patient file s → started s = true → listed s item → flagged s item →
  ∃ e f t, busyWith s e item ∧ tickInFlight s = true ∧ ticks s !! f = Some t ∧ awaiting t = e.
Proof.
  intros Hreach Hs Hin Hflag. pose proof (reaches_ok _ _ _ _ Hreach) as [Hwf _].
  assert (Hok : flagOk s).
  { clear Hs Hin Hflag Hwf. induction Hreach as [|event m s s' Hreach IH Hpatient Horderly Hstep]; [by intros [=]|].
    pose proof (reaches_ok _ _ _ _ Hreach) as [Hwf _]. by eapply step_flagOk. }
  destruct (Hok Hs item Hin Hflag) as [e Hbusy]. destruct (wf_mine s Hwf e item Hs Hbusy Hin) as (f & t & Hf & Ht).
  exists e, f, t. split_and!; [done| |done..]. apply (wf_flight s Hwf). eauto.
Qed.

Lemma a_running_item_is_being_executed_witness :
  ∃ e, busyWith (afterEvents sampleEnv (take 2 watchEvents) watchFile) e (CronItem 1).
Proof.
  destruct (a_running_item_is_being_executed sampleEnv watchFile (afterEvents sampleEnv (take 2 watchEvents) watchFile) (CronItem 1))
    as (e & f & t & Hbusy & _).
  - apply watchFile_woken; [done|]. by intros [| | | |? []| |].
  - vm_compute. reflexivity.
  - vm_compute. left.
  - exists (setJobUpdatedAt 1000 (clearJobError (setJobRunningAtMs (Some 1000) (sampleJob (Watch (u "/s/a.ts")) (Every 60000 None))))).
    split; [vm_compute; reflexivity|done].
  - by exists e.
Defined.
