(* ===== verification/SchedulerWatch.v ===== *)
(** * What a watch reports is told

    A watch advances its baseline when it reports a change, so a report that is lost is a change
    nobody hears of.  Over one lifetime of the service: what the script reported is what the turns
    were told, in order, and at most one report that is parked on the record or under way. *)

From Corelib Require Import ssreflect SpecFloat.
From stdpp Require Import prelude gmap strings.
From S2P Require Import Prelude JsNumber Text HostPaths SchedulerRecords Scheduler SchedulerOrder SchedulerSafety.

#[local] Open Scope Z_scope.

(** ** What an event reports and tells *)

Section Watch.
Context (env : SchedulerEnv) (r : nat).

(** The execution on the record that an event answers, with where it waits. *)
Definition answeredPoint (event : Event) (s : Scheduler) : option (Point * Answer * Z) :=
  match event with
  | Answered e answer =>
      match executions s !! e with
      | Some {| executing := CronItem r'; startedAt := at_; phase := Awaiting point |} =>
          if (r' =? r)%nat then Some (point, answer, at_) else None
      | _ => None
      end
  | _ => None
  end.

(** The report of a script that ends, and of a turn that ends. *)
Definition reportOf (point : Point) (answer : Answer) (at_ : Z) (m : Moment) : list Escalation :=
  match point, scriptResult answer at_ (clock m 0) with
  | WatchRun _, Some result => option_list (escalationOf result (clock m 1))
  | _, _ => []
  end.
Definition tellOf (point : Point) (answer : Answer) : list Escalation :=
  match point, answer with
  | WatchTurn _ escalation, (TurnOk _ | TurnError _) => [escalation]
  | _, _ => []
  end.

Definition reported (event : Event) (m : Moment) (s : Scheduler) : list Escalation :=
  match answeredPoint event s with Some (point, answer, at_) => reportOf point answer at_ m | None => [] end.
Definition told (event : Event) (s : Scheduler) : list Escalation :=
  match answeredPoint event s with Some (point, answer, _) => tellOf point answer | None => [] end.

(** A run of events in one lifetime, with no rejected turn, and what it reported and told. *)
Inductive lifetime (s : Scheduler) : list Escalation → list Escalation → Scheduler → Prop :=
  | lifetime_here : lifetime s [] [] s
  | lifetime_step reports tells event m s1 s2 :
      lifetime s reports tells s1 →
      (match event with Start _ | Answered _ (TurnRejected _) => False | _ => True end) →
      orderly env event m s1 → step env event m s1 = Some s2 →
      lifetime s (reports ++ reported event m s1) (tells ++ told event s1) s2.

Definition pendingOf (s : Scheduler) : option (option Escalation) := pendingEscalation <$> cronHeap s !! r.

(** An execution on the record waits at a point. *)
Definition waitsAt (s : Scheduler) (e : nat) (point : Point) : Prop :=
  ∃ execution, executions s !! e = Some execution ∧ executing execution = CronItem r ∧ phase execution = Awaiting point.

(** ** Writes that leave what is parked *)

Definition keepsPending (s s' : Scheduler) : Prop := pendingOf s' = pendingOf s.
#[export] Instance keepsPending_preorder : PreOrder keepsPending.
Proof. split; [by intros s|]. intros s s1 s2 H1 H2. unfold keepsPending in *. congruence. Qed.

Lemma keepsPending_changeJob r' f : (∀ job, pendingEscalation (f job) = pendingEscalation job) → preserves keepsPending (changeJob r' f).
Proof.
  intros Hf s. unfold keepsPending, pendingOf. simpl. destruct (decide (r' = r)) as [->|Hne]; [|by rw lookup_alter_ne].
  rw lookup_alter_eq. destruct (cronHeap s !! r); simpl; [by rw Hf|done].
Qed.
Lemma keepsPending_changeHeartbeat r' f : preserves keepsPending (changeHeartbeat r' f).
Proof. by intros s. Qed.
Lemma keepsPending_persistState : preserves keepsPending persistState.
Proof. by intros s. Qed.
Lemma keepsPending_emit o : preserves keepsPending (emit o).
Proof. by intros s. Qed.
Lemma keepsPending_append c p m n : preserves keepsPending (appendGeneratedAssistantMessage env c p m n).
Proof. by intros s. Qed.
Lemma keepsPending_filterJobs p : preserves keepsPending (E:=text) (modify (λ s, setCronJobs (p s) s)).
Proof. by intros s. Qed.

Hint Resolve keepsPending_changeHeartbeat keepsPending_persistState keepsPending_emit keepsPending_append keepsPending_filterJobs : stella.
Hint Extern 1 (preserves keepsPending (changeJob _ _)) => (apply keepsPending_changeJob; intros ?; reflexivity) : stella.

Lemma keepsPending_advance r' at_ failed : preserves keepsPending (advanceCronAfterRun env r' at_ failed).
Proof. unfold advanceCronAfterRun, nextRun, removeScriptFile. walk_writes. Qed.
Hint Resolve keepsPending_advance : stella.
Lemma keepsPending_finishCron r' at_ failed : preserves keepsPending (finishCron env r' at_ failed).
Proof. unfold finishCron. walk_writes. Qed.
Lemma keepsPending_deliverCron r' body m n : preserves keepsPending (deliverCron env r' body m n).
Proof. unfold deliverCron, fireOsNotification. walk_writes. Qed.
Lemma keepsPending_markFinished r' a b : preserves keepsPending (markFinished r' a b).
Proof. unfold markFinished. walk_writes. Qed.
Lemma keepsPending_markBusy r' a : preserves keepsPending (markBusy r' a).
Proof. unfold markBusy. walk_writes. Qed.
Lemma keepsPending_escalate r' p e : preserves keepsPending (escalate r' p e).
Proof. unfold escalate, startTurn. walk_writes. Qed.
Hint Resolve keepsPending_finishCron keepsPending_deliverCron keepsPending_markFinished keepsPending_markBusy keepsPending_escalate : stella.

(** ** Calls *)

Definition callKeeps (s s' : Scheduler) : Prop :=
  wf s → is_Some (pendingOf s) → wf s' ∧ executions s' = executions s ∧ pendingOf s' = pendingOf s.
#[export] Instance callKeeps_preorder : PreOrder callKeeps.
Proof.
  split; [by intros s|]. intros s s1 s2 H1 H2 Hwf Hp. destruct (H1 Hwf Hp) as (Hwf1 & He1 & Hp1).
  destruct (H2 Hwf1) as (Hwf2 & He2 & Hp2); [by rw Hp1|]. split_and!; [done|congruence..].
Qed.

Lemma callKeeps_intro {A} (c : M Scheduler text A) :
  preserves keepsWf c → preserves keepsPending c → (∀ s, executions (c s).1 = executions s) → preserves callKeeps c.
Proof. intros Hwf Hp He s Hs _. split_and!; [by apply Hwf|done|apply Hp]. Qed.

Lemma callKeeps_changeJob r' f : (∀ job, pendingEscalation (f job) = pendingEscalation job) → preserves callKeeps (changeJob r' f).
Proof. intros Hf. by apply callKeeps_intro; [apply keepsWf_changeJob|apply keepsPending_changeJob|]. Qed.
Lemma callKeeps_changeHeartbeat r' f : preserves callKeeps (changeHeartbeat r' f).
Proof. by apply callKeeps_intro; [apply keepsWf_changeHeartbeat|apply keepsPending_changeHeartbeat|]. Qed.
Lemma callKeeps_removeScriptFile path : preserves callKeeps (removeScriptFile path).
Proof. by apply callKeeps_intro; [apply keepsWf_removeScriptFile|unfold removeScriptFile; walk_writes|]. Qed.
Lemma callKeeps_filterJobs p : preserves callKeeps (E:=text) (modify (λ s, setCronJobs (List.filter (p s) (cronJobs s)) s)).
Proof. by apply callKeeps_intro; [apply keepsWf_filterJobs|apply keepsPending_filterJobs|]. Qed.

Lemma scheduleNextTick_heap override now s :
  cronHeap (scheduleNextTick override now s).1 = cronHeap s ∧ executions (scheduleNextTick override now s).1 = executions s.
Proof. unfold scheduleNextTick, modify. simpl. by repeat case_match. Qed.

Lemma keepsPending_scheduleNextTick override now : preserves keepsPending (scheduleNextTick override now).
Proof. intros s. unfold keepsPending, pendingOf. by destruct (scheduleNextTick_heap override now s) as [-> _]. Qed.

Lemma callKeeps_afterMutation override now : shortDelay override → preserves callKeeps (afterMutation override now).
Proof.
  intros Hshort. apply callKeeps_intro; [by apply keepsWf_afterMutation|unfold afterMutation; walk_writes; apply keepsPending_scheduleNextTick|].
  intros s. exact (proj2 (scheduleNextTick_heap override now (setDisk (Some (Stored (stateOf s))) s))).
Qed.

Lemma callKeeps_pushJob job : preserves callKeeps (pushJob job).
Proof.
  intros s Hwf [p Hp]. split_and!; [by apply keepsWf_pushJob|done|]. unfold pendingOf in *. simpl.
  apply fmap_Some in Hp as (old & Hold & _). destruct (wf_cron s Hwf) as (_ & _ & Hlt).
  rw lookup_insert_ne //. intros Heq. specialize (Hlt r ltac:(by eexists)). lia.
Qed.
Lemma callKeeps_pushHeartbeat config : preserves callKeeps (pushHeartbeat config).
Proof. by apply callKeeps_intro; [apply keepsWf_pushHeartbeat|intros s|]. Qed.

Hint Resolve callKeeps_changeHeartbeat callKeeps_removeScriptFile callKeeps_filterJobs callKeeps_afterMutation callKeeps_pushJob callKeeps_pushHeartbeat : stella.
Hint Extern 1 (preserves callKeeps (changeJob _ _)) => (apply callKeeps_changeJob; intros ?; reflexivity) : stella.

Lemma callKeeps_call call m s : callKeeps s (runCall env call m s).
Proof.
  assert (Hlift : ∀ A (c : M Scheduler text A), preserves callKeeps c → callKeeps s (c s).1) by (intros A c H; apply H).
  destruct call; apply Hlift; unfold addCronJob, updateCronJob, removeCronJob, runCronJob, upsertHeartbeat, runHeartbeat, nextRun; walk_writes.
Qed.

(** ** The report that is held *)

(** [held] is the report that is parked on the record or on its way to a turn. *)
Record watchInv (s : Scheduler) (held : option Escalation) : Prop := {
  watch_pending : ∃ parked, pendingOf s = Some parked ∧ ∀ escalation, parked = Some escalation → held = Some escalation;
  watch_one : ∀ e e' point point', waitsAt s e point → waitsAt s e' point' → e = e' ∧ point = point';
  watch_turn : ∀ e path escalation, waitsAt s e (WatchTurn path escalation) → held = Some escalation;
  watch_script : ∀ e path, waitsAt s e (WatchAuth path) ∨ waitsAt s e (WatchRun path) → pendingOf s = Some None;
  watch_held : ∀ escalation, held = Some escalation →
    pendingOf s = Some (Some escalation) ∨ ∃ e path, waitsAt s e (WatchTurn path escalation);
}.

Lemma watchInv_frame s s' held :
  pendingOf s' = pendingOf s → (∀ e point, waitsAt s' e point ↔ waitsAt s e point) → watchInv s held → watchInv s' held.
Proof.
  intros Hp Hw []. split; rw ?Hp; try setoid_rewrite Hw; done.
Qed.

Lemma waitsAt_put s s1 e execution e' point :
  executions s1 = executions s →
  waitsAt (setExecutions (<[e := execution]> (executions s1)) s1) e' point ↔
  (e' = e ∧ executing execution = CronItem r ∧ phase execution = Awaiting point) ∨ (e' ≠ e ∧ waitsAt s e' point).
Proof.
  intros Hex. unfold waitsAt. simpl. rw Hex. split.
  - intros (ex & He & Hitem & Hphase). apply lookup_insert_Some in He as [[<- <-]|[Hne He]]; [by left|right]. split; [done|by exists ex].
  - intros [(-> & Hitem & Hphase)|(Hne & ex & He & Hrest)].
    + exists execution. by rw lookup_insert_eq.
    + exists ex. by rw lookup_insert_ne.
Qed.

(** What is held after the one execution on the record has got a new phase. *)
Definition holds (parked : option Escalation) (ph : Phase) (held : option Escalation) : Prop :=
  match ph with
  | Awaiting (WatchTurn _ escalation) => held = Some escalation ∧ (parked = None ∨ parked = Some escalation)
  | Awaiting (WatchAuth _ | WatchRun _) => parked = None ∧ held = None
  | _ => held = parked
  end.

Lemma watchInv_put s s1 e execution parked held :
  executions s1 = executions s → (∀ e' point, waitsAt s e' point → e' = e) → executing execution = CronItem r →
  pendingOf s1 = Some parked → holds parked (phase execution) held →
  watchInv (setExecutions (<[e := execution]> (executions s1)) s1) held.
Proof.
  intros Hex Hone Hitem Hp Hholds.
  assert (Hwait : ∀ e' point, waitsAt (setExecutions (<[e := execution]> (executions s1)) s1) e' point ↔ e' = e ∧ phase execution = Awaiting point).
  { intros e' point. rw (waitsAt_put s) //. split; [|intros [-> ?]; by left].
    intros [(?&_&?)|[Hne Hw]]; [done|]. by apply Hone in Hw. }
  split; try setoid_rewrite Hwait.
  - exists parked. split; [done|]. intros escalation ->. destruct (phase execution) as [[]|]; simpl in Hholds; try done; first [destruct Hholds as [-> [?|?]]; congruence|destruct Hholds; congruence].
  - intros e1 e2 p1 p2 [-> H1] [-> H2]. split; [done|congruence].
  - intros e1 path escalation [-> Hphase]. rw Hphase in Hholds. by destruct Hholds.
  - intros e1 path [[-> Hphase]|[-> Hphase]]; rw Hphase in Hholds; destruct Hholds as [-> _]; done.
  - intros escalation ->. unfold pendingOf in *. change (cronHeap (setExecutions _ s1)) with (cronHeap s1). rw Hp.
    destruct (phase execution) as [[| | | | |path esc| |]|] eqn:Hphase; simpl in Hholds; try (left; congruence); try (by destruct Hholds).
    destruct Hholds as [[= ->] _]. right. by exists e, path.
Qed.

(** ** Its steps *)

Definition isWatchPoint (point : Point) : bool :=
  match point with WatchAuth _ | WatchRun _ | WatchTurn _ _ => true | _ => false end.

Lemma holds_other parked ph : (∀ point, ph = Awaiting point → isWatchPoint point = false) → holds parked ph parked.
Proof. intros Hother. destruct ph as [point|]; [|done]. specialize (Hother point eq_refl). by destruct point. Qed.

Lemma holds_result parked (result : text + (Point + RunOutcome)) :
  (∀ point, result = inr (inl point) → isWatchPoint point = false) → holds parked (phaseOf result) parked.
Proof. intros H. apply holds_other. intros point Hph. apply H. destruct result as [|[|]]; naive_solver. Qed.

(** A method that never suspends. *)
Definition finishes (c : M Scheduler text (Point + RunOutcome)) : Prop := ∀ s point, (c s).2 ≠ inr (inl point).
Lemma finishes_bind {A} (c : M Scheduler text A) k : (∀ x, finishes (k x)) → finishes (bind c k).
Proof. intros Hk s point. unfold bind. destruct (c s) as [s' [e|x]]; [done|apply Hk]. Qed.
Lemma finishes_finishCron r' at_ failed : finishes (finishCron env r' at_ failed).
Proof. unfold finishCron. repeat (apply finishes_bind; intros ?). done. Qed.
Lemma finishes_markBusy r' at_ : finishes (markBusy r' at_).
Proof. unfold markBusy. repeat (apply finishes_bind; intros ?). done. Qed.
Lemma finishes_throw e : finishes (throw e).
Proof. done. Qed.

Ltac finishes := repeat first [apply finishes_finishCron|apply finishes_markBusy|apply finishes_throw|apply finishes_bind; intros ?].

Lemma finishes_notify r' at_ m : finishes (executeCronNotify env r' at_ m).
Proof.
  intros s point. unfold executeCronNotify, withJob at 1. destruct (cronHeap s !! r') as [job|]; [|done].
  destruct (jobPayload job); try done.
  match goal with |- (?run s).2 ≠ _ => assert (Hrun : finishes run); [finishes|apply Hrun] end.
Qed.

Lemma runPayload_holds active runner at_ m s parked :
  pendingOf s = Some parked → pendingEscalation active = parked →
  holds parked (phaseOf (runPayload env r active runner at_ m s).2) parked ∧ keepsPending s (runPayload env r active runner at_ m s).1.
Proof.
  intros Hp Hactive. split.
  - unfold runPayload. destruct (jobPayload active).
    + apply holds_result. intros point Hpoint. by apply finishes_notify in Hpoint.
    + destruct runner; [done|]. apply holds_result. intros point Hpoint. by apply finishes_markBusy in Hpoint.
    + destruct runner; [|apply holds_result; intros point Hpoint; by apply finishes_markBusy in Hpoint]. simpl.
      destruct (pendingEscalation active) as [escalation|] eqn:Hpending; [|simpl; by rw -Hactive].
      unfold escalate, withJob. unfold pendingOf in Hp. destruct (cronHeap s !! r); [|done]. simpl. rw -Hactive. auto.
    + done.
    + destruct runner; [done|]. apply holds_result. intros point Hpoint. by apply finishes_markBusy in Hpoint.
  - assert (Hkeeps : preserves keepsPending (runPayload env r active runner at_ m)); [|apply Hkeeps].
    unfold runPayload, executeCronNotify, startTurn. walk_writes.
Qed.

(** The first stretch of an execution on the record. *)
Lemma executeCronJob_holds id runner m s :
  match findJob id s with
  | Some (r', _) => r' = r → ∀ parked, pendingOf s = Some parked →
      holds parked (phaseOf (executeCronJob env id runner m s).2) parked ∧ keepsPending s (executeCronJob env id runner m s).1
  | None => executeCronJob env id runner m s = (s, inr (inr Done))
  end.
Proof.
  unfold executeCronJob. rw bind_gets. destruct (findJob id s) as [[r' active]|] eqn:Hfind; [|done]. intros -> parked Hp.
  apply findRef_Some in Hfind as (_ & Hactive & _).
  assert (Hparked : pendingEscalation active = parked) by (unfold pendingOf in Hp; rw Hactive in Hp; by injection Hp).
  destruct (jobEnabled active); cbn [negb]; [|done].
  assert (Hbegin : ∃ s1, beginRun r (clock m 1) s = (s1, inr ()) ∧ keepsPending s s1).
  { eexists. split; [reflexivity|]. assert (Hkeeps : preserves keepsPending (beginRun r (clock m 1))); [unfold beginRun; walk_writes|apply Hkeeps]. }
  destruct Hbegin as (s1 & Heq & Hkeeps). unfold bind. rw Heq.
  destruct (runPayload_holds active runner (clock m 1) m s1 parked) as [Hholds Hkeeps']; [by rw Hkeeps|done|]. split; [done|].
  etrans; [exact Hkeeps|exact Hkeeps'].
Qed.

Lemma bind_assoc {A B C} (c : M Scheduler text A) (k : A → M Scheduler text B) (k' : B → M Scheduler text C) s :
  bind (bind c k) k' s = bind c (λ x, bind (k x) k') s.
Proof. unfold bind. by destruct (c s) as [s' [e|x]]. Qed.

(** Sets what is parked, then leaves it. *)
Lemma bind_setPending {A} q (k : M Scheduler text A) s parked :
  pendingOf s = Some parked → preserves keepsPending k → pendingOf ((changeJob r (setPendingEscalation q);;; k) s).1 = Some q.
Proof.
  intros Hp Hk. unfold bind, changeJob, modify. simpl.
  rw (Hk (setCronHeap (alter (setPendingEscalation q) r (cronHeap s)) s)). unfold pendingOf in *. simpl.
  rw lookup_alter_eq. by destruct (cronHeap s !! r).
Qed.

Lemma keepsPending_returns {A} (c : M Scheduler text A) s parked : pendingOf s = Some parked → preserves keepsPending c → pendingOf (c s).1 = Some parked.
Proof. intros Hp Hc. by rw (Hc s). Qed.

Lemma holds_finishes parked c s : finishes c → holds parked (phaseOf (c s).2) parked.
Proof. intros Hc. apply holds_result. intros point Hpoint. by apply Hc in Hpoint. Qed.

Lemma resume_watch point answer at_ m run s parked held :
  resume env (CronItem r) at_ point answer m = Some run → (∀ error, answer ≠ TurnRejected error) →
  pendingOf s = Some parked → holds parked (Awaiting point) held →
  ∃ parked' held', pendingOf (run s).1 = Some parked' ∧ holds parked' (phaseOf (run s).2) held'
    ∧ option_list held ++ reportOf point answer at_ m = tellOf point answer ++ option_list held'.
Proof.
  intros Hrun Hpatient Hp Hholds. unfold resume in Hrun. unfold reportOf, tellOf. destruct point; try done; simpl in Hholds.
  - destruct answer; try done. injection Hrun as <-. exists parked, held. split_and!; [done..|by rw app_nil_r].
  - destruct (scriptResult answer at_ (clock m 0)) as [result|]; [|done]. injection Hrun as <-. subst held.
    exists parked, parked. split_and!; [|apply holds_finishes; unfold executeCronScript; finishes; by case_match; finishes|by rw app_nil_r].
    apply keepsPending_returns; [done|]. unfold executeCronScript. walk_writes.
  - subst held. assert (preserves keepsPending run ∧ finishes run) as [Hkeeps Hfinishes].
    { destruct answer; try done; injection Hrun as <-; (split; [walk_writes|finishes]). }
    exists parked, parked. split_and!; [by apply keepsPending_returns|by apply holds_finishes|by rw app_nil_r].
  - destruct Hholds as [-> ->]. destruct answer; try done. injection Hrun as <-. by exists None, None.
  - destruct Hholds as [-> ->]. destruct (scriptResult answer at_ (clock m 0)) as [result|]; [|done]. injection Hrun as <-.
    exists None, (escalationOf result (clock m 1)). unfold checkWatch. split_and!; [| |done].
    + apply keepsPending_returns; [done|]. walk_writes.
    + unfold bind at 1, changeJob at 1, modify. destruct (escalationOf result (clock m 1)) as [escalation|].
      * unfold escalate, withJob. simpl. unfold pendingOf in Hp. rw lookup_alter_eq. destruct (cronHeap s !! r); [|done]. simpl. auto.
      * apply holds_finishes. finishes.
  - destruct Hholds as [-> Hparked]. destruct answer; try done; injection Hrun as <-.
    + exists None, None. split_and!; [|apply holds_finishes; finishes|done].
      rw bind_assoc. apply (bind_setPending None _ s parked Hp). destruct (reason escalation); walk_writes.
    + exists (Some escalation), (Some escalation). split_and!; [|apply holds_finishes; finishes|done].
      apply (bind_setPending (Some escalation) _ s parked Hp). walk_writes.
    + exists None, None. split_and!; [|apply holds_finishes; finishes|done].
      rw bind_assoc. apply (bind_setPending None _ s parked Hp). walk_writes.
    + by edestruct Hpatient.
  - subst held. assert (preserves keepsPending run ∧ finishes run) as [Hkeeps Hfinishes].
    { destruct answer; try done; injection Hrun as <-; (split; [walk_writes|finishes]). }
    exists parked, parked. split_and!; [by apply keepsPending_returns|by apply holds_finishes|by rw app_nil_r].
Qed.

Lemma watchInv_same s s' held : cronHeap s' = cronHeap s → executions s' = executions s → watchInv s held → watchInv s' held.
Proof. intros Hc He. apply watchInv_frame; [by unfold pendingOf; rw Hc|]. intros e point. unfold waitsAt. by rw He. Qed.

Lemma watchInv_endTick f override now s held : watchInv s held → watchInv (endTick f override now s) held.
Proof.
  unfold endTick. destruct (scheduleNextTick_heap override now (setTicks false (delete f (ticks s)) s)) as [Hc He]. by apply watchInv_same.
Qed.

(** An execution on another record. *)
Lemma watchInv_other item s s1 e execution held :
  touches item s s1 → item ≠ CronItem r → executing execution = item → (∀ old, executions s !! e = Some old → executing old = item) →
  watchInv s held → watchInv (setExecutions (<[e := execution]> (executions s1)) s1) held.
Proof.
  intros [Hcontrol _ _ Hc _ _ _] Hne Hitem Hold. apply control_eq in Hcontrol as (_&_&_&_&Hex&_&_). apply watchInv_frame.
  - unfold pendingOf. simpl. by rw Hc.
  - intros e' point. rw (waitsAt_put s) //. rw Hitem. split; [intros [(_&Heq&_)|[_ ?]]; done|]. intros Hw. right. split; [|done].
    intros ->. destruct Hw as (old & He & Heq & _). apply Hold in He. congruence.
Qed.

Lemma watchInv_drainLoop f scope m s held : wf (setTicks false ∅ s) → watchInv s held → watchInv (drainLoop env f scope m s) held.
Proof.
  intros Hwf Hinv. unfold drainLoop. destruct (started s) eqn:Hs; [|by apply watchInv_endTick]. simpl.
  destruct (getNextDueItem (clock m 0) s) as [item|]; [|by apply watchInv_endTick]. case_match; [by apply watchInv_endTick|].
  pose proof (touches_beginItem env item m s) as Htouch.
  pose proof (touches_control _ _ _ Htouch) as (_&_&_&_&Hex&Hfr&_)%control_eq.
  assert (Hnew : executions s !! fresh s = None).
  { destruct (executions s !! fresh s) as [ex|] eqn:He; [|done]. apply (wf_executions _ Hwf) in He as [He _]. simpl in He. lia. }
  destruct (decide (targetOf item s = CronItem r)) as [Htarget|Htarget].
  2:{ destruct (beginItem env item m s) as [s' result]. simpl in *. eapply watchInv_same;
        [| |eapply (watchInv_other (targetOf item s) s s' (fresh s') {| executing := targetOf item s; startedAt := clock m 1; phase := phaseOf result |});
            [done|done|done|by rw Hfr Hnew|done]]; done. }
  destruct item as [r0 job|r0 config]; [|done]. simpl in Htarget.
  destruct (watch_pending s held Hinv) as (parked & Hp & Hparked).
  pose proof (executeCronJob_holds (jobId job) (requiresRunner (DueCron r0 job)) m s) as Hbegin. simpl in *.
  destruct (findJob (jobId job) s) as [[r' active]|] eqn:Hfind; simpl in Htarget; injection Htarget as ->.
  - assert (Hnone : ∀ e point, ¬ waitsAt s e point).
    { intros e point (ex & He & Hitem & Hphase). apply findRef_Some in Hfind as (Hin & _ & _).
      destruct (wf_mine _ Hwf e (CronItem r) Hs) as (f' & t & Hf & _); [by exists ex, point|done|]. simpl in Hf. by rw lookup_empty in Hf. }
    assert (held = parked) as ->.
    { destruct held as [escalation|].
      - destruct (watch_held _ _ Hinv escalation eq_refl) as [Heq|(e & path & Hw)]; [congruence|by apply Hnone in Hw].
      - destruct parked as [escalation|]; [by specialize (Hparked escalation eq_refl)|done]. }
    destruct (Hbegin eq_refl parked Hp) as [Hholds Hkeeps]. destruct (executeCronJob env (jobId job) _ m s) as [s' result]. simpl in *.
    eapply watchInv_same; [| |eapply (watchInv_put s s' (fresh s')
      {| executing := CronItem r; startedAt := clock m 1; phase := phaseOf result |} parked parked); try done].
    + done.
    + done.
    + intros e' point Hw. by apply Hnone in Hw.
    + by rw -Hp.
  - rw Hbegin. simpl. eapply (watchInv_frame s); [done| |done]. intros e point. unfold waitsAt. simpl. split.
    + intros (ex & He & Hitem & Hphase). apply lookup_insert_Some in He as [[_ <-]|[_ He]]; [done|by exists ex].
    + intros (ex & He & Hrest). exists ex. rw lookup_insert_ne; [|done]. intros <-. by rw Hnew in He.
Qed.

(** ** Every event *)

Lemma answeredPoint_other e answer s : (∀ point, ¬ waitsAt s e point) → answeredPoint (Answered e answer) s = None.
Proof.
  intros Hno. unfold answeredPoint. destruct (executions s !! e) as [[[r'|r'] at_ [point|]]|] eqn:He; try done.
  destruct (Nat.eqb_spec r' r) as [->|]; [|done]. destruct (Hno point). by eexists.
Qed.

Lemma step_watch event m s s' held :
  wf s → watchInv s held → (match event with Start _ | Answered _ (TurnRejected _) => False | _ => True end) →
  step env event m s = Some s' →
  ∃ held', watchInv s' held' ∧ option_list held ++ reported event m s = told event s ++ option_list held'.
Proof.
  intros Hwf Hinv Hallowed. destruct event as [directory| |call| |e answer|f|f]; simpl in *; [done|..].
  - intros [= <-]. exists held. split; [by apply (watchInv_same s)|by rw app_nil_r].
  - intros [= <-]. exists held. split; [|by rw app_nil_r]. destruct (watch_pending s held Hinv) as (parked & Hp & _).
    destruct (callKeeps_call call m s Hwf) as (_ & He & Hpend); [by rw Hp|].
    apply (watchInv_frame s); [done| |done]. intros e point. unfold waitsAt. by rw He.
  - destruct (timerFiber s) as [t|] eqn:Ht; simpl; [|done]. intros [= <-]. exists held. split; [|by rw app_nil_r].
    unfold wake. simpl. destruct (negb (started s) || tickInFlight s) eqn:Hskip; [by apply (watchInv_same s)|].
    apply orb_false_iff in Hskip as [_ Hflight]. apply watchInv_drainLoop; [by apply wf_idle|by apply (watchInv_same s)].
  - destruct (executions s !! e) as [execution|] eqn:He; [|done]. destruct (phase execution) as [point|] eqn:Hphase; [|done].
    destruct (resume _ _ _ _ _ _) as [run|] eqn:Hrun; simpl; [|done].
    pose proof (touches_resume _ _ _ _ _ _ _ Hrun s) as Htouch.
    destruct (decide (executing execution = CronItem r)) as [Hitem|Hitem].
    + assert (Hpoint : answeredPoint (Answered e answer) s = Some (point, answer, startedAt execution)).
      { unfold answeredPoint. rw He. destruct execution. simpl in *. subst. by rw Nat.eqb_refl. }
      unfold reported, told. rw Hpoint. rw Hitem in Hrun.
      destruct (watch_pending s held Hinv) as (parked & Hp & Hparked).
      assert (Hwait : waitsAt s e point) by (by exists execution).
      assert (Hholds : holds parked (Awaiting point) held).
      { destruct point; simpl; try (destruct held as [escalation|]; [|by destruct parked as [x|]; [specialize (Hparked x eq_refl)|]];
          destruct (watch_held _ _ Hinv escalation eq_refl) as [Heq|(e' & path' & Hw)]; [congruence|];
          by destruct (watch_one _ _ Hinv _ _ _ _ Hwait Hw)).
        - pose proof (watch_script _ _ Hinv e path (or_introl Hwait)) as Hnone. rw Hp in Hnone. injection Hnone as ->. split; [done|].
          destruct held as [escalation|]; [|done]. destruct (watch_held _ _ Hinv escalation eq_refl) as [Heq|(e' & path' & Hw)]; [congruence|].
          by destruct (watch_one _ _ Hinv _ _ _ _ Hwait Hw).
        - pose proof (watch_script _ _ Hinv e path (or_intror Hwait)) as Hnone. rw Hp in Hnone. injection Hnone as ->. split; [done|].
          destruct held as [escalation|]; [|done]. destruct (watch_held _ _ Hinv escalation eq_refl) as [Heq|(e' & path' & Hw)]; [congruence|].
          by destruct (watch_one _ _ Hinv _ _ _ _ Hwait Hw).
        - pose proof (watch_turn _ _ Hinv e path escalation Hwait) as ->. split; [done|]. destruct parked as [x|]; [|by left].
          right. by specialize (Hparked x eq_refl). }
      destruct (resume_watch point answer (startedAt execution) m run s parked held Hrun) as (parked' & held' & Hp' & Hholds' & Hlog);
        [by intros error ->|done..|].
      intros [= <-]. exists held'. split; [|done]. destruct (run s) as [s1 result]. simpl in *.
      pose proof (touches_control _ _ _ Htouch) as (_&_&_&_&Hex&_&_)%control_eq.
      eapply (watchInv_put s); [done| |done|done|done]. intros e' point' Hw. by destruct (watch_one _ _ Hinv _ _ _ _ Hwait Hw).
    + destruct (run s) as [s1 result]. simpl in *. intros [= <-]. exists held. unfold reported, told. rw answeredPoint_other.
      { intros p (ex & He' & Hi & _). rw He in He'. by injection He' as <-. }
      split; [|by rw app_nil_r]. eapply (watchInv_other (executing execution) s); [done..|by intros old; rw He; intros [= <-]|done].
  - destruct (ticks s !! f) as [t|] eqn:Hf; [|done]. destruct (executions s !! awaiting t) as [[item at_ [|result]]|] eqn:He; try done.
    intros [= <-]. exists held. split; [|by rw app_nil_r]. unfold continueTick. destruct result as [err|[|]];
      [by apply watchInv_endTick| |by apply watchInv_endTick].
    apply watchInv_drainLoop; [|done]. eapply (wf_dropTick f t); [done..|]. intros _. by eapply idle_exec.
  - destruct (ticks s !! f) as [t|] eqn:Hf; [|done]. case_bool_decide; [|done]. intros [= <-]. exists held.
    split; [by apply watchInv_endTick|by rw app_nil_r].
Qed.
End Watch.

(** C2: every report of a watch is told exactly once and in order: over any run of one lifetime without
    a rejected turn, whatever is called, stopped, updated or busy meanwhile, the report that was parked
    at the start and those the script made are those that turns were told, followed by at most one that
    is held; the held one is parked on the record or on its way in a turn, and while there is one no
    script of this watch runs.  Histories in which the service was started again during a tick of the
    life before, or an update threw half way, are excluded ([orderly]): after such a start two ticks
    can work on one watch ([a_restart_during_a_tick_overlaps]). *)
Theorem every_report_is_told_once env file r parked s0 reports tells s :
  reaches env anyEvent file s0 → pendingOf r s0 = Some parked → (∀ e point, ¬ waitsAt r s0 e point) →
  lifetime env r s0 reports tells s →
  ∃ held, option_list parked ++ reports = tells ++ option_list held
    ∧ (∀ escalation, held = Some escalation →
        (pendingOf r s = Some (Some escalation) ∨ ∃ e path, waitsAt r s e (WatchTurn path escalation))
        ∧ ∀ e path, ¬ waitsAt r s e (WatchAuth path) ∧ ¬ waitsAt r s e (WatchRun path))
    ∧ (held = None → pendingOf r s = Some None ∧ ∀ e path escalation, ¬ waitsAt r s e (WatchTurn path escalation)).
Proof.
  intros Hreach Hparked Hnone Hlife. apply reaches_ok in Hreach.
  assert (Hall : ∃ held, (wf s ∧ armed s) ∧ watchInv r s held ∧ option_list parked ++ reports = tells ++ option_list held).
  { induction Hlife as [|reports tells event m s1 s2 _ IH Hallowed Horderly Hstep].
    - exists parked. split; [done|]. split; [|by rw app_nil_r]. split; try (by intros * H%Hnone).
      + exists parked. split; [done|by intros ? ->].
      + intros e path [H|H]; by apply Hnone in H.
      + intros escalation ->. by left.
    - destruct IH as (held & [Hwf Harmed] & Hinv & Hlog).
      destruct (step_watch env r event m s1 s2 held Hwf Hinv Hallowed Hstep) as (held' & Hinv' & Hlog').
      exists held'. split; [by eapply step_ok|]. split; [done|]. rw app_assoc Hlog -!app_assoc. f_equal. exact Hlog'. }
  destruct Hall as (held & _ & Hinv & Hlog). exists held. split; [done|]. split.
  - intros escalation ->. pose proof (watch_held _ _ _ Hinv escalation eq_refl) as Hheld. split; [done|].
    assert (Hscript : ∀ e path, ¬ (waitsAt r s e (WatchAuth path) ∨ waitsAt r s e (WatchRun path))).
    { intros e path Hw. pose proof (watch_script _ _ _ Hinv e path Hw) as Hp. destruct Hheld as [Heq|(e' & path' & Hw')]; [congruence|].
      destruct Hw as [Hw|Hw]; by destruct (watch_one _ _ _ Hinv _ _ _ _ Hw Hw'). }
    intros e path. specialize (Hscript e path). tauto.
  - intros ->. destruct (watch_pending _ _ _ Hinv) as ([escalation|] & Hp & Hparked'); [by specialize (Hparked' escalation eq_refl)|].
    split; [done|]. intros e path escalation Hw. by pose proof (watch_turn _ _ _ Hinv e path escalation Hw).
Qed.

Fixpoint logOf (env : SchedulerEnv) (r : nat) (events : list (Event * Moment)) (s : Scheduler) : list Escalation * list Escalation :=
  match events with
  | [] => ([], [])
  | (event, m) :: events =>
      match step env event m s with
      | Some s' => (reported r event m s ++ (logOf env r events s').1, told r event s ++ (logOf env r events s').2)
      | None => ([], [])
      end
  end.

Lemma lifetime_plain env r events s0 reports tells s s' :
  lifetime env r s0 reports tells s → forallb (λ e, plainEvent e.1) events = true → runEvents env events s = Some s' →
  lifetime env r s0 (reports ++ (logOf env r events s).1) (tells ++ (logOf env r events s).2) s'.
Proof.
  revert reports tells s. induction events as [|[event m] events IH]; intros reports tells s Hlife; simpl; [by intros _ [= <-]; rw !app_nil_r|].
  intros [Hplain Hrest]%andb_true_iff. destruct (step env event m s) as [s1|] eqn:Hstep; [|done]. intros Hrun. simpl. rw !app_assoc.
  apply IH; [|done|done]. eapply lifetime_step; [done| | |done]; destruct event; try done. by destruct answer.
Qed.

Lemma every_report_is_told_once_witness :
  ∃ held, option_list None ++ [watchReport] = [] ++ option_list held ∧ (held = None → False).
Proof.
  destruct (every_report_is_told_once sampleEnv watchFile 1 None (afterEvents sampleEnv (take 1 watchEvents) watchFile)
    [watchReport] [] (afterEvents sampleEnv watchEvents watchFile)) as (held & Hlog & _).
  - by apply (reaches_started sampleEnv anyEvent watchFile None (at_ 500)).
  - vm_compute. reflexivity.
  - intros e point (execution & He & _). vm_compute in He. discriminate He.
  - apply (lifetime_plain sampleEnv 1 (drop 1 watchEvents) _ [] [] (afterEvents sampleEnv (take 1 watchEvents) watchFile));
      [constructor|vm_compute; reflexivity|vm_compute; reflexivity].
  - exists held. split; [exact Hlog|]. intros ->. discriminate Hlog.
Defined.
