(* ===== verification/SchedulerRestart.v ===== *)
(** * What survives a restart

    The messages of a conversation stay in order and bounded; what a call leaves is in the file, and a
    service that starts from that file has it back. *)

From Corelib Require Import ssreflect SpecFloat.
From stdpp Require Import prelude gmap strings sorting.
From S2P Require Import Prelude JsNumber Text HostPaths SchedulerRecords Scheduler SchedulerOrder SchedulerSafety.

#[local] Open Scope Z_scope.

(** ** The messages of every conversation *)

Section Inbox.
Context (env : SchedulerEnv) (law : Comparator (localeCompare env)).

Definition goodInbox (s : Scheduler) : Prop :=
  ∀ conversationId bucket, generatedEvents s !! conversationId = Some bucket → goodBucket (localeCompare env) bucket.

Definition keepsInbox (s s' : Scheduler) : Prop := goodInbox s → goodInbox s'.
#[export] Instance keepsInbox_preorder : PreOrder keepsInbox.
Proof. split; [by intros s Hs|]. intros s s1 s2 H1 H2 Hs. by apply H2, H1. Qed.

Lemma goodInbox_same s s' : generatedEvents s' = generatedEvents s → keepsInbox s s'.
Proof. intros He Hs c b. rw He. apply Hs. Qed.

Lemma keepsInbox_write f : (∀ s, generatedEvents (f s) = generatedEvents s) → preserves keepsInbox (E:=text) (modify f).
Proof. intros Hf s. exact (goodInbox_same _ _ (Hf s)). Qed.

Lemma keepsInbox_append c p m n : preserves keepsInbox (appendGeneratedAssistantMessage env c p m n).
Proof using law.
  intros s Hs c' b. simpl. intros [[<- <-]|[_ Hb]]%lookup_insert_Some; [|by eapply Hs].
  assert (Hin : inOrder (localeCompare env) (eventsOf c s)).
  { unfold eventsOf. destruct (generatedEvents s !! c) as [bucket|] eqn:Hbucket; [by apply Hs in Hbucket as []|constructor]. }
  apply capEvents_good; [by apply insertEventAscending_inOrder|]. intros Heq.
  pose proof (length_insertEventAscending (localeCompare env) (eventsOf c s)
    {| eventId := u "schedule:" ++ uuid m; eventConversationId := c; timestamp := clock m n; eventPayload := p |}) as Hlen.
  by rw Heq in Hlen.
Qed.

Lemma scheduleNextTick_state override now s :
  let s' := (scheduleNextTick override now s).1 in generatedEvents s' = generatedEvents s ∧ stateOf s' = stateOf s ∧ disk s' = disk s.
Proof. unfold scheduleNextTick, modify. simpl. by repeat case_match. Qed.

Lemma keepsInbox_scheduleNextTick override now : preserves keepsInbox (scheduleNextTick override now).
Proof. intros s. apply goodInbox_same. apply scheduleNextTick_state. Qed.

Lemma keepsInbox_changeJob r f : preserves keepsInbox (changeJob r f).
Proof. by apply keepsInbox_write. Qed.
Lemma keepsInbox_changeHeartbeat r f : preserves keepsInbox (changeHeartbeat r f).
Proof. by apply keepsInbox_write. Qed.
Lemma keepsInbox_persistState : preserves keepsInbox persistState.
Proof. by apply keepsInbox_write. Qed.
Lemma keepsInbox_emit o : preserves keepsInbox (emit o).
Proof. by apply keepsInbox_write. Qed.
Lemma keepsInbox_pushJob job : preserves keepsInbox (pushJob job).
Proof. by apply keepsInbox_write. Qed.
Lemma keepsInbox_pushHeartbeat config : preserves keepsInbox (pushHeartbeat config).
Proof. by apply keepsInbox_write. Qed.
Lemma keepsInbox_filterJobs p : preserves keepsInbox (E:=text) (modify (λ s, setCronJobs (p s) s)).
Proof. by apply keepsInbox_write. Qed.

Hint Resolve keepsInbox_append keepsInbox_scheduleNextTick keepsInbox_changeJob keepsInbox_changeHeartbeat keepsInbox_persistState
  keepsInbox_emit keepsInbox_pushJob keepsInbox_pushHeartbeat keepsInbox_filterJobs : stella.

Lemma keepsInbox_advance r at_ failed : preserves keepsInbox (advanceCronAfterRun env r at_ failed).
Proof. unfold advanceCronAfterRun, nextRun, removeScriptFile. walk_writes. Qed.
Hint Resolve keepsInbox_advance : stella.

Lemma keepsInbox_call call m s : goodInbox s → goodInbox (runCall env call m s).
Proof.
  assert (Hlift : ∀ A (c : M Scheduler text A), preserves keepsInbox c → goodInbox s → goodInbox (c s).1) by (intros A c H; apply H).
  destruct call; apply Hlift;
    unfold addCronJob, updateCronJob, removeCronJob, runCronJob, upsertHeartbeat, runHeartbeat, nextRun, removeScriptFile, afterMutation;
    walk_writes.
Qed.

Lemma keepsInbox_resume item at_ point answer m run : resume env item at_ point answer m = Some run → preserves keepsInbox run.
Proof using law.
  unfold resume, finishTurn, finishWatch, finishHeartbeat. intros Hrun.
  destruct item as [r|r], point; try done; try (destruct answer; try done); try (destruct (scriptResult _ _ _); [|done]);
    injection Hrun as <-;
    unfold executeCronScript, checkWatch, escalate, startTurn, markBusy, markFinished, finishCron, deliverCron, fireOsNotification, noteHeartbeat;
    walk_writes.
Qed.

Lemma keepsInbox_beginItem item m : preserves keepsInbox (beginItem env item m).
Proof using law.
  destruct item; unfold beginItem, executeCronJob, executeHeartbeat, beginRun, beginHeartbeat, runPayload, executeCronNotify, escalate, startTurn,
    markBusy, markFinished, markSkipped, finishCron, deliverCron, fireOsNotification; walk_writes.
Qed.

Lemma goodInbox_read file : ∀ c b, storedEvents (readState env file) !! c = Some b → goodBucket (localeCompare env) b.
Proof using law.
  intros c b. destruct file as [[state|]|]; simpl; [|by intros ?%lookup_empty_Some..].
  intros Hb. apply lookup_omap_Some in Hb as (events & Hb & _). destruct (Nat.ltb_spec 0 (length events)) as [Hlen|]; [|done].
  injection Hb as <-. apply capEvents_good; [by apply sortBy_sorted, compareEvents_law|].
  intros Heq. pose proof (Permutation_length (sortBy_perm (compareEvents (localeCompare env)) events)) as Hperm.
  unfold sortEventsAscending in Heq. rw Heq in Hperm. simpl in Hperm. lia.
Qed.

Lemma keepsInbox_afterLoad directory now : preserves keepsInbox (afterLoad env directory now).
Proof.
  assert (preserves keepsInbox clearRecoveredRunningFlags).
  { intros s. apply goodInbox_same. unfold clearRecoveredRunningFlags. by case_match. }
  assert (preserves keepsInbox (collectOrphanScripts env directory)).
  { intros s. apply goodInbox_same. unfold collectOrphanScripts. by destruct directory. }
  unfold afterLoad. walk_writes.
Qed.

Lemma goodInbox_endTick f override now s : goodInbox s → goodInbox (endTick f override now s).
Proof. unfold endTick. apply (keepsInbox_scheduleNextTick override now (setTicks false (delete f (ticks s)) s)). Qed.

Lemma goodInbox_drainLoop f scope m s : goodInbox s → goodInbox (drainLoop env f scope m s).
Proof using law.
  intros Hs. unfold drainLoop. destruct (started s); [|by apply goodInbox_endTick]. simpl.
  destruct (getNextDueItem (clock m 0) s) as [item|]; [|by apply goodInbox_endTick]. case_match; [by apply goodInbox_endTick|].
  pose proof (keepsInbox_beginItem item m s Hs) as Hnew. by destruct (beginItem env item m s).
Qed.

Lemma step_inbox event m s s' : goodInbox s → step env event m s = Some s' → goodInbox s'.
Proof using law.
  intros Hs. destruct event as [directory| |call| |e answer|f|f]; simpl.
  - intros [= <-]. unfold start. destruct (started s); [done|]. apply keepsInbox_afterLoad. intros c b Hb. simpl in Hb. by eapply goodInbox_read.
  - by intros [= <-].
  - intros [= <-]. by apply keepsInbox_call.
  - destruct (timerFiber s) as [t|]; simpl; [|done]. intros [= <-]. unfold wake. case_match; [done|]. by apply goodInbox_drainLoop.
  - destruct (executions s !! e) as [execution|]; [|done]. destruct (phase execution) as [point|]; [|done].
    destruct (resume _ _ _ _ _ _) as [run|] eqn:Hrun; simpl; [|done]. pose proof (keepsInbox_resume _ _ _ _ _ _ Hrun s Hs) as Hnew.
    destruct (run s). by intros [= <-].
  - destruct (ticks s !! f) as [t|]; [|done]. destruct (executions s !! awaiting t) as [[item at_ [|result]]|]; try done. intros [= <-].
    unfold continueTick. destruct result as [err|[|]]; [by apply goodInbox_endTick|by apply goodInbox_drainLoop|by apply goodInbox_endTick].
  - destruct (ticks s !! f) as [t|]; [|done]. case_bool_decide; [|done]. intros [= <-]. by apply goodInbox_endTick.
Qed.

Lemma reaches_inbox allowed file s : reaches env allowed file s → goodInbox s.
Proof using law.
  induction 1 as [|event m s s' _ IH _ _ Hstep]; [intros c b Hb; simpl in Hb; by apply lookup_empty_Some in Hb|]. by eapply step_inbox.
Qed.
End Inbox.

(** C37: however many fires there are and whatever the file held, the messages of a conversation are in
    the order of their times and identifiers, at least one and at most five hundred; a reader gets the
    last of them, at most as many as it asked for. *)
Theorem the_inbox_is_ordered_and_bounded env file s conversationId bucket maxItems :
  Comparator (localeCompare env) → reaches env anyEvent file s → generatedEvents s !! conversationId = Some bucket →
  StronglySorted (λ a b, compareEvents (localeCompare env) a b ≤ 0) bucket
  ∧ (1 ≤ length bucket ≤ 500)%nat
  ∧ (∃ older, bucket = older ++ listConversationEvents conversationId maxItems s)
  ∧ (length (listConversationEvents conversationId maxItems s) ≤ Nat.max 1 maxItems)%nat.
Proof.
  intros Hlaw Hreach Hbucket. destruct (reaches_inbox env Hlaw _ _ _ Hreach _ _ Hbucket) as [Hsorted Hlen].
  unfold MAX_GENERATED_EVENTS_PER_CONVERSATION in Hlen. split; [exact Hsorted|]. split; [lia|].
  unfold listConversationEvents, eventsOf. rw Hbucket. cbn [from_option id].
  destruct (Nat.leb_spec (length bucket) (Nat.max 1 maxItems)); [split; [by exists []|lia]|].
  split; [eexists; symmetry; apply take_drop|rw length_drop; lia].
Qed.

Definition notifyFile : option StateFile := fileOf (sampleJob (Notify (u "hi")) (Every 60000 None)).
Definition notifyEvents : list (Event * Moment) := [(Start None, at_ 500); (Woke, at_ 1000)].
Definition delivered : ScheduledConversationEvent :=
  {| eventId := u "schedule:x"; eventConversationId := u "c"; timestamp := 1000; eventPayload := CronMessage (u "hi") (u "cron:1") (u "w") |}.

Lemma the_inbox_is_ordered_and_bounded_witness : (1 ≤ length [delivered] ≤ 500)%nat.
Proof.
  apply (the_inbox_is_ordered_and_bounded sampleEnv notifyFile (afterEvents sampleEnv notifyEvents notifyFile) (u "c") [delivered] 3).
  - apply byLength_law.
  - apply (reaches_plain _ _ _ (drop 1 notifyEvents) (afterEvents sampleEnv (take 1 notifyEvents) notifyFile)); [done| | |].
    + by apply (reaches_started sampleEnv anyEvent notifyFile None (at_ 500)).
    + vm_compute. reflexivity.
    + vm_compute. reflexivity.
  - vm_compute. reflexivity.
Defined.

(** ** The file *)

(** The file has what is in memory. *)
Definition saved (s : Scheduler) : Prop := disk s = Some (Stored (stateOf s)).

(** A method that has saved what it did if it returns. *)
Definition saves {A} (c : M Scheduler text A) : Prop := ∀ s, isRight (c s).2 = true → saved (c s).1.

Lemma saves_bind {A B} (c : M Scheduler text A) (k : A → M Scheduler text B) : (∀ x, saves (k x)) → saves (bind c k).
Proof. intros Hk s. unfold bind. destruct (c s) as [s' [e|x]]; [done|]. apply Hk. Qed.

Lemma saves_readonly {A B} (c : M Scheduler text A) (k : A → M Scheduler text B) :
  saves c → (∀ x, readonly (k x)) → saves (bind c k).
Proof.
  intros Hc Hk s. specialize (Hc s). unfold bind. destruct (c s) as [s' [e|x]]; simpl in *; [done|].
  intros _. specialize (Hk x s'). rw Hk. by apply Hc.
Qed.

Lemma saves_afterMutation override now : saves (afterMutation override now).
Proof.
  intros s _. change (afterMutation override now s) with (scheduleNextTick override now (setDisk (Some (Stored (stateOf s))) s)).
  destruct (scheduleNextTick_state override now (setDisk (Some (Stored (stateOf s))) s)) as (_ & Hstate & Hdisk).
  unfold saved. by rw Hstate Hdisk.
Qed.

#[export] Hint Resolve saves_afterMutation : stella.

Ltac walk_saves :=
  repeat first
    [ solve [eauto with stella]
    | apply saves_readonly; [solve [eauto with stella]|intros ?]
    | apply saves_bind; intros ? ].

Lemma call_saved env call m s : saved s → callReturns env call m s → saved (runCall env call m s).
Proof.
  intros Hsaved Hreturns. destruct call as [input|id patch|id|id|input|conversationId]; simpl in *.
  - destruct (addCronJob_throws env input m s) as [->|Hright]; [done|]. revert Hright.
    enough (Hsaves : saves (addCronJob env input m)) by apply Hsaves. unfold addCronJob. walk_saves.
  - revert Hreturns. unfold updateCronJob. rw bind_gets. destruct (findJob id s) as [[r job]|]; [|done].
    match goal with |- isRight (?run s).2 = true → _ => enough (Hsaves : saves run) by apply Hsaves end. walk_saves.
  - unfold removeCronJob. rw bind_gets. destruct (findJob id s) as [[r job]|]; [|done].
    match goal with |- saved (?run s).1 => assert (Hsaves : saves run); [walk_saves|apply Hsaves] end.
    unfold bind. simpl. by destruct (payloadScriptPath _); [destruct (isScriptPathReferenced _ _ _)|].
  - unfold runCronJob. rw bind_gets. destruct (findJob id s) as [[r job]|]; [|done].
    match goal with |- saved (?run s).1 => assert (Hsaves : saves run); [walk_saves|by apply Hsaves] end.
  - destruct (upsertHeartbeat_throws input m s) as [->|Hright]; [done|]. revert Hright.
    enough (Hsaves : saves (upsertHeartbeat input m)) by apply Hsaves. unfold upsertHeartbeat.
    apply saves_bind; intros ?. apply saves_bind; intros ?. apply saves_bind; intros existing. destruct existing as [[]|]; walk_saves.
  - unfold runHeartbeat. rw bind_gets. destruct (findHeartbeat _ s) as [[r config]|]; [|done].
    match goal with |- saved (?run s).1 => assert (Hsaves : saves run); [walk_saves|by apply Hsaves] end.
Qed.

(** ** Reading it back *)

Lemma load_lookup {A} (heap : gmap nat A) n l : omap (λ r, (map_seq n l ∪ heap) !! r) (seq n (length l)) = l.
Proof.
  revert n heap. induction l as [|x l IH]; intros n heap; [done|].
  transitivity (x :: omap (λ r, (map_seq n (x :: l) ∪ heap) !! r) (seq (S n) (length l))).
  { simpl. by rw lookup_union lookup_insert_eq union_Some_l. }
  f_equal. etrans; [|apply (IH (S n) (<[n := x]> heap))]. apply list_omap_ext.
  apply Forall2_same_length_lookup_2; [done|]. intros i r r' Hr Hr'. simplify_eq.
  apply list_elem_of_lookup_2 in Hr. apply elem_of_seq in Hr. simpl. rw !lookup_union !lookup_insert_ne //; lia.
Qed.

Lemma foldr_alter_lookup {A} (f : A → A) refs (heap : gmap nat A) r :
  NoDup refs → foldr (λ r heap, alter f r heap) heap refs !! r = if bool_decide (r ∈ refs) then f <$> heap !! r else heap !! r.
Proof.
  induction refs as [|r' refs IH]; intros Hnd; simpl; [done|]. apply NoDup_cons in Hnd as [Hr' Hnd]. specialize (IH Hnd).
  destruct (decide (r' = r)) as [->|Hne].
  - rw lookup_alter_eq IH bool_decide_false // bool_decide_true //. by left.
  - rw lookup_alter_ne // IH. enough (bool_decide (r ∈ refs) = bool_decide (r ∈ r' :: refs)) as -> by done.
    apply bool_decide_ext. rw elem_of_cons. split; [by right|by intros [<-|?]].
Qed.

Lemma omap_foldr_alter {A} (f : A → A) refs (heap : gmap nat A) :
  NoDup refs → omap (λ r, foldr (λ r heap, alter f r heap) heap refs !! r) refs = f <$> omap (λ r, heap !! r) refs.
Proof.
  intros Hnd. rw list_fmap_omap. apply list_omap_ext, Forall2_same_length_lookup_2; [done|]. intros i r r' Hr Hr'. simplify_eq.
  rw foldr_alter_lookup // bool_decide_true //. by eapply list_elem_of_lookup_2.
Qed.

Lemma fmap_id_on {A} (f : A → A) (l : list A) : (∀ a, a ∈ l → f a = a) → f <$> l = l.
Proof. induction l as [|a l IH]; intros Hf; [done|]. rw fmap_cons Hf; [by left|]. f_equal. apply IH. intros b Hb. apply Hf. by right. Qed.

(** The records of a state with their flags down. *)
Definition lowered (state : LocalSchedulerState) : LocalSchedulerState := {|
  storedCronJobs := setJobRunningAtMs None <$> storedCronJobs state;
  storedHeartbeats := setHeartbeatRunningAtMs None <$> storedHeartbeats state;
  storedEvents := storedEvents state;
|}.

Lemma stateOf_newLife state s : stateOf (newLife state s) = state.
Proof.
  unfold newLife, loadState, stateOf, jobsOf, heartbeatsOf. simpl. rw !load_lookup. by destruct state.
Qed.

Lemma stateOf_clear s :
  NoDup (cronJobs s) → NoDup (heartbeats s) → stateOf (clearRecoveredRunningFlags s).1 = lowered (stateOf s).
Proof.
  intros Hc Hh. unfold clearRecoveredRunningFlags. destruct (hasRunningFlags s) eqn:Hflags; simpl; unfold stateOf, lowered, jobsOf, heartbeatsOf; simpl.
  - by rw !omap_foldr_alter.
  - unfold hasRunningFlags in Hflags. apply orb_false_iff in Hflags as [Hjobs Hbeats]. f_equal.
    + symmetry. apply fmap_id_on. intros job Hjob. destruct (jobRunningAtMs job) eqn:Hrun; [|by destruct job; simpl in *; subst].
      enough (existsb (λ job, isSome (jobRunningAtMs job)) (jobsOf s) = true) by congruence. apply existsb_exists.
      exists job. split; [by apply list_elem_of_In|by rw Hrun].
    + symmetry. apply fmap_id_on. intros c Hc'. destruct (heartbeatRunningAtMs c) eqn:Hrun; [|by destruct c; simpl in *; subst].
      enough (existsb (λ config, isSome (heartbeatRunningAtMs config)) (heartbeatsOf s) = true) by congruence. apply existsb_exists.
      exists c. split; [by apply list_elem_of_In|by rw Hrun].
Qed.

(** What start does after it has read the state does not change it, but for the flags. *)
Lemma afterLoad_tail env directory now (changed : bool) s :
  let s' := (((if changed then persistState else ret ());;; collectOrphanScripts env directory;;; scheduleNextTick (Some 250) now) s).1 in
  stateOf s' = stateOf s ∧ started s' = started s.
Proof.
  unfold collectOrphanScripts, scheduleNextTick. destruct changed, directory; unfold bind, persistState, ret, modify; simpl;
    destruct (serviceScope s), (started s) eqn:Hs; simpl; by rw ?Hs.
Qed.

Lemma stateOf_afterLoad env directory now s :
  NoDup (cronJobs s) → NoDup (heartbeats s) →
  stateOf (afterLoad env directory now s).1 = lowered (stateOf s) ∧ started (afterLoad env directory now s).1 = started s.
Proof.
  intros Hc Hh.
  assert (Hfirst : ∃ s1, (match disk s with None => persistState | Some _ => ret () end) s = (s1, inr ())
    ∧ stateOf s1 = stateOf s ∧ cronJobs s1 = cronJobs s ∧ heartbeats s1 = heartbeats s ∧ started s1 = started s).
  { destruct (disk s); by eexists. }
  destruct Hfirst as (s1 & Heq & Hstate & Hcs & Hhs & Hst).
  pose proof (stateOf_clear s1) as Hclear. rw Hcs Hhs Hstate in Hclear. specialize (Hclear Hc Hh).
  assert (Hrun : ∃ s2 changed, clearRecoveredRunningFlags s1 = (s2, inr changed) ∧ started s2 = started s1).
  { unfold clearRecoveredRunningFlags. destruct (hasRunningFlags s1); by eexists _, _. }
  destruct Hrun as (s2 & changed & Heq2 & Hst2). rw Heq2 in Hclear. simpl in Hclear.
  assert (Hall : afterLoad env directory now s
    = ((if (changed : bool) then persistState else ret ());;; collectOrphanScripts env directory;;; scheduleNextTick (Some 250) now) s2).
  { unfold afterLoad. rw bind_gets. unfold bind at 1. rw Heq. unfold bind at 1. by rw Heq2. }
  rw Hall. destruct (afterLoad_tail env directory now changed s2) as [-> ->]. split; [done|congruence].
Qed.

Lemma restarted env directory m file :
  stateOf (start env directory m (initial file)).1 = lowered (readState env file) ∧ started (start env directory m (initial file)).1 = true.
Proof.
  unfold start. cbn [started initial disk].
  destruct (stateOf_afterLoad env directory (clock m 0) (newLife (readState env file) (initial file))) as [-> ->].
  - apply NoDup_seq.
  - apply NoDup_seq.
  - by rw stateOf_newLife.
Qed.

(** C36: what a call leaves behind survives the process: when the file had what was in memory and a call
    returns (only an update can throw after it has changed something), the file has it again; and a
    service that starts from that file has the same messages, and of the jobs and heartbeats those the
    validation accepts, in the same order and equal but for their running flags. *)
Theorem a_restart_restores_what_a_call_left env file s call m directory m' :
  Comparator (localeCompare env) → reaches env anyEvent file s → saved s → callReturns env call m s →
  let s1 := runCall env call m s in
  let s2 := (start env directory m' (initial (disk s1))).1 in
  saved s1 ∧ started s2 = true
  ∧ jobsOf s2 = setJobRunningAtMs None <$> List.filter (isCronJobRecord env) (jobsOf s1)
  ∧ heartbeatsOf s2 = setHeartbeatRunningAtMs None <$> List.filter isHeartbeatRecord (heartbeatsOf s1)
  ∧ generatedEvents s2 = generatedEvents s1.
Proof.
  intros Hlaw Hreach Hsaved Hreturns. pose proof (call_saved env call m s Hsaved Hreturns) as Hsaved1.
  pose proof (keepsInbox_call env call m s (reaches_inbox env Hlaw _ _ _ Hreach)) as Hinbox.
  cbv zeta. revert Hsaved1 Hinbox. generalize (runCall env call m s). clear s Hreach Hsaved Hreturns. intros s1 Hsaved1 Hinbox.
  split; [done|]. pose proof (restarted env directory m' (disk s1)) as Hrestarted. revert Hrestarted.
  generalize (start env directory m' (initial (disk s1))).1. intros s2 [Hstate Hstarted]. split; [done|]. rw Hsaved1 in Hstate.
  pose proof (f_equal storedCronJobs Hstate) as Hjobs. pose proof (f_equal storedHeartbeats Hstate) as Hbeats.
  pose proof (f_equal storedEvents Hstate) as Hevents. simpl in Hjobs, Hbeats, Hevents.
  split; [done|]. split; [done|]. rw Hevents. apply map_eq. intros c. rw lookup_omap.
  destruct (generatedEvents s1 !! c) as [bucket|] eqn:Hbucket; [|done]. simpl. pose proof (Hinbox c bucket Hbucket) as Hgood.
  destruct (Nat.ltb_spec 0 (length bucket)); [by rw capEvents_id|]. destruct Hgood as [_ ?]. lia.
Qed.

Lemma a_restart_restores_what_a_call_left_witness :
  jobsOf (start sampleEnv None (at_ 9) (initial (disk (runCall sampleEnv (RunCronJob (u "cron:1")) (at_ 7)
    (afterEvents sampleEnv (take 1 notifyEvents) notifyFile))))).1
  = [setJobUpdatedAt 7 (setJobNextRunAtMs 7 (sampleJob (Notify (u "hi")) (Every 60000 None)))].
Proof.
  destruct (a_restart_restores_what_a_call_left sampleEnv notifyFile (afterEvents sampleEnv (take 1 notifyEvents) notifyFile)
    (RunCronJob (u "cron:1")) (at_ 7) None (at_ 9)) as (_ & _ & -> & _).
  - apply byLength_law.
  - by apply (reaches_started sampleEnv anyEvent notifyFile None (at_ 500)).
  - vm_compute. reflexivity.
  - exact I.
  - vm_compute. reflexivity.
Defined.
