(* ===== verification/SchedulerFindings.v ===== *)
(** * Where the scheduler does something it does not mean to

    Each example is a run of the model: a rejected turn, an expression without a next run, an update
    that throws half way, the sweep of script files, a job that is moved while it runs, an interval
    below a millisecond, a watch whose script is replaced, an interval that ends on its own grid, the
    removal of migrated jobs by the host, and a restart during a tick. *)

From Corelib Require Import ssreflect SpecFloat.
From stdpp Require Import prelude gmap strings.
From S2P Require Import Prelude JsNumber Text HostPaths SchedulerRecords Scheduler SchedulerOrder SchedulerSafety SchedulerRestart.

#[local] Open Scope Z_scope.

(** The jobs of the lists, by what an observer asks of them. *)
Definition summaryOf (s : Scheduler) : list (bool * Z * option Z) :=
  (λ job, (jobEnabled job, jobNextRunAtMs job, jobRunningAtMs job)) <$> jobsOf s.
Definition bannersOf (s : Scheduler) : list text :=
  omap (λ o, match o with Notified _ body _ _ _ => Some body | _ => None end) (outputs s).

(** The turn of a watch is rejected (the worker died): the job says it is running for good, and no timer
    is armed. *)
Example a_rejected_turn_strands_its_job :
  let s := afterEvents sampleEnv (take 4 watchEvents ++ [(Answered 3 (TurnRejected (u "gone")), at_ 1003); (Continued 2, at_ 1004)]) watchFile in
  summaryOf s = [(true, 1000, Some 1000)] ∧ tickInFlight s = false ∧ timerFiber s = None.
Proof. vm_compute. split_and!; reflexivity. Qed.

(** Without a next run the job stays due: it fires on every tick. *)
Definition cronFile : option StateFile := fileOf (sampleJob (Notify (u "hi")) (CronExpr (u "0 0 1 1 * 2025") None)).
Example a_job_without_a_next_run_fires_forever :
  let s := afterEvents sampleEnv [(Start None, at_ 500); (Woke, at_ 1000); (Continued 2, at_ 1001); (Woke, at_ 1300); (Continued 4, at_ 1301); (Woke, at_ 1600)] cronFile in
  bannersOf s = [u "hi"; u "hi"; u "hi"] ∧ summaryOf s = [(true, 1000, None)].
Proof. vm_compute. split; reflexivity. Qed.

Definition rawAt (ms : Z) : RawSchedule :=
  {| scheduleKind := Some (u "at"); rawAtMs := Whole ms; rawEveryMs := Double S754_nan; rawAnchorMs := None; rawExpr := None; rawTz := None |}.
Definition rawCron (expr : text) : RawSchedule :=
  {| scheduleKind := Some (u "cron"); rawAtMs := Double S754_nan; rawEveryMs := Double S754_nan; rawAnchorMs := None; rawExpr := Some expr; rawTz := None |}.
Definition patchedSchedule (raw : RawSchedule) : CronJobPatch :=
  {| patchName := None; patchConversationId := None; patchSchedule := Some (Some raw); patchPayload := None; patchDescription := None;
     patchEnabled := None; patchDeliver := None; patchDeleteAfterRun := None |}.

(** An update to an expression croner refuses throws, and has replaced the schedule all the same. *)
Example a_refused_update_changes_the_job :
  let s := afterEvents sampleEnv (take 1 notifyEvents) notifyFile in
  let '(s', result) := updateCronJob sampleEnv (u "cron:1") (patchedSchedule (rawCron (u "nonsense"))) (at_ 600) s in
  isRight result = false ∧ (jobSchedule <$> jobsOf s') = [CronExpr (u "nonsense") None] ∧ disk s' = disk s.
Proof. vm_compute. split_and!; reflexivity. Qed.

(** The sweep at the start removes the baseline of a watch that is alive: [a.ts.state.json] is taken to
    belong to [a.ts.ts]. *)
Example the_sweep_removes_live_baselines :
  let s := afterEvents sampleEnv [(Start (Some [u "a.ts"; u "a.ts.state.json"]), at_ 500)] watchFile in
  outputs s = [FileRemoved (sidecar (u "/s/a.ts"))] ∧ (payloadScriptPath ∘ jobPayload <$> jobsOf s) = [Some (u "/s/a.ts")].
Proof. vm_compute. split; reflexivity. Qed.

(** A one-shot job that is given a new time while it runs is switched off when the run ends. *)
Definition taskFile : option StateFile := fileOf (sampleJob (Task (u "p")) (At (Whole 1000))).
Example a_job_moved_while_it_runs_never_fires :
  let s := afterEvents sampleEnv
    [(Start None, at_ 500); (Woke, at_ 1000); (Called (UpdateCronJob (u "cron:1") (patchedSchedule (rawAt 90000))), at_ 1100);
     (Answered 3 (TurnOk (u "done")), at_ 1200)] taskFile in
  summaryOf s = [(false, 90000, None)].
Proof. vm_compute. reflexivity. Qed.

(** An interval of half a millisecond is accepted, kept as zero, and refused when the file is read. *)
Definition halfMs : CronJobInput :=
  {| inputName := Some (u "n"); inputConversationId := Some (u "c");
     inputSchedule := Some {| scheduleKind := Some (u "every"); rawAtMs := Double S754_nan; rawEveryMs := Double (S754_finite false 1 (-1));
                              rawAnchorMs := None; rawExpr := None; rawTz := None |};
     inputPayload := Some {| payloadKind := Some (u "notify"); rawText := Some (u "hi"); rawPrompt := None; rawScriptPath := None; rawAgentType := None |};
     inputDescription := None; inputEnabled := None; inputDeliver := None; inputDeleteAfterRun := None |}.
Example a_short_interval_is_lost_on_restart :
  let s := afterEvents sampleEnv [(Start None, at_ 500); (Called (AddCronJob halfMs), at_ 600)] None in
  (jobSchedule <$> jobsOf s) = [Every 0 None] ∧ jobsOf (start sampleEnv None (at_ 700) (initial (disk s))).1 = [].
Proof. vm_compute. split; reflexivity. Qed.

(** A watch that is given another script keeps the report of the old one: it is told next, and the new
    script does not run. *)
Definition newScript : CronJobPatch :=
  {| patchName := None; patchConversationId := None; patchSchedule := None;
     patchPayload := Some (Some {| payloadKind := Some (u "watch"); rawText := None; rawPrompt := None; rawScriptPath := Some (u "/s/b.ts"); rawAgentType := None |});
     patchDescription := None; patchEnabled := None; patchDeliver := None; patchDeleteAfterRun := None |}.
Example a_new_script_tells_the_old_report :
  let s := afterEvents sampleEnv (watchEvents ++ [(Continued 2, at_ 1004); (Called (UpdateCronJob (u "cron:1") newScript), at_ 1100);
    (Called (RunCronJob (u "cron:1")), at_ 1200); (Woke, at_ 1500)]) watchFile in
  (phase <$> executions s !! 7%nat) = Some (Awaiting (WatchTurn (u "/s/b.ts") watchReport))
  ∧ omap (λ o, match o with ScriptStarted path _ => Some path | _ => None end) (outputs s) = [u "/s/a.ts"].
Proof. vm_compute. split; reflexivity. Qed.

(** A run that ends in the millisecond of a grid point is due again in that millisecond. *)
Definition gridFile : option StateFile := fileOf (sampleJob (Notify (u "hi")) (Every 500 (Some (Whole 500)))).
Example a_run_on_the_grid_fires_twice :
  bannersOf (afterEvents sampleEnv [(Start None, at_ 500); (Woke, at_ 1000); (Continued 2, at_ 1000)] gridFile) = [u "hi"; u "hi"].
Proof. vm_compute. reflexivity. Qed.

(** [startHostServices]: the jobs that have moved to the backend are removed from a service that has not
    read its file yet, so they stay. *)
Definition dropMigrated (env : SchedulerEnv) (m : Moment) (s : Scheduler) : Scheduler :=
  foldl (λ s job, match jobPayload job with Watch _ => s | _ => (removeCronJob (jobId job) m s).1 end) s (listCronJobs s).
Definition startScheduler (env : SchedulerEnv) (file : option StateFile) (m : Moment) : Scheduler :=
  (start env None m (dropMigrated env m (initial file))).1.

Lemma dropMigrated_initial env m file : dropMigrated env m (initial file) = initial file.
Proof. reflexivity. Qed.

Example migrated_jobs_stay : summaryOf (startScheduler sampleEnv notifyFile (at_ 500)) = [(true, 1000, None)].
Proof. vm_compute. reflexivity. Qed.

(** A service that is started again while the tick of its last life is in flight: the old fiber goes on
    in the new life, is interrupted, and two executions run at once. *)
Definition otherJob : LocalCronJobRecord := setJobNextRunAtMs 1001 (setJobName (u "v") {|
  jobId := u "cron:2"; jobConversationId := u "c"; jobName := u "w"; jobDescription := None; jobEnabled := true;
  jobSchedule := Every 60000 None; jobPayload := Task (u "p"); jobDeliver := None; deleteAfterRun := None; jobNextRunAtMs := 1000;
  jobRunningAtMs := None; jobLastRunAtMs := None; jobLastStatus := None; jobLastError := None; jobLastDurationMs := None;
  jobLastOutputPreview := None; pendingEscalation := None; jobCreatedAt := 0; jobUpdatedAt := 0 |}).
Definition twoFile : option StateFile :=
  Some (Stored {| storedCronJobs := [sampleJob (Task (u "p")) (Every 60000 None); otherJob]; storedHeartbeats := []; storedEvents := ∅ |}).
Example a_restart_during_a_tick_overlaps :
  let s := afterEvents sampleEnv
    [(Start None, at_ 500); (Woke, at_ 1000); (Stop, at_ 1002); (Start None, at_ 1003); (Answered 4 (TurnOk []), at_ 1004); (Continued 3, at_ 1005);
     (Interrupted 3, at_ 1006); (Woke, at_ 1500)] twoFile in
  started s = true ∧ (jobRunningAtMs <$> jobsOf s) = [Some 1005; Some 1500].
Proof. vm_compute. split; reflexivity. Qed.
