(* ===== verification/Calendar.v ===== *)
(** * Dates

    The UTC methods of [Date] as ECMA-262 defines them on a time value: milliseconds since the
    first of January 1970, in the range a [Date] can have.  Days are counted from there, the
    calendar is the proleptic Gregorian one. *)

From Corelib Require Import ssreflect.
From stdpp Require Import prelude.
From Stdlib Require Import Lia ZArith.
From S2P Require Import Prelude.

#[local] Open Scope Z_scope.

Definition MS_PER_DAY : Z := 24 * 60 * 60 * 1000.

(** [Day(t)] and [TimeWithinDay(t)]. *)
Definition day (t : Z) : Z := t / MS_PER_DAY.
Definition timeWithinDay (t : Z) : Z := t mod MS_PER_DAY.

(** The day the year begins with. *)
Definition dayFromYear (y : Z) : Z :=
  365 * (y - 1970) + (y - 1969) / 4 - (y - 1901) / 100 + (y - 1601) / 400.

Definition leapYear (y : Z) : bool := (y mod 4 =? 0) && (negb (y mod 100 =? 0) || (y mod 400 =? 0)).
Definition leapDay (leap : bool) : Z := if leap then 1 else 0.

(** [YearFromTime], on a day: the year of the mean length, or one of its neighbours. *)
Definition yearFromDay (d : Z) : Z :=
  let y := 1970 + 400 * d / 146097 in
  if d <? dayFromYear y then y - 1 else if dayFromYear (y + 1) <=? d then y + 1 else y.

(** The days of a year before its month [m], counted from 0. *)
Definition monthStart (leap : bool) (m : Z) : Z :=
  if m <=? 0 then 0 else if m =? 1 then 31
  else leapDay leap + (if m =? 2 then 59 else if m =? 3 then 90 else if m =? 4 then 120 else if m =? 5 then 151
    else if m =? 6 then 181 else if m =? 7 then 212 else if m =? 8 then 243 else if m =? 9 then 273
    else if m =? 10 then 304 else if m =? 11 then 334 else 365).

(** [MonthFromTime], on a day of the year. *)
Definition monthOfYearDay (leap : bool) (d : Z) : Z :=
  if d <? 31 then 0 else
  let d := d - leapDay leap in
  if d <? 59 then 1 else if d <? 90 then 2 else if d <? 120 then 3 else if d <? 151 then 4 else if d <? 181 then 5
  else if d <? 212 then 6 else if d <? 243 then 7 else if d <? 273 then 8 else if d <? 304 then 9
  else if d <? 334 then 10 else 11.

Definition getUTCFullYear (t : Z) : Z := yearFromDay (day t).
Definition yearDay (t : Z) : Z := day t - dayFromYear (getUTCFullYear t).
Definition getUTCMonth (t : Z) : Z := monthOfYearDay (leapYear (getUTCFullYear t)) (yearDay t).
Definition getUTCDate (t : Z) : Z := yearDay t - monthStart (leapYear (getUTCFullYear t)) (getUTCMonth t) + 1.
(** Sunday is 0; the first of January 1970 was a Thursday. *)
Definition getUTCDay (t : Z) : Z := (day t + 4) mod 7.
Definition getUTCHours (t : Z) : Z := t / (60 * 60 * 1000) mod 24.
Definition getUTCMinutes (t : Z) : Z := t / (60 * 1000) mod 60.
Definition getUTCSeconds (t : Z) : Z := t / 1000 mod 60.
Definition getUTCMilliseconds (t : Z) : Z := t mod 1000.

(** [MakeDay] and [MakeTime]: months and days beyond their range carry over. *)
Definition makeDay (year month date : Z) : Z :=
  let y := year + month / 12 in
  dayFromYear y + monthStart (leapYear y) (month mod 12) + date - 1.
Definition makeTime (hours minutes seconds ms : Z) : Z :=
  hours * (60 * 60 * 1000) + minutes * (60 * 1000) + seconds * 1000 + ms.

(** [Date.UTC] reads a year of two digits as one of the twentieth century. *)
Definition fullYear (y : Z) : Z := if (0 <=? y) && (y <=? 99) then 1900 + y else y.
Definition UTC (year month date hours minutes seconds ms : Z) : Z :=
  makeDay (fullYear year) month date * MS_PER_DAY + makeTime hours minutes seconds ms.

Definition setUTCDate (date t : Z) : Z :=
  makeDay (getUTCFullYear t) (getUTCMonth t) date * MS_PER_DAY + timeWithinDay t.
Definition setUTCHours (hours minutes seconds ms t : Z) : Z :=
  day t * MS_PER_DAY + makeTime hours minutes seconds ms.

(** Arithmetic with division by constants. *)
Ltac divs := zify; Z.to_euclidean_division_equations; lia.

(** ** Years *)

Lemma leapYear_length y : dayFromYear (y + 1) = dayFromYear y + 365 + leapDay (leapYear y).
Proof.
  unfold dayFromYear, leapYear, leapDay.
  destruct (Z.eqb_spec (y mod 4) 0), (Z.eqb_spec (y mod 100) 0), (Z.eqb_spec (y mod 400) 0); simpl; divs.
Qed.

Lemma leapDay_bound leap : 0 ≤ leapDay leap ≤ 1.
Proof. destruct leap; simpl; lia. Qed.

(** A year begins within two days of the mean. *)
Lemma dayFromYear_mean y : 146097 * (y - 1970) - 800 ≤ 400 * dayFromYear y ≤ 146097 * (y - 1970) + 800.
Proof. unfold dayFromYear. divs. Qed.

Lemma dayFromYear_step y y' : y < y' → dayFromYear y + 365 * (y' - y) ≤ dayFromYear y'.
Proof. intros Hy. unfold dayFromYear. divs. Qed.

Lemma yearFromDay_spec d : dayFromYear (yearFromDay d) ≤ d < dayFromYear (yearFromDay d + 1).
Proof.
  unfold yearFromDay. set (q := 400 * d / 146097). assert (Hq : 146097 * q ≤ 400 * d < 146097 * q + 146097) by (subst q; divs).
  clearbody q. pose proof (dayFromYear_mean (1970 + q + 1 + 1)). pose proof (dayFromYear_mean (1970 + q - 1)).
  destruct (Z.ltb_spec d (dayFromYear (1970 + q))).
  - replace (1970 + q - 1 + 1) with (1970 + q) by lia. lia.
  - destruct (Z.leb_spec (dayFromYear (1970 + q + 1)) d); lia.
Qed.

Lemma yearFromDay_unique d y : dayFromYear y ≤ d < dayFromYear (y + 1) → yearFromDay d = y.
Proof.
  intros Hy. pose proof (yearFromDay_spec d) as Hspec.
  destruct (Z.lt_trichotomy (yearFromDay d) y) as [Hlt|[?|Hlt]]; [|done|].
  - destruct (Z.eq_dec (yearFromDay d + 1) y) as [Heq|?]; [rw Heq in Hspec; lia|]. pose proof (dayFromYear_step (yearFromDay d + 1) y). lia.
  - destruct (Z.eq_dec (y + 1) (yearFromDay d)) as [Heq|?]; [rw Heq in Hy; lia|]. pose proof (dayFromYear_step (y + 1) (yearFromDay d)). lia.
Qed.

(** ** Months, numbered through the years *)

(** The day the month [k] begins with, where [k] counts months from the year 0. *)
Definition monthDay (k : Z) : Z := dayFromYear (k / 12) + monthStart (leapYear (k / 12)) (k mod 12).
Definition monthOf (t : Z) : Z := getUTCFullYear t * 12 + getUTCMonth t.

Ltac months := unfold monthStart, monthOfYearDay, leapDay; cases; try lia.

Lemma monthStart_next leap m : 0 ≤ m ≤ 11 → monthStart leap m + 28 ≤ monthStart leap (m + 1) ≤ monthStart leap m + 31.
Proof. intros Hm. destruct leap; months. Qed.

Lemma monthStart_year leap : monthStart leap 12 = 365 + leapDay leap.
Proof. destruct leap; reflexivity. Qed.

Lemma monthOfYearDay_spec leap d :
  0 ≤ d < 365 + leapDay leap →
  0 ≤ monthOfYearDay leap d ≤ 11 ∧ monthStart leap (monthOfYearDay leap d) ≤ d < monthStart leap (monthOfYearDay leap d + 1).
Proof. intros Hd. destruct leap; unfold monthOfYearDay, monthStart, leapDay in *; cases; lia. Qed.

Lemma monthDay_next k : monthDay k + 28 ≤ monthDay (k + 1) ≤ monthDay k + 31.
Proof.
  unfold monthDay. destruct (Z.eq_dec (k mod 12) 11) as [Hm|Hm].
  - replace ((k + 1) / 12) with (k / 12 + 1) by divs. replace ((k + 1) mod 12) with 0 by divs.
    rw leapYear_length Hm. pose proof (monthStart_next (leapYear (k / 12)) 11). rw monthStart_year in H.
    unfold monthStart at 3. simpl. unfold monthStart in H |- *. simpl in *. lia.
  - replace ((k + 1) / 12) with (k / 12) by divs. replace ((k + 1) mod 12) with (k mod 12 + 1) by divs.
    pose proof (monthStart_next (leapYear (k / 12)) (k mod 12)). divs.
Qed.

Lemma monthDay_mono k k' : k < k' → monthDay (k + 1) ≤ monthDay k'.
Proof.
  intros Hk. replace k' with (k + 1 + Z.of_nat (Z.to_nat (k' - k - 1))) by lia. generalize (Z.to_nat (k' - k - 1)) as n.
  induction n as [|n IH]; [by rw Z.add_0_r|]. pose proof (monthDay_next (k + 1 + Z.of_nat n)).
  replace (k + 1 + Z.of_nat (S n)) with (k + 1 + Z.of_nat n + 1) by lia. lia.
Qed.

Lemma yearDay_bound t : 0 ≤ yearDay t < 365 + leapDay (leapYear (getUTCFullYear t)).
Proof. unfold yearDay, getUTCFullYear. pose proof (yearFromDay_spec (day t)). rw leapYear_length in H. lia. Qed.

Lemma getUTCMonth_bound t : 0 ≤ getUTCMonth t ≤ 11.
Proof. apply (monthOfYearDay_spec _ _ (yearDay_bound t)). Qed.

Lemma monthOf_div t : monthOf t / 12 = getUTCFullYear t ∧ monthOf t mod 12 = getUTCMonth t.
Proof. pose proof (getUTCMonth_bound t). unfold monthOf. divs. Qed.

(** A day is in its month, and the date is its place there. *)
Lemma monthOf_spec t : monthDay (monthOf t) ≤ day t < monthDay (monthOf t + 1).
Proof.
  pose proof (monthOf_div t) as [Hy Hm]. pose proof (monthOfYearDay_spec _ _ (yearDay_bound t)) as [Hb Hs].
  fold (getUTCMonth t) in Hb, Hs. unfold yearDay in Hs. split.
  - unfold monthDay. rw Hy Hm. lia.
  - unfold monthDay. destruct (Z.eq_dec (getUTCMonth t) 11) as [Hlast|Hlast].
    + replace ((monthOf t + 1) / 12) with (getUTCFullYear t + 1) by divs. replace ((monthOf t + 1) mod 12) with 0 by divs.
      pose proof (yearFromDay_spec (day t)). fold (getUTCFullYear t) in H. unfold monthStart. simpl. lia.
    + replace ((monthOf t + 1) / 12) with (getUTCFullYear t) by divs.
      replace ((monthOf t + 1) mod 12) with (getUTCMonth t + 1) by divs. lia.
Qed.

Lemma getUTCDate_day t : day t = monthDay (monthOf t) + getUTCDate t - 1.
Proof. pose proof (monthOf_div t) as [Hy Hm]. unfold monthDay, getUTCDate, yearDay. rw Hy Hm. lia. Qed.

Lemma getUTCDate_bound t : 1 ≤ getUTCDate t ≤ 31.
Proof. pose proof (getUTCDate_day t). pose proof (monthOf_spec t). pose proof (monthDay_next (monthOf t)). lia. Qed.

Lemma monthOf_unique t k : monthDay k ≤ day t < monthDay (k + 1) → monthOf t = k.
Proof.
  intros Hk. pose proof (monthOf_spec t). destruct (Z.lt_trichotomy (monthOf t) k) as [Hlt|[?|Hlt]]; [|done|].
  - apply monthDay_mono in Hlt. lia.
  - apply monthDay_mono in Hlt. lia.
Qed.

(** ** Making and setting *)

Lemma makeDay_monthDay year month date : makeDay year month date = monthDay (year * 12 + month) + date - 1.
Proof.
  unfold makeDay, monthDay. replace ((year * 12 + month) / 12) with (year + month / 12) by divs.
  replace ((year * 12 + month) mod 12) with (month mod 12) by divs. lia.
Qed.

Lemma time_split t : t = day t * MS_PER_DAY + timeWithinDay t ∧ 0 ≤ timeWithinDay t < MS_PER_DAY.
Proof. unfold day, timeWithinDay, MS_PER_DAY. divs. Qed.

Lemma makeTime_fields t : makeTime (getUTCHours t) (getUTCMinutes t) (getUTCSeconds t) (getUTCMilliseconds t) = timeWithinDay t.
Proof. unfold makeTime, getUTCHours, getUTCMinutes, getUTCSeconds, getUTCMilliseconds, timeWithinDay, MS_PER_DAY. divs. Qed.

(** Setting the date moves by days. *)
Lemma setUTCDate_day date t : day (setUTCDate date t) = day t - getUTCDate t + date.
Proof.
  unfold setUTCDate. rw makeDay_monthDay. fold (monthOf t). pose proof (getUTCDate_day t). pose proof (time_split t) as [_ ?].
  set (d := monthDay (monthOf t) + date - 1). replace (day t - getUTCDate t + date) with d by lia. clearbody d.
  unfold day, MS_PER_DAY in *. divs.
Qed.
