(* ===== verification/NumberText.v ===== *)
(** * Numbers written down

    [Number(text)] of the language: the grammar of a string numeric literal, and the double nearest
    to the value it denotes.  With it, the quotient of two doubles and [Math.round] as a double. *)

From Corelib Require Import ssreflect SpecFloat.
From stdpp Require Import prelude strings.
From S2P Require Import Prelude JsNumber Text.

#[local] Open Scope Z_scope.

(** The quotient of two doubles, rounded to nearest even. *)
Definition num_quotient (x y : number) : number := SFdiv 53 1024 x y.

(** [Math.round] with its result as a double. *)
Definition mathRound (x : number) : number :=
  match x with S754_finite _ _ _ => num_of_Z (num_round x) | _ => x end.

(** The double nearest to [p / q]. *)
Definition num_ratio (p : Z) (q : positive) : number :=
  match p with
  | 0 => S754_zero false
  | Zpos p => SFdiv 53 1024 (S754_finite false p 0) (S754_finite false q 0)
  | Zneg p => SFdiv 53 1024 (S754_finite true p 0) (S754_finite false q 0)
  end.

(** The value of a digit in a base. *)
Definition digitIn (base : Z) (c : N) : option Z :=
  let c := Z.of_N c in
  let v := if (48 <=? c) && (c <=? 57) then c - 48 else if (97 <=? c) && (c <=? 122) then c - 87
           else if (65 <=? c) && (c <=? 90) then c - 55 else base in
  if v <? base then Some v else None.

(** The digits a text begins with, and the rest of it. *)
Fixpoint digitsOf (base : Z) (t : text) : list Z * text :=
  match t with
  | [] => ([], [])
  | c :: rest =>
      match digitIn base c with
      | Some d => let '(ds, rest) := digitsOf base rest in (d :: ds, rest)
      | None => ([], t)
      end
  end.

Definition valueOf (base : Z) (ds : list Z) : Z := foldl (λ acc d, acc * base + d) 0 ds.

(** [m * 10 ^ k] as a double. *)
Definition scaled (m k : Z) : number :=
  if 0 <=? k then num_ratio (m * 10 ^ k) 1 else num_ratio m (Z.to_pos (10 ^ (- k))).

(** The exponent of a literal: nothing, or [e] with digits up to the end. *)
Definition exponentOf (t : text) : option Z :=
  match t with
  | [] => Some 0
  | c :: rest =>
      if (c =? 101)%N || (c =? 69)%N then
        let '(sign, rest) := match rest with 45%N :: r => (-1, r) | 43%N :: r => (1, r) | _ => (1, rest) end in
        match digitsOf 10 rest with
        | ([], _) | (_, _ :: _) => None
        | (ds, []) => Some (sign * valueOf 10 ds)
        end
      else None
  end.

Definition unsignedDecimal (t : text) : option number :=
  if bool_decide (t = u "Infinity") then Some (S754_infinity false) else
  let '(whole, rest) := digitsOf 10 t in
  let '(fraction, rest) := match rest with 46%N :: r => digitsOf 10 r | _ => ([], rest) end in
  match whole ++ fraction with
  | [] => None
  | ds => (λ e, scaled (valueOf 10 ds) (e - Z.of_nat (length fraction))) <$> exponentOf rest
  end.

(** A literal with a base in front. *)
Definition basedLiteral (base : Z) (t : text) : option number :=
  match digitsOf base t with
  | ([], _) | (_, _ :: _) => None
  | (ds, []) => Some (num_ratio (valueOf base ds) 1)
  end.

Definition numericLiteral (t : text) : option number :=
  match t with
  | [] => Some (S754_zero false)
  | 48%N :: c :: rest =>
      if (c =? 120)%N || (c =? 88)%N then basedLiteral 16 rest
      else if (c =? 111)%N || (c =? 79)%N then basedLiteral 8 rest
      else if (c =? 98)%N || (c =? 66)%N then basedLiteral 2 rest
      else unsignedDecimal t
  | 43%N :: rest => unsignedDecimal rest
  | 45%N :: rest => SFopp <$> unsignedDecimal rest
  | _ => unsignedDecimal t
  end.

Definition toNumber (t : text) : number := default S754_nan (numericLiteral (trim t)).

Example toNumber_fraction : toNumber (u " 0.4 ") = num_ratio 2 5 ∧ toNumber (u "1e3") = num_of_Z 1000.
Proof. vm_compute. split; reflexivity. Qed.
Example toNumber_refused : toNumber (u "1,000") = S754_nan ∧ toNumber (u "e3") = S754_nan ∧ toNumber [] = S754_zero false.
Proof. vm_compute. split_and!; reflexivity. Qed.
