(* ===== verification/BillingPlans.v ===== *)
(** * The plans of billing

    [workers/cloud-builder/src/billing/plans.ts]: the catalog of plans as it is read from the secrets
    of the deployment.  The environment is the function from a name to the string it holds; the state
    of the loader is what it has written to the console. *)

From Corelib Require Import ssreflect SpecFloat.
From stdpp Require Import prelude strings.
From S2P Require Import Prelude JsNumber Text NumberText.

#[local] Open Scope Z_scope.

(** ** Data *)

Inductive BillingPlan := Free | Go | Pro.

#[export] Instance BillingPlan_eq_dec : EqDecision BillingPlan.
Proof. solve_decision. Defined.

Record BillingPlanConfig := {
  label : string;
  monthlyPriceCents : number;
  introFirstMonthPriceCents : option number;
  rollingLimitUsd : number;
  rollingWindowHours : number;
  weeklyLimitUsd : number;
  monthlyLimitUsd : number;
  lifetimeLimitUsd : option number;
  cloudSandbox : bool;
}.

Record BillingConfig := {
  enabled : bool;
  plans : BillingPlan → BillingPlanConfig;
  anonymousPlan : BillingPlanConfig;
  anonymousMaxRequests : number;
  anonymousMaxRequestsPerIp : number;
  freeEmailAllowanceShare : number;
  stripePriceGo : text;
  stripePricePro : text;
  goFirstMonthCoupon : option text;
}.

(** ** Reading secrets *)

Definition EnvReader := string → option text.

(** A value that is blank is not there. *)
Definition reader (values : EnvReader) : EnvReader := λ name,
  match values name with
  | Some value => if bool_decide (trim value = []) then None else Some (trim value)
  | None => None
  end.

(** A run throws a [BillingConfigError], which names the secret. *)
Definition Load (A : Type) := M (list text) string A.

Definition nonNegative (x : number) : bool := isFinite x && SFleb (S754_zero false) x.

Section Load.
Context (read : EnvReader).

Definition required (name : string) : Load number :=
  match read name with
  | None => throw ("Missing billing secret " +:+ name +:+ ".")
  | Some raw =>
      let value := toNumber raw in
      if nonNegative value then ret value
      else throw ("Billing secret " +:+ name +:+ " must be a non-negative number.")
  end.

Definition optional (name : string) : Load (option number) :=
  match read name with
  | None => ret None
  | Some _ => let* value := required name in ret (Some value)
  end.

(** [optional(read, name) ?? fallback]. *)
Definition optionalOr (name : string) (fallback : number) : Load number :=
  let* value := optional name in ret (default fallback value).

Definition hundred : number := num_of_Z 100.
Definition roundUsd (value : number) : number :=
  num_max (S754_zero false) (num_quotient (mathRound (num_mul value hundred)) hundred).

(** [0.2], [0.5] and [0.4], as the source writes them. *)
Definition ROLLING_LIMIT_SHARE : number := num_ratio 2 10.
Definition WEEKLY_LIMIT_SHARE : number := num_ratio 5 10.
Definition DEFAULT_FREE_EMAIL_ALLOWANCE_SHARE : number := num_ratio 4 10.
Definition DEFAULT_ROLLING_WINDOW_HOURS : number := num_of_Z 5.
Definition ANON_IP_CAP_DEFAULT_MULTIPLIER : number := num_of_Z 10.

(** ** Who may use the cloud sandbox *)

Inductive CloudSandboxPlan := AnonymousSandbox | PlanSandbox (plan : BillingPlan).

#[export] Instance CloudSandboxPlan_eq_dec : EqDecision CloudSandboxPlan.
Proof. solve_decision. Defined.

(** [name.toLowerCase()] on the letters of the known names. *)
Definition lower (t : text) : text := (λ c, if (65 <=? c)%N && (c <=? 90)%N then (c + 32)%N else c) <$> t.

Definition sandboxPlanNamed (name : text) : option CloudSandboxPlan :=
  if bool_decide (name = u "anonymous") then Some AnonymousSandbox
  else if bool_decide (name = u "free") then Some (PlanSandbox Free)
  else if bool_decide (name = u "go") then Some (PlanSandbox Go)
  else if bool_decide (name = u "pro") then Some (PlanSandbox Pro) else None.

Definition DEFAULT_CLOUD_SANDBOX_PLANS : list CloudSandboxPlan := PlanSandbox <$> [Free; Go; Pro].

Fixpoint sandboxEntries (entries : list text) : Load (list CloudSandboxPlan) :=
  match entries with
  | [] => ret []
  | entry :: entries =>
      let name := lower (trim entry) in
      if bool_decide (name = []) then sandboxEntries entries
      else match sandboxPlanNamed name with
           | None => modify (λ warned, warned ++ [name]);;; sandboxEntries entries
           | Some plan => let* plans := sandboxEntries entries in ret (plan :: plans)
           end
  end.

Definition cloudSandboxPlans : Load (list CloudSandboxPlan) :=
  match read "STELLA_CLOUD_SANDBOX_PLANS" with
  | None => ret DEFAULT_CLOUD_SANDBOX_PLANS
  | Some raw => sandboxEntries (splitOn 44%N raw)
  end.

Definition cloudSandboxFor (plans : list CloudSandboxPlan) (plan : CloudSandboxPlan) : bool :=
  bool_decide (plan ∈ plans).

(** ** The catalog *)

Definition planPrefix (plan : BillingPlan) : string :=
  match plan with Go => "STELLA_GO" | Pro => "STELLA_PRO" | Free => "STELLA_FREE" end.

Definition paidPlan (plan : BillingPlan) (utilizationRate : number) (sandboxPlans : list CloudSandboxPlan) : Load BillingPlanConfig :=
  let prefix := planPrefix plan in
  let* price := required (prefix +:+ "_PRICE_CENTS") in
  let derivedMonthly := roundUsd (num_quotient (num_quotient price hundred) utilizationRate) in
  let* rolling := optionalOr (prefix +:+ "_ROLLING_LIMIT_USD") (roundUsd (num_mul derivedMonthly ROLLING_LIMIT_SHARE)) in
  let* hours := optionalOr (prefix +:+ "_ROLLING_WINDOW_HOURS") DEFAULT_ROLLING_WINDOW_HOURS in
  let* weekly := optionalOr (prefix +:+ "_WEEKLY_LIMIT_USD") (roundUsd (num_mul derivedMonthly WEEKLY_LIMIT_SHARE)) in
  let* monthly := optionalOr (prefix +:+ "_MONTHLY_LIMIT_USD") derivedMonthly in
  ret {| label := if bool_decide (plan = Go) then "Go" else "Pro"; monthlyPriceCents := price;
         introFirstMonthPriceCents := None; rollingLimitUsd := rolling; rollingWindowHours := hours;
         weeklyLimitUsd := weekly; monthlyLimitUsd := monthly; lifetimeLimitUsd := None;
         cloudSandbox := cloudSandboxFor sandboxPlans (PlanSandbox plan) |}.

Definition BILLING_SWITCHES : list string :=
  ["STELLA_INCLUDED_USAGE_UTILIZATION_RATE"; "STRIPE_SECRET_KEY"; "STRIPE_PRICE_GO"; "STRIPE_PRICE_PRO"]%string.

Definition OPEN_LIMIT_USD : number := num_of_Z 1000000.
Definition openPlan (name : string) : BillingPlanConfig := {|
  label := name; monthlyPriceCents := S754_zero false; introFirstMonthPriceCents := None;
  rollingLimitUsd := OPEN_LIMIT_USD; rollingWindowHours := DEFAULT_ROLLING_WINDOW_HOURS;
  weeklyLimitUsd := OPEN_LIMIT_USD; monthlyLimitUsd := OPEN_LIMIT_USD; lifetimeLimitUsd := None; cloudSandbox := true;
|}.

Definition OPEN_BILLING_CONFIG : BillingConfig := {|
  enabled := false;
  plans := λ plan, openPlan (match plan with Free => "Free" | Go => "Go" | Pro => "Pro" end);
  anonymousPlan := openPlan "Anonymous";
  anonymousMaxRequests := num_of_Z 1000000000; anonymousMaxRequestsPerIp := num_of_Z 1000000000;
  freeEmailAllowanceShare := num_of_Z 1; stripePriceGo := []; stripePricePro := []; goFirstMonthCoupon := None;
|}.

Definition freePlan (sandboxPlans : list CloudSandboxPlan) (freeLifetime : option number) : Load BillingPlanConfig :=
  let* rolling := required "STELLA_FREE_ROLLING_LIMIT_USD" in
  let* hours := required "STELLA_FREE_ROLLING_WINDOW_HOURS" in
  let* weekly := required "STELLA_FREE_WEEKLY_LIMIT_USD" in
  let* monthly := required "STELLA_FREE_MONTHLY_LIMIT_USD" in
  ret {| label := "Free"; monthlyPriceCents := S754_zero false; introFirstMonthPriceCents := None;
         rollingLimitUsd := rolling; rollingWindowHours := hours; weeklyLimitUsd := weekly; monthlyLimitUsd := monthly;
         lifetimeLimitUsd := freeLifetime; cloudSandbox := cloudSandboxFor sandboxPlans (PlanSandbox Free) |}.

Definition anonymousConfig (sandboxPlans : list CloudSandboxPlan) (anonLifetime : number) : Load BillingPlanConfig :=
  let* rolling := optionalOr "STELLA_ANON_ROLLING_LIMIT_USD" anonLifetime in
  let* hours := optionalOr "STELLA_ANON_ROLLING_WINDOW_HOURS" DEFAULT_ROLLING_WINDOW_HOURS in
  let* weekly := optionalOr "STELLA_ANON_WEEKLY_LIMIT_USD" anonLifetime in
  let* monthly := optionalOr "STELLA_ANON_MONTHLY_LIMIT_USD" anonLifetime in
  ret {| label := "Anonymous"; monthlyPriceCents := S754_zero false; introFirstMonthPriceCents := None;
         rollingLimitUsd := rolling; rollingWindowHours := hours; weeklyLimitUsd := weekly; monthlyLimitUsd := monthly;
         lifetimeLimitUsd := Some anonLifetime; cloudSandbox := cloudSandboxFor sandboxPlans AnonymousSandbox |}.

Definition withIntro (intro : option number) (plan : BillingPlanConfig) : BillingPlanConfig := {|
  label := label plan; monthlyPriceCents := monthlyPriceCents plan;
  introFirstMonthPriceCents := match intro with Some _ => intro | None => introFirstMonthPriceCents plan end;
  rollingLimitUsd := rollingLimitUsd plan; rollingWindowHours := rollingWindowHours plan; weeklyLimitUsd := weeklyLimitUsd plan;
  monthlyLimitUsd := monthlyLimitUsd plan; lifetimeLimitUsd := lifetimeLimitUsd plan; cloudSandbox := cloudSandbox plan;
|}.

Definition isSet {A} (v : option A) : bool := match v with Some _ => true | None => false end.

(** Billing is off only if none of its switches is set. *)
Definition loadBillingConfig : Load BillingConfig :=
  if forallb (λ name, negb (isSet (read name))) BILLING_SWITCHES then ret OPEN_BILLING_CONFIG else
  let* utilizationRate := required "STELLA_INCLUDED_USAGE_UTILIZATION_RATE" in
  if SFleb utilizationRate (S754_zero false) || SFltb (num_of_Z 1) utilizationRate
  then throw "STELLA_INCLUDED_USAGE_UTILIZATION_RATE must be in (0, 1]." else
  let* sandboxPlans := cloudSandboxPlans in
  let* go := paidPlan Go utilizationRate sandboxPlans in
  let* intro := optional "STELLA_GO_INTRO_FIRST_MONTH_PRICE_CENTS" in
  let coupon := read "STRIPE_COUPON_GO_FIRST_MONTH" in
  if negb (eqb (isSet intro) (isSet coupon))
  then throw "Set STELLA_GO_INTRO_FIRST_MONTH_PRICE_CENTS and STRIPE_COUPON_GO_FIRST_MONTH together." else
  let* freeLifetime := optional "STELLA_FREE_LIFETIME_LIMIT_USD" in
  let* anonLifetime := required "STELLA_ANON_LIFETIME_LIMIT_USD" in
  let* maxRequests := required "STELLA_ANON_MAX_REQUESTS" in
  match read "STRIPE_PRICE_GO", read "STRIPE_PRICE_PRO" with
  | Some priceGo, Some pricePro =>
      let* free := freePlan sandboxPlans freeLifetime in
      let* pro := paidPlan Pro utilizationRate sandboxPlans in
      let* anonymous := anonymousConfig sandboxPlans anonLifetime in
      let* perIp := optionalOr "STELLA_ANON_MAX_REQUESTS_PER_IP" (num_mul maxRequests ANON_IP_CAP_DEFAULT_MULTIPLIER) in
      let* share := optionalOr "STELLA_FREE_EMAIL_ALLOWANCE_SHARE" DEFAULT_FREE_EMAIL_ALLOWANCE_SHARE in
      ret {| enabled := true; plans := λ plan, match plan with Free => free | Go => withIntro intro go | Pro => pro end;
             anonymousPlan := anonymous; anonymousMaxRequests := maxRequests; anonymousMaxRequestsPerIp := perIp;
             freeEmailAllowanceShare := share; stripePriceGo := priceGo; stripePricePro := pricePro; goFirstMonthCoupon := coupon |}
  | _, _ => throw "Missing billing secret STRIPE_PRICE_GO or STRIPE_PRICE_PRO."
  end.
End Load.

(** [billingConfig(env)] *)
Definition billingConfig (env : EnvReader) : string + BillingConfig := (loadBillingConfig (reader env) []).2.

Definition planForStripePrice (config : BillingConfig) (priceId : option text) : option BillingPlan :=
  match priceId with
  | None | Some [] => None
  | Some id =>
      if negb (enabled config) then None
      else if bool_decide (stripePriceGo config = id) then Some Go
      else if bool_decide (stripePricePro config = id) then Some Pro else None
  end.

(** ** What a complete configuration is *)

Section Complete.
Context (read : EnvReader).

(** A secret that holds a number that is not negative; one that may also be missing. *)
Definition numberOf (name : string) : option number :=
  match read name with
  | Some raw => if nonNegative (toNumber raw) then Some (toNumber raw) else None
  | None => None
  end.
Definition holdsNumber (name : string) : Prop := is_Some (numberOf name).
Definition mayHoldNumber (name : string) : Prop := read name = None ∨ holdsNumber name.

Definition REQUIRED_SECRETS : list string :=
  ["STELLA_GO_PRICE_CENTS"; "STELLA_PRO_PRICE_CENTS"; "STELLA_FREE_ROLLING_LIMIT_USD"; "STELLA_FREE_ROLLING_WINDOW_HOURS";
   "STELLA_FREE_WEEKLY_LIMIT_USD"; "STELLA_FREE_MONTHLY_LIMIT_USD"; "STELLA_ANON_LIFETIME_LIMIT_USD"; "STELLA_ANON_MAX_REQUESTS"]%string.
Definition OPTIONAL_SECRETS : list string :=
  ["STELLA_GO_ROLLING_LIMIT_USD"; "STELLA_GO_ROLLING_WINDOW_HOURS"; "STELLA_GO_WEEKLY_LIMIT_USD"; "STELLA_GO_MONTHLY_LIMIT_USD";
   "STELLA_PRO_ROLLING_LIMIT_USD"; "STELLA_PRO_ROLLING_WINDOW_HOURS"; "STELLA_PRO_WEEKLY_LIMIT_USD"; "STELLA_PRO_MONTHLY_LIMIT_USD";
   "STELLA_GO_INTRO_FIRST_MONTH_PRICE_CENTS"; "STELLA_FREE_LIFETIME_LIMIT_USD"; "STELLA_FREE_EMAIL_ALLOWANCE_SHARE";
   "STELLA_ANON_ROLLING_LIMIT_USD"; "STELLA_ANON_ROLLING_WINDOW_HOURS"; "STELLA_ANON_WEEKLY_LIMIT_USD"; "STELLA_ANON_MONTHLY_LIMIT_USD";
   "STELLA_ANON_MAX_REQUESTS_PER_IP"]%string.

(** Every required secret is a number, so is every optional one that is set, the rate is in (0, 1], the
    prices are set, and the discount of the first month comes with its coupon. *)
Definition complete : Prop :=
  (∃ rate, numberOf "STELLA_INCLUDED_USAGE_UTILIZATION_RATE" = Some rate
           ∧ SFleb rate (S754_zero false) = false ∧ SFltb (num_of_Z 1) rate = false)
  ∧ Forall holdsNumber REQUIRED_SECRETS ∧ Forall mayHoldNumber OPTIONAL_SECRETS
  ∧ is_Some (read "STRIPE_PRICE_GO") ∧ is_Some (read "STRIPE_PRICE_PRO")
  ∧ (read "STELLA_GO_INTRO_FIRST_MONTH_PRICE_CENTS" = None ↔ read "STRIPE_COUPON_GO_FIRST_MONTH" = None).

(** A computation returns exactly under [P]. *)
Definition returnsIf {A} (c : Load A) (P : Prop) : Prop := ∀ s, (∃ a, (c s).2 = inr a) ↔ P.

Lemma returnsIf_ext {A} (c : Load A) P Q : returnsIf c P → (P ↔ Q) → returnsIf c Q.
Proof. intros Hc HPQ s. by rw (Hc s). Qed.

Lemma returnsIf_ret {A} (a : A) : returnsIf (ret a) True.
Proof. intros s. split; [done|]. by exists a. Qed.

Lemma returnsIf_throw {A} e : returnsIf (throw (A:=A) e) False.
Proof. intros s. split; [by intros [a ?]|done]. Qed.

Lemma returnsIf_bind {A B} (c : Load A) (k : A → Load B) P Q :
  returnsIf c P → (∀ a, returnsIf (k a) Q) → returnsIf (bind c k) (P ∧ Q).
Proof.
  intros Hc Hk s. rw -(Hc s). unfold bind. destruct (c s) as [s' [e|a]]; simpl.
  - split; [by intros [b ?]|by intros [[a ?] _]].
  - rw (Hk a s'). split; [intros HQ; split; [by exists a|done]|by intros [_ ?]].
Qed.

Lemma returnsIf_if {A} (b : bool) e (c : Load A) Q : returnsIf c Q → returnsIf (if b then throw e else c) (b = false ∧ Q).
Proof. intros Hc s. destruct b; [split; [by intros [a ?]|by intros []]|]. rw (Hc s). tauto. Qed.

Lemma required_number name : ∃ e, ∀ s, required read name s = (s, match numberOf name with Some value => inr value | None => inl e end).
Proof.
  unfold required, numberOf. destruct (read name) as [raw|]; [|by eexists].
  destruct (nonNegative (toNumber raw)); [by exists ""%string|by eexists].
Qed.

Lemma returnsIf_required name : returnsIf (required read name) (holdsNumber name).
Proof.
  intros s. unfold holdsNumber. destruct (required_number name) as [e ->]. destruct (numberOf name) as [value|]; simpl.
  - split; [intros _|intros _]; by exists value.
  - split; by intros [a ?].
Qed.

(** Where what follows depends on the number. *)
Lemma returnsIf_required_then {A} name (k : number → Load A) (Q : number → Prop) :
  (∀ value, returnsIf (k value) (Q value)) → returnsIf (bind (required read name) k) (∃ value, numberOf name = Some value ∧ Q value).
Proof.
  intros Hk s. unfold bind. destruct (required_number name) as [e ->]. destruct (numberOf name) as [value|].
  - rw (Hk value s). split; [intros HQ; by exists value|by intros (value' & [= <-] & HQ)].
  - split; [by intros [a ?]|by intros (value & ? & _)].
Qed.

Lemma returnsIf_optional name : returnsIf (optional read name) (mayHoldNumber name).
Proof.
  unfold optional, mayHoldNumber. destruct (read name) as [raw|] eqn:Hraw.
  - eapply returnsIf_ext; [apply returnsIf_bind; [apply returnsIf_required|intros value; apply returnsIf_ret]|].
    intuition congruence.
  - eapply returnsIf_ext; [apply returnsIf_ret|]. tauto.
Qed.

Lemma returnsIf_optionalOr name fallback : returnsIf (optionalOr read name fallback) (mayHoldNumber name).
Proof.
  unfold optionalOr. eapply returnsIf_ext; [apply returnsIf_bind; [apply returnsIf_optional|intros value; apply returnsIf_ret]|]. tauto.
Qed.

(** The list of sandbox plans is read whatever it says. *)
Lemma returnsIf_sandbox : returnsIf (cloudSandboxPlans read) True.
Proof.
  unfold cloudSandboxPlans. destruct (read _) as [raw|]; [|apply returnsIf_ret]. induction (splitOn 44%N raw) as [|entry entries IH]; simpl.
  - apply returnsIf_ret.
  - case_bool_decide; [done|]. destruct (sandboxPlanNamed _).
    + eapply returnsIf_ext; [apply returnsIf_bind; [exact IH|intros plans; apply returnsIf_ret]|]. tauto.
    + intros s. unfold bind, modify. simpl. apply IH.
Qed.

(** Where what follows depends on whether the number is set. *)
Lemma returnsIf_optional_then {A} name (k : option number → Load A) Q :
  (∀ value, isSet value = isSet (read name) → returnsIf (k value) Q) → returnsIf (bind (optional read name) k) (mayHoldNumber name ∧ Q).
Proof.
  intros Hk s. unfold optional, mayHoldNumber, holdsNumber, bind. destruct (read name) as [raw|] eqn:Hraw.
  - destruct (required_number name) as [e ->]. destruct (numberOf name) as [value|]; simpl.
    + rw (Hk (Some value) eq_refl s). split; [intros HQ; split; [right; by exists value|done]|by intros [_ ?]].
    + split; [by intros [a ?]|intros [[?|[a ?]] _]; done].
  - simpl. rw (Hk None eq_refl s). tauto.
Qed.

Lemma returnsIf_paidPlan plan rate sandbox :
  let prefix := planPrefix plan in
  returnsIf (paidPlan read plan rate sandbox)
    (holdsNumber (prefix +:+ "_PRICE_CENTS") ∧ mayHoldNumber (prefix +:+ "_ROLLING_LIMIT_USD")
     ∧ mayHoldNumber (prefix +:+ "_ROLLING_WINDOW_HOURS") ∧ mayHoldNumber (prefix +:+ "_WEEKLY_LIMIT_USD")
     ∧ mayHoldNumber (prefix +:+ "_MONTHLY_LIMIT_USD") ∧ True).
Proof.
  unfold paidPlan. repeat (apply returnsIf_bind; [first [apply returnsIf_required|apply returnsIf_optionalOr]|intros ?]).
  apply returnsIf_ret.
Qed.

Definition switchedOff : bool := forallb (λ name, negb (isSet (read name))) BILLING_SWITCHES.

Lemma returnsIf_freePlan sandbox lifetime :
  returnsIf (freePlan read sandbox lifetime)
    (holdsNumber "STELLA_FREE_ROLLING_LIMIT_USD" ∧ holdsNumber "STELLA_FREE_ROLLING_WINDOW_HOURS"
     ∧ holdsNumber "STELLA_FREE_WEEKLY_LIMIT_USD" ∧ holdsNumber "STELLA_FREE_MONTHLY_LIMIT_USD" ∧ True).
Proof. unfold freePlan. repeat (apply returnsIf_bind; [apply returnsIf_required|intros ?]). apply returnsIf_ret. Qed.

Lemma returnsIf_anonymousConfig sandbox lifetime :
  returnsIf (anonymousConfig read sandbox lifetime)
    (mayHoldNumber "STELLA_ANON_ROLLING_LIMIT_USD" ∧ mayHoldNumber "STELLA_ANON_ROLLING_WINDOW_HOURS"
     ∧ mayHoldNumber "STELLA_ANON_WEEKLY_LIMIT_USD" ∧ mayHoldNumber "STELLA_ANON_MONTHLY_LIMIT_USD" ∧ True).
Proof. unfold anonymousConfig. repeat (apply returnsIf_bind; [apply returnsIf_optionalOr|intros ?]). apply returnsIf_ret. Qed.

Lemma Forall_conjunction {A} (P : A → Prop) l : Forall P l ↔ foldr (λ x rest, P x ∧ rest) True l.
Proof. induction l as [|x l IH]; simpl; [by split|]. by rw Forall_cons IH. Qed.

(** What the catalog itself needs. *)
Definition catalogComplete : Prop :=
  (holdsNumber "STELLA_FREE_ROLLING_LIMIT_USD" ∧ holdsNumber "STELLA_FREE_ROLLING_WINDOW_HOURS"
   ∧ holdsNumber "STELLA_FREE_WEEKLY_LIMIT_USD" ∧ holdsNumber "STELLA_FREE_MONTHLY_LIMIT_USD" ∧ True)
  ∧ (holdsNumber "STELLA_PRO_PRICE_CENTS" ∧ mayHoldNumber "STELLA_PRO_ROLLING_LIMIT_USD"
     ∧ mayHoldNumber "STELLA_PRO_ROLLING_WINDOW_HOURS" ∧ mayHoldNumber "STELLA_PRO_WEEKLY_LIMIT_USD"
     ∧ mayHoldNumber "STELLA_PRO_MONTHLY_LIMIT_USD" ∧ True)
  ∧ (mayHoldNumber "STELLA_ANON_ROLLING_LIMIT_USD" ∧ mayHoldNumber "STELLA_ANON_ROLLING_WINDOW_HOURS"
     ∧ mayHoldNumber "STELLA_ANON_WEEKLY_LIMIT_USD" ∧ mayHoldNumber "STELLA_ANON_MONTHLY_LIMIT_USD" ∧ True)
  ∧ mayHoldNumber "STELLA_ANON_MAX_REQUESTS_PER_IP" ∧ mayHoldNumber "STELLA_FREE_EMAIL_ALLOWANCE_SHARE" ∧ True.

Lemma isSet_eqb {A B} (v : option A) (w : option B) : negb (eqb (isSet v) (isSet w)) = false ↔ (v = None ↔ w = None).
Proof. destruct v, w; simpl; split; try done; intros [H1 H2]; by [discriminate H1|discriminate H2] || (exfalso; by discriminate (H1 eq_refl) || discriminate (H2 eq_refl)). Qed.

(** The configuration loads exactly if it is complete, or billing is off. *)
Lemma returnsIf_loadBillingConfig : returnsIf (loadBillingConfig read) (switchedOff = true ∨ complete).
Proof.
  unfold loadBillingConfig. fold switchedOff. destruct switchedOff.
  { eapply returnsIf_ext; [apply returnsIf_ret|]. tauto. }
  eapply returnsIf_ext.
  { apply returnsIf_required_then. intros rate. apply returnsIf_if. apply returnsIf_bind; [apply returnsIf_sandbox|intros sandbox].
    apply returnsIf_bind; [apply returnsIf_paidPlan|intros go]. apply returnsIf_optional_then. intros intro Hintro. rw Hintro. apply returnsIf_if.
    apply returnsIf_bind; [apply returnsIf_optional|intros freeLifetime].
    apply returnsIf_bind; [apply returnsIf_required|intros anonLifetime].
    apply returnsIf_bind; [apply returnsIf_required|intros maxRequests].
    instantiate (1 := (is_Some (read "STRIPE_PRICE_GO") ∧ is_Some (read "STRIPE_PRICE_PRO")) ∧ catalogComplete).
    destruct (read "STRIPE_PRICE_GO") as [priceGo|], (read "STRIPE_PRICE_PRO") as [pricePro|];
      [|eapply returnsIf_ext; [apply returnsIf_throw|split; [done|by intros [[[? ?] [? ?]] _]]]..].
    eapply (returnsIf_ext _ catalogComplete); [unfold catalogComplete|split; [intros HP; split; [split; by eexists|exact HP]|by intros [_ HP]]].
    apply returnsIf_bind; [apply returnsIf_freePlan|intros free].
    apply returnsIf_bind; [apply returnsIf_paidPlan|intros pro].
    apply returnsIf_bind; [apply returnsIf_anonymousConfig|intros anonymous].
    apply returnsIf_bind; [apply returnsIf_optionalOr|intros perIp].
    apply returnsIf_bind; [apply returnsIf_optionalOr|intros share]. apply returnsIf_ret. }
  unfold complete, REQUIRED_SECRETS, OPTIONAL_SECRETS. rw !Forall_conjunction. cbn [foldr]. unfold catalogComplete. cbn [planPrefix String.append].
  assert (Hdiscount := isSet_eqb (read "STELLA_GO_INTRO_FIRST_MONTH_PRICE_CENTS") (read "STRIPE_COUPON_GO_FIRST_MONTH")).
  revert Hdiscount. generalize (read "STELLA_GO_INTRO_FIRST_MONTH_PRICE_CENTS" = None ↔ read "STRIPE_COUPON_GO_FIRST_MONTH" = None).
  generalize (negb (eqb (isSet (read "STELLA_GO_INTRO_FIRST_MONTH_PRICE_CENTS")) (isSet (read "STRIPE_COUPON_GO_FIRST_MONTH"))) = false).
  intros discount discount' Hdiscount.
  generalize (is_Some (read "STRIPE_PRICE_GO")) (is_Some (read "STRIPE_PRICE_PRO")) holdsNumber mayHoldNumber. intros priceGo pricePro holds may.
  split; [intros (rate & Hrate & Hrange%orb_false_iff & Hrest); right; split; [by exists rate|tauto]|].
  intros [?|[(rate & Hrate & Hrange%orb_false_iff) Hrest]]; [done|]. exists rate. split; [done|]. split; [done|]. tauto.
Qed.

(** What holds of every result. *)
Definition yields {A} (c : Load A) (Q : A → Prop) : Prop := ∀ s a, (c s).2 = inr a → Q a.

Lemma yields_bind {A B} (c : Load A) (k : A → Load B) Q : (∀ a, yields (k a) Q) → yields (bind c k) Q.
Proof. intros Hk s b. unfold bind. destruct (c s) as [s' [e|a]]; [done|]. apply Hk. Qed.

Lemma yields_if {A} (b : bool) e (c : Load A) Q : yields c Q → yields (if b then throw e else c) Q.
Proof. intros Hc. by destruct b. Qed.

Lemma yields_loadBillingConfig :
  switchedOff = false →
  yields (loadBillingConfig read) (λ config,
    enabled config = true ∧ Some (stripePriceGo config) = read "STRIPE_PRICE_GO" ∧ Some (stripePricePro config) = read "STRIPE_PRICE_PRO").
Proof.
  intros Hoff. unfold loadBillingConfig. fold switchedOff. rw Hoff.
  do 9 first [apply yields_bind; intros ?|apply yields_if].
  destruct (read "STRIPE_PRICE_GO") as [priceGo|], (read "STRIPE_PRICE_PRO") as [pricePro|]; [|by intros s config..].
  do 5 (apply yields_bind; intros ?). by intros s config [= <-].
Qed.
End Complete.

(** C35: billing is off exactly when it is meant to be: a deployment that sets none of the four secrets
    that mean billing gets the open configuration, any other one a configuration with billing on and
    its own prices if every secret it needs is a number that is not negative, every optional one too
    where it is set, the rate is in (0, 1], both prices are there, and the discount of the first month
    comes with its coupon; and an error in every other case. *)
Theorem billing_is_off_or_complete env :
  let read := reader env in
  match billingConfig env with
  | inr config =>
      if enabled config
      then complete read ∧ Some (stripePriceGo config) = read "STRIPE_PRICE_GO"%string ∧ Some (stripePricePro config) = read "STRIPE_PRICE_PRO"%string
      else Forall (λ name, read name = None) BILLING_SWITCHES ∧ config = OPEN_BILLING_CONFIG
  | inl _ => ¬ complete read ∧ ¬ Forall (λ name, read name = None) BILLING_SWITCHES
  end.
Proof.
  intros read. unfold billingConfig. fold read. pose proof (returnsIf_loadBillingConfig read []) as Hreturns.
  assert (Hoff : switchedOff read = true ↔ Forall (λ name, read name = None) BILLING_SWITCHES).
  { unfold switchedOff. rw forallb_forall List.Forall_forall. split; intros H name Hname; specialize (H name Hname); by destruct (read name). }
  destruct ((loadBillingConfig read []).2) as [e|config] eqn:Hload.
  - rw -Hoff. split; intros H; assert (∃ a, inl e = inr a :> string + BillingConfig) as [? ?] by (apply Hreturns; tauto); done.
  - assert (Hcases : switchedOff read = true ∨ complete read) by (apply Hreturns; by exists config).
    destruct (switchedOff read) eqn:Hswitched.
    + assert (config = OPEN_BILLING_CONFIG) as ->; [|simpl; split; [by apply Hoff|done]].
      unfold loadBillingConfig in Hload. fold (switchedOff read) in Hload. rw Hswitched in Hload. by injection Hload.
    + destruct (yields_loadBillingConfig read Hswitched [] config Hload) as (-> & Hgo & Hpro). destruct Hcases as [|Hcomplete]; done.
Qed.
