(* ===== verification/Billing.v ===== *)
(** * The billing ledger of an owner

    [workers/cloud-builder/src/owner-store/domains/billing.ts]: the account row, its usage windows,
    purchased credit, the budget handed out in grants, and the receipts that make usage idempotent.
    The tables are the fields of [Ledger]; a function that takes an [OwnerContext] is a computation on
    them, with [ctx.now] and the configuration of the deployment as arguments.  The handlers run to
    completion between awaits; a throw does not undo the statements before it.  Amounts of the tables
    are integers (micro-cents); a cost arrives as a double and is floored. *)

From Corelib Require Import ssreflect SpecFloat.
From stdpp Require Import prelude gmap strings.
From S2P Require Import Prelude JsNumber GatewayPolicy Calendar NumberText BillingPlans.

#[local] Open Scope Z_scope.

Definition MICRO_CENTS_PER_USD : Z := 100000000.
Definition LIFETIME_RETRY_AFTER_MS : Z := 24 * 60 * 60 * 1000.
Definition GRANT_SETTLEMENT_GRACE_MS : Z := 10 * 60 * 1000.
Definition RECEIPT_RETENTION_MS : Z := 30 * 24 * 60 * 60 * 1000.
Definition ACTIVE_SUBSCRIPTION_STATUSES : list string := ["active"; "trialing"; "past_due"]%string.

Definition GATEWAY_SESSION_BUDGET_CHUNK_MICRO_CENTS (a : ManagedModelAudienceForLimits) : Z :=
  match a with lim_anonymous => 10000000 | lim_free => 100000000 | lim_go => 200000000 | lim_pro => 500000000 end.

(** ** Data *)

Inductive UsageMode := DefaultUsage | UnlimitedUsage.

#[export] Instance UsageMode_eq_dec : EqDecision UsageMode.
Proof. solve_decision. Defined.

(** The usage of the three windows: what is written back when they are charged or reset. *)
Record Usage := {
  rolling_used : Z; rolling_started_at : Z;
  weekly_used : Z; weekly_started_at : Z;
  monthly_used : Z; monthly_started_at : Z;
}.

Record AccountRow := {
  plan : BillingPlan;
  usage_mode : UsageMode;
  subscription_status : string;
  stripe_customer_id : option string;
  stripe_subscription_id : option string;
  stripe_price_id : option (list N);
  current_period_end : Z;
  cancel_at_period_end : bool;
  payment_method_brand : option string;
  payment_method_last4 : option string;
  monthly_anchor_at : Z;
  usage : Usage;
  total_used : Z;
  total_requests : Z;
  credit_balance : Z;
  credit_purchased : Z;
  credit_consumed : Z;
  is_anonymous : bool;
  identity_level : Z;
  updated_at : Z;
}.

Record Grant := { budget : Z; settled : Z; expires_at : Z }.
Record Receipt := { charged : Z; receiptCreatedAt : Z }.

Record Ledger := {
  account : option AccountRow;
  grants : gmap string Grant;
  receipts : gmap string Receipt;
  stripeEvents : gmap string Z;
  creditPurchases : gmap string (Z * Z);
}.

Definition emptyLedger : Ledger :=
  {| account := None; grants := ∅; receipts := ∅; stripeEvents := ∅; creditPurchases := ∅ |}.

(** What a handler throws: an incomplete configuration, a primary key that is taken, a failed request. *)
Inductive Failure := ConfigFailure (message : string) | UniqueFailure | StripeFailure.

Notation Op := (M Ledger Failure).

Definition withAccount (row : AccountRow) (l : Ledger) : Ledger :=
  {| account := Some row; grants := grants l; receipts := receipts l; stripeEvents := stripeEvents l; creditPurchases := creditPurchases l |}.
Definition withGrants (g : gmap string Grant) (l : Ledger) : Ledger :=
  {| account := account l; grants := g; receipts := receipts l; stripeEvents := stripeEvents l; creditPurchases := creditPurchases l |}.
Definition withReceipts (r : gmap string Receipt) (l : Ledger) : Ledger :=
  {| account := account l; grants := grants l; receipts := r; stripeEvents := stripeEvents l; creditPurchases := creditPurchases l |}.
Definition withStripeEvents (e : gmap string Z) (l : Ledger) : Ledger :=
  {| account := account l; grants := grants l; receipts := receipts l; stripeEvents := e; creditPurchases := creditPurchases l |}.
Definition withCreditPurchases (p : gmap string (Z * Z)) (l : Ledger) : Ledger :=
  {| account := account l; grants := grants l; receipts := receipts l; stripeEvents := stripeEvents l; creditPurchases := p |}.

(** ** Calendar windows *)

Record Bounds := { windowStart : Z; windowEnd : Z }.

Definition weekBounds (now : Z) : Bounds :=
  let start := setUTCHours 0 0 0 0 (setUTCDate (getUTCDate now - (getUTCDay now + 6) mod 7) now) in
  {| windowStart := start; windowEnd := start + 7 * 24 * 60 * 60 * 1000 |}.

(** The billing instant of [anchor] in a month, on its last day if the month is too short. *)
Definition billingInstant (anchor year month : Z) : Z :=
  let maxDay := getUTCDate (UTC year (month + 1) 0 0 0 0 0) in
  UTC year month (Z.min (getUTCDate anchor) maxDay) (getUTCHours anchor) (getUTCMinutes anchor) (getUTCSeconds anchor)
    (getUTCMilliseconds anchor).

Definition shift (year month delta : Z) : Z * Z :=
  let total := year * 12 + month + delta in (total / 12, (total mod 12 + 12) mod 12).

Definition monthBounds (now anchor : Z) : Bounds :=
  let '(year, month) :=
    if now <? billingInstant anchor (getUTCFullYear now) (getUTCMonth now)
    then shift (getUTCFullYear now) (getUTCMonth now) (-1) else (getUTCFullYear now, getUTCMonth now) in
  let '(endYear, endMonth) := shift year month 1 in
  {| windowStart := billingInstant anchor year month; windowEnd := billingInstant anchor endYear endMonth |}.

(** ** The account row *)

Definition resetWindows (now anchor : Z) : Usage := {|
  rolling_used := 0; rolling_started_at := now;
  weekly_used := 0; weekly_started_at := windowStart (weekBounds now);
  monthly_used := 0; monthly_started_at := windowStart (monthBounds now anchor);
|}.

Definition defaultAccount (now : Z) : AccountRow := {|
  plan := Free; usage_mode := DefaultUsage; subscription_status := "none"; stripe_customer_id := None;
  stripe_subscription_id := None; stripe_price_id := None; current_period_end := 0; cancel_at_period_end := false;
  payment_method_brand := None; payment_method_last4 := None; monthly_anchor_at := now; usage := resetWindows now now;
  total_used := 0; total_requests := 0; credit_balance := 0; credit_purchased := 0; credit_consumed := 0;
  is_anonymous := false; identity_level := 1; updated_at := now;
|}.

Definition readAccount (now : Z) (l : Ledger) : AccountRow := default (defaultAccount now) (account l).

Definition ensureAccount (now : Z) : Op AccountRow := λ l,
  match account l with
  | Some row => (l, inr row)
  | None => (withAccount (defaultAccount now) l, inr (defaultAccount now))
  end.

(** [UPDATE billing_account SET ... WHERE id = 1]: nothing without a row. *)
Definition updateAccount (f : AccountRow → AccountRow) : Op () :=
  modify (λ l, match account l with Some row => withAccount (f row) l | None => l end).

Definition statusActive (status : string) : bool := bool_decide (status ∈ ACTIVE_SUBSCRIPTION_STATUSES).

Definition isPaying (row : AccountRow) : bool :=
  negb (bool_decide (plan row = Free)) && statusActive (subscription_status row) || (0 <? credit_balance row).

Definition identityLevel (row : AccountRow) : Z :=
  if is_anonymous row then 0 else if isPaying row then 3 else Z.min 2 (Z.max 1 (identity_level row)).

(** ** Usage against the windows of the plan *)

Record Window := { used : Z; limit : Z; resetAt : Z }.
Definition exceeded (w : Window) : bool := limit w <=? used w.

Record UsageSnapshot := {
  rolling : Window; weekly : Window; monthly : Window;
  lifetime : option Window;
  normalized : Usage;
}.

Definition planConfigOf (config : BillingConfig) (row : AccountRow) : BillingPlanConfig :=
  if is_anonymous row then anonymousPlan config else plans config (plan row).

(** A free owner known by email only gets a share of the allowance. *)
Definition shareOf (config : BillingConfig) (row : AccountRow) : number :=
  if negb (is_anonymous row) && bool_decide (plan row = Free) && (identityLevel row =? 1)
  then freeEmailAllowanceShare config else num_of_Z 1.

Definition limitOf (share usd : number) : Z := num_round (num_mul (num_mul usd share) (num_of_Z MICRO_CENTS_PER_USD)).

Definition rollingMsOf (config : BillingPlanConfig) : Z :=
  Z.max 1 (num_floor (num_mul (num_mul (num_mul (rollingWindowHours config) (num_of_Z 60)) (num_of_Z 60)) (num_of_Z 1000))).

(** The windows with those that have expired set to zero. *)
Definition normalizeUsage (rollingMs anchor now : Z) (u : Usage) : Usage :=
  let rollingActive := (0 <? rolling_started_at u) && (now - rollingMs <=? rolling_started_at u) in
  let week := weekBounds now in
  let weeklyActive := windowStart week <=? weekly_started_at u in
  let month := monthBounds now (if 0 <? anchor then anchor else now) in
  let monthlyActive := windowStart month <=? monthly_started_at u in {|
  rolling_used := if rollingActive then rolling_used u else 0;
  rolling_started_at := if rollingActive then rolling_started_at u else now;
  weekly_used := if weeklyActive then weekly_used u else 0;
  weekly_started_at := if weeklyActive then weekly_started_at u else windowStart week;
  monthly_used := if monthlyActive then monthly_used u else 0;
  monthly_started_at := if monthlyActive then monthly_started_at u else windowStart month;
|}.

Definition usageSnapshot (config : BillingConfig) (row : AccountRow) (now : Z) : UsageSnapshot :=
  let planConfig := planConfigOf config row in
  let limitUsd := limitOf (shareOf config row) in
  let rollingMs := rollingMsOf planConfig in
  let anchor := monthly_anchor_at row in
  let u := normalizeUsage rollingMs anchor now (usage row) in {|
  rolling := {| used := rolling_used u; limit := limitUsd (rollingLimitUsd planConfig); resetAt := rolling_started_at u + rollingMs |};
  weekly := {| used := weekly_used u; limit := limitUsd (weeklyLimitUsd planConfig); resetAt := windowEnd (weekBounds now) |};
  monthly := {| used := monthly_used u; limit := limitUsd (monthlyLimitUsd planConfig);
                resetAt := windowEnd (monthBounds now (if 0 <? anchor then anchor else now)) |};
  lifetime := (λ usd, {| used := total_used row; limit := limitUsd usd; resetAt := now + LIFETIME_RETRY_AFTER_MS |})
                <$> lifetimeLimitUsd planConfig;
  normalized := u;
|}.

Definition room (w : Window) : Z := limit w - used w.

(** Spend left inside the windows, before purchased credit. *)
Definition includedHeadroom (snapshot : UsageSnapshot) : Z :=
  let windows := Z.min (Z.min (room (rolling snapshot)) (room (weekly snapshot))) (room (monthly snapshot)) in
  Z.max 0 (match lifetime snapshot with Some w => Z.min windows (room w) | None => windows end).

(** ** Access *)

Record BillingAccess := {
  accessPlan : BillingPlan;
  accessIsAnonymous : bool;
  accessIdentityLevel : Z;
  unlimited : bool;
  allowed : bool;
  downgraded : bool;
  audience : ManagedModelAudience;
  retryAfterMs : Z;
  message : string;
  remainingMicroCents : option Z;
}.

Definition audienceFor (current : BillingPlan) (anonymous down : bool) : ManagedModelAudience :=
  if anonymous then aud_anonymous
  else match current with
       | Free => aud_free
       | Go => if down then aud_go_fallback else aud_go
       | Pro => if down then aud_pro_fallback else aud_pro
       end.

(** A window blocks when neither it nor purchased credit has room. *)
Definition blocks (credit : Z) (w : Window) : bool := Z.max 0 (room w) + credit <=? 0.

(** The window that blocks, and whether it is the one for the lifetime. *)
Definition blockingWindow (credit : Z) (snapshot : UsageSnapshot) : option (Window * bool) :=
  let windowed := (λ w, (w, false)) <$> head (List.filter (blocks credit) [rolling snapshot; weekly snapshot; monthly snapshot]) in
  match lifetime snapshot with
  | Some w => if blocks credit w then Some (w, true) else windowed
  | None => windowed
  end.

Definition accessFor (config : BillingConfig) (row : AccountRow) (now : Z) : BillingAccess :=
  let current := if enabled config then plan row else Pro in
  let anonymous := is_anonymous row in
  let open := bool_decide (usage_mode row = UnlimitedUsage) || negb (enabled config) in
  let snapshot := usageSnapshot config row now in
  let credit := Z.max 0 (credit_balance row) in
  let remaining := if open then None else Some (includedHeadroom snapshot + credit) in
  let answer ok down who retry text := {|
    accessPlan := current; accessIsAnonymous := anonymous; accessIdentityLevel := identityLevel row; unlimited := open;
    allowed := ok; downgraded := down; audience := who; retryAfterMs := retry; message := text; remainingMicroCents := remaining |} in
  match (if open then None else blockingWindow credit snapshot) with
  | None => answer true false (audienceFor current (anonymous && enabled config) false) 0 ""%string
  | Some (w, forLife) =>
      let retry := Z.max 1000 (resetAt w - now) in
      if bool_decide (current = Free) then
        answer false false (audienceFor current anonymous false) retry
          (if forLife then "You've used your free Stella allowance. Upgrade to keep going."
           else "Free plan usage limit reached. Upgrade to continue.")%string
      else
        answer true true (audienceFor current anonymous true) retry
          (label (plans config current) +:+ " plan managed-model limits reached. Falling back until usage resets.")%string
  end.

Section Domain.
(** [billingConfig(ctx.env)]: the configuration, or the error it throws. *)
Context (configured : string + BillingConfig).

Definition configOr : Op BillingConfig := λ l,
  match configured with inl e => (l, inl (ConfigFailure e)) | inr config => (l, inr config) end.

Definition billingAccess (now : Z) : Op BillingAccess :=
  let* config := configOr in
  gets (λ l, accessFor config (readAccount now l) now).

Definition billingPaying (now : Z) (l : Ledger) : bool := isPaying (readAccount now l).

Definition billingPlan (now : Z) (l : Ledger) : BillingPlan * bool :=
  let row := readAccount now l in
  let stored := (plan row, bool_decide (usage_mode row = UnlimitedUsage)) in
  match configured with
  | inl _ => stored
  | inr config => if enabled config then stored else (Pro, true)
  end.

Definition subscribedPlan (row : AccountRow) : BillingPlan :=
  if statusActive (subscription_status row) then plan row else Free.

Definition cloudSandboxAccess (now : Z) (l : Ledger) : bool :=
  match configured with
  | inl _ => false
  | inr config =>
      let row := readAccount now l in
      if negb (enabled config) then cloudSandbox (plans config Pro)
      else if is_anonymous row then cloudSandbox (anonymousPlan config)
      else cloudSandbox (plans config (subscribedPlan row))
  end.

Definition setIdentity (anonymous : bool) (level : Z) (row : AccountRow) : AccountRow := {|
  plan := plan row; usage_mode := usage_mode row; subscription_status := subscription_status row; stripe_customer_id := stripe_customer_id row;
  stripe_subscription_id := stripe_subscription_id row; stripe_price_id := stripe_price_id row; current_period_end := current_period_end row;
  cancel_at_period_end := cancel_at_period_end row; payment_method_brand := payment_method_brand row;
  payment_method_last4 := payment_method_last4 row; monthly_anchor_at := monthly_anchor_at row; usage := usage row;
  total_used := total_used row; total_requests := total_requests row; credit_balance := credit_balance row;
  credit_purchased := credit_purchased row; credit_consumed := credit_consumed row; is_anonymous := anonymous;
  identity_level := level; updated_at := updated_at row;
|}.

Definition recordBillingIdentity (anonymous : bool) (level : option Z) (now : Z) : Op () :=
  let* row := ensureAccount now in
  let level := default (identity_level row) level in
  if eqb (is_anonymous row) anonymous && (identity_level row =? level) then ret ()
  else updateAccount (setIdentity anonymous level).

(** ** Grants *)

(** [expires_at + GRACE >= now]. *)
Definition live (now : Z) (g : Grant) : bool := now <=? expires_at g + GRANT_SETTLEMENT_GRACE_MS.
Definition unspent (g : Grant) : Z := Z.max 0 (budget g - settled g).

(** Budget still held by live grants. *)
Definition reservedGrants (now : Z) (l : Ledger) : Z := sum_where (λ _ g, live now g) unspent (grants l).

Definition capabilityBudget (access : BillingAccess) (reserved : Z) : Z :=
  match remainingMicroCents access with
  | None => GATEWAY_BUDGET_UNLIMITED
  | Some remaining => Z.min (Z.max 0 (remaining - reserved)) (GATEWAY_SESSION_BUDGET_CHUNK_MICRO_CENTS (limitsAudienceFor (audience access)))
  end.

Definition turnAllowance (now : Z) : Op (BillingPlan * Z * ManagedModelAudience * Z) :=
  let* access := billingAccess now in
  let* reserved := gets (reservedGrants now) in
  ret (accessPlan access, accessIdentityLevel access, audience access, capabilityBudget access reserved).

(** [DELETE FROM billing_grants WHERE expires_at + ? < ?]. *)
Definition pruneGrants (now : Z) : Op () :=
  modify (λ l, withGrants (filter (λ kv, live now kv.2 = true) (grants l)) l).

Definition insertGrant (jti : string) (g : Grant) : Op () := λ l,
  match grants l !! jti with
  | Some _ => (l, inl UniqueFailure)
  | None => (withGrants (<[jti := g]> (grants l)) l, inr ())
  end.

Definition reserveSessionGrant (jti : string) (expiresAt now : Z) : Op (BillingAccess * Z) :=
  pruneGrants now;;;
  let* access := billingAccess now in
  let* reserved := gets (reservedGrants now) in
  let budgetMicroCents := capabilityBudget access reserved in
  (if budgetMicroCents =? GATEWAY_BUDGET_UNLIMITED then ret ()
   else insertGrant jti {| budget := budgetMicroCents; settled := 0; expires_at := expiresAt |});;;
  ret (access, budgetMicroCents).

(** [Math.ceil] on a double. *)
Definition num_ceiling (x : number) : Z := - num_floor (SFopp x).

Definition reserveUsage (id : string) (budgetMicroCents : number) (expiresAt now : Z) : Op (BillingAccess * bool) :=
  pruneGrants now;;;
  let* access := billingAccess now in
  if negb (allowed access) then ret (access, false) else
  let wanted := Z.max 0 (num_ceiling budgetMicroCents) in
  match remainingMicroCents access with
  | None => ret (access, true)
  | Some remaining =>
      let* reserved := gets (reservedGrants now) in
      if remaining - reserved <? wanted then ret (access, false)
      else modify (λ l, withGrants (<[id := {| budget := wanted; settled := 0; expires_at := expiresAt |}]> (grants l)) l);;;
           ret (access, true)
  end.

(** [UPDATE billing_grants SET settled = settled + ? WHERE jti = ?]. *)
Definition settle (jti : string) (amount : Z) : Op () :=
  modify (λ l, withGrants (alter (λ g, {| budget := budget g; settled := settled g + amount; expires_at := expires_at g |}) jti (grants l)) l).

Definition costOf (costMicroCents : number) : Z := Z.max 0 (num_floor costMicroCents).

Definition settleReservation (id : string) (costMicroCents : number) : Op () := settle id (costOf costMicroCents).

Definition releaseReservation (id : string) : Op () := modify (λ l, withGrants (delete id (grants l)) l).

(** ** Settling usage *)

Definition addUsage (cost : Z) (u : Usage) : Usage := {|
  rolling_used := rolling_used u + cost; rolling_started_at := rolling_started_at u;
  weekly_used := weekly_used u + cost; weekly_started_at := weekly_started_at u;
  monthly_used := monthly_used u + cost; monthly_started_at := monthly_started_at u;
|}.

Definition setCharged (u : Usage) (cost fromCredit now : Z) (row : AccountRow) : AccountRow := {|
  plan := plan row; usage_mode := usage_mode row; subscription_status := subscription_status row; stripe_customer_id := stripe_customer_id row;
  stripe_subscription_id := stripe_subscription_id row; stripe_price_id := stripe_price_id row; current_period_end := current_period_end row;
  cancel_at_period_end := cancel_at_period_end row; payment_method_brand := payment_method_brand row;
  payment_method_last4 := payment_method_last4 row; monthly_anchor_at := monthly_anchor_at row; usage := u;
  total_used := total_used row + cost; total_requests := total_requests row + 1; credit_balance := credit_balance row - fromCredit;
  credit_purchased := credit_purchased row; credit_consumed := credit_consumed row + fromCredit; is_anonymous := is_anonymous row;
  identity_level := identity_level row; updated_at := now;
|}.

(** The credit a cost draws: what the windows do not cover. *)
Definition creditFor (config : BillingConfig) (row : AccountRow) (cost now : Z) : Z :=
  if bool_decide (usage_mode row = UnlimitedUsage) then 0
  else Z.min (Z.max 0 (credit_balance row)) (Z.max 0 (cost - includedHeadroom (usageSnapshot config row now))).

Definition charge (costMicroCents : number) (now : Z) : Op () :=
  let cost := costOf costMicroCents in
  let* row := ensureAccount now in
  let* config := configOr in
  let u := normalized (usageSnapshot config row now) in
  updateAccount (setCharged (addUsage cost u) cost (creditFor config row cost now) now).

Definition claimReceipt (id : string) (amount : number) (now : Z) : Op bool := λ l,
  match receipts l !! id with
  | Some _ => (l, inr false)
  | None => (withReceipts (<[id := {| charged := costOf amount; receiptCreatedAt := now |}]> (receipts l)) l, inr true)
  end.

Definition pruneReceipts (now : Z) : Op () :=
  modify (λ l, withReceipts (filter (λ kv, now - RECEIPT_RETENTION_MS ≤ receiptCreatedAt kv.2) (receipts l)) l).

Inductive Outcome := OutcomeFailed | OutcomeOther.

Record GatewayUsageEvent := {
  requestId : string;
  capabilityId : string;
  eventOwnerId : string;
  chargedMicroCents : number;
  outcome : Outcome;
  billable : bool;
}.

Record UsageBatchResult := { accepted : list string; duplicate : list string; rejected : list string }.

Definition gatewayReceipt (requestId : string) : string := "gw:" +:+ requestId.

Inductive Verdict := AcceptedEvent | DuplicateEvent | RejectedEvent.

(** One event of a batch. *)
Definition applyEvent (ownerId : string) (event : GatewayUsageEvent) (now : Z) : Op Verdict :=
  if negb (bool_decide (eventOwnerId event = ownerId)) then ret RejectedEvent else
  let* claimed := claimReceipt (gatewayReceipt (requestId event)) (chargedMicroCents event) now in
  if negb claimed then ret DuplicateEvent else
  settle (capabilityId event) (costOf (chargedMicroCents event));;;
  (match billable event, outcome event with
   | true, OutcomeOther => charge (chargedMicroCents event) now
   | _, _ => ret ()
   end);;;
  ret AcceptedEvent.

Definition file (id : string) (verdict : Verdict) (r : UsageBatchResult) : UsageBatchResult :=
  match verdict with
  | AcceptedEvent => {| accepted := accepted r ++ [id]; duplicate := duplicate r; rejected := rejected r |}
  | DuplicateEvent => {| accepted := accepted r; duplicate := duplicate r ++ [id]; rejected := rejected r |}
  | RejectedEvent => {| accepted := accepted r; duplicate := duplicate r; rejected := rejected r ++ [id] |}
  end.

Fixpoint applyEvents (ownerId : string) (events : list GatewayUsageEvent) (now : Z) (r : UsageBatchResult) : Op UsageBatchResult :=
  match events with
  | [] => ret r
  | event :: events =>
      let* verdict := applyEvent ownerId event now in
      applyEvents ownerId events now (file (requestId event) verdict r)
  end.

Definition applyGatewayUsage (ownerId : string) (events : list GatewayUsageEvent) (now : Z) : Op UsageBatchResult :=
  pruneReceipts now;;; applyEvents ownerId events now {| accepted := []; duplicate := []; rejected := [] |}.

Fixpoint recordEach (records : list (string * number)) (now recorded : Z) : Op Z :=
  match records with
  | [] => ret recorded
  | (id, cost) :: records =>
      let* claimed := claimReceipt ("use:" +:+ id) cost now in
      if (claimed : bool) then charge cost now;;; recordEach records now (recorded + 1)
      else recordEach records now recorded
  end.

(** How many were recorded and how many were there before. *)
Definition recordUsage (records : list (string * number)) (now : Z) : Op (Z * Z) :=
  pruneReceipts now;;;
  let* recorded := recordEach records now 0 in
  ret (recorded, Z.of_nat (length records) - recorded).

(** ** Plans *)

Definition setPlan (next : BillingPlan) (mode : UsageMode) (status : string) (anchor : Z) (u : Usage) (now : Z) (row : AccountRow) : AccountRow := {|
  plan := next; usage_mode := mode; subscription_status := status; stripe_customer_id := stripe_customer_id row;
  stripe_subscription_id := stripe_subscription_id row; stripe_price_id := stripe_price_id row; current_period_end := 0;
  cancel_at_period_end := false; payment_method_brand := payment_method_brand row;
  payment_method_last4 := payment_method_last4 row; monthly_anchor_at := anchor; usage := u;
  total_used := total_used row; total_requests := total_requests row; credit_balance := credit_balance row;
  credit_purchased := credit_purchased row; credit_consumed := credit_consumed row; is_anonymous := is_anonymous row;
  identity_level := identity_level row; updated_at := now;
|}.

Definition setAdminPlan (newPlan : option BillingPlan) (newMode : option UsageMode) (resetUsage : option bool) (now : Z) : Op () :=
  let* row := ensureAccount now in
  let nextPlan := default (plan row) newPlan in
  let planChanged := negb (bool_decide (nextPlan = plan row)) in
  let mode := match newMode with Some mode => mode | None => if planChanged then DefaultUsage else usage_mode row end in
  let anchor := if bool_decide (nextPlan = Free) then monthly_anchor_at row else now in
  let reset := default (planChanged || negb (bool_decide (mode = usage_mode row))) resetUsage in
  updateAccount (λ row, setPlan nextPlan mode (if bool_decide (nextPlan = Free) then "none" else "active")%string anchor
    (if reset then resetWindows now anchor else usage row) now row).
End Domain.
