(* ===== verification/BillingStripe.v ===== *)
(** * Stripe and the billing ledger

    The Stripe half of [workers/cloud-builder/src/owner-store/domains/billing.ts]: events, which fetch
    the subscription they are about before they apply it, and the customer a checkout creates.  Each
    await splits a handler in two, and [step] is one event of an owner's object: a call that runs to
    its end, or one half of a handler that waits for Stripe.  What Stripe answers is an argument. *)

From Corelib Require Import ssreflect SpecFloat.
From stdpp Require Import prelude gmap strings.
From S2P Require Import Prelude JsNumber GatewayPolicy Calendar NumberText BillingPlans Billing.

#[local] Open Scope Z_scope.

Record StripeCard := { brand : option string; last4 : option string }.

(** The first item carries the price and, in newer versions, the period; [card] is there if the payment
    method is an object that has one. *)
Record StripeSubscription := {
  subscriptionId : string;
  status : string;
  customer : string;
  cancelAtPeriodEnd : bool;
  periodStart : option Z;
  periodEnd : option Z;
  itemPriceId : option (list N);
  itemPeriodStart : option Z;
  itemPeriodEnd : option Z;
  card : option StripeCard;
}.

(** What the handlers read of [event.data.object]; [amountCents] and [amountSubtotal] are converted
    with [Number]. *)
Record StripeObject := {
  objectId : string;
  mode : option string;
  purpose : option string;
  paymentStatus : option string;
  amountCents : number;
  amountSubtotal : number;
  subscription : option string;
  nestedSubscription : option string;
}.

Record StripeEvent := { eventId : string; eventType : string; object : StripeObject }.

Definition subscriptionIdOf (o : StripeObject) : option string :=
  match subscription o with Some id => Some id | None => nestedSubscription o end.

(** [value || fallback] on a number. *)
Definition orElse (value fallback : Z) : Z := if value =? 0 then fallback else value.

Definition setSubscription (next : BillingPlan) (sub : StripeSubscription) (anchor now : Z) (row : AccountRow) : AccountRow := {|
  plan := next;
  usage_mode := if bool_decide (next = plan row) then usage_mode row else DefaultUsage;
  subscription_status := status sub;
  stripe_customer_id := Some (customer sub);
  stripe_subscription_id := Some (subscriptionId sub);
  stripe_price_id := if bool_decide (next = Free) then None else itemPriceId sub;
  current_period_end := default (default 0 (periodEnd sub)) (itemPeriodEnd sub) * 1000;
  cancel_at_period_end := cancelAtPeriodEnd sub;
  payment_method_brand := match card sub with Some c => brand c | None => payment_method_brand row end;
  payment_method_last4 := match card sub with Some c => last4 c | None => payment_method_last4 row end;
  monthly_anchor_at := anchor;
  usage := if bool_decide (next = plan row) then usage row else resetWindows now anchor;
  total_used := total_used row; total_requests := total_requests row; credit_balance := credit_balance row;
  credit_purchased := credit_purchased row; credit_consumed := credit_consumed row; is_anonymous := is_anonymous row;
  identity_level := identity_level row; updated_at := now;
|}.

(** A string that is there and not empty. *)
Definition present (s : option string) : bool := match s with Some s => negb (bool_decide (s = ""%string)) | None => false end.

Definition otherCustomer (row : AccountRow) (sub : StripeSubscription) : bool :=
  present (stripe_customer_id row) && negb (bool_decide (stripe_customer_id row = Some (customer sub))).

(** An ended subscription never replaces a live one. *)
Definition endedOther (row : AccountRow) (sub : StripeSubscription) (next : BillingPlan) : bool :=
  present (stripe_subscription_id row) && negb (bool_decide (stripe_subscription_id row = Some (subscriptionId sub)))
  && bool_decide (next = Free) && negb (bool_decide (plan row = Free)).

Definition planOf (config : BillingConfig) (sub : StripeSubscription) : BillingPlan :=
  if statusActive (status sub) then default Free (planForStripePrice config (itemPriceId sub)) else Free.

Definition addCredit (amount now : Z) (row : AccountRow) : AccountRow := {|
  plan := plan row; usage_mode := usage_mode row; subscription_status := subscription_status row; stripe_customer_id := stripe_customer_id row;
  stripe_subscription_id := stripe_subscription_id row; stripe_price_id := stripe_price_id row; current_period_end := current_period_end row;
  cancel_at_period_end := cancel_at_period_end row; payment_method_brand := payment_method_brand row;
  payment_method_last4 := payment_method_last4 row; monthly_anchor_at := monthly_anchor_at row; usage := usage row;
  total_used := total_used row; total_requests := total_requests row; credit_balance := credit_balance row + amount;
  credit_purchased := credit_purchased row + amount; credit_consumed := credit_consumed row; is_anonymous := is_anonymous row;
  identity_level := identity_level row; updated_at := now;
|}.

Definition setCustomer (id : string) (now : Z) (row : AccountRow) : AccountRow := {|
  plan := plan row; usage_mode := usage_mode row; subscription_status := subscription_status row; stripe_customer_id := Some id;
  stripe_subscription_id := stripe_subscription_id row; stripe_price_id := stripe_price_id row; current_period_end := current_period_end row;
  cancel_at_period_end := cancel_at_period_end row; payment_method_brand := payment_method_brand row;
  payment_method_last4 := payment_method_last4 row; monthly_anchor_at := monthly_anchor_at row; usage := usage row;
  total_used := total_used row; total_requests := total_requests row; credit_balance := credit_balance row;
  credit_purchased := credit_purchased row; credit_consumed := credit_consumed row; is_anonymous := is_anonymous row;
  identity_level := identity_level row; updated_at := now;
|}.

Definition forgetCustomer (now : Z) (row : AccountRow) : AccountRow := {|
  plan := Free; usage_mode := usage_mode row; subscription_status := "none"; stripe_customer_id := None;
  stripe_subscription_id := None; stripe_price_id := None; current_period_end := 0; cancel_at_period_end := false;
  payment_method_brand := None; payment_method_last4 := None; monthly_anchor_at := monthly_anchor_at row;
  usage := if bool_decide (plan row = Free) then usage row else resetWindows now (monthly_anchor_at row);
  total_used := total_used row; total_requests := total_requests row; credit_balance := credit_balance row;
  credit_purchased := credit_purchased row; credit_consumed := credit_consumed row; is_anonymous := is_anonymous row;
  identity_level := identity_level row; updated_at := now;
|}.

Section Stripe.
Context (configured : string + BillingConfig).

Definition syncSubscription (sub : StripeSubscription) (now : Z) : Op () :=
  let* row := ensureAccount now in
  if otherCustomer row sub then ret () else
  let* config := configOr configured in
  let nextPlan := planOf config sub in
  if endedOther row sub nextPlan then ret () else
  let start := default (default 0 (periodStart sub)) (itemPeriodStart sub) * 1000 in
  let anchor := if bool_decide (nextPlan = Free) then monthly_anchor_at row else orElse start now in
  updateAccount (setSubscription nextPlan sub anchor now).

(** ** Events *)

(** The cents a checkout of credit buys: the amount the owner chose, not the tax on top. *)
Definition centsOf (o : StripeObject) : Z :=
  if isSafeInteger (amountCents o) && (0 <? num_floor (amountCents o)) then num_floor (amountCents o)
  else Z.max 0 (num_floor (amountSubtotal o)).

Definition isCreditPurchase (o : StripeObject) : bool :=
  bool_decide (mode o = Some "payment"%string) && bool_decide (purpose o = Some "usage_credit"%string).

Definition buyCredit (o : StripeObject) (now : Z) : Op () := λ l,
  if negb (bool_decide (paymentStatus o = Some "paid"%string)) then (l, inr ())
  else match creditPurchases l !! objectId o with
  | Some _ => (l, inr ())
  | None =>
      let amount := centsOf o * 1000000 in
      (modify (λ l, withCreditPurchases (<[objectId o := (amount, now)]> (creditPurchases l)) l);;;
       let* _ := ensureAccount now in updateAccount (addCredit amount now)) l
  end.

Definition customerDeleted (id : string) (now : Z) : Op () :=
  let* row := ensureAccount now in
  if bool_decide (stripe_customer_id row = Some id) then updateAccount (forgetCustomer now) else ret ().

(** The end of [applyStripeEvent]: the event is marked as applied, old marks are deleted. *)
Definition markEvent (id : string) (now : Z) : Op () := λ l,
  match stripeEvents l !! id with
  | Some _ => (l, inl UniqueFailure)
  | None => (withStripeEvents (filter (λ kv, now - RECEIPT_RETENTION_MS ≤ kv.2) (<[id := now]> (stripeEvents l))) l, inr ())
  end.

(** What a type of event asks for. *)
Inductive Work := FetchSubscription (id : string) | Immediate (work : Op ()) | Nothing.

Definition fetchIf (id : option string) : Work := match id with Some id => FetchSubscription id | None => Nothing end.

Definition workOf (event : StripeEvent) (now : Z) : Work :=
  let o := object event in
  let type := eventType event in
  if bool_decide (type ∈ ["checkout.session.completed"; "checkout.session.async_payment_succeeded"]%string) then
    if isCreditPurchase o then Immediate (buyCredit o now) else fetchIf (subscriptionIdOf o)
  else if bool_decide (type ∈ ["customer.subscription.created"; "customer.subscription.updated"; "customer.subscription.deleted";
                               "customer.subscription.paused"; "customer.subscription.resumed"]%string) then
    FetchSubscription (objectId o)
  else if bool_decide (type ∈ ["invoice.paid"; "invoice.payment_succeeded"; "invoice.payment_failed"]%string) then
    fetchIf (subscriptionIdOf o)
  else if bool_decide (type = "customer.deleted"%string) then Immediate (customerDeleted (objectId o) now)
  else Nothing.

(** [applyStripeEvent] up to its await: the subscription it waits for, if it does. *)
Definition beginStripeEvent (event : StripeEvent) (now : Z) : Op (option string) := λ l,
  match stripeEvents l !! eventId event with
  | Some _ => (l, inr None)
  | None =>
      match workOf event now with
      | FetchSubscription id => (l, inr (Some id))
      | Immediate work => (work;;; markEvent (eventId event) now;;; ret None) l
      | Nothing => (markEvent (eventId event) now;;; ret None) l
      end
  end.

(** Its rest, with the subscription as Stripe reported it; [None] if the request failed. *)
Definition endStripeEvent (event : StripeEvent) (fetched : option StripeSubscription) (now : Z) : Op () :=
  match fetched with
  | None => throw StripeFailure
  | Some sub => syncSubscription sub now;;; markEvent (eventId event) now
  end.

(** ** The customer of a checkout *)

(** [ensureCustomer] up to its request: the customer that is there. *)
Definition beginCustomer (now : Z) : Op (option string) :=
  let* row := ensureAccount now in
  ret (if present (stripe_customer_id row) then stripe_customer_id row else None).

Definition endCustomer (created : option string) (now : Z) : Op string :=
  match created with
  | None => throw StripeFailure
  | Some id => updateAccount (setCustomer id now);;; ret id
  end.
End Stripe.

(** ** The object of an owner *)

Inductive Call :=
  | RecordIdentity (anonymous : bool) (level : option Z)
  | SessionGrant (jti : string) (expiresAt : Z)
  | ReserveUsage (id : string) (budgetMicroCents : number) (expiresAt : Z)
  | SettleReservation (id : string) (costMicroCents : number)
  | ReleaseReservation (id : string)
  | GatewayUsage (events : list GatewayUsageEvent)
  | Usage_ (records : list (string * number))
  | AdminPlan (newPlan : option BillingPlan) (newMode : option UsageMode) (resetUsage : option bool)
  | BeginEvent (event : StripeEvent)
  | EndEvent (event : StripeEvent) (fetched : option StripeSubscription) (began : Z)
  | BeginCustomer
  | EndCustomer (created : option string) (began : Z).

(** The ledger after a call at [now], whether it returned or threw.  The rest of a handler keeps the
    time it began with. *)
Definition step (configured : string + BillingConfig) (ownerId : string) (call : Call) (now : Z) (l : Ledger) : Ledger :=
  match call with
  | RecordIdentity anonymous level => (recordBillingIdentity anonymous level now l).1
  | SessionGrant jti expiresAt => (reserveSessionGrant configured jti expiresAt now l).1
  | ReserveUsage id wanted expiresAt => (reserveUsage configured id wanted expiresAt now l).1
  | SettleReservation id cost => (settleReservation id cost l).1
  | ReleaseReservation id => (releaseReservation id l).1
  | GatewayUsage events => (applyGatewayUsage configured ownerId events now l).1
  | Usage_ records => (recordUsage configured records now l).1
  | AdminPlan newPlan newMode reset => (setAdminPlan newPlan newMode reset now l).1
  | BeginEvent event => (beginStripeEvent event now l).1
  | EndEvent event fetched began => (endStripeEvent configured event fetched began l).1
  | BeginCustomer => (beginCustomer now l).1
  | EndCustomer created began => (endCustomer created began l).1
  end.

(** A history: calls with their times and the configuration each of them met. *)
Fixpoint run (ownerId : string) (calls : list (Call * Z * (string + BillingConfig))) (l : Ledger) : Ledger :=
  match calls with
  | [] => l
  | (call, now, configured) :: calls => run ownerId calls (step configured ownerId call now l)
  end.
