(* ===== verification/BillingWindows.v ===== *)
(** * The windows of billing

    The calendar windows tile time, and what a window counts is the spend inside it. *)

From Corelib Require Import ssreflect.
From stdpp Require Import prelude gmap strings sorting.
From S2P Require Import Prelude JsNumber Calendar BillingPlans Billing.

#[local] Open Scope Z_scope.

(** ** Weeks *)

(** The Monday a day's week begins with. *)
Definition monday (d : Z) : Z := d - (d + 3) mod 7.

Lemma weekBounds_monday now :
  weekBounds now = {| windowStart := monday (day now) * MS_PER_DAY; windowEnd := (monday (day now) + 7) * MS_PER_DAY |}.
Proof.
  assert (Hday : day (setUTCDate (getUTCDate now - (getUTCDay now + 6) mod 7) now) = monday (day now)).
  { rw setUTCDate_day. unfold monday, getUTCDay. divs. }
  unfold weekBounds, setUTCHours. rw Hday. unfold makeTime, MS_PER_DAY. f_equal; lia.
Qed.

Lemma weekBounds_spec now : windowStart (weekBounds now) ≤ now < windowEnd (weekBounds now).
Proof. rw weekBounds_monday. simpl. unfold monday, day, MS_PER_DAY. divs. Qed.

(** Two instants are in the same week, or the later one is in a later week. *)
Lemma weekBounds_mono t t' : t ≤ t' → windowStart (weekBounds t) ≤ windowStart (weekBounds t').
Proof. intros Ht. rw !weekBounds_monday. simpl. unfold monday, day, MS_PER_DAY. divs. Qed.

Lemma weekBounds_same t t' : windowStart (weekBounds t) ≤ t' < windowEnd (weekBounds t) → weekBounds t' = weekBounds t.
Proof.
  rw !weekBounds_monday. simpl. intros Ht. assert (monday (day t') = monday (day t)) as ->; [|done].
  unfold monday, day, MS_PER_DAY in *. divs.
Qed.

(** ** Months *)

(** The days of month [k], and the billing instant in it. *)
Definition monthLength (k : Z) : Z := monthDay (k + 1) - monthDay k.
Definition instant (anchor k : Z) : Z :=
  (monthDay k + Z.min (getUTCDate anchor) (monthLength k) - 1) * MS_PER_DAY + timeWithinDay anchor.

Lemma UTC_monthDay year month date hours minutes seconds ms :
  100 ≤ year →
  UTC year month date hours minutes seconds ms
  = (monthDay (year * 12 + month) + date - 1) * MS_PER_DAY + makeTime hours minutes seconds ms.
Proof.
  intros Hy. unfold UTC, fullYear. destruct (Z.leb_spec year 99); [lia|]. rw andb_false_r. by rw makeDay_monthDay.
Qed.

Lemma day_of d time : 0 ≤ time < MS_PER_DAY → day (d * MS_PER_DAY + time) = d.
Proof. unfold day, MS_PER_DAY. intros ?. divs. Qed.

Lemma billingInstant_instant anchor year month :
  100 ≤ year → billingInstant anchor year month = instant anchor (year * 12 + month).
Proof.
  intros Hy. unfold billingInstant. rw !UTC_monthDay // makeTime_fields. unfold instant.
  replace (getUTCDate (_ + _)) with (monthLength (year * 12 + month)); [done|].
  set (k := year * 12 + month). replace (year * 12 + (month + 1)) with (k + 1) by lia.
  set (t := (monthDay (k + 1) + 0 - 1) * MS_PER_DAY + makeTime 0 0 0 0).
  assert (Ht : day t = monthDay (k + 1) - 1). { unfold t. rw day_of; unfold makeTime, MS_PER_DAY; lia. }
  pose proof (monthDay_next k). pose proof (getUTCDate_day t) as Hdate.
  rw (monthOf_unique t k) in Hdate; [lia|]. unfold monthLength. lia.
Qed.

Lemma instant_in_month anchor k : monthDay k * MS_PER_DAY ≤ instant anchor k < monthDay (k + 1) * MS_PER_DAY.
Proof.
  unfold instant, monthLength. pose proof (getUTCDate_bound anchor). pose proof (time_split anchor) as [_ ?]. pose proof (monthDay_next k).
  unfold MS_PER_DAY in *. lia.
Qed.

Lemma instant_mono anchor k k' : k < k' → instant anchor k < instant anchor k'.
Proof.
  intros Hk. pose proof (instant_in_month anchor k). pose proof (instant_in_month anchor k').
  apply monthDay_mono in Hk. unfold MS_PER_DAY in *. lia.
Qed.

Lemma instant_le anchor k k' : k ≤ k' → instant anchor k ≤ instant anchor k'.
Proof. intros Hk. destruct (Z.eq_dec k k') as [->|?]; [done|]. pose proof (instant_mono anchor k k'). lia. Qed.

(** The window of an instant. *)
Definition monthIndex (anchor t : Z) : Z := if t <? instant anchor (monthOf t) then monthOf t - 1 else monthOf t.

Lemma monthOf_time t : monthDay (monthOf t) * MS_PER_DAY ≤ t < monthDay (monthOf t + 1) * MS_PER_DAY.
Proof. pose proof (monthOf_spec t). pose proof (time_split t). unfold MS_PER_DAY in *. lia. Qed.

Lemma monthIndex_spec anchor t : instant anchor (monthIndex anchor t) ≤ t < instant anchor (monthIndex anchor t + 1).
Proof.
  unfold monthIndex. pose proof (monthOf_time t). destruct (Z.ltb_spec t (instant anchor (monthOf t))).
  - pose proof (instant_in_month anchor (monthOf t - 1)). replace (monthOf t - 1 + 1) with (monthOf t) in * by lia. lia.
  - pose proof (instant_in_month anchor (monthOf t + 1)). lia.
Qed.

Lemma monthIndex_unique anchor t k : instant anchor k ≤ t < instant anchor (k + 1) → monthIndex anchor t = k.
Proof.
  intros Ht. pose proof (monthIndex_spec anchor t). destruct (Z.lt_trichotomy (monthIndex anchor t) k) as [?|[?|?]]; [|done|].
  - pose proof (instant_le anchor (monthIndex anchor t + 1) k). lia.
  - pose proof (instant_le anchor (k + 1) (monthIndex anchor t)). lia.
Qed.

Lemma monthIndex_mono anchor t t' : t ≤ t' → monthIndex anchor t ≤ monthIndex anchor t'.
Proof.
  intros Ht. pose proof (monthIndex_spec anchor t). pose proof (monthIndex_spec anchor t').
  destruct (Z.le_gt_cases (monthIndex anchor t) (monthIndex anchor t')) as [|Hlt]; [done|].
  pose proof (instant_le anchor (monthIndex anchor t' + 1) (monthIndex anchor t)). lia.
Qed.

Lemma getUTCFullYear_epoch t : 0 ≤ t → 1970 ≤ getUTCFullYear t.
Proof.
  intros Ht. unfold getUTCFullYear. pose proof (yearFromDay_spec (day t)).
  destruct (Z.le_gt_cases 1970 (yearFromDay (day t))) as [|Hlt]; [done|].
  assert (0 ≤ day t) by (unfold day, MS_PER_DAY; divs). pose proof (dayFromYear_step (yearFromDay (day t)) 1970 Hlt).
  assert (dayFromYear 1970 = 0) by reflexivity.
  destruct (Z.eq_dec (yearFromDay (day t) + 1) 1970) as [Heq|?]; [rw Heq in H; lia|].
  pose proof (dayFromYear_step (yearFromDay (day t) + 1) 1970). lia.
Qed.

Lemma shift_month year month delta :
  let '(y, m) := shift year month delta in y * 12 + m = year * 12 + month + delta ∧ y = (year * 12 + month + delta) / 12.
Proof. unfold shift. divs. Qed.

Lemma monthBounds_index now anchor :
  0 ≤ now →
  monthBounds now anchor
  = {| windowStart := instant anchor (monthIndex anchor now); windowEnd := instant anchor (monthIndex anchor now + 1) |}.
Proof.
  intros Hnow. pose proof (getUTCFullYear_epoch now Hnow) as Hy. pose proof (getUTCMonth_bound now) as Hm.
  unfold monthBounds. rw billingInstant_instant; [lia|]. fold (monthOf now).
  assert (Hk : monthOf now = getUTCFullYear now * 12 + getUTCMonth now) by done.
  unfold monthIndex. destruct (now <? instant anchor (monthOf now)).
  - pose proof (shift_month (getUTCFullYear now) (getUTCMonth now) (-1)) as Hs.
    destruct (shift (getUTCFullYear now) (getUTCMonth now) (-1)) as [y m]. destruct Hs as [Hs Hsy].
    pose proof (shift_month y m 1) as Hs'. destruct (shift y m 1) as [y' m']. destruct Hs' as [Hs' Hsy'].
    rw !billingInstant_instant; [divs|divs|]. rw Hs Hs' Hs -Hk. f_equal; f_equal; lia.
  - pose proof (shift_month (getUTCFullYear now) (getUTCMonth now) 1) as Hs.
    destruct (shift (getUTCFullYear now) (getUTCMonth now) 1) as [y m]. destruct Hs as [Hs Hsy].
    rw !billingInstant_instant; [divs|divs|]. by rw Hs -Hk.
Qed.

Lemma instant_month anchor k : monthOf (instant anchor k) = k ∧ getUTCDate (instant anchor k) = Z.min (getUTCDate anchor) (monthLength k).
Proof.
  pose proof (time_split anchor) as [_ Htime]. pose proof (getUTCDate_bound anchor). pose proof (monthDay_next k).
  assert (Hday : day (instant anchor k) = monthDay k + Z.min (getUTCDate anchor) (monthLength k) - 1) by by apply day_of.
  assert (Hk : monthOf (instant anchor k) = k). { apply monthOf_unique. rw Hday. unfold monthLength. lia. }
  split; [done|]. pose proof (getUTCDate_day (instant anchor k)) as Hdate. rw Hk in Hdate. lia.
Qed.

Lemma timeWithinDay_add d time : 0 ≤ time < MS_PER_DAY → timeWithinDay (d * MS_PER_DAY + time) = time.
Proof. unfold timeWithinDay, MS_PER_DAY. intros ?. divs. Qed.

(** C34: the calendar windows of billing tile time: every instant lies in its week, which begins on a
    Monday at midnight, and in its billing month, which begins at the time of day of the anchor, on
    its date or on the last day of a month that is shorter, and ends in the month after; every
    instant of a window has the same window, and the next window begins where it ends. *)
Theorem billing_windows_tile_time now anchor t :
  0 ≤ now →
  let w := weekBounds now in
  let m := monthBounds now anchor in
  (windowStart w ≤ now < windowEnd w ∧ getUTCDay (windowStart w) = 1 ∧ timeWithinDay (windowStart w) = 0
   ∧ (windowStart w ≤ t < windowEnd w → weekBounds t = w) ∧ windowStart (weekBounds (windowEnd w)) = windowEnd w)
  ∧ (windowStart m ≤ now < windowEnd m ∧ timeWithinDay (windowStart m) = timeWithinDay anchor
     ∧ getUTCDate (windowStart m) = Z.min (getUTCDate anchor) (monthLength (monthOf (windowStart m)))
     ∧ monthOf (windowEnd m) = monthOf (windowStart m) + 1
     ∧ (0 ≤ t → windowStart m ≤ t < windowEnd m → monthBounds t anchor = m)
     ∧ windowStart (monthBounds (windowEnd m) anchor) = windowEnd m).
Proof.
  intros Hnow w m. pose proof (weekBounds_spec now) as Hw. fold w in Hw. split.
  - split; [done|]. subst w. split_and!.
    + rw weekBounds_monday /=. unfold getUTCDay, monday, day, MS_PER_DAY. divs.
    + rw weekBounds_monday /=. unfold timeWithinDay. by rw Z_mod_mult.
    + apply weekBounds_same.
    + rw !weekBounds_monday /=. unfold monday, day, MS_PER_DAY. divs.
  - pose proof (monthIndex_spec anchor now) as Hk. subst m. rw monthBounds_index //=. set (k := monthIndex anchor now) in *. clearbody k.
    rw !(proj1 (instant_month _ _)) (proj2 (instant_month _ _)). split_and!; try done; try lia.
    + apply timeWithinDay_add, time_split.
    + intros Ht Hin. rw monthBounds_index //. by rw (monthIndex_unique anchor t k Hin).
    + rw monthBounds_index /=; [lia|]. rw (monthIndex_unique anchor (instant anchor (k + 1)) (k + 1)); [|done].
      pose proof (instant_mono anchor (k + 1) (k + 1 + 1)). lia.
Qed.

Lemma billing_windows_tile_time_witness :
  windowStart (monthBounds 1772366400000 1769817600000) = 1772236800000.
Proof.
  destruct (billing_windows_tile_time 1772366400000 1769817600000 1772300000000) as [_ (_ & _ & _ & _ & Hsame & _)]; [lia|].
  rw -Hsame; [lia|vm_compute; split; congruence|]. vm_compute. reflexivity.
Defined.

(** ** What a window counts *)

(** The costs of the charges at the instants that satisfy [p]. *)
Definition spent (p : Z → bool) (charges : list (number * Z)) : Z :=
  foldr (λ charge acc, (if p charge.2 then costOf charge.1 else 0) + acc) 0 charges.

Lemma spent_app p l l' : spent p (l ++ l') = spent p l + spent p l'.
Proof. induction l as [|x l IH]; simpl; [done|]. rw IH. lia. Qed.

Lemma spent_ext p q l : (∀ x, x ∈ l → p x.2 = q x.2) → spent p l = spent q l.
Proof.
  induction l as [|x l IH]; intros Heq; simpl; [done|]. rw (Heq x); [by left|]. rw IH //. intros y Hy. apply Heq. by right.
Qed.

Lemma spent_none p l : (∀ x, x ∈ l → p x.2 = false) → spent p l = 0.
Proof. induction l as [|x l IH]; intros Hp; simpl; [done|]. rw (Hp x); [by left|]. rw IH //. intros y Hy. apply Hp. by right. Qed.

Definition sameWeek (now t : Z) : bool := windowStart (weekBounds t) =? windowStart (weekBounds now).
Definition sameMonth (anchor now t : Z) : bool := windowStart (monthBounds t anchor) =? windowStart (monthBounds now anchor).

Lemma monthBounds_mono anchor t t' : 0 ≤ t → t ≤ t' → windowStart (monthBounds t anchor) ≤ windowStart (monthBounds t' anchor).
Proof. intros Ht Ht'. rw !monthBounds_index /=; [lia|lia|]. by apply instant_le, monthIndex_mono. Qed.

(** The fields of a usage, without unfolding the calendar. *)
Ltac usage_fields := cbn [andb rolling_used rolling_started_at weekly_used weekly_started_at monthly_used monthly_started_at].

Section Counts.
Context (rollingMs anchor : Z) (Hrolling : 0 < rollingMs) (Hanchor : 0 < anchor).

(** The usage at [at_] after the charges of a log. *)
Record counts (log : list (number * Z)) (at_ : Z) (u : Usage) : Prop := {
  counts_time : 0 < at_;
  counts_log : ∀ x, x ∈ log → 0 ≤ x.2 ≤ at_;
  counts_rolling_start : 0 < rolling_started_at u ≤ at_ ∧ at_ - rollingMs ≤ rolling_started_at u;
  counts_rolling : rolling_used u = spent (λ t, rolling_started_at u <=? t) log;
  counts_weekly_start : weekly_started_at u = windowStart (weekBounds at_);
  counts_weekly : weekly_used u = spent (sameWeek at_) log;
  counts_monthly_start : monthly_started_at u = windowStart (monthBounds at_ anchor);
  counts_monthly : monthly_used u = spent (sameMonth anchor at_) log;
}.

Lemma counts_reset at_ : 0 < at_ → counts [] at_ (resetWindows at_ anchor).
Proof using Hrolling. intros Hat. split; unfold resetWindows; usage_fields; try done; try lia. by intros x ?%not_elem_of_nil. Qed.

(** Time passes: a window that is over counts nothing. *)
Lemma counts_normalize log at_ now u : at_ ≤ now → counts log at_ u → counts log now (normalizeUsage rollingMs anchor now u).
Proof using Hrolling Hanchor.
  intros Hnow [Hat Hlog [Hrs Hrs'] Hr Hws Hw Hms Hm]. unfold normalizeUsage. destruct (Z.ltb_spec 0 anchor) as [_|]; [|lia].
  destruct (Z.ltb_spec 0 (rolling_started_at u)) as [_|]; [|lia].
  assert (Hweek := weekBounds_mono at_ now Hnow). assert (Hmonth := monthBounds_mono anchor at_ now ltac:(lia) Hnow).
  split; usage_fields; try done; try lia.
  - intros x Hx. specialize (Hlog x Hx). lia.
  - destruct (Z.leb_spec (now - rollingMs) (rolling_started_at u)); lia.
  - destruct (Z.leb_spec (now - rollingMs) (rolling_started_at u)); [done|]. symmetry. apply spent_none.
    intros x Hx. specialize (Hlog x Hx). apply Z.leb_gt. lia.
  - destruct (Z.leb_spec (windowStart (weekBounds now)) (weekly_started_at u)); lia.
  - destruct (Z.leb_spec (windowStart (weekBounds now)) (weekly_started_at u)) as [Hsame|Hlater].
    + rw Hw. apply spent_ext. intros x _. unfold sameWeek. f_equal. lia.
    + symmetry. apply spent_none. intros x Hx. specialize (Hlog x Hx). apply Z.eqb_neq. pose proof (weekBounds_mono x.2 at_). lia.
  - destruct (Z.leb_spec (windowStart (monthBounds now anchor)) (monthly_started_at u)); lia.
  - destruct (Z.leb_spec (windowStart (monthBounds now anchor)) (monthly_started_at u)) as [Hsame|Hlater].
    + rw Hm. apply spent_ext. intros x _. unfold sameMonth. f_equal. lia.
    + symmetry. apply spent_none. intros x Hx. specialize (Hlog x Hx). apply Z.eqb_neq. pose proof (monthBounds_mono anchor x.2 at_). lia.
Qed.

Lemma counts_add log at_ cost u : counts log at_ u → counts (log ++ [(cost, at_)]) at_ (addUsage (costOf cost) u).
Proof using.
  intros [Hat Hlog [Hrs Hrs'] Hr Hws Hw Hms Hm]. split; unfold addUsage; usage_fields; rw ?spent_app /=; try done.
  - intros x [Hx| ->%list_elem_of_singleton]%elem_of_app; [by apply Hlog|simpl; lia].
  - destruct (Z.leb_spec (rolling_started_at u) at_); lia.
  - unfold sameWeek at 2. rw Z.eqb_refl. lia.
  - unfold sameMonth at 2. rw Z.eqb_refl. lia.
Qed.
End Counts.

(** Charges one after the other, under one configuration. *)
Fixpoint chargeAll (config : BillingConfig) (charges : list (number * Z)) : Op () :=
  match charges with
  | [] => ret ()
  | (cost, at_) :: charges => charge (inr config) cost at_;;; chargeAll config charges
  end.

Lemma charge_effect config cost now row l :
  account l = Some row →
  charge (inr config) cost now l
  = (withAccount (setCharged (addUsage (costOf cost) (normalized (usageSnapshot config row now))) (costOf cost)
                   (creditFor config row (costOf cost) now) now row) l, inr ()).
Proof. intros Hrow. unfold charge, bind, ensureAccount. rw Hrow. unfold configOr, updateAccount, modify. by rw Hrow. Qed.

Lemma setCharged_plan config u cost fromCredit now row :
  planConfigOf config (setCharged u cost fromCredit now row) = planConfigOf config row.
Proof. reflexivity. Qed.

Lemma rollingMsOf_pos planConfig : 0 < rollingMsOf planConfig.
Proof. unfold rollingMsOf. lia. Qed.

(** The times of the charges do not go back, and end by [now]. *)
Definition chronological (t0 : Z) (charges : list (number * Z)) (now : Z) : Prop :=
  Sorted Z.le (t0 :: (charges.*2) ++ [now]).

Lemma chargeAll_counts config charges log t0 row l :
  account l = Some row → 0 < monthly_anchor_at row →
  counts (rollingMsOf (planConfigOf config row)) (monthly_anchor_at row) log t0 (usage row) →
  (∀ now, chronological t0 charges now →
    ∃ row', account (chargeAll config charges l).1 = Some row' ∧ (chargeAll config charges l).2 = inr ()
      ∧ planConfigOf config row' = planConfigOf config row ∧ monthly_anchor_at row' = monthly_anchor_at row
      ∧ total_used row' = total_used row + spent (λ _, true) charges
      ∧ counts (rollingMsOf (planConfigOf config row)) (monthly_anchor_at row) (log ++ charges) now
          (normalized (usageSnapshot config row' now))).
Proof.
  revert log t0 row l. induction charges as [|[cost at_] charges IH]; intros log t0 row l Hrow Hanchor Hcounts now Hchron.
  - exists row. split_and!; try done; [simpl; lia|]. rw app_nil_r. unfold chronological in Hchron. simpl in Hchron.
    inversion_clear Hchron as [|? ? _ Hhd]. inversion_clear Hhd.
    by apply (counts_normalize _ _ (rollingMsOf_pos _) Hanchor log t0).
  - unfold chronological in Hchron. simpl in Hchron. inversion_clear Hchron as [|? ? Hrest Hhd]. inversion_clear Hhd.
    set (row1 := setCharged (addUsage (costOf cost) (normalized (usageSnapshot config row at_))) (costOf cost)
                   (creditFor config row (costOf cost) at_) at_ row).
    assert (Hcounts1 : counts (rollingMsOf (planConfigOf config row1)) (monthly_anchor_at row1) (log ++ [(cost, at_)]) at_ (usage row1)).
    { apply counts_add. by apply (counts_normalize _ _ (rollingMsOf_pos _) Hanchor log t0). }
    destruct (IH (log ++ [(cost, at_)]) at_ row1 (withAccount row1 l) eq_refl Hanchor Hcounts1 now Hrest)
      as (row' & Haccount & Hreturn & Hplan & Ha & Htotal & Hfinal).
    exists row'. simpl. unfold bind. rw (charge_effect config cost at_ row l Hrow). fold row1.
    split_and!; try done; [|by rw -app_assoc in Hfinal].
    rw Htotal. simpl. lia.
Qed.

(** What a snapshot shows of a window is its normalised usage. *)
Lemma snapshot_usage config row now :
  let s := usageSnapshot config row now in
  used (weekly s) = weekly_used (normalized s) ∧ used (monthly s) = monthly_used (normalized s)
  ∧ used (rolling s) = rolling_used (normalized s)
  ∧ resetAt (rolling s) = rolling_started_at (normalized s) + rollingMsOf (planConfigOf config row).
Proof. by intros s. Qed.

(** C33: a window counts exactly the spend inside it: after any charges in chronological order since the
    windows were last reset, under one plan, the weekly and the monthly usage are the costs of the
    charges of this week and of this billing month, the rolling usage those since its window opened,
    which is at most its length ago, and the lifetime usage has grown by all of them. *)
Theorem windows_count_the_spend_inside_them config charges t0 now row l :
  account l = Some row → 0 < t0 → 0 < monthly_anchor_at row → usage row = resetWindows t0 (monthly_anchor_at row) →
  chronological t0 charges now →
  ∃ row', account (chargeAll config charges l).1 = Some row' ∧
    let s := usageSnapshot config row' now in
    used (weekly s) = spent (λ t, windowStart (weekBounds t) =? windowStart (weekBounds now)) charges
    ∧ used (monthly s) = spent (λ t, windowStart (monthBounds t (monthly_anchor_at row)) =? windowStart (monthBounds now (monthly_anchor_at row))) charges
    ∧ used (rolling s) = spent (λ t, resetAt (rolling s) - rollingMsOf (planConfigOf config row) <=? t) charges
    ∧ now ≤ resetAt (rolling s) ≤ now + rollingMsOf (planConfigOf config row)
    ∧ total_used row' = total_used row + spent (λ _, true) charges.
Proof.
  intros Hrow Ht0 Hanchor Husage Hchron.
  assert (Hcounts : counts (rollingMsOf (planConfigOf config row)) (monthly_anchor_at row) [] t0 (usage row)).
  { rw Husage. by apply counts_reset; [apply rollingMsOf_pos|]. }
  destruct (chargeAll_counts config charges [] t0 row l Hrow Hanchor Hcounts now Hchron) as (row' & Hrow' & _ & Hplan & Ha & Htotal & Hfinal).
  exists row'. split; [done|]. destruct Hfinal as [_ _ [Hrs Hrs'] Hr _ Hw _ Hm]. rw app_nil_l in Hr, Hw, Hm.
  pose proof (snapshot_usage config row' now) as (Hsw & Hsm & Hsr & Hreset). rw Hplan in Hreset.
  intros s. fold s in Hsw, Hsm, Hsr, Hreset, Hr, Hrs, Hrs', Hw, Hm. clearbody s. split_and!; [by rw Hsw Hw|by rw Hsm Hm| |lia|lia|done].
  rw Hsr Hr Hreset. apply spent_ext. intros x _. f_equal. lia.
Qed.

(** Three charges: one in the week before, two in this one, the last in a new rolling window. *)
Definition sampleCharges : list (number * Z) :=
  [(num_of_Z 7, 1772366400000); (num_of_Z 20, 1772452800000); (num_of_Z 5, 1772539200000)].

Lemma windows_count_the_spend_inside_them_witness :
  ∃ row', account (chargeAll OPEN_BILLING_CONFIG sampleCharges (withAccount (defaultAccount 1772323200000) emptyLedger)).1 = Some row'
    ∧ used (weekly (usageSnapshot OPEN_BILLING_CONFIG row' 1772542800000)) = 25.
Proof.
  destruct (windows_count_the_spend_inside_them OPEN_BILLING_CONFIG sampleCharges 1772323200000 1772542800000 (defaultAccount 1772323200000)
    (withAccount (defaultAccount 1772323200000) emptyLedger)) as (row' & Hrow & Hweek & _).
  - reflexivity.
  - lia.
  - simpl. lia.
  - reflexivity.
  - repeat constructor; simpl; lia.
  - exists row'. split; [exact Hrow|]. rw Hweek. vm_compute. reflexivity.
Defined.
