(* ===== verification/BillingCredit.v ===== *)
(** * Purchased credit, receipts and access

    What holds of the billing ledger whatever is called, and what an owner may do with what is left. *)

From Corelib Require Import ssreflect.
From stdpp Require Import prelude gmap strings.
From S2P Require Import Prelude JsNumber GatewayPolicy Calendar BillingPlans Billing BillingStripe.
From S2P Require Ledger.

#[local] Open Scope Z_scope.

(** ** Credit *)

(** Purchased credit is what the purchases add up to, and what is not there any more was consumed. *)
Definition creditOk (l : Billing.Ledger) : Prop :=
  match account l with
  | None => creditPurchases l = ∅
  | Some row =>
      0 ≤ credit_balance row ∧ credit_balance row + credit_consumed row = credit_purchased row
      ∧ credit_purchased row = sum_by fst (creditPurchases l)
  end.

(** A computation keeps it, whether it returns or throws. *)
Definition keepsCredit {A} (c : Op A) : Prop := ∀ l, creditOk l → creditOk (c l).1.

Lemma keepsCredit_bind {A B} (c : Op A) (k : A → Op B) : keepsCredit c → (∀ a, keepsCredit (k a)) → keepsCredit (bind c k).
Proof. intros Hc Hk l Hl. unfold bind. specialize (Hc l Hl). destruct (c l) as [l' [e|a]]; [done|]. by apply Hk. Qed.

Lemma keepsCredit_ret {A} (a : A) : keepsCredit (ret a).
Proof. by intros l Hl. Qed.
Lemma keepsCredit_gets {A} (f : Billing.Ledger → A) : keepsCredit (gets f).
Proof. by intros l Hl. Qed.
Lemma keepsCredit_throw {A} e : keepsCredit (A:=A) (throw e).
Proof. by intros l Hl. Qed.

(** Changes of the tables beside the account and the purchases. *)
Lemma keepsCredit_modify f :
  (∀ l, account (f l) = account l ∧ creditPurchases (f l) = creditPurchases l) → keepsCredit (modify f).
Proof. intros Hf l. unfold creditOk, modify. simpl. by destruct (Hf l) as [-> ->]. Qed.

Lemma keepsCredit_if {A} (b : bool) (c c' : Op A) : keepsCredit c → keepsCredit c' → keepsCredit (if b then c else c').
Proof. by destruct b. Qed.

Lemma keepsCredit_ensureAccount now : keepsCredit (ensureAccount now).
Proof. intros l. unfold creditOk, ensureAccount. destruct (account l) as [row|] eqn:Hrow; simpl; [by rw Hrow|]. by intros ->. Qed.

(** Updates of the account that leave its credit alone. *)
Lemma keepsCredit_update f :
  (∀ row, credit_balance (f row) = credit_balance row ∧ credit_consumed (f row) = credit_consumed row
          ∧ credit_purchased (f row) = credit_purchased row) →
  keepsCredit (updateAccount f).
Proof.
  intros Hf l. unfold creditOk, updateAccount, modify. simpl. destruct (account l) as [row|] eqn:Hrow; simpl; [|by rw Hrow].
  by destruct (Hf row) as (-> & -> & ->).
Qed.

Lemma keepsCredit_configOr configured : keepsCredit (configOr configured).
Proof. intros l. unfold configOr. by destruct configured. Qed.

Ltac keeps_credit :=
  repeat first
    [ solve [auto 1 with stella] | apply keepsCredit_ret | apply keepsCredit_gets | apply keepsCredit_throw | apply keepsCredit_ensureAccount
    | apply keepsCredit_configOr | apply keepsCredit_if
    | apply keepsCredit_update; intros ?; split_and!; reflexivity | apply keepsCredit_modify; intros ?; split_and!; reflexivity
    | apply keepsCredit_bind; [|intros ?]
    | match goal with |- keepsCredit (match ?d with _ => _ end) => destruct d end ].

Lemma creditFor_bound config row cost now : 0 ≤ credit_balance row → 0 ≤ creditFor config row cost now ≤ credit_balance row.
Proof. intros Hb. unfold creditFor. case_bool_decide; lia. Qed.

Lemma keepsCredit_charge configured cost now : keepsCredit (charge configured cost now).
Proof.
  intros l Hl. unfold charge, bind. pose proof (keepsCredit_ensureAccount now l Hl) as Hl'.
  destruct (ensureAccount now l) as [l' [e|row]] eqn:He; [done|]. cbn [fst] in Hl'.
  assert (Hrow : account l' = Some row). { unfold ensureAccount in He. by destruct (account l) eqn:?; simplify_eq/=. }
  unfold configOr. destruct configured as [e|config]; [done|]. unfold creditOk, updateAccount, modify in *. rw Hrow in Hl' |- *.
  cbn. destruct Hl' as (Hb & Hsum & Hp). pose proof (creditFor_bound config row (costOf cost) now Hb). lia.
Qed.
#[local] Hint Resolve keepsCredit_charge : stella.

Lemma keepsCredit_claimReceipt id amount now : keepsCredit (claimReceipt id amount now).
Proof. intros l. unfold claimReceipt. by destruct (receipts l !! id). Qed.
#[local] Hint Resolve keepsCredit_claimReceipt : stella.

Lemma keepsCredit_settle jti amount : keepsCredit (settle jti amount).
Proof. keeps_credit. Qed.
#[local] Hint Resolve keepsCredit_settle : stella.

Lemma keepsCredit_events configured ownerId events now r : keepsCredit (applyEvents configured ownerId events now r).
Proof.
  revert r. induction events as [|event events IH]; intros r; simpl; [apply keepsCredit_ret|].
  apply keepsCredit_bind; [|intros verdict; apply IH]. unfold applyEvent.
  keeps_credit.
Qed.
#[local] Hint Resolve keepsCredit_events : stella.

Lemma keepsCredit_records configured records now n : keepsCredit (recordEach configured records now n).
Proof.
  revert n. induction records as [|[id cost] records IH]; intros n; simpl; [apply keepsCredit_ret|].
  apply keepsCredit_bind; [apply keepsCredit_claimReceipt|intros claimed]. destruct claimed; [|apply IH].
  apply keepsCredit_bind; [apply keepsCredit_charge|intros _; apply IH].
Qed.
#[local] Hint Resolve keepsCredit_records : stella.

Lemma keepsCredit_insertGrant jti g : keepsCredit (insertGrant jti g).
Proof. intros l. unfold insertGrant. by destruct (grants l !! jti). Qed.
#[local] Hint Resolve keepsCredit_insertGrant : stella.

Lemma keepsCredit_markEvent id now : keepsCredit (markEvent id now).
Proof. intros l. unfold markEvent. by destruct (stripeEvents l !! id). Qed.
#[local] Hint Resolve keepsCredit_markEvent : stella.

Lemma centsOf_nonneg o : 0 ≤ centsOf o.
Proof. unfold centsOf. cases; lia. Qed.

Lemma keepsCredit_buyCredit o now : keepsCredit (buyCredit o now).
Proof.
  intros [acc g r e p] Hl. unfold buyCredit. case_bool_decide; [|done]. cbn [negb creditPurchases].
  destruct (p !! objectId o) as [bought|] eqn:Hnew; [done|]. pose proof (centsOf_nonneg o).
  unfold creditOk in *. cbn in Hl. destruct acc as [row|]; cbn -[centsOf sum_by]; rw sum_by_insert //.
  - simpl. lia.
  - rw Hl sum_by_empty. simpl. lia.
Qed.
#[local] Hint Resolve keepsCredit_buyCredit : stella.

Lemma keepsCredit_step configured ownerId call now l : creditOk l → creditOk (step configured ownerId call now l).
Proof.
  destruct call; simpl; revert l.
  - unfold recordBillingIdentity. change (keepsCredit (recordBillingIdentity anonymous level now)). unfold recordBillingIdentity. keeps_credit.
  - change (keepsCredit (reserveSessionGrant configured jti expiresAt now)). unfold reserveSessionGrant, pruneGrants, billingAccess.
    keeps_credit.
  - change (keepsCredit (reserveUsage configured id budgetMicroCents expiresAt now)). unfold reserveUsage, pruneGrants, billingAccess. keeps_credit.
  - apply keepsCredit_settle.
  - change (keepsCredit (releaseReservation id)). unfold releaseReservation. keeps_credit.
  - change (keepsCredit (applyGatewayUsage configured ownerId events now)). unfold applyGatewayUsage, pruneReceipts.
    keeps_credit.
  - change (keepsCredit (recordUsage configured records now)). unfold recordUsage, pruneReceipts. keeps_credit.
  - change (keepsCredit (setAdminPlan newPlan newMode resetUsage now)). unfold setAdminPlan. keeps_credit.
  - intros l Hl. unfold beginStripeEvent. destruct (stripeEvents l !! eventId event); [done|].
    destruct (workOf event now) as [id|work|] eqn:Hwork; [done| |].
    + revert l Hl. change (keepsCredit (work;;; markEvent (eventId event) now;;; ret (None : option string))).
      apply keepsCredit_bind; [|intros _; keeps_credit]. unfold workOf, fetchIf in Hwork. repeat case_match; simplify_eq.
      * apply keepsCredit_buyCredit.
      * unfold customerDeleted. keeps_credit.
    + revert l Hl. change (keepsCredit (markEvent (eventId event) now;;; ret (None : option string))). keeps_credit.
  - change (keepsCredit (endStripeEvent configured event fetched began)). unfold endStripeEvent, syncSubscription.
    keeps_credit.
  - change (keepsCredit (beginCustomer now)). unfold beginCustomer. keeps_credit.
  - change (keepsCredit (endCustomer created began)). unfold endCustomer. keeps_credit.
Qed.

(** C6: purchased credit is neither made nor lost: after any history of calls, whatever their
    configuration, with events of Stripe delivered twice, out of order or interleaved at their
    awaits, and calls that throw half way, the balance is not negative, and the balance and what was
    consumed are what was purchased: the amounts of the checkout sessions, each counted once. *)
Theorem credit_is_conserved ownerId calls :
  let l := run ownerId calls emptyLedger in
  match account l with
  | None => creditPurchases l = ∅
  | Some row => 0 ≤ credit_balance row ∧ credit_balance row + credit_consumed row = credit_purchased row
                ∧ credit_purchased row = sum_by fst (creditPurchases l)
  end.
Proof.
  cut (∀ l, creditOk l → creditOk (run ownerId calls l)); [intros H; by apply (H emptyLedger)|].
  induction calls as [|[[call now] configured] calls IH]; intros l Hl; [done|]. simpl. apply IH. by apply keepsCredit_step.
Qed.

(** ** Access *)

Lemma blocks_spec credit w : 0 ≤ credit → blocks credit w = true ↔ room w ≤ 0 ∧ credit = 0.
Proof. intros Hc. unfold blocks. rw Z.leb_le. lia. Qed.

Lemma includedHeadroom_pos s :
  0 < includedHeadroom s ↔ 0 < room (rolling s) ∧ 0 < room (weekly s) ∧ 0 < room (monthly s)
    ∧ match lifetime s with Some w => 0 < room w | None => True end.
Proof. unfold includedHeadroom. destruct (lifetime s); lia. Qed.

(** A window blocks exactly when neither the windows nor purchased credit leave anything. *)
Lemma blockingWindow_none credit s : 0 ≤ credit → blockingWindow credit s = None ↔ 0 < includedHeadroom s + credit.
Proof.
  intros Hc. assert (Hnone : ∀ w, blocks credit w = false ↔ 0 < room w ∨ 0 < credit).
  { intros w. rw -not_true_iff_false blocks_spec //. lia. }
  assert (Hnonneg : 0 ≤ includedHeadroom s) by (unfold includedHeadroom; lia).
  assert (Hsplit : 0 < includedHeadroom s + credit ↔ 0 < includedHeadroom s ∨ 0 < credit) by lia.
  rw Hsplit includedHeadroom_pos. unfold blockingWindow. simpl.
  pose proof (Hnone (rolling s)). pose proof (Hnone (weekly s)). pose proof (Hnone (monthly s)).
  destruct (lifetime s) as [w|]; [pose proof (Hnone w)|]; repeat case_match; simpl in *; intuition (try congruence).
Qed.

(** C32: access follows what is left: an owner without limits may go on; any other owner may go on as it is
    exactly while the windows of its plan and its credit leave something, and with nothing left a free
    owner is refused, a paying owner goes on with the models of the fallback, and both are told to wait
    at least a second. *)
Theorem access_follows_what_is_left config row now :
  let access := accessFor config row now in
  match remainingMicroCents access with
  | None =>
      (usage_mode row = UnlimitedUsage ∨ enabled config = false) ∧ allowed access = true ∧ downgraded access = false
  | Some rest =>
      rest = includedHeadroom (usageSnapshot config row now) + Z.max 0 (credit_balance row)
      ∧ allowed access = (0 <? rest) || negb (bool_decide (plan row = Free))
      ∧ downgraded access = (rest =? 0) && negb (bool_decide (plan row = Free))
      ∧ (if 0 <? rest then retryAfterMs access = 0 else 1000 ≤ retryAfterMs access)
  end.
Proof.
  unfold accessFor. set (s := usageSnapshot config row now). clearbody s.
  set (credit := Z.max 0 (credit_balance row)). assert (Hcredit : 0 ≤ credit) by lia. clearbody credit.
  destruct (enabled config) eqn:Henabled; rw ?orb_true_r ?orb_false_r.
  2: { simpl. by split_and!; [right| |]. }
  case_bool_decide as Hmode; [simpl; by split_and!; [left| |]|].
  pose proof (blockingWindow_none credit s Hcredit) as Hblock.
  assert (0 ≤ includedHeadroom s) by (unfold includedHeadroom; lia).
  destruct (blockingWindow credit s) as [[w forLife]|].
  - assert (Hzero : includedHeadroom s + credit = 0). { destruct (Z.le_gt_cases (includedHeadroom s + credit) 0) as [|H0]; [lia|]. by apply Hblock in H0. }
    case_bool_decide; cbn -[includedHeadroom]; rw Hzero; cbn; split_and!; try done; lia.
  - assert (Hpos : 0 < includedHeadroom s + credit) by by apply Hblock. cbn -[includedHeadroom].
    rw (proj2 (Z.ltb_lt _ _) Hpos). split_and!; try done. by rw (proj2 (Z.eqb_neq _ _) (Z.neq_sym _ _ (Z.lt_neq _ _ Hpos))).
Qed.

(** A downgraded owner has nothing left. *)
Lemma downgraded_remaining config row now :
  downgraded (accessFor config row now) = true → remainingMicroCents (accessFor config row now) = Some 0.
Proof.
  unfold accessFor. set (s := usageSnapshot config row now). clearbody s. cbv zeta.
  set (credit := Z.max 0 (credit_balance row)). assert (Hcredit : 0 ≤ credit) by lia. clearbody credit.
  pose proof (blockingWindow_none credit s Hcredit) as Hblock. assert (0 ≤ includedHeadroom s) by (unfold includedHeadroom; lia).
  destruct (_ || _); [done|]. destruct (blockingWindow credit s) as [[w forLife]|]; [|done].
  case_bool_decide; [done|]. intros _. cbn -[includedHeadroom]. f_equal.
  destruct (Z.le_gt_cases (includedHeadroom s + credit) 0) as [|Hpos]; [lia|]. by apply Hblock in Hpos.
Qed.

(** What "goes on" comes to: the capability of a downgraded owner has no budget, so the ledger of the
    model gateway refuses its first call that costs anything. *)
Lemma a_downgraded_owner_cannot_call config row now held args at_ :
  downgraded (accessFor config row now) = true → 0 ≤ held →
  Ledger.budgetMicroCents args = num_of_Z (capabilityBudget (accessFor config row now) held) →
  Ledger.maxRequests args = None → 0 < clampMicroCents (Ledger.estimatedMicroCents args) →
  (Ledger.reserve at_ args Ledger.initSchema).2 = Ledger.BudgetExhausted 0.
Proof.
  intros Hdown Hheld Hbudget Hmax Hcost.
  assert (Hzero : capabilityBudget (accessFor config row now) held = 0).
  { unfold capabilityBudget. rw downgraded_remaining //. destruct (limitsAudienceFor _); simpl; lia. }
  rw Hzero in Hbudget. unfold Ledger.reserve. simpl. rw lookup_empty. unfold Ledger.admitReservation, Ledger.requestLimitReached. simpl.
  rw Hmax. simpl. unfold Ledger.unlimited. simpl. rw Hbudget. simpl.
  by replace (0 <? _) with true by (symmetry; apply Z.ltb_lt; lia).
Qed.

(** ** Receipts *)

(** The events of a delivery an owner accepts: its own, the first with a request id that is not known. *)
Fixpoint firstDeliveries (ownerId : string) (known : string → bool) (events : list GatewayUsageEvent) : list GatewayUsageEvent :=
  match events with
  | [] => []
  | event :: events =>
      if bool_decide (eventOwnerId event = ownerId) && negb (known (requestId event))
      then event :: firstDeliveries ownerId (λ id, bool_decide (id = requestId event) || known id) events
      else firstDeliveries ownerId known events
  end.

(** What an event costs the owner. *)
Definition billed (event : GatewayUsageEvent) : Z :=
  match billable event, outcome event with true, OutcomeOther => costOf (chargedMicroCents event) | _, _ => 0 end.
Definition billedAll (events : list GatewayUsageEvent) : Z := foldr (λ event acc, billed event + acc) 0 events.

Lemma billedAll_app events events' : billedAll (events ++ events') = billedAll events + billedAll events'.
Proof. induction events as [|event events IH]; simpl; [done|]. rw IH. lia. Qed.

Definition totalUsed (l : Billing.Ledger) : Z := match account l with Some row => total_used row | None => 0 end.
Definition hasReceipt (l : Billing.Ledger) (id : string) : bool := bool_decide (is_Some (receipts l !! gatewayReceipt id)).

(** No receipt is older than [t0]. *)
Definition receiptsSince (t0 : Z) (l : Billing.Ledger) : Prop := ∀ id receipt, receipts l !! id = Some receipt → t0 ≤ receiptCreatedAt receipt.

#[export] Instance gatewayReceipt_inj : Inj (=) (=) gatewayReceipt.
Proof. intros x y H. unfold gatewayReceipt in H. by simplify_eq/=. Qed.

Lemma bool_decide_cons (x id : string) ids : bool_decide (id ∈ x :: ids) = bool_decide (id = x) || bool_decide (id ∈ ids).
Proof. rw (bool_decide_ext _ _ (elem_of_cons ids id x)). apply bool_decide_or. Qed.

Lemma firstDeliveries_ext ownerId known known' events :
  (∀ id, known id = known' id) → firstDeliveries ownerId known events = firstDeliveries ownerId known' events.
Proof.
  revert known known'. induction events as [|event events IH]; intros known known' Hk; simpl; [done|]. rw Hk.
  case_match; [f_equal|]; apply IH; [intros id; by rw Hk|done].
Qed.

Lemma firstDeliveries_app ownerId known events events' :
  firstDeliveries ownerId known (events ++ events')
  = firstDeliveries ownerId known events
    ++ firstDeliveries ownerId (λ id, bool_decide (id ∈ requestId <$> firstDeliveries ownerId known events) || known id) events'.
Proof.
  revert known. induction events as [|event events IH]; intros known; simpl; [done|].
  case_match; simpl; [f_equal|]; rw IH //. f_equal. apply firstDeliveries_ext. intros id.
  change (requestId event :: list_fmap _ _ requestId ?F) with (requestId event :: (requestId <$> F)).
  rw bool_decide_cons orb_assoc. f_equal. apply orb_comm.
Qed.

Lemma firstDeliveries_known ownerId known events event : event ∈ firstDeliveries ownerId known events → known (requestId event) = false.
Proof.
  revert known. induction events as [|event' events IH]; intros known; simpl; [by intros ?%not_elem_of_nil|].
  destruct (_ && _) eqn:Hown; [|apply IH]. intros [->|Hin]%elem_of_cons.
  - by apply andb_true_iff in Hown as [_ ?%negb_true_iff].
  - by apply IH, orb_false_iff in Hin as [_ ?].
Qed.

Lemma firstDeliveries_NoDup ownerId known events : NoDup (requestId <$> firstDeliveries ownerId known events).
Proof.
  revert known. induction events as [|event events IH]; intros known; simpl; [constructor|].
  destruct (_ && _); [|apply IH]. simpl. constructor; [|apply IH].
  intros (event' & Heq & Hin)%list_elem_of_fmap. apply firstDeliveries_known, orb_false_iff in Hin as [Hin _].
  by apply bool_decide_eq_false in Hin.
Qed.

Section Once.
Context (config : BillingConfig) (ownerId : string).

(** What a computation adds to the lifetime usage, and the receipts it leaves. *)
Lemma charge_totalUsed cost now l :
  (charge (inr config) cost now l).2 = inr ()
  ∧ totalUsed (charge (inr config) cost now l).1 = totalUsed l + costOf cost
  ∧ receipts (charge (inr config) cost now l).1 = receipts l.
Proof. destruct l as [[row|] g r e p]; unfold charge, bind, ensureAccount, totalUsed; cbn -[costOf]; by split_and!. Qed.

Lemma applyEvent_once event now l :
  let first := bool_decide (eventOwnerId event = ownerId) && negb (hasReceipt l (requestId event)) in
  let run := applyEvent (inr config) ownerId event now l in
  (∃ verdict, run.2 = inr verdict ∧ (verdict = AcceptedEvent ↔ first = true))
  ∧ totalUsed run.1 = totalUsed l + (if first then billed event else 0)
  ∧ receipts run.1 = if first then <[gatewayReceipt (requestId event) := {| charged := costOf (chargedMicroCents event); receiptCreatedAt := now |}]> (receipts l)
                     else receipts l.
Proof.
  unfold applyEvent. case_bool_decide as Hown; simpl; [|split_and!; [by exists RejectedEvent|lia|done]].
  unfold bind, claimReceipt, hasReceipt. destruct (receipts l !! _) as [receipt|] eqn:Hreceipt; cbn -[costOf billed charge settle].
  { split_and!; [by exists DuplicateEvent|lia|done]. }
  unfold settle, modify, billed. destruct (billable event), (outcome event); cbn -[costOf charge];
    try (split_and!; [by exists AcceptedEvent|unfold totalUsed; cbn; lia|done]).
  match goal with |- context [charge _ _ _ ?l0] => destruct (charge_totalUsed (chargedMicroCents event) now l0) as (Hret & Htotal & Hrec) end.
  destruct (charge _ _ _ _) as [l' result]. simpl in Hret, Htotal, Hrec. subst result. cbn. split_and!; [by exists AcceptedEvent|by rw Htotal|done].
Qed.

Lemma applyEvents_once events now l result :
  let first := firstDeliveries ownerId (hasReceipt l) events in
  let run := applyEvents (inr config) ownerId events now result l in
  (∃ result', run.2 = inr result' ∧ accepted result' = accepted result ++ (requestId <$> first))
  ∧ totalUsed run.1 = totalUsed l + billedAll first
  ∧ (∀ id, hasReceipt run.1 id = bool_decide (id ∈ requestId <$> first) || hasReceipt l id)
  ∧ (∀ t0, t0 ≤ now → receiptsSince t0 l → receiptsSince t0 run.1).
Proof.
  revert l result. induction events as [|event events IH]; intros l result.
  { simpl. split_and!; [|lia|done|done]. exists result. by rw app_nil_r. }
  simpl. unfold bind. pose proof (applyEvent_once event now l) as Hone. simpl in Hone.
  destruct (applyEvent (inr config) ownerId event now l) as [l1 r1]. simpl in Hone. destruct Hone as ((verdict & -> & Hverdict) & Htotal & Hrec).
  specialize (IH l1 (file (requestId event) verdict result)). simpl in IH.
  assert (Hknown : ∀ id, hasReceipt l1 id
    = (bool_decide (eventOwnerId event = ownerId) && negb (hasReceipt l (requestId event)) && bool_decide (id = requestId event)) || hasReceipt l id).
  { intros id. unfold hasReceipt at 1. rw Hrec. destruct (_ && _); [|done]. simpl.
    destruct (decide (id = requestId event)) as [->|Hne].
    - by rw lookup_insert_eq !bool_decide_true.
    - rw lookup_insert_ne; [by intros ?%(inj gatewayReceipt)|]. by rw (bool_decide_false (id = _)). }
  assert (Hsince : ∀ t0, t0 ≤ now → receiptsSince t0 l → receiptsSince t0 l1).
  { intros t0 Ht0 Hl id receipt. rw Hrec. destruct (_ && _); [|apply Hl]. intros [[<- <-]|[_ ?]]%lookup_insert_Some; [done|by eapply Hl]. }
  destruct (applyEvents _ _ _ _ _ _) as [l2 r2]. simpl in IH |- *. destruct IH as ((result' & -> & Hacc) & Htotal' & Hrec' & Hsince').
  destruct (bool_decide (eventOwnerId event = ownerId) && negb (hasReceipt l (requestId event))) eqn:Hfirst; simpl in *.
  - rw (firstDeliveries_ext ownerId _ (λ id, bool_decide (id = requestId event) || hasReceipt l id)) // in Hacc, Htotal', Hrec'.
    assert (verdict = AcceptedEvent) as -> by by apply Hverdict.
    split_and!; [|simpl; lia| |eauto].
    + exists result'. split; [done|]. by rw Hacc /= -app_assoc.
    + intros id. rw Hrec' Hknown bool_decide_cons !orb_assoc. f_equal. apply orb_comm.
  - rw (firstDeliveries_ext ownerId _ (hasReceipt l)) // in Hacc, Htotal', Hrec'. split_and!; [|lia| |eauto].
    + exists result'. split; [done|]. rw Hacc. destruct verdict; [by assert (false = true) by by apply Hverdict|done|done].
    + intros id. by rw Hrec' Hknown.
Qed.

(** Batches one after the other: the ledger, and the requests that were accepted. *)
Fixpoint settleBatches (batches : list (list GatewayUsageEvent * Z)) (l : Billing.Ledger) : Billing.Ledger * list string :=
  match batches with
  | [] => (l, [])
  | (events, now) :: batches =>
      let '(l', result) := applyGatewayUsage (inr config) ownerId events now l in
      let '(l'', ids) := settleBatches batches l' in
      (l'', match result with inr result => accepted result ++ ids | inl _ => ids end)
  end.
End Once.

Lemma pruneReceipts_since now t0 l :
  now ≤ t0 + RECEIPT_RETENTION_MS → receiptsSince t0 l → (pruneReceipts now l).1 = l.
Proof.
  intros Hnow Hsince. unfold pruneReceipts, modify. simpl. rw map_filter_id; [|by destruct l].
  intros id receipt Hr%Hsince. simpl. lia.
Qed.

(** C5: usage is settled exactly once: however the events of the gateway are cut into batches, repeated
    and reordered, within the retention of receipts and under a complete configuration, every batch
    returns, each request is accepted once, when it is first delivered and only by its owner, and the
    lifetime usage grows by the cost of those first deliveries. *)
Theorem usage_is_settled_exactly_once config ownerId batches t0 l :
  receiptsSince t0 l → Forall (λ batch, t0 ≤ batch.2 ≤ t0 + RECEIPT_RETENTION_MS) batches →
  let first := firstDeliveries ownerId (hasReceipt l) (concat (batches.*1)) in
  let '(l', ids) := settleBatches config ownerId batches l in
  ids = requestId <$> first ∧ NoDup ids ∧ totalUsed l' = totalUsed l + billedAll first.
Proof.
  intros Hsince Hbatches first. pose proof (firstDeliveries_NoDup ownerId (hasReceipt l) (concat batches.*1)) as Hnodup. fold first in Hnodup.
  cut (let '(l', ids) := settleBatches config ownerId batches l in ids = requestId <$> first ∧ totalUsed l' = totalUsed l + billedAll first).
  { destruct (settleBatches _ _ _ _) as [l' ids]. intros [-> ->]. by split_and!. }
  clear Hnodup. subst first. revert l Hsince. induction Hbatches as [|[events now] batches [Hlow Hhigh] Hbatches IH]; intros l Hsince; [simpl; split; [done|lia]|].
  simpl in Hlow, Hhigh |- *. unfold applyGatewayUsage, bind. pose proof (pruneReceipts_since now t0 l Hhigh Hsince) as Hprune.
  unfold pruneReceipts, modify in *. simpl in Hprune. rw Hprune. simpl.
  pose proof (applyEvents_once config ownerId events now l {| accepted := []; duplicate := []; rejected := [] |}) as Hone. simpl in Hone.
  destruct (applyEvents _ _ _ _ _ _) as [l1 r1]. simpl in Hone. destruct Hone as ((result & -> & Hacc) & Htotal & Hrec & Hkeep).
  specialize (IH l1 (Hkeep t0 Hlow Hsince)). destruct (settleBatches _ _ _ _) as [l2 ids]. destruct IH as [-> ->].
  rw firstDeliveries_app (firstDeliveries_ext ownerId _ _ _ Hrec) fmap_app Hacc. split; [done|].
  by rw Htotal billedAll_app Z.add_assoc.
Qed.

(** A batch with an event of another owner, and a delivery that repeats one request and brings a new one. *)
Definition sampleEvent (request owner : string) (cost : Z) : GatewayUsageEvent :=
  {| requestId := request; capabilityId := "cap"; eventOwnerId := owner; chargedMicroCents := num_of_Z cost;
     outcome := OutcomeOther; billable := true |}.
Definition sampleBatches : list (list GatewayUsageEvent * Z) :=
  [([sampleEvent "r1" "ada" 30; sampleEvent "r2" "bob" 9], 1772366400000);
   ([sampleEvent "r3" "ada" 12; sampleEvent "r1" "ada" 30], 1772366460000)].

Lemma usage_is_settled_exactly_once_witness :
  let '(l', ids) := settleBatches OPEN_BILLING_CONFIG "ada" sampleBatches emptyLedger in
  ids = ["r1"; "r3"]%string ∧ NoDup ids ∧ totalUsed l' = 42.
Proof.
  pose proof (usage_is_settled_exactly_once OPEN_BILLING_CONFIG "ada" sampleBatches 1772366400000 emptyLedger) as H.
  cbv zeta in H. destruct (settleBatches OPEN_BILLING_CONFIG "ada" sampleBatches emptyLedger) as [l' ids].
  destruct H as (Hids & Hnodup & Htotal).
  - intros id receipt Hr. discriminate Hr.
  - repeat constructor; simpl; unfold RECEIPT_RETENTION_MS; lia.
  - split_and!; [rw Hids; vm_compute; reflexivity|exact Hnodup|rw Htotal; vm_compute; reflexivity].
Defined.
