(* ===== verification/BillingGrants.v ===== *)
(** * Grants and what is left of an allowance

    The budget handed out in grants never exceeds what the owner may still spend, but for spend that was
    charged beyond what its grants held. *)

From Corelib Require Import ssreflect.
From stdpp Require Import prelude gmap strings sorting.
From S2P Require Import Prelude JsNumber GatewayPolicy Calendar BillingPlans Billing BillingStripe BillingWindows BillingCredit.

#[local] Open Scope Z_scope.

(** ** Sums *)

Section Sums.
Context `{Countable K} {V : Type}.
Implicit Types (m : gmap K V) (f g : V → Z).

Lemma sum_by_le f g m : (∀ v, f v ≤ g v) → sum_by f m ≤ sum_by g m.
Proof. intros Hfg. induction m as [|k v m Hk IH] using map_ind; [by rw !sum_by_empty|]. rw !sum_by_insert //. specialize (Hfg v). lia. Qed.

Lemma sum_by_filter f (P : V → bool) m :
  (∀ v, P v = false → f v = 0) → sum_by f (filter (λ kv, P kv.2 = true) m) = sum_by f m.
Proof.
  intros Hf. induction m as [|k v m Hk IH] using map_ind; [done|]. rw (sum_by_insert f m) // map_filter_insert /=.
  destruct (P v) eqn:HP; case_decide; try done.
  - rw sum_by_insert ?IH //. apply map_lookup_filter_None. by left.
  - rw map_filter_delete delete_id; [|by rw IH Hf]. apply map_lookup_filter_None. by left.
Qed.

Lemma sum_by_delete_le f m k : (∀ v, 0 ≤ f v) → sum_by f (delete k m) ≤ sum_by f m.
Proof.
  intros Hf. destruct (m !! k) as [v|] eqn:Hk; [|by rw sum_by_delete_None]. rw (sum_by_delete f m k v Hk). specialize (Hf v). lia.
Qed.

Lemma sum_by_insert_le f m k v : (∀ v, 0 ≤ f v) → sum_by f (<[k := v]> m) ≤ sum_by f m + f v.
Proof.
  intros Hf. rw -insert_delete_eq sum_by_insert; [apply lookup_delete_eq|]. pose proof (sum_by_delete_le f m k Hf). lia.
Qed.
End Sums.

(** ** What grants hold *)

Definition heldBy (now : Z) (g : Grant) : Z := if live now g then unspent g else 0.

Lemma reservedGrants_held now l : reservedGrants now l = sum_by (heldBy now) (grants l).
Proof. reflexivity. Qed.

Lemma heldBy_nonneg now g : 0 ≤ heldBy now g.
Proof. unfold heldBy, unspent. cases; lia. Qed.
#[local] Hint Resolve heldBy_nonneg : stella.

Lemma reservedGrants_time now now' l : now ≤ now' → reservedGrants now' l ≤ reservedGrants now l.
Proof. intros Hnow. rw !reservedGrants_held. apply sum_by_le. intros g. unfold heldBy, live, unspent. repeat case_match; lia. Qed.

Lemma reservedGrants_prune now l : reservedGrants now (pruneGrants now l).1 = reservedGrants now l.
Proof. rw !reservedGrants_held. apply (sum_by_filter _ (live now)). intros g Hg. unfold heldBy. by rw Hg. Qed.

(** ** What is left of the allowance *)

Definition left_ (config : BillingConfig) (row : AccountRow) (now : Z) : Z :=
  includedHeadroom (usageSnapshot config row now) + Z.max 0 (credit_balance row).

(** The row of an account that was not made by hand. *)
Definition sound (row : AccountRow) : Prop :=
  0 < monthly_anchor_at row ∧ 0 ≤ rolling_used (usage row) ∧ 0 ≤ weekly_used (usage row) ∧ 0 ≤ monthly_used (usage row).

Section Left.
Context (config : BillingConfig).

(** The limits of the windows and of the lifetime, and the headroom under them. *)
Record Limits := { rollingLimit : Z; weeklyLimit : Z; monthlyLimit : Z; lifetimeLimit : option Z }.
Definition limitsFor (share : number) (p : BillingPlanConfig) : Limits := {|
  rollingLimit := limitOf share (rollingLimitUsd p); weeklyLimit := limitOf share (weeklyLimitUsd p);
  monthlyLimit := limitOf share (monthlyLimitUsd p); lifetimeLimit := limitOf share <$> lifetimeLimitUsd p |}.
Definition headroomOf (m : Limits) (u : Usage) (total : Z) : Z :=
  let windows := Z.min (Z.min (rollingLimit m - rolling_used u) (weeklyLimit m - weekly_used u)) (monthlyLimit m - monthly_used u) in
  Z.max 0 (match lifetimeLimit m with Some most => Z.min windows (most - total) | None => windows end).

Definition normal (row : AccountRow) (now : Z) : Usage :=
  normalizeUsage (rollingMsOf (planConfigOf config row)) (monthly_anchor_at row) now (usage row).

Lemma left_headroom row now :
  left_ config row now
  = headroomOf (limitsFor (shareOf config row) (planConfigOf config row)) (normal row now) (total_used row) + Z.max 0 (credit_balance row).
Proof.
  unfold left_, includedHeadroom, usageSnapshot, headroomOf, limitsFor, room, normal.
  cbn [limit used rolling weekly monthly lifetime rollingLimit weeklyLimit monthlyLimit lifetimeLimit].
  by destruct (lifetimeLimitUsd (planConfigOf config row)).
Qed.

(** Headroom falls at most as much as the usage grows. *)
Lemma headroom_used m u u' total total' c :
  0 ≤ c → rolling_used u' ≤ rolling_used u + c → weekly_used u' ≤ weekly_used u + c → monthly_used u' ≤ monthly_used u + c →
  total' ≤ total + c → headroomOf m u total - c ≤ headroomOf m u' total'.
Proof. unfold headroomOf. intros. destruct (lifetimeLimit m); lia. Qed.

Lemma headroom_nonneg m u total : 0 ≤ headroomOf m u total.
Proof. unfold headroomOf. lia. Qed.

Lemma normalize_time row rollingMs now now' :
  sound row → 0 ≤ now ≤ now' →
  let u := normalizeUsage rollingMs (monthly_anchor_at row) now (usage row) in
  let u' := normalizeUsage rollingMs (monthly_anchor_at row) now' (usage row) in
  rolling_used u' ≤ rolling_used u ∧ weekly_used u' ≤ weekly_used u ∧ monthly_used u' ≤ monthly_used u.
Proof.
  intros (Ha & Hr & Hw & Hm) Hnow. unfold normalizeUsage. destruct (Z.ltb_spec 0 (monthly_anchor_at row)) as [_|]; [|lia].
  pose proof (weekBounds_mono now now' ltac:(lia)). pose proof (monthBounds_mono (monthly_anchor_at row) now now' ltac:(lia) ltac:(lia)).
  destruct (weekBounds now), (weekBounds now'), (monthBounds now _), (monthBounds now' _). simpl in *.
  split_and!; repeat case_match; lia.
Qed.

Lemma left_time row now now' : sound row → 0 ≤ now ≤ now' → left_ config row now ≤ left_ config row now'.
Proof.
  intros Hrow Hnow. rw !left_headroom. destruct (normalize_time row (rollingMsOf (planConfigOf config row)) now now' Hrow Hnow) as (Hr & Hw & Hm).
  pose proof (headroom_used (limitsFor (shareOf config row) (planConfigOf config row)) (normal row now) (normal row now')
    (total_used row) (total_used row) 0). unfold normal in *. lia.
Qed.

Section Charge.
Context (row : AccountRow) (now c : Z) (Hrow : sound row) (Hc : 0 ≤ c).

Definition charged_ : AccountRow :=
  setCharged (addUsage c (normalized (usageSnapshot config row now))) c (creditFor config row c now) now row.

Lemma charge_sound : sound charged_.
Proof using Hrow Hc.
  destruct Hrow as (Ha & Hr & Hw & Hm). unfold sound, charged_, usageSnapshot, normalizeUsage. cbn -[weekBounds monthBounds].
  split_and!; [done|..]; case_match; lia.
Qed.

(** Once normalised, usage is not reset again at the same time. *)
Lemma normalize_again rollingMs anchor u :
  let u' := normalizeUsage rollingMs anchor now (addUsage c (normalizeUsage rollingMs anchor now u)) in
  0 ≤ rolling_used u → 0 ≤ weekly_used u → 0 ≤ monthly_used u →
  rolling_used u' ≤ rolling_used (normalizeUsage rollingMs anchor now u) + c
  ∧ weekly_used u' ≤ weekly_used (normalizeUsage rollingMs anchor now u) + c
  ∧ monthly_used u' ≤ monthly_used (normalizeUsage rollingMs anchor now u) + c.
Proof using Hc. unfold normalizeUsage, addUsage. cbn -[weekBounds monthBounds]. intros. split_and!; repeat case_match; lia. Qed.

Let headroom : Z := headroomOf (limitsFor (shareOf config row) (planConfigOf config row)) (normal row now) (total_used row).

Lemma creditFor_headroom :
  creditFor config row c now
  = if bool_decide (usage_mode row = UnlimitedUsage) then 0
    else Z.min (Z.max 0 (credit_balance row)) (Z.max 0 (c - headroom)).
Proof using.
  unfold creditFor. pose proof (left_headroom row now) as Hleft. unfold left_ in Hleft. fold headroom in Hleft.
  case_bool_decide; [done|]. do 3 f_equal. lia.
Qed.

(** The share of a free owner changes only when a charge takes the last of the credit. *)
Lemma charge_share : shareOf config charged_ = shareOf config row ∨ left_ config row now ≤ c.
Proof using.
  destruct (decide (isPaying charged_ = isPaying row)) as [Heq|Hne].
  - left. unfold shareOf, identityLevel. rw Heq. reflexivity.
  - right. rw left_headroom. fold headroom. assert (0 ≤ headroom) by apply headroom_nonneg. revert Hne. unfold isPaying.
    change (credit_balance charged_) with (credit_balance row - creditFor config row c now).
    change (plan charged_) with (plan row). change (subscription_status charged_) with (subscription_status row).
    rw creditFor_headroom. destruct (_ && _); [done|]. case_bool_decide; [by rw Z.sub_0_r|]. rw !orb_false_l.
    repeat case_match; intros Hne; try done; lia.
Qed.

Lemma charge_left : left_ config row now - c ≤ left_ config charged_ now.
Proof using Hrow Hc.
  assert (0 ≤ headroom) by apply headroom_nonneg. pose proof (headroom_nonneg (limitsFor (shareOf config charged_) (planConfigOf config charged_))
    (normal charged_ now) (total_used charged_)) as Hnonneg.
  destruct charge_share as [Hshare|Hover]; rw (left_headroom charged_); [|lia]. rw left_headroom. fold headroom.
  destruct Hrow as (Ha & Hr & Hw & Hm).
  destruct (normalize_again (rollingMsOf (planConfigOf config row)) (monthly_anchor_at row) (usage row) Hr Hw Hm) as (Hr' & Hw' & Hm').
  pose proof (headroom_used (limitsFor (shareOf config row) (planConfigOf config row)) (normal row now) (normal charged_ now)
    (total_used row) (total_used charged_) c Hc Hr' Hw' Hm' (Z.le_refl _)) as Hused. fold headroom in Hused.
  change (planConfigOf config charged_) with (planConfigOf config row) in *. rw Hshare in Hnonneg |- *.
  change (credit_balance charged_) with (credit_balance row - creditFor config row c now). rw creditFor_headroom.
  generalize dependent headroom. intros h. generalize dependent (headroomOf (limitsFor (shareOf config row) (planConfigOf config row)) (normal charged_ now) (total_used charged_)).
  intros h'. intros. case_bool_decide; lia.
Qed.
End Charge.
End Left.

(** ** Calls *)

(** The calls that hand out, spend and give back; the others change the plan or who the owner is. *)
Definition spends (call : Call) : Prop :=
  match call with
  | SessionGrant _ _ | ReserveUsage _ _ _ | SettleReservation _ _ | ReleaseReservation _ | GatewayUsage _ | Usage_ _ => True
  | _ => False
  end.

(** A grant is a promise, every other call is paid for by what it frees. *)
Definition grantsBudget (call : Call) : bool := match call with SessionGrant _ _ | ReserveUsage _ _ _ => true | _ => false end.

Section Calls.
Context (config : BillingConfig) (ownerId : string).

(** What a call charges beyond what the grants it settles or releases held. *)
Definition debtAfter (call : Call) (now : Z) (l : Billing.Ledger) (debt : Z) : Z :=
  let l' := step (inr config) ownerId call now l in
  if grantsBudget call then debt
  else Z.max 0 (debt + (totalUsed l' - totalUsed l) - (reservedGrants now l - reservedGrants now l')).

Fixpoint debtOf (calls : list (Call * Z)) (l : Billing.Ledger) (debt : Z) : Z :=
  match calls with
  | [] => debt
  | (call, now) :: calls => debtOf calls (step (inr config) ownerId call now l) (debtAfter call now l debt)
  end.

(** The account after a computation at [now] has lost at most what the computation charged. *)
Definition pays (now : Z) (l l' : Billing.Ledger) : Prop :=
  ∀ row, account l = Some row → sound row →
    ∃ row', account l' = Some row' ∧ sound row' ∧ total_used row ≤ total_used row'
      ∧ left_ config row now - (total_used row' - total_used row) ≤ left_ config row' now.
Definition paying {A} (now : Z) (c : Op A) : Prop := ∀ l, pays now l (c l).1.

Lemma pays_refl now l l' : account l' = account l → pays now l l'.
Proof. intros Heq row Hrow Hsound. exists row. rw Heq. split_and!; try done; lia. Qed.

Lemma pays_trans now l1 l2 l3 : pays now l1 l2 → pays now l2 l3 → pays now l1 l3.
Proof.
  intros H12 H23 row Hrow Hsound. destruct (H12 row Hrow Hsound) as (row2 & Hrow2 & Hsound2 & Htotal2 & Hleft2).
  destruct (H23 row2 Hrow2 Hsound2) as (row3 & Hrow3 & Hsound3 & Htotal3 & Hleft3). exists row3. split_and!; try done; lia.
Qed.

Lemma paying_bind {A B} now (c : Op A) (k : A → Op B) : paying now c → (∀ a, paying now (k a)) → paying now (bind c k).
Proof.
  intros Hc Hk l. unfold bind. specialize (Hc l). destruct (c l) as [l' [e|a]]; [done|]. by apply (pays_trans _ _ l'); [|apply Hk].
Qed.

Lemma paying_quiet {A} now (c : Op A) : (∀ l, account (c l).1 = account l) → paying now c.
Proof. intros Hc l. by apply pays_refl. Qed.

Lemma paying_charge cost now : paying now (charge (inr config) cost now).
Proof.
  intros l row Hrow Hsound. rw (charge_effect config cost now row l Hrow). assert (Hc : 0 ≤ costOf cost) by (unfold costOf; lia).
  exists (charged_ config row now (costOf cost)). split_and!; [done|by apply charge_sound|cbn -[costOf]; lia|].
  pose proof (charge_left config row now (costOf cost) Hsound Hc). cbn -[costOf left_] in *.
  replace (total_used row + costOf cost - total_used row) with (costOf cost) by lia. done.
Qed.

Lemma claimReceipt_account id amount now l : account (claimReceipt id amount now l).1 = account l.
Proof. unfold claimReceipt. by destruct (receipts l !! id). Qed.

Lemma paying_events events now r : paying now (applyEvents (inr config) ownerId events now r).
Proof.
  revert r. induction events as [|event events IH]; intros r; simpl; [by apply paying_quiet|].
  apply paying_bind; [|intros verdict; apply IH]. unfold applyEvent. destruct (negb _); [by apply paying_quiet|].
  apply paying_bind; [apply paying_quiet, claimReceipt_account|intros claimed]. destruct (negb claimed); [by apply paying_quiet|].
  apply paying_bind; [by apply paying_quiet|intros _]. apply paying_bind; [|intros _; by apply paying_quiet].
  destruct (billable event), (outcome event); by [apply paying_charge|apply paying_quiet].
Qed.

Lemma paying_records records now n : paying now (recordEach (inr config) records now n).
Proof.
  revert n. induction records as [|[id cost] records IH]; intros n; simpl; [by apply paying_quiet|].
  apply paying_bind; [apply paying_quiet, claimReceipt_account|intros claimed]. destruct claimed; [|apply IH].
  apply paying_bind; [apply paying_charge|intros _; apply IH].
Qed.

(** Handing out a grant leaves the account alone, and hands out no more than is left. *)
Lemma reserveSessionGrant_account jti expiresAt now l : account (reserveSessionGrant (inr config) jti expiresAt now l).1 = account l.
Proof.
  unfold reserveSessionGrant, bind, pruneGrants, modify, billingAccess, configOr, gets. cbn -[accessFor reservedGrants capabilityBudget].
  destruct (_ =? _); [done|]. unfold insertGrant. cbn [grants withGrants]. by destruct (_ !! jti).
Qed.

Lemma reserveUsage_account id wanted expiresAt now l : account (reserveUsage (inr config) id wanted expiresAt now l).1 = account l.
Proof.
  unfold reserveUsage, bind, pruneGrants, modify, billingAccess, configOr, gets. cbn -[accessFor reservedGrants num_ceiling].
  destruct (negb _); [done|]. destruct (remainingMicroCents _); [|done]. cbn -[accessFor reservedGrants num_ceiling]. by destruct (_ <? _).
Qed.

Lemma access_remaining row now rest : remainingMicroCents (accessFor config row now) = Some rest → rest = left_ config row now.
Proof.
  unfold accessFor. cbv zeta. destruct (_ || _); [by intros ?|]. destruct (blockingWindow _ _) as [[w forLife]|]; [case_bool_decide|];
    by intros [= <-].
Qed.

Lemma heldBy_new now budget expires : heldBy now {| budget := budget; settled := 0; expires_at := expires |} ≤ Z.max 0 budget.
Proof. unfold heldBy, unspent. simpl. case_match; lia. Qed.

Lemma sessionGrant_reserved jti expiresAt now l row debt :
  account l = Some row → 0 ≤ debt → reservedGrants now l ≤ left_ config row now + debt →
  reservedGrants now (reserveSessionGrant (inr config) jti expiresAt now l).1 ≤ left_ config row now + debt.
Proof.
  intros Hrow Hdebt Hheld. pose proof (reservedGrants_prune now l) as Hprune. unfold reserveSessionGrant, bind.
  unfold pruneGrants, modify in *. cbn -[reservedGrants] in Hprune. unfold billingAccess, bind, configOr, gets.
  cbn -[accessFor reservedGrants capabilityBudget]. set (l1 := withGrants _ l) in *. unfold readAccount.
  change (account l1) with (account l). rw Hrow. simpl default.
  set (g := capabilityBudget _ _). assert (Hg : g ≠ GATEWAY_BUDGET_UNLIMITED → 0 ≤ g ≤ Z.max 0 (left_ config row now - reservedGrants now l1)).
  { subst g. unfold capabilityBudget. destruct (remainingMicroCents _) as [rest|] eqn:Hrest; [|done]. apply access_remaining in Hrest as ->.
    intros _. destruct (limitsAudienceFor _); simpl; lia. }
  clearbody g. destruct (Z.eqb_spec g GATEWAY_BUDGET_UNLIMITED) as [|Hlimited]; cbn -[reservedGrants]; [lia|]. specialize (Hg Hlimited).
  unfold insertGrant. destruct (grants l1 !! jti); cbn -[reservedGrants]; [lia|]. rw reservedGrants_held. simpl.
  pose proof (sum_by_insert_le (heldBy now) (grants l1) jti {| budget := g; settled := 0; expires_at := expiresAt |} (heldBy_nonneg now)).
  pose proof (heldBy_new now g expiresAt). rw !reservedGrants_held in Hprune, Hg, Hheld. simpl in *. lia.
Qed.

Lemma reserveUsage_reserved id wanted expiresAt now l row debt :
  account l = Some row → reservedGrants now l ≤ left_ config row now + debt → 0 ≤ debt →
  reservedGrants now (reserveUsage (inr config) id wanted expiresAt now l).1 ≤ left_ config row now + debt.
Proof.
  intros Hrow Hheld Hdebt. pose proof (reservedGrants_prune now l) as Hprune. unfold reserveUsage, bind.
  unfold pruneGrants, modify in *. cbn -[reservedGrants] in Hprune. unfold billingAccess, bind, configOr, gets.
  cbn -[accessFor reservedGrants num_ceiling]. set (l1 := withGrants _ l) in *. unfold readAccount.
  change (account l1) with (account l). rw Hrow. simpl default. destruct (negb _); cbn -[reservedGrants]; [lia|].
  destruct (remainingMicroCents _) as [rest|] eqn:Hrest; cbn -[reservedGrants num_ceiling]; [|lia]. apply access_remaining in Hrest as ->.
  set (g := Z.max 0 (num_ceiling wanted)). assert (0 ≤ g) by lia. clearbody g.
  destruct (Z.ltb_spec (left_ config row now - reservedGrants now l1) g) as [|Hfits]; cbn -[reservedGrants]; [lia|]. rw reservedGrants_held. simpl.
  pose proof (sum_by_insert_le (heldBy now) (grants l1) id {| budget := g; settled := 0; expires_at := expiresAt |} (heldBy_nonneg now)).
  pose proof (heldBy_new now g expiresAt). rw !reservedGrants_held in Hprune, Hheld, Hfits. simpl in *. lia.
Qed.

(** The grants are covered at [now], but for [debt]. *)
Record covered (now debt : Z) (l : Billing.Ledger) (row : AccountRow) : Prop := {
  covered_row : account l = Some row;
  covered_sound : sound row;
  covered_debt : 0 ≤ debt;
  covered_held : reservedGrants now l ≤ left_ config row now + debt;
}.

Lemma covered_time now now' debt l row : 0 ≤ now ≤ now' → covered now debt l row → covered now' debt l row.
Proof.
  intros Hnow [Hrow Hsound Hdebt Hheld]. split; try done. pose proof (reservedGrants_time now now' l ltac:(lia)).
  pose proof (left_time config row now now' Hsound Hnow). lia.
Qed.

Lemma covered_pays now debt debt' l l' row :
  covered now debt l row → pays now l l' →
  debt' = Z.max 0 (debt + (totalUsed l' - totalUsed l) - (reservedGrants now l - reservedGrants now l')) →
  ∃ row', covered now debt' l' row'.
Proof.
  intros [Hrow Hsound Hdebt Hheld] Hpays ->. destruct (Hpays row Hrow Hsound) as (row' & Hrow' & Hsound' & Htotal & Hleft).
  exists row'. split; [done|done|lia|]. unfold totalUsed. rw Hrow Hrow'. lia.
Qed.

Lemma covered_step call now debt l row :
  spends call → covered now debt l row →
  ∃ row', covered now (debtAfter call now l debt) (step (inr config) ownerId call now l) row'.
Proof.
  intros Hcall Hcovered. pose proof Hcovered as [Hrow Hsound Hdebt Hheld].
  destruct call; try done; unfold debtAfter; cbn [grantsBudget];
    try (apply (covered_pays now debt _ _ _ _ Hcovered); [|reflexivity]); cbn [step].
  - exists row. split; [by rw reserveSessionGrant_account|done|done|by apply sessionGrant_reserved].
  - exists row. split; [by rw reserveUsage_account|done|done|by apply reserveUsage_reserved].
  - by apply pays_refl.
  - by apply pays_refl.
  - unfold applyGatewayUsage. apply paying_bind; [by apply paying_quiet|intros _; apply paying_events].
  - unfold recordUsage. apply paying_bind; [by apply paying_quiet|intros _].
    apply paying_bind; [apply paying_records|intros n; by apply paying_quiet].
Qed.
End Calls.

(** The times of the calls do not go back, from [t0] to [now]. *)
Definition inOrder (t0 : Z) (calls : list (Call * Z)) (now : Z) : Prop := Sorted Z.le (t0 :: (calls.*2) ++ [now]).

Lemma covered_run config ownerId calls now t0 debt l row :
  0 ≤ t0 → Forall (λ call, spends call.1) calls → inOrder t0 calls now → covered config t0 debt l row →
  ∃ row', covered config now (debtOf config ownerId calls l debt) (run ownerId ((λ call, (call, inr config)) <$> calls) l) row'.
Proof.
  unfold inOrder. revert t0 debt l row. induction calls as [|[call at_] calls IH]; intros t0 debt l row Ht0 Hcalls Horder Hcovered; simpl in *.
  - inversion_clear Horder as [|? ? _ Hhd]. inversion_clear Hhd. exists row. by apply (covered_time config t0).
  - inversion_clear Hcalls as [|? ? Hcall Hrest]. inversion_clear Horder as [|? ? Hsorted Hhd]. inversion_clear Hhd.
    destruct (covered_step config ownerId call at_ debt l row Hcall) as [row1 Hrow1]; [by apply (covered_time config t0)|].
    apply (IH at_ _ _ row1); try done. lia.
Qed.

(** C4: grants are covered: while an owner keeps its plan, whatever grants, reservations, releases and
    usage follow each other, in chronological order, redelivered or refused, the budget that live
    grants still hold is at most what the windows and the credit of the owner leave, and [debtOf], the
    spend that was charged beyond what its grants held; windows that reset, grants that expire and
    credit that runs out included. *)
Theorem grants_are_covered config ownerId calls now t0 l row :
  account l = Some row → sound row → 0 ≤ t0 → reservedGrants t0 l ≤ left_ config row t0 →
  Forall (λ call, spends call.1) calls → inOrder t0 calls now →
  let l' := run ownerId ((λ call, (call, inr config)) <$> calls) l in
  ∃ row', account l' = Some row' ∧
    reservedGrants now l' ≤ includedHeadroom (usageSnapshot config row' now) + Z.max 0 (credit_balance row') + debtOf config ownerId calls l 0.
Proof.
  intros Hrow Hsound Ht0 Hheld Hcalls Horder. destruct (covered_run config ownerId calls now t0 0 l row Ht0 Hcalls Horder) as [row' Hcovered].
  { split; try done. lia. }
  exists row'. destruct Hcovered as [Hrow' _ _ Hheld']. done.
Qed.

(** A deployment whose plans allow two dollars, and two grants with usage between them. *)
Definition samplePlan : BillingPlanConfig := {|
  label := "Go"; monthlyPriceCents := num_of_Z 1000; introFirstMonthPriceCents := None; rollingLimitUsd := num_of_Z 2;
  rollingWindowHours := num_of_Z 5; weeklyLimitUsd := num_of_Z 3; monthlyLimitUsd := num_of_Z 4; lifetimeLimitUsd := None; cloudSandbox := true |}.
Definition sampleConfig : BillingConfig := {|
  enabled := true; plans := λ _, samplePlan; anonymousPlan := samplePlan; anonymousMaxRequests := num_of_Z 10;
  anonymousMaxRequestsPerIp := num_of_Z 100; freeEmailAllowanceShare := num_of_Z 1; stripePriceGo := [1%N]; stripePricePro := [2%N];
  goFirstMonthCoupon := None |}.
Definition sampleCalls : list (Call * Z) :=
  [(SessionGrant "cap" 1772373600000, 1772366400000); (GatewayUsage [sampleEvent "r1" "ada" 60000000], 1772366460000);
   (SessionGrant "next" 1772373600000, 1772366520000)].

Lemma grants_are_covered_witness :
  ∃ row', account (run "ada" ((λ call, (call, inr sampleConfig)) <$> sampleCalls) (withAccount (defaultAccount 1772323200000) emptyLedger)) = Some row'
    ∧ 140000000 ≤ includedHeadroom (usageSnapshot sampleConfig row' 1772366520000) + Z.max 0 (credit_balance row').
Proof.
  destruct (grants_are_covered sampleConfig "ada" sampleCalls 1772366520000 1772323200000
    (withAccount (defaultAccount 1772323200000) emptyLedger) (defaultAccount 1772323200000)) as (row' & Hrow' & Hheld).
  - reflexivity.
  - unfold sound. simpl. lia.
  - lia.
  - vm_compute. congruence.
  - by repeat constructor.
  - unfold inOrder. simpl. repeat constructor; simpl; lia.
  - exists row'. split; [exact Hrow'|].
    replace (debtOf _ _ _ _ _) with 0 in Hheld by (vm_compute; reflexivity).
    replace (reservedGrants _ _) with 140000000 in Hheld by (vm_compute; reflexivity). lia.
Defined.
