(* ===== verification/BillingFindings.v ===== *)
(** * Where billing does something it does not mean to

    Each example is a run of the model: events of Stripe that overlap at their fetch, an incomplete
    configuration, a plan set by hand, a subscription that began on the 31st, and the capability of a
    paying owner whose windows are used up. *)

From Corelib Require Import ssreflect SpecFloat.
From stdpp Require Import prelude gmap strings.
From S2P Require Import Prelude JsNumber GatewayPolicy Calendar BillingPlans Billing BillingStripe BillingWindows BillingCredit BillingGrants.
From S2P Require Ledger.

#[local] Open Scope Z_scope.

Definition ready {A} (calls : list A) : list (A * (string + BillingConfig)) := (λ call, (call, inr sampleConfig)) <$> calls.

Definition sampleSubscription (price : list N) (start : Z) : StripeSubscription := {|
  subscriptionId := "sub"; status := "active"; customer := "cus"; cancelAtPeriodEnd := false; periodStart := Some start; periodEnd := None;
  itemPriceId := Some price; itemPeriodStart := None; itemPeriodEnd := None; card := None |}.
Definition updated (id : string) : StripeEvent := {|
  eventId := id; eventType := "customer.subscription.updated";
  object := {| objectId := "sub"; mode := None; purpose := None; paymentStatus := None; amountCents := S754_nan;
               amountSubtotal := S754_zero false; subscription := None; nestedSubscription := None |} |}.

(** Two events fetch the subscription; between the fetches it went from Pro to Go.  The older answer
    arrives last, both events are applied, and the owner stays on Pro. *)
Example overlapping_events_leave_a_stale_plan :
  let pro := sampleSubscription [2%N] 1769817600 in
  let go := sampleSubscription [1%N] 1769817600 in
  let l := run "ada" (ready
    [(BeginEvent (updated "e1"), 1769817601000); (BeginEvent (updated "e2"), 1769817602000);
     (EndEvent (updated "e2") (Some go) 1769817602000, 1769817603000); (EndEvent (updated "e1") (Some pro) 1769817601000, 1769817604000)]) emptyLedger in
  plan <$> account l = Some Pro ∧ is_Some (stripeEvents l !! "e1") ∧ is_Some (stripeEvents l !! "e2").
Proof. vm_compute. split_and!; [reflexivity|by eexists|by eexists]. Qed.

(** The configuration is incomplete when usage arrives: the call throws behind the receipt, and the
    delivery that follows, under a complete configuration, is a duplicate that charges nothing. *)
Example usage_under_a_broken_configuration_is_lost :
  let events := [sampleEvent "r1" "ada" 30] in
  let '(l1, first) := applyGatewayUsage (inl "Missing billing secret STRIPE_PRICE_GO or STRIPE_PRICE_PRO."%string) "ada" events 1000 emptyLedger in
  let '(l2, second) := applyGatewayUsage (inr sampleConfig) "ada" events 2000 l1 in
  first = inl (ConfigFailure "Missing billing secret STRIPE_PRICE_GO or STRIPE_PRICE_PRO.")
  ∧ second = inr {| accepted := []; duplicate := ["r1"%string]; rejected := [] |} ∧ totalUsed l2 = 0.
Proof. vm_compute. split_and!; reflexivity. Qed.

(** An owner on Go who spent this month is set to Go again, with usage to be kept: its month begins anew. *)
Example setting_the_same_plan_restarts_the_month :
  let start := 1769817600000 in
  let calls := [(AdminPlan (Some Go) None None, start); (Usage_ [("u1", num_of_Z 50)]%string, start + 86400000)] in
  let monthlyUsed l now := (λ row, used (monthly (usageSnapshot sampleConfig row now))) <$> account l in
  let l := run "ada" (ready calls) emptyLedger in
  monthlyUsed l (start + 2 * 86400000) = Some 50
  ∧ monthlyUsed (step (inr sampleConfig) "ada" (AdminPlan (Some Go) None (Some false)) (start + 2 * 86400000) l) (start + 3 * 86400000) = Some 0.
Proof. vm_compute. split; reflexivity. Qed.

(** A subscription that began on 31 January renews on 28 February, which becomes the anchor: its next
    period ends on 31 March, and usage of that period is reset on the 28th. *)
Example a_short_month_splits_the_next_period :
  let renewal start := EndEvent (updated "e") (Some (sampleSubscription [1%N] start)) (start * 1000) in
  let march1 := 1772323200000 in
  let march29 := 1774742400000 in
  let l := run "ada" (ready [(renewal 1769817600, 1769817600000); (Usage_ [("u1", num_of_Z 1)]%string, 1769817600000)]) emptyLedger in
  let renewed := run "ada" (ready [(EndEvent (updated "e2") (Some (sampleSubscription [1%N] 1772236800)) 1772236800000, 1772236800000);
                                   (Usage_ [("u2", num_of_Z 50)]%string, march1)]) l in
  let kept := run "ada" (ready [(Usage_ [("u2", num_of_Z 50)]%string, march1)]) l in
  let monthlyUsed l := (λ row, used (monthly (usageSnapshot sampleConfig row march29))) <$> account l in
  monthlyUsed kept = Some 50 ∧ monthlyUsed renewed = Some 0.
Proof. vm_compute. split; reflexivity. Qed.

(** A paying owner past its windows is told that it goes on with fallback models, but the ledger of its
    capability refuses the first call that costs anything. *)
Example a_paying_owner_past_its_windows_stops :
  let start := 1769817600000 in
  let l := run "ada" (ready [(AdminPlan (Some Go) None None, start); (Usage_ [("u1", num_of_Z 400000000)]%string, start)]) emptyLedger in
  let access := accessFor sampleConfig (readAccount start l) start in
  allowed access = true ∧ audience access = aud_go_fallback ∧ capabilityBudget access (reservedGrants start l) = 0.
Proof. vm_compute. split_and!; reflexivity. Qed.
